(* ===== verification/_CoqProject ===== *)
-Q . S2P
Prelude.v
Wire.v
Codec.v
Frame.v
SurfaceScroll.v
SurfaceDelta.v
Backend.v
Panes.v
Scan.v
Input.v
CoreFrame.v
CoreStream.v
CoreCall.v
CoreChanges.v
Schedule.v
ScheduleNext.v
Plan.v
Tokens.v
Limit.v
Relay.v
Devices.v
AuthLimit.v
Pairing.v
Sessions.v
HostLinks.v
NearbyPairing.v
Auth.v
Transcript.v
Nearby.v
Display.v
Alerts.v
LiveActivity.v
Notifier.v
Ansi.v
ClientImages.v
ClientFrame.v
Groups.v
Diff.v
DiffParse.v
ClientSession.v
ClientWorker.v
Project.v
ChatSession.v
ChatEmit.v
ChatRun.v
ChatClient.v
Release.v
Install.v
Updater.v
AutoStore.v
Threads.v
AutoRun.v
AutoDaemon.v
AutoSafe.v
Assist.v
