(* ===== verification/Prelude.v ===== *)
(** * Sheprd: a verification library

    Sheprd shows terminals that live in another process. Two generations of
    that process exist. A generation-1 server sends whole surfaces and patches of
    them in length-prefixed bincode messages; a generation-2 core sends raw
    terminal output over credit-controlled streams of small frames, and events
    about its terminals. Around them the program keeps tabs of split panes,
    encodes keys and mouse events for the programs it shows, runs approved
    scripts on schedules, lets paired phones follow the chats of its agents, and
    replaces itself with signed releases. This library models these parts, each from its Rust source under [src/crates], and
    proves what makes them correct.

    ** Parts, files and state

    - [Prelude] (this file): results ([res], Rust's [Result]), unsigned
      integers with their checked and saturating operations, little-endian bytes,
      strings as lists of code points with their UTF-8 length, decimal numbers,
      slices, tactics and the hint database [sheprd].
    - [Wire]: the message types of sheprd-protocol/src/wire.rs.
    - [Codec]: codec.rs. [encode_message] with its bounded writer,
      [read_message]; a reader is the bytes that are left. bincode is the class
      [Bincode], with [BincodeLaws].
    - [Frame]: frame.rs. [validate_patch], [commit_patch], [apply_patch]; a
      mutable surface is a value passed on, and [None] in place of a result is a
      panic (an index out of range).
    - [SurfaceScroll]: surface_scroll.rs. The byte form of scroll patches and
      the in-place rotation of rows by swaps.
    - [SurfaceDelta]: surface_delta.rs, surface_reuse.rs, surface_prefix.rs and
      clipboard.rs. Deltas against a retained surface, the raw check of a
      patch's header, clipboard images.
    - [Backend]: sheprd-backend. Sizes, terminal IDs and the records both
      generations share.
    - [Panes]: sheprd-session/src/panes.rs and saved.rs. The tree of splits of
      a tab with every operation on it; [f32] is IEEE binary32 of the Standard
      Library's [SpecFloat].
    - [Scan]: sheprd-terminal/src/scan.rs. The automaton that reads output
      before the emulator does; [feed] with the slices it forwards.
    - [Input]: sheprd-terminal/src/modes.rs, input.rs and input/*.rs. What a key,
      mouse event or paste sends to the program.
    - [CoreFrame]: sheprd-core-client/src/frame.rs, the decode loop of
      connection.rs, the line splitter of event.rs, hello.rs and method.rs.
    - [CoreStream]: stream.rs. A channel's inbox, reads that give credit back,
      writes in chunks, and a step relation for the worker and the reader that
      share the inbox.
    - [CoreChanges]: wire.rs, the events of event.rs, and the watcher of
      backend.rs that turns events into changes.
    - [Schedule], [ScheduleNext]: sheprd-automation/src/schedule.rs,
      schedule/cron.rs and schedule/next.rs. Durations, times, day sets and cron
      expressions, when a schedule fires next and what is due. jiff's calendar
      is the class [Zone].
    - [Plan]: sheprd-automation/src/plan.rs with the dispatcher of script.rs. A
      handler is a function from the outcomes so far to its next call.
    - [Tokens]: sheprd-automation/src/tokens.rs. The tokens for what earlier
      steps put out, the reader of a shell command's quoting and the filling of a
      call. The loops carry the length of their text as fuel, of which every turn
      takes some.
    - [Limit], [Relay]: sheprd-push-relay. Token buckets in a bounded table
      (limit.rs); credentials, handles, the trait [Store] with its laws and the
      in-memory store, and every check of a push and a revocation
      (credential.rs, handle.rs, store.rs, relay.rs). Cryptography and APNs are
      the class [Outside].
    - [Transcript]: sheprd-chat-protocol/src/model.rs, change.rs and what they
      contain. A chat's transcript, its binary searches and its reducer.
    - [Nearby]: sheprd-nearby. Framing over Bluetooth, the line reader and the
      core all platforms share.
    - [Devices], [AuthLimit], [Pairing], [Sessions], [HostLinks],
      [NearbyPairing], [Auth]: sheprd-remote-control/src/auth.rs and auth/*.rs.
      The phones a daemon lets in: the device list in memory and on disk, rate
      limits per address, the pairing a person approves, challenges, sessions,
      presence and handoffs, the hosts a phone is taken to, the nearby exchange,
      and the authority over them all. Hashes, signatures and base64 are the
      class [Primitives], curves and ciphers the class [Curve]; random bytes,
      the clock and what the disk answers ([Save], [ReadIo]) are arguments.
    - [Display]: sheprd-chat-protocol/src/display.rs, with binary64 rounding.
    - [Alerts]: push/triggers.rs, push/throttle.rs, push/presence.rs and
      apns/alert.rs. What a change of a chat tells a phone, how often, what waits
      while its owner is near, and the sealed alert. JSON is the class
      [AlertJson].
    - [LiveActivity]: apns/decide.rs, payload.rs, redact.rs, pacer.rs and
      tokens.rs. The activity a turn shows on a locked screen.
    - [Notifier]: server/notifier.rs. Throttles and held notifications per
      device; a HashMap's order is the class [IterOrder] of this file.
    - [Ansi]: ansi.rs and web/render/ansi.rs. Coloured text as runs.
    - [ClientFrame], [ClientImages]: sheprd-client/src/frame.rs and
      surface_images.rs. Frames assembled from what each read gives, and the
      images of the surfaces in flight.
    - [ClientSession], [ClientWorker]: sheprd-client/src/session.rs,
      session/barrier.rs, method.rs, event.rs, limits.rs, handle.rs, queue.rs and
      clipboard.rs. The session a client keeps of a generation-1 server, as
      handlers in a monad over the events delivered ([None] is a panic), and the
      thread that writes queued commands, pings and reads. What the socket, the
      clock and the owner do in a turn are its arguments; JSON is the class
      [EndpointJson].
    - [CoreCall]: sheprd-core-client/src/connection.rs. Callers and the worker
      as a step relation; serde_json is the class [Json].
    - [Groups]: sheprd-gpui/src/browser/groups.rs. A view split into groups of
      tabs, and its saved form.
    - [Diff], [DiffParse]: sheprd-gpui/src/review/diff.rs and diff/parse.rs.
      Git's output as files of numbered lines, and the rows drawn of them.
    - [Project]: sheprd-acp/src/project.rs and project/*.rs. What an agent says
      as changes of a transcript.
    - [ChatSession], [ChatEmit], [ChatRun]: sheprd-acp/src/session.rs and
      session/*.rs. The owner of a conversation: the definitions; what emitting a
      change comes to; what clients and agent see of a run. What queues, clock
      and files answer is the record [World]; JSON is the class [AcpJson]. The
      record [Feed] also keeps the transcripts so far and the clients that left,
      which no definition of the code reads.
    - [ChatClient]: sheprd-gpui/src/chat/session.rs and list.rs, and
      sheprd-acp/src/attach/downgrade.rs. A window's copy of a conversation, the
      rows of its list, and older clients.
    - [Assist]: sheprd-chat-protocol/src/assist.rs and frame.rs. Completions,
      recalled prompts, steps of settings, and the frames of a chat.
    - [Release]: sheprd-updater/src/release.rs, release/*.rs, channel.rs and
      [authenticate] of install.rs. Versions, signed manifests, the addresses and
      redirects that are followed, the check for a release and its download. What
      the network, the owner's cancellation and the clock do is the record [Net];
      JSON, ed25519, SHA-256 and the reading of addresses are the class
      [Trusted].
    - [Install]: install/archive.rs, apply.rs and bundle.rs. The modules [Files]
      (a tree of files and a small Hoare logic over calls that may fail),
      [Archive] (unpacking) and [Apply] (replacing the installed application).
      What calls fail and what other programs answer is the record [Outside].
    - [Updater]: sheprd-updater/src/lib.rs, progress.rs and reason.rs. The window
      and the worker as events on one [World], which uses the offers of
      [Release].
    - [AutoStore]: sheprd-automate/src/store.rs and store/rows.rs. The tables of
      the automation daemon, a function for each statement; a statement is one
      atomic step, as SQLite makes it.
    - [Threads]: programs whose accesses to shared state interleave, the pool of
      their threads, and a rely/guarantee logic with its soundness.
    - [AutoRun]: runner.rs, steps.rs, fingerprint.rs, settings.rs and sampler.rs.
      A run follows a plan of [Plan] and fills its calls with [Tokens]. What an
      access gets from outside is the record [Input]; SHA-256 is the class [Sha],
      dates and zones are the class [Host]. The fields [events], [held],
      [counted] and [alive] of [World] are read by no definition of the code.
    - [AutoDaemon]: daemon.rs, scan.rs, approve.rs and cli/run.rs. Scanning,
      scheduling with [ScheduleNext], requests, starting and ending runs; the
      commands of other processes; and the whole system as labelled steps, crashes
      included. Loops carry a number of turns and go on to [beyond].
    - [AutoSafe]: the history of the system, its invariant, and the proofs that
      every thread keeps it.

    [CoreStream] encodes with [CoreFrame], which decodes what [CoreStream]
    queued; [CoreChanges] produces the records of [Backend] and reads IDs with
    its constructor, as [Panes] does; [SurfaceScroll] and [SurfaceDelta] apply the
    checks of [Frame] and the framing of [Codec]. [ClientSession] composes
    [Frame], [SurfaceScroll], [SurfaceDelta] and [ClientImages], and
    [ClientWorker] runs it over the reader and writer of [ClientFrame];
    [CoreCall] runs over [CoreFrame] and [CoreStream]. [ChatSession] applies the
    changes [Project] makes with the reducer of [Transcript], and sends them to
    windows, which [ChatClient] models with the same reducer. [AutoRun] walks the
    plans of [Plan] over the tables of [AutoStore], and [AutoDaemon] starts it as a
    thread of [Threads] when [ScheduleNext] says a script is due.

    ** What the theorems show

    - Surfaces: a patch or scroll patch, whatever its contents, never panics; a
      refused one changes nothing; an accepted one gives a valid frame whose
      every cell is accounted for ([apply_patch_correct],
      [apply_scroll_patch_correct], [delta_reconstruct_correct]).
    - Codecs: what is written is read back, in order, with nothing lost, however
      the bytes are cut ([read_write_roundtrip], [scroll_roundtrip],
      [frames_roundtrip], [lines_split_invariant], [write_delivers]).
    - Streams: over every interleaving the reader gets the bytes once and in
      order, the buffer stays bounded, and no wakeup is lost ([route_safe],
      [route_delivers]).
    - Watching: the snapshot with the changes applied shows the core's records
      with every event up to the last one sent, each once and in order
      ([watch_refines]).
    - Panes: the tree's invariant under every sequence of operations, each
      operation's effect on the list of terminals, and which operations undo
      each other ([panes_invariant] and the theorems after it).
    - Terminal bytes: the scanner's result does not depend on how output is cut,
      it holds a bounded string and otherwise loses nothing; pasted text cannot
      escape its brackets; reports read back as the event they encode.
    - Schedules: texts read back as what they were written from, cron
      expressions mean what cron says, the next firing is the first one, and
      missed firings collapse into the latest.
    - Plans: the plan is exactly what the script can do, so a run guarded by the
      walker is never halted ([plan_keeps_runs]). A step's output reaches a later
      [sh] step only through variables, each referred to inside double quotes
      ([shell_output_quoted]), and the command does not depend on it
      ([shell_noninterference]).
    - The relay: a key is granted no more than its burst and what its
      rate refills in the time its clock moved forward, and another key's
      requests do not change its level ([rate_bound], [allow_correct]); a
      handle whose revocation was answered sends nothing again, over every
      sequence of operations and for every store that keeps the laws
      ([revoked_stays_dead]); credentials are exactly what the relay signed
      ([credential_exact]).
    - Chats and phones: a change fits or leaves the transcript alone, and the
      invariant holds ([apply_correct]); messages from interleaved phones arrive
      whole ([nearby_delivers]).
    - Who is let in: a bearer token names a device only on a signature by the
      present key of a paired device, let in by somebody ([access_accounted]); a
      revoked device is nowhere until it is let in again
      ([revoked_locked_out]); an approval answers a claim of a token that was
      fresh and is spent once ([approval_traced]); the flow of pairing, of a
      challenge and of a host's answer succeeds as meant ([pairing_flow],
      [session_roundtrip], [enrolment_accounted]); a failed save changes nothing
      in memory ([store_atomic]).
    - What phones hear: generic pushes carry no text ([generic_says_nothing]); the budget per hour and chat ([budget_kept]); an alert's
      body is cut from its end until the push fits, and that ends
      ([push_returns]); an activity that started ends with its turn, unless a
      summary is already the last entry ([activity_ended]); a chat's notifications keep their order
      ([order_kept]).
    - Clients: frames survive any cutting and any timing of reads
      ([reader_delivers]); images are bounded and kept while a surface names them
      ([images_kept]); what is drawn of a terminal's text is its characters in
      valid styles ([parse_safe]); a tab is listed in one group
      ([listed_once]), across a restart too ([saved_roundtrip]).
    - Connections: over every interleaving a caller gets the answer to its own
      call or learns of the loss ([calls_matched]), and a channel's bytes go to
      the stream that opened it ([streams_kept]). Whatever a generation-1 server
      sends and an owner asks for, the client does not panic and a window sees one consistent session
      ([session_refines]); commands reach the wire whole and in order
      ([wire_in_order]) and answers come back in the order of their requests
      ([answers_in_order]).
    - Reviews: a diff that was printed reads back, its lines as they are
      shown ([parse_print]), and the two
      columns hold every line once and in order ([split_complete]).
    - Conversations: a window is always in step with the conversation, whichever
      clients come, go or cannot keep up ([window_in_step]), also one of an
      earlier revision ([older_client_follows]), and its rows show what the
      transcript holds ([rows_current]); an agent is answered once, and only as a
      person decided ([answers_authorized]); prompts reach it in order
      ([prompts_in_order]), and a command sent again is not run again
      ([command_once]); what is kept is bounded ([session_bounded]); every change
      made of an agent's update fits ([updates_fit]). What a user typed is recalled
      as it was typed ([typed_shown], [push_recalled]), and a frame is read back
      however it is cut ([frame_read_back]).
    - Updates: an offered release is newer, under the embedded key's signature,
      and the one asset of its manifest for this host ([offer_authentic]); a
      download writes only what an approved address answered and is kept only with
      the signed size and digest ([download_verified]); unpacking touches nothing outside its directory, and
      links lead inside it ([extract_confined]); whichever call fails, the old
      application and the new one survive at known places ([replace_recovers]);
      what the window shows is what the worker holds, and a busy state ends
      ([updater_settles]).
    - Automations: over every interleaving of daemon, runs, commands and crashes,
      a script runs only as the latest approval has it, and does only what its
      plan says ([only_approved]); a firing is run at most once, and a script at
      most once at a time ([firings_once]); the agents counted and those starting
      stay under the cap ([agents_capped]).

    ** Fuel and bounds

    [Scan.feed_loop] has two turns per byte: a turn either moves on or leaves a
    state that moves on next. [CoreFrame.drain] has one turn per buffered byte
    and one more: a frame takes at least its header. [ScheduleNext.cron_walk]
    has a turn per minute up to the limit, since a turn moves at least a minute
    in a zone that satisfies [ZoneLaws]. [Plan.explore] has one more than
    [MAX_PATHS] nested calls, the last of which the source refuses by its count;
    [Transcript.narrow] halves at most as often as there are entries;
    [Alerts.push_loop] has a turn per byte of the body and one more, and
    [Ansi.runs_loop] one per character. [ChatSession.emit_loop] has a turn per
    client and three more: a change may emit a picture of the message before, a
    truncation and the pictures of a call, and each client that is lost has the
    clients counted again. The theorems show that none runs out.
    Integers are [N] or [Z] with the source's widths checked where the source
    checks them or can overflow.

    ** What is not modelled

    The interface (sheprd-gpui, but for its groups and diffs), sockets, processes, third-party formats
    (bincode, JSON, base64, Unicode case mapping, calendars: parameters with the
    laws the source relies on), the emulator (alacritty), and the Luau machine.
    A relay's operations are whole steps: a push that was already past its check
    when a revocation came in is not covered. The reader in
    [Tokens] is the code's, not a shell's: [Tokens.case_pattern] shows where they
    differ. The disk of [Devices] and [HostLinks] either keeps, replaces or
    replaces and then fails; torn files are not covered. The counters of a chat
    session (changes, requests, permissions) are unbounded, 64 bits in the source.
    Of the updater, Homebrew, the package managers, the Windows installer, the checks
    of a file's owner, code signatures and the helper's pipe are not modelled.
    Of sheprd-automate, child processes, calls of Herdr and git, the usage logs of
    agents, the service units and the printed reports are not modelled; the loops of
    its daemon and sampler never end by themselves, so a system is started with the
    number of turns that are looked at, and the theorems hold for every number.
    Restoring chats (restore.rs), the bridges to agents, the words of a
    changed line and the command loop of the nearby helper are left out as well:
    readers of third-party formats, files, or loops over sockets. *)

From Stdlib Require Import ZArith NArith Ascii String Lia.
From stdpp Require Import base gmap strings option numbers list.

(** ** Tactics

    [dlia] is [lia] with the defining equations of [/] and [mod]. [case_ifs]
    splits every boolean test of the goal or of a hypothesis, turning the
    comparisons of [N], [Z] and [nat] into facts [lia] reads. *)

Ltac dlia := zify; Z.to_euclidean_division_equations; lia.

Ltac case_test b :=
  lazymatch b with
  | N.ltb ?x ?y => destruct (N.ltb_spec x y)
  | N.leb ?x ?y => destruct (N.leb_spec x y)
  | N.eqb ?x ?y => destruct (N.eqb_spec x y)
  | Z.ltb ?x ?y => destruct (Z.ltb_spec x y)
  | Z.leb ?x ?y => destruct (Z.leb_spec x y)
  | Z.eqb ?x ?y => destruct (Z.eqb_spec x y)
  | bool_decide ?P => destruct (decide P);
      [rewrite (bool_decide_true P) in * by assumption
      |rewrite (bool_decide_false P) in * by assumption]
  | negb ?c => case_test c
  | andb ?c ?d => case_test c
  | orb ?c ?d => case_test c
  | _ => let E := fresh "E" in destruct b eqn:E
  end.

Ltac case_ifs :=
  repeat (match goal with
  | |- context [if ?b then _ else _] => case_test b; simpl in *
  | H : context [if ?b then _ else _] |- _ => case_test b; simpl in *
  end; simplify_eq); try done.

(** ** Results

    Rust's [Result<A, E>]; [?] is the monadic bind. *)

Inductive res (E A : Type) : Type :=
| Ok (a : A)
| Err (e : E).
Arguments Ok {E A} a.
Arguments Err {E A} e.

#[export] Instance res_ret {E} : MRet (res E) := λ A a, Ok a.

#[export] Instance res_bind {E} : MBind (res E) := λ A B f m,
  match m with Ok a => f a | Err e => Err e end.

#[export] Instance res_fmap {E} : FMap (res E) := λ A B f m,
  match m with Ok a => Ok (f a) | Err e => Err e end.

Definition is_some {A} (o : option A) : bool := match o with Some _ => true | None => false end.

Definition ok_or {E A} (e : E) (o : option A) : res E A :=
  match o with Some a => Ok a | None => Err e end.

Definition ok {E A} (r : res E A) : option A :=
  match r with Ok a => Some a | Err _ => None end.

Definition map_err {E F A} (f : E → F) (r : res E A) : res F A :=
  match r with Ok a => Ok a | Err e => Err (f e) end.

(** [if c { return Err(e) }]: a guard that leaves with an error. *)
Definition refuse_if {E} (c : bool) (e : E) : res E unit :=
  if c then Err e else Ok tt.

#[export] Instance res_eq_dec {E A} `{EqDecision E, EqDecision A} : EqDecision (res E A).
Proof. solve_decision. Defined.

Lemma refuse_if_ok {E} (c : bool) (e : E) u : refuse_if c e = Ok u ↔ c = false.
Proof. destruct c, u; simpl; naive_solver. Qed.

Lemma res_bind_ok {E A B} (f : A → res E B) (m : res E A) b :
  m ≫= f = Ok b ↔ ∃ a, m = Ok a ∧ f a = Ok b.
Proof. destruct m; simpl; naive_solver. Qed.

Lemma ok_or_ok {E A} (e : E) (o : option A) a : ok_or e o = Ok a ↔ o = Some a.
Proof. destruct o; simpl; naive_solver. Qed.

(** ** Machine integers

    Unsigned integers are [N]; [uN w] is the range of the [w]-bit type, and the
    checked and saturating operations are those of the standard library. *)

Local Open Scope N_scope.

Definition u8_max : N := 255.
Definition u16_max : N := 65535.
Definition u32_max : N := 4294967295.
Definition u64_max : N := 18446744073709551615.

Definition checked_add (max a b : N) : option N :=
  if a + b <=? max then Some (a + b) else None.

Definition checked_mul (max a b : N) : option N :=
  if a * b <=? max then Some (a * b) else None.

Definition saturating_add (max a b : N) : N := N.min max (a + b).

Definition saturating_mul (max a b : N) : N := N.min max (a * b).

(** [N] subtraction already stops at zero. *)
Definition saturating_sub (a b : N) : N := a - b.

(** [usize] lengths. *)
Definition lenN {A} (l : list A) : N := N.of_nat (length l).

Lemma checked_add_Some max a b c :
  checked_add max a b = Some c ↔ c = a + b ∧ a + b ≤ max.
Proof.
  unfold checked_add. destruct (N.leb_spec (a + b) max); split; [by intros [= <-]|by intros [-> _]|done|intros; lia].
Qed.

Lemma checked_mul_Some max a b c :
  checked_mul max a b = Some c ↔ c = a * b ∧ a * b ≤ max.
Proof.
  unfold checked_mul. destruct (N.leb_spec (a * b) max); split; [by intros [= <-]|by intros [-> _]|done|intros; lia].
Qed.

Lemma lenN_app {A} (l k : list A) : lenN (l ++ k) = lenN l + lenN k.
Proof. unfold lenN. rewrite length_app. lia. Qed.

Lemma lenN_nil {A} (l : list A) : lenN l = 0 ↔ l = [].
Proof. unfold lenN. destruct l; simpl; split; intros; done || lia. Qed.

(** ** Bytes *)

Definition is_byte (b : N) : Prop := b < 256.

(** [to_le_bytes] of an [n]-byte integer, and [from_le_bytes]. *)
Fixpoint le_bytes (n : nat) (z : N) : list N :=
  match n with
  | O => []
  | S n => z mod 256 :: le_bytes n (z / 256)
  end.

Fixpoint le_val (l : list N) : N :=
  match l with
  | [] => 0
  | b :: l => b + 256 * le_val l
  end.

Definition be_bytes (n : nat) (z : N) : list N := reverse (le_bytes n z).

Definition be_val (l : list N) : N := le_val (reverse l).

Lemma length_le_bytes n z : length (le_bytes n z) = n.
Proof. revert z. induction n; simpl; auto. Qed.

Lemma le_bytes_byte n z : Forall is_byte (le_bytes n z).
Proof.
  revert z. induction n; simpl; constructor; auto.
  unfold is_byte. apply N.mod_lt. lia.
Qed.

Lemma le_val_bytes n z : z < 256 ^ N.of_nat n → le_val (le_bytes n z) = z.
Proof.
  revert z. induction n as [|n IH]; intros z Hz.
  - simpl in *. rewrite N.pow_0_r in Hz. lia.
  - rewrite Nat2N.inj_succ, N.pow_succ_r' in Hz. simpl.
    rewrite IH; [|apply N.Div0.div_lt_upper_bound; lia].
    pose proof (N.div_mod z 256 ltac:(lia)). lia.
Qed.

Lemma le_bytes_val l : Forall is_byte l → le_bytes (length l) (le_val l) = l.
Proof.
  unfold is_byte. induction 1 as [|b l Hb Hl IH]; simpl; [done|].
  assert ((b + 256 * le_val l) mod 256 = b) as ->.
  { rewrite (N.mul_comm 256), N.Div0.mod_add. by apply N.mod_small. }
  assert ((b + 256 * le_val l) / 256 = le_val l) as ->.
  { rewrite (N.mul_comm 256), N.div_add, N.div_small by lia. lia. }
  by rewrite IH.
Qed.

Lemma le_val_bound l : Forall is_byte l → le_val l < 256 ^ N.of_nat (length l).
Proof.
  unfold is_byte. induction 1 as [|b l Hb Hl IH]; [simpl; lia|].
  cbn [length le_val]. rewrite Nat2N.inj_succ, N.pow_succ_r'. lia.
Qed.

Lemma length_be_bytes n z : length (be_bytes n z) = n.
Proof. unfold be_bytes. by rewrite length_reverse, length_le_bytes. Qed.

Lemma be_val_bytes n z : z < 256 ^ N.of_nat n → be_val (be_bytes n z) = z.
Proof. intros. unfold be_val, be_bytes. rewrite reverse_involutive. by apply le_val_bytes. Qed.

Lemma le_val_bytes2 z : z ≤ u16_max → le_val (le_bytes 2 z) = z.
Proof. intros H. apply le_val_bytes. unfold u16_max in H. change (256 ^ N.of_nat 2) with 65536. lia. Qed.

Lemma le_val_bytes4 z : z ≤ u32_max → le_val (le_bytes 4 z) = z.
Proof. intros H. apply le_val_bytes. unfold u32_max in H. change (256 ^ N.of_nat 4) with 4294967296. lia. Qed.

#[global] Arguments le_bytes : simpl never.
#[global] Arguments le_val : simpl never.

(** ** Strings

    A Rust [str] is a sequence of Unicode scalar values; its bytes are their
    UTF-8 encoding and [len] counts those bytes. [lit] writes an ASCII literal. *)

Abbreviation str := (list N) (only parsing).

Definition lit (s : string) : str :=
  (λ a, N_of_ascii a) <$> list_ascii_of_string s.

Arguments lit s%_string_scope.

(** [char::encode_utf8]. *)
Definition utf8_char (c : N) : list N :=
  if c <? 128 then [c]
  else if c <? 2048 then [192 + c / 64; 128 + c mod 64]
  else if c <? 65536 then [224 + c / 4096; 128 + (c / 64) mod 64; 128 + c mod 64]
  else [240 + c / 262144; 128 + (c / 4096) mod 64; 128 + (c / 64) mod 64; 128 + c mod 64].

Definition len_utf8 (c : N) : N :=
  if c <? 128 then 1 else if c <? 2048 then 2 else if c <? 65536 then 3 else 4.

(** [str::as_bytes] and [str::len]. *)
Definition as_bytes (s : str) : list N := s ≫= utf8_char.

Definition str_len (s : str) : N := lenN (as_bytes s).

(** [char::from_u32]: a scalar value, so not a surrogate. *)
Definition is_char (c : N) : bool :=
  (c <? 55296) || ((57344 <=? c) && (c <? 1114112)).

Definition char_from_u32 (c : N) : option N := if is_char c then Some c else None.

(** [char::is_control]: the C0 and C1 controls and DEL. *)
Definition is_control (c : N) : bool :=
  (c <? 32) || ((127 <=? c) && (c <? 160)).

(** [char::is_whitespace]: Unicode's White_Space. *)
Definition is_whitespace (c : N) : bool :=
  ((9 <=? c) && (c <=? 13)) || (c =? 32) || (c =? 133) || (c =? 160) || (c =? 5760)
  || ((8192 <=? c) && (c <=? 8202)) || (c =? 8232) || (c =? 8233) || (c =? 8239) || (c =? 8287) || (c =? 12288).

(** [str::trim_start] and [str::trim]. *)
Fixpoint trim_start (s : str) : str :=
  match s with
  | c :: t => if is_whitespace c then trim_start t else s
  | [] => []
  end.

Definition trim (s : str) : str := reverse (trim_start (reverse (trim_start s))).

(** [str::split] at the characters [sep] accepts. *)
Fixpoint split_on (sep : N → bool) (s : str) : list str :=
  match s with
  | [] => [[]]
  | c :: s =>
      if sep c then [] :: split_on sep s
      else match split_on sep s with
           | piece :: pieces => (c :: piece) :: pieces
           | [] => [[c]]
           end
  end.

(** [join] of strings. *)
Fixpoint join (sep : str) (words : list str) : str :=
  match words with
  | [] => []
  | [w] => w
  | w :: words => w ++ sep ++ join sep words
  end.

Lemma join_Forall (P : N → Prop) sep ws : Forall P sep → Forall (Forall P) ws → Forall P (join sep ws).
Proof.
  intros Hs. induction 1 as [|w ws Hw Hws IH]; [constructor|]. cbn. destruct ws; [done|]. by repeat (apply Forall_app; split).
Qed.

Definition is_ascii_digit (c : N) : bool := (48 <=? c) && (c <=? 57).
Definition is_ascii_lowercase (c : N) : bool := (97 <=? c) && (c <=? 122).
Definition is_ascii_uppercase (c : N) : bool := (65 <=? c) && (c <=? 90).
Definition is_ascii_alphanumeric (c : N) : bool :=
  is_ascii_digit c || is_ascii_lowercase c || is_ascii_uppercase c.
Definition is_ascii_graphic (c : N) : bool := (33 <=? c) && (c <=? 126).

Definition to_ascii_lowercase (c : N) : N :=
  if is_ascii_uppercase c then c + 32 else c.

Definition to_ascii_uppercase (c : N) : N :=
  if is_ascii_lowercase c then c - 32 else c.

Definition eq_ignore_ascii_case (a b : str) : bool :=
  bool_decide (to_ascii_lowercase <$> a = to_ascii_lowercase <$> b).

Lemma length_utf8_char c : lenN (utf8_char c) = len_utf8 c.
Proof.
  unfold utf8_char, len_utf8, lenN.
  destruct (c <? 128), (c <? 2048), (c <? 65536); done.
Qed.

Lemma utf8_char_byte c : is_char c = true → Forall is_byte (utf8_char c).
Proof.
  unfold is_char, utf8_char, is_byte. intros Hc.
  assert (c < 1114112) by (destruct (N.ltb_spec c 55296), (N.ltb_spec c 1114112); simpl in *;
    try lia; by rewrite andb_false_r in Hc).
  pose proof (N.mod_lt c 64). pose proof (N.mod_lt (c / 64) 64). pose proof (N.mod_lt (c / 4096) 64).
  assert (c / 262144 < 16) by (apply N.Div0.div_lt_upper_bound; lia).
  destruct (N.ltb_spec c 128); [repeat constructor; lia|].
  destruct (N.ltb_spec c 2048).
  { assert (c / 64 < 32) by (apply N.Div0.div_lt_upper_bound; lia). rewrite !Forall_cons_iff. repeat split; [lia..|done]. }
  destruct (N.ltb_spec c 65536).
  { assert (c / 4096 < 16) by (apply N.Div0.div_lt_upper_bound; lia). rewrite !Forall_cons_iff. repeat split; [lia..|done]. }
  rewrite !Forall_cons_iff. repeat split; [lia..|done].
Qed.

Lemma as_bytes_app s t : as_bytes (s ++ t) = as_bytes s ++ as_bytes t.
Proof. apply bind_app. Qed.

(** The characters that fit in [n] bytes: a prefix cut on a boundary. *)
Fixpoint byte_prefix (n : N) (s : str) : str :=
  match s with
  | [] => []
  | c :: s => if len_utf8 c <=? n then c :: byte_prefix (n - len_utf8 c) s else []
  end.

Lemma str_len_cons c s : str_len (c :: s) = len_utf8 c + str_len s.
Proof. unfold str_len. change (as_bytes (c :: s)) with (utf8_char c ++ as_bytes s). by rewrite lenN_app, length_utf8_char. Qed.

Lemma str_len_app s t : str_len (s ++ t) = str_len s + str_len t.
Proof. unfold str_len. by rewrite as_bytes_app, lenN_app. Qed.

Lemma len_utf8_pos c : 1 ≤ len_utf8 c.
Proof. unfold len_utf8. destruct (c <? 128), (c <? 2048), (c <? 65536); lia. Qed.

Lemma byte_prefix_prefix n s : byte_prefix n s `prefix_of` s.
Proof.
  revert n. induction s as [|c s IH]; intros n; cbn; [done|]. destruct (_ <=? n); [by apply prefix_cons|apply prefix_nil].
Qed.

Lemma byte_prefix_len n s : str_len (byte_prefix n s) ≤ n.
Proof.
  revert n. induction s as [|c s IH]; intros n; cbn [byte_prefix]; [apply N.le_0_l|].
  destruct (N.leb_spec (len_utf8 c) n); [|apply N.le_0_l]. rewrite str_len_cons. specialize (IH (n - len_utf8 c)). lia.
Qed.

(** Nothing longer fits: the next character would cross the end. *)
Lemma byte_prefix_max n s c t : s = byte_prefix n s ++ c :: t → n < str_len (byte_prefix n s) + len_utf8 c.
Proof.
  revert n. induction s as [|d s IH]; intros n; cbn; [done|]. destruct (N.leb_spec (len_utf8 d) n) as [Hd|Hd].
  - intros [= E]. apply IH in E. rewrite str_len_cons. lia.
  - intros [= <- _]. change (str_len []) with 0. lia.
Qed.

(** [str::lines]: the lines without their ends, [\n] or [\r\n]. *)
Definition strip_cr (s : str) : str := match reverse s with 13 :: r => reverse r | _ => s end.
Fixpoint ended_lines (pieces : list str) : list str :=
  match pieces with
  | [] => []
  | [rest] => if bool_decide (rest = []) then [] else [rest]
  | piece :: pieces => strip_cr piece :: ended_lines pieces
  end.
Definition str_lines (s : str) : list str := ended_lines (split_on (λ c, c =? 10) s).

(** ** Decimal numbers

    [dec] is [to_string] of an unsigned integer; [parse_uint] is
    [str::parse] of one: an optional [+], then at least one digit, with
    overflow past [max] an error. *)

Fixpoint dec_go (fuel : nat) (n : N) (acc : str) : str :=
  match fuel with
  | O => acc
  | S fuel =>
      let acc := 48 + n mod 10 :: acc in
      if n / 10 =? 0 then acc else dec_go fuel (n / 10) acc
  end.

Definition dec (n : N) : str := dec_go (S (N.to_nat (N.size n))) n [].

Fixpoint parse_digits (max acc : N) (s : str) : option N :=
  match s with
  | [] => Some acc
  | c :: s =>
      if is_ascii_digit c then
        acc ← checked_mul max acc 10;
        acc ← checked_add max acc (c - 48);
        parse_digits max acc s
      else None
  end.

Definition parse_uint (max : N) (s : str) : option N :=
  match s with
  | [] => None
  | [c] => if c =? 43 then None else parse_digits max 0 s
  | c :: t => if c =? 43 then parse_digits max 0 t else parse_digits max 0 s
  end.

Example dec_example : dec 12034 = lit "12034". Proof. reflexivity. Qed.
Example parse_example : parse_uint u64_max (lit "+0042") = Some 42. Proof. reflexivity. Qed.

Definition dval (acc : N) (s : str) : N := foldl (λ a c, a * 10 + (c - 48)) acc s.

Lemma dval_app acc s t : dval acc (s ++ t) = dval (dval acc s) t.
Proof. apply foldl_app. Qed.

Lemma dval_mono acc s : acc ≤ dval acc s.
Proof. revert acc. induction s as [|c s IH]; intros acc; simpl; [lia|]. specialize (IH (acc * 10 + (c - 48))). lia. Qed.

Lemma parse_digits_dval max acc s :
  Forall (λ c, is_ascii_digit c = true) s → dval acc s ≤ max →
  parse_digits max acc s = Some (dval acc s).
Proof.
  intros Hs. revert acc. induction Hs as [|c s Hc Hs IH]; intros acc Hle; simpl; [done|].
  rewrite Hc. pose proof (dval_mono (acc * 10 + (c - 48)) s). simpl in Hle.
  rewrite (proj2 (checked_mul_Some max acc 10 _)) by (split; [done|lia]). simpl.
  rewrite (proj2 (checked_add_Some max _ _ _)) by (split; [done|lia]). simpl. by apply IH.
Qed.

Lemma dec_go_app fuel n acc : dec_go fuel n acc = dec_go fuel n [] ++ acc.
Proof.
  revert n acc. induction fuel as [|fuel IH]; intros n acc; simpl; [done|].
  destruct (n / 10 =? 0); [done|]. rewrite (IH _ (_ :: acc)), (IH _ [_]).
  by rewrite <-app_assoc.
Qed.

Lemma digit_ascii n : is_ascii_digit (48 + n mod 10) = true.
Proof.
  unfold is_ascii_digit. assert (n mod 10 < 10) by (by apply N.mod_lt).
  apply andb_true_intro. split; apply N.leb_le; dlia.
Qed.

Lemma dec_go_digits fuel n : Forall (λ c, is_ascii_digit c = true) (dec_go fuel n []).
Proof.
  revert n. induction fuel as [|fuel IH]; intros n; simpl; [done|].
  destruct (n / 10 =? 0); [repeat constructor; apply digit_ascii|].
  rewrite dec_go_app. apply Forall_app. split; [done|]. repeat constructor. apply digit_ascii.
Qed.

Lemma dec_go_val fuel n : n < 2 ^ N.of_nat fuel → dval 0 (dec_go (S fuel) n []) = n.
Proof.
  revert n. induction fuel as [|fuel IH]; intros n Hn.
  - rewrite N.pow_0_r in Hn. assert (n = 0) as -> by lia. done.
  - rewrite Nat2N.inj_succ, N.pow_succ_r' in Hn. remember (S fuel) as f.
    cbn [dec_go]. assert (n = 10 * (n / 10) + n mod 10) by (apply N.div_mod; done).
    assert (n mod 10 < 10) by (by apply N.mod_lt).
    destruct (N.eqb_spec (n / 10) 0) as [Hz|Hz].
    + cbn. lia.
    + rewrite dec_go_app, dval_app. subst f.
      rewrite IH by (apply N.Div0.div_lt_upper_bound; lia). cbn [dval foldl].
      rewrite (N.add_comm 48), N.add_sub, N.mul_comm. symmetry; by apply N.div_mod.
Qed.

Lemma dec_digits n : Forall (λ c, is_ascii_digit c = true) (dec n).
Proof. apply dec_go_digits. Qed.

Lemma dec_nonempty n : dec n ≠ [].
Proof.
  unfold dec. cbn [dec_go]. destruct (n / 10 =? 0); [done|].
  rewrite dec_go_app. by destruct (dec_go _ _ []).
Qed.

Lemma dec_dval n : dval 0 (dec n) = n.
Proof.
  unfold dec. apply dec_go_val. rewrite N2Nat.id. apply N.size_gt.
Qed.

Lemma parse_uint_digits max s :
  s ≠ [] → Forall (λ c, is_ascii_digit c = true) s → dval 0 s ≤ max →
  parse_uint max s = Some (dval 0 s).
Proof.
  intros Hne Hs Hle. rewrite <-(parse_digits_dval max) by done.
  destruct Hs as [|c s Hc Hs]; [done|]. unfold parse_uint.
  assert ((c =? 43) = false) as -> by (apply N.eqb_neq; intros ->; done).
  by destruct s.
Qed.

Lemma parse_uint_dec max n : n ≤ max → parse_uint max (dec n) = Some n.
Proof.
  intros Hn. rewrite <-(dec_dval n) at 2. apply parse_uint_digits.
  - apply dec_nonempty.
  - apply dec_digits.
  - by rewrite dec_dval.
Qed.

(** ** Splitting and trimming text *)

Lemma trim_start_plain s c : head s = Some c → is_whitespace c = false → trim_start s = s.
Proof. destruct s as [|d s]; simpl; [done|]. intros [= ->] ->. done. Qed.

(** Text that neither starts nor ends with white space. *)
Lemma trim_plain s c d :
  head s = Some c → last s = Some d → is_whitespace c = false → is_whitespace d = false → trim s = s.
Proof.
  intros Hh Hl Hc Hd. unfold trim. rewrite (trim_start_plain s c) by done.
  rewrite (trim_start_plain (reverse s) d); [apply reverse_involutive| |done].
  by rewrite head_reverse.
Qed.

Lemma split_on_app (sep : N → bool) a c b :
  Forall (λ x, sep x = false) a → sep c = true → split_on sep (a ++ c :: b) = a :: split_on sep b.
Proof.
  intros Ha Hc. induction Ha as [|x a Hx Ha IH]; simpl; [by rewrite Hc|]. by rewrite Hx, IH.
Qed.

Lemma split_on_none (sep : N → bool) a : Forall (λ x, sep x = false) a → split_on sep a = [a].
Proof. induction 1 as [|x a Hx Ha IH]; simpl; [done|]. by rewrite Hx, IH. Qed.

Lemma digit_range c : is_ascii_digit c = true ↔ 48 ≤ c ≤ 57.
Proof. unfold is_ascii_digit. by rewrite andb_true_iff, !N.leb_le. Qed.

Lemma digit_not_space c : is_ascii_digit c = true → is_whitespace c = false.
Proof.
  rewrite digit_range. intros Hc. unfold is_whitespace.
  rewrite !orb_false_iff, !andb_false_iff, !N.eqb_neq, !N.leb_gt. lia.
Qed.

(** ** Slices

    [slice a b l] is [l[a..b]] and [write_at i k l] is
    [l[i..i + k.len()].clone_from_slice(k)]: [None] is the panic an out of
    range index would raise. *)

Definition slice {A} (a b : nat) (l : list A) : option (list A) :=
  if (a <=? b)%nat && (b <=? length l)%nat then Some (take (b - a) (drop a l)) else None.

Definition write_at {A} (i : nat) (k l : list A) : option (list A) :=
  if (i + length k <=? length l)%nat then Some (list_inserts i k l) else None.

Section slices.
Context {A : Type}.
Implicit Types l k : list A.

Lemma write_at_fits i k l :
  (i + length k ≤ length l)%nat → write_at i k l = Some (list_inserts i k l).
Proof. intros H. unfold write_at. by rewrite (proj2 (Nat.leb_le _ _) H). Qed.

Lemma write_at_length i k l l' : write_at i k l = Some l' → length l' = length l.
Proof.
  unfold write_at. destruct (Nat.leb_spec (i + length k) (length l)); [|done].
  intros [= <-]. apply length_inserts.
Qed.

Lemma write_at_Some i k l l' :
  write_at i k l = Some l' ↔ (i + length k ≤ length l)%nat ∧ l' = list_inserts i k l.
Proof. unfold write_at. destruct (Nat.leb_spec (i + length k) (length l)); naive_solver lia. Qed.

Lemma slice_app_l a l k : a = length l → slice 0 a (l ++ k) = Some l.
Proof.
  intros ->. unfold slice. rewrite (proj2 (Nat.leb_le (length l) _)) by (rewrite length_app; lia).
  simpl. by rewrite drop_0, Nat.sub_0_r, take_app_length.
Qed.
End slices.

(** [slice::chunks]: pieces of [n], the last one shorter. *)
Fixpoint chunks (fuel : nat) (n : N) (l : list N) : list (list N) :=
  match fuel, l with
  | O, _ | _, [] => []
  | S fuel, _ =>
      let size := N.to_nat (N.min n (lenN l)) in
      take size l :: chunks fuel n (drop size l)
  end.

Lemma chunks_spec fuel n (l : list N) :
  0 < n → (length l ≤ fuel)%nat →
  concat (chunks fuel n l) = l ∧ Forall (λ p, lenN p ≤ n ∧ p ≠ []) (chunks fuel n l).
Proof.
  intros Hn. revert l. induction fuel as [|fuel IH]; intros l Hl.
  { destruct l; [done|simpl in Hl; lia]. }
  destruct l as [|x l]; [done|]. cbn [chunks concat]. set (size := N.to_nat (N.min n (lenN (x :: l)))).
  assert (0 < size ≤ length (x :: l))%nat by (unfold size, lenN; cbn [length]; lia).
  destruct (IH (drop size (x :: l))) as [Hc Hf]; [rewrite length_drop; cbn [length] in *; lia|].
  rewrite Hc, take_drop. split; [done|]. constructor; [|done]. split.
  - unfold lenN. rewrite length_take. unfold size in *. lia.
  - intros E. apply (f_equal length) in E. rewrite length_take in E. cbn [length] in *. lia.
Qed.

(** A loop whose body can fail (or panic). *)
Fixpoint foldM {A B} (f : A → B → option A) (a : A) (l : list B) : option A :=
  match l with
  | [] => Some a
  | b :: l => a ← f a b; foldM f a l
  end.

Lemma foldM_app {A B} (f : A → B → option A) a l k :
  foldM f a (l ++ k) = foldM f a l ≫= λ a, foldM f a k.
Proof. revert a. induction l as [|b l IH]; intros a; simpl; [done|]. destruct (f a b); simpl; auto. Qed.

(** A loop that keeps an invariant never fails when its body does not. *)
Lemma foldM_ind {A B} (f : A → B → option A) (P : A → Prop) l a :
  P a → (∀ a b, b ∈ l → P a → ∃ a', f a b = Some a' ∧ P a') →
  ∃ a', foldM f a l = Some a' ∧ P a'.
Proof.
  revert a. induction l as [|b l IH]; intros a Ha Hf; simpl; [eauto|].
  destruct (Hf a b) as (a' & -> & Ha'); [set_solver|done|]. simpl.
  apply IH; [done|]. intros. apply Hf; [set_solver|done].
Qed.

(** ** Hash maps

    [HashMap] iterates in no particular order: [iter] is any. *)

Class IterOrder (K V : Type) `{Countable K} := {
  iter : gmap K V → list (K * V);
  iter_perm m : iter m ≡ₚ map_to_list m;
}.

#[export] Program Instance iter_plain {K V} `{Countable K} : IterOrder K V := {| iter := map_to_list |}.
Next Obligation. done. Qed.

Lemma elem_of_iter {K V} `{IterOrder K V} (m : gmap K V) k v : (k, v) ∈ iter m ↔ m !! k = Some v.
Proof. by rewrite iter_perm, elem_of_map_to_list. Qed.

(** [Iterator::min_by_key]: the first of the least. *)
Fixpoint min_by_key {A} (f : A → N) (l : list A) : option A :=
  match l with
  | [] => None
  | a :: l =>
      match min_by_key f l with
      | Some b => if f a <=? f b then Some a else Some b
      | None => Some a
      end
  end.

Lemma min_by_key_Some {A} (f : A → N) l a : min_by_key f l = Some a → a ∈ l ∧ ∀ b, b ∈ l → f a ≤ f b.
Proof.
  revert a. induction l as [|x l IH]; intros a; cbn; [done|]. destruct (min_by_key f l) as [y|] eqn:E.
  - destruct (IH y eq_refl) as [Hy Hmin]. destruct (N.leb_spec (f x) (f y)) as [Hle|Hlt]; intros [= <-].
    + split; [set_solver|]. intros b [->|Hb]%elem_of_cons; [done|]. specialize (Hmin b Hb). lia.
    + split; [set_solver|]. intros b [->|Hb]%elem_of_cons; [lia|by apply Hmin].
  - intros [= <-]. destruct l as [|z l]; [|by cbn in E; destruct (min_by_key f l) as [w|]; [destruct (f z <=? f w)|]].
    split; [set_solver|]. intros b Hb. set_solver.
Qed.

Lemma min_by_key_None {A} (f : A → N) l : min_by_key f l = None → l = [].
Proof. destruct l as [|a l]; cbn; [done|]. destruct (min_by_key f l) as [b|]; [by destruct (f a <=? f b)|done]. Qed.

Create HintDb sheprd.
Create Rewrite HintDb sheprd.

#[export] Hint Rewrite @length_app @length_map @length_fmap @length_inserts @length_take @length_drop
  length_le_bytes length_be_bytes @lenN_app : sheprd.
#[export] Hint Resolve le_bytes_byte dec_digits dec_nonempty : sheprd.
