(* ===== verification/Wire.v ===== *)
(** * Wire: the generation-1 message types (crates/sheprd-protocol/src/wire.rs)

    Every type the endpoint and its clients exchange, with the source's fields
    and variants in the source's order (the order is the wire contract: bincode
    is positional). A struct [T] is a record with constructor [MkT] and fields
    prefixed per type; a variant carries its enum's prefix. [u8] to [u64],
    [usize] and [char] are [N]; [i32] is [Z]; [String] is [str];
    [Box<T>] is [T]. The derived [PartialEq] is an [EqDecision] instance. *)

From Stdlib Require Import ZArith NArith.
From stdpp Require Import base list option strings.
From S2P Require Import Prelude.

Inductive RenderEncoding :=
| Enc_SemanticFrame
| Enc_TerminalAnsi.

#[export] Instance RenderEncoding_eq_dec : EqDecision RenderEncoding.
Proof. solve_decision. Defined.

Record ClientSurfaceSize := MkClientSurfaceSize {
  css_cols : N;
  css_rows : N }.

#[export] Instance ClientSurfaceSize_eq_dec : EqDecision ClientSurfaceSize.
Proof. solve_decision. Defined.

Inductive ClientKeyKind :=
| Kind_Press
| Kind_Repeat
| Kind_Release.

#[export] Instance ClientKeyKind_eq_dec : EqDecision ClientKeyKind.
Proof. solve_decision. Defined.

Inductive ClientKeyCode :=
| Key_Backspace
| Key_Enter
| Key_Left
| Key_Right
| Key_Up
| Key_Down
| Key_Home
| Key_End
| Key_PageUp
| Key_PageDown
| Key_Tab
| Key_BackTab
| Key_Delete
| Key_Insert
| Key_Esc
| Key_Char (v : N)
| Key_F (v : N)
| Key_Null.

#[export] Instance ClientKeyCode_eq_dec : EqDecision ClientKeyCode.
Proof. solve_decision. Defined.

Inductive ClientMouseButton :=
| Button_Left
| Button_Right
| Button_Middle.

#[export] Instance ClientMouseButton_eq_dec : EqDecision ClientMouseButton.
Proof. solve_decision. Defined.

Inductive ClientMouseKind :=
| Mouse_Down (v : ClientMouseButton)
| Mouse_Up (v : ClientMouseButton)
| Mouse_Drag (v : ClientMouseButton)
| Mouse_Moved
| Mouse_ScrollUp
| Mouse_ScrollDown
| Mouse_ScrollLeft
| Mouse_ScrollRight.

#[export] Instance ClientMouseKind_eq_dec : EqDecision ClientMouseKind.
Proof. solve_decision. Defined.

Inductive ClientMousePosition :=
| Pos_Cell (column : N) (row : N)
| Pos_Pixels (x : N) (y : N) (column : N) (row : N).

#[export] Instance ClientMousePosition_eq_dec : EqDecision ClientMousePosition.
Proof. solve_decision. Defined.

Record ClientMouseGeometry := MkClientMouseGeometry {
  cmg_cols : N;
  cmg_rows : N;
  cmg_width_px : N;
  cmg_height_px : N }.

#[export] Instance ClientMouseGeometry_eq_dec : EqDecision ClientMouseGeometry.
Proof. solve_decision. Defined.

Record WindowsKeyRecord := MkWindowsKeyRecord {
  wkr_key_down : bool;
  wkr_repeat_count : N;
  wkr_virtual_key_code : N;
  wkr_virtual_scan_code : N;
  wkr_unicode : N;
  wkr_control_key_state : N }.

#[export] Instance WindowsKeyRecord_eq_dec : EqDecision WindowsKeyRecord.
Proof. solve_decision. Defined.

Inductive ClientPaneInputEvent :=
| Input_Key (code : ClientKeyCode) (modifiers : N) (kind : ClientKeyKind) (repeat_count : N) (shifted_codepoint : option N) (generated_text : option str) (tracks_release : bool) (physical_key_id : option N) (windows_record : option WindowsKeyRecord)
| Input_TextCommit (v : str)
| Input_Mouse (kind : ClientMouseKind) (position : ClientMousePosition) (geometry : option ClientMouseGeometry) (modifiers : N) (lines : N)
| Input_Paste (v : str).

#[export] Instance ClientPaneInputEvent_eq_dec : EqDecision ClientPaneInputEvent.
Proof. solve_decision. Defined.

Record ClientHostColor := MkClientHostColor {
  chc_r : N;
  chc_g : N;
  chc_b : N }.

#[export] Instance ClientHostColor_eq_dec : EqDecision ClientHostColor.
Proof. solve_decision. Defined.

Inductive ClientHostDefaultColorKind :=
| DefaultColor_Foreground
| DefaultColor_Background.

#[export] Instance ClientHostDefaultColorKind_eq_dec : EqDecision ClientHostDefaultColorKind.
Proof. solve_decision. Defined.

Inductive ClientHostAppearance :=
| Appearance_Dark
| Appearance_Light.

#[export] Instance ClientHostAppearance_eq_dec : EqDecision ClientHostAppearance.
Proof. solve_decision. Defined.

Inductive ClientHostThemeUpdate :=
| Theme_DefaultColor (kind : ClientHostDefaultColorKind) (color : ClientHostColor)
| Theme_PaletteColors (v : list (N * ClientHostColor))
| Theme_Appearance (v : ClientHostAppearance).

#[export] Instance ClientHostThemeUpdate_eq_dec : EqDecision ClientHostThemeUpdate.
Proof. solve_decision. Defined.

Inductive ClientClipboardImageTarget :=
| Target_DirectTerminal
| Target_Pane (v : str)
| Target_Popup (v : str).

#[export] Instance ClientClipboardImageTarget_eq_dec : EqDecision ClientClipboardImageTarget.
Proof. solve_decision. Defined.

Inductive AttachScrollDirection :=
| ScrollDir_Up
| ScrollDir_Down.

#[export] Instance AttachScrollDirection_eq_dec : EqDecision AttachScrollDirection.
Proof. solve_decision. Defined.

Inductive AttachScrollSource :=
| ScrollSource_Wheel
| ScrollSource_PageKey (input : list N).

#[export] Instance AttachScrollSource_eq_dec : EqDecision AttachScrollSource.
Proof. solve_decision. Defined.

Inductive ClientMessage :=
| CM_TerminalHello (version : N) (cols : N) (rows : N) (cell_width_px : N) (cell_height_px : N) (pixel_mouse : bool)
| CM_Input (data : list N)
| CM_ClipboardImage (target : ClientClipboardImageTarget) (extension : str) (data : list N)
| CM_Resize (cols : N) (rows : N) (cell_width_px : N) (cell_height_px : N) (pixel_mouse : bool)
| CM_Detach
| CM_AttachTerminal (terminal_id : str) (takeover : bool)
| CM_AttachScroll (source : AttachScrollSource) (direction : AttachScrollDirection) (lines : N) (column : option N) (row : option N) (modifiers : N)
| CM_ObserveTerminal (target : str)
| CM_ControlTerminal (target : str) (takeover : bool)
| CM_GraphicsTransmissionResult (transfer_id : N) (image_id : N) (success : bool)
| CM_GraphicsTransmissionStarted (transfer_id : N) (image_id : N)
| CM_ClientShellHello (version : N) (cell_width_px : N) (cell_height_px : N) (surface_size : ClientSurfaceSize) (pixel_mouse : bool) (direct_graphics : bool) (endpoint_keybindings : bool) (mouse_capture : bool)
| CM_ClientShellResize (cell_width_px : N) (cell_height_px : N) (surface_size : ClientSurfaceSize) (pixel_mouse : bool)
| CM_ClientShellPaneInput (pane_id : str) (events : list ClientPaneInputEvent)
| CM_ClientShellPopupInput (terminal_id : str) (events : list ClientPaneInputEvent)
| CM_ClientShellEndpointRequest (boot_id : str) (request : str)
| CM_AttachMouse (kind : ClientMouseKind) (position : ClientMousePosition) (geometry : option ClientMouseGeometry) (modifiers : N) (lines : N)
| CM_ClientShellHostTheme (update : ClientHostThemeUpdate)
| CM_ClientShellFocus (focused : bool)
| CM_ClientShellMouseCapture (enabled : bool)
| CM_EndpointControl (kind : str) (data : str).

#[export] Instance ClientMessage_eq_dec : EqDecision ClientMessage.
Proof. solve_decision. Defined.

Record CellData := MkCellData {
  cell_symbol : str;
  cell_fg : N;
  cell_bg : N;
  cell_modifier : N;
  cell_skip : bool;
  cell_hyperlink : option N }.

#[export] Instance CellData_eq_dec : EqDecision CellData.
Proof. solve_decision. Defined.

Record CursorState := MkCursorState {
  cursor_x : N;
  cursor_y : N;
  cursor_visible : bool;
  cursor_shape : N }.

#[export] Instance CursorState_eq_dec : EqDecision CursorState.
Proof. solve_decision. Defined.

Record FrameData := MkFrameData {
  frame_cells : list CellData;
  frame_width : N;
  frame_height : N;
  frame_cursor : option CursorState;
  frame_hyperlinks : list str;
  frame_graphics : list N }.

#[export] Instance FrameData_eq_dec : EqDecision FrameData.
Proof. solve_decision. Defined.

Inductive AgentStatus :=
| Status_Idle
| Status_Working
| Status_Blocked
| Status_Done
| Status_Unknown.

#[export] Instance AgentStatus_eq_dec : EqDecision AgentStatus.
Proof. solve_decision. Defined.

Record ClientShellProductAnnouncement := MkClientShellProductAnnouncement {
  ann_version : str;
  ann_id : str;
  ann_title : str;
  ann_body : str;
  ann_preview : bool }.

#[export] Instance ClientShellProductAnnouncement_eq_dec : EqDecision ClientShellProductAnnouncement.
Proof. solve_decision. Defined.

Record ClientShellReleaseNotes := MkClientShellReleaseNotes {
  notes_version : str;
  notes_body : str;
  notes_preview : bool }.

#[export] Instance ClientShellReleaseNotes_eq_dec : EqDecision ClientShellReleaseNotes.
Proof. solve_decision. Defined.

Inductive ClientShellCommandAction :=
| Action_Shell
| Action_Pane
| Action_Popup
| Action_PluginAction
| Action_Unknown.

#[export] Instance ClientShellCommandAction_eq_dec : EqDecision ClientShellCommandAction.
Proof. solve_decision. Defined.

Record ClientShellCommand := MkClientShellCommand {
  cmd_command_id : str;
  cmd_binding_label : str;
  cmd_binding_labels : list str;
  cmd_action : ClientShellCommandAction;
  cmd_description : option str }.

#[export] Instance ClientShellCommand_eq_dec : EqDecision ClientShellCommand.
Proof. solve_decision. Defined.

Record ClientShellTabStatusSegment := MkClientShellTabStatusSegment {
  seg_text : str;
  seg_accent : bool }.

#[export] Instance ClientShellTabStatusSegment_eq_dec : EqDecision ClientShellTabStatusSegment.
Proof. solve_decision. Defined.

Record ClientShellWorktree := MkClientShellWorktree {
  wt_key : str;
  wt_label : str;
  wt_is_linked_worktree : bool }.

#[export] Instance ClientShellWorktree_eq_dec : EqDecision ClientShellWorktree.
Proof. solve_decision. Defined.

Record ClientShellWorkspace := MkClientShellWorkspace {
  ws_workspace_id : str;
  ws_active_tab_id : str;
  ws_new_workspace_cwd : str;
  ws_number : N;
  ws_label : str;
  ws_custom_label : bool;
  ws_branch : option str;
  ws_git_ahead_behind : option (N * N);
  ws_tokens : list (str * str);
  ws_worktree : option ClientShellWorktree;
  ws_focused : bool;
  ws_agent_status : AgentStatus }.

#[export] Instance ClientShellWorkspace_eq_dec : EqDecision ClientShellWorkspace.
Proof. solve_decision. Defined.

Record ClientShellTab := MkClientShellTab {
  tab_tab_id : str;
  tab_workspace_id : str;
  tab_number : N;
  tab_label : str;
  tab_custom_label : bool;
  tab_zoomed : bool;
  tab_focused : bool;
  tab_agent_status : AgentStatus }.

#[export] Instance ClientShellTab_eq_dec : EqDecision ClientShellTab.
Proof. solve_decision. Defined.

Record ClientShellPane := MkClientShellPane {
  cpane_pane_id : str;
  cpane_workspace_id : str;
  cpane_tab_id : str;
  cpane_label : option str;
  cpane_cwd : option str;
  cpane_foreground_cwd : option str;
  cpane_focused : bool;
  cpane_right_click_passthrough : bool }.

#[export] Instance ClientShellPane_eq_dec : EqDecision ClientShellPane.
Proof. solve_decision. Defined.

Record ClientShellAgent := MkClientShellAgent {
  agent_pane_id : str;
  agent_workspace_id : str;
  agent_tab_id : str;
  agent_name : option str;
  agent_display_agent : option str;
  agent_agent : option str;
  agent_title : option str;
  agent_terminal_title : option str;
  agent_terminal_title_stripped : option str;
  agent_agent_status : AgentStatus;
  agent_state_change_seq : N;
  agent_state_labels : list (str * str);
  agent_tokens : list (str * str);
  agent_focused : bool }.

#[export] Instance ClientShellAgent_eq_dec : EqDecision ClientShellAgent.
Proof. solve_decision. Defined.

Record ClientShellSnapshot := MkClientShellSnapshot {
  snap_boot_id : str;
  snap_revision : N;
  snap_config_diagnostic : option str;
  snap_product_announcement : option ClientShellProductAnnouncement;
  snap_update_available : option str;
  snap_update_install_command : str;
  snap_server_keybindings_toml : option str;
  snap_latest_release_notes_available : bool;
  snap_integration_updates_available : bool;
  snap_worktree_directory : str;
  snap_release_notes : option ClientShellReleaseNotes;
  snap_focused_workspace_id : option str;
  snap_focused_tab_id : option str;
  snap_focused_pane_id : option str;
  snap_tab_bar_right : list ClientShellTabStatusSegment;
  snap_tab_bar_right_separator : str;
  snap_agent_view_label : option str;
  snap_agent_order : list str;
  snap_workspaces : list ClientShellWorkspace;
  snap_tabs : list ClientShellTab;
  snap_panes : list ClientShellPane;
  snap_agents : list ClientShellAgent;
  snap_commands : list ClientShellCommand }.

#[export] Instance ClientShellSnapshot_eq_dec : EqDecision ClientShellSnapshot.
Proof. solve_decision. Defined.

Record PaneSurfaceScrollMetrics := MkPaneSurfaceScrollMetrics {
  psm_offset_from_bottom : N;
  psm_max_offset_from_bottom : N;
  psm_viewport_rows : N }.

#[export] Instance PaneSurfaceScrollMetrics_eq_dec : EqDecision PaneSurfaceScrollMetrics.
Proof. solve_decision. Defined.

Record SurfaceRect := MkSurfaceRect {
  rect_x : N;
  rect_y : N;
  rect_width : N;
  rect_height : N }.

#[export] Instance SurfaceRect_eq_dec : EqDecision SurfaceRect.
Proof. solve_decision. Defined.

Record PaneSurfacePane := MkPaneSurfacePane {
  pane_pane_id : str;
  pane_content_revision : N;
  pane_rect : SurfaceRect;
  pane_inner_rect : SurfaceRect;
  pane_scrollbar_rect : option SurfaceRect;
  pane_scroll : option PaneSurfaceScrollMetrics;
  pane_focused : bool;
  pane_mouse_reporting : bool;
  pane_sgr_pixel_mouse : bool;
  pane_alternate_screen_active : bool;
  pane_pixel_width : N;
  pane_pixel_height : N }.

#[export] Instance PaneSurfacePane_eq_dec : EqDecision PaneSurfacePane.
Proof. solve_decision. Defined.

Inductive PaneSurfaceSplitDirection :=
| SplitDir_Horizontal
| SplitDir_Vertical.

#[export] Instance PaneSurfaceSplitDirection_eq_dec : EqDecision PaneSurfaceSplitDirection.
Proof. solve_decision. Defined.

Record PaneSurfaceSplit := MkPaneSurfaceSplit {
  split_direction : PaneSurfaceSplitDirection;
  split_pos : N;
  split_area : SurfaceRect;
  split_hit_rect : SurfaceRect;
  split_path : list bool }.

#[export] Instance PaneSurfaceSplit_eq_dec : EqDecision PaneSurfaceSplit.
Proof. solve_decision. Defined.

Inductive SurfaceGraphicsTarget :=
| GTarget_Pane (pane_id : str)
| GTarget_Popup (terminal_id : str).

#[export] Instance SurfaceGraphicsTarget_eq_dec : EqDecision SurfaceGraphicsTarget.
Proof. solve_decision. Defined.

Inductive SurfaceGraphicsSource :=
| GSource_Terminal (target : SurfaceGraphicsTarget) (image_id : N)
| GSource_PaneLayer (pane_id : str) (layer_id : str).

#[export] Instance SurfaceGraphicsSource_eq_dec : EqDecision SurfaceGraphicsSource.
Proof. solve_decision. Defined.

Inductive SurfaceGraphicsFormat :=
| GFormat_Rgb
| GFormat_Rgba
| GFormat_Png.

#[export] Instance SurfaceGraphicsFormat_eq_dec : EqDecision SurfaceGraphicsFormat.
Proof. solve_decision. Defined.

Record SurfaceGraphicsAssetKey := MkSurfaceGraphicsAssetKey {
  ak_source : SurfaceGraphicsSource;
  ak_image_width : N;
  ak_image_height : N;
  ak_format : SurfaceGraphicsFormat;
  ak_data_len : N;
  ak_data_fingerprint : N }.

#[export] Instance SurfaceGraphicsAssetKey_eq_dec : EqDecision SurfaceGraphicsAssetKey.
Proof. solve_decision. Defined.

Record SurfaceGraphicsAsset := MkSurfaceGraphicsAsset {
  asset_key : SurfaceGraphicsAssetKey;
  asset_data : list N }.

#[export] Instance SurfaceGraphicsAsset_eq_dec : EqDecision SurfaceGraphicsAsset.
Proof. solve_decision. Defined.

Record SurfaceGraphicsPlacement := MkSurfaceGraphicsPlacement {
  pl_asset : SurfaceGraphicsAssetKey;
  pl_logical_placement_id : N;
  pl_x : N;
  pl_y : N;
  pl_cols : N;
  pl_rows : N;
  pl_source_x : N;
  pl_source_y : N;
  pl_source_width : N;
  pl_source_height : N;
  pl_x_offset : N;
  pl_y_offset : N;
  pl_z : Z;
  pl_scrollback_offset : N }.

#[export] Instance SurfaceGraphicsPlacement_eq_dec : EqDecision SurfaceGraphicsPlacement.
Proof. solve_decision. Defined.

Record SurfaceGraphicsScene := MkSurfaceGraphicsScene {
  scene_assets : list SurfaceGraphicsAsset;
  scene_placements : list SurfaceGraphicsPlacement;
  scene_retained_assets : list SurfaceGraphicsAssetKey }.

#[export] Instance SurfaceGraphicsScene_eq_dec : EqDecision SurfaceGraphicsScene.
Proof. solve_decision. Defined.

Inductive ClientShellPopupSize :=
| PopupSize_Cells (v : N)
| PopupSize_Percent (v : N).

#[export] Instance ClientShellPopupSize_eq_dec : EqDecision ClientShellPopupSize.
Proof. solve_decision. Defined.

Record ClientShellPopupSurface := MkClientShellPopupSurface {
  popup_terminal_id : str;
  popup_title : str;
  popup_width : option ClientShellPopupSize;
  popup_height : option ClientShellPopupSize;
  popup_frame : FrameData;
  popup_mouse_reporting : bool;
  popup_sgr_pixel_mouse : bool;
  popup_pixel_width : N;
  popup_pixel_height : N }.

#[export] Instance ClientShellPopupSurface_eq_dec : EqDecision ClientShellPopupSurface.
Proof. solve_decision. Defined.

Record PaneSurfaceFrame := MkPaneSurfaceFrame {
  surf_boot_id : str;
  surf_projection_revision : N;
  surf_surface_revision : N;
  surf_frame : FrameData;
  surf_panes : list PaneSurfacePane;
  surf_splits : list PaneSurfaceSplit;
  surf_popup : option ClientShellPopupSurface;
  surf_graphics : SurfaceGraphicsScene }.

#[export] Instance PaneSurfaceFrame_eq_dec : EqDecision PaneSurfaceFrame.
Proof. solve_decision. Defined.

Record PaneSurfacePatchRow := MkPaneSurfacePatchRow {
  row_x : N;
  row_y : N;
  row_cells : list CellData }.

#[export] Instance PaneSurfacePatchRow_eq_dec : EqDecision PaneSurfacePatchRow.
Proof. solve_decision. Defined.

Record PaneSurfacePatch := MkPaneSurfacePatch {
  patch_boot_id : str;
  patch_projection_revision : N;
  patch_base_surface_revision : N;
  patch_surface_revision : N;
  patch_rows : list PaneSurfacePatchRow;
  patch_panes : list PaneSurfacePane;
  patch_cursor : option CursorState }.

#[export] Instance PaneSurfacePatch_eq_dec : EqDecision PaneSurfacePatch.
Proof. solve_decision. Defined.

Record TerminalFrame := MkTerminalFrame {
  tf_seq : N;
  tf_width : N;
  tf_height : N;
  tf_full : bool;
  tf_bytes : list N }.

#[export] Instance TerminalFrame_eq_dec : EqDecision TerminalFrame.
Proof. solve_decision. Defined.

Inductive NotifyKind :=
| Notify_Sound
| Notify_Toast
| Notify_SystemToast.

#[export] Instance NotifyKind_eq_dec : EqDecision NotifyKind.
Proof. solve_decision. Defined.

Inductive SemanticNotificationKind :=
| NKind_NeedsAttention
| NKind_Finished
| NKind_UpdateInstalled
| NKind_Custom.

#[export] Instance SemanticNotificationKind_eq_dec : EqDecision SemanticNotificationKind.
Proof. solve_decision. Defined.

Inductive SemanticNotificationSound :=
| NSound_Done
| NSound_Request.

#[export] Instance SemanticNotificationSound_eq_dec : EqDecision SemanticNotificationSound.
Proof. solve_decision. Defined.

Inductive ToastHerdrPosition :=
| Toast_TopLeft
| Toast_TopRight
| Toast_BottomLeft
| Toast_BottomRight.

#[export] Instance ToastHerdrPosition_eq_dec : EqDecision ToastHerdrPosition.
Proof. solve_decision. Defined.

Record SemanticNotification := MkSemanticNotification {
  sn_kind : SemanticNotificationKind;
  sn_title : str;
  sn_body : option str;
  sn_sound : option SemanticNotificationSound;
  sn_agent : option str;
  sn_workspace_id : option str;
  sn_tab_id : option str;
  sn_pane_id : option str;
  sn_position : option ToastHerdrPosition }.

#[export] Instance SemanticNotification_eq_dec : EqDecision SemanticNotification.
Proof. solve_decision. Defined.

Inductive ServerMessage :=
| SM_Welcome (version : N) (encoding : RenderEncoding) (error : option str)
| SM_Terminal (v : TerminalFrame)
| SM_Graphics (bytes : list N)
| SM_ServerShutdown (reason : option str)
| SM_Notify (kind : NotifyKind) (message : str) (body : option str)
| SM_Clipboard (data : str)
| SM_WindowTitle (title : option str)
| SM_ReloadSoundConfig
| SM_MouseCapture (enabled : bool) (sgr_pixels : bool)
| SM_TerminalBell (count : N)
| SM_GraphicsFile (path : str) (expected_len : N) (image_id : N) (transfer_id : N) (leading : list N) (control : str) (surface_asset : option SurfaceGraphicsAssetKey)
| SM_GraphicsTransmissionRetired (transfer_id : N) (image_id : N)
| SM_ClientShellSnapshot (v : ClientShellSnapshot)
| SM_PaneSurface (v : PaneSurfaceFrame)
| SM_SemanticNotification (v : SemanticNotification)
| SM_ClientShellError (message : str)
| SM_DirectTerminalKeyboardProtocol (flags : N) (modify_other_keys_level : N)
| SM_ClientShellKeyboardReportAll (enabled : bool)
| SM_ClientShellEndpointResponseChunk (boot_id : str) (request_id : str) (final_chunk : bool) (data : list N)
| SM_PaneSurfacePatch (v : PaneSurfacePatch)
| SM_EndpointControl (kind : str) (data : str).

#[export] Instance ServerMessage_eq_dec : EqDecision ServerMessage.
Proof. solve_decision. Defined.

(** ** Agent statuses in JSON

    [deserialize_client_shell_agent_status], in the human-readable format: a
    word this client does not know reads as [Unknown]. *)
Definition deserialize_client_shell_agent_status (word : str) : AgentStatus :=
  if decide (word = lit "idle") then Status_Idle
  else if decide (word = lit "working") then Status_Working
  else if decide (word = lit "blocked") then Status_Blocked
  else if decide (word = lit "done") then Status_Done
  else Status_Unknown.
