(* ===== verification/Codec.v ===== *)
(** * Codec: protocol errors and length-prefixed framing
    (crates/sheprd-protocol/src/error.rs, codec.rs)

    A frame is a little-endian [u32] length and that many bytes of bincode.
    bincode itself is third-party code: it is the class [Bincode], which gives
    the slices one encoding hands to its writer and what a decoder makes of a
    byte sequence, and [BincodeLaws], which states what its documentation
    promises. The bounded writer, the limits and the framing are the source's. *)

From Stdlib Require Import NArith Lia.
From stdpp Require Import base option list.
From S2P Require Import Prelude Wire.

Local Open Scope N_scope.

(** The [std::io::ErrorKind]s the crate tells apart. *)
Inductive IoErrorKind :=
| Io_InvalidData
| Io_UnexpectedEof
| Io_Interrupted
| Io_Other.

(** [error.rs]; the payloads of the third-party errors are dropped, the kind
    of an I/O error is kept. *)
Inductive Error :=
| E_Io (kind : IoErrorKind)
| E_Encode
| E_Decode
| E_FrameLimit
| E_EmptyFrame
| E_ClipboardImageSize
| E_ClipboardImageExtension
| E_ClipboardImageTarget
| E_TrailingBytes
| E_CellCount
| E_HyperlinkIndex
| E_CursorBounds
| E_PatchIdentity
| E_PatchRowBounds
| E_PatchGeometry
| E_PatchCursorBounds
| E_EncodingLimit
| E_EncodingPayload
| E_EncodingJson
| E_ScrollCount
| E_ScrollTruncated
| E_ScrollPayload
| E_ScrollBounds
| E_SurfaceBaseline
| E_DeltaGridLimit
| E_DeltaMetadataCells
| E_DeltaSpan
| E_DeltaPopup.

#[export] Instance IoErrorKind_eq_dec : EqDecision IoErrorKind.
Proof. solve_decision. Defined.

#[export] Instance Error_eq_dec : EqDecision Error.
Proof. solve_decision. Defined.

(** [Error::kind]. *)
Definition error_kind (e : Error) : IoErrorKind :=
  match e with E_Io k => k | _ => Io_InvalidData end.

Definition MAX_FRAME_SIZE : N := 2 * 1024 * 1024.
Definition MAX_GRAPHICS_FRAME_SIZE : N := 32 * 1024 * 1024.

(** ** bincode

    [bin_writes m] is the slices [encode_into_std_write] passes to the writer,
    in order, [None] when the value cannot be encoded. [bin_decode limit bs]
    is [decode_from_slice] under [with_limit]: the value and the bytes used. *)
Class Bincode (M : Type) := {
  bin_writes : M → option (list (list N));
  bin_decode : N → list N → option (M * N);
  (** The values a decoder under a limit accepts: bincode also charges the
      memory a value claims, so this is not a bound on the bytes alone. *)
  bin_fits : N → M → Prop;
}.

Class BincodeLaws (M : Type) `{Bincode M} := {
  (** Decoding reads back an encoded value and uses exactly its bytes. *)
  bin_roundtrip (limit : N) (m : M) (ws : list (list N)) (rest : list N) :
    bin_writes m = Some ws → bin_fits limit m →
    bin_decode limit (concat ws ++ rest) = Some (m, lenN (concat ws));
  (** A decoder never claims to have used bytes it was not given. *)
  bin_used (limit : N) (bs : list N) (m : M) (used : N) :
    bin_decode limit bs = Some (m, used) → used ≤ lenN bs;
  (** What it writes is bytes. *)
  bin_bytes (m : M) (ws : list (list N)) :
    bin_writes m = Some ws → Forall is_byte (concat ws);
}.

(** ** The bounded writer *)

Record Bounded := MkBounded { bw_bytes : list N; bw_limit : N }.

(** [Bounded::write]: a slice that would pass the limit is refused whole. *)
Definition bounded_write (w : Bounded) (bytes : list N) : option Bounded :=
  if saturating_sub (bw_limit w) (lenN (bw_bytes w)) <? lenN bytes then None
  else Some (MkBounded (bw_bytes w ++ bytes) (bw_limit w)).

Section codec.
  Context {M : Type} `{BM : Bincode M}.

Definition encode_message (message : M) (limit : N) : res Error (list N) :=
  let out := MkBounded [0; 0; 0; 0] (saturating_add u64_max (N.min limit u32_max) 4) in
  ws ← ok_or E_Encode (bin_writes message);
  out ← ok_or E_Encode (foldM bounded_write out ws);
  let len := lenN (bw_bytes out) - 4 in
  if len =? 0 then Err E_EmptyFrame
  else Ok (le_bytes 4 len ++ drop 4 (bw_bytes out)).

Definition decode_payload (payload : list N) : res Error M :=
  if (lenN payload =? 0) || (MAX_GRAPHICS_FRAME_SIZE <? lenN payload) then Err E_FrameLimit
  else
    '(message, used) ← ok_or E_Decode (bin_decode MAX_GRAPHICS_FRAME_SIZE payload);
    if negb (used =? lenN payload) then Err E_TrailingBytes else Ok message.

(** [write_message] on a writer that takes everything: the bytes it holds. *)
Definition write_message (writer : list N) (message : M) (limit : N) : res Error (list N) :=
  bytes ← encode_message message limit;
  Ok (writer ++ bytes).

End codec.

(** [Read::read_exact] on the bytes left in a reader. *)
Definition read_exact (n : nat) (reader : list N) : res Error (list N * list N) :=
  if (n <=? length reader)%nat then Ok (take n reader, drop n reader)
  else Err (E_Io Io_UnexpectedEof).

(** [read_message]: the message and the bytes left in the reader. *)
Definition read_message {M} `{Bincode M} (reader : list N) (limit : N) : res Error (M * list N) :=
  '(prefix, reader) ← read_exact 4 reader;
  let len := le_val prefix in
  if (len =? 0) || (N.min limit MAX_GRAPHICS_FRAME_SIZE <? len) then Err E_FrameLimit
  else
    '(payload, reader) ← read_exact (N.to_nat len) reader;
    message ← decode_payload payload;
    Ok (message, reader).

(** ** The incremental limit is a limit on the whole *)

Lemma bounded_write_all ws b L :
  lenN b ≤ L →
  foldM bounded_write (MkBounded b L) ws =
    if lenN b + lenN (concat ws) <=? L then Some (MkBounded (b ++ concat ws) L) else None.
Proof.
  revert b. induction ws as [|w ws IH]; intros b Hb; simpl.
  - rewrite app_nil_r. unfold lenN at 2. simpl. by rewrite N.add_0_r, (proj2 (N.leb_le _ _)).
  - unfold bounded_write, saturating_sub. simpl. rewrite lenN_app.
    destruct (N.ltb_spec (L - lenN b) (lenN w)) as [Hw|Hw]; simpl.
    + destruct (N.leb_spec (lenN b + (lenN w + lenN (concat ws))) L); [lia|done].
    + rewrite IH by (rewrite lenN_app; lia). rewrite lenN_app, <-app_assoc, N.add_assoc. done.
Qed.

Section codec_facts.
Context {M : Type} `{BM : BincodeLaws M}.

(** What [encode_message] writes, without its incremental writer. *)
Definition encode_spec (message : M) (limit : N) : res Error (list N) :=
  match bin_writes message with
  | None => Err E_Encode
  | Some ws =>
      let payload := concat ws in
      if N.min limit u32_max <? lenN payload then Err E_Encode
      else if lenN payload =? 0 then Err E_EmptyFrame
      else Ok (le_bytes 4 (lenN payload) ++ payload)
  end.

Lemma encode_message_whole (message : M) limit :
  encode_message message limit = encode_spec message limit.
Proof.
  unfold encode_message, encode_spec. destruct (bin_writes message) as [ws|]; simpl; [|done].
  assert (saturating_add u64_max (N.min limit u32_max) 4 = N.min limit u32_max + 4) as ->
    by (unfold saturating_add, u64_max, u32_max; lia).
  rewrite bounded_write_all by (unfold lenN; simpl; lia).
  change (lenN [0; 0; 0; 0]) with 4.
  destruct (N.leb_spec (4 + lenN (concat ws)) (N.min limit u32_max + 4)),
    (N.ltb_spec (N.min limit u32_max) (lenN (concat ws))); simpl; try lia; [|done].
  replace (lenN (0 :: 0 :: 0 :: 0 :: concat ws) - 4) with (lenN (concat ws))
    by (unfold lenN; simpl; lia). done.
Qed.

Lemma encode_message_Ok (message : M) limit bytes :
  encode_message message limit = Ok bytes →
  ∃ ws, bin_writes message = Some ws ∧ concat ws ≠ [] ∧
    lenN (concat ws) ≤ N.min limit u32_max ∧
    bytes = le_bytes 4 (lenN (concat ws)) ++ concat ws.
Proof.
  rewrite encode_message_whole. unfold encode_spec.
  destruct (bin_writes message) as [ws|]; [|done]. intros He. case_ifs. exists ws. split_and!; [done| |lia|done].
  intros E. rewrite E in *. done.
Qed.

Lemma read_exact_app n (l k : list N) : length l = n → read_exact n (l ++ k) = Ok (l, k).
Proof.
  intros <-. unfold read_exact. rewrite length_app, (proj2 (Nat.leb_le _ _)) by lia.
  by rewrite take_app_length, drop_app_length.
Qed.

Lemma decode_payload_concat (message : M) ws :
  bin_writes message = Some ws → bin_fits MAX_GRAPHICS_FRAME_SIZE message →
  concat ws ≠ [] → lenN (concat ws) ≤ MAX_GRAPHICS_FRAME_SIZE →
  decode_payload (concat ws) = Ok message.
Proof.
  intros Hw Hf Hne Hle. unfold decode_payload.
  destruct (N.eqb_spec (lenN (concat ws)) 0) as [E|_]; [by apply lenN_nil in E|].
  destruct (N.ltb_spec MAX_GRAPHICS_FRAME_SIZE (lenN (concat ws))); [lia|]. simpl.
  rewrite <-(app_nil_r (concat ws)) at 1. rewrite (bin_roundtrip _ message ws []) by done. simpl.
  by rewrite N.eqb_refl.
Qed.

(** Reading back one frame. *)
Lemma read_encode (message : M) (limit : N) (bytes rest : list N) :
  encode_message message limit = Ok bytes →
  limit ≤ MAX_GRAPHICS_FRAME_SIZE →
  bin_fits MAX_GRAPHICS_FRAME_SIZE message →
  read_message (bytes ++ rest) limit = Ok (message, rest).
Proof.
  intros (ws & Hws & Hne & Hle & ->)%encode_message_Ok Hlim Hfit. unfold read_message.
  rewrite <-app_assoc, read_exact_app by apply length_le_bytes. simpl.
  rewrite le_val_bytes4 by lia.
  destruct (N.eqb_spec (lenN (concat ws)) 0) as [E|_]; [by apply lenN_nil in E|].
  destruct (N.ltb_spec (N.min limit MAX_GRAPHICS_FRAME_SIZE) (lenN (concat ws))); [lia|]. simpl.
  rewrite read_exact_app by (unfold lenN; lia). simpl.
  by rewrite (decode_payload_concat message) by (done || lia).
Qed.

(** [read_message] called [n] times on one reader. *)
Fixpoint read_messages (n : nat) (reader : list N) (limit : N) : res Error (list M * list N) :=
  match n with
  | O => Ok ([], reader)
  | S n =>
      '(m, reader) ← read_message reader limit;
      '(ms, reader) ← read_messages n reader limit;
      Ok (m :: ms, reader)
  end.

(** [write_message] of each message in turn. *)
Fixpoint write_messages (writer : list N) (ms : list M) (limit : N) : res Error (list N) :=
  match ms with
  | [] => Ok writer
  | m :: ms => writer ← write_message writer m limit; write_messages writer ms limit
  end.

Lemma write_messages_frames ms w limit out :
  write_messages w ms limit = Ok out →
  ∃ frames, Forall2 (λ m f, encode_message m limit = Ok f) ms frames ∧ out = w ++ concat frames.
Proof.
  revert w. induction ms as [|m ms IH]; intros w; simpl.
  { intros [= <-]. exists []. by rewrite app_nil_r. }
  unfold write_message. destruct (encode_message m limit) as [b|] eqn:He; [|done]. simpl.
  intros (fs & Hfs & ->)%IH. exists (b :: fs). rewrite <-app_assoc. by split; [constructor|].
Qed.

(** Messages written one after the other to a stream are read back in
    order by a reader with the same limit, which leaves exactly the bytes that
    follow them. *)
Theorem read_write_roundtrip (ms : list M) (limit : N) (bytes rest : list N) :
  write_messages [] ms limit = Ok bytes →
  limit ≤ MAX_GRAPHICS_FRAME_SIZE →
  Forall (bin_fits MAX_GRAPHICS_FRAME_SIZE) ms →
  read_messages (length ms) (bytes ++ rest) limit = Ok (ms, rest).
Proof.
  intros (frames & Hf & ->)%write_messages_frames Hlim Hfit. simpl.
  induction Hf as [|m f ms frames He _ IH]; simpl; [done|].
  apply Forall_cons_iff in Hfit as [Hm Hfit].
  rewrite <-app_assoc, (read_encode m) by done. simpl. by rewrite IH.
Qed.

(** An encoded frame is never longer than its limit and the four length
    bytes; its prefix is the length of what follows; and what a message
    takes decides the result: over the limit is an encoding error, nothing at
    all is an empty frame. *)
Theorem encode_message_bounds (message : M) (limit : N) (ws : list (list N)) :
  bin_writes message = Some ws →
  match encode_message message limit with
  | Ok bytes =>
      4 < lenN bytes ∧ lenN bytes ≤ limit + 4 ∧
      le_val (take 4 bytes) = lenN bytes - 4 ∧ drop 4 bytes = concat ws
  | Err e =>
      (e = E_Encode ∧ N.min limit u32_max < lenN (concat ws)) ∨
      (e = E_EmptyFrame ∧ concat ws = [])
  end.
Proof.
  intros Hws. rewrite encode_message_whole. unfold encode_spec. rewrite Hws.
  destruct (N.ltb_spec (N.min limit u32_max) (lenN (concat ws))) as [|Hle]; [by left|].
  destruct (N.eqb_spec (lenN (concat ws)) 0) as [E|E]; [right; by apply lenN_nil in E|].
  set (n := lenN (concat ws)) in *.
  assert (length (le_bytes 4 n) = 4%nat) as Hl by apply length_le_bytes.
  rewrite lenN_app, take_app_length', drop_app_length' by done.
  assert (lenN (le_bytes 4 n) = 4) as -> by (unfold lenN; by rewrite Hl).
  rewrite le_val_bytes4 by lia. fold n. split_and!; [lia..|done].
Qed.

(** A length prefix that is zero or over the limit is refused before any payload is read. *)
Lemma read_message_limit (prefix rest : list N) (limit : N) :
  length prefix = 4%nat →
  le_val prefix = 0 ∨ N.min limit MAX_GRAPHICS_FRAME_SIZE < le_val prefix →
  read_message (M:=M) (prefix ++ rest) limit = Err E_FrameLimit.
Proof.
  intros Hp Hl. unfold read_message. rewrite read_exact_app by done. simpl.
  destruct Hl as [->|Hl]; [done|]. rewrite (proj2 (N.ltb_lt _ _) Hl), orb_true_r. done.
Qed.

End codec_facts.

(** bincode's own encoding of a [u8] (one byte) shows the classes have instances. *)
#[export] Instance bincode_u8 : Bincode N := {
  bin_writes b := if b <? 256 then Some [[b]] else None;
  bin_decode limit bs := match bs with b :: _ => if (b <? 256) && (1 <=? limit) then Some (b, 1) else None | [] => None end;
  bin_fits limit _ := 1 ≤ limit;
}.

#[export] Instance bincode_u8_laws : BincodeLaws N.
Proof.
  split.
  - intros limit b ws rest Hw Hf. cbn in *.
    destruct (N.ltb_spec b 256) as [Hb|]; simplify_eq. simpl.
    by rewrite (proj2 (N.ltb_lt b 256)), (proj2 (N.leb_le 1 limit)) by done.
  - intros limit [|b bs] m used Hd; cbn in *; [done|].
    destruct ((b <? 256) && (1 <=? limit)); simplify_eq. unfold lenN. simpl. lia.
  - intros b ws Hw. cbn in Hw. destruct (N.ltb_spec b 256); simplify_eq. by repeat constructor.
Qed.

Lemma read_write_roundtrip_witness :
  write_messages [] [7; 8] 10 = Ok [1; 0; 0; 0; 7; 1; 0; 0; 0; 8] ∧
  read_messages 2 ([1; 0; 0; 0; 7; 1; 0; 0; 0; 8] ++ [9; 9]) 10 = Ok ([7; 8], [9; 9]).
Proof.
  split; [reflexivity|].
  apply (read_write_roundtrip [7; 8] 10 [1; 0; 0; 0; 7; 1; 0; 0; 0; 8] [9; 9]).
  - reflexivity.
  - vm_compute. discriminate.
  - repeat constructor; vm_compute; discriminate.
Defined.

Lemma encode_message_bounds_witness :
  match encode_message 7 0 with
  | Ok bytes =>
      4 < lenN bytes ∧ lenN bytes ≤ 0 + 4 ∧
      le_val (take 4 bytes) = lenN bytes - 4 ∧ drop 4 bytes = [7]
  | Err e =>
      (e = E_Encode ∧ N.min 0 u32_max < lenN [7]) ∨ (e = E_EmptyFrame ∧ [7] = [])
  end.
Proof. apply (encode_message_bounds 7 0 [[7]]). reflexivity. Defined.
