(* ===== verification/Frame.v ===== *)
(** * Frame: surface validation and atomic patches (crates/sheprd-protocol/src/frame.rs)

    A surface holds a grid of cells and the panes drawn on it. A patch
    overwrites runs of cells, pane records, the cursor and the revision; every
    check runs before the first write. An index out of range would panic in
    Rust: operations that index return [option], [None] being the panic. *)

From Stdlib Require Import NArith Lia.
From stdpp Require Import base option strings list.
From S2P Require Import Prelude Wire Codec.

Local Open Scope N_scope.

(** ** FrameData::validate *)

Definition link_bad (hyperlinks : list str) (c : CellData) : bool :=
  match cell_hyperlink c with
  | Some i => lenN hyperlinks <=? i
  | None => false
  end.

Definition cursor_outside (width height : N) (cursor : option CursorState) : bool :=
  match cursor with
  | Some c => cursor_visible c && ((width <=? cursor_x c) || (height <=? cursor_y c))
  | None => false
  end.

Definition frame_validate (f : FrameData) : res Error unit :=
  if negb (lenN (frame_cells f) =? frame_width f * frame_height f) then Err E_CellCount
  else if existsb (link_bad (frame_hyperlinks f)) (frame_cells f) then Err E_HyperlinkIndex
  else if cursor_outside (frame_width f) (frame_height f) (frame_cursor f) then Err E_CursorBounds
  else Ok tt.

(** ** PaneSurfaceFrame::validate_patch *)

Definition row_bad (f : FrameData) (row : PaneSurfacePatchRow) : bool :=
  (frame_height f <=? row_y row)
  || (frame_width f <? row_x row + lenN (row_cells row))
  || existsb (link_bad (frame_hyperlinks f)) (row_cells row).

Definition same_geometry (pane p : PaneSurfacePane) : bool :=
  bool_decide (pane_pane_id p = pane_pane_id pane)
  && bool_decide (pane_rect p = pane_rect pane)
  && bool_decide (pane_inner_rect p = pane_inner_rect pane).

Definition validate_patch (s : PaneSurfaceFrame) (patch : PaneSurfacePatch) : res Error unit :=
  if negb (bool_decide (patch_boot_id patch = surf_boot_id s))
     || negb (patch_projection_revision patch =? surf_projection_revision s)
     || negb (patch_base_surface_revision patch =? surf_surface_revision s)
     || negb (bool_decide (checked_add u64_max (surf_surface_revision s) 1
                           = Some (patch_surface_revision patch)))
     || is_some (surf_popup s)
  then Err E_PatchIdentity
  else
    _ ← frame_validate (surf_frame s);
    if existsb (row_bad (surf_frame s)) (patch_rows patch) then Err E_PatchRowBounds
    else if negb (forallb (λ pane, existsb (same_geometry pane) (surf_panes s)) (patch_panes patch))
    then Err E_PatchGeometry
    else if cursor_outside (frame_width (surf_frame s)) (frame_height (surf_frame s))
              (patch_cursor patch) then Err E_PatchCursorBounds
    else Ok tt.

(** ** PaneSurfaceFrame::commit_patch *)

Definition set_cells (f : FrameData) (cells : list CellData) : FrameData :=
  MkFrameData cells (frame_width f) (frame_height f) (frame_cursor f)
    (frame_hyperlinks f) (frame_graphics f).

Definition set_cursor (f : FrameData) (c : option CursorState) : FrameData :=
  MkFrameData (frame_cells f) (frame_width f) (frame_height f) c
    (frame_hyperlinks f) (frame_graphics f).

(** Where a patch row starts in the cells of a frame [width] wide. *)
Definition row_start (width : N) (row : PaneSurfacePatchRow) : nat :=
  N.to_nat (row_y row * width + row_x row).

Definition write_row (width : N) (cells : list CellData) (row : PaneSurfacePatchRow)
    : option (list CellData) :=
  write_at (row_start width row) (row_cells row) cells.

(** [if let Some(existing) = panes.iter_mut().find(..) { *existing = pane }]. *)
Fixpoint replace_pane (panes : list PaneSurfacePane) (pane : PaneSurfacePane)
    : list PaneSurfacePane :=
  match panes with
  | [] => []
  | p :: panes =>
      if bool_decide (pane_pane_id p = pane_pane_id pane) then pane :: panes
      else p :: replace_pane panes pane
  end.

Definition commit_patch (s : PaneSurfaceFrame) (patch : PaneSurfacePatch)
    : option PaneSurfaceFrame :=
  cells ← foldM (write_row (frame_width (surf_frame s))) (frame_cells (surf_frame s)) (patch_rows patch);
  Some (MkPaneSurfaceFrame (surf_boot_id s) (surf_projection_revision s)
          (patch_surface_revision patch)
          (set_cursor (set_cells (surf_frame s) cells) (patch_cursor patch))
          (foldl replace_pane (surf_panes s) (patch_panes patch))
          (surf_splits s) (surf_popup s) (surf_graphics s)).

(** [apply_patch]: the surface afterwards and the call's result. *)
Definition apply_patch (s : PaneSurfaceFrame) (patch : PaneSurfacePatch)
    : option (PaneSurfaceFrame * res Error unit) :=
  match validate_patch s patch with
  | Err e => Some (s, Err e)
  | Ok _ => s' ← commit_patch s patch; Some (s', Ok tt)
  end.

(** ** What the checks establish *)

Definition links_ok (hyperlinks : list str) (c : CellData) : Prop :=
  ∀ i, cell_hyperlink c = Some i → i < lenN hyperlinks.

Definition cursor_ok (width height : N) (cursor : option CursorState) : Prop :=
  ∀ c, cursor = Some c → cursor_visible c = true → cursor_x c < width ∧ cursor_y c < height.

(** The invariant [FrameData::validate] decides. *)
Record frame_wf (f : FrameData) : Prop := {
  wf_count : lenN (frame_cells f) = frame_width f * frame_height f;
  wf_links : Forall (links_ok (frame_hyperlinks f)) (frame_cells f);
  wf_cursor : cursor_ok (frame_width f) (frame_height f) (frame_cursor f);
}.

(** A patch row that stays inside its line of the grid and links known URIs. *)
Record row_fits (f : FrameData) (row : PaneSurfacePatchRow) : Prop := {
  fits_y : row_y row < frame_height f;
  fits_x : row_x row + lenN (row_cells row) ≤ frame_width f;
  fits_links : Forall (links_ok (frame_hyperlinks f)) (row_cells row);
}.

Lemma link_bad_ok hs c : link_bad hs c = false ↔ links_ok hs c.
Proof.
  unfold link_bad, links_ok. destruct (cell_hyperlink c) as [i|]; [|naive_solver].
  destruct (N.leb_spec (lenN hs) i) as [Hi|Hi]; split; [done| |by intros _ ? [= <-]|done].
  intros Hl. specialize (Hl i eq_refl). lia.
Qed.

Lemma existsb_false {A} (f : A → bool) l : existsb f l = false ↔ Forall (λ x, f x = false) l.
Proof.
  induction l as [|x l IH]; simpl; [by split|].
  rewrite orb_false_iff, IH, Forall_cons_iff. done.
Qed.

Lemma links_bad_ok hs cells : existsb (link_bad hs) cells = false ↔ Forall (links_ok hs) cells.
Proof. rewrite existsb_false. apply Forall_iff. exact (link_bad_ok hs). Qed.

Lemma cursor_outside_ok w h c : cursor_outside w h c = false ↔ cursor_ok w h c.
Proof.
  unfold cursor_outside, cursor_ok. destruct c as [c|]; [|naive_solver].
  destruct (cursor_visible c) eqn:Hv; simpl; [|split; [intros _ c' [= <-]; congruence|done]].
  rewrite orb_false_iff, !N.leb_gt. split; [by intros ? ? [= <-]|]. intros H. by apply H.
Qed.

Lemma frame_validate_ok f : frame_validate f = Ok tt ↔ frame_wf f.
Proof.
  unfold frame_validate. split.
  - intros H.
    destruct (N.eqb_spec (lenN (frame_cells f)) (frame_width f * frame_height f)); simpl in H; [|done].
    destruct (existsb _ _) eqn:Hl; [done|]. destruct (cursor_outside _ _ _) eqn:Hc; [done|].
    split; [done|by apply links_bad_ok|by apply cursor_outside_ok].
  - intros [-> Hl Hc]. rewrite N.eqb_refl. simpl.
    by rewrite (proj2 (links_bad_ok _ _) Hl), (proj2 (cursor_outside_ok _ _ _) Hc).
Qed.

Lemma row_bad_fits f row : row_bad f row = false ↔ row_fits f row.
Proof.
  unfold row_bad. rewrite !orb_false_iff, N.leb_gt, N.ltb_ge, links_bad_ok.
  split; [by intros [[] ?]|by intros []].
Qed.

Lemma same_geometry_spec pane p :
  same_geometry pane p = true ↔
  pane_pane_id p = pane_pane_id pane ∧ pane_rect p = pane_rect pane ∧
  pane_inner_rect p = pane_inner_rect pane.
Proof. unfold same_geometry. rewrite !andb_true_iff, !bool_decide_eq_true. naive_solver. Qed.

(** Everything [validate_patch] accepts. *)
Record patch_accepted (s : PaneSurfaceFrame) (patch : PaneSurfacePatch) : Prop := {
  pa_boot : patch_boot_id patch = surf_boot_id s;
  pa_projection : patch_projection_revision patch = surf_projection_revision s;
  pa_base : patch_base_surface_revision patch = surf_surface_revision s;
  pa_next : patch_surface_revision patch = surf_surface_revision s + 1;
  pa_range : patch_surface_revision patch ≤ u64_max;
  pa_popup : surf_popup s = None;
  pa_frame : frame_wf (surf_frame s);
  pa_rows : Forall (row_fits (surf_frame s)) (patch_rows patch);
  pa_panes : Forall (λ pane, ∃ p, p ∈ surf_panes s ∧ pane_pane_id p = pane_pane_id pane ∧
                 pane_rect p = pane_rect pane ∧ pane_inner_rect p = pane_inner_rect pane)
               (patch_panes patch);
  pa_cursor : cursor_ok (frame_width (surf_frame s)) (frame_height (surf_frame s)) (patch_cursor patch);
}.

Lemma forallb_Forall {A} (f : A → bool) l : forallb f l = true ↔ Forall (λ x, f x = true) l.
Proof. rewrite forallb_forall, Forall_forall. by setoid_rewrite list_elem_of_In. Qed.

Lemma pane_known s pane :
  existsb (same_geometry pane) (surf_panes s) = true ↔
  ∃ p, p ∈ surf_panes s ∧ pane_pane_id p = pane_pane_id pane ∧
    pane_rect p = pane_rect pane ∧ pane_inner_rect p = pane_inner_rect pane.
Proof.
  rewrite existsb_exists. setoid_rewrite list_elem_of_In. by setoid_rewrite same_geometry_spec.
Qed.

Lemma validate_patch_ok s patch : validate_patch s patch = Ok tt ↔ patch_accepted s patch.
Proof.
  unfold validate_patch. split.
  - intros H. destruct (_ || _) eqn:Hid in H; [done|].
    rewrite !orb_false_iff, !negb_false_iff, !bool_decide_eq_true, !N.eqb_eq in Hid.
    destruct Hid as [[[[Hb Hp] Hbase] (Hn & Hr)%checked_add_Some] Hpop].
    destruct (frame_validate (surf_frame s)) as [[]|] eqn:Hf; [|done]. simpl in H.
    destruct (existsb (row_bad _) _) eqn:Hrows; [done|].
    destruct (forallb _ _) eqn:Hpanes; [|done]. simpl in H.
    destruct (cursor_outside _ _ (patch_cursor patch)) eqn:Hc; [done|].
    split; try done.
    + by rewrite Hn.
    + by destruct (surf_popup s).
    + by apply frame_validate_ok.
    + apply existsb_false in Hrows. apply (Forall_impl _ _ _ Hrows). intros. by apply row_bad_fits.
    + apply forallb_Forall in Hpanes. apply (Forall_impl _ _ _ Hpanes). intros. by apply pane_known.
    + by apply cursor_outside_ok.
  - intros [Hb Hp Hbase Hn Hr Hpop Hf Hrows Hpanes Hc].
    rewrite Hb, Hp, Hbase, Hpop, !bool_decide_true, !N.eqb_refl by
      (done || by apply checked_add_Some; lia). simpl.
    rewrite (proj2 (frame_validate_ok _) Hf). simpl.
    rewrite (proj2 (existsb_false _ _)) by (apply (Forall_impl _ _ _ Hrows); intros; by apply row_bad_fits).
    rewrite (proj2 (forallb_Forall _ _)) by (apply (Forall_impl _ _ _ Hpanes); intros; by apply pane_known).
    simpl. by rewrite (proj2 (cursor_outside_ok _ _ _) Hc).
Qed.

(** ** Writing cells *)

(** The cell a row puts at index [i], if it covers it. *)
Definition row_cell (width : N) (i : nat) (row : PaneSurfacePatchRow) : option CellData :=
  if (row_start width row <=? i)%nat then row_cells row !! (i - row_start width row)%nat else None.

(** The cell at [i] after the rows: the last row that covers it wins. *)
Definition patched_cell (width : N) (rows : list PaneSurfacePatchRow) (i : nat)
    (old : option CellData) : option CellData :=
  foldl (λ c row, match row_cell width i row with Some d => Some d | None => c end) old rows.

Lemma write_row_lookup width cells row cells' i :
  write_row width cells row = Some cells' →
  cells' !! i = match row_cell width i row with Some d => Some d | None => cells !! i end.
Proof.
  unfold write_row, row_cell. intros [Hle ->]%write_at_Some.
  set (st := row_start width row) in *.
  destruct (Nat.leb_spec st i).
  - destruct (row_cells row !! (i - st)%nat) as [d|] eqn:Hd.
    + pose proof (lookup_lt_Some _ _ _ Hd). rewrite list_lookup_inserts; [done|lia|lia].
    + apply lookup_ge_None in Hd. apply list_lookup_inserts_ge. lia.
  - by apply list_lookup_inserts_lt.
Qed.

Lemma write_rows_lookup width rows cells cells' i :
  foldM (write_row width) cells rows = Some cells' →
  cells' !! i = patched_cell width rows i (cells !! i).
Proof.
  unfold patched_cell. revert cells. induction rows as [|row rows IH]; intros cells H; simpl in *.
  { by simplify_eq. }
  destruct (write_row width cells row) as [c|] eqn:Hr; [|done].
  rewrite (IH c H), (write_row_lookup _ _ _ _ i Hr). done.
Qed.

Lemma write_rows_length width rows cells cells' :
  foldM (write_row width) cells rows = Some cells' → length cells' = length cells.
Proof.
  revert cells. induction rows as [|row rows IH]; intros cells H; simpl in *; [by simplify_eq|].
  destruct (write_row width cells row) as [c|] eqn:Hr; [|done].
  rewrite (IH c H). by apply write_at_length in Hr.
Qed.

Lemma row_in_grid (x y len w h : N) : y < h → x + len ≤ w → y * w + x + len ≤ w * h.
Proof. intros. nia. Qed.

Lemma write_row_fits f cells row :
  lenN cells = frame_width f * frame_height f → row_fits f row →
  write_row (frame_width f) cells row
  = Some (list_inserts (row_start (frame_width f) row) (row_cells row) cells).
Proof.
  intros Hc [Hy Hx _]. apply write_at_fits. unfold row_start.
  pose proof (row_in_grid _ _ _ _ _ Hy Hx). unfold lenN in *. lia.
Qed.

(** Rows that fit are written without a panic, and keep every cell's link known. *)
Lemma write_rows_fit f rows cells :
  lenN cells = frame_width f * frame_height f →
  Forall (links_ok (frame_hyperlinks f)) cells → Forall (row_fits f) rows →
  ∃ cells', foldM (write_row (frame_width f)) cells rows = Some cells' ∧
    lenN cells' = frame_width f * frame_height f ∧
    Forall (links_ok (frame_hyperlinks f)) cells'.
Proof.
  intros Hc Hl Hr.
  apply (foldM_ind _ (λ cells, lenN cells = frame_width f * frame_height f ∧
    Forall (links_ok (frame_hyperlinks f)) cells)); [done|].
  intros cs row Hin [Hcs Hls]. rewrite Forall_forall in Hr.
  assert (row_fits f row) as Hfit by (by apply Hr).
  eexists. split; [by apply write_row_fits|]. split.
  - unfold lenN. rewrite length_inserts. exact Hcs.
  - apply Forall_inserts; [done|by destruct Hfit].
Qed.

Lemma commit_patch_total s patch :
  patch_accepted s patch →
  ∃ s', commit_patch s patch = Some s' ∧ frame_wf (surf_frame s').
Proof.
  intros [_ _ _ _ _ _ [Hc Hl _] Hrows _ Hcur]. unfold commit_patch.
  destruct (write_rows_fit _ _ _ Hc Hl Hrows) as (cells' & -> & Hc' & Hl'). simpl.
  eexists. split; [done|]. by split.
Qed.

(** What a patch leaves alone. *)
Definition keeps_identity (s s' : PaneSurfaceFrame) : Prop :=
  surf_boot_id s' = surf_boot_id s ∧ surf_projection_revision s' = surf_projection_revision s ∧
  surf_popup s' = surf_popup s ∧ surf_graphics s' = surf_graphics s.

Lemma commit_patch_identity s patch s' : commit_patch s patch = Some s' →
  keeps_identity s s' ∧ surf_surface_revision s' = patch_surface_revision patch.
Proof. unfold commit_patch. destruct (foldM _ _ _); [|done]. by intros [= <-]. Qed.

Lemma apply_patch_total s patch : ∃ s' r, apply_patch s patch = Some (s', r) ∧
  match r with
  | Err _ => s' = s
  | Ok _ => frame_wf (surf_frame s') ∧ surf_popup s = None ∧ keeps_identity s s' ∧ surf_surface_revision s' = surf_surface_revision s + 1
  end.
Proof.
  unfold apply_patch. destruct (validate_patch s patch) as [[]|e] eqn:Hv; [|by exists s, (Err e)].
  apply validate_patch_ok in Hv. destruct (commit_patch_total s patch Hv) as (s' & Hs & Hwf). rewrite Hs. exists s', (Ok tt).
  destruct (commit_patch_identity _ _ _ Hs) as [Hk ->]. split_and!; [done|done|by apply (pa_popup _ _ Hv)|done|by apply pa_next].
Qed.

(** C1: [apply_patch] never panics. A refused patch leaves the surface as it
    was; an accepted one gives a surface whose frame is valid again, one
    revision later, with every cell the last row covering it put there and the
    others untouched. *)
Theorem apply_patch_correct (s : PaneSurfaceFrame) (patch : PaneSurfacePatch) :
  ∃ s' r, apply_patch s patch = Some (s', r) ∧
    match r with
    | Err e => s' = s ∧ validate_patch s patch = Err e
    | Ok _ =>
        frame_validate (surf_frame s') = Ok tt ∧
        surf_surface_revision s' = surf_surface_revision s + 1 ∧
        frame_cursor (surf_frame s') = patch_cursor patch ∧
        ∀ i, frame_cells (surf_frame s') !! i =
             patched_cell (frame_width (surf_frame s)) (patch_rows patch) i
               (frame_cells (surf_frame s) !! i)
    end.
Proof.
  unfold apply_patch. destruct (validate_patch s patch) as [[]|e] eqn:Hv; [|by exists s, (Err e)].
  apply validate_patch_ok in Hv. destruct (commit_patch_total s patch Hv) as (s' & Hs & Hwf).
  rewrite Hs. exists s', (Ok tt). split; [done|]. split; [by apply frame_validate_ok|].
  revert Hs. unfold commit_patch. destruct (foldM _ _ _) as [cells|] eqn:Hw; [|done].
  intros [= <-]. simpl. split; [by apply pa_next|]. split; [done|].
  intros i. by apply write_rows_lookup.
Qed.

(** ** Pane geometry *)

(** What a patch must not change: which panes there are and where. *)
Definition geometry (panes : list PaneSurfacePane) : list (str * SurfaceRect * SurfaceRect) :=
  (λ p, (pane_pane_id p, pane_rect p, pane_inner_rect p)) <$> panes.

Definition pane_ids (panes : list PaneSurfacePane) : list str := pane_pane_id <$> panes.

Lemma geometry_cons p panes :
  geometry (p :: panes) = (pane_pane_id p, pane_rect p, pane_inner_rect p) :: geometry panes.
Proof. done. Qed.

Lemma replace_pane_geometry panes pane :
  NoDup (pane_ids panes) →
  (∃ p, p ∈ panes ∧ pane_pane_id p = pane_pane_id pane ∧
    pane_rect p = pane_rect pane ∧ pane_inner_rect p = pane_inner_rect pane) →
  geometry (replace_pane panes pane) = geometry panes.
Proof.
  intros Hnd (p & Hin & Hid & Hr & Hi).
  induction panes as [|q panes IH]; cbn [replace_pane]; [done|].
  apply NoDup_cons in Hnd as [Hq Hnd]. apply elem_of_cons in Hin as [->|Hin].
  - rewrite bool_decide_true by done. by rewrite !geometry_cons, Hid, Hr, Hi.
  - rewrite bool_decide_false.
    + by rewrite !geometry_cons, IH.
    + intros Heq. apply Hq. rewrite Heq, <-Hid. by apply (list_elem_of_fmap_2 pane_pane_id).
Qed.

Lemma geometry_ids panes : pane_ids panes = (λ g, g.1.1) <$> geometry panes.
Proof. unfold pane_ids, geometry. by rewrite <-list_fmap_compose. Qed.

Lemma geometry_known panes panes' pane :
  geometry panes' = geometry panes →
  (∃ p, p ∈ panes ∧ pane_pane_id p = pane_pane_id pane ∧
    pane_rect p = pane_rect pane ∧ pane_inner_rect p = pane_inner_rect pane) →
  ∃ p, p ∈ panes' ∧ pane_pane_id p = pane_pane_id pane ∧
    pane_rect p = pane_rect pane ∧ pane_inner_rect p = pane_inner_rect pane.
Proof.
  intros Hg (p & Hin & Hid & Hr & Hi).
  assert ((pane_pane_id p, pane_rect p, pane_inner_rect p) ∈ geometry panes') as Hin'.
  { rewrite Hg. by apply (list_elem_of_fmap_2 (λ p, (pane_pane_id p, pane_rect p, pane_inner_rect p))). }
  apply list_elem_of_fmap in Hin' as (p' & [= E1 E2 E3] & Hp').
  exists p'. split_and!; [done|by rewrite <-E1|by rewrite <-E2|by rewrite <-E3].
Qed.

Lemma replace_panes_geometry news panes :
  NoDup (pane_ids panes) →
  Forall (λ pane, ∃ p, p ∈ panes ∧ pane_pane_id p = pane_pane_id pane ∧
    pane_rect p = pane_rect pane ∧ pane_inner_rect p = pane_inner_rect pane) news →
  geometry (foldl replace_pane panes news) = geometry panes.
Proof.
  revert panes. induction news as [|pane news IH]; intros panes Hnd Hnews; simpl; [done|].
  apply Forall_cons_iff in Hnews as [Hpane Hnews].
  pose proof (replace_pane_geometry panes pane Hnd Hpane) as Hg.
  rewrite IH, Hg; [done| |].
  - by rewrite geometry_ids, Hg, <-geometry_ids.
  - apply (Forall_impl _ _ _ Hnews). intros. by eapply geometry_known.
Qed.

(** A patch never adds, removes, renames or moves a pane of a surface whose pane
    IDs are distinct. *)
Theorem apply_patch_geometry (s s' : PaneSurfaceFrame) (patch : PaneSurfacePatch) :
  NoDup (pane_ids (surf_panes s)) →
  apply_patch s patch = Some (s', Ok tt) →
  geometry (surf_panes s') = geometry (surf_panes s).
Proof.
  intros Hnd. unfold apply_patch. destruct (validate_patch s patch) as [[]|] eqn:Hv; [|done].
  apply validate_patch_ok in Hv. unfold commit_patch. destruct (foldM _ _ _); [|done].
  intros [= <-]. simpl. apply replace_panes_geometry; [done|by apply pa_panes].
Qed.

(** ** A concrete surface *)

Definition ascii_cell (c : N) : CellData := MkCellData [c] 0 0 0 false None.

Definition rect0 (x y w h : N) : SurfaceRect := MkSurfaceRect x y w h.

Definition sample_pane (revision : N) : PaneSurfacePane :=
  MkPaneSurfacePane (lit "p1") revision (rect0 0 0 2 3) (rect0 0 0 2 3) None None true false
    false false 16 48.

(** A surface two cells wide and three high, showing [ab], [cd], [ef]. *)
Definition sample_surface : PaneSurfaceFrame :=
  MkPaneSurfaceFrame (lit "boot") 4 9
    (MkFrameData (ascii_cell <$> lit "abcdef") 2 3 None [] []) [sample_pane 1] [] None
    (MkSurfaceGraphicsScene [] [] []).

Definition sample_patch : PaneSurfacePatch :=
  MkPaneSurfacePatch (lit "boot") 4 9 10
    [MkPaneSurfacePatchRow 1 2 [ascii_cell 88]] [sample_pane 2] (Some (MkCursorState 1 2 true 0)).

Example sample_patch_applies :
  (λ r, frame_cells (surf_frame r.1)) <$> apply_patch sample_surface sample_patch
  = Some (ascii_cell <$> lit "abcdeX").
Proof. reflexivity. Qed.

Lemma apply_patch_geometry_witness :
  ∃ s', apply_patch sample_surface sample_patch = Some (s', Ok tt) ∧
    geometry (surf_panes s') = geometry (surf_panes sample_surface).
Proof.
  eexists. split; [vm_compute; reflexivity|].
  apply (apply_patch_geometry _ _ sample_patch).
  - apply NoDup_singleton.
  - vm_compute. reflexivity.
Defined.
