(* ===== verification/SurfaceScroll.v ===== *)
(** * SurfaceScroll: scrolled regions plus a patch
    (crates/sheprd-protocol/src/surface_scroll.rs)

    A scroll message moves the rows of some rectangles of the retained surface
    before an ordinary patch applies. base64 is third-party code: the class
    [Base64] with the laws its documentation gives. *)

From Stdlib Require Import ZArith NArith Lia.
From stdpp Require Import base option strings sets list.
From S2P Require Import Prelude Wire Codec Frame.

Local Open Scope N_scope.

(** ** base64 without padding *)

Class Base64 := {
  b64_encode : list N → str;
  b64_decode : str → option (list N);
  (** [base64::encoded_len(n, false)]. *)
  b64_encoded_len : N → option N;
}.

Class Base64Laws `{Base64} := {
  b64_roundtrip (bs : list N) : Forall is_byte bs → b64_decode (b64_encode bs) = Some bs;
  (** [encoded_len] overflows only for lengths near the address space. *)
  b64_length (m : N) : m ≤ u32_max →
    ∃ k, b64_encoded_len m = Some k ∧ ∀ bs : list N, Forall is_byte bs → lenN bs ≤ m → str_len (b64_encode bs) ≤ k;
}.

(** ** Messages *)

Definition CAPABILITY : str := lit "surface_scroll".
Definition MESSAGE_KIND : str := lit "endpoint.surface-scroll.v1".
Definition MAX_SCROLLS : N := 64.
Definition SCROLL_BYTES : N := 10.

Record SurfaceScroll := MkSurfaceScroll {
  ss_rect : SurfaceRect;
  ss_shift : Z }.

Record ScrollPatch := MkScrollPatch {
  sp_scrolls : list SurfaceScroll;
  sp_patch : PaneSurfacePatch }.

(** [i16::from_le_bytes] and [i16::to_le_bytes]. *)
Definition i16_from_le (bs : list N) : Z :=
  let v := Z.of_N (le_val bs) in
  if (v <? 32768)%Z then v else (v - 65536)%Z.

Definition i16_to_le (z : Z) : list N := le_bytes 2 (Z.to_N (z mod 65536)).

(** One scroll of the header: four [u16] and an [i16]. *)
Definition decode_scroll (chunk : list N) : SurfaceScroll :=
  let value at_ := le_val (take 2 (drop at_ chunk)) in
  MkSurfaceScroll (MkSurfaceRect (value 0%nat) (value 2%nat) (value 4%nat) (value 6%nat))
    (i16_from_le (take 2 (drop 8 chunk))).

(** [as_chunks::<SCROLL_BYTES>().0], for [n] whole chunks. *)
Fixpoint decode_scrolls (n : nat) (bytes : list N) : list SurfaceScroll :=
  match n with
  | O => []
  | S n => decode_scroll (take 10 bytes) :: decode_scrolls n (drop 10 bytes)
  end.

Definition encode_scroll (s : SurfaceScroll) : list N :=
  le_bytes 2 (rect_x (ss_rect s)) ++ le_bytes 2 (rect_y (ss_rect s))
  ++ le_bytes 2 (rect_width (ss_rect s)) ++ le_bytes 2 (rect_height (ss_rect s))
  ++ i16_to_le (ss_shift s).

Section messages.
Context `{Base64, Bincode ServerMessage}.

Definition scroll_decode (data : str) : res Error ScrollPatch :=
  let limit := default u64_max (b64_encoded_len MAX_FRAME_SIZE) in
  if limit <? str_len data then Err E_EncodingLimit
  else
    bytes ← ok_or E_EncodingPayload (b64_decode data);
    count ← ok_or E_ScrollTruncated (head bytes);
    if (count =? 0) || (MAX_SCROLLS <? count) then Err E_ScrollCount
    else
      let header := 1 + count * SCROLL_BYTES in
      if lenN bytes <? header then Err E_ScrollTruncated
      else
        let scrolls := decode_scrolls (N.to_nat count) (drop 1 bytes) in
        '(message, frame) ← read_message (M:=ServerMessage) (drop (N.to_nat header) bytes) MAX_FRAME_SIZE;
        if negb (lenN frame =? 0) then Err E_TrailingBytes
        else match message with
             | SM_PaneSurfacePatch patch => Ok (MkScrollPatch scrolls patch)
             | _ => Err E_ScrollPayload
             end.

(** [ScrollPatch::encode]. *)
Definition scroll_encode (p : ScrollPatch) : res Error str :=
  if u8_max <? lenN (sp_scrolls p) then Err E_ScrollCount
  else
    let bytes := lenN (sp_scrolls p) :: concat (encode_scroll <$> sp_scrolls p) in
    bytes ← write_message bytes (SM_PaneSurfacePatch (sp_patch p)) MAX_FRAME_SIZE;
    Ok (b64_encode bytes).
End messages.

(** ** Moving rows *)

Definition scroll_fits (scroll : SurfaceScroll) (width height : N) : bool :=
  let rect := ss_rect scroll in
  (0 <? rect_width rect) && (2 <=? rect_height rect) && negb (ss_shift scroll =? 0)%Z
  && (Z.abs_N (ss_shift scroll) <? rect_height rect)
  && match checked_add u16_max (rect_x rect) (rect_width rect) with
     | Some e => e <=? width | None => false end
  && match checked_add u16_max (rect_y rect) (rect_height rect) with
     | Some e => e <=? height | None => false end.

Definition rects_overlap (a b : SurfaceRect) : bool :=
  (rect_x a <? rect_x b + rect_width b) && (rect_x b <? rect_x a + rect_width a)
  && (rect_y a <? rect_y b + rect_height b) && (rect_y b <? rect_y a + rect_height a).

Definition overlaps_any (rect : SurfaceRect) (others : list SurfaceScroll) : bool :=
  existsb (λ other, rects_overlap rect (ss_rect other)) others.

(** Whether some region overlaps one listed after it. *)
Fixpoint some_overlap (scrolls : list SurfaceScroll) : bool :=
  match scrolls with
  | [] => false
  | scroll :: rest => overlaps_any (ss_rect scroll) rest || some_overlap rest
  end.

(** [for_each_swap]: the row swaps, in order. *)
Definition for_each_swap (height : nat) (shift : Z) : list (nat * nat) :=
  let distance := Z.abs_nat shift in
  if (0 <? shift)%Z then
    (λ y, (y, y + distance)%nat) <$> seq 0 (height - distance)
  else
    (λ y, (y, y - distance)%nat) <$> reverse (seq distance (height - distance)).

(** [cells.split_at_mut(high)], then [head[low..low + span]] swapped with
    [tail[..span]]; each index check panics when it fails. *)
Definition swap_spans {A} (cells : list A) (low high span : nat) : option (list A) :=
  if (high <=? length cells)%nat && (low + span <=? high)%nat
     && (high + span <=? length cells)%nat then
    let a := take span (drop low cells) in
    let b := take span (drop high cells) in
    Some (list_inserts low b (list_inserts high a cells))
  else None.

Definition row_at (stride : nat) (rect : SurfaceRect) (y : nat) : nat :=
  (N.to_nat (rect_y rect) + y) * stride + N.to_nat (rect_x rect).

Definition scroll_region {A} (stride : nat) (cells : list A) (scroll : SurfaceScroll)
    : option (list A) :=
  let rect := ss_rect scroll in
  foldM (λ cells '(a, b), swap_spans cells (row_at stride rect (a `min` b)) (row_at stride rect (a `max` b))
                            (N.to_nat (rect_width rect)))
    cells (for_each_swap (N.to_nat (rect_height rect)) (ss_shift scroll)).

Definition with_cells (s : PaneSurfaceFrame) (cells : list CellData) : PaneSurfaceFrame :=
  MkPaneSurfaceFrame (surf_boot_id s) (surf_projection_revision s) (surf_surface_revision s)
    (set_cells (surf_frame s) cells) (surf_panes s) (surf_splits s) (surf_popup s) (surf_graphics s).

Definition apply_scroll_patch (s : PaneSurfaceFrame) (scroll : ScrollPatch)
    : option (PaneSurfaceFrame * res Error unit) :=
  let width := frame_width (surf_frame s) in
  let height := frame_height (surf_frame s) in
  match validate_patch s (sp_patch scroll) with
  | Err e => Some (s, Err e)
  | Ok _ =>
      if negb (forallb (λ scroll, scroll_fits scroll width height) (sp_scrolls scroll))
      then Some (s, Err E_ScrollBounds)
      else if some_overlap (sp_scrolls scroll) then Some (s, Err E_ScrollBounds)
      else
        cells ← foldM (scroll_region (N.to_nat width)) (frame_cells (surf_frame s)) (sp_scrolls scroll);
        s' ← commit_patch (with_cells s cells) (sp_patch scroll);
        Some (s', Ok tt)
  end.

Example scroll_up_example :
  (λ r, frame_cells (surf_frame r.1)) <$>
    apply_scroll_patch sample_surface
      (MkScrollPatch [MkSurfaceScroll (rect0 0 0 2 3) 1] sample_patch)
  = Some (ascii_cell <$> lit "cdefaX").
Proof. reflexivity. Qed.

(** ** Where the swaps take each row

    [swap_map] tracks, for every row of a region, which row's content it shows. *)

Definition swap_map (f : nat → nat) (ab : nat * nat) (y : nat) : nat :=
  if decide (y = ab.1) then f ab.2 else if decide (y = ab.2) then f ab.1 else f y.

Definition swaps_map (height : nat) (shift : Z) : nat → nat :=
  foldl swap_map id (for_each_swap height shift).

(** The rows scrolled into view: row [y] must show what was [shift] rows below. *)
Definition shows (shift : Z) (y : nat) : nat := Z.to_nat (Z.of_nat y + shift).

Lemma swap_map_fst f a b : swap_map f (a, b) a = f b.
Proof. unfold swap_map. by rewrite decide_True. Qed.

Lemma swap_map_snd f a b : swap_map f (a, b) b = f a.
Proof. unfold swap_map. simpl. case_decide; [by subst|]. by rewrite decide_True. Qed.

Lemma swap_map_ne f a b y : y ≠ a → y ≠ b → swap_map f (a, b) y = f y.
Proof. intros. unfold swap_map. by rewrite !decide_False. Qed.

Lemma swaps_up d n k f :
  (0 < d)%nat → (∀ y, (y < k)%nat → f y = (y + d)%nat) → (∀ y, (k + d ≤ y)%nat → f y = y) →
  ∀ y, (y < k + n)%nat → foldl swap_map f ((λ y, (y, y + d)%nat) <$> seq k n) y = (y + d)%nat.
Proof.
  intros Hd. revert k f. induction n as [|n IH]; intros k f Hlo Hhi y Hy; simpl.
  { apply Hlo. lia. }
  apply (IH (S k)); [| |lia].
  - intros z Hz. destruct (decide (z = k)) as [->|].
    + rewrite swap_map_fst. apply Hhi. lia.
    + rewrite swap_map_ne by lia. apply Hlo. lia.
  - intros z Hz. rewrite swap_map_ne by lia. apply Hhi. lia.
Qed.

Lemma swaps_down d n h f :
  (0 < d)%nat →
  (∀ y, (d + n ≤ y < h)%nat → f y = (y - d)%nat) → (∀ y, (y < n)%nat → f y = y) →
  ∀ y, (d ≤ y < h)%nat → foldl swap_map f ((λ y, (y, y - d)%nat) <$> reverse (seq d n)) y = (y - d)%nat.
Proof.
  intros Hd. revert f. induction n as [|n IH]; intros f Hhi Hlo y Hy.
  { simpl. apply Hhi. lia. }
  rewrite seq_S, reverse_app, fmap_app. simpl.
  apply IH; [| |lia].
  - intros z Hz. destruct (decide (z = (d + n)%nat)) as [->|].
    + rewrite swap_map_fst. rewrite Hlo by lia. lia.
    + rewrite swap_map_ne by lia. apply Hhi. lia.
  - intros z Hz. rewrite swap_map_ne by lia. apply Hlo. lia.
Qed.

(** The swaps leave every row that stays in view where the shift puts it. *)
Lemma swaps_map_shows height shift y :
  shift ≠ 0%Z → (Z.abs_nat shift < height)%nat →
  (y < height)%nat → (0 ≤ Z.of_nat y + shift < Z.of_nat height)%Z →
  swaps_map height shift y = shows shift y.
Proof.
  intros Hne Habs Hy Hin. unfold swaps_map, for_each_swap, shows.
  destruct (Z.ltb_spec 0 shift).
  - rewrite (swaps_up (Z.abs_nat shift) _ 0 id); [lia|lia|lia|done|lia].
  - rewrite (swaps_down (Z.abs_nat shift) _ height id); [lia|lia| |done|lia].
    intros z Hz. exfalso. lia.
Qed.

(** Every swap names two different rows of the region, so no row is lost. *)
Lemma for_each_swap_rows height shift a b :
  shift ≠ 0%Z → (Z.abs_nat shift < height)%nat →
  (a, b) ∈ for_each_swap height shift → (a < height)%nat ∧ (b < height)%nat ∧ a ≠ b.
Proof.
  intros Hne Habs. unfold for_each_swap. destruct (Z.ltb_spec 0 shift).
  - intros (y & [= -> ->] & Hy)%list_elem_of_fmap. apply elem_of_seq in Hy. lia.
  - intros (y & [= -> ->] & Hy)%list_elem_of_fmap.
    rewrite elem_of_reverse, elem_of_seq in Hy. lia.
Qed.

Definition onto_rows (height : nat) (f : nat → nat) : Prop :=
  ∀ y, (y < height)%nat → ∃ z, (z < height)%nat ∧ f z = y.

Lemma swap_map_onto height f a b :
  (a < height)%nat → (b < height)%nat → onto_rows height f → onto_rows height (swap_map f (a, b)).
Proof.
  intros Ha Hb Hf y Hy. destruct (Hf y Hy) as (z & Hz & <-).
  destruct (decide (z = a)) as [->|]; [exists b; by rewrite swap_map_snd|].
  destruct (decide (z = b)) as [->|]; [exists a; by rewrite swap_map_fst|].
  exists z. by rewrite swap_map_ne.
Qed.

Lemma swaps_map_onto height shift :
  shift ≠ 0%Z → (Z.abs_nat shift < height)%nat → onto_rows height (swaps_map height shift).
Proof.
  intros Hne Habs. unfold swaps_map.
  assert (∀ l f, (∀ a b, (a, b) ∈ l → (a < height)%nat ∧ (b < height)%nat ∧ a ≠ b) →
    onto_rows height f → onto_rows height (foldl swap_map f l)) as Hgen.
  { induction l as [|[a b] l IH]; intros f Hl Hf; simpl; [done|].
    apply IH; [set_solver|]. destruct (Hl a b) as (? & ? & _); [set_solver|].
    by apply swap_map_onto. }
  apply Hgen; [intros a b Hab; by apply (for_each_swap_rows height shift)|]. intros y Hy. by exists y.
Qed.

(** ** One region of cells *)

Lemma swap_spans_lookup {A} (l l' : list A) low high span i :
  swap_spans l low high span = Some l' →
  l' !! i = if decide (low ≤ i < low + span)%nat then l !! (high + (i - low))%nat
            else if decide (high ≤ i < high + span)%nat then l !! (low + (i - high))%nat
            else l !! i.
Proof.
  unfold swap_spans. intros Hs.
  destruct (Nat.leb_spec high (length l)) as [H1|]; [|done].
  destruct (Nat.leb_spec (low + span) high) as [H2|]; [|done].
  destruct (Nat.leb_spec (high + span) (length l)) as [H3|]; [|done]. simplify_eq/=.
  assert (length (take span (drop low l)) = span) as La by (rewrite length_take, length_drop; lia).
  assert (length (take span (drop high l)) = span) as Lb by (rewrite length_take, length_drop; lia).
  case_decide as Hlow; [|case_decide as Hhigh].
  - rewrite list_lookup_inserts by (rewrite ?length_inserts; lia).
    rewrite lookup_take_lt, lookup_drop by lia. f_equal.
  - rewrite list_lookup_inserts_ge by lia. rewrite list_lookup_inserts by lia.
    rewrite lookup_take_lt, lookup_drop by lia. f_equal.
  - destruct (decide (i < low)%nat); [rewrite !list_lookup_inserts_lt by lia; done|].
    rewrite list_lookup_inserts_ge by lia.
    destruct (decide (i < high)%nat); [by rewrite list_lookup_inserts_lt|].
    by rewrite list_lookup_inserts_ge by lia.
Qed.

Lemma swap_spans_length {A} (l l' : list A) low high span :
  swap_spans l low high span = Some l' → length l' = length l.
Proof.
  unfold swap_spans. destruct (_ && _); [|done]. intros [= <-]. by rewrite !length_inserts.
Qed.

Section region.
Context {A : Type} (stride rows : nat) (rect : SurfaceRect).

Let rx := N.to_nat (rect_x rect).
Let ry := N.to_nat (rect_y rect).
Let rw := N.to_nat (rect_width rect).
Let rh := N.to_nat (rect_height rect).

Hypothesis Hx : (rx + rw ≤ stride)%nat.
Hypothesis Hy : (ry + rh ≤ rows)%nat.

(** Cell [c] of row [y] of the region. *)
Definition region_cell (y c : nat) : nat := row_at stride rect y + c.

Definition in_region (i : nat) : Prop :=
  ∃ y c, (y < rh)%nat ∧ (c < rw)%nat ∧ i = region_cell y c.

Lemma row_apart y z : (y < z)%nat → (row_at stride rect y + rw ≤ row_at stride rect z)%nat.
Proof. unfold row_at. fold rx ry. intros. nia. Qed.

(** [new] is [old] with the region's rows rearranged by [f]. *)
Definition rearranged (f : nat → nat) (old new : list A) : Prop :=
  length new = length old ∧
  (∀ y c, (y < rh)%nat → (c < rw)%nat → new !! region_cell y c = old !! region_cell (f y) c) ∧
  (∀ i, ¬ in_region i → new !! i = old !! i).

Definition swap_rows (cells : list A) (ab : nat * nat) : option (list A) :=
  let '(a, b) := ab in
  swap_spans cells (row_at stride rect (a `min` b)) (row_at stride rect (a `max` b)) rw.

Lemma swap_rows_total cells a b :
  length cells = (stride * rows)%nat → (a < rh)%nat → (b < rh)%nat → a ≠ b →
  ∃ cells', swap_rows cells (a, b) = Some cells'.
Proof.
  intros Hlen Ha Hb Hab. unfold swap_rows, swap_spans.
  assert (row_at stride rect (a `max` b) + rw ≤ length cells)%nat.
  { unfold row_at. fold rx ry. rewrite Hlen. assert (a `max` b < rh)%nat by lia. nia. }
  assert (row_at stride rect (a `min` b) + rw ≤ row_at stride rect (a `max` b))%nat.
  { unfold row_at. fold rx ry. assert (a `min` b < a `max` b)%nat by lia. nia. }
  rewrite !(proj2 (Nat.leb_le _ _)) by lia. simpl. eauto.
Qed.

Lemma swap_rows_lookup cells cells' a b i :
  a ≠ b → swap_rows cells (a, b) = Some cells' →
  cells' !! i =
    if decide (row_at stride rect a ≤ i < row_at stride rect a + rw)%nat
    then cells !! (row_at stride rect b + (i - row_at stride rect a))%nat
    else if decide (row_at stride rect b ≤ i < row_at stride rect b + rw)%nat
    then cells !! (row_at stride rect a + (i - row_at stride rect b))%nat
    else cells !! i.
Proof.
  intros Hab Hs. rewrite (swap_spans_lookup _ _ _ _ _ i Hs).
  destruct (Nat.lt_total a b) as [Hlt|[?|Hlt]]; [|done|].
  - by rewrite Nat.min_l, Nat.max_r by lia.
  - rewrite Nat.min_r, Nat.max_l by lia. pose proof (row_apart _ _ Hlt).
    repeat case_decide; done || lia.
Qed.

Lemma swap_rows_rearranged f old cells cells' a b :
  (a < rh)%nat → (b < rh)%nat → a ≠ b →
  rearranged f old cells → swap_rows cells (a, b) = Some cells' →
  rearranged (swap_map f (a, b)) old cells'.
Proof.
  intros Ha Hb Hab (Hlen & Hin & Hout) Hs.
  assert (∀ y z c, y ≠ z → (c < rw)%nat →
    ¬ (row_at stride rect z ≤ row_at stride rect y + c < row_at stride rect z + rw)%nat) as Hapart.
  { intros y z c Hyz Hc. destruct (Nat.lt_total y z) as [H|[?|H]]; [|done|];
      pose proof (row_apart _ _ H); lia. }
  split; [|split].
  - by rewrite (swap_spans_length _ _ _ _ _ Hs).
  - intros y c Hyh Hc. unfold region_cell. rewrite (swap_rows_lookup _ _ _ _ _ Hab Hs).
    destruct (decide (y = a)) as [->|Hya]; [|destruct (decide (y = b)) as [->|Hyb]].
    + rewrite decide_True, swap_map_fst by lia. etrans; [|by apply Hin]. unfold region_cell. f_equal. lia.
    + rewrite decide_False by (by apply Hapart). rewrite decide_True by lia.
      rewrite swap_map_snd. etrans; [|by apply Hin]. unfold region_cell. f_equal. lia.
    + rewrite !decide_False by (by apply Hapart). rewrite swap_map_ne by done. by apply Hin.
  - intros i Hi. rewrite (swap_rows_lookup _ _ _ _ _ Hab Hs).
    rewrite !decide_False; [by apply Hout| |]; intros Hr; apply Hi.
    + exists b, (i - row_at stride rect b)%nat. unfold region_cell. lia.
    + exists a, (i - row_at stride rect a)%nat. unfold region_cell. lia.
Qed.

Lemma swap_all_rearranged f old cells l :
  (∀ a b, (a, b) ∈ l → (a < rh)%nat ∧ (b < rh)%nat ∧ a ≠ b) →
  length old = (stride * rows)%nat → rearranged f old cells →
  ∃ cells', foldM swap_rows cells l = Some cells' ∧ rearranged (foldl swap_map f l) old cells'.
Proof.
  revert f cells. induction l as [|[a b] l IH]; intros f cells Hl Hold Hr; cbn [foldM foldl]; [eauto|].
  destruct (Hl a b) as (Ha & Hb & Hab); [set_solver|].
  destruct (swap_rows_total cells a b) as [cells1 H1]; [|done..|].
  { by rewrite (proj1 Hr). }
  rewrite H1. apply IH; [set_solver|done|]. by eapply swap_rows_rearranged.
Qed.
End region.

Lemma swap_spans_Forall {A} (P : A → Prop) (l l' : list A) low high span :
  swap_spans l low high span = Some l' → Forall P l → Forall P l'.
Proof.
  unfold swap_spans. destruct (_ && _); [|done]. intros [= <-] Hl.
  apply Forall_inserts; [apply Forall_inserts; [done|]|]; by apply Forall_take, Forall_drop.
Qed.

(** ** All regions of a patch *)

Record region_fits (stride rows : nat) (scroll : SurfaceScroll) : Prop := {
  rf_x : (N.to_nat (rect_x (ss_rect scroll)) + N.to_nat (rect_width (ss_rect scroll)) ≤ stride)%nat;
  rf_y : (N.to_nat (rect_y (ss_rect scroll)) + N.to_nat (rect_height (ss_rect scroll)) ≤ rows)%nat;
  rf_shift : ss_shift scroll ≠ 0%Z;
  rf_short : (Z.abs_nat (ss_shift scroll) < N.to_nat (rect_height (ss_rect scroll)))%nat;
}.

Lemma scroll_fits_spec scroll width height :
  scroll_fits scroll width height = true → region_fits (N.to_nat width) (N.to_nat height) scroll.
Proof.
  unfold scroll_fits. rewrite !andb_true_iff, N.ltb_lt, N.leb_le, N.ltb_lt.
  intros [[[[[Hw Hh] Hs] Ha] Hx] Hy].
  destruct (Z.eqb_spec (ss_shift scroll) 0); [done|].
  destruct (checked_add u16_max (rect_x _) _) as [ex|] eqn:Ex; [|done].
  destruct (checked_add u16_max (rect_y _) _) as [ey|] eqn:Ey; [|done].
  apply checked_add_Some in Ex as [-> _], Ey as [-> _]. rewrite N.leb_le in Hx, Hy.
  split; [lia|lia|done|lia].
Qed.

(** [scroll_region] rearranges its region so that row [y] shows row [y + shift],
    and touches nothing else. *)
Lemma scroll_region_rearranged {A} stride rows scroll (old : list A) :
  region_fits stride rows scroll → length old = (stride * rows)%nat →
  ∃ new, scroll_region stride old scroll = Some new ∧
    rearranged stride (ss_rect scroll)
      (swaps_map (N.to_nat (rect_height (ss_rect scroll))) (ss_shift scroll)) old new.
Proof.
  intros [Hx Hy Hne Hs] Hold.
  assert (rearranged stride (ss_rect scroll) id old old) as H0 by done.
  destruct (swap_all_rearranged stride rows (ss_rect scroll) Hx Hy id old old
    (for_each_swap (N.to_nat (rect_height (ss_rect scroll))) (ss_shift scroll))) as (new & Hn & Hr);
    [|done..|].
  { intros a b Hab. by apply (for_each_swap_rows _ (ss_shift scroll)). }
  exists new. by split.
Qed.

Lemma scroll_region_Forall {A} (P : A → Prop) stride scroll (old new : list A) :
  scroll_region stride old scroll = Some new → Forall P old → Forall P new.
Proof.
  unfold scroll_region. generalize (for_each_swap (N.to_nat (rect_height (ss_rect scroll))) (ss_shift scroll)).
  intros l. revert old. induction l as [|[a b] l IH]; intros old; cbn [foldM]; [by intros [= <-]|].
  destruct (swap_spans _ _ _ _) as [mid|] eqn:Hs; [|done]. simpl. intros Hf Hold.
  apply (IH mid Hf). by eapply swap_spans_Forall.
Qed.

Lemma grid_index_inj (w a b x y : nat) :
  (x < w)%nat → (y < w)%nat → (a * w + x = b * w + y)%nat → a = b ∧ x = y.
Proof.
  intros Hx Hy He. assert (a = b) as ->; [|lia].
  destruct (Nat.lt_total a b) as [H|[?|H]]; [exfalso; nia|done|exfalso; nia].
Qed.

(** Two regions that do not overlap share no cell. *)
Lemma apart_regions stride rows s t i :
  region_fits stride rows s → region_fits stride rows t →
  rects_overlap (ss_rect s) (ss_rect t) = false →
  in_region stride (ss_rect s) i → in_region stride (ss_rect t) i → False.
Proof.
  intros [Hsx _ _ _] [Htx _ _ _] Ho (y & c & Hy & Hc & ->) (y' & c' & Hy' & Hc' & He).
  unfold region_cell, row_at in He.
  destruct (grid_index_inj stride (N.to_nat (rect_y (ss_rect s)) + y) (N.to_nat (rect_y (ss_rect t)) + y')
    (N.to_nat (rect_x (ss_rect s)) + c) (N.to_nat (rect_x (ss_rect t)) + c')); [lia..|].
  revert Ho. unfold rects_overlap. rewrite !andb_false_iff, !N.ltb_ge. lia.
Qed.

(** The cells after every region has scrolled: a cell whose source row is inside its
    region shows that row's cell, a cell of no region is as it was. *)
Record scrolled (stride : nat) (scrolls : list SurfaceScroll) {A} (old new : list A) : Prop := {
  scrolled_length : length new = length old;
  scrolled_in : ∀ s y c, s ∈ scrolls →
    (y < N.to_nat (rect_height (ss_rect s)))%nat → (c < N.to_nat (rect_width (ss_rect s)))%nat →
    (0 ≤ Z.of_nat y + ss_shift s < Z.of_N (rect_height (ss_rect s)))%Z →
    new !! region_cell stride (ss_rect s) y c =
      old !! region_cell stride (ss_rect s) (shows (ss_shift s) y) c;
  scrolled_out : ∀ i, (∀ s, s ∈ scrolls → ¬ in_region stride (ss_rect s) i) → new !! i = old !! i;
}.

Lemma scroll_regions_scrolled {A} (P : A → Prop) stride rows scrolls (old : list A) :
  Forall (region_fits stride rows) scrolls → some_overlap scrolls = false →
  length old = (stride * rows)%nat → Forall P old →
  ∃ new, foldM (scroll_region stride) old scrolls = Some new ∧
    scrolled stride scrolls old new ∧ Forall P new.
Proof.
  revert old. induction scrolls as [|s scrolls IH]; intros old Hfit Ho Hlen HP; cbn [foldM].
  { exists old. split; [done|]. split; [split; [done|set_solver|done]|done]. }
  apply Forall_cons_iff in Hfit as [Hs Hfit]. simpl in Ho. apply orb_false_iff in Ho as [Hos Ho].
  destruct (scroll_region_rearranged stride rows s old Hs Hlen) as (mid & Hm & Hml & Hin & Hout).
  rewrite Hm. pose proof (scroll_region_Forall P _ _ _ _ Hm HP) as HPm.
  destruct (IH mid) as (new & Hn & [Hnl Hnin Hnout] & HPn); [done|done|congruence|done|].
  exists new. split; [done|]. split; [|done].
  assert (∀ t i, t ∈ scrolls → in_region stride (ss_rect s) i → in_region stride (ss_rect t) i → False)
    as Hapart.
  { intros t i Ht. rewrite Forall_forall in Hfit. apply (apart_regions stride rows); [done|by apply Hfit|].
    apply existsb_false in Hos. rewrite Forall_forall in Hos. by apply Hos. }
  split.
  - congruence.
  - intros t y c Ht Hy Hc Hr. apply elem_of_cons in Ht as [->|Ht].
    + rewrite Hnout by (intros t Ht Hi; eapply (Hapart t); [done| |done]; by exists y, c).
      rewrite Hin by done. destruct Hs. rewrite swaps_map_shows by (done || lia). done.
    + rewrite Hnin by done. apply Hout. intros Hi. eapply (Hapart t); [done|done|].
      exists (shows (ss_shift t) y), c. unfold shows. split; [lia|done].
  - intros i Hi. rewrite Hnout by set_solver. apply Hout. set_solver.
Qed.

Lemma accepted_with_cells s patch cells :
  patch_accepted s patch →
  length cells = length (frame_cells (surf_frame s)) →
  Forall (links_ok (frame_hyperlinks (surf_frame s))) cells →
  patch_accepted (with_cells s cells) patch.
Proof.
  intros [] Hlen Hl. destruct pa_frame as [Hc _ Hcur].
  split; try done; simpl.
  - split; simpl; [|done|done]. unfold lenN in *. by rewrite Hlen.
  - apply (Forall_impl _ _ _ pa_rows). by intros r [].
Qed.

(** The regions of a patch that fits move within the grid. *)
Lemma scrolls_moved s scrolls :
  frame_wf (surf_frame s) →
  forallb (λ scroll, scroll_fits scroll (frame_width (surf_frame s)) (frame_height (surf_frame s))) scrolls = true →
  some_overlap scrolls = false →
  ∃ moved, foldM (scroll_region (N.to_nat (frame_width (surf_frame s)))) (frame_cells (surf_frame s)) scrolls = Some moved ∧
    scrolled (N.to_nat (frame_width (surf_frame s))) scrolls (frame_cells (surf_frame s)) moved ∧
    Forall (links_ok (frame_hyperlinks (surf_frame s))) moved.
Proof.
  intros [Hc Hl _] Hfit Ho. apply (scroll_regions_scrolled (links_ok (frame_hyperlinks (surf_frame s)))
    (N.to_nat (frame_width (surf_frame s))) (N.to_nat (frame_height (surf_frame s)))).
  - apply forallb_Forall in Hfit. apply (Forall_impl _ _ _ Hfit). intros. by apply scroll_fits_spec.
  - done.
  - unfold lenN in Hc. lia.
  - done.
Qed.

Lemma apply_scroll_total s scroll : ∃ s' r, apply_scroll_patch s scroll = Some (s', r) ∧
  match r with
  | Err _ => s' = s
  | Ok _ => frame_wf (surf_frame s') ∧ surf_popup s = None ∧ keeps_identity s s' ∧ surf_surface_revision s' = surf_surface_revision s + 1
  end.
Proof.
  unfold apply_scroll_patch. destruct (validate_patch s (sp_patch scroll)) as [[]|e] eqn:Hv; [|by exists s, (Err e)].
  destruct (forallb _ _) eqn:Hfit; simpl; [|by exists s, (Err E_ScrollBounds)].
  destruct (some_overlap (sp_scrolls scroll)) eqn:Ho; [by exists s, (Err E_ScrollBounds)|].
  apply validate_patch_ok in Hv. destruct (scrolls_moved s _ (pa_frame _ _ Hv) Hfit Ho) as (moved & -> & Hmoved & Hml). simpl.
  destruct (commit_patch_total (with_cells s moved) (sp_patch scroll)) as (s' & Hs & Hwf).
  { apply accepted_with_cells; [done|by apply Hmoved|done]. }
  rewrite Hs. exists s', (Ok tt). destruct (commit_patch_identity _ _ _ Hs) as [Hk ->].
  split_and!; [done|done|by apply (pa_popup _ _ Hv)|exact Hk|by apply pa_next].
Qed.

(** C4: [apply_scroll_patch] never panics. A refused message leaves the surface as
    it was. An accepted one gives a valid frame one revision later whose cells
    are the old ones with every region shifted (no region's rows leaking into
    another, nothing outside moving), then overwritten by the patch's rows. *)
Theorem apply_scroll_patch_correct (s : PaneSurfaceFrame) (scroll : ScrollPatch) :
  ∃ s' r, apply_scroll_patch s scroll = Some (s', r) ∧
    match r with
    | Err _ => s' = s
    | Ok _ =>
        frame_validate (surf_frame s') = Ok tt ∧
        surf_surface_revision s' = surf_surface_revision s + 1 ∧
        ∃ moved,
          scrolled (N.to_nat (frame_width (surf_frame s))) (sp_scrolls scroll)
            (frame_cells (surf_frame s)) moved ∧
          ∀ i, frame_cells (surf_frame s') !! i =
               patched_cell (frame_width (surf_frame s)) (patch_rows (sp_patch scroll)) i (moved !! i)
    end.
Proof.
  unfold apply_scroll_patch. destruct (validate_patch s (sp_patch scroll)) as [[]|e] eqn:Hv; [|by exists s, (Err e)].
  destruct (forallb _ _) eqn:Hfit; simpl; [|by exists s, (Err E_ScrollBounds)].
  destruct (some_overlap (sp_scrolls scroll)) eqn:Ho; [by exists s, (Err E_ScrollBounds)|].
  apply validate_patch_ok in Hv. destruct (scrolls_moved s _ (pa_frame _ _ Hv) Hfit Ho) as (moved & -> & Hmoved & Hml).
  simpl. destruct (commit_patch_total (with_cells s moved) (sp_patch scroll)) as (s' & Hs & Hwf).
  { apply accepted_with_cells; [done|by apply Hmoved|done]. }
  rewrite Hs. exists s', (Ok tt). split; [done|]. split; [by apply frame_validate_ok|].
  revert Hs. unfold commit_patch. destruct (foldM _ _ _) as [cells|] eqn:Hw; [|done].
  intros [= <-]. simpl. split; [by apply pa_next|].
  exists moved. split; [done|]. intros i. by apply write_rows_lookup.
Qed.

(** ** Encoding and decoding *)

Record scroll_in_range (s : SurfaceScroll) : Prop := {
  sr_x : rect_x (ss_rect s) ≤ u16_max;
  sr_y : rect_y (ss_rect s) ≤ u16_max;
  sr_width : rect_width (ss_rect s) ≤ u16_max;
  sr_height : rect_height (ss_rect s) ≤ u16_max;
  sr_shift : (-32768 ≤ ss_shift s < 32768)%Z;
}.

Lemma i16_roundtrip z : (-32768 ≤ z < 32768)%Z → i16_from_le (i16_to_le z) = z.
Proof.
  intros Hz. unfold i16_from_le, i16_to_le.
  rewrite le_val_bytes2 by (unfold u16_max; dlia).
  destruct (Z.ltb_spec (Z.of_N (Z.to_N (z mod 65536))) 32768); dlia.
Qed.

Lemma take_app_at {A} n (l k : list A) : length l = n → take n (l ++ k) = l.
Proof. intros <-. apply take_app_length. Qed.

Lemma drop_app_at {A} n (l k : list A) : length l = n → drop n (l ++ k) = k.
Proof. intros <-. apply drop_app_length. Qed.

Lemma drop_app_past {A} m n (l k : list A) : length l = m → drop (m + n) (l ++ k) = drop n k.
Proof. intros <-. by rewrite <-drop_drop, drop_app_length. Qed.

Lemma length_encode_scroll s : length (encode_scroll s) = 10%nat.
Proof. unfold encode_scroll, i16_to_le. by rewrite !length_app, !length_le_bytes. Qed.

Lemma decode_encode_scroll s : scroll_in_range s → decode_scroll (encode_scroll s) = s.
Proof.
  intros []. destruct s as [[x y w h] shift]. simpl in *. unfold decode_scroll, encode_scroll. simpl ss_rect. simpl ss_shift.
  rewrite drop_0, (drop_app_at 2), (take_app_at 2) by apply length_le_bytes.
  rewrite (take_app_at 2) by apply length_le_bytes.
  rewrite (drop_app_past 2 2), (drop_app_at 2), (take_app_at 2) by apply length_le_bytes.
  rewrite (drop_app_past 2 4), (drop_app_past 2 2), (drop_app_at 2), (take_app_at 2) by apply length_le_bytes.
  rewrite (drop_app_past 2 6), (drop_app_past 2 4), (drop_app_past 2 2), (drop_app_at 2) by apply length_le_bytes.
  rewrite (take_ge (i16_to_le shift)) by (unfold i16_to_le; rewrite length_le_bytes; lia).
  by rewrite !le_val_bytes2, i16_roundtrip.
Qed.

Lemma decode_encode_scrolls scrolls rest :
  Forall scroll_in_range scrolls →
  decode_scrolls (length scrolls) (concat (encode_scroll <$> scrolls) ++ rest) = scrolls.
Proof.
  induction 1 as [|s scrolls Hs _ IH]; [done|].
  cbn [length decode_scrolls fmap list_fmap concat]. rewrite <-app_assoc.
  rewrite take_app_at, drop_app_at by apply length_encode_scroll.
  by rewrite decode_encode_scroll, IH.
Qed.

Lemma lenN_encode_scrolls scrolls :
  lenN (concat (encode_scroll <$> scrolls)) = lenN scrolls * SCROLL_BYTES.
Proof.
  induction scrolls as [|s scrolls IH]; [done|].
  rewrite fmap_cons, concat_cons, lenN_app, IH. unfold lenN, SCROLL_BYTES.
  rewrite length_encode_scroll. cbn [length]. lia.
Qed.

Lemma encode_scrolls_bytes scrolls : Forall is_byte (concat (encode_scroll <$> scrolls)).
Proof.
  apply Forall_concat, Forall_fmap, Forall_true. intros s. unfold compose, encode_scroll, i16_to_le.
  rewrite !Forall_app. auto 10 with sheprd.
Qed.

Section roundtrip.
Context `{Base64Laws, BincodeLaws ServerMessage}.

(** A scroll message of one to [MAX_SCROLLS] regions whose bytes fit one frame is
    decoded back exactly as it was encoded. *)
Theorem scroll_roundtrip (p : ScrollPatch) (ws : list (list N)) (data : str) :
  0 < lenN (sp_scrolls p) ≤ MAX_SCROLLS →
  Forall scroll_in_range (sp_scrolls p) →
  bin_writes (SM_PaneSurfacePatch (sp_patch p)) = Some ws →
  5 + lenN (sp_scrolls p) * SCROLL_BYTES + lenN (concat ws) ≤ MAX_FRAME_SIZE →
  bin_fits MAX_GRAPHICS_FRAME_SIZE (SM_PaneSurfacePatch (sp_patch p)) →
  scroll_encode p = Ok data →
  scroll_decode data = Ok p.
Proof.
  intros Hn Hr Hws Hsize Hfit. unfold scroll_encode, write_message.
  destruct (N.ltb_spec u8_max (lenN (sp_scrolls p))) as [|Hu8]; [done|].
  destruct (encode_message _ _) as [frame|] eqn:He; [|done]. intros [= <-].
  apply encode_message_Ok in He as Hfr. destruct Hfr as (ws' & Hws' & Hne & Hlen & Hframe).
  rewrite Hws in Hws'. injection Hws' as <-.
  set (bytes := lenN (sp_scrolls p) :: concat (encode_scroll <$> sp_scrolls p)).
  change (lenN (sp_scrolls p) :: concat (encode_scroll <$> sp_scrolls p) ++ frame) with (bytes ++ frame).
  assert (lenN frame = 4 + lenN (concat ws)) as Hfl.
  { rewrite Hframe, lenN_app. unfold lenN at 1. by rewrite length_le_bytes. }
  assert (lenN bytes = 1 + lenN (sp_scrolls p) * SCROLL_BYTES) as Hbl.
  { rewrite <-lenN_encode_scrolls. unfold bytes, lenN. cbn [length]. lia. }
  assert (Forall is_byte (bytes ++ frame)) as Hbytes.
  { apply Forall_app. split.
    - constructor; [unfold is_byte, u8_max in *; lia|]. apply encode_scrolls_bytes.
    - rewrite Hframe. apply Forall_app. split; [auto with sheprd|]. by eapply bin_bytes. }
  unfold scroll_decode.
  destruct (N.ltb_spec (default u64_max (b64_encoded_len MAX_FRAME_SIZE)) (str_len (b64_encode (bytes ++ frame)))) as [Hlong|_].
  { destruct (b64_length MAX_FRAME_SIZE) as (k & Hk & Hb); [done|]. rewrite Hk in Hlong.
    specialize (Hb (bytes ++ frame) Hbytes). rewrite lenN_app, Hbl, Hfl in Hb.
    exfalso. apply N.lt_nge in Hlong. apply Hlong, Hb. clear -Hsize. unfold SCROLL_BYTES in *. lia. }
  rewrite b64_roundtrip by done. cbn [ok_or mbind res_bind].
  replace (head (bytes ++ frame)) with (Some (lenN (sp_scrolls p))) by done.
  cbn [ok_or mbind res_bind].
  destruct (N.eqb_spec (lenN (sp_scrolls p)) 0); [lia|].
  destruct (N.ltb_spec MAX_SCROLLS (lenN (sp_scrolls p))); [lia|]. cbn [orb].
  cbv zeta. rewrite <-Hbl, lenN_app. destruct (N.ltb_spec (lenN bytes + lenN frame) (lenN bytes)); [lia|].
  rewrite (drop_app_at (N.to_nat (lenN bytes))) by (unfold lenN; lia).
  rewrite <-(app_nil_r frame) at 1.
  rewrite (read_encode (SM_PaneSurfacePatch (sp_patch p)) MAX_FRAME_SIZE) by done.
  cbn. unfold lenN. rewrite Nat2N.id, drop_0, decode_encode_scrolls by done. by destruct p.
Qed.
End roundtrip.

(** ** A concrete text encoding and message encoding *)

(** Two letters per byte, the high and the low nibble. *)
Definition nibbles_encode (bs : list N) : str := bs ≫= λ b, [65 + b / 16; 65 + b mod 16].

Fixpoint nibbles_decode (s : str) : option (list N) :=
  match s with
  | [] => Some []
  | hi :: lo :: s => bs ← nibbles_decode s; Some ((hi - 65) * 16 + (lo - 65) :: bs)
  | [_] => None
  end.

Definition nibbles_base64 : Base64 :=
  {| b64_encode := nibbles_encode; b64_decode := nibbles_decode; b64_encoded_len n := Some (2 * n) |}.

Lemma nibbles_length bs : Forall is_byte bs → str_len (nibbles_encode bs) = 2 * lenN bs.
Proof.
  induction 1 as [|b bs Hb _ IH]; [done|].
  unfold nibbles_encode, str_len in *. rewrite bind_cons, as_bytes_app, lenN_app, IH.
  unfold is_byte in Hb.
  assert (b / 16 < 16) by (apply N.Div0.div_lt_upper_bound; lia).
  assert (b mod 16 < 16) by (by apply N.mod_lt).
  assert (lenN (as_bytes [65 + b / 16; 65 + b mod 16]) = 2) as ->.
  { unfold as_bytes, utf8_char. cbn [mbind list_bind].
    destruct (N.ltb_spec (65 + b / 16) 128); [|lia]. destruct (N.ltb_spec (65 + b mod 16) 128); [done|lia]. }
  unfold lenN. cbn [length]. lia.
Qed.

Lemma nibbles_laws : @Base64Laws nibbles_base64.
Proof.
  split.
  - unfold b64_decode, b64_encode; simpl. induction 1 as [|b bs Hb _ IH]; simpl; [done|].
    unfold nibbles_encode, mbind in IH. setoid_rewrite IH. simpl. f_equal. f_equal. unfold is_byte in Hb. dlia.
  - intros m _. exists (2 * m). split; [done|]. intros bs Hbs Hle. unfold b64_encode; simpl.
    rewrite nibbles_length by done. lia.
Qed.

(** An encoding of one message, as the byte 5. *)
Definition one_message (m0 : ServerMessage) : Bincode ServerMessage :=
  {| bin_writes m := if decide (m = m0) then Some [[5]] else None;
     bin_decode limit bs := match bs with 5 :: _ => Some (m0, 1) | _ => None end;
     bin_fits _ _ := True |}.

Lemma one_message_laws m0 : @BincodeLaws ServerMessage (one_message m0).
Proof.
  split; simpl.
  - intros _ m ws rest Hw _. case_decide; by simplify_eq/=.
  - intros _ [|b bs] m used Hd; [done|].
    assert (used = 1) as -> by (repeat (case_match; simplify_eq); done).
    unfold lenN. cbn [length]. lia.
  - intros m ws Hw. case_decide; simplify_eq/=. by repeat constructor.
Qed.

Definition sample_scroll : ScrollPatch :=
  MkScrollPatch [MkSurfaceScroll (rect0 0 0 2 3) (-1)] sample_patch.

Lemma scroll_roundtrip_witness :
  ∃ data,
    @scroll_encode nibbles_base64 (one_message (SM_PaneSurfacePatch sample_patch)) sample_scroll = Ok data ∧
    @scroll_decode nibbles_base64 (one_message (SM_PaneSurfacePatch sample_patch)) data = Ok sample_scroll.
Proof.
  eexists. split; [vm_compute; reflexivity|].
  eapply (@scroll_roundtrip nibbles_base64 nibbles_laws (one_message (SM_PaneSurfacePatch sample_patch))
    (one_message_laws _) sample_scroll [[5]]).
  - split; vm_compute; [reflexivity|discriminate].
  - repeat constructor; vm_compute; congruence.
  - vm_compute. reflexivity.
  - vm_compute. discriminate.
  - exact I.
  - vm_compute. reflexivity.
Defined.
