(* ===== verification/SurfaceDelta.v ===== *)
(** * SurfaceDelta: rebuilt surfaces, their prefix and clipboard images
    (crates/sheprd-protocol/src/surface_delta.rs, surface_reuse.rs,
    surface_prefix.rs and clipboard.rs)

    A recomputed surface arrives as metadata with an empty grid and the spans
    that differ from the retained surface ([SurfaceDelta]), or as metadata alone
    ([SurfaceReuse]). serde_json and the positional header decoder of bincode
    are parameters. *)

From Stdlib Require Import ZArith NArith Lia.
From stdpp Require Import base option strings sets list.
From S2P Require Import Prelude Wire Codec Frame SurfaceScroll.

Local Open Scope N_scope.

Definition MAX_SPANS : N := 4096.
Definition MAX_GRID_DIMENSION : N := 4096.
Definition MAX_GRID_CELLS : N := 1000000.

Inductive GridUpdate :=
| Grid_Patch (rows : list PaneSurfacePatchRow)
| Grid_Replace (cells : list CellData).

Record SurfaceDelta := MkSurfaceDelta {
  delta_base_projection_revision : N;
  delta_base_surface_revision : N;
  delta_surface : PaneSurfaceFrame;
  delta_rows : list PaneSurfacePatchRow;
  delta_popup_cells : option GridUpdate }.

Definition grid_cells (width height : N) : res Error N :=
  let cells := width * height in
  if (MAX_GRID_DIMENSION <? width) || (MAX_GRID_DIMENSION <? height) || (MAX_GRID_CELLS <? cells)
  then Err E_DeltaGridLimit else Ok cells.

(** The loop of [check_rows], with [previous_end] and [total]. *)
Fixpoint check_rows_from (width height budget previous_end total : N)
    (rows : list PaneSurfacePatchRow) : res Error unit :=
  match rows with
  | [] => Ok tt
  | row :: rows =>
      let x := row_x row in
      let len := lenN (row_cells row) in
      if (len =? 0) || (height <=? row_y row) || (width <=? x) || (width - x <? len)
      then Err E_DeltaSpan
      else
        let start := row_y row * width + x in
        let total := total + len in
        if (start <? previous_end) || (budget <? total) then Err E_DeltaSpan
        else check_rows_from width height budget (start + len) total rows
  end.

Definition check_rows (rows : list PaneSurfacePatchRow) (width height : N) : res Error unit :=
  budget ← grid_cells width height;
  if N.min MAX_SPANS budget <? lenN rows then Err E_DeltaSpan
  else check_rows_from width height budget 0 0 rows.

Definition check_metadata (frame : FrameData) : res Error unit :=
  _ ← grid_cells (frame_width frame) (frame_height frame);
  if negb (bool_decide (frame_cells frame = [])) then Err E_DeltaMetadataCells else Ok tt.

Definition is_empty {A} (l : list A) : bool := match l with [] => true | _ => false end.

(** The popup half of [decode]. *)
Definition check_popup (popup : option ClientShellPopupSurface) (update : option GridUpdate)
    : res Error unit :=
  match popup, update with
  | None, Some _ => Err E_DeltaPopup
  | Some popup, update =>
      _ ← check_metadata (popup_frame popup);
      let width := frame_width (popup_frame popup) in
      let height := frame_height (popup_frame popup) in
      match update with
      | Some (Grid_Patch rows) => check_rows rows width height
      | Some (Grid_Replace cells) =>
          n ← grid_cells width height;
          if negb (lenN cells =? n) then Err E_DeltaPopup else Ok tt
      | None => Err E_DeltaPopup
      end
  | None, None => Ok tt
  end.

Section messages.
Context `{Base64, Bincode SurfaceDelta}.

Definition delta_decode (data : str) : res Error SurfaceDelta :=
  if MAX_GRAPHICS_FRAME_SIZE <? str_len data then Err E_EncodingLimit
  else
    bytes ← ok_or E_EncodingPayload (b64_decode data);
    delta ← decode_payload (M:=SurfaceDelta) bytes;
    let surface := delta_surface delta in
    let graphics := surf_graphics surface in
    if (MAX_FRAME_SIZE <? str_len data) && is_empty (scene_assets graphics)
       && is_empty (scene_placements graphics) && is_empty (scene_retained_assets graphics)
    then Err E_EncodingLimit
    else
      _ ← check_metadata (surf_frame surface);
      _ ← check_rows (delta_rows delta) (frame_width (surf_frame surface)) (frame_height (surf_frame surface));
      _ ← check_popup (surf_popup surface) (delta_popup_cells delta);
      Ok delta.

(** [SurfaceDelta::encode]: the frame without its length prefix. *)
Definition delta_encode (delta : SurfaceDelta) : res Error str :=
  bytes ← encode_message delta MAX_GRAPHICS_FRAME_SIZE;
  Ok (b64_encode (drop 4 bytes)).
End messages.

(** [apply_rows]: [None] is the panic of an index out of range. *)
Definition apply_rows (cells : list CellData) (width : N) (rows : list PaneSurfacePatchRow)
    : option (list CellData) :=
  foldM (write_row width) cells rows.

Definition same_popup_grid (previous next : ClientShellPopupSurface) : bool :=
  bool_decide (popup_terminal_id previous = popup_terminal_id next)
  && (frame_width (popup_frame previous) =? frame_width (popup_frame next))
  && (frame_height (popup_frame previous) =? frame_height (popup_frame next))
  && (lenN (frame_cells (popup_frame previous))
      =? frame_width (popup_frame next) * frame_height (popup_frame next)).

Definition popup_with_cells (p : ClientShellPopupSurface) (cells : list CellData)
    : ClientShellPopupSurface :=
  MkClientShellPopupSurface (popup_terminal_id p) (popup_title p) (popup_width p) (popup_height p)
    (set_cells (popup_frame p) cells) (popup_mouse_reporting p) (popup_sgr_pixel_mouse p)
    (popup_pixel_width p) (popup_pixel_height p).

Definition surface_with_popup (s : PaneSurfaceFrame) (popup : option ClientShellPopupSurface)
    : PaneSurfaceFrame :=
  MkPaneSurfaceFrame (surf_boot_id s) (surf_projection_revision s) (surf_surface_revision s)
    (surf_frame s) (surf_panes s) (surf_splits s) popup (surf_graphics s).

(** The popup half of [reconstruct]; [None] is a panic. *)
Definition reconstruct_popup (base popup : option ClientShellPopupSurface) (update : option GridUpdate)
    : option (res Error (option ClientShellPopupSurface)) :=
  match popup, update with
  | None, None => Some (Ok None)
  | Some popup, Some (Grid_Replace cells) => Some (Ok (Some (popup_with_cells popup cells)))
  | Some popup, Some (Grid_Patch rows) =>
      match base with
      | Some previous =>
          if same_popup_grid previous popup then
            cells ← apply_rows (frame_cells (popup_frame previous)) (frame_width (popup_frame popup)) rows;
            Some (Ok (Some (popup_with_cells popup cells)))
          else Some (Err E_DeltaPopup)
      | None => Some (Err E_DeltaPopup)
      end
  | _, _ => Some (Err E_DeltaPopup)
  end.

(** [SurfaceDelta::reconstruct]; [None] is a panic. *)
Definition delta_reconstruct (delta : SurfaceDelta) (base : PaneSurfaceFrame)
    : option (res Error PaneSurfaceFrame) :=
  let surface := delta_surface delta in
  let width := frame_width (surf_frame base) in
  let height := frame_height (surf_frame base) in
  if negb (bool_decide (surf_boot_id surface = surf_boot_id base))
     || negb (delta_base_projection_revision delta =? surf_projection_revision base)
     || negb (delta_base_surface_revision delta =? surf_surface_revision base)
     || negb (bool_decide (checked_add u64_max (surf_surface_revision base) 1
                           = Some (surf_surface_revision surface)))
     || (surf_projection_revision surface <? surf_projection_revision base)
     || negb ((frame_width (surf_frame surface) =? width) && (frame_height (surf_frame surface) =? height))
     || negb (lenN (frame_cells (surf_frame base)) =? width * height)
  then Some (Err E_SurfaceBaseline)
  else
    popup ← reconstruct_popup (surf_popup base) (surf_popup surface) (delta_popup_cells delta);
    match popup with
    | Err e => Some (Err e)
    | Ok popup =>
        cells ← apply_rows (frame_cells (surf_frame base)) width (delta_rows delta);
        Some (Ok (with_cells (surface_with_popup surface popup) cells))
    end.

(** ** What the checks establish *)

(** Spans inside the grid, each starting at or after the end of the one before. *)
Fixpoint spans_ordered (width height previous_end : N) (rows : list PaneSurfacePatchRow) : Prop :=
  match rows with
  | [] => True
  | row :: rows =>
      row_y row < height ∧ row_x row + lenN (row_cells row) ≤ width ∧
      previous_end ≤ row_y row * width + row_x row ∧
      spans_ordered width height (row_y row * width + row_x row + lenN (row_cells row)) rows
  end.

Lemma check_rows_from_ordered width height budget prev total rows :
  check_rows_from width height budget prev total rows = Ok tt → spans_ordered width height prev rows.
Proof.
  revert prev total. induction rows as [|row rows IH]; intros prev total; simpl; [done|].
  destruct (_ || _ || _ || _) eqn:Hspan; [done|].
  rewrite !orb_false_iff, N.eqb_neq, !N.leb_gt, N.ltb_ge in Hspan.
  destruct (_ || _) eqn:Hstart; [done|]. rewrite orb_false_iff, !N.ltb_ge in Hstart.
  intros H%IH. split_and!; [lia..|done].
Qed.

Lemma check_rows_ordered rows width height :
  check_rows rows width height = Ok tt → spans_ordered width height 0 rows.
Proof.
  unfold check_rows. destruct (grid_cells width height) as [budget|]; simpl; [|done].
  destruct (_ <? _); [done|]. apply check_rows_from_ordered.
Qed.

Lemma spans_ordered_weaken w h p q rows :
  q ≤ p → spans_ordered w h p rows → spans_ordered w h q rows.
Proof. destruct rows as [|row rows]; simpl; [done|]. intros. split_and!; [lia..|]. naive_solver. Qed.

(** No span of an ordered list starts before its bound. *)
Lemma spans_ordered_from w h p rows row i c :
  spans_ordered w h p rows → row ∈ rows → row_cell w i row = Some c → p ≤ N.of_nat i.
Proof.
  revert p. induction rows as [|r rows IH]; intros p Ho Hin Hc; simpl in Ho; [set_solver|].
  destruct Ho as (Hy & Hx & Hp & Ho). apply elem_of_cons in Hin as [->|Hin].
  - unfold row_cell, row_start in Hc. case_match eqn:E; [|done]. apply Nat.leb_le in E. lia.
  - specialize (IH _ Ho Hin Hc). lia.
Qed.

Lemma row_cell_end w i row c :
  row_cell w i row = Some c → N.of_nat i < row_y row * w + row_x row + lenN (row_cells row).
Proof.
  unfold row_cell, row_start, lenN. case_match eqn:E; [|done]. apply Nat.leb_le in E.
  intros Hl%lookup_lt_Some. lia.
Qed.

Lemma patched_cell_none w rows i old :
  (∀ row, row ∈ rows → row_cell w i row = None) → patched_cell w rows i old = old.
Proof.
  unfold patched_cell. revert old. induction rows as [|r rows IH]; intros old Hn; simpl; [done|].
  rewrite (Hn r) by set_solver. apply IH. set_solver.
Qed.

(** Ordered spans do not overlap: the one that covers a cell decides it. *)
Lemma patched_cell_ordered w h p rows row i c old :
  spans_ordered w h p rows → row ∈ rows → row_cell w i row = Some c →
  patched_cell w rows i old = Some c.
Proof.
  revert p old. induction rows as [|r rows IH]; intros p old Ho Hin Hc; [set_solver|].
  destruct Ho as (_ & _ & _ & Ho). apply elem_of_cons in Hin as [->|Hin].
  - unfold patched_cell. cbn [foldl]. rewrite Hc. fold (patched_cell w rows i (Some c)).
    apply patched_cell_none. intros r' Hr'. destruct (row_cell w i r') as [d|] eqn:Hd; [|done].
    pose proof (spans_ordered_from _ _ _ _ _ _ _ Ho Hr' Hd). apply row_cell_end in Hc. lia.
  - by apply (IH _ _ Ho).
Qed.

(** The grid after the spans: every cell of a span is the span's, the others the
    retained ones. *)
Record spans_written (width : N) (rows : list PaneSurfacePatchRow) (old new : list CellData) : Prop := {
  sw_length : length new = length old;
  sw_in : ∀ row k c, row ∈ rows → row_cells row !! k = Some c →
    new !! (row_start width row + k)%nat = Some c;
  sw_out : ∀ i, (∀ row, row ∈ rows → row_cell width i row = None) → new !! i = old !! i;
}.

Lemma spans_ordered_Forall w h p rows :
  spans_ordered w h p rows →
  Forall (λ row, row_y row < h ∧ row_x row + lenN (row_cells row) ≤ w) rows.
Proof.
  revert p. induction rows as [|row rows IH]; intros p; simpl; [by constructor|].
  intros (? & ? & ? & ?). constructor; [done|]. by eapply IH.
Qed.

Lemma apply_rows_written w h rows cells :
  spans_ordered w h 0 rows → lenN cells = w * h →
  ∃ new, apply_rows cells w rows = Some new ∧ spans_written w rows cells new.
Proof.
  intros Ho Hlen. pose proof (spans_ordered_Forall _ _ _ _ Ho) as Hfit. rewrite Forall_forall in Hfit.
  destruct (foldM_ind (write_row w) (λ cs, length cs = length cells) rows cells) as (new & Hn & Hl); [done| |].
  { intros cs row Hin Hcs. destruct (Hfit row Hin) as [Hy Hx]. eexists. split.
    - apply write_at_fits. unfold row_start. pose proof (row_in_grid _ _ _ _ _ Hy Hx).
      unfold lenN in *. lia.
    - by rewrite length_inserts. }
  exists new. split; [done|]. split; [done| |].
  - intros row k c Hin Hk. rewrite (write_rows_lookup _ _ _ _ _ Hn).
    apply (patched_cell_ordered w h 0 rows row); [done..|].
    unfold row_cell. rewrite (proj2 (Nat.leb_le _ _)) by lia. by rewrite Nat.add_comm, Nat.add_sub.
  - intros i Hi. rewrite (write_rows_lookup _ _ _ _ _ Hn). by apply patched_cell_none.
Qed.

Lemma grid_cells_Ok w h n : grid_cells w h = Ok n → n = w * h.
Proof. unfold grid_cells. destruct (_ || _); [done|]. by intros [= <-]. Qed.

(** A popup that passed [check_popup] is rebuilt without a panic to a full grid. *)
Lemma reconstruct_popup_total base popup update :
  check_popup popup update = Ok tt →
  ∃ r, reconstruct_popup base popup update = Some r ∧
    match r with
    | Err e => e = E_DeltaPopup
    | Ok None => popup = None
    | Ok (Some p) => lenN (frame_cells (popup_frame p)) = frame_width (popup_frame p) * frame_height (popup_frame p)
    end.
Proof.
  unfold check_popup, reconstruct_popup. destruct popup as [popup|], update as [[rows|cells]|]; try done.
  - destruct (check_metadata _); simpl; [|done]. intros Ho%check_rows_ordered.
    destruct base as [previous|]; [|by eexists]. destruct (same_popup_grid previous popup) eqn:Hs; [|by eexists].
    unfold same_popup_grid in Hs. rewrite !andb_true_iff, !N.eqb_eq in Hs. destruct Hs as [_ Hlen].
    destruct (apply_rows_written _ _ _ _ Ho Hlen) as (new & -> & Hw). simpl.
    eexists. split; [done|]. simpl. unfold lenN in *. by rewrite (sw_length _ _ _ _ Hw).
  - destruct (check_metadata _); simpl; [|done]. destruct (grid_cells _ _) as [n|] eqn:Hg; simpl; [|done].
    apply grid_cells_Ok in Hg as ->. destruct (N.eqb_spec (lenN cells) (frame_width (popup_frame popup) * frame_height (popup_frame popup))); [|done].
    intros _. by eexists.
  - destruct (check_metadata _); done.
  - intros _. by eexists.
Qed.

Lemma delta_decode_checked `{Base64, Bincode SurfaceDelta} data delta :
  delta_decode data = Ok delta →
  check_rows (delta_rows delta) (frame_width (surf_frame (delta_surface delta)))
    (frame_height (surf_frame (delta_surface delta))) = Ok tt ∧
  check_popup (surf_popup (delta_surface delta)) (delta_popup_cells delta) = Ok tt.
Proof.
  unfold delta_decode. destruct (_ <? _); [done|].
  destruct (b64_decode data); simpl; [|done]. destruct (decode_payload _) as [d|]; simpl; [|done].
  destruct (_ && _); [done|].
  destruct (check_metadata _) as [[]|]; simpl; [|done].
  destruct (check_rows _ _ _) as [[]|] eqn:Hr; simpl; [|done].
  destruct (check_popup _ _) as [[]|] eqn:Hp; simpl; [|done]. intros [= <-]. done.
Qed.

Lemma delta_reconstruct_total `{Base64, Bincode SurfaceDelta} data delta base :
  delta_decode data = Ok delta → is_Some (delta_reconstruct delta base).
Proof.
  intros [Hrows Hpopup]%delta_decode_checked. unfold delta_reconstruct. destruct (_ || _) eqn:Hc; [done|].
  rewrite !orb_false_iff, !negb_false_iff, andb_true_iff, !bool_decide_eq_true, !N.eqb_eq, N.ltb_ge in Hc.
  destruct Hc as ((((((Hb & Hp) & Hs) & _) & Hproj) & (Hw & Hh)) & Hlen).
  destruct (reconstruct_popup_total (surf_popup base) _ _ Hpopup) as ([popup|e] & -> & Hr); simpl; [|done].
  rewrite Hw, Hh in Hrows. apply check_rows_ordered in Hrows.
  by destruct (apply_rows_written _ _ _ _ Hrows Hlen) as (new & -> & Hnew).
Qed.

(** A delta that decoded is rebuilt on any retained surface without a
    panic. It is refused for a wrong baseline or popup, or it gives the next
    revision of the same boot on a grid of the same size, whose cells are the
    delta's inside its spans and the retained ones elsewhere; a popup comes out
    with a full grid. *)
Theorem delta_reconstruct_correct `{Base64, Bincode SurfaceDelta}
    (data : str) (delta : SurfaceDelta) (base : PaneSurfaceFrame) :
  delta_decode data = Ok delta →
  ∃ r, delta_reconstruct delta base = Some r ∧
    match r with
    | Err e => e = E_SurfaceBaseline ∨ e = E_DeltaPopup
    | Ok next =>
        surf_boot_id next = surf_boot_id base ∧
        surf_surface_revision next = surf_surface_revision base + 1 ∧
        surf_projection_revision base ≤ surf_projection_revision next ∧
        frame_width (surf_frame next) = frame_width (surf_frame base) ∧
        frame_height (surf_frame next) = frame_height (surf_frame base) ∧
        spans_written (frame_width (surf_frame base)) (delta_rows delta)
          (frame_cells (surf_frame base)) (frame_cells (surf_frame next)) ∧
        ∀ p, surf_popup next = Some p →
          lenN (frame_cells (popup_frame p)) = frame_width (popup_frame p) * frame_height (popup_frame p)
    end.
Proof.
  intros [Hrows Hpopup]%delta_decode_checked. unfold delta_reconstruct.
  destruct (_ || _) eqn:Hc; [eexists; split; [done|by left]|].
  rewrite !orb_false_iff, !negb_false_iff, andb_true_iff, !bool_decide_eq_true, !N.eqb_eq, N.ltb_ge in Hc.
  destruct Hc as ((((((Hb & Hp) & Hs) & [Hn _]%checked_add_Some) & Hproj) & (Hw & Hh)) & Hlen).
  destruct (reconstruct_popup_total (surf_popup base) _ _ Hpopup) as ([popup|e] & -> & Hr); simpl;
    [|eexists; split; [done|by right]].
  rewrite Hw, Hh in Hrows. apply check_rows_ordered in Hrows.
  destruct (apply_rows_written _ _ _ _ Hrows Hlen) as (new & -> & Hnew). simpl.
  eexists. split; [done|]. simpl. split_and!; try done. by intros p ->.
Qed.

(** ** Reused grids *)

Record SurfaceReuse := MkSurfaceReuse {
  reuse_base_surface_revision : N;
  reuse_surface : PaneSurfaceFrame }.

(** serde_json for [SurfaceReuse]. *)
Class ReuseJson := {
  reuse_from_str : str → option SurfaceReuse;
  reuse_to_string : SurfaceReuse → option str;
}.

Definition reuse_decode `{ReuseJson} (data : str) : res Error SurfaceReuse :=
  if MAX_FRAME_SIZE <? str_len data then Err E_EncodingLimit
  else ok_or E_EncodingJson (reuse_from_str data).

Definition reuse_encode `{ReuseJson} (r : SurfaceReuse) : res Error str :=
  ok_or E_EncodingJson (reuse_to_string r).

Definition reuse_reconstruct (r : SurfaceReuse) (base : PaneSurfaceFrame) : res Error PaneSurfaceFrame :=
  let surface := reuse_surface r in
  if negb (bool_decide (surf_boot_id surface = surf_boot_id base))
     || negb (reuse_base_surface_revision r =? surf_surface_revision base)
     || negb (bool_decide (checked_add u64_max (surf_surface_revision base) 1
                           = Some (surf_surface_revision surface)))
     || (surf_projection_revision surface <? surf_projection_revision base)
     || negb (frame_width (surf_frame surface) =? frame_width (surf_frame base))
     || negb (frame_height (surf_frame surface) =? frame_height (surf_frame base))
     || negb (is_empty (frame_cells (surf_frame surface)))
  then Err E_SurfaceBaseline
  else Ok (with_cells surface (frame_cells (surf_frame base))).

(** A reuse is a delta with no spans: on a full retained grid and a surface
    without a popup both rebuild the same surface. *)
Lemma reuse_is_empty_delta (r : SurfaceReuse) (base : PaneSurfaceFrame) :
  lenN (frame_cells (surf_frame base)) = frame_width (surf_frame base) * frame_height (surf_frame base) →
  frame_cells (surf_frame (reuse_surface r)) = [] →
  surf_popup (reuse_surface r) = None →
  delta_reconstruct
    (MkSurfaceDelta (surf_projection_revision base) (reuse_base_surface_revision r) (reuse_surface r) [] None)
    base = Some (reuse_reconstruct r base).
Proof.
  intros Hlen Hcells Hpop. unfold delta_reconstruct, reuse_reconstruct. simpl.
  rewrite Hlen, Hpop, Hcells, !N.eqb_refl. simpl. rewrite !orb_false_r, negb_andb, !orb_assoc.
  destruct (_ || _); [done|]. simpl. do 2 f_equal. unfold with_cells. by rewrite Hpop.
Qed.

(** ** The raw surface prefix *)

Definition MAX_HEADER_BYTES : nat := 512.
Definition SURFACE_TAG : N := 13.
Definition PATCH_TAG : N := 19.

(** [borrow_decode_from_slice::<(u32, &str, u64, u64)>] and [::<u64>] under the
    header limit: the value and the bytes used. *)
Class HeaderCodec := {
  header_decode : list N → option (N * str * N * N * nat);
  revision_decode : list N → option (N * nat);
  header_used (bs : list N) tag boot projection revision used :
    header_decode bs = Some (tag, boot, projection, revision, used) → (used ≤ length bs)%nat;
}.

Definition has_current_surface_prefix `{HeaderCodec} (payload : list N)
    (snapshot : ClientShellSnapshot) (surface : PaneSurfaceFrame) : option bool :=
  if negb (bool_decide (surf_boot_id surface = snap_boot_id snapshot)) || is_some (surf_popup surface)
  then Some false
  else
    payload ← slice 0 (length payload `min` MAX_HEADER_BYTES) payload;
    match header_decode payload with
    | None => Some false
    | Some (tag, boot_id, projection, revision, used) =>
        if negb (bool_decide (boot_id = snap_boot_id snapshot)) || negb (projection =? snap_revision snapshot)
        then Some false
        else if tag =? SURFACE_TAG then Some (surf_surface_revision surface <? revision)
        else if tag =? PATCH_TAG then
          rest ← slice used (length payload) payload;
          match revision_decode rest with
          | None => Some false
          | Some (next, _) =>
              Some ((surf_projection_revision surface =? projection)
                    && (revision =? surf_surface_revision surface)
                    && bool_decide (checked_add u64_max revision 1 = Some next))
          end
        else Some false
    end.

Section prefix.
Context `{HeaderCodec}.

(** A payload that starts like the bincode of [SM_PaneSurfacePatch patch]: the
    variant's index, then the first four fields in order. *)
Definition starts_patch (payload : list N) (patch : PaneSurfacePatch) : Prop :=
  ∃ used n,
    header_decode (take MAX_HEADER_BYTES payload) =
      Some (PATCH_TAG, patch_boot_id patch, patch_projection_revision patch,
            patch_base_surface_revision patch, used) ∧
    revision_decode (drop used (take MAX_HEADER_BYTES payload)) = Some (patch_surface_revision patch, n).

Lemma slice_header (l : list N) : slice 0 (length l `min` MAX_HEADER_BYTES) l = Some (take MAX_HEADER_BYTES l).
Proof.
  unfold slice. rewrite (proj2 (Nat.leb_le (length l `min` MAX_HEADER_BYTES) (length l))) by lia.
  simpl. rewrite drop_0, Nat.sub_0_r. f_equal.
  destruct (Nat.le_ge_cases (length l) MAX_HEADER_BYTES).
  - rewrite Nat.min_l by done. by rewrite !take_ge.
  - by rewrite Nat.min_r.
Qed.

(** The first check of [validate_patch], and only it, fails with [PatchIdentity]. *)
Lemma validate_patch_identity s patch :
  validate_patch s patch ≠ Err E_PatchIdentity ↔
  patch_boot_id patch = surf_boot_id s ∧
  patch_projection_revision patch = surf_projection_revision s ∧
  patch_base_surface_revision patch = surf_surface_revision s ∧
  checked_add u64_max (surf_surface_revision s) 1 = Some (patch_surface_revision patch) ∧
  surf_popup s = None.
Proof.
  unfold validate_patch. destruct (_ || _) eqn:Hc.
  - split; [done|]. intros (Hb & Hp & Hs & Hn & Ho). revert Hc.
    rewrite Hb, Hp, Hs, Hn, Ho, !bool_decide_true, !N.eqb_refl by done. done.
  - rewrite !orb_false_iff, !negb_false_iff, !bool_decide_eq_true, !N.eqb_eq in Hc.
    destruct Hc as [[[[? ?] ?] ?] Ho]. destruct (surf_popup s); [done|]. split; [done|]. intros _.
    destruct (frame_validate (surf_frame s)) as [[]|e] eqn:Hf; simpl.
    + repeat case_match; congruence.
    + unfold frame_validate in Hf. repeat case_match; congruence.
Qed.

(** The raw prefix check never panics, and for a patch's bytes it
    answers yes exactly when the surface has no popup, both belong to the
    snapshot's boot and revision, and the patch passes the identity checks of
    [validate_patch] (so applying it can only fail for its contents). *)
Theorem patch_prefix_correct (payload : list N) (snapshot : ClientShellSnapshot)
    (surface : PaneSurfaceFrame) (patch : PaneSurfacePatch) :
  starts_patch payload patch →
  ∃ current, has_current_surface_prefix payload snapshot surface = Some current ∧
    (current = true ↔
      surf_boot_id surface = snap_boot_id snapshot ∧
      patch_projection_revision patch = snap_revision snapshot ∧
      validate_patch surface patch ≠ Err E_PatchIdentity).
Proof.
  intros (used & n & Hh & Hn). unfold has_current_surface_prefix.
  rewrite slice_header. setoid_rewrite validate_patch_identity. cbn [mbind option_bind]. rewrite Hh.
  destruct (decide (surf_boot_id surface = snap_boot_id snapshot)) as [Hs|Hs];
    [rewrite (bool_decide_true _ Hs)|rewrite (bool_decide_false _ Hs); simpl; eexists; naive_solver].
  destruct (surf_popup surface) eqn:Hpop; simpl; [eexists; naive_solver|].
  destruct (decide (patch_boot_id patch = snap_boot_id snapshot)) as [Hb|Hb]; simpl.
  2: { rewrite (bool_decide_false _ Hb). simpl. eexists. split; [done|]. split; [done|]. naive_solver congruence. }
  rewrite (bool_decide_true _ Hb). simpl.
  destruct (N.eqb_spec (patch_projection_revision patch) (snap_revision snapshot)) as [Hp|Hp]; simpl;
    [|eexists; naive_solver].
  apply header_used in Hh as Hu. unfold slice.
  rewrite (proj2 (Nat.leb_le used _) Hu), Nat.leb_refl. simpl.
  rewrite (take_ge (drop used _)) by (rewrite length_drop; lia). rewrite Hn. simpl.
  eexists. split; [done|]. rewrite !andb_true_iff, !N.eqb_eq, bool_decide_eq_true.
  split; [intros [[E1 E2] E3]; rewrite <-E2; split_and!; congruence|].
  intros (_ & _ & E1 & E2 & E3 & E4 & _). split_and!; congruence.
Qed.
End prefix.

(** A header of one byte per field: the tag, a one-letter boot ID, two revisions. *)
Definition byte_header : HeaderCodec.
Proof.
  refine {| header_decode bs := match bs with
              | tag :: boot :: projection :: revision :: _ => Some (tag, [boot], projection, revision, 4%nat)
              | _ => None end;
            revision_decode bs := match bs with r :: _ => Some (r, 1%nat) | [] => None end |}.
  intros bs tag boot projection revision used.
  destruct bs as [|? [|? [|? [|? bs]]]]; intros [=]; subst. simpl. lia.
Defined.

Definition boot_surface : PaneSurfaceFrame :=
  MkPaneSurfaceFrame (lit "b") 4 9 (surf_frame sample_surface) [] [] None (surf_graphics sample_surface).

Definition boot_patch : PaneSurfacePatch := MkPaneSurfacePatch (lit "b") 4 9 10 [] [] None.

Definition boot_snapshot : ClientShellSnapshot :=
  MkClientShellSnapshot (lit "b") 4 None None None [] None false false [] None None None None [] []
    None [] [] [] [] [] [].

Lemma patch_prefix_correct_witness :
  ∃ current, @has_current_surface_prefix byte_header [19; 98; 4; 9; 10; 0] boot_snapshot boot_surface
             = Some current ∧
    (current = true ↔
      surf_boot_id boot_surface = snap_boot_id boot_snapshot ∧
      patch_projection_revision boot_patch = snap_revision boot_snapshot ∧
      validate_patch boot_surface boot_patch ≠ Err E_PatchIdentity).
Proof.
  apply (@patch_prefix_correct byte_header). exists 4%nat, 1%nat. split; vm_compute; reflexivity.
Defined.

(** One encoded delta: two spans on the sample surface. *)
Definition sample_delta : SurfaceDelta :=
  MkSurfaceDelta 4 9
    (MkPaneSurfaceFrame (lit "boot") 5 10 (MkFrameData [] 2 3 None [] []) [sample_pane 1] [] None
       (MkSurfaceGraphicsScene [] [] []))
    [MkPaneSurfacePatchRow 1 0 [ascii_cell 88]; MkPaneSurfacePatchRow 0 2 [ascii_cell 89; ascii_cell 90]] None.

Definition one_delta : Bincode SurfaceDelta :=
  {| bin_writes _ := Some [[5]];
     bin_decode limit bs := Some (sample_delta, 1);
     bin_fits _ _ := True |}.

Lemma delta_reconstruct_correct_witness :
  ∃ next, delta_reconstruct sample_delta sample_surface = Some (Ok next) ∧
    frame_cells (surf_frame next) = ascii_cell <$> lit "aXcdYZ" ∧
    spans_written 2 (delta_rows sample_delta) (frame_cells (surf_frame sample_surface))
      (frame_cells (surf_frame next)).
Proof.
  eexists. split; [vm_compute; reflexivity|]. split; [vm_compute; reflexivity|].
  destruct (@delta_reconstruct_correct nibbles_base64 one_delta (lit "AF") sample_delta sample_surface)
    as (r & Hr & Hspec).
  - vm_compute. reflexivity.
  - vm_compute in Hr. injection Hr as <-. apply Hspec.
Defined.

(** ** Clipboard images *)

Definition MAX_CLIPBOARD_IMAGE_PAYLOAD : N := 16 * 1024 * 1024.
Definition MAX_CLIPBOARD_IMAGE_TARGET_BYTES : N := 1024.
Definition MAX_CLIPBOARD_IMAGE_FRAME_SIZE : N := MAX_CLIPBOARD_IMAGE_PAYLOAD + 2048.

Definition validate_clipboard_image_target (target : ClientClipboardImageTarget) : res Error unit :=
  match target with
  | Target_DirectTerminal => Ok tt
  | Target_Pane id | Target_Popup id =>
      if negb (is_empty id) && (str_len id <=? MAX_CLIPBOARD_IMAGE_TARGET_BYTES) then Ok tt
      else Err E_ClipboardImageTarget
  end.

Definition image_extensions : list str := [lit "png"; lit "jpg"; lit "gif"; lit "webp"; lit "bmp"].

Definition canonical_extension (extension : str) : option str :=
  match find (eq_ignore_ascii_case extension) image_extensions with
  | Some e => Some e
  | None => if eq_ignore_ascii_case extension (lit "jpeg") then Some (lit "jpg") else None
  end.

Section clipboard.
Context `{Bincode ClientMessage}.

Definition encode_clipboard_image (target : ClientClipboardImageTarget) (extension : str) (data : list N)
    : res Error (list N) :=
  _ ← validate_clipboard_image_target target;
  if is_empty data || (MAX_CLIPBOARD_IMAGE_PAYLOAD <? lenN data) then Err E_ClipboardImageSize
  else
    extension ← ok_or E_ClipboardImageExtension (canonical_extension extension);
    encode_message (CM_ClipboardImage target extension data) MAX_CLIPBOARD_IMAGE_FRAME_SIZE.
End clipboard.

Lemma canonical_extension_in ext e : canonical_extension ext = Some e → e ∈ image_extensions.
Proof.
  unfold canonical_extension. destruct (find _ _) as [e'|] eqn:Hf.
  - intros [= <-]. apply find_some in Hf as [Hf _]. by apply list_elem_of_In.
  - destruct (eq_ignore_ascii_case _ _); intros [= <-]. unfold image_extensions. set_solver.
Qed.

(** [jpeg] and [jpg] in any case mean the same image, and a canonical extension
    is its own canonical form. *)
Lemma canonical_extension_idem ext e :
  canonical_extension ext = Some e → canonical_extension e = Some e.
Proof.
  intros He%canonical_extension_in. unfold image_extensions in He.
  rewrite !elem_of_cons in He.
  destruct He as [->|[->|[->|[->|[->|He]]]]]; [vm_compute; reflexivity..|set_solver].
Qed.

(** bincode's encoding of an image message adds at most 2048 bytes to an image
    whose target is bounded. *)
Class ClipboardOverhead `{Bincode ClientMessage} :=
  clipboard_overhead target ext data ws :
    validate_clipboard_image_target target = Ok tt → ext ∈ image_extensions →
    bin_writes (CM_ClipboardImage target ext data) = Some ws →
    0 < lenN (concat ws) ≤ lenN data + 2048.

(** An image of a supported type and size for a valid target always
    encodes, to a frame no larger than its cap: the frame cap never refuses what
    the payload cap accepts. *)
Theorem clipboard_image_encodes `{ClipboardOverhead}
    (target : ClientClipboardImageTarget) (extension ext : str) (data : list N) (ws : list (list N)) :
  validate_clipboard_image_target target = Ok tt →
  0 < lenN data ≤ MAX_CLIPBOARD_IMAGE_PAYLOAD →
  canonical_extension extension = Some ext →
  bin_writes (CM_ClipboardImage target ext data) = Some ws →
  ∃ bytes, encode_clipboard_image target extension data = Ok bytes ∧
    lenN bytes ≤ MAX_CLIPBOARD_IMAGE_FRAME_SIZE + 4 ∧ drop 4 bytes = concat ws.
Proof.
  intros Ht Hd He Hws. unfold encode_clipboard_image. rewrite Ht. simpl.
  destruct data as [|b data]; [by destruct Hd|]. cbn [is_empty orb].
  destruct (N.ltb_spec MAX_CLIPBOARD_IMAGE_PAYLOAD (lenN (b :: data))); [lia|].
  rewrite He. cbn [ok_or mbind res_bind]. rewrite encode_message_whole. unfold encode_spec. rewrite Hws.
  pose proof (clipboard_overhead _ _ _ _ Ht (canonical_extension_in _ _ He) Hws) as Hover.
  assert (lenN (concat ws) ≤ MAX_CLIPBOARD_IMAGE_FRAME_SIZE) as Hmax
    by (unfold MAX_CLIPBOARD_IMAGE_FRAME_SIZE; lia).
  destruct (N.ltb_spec (N.min MAX_CLIPBOARD_IMAGE_FRAME_SIZE u32_max) (lenN (concat ws))).
  { unfold MAX_CLIPBOARD_IMAGE_FRAME_SIZE, MAX_CLIPBOARD_IMAGE_PAYLOAD, u32_max in *. lia. }
  destruct (N.eqb_spec (lenN (concat ws)) 0); [lia|].
  eexists. split; [done|]. rewrite lenN_app, drop_app_length' by (by rewrite length_le_bytes).
  split; [|done]. unfold lenN at 1. rewrite length_le_bytes. lia.
Qed.

Definition raw_image : Bincode ClientMessage :=
  {| bin_writes m := match m with
       | CM_ClipboardImage _ _ data => if forallb (λ b, b <? 256) data then Some [[7]; data] else None
       | _ => None end;
     bin_decode _ _ := None;
     bin_fits _ _ := True |}.

Lemma raw_image_overhead : @ClipboardOverhead raw_image.
Proof.
  intros target ext data ws _ _ Hw. simpl in Hw. destruct (forallb _ _); simplify_eq/=.
  rewrite app_nil_r. unfold lenN. cbn [length]. lia.
Qed.

Lemma clipboard_image_encodes_witness :
  ∃ bytes, @encode_clipboard_image raw_image (Target_Pane (lit "p")) (lit "JPeg") [1; 2] = Ok bytes ∧
    lenN bytes ≤ MAX_CLIPBOARD_IMAGE_FRAME_SIZE + 4 ∧ drop 4 bytes = concat [[7]; [1; 2]].
Proof.
  apply (@clipboard_image_encodes raw_image raw_image_overhead _ _ (lit "jpg")).
  - vm_compute. reflexivity.
  - split; vm_compute; [reflexivity|discriminate].
  - vm_compute. reflexivity.
  - vm_compute. reflexivity.
Defined.
