(* ===== verification/Backend.v ===== *)
(** * Backend: what a host's terminals are called and shown as
    (crates/sheprd-backend/src/terminal.rs, error.rs and lib.rs)

    The vocabulary both Herdr generations share: bounded sizes, checked
    terminal IDs, the record a watcher keeps of each terminal and the changes it
    receives. *)

From Stdlib Require Import ZArith NArith Lia.
From stdpp Require Import base option strings gmap list.
From S2P Require Import Prelude Wire.

Local Open Scope N_scope.

Module Backend.

Inductive Error :=
| EmptySize
| EmptyTerminalId
| InvalidTerminalId
| LargeSize (cols rows : N).

#[export] Instance Error_eq_dec : EqDecision Error.
Proof. solve_decision. Defined.

Definition MAX_SIDE : N := 4096.
Definition MAX_CELLS : N := 1000000.

Record Size := MkSize { cols : N; rows : N }.

#[export] Instance Size_eq_dec : EqDecision Size.
Proof. solve_decision. Defined.

(** [Size::new]; the product of two [u16] fits a [u32]. *)
Definition size_new (cols rows : N) : res Error Size :=
  if (cols =? 0) || (rows =? 0) then Err EmptySize
  else if (MAX_SIDE <? cols) || (MAX_SIDE <? rows) || (MAX_CELLS <? cols * rows)
  then Err (LargeSize cols rows)
  else Ok (MkSize cols rows).

Definition MAX_TERMINAL_ID : N := 256.

(** A [TerminalId] is the text [TerminalId::new] let through. *)
Record TerminalId := MkTerminalId { as_str : str }.

#[export] Instance TerminalId_eq_dec : EqDecision TerminalId.
Proof. solve_decision. Defined.

#[export] Instance TerminalId_countable : Countable TerminalId.
Proof. apply (inj_countable' as_str MkTerminalId). by intros []. Defined.

Definition terminal_id_new (id : str) : res Error TerminalId :=
  match id with
  | [] => Err EmptyTerminalId
  | _ =>
      if (MAX_TERMINAL_ID <? str_len id) || existsb is_control id then Err InvalidTerminalId
      else Ok (MkTerminalId id)
  end.

Record Exit := MkExit { exit_code : option Z }.

Inductive RunState :=
| Running
| Lost
| Exited (exit : Exit).

Record TerminalInfo := MkTerminalInfo {
  info_agent : AgentStatus;
  info_cwd : option str;
  info_id : TerminalId;
  info_labels : gmap str str;
  info_name : option str;
  info_state : RunState;
  info_title : option str }.

Inductive Change :=
| Upsert (info : TerminalInfo)
| Removed (id : TerminalId)
| Resync (infos : list TerminalInfo).

Inductive Role := Active | Observer.

Record Spawn := MkSpawn {
  spawn_argv : list str;
  spawn_cwd : option str;
  spawn_env : list (str * str);
  spawn_labels : gmap str str;
  spawn_name : option str }.

Record KeyReporting := MkKeyReporting { every_key : bool; releases : bool }.

Inductive SurfaceUpdate :=
| Bell
| Ended (exit : Exit)
| Frame (frame : FrameData)
| KeyReport (reporting : KeyReporting)
| MouseReporting (on : bool)
| Rows (cursor : option CursorState) (rows : list PaneSurfacePatchRow)
| Title (title : str).

Inductive Generation := Herdr1 | Herdr2.

#[export] Instance Exit_eq_dec : EqDecision Exit.
Proof. solve_decision. Defined.

#[export] Instance RunState_eq_dec : EqDecision RunState.
Proof. solve_decision. Defined.

#[export] Instance TerminalInfo_eq_dec : EqDecision TerminalInfo.
Proof. solve_decision. Defined.

(** A screen of an accepted size has between one cell and [MAX_CELLS], so its
    cell count fits every width the clients use. *)
Lemma size_new_spec c r :
  match size_new c r with
  | Ok s => s = MkSize c r ∧ 0 < c ≤ MAX_SIDE ∧ 0 < r ≤ MAX_SIDE ∧ c * r ≤ MAX_CELLS
  | Err EmptySize => c = 0 ∨ r = 0
  | Err (LargeSize c' r') => c' = c ∧ r' = r ∧ (MAX_SIDE < c ∨ MAX_SIDE < r ∨ MAX_CELLS < c * r)
  | Err _ => False
  end.
Proof.
  unfold size_new. destruct (N.eqb_spec c 0), (N.eqb_spec r 0); simpl; auto.
  destruct (N.ltb_spec MAX_SIDE c), (N.ltb_spec MAX_SIDE r), (N.ltb_spec MAX_CELLS (c * r)); simpl;
    intuition lia.
Qed.

(** A terminal ID reads back as itself: [new] of an accepted ID's text. *)
Lemma terminal_id_roundtrip id t : terminal_id_new id = Ok t → as_str t = id ∧ terminal_id_new (as_str t) = Ok t.
Proof.
  destruct id as [|c id]; [done|]. unfold terminal_id_new. destruct (_ || _) eqn:E; [done|].
  intros [= <-]. cbn [as_str]. by rewrite E.
Qed.

End Backend.
