(* ===== verification/Panes.v ===== *)
(** * Panes: the split tree of one tab
    (crates/sheprd-session/src/panes.rs, panes/error.rs and saved.rs)

    A tab of herdr-core terminals is a binary tree of terminals, kept by the
    client. A [&mut Share] into the tree is the share with the function that
    writes it back. [f32] is IEEE binary32 as the Standard Library's [SpecFloat]
    computes it; only which panes are listed or found is proved of the geometry,
    nothing about rounding. *)

From Stdlib Require Import ZArith NArith Lia.
From Corelib Require Import SpecFloat.
From stdpp Require Import base option strings sets relations list.
From S2P Require Import Prelude Wire Backend.

Import Backend.
Local Open Scope N_scope.

Module Panes.

Inductive Error :=
| Duplicate (id : TerminalId)
| Full
| Missing (id : TerminalId).

Definition MAX_PANES : nat := 16.
Definition MIN_SHARE : N := 100.
Definition MAX_SHARE : N := 900.
Definition HALF : N := 500.
Definition RESIZE_STEP : Z := 50.

Inductive Axis := Row | Column.

#[export] Instance Axis_eq_dec : EqDecision Axis.
Proof. solve_decision. Defined.

Inductive Direction := Left | Right | Up | Down.

Definition direction_axis (d : Direction) : Axis :=
  match d with Left | Right => Row | Up | Down => Column end.

Definition forward (d : Direction) : bool :=
  match d with Right | Down => true | _ => false end.

(** *** Shares *)

Record Share := MkShare { share_of : N }.

#[export] Instance Share_eq_dec : EqDecision Share.
Proof. solve_decision. Defined.

Definition clamp (lo hi n : N) : N := N.max lo (N.min hi n).

(** [From<u16> for Share]. *)
Definition share_from (n : N) : Share := MkShare (clamp MIN_SHARE MAX_SHARE n).

Definition share_default : Share := MkShare HALF.

Definition clampZ (lo hi n : Z) : Z := Z.max lo (Z.min hi n).

(** [u16::try_from(moved).unwrap_or(HALF)]. *)
Definition share_moved (s : Share) (by_ : Z) : Share :=
  let moved := clampZ (Z.of_N MIN_SHARE) (Z.of_N MAX_SHARE) (Z.of_N (share_of s) + by_) in
  MkShare (if (0 <=? moved)%Z && (moved <=? Z.of_N u16_max)%Z then Z.to_N moved else HALF).

(** *** f32 *)

Definition f32 : Type := spec_float.
Definition f32_of (n : Z) : f32 := binary_normalize 24 128 n 0 false.
Definition f32_add : f32 → f32 → f32 := SFadd 24 128.
Definition f32_sub : f32 → f32 → f32 := SFsub 24 128.
Definition f32_mul : f32 → f32 → f32 := SFmul 24 128.
Definition f32_div : f32 → f32 → f32 := SFdiv 24 128.

Definition is_nan (a : f32) : bool := match a with S754_nan => true | _ => false end.

(** [f32::min], [max] and [clamp]: a NaN argument gives the other one, except
    that [clamp] keeps a NaN. *)
Definition f32_min (a b : f32) : f32 :=
  if is_nan a then b else if is_nan b then a else if SFltb b a then b else a.

Definition f32_max (a b : f32) : f32 :=
  if is_nan a then b else if is_nan b then a else if SFltb a b then b else a.

Definition f32_clamp (lo hi a : f32) : f32 :=
  if SFltb a lo then lo else if SFltb hi a then hi else a.

(** [round() as u16] of a value that is not negative: halves away from zero,
    NaN to zero, and past the type's range to its end. *)
Definition f32_round_u16 (a : f32) : N :=
  match a with
  | S754_finite false m e =>
      let n := match e with
        | Z0 => Zpos m
        | Zpos k => Zpos m * 2 ^ Zpos k
        | Zneg k => (Zpos m + 2 ^ (Zpos k - 1)) / 2 ^ Zpos k
        end%Z in
      N.min u16_max (Z.to_N n)
  | S754_infinity false => u16_max
  | _ => 0
  end.

Definition share_at (fraction : f32) : Share :=
  share_from (f32_round_u16 (f32_mul (f32_clamp (f32_of 0) (f32_of 1) fraction) (f32_of 1000))).

Definition share_fraction (s : Share) : f32 := f32_div (f32_of (Z.of_N (share_of s))) (f32_of 1000).

(** *** The tree *)

Inductive Node :=
| Leaf (id : TerminalId)
| Split (axis : Axis) (share : Share) (first second : Node).

#[export] Instance Node_eq_dec : EqDecision Node.
Proof. solve_decision. Defined.

(** [Node::leaves] pushes onto [out]. *)
Fixpoint leaves (n : Node) (out : list TerminalId) : list TerminalId :=
  match n with
  | Leaf id => out ++ [id]
  | Split _ _ first second => leaves second (leaves first out)
  end.

Fixpoint contains (n : Node) (id : TerminalId) : bool :=
  match n with
  | Leaf leaf => bool_decide (leaf = id)
  | Split _ _ first second => contains first id || contains second id
  end.

(** The methods that take [&mut self] and answer whether they changed it give
    the changed node, or [None] for [false]. *)
Fixpoint node_split (n : Node) (at_ : TerminalId) (axis : Axis) (new : TerminalId) : option Node :=
  match n with
  | Leaf leaf =>
      if bool_decide (leaf = at_) then Some (Split axis share_default (Leaf leaf) (Leaf new)) else None
  | Split a share first second =>
      match node_split first at_ axis new with
      | Some first => Some (Split a share first second)
      | None => second ← node_split second at_ axis new; Some (Split a share first second)
      end
  end.

Definition is_leaf (n : Node) (id : TerminalId) : bool :=
  match n with Leaf leaf => bool_decide (leaf = id) | _ => false end.

Fixpoint node_remove (n : Node) (id : TerminalId) : option Node :=
  match n with
  | Leaf _ => None
  | Split a share first second =>
      if is_leaf first id then Some second
      else if is_leaf second id then Some first
      else
        match node_remove first id with
        | Some first => Some (Split a share first second)
        | None => second ← node_remove second id; Some (Split a share first second)
        end
  end.

(** A [&mut Share] inside a node: the share and the node with another in its place. *)
Definition ShareRef : Type := Share * (Share → Node).

Definition in_first (a : Axis) (share : Share) (second : Node) (r : ShareRef) : ShareRef :=
  (r.1, λ s, Split a share (r.2 s) second).

Definition in_second (a : Axis) (share : Share) (first : Node) (r : ShareRef) : ShareRef :=
  (r.1, λ s, Split a share first (r.2 s)).

Fixpoint split_at (n : Node) (path : list bool) : option ShareRef :=
  match n with
  | Leaf _ => None
  | Split a share first second =>
      match path with
      | [] => Some (share, λ s, Split a s first second)
      | false :: rest => in_first a share second <$> split_at first rest
      | true :: rest => in_second a share first <$> split_at second rest
      end
  end.

Fixpoint contains_split (n : Node) (id : TerminalId) (axis : Axis) : bool :=
  match n with
  | Leaf _ => false
  | Split own _ first second =>
      (bool_decide (own = axis) && contains n id)
      || contains_split first id axis || contains_split second id axis
  end.

Fixpoint nearest (n : Node) (id : TerminalId) (axis : Axis) : option ShareRef :=
  match n with
  | Leaf _ => None
  | Split own share first second =>
      let here := if bool_decide (own = axis) then Some (share, λ s, Split own s first second) else None in
      if contains first id then
        if contains_split first id axis then in_first own share second <$> nearest first id axis
        else here
      else if contains second id then
        if contains_split second id axis then in_second own share first <$> nearest second id axis
        else here
      else None
  end.

(** *** Geometry *)

Record Rect := MkRect { rx : f32; ry : f32; rwidth : f32; rheight : f32 }.

Definition UNIT : Rect := MkRect (f32_of 0) (f32_of 0) (f32_of 1) (f32_of 1).

(** [1e-4] is the binary32 number nearest to one ten-thousandth. *)
Definition EPSILON : f32 := f32_div (f32_of 1) (f32_of 10000).

Definition cut (r : Rect) (axis : Axis) (fraction : f32) : Rect * Rect :=
  match axis with
  | Row =>
      let width := f32_mul (rwidth r) fraction in
      (MkRect (rx r) (ry r) width (rheight r),
       MkRect (f32_add (rx r) width) (ry r) (f32_sub (rwidth r) width) (rheight r))
  | Column =>
      let height := f32_mul (rheight r) fraction in
      (MkRect (rx r) (ry r) (rwidth r) height,
       MkRect (rx r) (f32_add (ry r) height) (rwidth r) (f32_sub (rheight r) height))
  end.

Definition overlap (a a_len b b_len : f32) : f32 :=
  f32_sub (f32_min (f32_add a a_len) (f32_add b b_len)) (f32_max a b).

Definition reach (self other : Rect) (direction : Direction) : option f32 :=
  let '(gap, shared) :=
    match direction with
    | Right => (f32_sub (rx other) (f32_add (rx self) (rwidth self)),
                overlap (ry self) (rheight self) (ry other) (rheight other))
    | Left => (f32_sub (rx self) (f32_add (rx other) (rwidth other)),
               overlap (ry self) (rheight self) (ry other) (rheight other))
    | Down => (f32_sub (ry other) (f32_add (ry self) (rheight self)),
               overlap (rx self) (rwidth self) (rx other) (rwidth other))
    | Up => (f32_sub (ry self) (f32_add (ry other) (rheight other)),
             overlap (rx self) (rwidth self) (rx other) (rwidth other))
    end in
  if SFltb (SFabs gap) EPSILON && SFltb EPSILON shared then Some shared else None.

Fixpoint node_rects (n : Node) (rect : Rect) (out : list (TerminalId * Rect)) : list (TerminalId * Rect) :=
  match n with
  | Leaf id => out ++ [(id, rect)]
  | Split axis share first second =>
      let '(a, b) := cut rect axis (share_fraction share) in
      node_rects second b (node_rects first a out)
  end.

(** *** A tab's panes *)

Record Panes := MkPanes { root : Node }.

(** The loop of [try_from]: each ID against those before it. *)
Fixpoint first_duplicate (seen ids : list TerminalId) : option TerminalId :=
  match ids with
  | [] => None
  | id :: ids => if bool_decide (id ∈ seen) then Some id else first_duplicate (seen ++ [id]) ids
  end.

Definition try_from (root : Node) : res Error Panes :=
  let leaves := leaves root [] in
  if (MAX_PANES <? length leaves)%nat then Err Full
  else match first_duplicate [] leaves with
       | Some id => Err (Duplicate id)
       | None => Ok (MkPanes root)
       end.

Definition single (id : TerminalId) : Panes := MkPanes (Leaf id).

Definition terminals (p : Panes) : list TerminalId := leaves (root p) [].

Definition count (p : Panes) : nat := length (terminals p).

Fixpoint leftmost (n : Node) : TerminalId :=
  match n with Leaf id => id | Split _ _ first _ => leftmost first end.

(** [Panes::first]. *)
Definition panes_first (p : Panes) : TerminalId := leftmost (root p).

Definition panes_contains (p : Panes) (id : TerminalId) : bool := contains (root p) id.

Definition split (p : Panes) (at_ : TerminalId) (axis : Axis) (new : TerminalId) : res Error Panes :=
  if (MAX_PANES <=? count p)%nat then Err Full
  else if panes_contains p new then Err (Duplicate new)
  else match node_split (root p) at_ axis new with
       | None => Err (Missing at_)
       | Some root => Ok (MkPanes root)
       end.

(** The methods that answer whether something changed: the panes afterwards and
    the answer. *)
Definition remove (p : Panes) (id : TerminalId) : Panes * bool :=
  match node_remove (root p) id with
  | Some root => (MkPanes root, true)
  | None => (p, false)
  end.

Definition set_share (p : Panes) (path : list bool) (share : Share) : Panes * bool :=
  match split_at (root p) path with
  | Some (current, put) => if bool_decide (current = share) then (p, false) else (MkPanes (put share), true)
  | None => (p, false)
  end.

Definition resize (p : Panes) (id : TerminalId) (direction : Direction) : Panes * bool :=
  let step := if forward direction then RESIZE_STEP else (- RESIZE_STEP)%Z in
  match nearest (root p) id (direction_axis direction) with
  | None => (p, false)
  | Some (share, put) =>
      let moved := share_moved share step in
      (MkPanes (put moved), bool_decide (moved ≠ share))
  end.

Definition rects (p : Panes) : list (TerminalId * Rect) := node_rects (root p) UNIT [].

Definition better (best : option (TerminalId * f32)) (candidate : TerminalId * f32)
    : option (TerminalId * f32) :=
  match best with
  | Some b => if SFleb candidate.2 b.2 then Some b else Some candidate
  | None => Some candidate
  end.

Definition neighbor (p : Panes) (id : TerminalId) (direction : Direction) : option TerminalId :=
  let rects := rects p in
  '(_, from) ← find (λ pr, bool_decide (pr.1 = id)) rects;
  fst <$> foldl better None
    (omap (λ '(pane, rect), (λ shared, (pane, shared)) <$> reach from rect direction)
       (filter (λ pr, pr.1 ≠ id) rects)).

(** *** Saved tabs (saved.rs) *)

Definition MAX_SAVED_BYTES : N := 1024 * 1024.
Definition MAX_SAVED_TABS : nat := 256.

Inductive SavedError := Saved_Format | Saved_Large | Saved_Many.

Inductive CoreLocation := CoreTerminal (observe : bool) (panes : Panes).

Record SavedTab := MkSavedTab {
  saved_id : N;
  saved_location : option CoreLocation;
  saved_scope : str;
  saved_title : str;
  saved_workspace_id : str }.

Record CoreTab := MkCoreTab {
  core_id : N;
  core_panes : Panes;
  core_title : str;
  core_workspace_id : str }.

(** [SavedTabs::parse]; [from_slice] is serde_json. *)
Definition saved_parse (from_slice : list N → option (list SavedTab)) (bytes : list N)
    : res SavedError (list SavedTab) :=
  if MAX_SAVED_BYTES <? lenN bytes then Err Saved_Large
  else
    saved ← ok_or Saved_Format (from_slice bytes);
    if (MAX_SAVED_TABS <? length saved)%nat then Err Saved_Many else Ok saved.

Definition core_tab (scope : str) (tab : SavedTab) : option CoreTab :=
  if bool_decide (saved_scope tab = scope) && negb (bool_decide (saved_workspace_id tab = [])) then
    match saved_location tab with
    | Some (CoreTerminal false panes) =>
        Some (MkCoreTab (saved_id tab) panes (saved_title tab) (saved_workspace_id tab))
    | _ => None
    end
  else None.

Definition core_tabs (tabs : list SavedTab) (scope : str) : list CoreTab := omap (core_tab scope) tabs.

(** ** Leaves *)

Definition ids (n : Node) : list TerminalId := leaves n [].

Lemma leaves_out n out : leaves n out = out ++ ids n.
Proof.
  unfold ids. revert out. induction n as [id|a s f IHf g IHg]; intros out; simpl; [done|].
  rewrite IHg, (IHg (leaves f [])), IHf, app_assoc. done.
Qed.

Lemma ids_split a s f g : ids (Split a s f g) = ids f ++ ids g.
Proof. unfold ids at 1. simpl. by rewrite leaves_out. Qed.

Lemma contains_ids n id : contains n id = true ↔ id ∈ ids n.
Proof.
  induction n as [leaf|a s f IHf g IHg].
  - simpl. rewrite bool_decide_eq_true. unfold ids. simpl. rewrite list_elem_of_singleton. naive_solver.
  - rewrite ids_split, elem_of_app, <-IHf, <-IHg. simpl. apply orb_true_iff.
Qed.

Lemma contains_false n id : contains n id = false ↔ id ∉ ids n.
Proof. rewrite <-contains_ids. by destruct (contains n id). Qed.

Lemma ids_nonempty n : (0 < length (ids n))%nat.
Proof. induction n; [simpl; lia|]. rewrite ids_split, length_app. lia. Qed.

(** The new leaf lands right after the one split. *)
Lemma node_split_ids n at_ axis new n' :
  node_split n at_ axis new = Some n' →
  ∃ l r, ids n = l ++ at_ :: r ∧ ids n' = l ++ at_ :: new :: r.
Proof.
  revert n'. induction n as [leaf|a s f IHf g IHg]; intros n'; simpl.
  - destruct (decide (leaf = at_)) as [->|Hne]; [rewrite bool_decide_true by done|by rewrite bool_decide_false].
    intros [= <-]. by exists [], [].
  - rewrite ids_split. destruct (node_split f at_ axis new) as [f'|].
    + intros [= <-]. destruct (IHf f' eq_refl) as (l & r & -> & Hf'). exists l, (r ++ ids g).
      rewrite ids_split, Hf', <-!app_assoc. done.
    + destruct (node_split g at_ axis new) as [g'|]; [|done]. intros [= <-].
      destruct (IHg g' eq_refl) as (l & r & -> & Hg'). exists (ids f ++ l), r.
      rewrite ids_split, Hg', <-!app_assoc. done.
Qed.

Lemma node_split_None n at_ axis new : node_split n at_ axis new = None ↔ at_ ∉ ids n.
Proof.
  induction n as [leaf|a s f IHf g IHg]; simpl.
  - unfold ids. simpl. rewrite list_elem_of_singleton.
    destruct (decide (leaf = at_)); [rewrite bool_decide_true by done|rewrite bool_decide_false by done]; naive_solver.
  - rewrite ids_split, elem_of_app. destruct (node_split f at_ axis new); [naive_solver|].
    destruct (node_split g at_ axis new); naive_solver.
Qed.

Lemma is_leaf_true n id : is_leaf n id = true ↔ n = Leaf id.
Proof. destruct n; simpl; rewrite ?bool_decide_eq_true; naive_solver. Qed.

Lemma node_remove_ids n id n' :
  node_remove n id = Some n' → ∃ l r, ids n = l ++ id :: r ∧ ids n' = l ++ r.
Proof.
  revert n'. induction n as [leaf|a s f IHf g IHg]; intros n'; simpl; [done|].
  rewrite ids_split. destruct (is_leaf f id) eqn:Hf.
  { apply is_leaf_true in Hf as ->. intros [= <-]. by exists [], (ids g). }
  destruct (is_leaf g id) eqn:Hg.
  { apply is_leaf_true in Hg as ->. intros [= <-]. exists (ids f), []. by rewrite app_nil_r. }
  destruct (node_remove f id) as [f'|].
  - intros [= <-]. destruct (IHf f' eq_refl) as (l & r & -> & Hf'). exists l, (r ++ ids g).
    by rewrite ids_split, Hf', <-!app_assoc.
  - destruct (node_remove g id) as [g'|]; [|done]. intros [= <-].
    destruct (IHg g' eq_refl) as (l & r & -> & Hg'). exists (ids f ++ l), r.
    by rewrite ids_split, Hg', <-!app_assoc.
Qed.

(** Only a leaf of a split can be removed: a single pane stays. *)
Lemma node_remove_None n id : node_remove n id = None ↔ id ∉ ids n ∨ n = Leaf id.
Proof.
  induction n as [leaf|a s f IHf g IHg]; simpl.
  - unfold ids. simpl. rewrite list_elem_of_singleton. destruct (decide (id = leaf)); naive_solver.
  - rewrite ids_split, elem_of_app.
    destruct (is_leaf f id) eqn:Hf.
    { apply is_leaf_true in Hf as ->. split; [done|]. unfold ids. simpl. rewrite list_elem_of_singleton. naive_solver. }
    destruct (is_leaf g id) eqn:Hg.
    { apply is_leaf_true in Hg as ->. split; [done|]. unfold ids at 2. simpl. rewrite list_elem_of_singleton. naive_solver. }
    assert (f ≠ Leaf id) by (intros E; by rewrite <-is_leaf_true, Hf in E).
    assert (g ≠ Leaf id) by (intros E; by rewrite <-is_leaf_true, Hg in E).
    destruct (node_remove f id); [naive_solver|]. destruct (node_remove g id); naive_solver.
Qed.

(** ** The invariant *)

Definition share_ok (s : Share) : Prop := MIN_SHARE ≤ share_of s ≤ MAX_SHARE.

Fixpoint shares_ok (n : Node) : Prop :=
  match n with
  | Leaf _ => True
  | Split _ s first second => share_ok s ∧ shares_ok first ∧ shares_ok second
  end.

Record wf (p : Panes) : Prop := {
  wf_nodup : NoDup (terminals p);
  wf_count : (1 ≤ count p ≤ MAX_PANES)%nat;
  wf_shares : shares_ok (root p);
}.

Lemma share_from_ok n : share_ok (share_from n).
Proof. unfold share_ok, share_from, clamp, MIN_SHARE, MAX_SHARE. simpl. lia. Qed.

Lemma share_moved_ok s z : share_ok (share_moved s z).
Proof.
  unfold share_ok, share_moved, clampZ, MIN_SHARE, MAX_SHARE, u16_max. simpl.
  destruct (_ && _)%Z eqn:E; [lia|]. unfold HALF. lia.
Qed.

Lemma node_split_shares n at_ axis new n' :
  node_split n at_ axis new = Some n' → shares_ok n → shares_ok n'.
Proof.
  revert n'. induction n as [leaf|a s f IHf g IHg]; intros n'; simpl.
  - destruct (bool_decide _); [|done]. intros [= <-] _. simpl. unfold share_ok, share_default, HALF, MIN_SHARE, MAX_SHARE. simpl. lia.
  - destruct (node_split f _ _ _) as [f'|]; [|destruct (node_split g _ _ _) as [g'|]; [|done]];
      intros [= <-] (? & ? & ?); simpl; naive_solver.
Qed.

Lemma node_remove_shares n id n' : node_remove n id = Some n' → shares_ok n → shares_ok n'.
Proof.
  revert n'. induction n as [leaf|a s f IHf g IHg]; intros n'; simpl; [done|].
  destruct (is_leaf f id); [by intros [= <-] (? & ? & ?)|].
  destruct (is_leaf g id); [by intros [= <-] (? & ? & ?)|].
  destruct (node_remove f _) as [f'|]; [|destruct (node_remove g _) as [g'|]; [|done]];
    intros [= <-] (? & ? & ?); simpl; naive_solver.
Qed.

(** The tree without its shares. *)
Fixpoint shape (n : Node) : Node :=
  match n with
  | Leaf id => Leaf id
  | Split a _ f g => Split a share_default (shape f) (shape g)
  end.

Lemma contains_shape n id : contains (shape n) id = contains n id.
Proof. induction n as [|a s f IHf g IHg]; simpl; by rewrite ?IHf, ?IHg. Qed.

Lemma contains_split_shape n id axis : contains_split (shape n) id axis = contains_split n id axis.
Proof.
  induction n as [|a s f IHf g IHg]; [done|]. cbn [shape contains_split].
  rewrite IHf, IHg. cbn [contains]. by rewrite !contains_shape.
Qed.

(** A reference into a tree: writing keeps the leaves, writing what was read
    keeps the tree, and only that share changes. *)
Record ref_ok (n : Node) (r : ShareRef) : Prop := {
  ref_ids : ∀ s, ids (r.2 s) = ids n;
  ref_same : r.2 r.1 = n;
  ref_shape : ∀ s, shape (r.2 s) = shape n;
  ref_shares : ∀ s, share_ok s → shares_ok n → shares_ok (r.2 s);
}.

Lemma ref_here a share f g : ref_ok (Split a share f g) (share, λ s, Split a s f g).
Proof. split; simpl; [intros; by rewrite !ids_split|done|done|naive_solver]. Qed.

Lemma ref_in_first a share f g r : ref_ok f r → ref_ok (Split a share f g) (in_first a share g r).
Proof. intros [Hi Hs Hsh Ho]. split; simpl; [intros; by rewrite !ids_split, Hi|by rewrite Hs|intros; by rewrite Hsh|naive_solver]. Qed.

Lemma ref_in_second a share f g r : ref_ok g r → ref_ok (Split a share f g) (in_second a share f r).
Proof. intros [Hi Hs Hsh Ho]. split; simpl; [intros; by rewrite !ids_split, Hi|by rewrite Hs|intros; by rewrite Hsh|naive_solver]. Qed.

Lemma split_at_ref n path r : split_at n path = Some r → ref_ok n r.
Proof.
  revert path r. induction n as [leaf|a s f IHf g IHg]; intros path r; simpl; [done|].
  destruct path as [|[] rest]; [by intros [= <-]; apply ref_here|..].
  - destruct (split_at g rest) eqn:E; [|done]. intros [= <-]. apply ref_in_second. by eapply IHg.
  - destruct (split_at f rest) eqn:E; [|done]. intros [= <-]. apply ref_in_first. by eapply IHf.
Qed.

Lemma nearest_ref_ok n id axis r : nearest n id axis = Some r → ref_ok n r.
Proof.
  revert r. induction n as [leaf|a s f IHf g IHg]; intros r; simpl; [done|].
  destruct (contains f id); [|destruct (contains g id); [|done]].
  - destruct (contains_split f id axis).
    + destruct (nearest f id axis); [|done]. intros [= <-]. apply ref_in_first. by apply IHf.
    + destruct (bool_decide _); [|done]. intros [= <-]. apply ref_here.
  - destruct (contains_split g id axis).
    + destruct (nearest g id axis); [|done]. intros [= <-]. apply ref_in_second. by apply IHg.
    + destruct (bool_decide _); [|done]. intros [= <-]. apply ref_here.
Qed.

Lemma wf_same_leaves p n :
  wf p → ids n = terminals p → shares_ok n → wf (MkPanes n).
Proof. intros [Hn Hc Hs] Hi Ho. split; unfold count, terminals in *; simpl; fold (ids n); by rewrite ?Hi. Qed.

Lemma split_wf p at_ axis new p' : wf p → split p at_ axis new = Ok p' → wf p'.
Proof.
  intros [Hn Hc Hs]. unfold split. destruct (Nat.leb_spec MAX_PANES (count p)) as [|Hlt]; [done|].
  destruct (panes_contains p new) eqn:Hcn; [done|]. apply contains_false in Hcn.
  destruct (node_split _ _ _ _) as [n|] eqn:Hsp; [|done]. intros [= <-].
  pose proof (node_split_shares _ _ _ _ _ Hsp Hs). apply node_split_ids in Hsp as (l & r & Hl & Hr).
  assert (ids n ≡ₚ new :: terminals p) as Hperm.
  { unfold terminals. fold (ids (root p)). rewrite Hr, Hl, (cons_middle at_ l (new :: r)), app_assoc.
    rewrite <-Permutation_middle, <-app_assoc. done. }
  split; unfold count, terminals; simpl; fold (ids n); [| |done].
  - rewrite Hperm. by constructor.
  - rewrite Hperm. simpl. fold (count p). lia.
Qed.

Lemma remove_wf p id : wf p → wf (remove p id).1.
Proof.
  intros [Hn Hc Hs]. unfold remove. destruct (node_remove _ _) as [n|] eqn:Hr; [|by split].
  pose proof (node_remove_shares _ _ _ Hr Hs). apply node_remove_ids in Hr as (l & r & Hl & Hr). simpl.
  assert (id :: ids n ≡ₚ terminals p) as Hperm.
  { unfold terminals. fold (ids (root p)). rewrite Hr, Hl. by rewrite Permutation_middle. }
  split; unfold count, terminals; simpl; fold (ids n); [| |done].
  - rewrite <-Hperm in Hn. by apply NoDup_cons in Hn as [_ ?].
  - unfold count in Hc. rewrite <-Hperm in Hc. simpl in Hc. pose proof (ids_nonempty n). lia.
Qed.

Lemma set_share_wf p path s : share_ok s → wf p → wf (set_share p path s).1.
Proof.
  intros Hs Hp. unfold set_share. destruct (split_at _ _) as [[cur put]|] eqn:E; [|done].
  apply split_at_ref in E as [Hi _ _ Ho]. destruct (bool_decide _); [done|]. simpl.
  apply (wf_same_leaves p); [done|apply Hi|]. apply Ho; [done|by apply Hp].
Qed.

Lemma resize_wf p id d : wf p → wf (resize p id d).1.
Proof.
  intros Hp. unfold resize. destruct (nearest _ _ _) as [[cur put]|] eqn:E; [|done].
  apply nearest_ref_ok in E as [Hi _ _ Ho]. simpl.
  apply (wf_same_leaves p); [done|apply Hi|]. apply Ho; [apply share_moved_ok|by apply Hp].
Qed.

Lemma first_duplicate_None seen l :
  first_duplicate seen l = None ↔ NoDup l ∧ ∀ x, x ∈ l → x ∉ seen.
Proof.
  revert seen. induction l as [|x l IH]; intros seen; simpl.
  { split; [|done]. intros _. split; [constructor|set_solver]. }
  destruct (decide (x ∈ seen)); [rewrite bool_decide_true by done|rewrite bool_decide_false by done].
  - split; [done|]. set_solver.
  - rewrite IH, NoDup_cons. set_solver.
Qed.

(** [try_from] accepts exactly the trees the invariant allows. *)
Lemma try_from_spec n : shares_ok n → (∃ p, try_from n = Ok p ∧ root p = n) ↔ wf (MkPanes n).
Proof.
  intros Hs. unfold try_from. fold (ids n). split.
  - intros (p & Hp & <-). destruct (Nat.ltb_spec MAX_PANES (length (ids (root p)))) as [|Hle]; [done|].
    destruct (first_duplicate [] _) eqn:Hd; [done|]. apply first_duplicate_None in Hd as [Hd _].
    split; simpl; [done| |done]. unfold count, terminals. simpl. fold (ids (root p)).
    pose proof (ids_nonempty (root p)). lia.
  - intros [Hn Hc _]. unfold count, terminals in *. simpl in *. fold (ids n) in *.
    destruct (Nat.ltb_spec MAX_PANES (length (ids n))); [lia|].
    rewrite (proj2 (first_duplicate_None [] (ids n))) by (split; [done|set_solver]). by eexists.
Qed.

(** One change a client makes to a tab. Every [Share] the code builds is in
    range, so the share a drag sets is too. *)
Inductive step : Panes → Panes → Prop :=
| step_split p at_ axis new p' : split p at_ axis new = Ok p' → step p p'
| step_remove p id : step p (remove p id).1
| step_set_share p path n : step p (set_share p path (share_from n)).1
| step_resize p id d : step p (resize p id d).1.

(** C17: A tab's panes keep their promise under every sequence of splits,
    removals, drags and resize steps: at least one pane, at most [MAX_PANES],
    each terminal once, and every split's share between a tenth and nine tenths. *)
Theorem panes_invariant (p p' : Panes) : wf p → rtc step p p' → wf p'.
Proof.
  intros Hp Hs. induction Hs as [|p q r Hstep _ IH]; [done|]. apply IH. destruct Hstep.
  - by eapply split_wf.
  - by apply remove_wf.
  - apply set_share_wf; [apply share_from_ok|done].
  - by apply resize_wf.
Qed.

(** ** What each operation does *)

(** Splitting fails for a full tab, a terminal already shown or a pane
    that is not there, in that order; otherwise the new terminal comes right
    after the pane it split and every other pane keeps its place. *)
Theorem split_correct (p : Panes) (at_ : TerminalId) (axis : Axis) (new : TerminalId) :
  match split p at_ axis new with
  | Err Full => (MAX_PANES ≤ count p)%nat
  | Err (Duplicate id) => (count p < MAX_PANES)%nat ∧ id = new ∧ new ∈ terminals p
  | Err (Missing id) => (count p < MAX_PANES)%nat ∧ (new ∉ terminals p) ∧ id = at_ ∧ at_ ∉ terminals p
  | Ok p' =>
      (count p < MAX_PANES)%nat ∧ (new ∉ terminals p) ∧
      ∃ l r, terminals p = l ++ at_ :: r ∧ terminals p' = l ++ at_ :: new :: r
  end.
Proof.
  unfold split. destruct (Nat.leb_spec MAX_PANES (count p)) as [|Hlt]; [done|].
  destruct (panes_contains p new) eqn:Hc; [by apply contains_ids in Hc|]. apply contains_false in Hc.
  destruct (node_split (root p) at_ axis new) as [n|] eqn:Hs.
  - by apply node_split_ids in Hs.
  - by apply node_split_None in Hs.
Qed.

Lemma filter_Forall {A} (P : A → Prop) `{∀ x, Decision (P x)} (l : list A) : Forall P l → filter P l = l.
Proof. induction 1; [done|]. rewrite filter_cons_True by done. by f_equal. Qed.

Lemma remove_filter (l r : list TerminalId) id :
  NoDup (l ++ id :: r) → filter (λ t, t ≠ id) (l ++ id :: r) = l ++ r.
Proof.
  rewrite NoDup_app, NoDup_cons. intros (_ & Hl & Hr & _).
  rewrite filter_app, filter_cons_False by (intros H; by apply H).
  f_equal; apply filter_Forall; apply Forall_forall; intros x Hx ->; [|done].
  apply (Hl id Hx). set_solver.
Qed.

(** Removing a pane drops exactly that terminal and keeps the others
    in order; a terminal that is not there and the last pane stay as they are. *)
Theorem remove_correct (p : Panes) (id : TerminalId) :
  NoDup (terminals p) →
  if (remove p id).2
  then id ∈ terminals p ∧ terminals (remove p id).1 = filter (λ t, t ≠ id) (terminals p)
  else (remove p id).1 = p ∧ (id ∉ terminals p ∨ terminals p = [id]).
Proof.
  intros Hn. unfold remove. destruct (node_remove (root p) id) as [n|] eqn:Hr; simpl.
  - apply node_remove_ids in Hr as (l & r & Hl & Hr). unfold terminals in *. simpl.
    fold (ids (root p)) (ids n) in *. rewrite Hl in *. split; [set_solver|]. by rewrite remove_filter.
  - split; [done|]. apply node_remove_None in Hr as [?|Hr]; [by left|right]. unfold terminals. by rewrite Hr.
Qed.

Lemma node_split_remove n at_ axis new n' :
  node_split n at_ axis new = Some n' → new ∉ ids n → node_remove n' new = Some n.
Proof.
  revert n'. induction n as [leaf|a s f IHf g IHg]; intros n'; simpl.
  - destruct (decide (leaf = at_)) as [->|]; [rewrite bool_decide_true by done|by rewrite bool_decide_false].
    intros [= <-] Hnew. simpl. rewrite bool_decide_false, bool_decide_true by (done || set_solver). done.
  - rewrite ids_split, not_elem_of_app. intros Hs [Hf Hg].
    assert (∀ m, new ∉ ids m → is_leaf m new = false) as Hleaf.
    { intros m Hm. destruct (is_leaf m new) eqn:E; [|done]. apply is_leaf_true in E as ->.
      exfalso. apply Hm. unfold ids. simpl. set_solver. }
    assert (∀ m m', node_split m at_ axis new = Some m' → is_leaf m' new = false) as Hleaf'.
    { intros m m' Hm. destruct (is_leaf m' new) eqn:E; [|done]. apply is_leaf_true in E as ->.
      exfalso. destruct m as [leaf|b t m1 m2]; simpl in Hm; [by destruct (bool_decide _)|].
      destruct (node_split m1 at_ axis new); [done|]. by destruct (node_split m2 at_ axis new). }
    destruct (node_split f at_ axis new) as [f'|] eqn:Ef.
    + injection Hs as <-. simpl. rewrite (Hleaf' _ _ Ef), (Hleaf g Hg), (IHf f') by done. done.
    + destruct (node_split g at_ axis new) as [g'|] eqn:Eg; [|done]. injection Hs as <-. simpl.
      rewrite (Hleaf' _ _ Eg), (Hleaf f Hf), (IHg g') by done.
      by rewrite (proj2 (node_remove_None f new)) by (by left).
Qed.

(** Removing a pane that was just split off restores the tab exactly,
    its splits and shares included. *)
Theorem split_remove_roundtrip (p p' : Panes) (at_ : TerminalId) (axis : Axis) (new : TerminalId) :
  split p at_ axis new = Ok p' → remove p' new = (p, true).
Proof.
  unfold split. destruct (_ <=? _)%nat; [done|]. destruct (panes_contains p new) eqn:Hc; [done|].
  apply contains_false in Hc. destruct (node_split _ _ _ _) as [n|] eqn:Hs; [|done]. intros [= <-].
  unfold remove. simpl. rewrite (node_split_remove _ _ _ _ _ Hs Hc). by destruct p.
Qed.

(** ** Resizing *)

(** The splits from the root down to the leaf [id], each with its reference. *)
Fixpoint spine (n : Node) (id : TerminalId) : list (Axis * ShareRef) :=
  match n with
  | Leaf _ => []
  | Split a s f g =>
      (a, (s, λ s, Split a s f g)) ::
      (if contains f id then (λ '(b, r), (b, in_first a s g r)) <$> spine f id
       else if contains g id then (λ '(b, r), (b, in_second a s f r)) <$> spine g id else [])
  end.

Definition along (axis : Axis) (l : list (Axis * ShareRef)) : list ShareRef :=
  snd <$> filter (λ x, x.1 = axis) l.

Lemma along_cons axis a r l :
  along axis ((a, r) :: l) = (if bool_decide (a = axis) then [r] else []) ++ along axis l.
Proof. unfold along. rewrite filter_cons. simpl. case_decide; by case_bool_decide. Qed.

Lemma along_fmap axis (f : ShareRef → ShareRef) l :
  along axis ((λ '(b, r), (b, f r)) <$> l) = f <$> along axis l.
Proof.
  induction l as [|[b r] l IH]; [done|]. rewrite fmap_cons, !along_cons, fmap_app, IH.
  by destruct (bool_decide _).
Qed.

Lemma contains_split_absent n id axis : id ∉ ids n → contains_split n id axis = false.
Proof.
  induction n as [leaf|a s f IHf g IHg]; simpl; [done|]. rewrite ids_split, not_elem_of_app.
  intros [Hf Hg]. rewrite IHf, IHg, (proj2 (contains_false f id) Hf), (proj2 (contains_false g id) Hg) by done.
  by rewrite andb_false_r.
Qed.

Lemma contains_split_along n id axis :
  NoDup (ids n) → id ∈ ids n →
  contains_split n id axis = negb (bool_decide (along axis (spine n id) = [])).
Proof.
  induction n as [leaf|a s f IHf g IHg]; intros Hn Hid; [done|].
  cbn [contains_split spine]. rewrite along_cons.
  rewrite (proj2 (contains_ids (Split a s f g) id) Hid), andb_true_r.
  rewrite ids_split in Hn, Hid. apply NoDup_app in Hn as (Hf & Hd & Hg).
  destruct (decide (a = axis)) as [->|Ha]; [by rewrite bool_decide_true|rewrite bool_decide_false by done].
  cbn [orb app]. apply elem_of_app in Hid as [Hid|Hid].
  - rewrite (proj2 (contains_ids f id) Hid), along_fmap, (contains_split_absent g), orb_false_r, IHf by auto.
    by destruct (along axis (spine f id)).
  - assert (id ∉ ids f) as Hnf by (intros ?; by eapply Hd).
    rewrite (proj2 (contains_false f id) Hnf), (proj2 (contains_ids g id) Hid), along_fmap,
      (contains_split_absent f), IHg by auto.
    by destruct (along axis (spine g id)).
Qed.

(** The split a resize moves is the innermost one along the axis on
    the way from the root to the pane. *)
Theorem nearest_innermost (n : Node) (id : TerminalId) (axis : Axis) :
  NoDup (ids n) → id ∈ ids n →
  nearest n id axis = last (along axis (spine n id)).
Proof.
  induction n as [leaf|a s f IHf g IHg]; intros Hn Hid; [done|].
  cbn [nearest spine]. rewrite along_cons, last_app.
  rewrite ids_split in Hn, Hid. apply NoDup_app in Hn as (Hf & Hd & Hg).
  assert (∀ here : option ShareRef, (if bool_decide (a = axis) then here else None)
    = match here with Some r => last (if bool_decide (a = axis) then [r] else []) | None => None end) as Hhere.
  { intros [r|]; by destruct (bool_decide _). }
  apply elem_of_app in Hid as [Hid|Hid].
  - rewrite (proj2 (contains_ids f id) Hid), contains_split_along, along_fmap, fmap_last, IHf by auto.
    destruct (along axis (spine f id)) as [|r l] eqn:E; cbn [bool_decide]; [apply Hhere|].
    rewrite bool_decide_false by done. cbn [negb]. by destruct (last (r :: l)) eqn:El; [|apply last_None in El].
  - assert (id ∉ ids f) as Hnf by (intros ?; by eapply Hd).
    rewrite (proj2 (contains_false f id) Hnf), (proj2 (contains_ids g id) Hid), contains_split_along,
      along_fmap, fmap_last, IHg by auto.
    destruct (along axis (spine g id)) as [|r l] eqn:E; cbn [bool_decide]; [apply Hhere|].
    rewrite bool_decide_false by done. cbn [negb]. by destruct (last (r :: l)) eqn:El; [|apply last_None in El].
Qed.

(** Reading back through the reference a resize wrote through. *)
Lemma nearest_put n id axis s put s' :
  nearest n id axis = Some (s, put) → nearest (put s') id axis = Some (s', put).
Proof.
  revert s put. induction n as [leaf|a t f IHf g IHg]; intros s put; cbn [nearest]; [done|].
  destruct (contains f id) eqn:Hf; [|destruct (contains g id) eqn:Hg; [|done]].
  - destruct (contains_split f id axis) eqn:Hcs.
    + destruct (nearest f id axis) as [[s0 put0]|] eqn:E; [|done]. intros [= <- <-].
      pose proof (ref_shape _ _ (nearest_ref_ok _ _ _ _ E) s') as Hsh. cbn in Hsh |- *.
      rewrite <-(contains_shape (put0 s')), Hsh, contains_shape, Hf.
      rewrite <-(contains_split_shape (put0 s')), Hsh, contains_split_shape, Hcs.
      by rewrite (IHf s0 put0).
    + destruct (bool_decide (a = axis)) eqn:Ha; [|done]. intros [= <- <-]. cbn. by rewrite Hf, Hcs, Ha.
  - destruct (contains_split g id axis) eqn:Hcs.
    + destruct (nearest g id axis) as [[s0 put0]|] eqn:E; [|done]. intros [= <- <-].
      pose proof (ref_shape _ _ (nearest_ref_ok _ _ _ _ E) s') as Hsh. cbn in Hsh |- *.
      rewrite Hf, <-(contains_shape (put0 s')), Hsh, contains_shape, Hg.
      rewrite <-(contains_split_shape (put0 s')), Hsh, contains_split_shape, Hcs.
      by rewrite (IHg s0 put0).
    + destruct (bool_decide (a = axis)) eqn:Ha; [|done]. intros [= <- <-]. cbn. by rewrite Hf, Hg, Hcs, Ha.
Qed.

Definition opposite (d : Direction) : Direction :=
  match d with Left => Right | Right => Left | Up => Down | Down => Up end.

Definition toward (d : Direction) : Z := if forward d then RESIZE_STEP else (- RESIZE_STEP)%Z.

(** A resize step that the share's range does not cut short is undone
    by the step the other way, which leaves the whole tab as it was. *)
Theorem resize_undo (p : Panes) (id : TerminalId) (d : Direction) (share : Share) (put : Share → Node) :
  nearest (root p) id (direction_axis d) = Some (share, put) →
  share_ok share →
  (Z.of_N MIN_SHARE ≤ Z.of_N (share_of share) + toward d ≤ Z.of_N MAX_SHARE)%Z →
  (resize p id d).2 = true ∧ resize (resize p id d).1 id (opposite d) = (p, true).
Proof.
  intros Hn [Hlo Hhi] Hr. unfold resize at 1 3. rewrite Hn. simpl. fold (toward d).
  assert (∀ s z, (Z.of_N MIN_SHARE ≤ Z.of_N (share_of s) + z ≤ Z.of_N MAX_SHARE)%Z →
    share_moved s z = MkShare (Z.to_N (Z.of_N (share_of s) + z))) as Hm.
  { intros s z Hz. unfold share_moved, clampZ, MIN_SHARE, MAX_SHARE, u16_max in *.
    rewrite Z.min_r, Z.max_r by lia. destruct (Z.leb_spec 0 (Z.of_N (share_of s) + z)); [|lia].
    destruct (Z.leb_spec (Z.of_N (share_of s) + z) (Z.of_N 65535)); [done|lia]. }
  assert (toward d ≠ 0%Z) by (by destruct d).
  assert (toward (opposite d) = (- toward d)%Z) as Hopp by (by destruct d).
  unfold resize. simpl. assert (direction_axis (opposite d) = direction_axis d) as -> by (by destruct d).
  rewrite (nearest_put _ _ _ _ _ (share_moved share (toward d)) Hn). fold (toward (opposite d)).
  rewrite Hopp, (Hm share) by done. rewrite Hm by (simpl; unfold MIN_SHARE, MAX_SHARE in *; lia). simpl.
  destruct share as [s]. simpl in *.
  assert (Z.to_N (Z.of_N (Z.to_N (Z.of_N s + toward d)) + - toward d) = s) as -> by lia.
  rewrite !bool_decide_true by (intros [=]; lia). split; [done|].
  pose proof (ref_same _ _ (nearest_ref_ok _ _ _ _ Hn)) as Hsame. simpl in Hsame. rewrite Hsame. by destruct p.
Qed.

(** ** Rectangles *)

Lemma node_rects_out n rect out : node_rects n rect out = out ++ node_rects n rect [].
Proof.
  revert rect out. induction n as [id|a s f IHf g IHg]; intros rect out; simpl; [done|].
  destruct (cut rect a (share_fraction s)) as [ra rb].
  rewrite IHg, (IHg rb (node_rects f ra [])), IHf, app_assoc. done.
Qed.

Lemma node_rects_ids n rect : (node_rects n rect []).*1 = ids n.
Proof.
  revert rect. induction n as [id|a s f IHf g IHg]; intros rect; [done|]. simpl.
  destruct (cut rect a (share_fraction s)) as [ra rb].
  by rewrite node_rects_out, fmap_app, IHf, IHg, ids_split.
Qed.

(** Every pane has one rectangle, in the order the tree holds them. *)
Lemma rects_terminals p : (rects p).*1 = terminals p.
Proof. apply node_rects_ids. Qed.

Lemma foldl_better_in l b x : foldl better b l = Some x → b = Some x ∨ x ∈ l.
Proof.
  revert b. induction l as [|c l IH]; intros b; simpl; [by left|]. intros [Hb|Hx]%IH; [|set_solver].
  unfold better in Hb. destruct b as [b|]; [|set_solver]. destruct (SFleb _ _); set_solver.
Qed.

Lemma foldl_better_some l b : foldl better (Some b) l ≠ None.
Proof. revert b. induction l as [|c l IH]; intros b; simpl; [done|]. destruct (SFleb _ _); apply IH. Qed.

(** Moving focus from a shown pane lands on another pane of the tab
    whose rectangle touches it on that side, and finds one whenever there is one. *)
Theorem neighbor_correct (p : Panes) (id : TerminalId) (d : Direction) (from : Rect) :
  NoDup (terminals p) →
  (id, from) ∈ rects p →
  match neighbor p id d with
  | Some other => other ≠ id ∧ ∃ rect shared, (other, rect) ∈ rects p ∧ reach from rect d = Some shared
  | None => ∀ other rect, (other, rect) ∈ rects p → other ≠ id → reach from rect d = None
  end.
Proof.
  intros Hn Hin. unfold neighbor.
  assert (find (λ pr, bool_decide (pr.1 = id)) (rects p) = Some (id, from)) as ->.
  { rewrite <-rects_terminals in Hn. induction (rects p) as [|[x rx] l IH]; [set_solver|]. simpl.
    rewrite fmap_cons, NoDup_cons in Hn. destruct Hn as [Hx Hn]. apply elem_of_cons in Hin as [[= <- <-]|Hin].
    - by rewrite bool_decide_true.
    - rewrite bool_decide_false; [by apply IH|]. intros ->. apply Hx. by apply (list_elem_of_fmap_2 fst _ (id, from)). }
  simpl. set (cands := omap _ _).
  assert (∀ x, x ∈ cands ↔ ∃ rect, (x.1, rect) ∈ rects p ∧ x.1 ≠ id ∧ reach from rect d = Some x.2) as Hc.
  { intros [x sh]. unfold cands. rewrite list_elem_of_omap. setoid_rewrite list_elem_of_filter. split.
    - intros ([y ry'] & (Hy & Hyin) & Hr). simpl in *. destruct (reach from ry' d) eqn:E; [|done]. simplify_eq/=. eauto.
    - intros (rect & Hin' & Hne & Hr). exists (x, rect). simpl in *. by rewrite Hr. }
  destruct (foldl better None cands) as [[x sh]|] eqn:Hf; simpl.
  - apply foldl_better_in in Hf as [?|Hx]; [done|]. apply Hc in Hx as (rect & ? & ? & ?). eauto.
  - intros other rect Ho Hne. destruct (reach from rect d) as [sh|] eqn:E; [|done].
    assert ((other, sh) ∈ cands) as Hx by (apply Hc; eauto).
    destruct cands as [|c l]; [set_solver|]. simpl in Hf. by apply foldl_better_some in Hf.
Qed.

(** ** A tab of three panes *)

Definition tid (s : string) : TerminalId := MkTerminalId (lit s).

(** [t1] on the left, [t2] above [t3] on the right. *)
Definition three : Panes :=
  MkPanes (Split Row share_default (Leaf (tid "t1"))
             (Split Column share_default (Leaf (tid "t2")) (Leaf (tid "t3")))).

Example three_neighbors :
  (neighbor three (tid "t1") Right, neighbor three (tid "t3") Up, neighbor three (tid "t3") Left,
   neighbor three (tid "t2") Right)
  = (Some (tid "t2"), Some (tid "t2"), Some (tid "t1"), None).
Proof. vm_compute. reflexivity. Qed.

Example share_at_example : share_at (f32_div (f32_of 1) (f32_of 3)) = MkShare 333.
Proof. vm_compute. reflexivity. Qed.

Lemma three_wf : wf three.
Proof.
  split; [| |simpl; unfold share_ok; simpl; unfold MIN_SHARE, MAX_SHARE, HALF; lia].
  - apply (bool_decide_unpack _). vm_compute. exact I.
  - vm_compute. lia.
Defined.

Lemma panes_invariant_witness : wf three ∧ wf (remove (resize three (tid "t2") Down).1 (tid "t1")).1.
Proof.
  split; [apply three_wf|]. apply (panes_invariant three); [apply three_wf|].
  eapply rtc_l; [apply step_resize|]. eapply rtc_l; [apply step_remove|]. apply rtc_refl.
Defined.

Lemma remove_correct_witness : terminals (remove three (tid "t2")).1 = [tid "t1"; tid "t3"].
Proof.
  assert (NoDup (terminals three)) as Hn by apply three_wf.
  pose proof (remove_correct three (tid "t2") Hn) as H.
  replace (remove three (tid "t2")).2 with true in H by (vm_compute; reflexivity).
  destruct H as [_ H]. rewrite H. vm_compute. reflexivity.
Defined.

Lemma split_remove_roundtrip_witness :
  ∃ p', split three (tid "t1") Column (tid "t4") = Ok p' ∧ remove p' (tid "t4") = (three, true).
Proof.
  eexists. split; [vm_compute; reflexivity|].
  apply (split_remove_roundtrip three _ (tid "t1") Column). vm_compute. reflexivity.
Defined.

Lemma nearest_innermost_witness :
  nearest (root three) (tid "t3") Row = last (along Row (spine (root three) (tid "t3"))).
Proof.
  apply nearest_innermost; [apply three_wf|]. apply contains_ids. vm_compute. reflexivity.
Defined.

Lemma resize_undo_witness :
  (resize three (tid "t3") Down).2 = true ∧
  resize (resize three (tid "t3") Down).1 (tid "t3") Up = (three, true).
Proof.
  eapply (resize_undo three (tid "t3") Down).
  - reflexivity.
  - vm_compute. split; discriminate.
  - vm_compute. split; discriminate.
Defined.

Lemma neighbor_correct_witness :
  match neighbor three (tid "t1") Right with
  | Some other => other ≠ tid "t1" ∧ ∃ rect shared,
      (other, rect) ∈ rects three ∧
      reach (MkRect (f32_of 0) (f32_of 0) (share_fraction share_default) (f32_of 1)) rect Right = Some shared
  | None => ∀ other rect, (other, rect) ∈ rects three → other ≠ tid "t1" →
      reach (MkRect (f32_of 0) (f32_of 0) (share_fraction share_default) (f32_of 1)) rect Right = None
  end.
Proof.
  apply (neighbor_correct three (tid "t1") Right); [apply three_wf|].
  vm_compute. left.
Defined.
End Panes.
