(* ===== verification/Scan.v ===== *)
(** * Scan: the pass over terminal output before the emulator
    (crates/sheprd-terminal/src/scan.rs)

    The scanner tracks Win32 input mode and bounds OSC strings. [feed] is the
    source's loop over indices with its pending run; [scan] is the
    byte-at-a-time specification it refines. The capacity of a [Vec] is not
    modelled: it changes when memory is freed, never a result. *)

From Stdlib Require Import ZArith NArith Lia.
From stdpp Require Import base option strings sets list.
From S2P Require Import Prelude.

Local Open Scope N_scope.

Module Scan.

Definition ESC : N := 27.
Definition BEL : N := 7.
Definition CAN : N := 24.
Definition SUB : N := 26.
Definition BACKSLASH : N := 92.
Definition WIN32_INPUT_MODE : N := 9001.
Definition PARAM_CAP : N := 100000.
Definition MAX_OSC_BYTES : N := 8 * 1024.

Record Csi := MkCsi {
  started : bool;
  private : bool;
  invalid : bool;
  param : N;
  matched : bool }.

Definition csi_default : Csi := MkCsi false false false 0 false.

Definition end_param (c : Csi) : Csi :=
  MkCsi (started c) (private c) (invalid c) 0 (matched c || (param c =? WIN32_INPUT_MODE)).

Inductive State :=
| Ground
| Escape
| CsiState (csi : Csi)
| Osc
| OscEscape
| Overflow
| OverflowEscape.

Record Scanner := MkScanner {
  state : State;
  win32_input : bool;
  osc : list N }.

Definition scanner_default : Scanner := MkScanner Ground false [].

Definition set_state (s : Scanner) (st : State) : Scanner := MkScanner st (win32_input s) (osc s).
Definition push_osc (s : Scanner) (b : N) : Scanner := MkScanner (state s) (win32_input s) (osc s ++ [b]).

Definition between (lo hi b : N) : bool := (lo <=? b) && (b <=? hi).

(** [csi_byte]: the state after the byte and the mode. *)
Definition csi_byte (csi : Csi) (byte : N) (win32 : bool) : State * bool :=
  if byte =? ESC then (Escape, win32)
  else if (byte =? CAN) || (byte =? SUB) then (Ground, win32)
  else if between 48 57 byte then
    (CsiState (MkCsi true (private csi) (invalid csi)
       (N.min (param csi * 10 + (byte - 48)) PARAM_CAP) (matched csi)), win32)
  else if (byte =? 59) || (byte =? 58) then
    (CsiState (end_param (MkCsi true (private csi) (invalid csi) (param csi) (matched csi))), win32)
  else if between 60 63 byte then
    (CsiState (if negb (started csi) && negb (private csi) && (byte =? 63)
               then MkCsi true true (invalid csi) (param csi) (matched csi)
               else MkCsi true (private csi) true (param csi) (matched csi)), win32)
  else if between 32 47 byte then
    (CsiState (MkCsi (started csi) (private csi) true (param csi) (matched csi)), win32)
  else if between 64 126 byte then
    let csi := end_param csi in
    (Ground,
     if private csi && negb (invalid csi) && matched csi then
       if byte =? 104 then true else if byte =? 108 then false else win32
     else win32)
  else (CsiState csi, win32).

(** The loop's variables: the scanner, the start of the bytes not passed on yet,
    the index, and what [forward] was called with so far. *)
Record Feed := MkFeed {
  scanner : Scanner;
  run : nat;
  index : nat;
  forwarded : list (list N) }.

(** [Scanner::escape]: the scanner, the run and the forwarded slices. *)
Definition escape (s : Scanner) (byte : N) (bytes : list N) (run index : nat) (out : list (list N))
    : option (Scanner * nat * list (list N)) :=
  if byte =? 91 then Some (set_state s (CsiState csi_default), run, out)
  else if byte =? 93 then
    out ← (if (run <? index)%nat then piece ← slice run index bytes; Some (out ++ [piece]) else Some out);
    Some (MkScanner Osc (win32_input s) [byte], S index, out)
  else if byte =? 99 then Some (MkScanner Ground false (osc s), run, out)
  else if byte =? ESC then Some (set_state s Escape, run, out)
  else if between 0 23 byte || (byte =? 25) || between 28 31 byte || (byte =? 127)
  then Some (set_state s Escape, run, out)
  else Some (set_state s Ground, run, out).

(** [end_osc] leaves the string empty; the run restarts at [next]. *)
Definition end_osc (s : Scanner) : Scanner := MkScanner Ground (win32_input s) [].

Definition holding (s : Scanner) : bool :=
  match state s with Osc | OscEscape | Overflow | OverflowEscape => true | _ => false end.

(** One turn of the loop; a turn that ends in [continue] keeps the index. *)
Definition feed_turn (bytes : list N) (f : Feed) : option Feed :=
  let s := scanner f in
  let index := index f in
  byte ← bytes !! index;
  match state s with
  | Ground =>
      Some (MkFeed (if byte =? ESC then set_state s Escape else s) (run f) (S index) (forwarded f))
  | Escape =>
      '(s, run, out) ← escape s byte bytes (run f) index (forwarded f);
      Some (MkFeed s run (S index) out)
  | CsiState csi =>
      let '(st, w) := csi_byte csi byte (win32_input s) in
      Some (MkFeed (MkScanner st w (osc s)) (run f) (S index) (forwarded f))
  | Osc =>
      if (byte =? BEL) || (byte =? CAN) || (byte =? SUB) then
        let s := push_osc s byte in
        Some (MkFeed (end_osc s) (S index) (S index) (forwarded f ++ [osc s]))
      else if byte =? ESC then Some (MkFeed (set_state s OscEscape) (run f) (S index) (forwarded f))
      else if MAX_OSC_BYTES <=? lenN (osc s) then
        Some (MkFeed (MkScanner Overflow (win32_input s) []) (run f) (S index) (forwarded f ++ [[BACKSLASH]]))
      else Some (MkFeed (push_osc s byte) (run f) (S index) (forwarded f))
  | OscEscape =>
      let s := push_osc s ESC in
      if byte =? BACKSLASH then
        let s := push_osc s byte in
        Some (MkFeed (end_osc s) (S index) (S index) (forwarded f ++ [osc s]))
      else Some (MkFeed (set_state (end_osc s) Escape) index index (forwarded f ++ [osc s]))
  | Overflow =>
      if byte =? ESC then Some (MkFeed (set_state s OverflowEscape) (run f) (S index) (forwarded f))
      else if (byte =? BEL) || (byte =? CAN) || (byte =? SUB)
      then Some (MkFeed (end_osc s) (S index) (S index) (forwarded f))
      else Some (MkFeed s (run f) (S index) (forwarded f))
  | OverflowEscape =>
      if byte =? BACKSLASH then Some (MkFeed (end_osc s) (S index) (S index) (forwarded f))
      else Some (MkFeed (set_state (end_osc s) Escape) index index (forwarded f ++ [[ESC]]))
  end.

Fixpoint feed_loop (fuel : nat) (bytes : list N) (f : Feed) : option Feed :=
  match fuel with
  | O => None
  | S fuel =>
      if (index f <? length bytes)%nat then f ← feed_turn bytes f; feed_loop fuel bytes f
      else Some f
  end.

(** [Scanner::feed]: the scanner afterwards and the slices forwarded, [None] for
    a panic (or not enough fuel, which [feed_refines] excludes). A byte takes two
    turns at most. *)
Definition feed (s : Scanner) (bytes : list N) : option (Scanner * list (list N)) :=
  f ← feed_loop (S (2 * length bytes)) bytes (MkFeed s 0 0 []);
  if negb (holding (scanner f)) && (run f <? length bytes)%nat then
    piece ← slice (run f) (length bytes) bytes;
    Some (scanner f, forwarded f ++ [piece])
  else Some (scanner f, forwarded f).

(** ** One byte at a time *)

Definition escape_byte (s : Scanner) (byte : N) : Scanner * list N :=
  if byte =? 91 then (set_state s (CsiState csi_default), [byte])
  else if byte =? 93 then (MkScanner Osc (win32_input s) [byte], [])
  else if byte =? 99 then (MkScanner Ground false (osc s), [byte])
  else if (byte =? ESC) || between 0 23 byte || (byte =? 25) || between 28 31 byte || (byte =? 127)
  then (set_state s Escape, [byte])
  else (set_state s Ground, [byte]).

(** What one byte does, and the bytes it passes on. *)
Definition scan_byte (s : Scanner) (byte : N) : Scanner * list N :=
  match state s with
  | Ground => (if byte =? ESC then set_state s Escape else s, [byte])
  | Escape => escape_byte s byte
  | CsiState csi =>
      let '(st, w) := csi_byte csi byte (win32_input s) in (MkScanner st w (osc s), [byte])
  | Osc =>
      if (byte =? BEL) || (byte =? CAN) || (byte =? SUB) then (end_osc s, osc s ++ [byte])
      else if byte =? ESC then (set_state s OscEscape, [])
      else if MAX_OSC_BYTES <=? lenN (osc s) then (MkScanner Overflow (win32_input s) [], [BACKSLASH])
      else (push_osc s byte, [])
  | OscEscape =>
      if byte =? BACKSLASH then (end_osc s, osc s ++ [ESC; byte])
      else let '(s', o) := escape_byte (end_osc s) byte in (s', osc s ++ [ESC] ++ o)
  | Overflow =>
      if byte =? ESC then (set_state s OverflowEscape, [])
      else if (byte =? BEL) || (byte =? CAN) || (byte =? SUB) then (end_osc s, [])
      else (s, [])
  | OverflowEscape =>
      if byte =? BACKSLASH then (end_osc s, [])
      else let '(s', o) := escape_byte (end_osc s) byte in (s', [ESC] ++ o)
  end.

Fixpoint scan (s : Scanner) (bytes : list N) : Scanner * list N :=
  match bytes with
  | [] => (s, [])
  | b :: bytes =>
      let '(s, o) := scan_byte s b in
      let '(s, o') := scan s bytes in
      (s, o ++ o')
  end.

Lemma scan_app s a b :
  scan s (a ++ b) = let '(s1, o1) := scan s a in let '(s2, o2) := scan s1 b in (s2, o1 ++ o2).
Proof.
  revert s. induction a as [|x a IH]; intros s; simpl.
  - by destruct (scan s b).
  - destruct (scan_byte s x) as [s1 o1]. rewrite IH. destruct (scan s1 a) as [s2 o2].
    destruct (scan s2 b) as [s3 o3]. by rewrite app_assoc.
Qed.

(** *** The loop's invariant *)

(** What the loop has passed on, and what it will when it is not holding. *)
Definition passed (bytes : list N) (f : Feed) : list N :=
  concat (forwarded f) ++
  (if holding (scanner f) then [] else take (index f - run f) (drop (run f) bytes)).

Record tracks (s0 : Scanner) (bytes : list N) (f : Feed) : Prop := {
  tr_index : (index f ≤ length bytes)%nat;
  tr_run : holding (scanner f) = false → (run f ≤ index f)%nat;
  tr_scan : scan s0 (take (index f) bytes) = (scanner f, passed bytes f);
}.

Lemma run_snoc (bytes : list N) (r i : nat) b :
  (r ≤ i)%nat → bytes !! i = Some b →
  take (S i - r) (drop r bytes) = take (i - r) (drop r bytes) ++ [b].
Proof.
  intros Hr Hb. replace (S i - r)%nat with (S (i - r)) by lia.
  apply take_S_r. rewrite lookup_drop. by replace (r + (i - r))%nat with i by lia.
Qed.

Lemma slice_run (bytes : list N) (r i : nat) :
  (r ≤ i)%nat → (i ≤ length bytes)%nat → slice r i bytes = Some (take (i - r) (drop r bytes)).
Proof. intros. unfold slice. by rewrite !(proj2 (Nat.leb_le _ _)) by lia. Qed.

Lemma tracks_next s0 bytes f f' b o :
  tracks s0 bytes f → bytes !! index f = Some b → index f' = S (index f) →
  scan_byte (scanner f) b = (scanner f', o) → passed bytes f' = passed bytes f ++ o →
  (holding (scanner f') = false → (run f' ≤ index f')%nat) → tracks s0 bytes f'.
Proof.
  intros [Hi Hr Hs] Hb Hi' Hsb Hp Hr'. split.
  - rewrite Hi'. apply lookup_lt_Some in Hb. lia.
  - done.
  - rewrite Hi', (take_S_r _ _ _ Hb), scan_app, Hs. simpl. by rewrite Hsb, Hp, app_nil_r.
Qed.

(** [escape] against [escape_byte], from a run that has reached the byte. *)
Lemma escape_refines s bytes r i out b :
  bytes !! i = Some b → (r ≤ i)%nat →
  ∃ s' r' out' o, escape s b bytes r i out = Some (s', r', out') ∧ escape_byte s b = (s', o) ∧
    passed bytes (MkFeed s' r' (S i) out') = concat out ++ take (i - r) (drop r bytes) ++ o ∧
    (holding s' = false → (r' ≤ S i)%nat).
Proof.
  intros Hb Hr. unfold escape, escape_byte.
  assert (∀ s' : Scanner, holding s' = false →
    ∃ s'' r' out' o, Some (s', r, out) = Some (s'', r', out') ∧ (s', [b]) = (s'', o) ∧
      passed bytes (MkFeed s'' r' (S i) out') = concat out ++ take (i - r) (drop r bytes) ++ o ∧
      (holding s'' = false → (r' ≤ S i)%nat)) as Hkeep.
  { intros s' Hh. exists s', r, out, [b]. split_and!; [done..| |lia]. unfold passed. simpl scanner.
    rewrite Hh. simpl. by rewrite (run_snoc _ _ _ b). }
  destruct (b =? 91); [by apply Hkeep|].
  destruct (b =? 93).
  { apply lookup_lt_Some in Hb as Hlt. destruct (Nat.ltb_spec r i).
    - rewrite slice_run by lia. simpl. do 4 eexists. split_and!; [done..| |done].
      unfold passed. simpl. by rewrite concat_app; simpl; rewrite !app_nil_r.
    - simpl. do 4 eexists. split_and!; [done..| |done]. unfold passed. simpl.
      replace (i - r)%nat with 0%nat by lia. by rewrite take_0, !app_nil_r. }
  destruct (b =? 99); [by apply Hkeep|].
  destruct (b =? ESC); simpl; [by apply Hkeep|].
  destruct (_ || _); by apply Hkeep.
Qed.

Lemma csi_byte_not_holding c b w w0 o : holding (MkScanner (csi_byte c b w).1 w0 o) = false.
Proof. unfold csi_byte, holding. simpl. by repeat (case_match; simpl). Qed.

(** A byte the loop keeps in its run. *)
Lemma passed_run bytes f s b :
  holding (scanner f) = false → (run f ≤ index f)%nat → holding s = false → bytes !! index f = Some b →
  passed bytes (MkFeed s (run f) (S (index f)) (forwarded f)) = passed bytes f ++ [b].
Proof.
  intros Hh Hr Hs Hb. unfold passed. simpl scanner. rewrite Hh, Hs. simpl.
  by rewrite (run_snoc _ _ _ b), app_assoc.
Qed.

(** A turn while a string is held or dropped: what is passed on is forwarded. *)
Lemma passed_held bytes f s r i o os :
  holding (scanner f) = true → holding s = true ∨ r = i → concat os = o →
  passed bytes (MkFeed s r i (forwarded f ++ os)) = passed bytes f ++ o.
Proof.
  intros Hh Hs <-. unfold passed. cbn [scanner run index forwarded]. rewrite Hh, concat_app, app_nil_r.
  destruct Hs as [-> | ->]; [by rewrite app_nil_r|]. rewrite Nat.sub_diag, take_0. by destruct (holding s); rewrite app_nil_r.
Qed.

(** One turn that ends at the next index and keeps the invariant. *)
Definition moves_on (s0 : Scanner) (bytes : list N) (i : nat) (f : option Feed) : Prop :=
  ∃ f', f = Some f' ∧ tracks s0 bytes f' ∧ index f' = S i.

Lemma turn_plain s0 bytes f :
  tracks s0 bytes f → (index f < length bytes)%nat → holding (scanner f) = false →
  moves_on s0 bytes (index f) (feed_turn bytes f).
Proof.
  intros Ht Hlt Hh. destruct (lookup_lt_is_Some_2 _ _ Hlt) as [b Hb].
  pose proof (tr_run _ _ _ Ht Hh) as Hr. unfold feed_turn. rewrite Hb. cbn [mbind option_bind].
  assert (∀ s', scan_byte (scanner f) b = (s', [b]) → holding s' = false →
    moves_on s0 bytes (index f) (Some (MkFeed s' (run f) (S (index f)) (forwarded f)))) as Hkeep.
  { intros s' Hs Hh'. eexists. split_and!; [done| |done].
    eapply tracks_next; [done|done|done|exact Hs|by apply passed_run|]. simpl. lia. }
  destruct (state (scanner f)) as [| |csi| | | |] eqn:Est; unfold holding in Hh; rewrite Est in Hh; try done.
  - apply Hkeep; [unfold scan_byte; by rewrite Est|]. unfold holding. by destruct (b =? ESC); simpl; rewrite ?Est.
  - destruct (escape_refines (scanner f) bytes (run f) (index f) (forwarded f) b Hb Hr)
      as (s' & r' & out' & o & He & Hs & Hp & Hr').
    rewrite He. cbn [mbind option_bind]. eexists. split_and!; [done| |done].
    eapply tracks_next; [done|done|done|unfold scan_byte; rewrite Est; exact Hs| |done].
    rewrite Hp. unfold passed, holding. by rewrite Est, app_assoc.
  - pose proof (csi_byte_not_holding csi b (win32_input (scanner f))) as Hc.
    destruct (csi_byte csi b (win32_input (scanner f))) as [st' w'] eqn:E.
    apply Hkeep; [unfold scan_byte; by rewrite Est, E|apply Hc].
Qed.

(** A string that ends at a byte read again: the second turn reads it as [Escape] does. *)
Lemma turn_again s0 bytes f b (os : list N) :
  tracks s0 bytes f → bytes !! index f = Some b → holding (scanner f) = true →
  (∀ s' o, escape_byte (end_osc (scanner f)) b = (s', o) → scan_byte (scanner f) b = (s', os ++ o)) →
  moves_on s0 bytes (index f)
    (feed_turn bytes (MkFeed (set_state (end_osc (scanner f)) Escape) (index f) (index f) (forwarded f ++ [os]))).
Proof.
  intros Ht Hb Hh Hsb. unfold feed_turn. cbn [scanner index]. rewrite Hb. cbn [mbind option_bind state set_state].
  destruct (escape_refines (set_state (end_osc (scanner f)) Escape) bytes (index f) (index f)
    (forwarded f ++ [os]) b Hb (le_n _)) as (s' & r' & out' & o & He & Hs & Hp & Hr').
  cbn [run forwarded]. rewrite He. cbn [mbind option_bind]. eexists. split_and!; [done| |done].
  eapply tracks_next; [done|done|done|apply Hsb, Hs| |done].
  rewrite Hp, Nat.sub_diag, take_0, concat_app. unfold passed. rewrite Hh. simpl. by rewrite !app_nil_r, <-app_assoc.
Qed.

(** Every byte takes one turn or two, and keeps the invariant. *)
Lemma turn_tracks s0 bytes f :
  tracks s0 bytes f → (index f < length bytes)%nat →
  moves_on s0 bytes (index f) (feed_turn bytes f) ∨
  ∃ f1, feed_turn bytes f = Some f1 ∧ index f1 = index f ∧ moves_on s0 bytes (index f) (feed_turn bytes f1).
Proof.
  intros Ht Hlt. destruct (holding (scanner f)) eqn:Hh; [|left; by apply turn_plain].
  destruct (lookup_lt_is_Some_2 _ _ Hlt) as [b Hb].
  assert (∀ s' r os, scan_byte (scanner f) b = (s', concat os) → holding s' = true ∨ r = S (index f) →
    moves_on s0 bytes (index f) (Some (MkFeed s' r (S (index f)) (forwarded f ++ os)))) as Hmove.
  { intros s' r os Hs Hd. eexists. split_and!; [done| |done].
    eapply tracks_next; [done|done|done|exact Hs|by apply passed_held|]. simpl. intros Hf.
    destruct Hd as [Hd | ->]; [by rewrite Hf in Hd|lia]. }
  assert (∀ s' r, scan_byte (scanner f) b = (s', []) → holding s' = true ∨ r = S (index f) →
    moves_on s0 bytes (index f) (Some (MkFeed s' r (S (index f)) (forwarded f)))) as Hmove0.
  { intros s' r Hs Hd. rewrite <-(app_nil_r (forwarded f)). by apply Hmove. }
  pose proof (turn_again s0 bytes f b) as Hagain.
  unfold feed_turn at 1 2. rewrite Hb. cbn [mbind option_bind].
  unfold scan_byte in Hmove, Hmove0, Hagain.
  assert (holding (scanner f) = true) as Hh' by done. unfold holding in Hh.
  destruct (state (scanner f)) as [| |csi| | | |] eqn:Est; try done.
  - left. destruct ((b =? BEL) || (b =? CAN) || (b =? SUB)); [apply Hmove; [simpl; by rewrite app_nil_r|by right]|].
    destruct (b =? ESC); [apply Hmove0; [done|by left]|].
    destruct (MAX_OSC_BYTES <=? lenN (osc (scanner f))); [apply Hmove; [done|by left]|].
    apply Hmove0; [done|left]. unfold holding. simpl. by rewrite Est.
  - destruct (b =? BACKSLASH).
    + left. apply Hmove; [|by right]. simpl. rewrite app_nil_r, <-app_assoc. done.
    + right. eexists. split_and!; [done|done|]. cbn [osc push_osc].
      apply Hagain; [done..|]. intros s' o ->. by rewrite <-app_assoc.
  - left. destruct (b =? ESC); [apply Hmove0; [done|by left]|].
    destruct ((b =? BEL) || (b =? CAN) || (b =? SUB)); [apply Hmove0; [done|by right]|].
    apply Hmove0; [done|left]. unfold holding. by rewrite Est.
  - destruct (b =? BACKSLASH); [left; apply Hmove0; [done|by right]|].
    right. eexists. split_and!; [done|done|].
    apply Hagain; [done..|]. by intros s' o ->.
Qed.

Lemma feed_loop_tracks fuel s0 bytes f :
  tracks s0 bytes f → (2 * (length bytes - index f) < fuel)%nat →
  ∃ f', feed_loop fuel bytes f = Some f' ∧ tracks s0 bytes f' ∧ index f' = length bytes.
Proof.
  revert fuel f.
  assert (∀ n fuel f, (length bytes - index f = n)%nat → tracks s0 bytes f → (2 * n < fuel)%nat →
    ∃ f', feed_loop fuel bytes f = Some f' ∧ tracks s0 bytes f' ∧ index f' = length bytes) as H;
    [|by intros; eapply H].
  induction n as [|n IH]; intros fuel f Hn Ht Hfuel; pose proof (tr_index _ _ _ Ht).
  { destruct fuel; [lia|]. simpl. rewrite (proj2 (Nat.ltb_ge _ _)) by lia. exists f. split_and!; [done..|lia]. }
  destruct fuel as [|[|fuel]]; [lia..|]. assert (index f < length bytes)%nat as Hlt by lia.
  destruct (turn_tracks s0 bytes f Ht Hlt) as [(f' & Hf' & Ht' & Hi)|(f1 & Hf1 & Hi1 & (f' & Hf' & Ht' & Hi))].
  - cbn [feed_loop]. rewrite (proj2 (Nat.ltb_lt _ _) Hlt), Hf'. simpl. apply (IH (S fuel) f'); [lia|done|lia].
  - cbn [feed_loop]. rewrite (proj2 (Nat.ltb_lt _ _) Hlt), Hf1. cbn [mbind option_bind feed_loop].
    rewrite Hi1, (proj2 (Nat.ltb_lt _ _) Hlt), Hf'. simpl. apply (IH fuel f'); [lia|done|lia].
Qed.

(** [feed] never panics and passes on exactly what the byte-at-a-time scanner does. *)
Lemma feed_scan (s : Scanner) (bytes : list N) :
  ∃ s' pieces, feed s bytes = Some (s', pieces) ∧ scan s bytes = (s', concat pieces).
Proof.
  unfold feed. destruct (feed_loop_tracks (S (2 * length bytes)) s bytes (MkFeed s 0 0 [])) as (f & -> & [_ Hr Hs] & Hi).
  { split; simpl; [lia|lia|]. unfold passed. simpl. by destruct (holding s). }
  { simpl. lia. }
  cbn [mbind option_bind]. rewrite Hi, firstn_all in Hs. unfold passed in Hs. rewrite Hi in Hs, Hr.
  destruct (holding (scanner f)); cbn [negb andb].
  { do 2 eexists. split; [done|]. by rewrite app_nil_r in Hs. }
  specialize (Hr eq_refl). destruct (Nat.ltb_spec (run f) (length bytes)).
  - rewrite slice_run by lia. cbn. do 2 eexists. split; [done|]. rewrite concat_app. simpl. by rewrite app_nil_r.
  - do 2 eexists. split; [done|]. rewrite Hs. replace (length bytes - run f)%nat with 0%nat by lia.
    by rewrite take_0, app_nil_r.
Qed.

(** Feeding pieces one after the other: the scanner and everything forwarded. *)
Fixpoint feed_all (s : Scanner) (chunks : list (list N)) : option (Scanner * list N) :=
  match chunks with
  | [] => Some (s, [])
  | c :: chunks =>
      '(s, pieces) ← feed s c;
      '(s, out) ← feed_all s chunks;
      Some (s, concat pieces ++ out)
  end.

Lemma feed_all_scan s chunks : feed_all s chunks = Some (scan s (concat chunks)).
Proof.
  revert s. induction chunks as [|c chunks IH]; intros s; cbn [feed_all concat]; [done|].
  destruct (feed_scan s c) as (s' & pieces & -> & Hs). cbn [mbind option_bind]. rewrite IH.
  cbn [mbind option_bind]. rewrite scan_app, Hs. by destruct (scan s' (concat chunks)).
Qed.

(** However output is cut into feeds, the scanner neither panics
    nor loops, ends in the same state and passes on the same bytes. *)
Theorem feed_split_invariant (s : Scanner) (chunks chunks' : list (list N)) :
  concat chunks = concat chunks' →
  ∃ s' out, feed_all s chunks = Some (s', out) ∧ feed_all s chunks' = Some (s', out).
Proof.
  intros He. rewrite !feed_all_scan, He. by destruct (scan s (concat chunks')) as [s' out]; eauto.
Qed.

Lemma feed_split_invariant_witness :
  ∃ s' out, feed_all scanner_default [[27]; [93; 50]; [65; 7; 66]] = Some (s', out) ∧
    feed_all scanner_default [[27; 93]; [50; 65; 7; 66]] = Some (s', out).
Proof. apply feed_split_invariant. reflexivity. Defined.

(** ** What is held is bounded, and nothing else is lost *)

(** The bytes received but not passed on. *)
Definition held (s : Scanner) : list N :=
  match state s with
  | Osc => osc s
  | OscEscape => osc s ++ [ESC]
  | _ => []
  end.

Definition dropping (s : Scanner) : bool :=
  match state s with Overflow | OverflowEscape => true | _ => false end.

(** The held string is within the limit, and empty when none is held. *)
Record bounded (s : Scanner) : Prop := {
  bd_osc : lenN (osc s) ≤ MAX_OSC_BYTES;
  bd_empty : state s ≠ Osc → state s ≠ OscEscape → osc s = [];
}.

Lemma escape_byte_bounded s b : osc s = [] → bounded (escape_byte s b).1.
Proof.
  intros Ho. unfold escape_byte.
  destruct (b =? 91); [split; simpl; by rewrite ?Ho|].
  destruct (b =? 93); [split; simpl; [vm_compute; done|done]|].
  destruct (b =? 99); [split; simpl; by rewrite ?Ho|].
  destruct (_ || _); split; simpl; by rewrite ?Ho.
Qed.

Lemma end_osc_bounded s : bounded (end_osc s).
Proof. by split. Qed.

Lemma csi_byte_states c b w o :
  bounded (MkScanner (csi_byte c b w).1 w []) → o = [] → ∀ w', bounded (MkScanner (csi_byte c b w).1 w' o).
Proof. intros _ -> w'. by split. Qed.

Lemma scan_byte_bounded s b : bounded s → bounded (scan_byte s b).1.
Proof.
  intros [Hl He]. unfold scan_byte. destruct (state s) as [| |csi| | | |] eqn:Est.
  - assert (osc s = []) by (by apply He). destruct (b =? ESC); split; simpl; rewrite ?Est; by rewrite ?H.
  - apply escape_byte_bounded. by apply He.
  - destruct (csi_byte csi b _) as [st w]. assert (osc s = []) as Ho by (by apply He). split; simpl; by rewrite ?Ho.
  - destruct (_ || _); [apply end_osc_bounded|]. destruct (b =? ESC); [split; simpl; done|].
    destruct (N.leb_spec MAX_OSC_BYTES (lenN (osc s))); [by split|].
    split; simpl; [|by rewrite Est]. rewrite lenN_app. unfold lenN at 2. simpl. lia.
  - destruct (b =? BACKSLASH); [apply end_osc_bounded|].
    pose proof (escape_byte_bounded (end_osc s) b eq_refl). by destruct (escape_byte _ _).
  - assert (osc s = []) as Ho by (by apply He). destruct (b =? ESC); [split; simpl; by rewrite ?Ho|].
    destruct (_ || _); [apply end_osc_bounded|]. split; [done|]. by intros.
  - destruct (b =? BACKSLASH); [apply end_osc_bounded|].
    pose proof (escape_byte_bounded (end_osc s) b eq_refl). by destruct (escape_byte _ _).
Qed.

Lemma scan_bounded s bytes : bounded s → bounded (scan s bytes).1.
Proof.
  revert s. induction bytes as [|b bytes IH]; intros s Hs; simpl; [done|].
  pose proof (scan_byte_bounded s b Hs). destruct (scan_byte s b) as [s1 o1]. specialize (IH s1 H).
  by destruct (scan s1 bytes).
Qed.

Lemma escape_byte_held s b :
  (escape_byte s b).2 ++ held (escape_byte s b).1 = [b] ∧ dropping (escape_byte s b).1 = false.
Proof.
  unfold escape_byte. destruct (b =? 91); [done|]. destruct (N.eqb_spec b 93) as [->|]; [done|].
  destruct (b =? 99); [done|]. by destruct (_ || _).
Qed.

Lemma scan_byte_held s b :
  dropping s = false → dropping (scan_byte s b).1 = false →
  (scan_byte s b).2 ++ held (scan_byte s b).1 = held s ++ [b].
Proof.
  unfold scan_byte, dropping at 1, held at 2. destruct (state s) as [| |csi| | | |] eqn:Est; try done; intros _ Hd.
  - destruct (b =? ESC); unfold held; simpl; by rewrite ?Est.
  - apply escape_byte_held.
  - pose proof (csi_byte_not_holding csi b (win32_input s)) as Hc. destruct (csi_byte csi b _) as [st w].
    specialize (Hc w (osc s)). unfold held, holding in *. simpl in *. by destruct st.
  - destruct (_ || _); [unfold held; simpl; by rewrite app_nil_r|].
    destruct (N.eqb_spec b ESC) as [->|]; [done|]. destruct (_ <=? _); [done|]. unfold held. simpl. by rewrite Est.
  - destruct (b =? BACKSLASH); [unfold held; simpl; by rewrite app_nil_r, <-app_assoc|].
    destruct (escape_byte_held (end_osc s) b) as [He _]. destruct (escape_byte (end_osc s) b) as [s' o].
    simpl in *. rewrite <-!app_assoc. simpl. by rewrite He.
Qed.

Lemma scan_held s bytes :
  (∀ n, dropping (scan s (take n bytes)).1 = false) →
  (scan s bytes).2 ++ held (scan s bytes).1 = held s ++ bytes.
Proof.
  revert s. induction bytes as [|b bytes IH]; intros s Hd; simpl; [by rewrite app_nil_r|].
  pose proof (Hd 0%nat) as H0. pose proof (Hd 1%nat) as H1. simpl in H0, H1.
  destruct (scan_byte s b) as [s1 o1] eqn:E. pose proof (scan_byte_held s b H0) as Hb. rewrite E in Hb. simpl in H1.
  specialize (Hb H1). simpl in Hb. specialize (IH s1). destruct (scan s1 bytes) as [s2 o2]. simpl in *.
  rewrite <-app_assoc, IH, app_assoc, Hb, <-app_assoc; [done|].
  intros n. specialize (Hd (S n)). simpl in Hd. rewrite E in Hd. by destruct (scan s1 (take n bytes)).
Qed.

(** The scanner never holds more than [MAX_OSC_BYTES] of a string. Until
    one passes that limit it loses nothing: what it passed on, then what it
    holds, is what it held before, then the input. *)
Theorem feed_bounded_transparent (s : Scanner) (bytes : list N) :
  bounded s →
  ∃ s' pieces, feed s bytes = Some (s', pieces) ∧ bounded s' ∧
    ((∀ n, dropping (scan s (take n bytes)).1 = false) →
     concat pieces ++ held s' = held s ++ bytes).
Proof.
  intros Hb. destruct (feed_scan s bytes) as (s' & pieces & Hf & Hs). exists s', pieces. split; [done|].
  pose proof (scan_bounded s bytes Hb). pose proof (scan_held s bytes) as Hh. rewrite Hs in *. done.
Qed.

Lemma feed_bounded_transparent_witness :
  ∃ s' pieces, feed scanner_default [65; 27; 93; 48; 59; 120] = Some (s', pieces) ∧ bounded s' ∧
    ((∀ n, dropping (scan scanner_default (take n [65; 27; 93; 48; 59; 120])).1 = false) →
     concat pieces ++ held s' = held scanner_default ++ [65; 27; 93; 48; 59; 120]).
Proof. apply feed_bounded_transparent. split; vm_compute; done. Defined.

(** ** Win32 input mode *)

Definition capped (v : N) (p : str) : N := foldl (λ v d, N.min (v * 10 + (d - 48)) PARAM_CAP) v p.

Lemma capped_dval v p : capped (N.min v PARAM_CAP) p = N.min (dval v p) PARAM_CAP.
Proof.
  unfold capped, dval. revert v. induction p as [|d p IH]; intros v; simpl; [done|].
  rewrite <-IH. f_equal. unfold PARAM_CAP. lia.
Qed.

Lemma scan_digits p c w o :
  Forall (λ d, is_ascii_digit d = true) p → p ≠ [] ∨ started c = true →
  scan (MkScanner (CsiState c) w o) p =
    (MkScanner (CsiState (MkCsi true (private c) (invalid c) (capped (param c) p) (matched c))) w o, p).
Proof.
  intros Hp. revert c. induction Hp as [|d p Hd Hp IH]; intros c Hs; simpl.
  { destruct c as [st pr iv pa ma]. destruct Hs as [|Hs]; [done|]. simpl in *. by rewrite Hs. }
  unfold is_ascii_digit in Hd. rewrite andb_true_iff, !N.leb_le in Hd.
  unfold scan_byte. simpl. unfold csi_byte, between, ESC, CAN, SUB.
  rewrite !(proj2 (N.eqb_neq d _)) by lia. rewrite !(proj2 (N.leb_le _ _)) by lia. simpl.
  by rewrite IH by (by right).
Qed.

(** [a;b;c]. *)
Fixpoint join_params (ps : list str) : str :=
  match ps with
  | [] => []
  | [p] => p
  | p :: ps => p ++ 59 :: join_params ps
  end.

Definition is_mode (p : str) : bool := dval 0 p =? WIN32_INPUT_MODE.

Lemma capped_mode p : (capped 0 p =? WIN32_INPUT_MODE) = is_mode p.
Proof.
  unfold is_mode. change 0 with (N.min 0 PARAM_CAP) at 1. rewrite capped_dval.
  unfold PARAM_CAP, WIN32_INPUT_MODE. destruct (N.eqb_spec (N.min (dval 0 p) 100000) 9001), (N.eqb_spec (dval 0 p) 9001); lia || done.
Qed.

Lemma scan_params ps m w o :
  Forall (Forall (λ d, is_ascii_digit d = true)) ps → ps ≠ [] →
  ∃ c, scan (MkScanner (CsiState (MkCsi true true false 0 m)) w o) (join_params ps) =
      (MkScanner (CsiState c) w o, join_params ps) ∧
    private (end_param c) = true ∧ invalid (end_param c) = false ∧
    matched (end_param c) = (m || existsb is_mode ps).
Proof.
  intros Hps. revert m. induction Hps as [|p ps Hp Hps IH]; intros m Hne; [done|]. destruct ps as [|q ps].
  - cbn [join_params]. rewrite scan_digits by (done || by right). eexists. split; [done|].
    cbn [private invalid matched end_param param]. rewrite capped_mode. simpl. by rewrite orb_false_r.
  - change (join_params (p :: q :: ps)) with (p ++ 59 :: join_params (q :: ps)).
    rewrite scan_app, scan_digits by (done || by right). cbn [scan]. set (c1 := MkCsi _ _ _ _ _).
    change (scan_byte (MkScanner (CsiState c1) w o) 59) with
      (MkScanner (CsiState (end_param c1)) w o, [59]). cbn iota beta.
    unfold c1, end_param at 1. cbn [started private invalid matched param]. rewrite capped_mode.
    destruct (IH (m || is_mode p)) as (c & -> & Hpr & Hin & Hm); [done|].
    exists c. split_and!; [done|done|done|]. rewrite Hm. symmetry. apply orb_assoc.
Qed.

(** [CSI ? params final]. *)
Definition private_csi (ps : list str) (final : N) : list N :=
  [ESC; 91; 63] ++ join_params ps ++ [final].

(** A private mode sequence with any list of decimal parameters
    (leading zeros, empty and huge ones included) passes through unchanged and
    sets Win32 input mode for [h], resets it for [l], exactly when some
    parameter is 9001. *)
Theorem win32_mode_correct (w set : bool) (ps : list str) :
  Forall (Forall (λ d, is_ascii_digit d = true)) ps → ps ≠ [] →
  ∃ pieces,
    feed (MkScanner Ground w []) (private_csi ps (if set then 104 else 108)) =
      Some (MkScanner Ground (if existsb is_mode ps then set else w) [], pieces) ∧
    concat pieces = private_csi ps (if set then 104 else 108).
Proof.
  intros Hps Hne. set (final := if set then 104 else 108).
  destruct (feed_scan (MkScanner Ground w []) (private_csi ps final)) as (s' & pieces & Hf & Hs).
  exists pieces. rewrite Hf. destruct (scan_params ps false w [] Hps Hne) as (c & Hc & Hpr & Hin & Hm).
  assert (scan (MkScanner Ground w []) (private_csi ps final) =
    (MkScanner Ground (if existsb is_mode ps then set else w) [], private_csi ps final)) as Hspec.
  { unfold private_csi. rewrite scan_app.
    change (scan (MkScanner Ground w []) [ESC; 91; 63]) with
      (MkScanner (CsiState (MkCsi true true false 0 false)) w [], [ESC; 91; 63]). cbn iota beta.
    rewrite scan_app, Hc. cbn iota beta. cbn [scan]. unfold scan_byte. cbn [state].
    assert (csi_byte c final w = (Ground, if existsb is_mode ps then set else w)) as Hcb.
    { unfold final. destruct set; unfold csi_byte; simpl (_ =? _); simpl (between _ _ _); cbn [orb andb];
        rewrite Hpr, Hin, Hm; done. }
    cbn [win32_input]. rewrite Hcb. done. }
  rewrite Hspec in Hs. by injection Hs as <- <-.
Qed.

Lemma win32_mode_correct_witness :
  ∃ pieces,
    feed (MkScanner Ground false []) (private_csi [lit "25"; []; lit "09001"] 104) =
      Some (MkScanner Ground true [], pieces) ∧
    concat pieces = private_csi [lit "25"; []; lit "09001"] 104.
Proof.
  apply (win32_mode_correct false true [lit "25"; []; lit "09001"]); [|done].
  repeat constructor.
Defined.
End Scan.
