(* ===== verification/Input.v ===== *)
(** * Input: keys, mouse and pastes as the bytes a program reads
    (crates/sheprd-terminal/src/modes.rs, input.rs, input/keys.rs,
    input/kitty.rs and input/mouse.rs)

    Bytes are [N]; a [format!] of an integer is [dec]. The Unicode case tables
    of the standard library are the class [CaseMapping]; alacritty's [TermMode]
    is the set of the flags the source reads. *)

From Stdlib Require Import ZArith NArith Lia.
From stdpp Require Import base option strings sets list.
From S2P Require Import Prelude Wire.

Local Open Scope N_scope.

Module Input.

(** *** Modes *)

Inductive MouseReporting := Report_Off | Report_Click | Report_Drag | Report_Motion.
Inductive MouseEncoding := Enc_X10 | Enc_Utf8 | Enc_Sgr.

#[export] Instance MouseEncoding_eq_dec : EqDecision MouseEncoding.
Proof. solve_decision. Defined.

Record Modes := MkModes {
  alt_screen : bool;
  alternate_scroll : bool;
  app_cursor : bool;
  app_keypad : bool;
  bracketed_paste : bool;
  focus_reporting : bool;
  kitty_keyboard : N;
  line_feed_new_line : bool;
  mouse : MouseReporting;
  mouse_encoding : MouseEncoding;
  win32_input : bool }.

(** The flags of alacritty's [TermMode] the source tests. *)
Inductive TermFlag :=
| ALT_SCREEN | ALTERNATE_SCROLL | APP_CURSOR | APP_KEYPAD | BRACKETED_PASTE | FOCUS_IN_OUT
| LINE_FEED_NEW_LINE | MOUSE_MOTION | MOUSE_DRAG | MOUSE_REPORT_CLICK | SGR_MOUSE | UTF8_MOUSE
| DISAMBIGUATE_ESC_CODES | REPORT_EVENT_TYPES | REPORT_ALTERNATE_KEYS | REPORT_ALL_KEYS_AS_ESC
| REPORT_ASSOCIATED_TEXT.

Definition kitty_flags : list TermFlag :=
  [DISAMBIGUATE_ESC_CODES; REPORT_EVENT_TYPES; REPORT_ALTERNATE_KEYS; REPORT_ALL_KEYS_AS_ESC;
   REPORT_ASSOCIATED_TEXT].

(** [Modes::new]; [mode] is [TermMode::contains]. *)
Definition modes_new (mode : TermFlag → bool) (win32 : bool) : Modes :=
  MkModes (mode ALT_SCREEN) (mode ALTERNATE_SCROLL) (mode APP_CURSOR) (mode APP_KEYPAD)
    (mode BRACKETED_PASTE) (mode FOCUS_IN_OUT)
    (foldl (λ flags '(bit, flag), if mode flag then N.lor flags (N.shiftl 1 bit) else flags) 0
       (zip [0; 1; 2; 3; 4] kitty_flags))
    (mode LINE_FEED_NEW_LINE)
    (if mode MOUSE_MOTION then Report_Motion else if mode MOUSE_DRAG then Report_Drag
     else if mode MOUSE_REPORT_CLICK then Report_Click else Report_Off)
    (if mode SGR_MOUSE then Enc_Sgr else if mode UTF8_MOUSE then Enc_Utf8 else Enc_X10)
    win32.

(** [modifiers & bits != 0]. *)
Definition has (modifiers bits : N) : bool := negb (N.land modifiers bits =? 0).

Definition reports_key_releases (m : Modes) : bool := has (kitty_keyboard m) 2.
Definition reports_every_key (m : Modes) : bool := has (kitty_keyboard m) 8.

Definition SHIFT : N := 1.
Definition CONTROL : N := 2.
Definition ALT : N := 4.
Definition SUPER : N := 8.
Definition HYPER : N := 16.
Definition META : N := 32.

Definition MAX_REPEAT : N := 64.

Definition ESC : N := 27.
Definition PASTE_START : list N := ESC :: lit "[200~".
Definition PASTE_END : list N := ESC :: lit "[201~".

Definition b2n (b : bool) : N := if b then 1 else 0.

Definition xterm_modifier (modifiers : N) : N :=
  1 + b2n (has modifiers SHIFT) + 2 * b2n (has modifiers ALT) + 4 * b2n (has modifiers CONTROL)
  + 8 * b2n (has modifiers (N.lor META SUPER)).

(** [count.clamp(1, MAX_REPEAT)]. *)
Definition repeats (count : N) : nat := N.to_nat (N.max 1 (N.min MAX_REPEAT count)).

(** [Vec::repeat]. *)
Fixpoint repeat_bytes (n : nat) (bytes : list N) : list N :=
  match n with O => [] | S n => bytes ++ repeat_bytes n bytes end.

(** [char::to_uppercase] and [to_lowercase]. *)
Class CaseMapping := {
  to_uppercase : N → list N;
  to_lowercase : N → list N;
}.

(** A mapping to one character, or the character itself. *)
Definition single_case (f : N → list N) (c : N) : N := match f c with [u] => u | _ => c end.

Record Key := MkKey {
  code : ClientKeyCode;
  modifiers : N;
  kind : ClientKeyKind;
  repeat_count : N;
  shifted_char : option N;
  text : option str;
  windows : option WindowsKeyRecord }.

(** *** Legacy keys (keys.rs) *)

Definition semi : N := 59.

Definition win32 (r : WindowsKeyRecord) : list N :=
  ESC :: lit "[" ++ dec (wkr_virtual_key_code r) ++ [semi] ++ dec (wkr_virtual_scan_code r) ++ [semi]
  ++ dec (wkr_unicode r) ++ [semi] ++ dec (b2n (wkr_key_down r)) ++ [semi]
  ++ dec (wkr_control_key_state r) ++ [semi] ++ dec (wkr_repeat_count r) ++ lit "_".

Definition control_byte (c : N) : option N :=
  if is_ascii_lowercase c || is_ascii_uppercase c then Some (N.land c 31)
  else if (c =? 64) || (c =? 32) || (c =? 50) then Some 0
  else if (c =? 91) || (c =? 51) then Some 27
  else if (c =? 92) || (c =? 52) then Some 28
  else if (c =? 93) || (c =? 53) then Some 29
  else if (c =? 94) || (c =? 54) then Some 30
  else if (c =? 95) || (c =? 45) || (c =? 47) || (c =? 55) then Some 31
  else if (c =? 63) || (c =? 56) then Some 127
  else None.

Definition alt_prefixed (modifiers : N) (bytes : list N) : list N :=
  (if has modifiers ALT then [ESC] else []) ++ bytes.

Definition csi_letter (letter parameter : N) : list N :=
  ESC :: lit "[1;" ++ dec parameter ++ [letter].

Definition csi_tilde (code parameter : N) : list N :=
  if parameter =? 1 then ESC :: lit "[" ++ dec code ++ lit "~"
  else ESC :: lit "[" ++ dec code ++ [semi] ++ dec parameter ++ lit "~".

Definition cursor_key (letter parameter : N) (modes : Modes) : list N :=
  if parameter =? 1 then if app_cursor modes then [ESC; 79; letter] else [ESC; 91; letter]
  else csi_letter letter parameter.

Definition function_tilde (number : N) : option N :=
  if number =? 5 then Some 15 else if number =? 6 then Some 17 else if number =? 7 then Some 18
  else if number =? 8 then Some 19 else if number =? 9 then Some 20 else if number =? 10 then Some 21
  else if number =? 11 then Some 23 else if number =? 12 then Some 24 else if number =? 13 then Some 25
  else if number =? 14 then Some 26 else if number =? 15 then Some 28 else if number =? 16 then Some 29
  else if number =? 17 then Some 31 else if number =? 18 then Some 32 else if number =? 19 then Some 33
  else if number =? 20 then Some 34 else None.

Definition function_key (number parameter : N) : list N :=
  if (1 <=? number) && (number <=? 4) then
    if parameter =? 1 then [ESC; 79; 80 + number - 1] else csi_letter (80 + number - 1) parameter
  else match function_tilde number with
       | Some code => csi_tilde code parameter
       | None => []
       end.

Section encode.
Context `{CaseMapping}.

Definition char_key (c : N) (key : Key) : list N :=
  let m := modifiers key in
  let plain :=
    let c := if has m SHIFT then default (single_case to_uppercase c) (shifted_char key) else c in
    alt_prefixed m (utf8_char c) in
  match (if has m CONTROL then control_byte c else None) with
  | Some byte => alt_prefixed m [byte]
  | None =>
      match text key with
      | Some text => if has m (N.lor CONTROL ALT) then plain else as_bytes text
      | None => plain
      end
  end.

Definition legacy (key : Key) (modes : Modes) : list N :=
  let m := modifiers key in
  let parameter := xterm_modifier m in
  match code key with
  | Key_Enter => if line_feed_new_line modes then alt_prefixed m [13; 10] else alt_prefixed m [13]
  | Key_Tab | Key_BackTab =>
      if (match code key with Key_Tab => true | _ => false end) && negb (has m SHIFT)
      then alt_prefixed m [9]
      else
        let parameter := xterm_modifier (N.lor m SHIFT) in
        if parameter =? xterm_modifier SHIFT then ESC :: lit "[Z" else csi_letter 90 parameter
  | Key_Backspace => if has m CONTROL then alt_prefixed m [8] else alt_prefixed m [127]
  | Key_Esc => alt_prefixed m [ESC]
  | Key_Null => alt_prefixed m [0]
  | Key_Up => cursor_key 65 parameter modes
  | Key_Down => cursor_key 66 parameter modes
  | Key_Right => cursor_key 67 parameter modes
  | Key_Left => cursor_key 68 parameter modes
  | Key_Home => cursor_key 72 parameter modes
  | Key_End => cursor_key 70 parameter modes
  | Key_Insert => csi_tilde 2 parameter
  | Key_Delete => csi_tilde 3 parameter
  | Key_PageUp => csi_tilde 5 parameter
  | Key_PageDown => csi_tilde 6 parameter
  | Key_F number => function_key number parameter
  | Key_Char c => char_key c key
  end.

(** *** The kitty protocol (kitty.rs) *)

Definition F13 : N := 57376.

Definition kitty_modifier (m : N) : N :=
  foldl (λ p '(bit, value), if has m bit then p + value else p) 1
    [(SHIFT, 1); (ALT, 2); (CONTROL, 4); (SUPER, 8); (HYPER, 16); (META, 32)].

Definition fields (parameter event : N) : str :=
  if event =? 1 then if parameter =? 1 then [] else semi :: dec parameter
  else semi :: dec parameter ++ lit ":" ++ dec event.

Definition csi_u (code parameter event : N) : list N :=
  ESC :: lit "[" ++ dec code ++ fields parameter event ++ lit "u".

Definition tilde (code parameter event : N) : list N :=
  ESC :: lit "[" ++ dec code ++ fields parameter event ++ lit "~".

Definition letter (final parameter event : N) (key : Key) (modes : Modes) : list N :=
  if (parameter =? 1) && (event =? 1) then legacy key modes
  else ESC :: lit "[1" ++ fields parameter event ++ [final].

(** [key.kind == ClientKeyKind::Release]. *)
Definition is_release (k : ClientKeyKind) : bool := match k with Kind_Release => true | _ => false end.

Definition kitty_encode (key : Key) (modes : Modes) : list N :=
  let flags := kitty_keyboard modes in
  let events := has flags 2 in
  let all := has flags 8 in
  if is_release (kind key) && negb events then []
  else
    let event := match events, kind key with
      | true, Kind_Repeat => 2
      | true, Kind_Release => 3
      | _, _ => 1
      end in
    let m := modifiers key in
    let parameter := kitty_modifier m in
    (** [key.modifiers & !SHIFT == 0] of a [u8]. *)
    let plain := N.land m (u8_max - SHIFT) =? 0 in
    let legacy_text := negb all && match code key with
      | Key_Char _ => plain
      | Key_Enter | Key_Tab | Key_Backspace => m =? 0
      | _ => false
      end in
    let times := if events then 1%nat else repeats (repeat_count key) in
    if legacy_text then
      if is_release (kind key) then [] else repeat_bytes times (legacy key modes)
    else
      let bytes := match code key with
        | Key_Esc => csi_u 27 parameter event
        | Key_Enter => csi_u 13 parameter event
        | Key_Tab => csi_u 9 parameter event
        | Key_BackTab => csi_u 9 (kitty_modifier (N.lor m SHIFT)) event
        | Key_Backspace => csi_u 127 parameter event
        | Key_Char c => csi_u (single_case to_lowercase c) parameter event
        | Key_Up => letter 65 parameter event key modes
        | Key_Down => letter 66 parameter event key modes
        | Key_Right => letter 67 parameter event key modes
        | Key_Left => letter 68 parameter event key modes
        | Key_Home => letter 72 parameter event key modes
        | Key_End => letter 70 parameter event key modes
        | Key_Insert => tilde 2 parameter event
        | Key_Delete => tilde 3 parameter event
        | Key_PageUp => tilde 5 parameter event
        | Key_PageDown => tilde 6 parameter event
        | Key_F number =>
            if (1 <=? number) && (number <=? 4) then letter (80 + number - 1) parameter event key modes
            else if (13 <=? number) && (number <=? 35) then csi_u (F13 + (number - 13)) parameter event
            else match function_tilde number with
                 | Some code => tilde code parameter event
                 | None => []
                 end
        | Key_Null => if has flags 1 || all then csi_u 0 parameter event else legacy key modes
        end in
      repeat_bytes times bytes.

(** [keys::encode]. *)
Definition keys_encode (key : Key) (modes : Modes) : list N :=
  match (if win32_input modes then windows key else None) with
  | Some record => win32 record
  | None =>
      if negb (kitty_keyboard modes =? 0) then kitty_encode key modes
      else if is_release (kind key) then []
      else repeat_bytes (repeats (repeat_count key)) (legacy key modes)
  end.

(** *** Mouse (mouse.rs) *)

Definition X10_MAX : N := 255 - 32 - 1.
Definition UTF8_MAX : N := 2047 - 32 - 1.

Definition is_scroll (k : ClientMouseKind) : bool :=
  match k with Mouse_ScrollUp | Mouse_ScrollDown | Mouse_ScrollLeft | Mouse_ScrollRight => true | _ => false end.

(** One coordinate of [mouse::legacy]. *)
Definition legacy_value (encoding : MouseEncoding) (value : N) : option (list N) :=
  match encoding with
  | Enc_Utf8 => if value <=? UTF8_MAX then utf8_char <$> char_from_u32 (value + 33) else None
  | Enc_X10 => if value <=? X10_MAX then (if value + 33 <=? u8_max then Some [value + 33] else None) else None
  | Enc_Sgr => None
  end.

Definition mouse_legacy (button column row : N) (encoding : MouseEncoding) : option (list N) :=
  x ← legacy_value encoding column;
  y ← legacy_value encoding row;
  Some ((ESC :: lit "[M") ++ [32 + button] ++ x ++ y).

Definition alternate_scroll_keys (k : ClientMouseKind) (lines : N) (modes : Modes) : list N :=
  if negb (alt_screen modes) || negb (alternate_scroll modes) then []
  else
    let intro := if app_cursor modes then 79 else 91 in
    match k with
    | Mouse_ScrollUp => repeat_bytes (repeats lines) [ESC; intro; 65]
    | Mouse_ScrollDown => repeat_bytes (repeats lines) [ESC; intro; 66]
    | _ => []
    end.

Definition held_button (b : ClientMouseButton) : N :=
  match b with Button_Left => 0 | Button_Middle => 1 | Button_Right => 2 end.

Definition button_code (k : ClientMouseKind) : N :=
  match k with
  | Mouse_Down b | Mouse_Up b => held_button b
  | Mouse_Drag b => held_button b + 32
  | Mouse_Moved => 3 + 32
  | Mouse_ScrollUp => 64
  | Mouse_ScrollDown => 65
  | Mouse_ScrollLeft => 66
  | Mouse_ScrollRight => 67
  end.

Definition mouse_wanted (reporting : MouseReporting) (k : ClientMouseKind) : bool :=
  match reporting, k with
  | _, (Mouse_Down _ | Mouse_Up _) => true
  | _, (Mouse_ScrollUp | Mouse_ScrollDown | Mouse_ScrollLeft | Mouse_ScrollRight) => true
  | Report_Click, _ => false
  | Report_Drag, Mouse_Drag _ => true
  | Report_Drag, _ => false
  | _, _ => true
  end.

Definition position_cell (p : ClientMousePosition) : N * N :=
  match p with Pos_Cell column row | Pos_Pixels _ _ column row => (column, row) end.

Definition mouse_modifier_bits (m : N) : N :=
  4 * b2n (has m SHIFT) + 8 * b2n (has m ALT) + 16 * b2n (has m CONTROL).

Definition is_up (k : ClientMouseKind) : bool := match k with Mouse_Up _ => true | _ => false end.

Definition mouse_encode (k : ClientMouseKind) (position : ClientMousePosition) (m lines : N) (modes : Modes)
    : list N :=
  match mouse modes with
  | Report_Off => alternate_scroll_keys k lines modes
  | reporting =>
      if negb (mouse_wanted reporting k) then []
      else
        let '(column, row) := position_cell position in
        let times := if is_scroll k then repeats lines else 1%nat in
        let bits := mouse_modifier_bits m in
        match mouse_encoding modes with
        | Enc_Sgr =>
            repeat_bytes times
              ((ESC :: lit "[<") ++ dec (button_code k + bits) ++ [semi] ++ dec (column + 1) ++ [semi]
               ++ dec (row + 1) ++ (if is_up k then lit "m" else lit "M"))
        | encoding =>
            let button := (if is_up k then 3 else button_code k) + bits in
            match mouse_legacy button column row encoding with
            | None => []
            | Some report => repeat_bytes times report
            end
        end
  end.

(** *** Pastes and the entry point (input.rs) *)

(** [replace] of carriage return and line feed by a carriage return. *)
Fixpoint replace_crlf (s : str) : str :=
  match s with
  | 13 :: ((10 :: s) as t) => 13 :: replace_crlf s
  | c :: s => c :: replace_crlf s
  | [] => []
  end.

Definition paste (s : str) (modes : Modes) : list N :=
  if negb (bracketed_paste modes)
  then as_bytes ((λ c, if c =? 10 then 13 else c) <$> replace_crlf s)
  else PASTE_START ++ filter (λ b, b ≠ ESC) (as_bytes s) ++ PASTE_END.

(** [input::encode]. *)
Definition encode (input : ClientPaneInputEvent) (modes : Modes) : list N :=
  match input with
  | Input_Key code m kind count shifted generated _ _ record =>
      keys_encode (MkKey code m kind count (shifted ≫= char_from_u32) generated record) modes
  | Input_TextCommit s => as_bytes s
  | Input_Mouse k position _ m lines => mouse_encode k position m lines modes
  | Input_Paste s => paste s modes
  end.
End encode.

(** ** Pastes *)

Lemma utf8_char_low c b : b < 128 → b ∈ utf8_char c → b = c.
Proof.
  intros Hb. unfold utf8_char. pose proof (N.le_0_l (c / 64)). pose proof (N.le_0_l (c / 4096)).
  pose proof (N.le_0_l (c / 262144)). pose proof (N.le_0_l (c mod 64)).
  pose proof (N.le_0_l ((c / 64) mod 64)). pose proof (N.le_0_l ((c / 4096) mod 64)).
  destruct (c <? 128); [set_solver|].
  destruct (c <? 2048); [|destruct (c <? 65536)]; rewrite !elem_of_cons, elem_of_nil; lia.
Qed.

(** An ASCII byte of a text is one of its characters. *)
Lemma as_bytes_low s b : b < 128 → b ∈ as_bytes s → b ∈ s.
Proof.
  intros Hb. unfold as_bytes. rewrite list_elem_of_bind. intros (c & Hc & Hin).
  by rewrite (utf8_char_low c b).
Qed.

(** A bracketed paste is the start mark, text without a single ESC, and
    the end mark, so pasted text can neither end the paste early nor start an
    escape sequence. A plain paste sends no line feed: every line end is the
    carriage return Enter sends. *)
Theorem paste_safe `{CaseMapping} (s : str) (modes : Modes) :
  if bracketed_paste modes
  then ∃ body, encode (Input_Paste s) modes = PASTE_START ++ body ++ PASTE_END ∧
         (ESC ∉ body) ∧ body = filter (λ b, b ≠ ESC) (as_bytes s)
  else 10 ∉ encode (Input_Paste s) modes.
Proof.
  unfold encode, paste. destruct (bracketed_paste modes); simpl negb; cbn iota.
  - eexists. split; [done|]. split; [|done]. rewrite list_elem_of_filter. naive_solver.
  - intros Hin%as_bytes_low; [|done]. apply list_elem_of_fmap in Hin as (c & Hc & _).
    destruct (N.eqb_spec c 10); congruence.
Qed.

(** A key release sends nothing unless the program asked for Win32
    records or for kitty event types. *)
Theorem release_silent `{CaseMapping} (modes : Modes) code m count shifted generated tracks physical record :
  win32_input modes = false →
  reports_key_releases modes = false →
  encode (Input_Key code m Kind_Release count shifted generated tracks physical record) modes = [].
Proof.
  intros Hw Hr. unfold encode, keys_encode. rewrite Hw. simpl.
  destruct (negb _); [|done]. unfold kitty_encode. unfold reports_key_releases in Hr. by rewrite Hr.
Qed.

(** ** Reading reports back *)

(** The digits a text starts with, and what follows. *)
Fixpoint span_digits (s : str) : str * str :=
  match s with
  | c :: t => if is_ascii_digit c then let '(d, r) := span_digits t in (c :: d, r) else ([], s)
  | [] => ([], [])
  end.

(** A decimal number at the front of a text. *)
Definition take_number (s : str) : option (N * str) :=
  let '(d, r) := span_digits s in
  match d with [] => None | _ => Some (dval 0 d, r) end.

Lemma span_digits_app d c r :
  Forall (λ c, is_ascii_digit c = true) d → is_ascii_digit c = false →
  span_digits (d ++ c :: r) = (d, c :: r).
Proof.
  intros Hd Hc. induction Hd as [|x d Hx Hd IH]; simpl; [by rewrite Hc|]. by rewrite Hx, IH.
Qed.

Lemma take_number_dec n c r :
  is_ascii_digit c = false → take_number (dec n ++ c :: r) = Some (n, c :: r).
Proof.
  intros Hc. unfold take_number. rewrite span_digits_app by (done || apply dec_digits).
  destruct (dec n) eqn:E; [by apply dec_nonempty in E|]. by rewrite <-E, dec_dval.
Qed.

(** [CSI code ; parameter : event u], with a missing parameter or event read as 1,
    as the kitty protocol defines it. *)
Definition read_csi_u (bytes : list N) : option (N * N * N) :=
  match bytes with
  | 27 :: 91 :: rest =>
      '(code, rest) ← take_number rest;
      match rest with
      | [117] => Some (code, 1, 1)
      | 59 :: rest =>
          '(parameter, rest) ← take_number rest;
          match rest with
          | [117] => Some (code, parameter, 1)
          | 58 :: rest =>
              '(event, rest) ← take_number rest;
              match rest with [117] => Some (code, parameter, event) | _ => None end
          | _ => None
          end
      | _ => None
      end
  | _ => None
  end.

#[local] Arguments dec : simpl never.
#[local] Arguments take_number : simpl never.

Lemma csi_u_roundtrip code parameter event : read_csi_u (csi_u code parameter event) = Some (code, parameter, event).
Proof.
  unfold csi_u, fields, semi. change (lit "[") with [91]. change (lit "u") with [117]. change (lit ":") with [58].
  destruct (N.eqb_spec event 1) as [->|He]; [destruct (N.eqb_spec parameter 1) as [->|Hp]|]; simpl.
  - by rewrite take_number_dec.
  - rewrite take_number_dec by done. simpl. by rewrite take_number_dec.
  - rewrite take_number_dec by done. simpl. rewrite <-app_assoc. simpl.
    rewrite take_number_dec by done. simpl. by rewrite take_number_dec.
Qed.

(** The modifier bits behind kitty's parameter. *)
Definition modifiers_of (parameter : N) : N :=
  foldl (λ m '(bit, value), if has (parameter - 1) value then N.lor m bit else m) 0
    [(SHIFT, 1); (ALT, 2); (CONTROL, 4); (SUPER, 8); (HYPER, 16); (META, 32)].

(** The six modifiers fit one byte of cases. *)
Lemma kitty_modifier_roundtrip m : m < 64 → modifiers_of (kitty_modifier m) = m.
Proof.
  intros Hm.
  assert (Forall (λ m, modifiers_of (kitty_modifier m) = m) (N.of_nat <$> seq 0 64)) as H.
  { apply (bool_decide_unpack _). vm_compute. exact I. }
  rewrite Forall_forall in H. apply H. apply list_elem_of_fmap. exists (N.to_nat m).
  split; [lia|]. apply elem_of_seq. lia.
Qed.

(** The kitty code of the keys it reports as [CSI u], with every key reported. *)
Definition kitty_code `{CaseMapping} (c : ClientKeyCode) : option N :=
  match c with
  | Key_Esc => Some 27
  | Key_Enter => Some 13
  | Key_Tab => Some 9
  | Key_Backspace => Some 127
  | Key_Null => Some 0
  | Key_Char c => Some (single_case to_lowercase c)
  | Key_F n => if (13 <=? n) && (n <=? 35) then Some (F13 + (n - 13)) else None
  | _ => None
  end.

Definition event_type (k : ClientKeyKind) : N :=
  match k with Kind_Press => 1 | Kind_Repeat => 2 | Kind_Release => 3 end.

(** A program that asked for every key with event types reads back
    which key it was, exactly which modifiers were held, and whether it was
    pressed, repeated or released. *)
Theorem kitty_event_roundtrip `{CaseMapping} (modes : Modes) code n m kind count shifted generated tracks
    physical record :
  win32_input modes = false →
  reports_key_releases modes = true → reports_every_key modes = true →
  kitty_code code = Some n → m < 64 →
  ∃ parameter,
    read_csi_u (encode (Input_Key code m kind count shifted generated tracks physical record) modes)
      = Some (n, parameter, event_type kind) ∧
    modifiers_of parameter = m.
Proof.
  intros Hw Hev Hall Hcode Hm. exists (kitty_modifier m). split; [|by apply kitty_modifier_roundtrip].
  unfold encode, keys_encode. rewrite Hw. simpl windows. cbn iota.
  unfold reports_key_releases, reports_every_key in *.
  destruct (N.eqb_spec (kitty_keyboard modes) 0) as [E|_]; [by rewrite E in Hev|]. cbn [negb].
  unfold kitty_encode. rewrite Hev, Hall. cbn [Input.kind Input.code Input.modifiers negb andb].
  rewrite andb_false_r, orb_true_r. cbn [repeat_bytes].
  assert (∀ p, match kind with Kind_Repeat => 2 | Kind_Release => 3 | _ => 1 end = event_type kind →
    read_csi_u (csi_u n p (match kind with Kind_Repeat => 2 | Kind_Release => 3 | _ => 1 end) ++ [])
    = Some (n, p, event_type kind)) as Hu.
  { intros p ->. rewrite app_nil_r. apply csi_u_roundtrip. }
  assert (match kind with Kind_Repeat => 2 | Kind_Release => 3 | _ => 1 end = event_type kind) as He by by destruct kind.
  destruct code; simpl in Hcode; simplify_eq; try (by apply Hu).
  destruct ((13 <=? v) && (v <=? 35)) eqn:Hv; simplify_eq. rewrite andb_true_iff, !N.leb_le in Hv.
  destruct (N.leb_spec v 4); [lia|]. rewrite andb_false_r. by apply Hu.
Qed.

(** [CSI < button ; column ; row M|m]. *)
Definition read_sgr (bytes : list N) : option (N * N * N * bool) :=
  match bytes with
  | 27 :: 91 :: 60 :: rest =>
      '(b, rest) ← take_number rest;
      match rest with
      | 59 :: rest =>
          '(x, rest) ← take_number rest;
          match rest with
          | 59 :: rest =>
              '(y, rest) ← take_number rest;
              match rest with
              | [77] => Some (b, x, y, false)
              | [109] => Some (b, x, y, true)
              | _ => None
              end
          | _ => None
          end
      | _ => None
      end
  | _ => None
  end.

(** [CSI M button column row], one byte each. *)
Definition read_x10 (bytes : list N) : option (N * N * N) :=
  match bytes with
  | [27; 91; 77; b; x; y] => Some (b - 32, x - 32, y - 32)
  | _ => None
  end.

Lemma sgr_roundtrip b x y (up : bool) :
  read_sgr ((ESC :: lit "[<") ++ dec b ++ [semi] ++ dec x ++ [semi] ++ dec y ++ (if up then lit "m" else lit "M"))
  = Some (b, x, y, up).
Proof.
  unfold semi. change (lit "[<") with [91; 60]. change (lit "m") with [109]. change (lit "M") with [77].
  simpl. rewrite take_number_dec by done. simpl. rewrite take_number_dec by done. simpl.
  destruct up; by rewrite take_number_dec.
Qed.

Lemma button_code_bound k : button_code k ≤ 67.
Proof. destruct k as [[]|[]|[]| | | | |]; simpl; lia. Qed.

Lemma modifier_bits_bound m : mouse_modifier_bits m ≤ 28.
Proof.
  unfold mouse_modifier_bits, b2n. destruct (has m SHIFT), (has m ALT), (has m CONTROL); simpl; lia.
Qed.

Lemma mouse_legacy_x10 button column row :
  button ≤ 95 →
  match mouse_legacy button column row Enc_X10 with
  | Some report => column ≤ X10_MAX ∧ row ≤ X10_MAX ∧ Forall is_byte report ∧
      read_x10 report = Some (button, column + 1, row + 1)
  | None => X10_MAX < column ∨ X10_MAX < row
  end.
Proof.
  intros Hb. unfold mouse_legacy, legacy_value, X10_MAX, u8_max in *.
  destruct (N.leb_spec column (255 - 32 - 1)); simpl; [|by left].
  destruct (N.leb_spec (column + 33) 255); simpl; [|lia].
  destruct (N.leb_spec row (255 - 32 - 1)); simpl; [|by right].
  destruct (N.leb_spec (row + 33) 255); simpl; [|lia].
  split_and!; [lia|lia| |].
  - rewrite !Forall_cons_iff. unfold is_byte. split_and!; [done|done|done|lia|lia|lia|by constructor].
  - f_equal. f_equal; [f_equal|]; lia.
Qed.

Lemma mouse_legacy_utf8 button column row :
  UTF8_MAX < column ∨ UTF8_MAX < row → mouse_legacy button column row Enc_Utf8 = None.
Proof.
  intros Hout. unfold mouse_legacy, legacy_value.
  destruct (N.leb_spec column UTF8_MAX); simpl; [|done]. destruct (char_from_u32 (column + 33)); simpl; [|done].
  destruct (N.leb_spec row UTF8_MAX); simpl; [lia|done].
Qed.

(** A single report, once the program wants the event. *)
Lemma mouse_encode_wanted k position m lines modes column row :
  mouse modes ≠ Report_Off → mouse_wanted (mouse modes) k = true → is_scroll k = false →
  position_cell position = (column, row) →
  mouse_encode k position m lines modes =
    match mouse_encoding modes with
    | Enc_Sgr =>
        (ESC :: lit "[<") ++ dec (button_code k + mouse_modifier_bits m) ++ [semi] ++ dec (column + 1) ++ [semi]
        ++ dec (row + 1) ++ (if is_up k then lit "m" else lit "M")
    | encoding =>
        default [] (mouse_legacy ((if is_up k then 3 else button_code k) + mouse_modifier_bits m) column row encoding)
    end.
Proof.
  intros Hoff Hwant Hscroll Hpos. unfold mouse_encode.
  destruct (mouse modes); [done|..]; rewrite Hwant, Hpos, Hscroll; cbn [negb repeat_bytes];
    (destruct (mouse_encoding modes); [| |by rewrite app_nil_r]); destruct (mouse_legacy _ _ _ _); simpl; by rewrite ?app_nil_r.
Qed.

(** A mouse event the program asked for reads back as the same button,
    modifiers, column and row (counted from one). Past column or row 222 the
    one-byte encoding sends nothing rather than a wrong position, and its bytes
    never overflow. *)
Theorem mouse_report_roundtrip `{CaseMapping} (modes : Modes) k position geometry m lines column row :
  mouse modes ≠ Report_Off →
  mouse_wanted (mouse modes) k = true → is_scroll k = false →
  position_cell position = (column, row) →
  let report := encode (Input_Mouse k position geometry m lines) modes in
  match mouse_encoding modes with
  | Enc_Sgr =>
      read_sgr report = Some (button_code k + mouse_modifier_bits m, column + 1, row + 1, is_up k)
  | Enc_X10 =>
      if (column <=? X10_MAX) && (row <=? X10_MAX) then
        Forall is_byte report ∧
        read_x10 report = Some ((if is_up k then 3 else button_code k) + mouse_modifier_bits m, column + 1, row + 1)
      else report = []
  | Enc_Utf8 => (UTF8_MAX < column ∨ UTF8_MAX < row) → report = []
  end.
Proof.
  intros Hoff Hwant Hscroll Hpos. cbn zeta. unfold encode.
  rewrite (mouse_encode_wanted _ _ _ _ _ column row) by done.
  pose proof (button_code_bound k). pose proof (modifier_bits_bound m).
  destruct (mouse_encoding modes).
  - pose proof (mouse_legacy_x10 ((if is_up k then 3 else button_code k) + mouse_modifier_bits m) column row) as Hx.
    destruct (mouse_legacy _ _ _ _) as [report|]; simpl.
    + destruct Hx as (Hc & Hr & Hx); [destruct (is_up k); lia|]. by rewrite !(proj2 (N.leb_le _ _)) by done.
    + destruct (N.leb_spec column X10_MAX), (N.leb_spec row X10_MAX); simpl; try done.
      exfalso. destruct Hx; [destruct (is_up k)|..]; lia.
  - intros Hout. by rewrite mouse_legacy_utf8.
  - apply sgr_roundtrip.
Qed.

(** ** Concrete events *)

Definition ascii_case : CaseMapping :=
  {| to_uppercase c := [to_ascii_uppercase c]; to_lowercase c := [to_ascii_lowercase c] |}.

Definition modes_default : Modes :=
  MkModes false false false false false false 0 false Report_Off Enc_X10 false.

Definition kitty_modes : Modes :=
  MkModes false false false false false false 10 false Report_Drag Enc_X10 false.

Definition key_event (code : ClientKeyCode) (m : N) (kind : ClientKeyKind) : ClientPaneInputEvent :=
  Input_Key code m kind 1 None None false None None.

Example encode_examples :
  @encode ascii_case (key_event (Key_Char 97) 0 Kind_Press) modes_default = lit "a" ∧
  @encode ascii_case (key_event (Key_Char 99) 2 Kind_Press) modes_default = [3] ∧
  @encode ascii_case (key_event Key_Up 5 Kind_Press) modes_default = ESC :: lit "[1;4A" ∧
  @encode ascii_case (key_event (Key_F 5) 0 Kind_Press) modes_default = ESC :: lit "[15~".
Proof. by vm_compute. Qed.

Lemma release_silent_witness :
  @encode ascii_case (key_event (Key_Char 97) 0 Kind_Release) modes_default = [].
Proof. apply (@release_silent ascii_case); reflexivity. Defined.

Lemma kitty_event_roundtrip_witness :
  ∃ parameter,
    read_csi_u (@encode ascii_case (key_event (Key_Char 65) 3 Kind_Release) kitty_modes) = Some (97, parameter, 3) ∧
    modifiers_of parameter = 3.
Proof. apply (@kitty_event_roundtrip ascii_case kitty_modes (Key_Char 65) 97 3 Kind_Release); reflexivity. Defined.

Lemma mouse_report_roundtrip_witness :
  let report := @encode ascii_case (Input_Mouse (Mouse_Drag Button_Right) (Pos_Cell 9 222) None 4 1) kitty_modes in
  Forall is_byte report ∧ read_x10 report = Some (42, 10, 223).
Proof.
  assert (mouse kitty_modes ≠ Report_Off) as Hne by (vm_compute; discriminate).
  exact (@mouse_report_roundtrip ascii_case kitty_modes (Mouse_Drag Button_Right) (Pos_Cell 9 222) None 4 1 9 222
    Hne eq_refl eq_refl eq_refl).
Defined.
End Input.
