(* ===== verification/CoreFrame.v ===== *)
(** * CoreFrame: herdr-core's frames, event lines and handshake
    (crates/sheprd-core-client/src/frame.rs, event.rs [Lines], hello.rs,
    method.rs and the decode loop of connection.rs)

    Bytes arrive in arbitrary reads. The decoder and the line splitter keep what
    is not whole yet; both are shown to give what one read of everything would. *)

From Stdlib Require Import ZArith NArith Lia.
From stdpp Require Import base option strings sets list.
From S2P Require Import Prelude.

Local Open Scope N_scope.

Module CoreFrame.

Definition HEADER : nat := 9.
Definition MAX_PAYLOAD : N := 16 * 1024 * 1024.

Inductive Error :=
| TooLarge (len : N)
| UnknownKind (kind : N).

Inductive Kind := Data | Credit | Close | Resize | Focus | Facts.

#[export] Instance Kind_eq_dec : EqDecision Kind.
Proof. solve_decision. Defined.

(** [From<Kind> for u8] and [TryFrom<u8> for Kind]. *)
Definition kind_to_u8 (k : Kind) : N :=
  match k with Data => 0 | Credit => 1 | Close => 2 | Resize => 3 | Focus => 4 | Facts => 5 end.

Definition kind_try_from (value : N) : res Error Kind :=
  match value with
  | 0 => Ok Data | 1 => Ok Credit | 2 => Ok Close | 3 => Ok Resize | 4 => Ok Focus | 5 => Ok Facts
  | other => Err (UnknownKind other)
  end.

Record Frame := MkFrame { channel : N; kind : Kind; payload : list N }.

Definition encode (channel : N) (kind : Kind) (payload : list N) : res Error (list N) :=
  if (lenN payload <=? u32_max) && (lenN payload <=? MAX_PAYLOAD) then
    Ok (le_bytes 4 channel ++ [kind_to_u8 kind] ++ le_bytes 4 (lenN payload) ++ payload)
  else Err (TooLarge (lenN payload)).

(** *** The decoder *)

Record Decoder := MkDecoder { buffer : list N; start : nat }.

Definition decoder_default : Decoder := MkDecoder [] 0.

(** [drain(..start)] panics when [start] is past the end. *)
Definition push (d : Decoder) (bytes : list N) : option Decoder :=
  if (0 <? start d)%nat && (length (buffer d) / 2 <=? start d)%nat then
    if (start d <=? length (buffer d))%nat
    then Some (MkDecoder (drop (start d) (buffer d) ++ bytes) 0) else None
  else Some (MkDecoder (buffer d ++ bytes) (start d)).

Definition next_frame (d : Decoder) : option (Decoder * res Error (option Frame)) :=
  ready ← slice (start d) (length (buffer d)) (buffer d);
  if (length ready <? HEADER)%nat then Some (d, Ok None)
  else
    let header := take HEADER ready in
    let channel := le_val (take 4 header) in
    match kind_try_from (nth 4 header 0) with
    | Err e => Some (d, Err e)
    | Ok kind =>
        let len := le_val (take 4 (drop 5 header)) in
        if MAX_PAYLOAD <? len then Some (d, Err (TooLarge len))
        else if (length ready <? HEADER + N.to_nat len)%nat then Some (d, Ok None)
        else
          let payload := take (N.to_nat len) (drop HEADER ready) in
          Some (MkDecoder (buffer d) (start d + HEADER + N.to_nat len),
                Ok (Some (MkFrame channel kind payload)))
    end.

(** [pending]; the subtraction would panic on an overrun. *)
Definition pending (d : Decoder) : option nat :=
  if (start d <=? length (buffer d))%nat then Some (length (buffer d) - start d)%nat else None.

(** [while let Some(frame) = self.decoder.next_frame()?]: the frames, and the
    error that ends the connection. A frame takes at least its header. *)
Fixpoint drain (fuel : nat) (d : Decoder) : option (Decoder * list Frame * option Error) :=
  match fuel with
  | O => None
  | S fuel =>
      '(d, r) ← next_frame d;
      match r with
      | Err e => Some (d, [], Some e)
      | Ok None => Some (d, [], None)
      | Ok (Some frame) => '(d, frames, e) ← drain fuel d; Some (d, frame :: frames, e)
      end
  end.

(** One read of the worker: push, then every whole frame. *)
Definition read_step (d : Decoder) (bytes : list N) : option (Decoder * list Frame * option Error) :=
  d ← push d bytes;
  drain (S (length (buffer d))) d.

(** Reads until the first error. *)
Fixpoint read_all (d : Decoder) (chunks : list (list N)) : option (Decoder * list Frame * option Error) :=
  match chunks with
  | [] => Some (d, [], None)
  | c :: chunks =>
      '(d, frames, e) ← read_step d c;
      match e with
      | Some e => Some (d, frames, Some e)
      | None => '(d, frames', e) ← read_all d chunks; Some (d, frames ++ frames', e)
      end
  end.

(** ** The bytes not decoded yet *)

Definition ready (d : Decoder) : list N := drop (start d) (buffer d).
Definition dec_wf (d : Decoder) : Prop := (start d ≤ length (buffer d))%nat.

(** The first frame of a byte string and what follows it. *)
Definition parse (l : list N) : res Error (option (Frame * list N)) :=
  if (length l <? HEADER)%nat then Ok None
  else match kind_try_from (nth 4 l 0) with
       | Err e => Err e
       | Ok kind =>
           let len := le_val (take 4 (drop 5 l)) in
           if MAX_PAYLOAD <? len then Err (TooLarge len)
           else if (length l <? HEADER + N.to_nat len)%nat then Ok None
           else Ok (Some (MkFrame (le_val (take 4 l)) kind (take (N.to_nat len) (drop HEADER l)),
                          drop (HEADER + N.to_nat len) l))
       end.

(** Every frame of a byte string, what is left, and an error if one ends it. *)
Fixpoint parse_all (fuel : nat) (l : list N) : list Frame * list N * option Error :=
  match fuel with
  | O => ([], l, None)
  | S fuel =>
      match parse l with
      | Err e => ([], l, Some e)
      | Ok None => ([], l, None)
      | Ok (Some (f, rest)) => let '(fs, rest, e) := parse_all fuel rest in (f :: fs, rest, e)
      end
  end.

Lemma push_ready d bytes :
  dec_wf d → ∃ d', push d bytes = Some d' ∧ dec_wf d' ∧ ready d' = ready d ++ bytes.
Proof.
  unfold push, dec_wf, ready. intros Hwf. destruct (_ && _).
  - rewrite (proj2 (Nat.leb_le _ _) Hwf). eexists. split; [done|]. simpl. split; [lia|]. by rewrite drop_0.
  - eexists. split; [done|]. simpl. rewrite length_app. split; [lia|]. by apply drop_app_le.
Qed.

Lemma header_take (l : list N) :
  (HEADER ≤ length l)%nat →
  nth 4 (take HEADER l) 0 = nth 4 l 0 ∧ take 4 (take HEADER l) = take 4 l ∧
  take 4 (drop 5 (take HEADER l)) = take 4 (drop 5 l).
Proof.
  unfold HEADER. intros Hl. do 9 (destruct l as [|? l]; [simpl in Hl; lia|]). done.
Qed.

(** [next_frame] is [parse] of the bytes not decoded yet. *)
Lemma next_frame_parse d :
  dec_wf d →
  ∃ d', dec_wf d' ∧
    match parse (ready d) with
    | Err e => next_frame d = Some (d', Err e) ∧ ready d' = ready d
    | Ok None => next_frame d = Some (d', Ok None) ∧ ready d' = ready d
    | Ok (Some (f, rest)) => next_frame d = Some (d', Ok (Some f)) ∧ ready d' = rest
    end.
Proof.
  intros Hwf. unfold next_frame, parse, slice. unfold dec_wf in *.
  rewrite (proj2 (Nat.leb_le _ _) Hwf), Nat.leb_refl. cbn [andb mbind option_bind].
  rewrite (take_ge (drop (start d) (buffer d)) (length (buffer d) - start d)) by (rewrite length_drop; lia).
  fold (ready d). destruct (Nat.ltb_spec (length (ready d)) HEADER) as [|Hh]; [by exists d|].
  destruct (header_take (ready d) Hh) as (-> & -> & ->).
  destruct (kind_try_from _) as [k|e]; [|by exists d].
  destruct (_ <? le_val _); [by exists d|].
  set (n := N.to_nat (le_val (take 4 (drop 5 (ready d))))).
  destruct (Nat.ltb_spec (length (ready d)) (HEADER + n)) as [|Hlen]; [by exists d|].
  exists (MkDecoder (buffer d) (start d + HEADER + n)). cbn [buffer start]. split; [|split; [done|]].
  - assert (length (ready d) = length (buffer d) - start d)%nat by apply length_drop. lia.
  - unfold ready at 1. cbn [buffer start]. rewrite <-Nat.add_assoc, <-drop_drop. done.
Qed.

(** More bytes never change a frame that was whole, nor a bad header. *)
Lemma parse_app l k :
  match parse l with
  | Err e => parse (l ++ k) = Err e
  | Ok (Some (f, rest)) => parse (l ++ k) = Ok (Some (f, rest ++ k))
  | Ok None => True
  end.
Proof.
  unfold parse. destruct (Nat.ltb_spec (length l) HEADER) as [|Hh]; [done|].
  rewrite length_app. destruct (Nat.ltb_spec (length l + length k) HEADER); [lia|].
  assert (nth 4 (l ++ k) 0 = nth 4 l 0) as -> by (apply app_nth1; unfold HEADER in Hh; lia).
  unfold HEADER in Hh.
  assert (take 4 (drop 5 (l ++ k)) = take 4 (drop 5 l)) as ->.
  { rewrite drop_app_le by lia. apply take_app_le. rewrite length_drop. lia. }
  rewrite (take_app_le l k 4) by lia.
  destruct (kind_try_from _) as [kd|]; [|done]. destruct (_ <? le_val _); [done|].
  set (n := N.to_nat (le_val (take 4 (drop 5 l)))).
  destruct (Nat.ltb_spec (length l) (HEADER + n)) as [|Hlen]; [done|].
  destruct (Nat.ltb_spec (length l + length k) (HEADER + n)); [lia|].
  rewrite (drop_app_le l k HEADER) by (unfold HEADER; lia).
  rewrite take_app_le by (rewrite length_drop; lia). by rewrite drop_app_le by lia.
Qed.

Lemma parse_rest l f rest : parse l = Ok (Some (f, rest)) → (HEADER + length rest ≤ length l)%nat.
Proof.
  unfold parse. destruct (_ <? _)%nat; [done|]. destruct (kind_try_from _); [|done].
  destruct (_ <? le_val _); [done|]. generalize (N.to_nat (le_val (take 4 (drop 5 l)))). intros n.
  destruct (Nat.ltb_spec (length l) (HEADER + n)); [done|].
  intros Hr. assert (rest = drop (HEADER + n) l) as -> by congruence. rewrite length_drop. lia.
Qed.

(** Enough fuel is one turn per byte and one more; more changes nothing. *)
Lemma parse_all_fuel n m l :
  (length l < n)%nat → (length l < m)%nat → parse_all n l = parse_all m l.
Proof.
  revert m l. induction n as [|n IH]; intros m l Hn Hm; [lia|]. destruct m as [|m]; [lia|].
  cbn [parse_all]. destruct (parse l) as [[[f rest]|]|] eqn:E; try done.
  apply parse_rest in E. unfold HEADER in E. by rewrite (IH m rest) by lia.
Qed.

Definition frames_of (l : list N) : list Frame * list N * option Error := parse_all (S (length l)) l.

Lemma frames_of_eq l :
  frames_of l = match parse l with
    | Err e => ([], l, Some e)
    | Ok None => ([], l, None)
    | Ok (Some (f, rest)) => let '(fs, rest, e) := frames_of rest in (f :: fs, rest, e)
    end.
Proof.
  unfold frames_of. cbn [parse_all]. destruct (parse l) as [[[f rest]|]|] eqn:E; try done.
  apply parse_rest in E. unfold HEADER in E. by rewrite (parse_all_fuel (length l) (S (length rest))) by lia.
Qed.

Lemma drain_frames fuel d :
  dec_wf d → (length (ready d) < fuel)%nat →
  ∃ d', dec_wf d' ∧ let '(fs, rest, e) := frames_of (ready d) in
    drain fuel d = Some (d', fs, e) ∧ ready d' = rest.
Proof.
  revert d. induction fuel as [|fuel IH]; intros d Hwf Hlen; [lia|]. rewrite frames_of_eq.
  destruct (next_frame_parse d Hwf) as (d1 & Hwf1 & Hn). cbn [drain].
  destruct (parse (ready d)) as [[[f rest]|]|e] eqn:E.
  - destruct Hn as [-> Hr]. cbn [mbind option_bind]. apply parse_rest in E. unfold HEADER in E.
    destruct (IH d1 Hwf1) as (d2 & Hwf2 & H2); [rewrite Hr; lia|]. rewrite Hr in H2.
    destruct (frames_of rest) as [[fs rest'] e']. destruct H2 as [-> H2]. by exists d2.
  - destruct Hn as [-> Hr]. by exists d1.
  - destruct Hn as [-> Hr]. by exists d1.
Qed.

(** The frames of two reads are the frames of one, unless the first one failed. *)
Lemma frames_of_app l k :
  let '(fs, rest, e) := frames_of l in
  match e with
  | Some e => ∃ rest', frames_of (l ++ k) = (fs, rest', Some e)
  | None => let '(fs', rest', e') := frames_of (rest ++ k) in frames_of (l ++ k) = (fs ++ fs', rest', e')
  end.
Proof.
  remember (length l) as n eqn:Hn. revert l Hn.
  induction n as [n IH] using lt_wf_ind; intros l ->. rewrite (frames_of_eq l).
  pose proof (parse_app l k) as Hp. destruct (parse l) as [[[f rest]|]|e] eqn:E.
  - pose proof (parse_rest _ _ _ E) as Hr. unfold HEADER in Hr.
    specialize (IH (length rest) ltac:(lia) rest eq_refl). rewrite (frames_of_eq (l ++ k)), Hp.
    destruct (frames_of rest) as [[fs rest1] [e1|]].
    + destruct IH as [rest' ->]. by exists rest'.
    + destruct (frames_of (rest1 ++ k)) as [[fs' rest'] e']. by rewrite IH.
  - by destruct (frames_of (l ++ k)) as [[fs' rest'] e'].
  - exists (l ++ k). by rewrite (frames_of_eq (l ++ k)), Hp.
Qed.

Lemma read_step_frames d c :
  dec_wf d → ∃ d', dec_wf d' ∧ let '(fs, rest, e) := frames_of (ready d ++ c) in
    read_step d c = Some (d', fs, e) ∧ ready d' = rest.
Proof.
  intros Hwf. unfold read_step. destruct (push_ready d c Hwf) as (d1 & -> & Hwf1 & Hr). cbn [mbind option_bind].
  rewrite <-Hr. apply drain_frames; [done|]. unfold ready. rewrite length_drop. lia.
Qed.

Lemma read_all_frames chunks d :
  dec_wf d → frames_of (ready d) = ([], ready d, None) →
  ∃ d' fs e, read_all d chunks = Some (d', fs, e) ∧
    let '(fs', rest, e') := frames_of (ready d ++ concat chunks) in
    fs = fs' ∧ e = e' ∧ (e = None → ready d' = rest).
Proof.
  revert d. induction chunks as [|c chunks IH]; intros d Hwf Hd; cbn [read_all concat].
  { rewrite app_nil_r, Hd. by exists d, [], None. }
  destruct (read_step_frames d c Hwf) as (d1 & Hwf1 & H1).
  pose proof (frames_of_app (ready d ++ c) (concat chunks)) as Happ. rewrite <-app_assoc in Happ.
  pose proof (frames_of_app (ready d ++ c) []) as Hidem. rewrite app_nil_r in Hidem.
  destruct (frames_of (ready d ++ c)) as [[fs1 rest1] [e1|]]; destruct H1 as [-> Hr1]; cbn [mbind option_bind].
  - destruct Happ as [rest' ->]. by exists d1, fs1, (Some e1).
  - rewrite app_nil_r in Hidem. destruct (frames_of rest1) as [[fs2 rest2] e2] eqn:E2.
    injection Hidem as Hfs Hrest He. rewrite <-Hr1 in *.
    assert (fs2 = []) as -> by (apply (f_equal length) in Hfs; rewrite length_app in Hfs; destruct fs2; [done|simpl in Hfs; lia]).
    subst rest2 e2.
    destruct (IH d1 Hwf1 E2) as (d2 & fs3 & e3 & -> & H3). cbn [mbind option_bind].
    destruct (frames_of (ready d1 ++ concat chunks)) as [[fs' rest'] e'].
    rewrite Happ. destruct H3 as (-> & -> & H3). by exists d2, (fs1 ++ fs'), e'.
Qed.

Lemma kind_roundtrip k : kind_try_from (kind_to_u8 k) = Ok k.
Proof. by destruct k. Qed.

Lemma parse_encode f bytes k :
  encode (channel f) (kind f) (payload f) = Ok bytes → channel f ≤ u32_max →
  parse (bytes ++ k) = Ok (Some (f, k)).
Proof.
  unfold encode. destruct (_ && _) eqn:Hb; [|done]. intros He Hc.
  assert (bytes = le_bytes 4 (channel f) ++ [kind_to_u8 (kind f)] ++ le_bytes 4 (lenN (payload f)) ++ payload f)
    as -> by congruence. clear He.
  rewrite andb_true_iff, !N.leb_le in Hb. destruct Hb as [Hu32 Hmax].
  destruct f as [ch kd pl]. simpl channel in *. simpl kind. simpl payload in *.
  set (l := (le_bytes 4 ch ++ [kind_to_u8 kd] ++ le_bytes 4 (lenN pl) ++ pl) ++ k).
  assert (l = le_bytes 4 ch ++ (kind_to_u8 kd :: le_bytes 4 (lenN pl) ++ pl ++ k)) as Hl
    by (unfold l; by rewrite <-!app_assoc).
  assert (length l = (HEADER + length pl + length k)%nat) as Hlen.
  { rewrite Hl, length_app, length_le_bytes. cbn [length]. rewrite !length_app, length_le_bytes. unfold HEADER. lia. }
  assert (take 4 l = le_bytes 4 ch) as H4 by (rewrite Hl; apply take_app_length'; by rewrite length_le_bytes).
  assert (nth 4 l 0 = kind_to_u8 kd) as Hk.
  { rewrite Hl, app_nth2; rewrite length_le_bytes; [done|lia]. }
  assert (drop 5 l = le_bytes 4 (lenN pl) ++ pl ++ k) as H5.
  { rewrite Hl, drop_app_ge; rewrite length_le_bytes; [done|lia]. }
  assert (drop HEADER l = pl ++ k) as H9.
  { change HEADER with (5 + 4)%nat. rewrite <-drop_drop, H5. apply drop_app_length'. by rewrite length_le_bytes. }
  unfold parse. rewrite Hlen, Hk, kind_roundtrip, H5, H4.
  rewrite take_app_length' by (by rewrite length_le_bytes).
  rewrite !le_val_bytes4 by lia.
  destruct (Nat.ltb_spec (HEADER + length pl + length k) HEADER); [lia|].
  destruct (N.ltb_spec MAX_PAYLOAD (lenN pl)); [lia|].
  destruct (Nat.ltb_spec (HEADER + length pl + length k) (HEADER + N.to_nat (lenN pl))); [unfold lenN in *; lia|].
  rewrite <-drop_drop, H9. unfold lenN. rewrite Nat2N.id, take_app_length, drop_app_length. done.
Qed.

Lemma frames_of_encoded fs bytess :
  Forall2 (λ f b, encode (channel f) (kind f) (payload f) = Ok b) fs bytess →
  Forall (λ f, channel f ≤ u32_max) fs →
  frames_of (concat bytess) = (fs, [], None).
Proof.
  induction 1 as [|f b fs bs Hf _ IH]; intros Hc; [done|].
  apply Forall_cons_iff in Hc as [Hc Hcs]. cbn [concat].
  by rewrite frames_of_eq, (parse_encode f b _ Hf Hc), IH.
Qed.

Lemma read_all_wf chunks d d' fs e : dec_wf d → read_all d chunks = Some (d', fs, e) → dec_wf d'.
Proof.
  revert d fs. induction chunks as [|c chunks IH]; intros d fs Hwf; cbn [read_all]; [by intros [= <- _ _]|].
  destruct (read_step_frames d c Hwf) as (d1 & Hwf1 & H1).
  destruct (frames_of (ready d ++ c)) as [[fs1 rest1] [e1|]]; destruct H1 as [-> _]; cbn [mbind option_bind].
  - by intros [= <- _ _].
  - destruct (read_all d1 chunks) as [[[d2 fs2] e2]|] eqn:E; [|done]. intros [= <- _ <-]. by eapply IH.
Qed.

(** C37: However the bytes of a sequence of encoded frames are cut into
    reads, the decoder never panics, never reports an error, and yields exactly
    those frames in order with nothing pending. *)
Theorem frames_roundtrip (fs : list Frame) (bytess chunks : list (list N)) :
  Forall2 (λ f b, encode (channel f) (kind f) (payload f) = Ok b) fs bytess →
  Forall (λ f, channel f ≤ u32_max) fs →
  concat chunks = concat bytess →
  ∃ d, read_all decoder_default chunks = Some (d, fs, None) ∧ pending d = Some 0%nat.
Proof.
  intros Hf Hc He. destruct (read_all_frames chunks decoder_default) as (d & fs' & e & Hr & Hs); [unfold dec_wf; simpl; lia|done|].
  change (ready decoder_default) with (@nil N) in Hs. simpl app in Hs. rewrite He in Hs.
  rewrite (frames_of_encoded fs bytess Hf Hc) in Hs. destruct Hs as (-> & -> & Hd).
  exists d. split; [done|]. specialize (Hd eq_refl).
  assert (dec_wf d) as Hwf by (by eapply read_all_wf; [|exact Hr]; unfold dec_wf; simpl; lia).
  unfold pending. rewrite (proj2 (Nat.leb_le _ _) Hwf). f_equal. apply (f_equal length) in Hd.
  unfold ready in Hd. rewrite length_drop in Hd. simpl in Hd. lia.
Qed.

(** A credit frame cut in the middle of its header. *)
Lemma frames_roundtrip_witness :
  ∃ d, read_all decoder_default [[7; 0; 0]; [0; 1; 2; 0]; [0; 0; 9; 9; 0; 0; 0; 0; 0; 0; 0; 0; 0]]
       = Some (d, [MkFrame 7 Credit [9; 9]; MkFrame 0 Data []], None) ∧ pending d = Some 0%nat.
Proof.
  apply (frames_roundtrip [MkFrame 7 Credit [9; 9]; MkFrame 0 Data []]
    [[7; 0; 0; 0; 1; 2; 0; 0; 0; 9; 9]; [0; 0; 0; 0; 0; 0; 0; 0; 0]]).
  - repeat constructor.
  - repeat constructor; vm_compute; discriminate.
  - reflexivity.
Defined.

(** ** Event lines *)

Definition NEWLINE : N := 10.
Definition MAX_LINE : N := MAX_PAYLOAD.

Definition is_ascii_whitespace (b : N) : bool :=
  (b =? 32) || (b =? 9) || (b =? 10) || (b =? 12) || (b =? 13).

(** [split_inclusive] at newlines: every piece but the last ends in one. *)
Fixpoint split_inclusive (bytes : list N) : list (list N) :=
  match bytes with
  | [] => []
  | b :: bytes =>
      if b =? NEWLINE then [b] :: split_inclusive bytes
      else match split_inclusive bytes with
           | piece :: pieces => (b :: piece) :: pieces
           | [] => [[b]]
           end
  end.

(** The end of a line: it is kept unless it is blank. *)
Definition kept_line (line : list N) : list (list N) :=
  if forallb is_ascii_whitespace line then [] else [line].

(** One piece: the partial line and the lines it finished; [None] is [LongLine]. *)
Definition push_piece (partial piece : list N) : option (list N * list (list N)) :=
  let partial := partial ++ piece in
  if MAX_LINE + 1 <? lenN partial then None
  else match last partial with
       | Some b => if b =? NEWLINE then Some ([], kept_line (removelast partial)) else Some (partial, [])
       | None => Some (partial, [])
       end.

Fixpoint push_pieces (partial : list N) (pieces : list (list N)) : option (list N * list (list N)) :=
  match pieces with
  | [] => Some (partial, [])
  | piece :: pieces =>
      '(partial, ls) ← push_piece partial piece;
      '(partial, ls') ← push_pieces partial pieces;
      Some (partial, ls ++ ls')
  end.

(** [Lines::push]. *)
Definition lines_push (partial bytes : list N) : option (list N * list (list N)) :=
  push_pieces partial (split_inclusive bytes).

Fixpoint lines_push_all (partial : list N) (chunks : list (list N)) : option (list N * list (list N)) :=
  match chunks with
  | [] => Some (partial, [])
  | c :: chunks =>
      '(partial, ls) ← lines_push partial c;
      '(partial, ls') ← lines_push_all partial chunks;
      Some (partial, ls ++ ls')
  end.

(** The same one byte at a time. *)
Definition line_byte (partial : list N) (b : N) : option (list N * list (list N)) :=
  if MAX_LINE + 1 <? lenN (partial ++ [b]) then None
  else if b =? NEWLINE then Some ([], kept_line partial) else Some (partial ++ [b], []).

Fixpoint line_bytes (partial bytes : list N) : option (list N * list (list N)) :=
  match bytes with
  | [] => Some (partial, [])
  | b :: bytes =>
      '(partial, ls) ← line_byte partial b;
      '(partial, ls') ← line_bytes partial bytes;
      Some (partial, ls ++ ls')
  end.

Lemma line_bytes_app p a b :
  line_bytes p (a ++ b) =
    '(p, ls) ← line_bytes p a; '(p, ls') ← line_bytes p b; Some (p, ls ++ ls').
Proof.
  revert p. induction a as [|x a IH]; intros p; simpl.
  - destruct (line_bytes p b) as [[? ?]|]; done.
  - destruct (line_byte p x) as [[p1 l1]|]; simpl; [|done]. rewrite IH.
    destruct (line_bytes p1 a) as [[p2 l2]|]; simpl; [|done].
    destruct (line_bytes p2 b) as [[p3 l3]|]; simpl; [|done]. by rewrite app_assoc.
Qed.

(** Bytes without a newline only grow the partial line. *)
Lemma line_bytes_plain p a :
  Forall (λ b, b ≠ NEWLINE) a →
  line_bytes p a = if (MAX_LINE + 1 <? lenN (p ++ a)) && negb (bool_decide (a = [])) then None else Some (p ++ a, []).
Proof.
  intros Ha. revert p. induction Ha as [|b a Hb Ha IH]; intros p; simpl.
  { rewrite andb_false_r, app_nil_r. done. }
  rewrite andb_true_r. unfold line_byte. rewrite (proj2 (N.eqb_neq b NEWLINE)) by done.
  rewrite (cons_middle b p a), !app_assoc, !lenN_app in *.
  destruct (N.ltb_spec (MAX_LINE + 1) (lenN p + lenN [b])) as [|Hp]; cbn [mbind option_bind].
  - rewrite (proj2 (N.ltb_lt _ _)) by lia. done.
  - rewrite IH, !lenN_app. destruct (N.ltb_spec (MAX_LINE + 1) (lenN p + lenN [b] + lenN a)) as [Hlt|]; [|done].
    destruct a as [|c a]; [|done]. exfalso. unfold lenN at 3 in Hlt. simpl in Hlt. lia.
Qed.

Lemma push_piece_bytes p a :
  (∃ a', a = a' ++ [NEWLINE] ∧ Forall (λ b, b ≠ NEWLINE) a') ∨ (Forall (λ b, b ≠ NEWLINE) a ∧ a ≠ []) →
  push_piece p a = line_bytes p a.
Proof.
  intros [(a' & -> & Ha)|[Ha Hne]].
  - rewrite line_bytes_app, line_bytes_plain by done. unfold push_piece.
    rewrite app_assoc, last_snoc, removelast_last, N.eqb_refl.
    rewrite (lenN_app (p ++ a')). change (lenN [NEWLINE]) with 1.
    assert (∀ q, line_bytes q [NEWLINE] = if MAX_LINE + 1 <? lenN q + 1 then None else Some ([], kept_line q)) as Hnl.
    { intros q. simpl. unfold line_byte. rewrite lenN_app, N.eqb_refl. change (lenN [NEWLINE]) with 1.
      destruct (_ <? _); [done|]. simpl. by rewrite app_nil_r. }
    destruct (N.ltb_spec (MAX_LINE + 1) (lenN (p ++ a') + 1)),
      (N.ltb_spec (MAX_LINE + 1) (lenN (p ++ a'))); cbn [andb]; try lia.
    + destruct a'; [rewrite bool_decide_true by done|by rewrite bool_decide_false]. cbn [negb mbind option_bind].
      rewrite app_nil_r in *. rewrite Hnl, (proj2 (N.ltb_lt _ _)) by done. done.
    + cbn [mbind option_bind]. rewrite Hnl, (proj2 (N.ltb_lt _ _)) by done. done.
    + cbn [mbind option_bind]. rewrite Hnl, (proj2 (N.ltb_ge _ _)) by done. done.
  - rewrite line_bytes_plain by done. unfold push_piece. rewrite bool_decide_false, andb_true_r by done.
    destruct (_ <? _); [done|]. destruct (last (p ++ a)) as [b|] eqn:Hl; [|done].
    rewrite last_app in Hl. destruct (last a) as [c|] eqn:Hla; [|by apply last_None in Hla].
    simplify_eq. assert (b ∈ a) as Hin by (by apply last_Some_elem_of).
    rewrite Forall_forall in Ha. by rewrite (proj2 (N.eqb_neq b NEWLINE)) by (by apply Ha).
Qed.

Lemma split_inclusive_pieces a :
  Forall (λ p, (∃ a', p = a' ++ [NEWLINE] ∧ Forall (λ b, b ≠ NEWLINE) a') ∨
    (Forall (λ b, b ≠ NEWLINE) p ∧ p ≠ [])) (split_inclusive a) ∧ concat (split_inclusive a) = a.
Proof.
  induction a as [|b a [IH IHc]]; simpl; [done|]. destruct (N.eqb_spec b NEWLINE) as [->|Hb].
  - split; [|simpl; by rewrite IHc]. constructor; [|done]. left. by exists [].
  - destruct (split_inclusive a) as [|piece pieces].
    + simpl in IHc. subst a. split; [|done]. constructor; [|by constructor]. right. split; [by repeat constructor|done].
    + apply Forall_cons_iff in IH as [Hp IH]. split; [|simpl in *; by rewrite IHc]. constructor; [|done].
      destruct Hp as [(a' & -> & Ha)|[Ha Hne]].
      * left. exists (b :: a'). split; [done|by constructor].
      * right. split; [by constructor|done].
Qed.

Lemma lines_push_bytes p a : lines_push p a = line_bytes p a.
Proof.
  unfold lines_push. destruct (split_inclusive_pieces a) as [Hp Hc]. rewrite <-Hc at 2. clear Hc.
  revert p. induction Hp as [|piece pieces Hpiece _ IH]; intros p; simpl; [done|].
  rewrite line_bytes_app, push_piece_bytes by done. destruct (line_bytes p piece) as [[p1 l1]|]; simpl; [|done].
  by rewrite IH.
Qed.

(** The event lines read from a stream do not depend on where its
    frames are cut: the same lines, the same partial line, and the same refusal
    of a line over the limit. *)
Theorem lines_split_invariant (partial : list N) (chunks : list (list N)) :
  lines_push_all partial chunks = lines_push partial (concat chunks).
Proof.
  rewrite lines_push_bytes. revert partial. induction chunks as [|c chunks IH]; intros p; simpl; [done|].
  rewrite line_bytes_app, <-lines_push_bytes. destruct (lines_push p c) as [[p1 l1]|]; simpl; [|done].
  by rewrite IH.
Qed.

Example lines_example :
  lines_push_all [] [[97]; [98; 10; 32; 13; 10; 99]] = Some ([99], [[97; 98]]).
Proof. vm_compute. reflexivity. Qed.

(** ** The handshake *)

Inductive Method :=
| DocGet | DocSet | EventsSubscribe | HelloMethod | TerminalAttach | TerminalKill | TerminalList | TerminalRun.

Definition all_methods : list Method :=
  [DocGet; DocSet; EventsSubscribe; HelloMethod; TerminalAttach; TerminalKill; TerminalList; TerminalRun].

Definition method_str (m : Method) : str :=
  match m with
  | DocGet => lit "doc.get"
  | DocSet => lit "doc.set"
  | EventsSubscribe => lit "events.subscribe"
  | HelloMethod => lit "hello"
  | TerminalAttach => lit "terminal.attach"
  | TerminalKill => lit "terminal.kill"
  | TerminalList => lit "terminal.list"
  | TerminalRun => lit "terminal.run"
  end.

Definition required (m : Method) : bool := match m with HelloMethod => false | _ => true end.

Definition GENERATION : N := 1.
Definition MIN_VERSION : str := lit "0.1.13".

Record CoreInfo := MkCoreInfo { info_core_id : str; info_core_name : str }.

Record Hello := MkHello {
  hello_core : CoreInfo;
  hello_features : list str;
  hello_framed : bool;
  hello_generation : N;
  hello_methods : list str;
  hello_version : str }.

Inductive Mismatch :=
| Mismatch_Missing (methods : list Method)
| Mismatch_Newer (generation : N)
| Mismatch_TooOld (have : str).

(** [trim_start_matches("hc ")] strips the prefix as often as it is there. *)
Fixpoint strip_hc (fuel : nat) (s : str) : str :=
  match fuel with
  | O => s
  | S fuel => match s with 104 :: 99 :: 32 :: t => strip_hc fuel t | _ => s end
  end.

Definition version_sep (c : N) : bool := (c =? 46) || (c =? 45) || (c =? 43).

Definition version (text : str) : N * N * N :=
  let text := trim text in
  let parts := (λ part, default 0 (parse_uint u64_max part))
    <$> split_on version_sep (strip_hc (length text) text) in
  (default 0 (parts !! 0%nat), default 0 (parts !! 1%nat), default 0 (parts !! 2%nat)).

(** The order of arrays: the first part that differs decides. *)
Definition version_lt (a b : N * N * N) : bool :=
  let '(a0, a1, a2) := a in
  let '(b0, b1, b2) := b in
  (a0 <? b0) || ((a0 =? b0) && ((a1 <? b1) || ((a1 =? b1) && (a2 <? b2)))).

Definition missing_methods (h : Hello) : list Method :=
  filter (λ m, required m = true ∧ method_str m ∉ hello_methods h) all_methods.

(** [Hello::check]. *)
Definition hello_check (h : Hello) : res Mismatch unit :=
  if GENERATION <? hello_generation h then Err (Mismatch_Newer (hello_generation h))
  else if (hello_generation h <? GENERATION)
          || version_lt (version (hello_version h)) (version MIN_VERSION)
  then Err (Mismatch_TooOld (hello_version h))
  else match missing_methods h with
       | [] => Ok tt
       | missing => Err (Mismatch_Missing missing)
       end.

(** [major.minor.patch]. *)
Definition dotted (a b c : N) : str := dec a ++ 46 :: dec b ++ 46 :: dec c.

Lemma digits_no_sep n : Forall (λ x, version_sep x = false) (dec n).
Proof.
  apply (Forall_impl _ _ _ (dec_digits n)). intros c Hc%digit_range. unfold version_sep.
  rewrite !orb_false_iff, !N.eqb_neq. lia.
Qed.

Lemma dec_head n : ∃ d s, dec n = d :: s ∧ is_ascii_digit d = true.
Proof.
  pose proof (dec_nonempty n). pose proof (dec_digits n) as Hd. destruct (dec n) as [|d s]; [done|].
  apply Forall_cons_iff in Hd as [Hd _]. eauto.
Qed.

Lemma dotted_trim a b c : trim (dotted a b c) = dotted a b c.
Proof.
  destruct (dec_head a) as (d & s & Ha & Hd).
  destruct (last (dec c)) as [e|] eqn:He; [|apply last_None in He; by apply dec_nonempty in He].
  apply (trim_plain _ d e).
  - unfold dotted. by rewrite Ha.
  - unfold dotted. by rewrite last_app, last_cons, last_app, last_cons, He.
  - by apply digit_not_space.
  - apply digit_not_space. pose proof (dec_digits c) as Hc. rewrite Forall_forall in Hc.
    apply Hc. by apply last_Some_elem_of.
Qed.

Lemma version_dotted a b c :
  a ≤ u64_max → b ≤ u64_max → c ≤ u64_max → version (dotted a b c) = (a, b, c).
Proof.
  intros Ha Hb Hc. unfold version. rewrite dotted_trim.
  assert (∀ n, strip_hc n (dotted a b c) = dotted a b c) as Hs.
  { destruct (dec_head a) as (d & s & Hd & Hdig). intros [|n]; [done|].
    unfold dotted. rewrite Hd. apply digit_range in Hdig. simpl.
    repeat case_match; subst; try done; lia. }
  rewrite Hs. unfold dotted.
  rewrite split_on_app, split_on_app, split_on_none by (done || apply digits_no_sep). simpl.
  by rewrite !parse_uint_dec.
Qed.

Lemma version_lt_spec a0 a1 a2 b0 b1 b2 :
  version_lt (a0, a1, a2) (b0, b1, b2) = true ↔
  a0 < b0 ∨ (a0 = b0 ∧ (a1 < b1 ∨ (a1 = b1 ∧ a2 < b2))).
Proof. simpl. by rewrite !orb_true_iff, !andb_true_iff, !orb_true_iff, !andb_true_iff, !N.ltb_lt, !N.eqb_eq. Qed.

Lemma elem_of_nil_inv_iff {A} (l : list A) : (∀ x, x ∉ l) ↔ l = [].
Proof. split; [apply elem_of_nil_inv|]. intros -> x. apply not_elem_of_nil. Qed.

(** A core that reports version [major.minor.patch] is accepted exactly
    when it speaks this generation, is not older than 0.1.13 (compared part by
    part, not as text) and has every required method. *)
Theorem hello_check_correct (h : Hello) (major minor patch : N) :
  hello_version h = dotted major minor patch →
  major ≤ u64_max → minor ≤ u64_max → patch ≤ u64_max →
  hello_check h = Ok tt ↔
    hello_generation h = GENERATION ∧
    (0 < major ∨ 1 < minor ∨ (minor = 1 ∧ 13 ≤ patch)) ∧
    (∀ m, required m = true → method_str m ∈ hello_methods h).
Proof.
  intros Hv Ha Hb Hc. unfold hello_check. rewrite Hv, version_dotted by done.
  change (version MIN_VERSION) with (0, 1, 13).
  assert (missing_methods h = [] ↔ ∀ m, required m = true → method_str m ∈ hello_methods h) as Hm.
  { unfold missing_methods. rewrite <-elem_of_nil_inv_iff. split.
    - intros H m Hr. destruct (decide (method_str m ∈ hello_methods h)); [done|].
      exfalso. apply (H m). apply list_elem_of_filter. split; [done|]. destruct m; unfold all_methods; set_solver.
    - intros H m [[Hr Hn] _]%list_elem_of_filter. by apply Hn, H. }
  rewrite <-Hm. clear Hm. unfold GENERATION.
  destruct (N.ltb_spec 1 (hello_generation h)); [split; [done|lia]|].
  destruct (N.ltb_spec (hello_generation h) 1); cbn [orb]; [split; [done|lia]|].
  destruct (version_lt (major, minor, patch) (0, 1, 13)) eqn:Hlt.
  - apply version_lt_spec in Hlt. split; [done|lia].
  - rewrite <-not_true_iff_false, version_lt_spec in Hlt. destruct (missing_methods h).
    + split; [|done]. intros _. split_and!; [lia|lia|done].
    + split; [done|]. by intros (_ & _ & ?).
Qed.

Definition sample_hello : Hello :=
  MkHello (MkCoreInfo [] []) [] true 1 (method_str <$> all_methods) (lit "0.2.3").

Lemma hello_check_correct_witness :
  hello_check sample_hello = Ok tt ↔
    hello_generation sample_hello = GENERATION ∧
    (0 < 0 ∨ 1 < 2 ∨ (2 = 1 ∧ 13 ≤ 3)) ∧
    (∀ m, required m = true → method_str m ∈ hello_methods sample_hello).
Proof.
  apply (hello_check_correct sample_hello 0 2 3); [reflexivity|..]; vm_compute; discriminate.
Defined.

(** A version past 0.1.9 counts as newer than 0.1.13 only by its numbers. *)
Example version_examples :
  version (lit " hc 0.1.13-beta ") = (0, 1, 13) ∧ version_lt (version (lit "0.1.9")) (version MIN_VERSION) = true.
Proof. by vm_compute. Qed.
End CoreFrame.
