(* ===== verification/CoreStream.v ===== *)
(** * CoreStream: a stream channel's inbox, its reader and its credit
    (crates/sheprd-core-client/src/stream.rs)

    The connection worker parks bytes in a route's inbox under a mutex and raises
    a one-slot wake signal; a reader checks, waits and takes. The operations on
    the inbox are functions; the two threads are the step relation [step], one
    rule per critical section or channel operation. *)

From Stdlib Require Import ZArith NArith Lia.
From stdpp Require Import base option strings relations sets list.
From S2P Require Import Prelude CoreFrame.

Import CoreFrame.
Local Open Scope N_scope.

Module CoreStream.

Definition MAX_BUFFERED : N := 8 * 1024 * 1024.

Record Closed := MkClosed { exit_code : option Z; reason : option str }.

Inductive End := End_Closed (closed : Closed) | End_Lost.

Record Chunk := MkChunk { chunk_bytes : list N; chunk_end : option End }.

Record Inbox := MkInbox { bytes : list N; end_ : option End; taken_end : bool }.

Definition inbox_default : Inbox := MkInbox [] None false.

(** [Closed::parse]; [from_slice] is serde_json. *)
Definition closed_default : Closed := MkClosed None None.
Definition closed_parse (from_slice : list N → option Closed) (payload : list N) : Closed :=
  match payload with
  | [] => closed_default
  | _ => default closed_default (from_slice payload)
  end.

Inductive Violation := PastCredit.

(** [Route::push] under its lock: the inbox and whether it signals. *)
Definition route_push (i : Inbox) (bs : list N) : res Violation (Inbox * bool) :=
  match end_ i with
  | Some _ => Ok (i, false)
  | None =>
      if MAX_BUFFERED <? lenN (bytes i) + lenN bs then Err PastCredit
      else Ok (MkInbox (bytes i ++ bs) None (taken_end i), true)
  end.

(** [Route::end]: [get_or_insert]. *)
Definition route_end (i : Inbox) (e : End) : Inbox :=
  MkInbox (bytes i) (Some (default e (end_ i))) (taken_end i).

Definition ready (i : Inbox) : bool :=
  match bytes i with [] => is_some (end_ i) && negb (taken_end i) | _ => true end.

(** The second critical section of [Route::take]. *)
Definition route_take (i : Inbox) : Inbox * Chunk :=
  let e := if taken_end i then None else end_ i in
  (MkInbox [] (end_ i) (taken_end i || is_some e), MkChunk (bytes i) e).

(** ** Credit *)

Inductive SendError := Busy | Lost | FrameError (e : CoreFrame.Error).

(** The outbound channel of the connection: a bounded queue of frames. *)
Record Link := MkLink { queued : list (list N); capacity : nat; connected : bool }.

(** [Link::send]: encode, then [try_send]. *)
Definition link_send (l : Link) (channel : N) (kind : Kind) (payload : list N) : Link * res SendError unit :=
  match encode channel kind payload with
  | Err e => (l, Err (FrameError e))
  | Ok frame =>
      if negb (connected l) then (l, Err Lost)
      else if (capacity l <=? length (queued l))%nat then (l, Err Busy)
      else (MkLink (queued l ++ [frame]) (capacity l) true, Ok tt)
  end.

(** [Stream::read] once the wait is over. *)
Definition stream_read (channel : N) (i : Inbox) (l : Link) : Inbox * Link * res SendError Chunk :=
  let '(i, chunk) := route_take i in
  let credit := lenN (chunk_bytes chunk) in
  if (credit <=? u32_max) && (0 <? credit) && negb (is_some (chunk_end chunk)) then
    let '(l, r) := link_send l channel Credit (le_bytes 4 credit) in
    (i, l, match r with Ok _ => Ok chunk | Err e => Err e end)
  else (i, l, Ok chunk).

(** [Attachment::resize] and [focus]. *)
Definition send_resize (l : Link) (channel cols rows : N) : Link * res SendError unit :=
  link_send l channel Resize (le_bytes 2 cols ++ le_bytes 2 rows).

Definition send_focus (l : Link) (channel : N) (focused : bool) : Link * res SendError unit :=
  link_send l channel Focus [if focused then 1 else 0].

(** [try_for_each]: the first failure stops it. *)
Fixpoint send_each (l : Link) (channel : N) (pieces : list (list N)) : Link * res SendError unit :=
  match pieces with
  | [] => (l, Ok tt)
  | p :: pieces =>
      match link_send l channel Data p with
      | (l, Ok _) => send_each l channel pieces
      | (l, Err e) => (l, Err e)
      end
  end.

(** [Attachment::write]. *)
Definition write (l : Link) (channel : N) (bs : list N) : Link * res SendError unit :=
  send_each l channel (chunks (length bs) MAX_PAYLOAD bs).

(** A read that succeeds returns everything that waited and leaves the
    inbox empty. It gives back exactly the bytes it returns as one credit frame,
    unless the stream ended or there were none, when it sends nothing. *)
Theorem read_credits (channel : N) (i i' : Inbox) (l l' : Link) (chunk : Chunk) :
  lenN (bytes i) ≤ MAX_BUFFERED →
  stream_read channel i l = (i', l', Ok chunk) →
  chunk_bytes chunk = bytes i ∧ bytes i' = [] ∧
  queued l' = queued l ++
    (if bool_decide (bytes i = []) || is_some (chunk_end chunk) then []
     else [le_bytes 4 channel ++ [kind_to_u8 Credit] ++ le_bytes 4 4 ++ le_bytes 4 (lenN (bytes i))]).
Proof.
  intros Hlen. unfold stream_read, route_take. cbn [chunk_bytes chunk_end].
  set (e := if taken_end i then None else end_ i).
  assert ((lenN (bytes i) <=? u32_max) = true) as -> by (apply N.leb_le; unfold MAX_BUFFERED, u32_max in *; lia).
  cbn [andb]. destruct (N.ltb_spec 0 (lenN (bytes i))) as [Hpos|Hz]; cbn [andb].
  - rewrite bool_decide_false by (intros E; rewrite E in Hpos; done). cbn [orb].
    destruct (is_some e) eqn:He; cbn [negb].
    + intros [= <- <- <-]. cbn [chunk_bytes chunk_end bytes]. by rewrite He, app_nil_r.
    + unfold link_send, encode. unfold lenN at 1 2 4. rewrite !length_le_bytes.
      change ((N.of_nat 4 <=? u32_max) && (N.of_nat 4 <=? MAX_PAYLOAD)) with true. cbn iota.
      destruct (connected l); cbn [negb]; [|done]. destruct (_ <=? _)%nat; [done|].
      intros [= <- <- <-]. cbn [chunk_bytes chunk_end bytes queued]. by rewrite He.
  - assert (bytes i = []) as Hb by (apply lenN_nil; lia). rewrite bool_decide_true by done. cbn [orb].
    intros [= <- <- <-]. cbn [chunk_bytes bytes]. by rewrite app_nil_r.
Qed.

Lemma read_credits_witness :
  stream_read 5 (MkInbox [1; 2] None false) (MkLink [] 4 true)
    = (MkInbox [] None false, MkLink [[5; 0; 0; 0; 1; 4; 0; 0; 0; 2; 0; 0; 0]] 4 true, Ok (MkChunk [1; 2] None)) ∧
  chunk_bytes (MkChunk [1; 2] None) = [1; 2].
Proof.
  split; [reflexivity|].
  apply (read_credits 5 (MkInbox [1; 2] None false) (MkInbox [] None false) (MkLink [] 4 true)
    (MkLink [[5; 0; 0; 0; 1; 4; 0; 0; 0; 2; 0; 0; 0]] 4 true)); [vm_compute; discriminate|reflexivity].
Defined.

(** A full outbound queue fails a read after it emptied the inbox: the bytes are
    in no later chunk and no credit was sent for them. *)
Lemma read_busy_drops (channel : N) (i : Inbox) (l : Link) :
  bytes i ≠ [] → lenN (bytes i) ≤ MAX_BUFFERED → end_ i = None → connected l = true →
  (capacity l ≤ length (queued l))%nat →
  ∃ i', stream_read channel i l = (i', l, Err Busy) ∧ bytes i' = [].
Proof.
  intros Hne Hlen He Hc Hcap. unfold stream_read, route_take. cbn [chunk_bytes chunk_end]. rewrite He.
  assert (((lenN (bytes i) <=? u32_max) && (0 <? lenN (bytes i))) = true) as ->.
  { rewrite andb_true_iff, N.leb_le, N.ltb_lt. split; [unfold MAX_BUFFERED, u32_max in *; lia|].
    destruct (bytes i); [done|]. unfold lenN. simpl. lia. }
  destruct (taken_end i); cbn [is_some negb andb]; unfold link_send, encode; unfold lenN at 1 2 4;
    rewrite !length_le_bytes; change ((N.of_nat 4 <=? u32_max) && (N.of_nat 4 <=? MAX_PAYLOAD)) with true; cbn iota;
    rewrite Hc; cbn [negb]; rewrite (proj2 (Nat.leb_le _ _) Hcap); by eexists.
Qed.

(** ** Writing *)

Lemma send_each_frames l channel pieces l' :
  send_each l channel pieces = (l', Ok tt) →
  ∃ frames, Forall2 (λ p f, encode channel Data p = Ok f) pieces frames ∧ queued l' = queued l ++ frames.
Proof.
  revert l. induction pieces as [|p pieces IH]; intros l; simpl.
  { intros [= <-]. exists []. by rewrite app_nil_r. }
  unfold link_send at 1. destruct (encode channel Data p) as [f|e] eqn:He; [|done].
  destruct (connected l); cbn [negb]; [|done]. destruct (_ <=? _)%nat; [done|].
  intros (frames & Hf & Hq)%IH. exists (f :: frames). split; [by constructor|].
  rewrite Hq. simpl. by rewrite <-app_assoc.
Qed.

(** What a viewer types reaches the core unchanged: a successful write
    queues data frames, none over the payload limit, that a decoder turns back
    into the bytes in order however the connection cuts them. *)
Theorem write_delivers (l l' : Link) (channel : N) (bs : list N) (reads : list (list N)) :
  channel ≤ u32_max →
  write l channel bs = (l', Ok tt) →
  ∃ frames fs d,
    queued l' = queued l ++ frames ∧
    (concat reads = concat frames →
     read_all decoder_default reads = Some (d, fs, None) ∧
     concat (payload <$> fs) = bs ∧ Forall (λ f, CoreFrame.channel f = channel ∧ kind f = Data) fs).
Proof.
  intros Hch Hw. destruct (chunks_spec (length bs) MAX_PAYLOAD bs) as (Hc & _); [done|done|].
  apply send_each_frames in Hw as (frames & Hf & Hq).
  set (pieces := chunks (length bs) MAX_PAYLOAD bs) in *.
  set (fs := MkFrame channel Data <$> pieces).
  assert (Forall2 (λ f b, encode (CoreFrame.channel f) (kind f) (payload f) = Ok b) fs frames) as Hfs.
  { unfold fs. by rewrite Forall2_fmap_l. }
  assert (Forall (λ f, CoreFrame.channel f ≤ u32_max) fs) as Hle by (by apply Forall_fmap, Forall_true).
  destruct (decide (concat reads = concat frames)) as [He|He].
  - destruct (read_all_frames reads decoder_default) as (d & fs' & e & Hr & Hs); [unfold dec_wf; simpl; lia|done|].
    change (CoreFrame.ready decoder_default) with (@nil N) in Hs. simpl app in Hs.
    rewrite He, (frames_of_encoded fs frames Hfs Hle) in Hs. destruct Hs as (-> & -> & _).
    exists frames, fs, d. split; [done|]. intros _. split_and!; [done| |].
    + unfold fs. rewrite <-list_fmap_compose, <-Hc. f_equal. apply list_fmap_id.
    + by apply Forall_fmap, Forall_true.
  - by exists frames, fs, decoder_default.
Qed.

Lemma write_delivers_witness :
  ∃ frames fs d,
    queued (MkLink [[3; 0; 0; 0; 0; 2; 0; 0; 0; 104; 105]] 4 true) = queued (MkLink [] 4 true) ++ frames ∧
    (concat [[3; 0; 0; 0; 0; 2; 0; 0; 0; 104]; [105]] = concat frames →
     read_all decoder_default [[3; 0; 0; 0; 0; 2; 0; 0; 0; 104]; [105]] = Some (d, fs, None) ∧
     concat (payload <$> fs) = [104; 105] ∧ Forall (λ f, CoreFrame.channel f = 3 ∧ kind f = Data) fs).
Proof.
  apply (write_delivers (MkLink [] 4 true) (MkLink [[3; 0; 0; 0; 0; 2; 0; 0; 0; 104; 105]] 4 true) 3).
  - vm_compute. discriminate.
  - vm_compute. reflexivity.
Defined.

(** ** The worker and the reader *)

(** The worker between a critical section and its [signal]. *)
Inductive Worker := W_Idle | W_Signal.

(** The reader: not in [take], waiting on the wake channel, or past the wait. *)
Inductive Reader := R_Idle | R_Wait | R_Woken.

(** A route with its two threads. [pushed] and [chunks_out] record what the
    worker put in and what the reader took out. *)
Record Sys := MkSys {
  inbox : Inbox;
  wake : bool;
  worker : Worker;
  reader : Reader;
  pushed : list N;
  chunks_out : list Chunk }.

Definition sys_init : Sys := MkSys inbox_default false W_Idle R_Idle [] [].

Inductive step : Sys → Sys → Prop :=
| step_push s bs i :
    worker s = W_Idle → route_push (inbox s) bs = Ok (i, true) →
    step s (MkSys i (wake s) W_Signal (reader s) (pushed s ++ bs) (chunks_out s))
| step_push_ended s bs i :
    worker s = W_Idle → route_push (inbox s) bs = Ok (i, false) →
    step s (MkSys i (wake s) W_Idle (reader s) (pushed s) (chunks_out s))
| step_end s e :
    worker s = W_Idle →
    step s (MkSys (route_end (inbox s) e) (wake s) W_Signal (reader s) (pushed s) (chunks_out s))
| step_signal s :
    worker s = W_Signal →
    step s (MkSys (inbox s) true W_Idle (reader s) (pushed s) (chunks_out s))
| step_check s :
    reader s = R_Idle →
    step s (MkSys (inbox s) (wake s) (worker s) (if ready (inbox s) then R_Woken else R_Wait)
              (pushed s) (chunks_out s))
| step_recv s :
    reader s = R_Wait → wake s = true →
    step s (MkSys (inbox s) false (worker s) R_Woken (pushed s) (chunks_out s))
| step_timeout s :
    reader s = R_Wait →
    step s (MkSys (inbox s) (wake s) (worker s) R_Woken (pushed s) (chunks_out s))
| step_take s i c :
    reader s = R_Woken → route_take (inbox s) = (i, c) →
    step s (MkSys i (wake s) (worker s) R_Idle (pushed s) (chunks_out s ++ [c])).

Definition taken (s : Sys) : list N := concat (chunk_bytes <$> chunks_out s).

(** The ends the reader was told, in order. *)
Definition ends (s : Sys) : list End := omap chunk_end (chunks_out s).

Record sys_inv (s : Sys) : Prop := {
  inv_fifo : taken s ++ bytes (inbox s) = pushed s;
  inv_bound : lenN (bytes (inbox s)) ≤ MAX_BUFFERED;
  inv_ends : ends s = if taken_end (inbox s) then option_list (end_ (inbox s)) else [];
  inv_ended : taken_end (inbox s) = true → is_some (end_ (inbox s)) = true ∧ bytes (inbox s) = [];
  inv_wake : reader s = R_Wait → ready (inbox s) = true → wake s = true ∨ worker s = W_Signal;
}.

Lemma route_push_Ok i bs i' signal :
  route_push i bs = Ok (i', signal) →
  if signal
  then end_ i = None ∧ i' = MkInbox (bytes i ++ bs) None (taken_end i) ∧ lenN (bytes i ++ bs) ≤ MAX_BUFFERED
  else i' = i.
Proof.
  unfold route_push. destruct (end_ i); [by intros [= <- <-]|].
  destruct (N.ltb_spec MAX_BUFFERED (lenN (bytes i) + lenN bs)); [done|]. intros [= <- <-]. by rewrite lenN_app.
Qed.

(** The invariant of a state whose history is the same. *)
Lemma sys_inv_same s i w wk r :
  sys_inv s → i = inbox s → (r = R_Wait → ready i = true → w = true ∨ wk = W_Signal) →
  sys_inv (MkSys i w wk r (pushed s) (chunks_out s)).
Proof. intros [Hf Hb He Hd Hw] -> Hw'. by split. Qed.

Lemma step_inv s s' : sys_inv s → step s s' → sys_inv s'.
Proof.
  intros Hinv Hs. pose proof Hinv as [Hf Hb He Hd Hw].
  destruct Hs as [s bs i Hwk Hp|s bs i Hwk Hp|s e Hwk|s Hwk|s Hr|s Hr Hk|s Hr|s i c Hr Ht].
  - apply route_push_Ok in Hp as (Hend & -> & Hlen). unfold taken, ends in *.
    split; unfold taken, ends; cbn [inbox wake worker reader pushed chunks_out bytes end_ taken_end].
    + by rewrite app_assoc, Hf.
    + done.
    + by rewrite He, Hend.
    + intros Ht. by destruct (Hd Ht) as [Hx _]; rewrite Hend in Hx.
    + by right.
  - apply route_push_Ok in Hp as ->. apply sys_inv_same; [done|done|]. intros Hr Hrd.
    destruct (Hw Hr Hrd) as [?|Hx]; [by left|by rewrite Hx in Hwk].
  - unfold taken, ends in *.
    split; unfold taken, ends; cbn [inbox wake worker reader pushed chunks_out bytes end_ taken_end route_end];
      [done|done| | |by right].
    + rewrite He. destruct (taken_end (inbox s)) eqn:Ht; [|done]. destruct (Hd eq_refl) as [Hsome _].
      by destruct (end_ (inbox s)).
    + intros Ht. by destruct (Hd Ht).
  - apply sys_inv_same; [done|done|by left].
  - apply sys_inv_same; [done|done|]. by destruct (ready (inbox s)).
  - by apply sys_inv_same.
  - by apply sys_inv_same.
  - unfold route_take in Ht. injection Ht as <- <-. unfold taken, ends in *.
    split; unfold taken, ends; cbn [inbox wake worker reader pushed chunks_out bytes end_ taken_end].
    + rewrite fmap_app, concat_app. cbn. by rewrite !app_nil_r.
    + by vm_compute.
    + rewrite omap_app, He. cbn. destruct (taken_end (inbox s)); cbn; [by rewrite app_nil_r|]. by destruct (end_ (inbox s)).
    + destruct (taken_end (inbox s)); cbn; [|by destruct (end_ _)]. intros _. by destruct (Hd eq_refl).
    + done.
Qed.

Lemma reachable_inv s : rtc step sys_init s → sys_inv s.
Proof.
  assert (sys_inv sys_init) as H0 by (split; by vm_compute). intros Hr. revert H0.
  induction Hr as [|x y z Hstep _ IH]; [done|]. intros Hx. apply IH. by eapply step_inv.
Qed.

(** C18: Whatever the worker and the reader interleave, the reader takes
    exactly the bytes pushed, in order, each once; never more than
    [MAX_BUFFERED] wait; the end is told at most once and nothing waits after
    it; and a waiting reader with something to take is always about to be woken. *)
Theorem route_safe (s : Sys) :
  rtc step sys_init s →
  taken s ++ bytes (inbox s) = pushed s ∧
  lenN (bytes (inbox s)) ≤ MAX_BUFFERED ∧
  (length (ends s) ≤ 1)%nat ∧
  (ends s ≠ [] → bytes (inbox s) = []) ∧
  (reader s = R_Wait → ready (inbox s) = true → wake s = true ∨ worker s = W_Signal).
Proof.
  intros [Hf Hb He Hd Hw]%reachable_inv.
  split_and!; [done|done| | |done].
  - rewrite He. destruct (taken_end _); simpl; [|lia]. destruct (end_ _); simpl; lia.
  - rewrite He. destruct (taken_end (inbox s)); [|done]. intros _. by apply Hd.
Qed.

Lemma route_safe_witness :
  let s := MkSys (MkInbox [9] None false) false W_Signal R_Wait [9] [] in
  taken s ++ bytes (inbox s) = pushed s ∧ lenN (bytes (inbox s)) ≤ MAX_BUFFERED ∧
  (length (ends s) ≤ 1)%nat ∧ (ends s ≠ [] → bytes (inbox s) = []) ∧
  (reader s = R_Wait → ready (inbox s) = true → wake s = true ∨ worker s = W_Signal).
Proof.
  apply route_safe. eapply rtc_l; [apply (step_check sys_init); reflexivity|].
  eapply rtc_l; [eapply (step_push _ [9]); reflexivity|]. apply rtc_refl.
Defined.

(** A step that does not wait for a timeout: the reader stops waiting only for a
    signal. *)
Definition prompt (s s' : Sys) : Prop :=
  step s s' ∧ (reader s = R_Wait → reader s' = R_Woken → wake s = true).

(** No wakeup is lost: from every reachable state with something to
    take, the worker's signal and the reader's own steps, without a timeout,
    lead to a chunk that holds all of it. *)
Theorem route_delivers (s : Sys) :
  rtc step sys_init s → ready (inbox s) = true →
  ∃ s' c, rtc prompt s s' ∧ chunks_out s' = chunks_out s ++ [c] ∧ chunk_bytes c = bytes (inbox s).
Proof.
  intros Hinv%reachable_inv Hready.
  assert (∀ s, reader s = R_Woken → ∃ s' c, rtc prompt s s' ∧ chunks_out s' = chunks_out s ++ [c] ∧
    chunk_bytes c = bytes (inbox s)) as Htake.
  { intros t Ht. destruct (route_take (inbox t)) as [i c] eqn:E.
    exists (MkSys i (wake t) (worker t) R_Idle (pushed t) (chunks_out t ++ [c])), c. split_and!; [|done|].
    - apply rtc_once. split; [by constructor|]. cbn. by rewrite Ht.
    - unfold route_take in E. by injection E as <- <-. }
  assert (∀ s t, prompt s t → inbox t = inbox s → chunks_out t = chunks_out s →
    (∃ s' c, rtc prompt t s' ∧ chunks_out s' = chunks_out t ++ [c] ∧ chunk_bytes c = bytes (inbox t)) →
    ∃ s' c, rtc prompt s s' ∧ chunks_out s' = chunks_out s ++ [c] ∧ chunk_bytes c = bytes (inbox s)) as Hgo.
  { intros x y Hxy Hi Hc (s' & c & Hrtc & H1 & H2). exists s', c. rewrite <-Hc, <-Hi. split; [by eapply rtc_l|done]. }
  assert (∀ s, reader s = R_Wait → wake s = true → ∃ s' c, rtc prompt s s' ∧
    chunks_out s' = chunks_out s ++ [c] ∧ chunk_bytes c = bytes (inbox s)) as Hwake.
  { intros t Ht Hw. eapply Hgo; [split; [by apply (step_recv t)|done]|done|done|]. by apply Htake. }
  destruct (reader s) eqn:Erd.
  - eapply Hgo; [split; [by apply (step_check s)|by rewrite Erd]|done|done|]. apply Htake. cbn. by rewrite Hready.
  - destruct (inv_wake s Hinv Erd Hready) as [Hw|Hw]; [by apply Hwake|].
    eapply Hgo; [split; [by apply (step_signal s)|cbn; by rewrite Erd]|done|done|]. by apply Hwake.
  - by apply Htake.
Qed.

Lemma route_delivers_witness :
  let s := MkSys (MkInbox [9] None false) false W_Signal R_Wait [9] [] in
  ∃ s' c, rtc prompt s s' ∧ chunks_out s' = chunks_out s ++ [c] ∧ chunk_bytes c = bytes (inbox s).
Proof.
  apply route_delivers; [|reflexivity].
  eapply rtc_l; [apply (step_check sys_init); reflexivity|].
  eapply rtc_l; [eapply (step_push _ [9]); reflexivity|]. apply rtc_refl.
Defined.
End CoreStream.
