(* ===== verification/CoreCall.v ===== *)
(** * CoreCall: calls, answers and streams of one connection
    (crates/sheprd-core-client/src/connection.rs)

    A worker thread owns the socket; any number of threads call. They share the
    waiting calls and the streams' routes, each behind its mutex, and a flag.
    [do] gives the effect of one critical section, channel operation or atomic
    access of either side, so a list of events is an interleaving. serde_json's
    values are the class [Json]. *)

From Stdlib Require Import NArith ZArith Lia.
From stdpp Require Import base option strings list sets gmap.
From S2P Require Import Prelude CoreFrame CoreStream.

Import CoreFrame CoreStream.
Local Open Scope N_scope.

Module CoreCall.

Definition MAX_HELLO : N := 64 * 1024.
Definition MAX_IN_FLIGHT : nat := 64.
Definition MAX_OUTBOUND : nat := 1024.
Definition WRITE_BATCH : nat := 64.

(** [Refusal], with [RefusalData]. *)
Record Refusal := MkRefusal { data : option (option str); message : str }.

(** What the source uses of serde_json: [from_slice], [Value::get],
    [Value::as_u64], [Value::Null], reading a refusal, and writing a value. *)
Class Json (V : Type) := {
  from_slice : list N → option V;
  get : V → str → option V;
  as_u64 : V → option N;
  null : V;
  to_refusal : V → option Refusal;
  to_text : V → str }.

Inductive CallError :=
| Busy | Lost | Timeout | Frame_ (e : CoreFrame.Error) | JsonFailed
| Refused (kind : option str) (message : str).

(** [Refusal::into_error]. *)
Definition into_error (r : Refusal) : CallError := Refused (k ← data r; k) (message r).

Section core.
Context `{Json V}.

(** ** Answers *)

(** The result of an answer: the value, or the refusal; an error that is no
    refusal is one by its text. *)
Definition answer_result (m : V) : res Refusal V :=
  match get m (lit "error") with
  | Some e => Err (default (MkRefusal None (to_text e)) (to_refusal e))
  | None => Ok (default null (get m (lit "result")))
  end.

(** The channel a result opens: [u32::try_from]. *)
Definition answer_channel (r : res Refusal V) : option N :=
  match r with
  | Ok v => c ← get v (lit "channel"); n ← as_u64 c; if n <=? u32_max then Some n else None
  | Err _ => None
  end.

Definition answer_id (m : V) : option N := v ← get m (lit "id"); as_u64 v.

(** [Reply]; a route is named by a number of its own, as [Arc<Route>] is by its
    address. *)
Record Reply := MkReply { result : res Refusal V; route : option (N * N) }.

(** ** State *)

(** How a call ended. *)
Inductive Outcome := Answered (r : Reply) | Disconnected | Failed (e : CallError).

(** Where a caller is in [call]: past the check of [lost]; in [pending]; its
    request queued; past a failed send or a timeout; past the removal that
    follows, with its receiver still open; returned. *)
Inductive Phase := Begun | Registered | Waiting | GivingUp (e : CallError) | Leaving (e : CallError) | Done (o : Outcome).

(** Where the worker is: between frames; in [answer] with a waiter taken, with
    its route made, and with a reply nobody heard; in [lose] after each of its
    accesses; gone, which closes the queue. *)
Inductive Worker :=
| Idle | Took (id : N) (r : res Refusal V) | Routed (id : N) (r : Reply) | Unheard (channel : option N)
| Losing | LostSet | PendingCleared | RoutesEnded | Gone.

Record Core := MkCore {
  lost : bool;
  next_id : N;
  pending : gset N;              (** the ids whose sender is in [pending] *)
  routes : gmap N N;             (** channel to route *)
  inboxes : gmap N Inbox;        (** the routes, by name *)
  link : Link;
  calls : gmap N Phase;
  mail : gmap N Reply;           (** the one slot of each call's channel *)
  worker : Worker;
  begun : N;                     (** calls so far *)
  taken : list (N * V);          (** the messages whose waiter the worker took *)
  opened : list (N * N * N);     (** route, channel and call of each route made *)
  written : list (list N)        (** the frames written *)
}.

(** [Core::over] after the handshake. *)
Definition core_new : Core := MkCore false 1 ∅ ∅ ∅ (MkLink [] MAX_OUTBOUND true) ∅ ∅ Idle 0 [] [] [].

Definition with_call (s : Core) (id : N) (p : Phase) : Core :=
  MkCore (lost s) (next_id s) (pending s) (routes s) (inboxes s) (link s) (<[id := p]> (calls s)) (mail s) (worker s)
    (begun s) (taken s) (opened s) (written s).
Definition with_pending (s : Core) (p : gset N) : Core :=
  MkCore (lost s) (next_id s) p (routes s) (inboxes s) (link s) (calls s) (mail s) (worker s) (begun s) (taken s) (opened s) (written s).
Definition with_routes (s : Core) (r : gmap N N) (i : gmap N Inbox) : Core :=
  MkCore (lost s) (next_id s) (pending s) r i (link s) (calls s) (mail s) (worker s) (begun s) (taken s) (opened s) (written s).
Definition with_link (s : Core) (l : Link) : Core :=
  MkCore (lost s) (next_id s) (pending s) (routes s) (inboxes s) l (calls s) (mail s) (worker s) (begun s) (taken s) (opened s) (written s).
Definition with_mail (s : Core) (m : gmap N Reply) : Core :=
  MkCore (lost s) (next_id s) (pending s) (routes s) (inboxes s) (link s) (calls s) m (worker s) (begun s) (taken s) (opened s) (written s).
Definition with_worker (s : Core) (w : Worker) : Core :=
  MkCore (lost s) (next_id s) (pending s) (routes s) (inboxes s) (link s) (calls s) (mail s) w (begun s) (taken s) (opened s) (written s).

(** ** The caller's side *)

(** The check of [lost] and the id: [fetch_add] wraps. *)
Definition call_begin (s : Core) : option Core :=
  if lost s then None
  else
    Some (MkCore (lost s) ((next_id s + 1) mod 2 ^ 64) (pending s) (routes s) (inboxes s) (link s)
            (<[next_id s := Begun]> (calls s)) (mail s) (worker s) (begun s + 1) (taken s) (opened s) (written s)).

(** The first critical section. *)
Definition call_register (s : Core) (id : N) : Core :=
  if (MAX_IN_FLIGHT <=? size (pending s))%nat then with_call s id (Done (Failed Busy))
  else with_call (with_pending s ({[id]} ∪ pending s)) id Registered.

Definition send_failed (e : SendError) : CallError :=
  match e with CoreStream.Busy => Busy | CoreStream.Lost => Lost | FrameError e => Frame_ e end.

(** Writing the request; [None] is a request that could not be serialized. *)
Definition call_send (s : Core) (id : N) (payload : option (list N)) : Core :=
  match payload with
  | None => with_call s id (GivingUp JsonFailed)
  | Some payload =>
      match link_send (link s) 0 Data payload with
      | (l, Ok _) => with_call (with_link s l) id Waiting
      | (_, Err e) => with_call s id (GivingUp (send_failed e))
      end
  end.

(** The worker still has the sender of a call it took the waiter of. *)
Definition holds (w : Worker) (id : N) : bool :=
  match w with Took i _ => i =? id | Routed i _ => i =? id | _ => false end.

(** [recv_timeout]: what is in the channel first, else that its sender is gone. *)
Definition call_receive (s : Core) (id : N) : option Core :=
  match mail s !! id with
  | Some r => Some (with_call (with_mail s (delete id (mail s))) id (Done (Answered r)))
  | None =>
      if bool_decide (id ∈ pending s) || holds (worker s) id then None
      else Some (with_call s id (Done Disconnected))
  end.

(** What the caller gets back. *)
Definition call_result (o : Outcome) : res CallError Reply :=
  match o with
  | Answered r => match result r with Ok _ => Ok r | Err e => Err (into_error e) end
  | Disconnected => Err Lost
  | Failed e => Err e
  end.

(** ** The worker's side *)

(** [Worker::answer] up to the waiter. *)
Definition answer_take (s : Core) (payload : list N) : Core :=
  match from_slice payload with
  | None => with_worker s Losing
  | Some m =>
      match answer_id m with
      | None => s
      | Some id =>
          if bool_decide (id ∈ pending s) then
            MkCore (lost s) (next_id s) (pending s ∖ {[id]}) (routes s) (inboxes s) (link s) (calls s) (mail s)
              (Took id (answer_result m)) (begun s) (taken s ++ [(id, m)]) (opened s) (written s)
          else s
      end
  end.

(** The route is made before the caller hears back. *)
Definition answer_route (s : Core) (id : N) (r : res Refusal V) : Core :=
  match answer_channel r with
  | None => with_worker s (Routed id (MkReply r None))
  | Some channel =>
      let name := N.of_nat (length (opened s)) in
      MkCore (lost s) (next_id s) (pending s) (<[channel := name]> (routes s)) (<[name := inbox_default]> (inboxes s)) (link s)
        (calls s) (mail s) (Routed id (MkReply r (Some (channel, name)))) (begun s) (taken s)
        (opened s ++ [(name, channel, id)]) (written s)
  end.

(** A call's receiver is open until the call returns. *)
Definition listens (s : Core) (id : N) : bool :=
  match calls s !! id with Some (Done _) | None => false | Some _ => true end.

(** [waiter.try_send]. *)
Definition answer_send (s : Core) (id : N) (r : Reply) : Core :=
  if listens s id && bool_decide (mail s !! id = None)
  then with_worker (with_mail s (<[id := r]> (mail s))) Idle
  else with_worker s (Unheard (fst <$> route r)).

(** A frame of a stream: [dispatch] for the channels other than 0. *)
Definition dispatch_stream (s : Core) (closed_from : list N → option Closed) (f : Frame) : Core :=
  match kind f with
  | Data =>
      match routes s !! channel f with
      | None => s
      | Some name =>
          match route_push (default inbox_default (inboxes s !! name)) (payload f) with
          | Ok (i, _) => with_routes s (routes s) (<[name := i]> (inboxes s))
          | Err _ => with_worker s Losing
          end
      end
  | Close =>
      match routes s !! channel f with
      | None => s
      | Some name =>
          with_routes s (delete (channel f) (routes s))
            (alter (λ i, route_end i (End_Closed (closed_parse closed_from (payload f)))) name (inboxes s))
      end
  | _ => s
  end.

(** [drain]ing the routes, each ended as lost. *)
Definition end_routes (s : Core) : Core :=
  let names := snd <$> map_to_list (routes s) in
  with_routes s ∅ (foldr (alter (λ i, route_end i End_Lost)) (inboxes s) names).

(** One frame of [write_queued]. *)
Definition write_one (s : Core) : option Core :=
  match queued (link s) with
  | [] => None
  | f :: q =>
      Some (MkCore (lost s) (next_id s) (pending s) (routes s) (inboxes s) (MkLink q (capacity (link s)) (connected (link s)))
              (calls s) (mail s) (worker s) (begun s) (taken s) (opened s) (written s ++ [f]))
  end.

(** [Shared::lose], one access at a time, and the end of the worker. *)
Definition lose_step (s : Core) : option Core :=
  match worker s with
  | Losing =>
      Some (MkCore true (next_id s) (pending s) (routes s) (inboxes s) (link s) (calls s) (mail s) LostSet (begun s)
              (taken s) (opened s) (written s))
  | LostSet => Some (with_worker (with_pending s ∅) PendingCleared)
  | PendingCleared => Some (with_worker (end_routes s) RoutesEnded)
  | RoutesEnded => Some (with_worker (with_link s (MkLink (queued (link s)) (capacity (link s)) false)) Gone)
  | _ => None
  end.

(** ** Interleavings *)

Inductive Event :=
| E_Begin | E_Register (id : N) | E_Send (id : N) (payload : option (list N)) | E_Receive (id : N) | E_Timeout (id : N)
| E_Remove (id : N) | E_Leave (id : N)
| E_Answer (payload : list N) | E_Route | E_Reply | E_Drop | E_Stream (f : Frame) | E_Write | E_Stop | E_Lose
| E_Take (name : N) | E_StreamSend (channel : N) (kind : Kind) (payload : list N).

(** The effect of an event, [None] where it cannot happen. [E_Stop] is a stop
    flag, a failed read or write, or a frame that does not decode; [E_Take] and
    [E_StreamSend] are a stream's reader and writer. *)
Definition do (closed_from : list N → option Closed) (s : Core) (e : Event) : option Core :=
  match e with
  | E_Begin => call_begin s
  | E_Register id => match calls s !! id with Some Begun => Some (call_register s id) | _ => None end
  | E_Send id payload => match calls s !! id with Some Registered => Some (call_send s id payload) | _ => None end
  | E_Receive id => match calls s !! id with Some Waiting => call_receive s id | _ => None end
  | E_Timeout id =>
      match calls s !! id, mail s !! id with Some Waiting, None => Some (with_call s id (GivingUp Timeout)) | _, _ => None end
  | E_Remove id =>
      match calls s !! id with
      | Some (GivingUp e) => Some (with_call (with_pending s (pending s ∖ {[id]})) id (Leaving e))
      | _ => None
      end
  | E_Leave id =>
      match calls s !! id with
      | Some (Leaving e) => Some (with_call (with_mail s (delete id (mail s))) id (Done (Failed e)))
      | _ => None
      end
  | E_Answer payload => match worker s with Idle => Some (answer_take s payload) | _ => None end
  | E_Route => match worker s with Took id r => Some (answer_route s id r) | _ => None end
  | E_Reply => match worker s with Routed id r => Some (answer_send s id r) | _ => None end
  | E_Drop =>
      match worker s with
      | Unheard (Some c) => Some (with_worker (with_routes s (delete c (routes s)) (inboxes s)) Idle)
      | Unheard None => Some (with_worker s Idle)
      | _ => None
      end
  | E_Stream f => match worker s with Idle => if channel f =? 0 then None else Some (dispatch_stream s closed_from f) | _ => None end
  | E_Write => match worker s with Idle => write_one s | _ => None end
  | E_Stop => match worker s with Idle => Some (with_worker s Losing) | _ => None end
  | E_Lose => lose_step s
  | E_Take name => i ← inboxes s !! name; Some (with_routes s (routes s) (<[name := (route_take i).1]> (inboxes s)))
  | E_StreamSend c k payload => Some (with_link s (link_send (link s) c k payload).1)
  end.

Definition run (closed_from : list N → option Closed) (es : list Event) : option Core := foldM (do closed_from) core_new es.

(** ** The invariant of a call *)

(** The messages taken for a call. *)
Definition heard (s : Core) (id : N) : list V := (filter (λ x, x.1 = id) (taken s)).*2.

(** The result the worker holds for a call. *)
Definition held (w : Worker) (id : N) : option (res Refusal V) :=
  match w with
  | Took i r => if i =? id then Some r else None
  | Routed i r => if i =? id then Some (result r) else None
  | _ => None
  end.

(** In [call], after the registration and before the removal. *)
Definition inside (p : Phase) : bool := match p with Registered | Waiting | GivingUp _ => true | _ => false end.
Definition leaving (p : Phase) : bool := match p with Leaving _ => true | _ => false end.
Definition failed (p : Phase) : bool := match p with Done (Failed _) => true | _ => false end.

(** Where a call stands: its phase, whether it is in [pending], what the worker
    holds for it, what its channel holds, and the messages taken for it. *)
Inductive stands : option Phase → bool → option (res Refusal V) → option Reply → list V → Prop :=
| stands_new : stands None false None None []
| stands_begun : stands (Some Begun) false None None []
| stands_pending p : inside p = true → stands (Some p) true None None []
| stands_cleared p : inside p || leaving p = true → stands (Some p) false None None []
| stands_held p r m : inside p || leaving p || failed p = true → r = answer_result m → stands (Some p) false (Some r) None [m]
| stands_mail p r m : inside p || leaving p = true → result r = answer_result m → stands (Some p) false None (Some r) [m]
| stands_answered r m : result r = answer_result m → stands (Some (Done (Answered r))) false None None [m]
| stands_disconnected : stands (Some (Done Disconnected)) false None None []
| stands_failed e ms : (length ms ≤ 1)%nat → stands (Some (Done (Failed e))) false None None ms.

Definition at_ (s : Core) (id : N) : Prop :=
  stands (calls s !! id) (bool_decide (id ∈ pending s)) (held (worker s) id) (mail s !! id) (heard s id).

(** [s'] leaves the call as it is in [s]. *)
Definition same_call (s s' : Core) (id : N) : Prop :=
  calls s' !! id = calls s !! id ∧ (id ∈ pending s' ↔ id ∈ pending s) ∧ held (worker s') id = held (worker s) id
  ∧ mail s' !! id = mail s !! id ∧ heard s' id = heard s id.

Lemma same_call_at s s' id : same_call s s' id → at_ s id → at_ s' id.
Proof. intros (E1 & E2 & E3 & E4 & E5). unfold at_. rewrite E1, E3, E4, E5. by rewrite (bool_decide_ext _ _ E2). Qed.

Lemma heard_snoc s id m j : (filter (λ x, x.1 = j) (taken s ++ [(id, m)])).*2 = heard s j ++ (if id =? j then [m] else []).
Proof.
  unfold heard. rewrite filter_app, fmap_app. f_equal. rewrite filter_cons. cbn [fst].
  destruct (N.eqb_spec id j); [by rewrite decide_True|by rewrite decide_False].
Qed.

(** The worker's phases that hold nothing for anybody. *)
Definition free (w : Worker) : bool := match w with Took _ _ | Routed _ _ => false | _ => true end.

Lemma free_held w id : free w = true → held w id = None.
Proof. by destruct w. Qed.

(** What holds of every reachable state while fewer than 2^64 calls began. *)
Record inv (s : Core) : Prop := MkInv {
  inv_at : ∀ id, at_ s id;
  inv_next : next_id s = begun s + 1;
  inv_fresh : ∀ id, begun s < id → calls s !! id = None;
  inv_bound : (size (pending s) ≤ MAX_IN_FLIGHT)%nat;
  inv_taken : ∀ id m, (id, m) ∈ taken s → answer_id m = Some id
}.

Lemma inv_new : inv core_new.
Proof.
  split.
  - intros id. unfold at_. cbn [calls pending mail worker core_new held]. rewrite !lookup_empty. constructor.
  - done.
  - intros id _. apply lookup_empty.
  - cbn. rewrite size_empty. unfold MAX_IN_FLIGHT. lia.
  - intros id m Hin. by apply elem_of_nil in Hin.
Qed.

(** An event that touches one call at most. *)
Lemma inv_one s s' id :
  inv s → at_ s' id → (∀ j, j ≠ id → same_call s s' j) → next_id s' = next_id s → begun s' = begun s →
  (∀ j, calls s !! j = None → calls s' !! j = None) → (size (pending s') ≤ MAX_IN_FLIGHT)%nat →
  (∀ j m, (j, m) ∈ taken s' → answer_id m = Some j) → inv s'.
Proof.
  intros [Ha Hn Hf Hb Ht] Hid Hother En Eb Hc Hsz Htk. split.
  - intros j. destruct (decide (j = id)) as [->|Hne]; [done|]. by eapply same_call_at; [apply Hother|].
  - congruence.
  - intros j Hj. apply Hc, Hf. congruence.
  - done.
  - done.
Qed.

Lemma inv_none s s' :
  inv s → (∀ j, same_call s s' j) → next_id s' = next_id s → begun s' = begun s →
  (size (pending s') ≤ MAX_IN_FLIGHT)%nat → taken s' = taken s → inv s'.
Proof.
  intros [Ha Hn Hf Hb Ht] Hother En Eb Hsz Htk. split.
  - intros j. by eapply same_call_at; [apply Hother|].
  - congruence.
  - intros j Hj. destruct (Hother j) as [-> _]. apply Hf. congruence.
  - done.
  - rewrite Htk. done.
Qed.

Lemma at_intro s id p b h m ms :
  stands p b h m ms →
  calls s !! id = p → bool_decide (id ∈ pending s) = b → held (worker s) id = h → mail s !! id = m → heard s id = ms →
  at_ s id.
Proof. unfold at_. by intros ? -> -> -> -> ->. Qed.

Ltac others := intros ? ?; repeat split; cbn; rewrite ?lookup_insert_ne, ?lookup_delete_ne by done; set_solver.
Ltac standing Hi id Hc :=
  let H := fresh "Hst" in
  pose proof (inv_at _ Hi id) as H; unfold at_ in H; rewrite Hc in H; inversion H; subst; clear H.
Ltac stand p c :=
  eapply (at_intro _ _ (Some p)); cbn; [eapply c; cbn; rewrite ?orb_true_iff; eauto|by rewrite ?lookup_insert_eq|done..].
Ltac kept Hc := intros j Hj; cbn; rewrite ?lookup_insert_ne; [done|intros <-; congruence].

Lemma begin_inv s s' : inv s → call_begin s = Some s' → begun s' + 1 < 2 ^ 64 → inv s'.
Proof.
  intros Hi. unfold call_begin. destruct (lost s); [done|]. intros [= <-]. cbn. intros Hlt.
  pose proof Hi as [Ha Hn Hf Hb Ht].
  assert (calls s !! next_id s = None) as Hc by (apply Hf; lia).
  split; cbn; [| | |done|done].
  - intros j. destruct (decide (j = next_id s)) as [->|Hne].
    + standing Hi (next_id s) Hc. eapply at_intro; cbn; [apply stands_begun|apply lookup_insert_eq|done..].
    + eapply same_call_at; [|apply Ha]. repeat split; cbn; try done. by rewrite lookup_insert_ne.
  - rewrite N.mod_small; lia.
  - intros j Hj. rewrite lookup_insert_ne by lia. apply Hf. lia.
Qed.

Lemma register_inv s id : inv s → calls s !! id = Some Begun → inv (call_register s id).
Proof.
  intros Hi Hc. unfold call_register. standing Hi id Hc; [|done..].
  destruct (Nat.leb_spec MAX_IN_FLIGHT (size (pending s))) as [Hfull|Hroom].
  - apply (inv_one s _ id); [done| |others|done|done|kept Hc|apply Hi|apply Hi].
    eapply at_intro; cbn; [apply (stands_failed Busy []); cbn; lia|apply lookup_insert_eq|done..].
  - assert (id ∉ pending s) as Hnin by (by eapply bool_decide_eq_false_1).
    apply (inv_one s _ id); [done| |others|done|done|kept Hc| |apply Hi].
    + eapply at_intro; cbn; [by apply (stands_pending Registered)|apply lookup_insert_eq|apply bool_decide_eq_true; set_solver|done..].
    + cbn. rewrite size_union by set_solver. rewrite size_singleton. lia.
Qed.

(** A change of phase that keeps a call inside. *)
Lemma phase_inv s s' id p p' :
  inv s → calls s !! id = Some p → inside p = true → inside p' = true →
  s' = with_call s id p' ∨ (∃ l, s' = with_call (with_link s l) id p') → inv s'.
Proof.
  intros Hi Hc Hp Hp' [->|[l ->]]; (apply (inv_one s _ id); [done| |others|done|done|kept Hc|apply Hi|apply Hi]);
    (standing Hi id Hc; try done; [stand p' stands_pending|stand p' stands_cleared|stand p' stands_held|stand p' stands_mail]).
Qed.

Lemma send_inv s id payload : inv s → calls s !! id = Some Registered → inv (call_send s id payload).
Proof.
  intros Hi Hc. unfold call_send. destruct payload as [payload|];
    [destruct (link_send _ _ _ _) as [l [?|e]]|]; (eapply (phase_inv s _ id Registered); [done|done|done| |eauto]); done.
Qed.

Lemma receive_inv s s' id : inv s → calls s !! id = Some Waiting → call_receive s id = Some s' → inv s'.
Proof.
  intros Hi Hc. unfold call_receive. destruct (mail s !! id) as [r|] eqn:Hm.
  - intros [= <-]. apply (inv_one s _ id); [done| |others|done|done|kept Hc|apply Hi|apply Hi].
    standing Hi id Hc; try congruence.
    assert (r0 = r) as -> by congruence.
    eapply at_intro; cbn; [by apply (stands_answered r m)|apply lookup_insert_eq|done|done|apply lookup_delete_eq|done].
  - destruct (_ || _) eqn:Hb; [done|]. intros [= <-]. apply orb_false_iff in Hb as [Hb Hh].
    apply (inv_one s _ id); [done| |others|done|done|kept Hc|apply Hi|apply Hi].
    standing Hi id Hc; try congruence.
    + eapply at_intro; cbn; [by apply stands_disconnected|apply lookup_insert_eq|done..].
    + exfalso. destruct (worker s); cbn in *; try done; by rewrite Hh in *.
Qed.

Lemma remove_inv s id e : inv s → calls s !! id = Some (GivingUp e) →
  inv (with_call (with_pending s (pending s ∖ {[id]})) id (Leaving e)).
Proof.
  intros Hi Hc. assert (bool_decide (id ∈ pending s ∖ {[id]}) = false) as Hb by (apply bool_decide_eq_false; set_solver).
  apply (inv_one s _ id); [done| |others|done|done|kept Hc| |apply Hi].
  - standing Hi id Hc; try done;
      [stand (Leaving e : Phase) stands_cleared|stand (Leaving e : Phase) stands_cleared|stand (Leaving e : Phase) stands_held
      |stand (Leaving e : Phase) stands_mail].
  - cbn. etrans; [|apply Hi]. apply subseteq_size. set_solver.
Qed.

Lemma leave_inv s id e : inv s → calls s !! id = Some (Leaving e) →
  inv (with_call (with_mail s (delete id (mail s))) id (Done (Failed e))).
Proof.
  intros Hi Hc. apply (inv_one s _ id); [done| |others|done|done|kept Hc|apply Hi|apply Hi].
  pose proof (lookup_delete_eq (mail s) id) as Hd.
  standing Hi id Hc; try done.
  - eapply at_intro; cbn; [apply (stands_failed e []); cbn; lia|apply lookup_insert_eq|done..].
  - eapply at_intro; cbn; [apply (stands_held (Done (Failed e)) (answer_result m) m); done|apply lookup_insert_eq|done..].
  - eapply at_intro; cbn; [apply (stands_failed e [m]); cbn; lia|apply lookup_insert_eq|done..].
Qed.

Lemma answer_inv s payload : inv s → worker s = Idle → inv (answer_take s payload).
Proof.
  intros Hi Hw. unfold answer_take.
  destruct (from_slice payload) as [m|]; [|apply (inv_none s); [done| |done..|apply Hi|done]; intros j; repeat split; cbn; try done; by rewrite Hw].
  destruct (answer_id m) as [id|] eqn:Hid; [|done]. case_bool_decide as Hin; [|done].
  apply (inv_one s _ id); [done| | |done|done|done| |].
  - pose proof (inv_at s Hi id) as Hst. unfold at_ in Hst. rewrite (bool_decide_eq_true_2 _ Hin) in Hst.
    inversion Hst as [| |p Hp Ec Ep Eh Em Ems| | | | | |]; subst.
    eapply (at_intro _ _ (Some p) _ (Some (answer_result m)) _ [m]); cbn.
    + apply stands_held; [by rewrite Hp|done].
    + done.
    + apply bool_decide_eq_false. set_solver.
    + by rewrite N.eqb_refl.
    + done.
    + unfold heard. cbn. rewrite heard_snoc, <- Ems, N.eqb_refl. done.
  - intros j Hj. unfold same_call. split_and!; cbn; [done|set_solver| |done|].
    + rewrite Hw. by apply N.eqb_neq in Hj; rewrite N.eqb_sym, Hj.
    + unfold heard at 1. cbn. rewrite heard_snoc. apply N.eqb_neq in Hj. by rewrite N.eqb_sym, Hj, app_nil_r.
  - cbn. etrans; [|apply Hi]. apply subseteq_size. set_solver.
  - cbn. intros j m' [Hj|[= -> ->]%list_elem_of_singleton]%elem_of_app; [by apply Hi|done].
Qed.

Lemma route_inv s id r : inv s → worker s = Took id r → inv (answer_route s id r).
Proof.
  intros Hi Hw. unfold answer_route. destruct (answer_channel r); (apply (inv_none s); [done| |done..|apply Hi|done]);
    intros j; repeat split; cbn; try done; by rewrite Hw.
Qed.

Lemma reply_inv s id r : inv s → worker s = Routed id r → inv (answer_send s id r).
Proof.
  intros Hi Hw. pose proof (inv_at s Hi id) as Hst. unfold at_ in Hst. rewrite Hw in Hst. cbn in Hst. rewrite N.eqb_refl in Hst.
  inversion Hst as [| | | |p r' m Hp Er Ec Ep Eh Em Ems| | | |]; subst. unfold answer_send, listens.
  rewrite <- Ec, <- Em, bool_decide_eq_true_2, andb_true_r by done.
  assert (∀ w j, free w = true → j ≠ id → held w j = held (worker s) j) as Hfree.
  { intros w j Hfw Hj. rewrite (free_held _ _ Hfw), Hw. cbn. apply N.eqb_neq in Hj. by rewrite N.eqb_sym, Hj. }
  destruct (match p with Done _ => false | _ => true end) eqn:Hl.
  - apply (inv_one s _ id); [done| | |done|done|done|apply Hi|apply Hi].
    + eapply at_intro; cbn; [by apply (stands_mail p r m); [destruct p|]|done|done|done|apply lookup_insert_eq|done].
    + intros j Hj. unfold same_call. split_and!; cbn; [done|done|by rewrite <- (Hfree Idle j)|by rewrite lookup_insert_ne|done].
  - destruct p as [| | | | |[| |e]]; try done.
    apply (inv_one s _ id); [done| | |done|done|done|apply Hi|apply Hi].
    + eapply at_intro; cbn; [apply (stands_failed e [m]); cbn; lia|done..].
    + intros j Hj. unfold same_call. split_and!; cbn; [done|done|by rewrite <- (Hfree Idle j)|done|done].
Qed.

(** An event of the worker that holds nothing and touches no call. *)
Lemma free_inv s s' :
  inv s → free (worker s) = true → free (worker s') = true ∨ worker s' = worker s → calls s' = calls s → mail s' = mail s →
  pending s' = pending s → next_id s' = next_id s → begun s' = begun s → taken s' = taken s → inv s'.
Proof.
  intros Hi Hf Hf' Ec Em Ep En Eb Et. apply (inv_none s); [done| |done|done|rewrite Ep; apply Hi|done].
  intros j. unfold same_call, heard. rewrite Ec, Em, Ep, Et. split_and!; [done|done| |done|done].
  destruct Hf' as [Hf'| ->]; [|done]. by rewrite !free_held.
Qed.

Lemma stream_inv s cf f : inv s → worker s = Idle → inv (dispatch_stream s cf f).
Proof.
  intros Hi Hw. unfold dispatch_stream.
  destruct (kind f); try done; (destruct (routes s !! channel f) as [name|]; [|done]);
    [destruct (route_push _ _) as [[i b]|v]|]; (apply (free_inv s); [done|by rewrite Hw| |done..]); (by left) || by right.
Qed.

Lemma lose_inv s s' : inv s → lose_step s = Some s' → inv s'.
Proof.
  intros Hi. unfold lose_step. destruct (worker s) eqn:Hw; try done; intros [= <-];
    try (apply (free_inv s); [done|by rewrite Hw|by left|done..]).
  pose proof Hi as [Ha Hn Hf Hb Ht]. split; cbn; [|done|done|rewrite size_empty; unfold MAX_IN_FLIGHT; lia|done].
  intros j. specialize (Ha j). unfold at_ in *. rewrite Hw in Ha.
  change (heard (with_worker (with_pending s ∅) PendingCleared) j) with (heard s j).
  cbn [calls mail pending worker with_worker with_pending held] in *. rewrite (bool_decide_eq_false_2 (j ∈ ∅)) by set_solver.
  inversion Ha as [| |p Hp Ec Ep Eh Em Ems| | | | | |]; subst; try (constructor; done).
  apply stands_cleared. by rewrite Hp.
Qed.

(** An event that leaves the worker and the calls alone. *)
Lemma inert_inv s s' :
  inv s → worker s' = worker s → calls s' = calls s → mail s' = mail s →
  pending s' = pending s → next_id s' = next_id s → begun s' = begun s → taken s' = taken s → inv s'.
Proof.
  intros Hi Ew Ec Em Ep En Eb Et. apply (inv_none s); [done| |done|done|rewrite Ep; apply Hi|done].
  intros j. unfold same_call, heard. by rewrite Ec, Em, Ep, Et, Ew.
Qed.

Create HintDb calls.
#[local] Hint Resolve begin_inv register_inv send_inv receive_inv remove_inv leave_inv answer_inv route_inv reply_inv
  stream_inv lose_inv : calls.

Lemma do_inv cf s e s' : inv s → do cf s e = Some s' → begun s' + 1 < 2 ^ 64 → inv s'.
Proof.
  intros Hi Hd Hlt. destruct e; cbn in Hd; repeat (case_match; try done); simplify_eq; eauto with calls.
  - eapply (phase_inv s _ id Waiting); [done|done|done| |by left]. done.
  - apply (free_inv s); [done|by match goal with E : worker s = _ |- _ => rewrite E end|by left|done..].
  - apply (free_inv s); [done|by match goal with E : worker s = _ |- _ => rewrite E end|by left|done..].
  - unfold write_one in Hd. destruct (queued (link s)); simplify_eq. by apply (inert_inv s).
  - apply (free_inv s); [done|by match goal with E : worker s = _ |- _ => rewrite E end|by left|done..].
  - destruct (inboxes s !! name); simplify_eq/=. by apply (inert_inv s).
  - by apply (inert_inv s).
Qed.

Lemma do_begun cf s e s' : do cf s e = Some s' → begun s ≤ begun s'.
Proof.
  intros Hd. destruct e; cbn in Hd;
    unfold call_begin, call_register, call_send, call_receive, answer_take, answer_route, answer_send, dispatch_stream, write_one,
      lose_step, end_routes in Hd;
    repeat (case_match; try done); simplify_eq/=; try done; try lia;
    try (destruct (inboxes s !! name); simplify_eq/=; done); repeat (case_match; try done).
Qed.

Lemma run_ind (P : Core → Prop) cf es s :
  P core_new → (∀ s e s', inv s → P s → do cf s e = Some s' → begun s' + 1 < 2 ^ 64 → P s') →
  run cf es = Some s → begun s + 1 < 2 ^ 64 → inv s ∧ P s.
Proof.
  intros H0 Hstep. unfold run. revert s. induction es as [|e es IH] using rev_ind; intros s.
  { intros [= <-] _. split; [apply inv_new|done]. }
  rewrite foldM_app. destruct (foldM _ core_new es) as [s1|] eqn:Hs1; cbn; [|done].
  destruct (do cf s1 e) as [s2|] eqn:Hd; cbn; [|done]. intros [= <-] Hlt.
  pose proof (do_begun _ _ _ _ Hd) as Hle. destruct (IH s1 eq_refl) as [Hi HP]; [lia|].
  split; [by eapply do_inv|by eapply Hstep].
Qed.

Lemma heard_elem s id m : m ∈ heard s id ↔ (id, m) ∈ taken s.
Proof.
  unfold heard. rewrite list_elem_of_fmap. split.
  - intros ([j m'] & -> & [Ej Hin]%list_elem_of_filter). cbn in *. by subst.
  - intros Hin. exists (id, m). split; [done|]. by apply list_elem_of_filter.
Qed.

(** A call whose request was queued: it waits, or came to an end after it did. *)
Definition waited (p : Phase) : bool :=
  match p with
  | Waiting | GivingUp Timeout | Leaving Timeout | Done (Answered _) | Done Disconnected | Done (Failed Timeout) => true
  | _ => false
  end.

Lemma calls_updated (m : gmap N Phase) id j p q :
  m !! id = Some p → waited p = true → (id = j → waited q = true) →
  ∃ p', <[j := q]> m !! id = Some p' ∧ waited p' = true.
Proof.
  intros Hp Hw Hq. destruct (decide (id = j)) as [->|Hne]; [rewrite lookup_insert_eq; eauto|].
  rewrite lookup_insert_ne by done. eauto.
Qed.

Lemma do_waited cf s e s' id p :
  inv s → do cf s e = Some s' → calls s !! id = Some p → waited p = true → ∃ p', calls s' !! id = Some p' ∧ waited p' = true.
Proof.
  intros Hi Hd Hp Hw.
  assert (next_id s ≠ id) as Hnext.
  { intros <-. rewrite (inv_fresh s Hi) in Hp; [done|]. rewrite (inv_next s Hi). lia. }
  destruct e; cbn in Hd;
    unfold call_begin, call_register, call_send, call_receive, answer_take, answer_route, answer_send, dispatch_stream, write_one,
      lose_step, end_routes in Hd;
    repeat (case_match; try done); simplify_eq/=; eauto.
  all: try (eapply calls_updated; [done|done|]; intros ->; congruence).
  all: try (eapply calls_updated; [done|done|]; intros ->; simplify_eq/=; by repeat case_match).
  all: destruct (inboxes s !! name); simplify_eq/=; eauto.
Qed.

Lemma run_waited cf es1 es2 s1 s id p :
  run cf es1 = Some s1 → run cf (es1 ++ es2) = Some s → begun s + 1 < 2 ^ 64 →
  calls s1 !! id = Some p → waited p = true → ∃ p', calls s !! id = Some p' ∧ waited p' = true.
Proof.
  intros H1 H2 Hlt Hp Hw. revert s H2 Hlt. induction es2 as [|e es2 IH] using rev_ind; intros s.
  { rewrite app_nil_r, H1. intros [= <-] _. eauto. }
  rewrite app_assoc. unfold run in *. rewrite (foldM_app _ _ (es1 ++ es2)).
  destruct (foldM _ core_new (es1 ++ es2)) as [s2|] eqn:Hs2; cbn; [|done]. destruct (do cf s2 e) as [s3|] eqn:Hd; cbn; [|done].
  intros [= <-] Hlt. pose proof (do_begun _ _ _ _ Hd). destruct (IH s2 eq_refl) as (p' & Hp' & Hw'); [lia|].
  destruct (run_ind (λ _, True) cf (es1 ++ es2) s2) as [Hi _]; [done|done|exact Hs2|lia|]. by eapply do_waited.
Qed.

(** C20: whatever the callers, the worker and the core do, in whatever order, while fewer than 2^64 calls began:
    never more than 64 calls wait; a message is taken for a call at most once and only by its id; a call that returns
    an answer returns the one message taken for its id; a call that was sent, that is whose request was once queued, is
    told that the connection was lost only if no message was ever taken for it; and a message taken for a call that
    still waits is on its way to it or in its channel. (A call that is not sent because the connection is gone is told
    so whatever the core had put under its id.) *)
Theorem calls_matched cf es s : run cf es = Some s → begun s + 1 < 2 ^ 64 →
  (size (pending s) ≤ MAX_IN_FLIGHT)%nat ∧
  (∀ id, (length (heard s id) ≤ 1)%nat) ∧
  (∀ id m, (id, m) ∈ taken s → answer_id m = Some id) ∧
  (∀ id r, calls s !! id = Some (Done (Answered r)) → ∃ m, heard s id = [m] ∧ result r = answer_result m) ∧
  (∀ es1 es2 s1 id o, es = es1 ++ es2 → run cf es1 = Some s1 → calls s1 !! id = Some Waiting →
     calls s !! id = Some (Done o) → call_result o = Err Lost → heard s id = []) ∧
  (∀ id m, calls s !! id = Some Waiting → heard s id = [m] →
     held (worker s) id = Some (answer_result m) ∨ ∃ r, mail s !! id = Some r ∧ result r = answer_result m).
Proof.
  intros Hr Hlt. destruct (run_ind (λ _, True) cf es s) as [Hi _]; [done..|]. pose proof Hi as [Ha Hn Hf Hb Ht].
  split_and!; [done| |done| | |].
  - intros id. specialize (Ha id). inversion Ha; cbn; try lia; done.
  - intros id r Hc. standing Hi id Hc; try done. eauto.
  - intros es1 es2 s1 id o -> H1 Hwait Hc Hlost.
    destruct (run_waited cf es1 es2 s1 s id Waiting H1 Hr Hlt Hwait eq_refl) as (p & Hp & Hw). rewrite Hc in Hp. injection Hp as <-.
    destruct o as [r| |[]]; cbn in Hlost, Hw; try done; [by destruct (result r)|]. standing Hi id Hc; done.
  - intros id m Hc Hh. standing Hi id Hc; try congruence.
    + left. congruence.
    + right. exists r. split; [done|]. congruence.
Qed.

(** ** Streams *)

(** The reader of a route was told, or will be, that it ended. *)
Definition ended (s : Core) (name : N) : Prop := ∃ i e, inboxes s !! name = Some i ∧ end_ i = Some e.

(** A call that gave up. *)
Definition gave_up (s : Core) (id : N) : Prop := ∃ e, calls s !! id = Some (Done (Failed e)).

(** A reply on its way to its call, or there. *)
Definition replied (s : Core) (id : N) (r : Reply) : Prop :=
  mail s !! id = Some r ∨ worker s = Routed id r ∨ calls s !! id = Some (Done (Answered r)).

(** The core names each channel it opens once. *)
Definition distinct (s : Core) : Prop := NoDup ((λ x, x.1.2) <$> opened s).

Record routed (s : Core) : Prop := MkRouted {
  ro_names : ∀ k x, opened s !! k = Some x → x.1.1 = N.of_nat k;
  ro_open : ∀ c n, routes s !! c = Some n →
    (∃ id, (n, c, id) ∈ opened s) ∧ ∃ i, inboxes s !! n = Some i ∧ end_ i = None;
  ro_made : ∀ n c id, (n, c, id) ∈ opened s → is_Some (inboxes s !! n);
  ro_kept : distinct s → ∀ n c id, (n, c, id) ∈ opened s → routes s !! c = Some n ∨ ended s n ∨ gave_up s id;
  ro_reply : ∀ id r c n, replied s id r → route r = Some (c, n) → (n, c, id) ∈ opened s;
  ro_gone : worker s = RoutesEnded ∨ worker s = Gone → routes s = ∅;
  ro_unheard : ∀ c, worker s = Unheard (Some c) → ∃ n id, (n, c, id) ∈ opened s ∧ gave_up s id
}.

Lemma routed_new : routed core_new.
Proof.
  split; cbn.
  - by intros k x.
  - intros c n E. by rewrite lookup_empty in E.
  - by intros n c id ?%elem_of_nil.
  - by intros _ n c id ?%elem_of_nil.
  - intros id r c n [E|[E|E]] _; cbn in E; [by rewrite lookup_empty in E|done|by rewrite lookup_empty in E].
  - done.
  - done.
Qed.

(** An event that opens no route. *)
Lemma routed_step s s' :
  routed s → opened s' = opened s →
  (∀ c n, routes s' !! c = Some n → routes s !! c = Some n ∧ ∃ i, inboxes s' !! n = Some i ∧ end_ i = None) →
  (∀ n, is_Some (inboxes s !! n) → is_Some (inboxes s' !! n)) → (∀ n, ended s n → ended s' n) →
  (∀ n c id, distinct s → (n, c, id) ∈ opened s → routes s !! c = Some n → routes s' !! c = Some n ∨ ended s' n ∨ gave_up s' id) →
  (∀ id, gave_up s id → gave_up s' id) → (∀ id r, is_Some (route r) → replied s' id r → replied s id r) →
  (worker s' = RoutesEnded ∨ worker s' = Gone → routes s' = ∅) →
  (∀ c, worker s' = Unheard (Some c) → ∃ n id, (n, c, id) ∈ opened s ∧ gave_up s' id) → routed s'.
Proof.
  intros [R1 R2 R3 R4 R5 R6 R7] Eo Hr Hm He Hk Hg Hrep Hgone Hun. unfold distinct in *. split; rewrite ?Eo.
  - done.
  - intros c n Hc. destruct (Hr c n Hc) as [Hc' ?]. split; [|done]. by apply R2.
  - intros n c id Hin. eapply Hm, R3, Hin.
  - intros Hd n c id Hin. unfold distinct in Hd. rewrite Eo in Hd. destruct (R4 Hd n c id Hin) as [H1|[H1|H1]]; auto.
  - intros id r c n Hrp Hrt. apply (R5 id r); [|done]. apply Hrep; [|done]. by rewrite Hrt.
  - done.
  - done.
Qed.

(** An event that leaves the routes alone. *)
Lemma routed_frame s s' :
  routed s → opened s' = opened s → routes s' = routes s → inboxes s' = inboxes s →
  (∀ id, gave_up s id → gave_up s' id) → (∀ id r, is_Some (route r) → replied s' id r → replied s id r) →
  (worker s' = RoutesEnded ∨ worker s' = Gone → worker s = RoutesEnded ∨ worker s = Gone) →
  (∀ c, worker s' = Unheard (Some c) → ∃ n id, (n, c, id) ∈ opened s ∧ gave_up s' id) → routed s'.
Proof.
  intros Hro Eo Er Ei Hg Hrep Hgone Hun.
  apply (routed_step s); try done; unfold ended; rewrite ?Er, ?Ei; try done; try (by eauto).
  - intros c n Hc. split; [done|]. by apply (ro_open _ Hro c).
  - intros H1. by apply (ro_gone _ Hro), Hgone.
Qed.

(** The caller's events move one call that has not returned. *)
Lemma gave_up_insert s s' id p q :
  calls s !! id = p → (∀ o, p ≠ Some (Done o)) → calls s' = <[id := q]> (calls s) → ∀ j, gave_up s j → gave_up s' j.
Proof.
  intros Hc Hp E j [e He]. exists e. rewrite E, lookup_insert_ne; [done|]. intros ->. rewrite Hc in He. by apply (Hp (Failed e)).
Qed.

(** A caller's event: the reply it takes, if any, was in its channel. *)
Lemma caller_routed s s' id p q :
  routed s → calls s !! id = p → (∀ o, p ≠ Some (Done o)) → calls s' = <[id := q]> (calls s) →
  (∀ j r, mail s' !! j = Some r → mail s !! j = Some r) → (∀ r, q = Done (Answered r) → mail s !! id = Some r) →
  opened s' = opened s → routes s' = routes s → inboxes s' = inboxes s → worker s' = worker s → routed s'.
Proof.
  intros Hro Hc Hp Ec Hm Hq Eo Er Ei Ew.
  assert (∀ j, gave_up s j → gave_up s' j) as Hg by (by eapply gave_up_insert).
  apply (routed_frame s); try done; rewrite ?Ew.
  - intros j r _ [H1|[H1|H1]]; [left; by apply Hm|right; left; congruence|]. rewrite Ec in H1.
    destruct (decide (j = id)) as [->|Hne].
    + rewrite lookup_insert_eq in H1. left. apply Hq. congruence.
    + rewrite lookup_insert_ne in H1 by done. by right; right.
  - done.
  - intros c Hw. destruct (ro_unheard _ Hro c Hw) as (n & i & Hin & Hgu). exists n, i. auto.
Qed.

(** An event of the worker that leaves the calls, the routes and the channels. *)
Lemma worker_routed s s' :
  routed s → calls s' = calls s → mail s' = mail s → opened s' = opened s → routes s' = routes s → inboxes s' = inboxes s →
  worker s' = worker s ∨ ((∀ id r, worker s' ≠ Routed id r) ∧ (∀ c, worker s' ≠ Unheard (Some c))
    ∧ (worker s' = RoutesEnded ∨ worker s' = Gone → worker s = RoutesEnded ∨ worker s = Gone)) → routed s'.
Proof.
  intros Hro Ec Em Eo Er Ei Hw. apply (routed_frame s); try done; unfold gave_up, replied; rewrite ?Ec, ?Em.
  - done.
  - destruct Hw as [->|[Hw _]]; [done|]. intros id r _ [H1|[H1|H1]]; [by left|by destruct (Hw id r)|by right; right].
  - destruct Hw as [->|(_ & _ & Hw)]; [done|apply Hw].
  - destruct Hw as [->|(_ & Hw & _)]; [apply Hro|]. intros c E. by destruct (Hw c).
Qed.

Lemma route_routed s id r : routed s → worker s = Took id r → routed (answer_route s id r).
Proof.
  intros Hro Hw. unfold answer_route. destruct (answer_channel r) as [c|] eqn:Hch.
  2:{ apply (routed_frame s); try done; [|by intros [|]].
      intros j r' Hrt [H1|[H1|H1]]; [by left| |by right; right]. cbn in H1. injection H1 as <- <-. by destruct Hrt. }
  pose proof Hro as [R1 R2 R3 R4 R5 R6 R7]. set (n := N.of_nat (length (opened s))).
  assert (∀ m c' j, (m, c', j) ∈ opened s → m ≠ n) as Hnew.
  { intros m c' j [k Hk]%list_elem_of_lookup. pose proof (R1 k _ Hk) as E. cbn in E. apply lookup_lt_Some in Hk. unfold n. lia. }
  split; cbn.
  - intros k x Hx. apply lookup_app_Some in Hx as [Hx|[Hle Hx]]; [by apply R1|].
    destruct (k - length (opened s))%nat as [|z] eqn:Ek; [|done]. injection Hx as <-. cbn. unfold n. lia.
  - intros c' m Hc'. destruct (decide (c' = c)) as [->|Hne].
    + rewrite lookup_insert_eq in Hc'. injection Hc' as <-. split; [exists id; set_solver|].
      exists inbox_default. by rewrite lookup_insert_eq.
    + rewrite lookup_insert_ne in Hc' by done. destruct (R2 c' m Hc') as [[j Hj] Hi]. split; [exists j; set_solver|].
      rewrite lookup_insert_ne; [done|]. symmetry. by eapply Hnew.
  - intros m c' j [Hin|[= -> -> ->]%list_elem_of_singleton]%elem_of_app; [|by rewrite lookup_insert_eq].
    rewrite lookup_insert_ne; [by eapply R3|]. symmetry. by eapply Hnew.
  - intros Hd m c' j Hin. unfold distinct in Hd. cbn in Hd. rewrite fmap_app in Hd. apply NoDup_app in Hd as (Hd & Hdc & _).
    apply elem_of_app in Hin as [Hin|[= -> -> ->]%list_elem_of_singleton]; [|left; apply lookup_insert_eq].
    assert (c' ≠ c) as Hc'.
    { intros ->. apply (Hdc c); [|set_solver]. apply list_elem_of_fmap. by exists (m, c, j). }
    destruct (R4 Hd m c' j Hin) as [H1|[(i & e & H1 & H2)|H1]]; [left; by rewrite lookup_insert_ne| |by right; right].
    right. left. exists i, e. cbn. rewrite lookup_insert_ne; [done|]. symmetry. by eapply Hnew.
  - intros j r' c' m [H1|[H1|H1]] Hrt; cbn in H1; [| |].
    + apply elem_of_app. left. eapply R5; [by left|done].
    + injection H1 as <- <-. injection Hrt as <- <-. set_solver.
    + apply elem_of_app. left. eapply R5; [by right; right|done].
  - by intros [|].
  - done.
Qed.

Lemma reply_routed s id r : routed s → inv s → worker s = Routed id r → routed (answer_send s id r).
Proof.
  intros Hro Hi Hw. pose proof (inv_at s Hi id) as Hst. unfold at_ in Hst. rewrite Hw in Hst. cbn in Hst. rewrite N.eqb_refl in Hst.
  inversion Hst as [| | | |p r' m Hp Er Ec Ep Eh Em Ems| | | |]; subst. unfold answer_send, listens. rewrite <- Ec, <- Em.
  rewrite bool_decide_eq_true_2, andb_true_r by done.
  destruct (match p with Done _ => false | _ => true end) eqn:Hl.
  - apply (routed_frame s); try done; [|by intros [|]].
    intros j r' Hrt [H1|[H1|H1]]; cbn in H1; [|done|by right; right]. destruct (decide (j = id)) as [->|Hne].
    + rewrite lookup_insert_eq in H1. right. left. congruence.
    + rewrite lookup_insert_ne in H1 by done. by left.
  - apply (routed_frame s); try done; [|by intros [|]|].
    + intros j r' Hrt [H1|[H1|H1]]; cbn in H1; [by left|done|by right; right].
    + intros c E. cbn in E. injection E as E. destruct (route r) as [[c' n]|] eqn:Hrt; [|done]. injection E as ->.
      exists n, id. split; [apply (ro_reply _ Hro id r); [by right; left|done]|].
      destruct p as [| | | | |[| |e]]; try done. by exists e.
Qed.

Lemma opened_once s n c id n' id' : distinct s → (n, c, id) ∈ opened s → (n', c, id') ∈ opened s → n = n' ∧ id = id'.
Proof.
  unfold distinct. intros Hd (k & Hk)%list_elem_of_lookup (k' & Hk')%list_elem_of_lookup.
  assert (k = k') as <-.
  { eapply (NoDup_lookup _ _ _ c Hd); rewrite list_lookup_fmap; [by rewrite Hk|by rewrite Hk']. }
  rewrite Hk in Hk'. by injection Hk' as -> ->.
Qed.

Lemma drop_routed s c : routed s → worker s = Unheard (Some c) →
  routed (with_worker (with_routes s (delete c (routes s)) (inboxes s)) Idle).
Proof.
  intros Hro Hw. destruct (ro_unheard _ Hro c Hw) as (n & id & Hin & Hg).
  apply (routed_step s); try done; cbn.
  - intros c' m Hc'. apply lookup_delete_Some in Hc' as [Hne Hc']. split; [done|]. by apply (ro_open _ Hro c').
  - intros m c' id' Hd Hin' Hc'. destruct (decide (c' = c)) as [->|Hne]; [|left; by rewrite lookup_delete_ne].
    right. right. destruct (opened_once s n c id m id' Hd Hin Hin') as [_ <-]. done.
  - intros j r _ [H1|[H1|H1]]; [by left|done|by right; right].
  - by intros [|].
Qed.

(** A route's inbox changes without losing its end. *)
Lemma inbox_routed s n i i' :
  routed s → inboxes s !! n = Some i → end_ i' = end_ i → routed (with_routes s (routes s) (<[n := i']> (inboxes s))).
Proof.
  intros Hro Hn E. apply (routed_step s); try done; cbn.
  - intros c m Hc. split; [done|]. destruct (ro_open _ Hro c m Hc) as [_ (j & Hj & Ej)].
    destruct (decide (m = n)) as [->|Hne]; [|exists j; by rewrite lookup_insert_ne].
    exists i'. rewrite lookup_insert_eq. split; [done|]. congruence.
  - intros m Hm. destruct (decide (m = n)) as [->|Hne]; [by rewrite lookup_insert_eq|by rewrite lookup_insert_ne].
  - intros m (j & e & Hj & Ej). destruct (decide (m = n)) as [->|Hne].
    + exists i', e. cbn. rewrite lookup_insert_eq. split; [done|]. congruence.
    + exists j, e. cbn. by rewrite lookup_insert_ne.
  - by left.
  - apply Hro.
  - intros c Hc. by apply (ro_unheard _ Hro).
Qed.

(** Routes taken out of the table are ended. *)
Lemma ending_routed s s' f :
  routed s → opened s' = opened s → calls s' = calls s → mail s' = mail s → routes s' ⊆ routes s →
  (∀ n, inboxes s' !! n = f n <$> inboxes s !! n) → (∀ n i, f n i = i ∨ is_Some (end_ (f n i))) →
  (∀ c n, routes s !! c = Some n → routes s' !! c = Some n ∧ (∀ i, f n i = i) ∨ routes s' !! c = None ∧ ∀ i, is_Some (end_ (f n i))) →
  (∀ id r, worker s' = Routed id r → worker s = Routed id r) → (worker s' = RoutesEnded ∨ worker s' = Gone → routes s' = ∅) →
  (∀ c, worker s' = Unheard (Some c) → worker s = worker s') → routed s'.
Proof.
  intros Hro Eo Ec Em Hsub Hi Hf Hr Hw Hg Hu. apply (routed_step s); try done; unfold gave_up, replied, ended.
  - intros c n Hc. pose proof (lookup_weaken _ _ _ _ Hc Hsub) as Hc'. split; [done|].
    destruct (ro_open _ Hro c n Hc') as [_ (i & Hn & Ei)]. destruct (Hr c n Hc') as [[_ Hid]|[Hno _]]; [|congruence].
    exists i. rewrite Hi, Hn. cbn. by rewrite Hid.
  - intros n [i Hn]. rewrite Hi, Hn. by eexists.
  - intros n (i & e & Hn & Ei). rewrite Hi, Hn. cbn. destruct (Hf n i) as [->|[e' He']]; eauto.
  - intros n c id _ Hin Hc. destruct (Hr c n Hc) as [[? _]|[_ Hend]]; [by left|]. right. left.
    destruct (ro_made _ Hro n c id Hin) as [i Hn]. destruct (Hend i) as [e He]. exists (f n i), e. by rewrite Hi, Hn.
  - by rewrite Ec.
  - rewrite Ec, Em. intros id r _ [?|[?|?]]; auto.
  - intros c Hc. rewrite <- (Hu c Hc) in Hc. rewrite Ec. by apply (ro_unheard _ Hro).
Qed.

Lemma name_once s n c id c' id' : routed s → (n, c, id) ∈ opened s → (n, c', id') ∈ opened s → c = c'.
Proof.
  intros Hro (k & Hk)%list_elem_of_lookup (k' & Hk')%list_elem_of_lookup.
  pose proof (ro_names _ Hro _ _ Hk) as E. pose proof (ro_names _ Hro _ _ Hk') as E'. cbn in E, E'.
  assert (k = k') as <- by lia. congruence.
Qed.

Lemma close_routed s c n e : routed s → worker s = Idle → routes s !! c = Some n →
  routed (with_routes s (delete c (routes s)) (alter (λ i, route_end i e) n (inboxes s))).
Proof.
  intros Hro Hw Hc. destruct (ro_open _ Hro c n Hc) as [[id Hin] _].
  apply (ending_routed s _ (λ m, if decide (m = n) then λ i, route_end i e else λ i, i)); try done; cbn.
  - apply delete_subseteq.
  - intros m. destruct (decide (m = n)) as [->|Hne]; [by rewrite lookup_alter_eq|].
    rewrite lookup_alter_ne by done. by destruct (inboxes s !! m).
  - intros m i. destruct (decide (m = n)); [right; by eexists|by left].
  - intros c' m Hc'. destruct (decide (m = n)) as [->|Hne].
    + right. split; [|by eexists]. destruct (ro_open _ Hro c' n Hc') as [[id' Hin'] _].
      rewrite (name_once s n c id c' id' Hro Hin Hin'). apply lookup_delete_eq.
    + left. split; [|done]. rewrite lookup_delete_ne; [done|]. intros <-. congruence.
  - rewrite Hw. by intros [|].
Qed.

Lemma lookup_alter_all {A} (g : A → A) (m : gmap N A) ns n : (∀ a, g (g a) = g a) →
  foldr (alter g) m ns !! n = (if decide (n ∈ ns) then g else λ a, a) <$> m !! n.
Proof.
  intros Hg. induction ns as [|k ns IH]; cbn.
  - rewrite decide_False by apply not_elem_of_nil. by destruct (m !! n).
  - destruct (decide (k = n)) as [->|Hne].
    + rewrite lookup_alter_eq, IH, (decide_True (P := n ∈ n :: ns)) by set_solver.
      destruct (m !! n); cbn; [|done]. destruct (decide (n ∈ ns)); by rewrite ?Hg.
    + rewrite lookup_alter_ne, IH by done. destruct (decide (n ∈ ns)).
      * by rewrite decide_True by set_solver.
      * by rewrite decide_False by set_solver.
Qed.

Lemma end_routes_routed s : routed s → worker s = PendingCleared → routed (with_worker (end_routes s) RoutesEnded).
Proof.
  intros Hro Hw. set (ns := snd <$> map_to_list (routes s)).
  apply (ending_routed s _ (λ m, if decide (m ∈ ns) then λ i, route_end i End_Lost else λ i, i)); try done; cbn.
  - apply map_empty_subseteq.
  - intros m. apply lookup_alter_all. intros i. unfold route_end. by destruct (end_ i).
  - intros m i. destruct (decide (m ∈ ns)); [right; by eexists|by left].
  - intros c n Hc. right. split; [apply lookup_empty|]. intros i.
    rewrite decide_True; [by eexists|]. apply list_elem_of_fmap. exists (c, n). split; [done|]. by apply elem_of_map_to_list.
Qed.

Lemma stream_routed s cf f : routed s → worker s = Idle → routed (dispatch_stream s cf f).
Proof.
  intros Hro Hw. unfold dispatch_stream. destruct (kind f); try done; (destruct (routes s !! channel f) as [n|] eqn:Hc; [|done]).
  - destruct (ro_open _ Hro _ n Hc) as [_ (i & Hn & Ei)]. rewrite Hn. change (default inbox_default (Some i)) with i.
    destruct (route_push i (payload f)) as [[i' b]|v] eqn:Hp.
    + apply (inbox_routed s n i); [done|done|]. unfold route_push in Hp. rewrite Ei in Hp.
      destruct (_ <? _); [done|]. by injection Hp as <- <-.
    + apply (worker_routed s); try done. right. split_and!; [done..|by intros [|]].
  - by apply close_routed.
Qed.

Lemma calls_routed s s' id p q :
  routed s → calls s !! id = Some p → (∀ o, p ≠ Done o) → (∀ r, q ≠ Done (Answered r)) → calls s' = <[id := q]> (calls s) →
  mail s' ⊆ mail s → opened s' = opened s → routes s' = routes s → inboxes s' = inboxes s → worker s' = worker s → routed s'.
Proof.
  intros Hro Hc Hp Hq Ec Hm. apply (caller_routed s s' id (Some p) q); try done.
  - intros o E. injection E as ->. by apply (Hp o).
  - intros j r Hj. by eapply lookup_weaken.
  - intros r ->. by destruct (Hq r).
Qed.

Ltac one_call id Hc :=
  (eapply (calls_routed _ _ id); [done|exact Hc|done| |reflexivity|done..]); done.

Lemma do_routed cf s e s' : inv s → routed s → do cf s e = Some s' → begun s' + 1 < 2 ^ 64 → routed s'.
Proof.
  intros Hi Hro Hd _. destruct e; cbn in Hd.
  - unfold call_begin in Hd. destruct (lost s); simplify_eq.
    (eapply (caller_routed s _ (next_id s) None); [done|apply (inv_fresh _ Hi); rewrite (inv_next _ Hi); lia|done|reflexivity|done| |done..]); done.
  - destruct (calls s !! id) as [[]|] eqn:Hc; simplify_eq. unfold call_register.
    destruct (_ <=? _)%nat; one_call id Hc.
  - destruct (calls s !! id) as [[]|] eqn:Hc; simplify_eq. unfold call_send.
    destruct payload0 as [bs|]; [destruct (link_send _ _ _ _) as [l [|]]|]; one_call id Hc.
  - destruct (calls s !! id) as [[]|] eqn:Hc; simplify_eq. unfold call_receive in Hd.
    destruct (mail s !! id) as [r|] eqn:Hm; simplify_eq.
    + eapply (caller_routed s _ id (Some Waiting)); try done; cbn; [|by intros ? [= <-]].
      intros j r' [_ Hj]%lookup_delete_Some. done.
    + destruct (_ || _); simplify_eq. one_call id Hc.
  - destruct (calls s !! id) as [[]|] eqn:Hc; simplify_eq. destruct (mail s !! id); simplify_eq. one_call id Hc.
  - destruct (calls s !! id) as [[]|] eqn:Hc; simplify_eq. one_call id Hc.
  - destruct (calls s !! id) as [[]|] eqn:Hc; simplify_eq. (eapply (calls_routed s _ id); [done|exact Hc|done| |reflexivity|apply delete_subseteq|done..]); done.
  - destruct (worker s) eqn:Hw; simplify_eq. unfold answer_take. destruct (from_slice _); [|by apply (worker_routed s); try done; right; split_and!; [done..|by intros [|]]].
    destruct (answer_id _); [|done]. case_bool_decide; [|done].
    apply (worker_routed s); try done. right. split_and!; [done..|by intros [|]].
  - destruct (worker s) eqn:Hw; simplify_eq. by apply route_routed.
  - destruct (worker s) eqn:Hw; simplify_eq. by apply reply_routed.
  - destruct (worker s) as [| | |[c|]| | | | |] eqn:Hw; simplify_eq; [by apply drop_routed|].
    apply (worker_routed s); try done. right. split_and!; [done..|by intros [|]].
  - destruct (worker s) eqn:Hw; simplify_eq. destruct (_ =? _); simplify_eq. by apply stream_routed.
  - destruct (worker s) eqn:Hw; simplify_eq. unfold write_one in Hd. destruct (queued _); simplify_eq.
    apply (worker_routed s); try done. by left.
  - destruct (worker s) eqn:Hw; simplify_eq. apply (worker_routed s); try done. right. split_and!; [done..|by intros [|]].
  - unfold lose_step in Hd. destruct (worker s) eqn:Hw; simplify_eq.
    + apply (worker_routed s); try done. right. split_and!; [done..|by intros [|]].
    + apply (worker_routed s); try done. right. split_and!; [done..|by intros [|]].
    + by apply end_routes_routed.
    + apply (worker_routed s); try done. right. split_and!; [done..|by left].
  - destruct (inboxes s !! name) as [i|] eqn:Hn; simplify_eq/=. by apply (inbox_routed s name i).
  - simplify_eq. apply (worker_routed s); try done. by left.
Qed.

(** Whatever the callers, the worker and the core do, as long as the core names each channel once: the
    stream of a call that was answered is the one the frames of its channel go to, from the answer on, until it is
    told that the stream ended; and once the worker is gone, every such stream was told. *)
Theorem streams_kept cf es s id r c n : run cf es = Some s → begun s + 1 < 2 ^ 64 → distinct s →
  calls s !! id = Some (Done (Answered r)) → route r = Some (c, n) →
  (routes s !! c = Some n ∨ ended s n) ∧ (worker s = Gone → ended s n).
Proof.
  intros Hr Hlt Hd Hc Hrt. destruct (run_ind routed cf es s) as [Hi Hro]; [apply routed_new|apply do_routed|done..|].
  assert ((n, c, id) ∈ opened s) as Hin by (apply (ro_reply _ Hro id r); [by right; right|done]).
  assert (routes s !! c = Some n ∨ ended s n) as Hk.
  { destruct (ro_kept _ Hro Hd n c id Hin) as [?|[?|[e He]]]; [by left|by right|congruence]. }
  split; [done|]. intros Hg. destruct Hk as [Hk|?]; [|done]. rewrite (ro_gone _ Hro) in Hk by (by right).
  by rewrite lookup_empty in Hk.
Qed.

(** ** The handshake *)

(** The answer of one read: bytes, nothing yet, the end, or a failure. *)
Inductive ReadAnswer := Read (bytes : list N) | NotYet | Failure.

Inductive HelloError := LongHello | HelloTimeout | HelloLost | HelloIo | HelloJson.

(** [buffer.iter().position(|byte| *byte == b'\n')]. *)
Definition newline (buffer : list N) : option nat := fst <$> list_find (λ b, b = 10) buffer.

(** [read_hello]: what each read answers, with whether the deadline had passed
    before it; [None] while the reads go on. The bytes past the line go to the
    decoder. *)
Fixpoint read_hello (buffer : list N) (reads : list (bool * ReadAnswer)) : option (res HelloError (V * list N)) :=
  match newline buffer with
  | Some end_ =>
      Some (match from_slice (take (S end_) buffer) with
            | Some m => Ok (m, drop (S end_) buffer)
            | None => Err HelloJson
            end)
  | None =>
      if MAX_HELLO <? lenN buffer then Some (Err LongHello)
      else
        match reads with
        | [] => None
        | (true, _) :: _ => Some (Err HelloTimeout)
        | (false, Read []) :: _ => Some (Err HelloLost)
        | (false, Read bs) :: reads => read_hello (buffer ++ bs) reads
        | (false, NotYet) :: reads => read_hello buffer reads
        | (false, Failure) :: _ => Some (Err HelloIo)
        end
  end.

(** The bytes a list of reads gives. *)
Definition given (reads : list (bool * ReadAnswer)) : list N :=
  reads ≫= λ r, match r.2 with Read bs => bs | _ => [] end.

(** A read that goes on: before the deadline, with bytes or without yet. *)
Definition goes_on (r : bool * ReadAnswer) : bool :=
  negb r.1 && match r.2 with Read [] | Failure => false | _ => true end.

Lemma newline_line line rest : 10 ∉ line → newline (line ++ 10 :: rest) = Some (length line).
Proof.
  intros Hl. unfold newline. rewrite (proj2 (list_find_Some _ _ (length line) 10)); [done|].
  rewrite list_lookup_middle by done. split_and!; [done|done|].
  intros j y Hj Hlt ->. rewrite lookup_app_l in Hj by done. by apply Hl, (list_elem_of_lookup_2 _ j).
Qed.

Lemma newline_none buffer : 10 ∉ buffer → newline buffer = None.
Proof.
  intros Hb. unfold newline. rewrite (proj2 (list_find_None _ _)); [done|]. apply Forall_forall. by intros x Hx ->.
Qed.

Lemma read_hello_line line m over reads : 10 ∉ line → from_slice (line ++ [10]) = Some m →
  read_hello (line ++ 10 :: over) reads = Some (Ok (m, over)).
Proof.
  intros Hl Hm. destruct reads; cbn [read_hello]; rewrite (newline_line _ _ Hl);
    rewrite (cons_middle 10 line over), app_assoc, take_app_length', drop_app_length' by (rewrite length_app; cbn; lia); by rewrite Hm.
Qed.

Lemma app_cut {A} (a b c : list A) x d : a ++ b = c ++ x :: d →
  (∃ e, a = c ++ x :: e ∧ e ++ b = d) ∨ (∃ e, c = a ++ e ∧ b = e ++ x :: d).
Proof.
  intros E. apply app_eq_inv in E as [(k & -> & E)|(k & -> & ->)]; [|right; by exists k].
  destruct k as [|y k]; cbn in E; [right; exists []; by rewrite !app_nil_r|]. injection E as -> ->. left. by exists k.
Qed.

Lemma read_hello_from line m reads buffer rest :
  10 ∉ line → lenN line ≤ MAX_HELLO → from_slice (line ++ [10]) = Some m → Forall (λ r, goes_on r = true) reads →
  buffer ++ given reads = line ++ 10 :: rest →
  ∃ used unread over, reads = used ++ unread ∧ read_hello buffer reads = Some (Ok (m, over)) ∧ over ++ given unread = rest.
Proof.
  intros Hl Hmax Hm Hr. revert buffer. induction Hr as [|[late a] reads Hgo Hr IH]; intros buffer E;
    (destruct (app_cut _ _ _ _ _ E) as [(over & -> & Eo)|(k & -> & Ek)];
      [eexists [], _, over; split; [done|]; split; [by apply read_hello_line|done]|]).
  - by destruct k.
  - assert (10 ∉ buffer) as Hb by set_solver. rewrite lenN_app in Hmax.
    cbn [read_hello]. rewrite (newline_none _ Hb), (proj2 (N.ltb_ge _ _)) by lia.
    destruct late; [done|]. destruct a as [[|b bs]| |]; try done; cbn [given mbind list_bind] in E.
    + destruct (IH (buffer ++ b :: bs)) as (used & unread & over & -> & Hrd & Ho); [by rewrite <- app_assoc|].
      by exists ((false, Read (b :: bs)) :: used), unread, over.
    + destruct (IH buffer) as (used & unread & over & -> & Hrd & Ho); [done|].
      by exists ((false, NotYet) :: used), unread, over.
Qed.

(** However the core's answer to the handshake is cut, and with frames right behind it: it is read as the
    one line it is, and the bytes read past it with the bytes not read yet are the frames, none lost or repeated. *)
Theorem hello_split line m frames reads :
  10 ∉ line → lenN line ≤ MAX_HELLO → from_slice (line ++ [10]) = Some m → Forall (λ r, goes_on r = true) reads →
  given reads = line ++ 10 :: frames →
  ∃ used unread over, reads = used ++ unread ∧ read_hello [] reads = Some (Ok (m, over)) ∧ over ++ given unread = frames.
Proof. intros Hl Hmax Hm Hr E. by apply (read_hello_from line). Qed.
End core.

(** A small JSON, for examples: two or three bytes are the answer to the call
    named by the first, opening the channel named by the second. *)
Inductive Small := Num (n : N) | Obj (fields : list (str * Small)).

#[local] Instance small_json : Json Small := {|
  from_slice bs := match bs with
    | [i; c] | [i; c; _] => Some (Obj [(lit "id", Num i); (lit "result", Obj [(lit "channel", Num c)])])
    | _ => None
    end;
  get v k := match v with Obj fs => snd <$> find (λ f, bool_decide (f.1 = k)) fs | Num _ => None end;
  as_u64 v := match v with Num n => Some n | Obj _ => None end;
  null := Obj [];
  to_refusal _ := None;
  to_text _ := [] |}.

Definition no_reason (bs : list N) : option Closed := None.

(** A call that opens channel 7, a second that waits, and the end of the worker. *)
Definition sample_events : list Event :=
  [E_Begin; E_Begin; E_Register 1; E_Register 2; E_Send 1 (Some [9]); E_Send 2 (Some [8]); E_Write; E_Answer [1; 7]; E_Route;
   E_Reply; E_Stream (MkFrame 7 Data [104; 105]); E_Receive 1; E_Stop; E_Lose; E_Lose; E_Receive 2; E_Lose; E_Lose].

Definition sample_core : Core := default core_new (run no_reason sample_events).

Lemma calls_matched_witness :
  run no_reason sample_events = Some sample_core ∧
  calls sample_core !! 1 = Some (Done (Answered (MkReply (Ok (Obj [(lit "channel", Num 7)])) (Some (7, 0))))) ∧
  calls sample_core !! 2 = Some (Done Disconnected) ∧ heard sample_core 2 = [].
Proof.
  assert (run no_reason sample_events = Some sample_core) as Hr by (vm_compute; reflexivity).
  assert (calls sample_core !! 2 = Some (Done Disconnected)) as H2 by (vm_compute; reflexivity).
  split; [exact Hr|]. split; [vm_compute; reflexivity|]. split; [exact H2|].
  destruct (calls_matched no_reason sample_events sample_core Hr) as (_ & _ & _ & _ & Hd & _); [vm_compute; reflexivity|].
  apply (Hd (take 6 sample_events) (drop 6 sample_events) (default core_new (run no_reason (take 6 sample_events))) 2 Disconnected);
    [reflexivity|vm_compute; reflexivity|vm_compute; reflexivity|exact H2|reflexivity].
Defined.

(** An answer to a request that was not sent yet, and the loss of the connection
    before it is: the call is told of the loss. *)
Lemma answered_unsent :
  (λ s : Core, (calls s !! 1, length (heard s 1)))
    <$> run no_reason [E_Begin; E_Register 1; E_Answer [1; 7]; E_Route; E_Reply; E_Stop; E_Lose; E_Lose; E_Lose; E_Lose;
                       E_Send 1 (Some [9]); E_Remove 1; E_Leave 1]
  = Some (Some (Done (Failed Lost)), 1%nat).
Proof. vm_compute. reflexivity. Qed.

Lemma streams_kept_witness :
  ended sample_core 0 ∧ inboxes sample_core !! 0 = Some (MkInbox [104; 105] (Some End_Lost) false).
Proof.
  split; [|vm_compute; reflexivity].
  destruct (streams_kept no_reason sample_events sample_core 1 (MkReply (Ok (Obj [(lit "channel", Num 7)])) (Some (7, 0))) 7 0)
    as [_ Hg]; [vm_compute; reflexivity|vm_compute; reflexivity| |vm_compute; reflexivity|reflexivity|].
  - unfold distinct. vm_compute. apply NoDup_singleton.
  - apply Hg. vm_compute. reflexivity.
Defined.

(** A reply that comes in between a call's timeout and its return is put into a
    channel nobody reads again: the route stays, with no reader. *)
Lemma route_left_behind :
  ∃ s, run no_reason [E_Begin; E_Register 1; E_Send 1 (Some [9]); E_Write; E_Timeout 1; E_Answer [1; 7]; E_Route; E_Reply;
                      E_Remove 1; E_Leave 1] = Some s ∧
    calls s !! 1 = Some (Done (Failed Timeout)) ∧ worker s = Idle ∧ routes s !! 7 = Some 0.
Proof. eexists. split; [vm_compute; reflexivity|]. by vm_compute. Qed.

Definition sample_reads : list (bool * ReadAnswer) :=
  [(false, Read [1]); (false, NotYet); (false, Read [7]); (false, Read [10; 0; 0]); (false, Read [5])].

Lemma hello_split_witness :
  ∃ used unread over, sample_reads = used ++ unread ∧ over ++ given unread = [0; 0; 5] ∧
    read_hello [] sample_reads = Some (Ok (Obj [(lit "id", Num 1); (lit "result", Obj [(lit "channel", Num 7)])], over)).
Proof.
  destruct (hello_split [1; 7] (Obj [(lit "id", Num 1); (lit "result", Obj [(lit "channel", Num 7)])]) [0; 0; 5] sample_reads)
    as (used & unread & over & E1 & E2 & E3).
  - set_solver.
  - by vm_compute.
  - reflexivity.
  - repeat constructor.
  - reflexivity.
  - exists used, unread, over. split; [exact E1|]. split; [exact E3|exact E2].
Defined.
End CoreCall.
