(* ===== verification/CoreChanges.v ===== *)
(** * CoreChanges: a watched host's records and the changes it reports
    (crates/sheprd-core-client/src/wire.rs, event.rs and backend.rs)

    A [BTreeMap] keyed by address is a [gmap] whose values are listed in key
    order. What a watcher keeps is [view]; the main theorem says that the
    changes [next] returns take the watcher's view from the old records to the
    new ones. JSON decoding of events is serde and starts from [Notice]. *)

From Stdlib Require Import ZArith NArith Lia.
From stdpp Require Import base option strings gmap sorting fin_maps list.
From S2P Require Import Prelude Wire Backend.

Import Backend.
Local Open Scope N_scope.

Module CoreChanges.

(** *** Records (wire.rs) *)

Inductive TerminalState := State_Finished | State_Live | State_Other.

Record Foreground := MkForeground {
  fg_argv : list str;
  fg_cwd : str;
  fg_name : str;
  fg_pid : Z }.

Inductive StatusState := S_Blocked | S_Done | S_Error | S_Idle | S_Working | S_Other.

Record Status := MkStatus {
  status_app : str;
  status_kind : option str;
  status_msg : str;
  status_progress : option N;
  status_state : StatusState;
  status_title : str }.

Record Terminal := MkTerminal {
  t_address : str;
  t_argv : list str;
  t_cols : N;
  t_cwd : str;
  t_exit_code : option Z;
  t_foreground : option Foreground;
  t_keep : bool;
  t_labels : gmap str str;
  t_name : option str;
  t_parent : option str;
  t_pid : option Z;
  t_reason : option str;
  t_rows : N;
  t_state : TerminalState;
  t_status : option Status;
  t_title : option str }.

(** *** Events (event.rs) *)

(** [ended_signal] is a [serde_json::Value], kept as its text. *)
Record Ended := MkEnded { ended_exit_code : option Z; ended_reason : option str; ended_signal : option str }.

Inductive TerminalChange :=
| Created (record : Terminal)
| Finished (ended : Ended)
| ForegroundChange (foreground : option Foreground)
| Keep (keep : bool)
| Labels (labels : gmap str str) (record : option Terminal)
| LostChange (ended : Ended)
| RemovedChange
| Restarted (record : Terminal)
| SizeChange (cols rows : N)
| StatusChange (reported : bool) (status : option Status)
| TitleChange (title : option str)
| Turn (state : option str) (turn : N)
| Unknown (kind : str).

Record Event := MkEvent { ev_change : TerminalChange; ev_seq : N; ev_terminal : str }.

Inductive Notice :=
| Notice_Doc (machine : option str) (name : str) (seq version : N)
| Notice_Event (event : Event)
| Notice_Heartbeat (seq : N)
| Notice_Missed (seq : N) (terminals : list Terminal).

(** *** What the app shows (backend.rs) *)

Definition agent (s : Status) : AgentStatus :=
  match status_state s with
  | S_Blocked | S_Error => Status_Blocked
  | S_Done => Status_Done
  | S_Idle => Status_Idle
  | S_Working => Status_Working
  | S_Other => Status_Unknown
  end.

Definition run_state (t : Terminal) : RunState :=
  match t_state t with
  | State_Finished => Exited (MkExit (t_exit_code t))
  | State_Live =>
      match t_pid t, t_reason t with
      | None, Some _ => Lost
      | _, _ => Running
      end
  | State_Other => Running
  end.

(** [filter(|text| !text.is_empty())]. *)
Definition nonempty (s : option str) : option str :=
  match s with Some [] => None | _ => s end.

Definition info (t : Terminal) : res Backend.Error TerminalInfo :=
  let cwd := match nonempty (fg_cwd <$> t_foreground t) with
    | Some cwd => Some cwd
    | None => nonempty (Some (t_cwd t))
    end in
  id ← terminal_id_new (t_address t);
  Ok (MkTerminalInfo (match t_status t with Some s => agent s | None => Status_Unknown end)
        cwd id (t_labels t) (t_name t) (run_state t) (nonempty (t_title t))).

(** [update]: the record afterwards, [None] when nothing shown changed. *)
Definition update (t : Terminal) (change : TerminalChange) : option Terminal :=
  match change with
  | Finished ended =>
      Some (MkTerminal (t_address t) (t_argv t) (t_cols t) (t_cwd t) (ended_exit_code ended) None (t_keep t)
              (t_labels t) (t_name t) (t_parent t) (t_pid t) (ended_reason ended) (t_rows t) State_Finished
              None (t_title t))
  | ForegroundChange fg =>
      Some (MkTerminal (t_address t) (t_argv t) (t_cols t) (t_cwd t) (t_exit_code t) fg (t_keep t)
              (t_labels t) (t_name t) (t_parent t) (t_pid t) (t_reason t) (t_rows t) (t_state t)
              (t_status t) (t_title t))
  | Keep keep =>
      Some (MkTerminal (t_address t) (t_argv t) (t_cols t) (t_cwd t) (t_exit_code t) (t_foreground t) keep
              (t_labels t) (t_name t) (t_parent t) (t_pid t) (t_reason t) (t_rows t) (t_state t)
              (t_status t) (t_title t))
  | Labels labels _ =>
      Some (MkTerminal (t_address t) (t_argv t) (t_cols t) (t_cwd t) (t_exit_code t) (t_foreground t) (t_keep t)
              labels (t_name t) (t_parent t) (t_pid t) (t_reason t) (t_rows t) (t_state t)
              (t_status t) (t_title t))
  | LostChange ended =>
      Some (MkTerminal (t_address t) (t_argv t) (t_cols t) (t_cwd t) (ended_exit_code ended) None (t_keep t)
              (t_labels t) (t_name t) (t_parent t) None (ended_reason ended) (t_rows t) (t_state t)
              (t_status t) (t_title t))
  | SizeChange cols rows =>
      Some (MkTerminal (t_address t) (t_argv t) cols (t_cwd t) (t_exit_code t) (t_foreground t) (t_keep t)
              (t_labels t) (t_name t) (t_parent t) (t_pid t) (t_reason t) rows (t_state t)
              (t_status t) (t_title t))
  | StatusChange _ status =>
      Some (MkTerminal (t_address t) (t_argv t) (t_cols t) (t_cwd t) (t_exit_code t) (t_foreground t) (t_keep t)
              (t_labels t) (t_name t) (t_parent t) (t_pid t) (t_reason t) (t_rows t) (t_state t)
              status (t_title t))
  | TitleChange title =>
      Some (MkTerminal (t_address t) (t_argv t) (t_cols t) (t_cwd t) (t_exit_code t) (t_foreground t) (t_keep t)
              (t_labels t) (t_name t) (t_parent t) (t_pid t) (t_reason t) (t_rows t) (t_state t)
              (t_status t) title)
  | Turn _ _ | Unknown _ | Created _ | RemovedChange | Restarted _ => None
  end.

(** *** CoreChanges *)

Record CoreChanges := MkCoreChanges { records : gmap str Terminal; seq : N }.

(** The byte order of [String], which is the order of the scalar values. *)
Fixpoint str_leb (a b : str) : bool :=
  match a, b with
  | [], _ => true
  | _ :: _, [] => false
  | x :: a, y :: b => if x =? y then str_leb a b else x <? y
  end.

Definition key_le (a b : str * Terminal) : Prop := str_leb a.1 b.1 = true.

#[export] Instance key_le_dec : RelDecision key_le.
Proof. intros a b. unfold key_le. apply _. Defined.

(** [BTreeMap::values]. *)
Definition values (m : gmap str Terminal) : list Terminal := (merge_sort key_le (map_to_list m)).*2.

(** [collect::<Result<_>>]: the first failure wins. *)
Fixpoint collect {E A} (l : list (res E A)) : res E (list A) :=
  match l with
  | [] => Ok []
  | r :: l => a ← r; rest ← collect l; Ok (a :: rest)
  end.

Definition by_address (terminals : list Terminal) : gmap str Terminal :=
  foldl (λ m t, <[t_address t := t]> m) ∅ terminals.

Definition upsert (t : Terminal) : res Backend.Error (option Change) :=
  i ← info t; Ok (Some (Upsert i)).

(** [CoreChanges::apply]: the records afterwards and the change. *)
Definition apply (c : CoreChanges) (address : str) (change : TerminalChange)
    : CoreChanges * res Backend.Error (option Change) :=
  match change with
  | RemovedChange =>
      (MkCoreChanges (delete address (records c)) (seq c),
       id ← terminal_id_new address; Ok (Some (Removed id)))
  | Created record | Restarted record | Labels _ (Some record) =>
      (MkCoreChanges (<[address := record]> (records c)) (seq c), upsert record)
  | change =>
      match records c !! address with
      | None => (c, Ok None)
      | Some record =>
          match update record change with
          | None => (c, Ok None)
          | Some record => (MkCoreChanges (<[address := record]> (records c)) (seq c), upsert record)
          end
      end
  end.

(** The loop of [Changes::next] over the notices that arrived. *)
Fixpoint next_from (c : CoreChanges) (changes : list Change) (notices : list Notice)
    : CoreChanges * res Backend.Error (list Change) :=
  match notices with
  | [] => (c, Ok changes)
  | notice :: notices =>
      match notice with
      | Notice_Doc _ _ _ _ | Notice_Heartbeat _ => next_from c changes notices
      | Notice_Missed seq terminals =>
          let c := MkCoreChanges (by_address terminals) seq in
          match collect (info <$> values (records c)) with
          | Err e => (c, Err e)
          | Ok infos => next_from c [Resync infos] notices
          end
      | Notice_Event event =>
          if ev_seq event <=? seq c then next_from c changes notices
          else
            match apply (MkCoreChanges (records c) (ev_seq event)) (ev_terminal event) (ev_change event) with
            | (c, Err e) => (c, Err e)
            | (c, Ok None) => next_from c changes notices
            | (c, Ok (Some change)) => next_from c (changes ++ [change]) notices
            end
      end
  end.

Definition next (c : CoreChanges) (notices : list Notice) : CoreChanges * res Backend.Error (list Change) :=
  next_from c [] notices.

(** [CoreBackend::watch]: the snapshot and the changes after it. *)
Definition watch (seq : N) (terminals : list Terminal) : res Backend.Error (list TerminalInfo * CoreChanges) :=
  let records := by_address terminals in
  snapshot ← collect (info <$> values records);
  Ok (snapshot, MkCoreChanges records seq).

(** ** What a watcher keeps *)

Abbreviation view := (gmap str TerminalInfo) (only parsing).

Definition info_key (i : TerminalInfo) : str := as_str (info_id i).

Definition of_list (infos : list TerminalInfo) : view := list_to_map ((λ i, (info_key i, i)) <$> infos).

Definition apply_change (v : view) (change : Change) : view :=
  match change with
  | Upsert i => <[info_key i := i]> v
  | Removed id => delete (as_str id) v
  | Resync infos => of_list infos
  end.

(** What the records show: every record the app can name. *)
Definition view_of (m : gmap str Terminal) : view := omap (λ t, ok (info t)) m.

(** Every record is kept under its own address. *)
Definition keyed (m : gmap str Terminal) : Prop := ∀ k t, m !! k = Some t → t_address t = k.

(** The core's records name themselves by the address their event carries. *)
Definition event_ok (e : Event) : Prop :=
  match ev_change e with
  | Created r | Restarted r | Labels _ (Some r) => t_address r = ev_terminal e
  | _ => True
  end.

Definition notice_ok (n : Notice) : Prop :=
  match n with Notice_Event e => event_ok e | _ => True end.

Lemma info_key_address t i : info t = Ok i → info_key i = t_address t.
Proof.
  unfold info. destruct (terminal_id_new (t_address t)) as [id|] eqn:Hid; [|done]. intros [= <-].
  by apply terminal_id_roundtrip in Hid as [? _].
Qed.

Lemma collect_Ok {E A} (l : list (res E A)) la : collect l = Ok la → l = Ok <$> la.
Proof.
  revert la. induction l as [|r l IH]; intros la; simpl; [by intros [= <-]|].
  destruct r as [a|]; simpl; [|done]. destruct (collect l) as [rest|] eqn:E1; simpl; [|done].
  intros [= <-]. simpl. by rewrite (IH rest).
Qed.

Lemma by_address_keyed ts : keyed (by_address ts).
Proof.
  unfold by_address. assert (keyed (∅ : gmap str Terminal)) as H0 by (intros k t; by rewrite lookup_empty).
  revert H0. generalize (∅ : gmap str Terminal). induction ts as [|t ts IH]; intros m Hm; simpl; [done|].
  apply IH. intros k t' Hk. apply lookup_insert_Some in Hk as [[<- <-]|[_ Hk]]; [done|by apply Hm].
Qed.

(** Showing every record in key order is the whole view. *)
Lemma of_list_values m infos :
  keyed m → collect (info <$> values m) = Ok infos → of_list infos = view_of m.
Proof.
  intros Hk Hc%collect_Ok. unfold values in Hc.
  pose proof (merge_sort_Permutation key_le (map_to_list m)) as Hperm.
  set (L := merge_sort key_le (map_to_list m)) in *.
  assert (Forall (λ kt, t_address kt.2 = kt.1) L) as Haddr.
  { apply Forall_forall. intros [k t] Hin. rewrite Hperm in Hin. apply elem_of_map_to_list in Hin. by apply Hk. }
  assert (NoDup (L.*1)) as Hnd by (rewrite Hperm; apply NoDup_fst_map_to_list).
  assert (of_list infos = omap (λ t, ok (info t)) (list_to_map L : gmap str Terminal)) as ->.
  2: { unfold view_of. f_equal. rewrite (list_to_map_proper L (map_to_list m)) by done. apply list_to_map_to_list. }
  clearbody L. clear Hperm Hk m. unfold of_list. revert infos Hc.
  induction L as [|[k t] L IH]; intros [|i infos] Hc; try discriminate Hc; [symmetry; apply omap_empty|].
  apply Forall_cons_iff in Haddr as [Ha Haddr]. apply NoDup_cons in Hnd as [_ Hnd]. simpl in Ha.
  injection Hc as Hi Hc. rewrite fmap_cons, !list_to_map_cons, (info_key_address t i Hi), Ha, IH by done.
  symmetry. apply omap_insert_Some. by rewrite Hi.
Qed.

Lemma view_of_insert m a t i : info t = Ok i → view_of (<[a := t]> m) = <[a := i]> (view_of m).
Proof. intros Hi. unfold view_of. apply omap_insert_Some. by rewrite Hi. Qed.

Lemma keyed_insert m a t : keyed m → t_address t = a → keyed (<[a := t]> m).
Proof. intros Hm Ha k t' Hk. apply lookup_insert_Some in Hk as [[<- <-]|[_ Hk]]; [done|by apply Hm]. Qed.

Lemma update_address t ch t' : update t ch = Some t' → t_address t' = t_address t.
Proof. destruct ch; simpl; intros; by simplify_eq/=. Qed.

(** Storing a record and reporting it keeps the watcher in step. *)
Lemma upsert_refines m a t s r :
  keyed m → t_address t = a → upsert t = Ok r →
  keyed (<[a := t]> m) ∧ ∃ ch, r = Some ch ∧
    view_of (records (MkCoreChanges (<[a := t]> m) s)) = apply_change (view_of m) ch.
Proof.
  intros Hm Ha. unfold upsert. destruct (info t) as [i|] eqn:Hi; [|done]. intros [= <-].
  split; [by apply keyed_insert|]. eexists. split; [done|]. cbn [records apply_change].
  by rewrite (info_key_address t i Hi), Ha, (view_of_insert m a t i Hi).
Qed.

Lemma apply_refines c a ch c' r :
  keyed (records c) → event_ok (MkEvent ch 0 a) → apply c a ch = (c', Ok r) →
  keyed (records c') ∧
  view_of (records c') = match r with Some x => apply_change (view_of (records c)) x | None => view_of (records c) end.
Proof.
  intros Hk Hev.
  assert (∀ t, t_address t = a →
    (MkCoreChanges (<[a := t]> (records c)) (seq c), upsert t) = (c', Ok r) →
    keyed (records c') ∧ view_of (records c') =
      match r with Some x => apply_change (view_of (records c)) x | None => view_of (records c) end) as Hup.
  { intros t Ha [= <- Hu]. destruct (upsert_refines _ a t (seq c) r Hk Ha Hu) as (Hk' & x & -> & Hv). done. }
  assert (∀ ch, (match records c !! a with
      | None => (c, Ok None)
      | Some record => match update record ch with
          | None => (c, Ok None)
          | Some record => (MkCoreChanges (<[a := record]> (records c)) (seq c), upsert record) end
      end) = (c', Ok r) →
    keyed (records c') ∧ view_of (records c') =
      match r with Some x => apply_change (view_of (records c)) x | None => view_of (records c) end) as Hupd.
  { intros o. destruct (records c !! a) as [t|] eqn:Hl; [|by intros [= <- <-]].
    destruct (update t o) as [t'|] eqn:Ho; [|by intros [= <- <-]]. apply (Hup t').
    rewrite (update_address t o t' Ho). by apply Hk. }
  destruct ch as [rec|ended|fg|kp|labels [rec|]|ended| |rec|cols rows|rep st|title|st turn|kd]; simpl in Hev;
    try (match goal with |- apply c a ?ch = _ → _ => exact (Hupd ch) end); try (by apply Hup).
  simpl. destruct (terminal_id_new a) as [id|] eqn:Hid; [|done]. intros [= <- <-]. cbn [records apply_change].
  apply terminal_id_roundtrip in Hid as [Hid _]. split.
  - intros k t Hkt. apply lookup_delete_Some in Hkt as [_ Hkt]. by apply Hk.
  - rewrite Hid. unfold view_of. by rewrite omap_delete.
Qed.

Lemma next_from_refines notices c acc c' changes v0 :
  keyed (records c) → Forall notice_ok notices →
  foldl apply_change v0 acc = view_of (records c) →
  next_from c acc notices = (c', Ok changes) →
  keyed (records c') ∧ foldl apply_change v0 changes = view_of (records c').
Proof.
  revert c acc. induction notices as [|n notices IH]; intros c acc Hk Hok Hv; simpl; [by intros [= <- <-]|].
  apply Forall_cons_iff in Hok as [Hn Hok]. destruct n as [m nm s v|e|s|s ts].
  - by apply IH.
  - destruct (_ <=? _); [by apply IH|].
    destruct (apply _ _ _) as [c1 [r|]] eqn:Ha; [|done].
    apply apply_refines in Ha as [Hk1 Hv1]; [|done|by destruct e]. destruct r as [ch|].
    + apply IH; [done|done|]. rewrite foldl_app, Hv. simpl. by rewrite Hv1.
    + apply IH; [done|done|]. by rewrite Hv, Hv1.
  - by apply IH.
  - destruct (collect _) as [infos|] eqn:Hc; [|done]. pose proof (by_address_keyed ts).
    apply IH; [done|done|]. simpl. by apply of_list_values.
Qed.

(** Successive calls of [next], each with what arrived. *)
Fixpoint next_all (c : CoreChanges) (batches : list (list Notice)) : CoreChanges * res Backend.Error (list Change) :=
  match batches with
  | [] => (c, Ok [])
  | b :: batches =>
      match next c b with
      | (c, Err e) => (c, Err e)
      | (c, Ok changes) => let '(c, r) := next_all c batches in (c, app changes <$> r)
      end
  end.

Lemma next_all_refines batches c c' changes v :
  keyed (records c) → v = view_of (records c) → Forall (Forall notice_ok) batches →
  next_all c batches = (c', Ok changes) → foldl apply_change v changes = view_of (records c').
Proof.
  intros Hk Hv Hok. revert c v changes Hk Hv.
  induction Hok as [|b batches Hb _ IH]; intros c v changes Hk Hv; cbn [next_all]; [by intros [= <- <-]|].
  unfold next. destruct (next_from c [] b) as [c1 [ch|]] eqn:Hn; [|done].
  apply (next_from_refines _ _ _ _ _ v) in Hn as [Hk1 Hv1]; [|done..].
  destruct (next_all c1 batches) as [c2 [chs|]] eqn:Hall; [|done]. cbn. intros [= <- <-].
  rewrite foldl_app. by apply (IH c1).
Qed.

(** ** The core

    The core numbers its events upwards; its records at a number are those it
    began with, with every event up to the number applied to them once and in
    order. What an event does to a record is what the core documents, field by
    field as in [update]. *)

Definition core_step (m : gmap str Terminal) (e : Event) : gmap str Terminal :=
  match ev_change e with
  | Created r | Restarted r | Labels _ (Some r) => <[ev_terminal e := r]> m
  | RemovedChange => delete (ev_terminal e) m
  | change => alter (λ t, default t (update t change)) (ev_terminal e) m
  end.

Section core.
Context (log : list Event) (first : gmap str Terminal).

Definition upto (n : N) : list Event := filter (λ e, ev_seq e ≤ n) log.
Definition core_at (n : N) : gmap str Terminal := foldl core_step first (upto n).

(** What the core may put on a subscription that has the events up to [n], and
    how far it is then: an event again that was sent or is in a snapshot, the
    event after [n], or a snapshot taken at any number. *)
Definition sends (n : N) (notice : Notice) (n' : N) : Prop :=
  match notice with
  | Notice_Doc _ _ _ _ | Notice_Heartbeat _ => n' = n
  | Notice_Missed seq terminals => n' = seq ∧ by_address terminals = core_at seq
  | Notice_Event e =>
      e ∈ log ∧ if ev_seq e <=? n then n' = n
                else n' = ev_seq e ∧ ∀ e', e' ∈ log → n < ev_seq e' → ev_seq e ≤ ev_seq e'
  end.

Inductive delivered : N → list Notice → N → Prop :=
| delivered_nil n : delivered n [] n
| delivered_cons n n1 n2 notice notices : sends n notice n1 → delivered n1 notices n2 → delivered n (notice :: notices) n2.

(** The numbers go up, and records carry the address of their event. *)
Record core_ok : Prop := {
  core_numbered : StronglySorted N.lt (ev_seq <$> log);
  core_events : Forall event_ok log;
  core_first : keyed first;
}.

(** Every terminal has a name the app takes. *)
Definition named (address : str) : Prop := is_Some (ok (terminal_id_new address)).
Record core_named : Prop := {
  named_first k : is_Some (first !! k) → named k;
  named_events : Forall (λ e, named (ev_terminal e)) log;
}.

Context (Hcore : core_ok).

Lemma core_step_keyed m e : keyed m → event_ok e → keyed (core_step m e).
Proof.
  intros Hm He. unfold core_step, event_ok in *.
  assert (∀ ch, keyed (alter (λ t, default t (update t ch)) (ev_terminal e) m)) as Ha.
  { intros ch k t Hk. apply lookup_alter_Some in Hk as [(<- & t0 & Ht & ->)|[_ Hk]]; [|by apply Hm].
    destruct (update t0 ch) eqn:Hu; cbn; [rewrite (update_address _ _ _ Hu)|]; by apply Hm. }
  destruct (ev_change e) as [| | | |? [|]| | | | | | | |]; try apply Ha; try by apply keyed_insert.
  intros k t Hk. apply lookup_delete_Some in Hk as [_ Hk]. by apply Hm.
Qed.

Lemma core_at_keyed n : keyed (core_at n).
Proof.
  unfold core_at. assert (Forall event_ok (upto n)) as He by (apply Forall_forall; intros e [_ He]%list_elem_of_filter; revert e He; apply Forall_forall, Hcore).
  generalize (core_first Hcore). revert He. generalize first. induction (upto n) as [|e l IH]; intros m He Hm; [done|].
  apply Forall_cons_iff in He as [He Hl]. cbn. apply IH; [done|]. by apply core_step_keyed.
Qed.

Lemma filter_ext_in {A} (P Q : A → Prop) `{∀ x, Decision (P x), ∀ x, Decision (Q x)} (l : list A) :
  (∀ x, x ∈ l → P x ↔ Q x) → filter P l = filter Q l.
Proof.
  induction l as [|x l IH]; intros Hl; [done|]. rewrite !filter_cons, IH by (intros y Hy; apply Hl; by right).
  specialize (Hl x ltac:(by left)). repeat case_decide; tauto.
Qed.

(** The next event is the last of those up to its number. *)
Lemma upto_next n e :
  e ∈ log → n < ev_seq e → (∀ e', e' ∈ log → n < ev_seq e' → ev_seq e ≤ ev_seq e') → upto (ev_seq e) = upto n ++ [e].
Proof.
  intros (l1 & l2 & Hl)%list_elem_of_split Hn Hnext. pose proof (core_numbered Hcore) as Hs. unfold upto.
  rewrite Hl, fmap_app, fmap_cons in Hs. apply StronglySorted_app in Hs as (H12 & _ & [H2 _]%StronglySorted_cons).
  rewrite Hl, !filter_app, !filter_cons, decide_True, decide_False by lia.
  assert (∀ k, k ≤ ev_seq e → filter (λ x, ev_seq x ≤ k) l2 = []) as Hl2.
  { intros k Hk. destruct (filter _ l2) as [|x l] eqn:E; [done|].
    assert (x ∈ filter (λ x, ev_seq x ≤ k) l2) as [Hx Hin]%list_elem_of_filter by (rewrite E; by left).
    rewrite Forall_forall in H2. assert (ev_seq e < ev_seq x); [|lia]. apply H2, list_elem_of_fmap. by exists x. }
  rewrite !Hl2, app_nil_r by lia. f_equal. apply filter_ext_in. intros x Hx.
  assert (ev_seq x < ev_seq e) as Hlt by (apply H12; [apply list_elem_of_fmap; by exists x|by left]).
  split; [|lia]. intros _. destruct (N.le_gt_cases (ev_seq x) n) as [|Hgt]; [done|].
  assert (ev_seq e ≤ ev_seq x); [|lia]. apply Hnext; [|done]. rewrite Hl. apply elem_of_app. by left.
Qed.

(** Whatever it reports, [apply] makes the core's records of its own. *)
Lemma apply_steps c e c' r :
  apply c (ev_terminal e) (ev_change e) = (c', r) → records c' = core_step (records c) e ∧ seq c' = seq c.
Proof.
  unfold core_step.
  assert (∀ ch, (match records c !! ev_terminal e with
      | None => (c, Ok None)
      | Some record => match update record ch with
          | None => (c, Ok None)
          | Some record => (MkCoreChanges (<[ev_terminal e := record]> (records c)) (seq c), upsert record) end
      end) = (c', r) → records c' = alter (λ t, default t (update t ch)) (ev_terminal e) (records c) ∧ seq c' = seq c) as Hupd.
  { intros ch. destruct (records c !! ev_terminal e) as [t|] eqn:Hl.
    - destruct (update t ch) as [t'|] eqn:Hu; intros [= <- _]; cbn; (split; [|done]); apply map_eq; intros k;
        destruct (decide (k = ev_terminal e)) as [->|Hk];
        rewrite ?lookup_alter_eq, ?lookup_alter_ne, ?lookup_insert_eq, ?lookup_insert_ne, ?Hl by done; cbn; by rewrite ?Hu.
    - intros [= <- _]. split; [|done]. apply map_eq. intros k. destruct (decide (k = ev_terminal e)) as [->|Hk];
        rewrite ?lookup_alter_eq, ?lookup_alter_ne by done; by rewrite ?Hl. }
  destruct (ev_change e) as [rec|ended|fg|kp|labels [rec|]|ended| |rec|cols rows|rep st|title|st turn|kd]; cbn [apply];
    try (match goal with |- context [update _ ?ch] => exact (Hupd ch) end); by intros [= <- _].
Qed.

Lemma core_step_named m e k : (∀ k, is_Some (m !! k) → named k) → named (ev_terminal e) → is_Some (core_step m e !! k) → named k.
Proof.
  intros Hm He. destruct (decide (k = ev_terminal e)) as [->|Hk]; [done|]. intros Hs. apply Hm. revert Hs. unfold core_step.
  destruct (ev_change e) as [| | | |? [|]| | | | | | | |];
    rewrite ?lookup_insert_ne, ?lookup_alter_ne, ?lookup_delete_ne by done; done.
Qed.

Lemma core_at_named n k : core_named → is_Some (core_at n !! k) → named k.
Proof.
  intros [Hf He]. unfold core_at. assert (Forall (λ e, named (ev_terminal e)) (upto n)) as Hl.
  { apply Forall_forall. intros e [_ Hin]%list_elem_of_filter. rewrite Forall_forall in He. by apply He. }
  revert Hl Hf. generalize first. revert k. induction (upto n) as [|e l IH]; intros k m Hl Hf; [apply Hf|].
  apply Forall_cons_iff in Hl as [Hn Hl]. cbn. apply IH; [done|]. intros k'. by apply core_step_named.
Qed.

Lemma info_named t : named (t_address t) → ∃ i, info t = Ok i.
Proof. unfold named, info. destruct (terminal_id_new (t_address t)); cbn; [by eexists|by intros [? ?]]. Qed.

Lemma collect_named m : keyed m → (∀ k, is_Some (m !! k) → named k) → ∃ infos, collect (info <$> values m) = Ok infos.
Proof.
  intros Hk Hn. assert (Forall (λ t, named (t_address t)) (values m)) as Hf.
  { apply Forall_forall. intros t Hin. unfold values in Hin. apply list_elem_of_fmap in Hin as ([k u] & -> & Hin).
    rewrite merge_sort_Permutation in Hin. apply elem_of_map_to_list in Hin. cbn. rewrite (Hk _ _ Hin). apply Hn. by eexists. }
  induction Hf as [|t l Ht _ [infos IH]]; [by exists []|]. destruct (info_named t Ht) as [i Hi]. cbn. rewrite Hi. cbn. rewrite IH.
  by eexists.
Qed.

Lemma apply_named c e :
  keyed (records c) → event_ok e → named (ev_terminal e) → ∃ c' r, apply c (ev_terminal e) (ev_change e) = (c', Ok r).
Proof.
  intros Hk He Hn.
  assert (∀ t, t_address t = ev_terminal e → ∃ r, upsert t = Ok r) as Hup.
  { intros t Ha. unfold upsert. destruct (info_named t) as [i ->]; [by rewrite Ha|]. by eexists. }
  unfold event_ok in He. unfold apply.
  destruct (ev_change e) as [rec|ended|fg|kp|labels [rec|]|ended| |rec|cols rows|rep st|title|st turn|kd];
    try (destruct (Hup _ He) as [r ->]; by do 2 eexists);
    try (destruct (records c !! _) as [t|] eqn:Hl; [|by do 2 eexists]; destruct (update t _) as [t'|] eqn:Hu; [|by do 2 eexists];
         destruct (Hup t') as [r ->]; [rewrite (update_address _ _ _ Hu); by apply Hk|by do 2 eexists]).
  unfold named in Hn. destruct (terminal_id_new _); [by do 2 eexists|by destruct Hn].
Qed.

(** The records follow the core over what arrived, and are never refused when
    terminals are named. *)
Lemma next_from_core notices n n' c acc c' r :
  delivered n notices n' → records c = core_at n → seq c = n → next_from c acc notices = (c', r) →
  (∀ changes, r = Ok changes → records c' = core_at n' ∧ seq c' = n') ∧ (core_named → is_Some (ok r)).
Proof.
  intros Hd. revert c acc. induction Hd as [n|n n1 n2 notice notices Hs Hd IH]; intros c acc Hr Hn.
  { intros [= <- <-]. split; [by intros changes [= _]|by eexists]. }
  destruct notice as [m nm s v|e|s|s ts]; cbn [next_from]; cbn in Hs.
  - subst n1. by apply IH.
  - destruct Hs as [Hin Hs]. rewrite Hn. destruct (N.leb_spec (ev_seq e) n) as [Hle|Hgt]; [subst n1; by apply IH|].
    destruct Hs as [-> Hnext].
    assert (event_ok e) as He by (pose proof (core_events Hcore) as Hf; rewrite Forall_forall in Hf; by apply Hf).
    destruct (apply _ _ _) as [c1 r1] eqn:Ea. pose proof (apply_steps _ e _ _ Ea) as [Hr1 Hs1]. cbn [records seq] in Hr1, Hs1.
    assert (records c1 = core_at (ev_seq e)) as Hc1.
    { unfold core_at. rewrite (upto_next n e) by done. rewrite foldl_app. cbn. by rewrite Hr1, Hr. }
    destruct r1 as [[ch|]|err]; [by apply IH..|]. intros [= <- <-]. split; [done|]. intros [_ Hnm].
    rewrite Forall_forall in Hnm.
    destruct (apply_named (MkCoreChanges (records c) (ev_seq e)) e) as (? & ? & Ha); [cbn; rewrite Hr; apply core_at_keyed|done|by apply Hnm|].
    congruence.
  - subst n1. by apply IH.
  - destruct Hs as [-> Hts]. cbn [records]. destruct (collect _) as [infos|] eqn:Hc; [by apply IH|].
    intros [= <- <-]. split; [done|]. intros Hnm. destruct (collect_named (by_address ts)) as [infos Hi]; [|intros k; rewrite Hts; by apply core_at_named|].
    + apply by_address_keyed.
    + congruence.
Qed.

Lemma delivered_app n n' a b : delivered n (a ++ b) n' → ∃ n1, delivered n a n1 ∧ delivered n1 b n'.
Proof.
  revert n. induction a as [|x a IH]; intros n Hd; [exists n; split; [constructor|done]|].
  inversion Hd as [|? ? ? ? ? Hs Hd']; subst. destruct (IH _ Hd') as (n1' & ? & ?). exists n1'. split; [by econstructor|done].
Qed.

Lemma next_all_core batches n n' c c' r :
  delivered n (concat batches) n' → records c = core_at n → seq c = n → next_all c batches = (c', r) →
  (∀ changes, r = Ok changes → records c' = core_at n' ∧ seq c' = n') ∧ (core_named → is_Some (ok r)).
Proof.
  revert n c r. induction batches as [|b batches IH]; intros n c r Hd Hr Hn; cbn [next_all concat] in *.
  { inversion Hd; subst. intros [= <- <-]. split; [by intros changes [= _]|by eexists]. }
  apply delivered_app in Hd as (n1 & Hb & Hrest). unfold next. destruct (next_from c [] b) as [c1 r1] eqn:E1.
  destruct (next_from_core _ _ _ _ _ _ _ Hb Hr Hn E1) as [H1 H2]. destruct r1 as [ch|e].
  - destruct (H1 ch eq_refl) as [Hr1 Hn1]. destruct (next_all c1 batches) as [c2 r2] eqn:E2. intros [= <- <-].
    destruct (IH n1 c1 r2 Hrest Hr1 Hn1 E2) as [H3 H4]. split.
    + intros changes. destruct r2 as [chs|]; [|done]. intros _. by eapply H3.
    + intros Hnm. destruct (H4 Hnm) as [x Hx]. destruct r2; [by eexists|done].
  - intros [= <- <-]. split; [done|]. intros Hnm. by destruct (H2 Hnm).
Qed.

Lemma delivered_ok n notices n' : delivered n notices n' → Forall notice_ok notices.
Proof.
  induction 1 as [|n n1 n2 x notices Hs _ IH]; [constructor|]. constructor; [|done]. destruct x as [|e| |]; try done.
  destruct Hs as [Hin _]. pose proof (core_events Hcore) as Hf. rewrite Forall_forall in Hf. by apply Hf.
Qed.
End core.

(** C38: The core numbers its events upwards. A watcher that starts from a
    snapshot of the core's records and applies every change it is handed shows what
    the core's records show with every event up to the last one sent applied once
    and in order. The subscription may bring events again, bring late those that
    are in a snapshot, or bring a new snapshot in place of events that were missed;
    otherwise it brings the next event. And [next] fails only on the name of a
    terminal. *)
Theorem watch_refines (log : list Event) (first : gmap str Terminal) (n n' : N) (terminals : list Terminal)
    (snapshot : list TerminalInfo) (c c' : CoreChanges) (batches : list (list Notice)) (r : res Backend.Error (list Change)) :
  core_ok log first → by_address terminals = core_at log first n →
  watch n terminals = Ok (snapshot, c) →
  delivered log first n (concat batches) n' →
  next_all c batches = (c', r) →
  (∀ changes, r = Ok changes →
     seq c' = n' ∧ records c' = core_at log first n' ∧
     foldl apply_change (of_list snapshot) changes = view_of (core_at log first n')) ∧
  (core_named log first → is_Some (ok r)).
Proof.
  intros Hcore Hts Hw Hd Hall. unfold watch in Hw. destruct (collect _) as [infos|] eqn:Hc; [|done]. injection Hw as <- <-.
  destruct (next_all_core _ _ Hcore batches n n' (MkCoreChanges (by_address terminals) n) c' r Hd Hts eq_refl Hall) as [H1 H2]. split; [|done].
  intros changes ->. destruct (H1 changes eq_refl) as [Hr Hn]. split_and!; [done|done|]. rewrite <-Hr.
  pose proof (by_address_keyed terminals) as Hk. apply of_list_values in Hc; [|done].
  apply (next_all_refines batches (MkCoreChanges (by_address terminals) n)); [exact Hk|exact Hc| |exact Hall]. apply Forall_concat. by eapply delivered_ok.
Qed.

Definition sample_terminal (address : string) (title : option str) : Terminal :=
  MkTerminal (lit address) [] 80 (lit "/home") None None true ∅ None None (Some 7%Z) None 24 State_Live None title.

(** A core with one terminal at 5, and three events after it. The first comes, the
    next two are lost and a snapshot at 7 comes for them, with 7 again late, and 8. *)
Definition sample_log : list Event :=
  [MkEvent (TitleChange (Some (lit "vim"))) 6 (lit "t1"); MkEvent (Created (sample_terminal "t2" None)) 7 (lit "t2");
   MkEvent RemovedChange 8 (lit "t1")].
Definition sample_first : gmap str Terminal := by_address [sample_terminal "t1" None].
Definition sample_batches : list (list Notice) :=
  [Notice_Event <$> take 1 sample_log;
   Notice_Missed 7 [sample_terminal "t1" (Some (lit "vim")); sample_terminal "t2" None] :: (Notice_Event <$> drop 1 sample_log)].

Lemma sample_core_ok : core_ok sample_log sample_first.
Proof. split; [repeat constructor|repeat constructor|apply by_address_keyed]. Qed.

Lemma sample_next e : e ∈ sample_log → ev_seq e = 6 ∨ ev_seq e = 7 ∨ ev_seq e = 8.
Proof. unfold sample_log. rewrite !elem_of_cons, elem_of_nil. intros [->|[->|[->|[]]]]; cbn; tauto. Qed.

Lemma sample_delivered : delivered sample_log sample_first 5 (concat sample_batches) 8.
Proof.
  eapply (delivered_cons _ _ 5 6).
  { split; [by left|]. split; [done|]. intros e' [|[|]]%sample_next Hlt; cbn; lia. }
  eapply (delivered_cons _ _ 6 7); [split; [done|vm_compute; reflexivity]|].
  eapply (delivered_cons _ _ 7 7); [split; [right; by left|done]|].
  eapply (delivered_cons _ _ 7 8); [|constructor].
  split; [do 2 right; by left|]. split; [done|]. intros e' [|[|]]%sample_next Hlt; cbn; lia.
Qed.

Lemma watch_refines_witness :
  ∃ snapshot c c' changes,
    watch 5 [sample_terminal "t1" None] = Ok (snapshot, c) ∧
    next_all c sample_batches = (c', Ok changes) ∧ length changes = 3%nat ∧
    foldl apply_change (of_list snapshot) changes = view_of (core_at sample_log sample_first 8).
Proof.
  do 4 eexists. split; [vm_compute; reflexivity|]. split; [vm_compute; reflexivity|]. split; [reflexivity|].
  eapply (watch_refines sample_log sample_first 5 8 [sample_terminal "t1" None] _ _ _ sample_batches).
  - exact sample_core_ok.
  - vm_compute. reflexivity.
  - vm_compute. reflexivity.
  - exact sample_delivered.
  - vm_compute. reflexivity.
  - reflexivity.
Defined.
End CoreChanges.
