(* ===== verification/Schedule.v ===== *)
(** * Schedule: durations, times of day, day sets and cron fields
    (crates/sheprd-automation/src/schedule.rs and schedule/cron.rs)

    What a trigger's schedule is written as and read back from. Bit sets are [N]
    at their width; [split_once] and the parsers are the standard library's. *)

From Stdlib Require Import ZArith NArith Lia.
From stdpp Require Import base option strings sets list.
From S2P Require Import Prelude.

Local Open Scope N_scope.

Module Schedule.

(** [str::split_once] at one character. *)
Fixpoint split_once (c : N) (s : str) : option (str * str) :=
  match s with
  | [] => None
  | d :: s => if d =? c then Some ([], s) else '(a, b) ← split_once c s; Some (d :: a, b)
  end.

Lemma split_once_app c a b : c ∉ a → split_once c (a ++ c :: b) = Some (a, b).
Proof.
  induction a as [|d a IH]; simpl; [by rewrite N.eqb_refl|]. rewrite not_elem_of_cons. intros [Hd Ha].
  by rewrite (proj2 (N.eqb_neq d c)), IH by done.
Qed.

(** *** Durations *)

Definition unit_seconds (c : N) : option N :=
  if c =? 115 then Some 1 else if c =? 109 then Some 60 else if c =? 104 then Some 3600
  else if c =? 100 then Some 86400 else None.

(** The loop of [parse_duration]: [total] and the digits of [number]. *)
Fixpoint parse_duration_from (total : N) (number s : str) : option (N * str) :=
  match s with
  | [] => Some (total, number)
  | c :: s =>
      if is_ascii_digit c then parse_duration_from total (number ++ [c]) s
      else
        unit ← unit_seconds c;
        value ← parse_uint u64_max number;
        seconds ← checked_mul u64_max value unit;
        total ← checked_add u64_max total seconds;
        parse_duration_from total [] s
  end.

Definition parse_duration (text : str) : option N :=
  match trim text with
  | [] => None
  | text =>
      '(total, number) ← parse_duration_from 0 [] text;
      match number with
      | [] => if 0 <? total then Some total else None
      | _ => None
      end
  end.

Definition duration_units : list (N * N) := [(86400, 100); (3600, 104); (60, 109); (1, 115)].

(** One round of [format_duration]'s loop. *)
Definition format_unit (st : N * str) (u : N * N) : N * str :=
  let '(seconds, text) := st in
  let '(unit, suffix) := u in
  if unit <=? seconds then (seconds mod unit, text ++ dec (seconds / unit) ++ [suffix]) else st.

Definition format_duration (seconds : N) : str :=
  let text := (foldl format_unit (seconds, []) duration_units).2 in
  match text with [] => lit "0s" | _ => text end.

(** *** Times of day *)

Record ClockTime := MkClockTime { hour : N; minute : N }.

Definition clock_parse (text : str) : option ClockTime :=
  '(h, m) ← split_once 58 text;
  if negb (str_len h =? 2) || negb (str_len m =? 2) then None
  else
    h ← parse_uint u8_max h;
    if 24 <=? h then None
    else
      m ← parse_uint u8_max m;
      if 60 <=? m then None else Some (MkClockTime h m).

(** [{:02}]. *)
Definition pad2 (n : N) : str := let s := dec n in if lenN s <? 2 then 48 :: s else s.

Definition clock_format (t : ClockTime) : str := pad2 (hour t) ++ 58 :: pad2 (minute t).

(** *** Days of the week *)

Definition DAY_NAMES : list str :=
  [lit "mon"; lit "tue"; lit "wed"; lit "thu"; lit "fri"; lit "sat"; lit "sun"].

Definition DAYS_ALL : N := 127.
Definition DAYS_WEEKDAYS : N := 31.
Definition DAYS_WEEKENDS : N := 96.

Fixpoint position (name : str) (names : list str) : option N :=
  match names with
  | [] => None
  | n :: names => if bool_decide (n = name) then Some 0 else N.succ <$> position name names
  end.

Definition day_index (name : str) : option N := position (trim name) DAY_NAMES.

Definition lower (s : str) : str := to_ascii_lowercase <$> s.

(** [for day in first..=last { days |= 1 << day }]. *)
Definition add_range (days first last : N) : N :=
  foldl (λ d day, N.lor d (N.shiftl 1 day)) days
    ((λ k, first + N.of_nat k) <$> seq 0 (N.to_nat (last + 1 - first))).

Definition days_part (days : N) (part : str) : option N :=
  let part := lower (trim part) in
  '(first, last) ← match split_once 45 part with
    | Some (first, last) => f ← day_index first; l ← day_index last; Some (f, l)
    | None => d ← day_index part; Some (d, d)
    end;
  if last <? first then None else Some (add_range days first last).

Definition days_parse (text : str) : option N :=
  let word := lower (trim text) in
  if bool_decide (word = lit "daily") then Some DAYS_ALL
  else if bool_decide (word = lit "weekdays") then Some DAYS_WEEKDAYS
  else if bool_decide (word = lit "weekends") then Some DAYS_WEEKENDS
  else
    days ← foldM days_part 0 (split_on (λ c, c =? 44) text);
    if days =? 0 then None else Some days.

Definition days_contains (days day : N) : bool :=
  (day <? 7) && negb (N.land days (N.shiftl 1 day) =? 0).

(** [join(",")]. *)
Fixpoint join_comma (names : list str) : str :=
  match names with
  | [] => []
  | [n] => n
  | n :: names => n ++ 44 :: join_comma names
  end.

Definition days_format (days : N) : str :=
  if days =? DAYS_ALL then lit "daily"
  else if days =? DAYS_WEEKDAYS then lit "weekdays"
  else if days =? DAYS_WEEKENDS then lit "weekends"
  else join_comma (omap (λ d, if days_contains days d then DAY_NAMES !! N.to_nat d else None)
         [0; 1; 2; 3; 4; 5; 6]).

(** *** Cron *)

Definition MONTHS : list str :=
  [lit "jan"; lit "feb"; lit "mar"; lit "apr"; lit "may"; lit "jun"; lit "jul"; lit "aug"; lit "sep";
   lit "oct"; lit "nov"; lit "dec"].
Definition WEEKDAY_NAMES : list str :=
  [lit "sun"; lit "mon"; lit "tue"; lit "wed"; lit "thu"; lit "fri"; lit "sat"].

Inductive CronError := StepNumber | StepZero | OutOfRange | BadValue | FieldCount.

Definition cron_value (text : str) (offset : N) (names : list str) : res CronError N :=
  match parse_uint u8_max text with
  | Some n => Ok n
  | None =>
      match position (lower text) names with
      | Some index => Ok (index + offset)
      | None => Err BadValue
      end
  end.

(** The values [(first..=last).step_by(step)] visits. *)
Definition stepped (first last step : N) : list N :=
  (λ k, first + N.of_nat k * step) <$> seq 0 (N.to_nat ((last - first) / step + 1)).

Definition cron_part (min max : N) (names : list str) (part : str) : res CronError (N * N * N) :=
  '(range, step) ← match split_once 47 part with
    | Some (range, step) =>
        match parse_uint u8_max step with
        | None => Err StepNumber
        | Some 0 => Err StepZero
        | Some step => Ok (range, step)
        end
    | None => Ok (part, 1)
    end;
  '(first, last) ← (if bool_decide (range = lit "*") then Ok (min, max)
    else match split_once 45 range with
         | Some (first, last) =>
             f ← cron_value first min names; l ← cron_value last min names; Ok (f, l)
         | None => f ← cron_value range min names; Ok (f, if 1 <? step then max else f)
         end);
  if (first <? min) || (max <? last) || (last <? first) then Err OutOfRange
  else Ok (first, last, step).

Definition set_bits (set : N) (l : list N) : N := foldl (λ s b, N.lor s (N.shiftl 1 b)) set l.

Fixpoint cron_parts (min max : N) (names : list str) (set : N) (parts : list str) : res CronError N :=
  match parts with
  | [] => Ok set
  | part :: parts =>
      '(first, last, step) ← cron_part min max names part;
      cron_parts min max names (set_bits set (stepped first last step)) parts
  end.

(** [field]. *)
Definition cron_field (text : str) (min max : N) (names : list str) : res CronError N :=
  cron_parts min max names 0 (split_on (λ c, c =? 44) text).

Record Cron := MkCron {
  cron_text : str;
  minutes : N;
  hours : N;
  days_of_month : N;
  months : N;
  days_of_week : N;
  any_day_of_month : bool;
  any_day_of_week : bool }.

(** [split_whitespace]: the pieces that are not empty. *)
Definition split_whitespace (s : str) : list str :=
  filter (λ p, p ≠ []) (split_on is_whitespace s).

Fixpoint join_space (names : list str) : str :=
  match names with
  | [] => []
  | [n] => n
  | n :: names => n ++ 32 :: join_space names
  end.

Definition cron_parse (text : str) : res CronError Cron :=
  let fields := split_whitespace text in
  match fields with
  | [mi; h; d; mo; w] =>
      dow ← cron_field w 0 7 WEEKDAY_NAMES;
      let dow := if N.testbit dow 7 then N.lor (N.clearbit dow 7) 1 else dow in
      mis ← cron_field mi 0 59 [];
      hs ← cron_field h 0 23 [];
      ds ← cron_field d 1 31 [];
      mos ← cron_field mo 1 12 MONTHS;
      Ok (MkCron (join_space fields) mis hs ds mos dow (bool_decide (d = lit "*")) (bool_decide (w = lit "*")))
  | _ => Err FieldCount
  end.

Definition cron_has (set value : N) : bool := (value <? 64) && negb (N.land set (N.shiftl 1 value) =? 0).

Definition matches_minute (c : Cron) (m : N) : bool := cron_has (minutes c) m.
Definition matches_hour (c : Cron) (h : N) : bool := cron_has (hours c) h.

Definition matches_day (c : Cron) (day month weekday : N) : bool :=
  let dom := cron_has (days_of_month c) day in
  let dow := cron_has (days_of_week c) weekday in
  cron_has (months c) month &&
  match any_day_of_month c, any_day_of_week c with
  | true, true => true
  | true, false => dow
  | false, true => dom
  | false, false => dom || dow
  end.

Definition cron_matches (c : Cron) (minute hour day month weekday : N) : bool :=
  matches_minute c minute && matches_hour c hour && matches_day c day month weekday.

(** ** Durations read back *)

Lemma parse_duration_from_app t num a b :
  parse_duration_from t num (a ++ b) = '(t, num) ← parse_duration_from t num a; parse_duration_from t num b.
Proof.
  revert t num. induction a as [|c a IH]; intros t num; simpl; [done|]. destruct (is_ascii_digit c); [apply IH|].
  destruct (unit_seconds c) as [u|]; simpl; [|done]. destruct (parse_uint _ num) as [v|]; simpl; [|done].
  destruct (checked_mul _ _ _) as [s|]; simpl; [|done]. destruct (checked_add _ _ _); simpl; [apply IH|done].
Qed.

Lemma parse_duration_digits t num d :
  Forall (λ c, is_ascii_digit c = true) d → parse_duration_from t num d = Some (t, num ++ d).
Proof.
  intros Hd. revert num. induction Hd as [|c d Hc Hd IH]; intros num; simpl; [by rewrite app_nil_r|].
  by rewrite Hc, IH, <-app_assoc.
Qed.

(** One [<number><unit>] part. *)
Lemma parse_duration_part t v c u :
  is_ascii_digit c = false → unit_seconds c = Some u → t + v * u ≤ u64_max → v ≤ u64_max →
  parse_duration_from t [] (dec v ++ [c]) = Some (t + v * u, []).
Proof.
  intros Hc Hu Hmax Hv. rewrite parse_duration_from_app, parse_duration_digits by apply dec_digits. simpl.
  rewrite Hc, Hu, parse_uint_dec by done. simpl.
  rewrite (proj2 (checked_mul_Some _ _ _ _)) by (split; [done|lia]). simpl.
  by rewrite (proj2 (checked_add_Some _ _ _ _)) by (split; [done|lia]).
Qed.

(** The text written so far reads back as what was taken off [n]. *)
Record written (n : N) (st : N * str) : Prop := {
  wr_le : st.1 ≤ n;
  wr_parse : parse_duration_from 0 [] st.2 = Some (n - st.1, []);
  wr_plain : Forall (λ c, is_whitespace c = false) st.2;
}.

Lemma format_unit_written n st unit suffix :
  n ≤ u64_max → is_ascii_digit suffix = false → is_whitespace suffix = false →
  unit_seconds suffix = Some unit → 0 < unit →
  written n st → written n (format_unit st (unit, suffix)) ∧ (format_unit st (unit, suffix)).1 < unit.
Proof.
  intros Hn Hd Hw Hu Hpos [Hle Hp Hs]. destruct st as [s text]. simpl in *. unfold format_unit.
  destruct (N.leb_spec unit s) as [Hge|]; [|done]. simpl.
  pose proof (N.div_mod s unit ltac:(lia)) as Hdm. pose proof (N.mod_lt s unit ltac:(lia)).
  rewrite N.mul_comm in Hdm. assert (s / unit ≤ s) by (apply N.Div0.div_le_upper_bound; nia).
  split; [|done]. split; simpl; [lia| |].
  - rewrite parse_duration_from_app, Hp. simpl.
    assert (n - s + s / unit * unit = n - s mod unit ∧ n - s + s / unit * unit ≤ u64_max ∧ s / unit ≤ u64_max)
      as (He & Hmax & Hq).
    { revert Hdm H0 H. generalize (s / unit * unit), (s mod unit), (s / unit). intros. lia. }
    rewrite (parse_duration_part (n - s) (s / unit) suffix unit) by done. by rewrite He.
  - rewrite !Forall_app. split_and!; [done| |by repeat constructor].
    apply (Forall_impl _ _ _ (dec_digits _)). intros. by apply digit_not_space.
Qed.

Lemma trim_no_space s : Forall (λ c, is_whitespace c = false) s → trim s = s.
Proof.
  intros Hs. assert (∀ t, Forall (λ c, is_whitespace c = false) t → trim_start t = t) as Ht.
  { intros t [|c t' Hc _]; [done|]. simpl. by rewrite Hc. }
  unfold trim. rewrite (Ht s) by done. rewrite Ht by (by apply Forall_reverse). apply reverse_involutive.
Qed.

(** Every whole number of seconds a [u64] holds, zero apart, is read
    back from the text it is written as, whatever its days, hours, minutes and
    seconds are. *)
Theorem duration_roundtrip (n : N) :
  0 < n ≤ u64_max → parse_duration (format_duration n) = Some n.
Proof.
  intros Hn. unfold format_duration, duration_units. cbn [foldl].
  assert (written n (n, [])) as H0.
  { split; simpl; [lia| |constructor]. by rewrite N.sub_diag. }
  destruct (format_unit_written n (n, []) 86400 100) as [H1 _]; [lia|done..|].
  destruct (format_unit_written n (format_unit (n, []) (86400, 100)) 3600 104) as [H2 _]; [lia|done..|].
  destruct (format_unit_written n (format_unit (format_unit (n, []) (86400, 100)) (3600, 104)) 60 109)
    as [H3 _]; [lia|done..|].
  destruct (format_unit_written n (format_unit (format_unit (format_unit (n, []) (86400, 100)) (3600, 104)) (60, 109)) 1 115)
    as [H4 Hlt]; [lia|done..|].
  destruct (format_unit _ (1, 115)) as [s text]. simpl in Hlt. assert (s = 0) as -> by lia.
  destruct H4 as [_ Hp Hs]. simpl in *. rewrite N.sub_0_r in Hp.
  destruct text as [|c text]; [simpl in Hp; injection Hp as <-; lia|].
  unfold parse_duration. rewrite trim_no_space, Hp by done. simpl. by rewrite (proj2 (N.ltb_lt _ _)) by lia.
Qed.

Lemma duration_roundtrip_witness : parse_duration (format_duration 93784) = Some 93784.
Proof. apply (duration_roundtrip 93784). split; vm_compute; [reflexivity|discriminate]. Defined.

(** Zero is written as a text that is refused, and the form written is not always
    the shortest one that reads back. *)
Lemma duration_format_limits :
  parse_duration (format_duration 0) = None ∧
  format_duration 5400 = lit "1h30m" ∧ parse_duration (lit "90m") = Some 5400.
Proof. by vm_compute. Qed.

(** ** Times and days read back *)

Lemma elem_of_range (n : nat) (k : N) : k < N.of_nat n → k ∈ N.of_nat <$> seq 0 n.
Proof. intros. apply list_elem_of_fmap. exists (N.to_nat k). split; [lia|]. apply elem_of_seq. lia. Qed.

(** Every time of day is read back from its [HH:MM] text. *)
Theorem clock_roundtrip (h m : N) :
  h < 24 → m < 60 → clock_parse (clock_format (MkClockTime h m)) = Some (MkClockTime h m).
Proof.
  intros Hh Hm.
  assert (Forall (λ h, Forall (λ m, (λ t, (hour t, minute t)) <$> clock_parse (clock_format (MkClockTime h m)) = Some (h, m))
    (N.of_nat <$> seq 0 60)) (N.of_nat <$> seq 0 24)) as H.
  { apply (bool_decide_unpack _). vm_compute. exact I. }
  rewrite Forall_forall in H. specialize (H h (elem_of_range 24 h Hh)).
  rewrite Forall_forall in H. specialize (H m (elem_of_range 60 m Hm)).
  destruct (clock_parse _) as [[h' m']|]; simpl in H; by simplify_eq.
Qed.

Lemma clock_roundtrip_witness : clock_parse (clock_format (MkClockTime 7 5)) = Some (MkClockTime 7 5).
Proof. apply (clock_roundtrip 7 5); reflexivity. Defined.

(** A sign takes the place of a digit: more than [HH:MM] is accepted. *)
Lemma clock_parse_signs : clock_parse (lit "+9:+5") = Some (MkClockTime 9 5).
Proof. by vm_compute. Qed.

(** Every set of days that is not empty is read back from its text, be
    it a word, a list or a single day. *)
Theorem days_roundtrip (days : N) :
  0 < days < 128 → days_parse (days_format days) = Some days.
Proof.
  intros Hd.
  assert (Forall (λ d, days_parse (days_format d) = Some d) (N.of_nat <$> seq 1 127)) as H.
  { apply (bool_decide_unpack _). vm_compute. exact I. }
  rewrite Forall_forall in H. apply H, list_elem_of_fmap. exists (N.to_nat days). split; [lia|].
  apply elem_of_seq. lia.
Qed.

Lemma days_roundtrip_witness : days_parse (days_format 21) = Some 21.
Proof. apply (days_roundtrip 21). split; reflexivity. Defined.

Example days_example : days_parse (lit " Mon-Wed, sat ") = Some 39.
Proof. by vm_compute. Qed.

(** ** Cron fields *)

Lemma set_bits_spec set l v : N.testbit (set_bits set l) v = N.testbit set v || bool_decide (v ∈ l).
Proof.
  unfold set_bits. revert set. induction l as [|b l IH]; intros set; cbn [foldl].
  { rewrite bool_decide_false by set_solver. by rewrite orb_false_r. }
  rewrite IH, N.lor_spec, <-orb_assoc. f_equal. rewrite N.shiftl_1_l, N.pow2_bits_eqb.
  destruct (N.eqb_spec b v) as [->|Hne]; simpl; [by rewrite bool_decide_true by set_solver|].
  apply bool_decide_ext. rewrite elem_of_cons. naive_solver.
Qed.

Lemma stepped_spec first last step v :
  0 < step → first ≤ last → v ∈ stepped first last step ↔ first ≤ v ≤ last ∧ (v - first) mod step = 0.
Proof.
  intros Hs Hle. unfold stepped. rewrite list_elem_of_fmap. setoid_rewrite elem_of_seq. split.
  - intros (k & -> & Hk).
    assert (N.of_nat k ≤ (last - first) / step) as Hkd by lia.
    assert (N.of_nat k * step ≤ last - first).
    { etrans; [by apply N.mul_le_mono_r|]. rewrite N.mul_comm. apply N.Div0.mul_div_le. }
    split; [lia|]. replace (first + N.of_nat k * step - first) with (N.of_nat k * step) by lia.
    apply N.Div0.mod_mul.
  - intros [Hv Hm]. exists (N.to_nat ((v - first) / step)).
    apply N.Div0.div_exact in Hm. split; [lia|].
    assert ((v - first) / step ≤ (last - first) / step) by (apply N.Div0.div_le_mono; lia). lia.
Qed.

(** [v] is one of the values [part] names. *)
Definition part_names (min max : N) (names : list str) (v : N) (part : str) : Prop :=
  ∃ first last step, cron_part min max names part = Ok (first, last, step) ∧
    first ≤ v ≤ last ∧ (v - first) mod step = 0.

Lemma cron_part_range min max names part first last step :
  cron_part min max names part = Ok (first, last, step) → 0 < step ∧ min ≤ first ≤ last ∧ last ≤ max.
Proof.
  unfold cron_part. intros H.
  destruct (match split_once 47 part with Some _ => _ | None => _ end) as [[range st]|] eqn:Hst; [|done]. simpl in H.
  assert (0 < st) as Hpos.
  { destruct (split_once 47 part) as [[r s]|]; [|by injection Hst as _ <-].
    destruct (parse_uint u8_max s) as [[|p]|]; try done. by injection Hst as _ <-. }
  destruct (if bool_decide _ then _ else _) as [[f l]|]; [|done]. simpl in H.
  destruct (_ || _) eqn:Hr; [done|]. injection H as <- <- <-. rewrite !orb_false_iff, !N.ltb_ge in Hr. lia.
Qed.

Lemma cron_parts_spec min max names set parts r :
  cron_parts min max names set parts = Ok r →
  ∀ v, N.testbit r v = true ↔ N.testbit set v = true ∨ Exists (part_names min max names v) parts.
Proof.
  revert set. induction parts as [|part parts IH]; intros set; cbn [cron_parts].
  { intros [= <-] v. rewrite Exists_nil. naive_solver. }
  destruct (cron_part min max names part) as [[[first last] step]|] eqn:Hp; [|done]. cbn.
  intros Hr v. apply cron_part_range in Hp as Hrange.
  assert (part_names min max names v part ↔ v ∈ stepped first last step) as Hpart.
  { rewrite stepped_spec by lia. split; [|intros; by exists first, last, step].
    intros (f & l & s & Hp' & Hv). rewrite Hp in Hp'. by simplify_eq. }
  rewrite (IH _ Hr v), set_bits_spec, orb_true_iff, bool_decide_eq_true, Exists_cons, Hpart. tauto.
Qed.

(** [v] is a value of a field's text. *)
Definition in_field (text : str) (min max : N) (names : list str) (v : N) : Prop :=
  Exists (part_names min max names v) (split_on (λ c, c =? 44) text).

Lemma cron_field_spec text min max names set :
  cron_field text min max names = Ok set → ∀ v, N.testbit set v = true ↔ in_field text min max names v.
Proof. intros H v. rewrite (cron_parts_spec _ _ _ _ _ _ H v), N.bits_0. naive_solver. Qed.

Lemma land_one s v : negb (N.land s (N.shiftl 1 v) =? 0) = N.testbit s v.
Proof.
  rewrite N.shiftl_1_l. destruct (N.eqb_spec (N.land s (2 ^ v)) 0) as [E|E]; simpl.
  - symmetry. rewrite <-(andb_true_r (N.testbit s v)), <-(N.pow2_bits_true v), <-N.land_spec, E. apply N.bits_0.
  - destruct (N.testbit s v) eqn:Hb; [done|]. exfalso. apply E. apply N.bits_inj. intros n.
    rewrite N.land_spec, N.pow2_bits_eqb, N.bits_0. destruct (N.eqb_spec v n) as [<-|]; [by rewrite Hb|apply andb_false_r].
Qed.

Lemma cron_has_spec s v : v < 64 → cron_has s v = N.testbit s v.
Proof. intros Hv. unfold cron_has. by rewrite (proj2 (N.ltb_lt _ _) Hv), land_one. Qed.

Lemma or_id_r (P : Prop) (b : bool) : b = false → (b = true ∨ P) ↔ P.
Proof. intros ->. naive_solver. Qed.

(** The days of the week a field names; 7 is Sunday too. *)
Definition in_weekdays (text : str) (w : N) : Prop :=
  in_field text 0 7 WEEKDAY_NAMES w ∨ (w = 0 ∧ in_field text 0 7 WEEKDAY_NAMES 7).

Lemma weekday_bits dow w text :
  w < 7 → (∀ v, N.testbit dow v = true ↔ in_field text 0 7 WEEKDAY_NAMES v) →
  N.testbit (if N.testbit dow 7 then N.lor (N.clearbit dow 7) 1 else dow) w = true ↔ in_weekdays text w.
Proof.
  intros Hw Hd. unfold in_weekdays. rewrite <-!Hd. destruct (N.testbit dow 7) eqn:H7.
  - rewrite N.lor_spec, N.clearbit_neq by lia. rewrite orb_true_iff. f_equiv.
    destruct (N.eq_dec w 0) as [->|Hne]; [naive_solver|].
    change 1 with (2 ^ 0). rewrite N.pow2_bits_false by lia. naive_solver.
  - naive_solver.
Qed.

(** A cron expression that parses matches a local time exactly when the
    minute, hour and month are named by their fields and the day is: by both day
    fields' rule of cron (either one when both are restricted, the restricted
    one otherwise), with 0 and 7 both Sunday. *)
Theorem cron_matches_correct (text mi h d mo w : str) (c : Cron) (minute hour day month weekday : N) :
  split_whitespace text = [mi; h; d; mo; w] →
  cron_parse text = Ok c →
  minute < 60 → hour < 24 → day < 32 → month < 13 → weekday < 7 →
  cron_matches c minute hour day month weekday = true ↔
    in_field mi 0 59 [] minute ∧ in_field h 0 23 [] hour ∧ in_field mo 1 12 MONTHS month ∧
    (if bool_decide (d = lit "*")
     then if bool_decide (w = lit "*") then True else in_weekdays w weekday
     else if bool_decide (w = lit "*") then in_field d 1 31 [] day
     else in_field d 1 31 [] day ∨ in_weekdays w weekday).
Proof.
  intros Hf Hp Hmi Hh Hd Hmo Hw. unfold cron_parse in Hp. rewrite Hf in Hp.
  destruct (cron_field w 0 7 WEEKDAY_NAMES) as [dow|] eqn:Ew; [|done].
  destruct (cron_field mi 0 59 []) as [mis|] eqn:Emi; [|done].
  destruct (cron_field h 0 23 []) as [hs|] eqn:Eh; [|done].
  destruct (cron_field d 1 31 []) as [ds|] eqn:Ed; [|done].
  destruct (cron_field mo 1 12 MONTHS) as [mos|] eqn:Emo; [|done].
  cbn [mbind res_bind] in Hp. injection Hp as <-.
  unfold cron_matches, matches_minute, matches_hour, matches_day.
  cbn [minutes hours days_of_month months days_of_week any_day_of_month any_day_of_week].
  rewrite !andb_true_iff, !cron_has_spec by lia.
  rewrite (cron_field_spec _ _ _ _ _ Emi), (cron_field_spec _ _ _ _ _ Eh), (cron_field_spec _ _ _ _ _ Emo).
  pose proof (weekday_bits dow weekday w Hw (cron_field_spec _ _ _ _ _ Ew)) as Hdow.
  pose proof (cron_field_spec _ _ _ _ _ Ed day) as Hdom.
  destruct (bool_decide (d = lit "*")), (bool_decide (w = lit "*")).
  - split; [by intros [[? ?] [? _]]|]. intros (? & ? & ? & _). by split_and!.
  - rewrite Hdow. tauto.
  - rewrite Hdom. tauto.
  - rewrite orb_true_iff, Hdow, Hdom. tauto.
Qed.

Definition sample_cron : str := lit "*/15 9-17 * * mon-fri".

Definition sample_parsed : Cron :=
  MkCron sample_cron (2 ^ 0 + 2 ^ 15 + 2 ^ 30 + 2 ^ 45) 261632 4294967294 8190 62 true false.

Lemma cron_matches_correct_witness :
  cron_parse sample_cron = Ok sample_parsed ∧
  (cron_matches sample_parsed 45 9 3 6 5 = true ↔
    in_field (lit "*/15") 0 59 [] 45 ∧ in_field (lit "9-17") 0 23 [] 9 ∧ in_field (lit "*") 1 12 MONTHS 6 ∧
    (if bool_decide (lit "*" = lit "*")
     then if bool_decide (lit "mon-fri" = lit "*") then True else in_weekdays (lit "mon-fri") 5
     else if bool_decide (lit "mon-fri" = lit "*") then in_field (lit "*") 1 31 [] 3
     else in_field (lit "*") 1 31 [] 3 ∨ in_weekdays (lit "mon-fri") 5)).
Proof.
  split; [vm_compute; reflexivity|].
  apply (cron_matches_correct sample_cron (lit "*/15") (lit "9-17") (lit "*") (lit "*") (lit "mon-fri") sample_parsed);
    [vm_compute; reflexivity|vm_compute; reflexivity|reflexivity..].
Defined.
End Schedule.
