(* ===== verification/ScheduleNext.v ===== *)
(** * ScheduleNext: the next firing of a schedule and whether one is due
    (crates/sheprd-automation/src/schedule/next.rs)

    A jiff [Timestamp] is a number of nanoseconds in jiff's range. Calendar
    arithmetic in a zone is third-party: the class [Zone] gives its operations,
    and [ZoneLaws] what a time zone is. Intervals need neither. *)

From Stdlib Require Import ZArith NArith Lia.
From stdpp Require Import base option strings sets list.
From S2P Require Import Prelude Schedule.

Import Schedule.
Local Open Scope Z_scope.

Module ScheduleNext.

Inductive Kind :=
| At (time : ClockTime) (days : N)
| CronKind (cron : Cron)
| Every (seconds : N)
| Manual.

Definition NANOS : Z := 1000000000.
Definition LATE_AFTER : Z := 120.
Definition MISSED_WALK : nat := N.to_nat 10000.
Definition MISSED_PASSES : nat := 32.

Record Due := MkDue { scheduled : Z; late : bool }.

(** [Timestamp::MIN] and [MAX], and a zone's calendar. *)
Class Zone := {
  ts_min : Z;
  ts_max : Z;
  (** A civil date, of an instant; its neighbours; its weekday from Monday. *)
  date : Type;
  date_of : Z → date;
  date_add : date → N → option date;
  date_weekday : date → N;
  (** [date.at(hour, minute, 0, 0).to_zoned(zone)]. *)
  date_at : date → N → N → option Z;
  (** Minute, hour, day, month and weekday from Sunday of an instant. *)
  local : Z → N * N * N * N * N;
  (** [start_of_next] of an instant's day and hour. *)
  next_day : Z → option Z;
  next_hour : Z → option Z;
}.

Section next.
Context `{Zone}.

Definition in_range (t : Z) : bool := (ts_min <=? t) && (t <=? ts_max).

(** [as_second] truncates toward zero. *)
Definition as_second (t : Z) : Z := Z.quot t NANOS.

(** [checked_add] of a number of seconds. *)
Definition add_seconds (t s : Z) : option Z :=
  let r := t + s * NANOS in if in_range r then Some r else None.

Definition i64_max : Z := 9223372036854775807.

Definition at_offset (after : Z) (start : date) (time : ClockTime) (days : N) (offset : N) : option Z :=
  d ← date_add start offset;
  if negb (days_contains days (date_weekday d)) then None
  else
    at_ ← date_at d (hour time) (minute time);
    if after <? at_ then Some at_ else None.

(** [find_map]: the first [Some]. *)
Fixpoint find_map {A B} (f : A → option B) (l : list A) : option B :=
  match l with
  | [] => None
  | a :: l => match f a with Some b => Some b | None => find_map f l end
  end.

(** The loop of [next_cron]. In a zone that satisfies [ZoneLaws] a turn moves at
    least a minute, so the fuel the caller gives covers every minute up to the
    limit ([cron_walk_least]). Where [start_of_next] does not move forward the
    source's loop does not end, and this one runs out of fuel. *)
Fixpoint cron_walk (fuel : nat) (cron : Cron) (limit at_ : Z) : option Z :=
  match fuel with
  | O => None
  | S fuel =>
      if at_ <=? limit then
        let '(minute, hour, day, month, weekday) := local at_ in
        if negb (matches_day cron day month weekday) then
          at_ ← next_day at_; cron_walk fuel cron limit at_
        else if negb (matches_hour cron hour) then
          at_ ← next_hour at_; cron_walk fuel cron limit at_
        else if negb (matches_minute cron minute) then
          at_ ← add_seconds at_ 60; cron_walk fuel cron limit at_
        else Some at_
      else None
  end.

Definition MINUTE : Z := 60 * NANOS.

Definition next_cron (cron : Cron) (after : Z) : option Z :=
  limit ← add_seconds after (8808 * 3600);
  start ← add_seconds after 60;
  let second := as_second start in
  let at_ := (second - second mod 60) * NANOS in
  if in_range at_ then cron_walk (S (Z.to_nat ((limit - at_) / MINUTE + 1))) cron limit at_ else None.

Definition next_after (schedule : Kind) (after : Z) (anchor : option Z) : option Z :=
  match schedule with
  | Manual => None
  | Every seconds =>
      let step := Z.of_N seconds in
      if (i64_max <? step) || (step <=? 0) then None
      else
        let anchor := default after anchor in
        let behind := as_second after - as_second anchor in
        let steps := if behind <? 0 then 1 else behind / step + 1 in
        if i64_max <? steps * step then None else add_seconds anchor (steps * step)
  | At time days => find_map (at_offset after (date_of after) time days) [0; 1; 2; 3; 4; 5; 6; 7]%N
  | CronKind cron => next_cron cron after
  end.

(** The inner loop of [due]: the latest occurrence found, the position, the
    anchor, and whether the walk ran out. *)
Fixpoint walk (remaining : nat) (schedule : Kind) (now : Z) (latest : option Z) (after : Z) (anchor : option Z)
    : option Z * Z * option Z * bool :=
  match remaining with
  | O => (latest, after, anchor, true)
  | S remaining =>
      match next_after schedule after anchor with
      | None => (latest, after, anchor, false)
      | Some next =>
          if now <? next then (latest, after, anchor, false)
          else walk remaining schedule now (Some next) next (Some next)
      end
  end.

Fixpoint passes (n : nat) (schedule : Kind) (now : Z) (latest : option Z) (after : Z) (anchor : option Z)
    : option Z :=
  match n with
  | O => latest
  | S n =>
      let start := after in
      let '(latest, after, anchor, ran_out) := walk MISSED_WALK schedule now latest after anchor in
      if negb ran_out then latest
      else
        let left := as_second now - as_second after in
        let span := as_second after - as_second start in
        let skip := Z.max (left - Z.quot span 2) 0 in
        let after := default after (add_seconds after skip) in
        passes n schedule now latest after anchor
  end.

(** [due]. *)
Definition due (schedule : Kind) (checked : Z) (anchor : option Z) (now : Z) : option Due :=
  scheduled ← passes MISSED_PASSES schedule now None checked anchor;
  let behind := as_second now - as_second scheduled in
  Some (MkDue scheduled (LATE_AFTER <? behind)).

(** ** Intervals *)

Lemma as_second_whole s : as_second (s * NANOS) = s.
Proof. unfold as_second. apply Z.quot_mul. by vm_compute. Qed.

Lemma add_seconds_in t s : ts_min ≤ t + s * NANOS ≤ ts_max → add_seconds t s = Some (t + s * NANOS).
Proof. intros Hr. unfold add_seconds, in_range. by rewrite !(proj2 (Z.leb_le _ _)) by lia. Qed.

Lemma add_seconds_whole t s :
  ts_min ≤ (t + s) * NANOS ≤ ts_max → add_seconds (t * NANOS) s = Some ((t + s) * NANOS).
Proof. intros Hr. rewrite add_seconds_in by lia. f_equal. lia. Qed.

(** [next_after] of an interval on whole seconds. *)
Lemma next_every step after anchor :
  0 < step ≤ i64_max → anchor ≤ after →
  ((after - anchor) / step + 1) * step ≤ i64_max →
  next_after (Every (Z.to_N step)) (after * NANOS) (Some (anchor * NANOS)) =
    add_seconds (anchor * NANOS) (((after - anchor) / step + 1) * step).
Proof.
  intros Hs Ha Hmax. unfold next_after. rewrite Z2N.id by lia.
  destruct (Z.ltb_spec i64_max step); [lia|]. destruct (Z.leb_spec step 0); [lia|]. cbn [orb].
  change (default (after * NANOS) (Some (anchor * NANOS))) with (anchor * NANOS).
  rewrite !as_second_whole. destruct (Z.ltb_spec (after - anchor) 0); [lia|].
  destruct (Z.ltb_spec i64_max (((after - anchor) / step + 1) * step)); [lia|done].
Qed.

(** The next firing of an interval is the first moment strictly after
    [after] that is a whole number of steps after the last firing. *)
Theorem every_next_first (step after anchor : Z) :
  0 < step → anchor ≤ after →
  ts_min ≤ anchor * NANOS → (after + step) * NANOS ≤ ts_max → (after - anchor) + step ≤ i64_max →
  ∃ k, next_after (Every (Z.to_N step)) (after * NANOS) (Some (anchor * NANOS))
         = Some ((anchor + k * step) * NANOS) ∧
    after < anchor + k * step ∧ ∀ j, after < anchor + j * step → k ≤ j.
Proof.
  intros Hs Ha Hmin Hmax Hi. set (q := (after - anchor) / step).
  assert (after - anchor = step * q + (after - anchor) mod step) as Hdm by (apply Z.div_mod; lia).
  pose proof (Z.mod_pos_bound (after - anchor) step Hs).
  assert (0 ≤ q) by (apply Z.div_pos; lia).
  exists (q + 1). rewrite next_every; [|nia..]. fold q. split; [|split; [nia|]].
  - apply add_seconds_whole. unfold NANOS in *. nia.
  - intros j Hj. assert (q < j); [|lia]. nia.
Qed.

(** *** Missed intervals *)

Section every.
Context (step a now : Z).
Hypothesis Hstep : 0 < step.
Hypothesis Hmin : ts_min ≤ a * NANOS.
Hypothesis Hmax : (now + step) * NANOS ≤ ts_max.
Hypothesis Hi : now - a + step ≤ i64_max.

(** The [k]-th firing, and how many there are up to a moment. *)
Definition occ (k : Z) : Z := a + k * step.
Definition upto (t : Z) : Z := (t - a) / step.

Lemma upto_spec t : occ (upto t) ≤ t < occ (upto t + 1).
Proof.
  unfold occ, upto. pose proof (Z.div_mod (t - a) step ltac:(lia)).
  pose proof (Z.mod_pos_bound (t - a) step Hstep). nia.
Qed.

Lemma upto_mono t u : t ≤ u → upto t ≤ upto u.
Proof. intros. unfold upto. apply Z.div_le_mono; lia. Qed.

Lemma upto_occ k : upto (occ k) = k.
Proof. unfold upto, occ. replace (a + k * step - a) with (k * step) by lia. apply Z.div_mul. lia. Qed.

(** From any firing as anchor, the next firing after [after]. *)
Lemma next_occ j after :
  0 ≤ j → occ j ≤ after → after ≤ now →
  next_after (Every (Z.to_N step)) (after * NANOS) (Some (occ j * NANOS)) = Some (occ (upto after + 1) * NANOS).
Proof.
  intros Hj Ha Hn. pose proof (upto_spec after) as Hu.
  assert ((after - occ j) / step = upto after - j) as Hq.
  { unfold upto, occ. replace (after - (a + j * step)) with (after - a + (- j) * step) by lia.
    rewrite Z.div_add by lia. lia. }
  assert (j ≤ upto after) by (rewrite <-(upto_occ j); by apply upto_mono).
  assert (0 ≤ upto after) by lia.
  assert (occ j + (upto after - j + 1) * step = occ (upto after + 1)) as He by (unfold occ; ring).
  assert (occ (upto after + 1) = occ (upto after) + step) as Hnext by (unfold occ; ring).
  assert (a ≤ occ (upto after)) by (unfold occ; nia).
  assert (a ≤ occ j) by (unfold occ; nia).
  rewrite next_every; rewrite ?Hq; [|lia..].
  rewrite add_seconds_whole; rewrite He; [done|]. unfold NANOS in *. lia.
Qed.

(** The walk from [after] with [n] turns left: it stops at the last firing, or
    runs out [n] firings on. *)
Lemma walk_every n latest j after :
  0 ≤ j → occ j ≤ after → after ≤ now →
  walk n (Every (Z.to_N step)) (now * NANOS) latest (after * NANOS) (Some (occ j * NANOS)) =
    if upto now - upto after <? Z.of_nat n then
      if upto after <? upto now
      then (Some (occ (upto now) * NANOS), occ (upto now) * NANOS, Some (occ (upto now) * NANOS), false)
      else (latest, after * NANOS, Some (occ j * NANOS), false)
    else if bool_decide (n = 0%nat) then (latest, after * NANOS, Some (occ j * NANOS), true)
    else let e := occ (upto after + Z.of_nat n) * NANOS in (Some e, e, Some e, true).
Proof.
  revert latest j after. induction n as [|n IH]; intros latest j after Hj Ha Hn.
  { cbn [walk]. pose proof (upto_mono after now Hn). destruct (Z.ltb_spec (upto now - upto after) (Z.of_nat 0)); [lia|done]. }
  cbn [walk]. rewrite next_occ by done. rewrite bool_decide_false by done.
  pose proof (upto_spec after) as Hua. pose proof (upto_spec now) as Hun.
  pose proof (upto_mono after now Hn) as Hmono.
  assert (0 ≤ upto after) by (rewrite <-(upto_occ j) in Hj; etrans; [exact Hj|]; rewrite upto_occ; rewrite <-(upto_occ j); by apply upto_mono).
  destruct (Z.ltb_spec (now * NANOS) (occ (upto after + 1) * NANOS)) as [Hpast|Hnot].
  - assert (now < occ (upto after + 1)) by (unfold NANOS in Hpast; lia).
    assert (upto now = upto after) as -> by (unfold occ in *; nia).
    destruct (Z.ltb_spec (upto after - upto after) (Z.of_nat (S n))); [|lia].
    by destruct (Z.ltb_spec (upto after) (upto after)); [lia|].
  - assert (occ (upto after + 1) ≤ now) as Hle by (unfold NANOS in Hnot; lia).
    rewrite IH by (done || lia). rewrite upto_occ.
    assert (upto after + 1 ≤ upto now) by (rewrite <-(upto_occ (upto after + 1)); by apply upto_mono).
    destruct (Z.ltb_spec (upto now - (upto after + 1)) (Z.of_nat n)), (Z.ltb_spec (upto now - upto after) (Z.of_nat (S n))); try lia.
    + destruct (Z.ltb_spec (upto after) (upto now)); [|lia].
      destruct (Z.ltb_spec (upto after + 1) (upto now)); [done|]. by replace (upto now) with (upto after + 1) by lia.
    + destruct (decide (n = 0%nat)) as [->|Hne]; [rewrite bool_decide_true by done|rewrite bool_decide_false by done].
      * done.
      * by replace (upto after + 1 + Z.of_nat n) with (upto after + Z.of_nat (S n)) by lia.
Qed.

Lemma walk_len : Z.of_nat MISSED_WALK = 10000.
Proof. unfold MISSED_WALK. by rewrite N_nat_Z. Qed.

Lemma walk_some : MISSED_WALK ≠ 0%nat.
Proof. intros E. pose proof walk_len as Hw. rewrite E in Hw. done. Qed.

Lemma upto_lt_step t u : t + step ≤ u → upto t < upto u.
Proof.
  intros. pose proof (upto_spec t). pose proof (upto_spec u). unfold occ in *. nia.
Qed.

(** Two moments less than [n] steps apart hold at most [n] firings. *)
Lemma upto_close t u n : u - t ≤ n * step → upto u - upto t ≤ n + 1.
Proof. intros. pose proof (upto_spec t). pose proof (upto_spec u). unfold occ in *. nia. Qed.

(** A pass that cannot run out ends the search at the last firing. *)
Lemma pass_last n latest j after :
  0 ≤ j → occ j ≤ after → after ≤ now → upto now - upto after < 10000 →
  passes (S n) (Every (Z.to_N step)) (now * NANOS) latest (after * NANOS) (Some (occ j * NANOS)) =
    if upto after <? upto now then Some (occ (upto now) * NANOS) else latest.
Proof.
  intros Hj Ha Hn Hlt. cbn [passes]. rewrite walk_every by done. rewrite walk_len.
  rewrite (proj2 (Z.ltb_lt _ _) Hlt). by destruct (upto after <? upto now).
Qed.

(** Where the second pass starts: near enough to [now] to reach it, and before
    the last firing unless the first pass already found it. *)
Lemma restart_near checked :
  a ≤ checked → checked ≤ now → 10000 ≤ upto now - upto checked →
  let k := upto checked + 10000 in
  let after := occ k + Z.max (now - occ k - Z.quot (occ k - checked) 2) 0 in
  occ k ≤ after ∧ after ≤ now ∧ upto now - upto after < 10000 ∧ (k < upto now → upto after < upto now).
Proof.
  intros Ha Hn Hk k after. pose proof (upto_spec checked) as Hc. pose proof (upto_spec now) as Hu.
  assert (occ k = occ (upto checked) + 10000 * step) as Ek by (subst k; unfold occ; ring).
  assert (occ (upto checked + 1) = occ (upto checked) + step) as Ec by (unfold occ; ring).
  assert (occ k ≤ now) as Hkn by (subst k; unfold occ in *; nia).
  assert (after = occ k + Z.max (now - occ k - (occ k - checked) / 2) 0) as Ea
    by (subst after; by rewrite Z.quot_div_nonneg by lia).
  clearbody after. subst after.
  pose proof (Z.div_mod (occ k - checked) 2 ltac:(lia)). pose proof (Z.mod_pos_bound (occ k - checked) 2 ltac:(lia)).
  set (half := (occ k - checked) / 2) in *. set (after := occ k + Z.max _ 0).
  assert (now - after ≤ 5000 * step) as Hnear by (subst after; lia).
  split; [lia|]. split; [lia|]. split; [pose proof (upto_close _ _ _ Hnear); lia|].
  intros Hlt. destruct (Z.max_spec (now - occ k - half) 0) as [[? E]|[? E]].
  - subst after. rewrite E, Z.add_0_r, upto_occ. lia.
  - apply upto_lt_step. subst after. rewrite E. lia.
Qed.

Lemma due_every checked :
  a ≤ checked → checked ≤ now →
  passes MISSED_PASSES (Every (Z.to_N step)) (now * NANOS) None (checked * NANOS) (Some (a * NANOS)) =
    if upto checked <? upto now then Some (occ (upto now) * NANOS) else None.
Proof.
  intros Ha Hn. assert (a = occ 0) as Ea by (unfold occ; lia).
  rewrite Ea at 1. change MISSED_PASSES with (S (S 30)).
  destruct (Z.lt_ge_cases (upto now - upto checked) 10000) as [Hlt|Hge].
  { apply pass_last; lia. }
  destruct (restart_near checked Ha Hn Hge) as (R1 & R2 & R3 & R4).
  set (k := upto checked + 10000) in *. pose proof (upto_spec now).
  assert (0 ≤ upto checked) by (rewrite <-(upto_occ 0), <-Ea; by apply upto_mono).
  assert (a ≤ occ k) by (subst k; unfold occ; nia).
  remember (S 30) as rest eqn:Erest. cbn [passes].
  rewrite walk_every by lia. rewrite walk_len, (proj2 (Z.ltb_ge _ _) Hge).
  rewrite bool_decide_false by apply walk_some. fold k. cbn [negb].
  rewrite !as_second_whole. rewrite add_seconds_whole by (unfold NANOS in *; lia).
  cbn [default from_option id]. subst rest.
  rewrite pass_last by lia.
  rewrite (proj2 (Z.ltb_lt (upto checked) (upto now))) by lia.
  destruct (Z.ltb_spec (upto (occ k + Z.max (now - occ k - Z.quot (occ k - checked) 2) 0)) (upto now)); [done|].
  f_equal. f_equal. f_equal. lia.
Qed.
End every.

(** When an interval is checked, everything it missed collapses into
    the latest firing not after now, whatever the number missed; nothing is due
    when no firing lies after the moment last checked; and the firing counts as
    late exactly when it is more than two minutes old. *)
Theorem due_every_latest (step last checked now : Z) :
  0 < step → last ≤ checked → checked ≤ now →
  ts_min ≤ last * NANOS → (now + step) * NANOS ≤ ts_max → now - last + step ≤ i64_max →
  due (Every (Z.to_N step)) (checked * NANOS) (Some (last * NANOS)) (now * NANOS) =
    let latest := last + (now - last) / step * step in
    if checked <? latest then Some (MkDue (latest * NANOS) (120 <? now - latest)) else None.
Proof.
  intros Hs Hlc Hcn Hmin Hmax Hi. cbv zeta. set (latest := last + (now - last) / step * step).
  unfold due. rewrite due_every by done.
  pose proof (upto_spec step last Hs checked) as Hc.
  assert (latest = occ step last (upto step last now)) as El by done. rewrite <-El.
  assert ((upto step last checked <? upto step last now) = (checked <? latest)) as ->.
  { rewrite El. apply Bool.eq_iff_eq_true. rewrite !Z.ltb_lt. unfold occ in *. split; intros; nia. }
  destruct (checked <? latest); [|done]. cbn [mbind option_bind]. by rewrite !as_second_whole.
Qed.
(** ** Cron expressions *)

Definition DAY : Z := 1440 * MINUTE.
Definition on_minute (t : Z) : Prop := t mod MINUTE = 0.
Definition day_of (t : Z) : N * N * N := let '(_, _, d, m, w) := local t in (d, m, w).
Definition hour_of (t : Z) : N := let '(_, h, _, _, _) := local t in h.

(** The cron expression names the local minute of this instant. *)
Definition fires (cron : Cron) (t : Z) : bool :=
  let '(mi, h, d, m, w) := local t in cron_matches cron mi h d m w.

(** What a zone's calendar promises: the next day and the next hour lie ahead,
    on a minute, and no instant before them is on another day or hour; they
    exist except at the end of jiff's range. A zone whose offset moves by a
    fraction of an hour does not keep the hour's part on the day it moves. *)
Class ZoneLaws : Prop := {
  next_day_some : ∀ t u, on_minute t → next_day t = Some u →
    on_minute u ∧ t < u ∧ ∀ v, t ≤ v → v < u → day_of v = day_of t;
  next_day_none : ∀ t, ts_min ≤ t → next_day t = None → ts_max < t + 2 * DAY;
  next_hour_some : ∀ t u, on_minute t → next_hour t = Some u →
    on_minute u ∧ t < u ∧ ∀ v, t ≤ v → v < u → hour_of v = hour_of t;
  next_hour_none : ∀ t, ts_min ≤ t → next_hour t = None → ts_max < t + 2 * DAY;
}.

Section cron.
Context `{ZoneLaws}.

Lemma minute_gap t u : on_minute t → on_minute u → t < u → t + MINUTE ≤ u.
Proof.
  unfold on_minute. intros Ht Hu Hlt.
  pose proof (Z.div_mod t MINUTE ltac:(done)). pose proof (Z.div_mod u MINUTE ltac:(done)).
  rewrite Ht in *. rewrite Hu in *. unfold MINUTE, NANOS in *. lia.
Qed.

Lemma on_minute_add t : on_minute t → on_minute (t + 60 * NANOS).
Proof. unfold on_minute. intros. by rewrite <-Zplus_mod_idemp_l, H1. Qed.

Lemma fires_day cron t : matches_day cron (day_of t).1.1 (day_of t).1.2 (day_of t).2 = false → fires cron t = false.
Proof.
  unfold fires, day_of, cron_matches. destruct (local t) as [[[[mi h] d] m] w]. simpl. intros ->. by rewrite andb_false_r.
Qed.

Lemma fires_hour cron t : matches_hour cron (hour_of t) = false → fires cron t = false.
Proof.
  unfold fires, hour_of, cron_matches. destruct (local t) as [[[[mi h] d] m] w]. simpl. intros ->. by rewrite andb_false_r.
Qed.

(** What a search of the minutes from [t] to [limit] has to answer. *)
Definition least_firing (cron : Cron) (t limit : Z) (r : option Z) : Prop :=
  match r with
  | Some u => t ≤ u ∧ u ≤ limit ∧ on_minute u ∧ fires cron u = true ∧
      ∀ v, on_minute v → t ≤ v → v < u → fires cron v = false
  | None => ∀ v, on_minute v → t ≤ v → v ≤ limit → fires cron v = false
  end.

(** Minutes that do not fire can be skipped. *)
Lemma least_skip cron t u limit r :
  t ≤ u → (∀ v, on_minute v → t ≤ v → v < u → fires cron v = false) →
  least_firing cron u limit r → least_firing cron t limit r.
Proof.
  intros Htu Hskip. destruct r as [w|]; simpl.
  - intros (? & ? & ? & ? & Hw). repeat split; [lia|done..|].
    intros v Hv ??. destruct (Z.lt_ge_cases v u); [by apply Hskip|by apply Hw].
  - intros Hw v Hv ??. destruct (Z.lt_ge_cases v u); [by apply Hskip|by apply Hw].
Qed.

Lemma cron_walk_least cron limit n t :
  on_minute t → ts_min ≤ t → limit + 2 * DAY ≤ ts_max → limit < t + Z.of_nat n * MINUTE →
  least_firing cron t limit (cron_walk n cron limit t).
Proof.
  intros Hm Hmin Hmax. revert t Hm Hmin. induction n as [|n IH]; intros t Hm Hmin Hfuel.
  { simpl. intros v _ ??. lia. }
  assert (∀ u, on_minute u → t < u → (∀ v, on_minute v → t ≤ v → v < u → fires cron v = false) →
    least_firing cron t limit (cron_walk n cron limit u)) as Hgo.
  { intros u Hu Hlt Hskip. apply (least_skip _ _ u); [lia|done|].
    pose proof (minute_gap t u Hm Hu Hlt). apply IH; [done|lia|lia]. }
  cbn [cron_walk]. destruct (Z.leb_spec t limit); [|simpl; intros; lia].
  pose proof (fires_day cron) as Fd. pose proof (fires_hour cron) as Fh.
  destruct (local t) as [[[[mi h] d] m] w] eqn:El.
  assert (day_of t = (d, m, w)) as Edt by (unfold day_of; by rewrite El).
  assert (hour_of t = h) as Eht by (unfold hour_of; by rewrite El).
  destruct (matches_day cron d m w) eqn:Eday; cbn [negb].
  2: { destruct (next_day t) as [u|] eqn:En; cbn [mbind option_bind].
       - destruct (next_day_some t u Hm En) as (Hu & Hlt & Hsame). apply Hgo; [done..|].
         intros v _ ??. apply Fd. by rewrite Hsame, Edt by done.
       - pose proof (next_day_none t Hmin En). lia. }
  destruct (matches_hour cron h) eqn:Ehour; cbn [negb].
  2: { destruct (next_hour t) as [u|] eqn:En; cbn [mbind option_bind].
       - destruct (next_hour_some t u Hm En) as (Hu & Hlt & Hsame). apply Hgo; [done..|].
         intros v _ ??. apply Fh. by rewrite Hsame, Eht by done.
       - pose proof (next_hour_none t Hmin En). lia. }
  assert (fires cron t = matches_minute cron mi) as Ef
    by (unfold fires, cron_matches; by rewrite El, Eday, Ehour, !andb_true_r).
  destruct (matches_minute cron mi) eqn:Eminute; cbn [negb].
  - simpl. repeat split; [lia..|done|done|]. intros; lia.
  - rewrite add_seconds_in by (unfold DAY, MINUTE, NANOS in *; lia). cbn [mbind option_bind]. apply Hgo; [by apply on_minute_add|unfold NANOS; lia|].
    intros v Hv ??. assert (v = t) as ->; [|done].
    destruct (decide (v = t)); [done|]. pose proof (minute_gap t v Hm Hv). unfold MINUTE, NANOS in *. lia.
Qed.

(** The minute the search starts from is the first one after [after]. *)
Lemma cron_start after :
  0 ≤ after →
  let t := (as_second (after + 60 * NANOS) - as_second (after + 60 * NANOS) mod 60) * NANOS in
  on_minute t ∧ after < t ∧ t ≤ after + MINUTE.
Proof.
  intros Ha t. subst t. unfold as_second. rewrite Z.quot_div_nonneg by (unfold NANOS; lia).
  unfold on_minute, MINUTE. set (s := (after + 60 * NANOS) / NANOS).
  pose proof (Z.div_mod (after + 60 * NANOS) NANOS ltac:(done)).
  pose proof (Z.mod_pos_bound (after + 60 * NANOS) NANOS ltac:(done)).
  pose proof (Z.div_mod s 60 ltac:(done)). pose proof (Z.mod_pos_bound s 60 ltac:(done)).
  split; [|unfold NANOS in *; lia].
  replace ((s - s mod 60) * NANOS) with (s / 60 * (60 * NANOS)) by lia. apply Z.mod_mul. done.
Qed.

(** The next firing of a cron expression is the earliest minute
    strictly after [after] whose local time the expression names; the search
    gives none only when no minute of the 367 days ahead is named. The walk that
    skips whole days and hours neither misses a minute nor runs forever. *)
Theorem next_cron_first (cron : Cron) (after : Z) :
  0 ≤ after → ts_min ≤ 0 → after + 370 * DAY ≤ ts_max →
  match next_cron cron after with
  | Some u => after < u ∧ u ≤ after + 367 * DAY ∧ on_minute u ∧ fires cron u = true ∧
      ∀ v, on_minute v → after < v → v < u → fires cron v = false
  | None => ∀ v, on_minute v → after < v → v ≤ after + 367 * DAY → fires cron v = false
  end.
Proof.
  intros Ha Hmin Hmax. unfold next_cron.
  assert (8808 * 3600 * NANOS = 367 * DAY) as E367 by done.
  rewrite add_seconds_in by (unfold DAY, MINUTE, NANOS in *; lia). cbn [mbind option_bind].
  rewrite add_seconds_in by (unfold DAY, MINUTE, NANOS in *; lia). rewrite E367.
  cbn [andb mbind option_bind]. cbv zeta.
  destruct (cron_start after Ha) as (Ht & Hlo & Hhi). set (t := (_ - _) * NANOS) in *. clearbody t.
  unfold in_range. rewrite !(proj2 (Z.leb_le _ _)) by (unfold DAY, MINUTE, NANOS in *; lia). cbn [andb].
  pose proof (cron_walk_least cron (after + 367 * DAY) (S (Z.to_nat ((after + 367 * DAY - t) / MINUTE + 1))) t Ht) as Hw.
  assert (least_firing cron t (after + 367 * DAY) (cron_walk (S (Z.to_nat ((after + 367 * DAY - t) / MINUTE + 1))) cron (after + 367 * DAY) t)) as Hl.
  { apply Hw; [lia|unfold DAY, MINUTE, NANOS in *; lia|].
    pose proof (Z.div_mod (after + 367 * DAY - t) MINUTE ltac:(done)).
    pose proof (Z.mod_pos_bound (after + 367 * DAY - t) MINUTE ltac:(done)).
    assert (0 ≤ (after + 367 * DAY - t) / MINUTE) by (apply Z.div_pos; [unfold DAY, MINUTE, NANOS in *; lia|done]).
    rewrite Nat2Z.inj_succ, Z2Nat.id by lia. unfold MINUTE, NANOS in *. lia. }
  assert (∀ v, on_minute v → after < v → t ≤ v) as Hfirst.
  { intros v Hv Hav. destruct (Z.lt_ge_cases v t) as [Hlt|]; [|lia]. pose proof (minute_gap v t Hv Ht Hlt). lia. }
  clear Hw. destruct (cron_walk _ _ _ _) as [u|]; simpl in Hl.
  - destruct Hl as (? & ? & ? & ? & Hmiss). repeat split; [lia|done..|]. intros v ???. apply Hmiss; auto.
  - intros v ???. apply Hl; auto.
Qed.
End cron.

(** Where the offset moves by half an hour (Lord Howe Island), the start of the
    hour plus an hour can be the instant itself: the loop then stays there,
    however many turns it takes. *)
Lemma cron_walk_stuck cron limit t mi h d m w n :
  t ≤ limit → local t = (mi, h, d, m, w) → next_hour t = Some t →
  matches_day cron d m w = true → matches_hour cron h = false →
  cron_walk n cron limit t = None.
Proof.
  intros Hl El En Ed Eh. induction n as [|n IH]; [done|]. cbn [cron_walk].
  by rewrite (proj2 (Z.leb_le _ _) Hl), El, Ed, Eh; cbn [negb]; rewrite En.
Qed.
End next.

(** ** UTC, as a zone *)

(** The day and month of a day counted from 1970-01-01, by years that start in
    March and eras of four centuries. *)
Definition civil (days : Z) : N * N :=
  let z := days + 719468 in
  let doe := z mod 146097 in
  let yoe := (doe - doe / 1460 + doe / 36524 - doe / 146096) / 365 in
  let doy := doe - (365 * yoe + yoe / 4 - yoe / 100) in
  let mp := (5 * doy + 2) / 153 in
  (Z.to_N (doy - (153 * mp + 2) / 5 + 1), Z.to_N (if mp <? 10 then mp + 3 else mp - 9)).

Definition checked_ts (lo hi t : Z) : option Z := if (lo <=? t) && (t <=? hi) then Some t else None.
Definition UTC_MIN : Z := -377705023201 * NANOS.
Definition UTC_MAX : Z := 253402207200 * NANOS + 999999999.
Definition HOUR : Z := 60 * MINUTE.

Definition utc : Zone := {|
  ts_min := UTC_MIN; ts_max := UTC_MAX;
  date := Z; date_of := λ t, t / DAY; date_add := λ d n, Some (d + Z.of_N n);
  date_weekday := λ d, Z.to_N ((d + 3) mod 7);
  date_at := λ d h m, checked_ts UTC_MIN UTC_MAX (d * DAY + Z.of_N h * HOUR + Z.of_N m * MINUTE);
  local := λ t,
    (Z.to_N (t / MINUTE mod 60), Z.to_N (t / HOUR mod 24), (civil (t / DAY)).1, (civil (t / DAY)).2,
     Z.to_N ((t / DAY + 4) mod 7));
  next_day := λ t, checked_ts UTC_MIN UTC_MAX ((t / DAY + 1) * DAY);
  next_hour := λ t, checked_ts UTC_MIN UTC_MAX ((t / HOUR + 1) * HOUR) |}.

(** Rounding up to the next multiple of a whole number of minutes. *)
Lemma round_up k t u :
  0 < k → checked_ts UTC_MIN UTC_MAX ((t / (k * MINUTE) + 1) * (k * MINUTE)) = Some u →
  on_minute u ∧ t < u ∧ ∀ v, t ≤ v → v < u → v / (k * MINUTE) = t / (k * MINUTE).
Proof.
  intros Hk. unfold checked_ts. destruct (_ && _); [|done]. intros E.
  assert (u = (t / (k * MINUTE) + 1) * (k * MINUTE)) as -> by congruence. clear E.
  assert (0 < k * MINUTE) as Hp by (unfold MINUTE, NANOS; lia).
  pose proof (Z.div_mod t (k * MINUTE) ltac:(lia)). pose proof (Z.mod_pos_bound t _ Hp).
  split; [|split; [lia|]].
  - unfold on_minute. rewrite Z.mul_assoc. by apply Z.mod_mul.
  - intros v ??. symmetry. apply (Z.div_unique v (k * MINUTE) _ (v - k * MINUTE * (t / (k * MINUTE)))); lia.
Qed.

Lemma round_none k t :
  0 < k ≤ 1440 → checked_ts UTC_MIN UTC_MAX ((t / (k * MINUTE) + 1) * (k * MINUTE)) = None →
  UTC_MIN ≤ t → UTC_MAX < t + 2 * DAY.
Proof.
  intros Hk. assert (0 < k * MINUTE) as Hp by (unfold MINUTE, NANOS; lia).
  pose proof (Z.div_mod t (k * MINUTE) ltac:(lia)). pose proof (Z.mod_pos_bound t _ Hp).
  unfold checked_ts. destruct (Z.leb_spec UTC_MIN ((t / (k * MINUTE) + 1) * (k * MINUTE)));
    destruct (Z.leb_spec ((t / (k * MINUTE) + 1) * (k * MINUTE)) UTC_MAX); try done;
    intros _ ?; unfold DAY, MINUTE, NANOS in *; lia.
Qed.

#[export] Instance utc_laws : @ZoneLaws utc.
Proof.
  split.
  - intros t u _ E. destruct (round_up 1440 t u ltac:(lia) E) as (? & ? & Hv). split; [done|]. split; [done|].
    intros v ??. unfold day_of. cbn. change DAY with (1440 * MINUTE). by rewrite Hv.
  - intros t Hlo E. by apply (round_none 1440 t).
  - intros t u _ E. destruct (round_up 60 t u ltac:(lia) E) as (? & ? & Hv). split; [done|]. split; [done|].
    intros v ??. unfold hour_of. cbn. change HOUR with (60 * MINUTE). by rewrite Hv.
  - intros t Hlo E. by apply (round_none 60 t).
Qed.

Lemma every_next_first_witness :
  ∃ k, next_after (H := utc) (Every (Z.to_N 60)) (130 * NANOS) (Some (10 * NANOS))
         = Some ((10 + k * 60) * NANOS) ∧
    130 < 10 + k * 60 ∧ ∀ j, 130 < 10 + j * 60 → k ≤ j.
Proof. apply (every_next_first (H := utc) 60 130 10); (lia || by vm_compute). Defined.

Lemma due_every_latest_witness :
  due (H := utc) (Every (Z.to_N 1)) (0 * NANOS) (Some (0 * NANOS)) (86400 * NANOS)
    = Some (MkDue (86400 * NANOS) false).
Proof. rewrite (due_every_latest (H := utc) 1 0 0 86400); (reflexivity || lia || by vm_compute). Defined.

(** 02:30 on the 29th of February, from the start of 2024. *)
Definition leap_cron : Cron :=
  match cron_parse (lit "30 2 29 2 *") with Ok c => c | Err _ => MkCron [] 0 0 0 0 0 true true end.

Lemma next_cron_first_witness :
  next_cron (H := utc) leap_cron (1704067200 * NANOS) = Some (1709173800 * NANOS) ∧
  ∀ v, on_minute v → 1704067200 * NANOS < v → v < 1709173800 * NANOS → fires (H := utc) leap_cron v = false.
Proof.
  assert (next_cron (H := utc) leap_cron (1704067200 * NANOS) = Some (1709173800 * NANOS)) as E by by vm_compute.
  split; [exact E|].
  pose proof (next_cron_first (H := utc) leap_cron (1704067200 * NANOS) ltac:(by vm_compute) ltac:(by vm_compute) ltac:(by vm_compute)) as Hn.
  rewrite E in Hn. tauto.
Defined.

(** An anchor with a fraction of a second: the firing 1.9 s is strictly after
    1.8 s, and the code gives 2.9 s. *)
Lemma next_after_skips :
  next_after (H := utc) (Every 1) 1800000000 (Some 900000000) = Some 2900000000.
Proof. by vm_compute. Qed.
End ScheduleNext.
