(* ===== verification/Plan.v ===== *)
(** * Plan: the plan of a script and the guard that keeps a run on it
    (crates/sheprd-automation/src/plan.rs, step.rs, and [Script::run] of
    script.rs)

    The Luau machine is third-party. Under the deterministic policy a handler
    sees only whether each step succeeded and cannot catch an error, so what it
    does next is a function of the outcomes so far: [Handler]. *)

From Stdlib Require Import NArith Lia.
From stdpp Require Import base option strings sets list.
From S2P Require Import Prelude Schedule ScheduleNext.

Module Plan.

(** ** Steps *)

Inductive Step :=
| Agent (harness prompt : str) (worktree base : option str) (wait : bool)
| Notify (text : str)
| Pull (branch : str)
| Run (name : str)
| Sh (command : str)
| Worktree (name : str) (base : option str).

Record Call := MkCall { step : Step; check : bool; timeout : option N }.

#[export] Instance Step_eq_dec : EqDecision Step.
Proof. solve_decision. Defined.
#[export] Instance Call_eq_dec : EqDecision Call.
Proof. solve_decision. Defined.

Inductive Verdict (H : Type) :=
| Succeeded
| Failed
| Halt (h : H).
Arguments Succeeded {H}.
Arguments Failed {H}.
Arguments Halt {H} h.

Inductive End (H : Type) :=
| Completed
| Stopped (step : nat)
| Halted (step : nat) (h : H).
Arguments Completed {H}.
Arguments Stopped {H} step.
Arguments Halted {H} step h.

Inductive Error :=
| TooManyPaths (limit : nat)
| UnknownTrigger (index : nat)
| Lua
| LoadFailed.

(** What a handler does next. A call whose arguments [Call::read] refuses and a
    spent interrupt budget are Lua errors. *)
Inductive Action :=
| Calls (call : Call)
| Returns
| Raises.

(** A handler, as what it does after the outcomes of the steps so far. *)
Definition Handler := list bool → Action.

Section run.
Context {S H : Type}.

(** The dispatcher of [Script::run] from the step [length outcomes] on, with
    [remaining] of the budget of steps. [exec] carries the caller's state. *)
Fixpoint run_from (remaining : nat) (handler : Handler) (exec : S → Call → S * Verdict H) (s : S)
    (outcomes : list bool) : S * res Error (End H) :=
  match handler outcomes with
  | Returns => (s, Ok Completed)
  | Raises => (s, Err Lua)
  | Calls call =>
      match remaining with
      | O => (s, Err Lua)
      | Datatypes.S remaining =>
          let '(s, verdict) := exec s call in
          match verdict with
          | Halt halt => (s, Ok (Halted (length outcomes) halt))
          | Failed =>
              if check call then (s, Ok (Stopped (length outcomes)))
              else run_from remaining handler exec s (outcomes ++ [false])
          | Succeeded => run_from remaining handler exec s (outcomes ++ [true])
          end
      end
  end.
End run.

(** ** Scripts and plans *)

Inductive Zone := Local | Named (name : str).

Record Trigger := MkTrigger {
  trigger_name : option str;
  trigger_schedule : ScheduleNext.Kind;
  trigger_zone : Zone;
  handler : Handler }.

Record Caps := MkCaps { agents_per_run : N; tokens_per_day : N; wall_time : N }.
Record Script := MkScript { script_caps : Caps; script_triggers : list Trigger }.

(** [load] is [Source::load]: a fresh state each time, so the same result. *)
Record Source := MkSource { source_name : str; source_hash : str; load : res Error Script }.

(** [Script::run] with a budget of [steps]. *)
Definition run {S H} (steps : nat) (script : Script) (index : nat) (exec : S → Call → S * Verdict H) (s : S)
    : S * res Error (End H) :=
  match script_triggers script !! index with
  | None => (s, Err (UnknownTrigger index))
  | Some t => run_from steps (handler t) exec s []
  end.

(** [S] is [PlannedStep]. *)
Inductive Failure (S : Type) :=
| Stops
| Continues
| Branch (instead : list S).
Arguments Stops {S}.
Arguments Continues {S}.
Arguments Branch {S} instead.

Inductive PlannedStep := MkPlannedStep (call : Call) (on_failure : Failure PlannedStep).

Definition call (s : PlannedStep) : Call := let '(MkPlannedStep c _) := s in c.
Definition on_failure (s : PlannedStep) : Failure PlannedStep := let '(MkPlannedStep _ f) := s in f.

Record TriggerPlan := MkTriggerPlan {
  plan_name : option str;
  plan_schedule : ScheduleNext.Kind;
  plan_zone : Zone;
  steps : list PlannedStep }.

Record Plan := MkPlan { plan_script : str; plan_hash : str; plan_caps : Caps; plan_triggers : list TriggerPlan }.

(** The derived equality of planned steps. *)
Fixpoint planned_eqb (a b : PlannedStep) : bool :=
  match a, b with
  | MkPlannedStep c f, MkPlannedStep d g =>
      bool_decide (c = d) &&
      match f, g with
      | Stops, Stops | Continues, Continues => true
      | Branch x, Branch y =>
          (fix list_eqb (x y : list PlannedStep) : bool :=
             match x, y with
             | [], [] => true
             | a :: x, b :: y => planned_eqb a b && list_eqb x y
             | _, _ => false
             end) x y
      | _, _ => false
      end
  end.

Fixpoint steps_eqb (x y : list PlannedStep) : bool :=
  match x, y with
  | [], [] => true
  | a :: x, b :: y => planned_eqb a b && steps_eqb x y
  | _, _ => false
  end.

Definition MAX_PATHS : nat := 256.

Section plan.
Context (source : Source) (limit trigger : nat).

(** The callback of [simulate]; the state is the calls made. *)
Definition scripted (decisions : list bool) (calls : list Call) (call : Call) : list Call * Verdict Empty_set :=
  (calls ++ [call], if bool_decide (decisions !! length calls = Some false) then Failed else Succeeded).

Definition simulate (decisions : list bool) : res Error (list Call) :=
  script ← load source;
  let '(calls, r) := run limit script trigger (scripted decisions) [] in
  _ ← r; Ok calls.

(** The first loop of [explore], from [position] on; [rec] is its call of
    itself. The count of paths is threaded through. *)
Fixpoint plan_calls (rec : list bool → nat → nat * res Error (list PlannedStep))
    (decisions : list bool) (paths position : nat) (calls : list Call) : nat * res Error (list PlannedStep) :=
  match calls with
  | [] => (paths, Ok [])
  | call :: calls =>
      let '(paths, failure) :=
        if check call then (paths, Ok Stops)
        else
          let failing := decisions ++ replicate (position - length decisions) true ++ [false] in
          let '(paths, r) := rec failing paths in
          (paths, instead ← r; Ok (Branch instead)) in
      match failure with
      | Err e => (paths, Err e)
      | Ok failure =>
          let '(paths, r) := plan_calls rec decisions paths (Datatypes.S position) calls in
          (paths, steps ← r; Ok (MkPlannedStep call failure :: steps))
      end
  end.

(** The second loop: a step is compared with the ones after it, which the loop
    has not reached yet. *)
Fixpoint collapse (steps : list PlannedStep) : list PlannedStep :=
  match steps with
  | [] => []
  | MkPlannedStep call failure :: rest =>
      let same := match failure with Branch instead => steps_eqb instead rest | _ => false end in
      MkPlannedStep call (if same then Continues else failure) :: collapse rest
  end.

(** [explore]. Each call counts a path, so calls nest at most [MAX_PATHS] deep
    and the call that would be one deeper is refused: the fuel adds nothing. *)
Fixpoint explore (fuel : nat) (decisions : list bool) (paths : nat) : nat * res Error (list PlannedStep) :=
  match fuel with
  | O => (Datatypes.S paths, Err (TooManyPaths MAX_PATHS))
  | Datatypes.S fuel =>
      let paths := Datatypes.S paths in
      if (MAX_PATHS <? paths)%nat then (paths, Err (TooManyPaths MAX_PATHS))
      else
        match simulate decisions with
        | Err e => (paths, Err e)
        | Ok calls =>
            let '(paths, r) :=
              plan_calls (explore fuel) decisions paths (length decisions) (drop (length decisions) calls) in
            (paths, steps ← r; Ok (collapse steps))
        end
  end.
End plan.

(** The loop of [Plan::build] over the triggers. *)
Fixpoint build_from (source : Source) (limit index : nat) (triggers : list Trigger) : res Error (list TriggerPlan) :=
  match triggers with
  | [] => Ok []
  | t :: triggers =>
      steps ← (explore source limit index (Datatypes.S MAX_PATHS) [] 0).2;
      plans ← build_from source limit (Datatypes.S index) triggers;
      Ok (MkTriggerPlan (trigger_name t) (trigger_schedule t) (trigger_zone t) steps :: plans)
  end.

Definition build (source : Source) (limit : nat) : res Error Plan :=
  script ← load source;
  plans ← build_from source limit 0 (script_triggers script);
  Ok (MkPlan (source_name source) (source_hash source) (script_caps script) plans).

(** ** The walker *)

Record Walker := MkWalker { walker_steps : list PlannedStep; at_ : nat }.

Definition walker_new (t : TriggerPlan) : Walker := MkWalker (steps t) 0.

Definition expects (w : Walker) (c : Call) : bool :=
  match walker_steps w !! at_ w with
  | Some s => bool_decide (call s = c)
  | None => false
  end.

Definition record (w : Walker) (ok : bool) : Walker :=
  match walker_steps w !! at_ w with
  | None => w
  | Some s =>
      if ok then MkWalker (walker_steps w) (Datatypes.S (at_ w))
      else
        match on_failure s with
        | Stops => MkWalker [] 0
        | Continues => MkWalker (walker_steps w) (Datatypes.S (at_ w))
        | Branch instead => MkWalker instead 0
        end
  end.

(** A runner that asks the walker before each step: [Walker]'s contract. *)
Definition guarded {S} (exec : S → Call → S * bool) (ws : Walker * S) (c : Call) : (Walker * S) * Verdict unit :=
  let '(w, s) := ws in
  if expects w c then
    let '(s, ok) := exec s c in
    ((record w ok, s), if ok then Succeeded else Failed)
  else (ws, Halt tt).

(** ** Equality of planned steps *)

Lemma planned_eqb_sound : ∀ a b, planned_eqb a b = true → a = b.
Proof.
  fix IH 1. intros [c f] [d g]. cbn [planned_eqb]. intros [Hc Hf]%andb_prop.
  apply bool_decide_eq_true in Hc as <-. f_equal.
  destruct f as [| |x], g as [| |y]; try done. f_equal. revert y Hf.
  induction x as [|a x IHx]; intros [|b y]; try done.
  intros [Ha Hx]%andb_prop. f_equal; [by apply IH|by apply IHx].
Qed.

Lemma steps_eqb_sound x y : steps_eqb x y = true → x = y.
Proof.
  revert y. induction x as [|a x IH]; intros [|b y]; try done.
  intros [Ha Hx]%andb_prop. f_equal; [by apply planned_eqb_sound|by apply IH].
Qed.

(** ** What a plan promises *)

Section covers.
Context (h : Handler) (limit : nat).

(** [steps] is everything the handler can do after the outcomes [o]: each step
    is the call it makes, a failure is planned exactly when the script sees it,
    and where the plan ends the handler returns. *)
Inductive plans : list bool → list PlannedStep → Prop :=
| plans_end o : h o = Returns → plans o []
| plans_checked o c rest :
    h o = Calls c → length o < limit → check c = true →
    plans (o ++ [true]) rest →
    plans o (MkPlannedStep c Stops :: rest)
| plans_continues o c rest :
    h o = Calls c → length o < limit → check c = false →
    plans (o ++ [true]) rest → plans (o ++ [false]) rest →
    plans o (MkPlannedStep c Continues :: rest)
| plans_branch o c instead rest :
    h o = Calls c → length o < limit → check c = false →
    plans (o ++ [true]) rest → plans (o ++ [false]) instead →
    plans o (MkPlannedStep c (Branch instead) :: rest).

Lemma collapse_plans o l : plans o l → plans o (collapse l).
Proof.
  revert o. induction l as [|[c f] rest IH]; intros o Hp; [done|]. cbn [collapse].
  inversion Hp as [|? ? ? Hc Hl Hk Hr|? ? ? Hc Hl Hk Hr Hf|? ? instead ? Hc Hl Hk Hr Hf]; subst.
  - apply plans_checked; auto.
  - apply plans_continues; auto.
  - destruct (steps_eqb instead rest) eqn:E.
    + apply steps_eqb_sound in E as ->. apply plans_continues; auto.
    + apply plans_branch; auto.
Qed.

(** The outcomes after [k] steps when the first ones are decided and the
    others succeed. *)
Definition path (d : list bool) (k : nat) : list bool := take k (d ++ replicate k true).

Lemma path_length d k : length (path d k) = k.
Proof. unfold path. rewrite length_take, length_app, length_replicate. lia. Qed.

Lemma path_decided d : path d (length d) = d.
Proof. unfold path. by rewrite take_app_length. Qed.

Lemma path_beyond d k : length d ≤ k → path d k = d ++ replicate (k - length d) true.
Proof.
  intros Hk. unfold path. rewrite take_app, take_ge by done. f_equal.
  rewrite take_replicate. f_equal. lia.
Qed.

Lemma path_within d k : k ≤ length d → path d k = take k d.
Proof. intros Hk. unfold path. by rewrite take_app_le by done. Qed.

Lemma path_succ d k :
  path d (S k) = path d k ++ [negb (bool_decide (d !! k = Some false))].
Proof.
  destruct (decide (k < length d)) as [Hlt|Hge].
  - destruct (lookup_lt_is_Some_2 d k Hlt) as [b Hb].
    rewrite !path_within by lia. rewrite (take_S_r _ _ b Hb), Hb. by destruct b.
  - rewrite !path_beyond by lia. rewrite (lookup_ge_None_2 d k) by lia.
    rewrite bool_decide_false by done. cbn [negb].
    replace (S k - length d) with (S (k - length d)) by lia.
    rewrite replicate_S_end. by rewrite app_assoc.
Qed.

(** Decisions a run can have made: a failure only where the script sees it. *)
Definition reachable (d : list bool) : Prop :=
  ∀ k b, d !! k = Some b → ∃ c, h (take k d) = Calls c ∧ (b = false → check c = false).

Lemma reachable_snoc d k c :
  reachable d → length d ≤ k → (∀ j, length d ≤ j → j < k → ∃ c, h (path d j) = Calls c) →
  h (path d k) = Calls c → check c = false →
  reachable (path d k ++ [false]).
Proof.
  intros Hd Hk Hj Hc Hcheck i b. rewrite lookup_app. rewrite take_app, path_length.
  destruct (path d k !! i) as [b'|] eqn:Eb.
  - intros [= <-]. pose proof (lookup_lt_Some _ _ _ Eb) as Hi. rewrite path_length in Hi.
    replace (i - k) with 0 by lia. rewrite take_0, app_nil_r.
    assert (take i (path d k) = path d i) as ->.
    { unfold path. rewrite take_take, !take_app. replace (i `min` k) with i by lia. f_equal.
      rewrite !take_replicate. f_equal. lia. }
    destruct (decide (i < length d)) as [Hlt|Hge].
    + assert (d !! i = Some b') as Hdi.
      { unfold path in Eb. rewrite lookup_take_lt in Eb by lia. by rewrite lookup_app_l in Eb. }
      destruct (Hd i b' Hdi) as (c' & Hc' & Hb). rewrite path_within by lia. eauto.
    + destruct (Hj i) as [c' Hc']; [lia..|]. exists c'. split; [done|]. intros ->.
      unfold path in Eb. rewrite lookup_take_lt in Eb by lia. rewrite lookup_app_r in Eb by lia.
      apply lookup_replicate in Eb as [? _]. done.
  - apply lookup_ge_None in Eb. rewrite path_length in *. intros Hb.
    assert (i = k) as ->. { apply lookup_lt_Some in Hb. simpl in Hb. lia. }
    rewrite Nat.sub_diag in *. simpl in Hb. injection Hb as <-. simpl. rewrite app_nil_r.
    rewrite take_ge by (by rewrite path_length). eauto.
Qed.

(** A simulated run makes the calls of its path and ends where it returns. *)
Lemma run_scripted d n calls calls' e :
  reachable d →
  run_from n h (scripted d) calls (path d (length calls)) = (calls', Ok e) →
  n + length calls = limit →
  length calls ≤ length calls' ≤ limit ∧
  take (length calls) calls' = calls ∧
  h (path d (length calls')) = Returns ∧
  ∀ j, length calls ≤ j → j < length calls' → ∃ c, calls' !! j = Some c ∧ h (path d j) = Calls c.
Proof.
  intros Hd. revert calls. induction n as [|n IH]; intros calls; cbn [run_from];
    destruct (h (path d (length calls))) as [c| |] eqn:Eh; try done.
  - intros E Hn. injection E as <- _. split; [lia|]. split; [by apply take_ge|]. split; [done|]. intros; lia.
  - intros Hrun Hn.
    assert (run_from n h (scripted d) (calls ++ [c]) (path d (length (calls ++ [c]))) = (calls', Ok e)) as Hrun'.
    { rewrite length_app, Nat.add_1_r, path_succ. unfold scripted in Hrun at 1.
      destruct (bool_decide (d !! length calls = Some false)) eqn:Eb; [|exact Hrun].
      apply bool_decide_eq_true in Eb. destruct (Hd _ _ Eb) as (c' & Hc' & Hcheck).
      rewrite <-path_within in Hc' by (apply lookup_lt_Some in Eb; lia).
      assert (c' = c) as -> by congruence. by rewrite Hcheck in Hrun. }
    apply IH in Hrun' as (Hl & Ht & Hret & Hj); [|rewrite length_app; simpl; lia].
    rewrite length_app in *. simpl in *. split; [lia|]. split.
    { trans (take (length calls) (take (length calls + 1) calls')); [rewrite take_take; f_equal; lia|].
      rewrite Ht. apply take_app_length. }
    split; [done|]. intros j Hge Hlt. destruct (decide (j = length calls)) as [->|]; [|apply Hj; lia].
    exists c. split; [|done]. rewrite <-(lookup_take_lt calls' (length calls + 1)) by lia.
    rewrite Ht, lookup_app_r, Nat.sub_diag by lia. done.
  - intros E Hn. injection E as <- _. split; [lia|]. split; [by apply take_ge|]. split; [done|]. intros; lia.
Qed.

(** A run of the planned handler through the walker, whatever the steps'
    outcomes, is never halted. *)
Lemma guarded_from {W} (exec : W → Call → W * bool) n w s o :
  plans o (drop (at_ w) (walker_steps w)) → n + length o = limit →
  ∃ ws e, run_from n h (guarded exec) (w, s) o = (ws, Ok e) ∧ ∀ k, e ≠ Halted k tt.
Proof.
  revert w s o. induction n as [|n IH]; intros w s o Hp Hn.
  { destruct (drop _ _) eqn:E; inversion Hp; subst; try lia. cbn [run_from]. rewrite H. eauto. }
  cbn [run_from]. destruct (walker_steps w !! at_ w) as [st|] eqn:Est.
  2: { rewrite drop_ge in Hp by (by apply lookup_ge_None). inversion Hp; subst. rewrite H. eauto. }
  rewrite (drop_S _ _ _ Est) in Hp.
  assert (∀ w' b, plans (o ++ [b]) (drop (at_ w') (walker_steps w')) → ∀ s',
    ∃ ws e, run_from n h (guarded exec) (w', s') (o ++ [b]) = (ws, Ok e) ∧ ∀ k, e ≠ Halted k tt) as Hgo.
  { intros w' b Hp' s'. apply IH; [done|]. rewrite length_app. simpl. lia. }
  inversion Hp as [|? c ? Hc Hl Hk Hr|? c ? Hc Hl Hk Hr Hf|? c instead ? Hc Hl Hk Hr Hf]; subst; rewrite Hc;
    unfold guarded at 1, expects; rewrite Est; cbn [call]; rewrite bool_decide_true by done;
    destruct (exec s c) as [s' [|]]; unfold record; rewrite Est; cbn [on_failure].
  all: try by apply Hgo.
  all: rewrite Hk; first [by apply Hgo|eauto].
Qed.
End covers.

(** ** Exploring *)

Section explored.
Context (source : Source) (limit trigger : nat) (script : Script) (t : Trigger).
Hypothesis Hload : load source = Ok script.
Hypothesis Htrigger : script_triggers script !! trigger = Some t.

Let h := handler t.

(** The first loop, when the explored failures are planned. *)
Lemma plan_calls_plans rec d paths paths' p calls l :
  (∀ d paths paths' l, reachable h d → rec d paths = (paths', Ok l) → plans h limit d l) →
  reachable h d → length d ≤ p → p + length calls ≤ limit →
  (∀ j, length d ≤ j → j < p → ∃ c, h (path d j) = Calls c) →
  (∀ j c, calls !! j = Some c → h (path d (p + j)) = Calls c) →
  h (path d (p + length calls)) = Returns →
  plan_calls rec d paths p calls = (paths', Ok l) → plans h limit (path d p) l.
Proof.
  intros Hrec Hd. revert paths p l. induction calls as [|c calls IH]; intros paths p l Hp Hlim Hbefore Hcalls Hret.
  { cbn [plan_calls]. intros E. assert (l = []) as -> by congruence. apply plans_end.
    simpl in Hret. by rewrite Nat.add_0_r in Hret. }
  simpl in Hlim. assert (h (path d p) = Calls c) as Hc by (rewrite <-(Nat.add_0_r p); by apply Hcalls).
  assert (∀ paths l, plan_calls rec d paths (S p) calls = (paths', Ok l) → plans h limit (path d p ++ [true]) l) as Hrest.
  { intros paths1 l1 E. replace (path d p ++ [true]) with (path d (S p)).
    - eapply IH; [..|exact E]; [lia|lia| | |].
      + intros j ??. destruct (decide (j = p)) as [->|]; [eauto|apply Hbefore; lia].
      + intros j c' Hj. rewrite Nat.add_succ_comm. by apply Hcalls.
      + by rewrite Nat.add_succ_comm.
    - rewrite path_succ, (lookup_ge_None_2 d p) by lia. done. }
  cbn [plan_calls]. destruct (check c) eqn:Ek.
  - destruct (plan_calls rec d paths (S p) calls) as [paths1 [l1|e1]] eqn:E; cbn; [|done].
    intros E'. assert (paths1 = paths' ∧ l = MkPlannedStep c Stops :: l1) as [-> ->] by (split; congruence).
    apply plans_checked; [done| |done|by eapply Hrest]. rewrite path_length. lia.
  - rewrite app_assoc, <-path_beyond by done.
    destruct (rec (path d p ++ [false]) paths) as [paths1 [b|e1]] eqn:Er; cbn; [|done].
    destruct (plan_calls rec d paths1 (S p) calls) as [paths2 [l1|e1]] eqn:E; cbn; [|done].
    intros E'. assert (paths2 = paths' ∧ l = MkPlannedStep c (Branch b) :: l1) as [-> ->] by (split; congruence).
    apply plans_branch; [done| |done|by eapply Hrest|].
    + rewrite path_length. lia.
    + eapply Hrec; [|exact Er]. by apply (reachable_snoc h d p c).
Qed.

Lemma explore_plans fuel d paths paths' l :
  reachable h d → explore source limit trigger fuel d paths = (paths', Ok l) → plans h limit d l.
Proof.
  revert d paths paths' l. induction fuel as [|fuel IH]; intros d paths paths' l Hd; cbn [explore]; [done|].
  destruct (_ <? _); [done|]. unfold simulate. rewrite Hload. cbn [mbind res_bind].
  unfold run. rewrite Htrigger. fold h.
  destruct (run_from limit h (scripted d) [] []) as [calls [e|e]] eqn:Erun; cbn [mbind res_bind]; [|done].
  pose proof (run_scripted h limit d limit [] calls e Hd) as Hs. change (path d (length [])) with (@nil bool) in Hs.
  destruct (Hs Erun) as (Hl & _ & Hret & Hj); [simpl; lia|].
  assert (length d ≤ length calls) as Hdl.
  { destruct (decide (length d ≤ length calls)); [done|]. exfalso.
    destruct (lookup_lt_is_Some_2 d (length calls)) as [b Hb]; [lia|].
    destruct (Hd _ _ Hb) as (c & Hc & _). rewrite path_within in Hret by lia. congruence. }
  destruct (plan_calls _ _ _ _ _) as [paths1 [l1|e1]] eqn:Ep; cbn [mbind res_bind]; [|done].
  intros E. assert (l = collapse l1) as -> by congruence. apply collapse_plans.
  rewrite <-(path_decided d) at 1.
  eapply (plan_calls_plans (explore source limit trigger fuel)); [|done|done| | | | |exact Ep].
  - intros d' p1 p2 l2 Hd' E2. by eapply IH.
  - rewrite length_drop. simpl in Hl. lia.
  - intros; lia.
  - intros j c. rewrite lookup_drop. intros Hc.
    destruct (Hj (length d + j)) as (c' & Hc' & Hh); [simpl; lia|by eapply lookup_lt_Some|]. congruence.
  - rewrite length_drop. by replace (length d + (length calls - length d)) with (length calls) by lia.
Qed.
End explored.

Lemma build_from_lookup source limit ts idx l i tp :
  build_from source limit idx ts = Ok l → l !! i = Some tp →
  ∃ t, ts !! i = Some t ∧ (explore source limit (idx + i) (S MAX_PATHS) [] 0).2 = Ok (steps tp).
Proof.
  revert idx l i. induction ts as [|t ts IH]; intros idx l i; cbn [build_from].
  { intros E. by assert (l = []) as -> by congruence. }
  destruct (explore source limit idx (S MAX_PATHS) [] 0).2 as [st|e] eqn:Ee; cbn [mbind res_bind]; [|done].
  destruct (build_from source limit (S idx) ts) as [l'|e] eqn:Eb; cbn [mbind res_bind]; [|done].
  intros E. assert (l = MkTriggerPlan (trigger_name t) (trigger_schedule t) (trigger_zone t) st :: l') as -> by congruence.
  destruct i as [|i]; cbn [lookup list_lookup].
  - intros Ht. assert (steps tp = st) as -> by (injection Ht as <-; done). rewrite Nat.add_0_r. eauto.
  - intros Ht. destruct (IH _ _ _ Eb Ht) as (t' & Ht' & Ex). rewrite Nat.add_succ_r. eauto.
Qed.

(** C22: An approved plan is exactly what the script can do: every call it
    can make after every combination of outcomes, what each failure leads to,
    and nothing else, within the budget of steps. So a run that asks the walker
    before each step, whatever the steps do and whichever fail, ends by
    completing or at a failed checked step, and is never halted. *)
Theorem plan_keeps_runs {W} (exec : W → Call → W * bool) (s : W)
    (source : Source) (limit : nat) (script : Script) (plan : Plan) (i : nat) (t : Trigger) (tp : TriggerPlan) :
  load source = Ok script → build source limit = Ok plan →
  script_triggers script !! i = Some t → plan_triggers plan !! i = Some tp →
  plans (handler t) limit [] (steps tp) ∧
  ∃ ws e, run limit script i (guarded exec) (walker_new tp, s) = (ws, Ok e) ∧ ∀ k, e ≠ Halted k tt.
Proof.
  intros Hload Hbuild Ht Htp. unfold build in Hbuild. rewrite Hload in Hbuild. cbn [mbind res_bind] in Hbuild.
  destruct (build_from source limit 0 (script_triggers script)) as [l|e] eqn:Eb; cbn [mbind res_bind] in Hbuild; [|done].
  assert (plan_triggers plan = l) as Hl by (injection Hbuild as <-; done). rewrite Hl in Htp.
  destruct (build_from_lookup _ _ _ _ _ _ _ Eb Htp) as (t' & Ht' & Ex).
  rewrite Nat.add_0_l in Ex.
  destruct (explore source limit i (S MAX_PATHS) [] 0) as [paths r] eqn:Er. cbn [snd] in Ex. subst r.
  assert (plans (handler t) limit [] (steps tp)) as Hp.
  { eapply explore_plans; [done|done| |exact Er]. intros k b Hk. done. }
  split; [done|]. unfold run. rewrite Ht. apply (guarded_from _ limit); [done|simpl; lia].
Qed.

(** ** A nightly script: a pull, a check whose failure starts an agent, a review *)

Definition pull_main : Call := MkCall (Pull (lit "main")) true None.
Definition ci : Call := MkCall (Sh (lit "just ci")) false None.
Definition fix_agent : Call := MkCall (Agent (lit "claude") (lit "Fix it.") None None false) true None.
Definition review : Call := MkCall (Agent (lit "claude") (lit "Review main.") None None false) true None.

Definition nightly : Handler := λ o,
  match o with
  | [] => Calls pull_main
  | [true] => Calls ci
  | [true; true] => Calls review
  | [true; false] => Calls fix_agent
  | [true; false; true] => Calls review
  | _ => Returns
  end.

Definition one_trigger (h : Handler) : Script :=
  MkScript (MkCaps 2 2000000 10800) [MkTrigger None ScheduleNext.Manual Local h].
Definition source_of (h : Handler) : Source := MkSource (lit "test") [] (Ok (one_trigger h)).

Lemma plan_keeps_runs_witness :
  plans nightly 32 []
    [MkPlannedStep pull_main Stops;
     MkPlannedStep ci (Branch [MkPlannedStep fix_agent Stops; MkPlannedStep review Stops]);
     MkPlannedStep review Stops].
Proof.
  exact (proj1 (plan_keeps_runs (λ (s : unit) _, (s, true)) tt (source_of nightly) 32 (one_trigger nightly)
    (MkPlan (lit "test") [] (MkCaps 2 2000000 10800)
       [MkTriggerPlan None ScheduleNext.Manual Local
         [MkPlannedStep pull_main Stops;
          MkPlannedStep ci (Branch [MkPlannedStep fix_agent Stops; MkPlannedStep review Stops]);
          MkPlannedStep review Stops]]) 0 _ _ eq_refl ltac:(by vm_compute) eq_refl eq_refl)).
Defined.

(** Two steps whose failures the script ignores: the second one [Continues],
    but the first is compared before the second is marked, and keeps a branch
    that repeats the steps below it. *)
Lemma collapse_misses :
  let ignores := λ o, match o with [] | [_] => Calls ci | _ => Returns end in
  (explore (source_of ignores) 32 0 (S MAX_PATHS) [] 0).2 =
    Ok [MkPlannedStep ci (Branch [MkPlannedStep ci Continues]); MkPlannedStep ci Continues].
Proof. by vm_compute. Qed.
End Plan.
