(* ===== verification/Tokens.v ===== *)
(** * Tokens: output of earlier steps in later ones
    (crates/sheprd-automation/src/tokens.rs)

    Text is a list of characters, so a length in bytes of the source is a number
    of characters here. The reader keeps its open contexts innermost first. *)

From Stdlib Require Import NArith Lia.
From stdpp Require Import base option strings sets list.
From S2P Require Import Prelude Schedule Plan.

Local Open Scope N_scope.

Module Tokens.
Import Plan.

Definition DATE : str := lit "{date}".
Definition TIME : str := lit "{time}".

Definition log_tail (index : N) : str := lit "{log_tail:" ++ dec (index + 1) ++ lit "}".
Definition run_id (index : N) : str := lit "{run_id:" ++ dec (index + 1) ++ lit "}".

Record Values := MkValues {
  date : str;
  time : str;
  log_tails : list (option str);
  run_ids : list (option str) }.

Definition OPEN : N := 123.
Definition CLOSE : N := 125.
Definition COLON : N := 58.

Definition strip_prefix (c : N) (s : str) : option str :=
  match s with d :: s => if d =? c then Some s else None | [] => None end.
Definition strip_suffix (c : N) (s : str) : option str := reverse <$> strip_prefix c (reverse s).

(** The step a token names: the list it is in and its place there. *)
Inductive Output := LogTail (index : N) | RunId (index : N).

Definition output_of (token : str) : option Output :=
  inner ← strip_prefix OPEN token ≫= strip_suffix CLOSE;
  '(name, number) ← Schedule.split_once COLON inner;
  n ← parse_uint u64_max number;
  if n =? 0 then None
  else if bool_decide (name = lit "log_tail") then Some (LogTail (n - 1))
  else if bool_decide (name = lit "run_id") then Some (RunId (n - 1))
  else None.

Definition output (v : Values) (o : Output) : option str :=
  match o with
  | LogTail i => mjoin (log_tails v !! N.to_nat i)
  | RunId i => mjoin (run_ids v !! N.to_nat i)
  end.

(** [Values::value]. *)
Definition value (v : Values) (token : str) : option str :=
  if bool_decide (token = DATE) then Some (date v)
  else if bool_decide (token = TIME) then Some (time v)
  else o ← output_of token; output v o.

(** The position of the first character that is [c]: [find]. *)
Fixpoint find_char (c : N) (s : str) : option nat :=
  match s with
  | [] => None
  | d :: s => if d =? c then Some 0%nat else S <$> find_char c s
  end.

(** The token [rest] starts with, its end included, and its value. *)
Definition token_at (v : Values) (rest : str) : option (str * str) :=
  match rest with
  | c :: _ =>
      if c =? OPEN then
        close ← find_char CLOSE rest;
        let token := take (S close) rest in
        x ← value v token;
        Some (token, x)
      else None
  | [] => None
  end.

(** [Values::replace] and [fill]; the fuel is the length of the text, of which
    each turn takes some. *)
Fixpoint fill_from (fuel : nat) (v : Values) (rest : str) : str :=
  match fuel with
  | O => rest
  | S fuel =>
      match find_char OPEN rest with
      | None => rest
      | Some i =>
          let tail := drop i rest in
          match find_char CLOSE tail with
          | None => take i rest ++ tail
          | Some close =>
              let token := take (S close) tail in
              take i rest ++ default token (value v token) ++ fill_from fuel v (drop (S close) tail)
          end
      end
  end.

Definition fill (v : Values) (text : str) : str := fill_from (length text) v text.

(** ** The reader of a shell command *)

Inductive Context := Double | Paren | Backtick.
#[export] Instance Context_eq_dec : EqDecision Context.
Proof. solve_decision. Defined.

Record Quoting := MkQuoting { open : list Context; single : bool }.
Definition quoting_default : Quoting := MkQuoting [] false.

Definition BACKSLASH : N := 92.
Definition DQUOTE : N := 34.
Definition SQUOTE : N := 39.
Definition DOLLAR : N := 36.
Definition LPAREN : N := 40.
Definition RPAREN : N := 41.
Definition TICK : N := 96.

Definition top (q : Quoting) : option Context := head (open q).
Definition push (q : Quoting) (c : Context) : Quoting := MkQuoting (c :: open q) (single q).
Definition pop (q : Quoting) : Quoting := MkQuoting (tail (open q)) (single q).

(** [Quoting::read]: the state afterwards and how many characters it read. *)
Definition read (q : Quoting) (text : str) : Quoting * nat :=
  match text with
  | [] => (q, 0%nat)
  | c :: rest =>
      if single q then (MkQuoting (open q) (negb (c =? SQUOTE)), 1%nat)
      else if c =? BACKSLASH then (q, match rest with [] => 1%nat | _ => 2%nat end)
      else if c =? DQUOTE then
        if bool_decide (top q = Some Double) then (pop q, 1%nat) else (push q Double, 1%nat)
      else if (c =? SQUOTE) && negb (bool_decide (top q = Some Double)) then (MkQuoting (open q) true, 1%nat)
      else if (c =? DOLLAR) && bool_decide (head rest = Some LPAREN) then (push q Paren, 2%nat)
      else if (c =? LPAREN) && bool_decide (top q = Some Paren) then (push q Paren, 1%nat)
      else if (c =? RPAREN) && bool_decide (top q = Some Paren) then (pop q, 1%nat)
      else if c =? TICK then
        if bool_decide (top q = Some Backtick) then (pop q, 1%nat) else (push q Backtick, 1%nat)
      else (q, 1%nat)
  end.

(** [Quoting::reference]. *)
Definition reference (q : Quoting) (name : str) : str :=
  if single q then [SQUOTE; DQUOTE; DOLLAR] ++ name ++ [DQUOTE; SQUOTE]
  else if bool_decide (top q = Some Double) then [DOLLAR; OPEN] ++ name ++ [CLOSE]
  else [DQUOTE; DOLLAR] ++ name ++ [DQUOTE].

(** [trim_start_matches]; [trim_end_matches] is its mirror. *)
Fixpoint trim_char (c : N) (s : str) : str :=
  match s with d :: t => if d =? c then trim_char c t else s | [] => [] end.

(** [variable]. *)
Definition variable (token : str) : str :=
  let inner := reverse (trim_char CLOSE (reverse (trim_char OPEN token))) in
  lit "HERDR_" ++ ((λ c, to_ascii_uppercase (if c =? COLON then 95 else c)) <$> inner).

(** The loop of [Values::fill_shell]; each turn reads at least a character. *)
Fixpoint fill_shell_from (fuel : nat) (v : Values) (q : Quoting) (rest filled : str) (env : list (str * str))
    : str * list (str * str) :=
  match fuel, rest with
  | O, _ | _, [] => (filled, env)
  | S fuel, _ =>
      match token_at v rest with
      | Some (token, x) =>
          let rest := drop (length token) rest in
          if bool_decide (token = DATE) || bool_decide (token = TIME)
          then fill_shell_from fuel v q rest (filled ++ x) env
          else
            let name := variable token in
            let env := if existsb (λ known, bool_decide (known.1 = name)) env then env else env ++ [(name, x)] in
            fill_shell_from fuel v q rest (filled ++ reference q name) env
      | None =>
          let '(q, step) := read q rest in
          fill_shell_from fuel v q (drop step rest) (filled ++ take step rest) env
      end
  end.

Definition fill_shell (v : Values) (text : str) : str * list (str * str) :=
  fill_shell_from (length text) v quoting_default text [] [].

(** [str::contains]. *)
Fixpoint is_prefix (p s : str) : bool :=
  match p, s with
  | [], _ => true
  | a :: p, b :: s => (a =? b) && is_prefix p s
  | _, [] => false
  end.
Fixpoint contains (p s : str) : bool :=
  is_prefix p s || match s with [] => false | _ :: s => contains p s end.

(** The state after reading a whole text. *)
Fixpoint read_all (fuel : nat) (q : Quoting) (rest : str) : Quoting :=
  match fuel, rest with
  | O, _ | _, [] => q
  | S fuel, _ => let '(q, step) := read q rest in read_all fuel q (drop step rest)
  end.

Definition unmodelled : list str :=
  [lit "#"; lit "<<"; lit "$'"; [DOLLAR; DQUOTE]; lit "${"].

(** [shell_tokens_placeable]. *)
Definition shell_tokens_placeable (command : str) : bool :=
  if negb (contains (lit "{log_tail:") command) && negb (contains (lit "{run_id:") command) then true
  else if existsb (λ u, contains u command) unmodelled then false
  else
    let q := read_all (length command) quoting_default command in
    negb (single q) && bool_decide (open q = []).

(** ** Calls *)

Record Resolved := MkResolved { resolved_call : Call; env : list (str * str) }.

(** [Call::resolve]. *)
Definition resolve (c : Call) (v : Values) : Resolved :=
  let with_step s env := MkResolved (MkCall s (check c) (timeout c)) env in
  match step c with
  | Agent harness prompt worktree base wait =>
      with_step (Agent (fill v harness) (fill v prompt) (fill v <$> worktree) (fill v <$> base) wait) []
  | Notify text => with_step (Notify (fill v text)) []
  | Pull branch => with_step (Pull (fill v branch)) []
  | Run name => with_step (Run name) []
  | Sh command => let '(command, env) := fill_shell v command in with_step (Sh command) env
  | Worktree name base => with_step (Worktree (fill v name) (fill v <$> base)) []
  end.

(** ** Pieces of a filled command *)

Inductive Piece :=
| Source (s : str)
| Written (token x : str)
| Ref (token x : str) (q : Quoting).

Definition render (p : Piece) : str :=
  match p with
  | Source s => s
  | Written _ x => x
  | Ref token _ q => reference q (variable token)
  end.

Fixpoint pieces (fuel : nat) (v : Values) (q : Quoting) (rest : str) : list Piece :=
  match fuel, rest with
  | O, _ | _, [] => []
  | S fuel, _ =>
      match token_at v rest with
      | Some (token, x) =>
          (if bool_decide (token = DATE) || bool_decide (token = TIME) then Written token x else Ref token x q)
            :: pieces fuel v q (drop (length token) rest)
      | None =>
          let '(q, step) := read q rest in Source (take step rest) :: pieces fuel v q (drop step rest)
      end
  end.

Definition add_env (env : list (str * str)) (p : Piece) : list (str * str) :=
  match p with
  | Ref token x _ =>
      if existsb (λ known, bool_decide (known.1 = variable token)) env then env else env ++ [(variable token, x)]
  | _ => env
  end.

Lemma fill_shell_pieces fuel v q rest filled e :
  fill_shell_from fuel v q rest filled e =
    (filled ++ concat (render <$> pieces fuel v q rest), foldl add_env e (pieces fuel v q rest)).
Proof.
  revert q rest filled e. induction fuel as [|fuel IH]; intros q rest filled e; [cbn; by rewrite app_nil_r|].
  destruct rest as [|c rest]; [cbn; by rewrite app_nil_r|]. cbn [fill_shell_from pieces].
  destruct (token_at v (c :: rest)) as [[token x]|].
  - destruct (_ || _); rewrite IH; cbn [fmap list_fmap concat render foldl add_env]; by rewrite <-app_assoc.
  - destruct (read q (c :: rest)) as [q' n]. rewrite IH. cbn [fmap list_fmap concat render foldl add_env]. by rewrite <-app_assoc.
Qed.

(** ** Characters the reader passes over *)

Definition inert (c : N) : Prop :=
  c ≠ BACKSLASH ∧ c ≠ DQUOTE ∧ c ≠ SQUOTE ∧ c ≠ DOLLAR ∧ c ≠ LPAREN ∧ c ≠ RPAREN ∧ c ≠ TICK.

(** Quotes are not opened inside double quotes. *)
Definition quoting_ok (q : Quoting) : Prop := single q = true → top q ≠ Some Double.

Lemma read_inert q c rest : inert c → read q (c :: rest) = (q, 1%nat).
Proof.
  intros (H1 & H2 & H3 & H4 & H5 & H6 & H7). unfold read.
  repeat rewrite (proj2 (N.eqb_neq c _)) by done. cbn [andb negb].
  destruct q as [o s]. cbn. by destruct s.
Qed.

Lemma read_step q text : text ≠ [] → (1 ≤ (read q text).2 ≤ length text)%nat.
Proof.
  destruct text as [|c rest]; [done|]. intros _. unfold read.
  repeat match goal with |- context [if ?b then _ else _] => destruct b eqn:? end; cbn; try lia;
    (destruct rest; [|cbn; lia]); try (cbn; lia).
  match goal with H : (_ =? DOLLAR) && _ = true |- _ => by apply andb_prop in H as [_ Hh%bool_decide_eq_true] end.
Qed.

Lemma read_ok q text : quoting_ok q → quoting_ok (read q text).1.
Proof.
  unfold quoting_ok. intros Hq. destruct text as [|c rest]; [done|]. unfold read.
  repeat match goal with |- context [if ?b then _ else _] => destruct b eqn:? end; cbn in *; try done; try congruence.
  all: intros _; first [by apply Hq|
    match goal with H : (_ =? SQUOTE) && _ = true |- _ =>
      by apply andb_prop in H as [_ Hn%negb_true_iff%bool_decide_eq_false] end].
Qed.

(** ** Reading a whole text *)

Definition reads (q : Quoting) (s : str) : Quoting := read_all (length s) q s.

Lemma read_all_fuel n fuel q rest : (length rest ≤ n)%nat → (length rest ≤ fuel)%nat → read_all fuel q rest = reads q rest.
Proof.
  unfold reads. revert fuel q rest. induction n as [|n IH]; intros fuel q [|c rest] Hn Hf; try (by destruct fuel).
  { cbn in Hn. lia. }
  destruct fuel as [|fuel]; [cbn in Hf; lia|]. cbn [read_all length].
  pose proof (read_step q (c :: rest) ltac:(done)) as Hs. destruct (read q (c :: rest)) as [q' k]. cbn [snd length] in Hs.
  assert (length (drop k (c :: rest)) ≤ length rest)%nat as Hd by (rewrite length_drop; cbn [length]; lia).
  cbn [length] in *. rewrite (IH fuel), (IH (length rest)); [done|lia..].
Qed.

Lemma reads_step q text q' n : text ≠ [] → read q text = (q', n) → reads q text = reads q' (drop n text).
Proof.
  intros Ht E. pose proof (read_step q text Ht) as Hs. rewrite E in Hs. cbn [snd] in Hs.
  unfold reads at 1. destruct text as [|c rest]; [done|]. cbn [read_all length]. rewrite E.
  apply (read_all_fuel (length rest)); rewrite length_drop; cbn [length] in *; lia.
Qed.

Lemma reads_nil q : reads q [] = q.
Proof. done. Qed.

Lemma reads_inert q s rest : Forall inert s → reads q (s ++ rest) = reads q rest.
Proof.
  induction 1 as [|c s Hc Hs IH]; [done|]. cbn [app].
  rewrite (reads_step q (c :: s ++ rest) q 1); [exact IH|done|by apply read_inert].
Qed.

Lemma reads_char q c rest : inert c → reads q (c :: rest) = reads q rest.
Proof. intros Hc. by apply (reads_inert q [c]); constructor. Qed.

(** A dollar that starts no substitution. *)
Lemma reads_dollar q rest : single q = false → head rest ≠ Some LPAREN → reads q (DOLLAR :: rest) = reads q rest.
Proof.
  intros Hs Hh. apply (reads_step q (DOLLAR :: rest) q 1); [done|]. unfold read. rewrite Hs.
  change (DOLLAR =? BACKSLASH) with false. change (DOLLAR =? DQUOTE) with false. change (DOLLAR =? SQUOTE) with false.
  change (DOLLAR =? DOLLAR) with true. change (DOLLAR =? LPAREN) with false. change (DOLLAR =? RPAREN) with false.
  change (DOLLAR =? TICK) with false. cbn [andb]. by rewrite bool_decide_false.
Qed.

Lemma reads_open_double q rest :
  single q = false → top q ≠ Some Double → reads q (DQUOTE :: rest) = reads (push q Double) rest.
Proof.
  intros Hs Ht. apply (reads_step q (DQUOTE :: rest) (push q Double) 1); [done|]. unfold read. rewrite Hs.
  change (DQUOTE =? BACKSLASH) with false. change (DQUOTE =? DQUOTE) with true. cbn iota. by rewrite bool_decide_false.
Qed.

Lemma reads_close_double q rest :
  single q = false → top q = Some Double → reads q (DQUOTE :: rest) = reads (pop q) rest.
Proof.
  intros Hs Ht. apply (reads_step q (DQUOTE :: rest) (pop q) 1); [done|]. unfold read. rewrite Hs.
  change (DQUOTE =? BACKSLASH) with false. change (DQUOTE =? DQUOTE) with true. cbn iota. by rewrite bool_decide_true.
Qed.

Lemma reads_close_single q rest :
  single q = true → reads q (SQUOTE :: rest) = reads (MkQuoting (open q) false) rest.
Proof. intros Hs. apply (reads_step q (SQUOTE :: rest) _ 1); [done|]. unfold read. by rewrite Hs. Qed.

Lemma reads_open_single q rest :
  single q = false → top q ≠ Some Double → reads q (SQUOTE :: rest) = reads (MkQuoting (open q) true) rest.
Proof.
  intros Hs Ht. apply (reads_step q (SQUOTE :: rest) _ 1); [done|]. unfold read. rewrite Hs.
  change (SQUOTE =? BACKSLASH) with false. change (SQUOTE =? DQUOTE) with false. change (SQUOTE =? SQUOTE) with true.
  cbn [andb]. by rewrite bool_decide_false.
Qed.

(** ** References *)

(** Inside double quotes, where an expansion is neither split nor globbed. *)
Definition in_double (q : Quoting) : Prop := single q = false ∧ top q = Some Double.

Lemma head_inert (s rest : str) : s ≠ [] → Forall inert s → head (s ++ rest) ≠ Some LPAREN.
Proof. destruct s as [|c s]; [done|]. intros _ [Hc _]%Forall_cons. cbn. unfold inert in Hc. intros [= ->]. tauto. Qed.

(** A reference leaves the reader where it was. *)
Lemma reference_reads q name rest :
  quoting_ok q → name ≠ [] → Forall inert name → reads q (reference q name ++ rest) = reads q rest.
Proof.
  intros Hq Hne Hn. assert (∀ r, head (name ++ r) ≠ Some LPAREN) as Hh by (intros r; by apply head_inert).
  assert (inert CLOSE ∧ inert OPEN) as [Hclose Hopen] by done.
  unfold reference. destruct (single q) eqn:Es.
  - specialize (Hq Es). destruct q as [o s']. cbn in Es. subst s'. cbn [app]. rewrite <-app_assoc. cbn [app].
    rewrite reads_close_single by done. rewrite reads_open_double by done.
    rewrite reads_dollar by done. rewrite reads_inert by done.
    rewrite reads_close_double by done. rewrite reads_open_single by done. done.
  - destruct (bool_decide_reflect (top q = Some Double)) as [Ht|Ht]; cbn [app]; rewrite <-app_assoc; cbn [app].
    + rewrite reads_dollar by done. rewrite reads_char by apply Hopen. rewrite reads_inert by done.
      by rewrite reads_char by apply Hclose.
    + rewrite reads_open_double by done. rewrite reads_dollar by done. rewrite reads_inert by done.
      rewrite reads_close_double by done. by destruct q.
Qed.

(** Its dollar is read inside double quotes. *)
Lemma reference_double q name :
  quoting_ok q → ∃ a b, reference q name = a ++ DOLLAR :: b ∧ in_double (reads q a) ∧ head a ≠ Some LPAREN.
Proof.
  intros Hq. unfold reference. destruct (single q) eqn:Es.
  - specialize (Hq Es). exists [SQUOTE; DQUOTE], (name ++ [DQUOTE; SQUOTE]). split; [done|].
    destruct q as [o s']. cbn in Es. subst s'. rewrite reads_close_single, reads_open_double by done. by repeat split.
  - destruct (bool_decide_reflect (top q = Some Double)) as [Ht|Ht].
    + exists [], (OPEN :: name ++ [CLOSE]). by split.
    + exists [DQUOTE], (name ++ [DQUOTE]). split; [done|]. rewrite reads_open_double by done. by repeat split.
Qed.

(** ** The tokens that name a step *)

(** What [str::parse] takes for a number: digits, a sign before them. *)
Definition numeral (c : N) : Prop := is_ascii_digit c = true ∨ c = 43.

Lemma numeral_plain c : numeral c → inert c ∧ c ≠ COLON ∧ c ≠ CLOSE ∧ to_ascii_uppercase c = c.
Proof.
  unfold numeral, is_ascii_digit, to_ascii_uppercase, is_ascii_lowercase, inert,
    BACKSLASH, DQUOTE, SQUOTE, DOLLAR, LPAREN, RPAREN, TICK, COLON, CLOSE.
  intros Hc. assert (c = 43 ∨ 48 ≤ c ≤ 57) as Hr.
  { destruct Hc as [[H1 H2]%andb_prop|Hc]; [right; split; by apply N.leb_le|by left]. }
  clear Hc. repeat split; try lia.
  destruct ((97 <=? c) && (c <=? 122)) eqn:E; [|done].
  apply andb_prop in E as [E _]. apply N.leb_le in E. lia.
Qed.

Lemma parse_digits_numeral max acc s n : parse_digits max acc s = Some n → Forall numeral s.
Proof.
  revert acc. induction s as [|c s IH]; intros acc; [constructor|]. cbn [parse_digits].
  destruct (is_ascii_digit c) eqn:E; [|done]. intros H. constructor; [by left|].
  apply bind_Some in H as (a & _ & H). apply bind_Some in H as (b & _ & H). by apply IH in H.
Qed.

Lemma parse_uint_numeral max s n : parse_uint max s = Some n → Forall numeral s.
Proof.
  unfold parse_uint. destruct s as [|c [|d s]]; [done| |]; destruct (N.eqb_spec c 43) as [->|_]; try done;
    intros H%parse_digits_numeral; try done. constructor; [by right|done].
Qed.

Lemma split_once_some c s a b : Schedule.split_once c s = Some (a, b) → s = a ++ c :: b ∧ c ∉ a.
Proof.
  revert a b. induction s as [|d s IH]; intros a b; [done|]. cbn [Schedule.split_once].
  destruct (N.eqb_spec d c) as [->|Hd].
  - intros [= <- <-]. split; [done|]. apply not_elem_of_nil.
  - intros H. apply bind_Some in H as ([a' b'] & E & H). injection H as <- <-.
    destruct (IH _ _ E) as [-> Hc]. split; [done|]. apply not_elem_of_cons. by split.
Qed.

Lemma strip_prefix_some c s t : strip_prefix c s = Some t → s = c :: t.
Proof. destruct s as [|d s]; [done|]. cbn. destruct (N.eqb_spec d c) as [->|]; [|done]. by intros [= ->]. Qed.

Lemma strip_suffix_some c s t : strip_suffix c s = Some t → s = t ++ [c].
Proof.
  unfold strip_suffix. intros (u & Hu%strip_prefix_some & ->)%fmap_Some. rewrite <-(reverse_involutive s), Hu.
  by rewrite reverse_cons.
Qed.

(** The name of an output token and of its variable. *)
Definition output_name (o : Output) : str := match o with LogTail _ => lit "log_tail" | RunId _ => lit "run_id" end.
Definition output_variable (o : Output) : str :=
  match o with LogTail _ => lit "HERDR_LOG_TAIL_" | RunId _ => lit "HERDR_RUN_ID_" end.

Definition written (o : Output) (number : str) : str := OPEN :: output_name o ++ COLON :: number ++ [CLOSE].

Lemma output_of_written token o :
  output_of token = Some o → ∃ number, token = written o number ∧ Forall numeral number.
Proof.
  unfold output_of. intros H. apply bind_Some in H as (inner & Hi & H).
  apply bind_Some in Hi as (t & ->%strip_prefix_some & ->%strip_suffix_some).
  apply bind_Some in H as ([name number] & [-> _]%split_once_some & H).
  apply bind_Some in H as (n & Hn%parse_uint_numeral & H). exists number. split; [|done].
  destruct (n =? 0); [done|]. unfold written. rewrite <-app_assoc. cbn [app].
  destruct (bool_decide_reflect (name = lit "log_tail")) as [->|_]; [by injection H as <-|].
  destruct (bool_decide_reflect (name = lit "run_id")) as [->|_]; [by injection H as <-|done].
Qed.

Lemma trim_close number pre :
  Forall numeral number → pre ≠ [] → last pre ≠ Some CLOSE →
  reverse (trim_char CLOSE (reverse (pre ++ number ++ [CLOSE]))) = pre ++ number.
Proof.
  intros Hn Hne Hp. rewrite app_assoc, reverse_app. cbn [reverse rev_append app trim_char].
  change (CLOSE =? CLOSE) with true. cbn iota.
  assert (trim_char CLOSE (reverse (pre ++ number)) = reverse (pre ++ number)) as ->; [|apply reverse_involutive].
  destruct number as [|c number _] using rev_ind.
  - rewrite app_nil_r. destruct pre as [|d pre _] using rev_ind; [done|]. rewrite reverse_app. cbn.
    rewrite last_snoc in Hp. destruct (N.eqb_spec d CLOSE) as [->|]; [done|done].
  - apply Forall_app in Hn as [_ [Hc _]%Forall_cons]. rewrite app_assoc, reverse_app. cbn.
    destruct (numeral_plain c Hc) as (_ & _ & Hc' & _). by rewrite (proj2 (N.eqb_neq c CLOSE)).
Qed.

Lemma variable_written o number :
  Forall numeral number → variable (written o number) = output_variable o ++ number.
Proof.
  intros Hn. unfold variable.
  assert (trim_char OPEN (written o number) = (output_name o ++ [COLON]) ++ number ++ [CLOSE]) as ->.
  { unfold written. rewrite <-app_assoc. by destruct o. }
  rewrite trim_close; [|done|by destruct o|by destruct o]. rewrite fmap_app.
  assert (((λ c, to_ascii_uppercase (if c =? COLON then 95 else c)) <$> number) = number) as ->; [|by destruct o].
  induction Hn as [|c s Hc Hs IH]; [done|]. cbn [fmap list_fmap]. rewrite IH.
  destruct (numeral_plain c Hc) as (_ & H1 & _ & H2). rewrite (proj2 (N.eqb_neq c COLON)) by done. by rewrite H2.
Qed.

(** An output token and the name of its variable hold nothing the reader acts on. *)
Lemma numerals_inert s : Forall numeral s → Forall inert s.
Proof. intros H. eapply Forall_impl; [exact H|]. intros c Hc. by apply numeral_plain. Qed.

Lemma output_token_inert token o :
  output_of token = Some o → Forall inert token ∧ variable token ≠ [] ∧ Forall inert (variable token).
Proof.
  intros (number & -> & Hn)%output_of_written. rewrite variable_written by done. apply numerals_inert in Hn.
  unfold written. repeat split.
  - constructor; [done|]. apply Forall_app; split; [destruct o; by repeat constructor|].
    constructor; [done|]. apply Forall_app; split; [done|by repeat constructor].
  - by destruct o.
  - apply Forall_app; split; [destruct o; by repeat constructor|done].
Qed.

(** Tokens with one variable are one token. *)
Lemma variable_inj a b o o' : output_of a = Some o → output_of b = Some o' → variable a = variable b → a = b.
Proof.
  intros (n & -> & Hn)%output_of_written (n' & -> & Hn')%output_of_written.
  rewrite !variable_written by done. unfold written. destruct o, o'; cbn; intros E; simplify_eq/=; done.
Qed.

(** ** The pieces as the reader sees them *)

(** The text of the command a piece stands for. *)
Definition source (p : Piece) : str :=
  match p with Source s => s | Written token _ => token | Ref token _ _ => token end.

(** The state after a piece: only text of the command moves it. *)
Definition after (q : Quoting) (p : Piece) : Quoting :=
  match p with Source s => (read q s).1 | _ => q end.

(** What [fill_shell] says of the date and the time: digits, dashes, colons. *)
Definition plain (s : str) : Prop := s ≠ [] ∧ Forall (λ c, is_ascii_digit c = true ∨ c = 45 ∨ c = COLON) s.

Lemma plain_inert s : plain s → Forall inert s.
Proof.
  intros [_ H]. eapply Forall_impl; [exact H|]. intros c [Hc|[->| ->]]; [|done..]. by apply numeral_plain; left.
Qed.

Lemma take_find_char c s i : find_char c s = Some i → (i < length s)%nat.
Proof.
  revert i. induction s as [|d s IH]; intros i; [done|]. cbn. destruct (d =? c); [intros [= <-]; lia|].
  intros (j & Hj%IH & ->)%fmap_Some. lia.
Qed.

Lemma token_at_some v rest token x :
  token_at v rest = Some (token, x) →
  value v token = Some x ∧ rest = token ++ drop (length token) rest ∧ token ≠ [].
Proof.
  unfold token_at. destruct rest as [|c rest]; [done|]. destruct (c =? OPEN); [|done].
  intros H. apply bind_Some in H as (close & Hc%take_find_char & H). apply bind_Some in H as (y & Hy & H).
  injection H as <- <-. repeat split; [done| |done].
  cbn [length take app drop] in *. rewrite length_take_le by lia. by rewrite take_drop.
Qed.

Definition is_clock (token : str) : bool := bool_decide (token = DATE) || bool_decide (token = TIME).

Lemma value_output v token x :
  value v token = Some x → is_clock token = false → ∃ o, output_of token = Some o ∧ output v o = Some x.
Proof.
  unfold value, is_clock. intros H [Hd Ht]%orb_false_iff. rewrite Hd, Ht in H. by apply bind_Some in H.
Qed.

Lemma value_clock v token x :
  value v token = Some x → is_clock token = true → Forall inert token ∧ (x = date v ∨ x = time v).
Proof.
  unfold value, is_clock. intros H. destruct (bool_decide_reflect (token = DATE)) as [->|_].
  { injection H as <-. intros _. split; [by repeat constructor|by left]. }
  destruct (bool_decide_reflect (token = TIME)) as [->|_]; [|done].
  injection H as <-. intros _. split; [by repeat constructor|by right].
Qed.

(** What the reader does with text depends only on the text it takes, a bracket after a dollar apart. *)
Lemma read_local q rest q' n R :
  rest ≠ [] → read q rest = (q', n) → (drop n rest = [] → R = []) →
  (head R = Some LPAREN → head (drop n rest) = Some LPAREN) →
  read q (take n rest ++ R) = (q', n).
Proof.
  destruct rest as [|c rest]; [done|]. intros _. unfold read. destruct (single q).
  { intros [= <- <-] _ _. done. }
  destruct (c =? BACKSLASH) eqn:E1.
  { destruct rest as [|d rest]; intros [= <- <-] HR _; cbn; rewrite E1.
    - by rewrite HR.
    - done. }
  destruct (c =? DOLLAR) eqn:E4; cbn [andb].
  - apply N.eqb_eq in E4 as ->. cbn [N.eqb Pos.eqb DOLLAR DQUOTE SQUOTE LPAREN RPAREN TICK andb].
    destruct rest as [|d rest]; cbn [head].
    + intros [= <- <-] HR _. by rewrite HR.
    + destruct (bool_decide_reflect (Some d = Some LPAREN)) as [[= ->]|Hd]; intros [= <- <-] _ HR; [done|].
      cbn [take app]. rewrite (bool_decide_false (head R = _)); [done|]. intros E. by apply Hd, HR.
  - repeat match goal with |- context [if ?b then _ else _] => destruct b eqn:? end; intros [= <- <-] _ _; cbn [take app];
      repeat match goal with H : ?b = _ |- context [?b] => rewrite H end; cbn [andb negb]; done.
Qed.

Section reading.
Context (v : Values) (date_plain : plain (date v)) (time_plain : plain (time v)).

(** A piece is written from where the reader is. *)
Definition piece_ok (q : Quoting) (p : Piece) : Prop :=
  match p with
  | Source s => s ≠ []
  | Written token x => value v token = Some x ∧ Forall inert token ∧ plain x
  | Ref token x q' => q' = q ∧ ∃ o, output_of token = Some o ∧ output v o = Some x
  end.

(** One turn: the piece it writes, and the rest, which is read from the state after it. *)
Lemma pieces_turn fuel q c rest :
  ∃ p rest', pieces (S fuel) v q (c :: rest) = p :: pieces fuel v (after q p) rest' ∧
    c :: rest = source p ++ rest' ∧ (length rest' ≤ length rest)%nat ∧ piece_ok q p ∧
    reads q (c :: rest) = reads (after q p) rest' ∧
    match p with Source s => read q (c :: rest) = (after q p, length s) | _ => True end.
Proof.
  cbn [pieces]. destruct (token_at v (c :: rest)) as [[token x]|] eqn:E.
  - apply token_at_some in E as (Hv & Hr & Hne). fold (is_clock token).
    set (rest' := drop (length token) (c :: rest)) in *.
    assert (length rest' ≤ length rest)%nat as Hl.
    { unfold rest'. rewrite length_drop. destruct token; [done|]. cbn [length]. lia. }
    assert (Forall inert token → reads q (c :: rest) = reads q rest') as Hreads by (rewrite Hr; apply reads_inert).
    destruct (is_clock token) eqn:Ek.
    + destruct (value_clock v token x Hv Ek) as [Hi Hx].
      exists (Written token x), rest'. cbn. do 3 (split; [done|]). split; [|by auto].
      repeat split; try done; by destruct Hx as [-> | ->]; apply date_plain || apply time_plain.
    + destruct (value_output v token x Hv Ek) as (o & Ho & Hx).
      destruct (output_token_inert token o Ho) as [Hi _].
      exists (Ref token x q), rest'. cbn. do 3 (split; [done|]). split; [by eauto|by auto].
  - pose proof (read_step q (c :: rest) ltac:(done)) as Hs. destruct (read q (c :: rest)) as [q' n] eqn:Er.
    cbn [snd] in Hs. assert (read q (take n (c :: rest)) = (q', n)) as Ht.
    { rewrite <-(app_nil_r (take n (c :: rest))). by apply read_local. }
    exists (Source (take n (c :: rest))), (drop n (c :: rest)). cbn [source after piece_ok]. rewrite Ht. cbn [fst].
    split; [done|]. split; [by rewrite take_drop|].
    split; [rewrite length_drop; cbn [length] in *; lia|]. split; [by destruct n; [lia|]|].
    split; [by apply reads_step|]. rewrite length_take_le; [done|lia].
Qed.

Lemma render_head q p rest R :
  piece_ok q p → head (render p ++ R) = Some LPAREN → head (source p ++ rest) = Some LPAREN.
Proof.
  destruct p as [s|token x|token x q']; cbn.
  - by destruct s.
  - intros (_ & _ & Hx) H. exfalso. apply (head_inert x R); [apply Hx|by apply plain_inert|done].
  - intros _. unfold reference. destruct (single q'); [done|]. by destruct (bool_decide _).
Qed.

(** Everything known of the pieces, up to any point among them, whatever text [z] stands next. *)
Lemma pieces_prefix fuel q rest pre post z :
  (length rest ≤ fuel)%nat → quoting_ok q → pieces fuel v q rest = pre ++ post →
  head z ≠ Some LPAREN → (post = [] → z = []) →
  let q' := foldl after q pre in
  reads q (concat (render <$> pre) ++ z) = reads q' z ∧ quoting_ok q' ∧
  (∀ p post', post = p :: post' → piece_ok q' p) ∧
  (post = [] → reads q rest = q' ∧ concat (source <$> pre) = rest) ∧
  (head (concat (render <$> pre) ++ z) = Some LPAREN → head rest = Some LPAREN) ∧
  (rest = [] → concat (render <$> pre) ++ z = []).
Proof.
  intros Hf Hq Hp Hz Hz0. revert q rest pre Hf Hq Hp. induction fuel as [|fuel IH]; intros q rest pre Hf Hq Hp.
  { destruct rest; [|cbn in Hf; lia]. destruct pre; [|done]. destruct post; [|done]. by rewrite (Hz0 eq_refl). }
  destruct rest as [|c rest]; [destruct pre, post; try done; by rewrite (Hz0 eq_refl)|].
  destruct (pieces_turn fuel q c rest) as (p & rest' & E & Hr & Hl & Hok & Hreads & Hread). rewrite E in Hp.
  destruct pre as [|p' pre]; cbn [app] in Hp.
  { subst post. cbn. repeat split; try done. intros ? ? [= <- _]. done. }
  injection Hp as <- Hp.
  assert (quoting_ok (after q p)) as Hq' by (destruct p; [by apply read_ok|done..]).
  cbn [length] in Hf.
  destruct (IH (after q p) rest' pre ltac:(lia) Hq' Hp) as (H1 & H2 & H3 & H4 & H5 & H6).
  cbn [foldl fmap list_fmap concat]. rewrite <-app_assoc. set (R := concat (render <$> pre) ++ z) in *.
  split; [|split; [done|split; [done|split; [|split; [|done]]]]].
  - rewrite <-H1. destruct p as [s|token x|token x q']; cbn [render after] in *.
    + assert (read q (s ++ R) = (after q (Source s), length s)) as Hread'.
      { assert (s = take (length s) (c :: rest)) as Es by (rewrite Hr; cbn [source]; by rewrite take_app_length).
        assert (drop (length s) (c :: rest) = rest') as Ed by (rewrite Hr; cbn [source]; by rewrite drop_app_length).
        rewrite Es at 1. apply read_local; [done|done|by rewrite Ed|by rewrite Ed]. }
      cbn [after] in Hread'. erewrite reads_step; [|destruct s; done|exact Hread']. by rewrite drop_app_length.
    + apply reads_inert, plain_inert. apply Hok.
    + destruct Hok as (-> & o & Ho & _). destruct (output_token_inert token o Ho) as (_ & Hv & Hi).
      by apply reference_reads.
  - intros [Ha Hb]%H4. split; [by rewrite Hreads|]. by rewrite Hr, Hb.
  - rewrite Hr. by apply (render_head q).
Qed.

(** A piece inside a filled command. *)
Lemma pieces_inside command pre p post :
  pieces (length command) v quoting_default command = pre ++ p :: post →
  piece_ok (foldl after quoting_default pre) p ∧ quoting_ok (foldl after quoting_default pre) ∧
  ∀ z, head z ≠ Some LPAREN →
    reads quoting_default (concat (render <$> pre) ++ z) = reads (foldl after quoting_default pre) z.
Proof.
  intros E. destruct (pieces_prefix (length command) quoting_default command pre (p :: post) []) as (_ & Hq & Hp & _); try done.
  split; [by eapply Hp|]. split; [done|]. intros z Hz.
  by destruct (pieces_prefix (length command) quoting_default command pre (p :: post) z) as (H & _).
Qed.

Lemma pieces_whole command (ps := pieces (length command) v quoting_default command) :
  reads quoting_default (concat (render <$> ps)) = reads quoting_default command ∧ concat (source <$> ps) = command.
Proof.
  destruct (pieces_prefix (length command) quoting_default command ps [] []) as (H1 & _ & _ & H2 & _); try done.
  { by rewrite app_nil_r. }
  destruct (H2 eq_refl) as [H3 H4]. split; [|done]. rewrite app_nil_r in H1. by rewrite H1, H3.
Qed.

End reading.

(** ** The variables *)

Definition is_ref (p : Piece) (name x : str) : Prop :=
  match p with Ref token y _ => variable token = name ∧ y = x | _ => False end.

Lemma env_exact (v : Values) (ps : list Piece) :
  (∀ p, p ∈ ps → ∃ q, piece_ok v q p) →
  NoDup (foldl add_env [] ps).*1 ∧
  ∀ name x, (name, x) ∈ foldl add_env [] ps ↔ ∃ p, p ∈ ps ∧ is_ref p name x.
Proof.
  induction ps as [|p ps IH] using rev_ind; intros Hps.
  { cbn. split; [constructor|]. intros name x. split; [by intros ?%not_elem_of_nil|by intros (p & ?%not_elem_of_nil & _)]. }
  destruct IH as [Hnd Hin]. { intros p' Hp'. apply Hps. set_solver. }
  destruct (Hps p) as [q Hp]; [set_solver|]. rewrite foldl_app. cbn [foldl]. set (env := foldl add_env [] ps) in *.
  assert (∀ name x, (∃ p', p' ∈ ps ++ [p] ∧ is_ref p' name x) ↔ (name, x) ∈ env ∨ is_ref p name x) as Hsnoc.
  { intros name x. rewrite Hin. set_solver. }
  destruct p as [s|token y|token y q']; cbn [add_env];
    [split; [done|]; intros name x; rewrite Hsnoc; cbn; tauto..|].
  destruct (existsb (λ known, bool_decide (known.1 = variable token)) env) eqn:Ee.
  - split; [done|]. intros name x. rewrite Hsnoc. split; [tauto|]. intros [?|[<- ->]]; [done|].
    apply existsb_exists in Ee as ([n y'] & Hk%list_elem_of_In & Hn%bool_decide_eq_true). cbn in Hn. subst n.
    pose proof Hk as (p' & Hp' & Hr)%Hin. destruct p' as [|?|t' x' ?]; [done..|]. destruct Hr as [Hv ->].
    destruct (Hps (Ref t' y' q0)) as [q1 (_ & o' & Ho' & Hval')]; [set_solver|].
    destruct Hp as (_ & o & Ho & Hval). apply (variable_inj t' token o' o) in Hv as ->; [|done..].
    rewrite Ho in Ho'. injection Ho' as <-. rewrite Hval in Hval'. by injection Hval' as <-.
  - rewrite fmap_app. split.
    + apply NoDup_app. split; [done|]. split; [|apply NoDup_singleton]. intros n Hn ->%list_elem_of_singleton.
      apply list_elem_of_fmap in Hn as ([n x] & Hnx & Hin'). cbn in Hnx. subst n.
      apply not_true_iff_false in Ee. apply Ee, existsb_exists. exists (variable token, x).
      split; [by apply list_elem_of_In|by apply bool_decide_eq_true].
    + intros name x. rewrite Hsnoc, elem_of_app, list_elem_of_singleton. cbn.
      split; (intros [?|H]; [by left|right]); [by injection H as <- <-|by destruct H as [-> ->]].
Qed.
(** ** Commands that are checked first *)

Lemma is_prefix_app p s : is_prefix p (p ++ s) = true.
Proof. induction p as [|c p IH]; [done|]. cbn. by rewrite N.eqb_refl, IH. Qed.

Lemma contains_app p a b : contains p (a ++ p ++ b) = true.
Proof.
  induction a as [|c a IH]; cbn [app].
  - destruct (p ++ b) eqn:E; cbn [contains]; rewrite <-E, is_prefix_app; done.
  - cbn [contains]. rewrite IH. apply orb_true_r.
Qed.

Lemma placeable_closed a o number b :
  let command := a ++ written o number ++ b in
  shell_tokens_placeable command = true → reads quoting_default command = quoting_default.
Proof.
  intros command. unfold shell_tokens_placeable.
  assert (negb (contains (lit "{log_tail:") command) && negb (contains (lit "{run_id:") command) = false) as ->.
  { destruct o; [apply andb_false_iff; left|apply andb_false_iff; right]; apply negb_false_iff; unfold command.
    - change (written _ number) with (lit "{log_tail:" ++ number ++ [CLOSE]). rewrite <-app_assoc. apply contains_app.
    - change (written _ number) with (lit "{run_id:" ++ number ++ [CLOSE]). rewrite <-app_assoc. apply contains_app. }
  destruct (existsb _ _); [done|]. fold (reads quoting_default command).
  intros [Hs%negb_true_iff Ho%bool_decide_eq_true]%andb_prop. destruct (reads quoting_default command). cbn in *. by subst.
Qed.

(** ** What the host runs *)

(** C35: in the command [fill_shell] gives, the dollar of every reference to a step's output is read
    inside double quotes; the reader ends in the state it ends in on the command as written, which for a
    command that was checked and names an output is outside every quote; and the variables are those of the
    references, each once, with the output its token names. *)
Theorem shell_output_quoted (v : Values) (command : str) :
  plain (date v) → plain (time v) →
  let ps := pieces (length command) v quoting_default command in
  let '(filled, env) := fill_shell v command in
  filled = concat (render <$> ps) ∧ command = concat (source <$> ps) ∧
  reads quoting_default filled = reads quoting_default command ∧
  NoDup env.*1 ∧ (∀ name x, (name, x) ∈ env ↔ ∃ p, p ∈ ps ∧ is_ref p name x) ∧
  ∀ pre token x q post, ps = pre ++ Ref token x q :: post →
    (∃ o, output_of token = Some o ∧ output v o = Some x) ∧
    (∃ a b, reference q (variable token) = a ++ DOLLAR :: b ∧
      in_double (reads quoting_default (concat (render <$> pre) ++ a))) ∧
    (shell_tokens_placeable command = true → reads quoting_default filled = quoting_default).
Proof.
  intros Hd Ht ps. unfold fill_shell. rewrite fill_shell_pieces. fold ps. cbn [app].
  destruct (pieces_whole v Hd Ht command) as [Hr Hs]. fold ps in Hr, Hs.
  assert (∀ p, p ∈ ps → ∃ q, piece_ok v q p) as Hok.
  { intros p (pre & post & E)%list_elem_of_split. destruct (pieces_inside v Hd Ht command pre p post E) as [H _]. by eauto. }
  destruct (env_exact v ps Hok) as [Hnd Hin]. do 5 (split; [done|]).
  intros pre token x q post E. destruct (pieces_inside v Hd Ht command pre _ post E) as ((-> & o & Ho & Hv) & Hq & Hz).
  split; [|split].
  - by exists o.
  - destruct (reference_double (foldl after quoting_default pre) (variable token) Hq) as (a & b & Eab & Hin2 & Ha).
    exists a, b. split; [done|]. by rewrite Hz.
  - intros Hp. rewrite Hr. destruct (output_of_written token o Ho) as (number & -> & _).
    revert Hp. rewrite <-Hs, E, fmap_app, concat_app. cbn [fmap list_fmap concat source]. apply placeable_closed.
Qed.

Definition sample : Values :=
  MkValues (lit "2026-07-24") (lit "09:30") [Some (lit "$(rm -rf /)"); None] [None; Some (lit "r7")].

Definition sample_command : str := lit "git commit -m '{log_tail:1} {date}'; echo {run_id:2} {run_id:1}".

Lemma shell_output_quoted_witness :
  let ps := pieces (length sample_command) sample quoting_default sample_command in
  NoDup (fill_shell sample sample_command).2.*1 ∧
  fill_shell sample sample_command =
    (lit "git commit -m ''" ++ [DQUOTE] ++ lit "$HERDR_LOG_TAIL_1" ++ [DQUOTE] ++ lit "' 2026-07-24'; echo "
       ++ [DQUOTE] ++ lit "$HERDR_RUN_ID_2" ++ [DQUOTE] ++ lit " {run_id:1}",
     [(lit "HERDR_LOG_TAIL_1", lit "$(rm -rf /)"); (lit "HERDR_RUN_ID_2", lit "r7")]).
Proof.
  intros ps. pose proof (shell_output_quoted sample sample_command) as H.
  destruct (fill_shell sample sample_command) as [filled env'] eqn:E. split; [|rewrite <-E; vm_compute; reflexivity].
  apply H; (split; [discriminate|]); repeat constructor; vm_compute; tauto.
Defined.

(** ** Output never becomes shell text *)

(** Runs that differ only in what their steps put out. *)
Definition same_but_output (v v' : Values) : Prop :=
  date v = date v' ∧ time v = time v' ∧ ∀ o, is_Some (output v o) ↔ is_Some (output v' o).

Lemma token_at_same v v' rest :
  same_but_output v v' →
  match token_at v rest, token_at v' rest with
  | None, None => True
  | Some (token, x), Some (token', x') => token = token' ∧ (is_clock token = true → x = x')
  | _, _ => False
  end.
Proof.
  intros (Hd & Ht & Ho). unfold token_at. destruct rest as [|c rest]; [done|]. destruct (c =? OPEN); [|done].
  destruct (find_char CLOSE (c :: rest)) as [close|]; [|done]. cbn [mbind option_bind].
  set (token := take (S close) (c :: rest)). unfold value.
  destruct (bool_decide (token = DATE)) eqn:E1; [by rewrite Hd|].
  destruct (bool_decide (token = TIME)) eqn:E2; [by rewrite Ht|].
  assert (is_clock token = false) as Hk by (unfold is_clock; by rewrite E1, E2). clearbody token.
  destruct (output_of token) as [o|]; [|done]. cbn [mbind option_bind]. specialize (Ho o).
  destruct (output v o), (output v' o); cbn [mbind option_bind]; try done.
  - by rewrite Hk.
  - by destruct (proj1 Ho (mk_is_Some _ _ eq_refl)).
  - by destruct (proj2 Ho (mk_is_Some _ _ eq_refl)).
Qed.

Lemma existsb_names name (e : list (str * str)) :
  existsb (λ known, bool_decide (known.1 = name)) e = existsb (λ n, bool_decide (n = name)) e.*1.
Proof. induction e as [|k e IH]; [done|]. cbn. by rewrite IH. Qed.

Lemma fill_shell_same v v' fuel q rest filled e e' :
  same_but_output v v' → e.*1 = e'.*1 →
  (fill_shell_from fuel v q rest filled e).1 = (fill_shell_from fuel v' q rest filled e').1 ∧
  (fill_shell_from fuel v q rest filled e).2.*1 = (fill_shell_from fuel v' q rest filled e').2.*1.
Proof.
  intros Hv. revert q rest filled e e'. induction fuel as [|fuel IH]; intros q rest filled e e' He; [done|].
  destruct rest as [|c rest]; [done|]. cbn [fill_shell_from]. pose proof (token_at_same v v' (c :: rest) Hv) as H.
  destruct (token_at v (c :: rest)) as [[token x]|], (token_at v' (c :: rest)) as [[token' x']|]; try done.
  - destruct H as [<- Hx]. fold (is_clock token). destruct (is_clock token); [by rewrite Hx; [apply IH|]|].
    apply IH. rewrite !existsb_names, He. destruct (existsb _ _); [done|]. by rewrite !fmap_app, He.
  - destruct (read q (c :: rest)). by apply IH.
Qed.

(** C36: the command the host is handed for a [sh] step and the names of its variables do not
    depend on what earlier steps put out, only on which of them put anything out. *)
Theorem shell_noninterference (c : Call) (v v' : Values) (command : str) :
  step c = Sh command → same_but_output v v' →
  resolved_call (resolve c v) = resolved_call (resolve c v') ∧ (env (resolve c v)).*1 = (env (resolve c v')).*1.
Proof.
  intros Hc Hv. unfold resolve. rewrite Hc. unfold fill_shell.
  destruct (fill_shell_same v v' (length command) quoting_default command [] [] [] Hv eq_refl) as [H1 H2].
  destruct (fill_shell_from _ v _ _ _ _), (fill_shell_from _ v' _ _ _ _). cbn in *. by subst.
Qed.

Definition sample_other : Values :=
  MkValues (lit "2026-07-24") (lit "09:30") [Some (lit "'; echo"); None] [None; Some (lit "*")].

Definition sample_call : Call := MkCall (Sh sample_command) true None.

Lemma shell_noninterference_witness :
  sample ≠ sample_other ∧ resolved_call (resolve sample_call sample) = resolved_call (resolve sample_call sample_other).
Proof.
  split; [discriminate|]. apply (shell_noninterference sample_call sample sample_other sample_command); [reflexivity|].
  split; [reflexivity|]. split; [reflexivity|].
  intros [i|i]; cbn; destruct (N.to_nat i) as [|[|n]]; cbn; split; intros [x Hx]; try discriminate; eexists; reflexivity.
Defined.

(** ** Tokens read back *)

(** More fuel than the text is long changes nothing. *)
Lemma fill_from_fuel n fuel v rest :
  (length rest ≤ n)%nat → (length rest ≤ fuel)%nat → fill_from fuel v rest = fill v rest.
Proof.
  unfold fill. revert fuel rest. induction n as [|n IH]; intros fuel rest Hn Hf.
  { destruct rest; [by destruct fuel|cbn in Hn; lia]. }
  destruct rest as [|c rest]; [by destruct fuel|]. destruct fuel as [|fuel]; [cbn in Hf; lia|].
  cbn [fill_from length]. destruct (find_char OPEN (c :: rest)) as [i|]; [|done].
  destruct (find_char CLOSE (drop i (c :: rest))) as [close|]; [|done]. do 2 f_equal. cbn [length] in Hn, Hf.
  assert (length (drop (S close) (drop i (c :: rest))) ≤ length rest)%nat as Hd.
  { rewrite !length_drop. cbn [length]. lia. }
  rewrite (IH fuel), (IH (length rest)); [done|lia..].
Qed.

Lemma strip_suffix_app c s : strip_suffix c (s ++ [c]) = Some s.
Proof. unfold strip_suffix. rewrite reverse_snoc. cbn [strip_prefix]. rewrite N.eqb_refl. cbn. by rewrite <-(reverse_involutive s) at 2. Qed.

Lemma output_of_number o number n :
  parse_uint u64_max number = Some (n + 1) → output_of (written o number) =
    Some (match o with LogTail _ => LogTail n | RunId _ => RunId n end).
Proof.
  intros Hn. unfold output_of, written. cbn [strip_prefix]. change (OPEN =? OPEN) with true. cbn [mbind option_bind].
  rewrite (app_comm_cons number), app_assoc, strip_suffix_app. cbn [mbind option_bind].
  rewrite Schedule.split_once_app by (destruct o; apply (bool_decide_unpack _); by vm_compute). cbn [mbind option_bind]. rewrite Hn. cbn [mbind option_bind].
  rewrite (proj2 (N.eqb_neq (n + 1) 0)) by lia. rewrite N.add_sub. by destruct o.
Qed.

(** The token written for a step names that step. *)
Lemma token_names_step (i : N) :
  i < u64_max → output_of (log_tail i) = Some (LogTail i) ∧ output_of (run_id i) = Some (RunId i).
Proof.
  intros Hi. assert (parse_uint u64_max (dec (i + 1)) = Some (i + 1)) as Hp by (apply parse_uint_dec; lia).
  split; [exact (output_of_number (LogTail 0) _ i Hp)|exact (output_of_number (RunId 0) _ i Hp)].
Qed.

(** ** Where the reader is not the shell *)

(** The number of a token may carry a sign, which then stands in the name of its variable. *)
Lemma signed_token :
  variable (lit "{log_tail:+1}") = lit "HERDR_LOG_TAIL_+1" ∧ value sample (lit "{log_tail:+1}") = value sample (lit "{log_tail:1}").
Proof. by vm_compute. Qed.

(** The bracket that ends a pattern of [case] closes the substitution it is in, so a token after it is taken to
    be inside the double quotes around the substitution. *)
Lemma case_pattern :
  let command := [DQUOTE] ++ lit "$(case x in x) echo {log_tail:1};; esac)" ++ [DQUOTE] in
  shell_tokens_placeable command = true ∧
  (fill_shell sample command).1 = [DQUOTE] ++ lit "$(case x in x) echo ${HERDR_LOG_TAIL_1};; esac)" ++ [DQUOTE].
Proof. by vm_compute. Qed.
End Tokens.
