(* ===== verification/Limit.v ===== *)
(** * Limit: the push relay's rate limits (crates/sheprd-push-relay/src/limit.rs)

    A token bucket per key in a bounded table. Levels count thousandths of a
    push; times are milliseconds. *)

From Stdlib Require Import NArith Lia.
From stdpp Require Import base option gmap sets list.
From S2P Require Import Prelude.

Local Open Scope N_scope.

Module Limit.

Definition MAX_KEYS : N := 65536.
Definition MINUTE_MS : N := 60000.

Record Rate := MkRate { burst : N; per_minute : N }.
Record Rates := MkRates { device_rate : Rate; handle_rate : Rate; revoke_rate : Rate; source_rate : Rate }.

Definition rates_default : Rates :=
  MkRates (MkRate 60 120) (MkRate 30 60) (MkRate 30 1) (MkRate 120 600).

Record Bucket := MkBucket { milli : N; updated_ms : N }.

(** [refilled]. The product is saturated, then multiplied with the wrap-around
    of a release build. *)
Definition refilled (b : Bucket) (rate : Rate) (now_ms : N) : N :=
  let elapsed := now_ms - updated_ms b in
  let gained := (saturating_mul u64_max elapsed (per_minute rate) * 1000) mod 2 ^ 64 / MINUTE_MS in
  N.min (saturating_add u64_max (milli b) gained) (burst rate * 1000).

Section limiter.
Context {K : Type} `{Countable K}.

Record Limiter := MkLimiter { buckets : gmap K Bucket; max_keys : N; rate : Rate }.

Definition bounded (rate : Rate) (max_keys : N) : Limiter := MkLimiter ∅ max_keys rate.
Definition limiter_new (rate : Rate) : Limiter := bounded rate MAX_KEYS.

Definition len (m : gmap K Bucket) : N := N.of_nat (size m).

(** [Limiter::allow]: the limiter afterwards and the answer. *)
Definition allow (l : Limiter) (key : K) (now_ms : N) : Limiter * bool :=
  let full := burst (rate l) * 1000 in
  let crowded := (max_keys l <=? len (buckets l)) && negb (bool_decide (is_Some (buckets l !! key))) in
  let kept :=
    if crowded then filter (λ '(_, b), refilled b (rate l) now_ms < full) (buckets l) else buckets l in
  if crowded && (max_keys l <=? len kept) then (MkLimiter kept (max_keys l) (rate l), false)
  else
    let bucket := default (MkBucket full now_ms) (kept !! key) in
    let level := refilled bucket (rate l) now_ms in
    if level <? 1000 then (MkLimiter (<[key := MkBucket level now_ms]> kept) (max_keys l) (rate l), false)
    else (MkLimiter (<[key := MkBucket (level - 1000) now_ms]> kept) (max_keys l) (rate l), true).

(** Requests in order, each with its time, and the answers. *)
Fixpoint allow_all (l : Limiter) (requests : list (K * N)) : Limiter * list bool :=
  match requests with
  | [] => (l, [])
  | (key, now_ms) :: requests =>
      let '(l, b) := allow l key now_ms in
      let '(l, bs) := allow_all l requests in
      (l, b :: bs)
  end.

(** ** Levels *)

(** What a key has left: a key without a bucket has spent nothing. *)
Definition level (l : Limiter) (key : K) (now_ms : N) : N :=
  match buckets l !! key with
  | Some b => refilled b (rate l) now_ms
  | None => burst (rate l) * 1000
  end.

(** What a bucket can gain in a time. *)
Definition gain (rate : Rate) (ms : N) : N := ms * per_minute rate * 1000 / MINUTE_MS.

(** Times the counter of thousandths does not overflow on. *)
Definition in_time (rate : Rate) (now_ms : N) : Prop := now_ms * per_minute rate * 1000 ≤ u64_max.

(** Every bucket was updated by [now_ms] and holds no more than it can. *)
Definition limiter_wf (l : Limiter) (now_ms : N) : Prop :=
  burst (rate l) ≤ u32_max ∧
  ∀ k b, buckets l !! k = Some b → updated_ms b ≤ now_ms ∧ milli b ≤ burst (rate l) * 1000.

Lemma gain_add r a b : gain r a + gain r b ≤ gain r (a + b).
Proof.
  unfold gain, MINUTE_MS. rewrite !N.mul_add_distr_r. generalize (a * per_minute r * 1000), (b * per_minute r * 1000).
  intros x y. dlia.
Qed.

Lemma gain_mono r a b : a ≤ b → gain r a ≤ gain r b.
Proof. intros Hab. pose proof (gain_add r a (b - a)). replace (a + (b - a)) with b in H0 by lia. lia. Qed.

(** In time, a refill neither saturates nor wraps. *)
Lemma refilled_in_time b r now :
  in_time r now → milli b ≤ burst r * 1000 → burst r ≤ u32_max →
  refilled b r now = N.min (milli b + gain r (now - updated_ms b)) (burst r * 1000).
Proof.
  unfold in_time, refilled, gain, saturating_mul, saturating_add. intros Ht Hm Hb.
  assert ((now - updated_ms b) * per_minute r ≤ now * per_minute r) as Hle by (apply N.mul_le_mono_r; lia).
  generalize dependent ((now - updated_ms b) * per_minute r). intros e He.
  generalize dependent (now * per_minute r). intros n Hn He. unfold u64_max, u32_max in *.
  rewrite (N.min_r _ e) by lia. rewrite (N.mod_small (e * 1000)) by lia.
  assert (e * 1000 / MINUTE_MS ≤ e * 1000) by (unfold MINUTE_MS; dlia). lia.
Qed.

Lemma level_bounded l k now : level l k now ≤ burst (rate l) * 1000.
Proof. unfold level. destruct (_ !! _); [|done]. unfold refilled. lia. Qed.

Lemma in_time_mono r now later : now ≤ later → in_time r later → in_time r now.
Proof. unfold in_time. intros ? Ht. etrans; [|exact Ht]. do 2 apply N.mul_le_mono_r. done. Qed.

(** A level never falls by waiting. *)
Lemma level_later l k now later :
  limiter_wf l now → in_time (rate l) later → now ≤ later → level l k now ≤ level l k later.
Proof.
  intros [Hb Hwf] Ht Hle. unfold level. destruct (buckets l !! k) as [b|] eqn:E; [|lia].
  destruct (Hwf _ _ E) as [Hu Hm]. pose proof (in_time_mono _ _ _ Hle Ht).
  rewrite !refilled_in_time by done.
  pose proof (gain_mono (rate l) (now - updated_ms b) (later - updated_ms b) ltac:(lia)). lia.
Qed.

(** The level of a bucket just written. *)
Lemma level_written l k m now later :
  m ≤ burst (rate l) * 1000 → burst (rate l) ≤ u32_max → in_time (rate l) later →
  level (MkLimiter (<[k := MkBucket m now]> (buckets l)) (max_keys l) (rate l)) k later =
    N.min (m + gain (rate l) (later - now)) (burst (rate l) * 1000).
Proof.
  intros Hm Hb Ht. unfold level. cbn [buckets rate]. rewrite lookup_insert_eq. by rewrite refilled_in_time.
Qed.

(** ** Making room *)

(** The table [allow] works on, and whether the key may enter it. *)
Definition swept (l : Limiter) (now_ms : N) : Limiter :=
  MkLimiter (filter (λ '(_, b), refilled b (rate l) now_ms < burst (rate l) * 1000) (buckets l))
    (max_keys l) (rate l).

(** Dropping a full bucket changes no key's level, then or later. *)
Lemma swept_level l k now later :
  limiter_wf l now → in_time (rate l) later → now ≤ later → level (swept l now) k later = level l k later.
Proof.
  intros Hwf Ht Hle. pose proof (level_later l k now later Hwf Ht Hle) as Hl.
  pose proof (level_bounded l k later) as Hb.
  unfold level in *. cbn [swept buckets rate]. rewrite map_lookup_filter.
  destruct (buckets l !! k) as [b|]; cbn [mbind option_bind]; [|done].
  destruct (decide (refilled b (rate l) now < burst (rate l) * 1000)) as [Hlt|Hge].
  - by rewrite option_guard_True by done.
  - rewrite option_guard_False by done. simpl. lia.
Qed.

Lemma swept_wf l now : limiter_wf l now → limiter_wf (swept l now) now.
Proof.
  intros [Hb Hwf]. split; [done|]. intros k b. cbn [swept buckets]. rewrite map_lookup_filter_Some.
  intros [Hk _]. by apply (Hwf k).
Qed.

(** [allow] by levels: a new key that finds the table full of keys that have
    spent something is refused; any other is answered by its level. *)
Definition table (l : Limiter) (key : K) (now_ms : N) : option Limiter :=
  if (max_keys l <=? len (buckets l)) && negb (bool_decide (is_Some (buckets l !! key))) then
    if max_keys l <=? len (buckets (swept l now_ms)) then None else Some (swept l now_ms)
  else Some l.

Lemma allow_table l key now :
  in_time (rate l) now → burst (rate l) ≤ u32_max →
  allow l key now =
    match table l key now with
    | None => (swept l now, false)
    | Some t =>
        let v := level t key now in
        if v <? 1000 then (MkLimiter (<[key := MkBucket v now]> (buckets t)) (max_keys l) (rate l), false)
        else (MkLimiter (<[key := MkBucket (v - 1000) now]> (buckets t)) (max_keys l) (rate l), true)
    end.
Proof.
  intros Ht Hb. unfold allow, table.
  assert (∀ t, rate t = rate l →
    refilled (default (MkBucket (burst (rate l) * 1000) now) (buckets t !! key)) (rate l) now = level t key now) as Hlevel.
  { intros t Er. unfold level. rewrite Er. destruct (buckets t !! key); [done|]. cbn [default from_option id].
    rewrite refilled_in_time by done. cbn [milli updated_ms]. lia. }
  destruct ((max_keys l <=? len (buckets l)) && _); cbn [andb].
  - fold (swept l now). change (filter _ (buckets l)) with (buckets (swept l now)).
    destruct (max_keys l <=? len (buckets (swept l now))); [done|]. by rewrite Hlevel.
  - by rewrite Hlevel.
Qed.

Lemma table_level l key now t k later :
  limiter_wf l now → in_time (rate l) later → now ≤ later → table l key now = Some t →
  rate t = rate l ∧ max_keys t = max_keys l ∧ limiter_wf t now ∧ level t k later = level l k later.
Proof.
  intros Hwf Ht Hle. unfold table. destruct (_ && _); [destruct (_ <=? _); [done|]|]; intros E.
  - assert (t = swept l now) as -> by congruence. split; [done|]. split; [done|]. split; [by apply swept_wf|by apply swept_level].
  - assert (t = l) as -> by congruence. done.
Qed.

(** What [allow] does to the limiter, on every branch. *)
Record allowed_by (l l' : Limiter) (key : K) (now : N) (answer : bool) : Prop := {
  allowed_rate : rate l' = rate l ∧ max_keys l' = max_keys l;
  allowed_wf : limiter_wf l' now;
  (** Other keys keep their level, then and later. *)
  allowed_others : ∀ k later, k ≠ key → now ≤ later → in_time (rate l) later → level l' k later = level l k later;
  (** A yes spends one; a no spends nothing. *)
  allowed_spent : level l' key now + (if answer then 1000 else 0) = level l key now;
  (** The key goes on from its new level. *)
  allowed_key : ∀ later, now ≤ later → in_time (rate l) later →
    level l' key later ≤ level l' key now + gain (rate l) (later - now);
  (** A no is for a level under one, or for want of room. *)
  allowed_no : answer = false →
    level l key now < 1000 ∨ (buckets l !! key = None ∧ max_keys l ≤ len (buckets (swept l now)));
  allowed_room : len (buckets l) ≤ max_keys l → len (buckets l') ≤ max_keys l;
}.

Lemma swept_size l now : len (buckets (swept l now)) ≤ len (buckets l).
Proof. unfold len, swept. cbn [buckets]. pose proof (map_subseteq_size _ _ (map_filter_subseteq (λ '(_, b), refilled b (rate l) now < burst (rate l) * 1000) (buckets l))). lia. Qed.

Lemma gain_0 r : gain r 0 = 0.
Proof. done. Qed.

(** A key that has spent nothing, absent from the table, stays full. *)
Lemma level_absent l k now : buckets l !! k = None → level l k now = burst (rate l) * 1000.
Proof. unfold level. by intros ->. Qed.

Lemma table_room l key now t m :
  table l key now = Some t → 0 < max_keys l → len (buckets l) ≤ max_keys l → len (<[key := m]> (buckets t)) ≤ max_keys l.
Proof.
  unfold table, len. destruct (N.leb_spec (max_keys l) (N.of_nat (size (buckets l)))) as [Hge|Hlt]; cbn [andb].
  - destruct (bool_decide_reflect (is_Some (buckets l !! key))) as [Hs|Hn]; cbn [negb].
    + intros E Hpos Hle. assert (t = l) as -> by congruence.
      rewrite map_size_insert_Some by done. done.
    + change (N.of_nat (size (buckets (swept l now)))) with (len (buckets (swept l now))).
      destruct (N.leb_spec (max_keys l) (len (buckets (swept l now)))) as [?|Hlt]; [done|].
      intros E Hpos Hle. assert (t = swept l now) as -> by congruence. unfold len in Hlt.
      rewrite map_size_insert_None; [lia|]. cbn [swept buckets]. apply map_lookup_filter_None. left.
      by apply eq_None_not_Some.
  - intros E Hpos Hle. assert (t = l) as -> by congruence.
    destruct (buckets l !! key) eqn:Ek; [by rewrite map_size_insert_Some by done|].
    rewrite map_size_insert_None by done. lia.
Qed.

Lemma table_none l key now :
  table l key now = None → buckets l !! key = None ∧ max_keys l ≤ len (buckets (swept l now)).
Proof.
  unfold table. destruct (_ <=? _) eqn:E1, (bool_decide_reflect (is_Some (buckets l !! key))) as [Hs|Hn]; cbn [andb negb];
    try done.
  destruct (N.leb_spec (max_keys l) (len (buckets (swept l now)))); [|done]. intros _.
  split; [by apply eq_None_not_Some|done].
Qed.

Lemma allow_step (l l' : Limiter) (key : K) (now : N) (answer : bool) :
  limiter_wf l now → in_time (rate l) now → 0 < max_keys l →
  allow l key now = (l', answer) → allowed_by l l' key now answer.
Proof.
  intros Hwf Ht Hpos. rewrite allow_table by (done || apply Hwf). destruct (table l key now) as [t|] eqn:Et.
  - destruct (table_level l key now t key now Hwf Ht ltac:(lia) Et) as (Hr & Hk & Htwf & Hlev).
    assert (∀ k later, k ≠ key → now ≤ later → in_time (rate l) later → ∀ m,
      level (MkLimiter (<[key := m]> (buckets t)) (max_keys l) (rate l)) k later = level l k later) as Hothers.
    { intros k later Hne Hle Hlt m. destruct (table_level l key now t k later Hwf Hlt Hle Et) as (_ & _ & _ & <-).
      unfold level. cbn [buckets rate]. by rewrite lookup_insert_ne, Hr. }
    pose proof (level_bounded l key now) as Hbound.
    assert (∀ v b, v + (if b : bool then 1000 else 0) = level l key now →
      (b = false → level l key now < 1000) →
      allowed_by l (MkLimiter (<[key := MkBucket v now]> (buckets t)) (max_keys l) (rate l)) key now b) as Hdone.
    { intros v b Hv Hno. assert (v ≤ burst (rate l) * 1000) as Hvb by lia.
      assert (∀ later, in_time (rate l) later →
        level (MkLimiter (<[key := MkBucket v now]> (buckets t)) (max_keys l) (rate l)) key later =
          N.min (v + gain (rate l) (later - now)) (burst (rate l) * 1000)) as Hkey.
      { intros later Hlt. rewrite <-Hr, <-Hk. apply level_written; rewrite Hr; (done || apply Hwf). }
      split.
      - done.
      - split; [apply Hwf|]. intros k b'. cbn [buckets rate]. destruct (decide (k = key)) as [->|Hne].
        + rewrite lookup_insert_eq. intros E. assert (b' = MkBucket v now) as -> by congruence. done.
        + rewrite lookup_insert_ne by done. intros Hb'. destruct Htwf as [_ Htwf]. rewrite <-Hr. by apply (Htwf k).
      - intros. by apply Hothers.
      - rewrite Hkey by done. rewrite N.sub_diag, gain_0. lia.
      - intros later Hle Hlt. rewrite !Hkey by done. rewrite N.sub_diag, gain_0. lia.
      - auto.
      - by apply (table_room l key now). }
    cbv zeta. rewrite Hlev. destruct (N.ltb_spec (level l key now) 1000); intros E;
      injection E as <- <-; apply Hdone; (lia || done).
  - intros E. injection E as <- <-. destruct (table_none _ _ _ Et) as [Hn Hroom].
    assert (∀ later, level (swept l now) key later = level l key later) as Hs.
    { intros later. rewrite !level_absent; [done..|]. cbn [swept buckets]. apply map_lookup_filter_None. by left. }
    split; [done|by apply swept_wf| | | |auto|].
    + intros. by apply swept_level.
    + rewrite Hs. lia.
    + intros later ??. rewrite !Hs, !level_absent by done. lia.
    + intros. pose proof (swept_size l now). lia.
Qed.

(** The answer to a request depends on the key's own level only: it is
    yes exactly when a whole push is left, which it spends, or no for want of
    room when the table is full of keys that have spent something. No other
    key's level changes, then or later, full buckets dropped to make room
    included, and the table never outgrows its bound. *)
Theorem allow_correct (l l' : Limiter) (key : K) (now : N) (answer : bool) :
  limiter_wf l now → in_time (rate l) now → 0 < max_keys l →
  allow l key now = (l', answer) → allowed_by l l' key now answer.
Proof. apply allow_step. Qed.

(** ** The rate *)

(** How far the clock moves forward over the requests; it may go back between them. *)
Fixpoint advance (clock : N) (requests : list (K * N)) : N :=
  match requests with
  | [] => 0
  | (_, now) :: requests => (now - clock) + advance now requests
  end.

(** The clock does not go back. *)
Fixpoint clock_ok (start : N) (requests : list (K * N)) : Prop :=
  match requests with
  | [] => True
  | (_, now) :: requests => start ≤ now ∧ clock_ok now requests
  end.

(** How many requests of [key] were answered yes. *)
Fixpoint granted (key : K) (requests : list (K * N)) (answers : list bool) : N :=
  match requests, answers with
  | (k, _) :: requests, b :: answers => (if bool_decide (k = key) && b then 1 else 0) + granted key requests answers
  | _, _ => 0
  end.

Lemma clock_ok_wf l start now : limiter_wf l start → start ≤ now → limiter_wf l now.
Proof. intros [Hb Hwf] Hle. split; [done|]. intros k b Hk. destruct (Hwf k b Hk). split; [lia|done]. Qed.

Lemma advance_forward start stop requests :
  clock_ok start requests → (∀ k now, (k, now) ∈ requests → now ≤ stop) → start ≤ stop → advance start requests ≤ stop - start.
Proof.
  revert start. induction requests as [|[k now] requests IH]; intros start Hc Hl Hs; cbn; [lia|]. destruct Hc as [Hn Hc].
  assert (now ≤ stop) as Hle by (apply (Hl k); set_solver). 
  assert (advance now requests ≤ stop - now); [|lia]. apply IH; [done| |done]. intros k' n' Hin. apply (Hl k'). set_solver.
Qed.

(** A bucket's level by exact arithmetic. A refill that saturates or wraps around
    adds less. *)
Definition ideal (r : Rate) (b : Bucket) (now_ms : N) : N :=
  N.min (milli b + gain r (now_ms - updated_ms b)) (burst r * 1000).

Definition ideal_level (l : Limiter) (key : K) (now_ms : N) : N :=
  match buckets l !! key with Some b => ideal (rate l) b now_ms | None => burst (rate l) * 1000 end.

Lemma refilled_ideal b r now : refilled b r now ≤ ideal r b now.
Proof.
  unfold refilled, ideal, gain, saturating_mul, saturating_add, MINUTE_MS.
  generalize ((now - updated_ms b) * per_minute r). intros e.
  assert ((N.min u64_max e * 1000) mod 2 ^ 64 ≤ e * 1000) as Hm.
  { etrans; [apply N.Div0.mod_le|]. lia. }
  assert ((N.min u64_max e * 1000) mod 2 ^ 64 / 60000 ≤ e * 1000 / 60000) by (apply N.Div0.div_le_mono; exact Hm). lia.
Qed.

Lemma ideal_mono r b now later : now ≤ later → ideal r b now ≤ ideal r b later.
Proof. intros Hle. unfold ideal. pose proof (gain_mono r (now - updated_ms b) (later - updated_ms b) ltac:(lia)). lia. Qed.

Lemma ideal_level_mono l k now later : now ≤ later → ideal_level l k now ≤ ideal_level l k later.
Proof. unfold ideal_level. destruct (buckets l !! k); [|done]. apply ideal_mono. Qed.

(** The table a request is looked up in: buckets that are left out were full. *)
Lemma kept_ideal l t k now later :
  rate t = rate l →
  buckets t = buckets l ∨ buckets t = filter (λ '(_, b), refilled b (rate l) now < burst (rate l) * 1000) (buckets l) →
  ideal_level t k later ≤ ideal_level l k (N.max later now).
Proof.
  intros Hr [E|E]; unfold ideal_level; rewrite Hr, E.
  { destruct (buckets l !! k); [|done]. apply ideal_mono. lia. }
  rewrite map_lookup_filter. destruct (buckets l !! k) as [b|]; cbn [mbind option_bind]; [|done].
  destruct (decide (refilled b (rate l) now < burst (rate l) * 1000)).
  - rewrite option_guard_True by done. apply ideal_mono. lia.
  - rewrite option_guard_False by done. cbn [fmap option_fmap option_map].
    pose proof (refilled_ideal b (rate l) now). pose proof (ideal_mono (rate l) b now (N.max later now) ltac:(lia)). cbn. lia.
Qed.

(** What a request does to a key: a request of its own spends what it was granted,
    from where the key goes on; any other leaves it no more than it had. *)
Lemma allow_ideal l k now l' b key :
  allow l k now = (l', b) →
  rate l' = rate l ∧
  (k = key ∧ (∀ later, ideal_level l' key later + (if b then 1000 else 0) ≤ ideal_level l key now + gain (rate l) (later - now))
   ∨ (k = key → b = false) ∧ ∀ later, ideal_level l' key later ≤ ideal_level l key (N.max later now)).
Proof.
  unfold allow. set (crowded := _ && negb _). set (kept := if crowded then _ else _).
  assert (buckets l = kept ∨ kept = filter (λ '(_, b), refilled b (rate l) now < burst (rate l) * 1000) (buckets l)) as Hkept.
  { unfold kept. destruct crowded; [by right|by left]. }
  assert (∀ later, ideal_level (MkLimiter kept (max_keys l) (rate l)) key later ≤ ideal_level l key (N.max later now)) as Hother.
  { intros later. apply kept_ideal; [done|]. cbn. destruct Hkept as [->|]; [by left|by right]. }
  destruct (crowded && _); [intros [= <- <-]; split; [done|by right]|].
  set (v := refilled _ _ _). assert (k = key → v ≤ ideal_level l key now) as Hv.
  { intros ->. specialize (Hother now). rewrite N.max_id in Hother. etrans; [|exact Hother]. unfold ideal_level. cbn [buckets rate].
    unfold v. destruct (kept !! key); cbn [default from_option id]; [apply refilled_ideal|]. unfold refilled. lia. }
  assert (∀ m (yes : bool), (k = key → m + (if yes then 1000 else 0) ≤ v) →
    k = key ∧ (∀ later, ideal_level (MkLimiter (<[k := MkBucket m now]> kept) (max_keys l) (rate l)) key later + (if yes then 1000 else 0)
                 ≤ ideal_level l key now + gain (rate l) (later - now))
    ∨ (k = key → yes = false) ∧ ∀ later, ideal_level (MkLimiter (<[k := MkBucket m now]> kept) (max_keys l) (rate l)) key later
                                  ≤ ideal_level l key (N.max later now)) as Hdone.
  { intros m yes Hm. destruct (decide (k = key)) as [->|Hne].
    - left. split; [done|]. intros later. unfold ideal_level at 1. cbn [buckets rate]. rewrite lookup_insert_eq. unfold ideal. cbn [milli updated_ms].
      specialize (Hm eq_refl). specialize (Hv eq_refl). destruct yes; lia.
    - right. split; [done|]. intros later. specialize (Hother later). unfold ideal_level in *. cbn [buckets rate] in *.
      by rewrite lookup_insert_ne. }
  destruct (N.ltb_spec v 1000); intros [= <- <-]; (split; [done|]); [apply (Hdone v false)|apply (Hdone (v - 1000) true)]; intros _; lia.
Qed.

Lemma granted_bound l key clock requests l' answers (moved spent : N) :
  (∀ later, 1000 * spent + ideal_level l key later ≤ burst (rate l) * 1000 + gain (rate l) (moved + (later - clock))) →
  allow_all l requests = (l', answers) →
  1000 * (spent + granted key requests answers) ≤ burst (rate l) * 1000 + gain (rate l) (moved + advance clock requests).
Proof.
  revert l clock moved spent answers. induction requests as [|[k now] requests IH]; intros l clock moved spent answers Hinv; cbn [allow_all].
  { intros [= _ <-]. cbn [granted advance]. specialize (Hinv clock). rewrite N.sub_diag in Hinv. lia. }
  destruct (allow l k now) as [l1 b] eqn:Ea. destruct (allow_all l1 requests) as [l2 bs] eqn:Er. intros [= <- <-]. cbn [granted advance].
  destruct (allow_ideal l k now l1 b key Ea) as [Hr Hk]. rewrite N.add_assoc, N.add_assoc, <-Hr. eapply IH; [|exact Er].
  intros later. rewrite Hr. destruct Hk as [[-> Hk]|[Hb Hk]]; specialize (Hk later).
  - rewrite bool_decide_eq_true_2 by done. cbn [andb]. specialize (Hinv now).
    pose proof (gain_add (rate l) (moved + (now - clock)) (later - now)). destruct b; lia.
  - specialize (Hinv (N.max later now)).
    pose proof (gain_mono (rate l) (moved + (N.max later now - clock)) (moved + (now - clock) + (later - now)) ltac:(lia)).
    destruct (bool_decide_reflect (k = key)) as [->|]; [rewrite Hb by done|]; cbn [andb]; lia.
Qed.

(** C39: However requests of all keys interleave, and whatever the clock does,
    one key is granted at most its burst plus what its rate refills in the time the
    clock moved forward; for a clock that does not go back, that is no more than the
    stretch of time the requests lie in. Refills that overflow only add less. *)
Theorem rate_bound (l l' : Limiter) (key : K) (start : N) (requests : list (K * N)) (answers : list bool) :
  allow_all l requests = (l', answers) →
  granted key requests answers ≤ burst (rate l) + advance start requests * per_minute (rate l) / MINUTE_MS
  ∧ ∀ stop, clock_ok start requests → (∀ k now, (k, now) ∈ requests → now ≤ stop) → start ≤ stop → advance start requests ≤ stop - start.
Proof.
  intros Hall. split; [|intros stop; apply advance_forward].
  assert (1000 * (0 + granted key requests answers) ≤ burst (rate l) * 1000 + gain (rate l) (0 + advance start requests)) as Hg.
  { eapply granted_bound; [|exact Hall]. intros later. unfold ideal_level, ideal. destruct (_ !! _); lia. }
  unfold gain, MINUTE_MS in *. rewrite !N.add_0_l in Hg. generalize dependent (advance start requests * per_minute (rate l)). intros x Hx. dlia.
Qed.
End limiter.
Arguments Limiter K {_ _}.

(** ** Witnesses *)

Definition one_key : Limiter N := MkLimiter {[ 7 := MkBucket 500 1000 ]} 1 (MkRate 2 60).

Lemma one_key_wf : limiter_wf one_key 1000.
Proof.
  split; [by vm_compute|]. intros k b. unfold one_key. cbn [buckets]. rewrite lookup_singleton_Some.
  intros [<- <-]. split; by vm_compute.
Qed.

(** At 1.5 s key 7 has a whole push again; key 8 finds no room. *)
Lemma allow_correct_witness :
  allowed_by one_key (allow one_key 7 1500).1 7 1500 true ∧ allowed_by one_key (allow one_key 8 1500).1 8 1500 false.
Proof.
  assert (limiter_wf one_key 1500) as Hwf by (apply (clock_ok_wf one_key 1000); [apply one_key_wf|lia]).
  split; apply allow_correct; (exact Hwf || by vm_compute).
Defined.

(** At the end the clock goes back and forth, and the key is refilled again. *)
Definition some_requests : list (N * N) := [(7, 1500); (7, 2000); (8, 2000); (7, 3000); (7, 2000); (7, 3000)].

Lemma rate_bound_witness :
  granted 7 some_requests (allow_all one_key some_requests).2 = 3 ∧ advance 1000 some_requests = 3000
  ∧ granted 7 some_requests (allow_all one_key some_requests).2
    ≤ burst (rate one_key) + advance 1000 some_requests * per_minute (rate one_key) / MINUTE_MS.
Proof.
  split; [by vm_compute|]. split; [by vm_compute|].
  exact (proj1 (rate_bound one_key _ 7 1000 some_requests _ (surjective_pairing (allow_all one_key some_requests)))).
Defined.

(** A device that retries every 50 ms at one push a minute never gets its
    refill: each retry restarts the clock and what it gained rounds to nothing. *)
Lemma retries_starve r m now :
  per_minute r = 1 → m ≤ burst r * 1000 → burst r ≤ u32_max → in_time r (now + 50) →
  refilled (MkBucket m now) r (now + 50) = m.
Proof.
  intros Hp Hm Hb Ht. rewrite refilled_in_time by done. unfold gain. cbn [milli updated_ms]. rewrite Hp.
  replace (now + 50 - now) with 50 by lia. change (50 * 1 * 1000 / MINUTE_MS) with 0. lia.
Qed.
End Limit.
