(* ===== verification/Relay.v ===== *)
(** * Relay: the push relay's credentials, revocations and decisions
    (crates/sheprd-push-relay/src/credential.rs, handle.rs, store.rs, relay.rs,
    and [source_key] of limit.rs)

    Cryptography, JSON and APNs are third-party: the class [Outside]. A request
    is one step that carries the limiters and the store on; what it posts to
    APNs is part of its result. *)

From Stdlib Require Import NArith Lia.
From stdpp Require Import base option gmap strings sets list.
From S2P Require Import Prelude Schedule Limit.

Local Open Scope N_scope.

Module Relay.
Import Limit.

(** ** Handles and credentials *)

Inductive Host := Production | Sandbox.
Inductive PushType := Push_Alert | Push_Background | Push_LiveActivity.
Inductive Priority := Low | High.
Inductive Kind := Activity | Alert | PushToStart.

Definition MAX_HANDLE : N := 2048.
Definition ID_LEN : N := 32.
Definition LIFETIME_S : N := 30 * 24 * 60 * 60.
Definition DEVICE_LEN : nat := 16.
Definition FACTS_LEN : nat := DEVICE_LEN + 1 + 8.
Definition MAC_LEN : nat := 32.

(** [Kind::allows]. *)
Definition allows (k : Kind) (t : PushType) : bool :=
  match k, t with
  | Activity, Push_LiveActivity | PushToStart, Push_LiveActivity => true
  | Alert, Push_Alert | Alert, Push_Background => true
  | _, _ => false
  end.

Record Handle := MkHandle { credential : str; handle_id : str; handle_kind : Kind; token : list N }.
Record Credential := MkCredential { device : list N; environment : Host; expires_s : N }.
Record Push := MkPush { body : list N; collapse_id : option str; priority : Priority; push_type : PushType }.

Inductive Outcome :=
| Out_Delivered
| Out_Gone
| Out_RateLimited
| Out_Rejected (reason : option str) (status : N).

#[export] Instance Host_eq_dec : EqDecision Host.
Proof. solve_decision. Defined.

(** What the relay calls and does not contain. *)
Class Outside := {
  Key : Type;
  (** [seal::open] with the handle's context, then [serde_json]. *)
  seal_open : Key → list N → option (list N);
  handle_json : list N → option Handle;
  (** base64, URL-safe and without padding. *)
  url_encode : list N → str;
  url_decode : str → option (list N);
  (** HMAC-SHA256 under the relay's secret. *)
  mac : list N → list N;
  (** Whether a text is a JSON object. *)
  json_object : str → bool;
  (** APNs's answer to a push at a time; [None] when it cannot be reached. *)
  post : list N → Push → N → option Outcome;
}.

Class OutsideLaws `{Outside} : Prop := {
  url_roundtrip bs : Forall is_byte bs → url_decode (url_encode bs) = Some bs;
  mac_length facts : length (mac facts) = MAC_LEN;
  mac_bytes facts : Forall is_byte (mac facts);
}.

Definition host_byte (h : Host) : N := match h with Production => 0 | Sandbox => 1 end.

Section outside.
Context `{Outside}.

(** The bytes a credential vouches for. *)
Definition facts (device : list N) (environment : Host) (expires : N) : list N :=
  device ++ [host_byte environment] ++ be_bytes 8 expires.

(** [Issuer::issue]; the date wraps as in a release build. *)
Definition issue (device : list N) (environment : Host) (now_s : N) : str :=
  let bytes := facts device environment ((now_s + LIFETIME_S) mod 2 ^ 64) in
  url_encode (bytes ++ mac bytes).

(** [Issuer::check]. *)
Definition check (text : str) : option Credential :=
  bytes ← url_decode text;
  if negb (length bytes =? FACTS_LEN + MAC_LEN)%nat then None
  else
    let facts := take FACTS_LEN bytes in
    if negb (bool_decide (mac facts = drop FACTS_LEN bytes)) then None
    else
      let device := take DEVICE_LEN facts in
      let rest := drop DEVICE_LEN facts in
      environment ← match take 1 rest with [0] => Some Production | [1] => Some Sandbox | _ => None end;
      Some (MkCredential device environment (be_val (drop 1 rest))).

(** [valid_id]. *)
Definition valid_id (id : str) : bool :=
  (str_len id =? ID_LEN) && forallb (λ b, is_ascii_digit b || ((97 <=? b) && (b <=? 102))) (as_bytes id).

Definition Keyring := list (str * Key).

(** [Keyring::open]. *)
Definition open (keys : Keyring) (text : str) : option Handle :=
  if MAX_HANDLE <? str_len text then None
  else
    '(key_id, sealed) ← Schedule.split_once 46 text;
    '(_, key) ← find (λ k, bool_decide (k.1 = key_id)) keys;
    sealed ← url_decode sealed;
    opened ← seal_open key sealed;
    handle ← handle_json opened;
    if valid_id (handle_id handle) then Some handle else None.
End outside.

(** *** Credentials are exactly what the relay issued *)

Section credentials.
Context `{OutsideLaws}.

Lemma facts_length device env e : length device = DEVICE_LEN → length (facts device env e) = FACTS_LEN.
Proof. intros Hd. unfold facts. rewrite !length_app, length_be_bytes, Hd. done. Qed.

Lemma facts_bytes device env e : Forall is_byte device → Forall is_byte (facts device env e).
Proof.
  intros Hd. unfold facts. apply Forall_app_2; [done|]. apply Forall_app_2.
  - constructor; [|done]. by destruct env.
  - unfold be_bytes. apply Forall_reverse, le_bytes_byte.
Qed.

(** The three parts of a credential's facts. *)
Lemma facts_parts device env e :
  length device = DEVICE_LEN →
  take DEVICE_LEN (facts device env e) = device ∧
  take 1 (drop DEVICE_LEN (facts device env e)) = [host_byte env] ∧
  drop 1 (drop DEVICE_LEN (facts device env e)) = be_bytes 8 e.
Proof.
  intros Hd. unfold facts. rewrite (drop_app_length' device) by done. rewrite (take_app_length' device) by done. done.
Qed.

Lemma check_signed device env e text :
  length device = DEVICE_LEN → e ≤ u64_max →
  url_decode text = Some (facts device env e ++ mac (facts device env e)) →
  check text = Some (MkCredential device env e).
Proof.
  intros Hd He Ht. pose proof (facts_length device env e Hd) as Hf. unfold check. rewrite Ht. cbn [mbind option_bind].
  rewrite length_app, mac_length, Hf, Nat.eqb_refl. cbn [negb].
  rewrite take_app_length', drop_app_length' by done. rewrite bool_decide_true by done. cbn [negb].
  destruct (facts_parts device env e Hd) as (-> & -> & ->). rewrite be_val_bytes.
  2: { change (256 ^ N.of_nat 8) with 18446744073709551616. unfold u64_max in He. lia. }
  by destruct env.
Qed.

(** A credential the relay issued reads back as the device, the
    environment and the date thirty days on. And only those read: bytes that
    pass the check are the facts they give, followed by the relay's own code of
    exactly these facts. *)
Theorem credential_exact (text : str) (bytes : list N) (c : Credential) (id : list N) (env : Host) (now_s : N) :
  length id = DEVICE_LEN → Forall is_byte id → now_s + LIFETIME_S ≤ u64_max →
  check (issue id env now_s) = Some (MkCredential id env (now_s + LIFETIME_S)) ∧
  (url_decode text = Some bytes → Forall is_byte bytes → check text = Some c →
   let f := facts (device c) (environment c) (expires_s c) in bytes = f ++ mac f).
Proof.
  intros Hid Hb Hnow. split.
  { unfold issue. rewrite N.mod_small by (unfold u64_max in Hnow; lia). apply check_signed; [done..|].
    apply url_roundtrip, Forall_app_2; [by apply facts_bytes|apply mac_bytes]. }
  intros Hdec Hbytes. unfold check. rewrite Hdec. cbn [mbind option_bind].
  destruct (Nat.eqb_spec (length bytes) (FACTS_LEN + MAC_LEN)) as [Hlen|]; [|done]. cbn [negb].
  set (f := take FACTS_LEN bytes). destruct (bool_decide_reflect (mac f = drop FACTS_LEN bytes)) as [Hmac|]; [|done].
  cbn [negb]. set (rest := drop DEVICE_LEN f).
  assert (length f = FACTS_LEN) as Hf by (subst f; rewrite length_take; unfold FACTS_LEN, MAC_LEN in *; lia).
  assert (length rest = 9%nat) as Hr by (subst rest; rewrite length_drop, Hf; done).
  assert (Forall is_byte (drop 1 rest)) as Hrb by (subst rest f; by repeat first [apply Forall_drop|apply Forall_take]).
  assert (be_bytes 8 (be_val (drop 1 rest)) = drop 1 rest) as Hbe.
  { unfold be_bytes, be_val. replace 8%nat with (length (reverse (drop 1 rest))) by (rewrite length_reverse, length_drop, Hr; done).
    rewrite le_bytes_val by (by apply Forall_reverse). apply reverse_involutive. }
  destruct (match take 1 rest with [0] => Some Production | [1] => Some Sandbox | _ => None end) as [e|] eqn:Ee; [|done].
  cbn [mbind option_bind]. intros E.
  assert (c = MkCredential (take DEVICE_LEN f) e (be_val (drop 1 rest))) as -> by congruence. cbn [device environment expires_s].
  assert (take 1 rest = [host_byte e]) as He1.
  { destruct rest as [|b rest0]; [done|]. simpl in Ee |- *. rewrite take_0 in *.
    destruct b as [|[?|?|]]; try done; by injection Ee as <-. }
  assert (facts (take DEVICE_LEN f) e (be_val (drop 1 rest)) = f) as ->.
  { unfold facts. rewrite Hbe, <-He1, app_assoc, <-app_assoc, (take_drop 1 rest). apply take_drop. }
  rewrite Hmac. subst f. by rewrite take_drop.
Qed.
End credentials.

(** ** Revocations *)

Inductive Revoked := RevokedDevice (device : list N) | RevokedHandle (id : str).

#[export] Instance Revoked_eq_dec : EqDecision Revoked.
Proof. solve_decision. Defined.

Definition hex_digit (n : N) : N := if n <? 10 then 48 + n else 87 + n.
Definition hex2 (b : N) : str := [hex_digit (b / 16); hex_digit (b mod 16)].

(** [Revoked::key]. *)
Definition key (w : Revoked) : str :=
  match w with
  | RevokedDevice device => lit "device:" ++ (device ≫= hex2)
  | RevokedHandle id => lit "handle:" ++ id
  end.

(** The trait [Store]; an error leaves the answer unknown. *)
Class Store (S : Type) := {
  store_revoke : S → Revoked → N → S * bool;
  store_is_revoked : S → list N → str → option bool;
  store_purge : S → N → S * option N;
}.

(** What a store promises: [until s w] is the date [w] is revoked until. *)
Class StoreLaws (S : Type) `{Store S} := {
  until : S → Revoked → option N;
  is_revoked_until s device id b :
    store_is_revoked s device id = Some b →
    b = bool_decide (is_Some (until s (RevokedDevice device)) ∨ is_Some (until s (RevokedHandle id)));
  revoke_until s s' w u :
    store_revoke s w u = (s', true) → until s' w = Some (N.max u (default 0 (until s w)));
  revoke_others s s' w u b w' :
    store_revoke s w u = (s', b) → w' ≠ w ∨ b = false → until s' w' = until s w';
  (** Only what has expired goes, and that only when the purge succeeds. *)
  purge_until s s' now r w u :
    store_purge s now = (s', r) → until s w = Some u → now < u → until s' w = Some u;
}.

(** *** In memory *)

Definition MAX_MEMORY : N := 1048576.

Definition Memory := gmap str N.

Definition memory_revoke (m : Memory) (what : Revoked) (until_s : N) : Memory * bool :=
  let key := key what in
  if (MAX_MEMORY <=? N.of_nat (size m)) && negb (bool_decide (is_Some (m !! key))) then (m, false)
  else (<[key := N.max until_s (default 0 (m !! key))]> m, true).

Definition memory_is_revoked (m : Memory) (device : list N) (handle : str) : option bool :=
  Some (bool_decide (is_Some (m !! key (RevokedDevice device))) || bool_decide (is_Some (m !! key (RevokedHandle handle)))).

Definition memory_purge (m : Memory) (now_s : N) : Memory * option N :=
  let kept := filter (λ '(_, until_s), now_s < until_s) m in
  (kept, Some (N.of_nat (size m - size kept))).

#[export] Instance memory_store : Store Memory := {
  store_revoke := memory_revoke; store_is_revoked := memory_is_revoked; store_purge := memory_purge }.

Lemma hex_digit_inj a b : hex_digit a = hex_digit b → a = b.
Proof. unfold hex_digit. destruct (N.ltb_spec a 10), (N.ltb_spec b 10); lia. Qed.

Lemma hex2_inj a b : hex2 a = hex2 b → a = b.
Proof.
  unfold hex2. intros E. injection E as H1 H2. apply hex_digit_inj in H1, H2.
  rewrite (N.div_mod a 16), (N.div_mod b 16) by lia. congruence.
Qed.

(** Devices and handles share the table without a clash. *)
Lemma key_inj w w' : key w = key w' → w = w'.
Proof.
  destruct w as [d|h], w' as [d'|h']; unfold key; try done; intros E.
  - apply (app_inv_head (lit "device:")) in E. f_equal. revert d' E.
    induction d as [|a d IH]; intros [|b d']; try done.
    intros E. change (hex2 a ++ (d ≫= hex2) = hex2 b ++ (d' ≫= hex2)) in E.
    apply (app_inj_1 (hex2 a) (hex2 b)) in E as [Ha Hd]; [|done]. f_equal; [by apply hex2_inj|by apply IH].
  - apply (app_inv_head (lit "handle:")) in E. by f_equal.
Qed.

#[export] Program Instance memory_laws : StoreLaws Memory := {| until m w := m !! key w |}.
Next Obligation.
  intros m d id b E. injection E as <-. apply Bool.eq_iff_eq_true. rewrite orb_true_iff, !bool_decide_eq_true. done.
Qed.
Next Obligation.
  intros m m' w u. cbn [store_revoke memory_store]. unfold memory_revoke. destruct (_ && _); [done|].
  intros E. injection E as <-. apply lookup_insert_eq.
Qed.
Next Obligation.
  intros m m' w u b w'. cbn [store_revoke memory_store]. unfold memory_revoke. destruct (_ && _).
  - intros E _. by injection E as <- _.
  - intros E [Hne|Hb]; [|congruence]. injection E as <- _. apply lookup_insert_ne.
    intros Hk. by apply key_inj in Hk.
Qed.
Next Obligation.
  intros m m' now r w u. cbn [store_purge memory_store]. intros E Hu Hlt. injection E as <- _.
  apply map_lookup_filter_Some. done.
Qed.

(** ** The relay *)

(** [IpAddr], as its bits. *)
Inductive IpAddr := V4 (bits : N) | V6 (bits : N).

#[export] Instance IpAddr_eq_dec : EqDecision IpAddr.
Proof. solve_decision. Defined.
#[export] Program Instance IpAddr_countable : Countable IpAddr :=
  inj_countable' (λ a, match a with V4 b => inl b | V6 b => inr b end)
    (λ s, match s with inl b => V4 b | inr b => V6 b end) _.
Next Obligation. by intros []. Qed.

(** [to_canonical]: an IPv4-mapped address is its IPv4 address. *)
Definition to_canonical (a : IpAddr) : IpAddr :=
  match a with
  | V6 bits => if N.shiftr bits 32 =? 65535 then V4 (N.land bits u32_max) else V6 bits
  | V4 bits => V4 bits
  end.

(** [source_key]: an IPv6 address keeps its first 64 bits. *)
Definition source_key (a : IpAddr) : IpAddr :=
  match to_canonical a with
  | V6 bits => V6 (N.ldiff bits u64_max)
  | a => a
  end.

Inductive Reply :=
| Delivered | Expired | Gone | Invalid | Limited | Refused | RevokedReply | Unavailable.

Record PushRequest := MkPushRequest {
  req_collapse_id : option str;
  req_handle : str;
  req_payload : str;
  req_priority : Priority;
  req_push_type : PushType }.

Record Limits := MkLimits {
  device_limit : Limiter (list N);
  handle_limit : Limiter str;
  revoke_limit : Limiter (list N);
  source_limit : Limiter IpAddr }.

Definition MAX_COLLAPSE_ID : N := 64.
Definition MAX_PAYLOAD : N := 4096.

Section relay.
Context `{Outside} {S : Type} `{Store S}.

Record Relay := MkRelay {
  relay_environment : Host;
  keys : Keyring;
  limits : Limits;
  store : S }.

Definition relay_new (environment : Host) (keys : Keyring) (store : S) (rates : Rates) : Relay :=
  MkRelay environment keys
    (MkLimits (limiter_new (device_rate rates)) (limiter_new (handle_rate rates))
       (limiter_new (revoke_rate rates)) (limiter_new (source_rate rates))) store.

Definition with_limits (r : Relay) (l : Limits) : Relay := MkRelay (relay_environment r) (keys r) l (store r).
Definition with_store (r : Relay) (s : S) : Relay := MkRelay (relay_environment r) (keys r) (limits r) s.

Definition source_allowed (r : Relay) (source : IpAddr) (now_ms : N) : Relay * bool :=
  let l := limits r in
  let '(source_limit, ok) := allow (source_limit l) (source_key source) now_ms in
  (with_limits r (MkLimits (device_limit l) (handle_limit l) (revoke_limit l) source_limit), ok).

Definition opened (r : Relay) (text : str) : option (Handle * Credential) :=
  handle ← open (keys r) text;
  c ← check (credential handle);
  if bool_decide (environment c = relay_environment r) then Some (handle, c) else None.

(** The limits of a push: the device's, then the handle's. *)
Definition push_limits (l : Limits) (device : list N) (id : str) (now_ms : N) : Limits * bool :=
  let '(d, ok) := allow (device_limit l) device now_ms in
  let l := MkLimits d (handle_limit l) (revoke_limit l) (source_limit l) in
  if ok then
    let '(h, ok) := allow (handle_limit l) id now_ms in
    (MkLimits d h (revoke_limit l) (source_limit l), ok)
  else (l, false).

(** The limits of a revocation: the device's twice. *)
Definition revoke_limits (l : Limits) (device : list N) (now_ms : N) : Limits * bool :=
  let '(d, ok) := allow (device_limit l) device now_ms in
  let l := MkLimits d (handle_limit l) (revoke_limit l) (source_limit l) in
  if ok then
    let '(v, ok) := allow (revoke_limit l) device now_ms in
    (MkLimits d (handle_limit l) v (source_limit l), ok)
  else (l, false).

Definition valid_payload (payload : str) : bool := (str_len payload <=? MAX_PAYLOAD) && json_object payload.

Definition valid_collapse_id (id : option str) : bool :=
  match id with
  | None => true
  | Some id => (1 <=? str_len id) && (str_len id <=? MAX_COLLAPSE_ID) && forallb is_ascii_graphic (as_bytes id)
  end.

Definition reply (o : Outcome) : Reply :=
  match o with
  | Out_Delivered => Delivered
  | Out_Gone => Gone
  | Out_RateLimited => Limited
  | Out_Rejected _ status => if (status =? 403) || (500 <=? status) then Unavailable else Refused
  end.

(** [Relay::push]: the relay afterwards, the reply, and the push handed to the
    gateway, if any. *)
Definition push (r : Relay) (source : IpAddr) (request : PushRequest) (now_ms : N)
    : Relay * Reply * option (list N * Push) :=
  let '(r, ok) := source_allowed r source now_ms in
  if negb ok then (r, Limited, None)
  else
    match opened r (req_handle request) with
    | None => (r, Refused, None)
    | Some (handle, c) =>
        let now_s := now_ms / 1000 in
        if expires_s c <=? now_s then (r, Expired, None)
        else
          match store_is_revoked (store r) (device c) (handle_id handle) with
          | None => (r, Unavailable, None)
          | Some true => (r, Gone, None)
          | Some false =>
              if negb (allows (handle_kind handle) (req_push_type request)) then (r, Refused, None)
              else if negb (valid_payload (req_payload request)) || negb (valid_collapse_id (req_collapse_id request))
              then (r, Invalid, None)
              else
                let '(l, ok) := push_limits (limits r) (device c) (handle_id handle) now_ms in
                let r := with_limits r l in
                if negb ok then (r, Limited, None)
                else
                  let p := MkPush (as_bytes (req_payload request)) (req_collapse_id request)
                             (req_priority request) (req_push_type request) in
                  match post (token handle) p now_s with
                  | Some outcome => (r, reply outcome, Some (token handle, p))
                  | None => (r, Unavailable, Some (token handle, p))
                  end
          end
    end.

(** [Relay::revoke]. *)
Definition revoke (r : Relay) (source : IpAddr) (handle : str) (now_ms : N) : Relay * Reply :=
  let '(r, ok) := source_allowed r source now_ms in
  if negb ok then (r, Limited)
  else
    match opened r handle with
    | None => (r, Refused)
    | Some (handle, c) =>
        if expires_s c <=? now_ms / 1000 then (r, RevokedReply)
        else
          let '(l, ok) := revoke_limits (limits r) (device c) now_ms in
          let r := with_limits r l in
          if negb ok then (r, Limited)
          else
            let '(s, ok) := store_revoke (store r) (RevokedHandle (handle_id handle)) (expires_s c) in
            (with_store r s, if ok then RevokedReply else Unavailable)
    end.

(** The task that purges the store. *)
Definition purge (r : Relay) (now_ms : N) : Relay :=
  with_store r (store_purge (store r) (now_ms / 1000)).1.

(** Everything that happens to a relay. *)
Inductive Op :=
| OpPush (source : IpAddr) (request : PushRequest)
| OpRevoke (source : IpAddr) (handle : str)
| OpPurge.

(** What an operation leaves and, for a push that reached the gateway, the
    handle it was sent with. *)
Definition serve (r : Relay) (op : Op) (now_ms : N) : Relay * option str :=
  match op with
  | OpPush source request =>
      let '(r, _, posted) := push r source request now_ms in
      (r, if bool_decide (is_Some posted) then Some (req_handle request) else None)
  | OpRevoke source handle => ((revoke r source handle now_ms).1, None)
  | OpPurge => (purge r now_ms, None)
  end.

Fixpoint serve_all (r : Relay) (ops : list (Op * N)) : Relay * list (option str) :=
  match ops with
  | [] => (r, [])
  | (op, now_ms) :: ops =>
      let '(r, sent) := serve r op now_ms in
      let '(r, rest) := serve_all r ops in
      (r, sent :: rest)
  end.

(** The clock does not go back from [start]. *)
Fixpoint clock_from (start : N) (ops : list (Op * N)) : Prop :=
  match ops with
  | [] => True
  | (_, now) :: ops => start ≤ now ∧ clock_from now ops
  end.

(** ** Revoked handles *)

Context `{!StoreLaws S}.

Lemma source_allowed_keeps r source now :
  keys (source_allowed r source now).1 = keys r ∧
  relay_environment (source_allowed r source now).1 = relay_environment r ∧
  store (source_allowed r source now).1 = store r.
Proof. unfold source_allowed. by destruct (allow _ _ _). Qed.

Lemma opened_keeps r r' text :
  keys r' = keys r → relay_environment r' = relay_environment r → opened r' text = opened r text.
Proof. unfold opened. by intros -> ->. Qed.

(** A handle that can no longer send: it opens to nothing, its credential has
    expired, or it is revoked until then. *)
Definition dead (r : Relay) (text : str) (now_ms : N) : Prop :=
  match opened r text with
  | None => True
  | Some (h, c) =>
      expires_s c ≤ now_ms / 1000 ∨
      ∃ u, until (store r) (RevokedHandle (handle_id h)) = Some u ∧ expires_s c ≤ u
  end.

Lemma dead_later r text now later : now ≤ later → dead r text now → dead r text later.
Proof.
  unfold dead. intros Hle. destruct (opened r text) as [[h c]|]; [|done]. intros [Hx|Hu]; [left|by right].
  etrans; [exact Hx|]. apply N.Div0.div_le_mono. done.
Qed.

(** Operations that keep the handle keys and the revocations keep it dead. *)
Lemma dead_keeps r r' text now :
  keys r' = keys r → relay_environment r' = relay_environment r →
  (∀ w u, until (store r) w = Some u → now / 1000 < u → ∃ u', until (store r') w = Some u' ∧ u ≤ u') →
  dead r text now → dead r' text now.
Proof.
  intros Hk He Hu. unfold dead. rewrite (opened_keeps r r') by done.
  destruct (opened r text) as [[h c]|]; [|done]. intros [Hx|(u & Hr & Hle)]; [by left|].
  destruct (N.lt_ge_cases (now / 1000) u) as [Hlt|Hge]; [|left; lia].
  destruct (Hu _ _ Hr Hlt) as (u' & Hr' & Hle'). right. exists u'. split; [done|lia].
Qed.

Lemma push_keeps r source request now :
  let r' := (push r source request now).1.1 in
  keys r' = keys r ∧ relay_environment r' = relay_environment r ∧ store r' = store r.
Proof.
  unfold push. pose proof (source_allowed_keeps r source now) as Hs.
  destruct (source_allowed r source now) as [r1 ok]. simpl in Hs. destruct Hs as (<- & <- & <-).
  destruct ok; [|done]. cbn [negb]. destruct (opened r1 _) as [[h c]|]; [|done].
  destruct (_ <=? _); [done|]. destruct (store_is_revoked _ _ _) as [[]|]; [done| |done].
  destruct (negb _); [done|]. destruct (_ || _); [done|].
  destruct (push_limits _ _ _ _) as [l []]; [|done]. cbn [negb]. by destruct (post _ _ _).
Qed.

(** The whole of a dead handle's push: nothing is posted. *)
Lemma push_dead r source request now :
  dead r (req_handle request) now → (push r source request now).2 = None.
Proof.
  intros Hd. unfold push. pose proof (source_allowed_keeps r source now) as Hs.
  destruct (source_allowed r source now) as [r1 ok]. simpl in Hs. destruct Hs as (Hk & He & Hst).
  destruct ok; [|done]. cbn [negb]. unfold dead in Hd. rewrite <-(opened_keeps r r1) in Hd by done.
  destruct (opened r1 _) as [[h c]|]; [|done].
  destruct (N.leb_spec (expires_s c) (now / 1000)); [done|].
  destruct Hd as [?|(u & Hu & _)]; [lia|]. rewrite <-Hst in Hu.
  destruct (store_is_revoked _ _ _) as [b|] eqn:Eb; [|done].
  apply is_revoked_until in Eb as ->. rewrite bool_decide_true; [done|]. right. eauto.
Qed.

Lemma revoke_keeps r source text now :
  let r' := (revoke r source text now).1 in
  keys r' = keys r ∧ relay_environment r' = relay_environment r ∧
  ∀ w u, until (store r) w = Some u → ∃ u', until (store r') w = Some u' ∧ u ≤ u'.
Proof.
  assert (∀ s w u, until s w = Some u → ∃ u', until s w = Some u' ∧ u ≤ u') as Hsame by (intros; eauto with lia).
  unfold revoke. pose proof (source_allowed_keeps r source now) as Hs.
  destruct (source_allowed r source now) as [r1 ok]. simpl in Hs. destruct Hs as (<- & <- & <-).
  destruct ok; [|by auto]. cbn [negb]. destruct (opened r1 _) as [[h c]|]; [|by auto].
  destruct (_ <=? _); [by auto|]. destruct (revoke_limits _ _ _) as [l []]; [|by auto]. cbn [negb with_limits store].
  destruct (store_revoke _ _ _) as [s b] eqn:Es. split; [done|]. split; [done|]. cbn [with_store store fst].
  intros w u Hu. destruct b.
  - destruct (decide (w = RevokedHandle (handle_id h))) as [->|Hne].
    + apply revoke_until in Es. rewrite Hu in Es. cbn in Es. eexists. split; [exact Es|lia].
    + rewrite (revoke_others _ _ _ _ _ w Es) by auto. eauto with lia.
  - rewrite (revoke_others _ _ _ _ _ w Es) by auto. eauto with lia.
Qed.

Lemma revoke_kills r source text now r' :
  revoke r source text now = (r', RevokedReply) → dead r' text now.
Proof.
  intros Er. pose proof (revoke_keeps r source text now) as (Hk & He & _). rewrite Er in Hk, He. simpl in Hk, He.
  unfold dead. rewrite (opened_keeps r r') by done. revert Er. unfold revoke.
  pose proof (source_allowed_keeps r source now) as Hs.
  destruct (source_allowed r source now) as [r1 ok]. simpl in Hs. destruct Hs as (Hk1 & He1 & _).
  destruct ok; [|done]. cbn [negb]. rewrite (opened_keeps r r1) by done.
  destruct (opened r text) as [[h c]|]; [|done].
  destruct (N.leb_spec (expires_s c) (now / 1000)); [by left|].
  destruct (revoke_limits _ _ _) as [l []]; [|done]. cbn [negb with_limits store].
  destruct (store_revoke _ _ _) as [s []] eqn:Es; [|done]. intros E.
  assert (store r' = s) as -> by (injection E as <-; done).
  right. apply revoke_until in Es. eexists. split; [exact Es|lia].
Qed.

Lemma serve_dead r op text now :
  dead r text now → dead (serve r op now).1 text now ∧ (serve r op now).2 ≠ Some text.
Proof.
  intros Hd. destruct op as [source request|source h|]; cbn [serve].
  - pose proof (push_keeps r source request now) as (Hk & He & Hs).
    pose proof (push_dead r source request now) as Hp.
    destruct (push r source request now) as [[r' rep] posted]. simpl in *. split.
    + apply (dead_keeps r); [done..| |done]. rewrite Hs. eauto with lia.
    + destruct (bool_decide_reflect (is_Some posted)) as [[x Hx]|]; [|done]. intros E.
      assert (req_handle request = text) as Et by congruence. rewrite Et in Hp. specialize (Hp Hd). congruence.
  - pose proof (revoke_keeps r source h now) as (Hk & He & Hs). split; [|done]. apply (dead_keeps r); auto.
  - split; [|done]. apply (dead_keeps r); [done..| |done]. intros w u Hu Hlt. cbn [purge with_store store fst].
    destruct (store_purge (store r) (now / 1000)) as [s' x] eqn:Ep. simpl.
    rewrite (purge_until _ _ _ _ _ _ Ep Hu) by done. eauto with lia.
Qed.

Lemma serve_all_dead ops r text start :
  dead r text start → clock_from start ops → Some text ∉ (serve_all r ops).2.
Proof.
  revert r start. induction ops as [|[op now] ops IH]; intros r start Hd; cbn [serve_all]; [set_solver|].
  intros [Hle Hc]. apply (dead_later _ _ _ _ Hle) in Hd. pose proof (serve_dead r op text now Hd) as [Hd' Hn].
  destruct (serve r op now) as [r1 sent]. simpl in *. specialize (IH r1 now Hd' Hc).
  destruct (serve_all r1 ops) as [r2 rest]. simpl in *. set_solver.
Qed.

(** C23: Once a revocation is answered with success, no later push with
    that handle reaches APNs, whatever pushes, revocations and purges come in
    between and whether or not the store can be read: the record outlives the
    credential. *)
Theorem revoked_stays_dead (r r' : Relay) (source : IpAddr) (text : str) (now : N) (ops : list (Op * N)) :
  revoke r source text now = (r', RevokedReply) → clock_from now ops →
  Some text ∉ (serve_all r' ops).2.
Proof. intros Hr. apply serve_all_dead. by eapply revoke_kills. Qed.
End relay.
Arguments Relay {_} S.

(** ** A relay whose seals are open, for the witnesses *)

Definition toy_mac (facts : list N) : list N := replicate MAC_LEN (foldr N.add 0 facts mod 256).
Definition toy_device : list N := replicate 16 9.
Definition toy_facts : list N := facts toy_device Production LIFETIME_S.
Definition toy_handle : Handle := MkHandle (toy_facts ++ toy_mac toy_facts) (replicate 32 97) Alert [1; 2; 3].

#[export] Instance toy_outside : Outside := {|
  Key := unit; seal_open := λ _ bs, Some bs; handle_json := λ _, Some toy_handle;
  url_encode := id; url_decode := Some; mac := toy_mac; json_object := λ _, true;
  post := λ _ _ _, Some Out_Delivered |}.

Lemma toy_laws : @OutsideLaws toy_outside.
Proof.
  split; [done|..]; intros facts; change (mac facts) with (toy_mac facts); unfold toy_mac; [by rewrite length_replicate|].
  apply Forall_replicate. unfold is_byte. apply N.mod_lt. done.
Qed.

Lemma credential_exact_witness :
  check (issue toy_device Sandbox 1000) = Some (MkCredential toy_device Sandbox (1000 + LIFETIME_S)).
Proof.
  apply (credential_exact (H0 := toy_laws) [] [] (MkCredential [] Production 0) toy_device Sandbox 1000);
    [reflexivity| |by vm_compute].
  repeat constructor.
Defined.

Definition toy_relay : Relay Memory := relay_new Production [(lit "k", tt)] (∅ : Memory) rates_default.
Definition toy_request : PushRequest := MkPushRequest None (lit "k.x") (lit "{}") High Push_Alert.

Lemma pair_by_snd {A B} (p : A * B) (b : B) : p.2 = b → p = (p.1, b).
Proof. destruct p. simpl. by intros ->. Qed.

(** Before the revocation the push is delivered; after it, and after a purge,
    it is not. *)
Lemma revoked_stays_dead_witness :
  (push toy_relay (V4 1) toy_request 500).1.2 = Delivered ∧
  Some (lit "k.x") ∉
    (serve_all (revoke toy_relay (V4 1) (lit "k.x") 1000).1
       [(OpPush (V4 1) toy_request, 2000); (OpPurge, 3000); (OpPush (V4 1) toy_request, 4000)]).2.
Proof.
  split; [by vm_compute|].
  assert (∃ r', revoke toy_relay (V4 1) (lit "k.x") 1000 = (r', RevokedReply)) as [r' Hr].
  { eexists. apply pair_by_snd. by vm_compute. }
  rewrite Hr. cbn [fst]. refine (revoked_stays_dead (S := Memory) toy_relay r' (V4 1) (lit "k.x") 1000 _ Hr _). simpl. lia.
Defined.
End Relay.
