(* ===== verification/Devices.v ===== *)
(** * Devices: phones paired with the daemon
    (crates/sheprd-remote-control/src/auth.rs, auth/devices.rs, auth/limits.rs,
    control/hosts.rs)

    The errors, the keys and codes, the store of paired devices with its file,
    and the limits per address. Randomness and what the disk answers are
    arguments of the operations that use them; the file is a field beside the
    store's memory. An error keeps its constructor and drops the text of its
    cause. *)

From Stdlib Require Import NArith Lia.
From stdpp Require Import base option gmap strings sets list sorting.
From S2P Require Import Prelude.

Local Open Scope N_scope.

Module Devices.

(** ** Errors *)

Inductive StoreOperation := CreateDirectory | CreateTemporary | Read | Replace | Sync | Write.

Inductive LinkError := Busy | InvalidHost | InvalidOutcome | NotPairing | TooMany | UnknownHost.

Inductive Error :=
| AlreadyClaimed | CodeMismatch | Encode | ExpiredToken | InvalidKey | InvalidName | InvalidSignature
| InvalidToken | Links (e : LinkError) | NearbyBusy | NearbyCrypto | NearbyExhausted | NoAddress
| NoPairing | NotClaimed | Random | RateLimited | Store (operation : StoreOperation) | StoreFormat
| UnknownChallenge | UnknownClaim | UnknownDevice | UnknownNearby | UnknownPairing | UnknownPresence.

#[export] Instance StoreOperation_eq_dec : EqDecision StoreOperation.
Proof. solve_decision. Defined.
#[export] Instance LinkError_eq_dec : EqDecision LinkError.
Proof. solve_decision. Defined.
#[export] Instance Error_eq_dec : EqDecision Error.
Proof. solve_decision. Defined.

(** What the desktop is told of an error: [From<&Error> for ErrorCode]. *)
Inductive ErrorCode := Code_UnknownPairing | Code_UnknownDevice | Code_NotClaimed | Code_NoPairing | Code_Unsaved | Code_Other.

Definition error_code (e : Error) : ErrorCode :=
  match e with
  | UnknownPairing => Code_UnknownPairing
  | UnknownDevice => Code_UnknownDevice
  | NotClaimed => Code_NotClaimed
  | NoPairing => Code_NoPairing
  | Encode | Store _ => Code_Unsaved
  | _ => Code_Other
  end.

(** ** Third-party primitives *)

Class Primitives := {
  (** base64, URL-safe and without padding: [encode], [encoded_len], and
      [decode_slice] into a buffer of so many bytes. *)
  url_encode : list N → str;
  encoded_len : nat → N;
  decode_slice : nat → str → option (list N);
  (** SHA-256 of the parts in a row. *)
  sha256 : list N → list N;
  (** P-256: whether bytes are a point, whether bytes are a signature, and the
      check of a signature over a message. *)
  sec1_point : list N → bool;
  signature_from_slice : list N → bool;
  ecdsa_verify : list N → list N → list N → bool;
}.

Class PrimitivesLaws `{Primitives} : Prop := {
  decode_encode bs : Forall is_byte bs → decode_slice (length bs) (url_encode bs) = Some bs;
  encode_len bs : Forall is_byte bs → str_len (url_encode bs) = encoded_len (length bs);
  sha256_length bs : length (sha256 bs) = 32%nat;
}.

Definition PUBLIC_KEY_LEN : nat := 65.
Definition SECRET_LEN : nat := 32.

(** What the system's randomness answers; [None] when it fails. *)
Definition Draw := option (list N).

Definition random_bytes (d : Draw) : res Error (list N) := ok_or Random d.

Section codes.
Context `{Primitives}.

Definition decode_fixed (n : nat) (encoded : str) : option (list N) :=
  if negb (str_len encoded =? encoded_len n) then None
  else
    match decode_slice n encoded with
    | Some bytes => if (length bytes =? n)%nat then Some bytes else None
    | None => None
    end.

Definition random_id (d : Draw) : res Error str := bytes ← random_bytes d; Ok (url_encode bytes).

(** [PublicKey::parse]; a key is its bytes. *)
Definition PublicKey := list N.

Definition key_parse (encoded : str) : res Error PublicKey :=
  match decode_fixed PUBLIC_KEY_LEN encoded with
  | None => Err InvalidKey
  | Some bytes =>
      if negb (bool_decide (head bytes = Some 4)) then Err InvalidKey
      else if negb (sec1_point bytes) then Err InvalidKey
      else Ok bytes
  end.

(** [PublicKey::verifying_key]. *)
Definition verifying_key (k : PublicKey) : res Error PublicKey :=
  if sec1_point k then Ok k else Err InvalidKey.
End codes.

(** [device_name]. *)
Definition device_name (name : str) : res Error str :=
  let name := trim name in
  let length := lenN name in
  if negb ((1 <=? length) && (length <=? 64)) || existsb is_control name then Err InvalidName
  else Ok name.

(** [constant_time_eq]: a fold of the differences, byte by byte. *)
Definition constant_time_eq (left right : list N) : bool :=
  if negb (length left =? length right)%nat then false
  else foldl (λ difference '(l, r), N.lor difference (N.lxor l r)) 0 (zip left right) =? 0.

(** ** Hosts (control/hosts.rs) *)

Definition MAX_HOSTS : N := 256.
Definition MAX_HOST_TEXT : N := 256.
Definition MAX_REASON : nat := 512.
Definition MAX_ORIGINS : N := 32.

Definition DeviceId := str.
Definition HostId := str.

Record Host := MkHost { host_id : HostId; host_name : str }.

Definition text (value : str) : bool :=
  negb (bool_decide (value = [])) && (str_len value <=? MAX_HOST_TEXT) && negb (existsb is_control value).

Definition host_valid (h : Host) : bool := text (host_id h) && text (host_name h).

Record Enrolled := MkEnrolled {
  enrolled_device : DeviceId; computer : str; enrolled_fingerprint : str; origins : list str }.

Definition enrolled_valid (e : Enrolled) : bool :=
  text (enrolled_device e) && text (computer e) && text (enrolled_fingerprint e)
  && (lenN (origins e) <=? MAX_ORIGINS) && forallb text (origins e).

Inductive HostState :=
| Offered | Allowed | Asking | Pending | PairedState (e : Enrolled) | FailedState (reason : str).

Record HostLink := MkHostLink { link_host_id : HostId; link_host_name : str; link_state : HostState }.

Record HostPairing := MkHostPairing {
  hp_device : DeviceId; hp_host : HostId; hp_name : str; hp_public_key : str; hp_confirm : bool;
  hp_replace : option DeviceId }.

Record Enroll := MkEnroll {
  enroll_name : str; enroll_public_key : str; enroll_via : str; enroll_replace : option DeviceId }.

Inductive HostOutcome := PairedOutcome (e : Enrolled) | FailedOutcome (reason : str) | DeniedOutcome.

Record HostRevoke := MkHostRevoke { revoke_host : HostId; revoke_device : DeviceId }.
#[export] Instance HostRevoke_eq_dec : EqDecision HostRevoke.
Proof. solve_decision. Defined.

(** A host the desktop allowed for a device (auth/links.rs). *)
Record Link := MkLink { link_host : HostId; link_name : str; paired : option Enrolled }.

(** ** The store *)

(** A JSON value the store does not look into, as its text. *)
Definition Json := str.

Record DeviceRecord := MkDeviceRecord {
  record_app : option str;
  record_id : DeviceId;
  record_name : str;
  public_key : PublicKey;
  created_ms : N;
  last_seen_ms : option N;
  push : option Json;
  apns : option Json;
  via : option str;
  links : list Link }.

Record NewDevice := MkNewDevice { app : option str; new_id : DeviceId; new_name : str; new_key : PublicKey }.

(** A device as the desktop lists it (control.rs). *)
Record Device := MkDevice {
  dev_id : DeviceId; dev_name : str; dev_created_ms : N; dev_last_seen_ms : option N; dev_push : bool;
  connected : bool; dev_via : option str; dev_hosts : list HostLink }.

Definition TOUCH_PERSIST_MS : N := 60000.

(** [file] is the device list on disk, [None] before the first write. *)
Record Devices := MkDevices {
  records : list DeviceRecord;
  stored_seen : gmap DeviceId N;
  file : option (list DeviceRecord) }.

Definition with_records (d : Devices) (rs : list DeviceRecord) : Devices := MkDevices rs (stored_seen d) (file d).
Definition with_seen (d : Devices) (seen : gmap DeviceId N) : Devices := MkDevices (records d) seen (file d).
Definition with_file (d : Devices) (f : option (list DeviceRecord)) : Devices := MkDevices (records d) (stored_seen d) f.

(** What the system answers to each step of [write_private]. *)
Record WriteIo := MkWriteIo {
  create_dir : bool; open_temp : bool; write_all : bool; sync_file : bool; rename : bool; sync_dir : bool }.

Definition io_fine : WriteIo := MkWriteIo true true true true true true.

(** [write_private]: whether the file was replaced, and the result. *)
Definition write_private (io : WriteIo) : bool * res Error unit :=
  if negb (create_dir io) then (false, Err (Store CreateDirectory))
  else if negb (open_temp io) then (false, Err (Store CreateTemporary))
  else if negb (write_all io) then (false, Err (Store Write))
  else if negb (sync_file io) then (false, Err (Store Sync))
  else if negb (rename io) then (false, Err (Store Replace))
  else if negb (sync_dir io) then (true, Err (Store Sync))
  else (true, Ok tt).

(** A save: [None] when the list does not encode. *)
Definition Save := option WriteIo.

(** [Devices::save]. *)
Definition save (s : Save) (d : Devices) : Devices * res Error unit :=
  match s with
  | None => (d, Err Encode)
  | Some io =>
      let '(replaced, r) := write_private io in
      (if replaced then with_file d (Some (records d)) else d, r)
  end.

(** [Devices::save_or_undo]. *)
Definition save_or_undo (s : Save) (undo : Devices → Devices) (d : Devices) : Devices * res Error unit :=
  let '(d, r) := save s d in
  match r with
  | Err _ => (undo d, r)
  | Ok _ => (d, r)
  end.

(** [Devices::load] of what the file holds. *)
Inductive ReadIo := NotFound | ReadFailed | BadFormat | Content (devices : list DeviceRecord).

Definition devices_load (io : ReadIo) : res Error Devices :=
  let store rs f :=
    MkDevices rs (list_to_map (omap (λ r, seen ← last_seen_ms r; Some (record_id r, seen)) (reverse rs))) f in
  match io with
  | Content rs => Ok (store rs (Some rs))
  | BadFormat => Err StoreFormat
  | NotFound => Ok (store [] None)
  | ReadFailed => Err (Store Read)
  end.

Definition ids (d : Devices) : list DeviceId := record_id <$> records d.

Definition has_id (id : DeviceId) (r : DeviceRecord) : bool := bool_decide (record_id r = id).

(** [Devices::get]. *)
Definition get (d : Devices) (id : DeviceId) : option DeviceRecord := find (has_id id) (records d).

(** The first record [has] with its change: what [record_mut] gives access to. *)
Fixpoint update_first {A} (has : A → bool) (f : A → A) (l : list A) : option (list A) :=
  match l with
  | [] => None
  | a :: l => if has a then Some (f a :: l) else (a ::.) <$> update_first has f l
  end.

Definition record_mut (d : Devices) (id : DeviceId) (f : DeviceRecord → DeviceRecord) : option Devices :=
  with_records d <$> update_first (has_id id) f (records d).

(** [Devices::add_with]. *)
Definition add_with (d : Devices) (device : NewDevice) (now_ms : N) (via : option str) (links : list Link) (s : Save)
    : Devices * res Error unit :=
  let r := MkDeviceRecord (app device) (new_id device) (new_name device) (new_key device) now_ms None None None via links in
  save_or_undo s (λ d, with_records d (removelast (records d))) (with_records d (records d ++ [r])).

(** The order of [String], and [sort_unstable] with [dedup]. *)
Fixpoint str_leb (a b : str) : bool :=
  match a, b with
  | [], _ => true
  | _ :: _, [] => false
  | x :: a, y :: b => (x <? y) || ((x =? y) && str_leb a b)
  end.

Fixpoint insert_str (x : str) (l : list str) : list str :=
  match l with
  | [] => [x]
  | y :: l => if str_leb x y then x :: y :: l else y :: insert_str x l
  end.

Definition sort_strs (l : list str) : list str := foldr insert_str [] l.

Fixpoint dedup (l : list str) : list str :=
  match l with
  | [] => []
  | x :: l => match dedup l with
              | y :: r => if bool_decide (x = y) then y :: r else x :: y :: r
              | [] => [x]
              end
  end.

(** [Devices::apps]. *)
Definition apps (d : Devices) : list str := dedup (sort_strs (omap record_app (records d))).

(** [Devices::list]. *)
Definition devices_list (d : Devices) (connected : DeviceId → bool) : list Device :=
  (λ r, MkDevice (record_id r) (record_name r) (created_ms r) (last_seen_ms r) (bool_decide (is_Some (push r)))
          (connected (record_id r)) (via r) []) <$> records d.

Definition set_links (ls : list Link) (r : DeviceRecord) : DeviceRecord :=
  MkDeviceRecord (record_app r) (record_id r) (record_name r) (public_key r) (created_ms r) (last_seen_ms r)
    (push r) (apns r) (via r) ls.
Definition set_seen (t : option N) (r : DeviceRecord) : DeviceRecord :=
  MkDeviceRecord (record_app r) (record_id r) (record_name r) (public_key r) (created_ms r) t (push r) (apns r) (via r) (links r).
Definition set_key (k : PublicKey) (p : option Json) (r : DeviceRecord) : DeviceRecord :=
  MkDeviceRecord (record_app r) (record_id r) (record_name r) k (created_ms r) (last_seen_ms r) p (apns r) (via r) (links r).
Definition set_push_of (p : option Json) (r : DeviceRecord) : DeviceRecord := set_key (public_key r) p r.
Definition set_apns_of (a : option Json) (r : DeviceRecord) : DeviceRecord :=
  MkDeviceRecord (record_app r) (record_id r) (record_name r) (public_key r) (created_ms r) (last_seen_ms r)
    (push r) a (via r) (links r).

(** An operation that changes one record, saves, and puts [undo] back when the
    save fails. *)
Definition change (d : Devices) (id : DeviceId) (s : Save) (f : DeviceRecord → DeviceRecord)
    (undo : DeviceRecord → DeviceRecord → DeviceRecord) : Devices * res Error unit :=
  match get d id, record_mut d id f with
  | Some old, Some changed => save_or_undo s (λ d, default d (record_mut d id (undo old))) changed
  | _, _ => (d, Err UnknownDevice)
  end.

Definition put_link (link : Link) (ls : list Link) : list Link :=
  default (ls ++ [link]) (update_first (λ known, bool_decide (link_host known = link_host link)) (λ _, link) ls).

(** [Devices::set_link], [rekey], [set_push], [set_apns]. *)
Definition set_link (d : Devices) (id : DeviceId) (link : Link) (s : Save) : Devices * res Error unit :=
  change d id s (λ r, set_links (put_link link (links r)) r) (λ old, set_links (links old)).
Definition rekey (d : Devices) (id : DeviceId) (key : PublicKey) (s : Save) : Devices * res Error unit :=
  change d id s (set_key key None) (λ old, set_key (public_key old) (push old)).
Definition set_push (d : Devices) (id : DeviceId) (p : option Json) (s : Save) : Devices * res Error unit :=
  change d id s (set_push_of p) (λ old, set_push_of (push old)).
Definition set_apns (d : Devices) (id : DeviceId) (a : option Json) (s : Save) : Devices * res Error unit :=
  change d id s (set_apns_of a) (λ old, set_apns_of (apns old)).

(** [Devices::touch]. *)
Definition touch (d : Devices) (id : DeviceId) (now_ms : N) (s : Save) : Devices * res Error unit :=
  match record_mut d id (set_seen (Some now_ms)) with
  | None => (d, Err UnknownDevice)
  | Some d =>
      let stale := match stored_seen d !! id with None => true | Some stored => TOUCH_PERSIST_MS <=? now_ms - stored end in
      if negb stale then (d, Ok tt)
      else
        let '(d, r) := save s d in
        match r with
        | Err e => (d, Err e)
        | Ok _ => (with_seen d (<[id := now_ms]> (stored_seen d)), Ok tt)
        end
  end.

(** [Devices::revoke]. *)
Definition devices_revoke (d : Devices) (id : DeviceId) (s : Save) : Devices * res Error bool :=
  match list_find (λ r, has_id id r = true) (records d) with
  | None => (d, Ok false)
  | Some (index, record) =>
      let removed := with_records d (delete index (records d)) in
      let undo d := with_records d (take index (records d) ++ record :: drop index (records d)) in
      let '(d, r) := save_or_undo s undo removed in
      match r with
      | Err e => (d, Err e)
      | Ok _ => (with_seen d (base.delete id (stored_seen d)), Ok true)
      end
  end.

Definition idle (now_ms idle_ms : N) (r : DeviceRecord) : bool :=
  idle_ms <=? now_ms - default (created_ms r) (last_seen_ms r).

(** [Devices::expire_idle]. *)
Definition devices_expire_idle (d : Devices) (now_ms idle_ms : N) (s : Save) : Devices * res Error (list DeviceId) :=
  let is_idle := idle now_ms idle_ms in
  if negb (existsb is_idle (records d)) then (d, Ok [])
  else
    let previous := records d in
    let '(d, r) :=
      save_or_undo s (λ d, with_records d previous) (with_records d (filter (λ r, is_idle r = false) previous)) in
    match r with
    | Err e => (d, Err e)
    | Ok _ =>
        let expired := record_id <$> filter (λ r, is_idle r = true) previous in
        (with_seen d (foldl (λ m id, base.delete id m) (stored_seen d) expired), Ok expired)
    end.

(** ** Comparing secrets *)

Lemma lor_zero a b : N.lor a b = 0 ↔ a = 0 ∧ b = 0.
Proof. apply N.lor_eq_0_iff. Qed.

Lemma differences_zero l r d :
  length l = length r → foldl (λ difference '(a, b), N.lor difference (N.lxor a b)) d (zip l r) = 0 ↔ d = 0 ∧ l = r.
Proof.
  revert r d. induction l as [|a l IH]; intros [|b r] d Hl; try done; cbn in *.
  - tauto.
  - rewrite IH by congruence. rewrite lor_zero, N.lxor_eq_0_iff. naive_solver.
Qed.

(** The fold of the differences decides equality. *)
Lemma constant_time_eq_spec l r : constant_time_eq l r = bool_decide (l = r).
Proof.
  unfold constant_time_eq. destruct (Nat.eqb_spec (length l) (length r)) as [Hl|Hl]; cbn [negb].
  - apply Bool.eq_iff_eq_true. rewrite N.eqb_eq, differences_zero, bool_decide_eq_true by done. tauto.
  - symmetry. apply bool_decide_eq_false. by intros ->.
Qed.

(** ** Records found and changed *)

Section update.
Context {A : Type} (has : A → bool) (f : A → A).

Lemma find_update_first (l : list A) : is_Some (find has l) ↔ is_Some (update_first has f l).
Proof.
  induction l as [|a l IH]; cbn; [by split; intros [? ?]|]. destruct (has a); [by split; eauto|].
  rewrite IH. by rewrite fmap_is_Some.
Qed.

(** The change is undone by any that puts the found record back. *)
Lemma update_first_undo g l l' a :
  (∀ x, has (f x) = has x) → find has l = Some a → update_first has f l = Some l' → g (f a) = a →
  update_first has g l' = Some l.
Proof.
  intros Hhas. revert l'. induction l as [|x l IH]; intros l'; cbn; [done|]. destruct (has x) eqn:E.
  - intros [= ->] [= <-] Hg. cbn. by rewrite Hhas, E, Hg.
  - intros Hfind (k & Hk & ->)%fmap_Some Hg. cbn. rewrite E. by erewrite IH.
Qed.

Lemma update_first_fmap {B} (h : A → B) l l' :
  (∀ x, h (f x) = h x) → update_first has f l = Some l' → h <$> l' = h <$> l.
Proof.
  intros Hh. revert l'. induction l as [|x l IH]; intros l'; cbn; [done|]. destruct (has x).
  - intros [= <-]. cbn. by rewrite Hh.
  - intros (k & Hk & ->)%fmap_Some. cbn. by rewrite IH.
Qed.

Lemma find_update l l' :
  (∀ x, has (f x) = has x) → update_first has f l = Some l' → find has l' = f <$> find has l.
Proof.
  intros Hhas. revert l'. induction l as [|x l IH]; intros l'; cbn; [done|]. destruct (has x) eqn:E.
  - intros [= <-]. cbn. by rewrite Hhas, E.
  - intros (k & Hk & ->)%fmap_Some. cbn. rewrite E. by apply IH.
Qed.

(** Another record is found as before. *)
Lemma find_update_other other l l' :
  (∀ x, other (f x) = other x) → (∀ x, has x = true → other x = false) →
  update_first has f l = Some l' → find other l' = find other l.
Proof.
  intros Ho Hd. revert l'. induction l as [|x l IH]; intros l'; cbn; [done|]. destruct (has x) eqn:E.
  - intros [= <-]. cbn. by rewrite Ho, Hd.
  - intros (k & Hk & ->)%fmap_Some. cbn. by rewrite (IH k).
Qed.
End update.

(** ** Memory and disk *)

(** A record without the time it was last seen, which is written at most once a minute. *)
Definition unseen (rs : list DeviceRecord) : list DeviceRecord := set_seen None <$> rs.

(** The file is what memory holds. *)
Definition agrees (d : Devices) : Prop := unseen (default [] (file d)) = unseen (records d).

(** A write that fails left the file alone. *)
Definition settled (s : Save) : bool :=
  match s with None => true | Some io => let '(replaced, r) := write_private io in
    match r with Ok _ => true | Err _ => negb replaced end end.

Inductive DeviceOp :=
| Op_Add (device : NewDevice) (now_ms : N) (via : option str) (links : list Link)
| Op_Link (id : DeviceId) (link : Link)
| Op_Touch (id : DeviceId) (now_ms : N)
| Op_Rekey (id : DeviceId) (key : PublicKey)
| Op_Revoke (id : DeviceId)
| Op_Push (id : DeviceId) (p : option Json)
| Op_Apns (id : DeviceId) (a : option Json)
| Op_Expire (now_ms idle_ms : N).

(** Every operation that changes the store, its result without what it answers. *)
Definition device_step (op : DeviceOp) (d : Devices) (s : Save) : Devices * res Error unit :=
  match op with
  | Op_Add device now via links => add_with d device now via links s
  | Op_Link id link => set_link d id link s
  | Op_Touch id now => touch d id now s
  | Op_Rekey id key => rekey d id key s
  | Op_Revoke id => let '(d, r) := devices_revoke d id s in (d, _ ← r; Ok tt)
  | Op_Push id p => set_push d id p s
  | Op_Apns id a => set_apns d id a s
  | Op_Expire now idle => let '(d, r) := devices_expire_idle d now idle s in (d, _ ← r; Ok tt)
  end.

Lemma save_records s d : records (save s d).1 = records d ∧ stored_seen (save s d).1 = stored_seen d.
Proof. unfold save. destruct s as [io|]; [|done]. by destruct (write_private io) as [[] r]. Qed.

Lemma save_file s d :
  match (save s d).2 with
  | Ok _ => file (save s d).1 = Some (records d)
  | Err _ => settled s = true → file (save s d).1 = file d
  end.
Proof.
  unfold save, settled. destruct s as [[[] [] [] [] [] []]|]; done.
Qed.

(** What every operation that undoes a failed write keeps. *)
Lemma save_or_undo_spec s undo d0 d :
  (∀ f, records (undo (with_file d f)) = records d0) → (∀ d, file (undo d) = file d) → file d = file d0 →
  let '(d', r) := save_or_undo s undo d in
  match r with
  | Ok _ => file d' = Some (records d') ∧ records d' = records d ∧ stored_seen d' = stored_seen d
  | Err _ => records d' = records d0 ∧ (settled s = true → file d' = file d0)
  end.
Proof.
  intros Hundo Hfile Hd. unfold save_or_undo. destruct (save s d) as [d' r] eqn:E.
  pose proof (save_records s d) as [Hr Hseen]. pose proof (save_file s d) as Hf. rewrite E in Hr, Hseen, Hf. cbn in *.
  destruct r as [u|e]; cbn in *; [by rewrite Hr|].
  assert (d' = with_file d (file d')) as Hd' by (destruct d' as [a b c], d; cbn in *; by subst).
  rewrite Hd', Hundo, Hfile. split; [done|]. intros Hs. rewrite <-Hd. by apply Hf.
Qed.
(** The record operations: a failure leaves the records as they were. *)
Lemma change_spec d id s f undo :
  (∀ r, record_id (f r) = record_id r) → (∀ r, undo r (f r) = r) →
  let '(d', r) := change d id s f undo in
  match r with
  | Ok _ => file d' = Some (records d') ∧ update_first (has_id id) f (records d) = Some (records d')
  | Err _ => records d' = records d ∧ (settled s = true → file d' = file d)
  end ∧ (r = Err UnknownDevice → d' = d).
Proof.
  intros Hid Hundo. unfold change, get, record_mut.
  destruct (find (has_id id) (records d)) as [old|] eqn:Eg; [|done].
  destruct (update_first (has_id id) f (records d)) as [rs|] eqn:Eu; cbn [fmap option_fmap option_map]; [|done].
  assert (update_first (has_id id) (undo old) rs = Some (records d)) as Hback.
  { eapply update_first_undo; [|done|done|done]. intros x. unfold has_id. by rewrite Hid. }
  pose proof (save_or_undo_spec s
    (λ d, default d (with_records d <$> update_first (has_id id) (undo old) (records d))) d (with_records d rs)) as H.
  cbn in H. specialize (H ltac:(intros fl; by rewrite Hback)).
  specialize (H ltac:(intros d0; by destruct (update_first _ _ (records d0))) eq_refl).
  destruct (save_or_undo _ _ _) as [d' r] eqn:E. split.
  - destruct r as [u|e]; [|done]. destruct H as (Hf & Hr & _). split; [done|by rewrite Hr].
  - intros ->. exfalso. unfold save_or_undo, save in E. destruct s as [[[] [] [] [] [] []]|]; cbn in E; congruence.
Qed.

Lemma removelast_snoc {A} (l : list A) a : removelast (l ++ [a]) = l.
Proof. apply removelast_last. Qed.

Lemma delete_insert_back {A} (l : list A) i a :
  l !! i = Some a → take i (delete i l) ++ a :: drop i (delete i l) = l.
Proof.
  intros Ha. pose proof (lookup_lt_Some _ _ _ Ha) as Hi. rewrite delete_take_drop.
  rewrite take_app_length', drop_app_length' by (rewrite length_take; lia).
  rewrite <-(take_drop_middle l i a) at 3 by done. done.
Qed.

(** What an operation does to the records and to the file. *)
Lemma device_step_spec op d s :
  let '(d', r) := device_step op d s in
  match r with
  | Ok _ => (file d' = Some (records d') ∨ (file d' = file d ∧ unseen (records d') = unseen (records d)))
  | Err _ => unseen (records d') = unseen (records d) ∧ (settled s = true → file d' = file d)
  end.
Proof.
  destruct op as [device now via' ls|id link|id now|id key|id|id p|id a|now idle_ms]; cbn [device_step].
  - unfold add_with. set (r := MkDeviceRecord _ _ _ _ _ _ _ _ _ _).
    pose proof (save_or_undo_spec s (λ d, with_records d (removelast (records d))) d (with_records d (records d ++ [r]))
      ltac:(intros; apply removelast_snoc) ltac:(done) eq_refl) as H.
    destruct (save_or_undo _ _ _) as [d' [u|e]]; [by left; apply H|]. destruct H as [-> Hf]. done.
  - pose proof (change_spec d id s (λ r, set_links (put_link link (links r)) r) (λ old, set_links (links old))
      ltac:(done) ltac:(by intros [])) as H.
    unfold set_link. destruct (change _ _ _ _ _) as [d' [u|e]]; destruct H as [[H1 H2] _]; [by left|by rewrite H1].
  - unfold touch, record_mut. destruct (update_first _ _ _) as [rs|] eqn:Eu; cbn; [|done].
    assert (unseen rs = unseen (records d)) as Hrs by (eapply update_first_fmap, Eu; done).
    destruct (negb _); [by right|]. pose proof (save_records s (with_records d rs)) as [Hr _].
    pose proof (save_file s (with_records d rs)) as Hf. destruct (save s (with_records d rs)) as [d' [u|e]]; cbn in *.
    + left. by rewrite Hr.
    + by rewrite Hr.
  - pose proof (change_spec d id s (set_key key None) (λ old, set_key (public_key old) (push old))
      ltac:(done) ltac:(by intros [])) as H.
    unfold rekey. destruct (change _ _ _ _ _) as [d' [u|e]]; destruct H as [[H1 H2] _]; [by left|by rewrite H1].
  - unfold devices_revoke. destruct (list_find _ (records d)) as [[i r0]|] eqn:El; [|cbn; by right].
    apply list_find_Some in El as (Hi & _). set (undo := λ d, with_records d _).
    pose proof (save_or_undo_spec s undo d (with_records d (delete i (records d)))) as H. cbn in H.
    specialize (H ltac:(intros f; by apply delete_insert_back) ltac:(done) eq_refl).
    destruct (save_or_undo _ _ _) as [d' [u|e]]; cbn; [left; by apply H|]. by destruct H as [-> ?].
  - pose proof (change_spec d id s (set_push_of p) (λ old, set_push_of (push old)) ltac:(done) ltac:(by intros [])) as H.
    unfold set_push. destruct (change _ _ _ _ _) as [d' [u|e]]; destruct H as [[H1 H2] _]; [by left|by rewrite H1].
  - pose proof (change_spec d id s (set_apns_of a) (λ old, set_apns_of (apns old)) ltac:(done) ltac:(by intros [])) as H.
    unfold set_apns. destruct (change _ _ _ _ _) as [d' [u|e]]; destruct H as [[H1 H2] _]; [by left|by rewrite H1].
  - unfold devices_expire_idle. destruct (negb _); [cbn; by right|].
    pose proof (save_or_undo_spec s (λ d0, with_records d0 (records d)) d
      (with_records d (filter (λ r, idle now idle_ms r = false) (records d))) ltac:(done) ltac:(done) eq_refl) as H.
    destruct (save_or_undo _ _ _) as [d' [u|e]]; cbn; [left; by apply H|]. by destruct H as [-> ?].
Qed.

(** Every operation of the device store that fails leaves the devices in memory as they were, and none
    lets memory and disk disagree, unless the disk replaced the file and only then failed; the time a device was
    last seen, which is written at most once a minute, apart. *)
Theorem store_atomic (op : DeviceOp) (d : Devices) (s : Save) :
  let '(d', r) := device_step op d s in
  (∀ e, r = Err e → unseen (records d') = unseen (records d)) ∧
  (agrees d → settled s = true → agrees d').
Proof.
  pose proof (device_step_spec op d s) as H. destruct (device_step op d s) as [d' [u|e]]; unfold agrees.
  - split; [done|]. intros Ha _. destruct H as [->|[-> ->]]; done.
  - destruct H as [H1 H2]. split; [by intros ? _|]. intros Ha Hs. by rewrite H2, H1.
Qed.

Definition sample_device : NewDevice := MkNewDevice None (lit "d1") (lit "phone") [4].
Definition devices_empty : Devices := MkDevices [] ∅ None.

(** The rename took place and the sync of the directory failed: the device is undone in memory and is on disk. *)
Lemma dir_sync_diverges :
  let '(d, r) := add_with devices_empty sample_device 1 None [] (Some (MkWriteIo true true true true true false)) in
  r = Err (Store Sync) ∧ records d = [] ∧ lenN (default [] (file d)) = 1.
Proof. done. Qed.

(** ** Primitives that keep the laws

    Two letters a byte; a digest is the start of the text; a signature is the
    start of the key and the message. *)

Definition letters (b : N) : str := [65 + b / 16; 65 + b mod 16].

Fixpoint unletters (s : str) : list N :=
  match s with
  | a :: b :: s => (a - 65) * 16 + (b - 65) :: unletters s
  | _ => []
  end.

Definition prefix_of (n : nat) (bs : list N) : list N := take n (bs ++ replicate n 0).

#[export] Instance plain_primitives : Primitives := {|
  url_encode bs := bs ≫= letters;
  encoded_len n := N.of_nat (2 * n);
  decode_slice n s := if (length (unletters s) <=? n)%nat then Some (unletters s) else None;
  sha256 bs := prefix_of 32 bs;
  sec1_point bs := (length bs =? 65)%nat;
  signature_from_slice bs := (length bs =? 64)%nat;
  ecdsa_verify key message signature := bool_decide (signature = prefix_of 64 (drop 55 key ++ message));
|}.

Lemma unletters_encode bs : Forall is_byte bs → unletters (bs ≫= letters) = bs.
Proof.
  induction 1 as [|b bs Hb Hbs IH]; [done|].
  change (unletters ((b :: bs) ≫= letters)) with ((65 + b / 16 - 65) * 16 + (65 + b mod 16 - 65) :: unletters (bs ≫= letters)).
  rewrite IH. f_equal. unfold is_byte in Hb. clear -Hb. dlia.
Qed.

Lemma letters_len bs : Forall is_byte bs → str_len (bs ≫= letters) = N.of_nat (2 * length bs).
Proof.
  unfold str_len, lenN. induction 1 as [|b bs Hb Hbs IH]; [done|].
  change ((b :: bs) ≫= letters) with (letters b ++ (bs ≫= letters)). rewrite as_bytes_app, length_app.
  assert (length (as_bytes (letters b)) = 2%nat) as ->; [|cbn [length]; lia].
  unfold as_bytes, letters, utf8_char, is_byte in *. cbn.
  rewrite !(proj2 (N.ltb_lt _ 128)); [done|clear -Hb; dlia..].
Qed.

#[export] Instance plain_laws : PrimitivesLaws.
Proof.
  split.
  - intros bs Hbs. cbn [decode_slice url_encode plain_primitives]. by rewrite unletters_encode, Nat.leb_refl.
  - apply letters_len.
  - intros bs. cbn [sha256 plain_primitives]. unfold prefix_of. rewrite length_take, length_app, length_replicate. lia.
Qed.
End Devices.
