(* ===== verification/AuthLimit.v ===== *)
(** * AuthLimit: requests per address
    (crates/sheprd-remote-control/src/auth/limits.rs)

    A bucket of whole requests per key in a bounded table that makes room by
    forgetting full buckets, then the least recently used. Times are
    milliseconds. *)

From Stdlib Require Import NArith Lia.
From stdpp Require Import base option gmap sets list.
From S2P Require Import Prelude.

Local Open Scope N_scope.

Module AuthLimit.

Record Bucket := MkBucket { tokens : N; refilled_ms : N; used_ms : N }.

(** [refill]. *)
Definition refill (b : Bucket) (capacity refill_ms now_ms : N) : Bucket :=
  let earned := (now_ms - refilled_ms b) / refill_ms in
  if earned =? 0 then b
  else
    let t := saturating_add u64_max (tokens b) earned in
    let t := N.min (if u32_max <? t then u32_max else t) capacity in
    MkBucket t (if t =? capacity then now_ms else refilled_ms b + earned * refill_ms) (used_ms b).

Section limiter.
Context {K : Type} `{Countable K} {order : IterOrder K Bucket}.

Record RateLimiter := MkRateLimiter { buckets : gmap K Bucket; capacity : N; max_keys : N; refill_ms : N }.

Definition limiter_new (capacity refill_ms max_keys : N) : RateLimiter :=
  MkRateLimiter ∅ (N.max capacity 1) (N.max max_keys 1) (N.max refill_ms 1).

Definition with_buckets (l : RateLimiter) (m : gmap K Bucket) : RateLimiter :=
  MkRateLimiter m (capacity l) (max_keys l) (refill_ms l).

Definition len (m : gmap K Bucket) : N := N.of_nat (size m).

(** [RateLimiter::evict]. [retain] refills every bucket it looks at. *)
Definition evict (l : RateLimiter) (now_ms : N) : RateLimiter :=
  let kept :=
    filter (λ '(_, b), tokens b < capacity l)
      ((λ b, refill b (capacity l) (refill_ms l) now_ms) <$> buckets l) in
  if len kept <? max_keys l then with_buckets l kept
  else
    match min_by_key (λ '(_, b), used_ms b) (iter kept) with
    | Some (oldest, _) => with_buckets l (base.delete oldest kept)
    | None => with_buckets l kept
    end.

(** [RateLimiter::allow]. *)
Definition allow (l : RateLimiter) (key : K) (now_ms : N) : RateLimiter * bool :=
  let l :=
    if negb (bool_decide (is_Some (buckets l !! key))) && (max_keys l <=? len (buckets l))
    then evict l now_ms else l in
  let bucket := default (MkBucket (capacity l) now_ms now_ms) (buckets l !! key) in
  let b := refill bucket (capacity l) (refill_ms l) now_ms in
  let used := N.max (used_ms b) now_ms in
  if tokens b =? 0 then (with_buckets l (<[key := MkBucket (tokens b) (refilled_ms b) used]> (buckets l)), false)
  else (with_buckets l (<[key := MkBucket (tokens b - 1) (refilled_ms b) used]> (buckets l)), true).

(** ** Refilling *)

Definition bucket_wf (l : RateLimiter) (now : N) (b : Bucket) : Prop :=
  tokens b ≤ capacity l ∧ refilled_ms b ≤ now.

Definition limiter_wf (l : RateLimiter) (now : N) : Prop :=
  0 < capacity l ∧ capacity l ≤ u32_max ∧ 0 < max_keys l ∧ 0 < refill_ms l ∧ len (buckets l) ≤ max_keys l ∧
  ∀ k b, buckets l !! k = Some b → bucket_wf l now b.

Lemma refill_wf l now b :
  limiter_wf l now → bucket_wf l now b → bucket_wf l now (refill b (capacity l) (refill_ms l) now).
Proof.
  intros (Hc & _ & _ & Hr & _) [Ht Hm]. unfold refill. destruct (N.eqb_spec ((now - refilled_ms b) / refill_ms l) 0) as [|He]; [done|].
  pose proof (N.Div0.mul_div_le (now - refilled_ms b) (refill_ms l)).
  split; cbn; [lia|]. destruct (_ =? _); nia.
Qed.

(** A table that stays within its bound: eviction makes room for one more. *)
Lemma evict_room l now :
  0 < max_keys l → len (buckets l) ≤ max_keys l → len (buckets (evict l now)) < max_keys l.
Proof.
  intros Hpos Hlen. unfold evict. set (kept := filter _ _).
  assert (len kept ≤ len (buckets l)) as Hk.
  { unfold len, kept. rewrite <-(map_size_fmap (λ b, refill b (capacity l) (refill_ms l) now) (buckets l)).
    pose proof (map_subseteq_size _ _ (map_filter_subseteq (λ '(_, b), tokens b < capacity l)
      ((λ b, refill b (capacity l) (refill_ms l) now) <$> buckets l))). lia. }
  destruct (N.ltb_spec (len kept) (max_keys l)) as [Hlt|Hge]; [done|].
  destruct (min_by_key _ (iter kept)) as [[oldest b]|] eqn:E; cbn [with_buckets buckets].
  - apply min_by_key_Some in E as [Hin%elem_of_iter _]. unfold len in *.
    rewrite map_size_delete_Some by by eexists. assert (size kept ≠ 0%nat); [|lia].
    intros Hz%map_size_empty_iff. rewrite Hz in Hin. by apply lookup_empty_Some in Hin.
  - apply min_by_key_None in E. assert (kept = ∅) as Hz; [|unfold len in *; rewrite Hz in Hge |- *; rewrite map_size_empty in *; lia].
    apply map_empty. intros k. apply eq_None_not_Some. intros [b Hb%elem_of_iter]. rewrite E in Hb. by apply not_elem_of_nil in Hb.
Qed.

Lemma evict_parts l now :
  capacity (evict l now) = capacity l ∧ max_keys (evict l now) = max_keys l ∧ refill_ms (evict l now) = refill_ms l.
Proof. unfold evict. repeat case_match; done. Qed.

Lemma evict_buckets l now k b :
  buckets (evict l now) !! k = Some b →
  ∃ b0, buckets l !! k = Some b0 ∧ b = refill b0 (capacity l) (refill_ms l) now.
Proof.
  unfold evict. set (kept := filter _ _). intros Hb. assert (kept !! k = Some b) as Hk.
  { destruct (_ <? _); [done|]. destruct (min_by_key _ _) as [[o ?]|]; [|done]. cbn in Hb. by apply lookup_delete_Some in Hb as [_ ?]. }
  apply map_lookup_filter_Some in Hk as [Hk _]. rewrite lookup_fmap in Hk. apply fmap_Some in Hk as (b0 & ? & ->). eauto.
Qed.

Lemma wf_later l start now : limiter_wf l start → start ≤ now → limiter_wf l now.
Proof.
  intros (?&?&?&?&?&Hb) Hle. do 5 (split; [done|]). intros k b Hk. destruct (Hb k b Hk). split; [done|lia].
Qed.

Lemma allow_wf l start now key : limiter_wf l start → start ≤ now → limiter_wf (allow l key now).1 now.
Proof.
  intros Hwf Hle. pose proof (wf_later l start now Hwf Hle) as Hnow.
  unfold allow.
  set (l1 := if negb (bool_decide (is_Some (buckets l !! key))) && (max_keys l <=? len (buckets l)) then evict l now else l).
  assert (limiter_wf l1 now ∧ (buckets l1 !! key = None → len (buckets l1) < max_keys l1)) as [H1 Hroom].
  { unfold l1. destruct (bool_decide_reflect (is_Some (buckets l !! key))) as [[b Hs]|Hn]; cbn [negb andb].
    { split; [done|]. by rewrite Hs. }
    destruct (N.leb_spec (max_keys l) (len (buckets l))); [|done].
    pose proof Hnow as (Hc & Hc' & Hm & Hr & Hl & Hb). destruct (evict_parts l now) as (E1 & E2 & E3).
    pose proof (evict_room l now Hm Hl) as Hev. unfold limiter_wf, bucket_wf. rewrite E1, E2, E3.
    split; [|done]. do 4 (split; [done|]). split; [lia|]. intros k b (b0 & Hb0 & ->)%evict_buckets.
    by apply (refill_wf l now b0 Hnow), (Hb k). }
  pose proof H1 as (Hc & Hc' & Hm & Hr & Hl & Hb).
  set (b := refill _ (capacity l1) (refill_ms l1) now). assert (bucket_wf l1 now b) as [Ht Hm'].
  { apply refill_wf; [done|]. destruct (buckets l1 !! key) as [b0|] eqn:E; cbn; [by apply (Hb key)|]. split; cbn; lia. }
  assert (∀ b', len (<[key := b']> (buckets l1)) ≤ max_keys l1) as Hsz.
  { intros b'. unfold len in *. destruct (buckets l1 !! key) as [b0|] eqn:E; [by rewrite map_size_insert_Some by by eexists|].
    rewrite map_size_insert_None by done. specialize (Hroom eq_refl). lia. }
  assert (∀ t r u, t ≤ tokens b → r = refilled_ms b →
    limiter_wf (with_buckets l1 (<[key := MkBucket t r u]> (buckets l1))) now) as Hdone.
  { intros t r u Hlt ->. do 4 (split; [done|]). split; [apply Hsz|]. intros k b'. cbn.
    destruct (decide (k = key)) as [->|Hne].
    - rewrite lookup_insert_eq. intros [= <-]. split; cbn; [lia|done].
    - rewrite lookup_insert_ne by done. apply Hb. }
  destruct (tokens b =? 0); cbn [fst]; apply Hdone; (done || lia).
Qed.

(** ** The rate *)

Fixpoint allow_all (l : RateLimiter) (requests : list (K * N)) : RateLimiter * list bool :=
  match requests with
  | [] => (l, [])
  | (key, now_ms) :: requests =>
      let '(l, b) := allow l key now_ms in
      let '(l, bs) := allow_all l requests in
      (l, b :: bs)
  end.

Fixpoint clock_ok (start : N) (requests : list (K * N)) : Prop :=
  match requests with
  | [] => True
  | (_, now) :: requests => start ≤ now ∧ clock_ok now requests
  end.

Fixpoint granted (key : K) (requests : list (K * N)) (answers : list bool) : N :=
  match requests, answers with
  | (k, _) :: requests, b :: answers => (if bool_decide (k = key) && b then 1 else 0) + granted key requests answers
  | _, _ => 0
  end.

(** The account of a key since [t0]: what it spent and what it has left are
    covered by a full bucket and the time its bucket was refilled for. *)
Definition covered (l : RateLimiter) (b : Bucket) (spent t0 : N) : Prop :=
  refill_ms l * (spent + tokens b) + t0 ≤ refill_ms l * capacity l + refilled_ms b + (refill_ms l - 1).

Lemma refill_covered l b now spent t0 :
  limiter_wf l now → bucket_wf l now b → now ≤ u64_max → covered l b spent t0 ∨ (spent = 0 ∧ t0 ≤ now) →
  covered l (refill b (capacity l) (refill_ms l) now) spent t0.
Proof.
  intros (Hc & Hcap & _ & Hr & _) [Ht Hm] Hnow Hcov. unfold refill.
  set (earned := (now - refilled_ms b) / refill_ms l) in *.
  assert (refill_ms l * earned ≤ now - refilled_ms b) as Hmul by apply N.Div0.mul_div_le.
  assert (now - refilled_ms b < refill_ms l * earned + refill_ms l) as Hmod.
  { pose proof (N.mul_succ_div_gt (now - refilled_ms b) (refill_ms l) ltac:(lia)) as Hgt. fold earned in Hgt. lia. }
  destruct (N.eqb_spec earned 0) as [E|He].
  { destruct Hcov as [Hcov|[-> Ht0]]; [done|]. unfold covered. rewrite E in Hmod. nia. }
  assert (earned ≤ now) as Hee by (clear -Hmul Hr; nia).
  assert (N.min (if u32_max <? saturating_add u64_max (tokens b) earned then u32_max
            else saturating_add u64_max (tokens b) earned) (capacity l) = N.min (capacity l) (tokens b + earned)) as ->.
  { unfold saturating_add, u32_max, u64_max in *. destruct (N.ltb_spec 4294967295 (N.min 18446744073709551615 (tokens b + earned))); lia. }
  unfold covered in *. cbn [tokens refilled_ms].
  destruct (N.eqb_spec (N.min (capacity l) (tokens b + earned)) (capacity l)) as [Efull|Enot].
  - rewrite Efull. destruct Hcov as [Hcov|[-> Ht0]]; [|lia]. assert (capacity l ≤ tokens b + earned) by lia. nia.
  - replace (N.min (capacity l) (tokens b + earned)) with (tokens b + earned) by lia.
    destruct Hcov as [Hcov|[-> Ht0]]; [lia|]. assert (tokens b + earned + 1 ≤ capacity l) by lia. nia.
Qed.

(** A table with room for everyone forgets nobody. *)
Definition roomy (l : RateLimiter) (keys : gset K) : Prop :=
  dom (buckets l) ⊆ keys ∧ N.of_nat (size keys) ≤ max_keys l.

Lemma roomy_not_crowded l keys key :
  roomy l keys → key ∈ keys →
  negb (bool_decide (is_Some (buckets l !! key))) && (max_keys l <=? len (buckets l)) = false.
Proof.
  intros [Hdom Hsz] Hk. destruct (bool_decide_reflect (is_Some (buckets l !! key))) as [|Hn]; [done|]. cbn.
  apply N.leb_gt. unfold len. rewrite <-size_dom.
  assert (size ({[key]} ∪ dom (buckets l)) ≤ size keys)%nat as Hle by (apply subseteq_size; set_solver).
  rewrite size_union, size_singleton in Hle; [lia|]. 
  intros x Hx1 Hx2%elem_of_dom. apply elem_of_singleton in Hx1 as ->. done.
Qed.

Lemma address_granted_bound l keys key start stop requests l' answers t0 spent :
  limiter_wf l start → roomy l keys → stop ≤ u64_max → t0 ≤ start → start ≤ stop →
  clock_ok start requests → (∀ k now, (k, now) ∈ requests → k ∈ keys ∧ now ≤ stop) →
  match buckets l !! key with
  | Some b => covered l b spent t0 ∨ (spent = 0 ∧ t0 ≤ start)
  | None => spent = 0
  end →
  allow_all l requests = (l', answers) →
  refill_ms l * (spent + granted key requests answers) + t0 ≤ refill_ms l * capacity l + stop + (refill_ms l - 1).
Proof.
  revert l start spent answers. induction requests as [|[k now] requests IH];
    intros l start spent answers Hwf Hroom Hmax Ht0 Hstop Hclock Hreq Hinv; cbn [allow_all].
  { intros [= <- <-]. cbn [granted]. rewrite N.add_0_r. destruct Hwf as (Hc & _ & _ & Hr & _ & Hb).
    destruct (buckets l !! key) as [b|] eqn:E; [|nia]. destruct (Hb _ _ E). unfold covered in Hinv. destruct Hinv as [?|[-> ?]]; nia. }
  destruct Hclock as [Hnow Hclock]. destruct (Hreq k now) as [Hk Hns]; [set_solver|].
  pose proof (allow_wf l start now k Hwf Hnow) as Hwf1. destruct (allow l k now) as [l1 b] eqn:Ea. cbn [fst] in Hwf1.
  destruct (allow_all l1 requests) as [l2 bs] eqn:Er. intros [= <- <-]. cbn [granted].
  pose proof (wf_later l start now Hwf Hnow) as Hwfn.
  assert (∃ t r u, l1 = with_buckets l (<[k := MkBucket t r u]> (buckets l)) ∧
    (∀ spent', (match buckets l !! k with Some b0 => covered l b0 spent' t0 ∨ (spent' = 0 ∧ t0 ≤ start) | None => spent' = 0 end) →
      covered l (MkBucket t r u) (spent' + (if b then 1 else 0)) t0)) as (t & r & u & -> & Hcov).
  { unfold allow in Ea. rewrite (roomy_not_crowded l keys k Hroom Hk) in Ea.
    set (b0 := default _ _) in Ea. set (b1 := refill b0 _ _ _) in Ea.
    assert (bucket_wf l now b0) as Hb0.
    { unfold b0. destruct (buckets l !! k) as [x|] eqn:E; cbn; [|split; cbn; lia].
      pose proof Hwfn as (_ & _ & _ & _ & _ & Hbn). by apply (Hbn k). }
    assert (∀ spent', (match buckets l !! k with Some b0 => covered l b0 spent' t0 ∨ (spent' = 0 ∧ t0 ≤ start) | None => spent' = 0 end) →
      covered l b1 spent' t0) as Hc1.
    { intros spent' Hs. apply refill_covered; [done|done|lia|]. unfold b0. destruct (buckets l !! k); cbn;
        [destruct Hs as [?|[-> ?]]; [by left|right; lia]|right; lia]. }
    destruct (N.eqb_spec (tokens b1) 0) as [Hz|Hz]; injection Ea as <- <-; do 3 eexists; (split; [done|]);
      intros spent' Hs; specialize (Hc1 _ Hs); unfold covered in *; cbn; [by rewrite N.add_0_r|].
    replace (spent' + 1 + (tokens b1 - 1)) with (spent' + tokens b1) by lia. done. }
  rewrite N.add_assoc. change (refill_ms l) with (refill_ms (with_buckets l (<[k:=MkBucket t r u]> (buckets l)))) at 1 2 3.
  change (capacity l) with (capacity (with_buckets l (<[k:=MkBucket t r u]> (buckets l)))).
  eapply (IH _ now); [done| |done|lia|done|done| | |exact Er].
  - destruct Hroom as [Hd Hs]. split; [|done]. cbn. rewrite dom_insert. set_solver.
  - intros k' now' Hin. apply Hreq. set_solver.
  - cbn [buckets with_buckets]. destruct (bool_decide_reflect (k = key)) as [->|Hne]; cbn [andb].
    + rewrite lookup_insert_eq. left. by apply Hcov.
    + rewrite lookup_insert_ne, N.add_0_r by done. destruct (buckets l !! key); [|done].
      destruct Hinv as [?|[-> ?]]; [by left|right; split; [done|lia]].
Qed.

(** Over any stretch of time in which the table has room for every address, one address is granted at most a
    bucket and one request more than the stretch refills. *)
Theorem address_rate_bound (l l' : RateLimiter) (keys : gset K) (key : K) (start stop : N)
    (requests : list (K * N)) (answers : list bool) :
  limiter_wf l start → roomy l keys → stop ≤ u64_max → start ≤ stop →
  clock_ok start requests → (∀ k now, (k, now) ∈ requests → k ∈ keys ∧ now ≤ stop) →
  allow_all l requests = (l', answers) →
  granted key requests answers ≤ capacity l + (stop - start) / refill_ms l + 1.
Proof.
  intros Hwf Hroom Hmax Hle Hclock Hreq Hall.
  pose proof (address_granted_bound l keys key start stop requests l' answers start 0 Hwf Hroom Hmax ltac:(lia) Hle Hclock Hreq) as Hb.
  rewrite N.add_0_l in Hb. specialize (Hb ltac:(destruct (buckets l !! key); [by right|done]) Hall).
  destruct Hwf as (_ & _ & _ & Hr & _). generalize dependent (granted key requests answers). intros g Hg.
  pose proof (N.mul_succ_div_gt (stop - start) (refill_ms l) ltac:(lia)) as Hd. nia.
Qed.
End limiter.
Arguments RateLimiter K {_ _}.
End AuthLimit.
