(* ===== verification/Pairing.v ===== *)
(** * Pairing: the pairing the desktop dialog holds open
    (crates/sheprd-remote-control/src/auth/pairing.rs, [PairingState] and
    [Offer] of control.rs)

    A token in a QR, a phone's claim of it and the person's answer. An operation
    returns the pairings as it leaves them, on every error too; the draws of
    randomness it makes are its last arguments. *)

From Stdlib Require Import NArith Lia.
From stdpp Require Import base option gmap strings sets list.
From S2P Require Import Prelude Devices.

Local Open Scope N_scope.

Module Pairing.
Import Devices.

Definition TOKEN_TTL_MS : N := 60000.
Definition APPROVAL_TTL_MS : N := 120000.
Definition MAX_NEARBY_REVEALS : N := 3.
Definition REMEMBERED_OUTCOMES : nat := 8.

Definition ClaimId := str.
Definition PairingId := str.

Record Claim := MkClaim { claim_id : ClaimId; claim_code : str; expires_ms : N }.

Inductive PairingState :=
| S_Waiting (expires_in_ms : N)
| S_Claimed (device_name : str) (code : str) (app : option str)
| S_Approved (device : DeviceId)
| S_Denied
| S_Expired.

Record Offer := MkOffer {
  offer_id : PairingId; offer_url : str; offer_fingerprint : str; offer_expires_in_ms : N; addresses : list str }.

Record NearbyToken := MkNearbyToken { digest : list N; nearby_code : str; nearby_expires_ms : N }.

Definition live (t : NearbyToken) (now_ms : N) : bool := now_ms <? nearby_expires_ms t.

Inductive Phase :=
| Waiting
| Claimed (claim : ClaimId) (device : NewDevice) (code : str) (deadline_ms : N)
| Finished (claim : option ClaimId) (state : PairingState).

Record Open := MkOpen {
  open_id : PairingId;
  token_digest : list N;
  token_expires_ms : N;
  nearby : option NearbyToken;
  nearby_reveals : N;
  phase : Phase }.

Record Pairings := MkPairings { open : option Open; outcomes : list (ClaimId * PairingState) }.

Definition pairings_default : Pairings := MkPairings None [].

Definition with_phase (o : Open) (p : Phase) : Open :=
  MkOpen (open_id o) (token_digest o) (token_expires_ms o) (nearby o) (nearby_reveals o) p.
Definition with_nearby (o : Open) (n : option NearbyToken) (reveals : N) : Open :=
  MkOpen (open_id o) (token_digest o) (token_expires_ms o) n reveals (phase o).

(** [Open::claimable_until]. *)
Definition claimable_until (o : Open) : N :=
  match nearby o with
  | None => token_expires_ms o
  | Some n => N.max (nearby_expires_ms n) (token_expires_ms o)
  end.

(** [Open::unclaimed]. *)
Definition unclaimed (o : Open) : bool :=
  match phase o with Waiting | Finished None _ => true | _ => false end.

(** [Open::view]. *)
Definition view (o : Open) (now_ms : N) : PairingState :=
  match phase o with
  | Waiting => S_Waiting (claimable_until o - now_ms)
  | Claimed _ device code _ => S_Claimed (new_name device) code (app device)
  | Finished _ state => state
  end.

(** [settle]: the pairing and the outcomes afterwards, and the phase replaced. *)
Definition settle (o : Open) (outs : list (ClaimId * PairingState)) (state : PairingState)
    : Open * list (ClaimId * PairingState) * Phase :=
  match phase o with
  | Claimed claim _ _ _ =>
      let outs := if (length outs =? REMEMBERED_OUTCOMES)%nat then drop 1 outs else outs in
      (with_phase o (Finished (Some claim) state), outs ++ [(claim, state)], phase o)
  | _ => (o, outs, Waiting)
  end.

(** [refresh]. *)
Definition refresh (o : Open) (outs : list (ClaimId * PairingState)) (now_ms : N)
    : Open * list (ClaimId * PairingState) :=
  match phase o with
  | Waiting => if claimable_until o <=? now_ms then (with_phase o (Finished None S_Expired), outs) else (o, outs)
  | Claimed _ _ _ deadline_ms => if deadline_ms <=? now_ms then (settle o outs S_Expired).1 else (o, outs)
  | Finished _ _ => (o, outs)
  end.

(** [find]. *)
Definition find_open (p : Pairings) (id : PairingId) : res Error Open :=
  match open p with
  | Some o => if bool_decide (open_id o = id) then Ok o else Err UnknownPairing
  | None => Err UnknownPairing
  end.

(** [Pairings::close]. *)
Definition close (p : Pairings) : Pairings :=
  match open p with
  | None => p
  | Some o => let '(_, outs, _) := settle o (outcomes p) S_Denied in MkPairings None outs
  end.

(** [{:06}]. *)
Definition pad6 (n : N) : str := let s := dec n in replicate (6 - length s) 48 ++ s.

Section ops.
Context `{Primitives}.

(** [matching_code]. *)
Definition matching_code (token public_key nonce : list N) : str :=
  pad6 (be_val (take 4 (sha256 (token ++ public_key ++ nonce))) mod 1000000).

(** [Pairings::mint]. *)
Definition mint (p : Pairings) (now_ms : N) (origins : list str) (fingerprint : str) (token id : Draw)
    : Pairings * res Error Offer :=
  match head origins with
  | None => (p, Err NoAddress)
  | Some origin =>
      match random_bytes token with
      | Err e => (p, Err e)
      | Ok token =>
          let kept :=
            match open p with
            | Some o => if unclaimed o then Ok (open_id o, nearby o, nearby_reveals o) else id ← random_id id; Ok (id, None, 0)
            | None => id ← random_id id; Ok (id, None, 0)
            end in
          match kept with
          | Err e => (p, Err e)
          | Ok (id, nearby, reveals) =>
              let closed := close p in
              (MkPairings
                 (Some (MkOpen id (sha256 token) (saturating_add u64_max now_ms TOKEN_TTL_MS) nearby reveals Waiting))
                 (outcomes closed),
               Ok (MkOffer id (origin ++ lit "/pair#t=" ++ url_encode token ++ lit "&fp=" ++ filter (λ c, c ≠ 58) fingerprint)
                     fingerprint TOKEN_TTL_MS origins))
          end
      end
  end.

(** Whether a digest is the nearby token's, and whether it is either token's. *)
Definition is_nearby (o : Open) (g : list N) : bool :=
  match nearby o with Some n => constant_time_eq (digest n) g | None => false end.

(** The end of [Pairings::claim], once the token is known to be claimable. *)
Definition accept (o : Open) (is_nearby : bool) (token : list N) (name : str) (key : PublicKey) (nonce : list N)
    (claim device_id : str) (now_ms : N) : Open * Claim :=
  let device := MkNewDevice None device_id name key in
  let '(o, code) :=
    match nearby o with
    | Some n => if is_nearby then (with_nearby o None (nearby_reveals o), nearby_code n)
                else (o, matching_code token key nonce)
    | None => (o, matching_code token key nonce)
    end in
  let deadline_ms := saturating_add u64_max now_ms APPROVAL_TTL_MS in
  (with_phase o (Claimed claim device code deadline_ms), MkClaim claim code deadline_ms).

(** [Pairings::claim]. *)
Definition claim (p : Pairings) (token device_name_input public_key : str) (now_ms : N) (nonce id device : Draw)
    : Pairings * res Error Claim :=
  match decode_fixed SECRET_LEN token, open p with
  | None, _ | _, None => (p, Err InvalidToken)
  | Some token, Some o =>
      let g := sha256 token in
      let by_nearby := is_nearby o g in
      if negb by_nearby && negb (constant_time_eq (token_digest o) g) then (p, Err InvalidToken)
      else
        let '(o, outs) := refresh o (outcomes p) now_ms in
        let p := MkPairings (Some o) outs in
        match phase o with
        | Finished None _ => (p, Err ExpiredToken)
        | Finished (Some _) _ => (p, Err AlreadyClaimed)
        | Claimed _ _ _ _ =>
            let '(o, outs, _) := settle o outs S_Denied in (MkPairings (Some o) outs, Err AlreadyClaimed)
        | Waiting =>
            let expired :=
              if by_nearby then negb (match nearby o with Some n => live n now_ms | None => false end)
              else token_expires_ms o <=? now_ms in
            if expired then (p, Err ExpiredToken)
            else
              let accepted :=
                name ← device_name device_name_input;
                key ← key_parse public_key;
                nonce ← random_bytes nonce;
                id ← random_id id;
                device ← random_id device;
                Ok (accept o by_nearby token name key nonce id device now_ms) in
              match accepted with
              | Err e => (p, Err e)
              | Ok (o, c) => (MkPairings (Some o) outs, Ok c)
              end
        end
  end.

(** [Pairings::waiting]. *)
Definition waiting (p : Pairings) (now_ms : N) : Pairings * bool :=
  match open p with
  | None => (p, false)
  | Some o =>
      let '(o, outs) := refresh o (outcomes p) now_ms in
      (MkPairings (Some o) outs, match phase o with Waiting => true | _ => false end)
  end.

(** [Pairings::set_nearby]. *)
Definition set_nearby (p : Pairings) (token : list N) (code : str) (now_ms : N) : Pairings * res Error unit :=
  let '(p, w) := waiting p now_ms in
  if negb w then (p, Err NoPairing)
  else
    match open p with
    | None => (p, Err NoPairing)
    | Some o =>
        if MAX_NEARBY_REVEALS <=? nearby_reveals o then (p, Err NearbyExhausted)
        else
          let n := MkNearbyToken (sha256 token) code (saturating_add u64_max now_ms TOKEN_TTL_MS) in
          (MkPairings (Some (with_nearby o (Some n) (nearby_reveals o + 1))) (outcomes p), Ok tt)
    end.
End ops.

(** [Pairings::claimed_from]. *)
Definition claimed_from (p : Pairings) (claim : ClaimId) (origin : str) : Pairings :=
  match open p with
  | Some o =>
      match phase o with
      | Claimed id d code deadline =>
          if bool_decide (id = claim) then
            MkPairings (Some (with_phase o
              (Claimed id (MkNewDevice (Some origin) (new_id d) (new_name d) (new_key d)) code deadline))) (outcomes p)
          else p
      | _ => p
      end
  | None => p
  end.

(** [Pairings::state]. *)
Definition state (p : Pairings) (id : PairingId) (now_ms : N) : Pairings * res Error PairingState :=
  match find_open p id with
  | Err e => (p, Err e)
  | Ok o => let '(o, outs) := refresh o (outcomes p) now_ms in (MkPairings (Some o) outs, Ok (view o now_ms))
  end.

(** [Pairings::claim_status]. *)
Definition claim_status (p : Pairings) (id : ClaimId) (now_ms : N) : Pairings * res Error PairingState :=
  let remembered outs :=
    match find (λ '(c, _), bool_decide (c = id)) (reverse outs) with
    | Some (_, s) => Ok s
    | None => Err UnknownClaim
    end in
  match open p with
  | None => (p, remembered (outcomes p))
  | Some o =>
      let '(o, outs) := refresh o (outcomes p) now_ms in
      (MkPairings (Some o) outs,
       match phase o with
       | Claimed c _ _ _ => if bool_decide (c = id) then Ok (view o now_ms) else remembered outs
       | _ => remembered outs
       end)
  end.

(** [Pairings::answer]; [keep] stores the device in [d]. *)
Definition answer {D} (p : Pairings) (d : D) (id : PairingId) (allow : bool) (now_ms : N)
    (keep : D → NewDevice → D * res Error unit) : Pairings * D * res Error (option NewDevice) :=
  match find_open p id with
  | Err e => (p, d, Err e)
  | Ok o =>
      let '(o, outs) := refresh o (outcomes p) now_ms in
      let finish d state r := let '(o, outs, _) := settle o outs state in (MkPairings (Some o) outs, d, r) in
      match phase o with
      | Claimed _ device _ _ =>
          if negb allow then finish d S_Denied (Ok None)
          else
            let '(d, kept) := keep d device in
            match kept with
            | Err e => finish d S_Denied (Err e)
            | Ok _ =>
                let '(o, outs, replaced) := settle o outs (S_Approved (new_id device)) in
                (MkPairings (Some o) outs, d,
                 match replaced with Claimed _ device _ _ => Ok (Some device) | _ => Err NotClaimed end)
            end
      | _ => (MkPairings (Some o) outs, d, Err NotClaimed)
      end
  end.

(** [Pairings::cancel]. *)
Definition cancel (p : Pairings) (id : PairingId) : Pairings * res Error unit :=
  match find_open p id with
  | Err e => (p, Err e)
  | Ok _ => (close p, Ok tt)
  end.

(** ** Runs

    What the outside can do to the pairings, and what happened. *)

Inductive PairOp :=
| O_Mint (now_ms : N) (origins : list str) (fingerprint : str) (token id : Draw)
| O_Claim (token name key : str) (now_ms : N) (nonce id device : Draw)
| O_Waiting (now_ms : N)
| O_Nearby (token : list N) (code : str) (now_ms : N)
| O_From (claim : ClaimId) (origin : str)
| O_State (id : PairingId) (now_ms : N)
| O_Status (id : ClaimId) (now_ms : N)
| O_Answer (id : PairingId) (allow : bool) (now_ms : N) (kept : bool)
| O_Cancel (id : PairingId).

Inductive PairEvent :=
| E_Minted (g : list N) (now_ms : N)
| E_Sealed (g : list N) (now_ms : N)
| E_Claimed (g : list N) (now_ms : N) (c : Claim) (key : PublicKey)
| E_Approved (device : NewDevice) (now_ms : N)
| E_Nothing.

Section runs.
Context `{Primitives}.

Definition pair_op (p : Pairings) (op : PairOp) : Pairings * PairEvent :=
  match op with
  | O_Mint now origins fp token id =>
      let '(p, r) := mint p now origins fp token id in
      (p, match r with Ok _ => E_Minted (sha256 (default [] token)) now | Err _ => E_Nothing end)
  | O_Claim token name key now nonce id device =>
      let '(p, r) := claim p token name key now nonce id device in
      (p, match r with Ok c => E_Claimed (sha256 (default [] (decode_fixed SECRET_LEN token))) now c (default [] (ok (key_parse key))) | Err _ => E_Nothing end)
  | O_Waiting now => ((waiting p now).1, E_Nothing)
  | O_Nearby token code now =>
      let '(p, r) := set_nearby p token code now in
      (p, match r with Ok _ => E_Sealed (sha256 token) now | Err _ => E_Nothing end)
  | O_From c origin => (claimed_from p c origin, E_Nothing)
  | O_State id now => ((state p id now).1, E_Nothing)
  | O_Status id now => ((claim_status p id now).1, E_Nothing)
  | O_Answer id allow now kept =>
      let '(p, _, r) := answer p tt id allow now (λ d _, (d, if kept then Ok tt else Err Encode)) in
      (p, match r with Ok (Some device) => E_Approved device now | _ => E_Nothing end)
  | O_Cancel id => ((cancel p id).1, E_Nothing)
  end.

(** The pairings after a run, and its events, the newest first. *)
Definition run (ops : list PairOp) (p : Pairings) (h : list PairEvent) : Pairings * list PairEvent :=
  foldl (λ '(p, h) op, let '(p, e) := pair_op p op in (p, e :: h)) (p, h) ops.

(** *** What refreshing and settling change *)

(** [o'] is [o], or [o] finished without an approval. *)
Definition lapsed (o o' : Open) : Prop :=
  o' = o ∨ ∃ c s, o' = with_phase o (Finished c s) ∧ (∀ d, s ≠ S_Approved d) ∧
    (c = None → phase o = Waiting) ∧ (c ≠ None → unclaimed o = false).

Lemma refresh_lapsed o outs now o' outs' : refresh o outs now = (o', outs') → lapsed o o'.
Proof.
  unfold refresh, settle, lapsed. destruct (phase o) as [|c d code dl|c s] eqn:E.
  - destruct (_ <=? _); intros [= <- <-]; [right|by left]. exists None, S_Expired. by split.
  - destruct (_ <=? _); intros [= <- <-]; [right|by left]. exists (Some c), S_Expired. unfold unclaimed. by rewrite E.
  - intros [= <- <-]. by left.
Qed.

Lemma lapsed_waiting o o' : lapsed o o' → phase o' = Waiting → o' = o.
Proof. intros [->|(c & s & -> & _)]; done. Qed.

Lemma settle_lapsed o outs s o' outs' ph :
  settle o outs s = (o', outs', ph) → (∀ d, s ≠ S_Approved d) → lapsed o o'.
Proof.
  unfold settle, lapsed. intros E Hs. destruct (phase o) as [|c d code dl|c s0] eqn:Ep; injection E as <- <- <-; try by left.
  right. exists (Some c), s. unfold unclaimed. by rewrite Ep.
Qed.

Lemma lapsed_trans o1 o2 o3 : lapsed o1 o2 → lapsed o2 o3 → lapsed o1 o3.
Proof.
  intros [->|(c & s & -> & Hs & Hn & Hu)] H23; [done|].
  destruct H23 as [->|(c' & s' & -> & Hs' & Hn' & Hu')]; [right; by exists c, s|].
  cbn in *. destruct c' as [c'|]; [|by specialize (Hn' eq_refl)].
  right. exists (Some c'), s'. do 3 (split; [done|]). intros _. specialize (Hu' ltac:(done)). destruct c; [by apply Hu|done].
Qed.

(** *** One step *)

(** The token with digest [g] can be claimed at [now]. *)
Definition claimable (o : Open) (g : list N) (now : N) : Prop :=
  (token_digest o = g ∧ now < token_expires_ms o) ∨
  (∃ n, nearby o = Some n ∧ digest n = g ∧ now < nearby_expires_ms n).

(** What a step does to the open pairing. *)
Inductive evolves : option Open → PairEvent → option Open → Prop :=
| ev_same oo : evolves oo E_Nothing oo
| ev_lapsed o o' : lapsed o o' → evolves (Some o) E_Nothing (Some o')
| ev_closed oo : evolves oo E_Nothing None
| ev_minted oo id g now n reveals :
    (match oo with
     | Some o => if unclaimed o then n = nearby o ∧ reveals = nearby_reveals o else n = None ∧ reveals = 0
     | None => n = None ∧ reveals = 0
     end) →
    evolves oo (E_Minted g now) (Some (MkOpen id g (saturating_add u64_max now TOKEN_TTL_MS) n reveals Waiting))
| ev_sealed o g code now :
    phase o = Waiting → nearby_reveals o < MAX_NEARBY_REVEALS →
    evolves (Some o) (E_Sealed g now)
      (Some (with_nearby o (Some (MkNearbyToken g code (saturating_add u64_max now TOKEN_TTL_MS))) (nearby_reveals o + 1)))
| ev_claimed o g now c device n :
    phase o = Waiting → claimable o g now → (n = nearby o ∨ n = None) →
    expires_ms c = saturating_add u64_max now APPROVAL_TTL_MS →
    evolves (Some o) (E_Claimed g now c (new_key device))
      (Some (with_phase (with_nearby o n (nearby_reveals o)) (Claimed (claim_id c) device (claim_code c) (expires_ms c))))
| ev_from o c d d' code dl :
    phase o = Claimed c d code dl → new_id d' = new_id d → new_name d' = new_name d → new_key d' = new_key d →
    evolves (Some o) E_Nothing (Some (with_phase o (Claimed c d' code dl)))
| ev_approved o c d code dl now s :
    phase o = Claimed c d code dl → now < dl → s = S_Approved (new_id d) →
    evolves (Some o) (E_Approved d now) (Some (with_phase o (Finished (Some c) s))).

Lemma mint_evolves p now os fp token id p' r :
  mint p now os fp token id = (p', r) →
  evolves (open p) (match r with Ok _ => E_Minted (sha256 (default [] token)) now | Err _ => E_Nothing end) (open p').
Proof.
  unfold mint. destruct (head os); [|intros [= <- <-]; apply ev_same].
  destruct token as [token|]; cbn [random_bytes ok_or]; [|intros [= <- <-]; apply ev_same].
  destruct (open p) as [o|] eqn:Eo; [destruct (unclaimed o) eqn:Eu|].
  - intros [= <- <-]. cbn. constructor. by rewrite Eu.
  - destruct (random_id id) as [id'|e]; cbn [mbind res_bind]; intros [= <- <-]; [|rewrite Eo; apply ev_same].
    cbn. constructor. by rewrite Eu.
  - destruct (random_id id) as [id'|e]; cbn [mbind res_bind]; intros [= <- <-]; [|rewrite Eo; apply ev_same].
    cbn. by constructor.
Qed.

Lemma is_nearby_spec o g : is_nearby o g = true ↔ ∃ n, nearby o = Some n ∧ digest n = g.
Proof.
  unfold is_nearby. destruct (nearby o) as [n|]; [|by split; [|intros (? & ? & _)]].
  rewrite constant_time_eq_spec, bool_decide_eq_true. naive_solver.
Qed.

Lemma claim_evolves p token name key now nonce id device p' r :
  claim p token name key now nonce id device = (p', r) →
  evolves (open p)
    (match r with Ok c => E_Claimed (sha256 (default [] (decode_fixed SECRET_LEN token))) now c (default [] (ok (key_parse key))) | Err _ => E_Nothing end) (open p').
Proof.
  unfold claim. destruct (decode_fixed SECRET_LEN token) as [tok|]; [|intros [= <- <-]; apply ev_same].
  destruct (open p) as [o|] eqn:Eo; [|intros [= <- <-]; rewrite Eo; apply ev_same]. cbn [default].
  set (g := sha256 tok). destruct (negb (is_nearby o g) && negb (constant_time_eq (token_digest o) g)) eqn:Eg.
  { intros [= <- <-]. rewrite Eo. apply ev_same. }
  destruct (refresh o (outcomes p) now) as [o1 outs] eqn:Er. pose proof (refresh_lapsed _ _ _ _ _ Er) as Hl.
  destruct (phase o1) as [|c0 d0 code0 dl0|[c0|] s0] eqn:Ep.
  2: { destruct (settle o1 outs S_Denied) as [[o2 outs2] ph] eqn:Es. intros [= <- <-]. cbn.
       apply ev_lapsed. eapply lapsed_trans; [exact Hl|]. by eapply settle_lapsed. }
  2, 3: intros [= <- <-]; cbn; by apply ev_lapsed.
  apply lapsed_waiting in Hl as ->; [|done].
  destruct (if is_nearby o g then _ else _) eqn:Ex; [intros [= <- <-]; apply ev_same|].
  assert (claimable o g now) as Hclaim.
  { unfold claimable. destruct (is_nearby o g) eqn:En.
    - right. apply is_nearby_spec in En as (n & Hn & Hg). exists n. rewrite Hn in Ex. do 2 (split; [done|]).
      by apply negb_false_iff, N.ltb_lt in Ex.
    - left. cbn in Eg. apply negb_false_iff in Eg. rewrite constant_time_eq_spec, bool_decide_eq_true in Eg.
      split; [done|]. by apply N.leb_gt in Ex. }
  destruct (device_name name) as [nm|]; cbn [mbind res_bind]; [|intros [= <- <-]; apply ev_same].
  destruct (key_parse key) as [k|] eqn:Ek; cbn [mbind res_bind]; [|intros [= <- <-]; apply ev_same].
  destruct (random_bytes nonce) as [nc|]; cbn [mbind res_bind]; [|intros [= <- <-]; apply ev_same].
  destruct (random_id id) as [cid|]; cbn [mbind res_bind]; [|intros [= <- <-]; apply ev_same].
  destruct (random_id device) as [did|]; cbn [mbind res_bind]; [|intros [= <- <-]; apply ev_same].
  unfold accept. destruct (nearby o) as [n|] eqn:En; [destruct (is_nearby o g)|]; intros [= <- <-]; cbn [open].
  - by apply (ev_claimed o g now (MkClaim cid (nearby_code n) _) (MkNewDevice None did nm k) None); [..|right|].
  - pose proof (ev_claimed o g now (MkClaim cid (matching_code tok k nc) (saturating_add u64_max now APPROVAL_TTL_MS))
      (MkNewDevice None did nm k) (nearby o) Ep Hclaim (or_introl eq_refl) eq_refl) as Hev. by destruct o.
  - pose proof (ev_claimed o g now (MkClaim cid (matching_code tok k nc) (saturating_add u64_max now APPROVAL_TTL_MS))
      (MkNewDevice None did nm k) (nearby o) Ep Hclaim (or_introl eq_refl) eq_refl) as Hev. by destruct o.
Qed.

Lemma waiting_evolves p now p' w :
  waiting p now = (p', w) → evolves (open p) E_Nothing (open p') ∧
    (w = true → ∃ o, open p = Some o ∧ open p' = Some o ∧ phase o = Waiting).
Proof.
  unfold waiting. destruct (open p) as [o|] eqn:Eo; [|intros [= <- <-]; rewrite Eo; split; [apply ev_same|done]].
  destruct (refresh o (outcomes p) now) as [o1 outs] eqn:Er. pose proof (refresh_lapsed _ _ _ _ _ Er) as Hl.
  intros [= <- <-]. cbn. split; [by apply ev_lapsed|]. destruct (phase o1) eqn:Ep; [|done..]. intros _.
  apply lapsed_waiting in Hl as ->; [|done]. by exists o.
Qed.

Lemma nearby_evolves p token code now p' r :
  set_nearby p token code now = (p', r) →
  evolves (open p) (match r with Ok _ => E_Sealed (sha256 token) now | Err _ => E_Nothing end) (open p').
Proof.
  unfold set_nearby. destruct (waiting p now) as [p1 w] eqn:Ew. destruct (waiting_evolves _ _ _ _ Ew) as [Hev Hw].
  destruct w; cbn [negb]; [|intros [= <- <-]; done]. destruct (Hw eq_refl) as (o & Ho & Ho1 & Hph). rewrite Ho1.
  destruct (N.leb_spec MAX_NEARBY_REVEALS (nearby_reveals o)); intros [= <- <-]; [exact Hev|].
  cbn. rewrite Ho. by apply ev_sealed.
Qed.

Lemma find_open_ok p id o : find_open p id = Ok o → open p = Some o ∧ open_id o = id.
Proof. unfold find_open. destruct (open p) as [o0|]; [|done]. destruct (bool_decide_reflect (open_id o0 = id)); [|done]. by intros [= <-]. Qed.

Lemma from_evolves p c origin : evolves (open p) E_Nothing (open (claimed_from p c origin)).
Proof.
  unfold claimed_from. destruct (open p) as [o|] eqn:Eo; [|rewrite Eo; apply ev_same].
  destruct (phase o) as [|c0 d code dl|c0 s0] eqn:Ep; try (rewrite Eo; apply ev_same).
  destruct (bool_decide (c0 = c)); [|rewrite Eo; apply ev_same]. cbn. by eapply ev_from.
Qed.

Lemma state_evolves p id now : evolves (open p) E_Nothing (open (state p id now).1).
Proof.
  unfold state. destruct (find_open p id) as [o|] eqn:Ef; [|apply ev_same]. apply find_open_ok in Ef as [Eo _]. rewrite Eo.
  destruct (refresh o (outcomes p) now) as [o1 outs] eqn:Er. cbn. apply ev_lapsed. by eapply refresh_lapsed.
Qed.

Lemma status_evolves p id now : evolves (open p) E_Nothing (open (claim_status p id now).1).
Proof.
  unfold claim_status. destruct (open p) as [o|] eqn:Eo; [|cbn; rewrite Eo; apply ev_same].
  destruct (refresh o (outcomes p) now) as [o1 outs] eqn:Er. cbn. apply ev_lapsed. by eapply refresh_lapsed.
Qed.

Lemma refresh_claimed o outs now o1 outs1 c d code dl :
  refresh o outs now = (o1, outs1) → phase o1 = Claimed c d code dl → o1 = o ∧ outs1 = outs ∧ now < dl.
Proof.
  unfold refresh, settle. destruct (phase o) as [|c0 d0 code0 dl0|c0 s0] eqn:Ep.
  - destruct (_ <=? _); intros [= <- <-]; cbn; congruence.
  - destruct (N.leb_spec dl0 now); intros [= <- <-]; cbn; [congruence|]. rewrite Ep. intros [= -> -> -> ->]. done.
  - intros [= <- <-]. congruence.
Qed.

Lemma answer_evolves {D} p (d : D) id allow now keep p' d' r :
  answer p d id allow now keep = (p', d', r) →
  evolves (open p) (match r with Ok (Some device) => E_Approved device now | _ => E_Nothing end) (open p').
Proof.
  unfold answer. destruct (find_open p id) as [o|] eqn:Ef; [|intros [= <- _ <-]; apply ev_same].
  apply find_open_ok in Ef as [Eo _]. rewrite Eo. destruct (refresh o (outcomes p) now) as [o1 outs] eqn:Er.
  pose proof (refresh_lapsed _ _ _ _ _ Er) as Hl.
  destruct (phase o1) as [|c dev code dl|c s] eqn:Ep; try (intros [= <- _ <-]; by apply ev_lapsed).
  destruct (refresh_claimed _ _ _ _ _ _ _ _ _ Er Ep) as (-> & -> & Hdl).
  assert (∀ s o2 outs2 ph, settle o (outcomes p) s = (o2, outs2, ph) → (∀ d, s ≠ S_Approved d) →
    evolves (Some o) E_Nothing (Some o2)) as Hset by (intros; apply ev_lapsed; by eapply settle_lapsed).
  destruct allow; cbn [negb].
  - destruct (keep d dev) as [d1 [u|e]]; unfold settle; rewrite Ep; intros [= <- _ <-]; cbn.
    + by eapply ev_approved.
    + eapply Hset; [unfold settle; by rewrite Ep|done].
  - destruct (settle o (outcomes p) S_Denied) as [[o2 outs2] ph] eqn:Es. intros [= <- _ <-]. cbn. by eapply Hset.
Qed.

Lemma pair_op_evolves p op p' e : pair_op p op = (p', e) → evolves (open p) e (open p').
Proof.
  destruct op as [now os fp token id|token name key now nonce id device|now|token code now|c origin|id now|id now|id allow now kept|id];
    cbn [pair_op].
  - destruct (mint _ _ _ _ _ _) as [p1 r] eqn:E. intros [= <- <-]. by eapply mint_evolves.
  - destruct (claim _ _ _ _ _ _ _ _) as [p1 r] eqn:E. intros [= <- <-]. by eapply claim_evolves.
  - destruct (waiting p now) as [p1 w] eqn:E. intros [= <- <-]. by eapply waiting_evolves.
  - destruct (set_nearby _ _ _ _) as [p1 r] eqn:E. intros [= <- <-]. by eapply nearby_evolves.
  - intros [= <- <-]. apply from_evolves.
  - intros [= <- <-]. apply state_evolves.
  - intros [= <- <-]. apply status_evolves.
  - destruct (answer _ _ _ _ _ _) as [[p1 d] r] eqn:E. intros [= <- <-]. by eapply answer_evolves.
  - unfold cancel. destruct (find_open p id); intros [= <- <-]; cbn; [|apply ev_same].
    unfold close. destruct (open p) as [o|] eqn:Eo; [|rewrite Eo; apply ev_same].
    destruct (settle _ _ _) as [[? ?] ?]. apply ev_closed.
Qed.

(** *** What holds of every run *)

(** The open pairing is accounted for by the events before it. *)
Definition traced (h : list PairEvent) (o : Open) : Prop :=
  nearby_reveals o ≤ MAX_NEARBY_REVEALS ∧
  (∃ t, E_Minted (token_digest o) t ∈ h ∧ token_expires_ms o = saturating_add u64_max t TOKEN_TTL_MS) ∧
  (∀ n, nearby o = Some n → ∃ t, E_Sealed (digest n) t ∈ h ∧ nearby_expires_ms n = saturating_add u64_max t TOKEN_TTL_MS) ∧
  (∀ c d code dl, phase o = Claimed c d code dl →
     ∃ g t, E_Claimed g t (MkClaim c code dl) (new_key d) ∈ h ∧ dl = saturating_add u64_max t APPROVAL_TTL_MS).

Lemma traced_weaken h e o : traced h o → traced (e :: h) o.
Proof.
  intros (H1 & (t & H2 & H2') & H3 & H4). split; [done|]. split; [exists t; split; [set_solver|done]|]. split.
  - intros n Hn. destruct (H3 n Hn) as (t' & ? & ?). exists t'. split; [set_solver|done].
  - intros c d code dl Hp. destruct (H4 c d code dl Hp) as (g & t' & ? & ?). exists g, t'. split; [set_solver|done].
Qed.

Lemma traced_lapsed h o o' : lapsed o o' → traced h o → traced h o'.
Proof. intros [->|(c & s & -> & _)] (H1 & H2 & H3 & H4); [done|]. do 3 (split; [done|]). intros. done. Qed.

Lemma evolves_traced h oo e oo' :
  evolves oo e oo' → (∀ o, oo = Some o → traced h o) → ∀ o, oo' = Some o → traced (e :: h) o.
Proof.
  intros Hev Hh. destruct Hev as [oo|o o' Hl|oo|oo id g now n reveals Hn|o g code now Hp Hr|o g now c device n Hp Hc Hn He|
    o c d d' code dl Hp Hid Hname Hkey|o c d code dl now s Hp Hlt Hs]; intros o1 E; try done; try injection E as <-.
  - by apply traced_weaken, Hh.
  - apply traced_weaken. eapply traced_lapsed; [done|by apply Hh].
  - assert (reveals ≤ MAX_NEARBY_REVEALS ∧ ∀ m, n = Some m → ∃ t, E_Sealed (digest m) t ∈ h ∧
      nearby_expires_ms m = saturating_add u64_max t TOKEN_TTL_MS) as [Hr Hm].
    { unfold MAX_NEARBY_REVEALS. destruct oo as [o|]; [|destruct Hn as [-> ->]; split; [lia|done]].
      destruct (unclaimed o); destruct Hn as [-> ->]; [|split; [lia|done]].
      destruct (Hh o eq_refl) as (H1 & _ & H3 & _). done. }
    split; [done|]. split; [exists now; split; [set_solver|done]|]. split; [|done].
    intros m Em. destruct (Hm m Em) as (t & ? & ?). exists t. split; [set_solver|done].
  - destruct (traced_weaken h (E_Sealed g now) o (Hh o eq_refl)) as (H1 & H2 & H3 & H4). cbn.
    split; [cbn; lia|]. split; [done|]. split; [|done]. intros m [= <-]. exists now. cbn. split; [set_solver|done].
  - destruct (traced_weaken h (E_Claimed g now c (new_key device)) o (Hh o eq_refl)) as (H1 & H2 & H3 & H4).
    split; [done|]. split; [done|]. split.
    + cbn. intros m Em. destruct Hn as [->| ->]; [by apply H3|done].
    + cbn. intros c' d' code' dl' [= <- <- <- <-]. exists g, now. split; [|done]. destruct c. set_solver.
  - destruct (traced_weaken h E_Nothing o (Hh o eq_refl)) as (H1 & H2 & H3 & H4). do 3 (split; [done|]).
    cbn. intros c' d1 code' dl' [= <- <- <- <-]. rewrite Hkey. by eapply H4.
  - destruct (traced_weaken h (E_Approved d now) o (Hh o eq_refl)) as (H1 & H2 & H3 & H4). done.
Qed.

Lemma pair_run_snoc ops op p h :
  run (ops ++ [op]) p h = let '(p, h) := run ops p h in let '(p, e) := pair_op p op in (p, e :: h).
Proof. unfold run. rewrite foldl_app. cbn. by destruct (foldl _ _ ops). Qed.

(** What is known where an event stands: the pairing the step before left. *)
Lemma run_event ops p h :
  run ops pairings_default [] = (p, h) →
  (∀ o, open p = Some o → traced h o) ∧
  ∀ h1 e h2, h = h1 ++ e :: h2 →
    ∃ oo oo', evolves oo e oo' ∧ (∀ o, oo = Some o → traced h2 o).
Proof.
  revert p h. induction ops as [|op ops IH] using rev_ind; intros p h.
  { intros [= <- <-]. split; [done|]. by intros [|? ?] e h2. }
  rewrite pair_run_snoc. destruct (run ops _ _) as [p0 h0]. destruct (IH p0 h0 eq_refl) as [Htr Hev].
  destruct (pair_op p0 op) as [p1 e1] eqn:Eop. apply pair_op_evolves in Eop. intros [= <- <-]. split.
  - by eapply evolves_traced.
  - intros [|e0 h1] e h2 Eh; cbn in Eh; [injection Eh as <- <-; by eauto|]. injection Eh as _ Eh. by apply (Hev h1).
Qed.

(** *** A token is used once *)

(** [g] was claimed, and nobody minted or sealed it again. *)
Fixpoint spent (g : list N) (h : list PairEvent) : bool :=
  match h with
  | [] => false
  | E_Minted g' _ :: h | E_Sealed g' _ :: h => if bool_decide (g' = g) then false else spent g h
  | E_Claimed g' _ _ _ :: h => if bool_decide (g' = g) then true else spent g h
  | _ :: h => spent g h
  end.

(** An event that makes [g] a token. *)
Definition issues (g : list N) (e : PairEvent) : bool :=
  match e with E_Minted g' _ | E_Sealed g' _ => bool_decide (g' = g) | _ => false end.

Definition names (o : Open) (g : list N) : Prop := token_digest o = g ∨ ∃ n, nearby o = Some n ∧ digest n = g.

Definition spent_ok (h : list PairEvent) (oo : option Open) : Prop :=
  ∀ g o, spent g h = true → oo = Some o → names o g → unclaimed o = false.

Lemma lapsed_unclaimed o o' : lapsed o o' → unclaimed o = false → unclaimed o' = false.
Proof.
  intros [->|(c & s & -> & _ & Hn & _)] Hu; [done|]. unfold unclaimed in *. cbn. destruct c; [done|].
  by rewrite (Hn eq_refl) in Hu.
Qed.

Lemma lapsed_names o o' g : lapsed o o' → names o' g → names o g.
Proof. by intros [->|(c & s & -> & _)]. Qed.

Lemma evolves_spent h oo e oo' : evolves oo e oo' → spent_ok h oo → spent_ok (e :: h) oo'.
Proof.
  intros Hev Hok g0 o1 Hs E Hn. destruct Hev as [oo|o o' Hl|oo|oo id g now n reveals Hm|o g code now Hp Hr|
    o g now c device n Hp Hc Hcn He|o c d d' code dl Hp Hid Hname Hkey|o c d code dl now s Hp Hlt Hst];
    cbn [spent] in Hs; try done; try injection E as <-.
  - by apply (Hok g0).
  - eapply lapsed_unclaimed; [done|]. apply (Hok g0); [done..|]. by eapply lapsed_names.
  - destruct (bool_decide_reflect (g = g0)) as [->|Hne]; [done|]. exfalso. destruct Hn as [Hg|(m & Hm' & Hg)]; [by cbn in Hg|].
    cbn in Hm'. subst n. destruct oo as [o|]; [|by destruct Hm]. destruct (unclaimed o) eqn:Eu; [|by destruct Hm].
    destruct Hm as [Hm _]. assert (unclaimed o = false); [|congruence]. apply (Hok g0); [done..|]. right. by exists m.
  - destruct (bool_decide_reflect (g = g0)) as [->|Hne]; [done|]. exfalso.
    assert (names o g0) as Hno.
    { destruct Hn as [Hg|(m & Hm' & Hg)]; [by left|]. cbn in Hm'. injection Hm' as <-. done. }
    specialize (Hok g0 o Hs eq_refl Hno). unfold unclaimed in Hok. by rewrite Hp in Hok.
  - done.
  - unfold unclaimed. done.
  - done.
Qed.

Lemma claimable_names o g now : claimable o g now → names o g.
Proof. intros [[? ?]|(n & ? & ? & ?)]; [by left|right; by exists n]. Qed.

Lemma spent_between g hm t c k h2 :
  (∀ t0, (E_Minted g t0 ∉ hm) ∧ (E_Sealed g t0 ∉ hm)) → spent g (hm ++ E_Claimed g t c k :: h2) = true.
Proof.
  induction hm as [|e hm IH]; intros Hno; cbn; [by rewrite bool_decide_true|].
  assert (spent g (hm ++ E_Claimed g t c k :: h2) = true) as Hs.
  { apply IH. intros t0. destruct (Hno t0). set_solver. }
  destruct e as [g' t'|g' t'|g' t' c' k'|d t'|]; try done; destruct (bool_decide_reflect (g' = g)) as [->|]; try done;
    destruct (Hno t'); set_solver.
Qed.

Lemma run_spent ops p h : run ops pairings_default [] = (p, h) → spent_ok h (open p) ∧
  ∀ h1 g t c k h2, h = h1 ++ E_Claimed g t c k :: h2 → spent g h2 = false.
Proof.
  revert p h. induction ops as [|op ops IH] using rev_ind; intros p h.
  { intros [= <- <-]. split; [by intros g o|]. by intros [|? ?]. }
  rewrite pair_run_snoc. destruct (run ops _ _) as [p0 h0]. destruct (IH p0 h0 eq_refl) as [Hok Hev].
  destruct (pair_op p0 op) as [p1 e1] eqn:Eop. apply pair_op_evolves in Eop. intros [= <- <-]. split.
  - by eapply evolves_spent.
  - intros [|e0 h1] g t c k h2 Eh; cbn in Eh; [|injection Eh as _ Eh; by eapply Hev].
    injection Eh as -> <-. inversion Eop as [| | | | |o ? ? ? device n Hp Hc Hn He Ho| |]; subst.
    destruct (spent g h0) eqn:Es; [|done]. symmetry in Ho.
    pose proof (Hok g o Es Ho (claimable_names _ _ _ Hc)) as Hu. unfold unclaimed in Hu. by rewrite Hp in Hu.
Qed.

(** C24: whatever the desktop, the phones and the clock do, a device is approved only on a claim the person
    had under two minutes to answer, with the key that claim presented, and that claim presented a token minted or
    sealed under a minute before. No token is claimed twice unless it was minted or sealed again in between. *)
Theorem approval_traced (ops : list PairOp) (p : Pairings) (h : list PairEvent) :
  run ops pairings_default [] = (p, h) →
  (∀ h1 device now h2, h = h1 ++ E_Approved device now :: h2 →
     ∃ g t c, E_Claimed g t c (new_key device) ∈ h2 ∧ now < saturating_add u64_max t APPROVAL_TTL_MS) ∧
  (∀ h1 g t c key h2, h = h1 ++ E_Claimed g t c key :: h2 →
     ∃ t0, (E_Minted g t0 ∈ h2 ∨ E_Sealed g t0 ∈ h2) ∧ t < saturating_add u64_max t0 TOKEN_TTL_MS) ∧
  (∀ h1 g t c key hm t' c' key' h2, h = h1 ++ E_Claimed g t c key :: hm ++ E_Claimed g t' c' key' :: h2 →
     ∃ t0, E_Minted g t0 ∈ hm ∨ E_Sealed g t0 ∈ hm).
Proof.
  intros Hrun. destruct (run_event _ _ _ Hrun) as [_ Hev]. destruct (run_spent _ _ _ Hrun) as [_ Hsp]. split; [|split].
  - intros h1 device now h2 Eh. destruct (Hev _ _ _ Eh) as (oo & oo' & He & Htr).
    inversion He as [| | | | | | |o c d code dl ? s Hp Hlt Hst]; subst. destruct (Htr o eq_refl) as (_ & _ & _ & H4).
    destruct (H4 _ _ _ _ Hp) as (g & t & Hin & ->). eauto.
  - intros h1 g t c key h2 Eh. destruct (Hev _ _ _ Eh) as (oo & oo' & He & Htr).
    inversion He as [| | | | |o ? ? ? device n Hp Hc Hn Hex| |]; subst. destruct (Htr o eq_refl) as (_ & (t0 & Hm & Ht0) & H3 & _).
    destruct Hc as [[<- Hlt]|(m & Hm' & <- & Hlt)].
    + exists t0. rewrite <-Ht0. auto.
    + destruct (H3 m Hm') as (t1 & Hs & Ht1). exists t1. rewrite <-Ht1. auto.
  - intros h1 g t c key hm t' c' key' h2 Eh. specialize (Hsp _ _ _ _ _ _ Eh).
    destruct (decide (Exists (λ e, issues g e = true) hm)) as [Hex|Hno].
    + apply Exists_exists in Hex as (e & Hin & He). destruct e as [g' t0|g' t0| | |]; try done;
        apply bool_decide_eq_true in He as ->; exists t0; auto.
    + exfalso. rewrite spent_between in Hsp; [done|]. intros t0.
      split; intros Hin; apply Hno, Exists_exists; eexists; (split; [exact Hin|]); by apply bool_decide_eq_true.
Qed.

(** *** The whole way *)

Lemma decode_fixed_encode `{!PrimitivesLaws} bs : Forall is_byte bs → decode_fixed (length bs) (url_encode bs) = Some bs.
Proof.
  intros Hb. unfold decode_fixed. rewrite encode_len, N.eqb_refl by done. cbn [negb].
  by rewrite decode_encode, Nat.eqb_refl.
Qed.

Lemma claim_waiting `{!PrimitivesLaws} p o tok name nm key k nonce cid did now :
  open p = Some o → phase o = Waiting → is_nearby o (sha256 tok) = false → token_digest o = sha256 tok →
  now < token_expires_ms o → length tok = SECRET_LEN → Forall is_byte tok →
  device_name name = Ok nm → key_parse key = Ok k →
  let code := matching_code tok k nonce in
  let deadline := saturating_add u64_max now APPROVAL_TTL_MS in
  claim p (url_encode tok) name key now (Some nonce) (Some cid) (Some did) =
    (MkPairings (Some (with_phase o (Claimed (url_encode cid) (MkNewDevice None (url_encode did) nm k) code deadline))) (outcomes p),
     Ok (MkClaim (url_encode cid) code deadline)).
Proof.
  intros Ho Hp Hn Hg Hnow Hl Hb Hname Hkey code deadline. unfold claim. rewrite <-Hl, decode_fixed_encode, Ho by done.
  rewrite Hn, Hg, constant_time_eq_spec, bool_decide_true by done. cbn [negb andb].
  assert (refresh o (outcomes p) now = (o, outcomes p)) as ->.
  { unfold refresh. rewrite Hp. assert (token_expires_ms o ≤ claimable_until o) as Hc by (unfold claimable_until; destruct (nearby o); lia).
    by rewrite (proj2 (N.leb_gt _ _)) by lia. }
  rewrite Hp, (proj2 (N.leb_gt _ _)), Hname, Hkey by done. cbn [mbind res_bind random_bytes ok_or random_id].
  unfold accept. by destruct (nearby o).
Qed.

(** A phone that claims the token of the QR in time, with a name and a key that are valid, gets a claim
    whose code the desktop shows; when the person allows it in time and the device is stored, the device that is
    stored has the name and the key it gave, and the phone reads that it was approved. *)
Theorem pairing_flow `{!PrimitivesLaws} {D} (p p1 : Pairings) (offer : Offer) (t0 t1 t2 t3 : N) (origins : list str)
    (fp : str) (tok nonce cid did : list N) (id : Draw) (name nm key : str) (k : PublicKey) (d d' : D)
    (keep : D → NewDevice → D * res Error unit) (device := MkNewDevice None (url_encode did) nm k) :
  mint p t0 origins fp (Some tok) id = (p1, Ok offer) →
  (∀ o, open p1 = Some o → is_nearby o (sha256 tok) = false) →
  length tok = SECRET_LEN → Forall is_byte tok → device_name name = Ok nm → key_parse key = Ok k →
  t1 < saturating_add u64_max t0 TOKEN_TTL_MS → t2 < saturating_add u64_max t1 APPROVAL_TTL_MS →
  keep d device = (d', Ok tt) →
  ∃ p2 p3 c,
    claim p1 (url_encode tok) name key t1 (Some nonce) (Some cid) (Some did) = (p2, Ok c) ∧
    state p2 (offer_id offer) t2 = (p2, Ok (S_Claimed nm (claim_code c) None)) ∧
    answer p2 d (offer_id offer) true t2 keep = (p3, d', Ok (Some device)) ∧
    (claim_status p3 (claim_id c) t3).2 = Ok (S_Approved (new_id device)).
Proof.
  intros Hmint Hfresh Hl Hb Hname Hkey H1 H2 Hkeep.
  assert (∃ n r, open p1 = Some (MkOpen (offer_id offer) (sha256 tok) (saturating_add u64_max t0 TOKEN_TTL_MS) n r Waiting)) as (n & r & Ho).
  { unfold mint in Hmint. destruct (head origins); [|done]. cbn [random_bytes ok_or] in Hmint.
    destruct (match open p with Some o => _ | None => _ end) as [[[i n] r]|]; [|done]. injection Hmint as <- <-. by eexists _, _. }
  rewrite (claim_waiting p1 _ tok name nm key k nonce cid did t1 Ho); [|done|by apply Hfresh|done..].
  do 3 eexists. split; [done|]. cbn [claim_code claim_id].
  assert (∀ o outs c dv code dl, phase o = Claimed c dv code dl → t2 < dl → refresh o outs t2 = (o, outs)) as Hr.
  { intros o outs c dv code dl Hp Hlt. unfold refresh. by rewrite Hp, (proj2 (N.leb_gt _ _)). }
  split; [|split].
  - unfold state, find_open. cbn [open open_id with_phase]. rewrite bool_decide_true by done. by erewrite Hr.
  - unfold answer, find_open. cbn [open open_id with_phase]. rewrite bool_decide_true by done. erewrite Hr by done.
    cbn [phase with_phase negb]. unfold device in Hkeep. by rewrite Hkeep.
  - unfold claim_status. cbn -[reverse app]. rewrite reverse_snoc. cbn -[reverse]. by rewrite bool_decide_true.
Qed.
End runs.

(** ** Witnesses *)

Definition sample_token : list N := replicate 32 7.
Definition sample_key : list N := 4 :: replicate 64 1.

Definition sample_ops : list PairOp :=
  [O_Mint 1000 [lit "https://pc"] (lit "AA:BB") (Some sample_token) (Some [1]);
   O_Claim (url_encode sample_token) (lit " phone ") (url_encode sample_key) 2000 (Some [9]) (Some [2]) (Some [3]);
   O_Answer (url_encode [1]) true 3000 true].

Lemma approval_traced_witness :
  ∃ p h device now, run sample_ops pairings_default [] = (p, E_Approved device now :: h) ∧
    ∃ g t c, E_Claimed g t c (new_key device) ∈ h ∧ now < saturating_add u64_max t APPROVAL_TTL_MS.
Proof.
  destruct (run sample_ops pairings_default []) as [p h] eqn:E.
  pose proof (approval_traced sample_ops p h E) as [Happ _].
  assert (h = E_Approved (MkNewDevice None (url_encode [3]) (lit "phone") sample_key) 3000 :: tail h) as Eh.
  { assert (h = (run sample_ops pairings_default []).2) as -> by (by rewrite E). vm_compute. reflexivity. }
  do 4 eexists. split; [exact (f_equal (pair p) Eh)|]. apply (Happ []). exact Eh.
Defined.

Lemma pairing_flow_witness :
  ∃ p2 p3 c,
    claim (mint pairings_default 1000 [lit "https://pc"] (lit "AA:BB") (Some sample_token) (Some [1])).1
      (url_encode sample_token) (lit " phone ") (url_encode sample_key) 2000 (Some [9]) (Some [2]) (Some [3]) = (p2, Ok c) ∧
    state p2 (url_encode [1]) 3000 = (p2, Ok (S_Claimed (lit "phone") (claim_code c) None)) ∧
    answer p2 0 (url_encode [1]) true 3000 (λ n _, (n + 1, Ok tt)) =
      (p3, 1, Ok (Some (MkNewDevice None (url_encode [3]) (lit "phone") sample_key))) ∧
    (claim_status p3 (claim_id c) 4000).2 = Ok (S_Approved (url_encode [3])).
Proof.
  destruct (mint pairings_default 1000 [lit "https://pc"] (lit "AA:BB") (Some sample_token) (Some [1])) as [p1 r] eqn:E.
  assert (r = Ok (MkOffer (url_encode [1]) (lit "https://pc/pair#t=" ++ url_encode sample_token ++ lit "&fp=AABB")
    (lit "AA:BB") 60000 [lit "https://pc"])) as ->.
  { change r with (p1, r).2. rewrite <-E. vm_compute. reflexivity. }
  refine (pairing_flow pairings_default p1 _ 1000 2000 3000 4000 [lit "https://pc"] (lit "AA:BB") sample_token [9] [2] [3]
    (Some [1]) (lit " phone ") (lit "phone") (url_encode sample_key) sample_key 0 1 _ E _ _ _ _ _ _ _ _);
    try (vm_compute; reflexivity).
  - intros o Ho.
    assert (p1 = (mint pairings_default 1000 [lit "https://pc"] (lit "AA:BB") (Some sample_token) (Some [1])).1) as -> by (by rewrite E).
    vm_compute in Ho. injection Ho as <-. reflexivity.
  - unfold sample_token. by apply Forall_replicate.
Defined.
End Pairing.
