(* ===== verification/Sessions.v ===== *)
(** * Sessions: what a paired phone proves, and what it gets
    (crates/sheprd-remote-control/src/auth/session.rs, auth/presence.rs,
    auth/handoff.rs)

    Challenges a device signs and the bearer tokens it gets for them, presence
    proofs over Bluetooth, and the tokens that move a device's access into its
    Home Screen app. Only digests of tokens are kept. *)

From Stdlib Require Import NArith Lia.
From stdpp Require Import base option gmap strings sets list.
From S2P Require Import Prelude Devices.

Local Open Scope N_scope.

Module Sessions.
Import Devices.

Definition CHALLENGE_TTL_MS : N := 60000.
Definition SESSION_TTL_MS : N := 12 * 60 * 60 * 1000.
Definition MAX_CHALLENGES_PER_DEVICE : nat := 8.
Definition MAX_SESSIONS_PER_DEVICE : nat := 16.
Definition SIGNED_PREFIX : list N := lit "herdr-remote-session" ++ [0].
Definition SIGNATURE_LEN : nat := 64.

Definition ChallengeId := str.

Record Challenge := MkChallenge { challenge_id : ChallengeId; challenge_nonce : str; challenge_expires_ms : N }.
Record Session := MkSession { session_token : str; session_device : DeviceId; session_expires_ms : N }.
Record Pending := MkPending { pending_device : DeviceId; pending_nonce : list N; issued_ms : N; pending_expires_ms : N }.
Record Live := MkLive { live_device : DeviceId; live_issued_ms : N; live_expires_ms : N }.

Record Sessions := MkSessions { challenges : gmap ChallengeId Pending; sessions : gmap (list N) Live }.

Definition sessions_default : Sessions := MkSessions ∅ ∅.

(** [signed_message]. *)
Definition signed_message (nonce : list N) : list N := SIGNED_PREFIX ++ nonce.

(** The entries of [device], in the order the map iterates; the oldest of them. *)
Definition owned {K V} `{IterOrder K V} (device_of : V → DeviceId) (device : DeviceId) (m : gmap K V) : list (K * V) :=
  filter (λ '(_, v), device_of v = device) (iter m).

(** Removes the oldest of a device's entries once it has [limit]. *)
Definition make_room {K V} `{IterOrder K V} (device_of : V → DeviceId) (issued : V → N) (limit : nat) (device : DeviceId)
    (m : gmap K V) : gmap K V :=
  let mine := owned device_of device m in
  if (limit <=? length mine)%nat then
    match min_by_key (λ '(_, v), issued v) mine with
    | Some (oldest, _) => base.delete oldest m
    | None => m
    end
  else m.

Section sessions.
Context `{Primitives} {order1 : IterOrder ChallengeId Pending} {order2 : IterOrder (list N) Live}.

(** [Sessions::challenge]. *)
Definition challenge (s : Sessions) (device : DeviceId) (now_ms : N) (devices : Devices) (nonce id : Draw)
    : Sessions * res Error Challenge :=
  match get devices device with
  | None => (s, Err UnknownDevice)
  | Some _ =>
      let live := filter (λ '(_, p), now_ms < pending_expires_ms p) (challenges s) in
      let roomy := make_room pending_device issued_ms MAX_CHALLENGES_PER_DEVICE device live in
      let s := MkSessions roomy (sessions s) in
      match random_bytes nonce with
      | Err e => (s, Err e)
      | Ok nonce =>
          match random_id id with
          | Err e => (s, Err e)
          | Ok id =>
              let expires_ms := saturating_add u64_max now_ms CHALLENGE_TTL_MS in
              (MkSessions (<[id := MkPending device nonce now_ms expires_ms]> roomy) (sessions s),
               Ok (MkChallenge id (url_encode nonce) expires_ms))
          end
      end
  end.

(** [Sessions::start]. *)
Definition start (s : Sessions) (device : DeviceId) (now_ms : N) (token : Draw) : Sessions * res Error Session :=
  let live := filter (λ '(_, l), now_ms < live_expires_ms l) (sessions s) in
  let roomy := make_room live_device live_issued_ms MAX_SESSIONS_PER_DEVICE device live in
  match random_bytes token with
  | Err e => (MkSessions (challenges s) roomy, Err e)
  | Ok token =>
      let expires_ms := saturating_add u64_max now_ms SESSION_TTL_MS in
      (MkSessions (challenges s) (<[sha256 token := MkLive device now_ms expires_ms]> roomy),
       Ok (MkSession (url_encode token) device expires_ms))
  end.

(** The checks of [Sessions::verify] on a challenge that was waiting. *)
Definition check_signature (p : Pending) (signature : str) (devices : Devices) : res Error unit :=
  match decode_fixed SIGNATURE_LEN signature with
  | None => Err InvalidSignature
  | Some signature =>
      if negb (signature_from_slice signature) then Err InvalidSignature
      else
        record ← ok_or UnknownDevice (get devices (pending_device p));
        key ← verifying_key (public_key record);
        if ecdsa_verify key (signed_message (pending_nonce p)) signature then Ok tt else Err InvalidSignature
  end.

(** [Sessions::verify]. *)
Definition verify (s : Sessions) (id : ChallengeId) (signature : str) (now_ms : N) (devices : Devices) (token : Draw)
    : Sessions * res Error Session :=
  let used := MkSessions (base.delete id (challenges s)) (sessions s) in
  match challenges s !! id with
  | None => (used, Err UnknownChallenge)
  | Some p =>
      if pending_expires_ms p <=? now_ms then (used, Err UnknownChallenge)
      else
        match check_signature p signature devices with
        | Err e => (used, Err e)
        | Ok _ => start used (pending_device p) now_ms token
        end
  end.

(** [Sessions::authenticate]. *)
Definition authenticate (s : Sessions) (bearer : str) (now_ms : N) : Sessions * option DeviceId :=
  match decode_fixed SECRET_LEN bearer with
  | None => (s, None)
  | Some token =>
      let g := sha256 token in
      match sessions s !! g with
      | None => (s, None)
      | Some l =>
          if live_expires_ms l <=? now_ms then (MkSessions (challenges s) (base.delete g (sessions s)), None)
          else (s, Some (live_device l))
      end
  end.
End sessions.

(** [Sessions::end_device]. *)
Definition end_device (s : Sessions) (device : DeviceId) : Sessions :=
  MkSessions (filter (λ '(_, p), pending_device p ≠ device) (challenges s))
    (filter (λ '(_, l), live_device l ≠ device) (sessions s)).

(** ** Presence *)

Definition NONCE_TTL_MS : N := 30000.
Definition MAX_PENDING_PER_DEVICE : nat := 4.
Definition MAX_PENDING : nat := 64.
Definition PREFIX : list N := lit "herdr-presence-v1".
Definition CHALLENGE_PREFIX : list N := lit "herdr-presence-challenge-v1".
Definition HINT_PREFIX : list N := lit "herdr-presence-hint-v1".
Definition HINT_LEN : nat := 16.
Definition DAY_MS : N := 86400000.

Record Nonce := MkNonce { nonce_device : DeviceId; nonce_bytes : list N; nonce_expires_ms : N }.
Definition Presences := list Nonce.

(** The first position of what [p] holds of: [position]. *)
Definition position {A} (p : A → bool) (l : list A) : option nat := fst <$> list_find (λ a, p a = true) l.

Section presence.
Context `{Primitives}.

(** [hint]. *)
Definition hint (device : DeviceId) (day : N) : list N :=
  let day := be_bytes 4 (if u32_max <? day then u32_max else day) in
  take HINT_LEN (sha256 (HINT_PREFIX ++ as_bytes device ++ day)).

(** [challenge_message] and [message]. *)
Definition challenge_message (nonce : list N) (device : DeviceId) : list N := CHALLENGE_PREFIX ++ nonce ++ as_bytes device.
Definition message (fingerprint nonce : list N) : list N := PREFIX ++ fingerprint ++ nonce.

(** Whether a hint is the device's for yesterday, today or tomorrow. *)
Definition hinted (h : list N) (today : N) (device : DeviceId) : bool :=
  foldl (λ found day, found || constant_time_eq h (hint device day)) false
    [today - 1; today; saturating_add u64_max today 1].

(** The room [Presences::challenge] makes for one more nonce of [device]. *)
Definition presence_room (ps : Presences) (device : DeviceId) (now_ms : N) : Presences :=
  let mine (n : Nonce) := bool_decide (nonce_device n = device) in
  let live := filter (λ n, now_ms < nonce_expires_ms n) ps in
  let waiting := length (filter (λ n, mine n = true) live) in
  let roomy :=
    if (MAX_PENDING_PER_DEVICE <=? waiting)%nat then
      match position mine live with Some oldest => delete oldest live | None => live end
    else live in
  if (MAX_PENDING <=? length roomy)%nat then drop 1 roomy else roomy.

(** [Presences::challenge]. *)
Definition presence_challenge (ps : Presences) (h : str) (now_ms : N) (devices : Devices) (nonce : Draw)
    : Presences * res Error (DeviceId * list N) :=
  match decode_fixed HINT_LEN h with
  | None => (ps, Err UnknownPresence)
  | Some h =>
      match find (hinted h (now_ms / DAY_MS)) (ids devices) with
      | None => (ps, Err UnknownPresence)
      | Some device =>
          let ps := presence_room ps device now_ms in
          match random_bytes nonce with
          | Err e => (ps, Err e)
          | Ok nonce =>
              (ps ++ [MkNonce device nonce (saturating_add u64_max now_ms NONCE_TTL_MS)], Ok (device, nonce))
          end
      end
  end.

(** The checks of [Presences::prove] on the nonce it found; every failure reads the same. *)
Definition check_proof (n : Nonce) (signature : str) (fingerprint : list N) (now_ms : N) (devices : Devices) : option DeviceId :=
  if nonce_expires_ms n <=? now_ms then None
  else
    signature ← decode_fixed SIGNATURE_LEN signature;
    if negb (signature_from_slice signature) then None
    else
      record ← get devices (nonce_device n);
      key ← ok (verifying_key (public_key record));
      if ecdsa_verify key (message fingerprint (nonce_bytes n)) signature then Some (nonce_device n) else None.

(** [Presences::prove]. *)
Definition prove (ps : Presences) (nonce signature : str) (fingerprint : list N) (now_ms : N) (devices : Devices)
    : Presences * res Error DeviceId :=
  match decode_fixed SECRET_LEN nonce with
  | None => (ps, Err UnknownPresence)
  | Some given =>
      match list_find (λ n, constant_time_eq given (nonce_bytes n) = true) ps with
      | None => (ps, Err UnknownPresence)
      | Some (index, n) => (delete index ps, ok_or UnknownPresence (check_proof n signature fingerprint now_ms devices))
      end
  end.
End presence.

(** ** Handoffs *)

Definition HANDOFF_TTL_MS : N := 24 * 60 * 60000.

Record Handoff := MkHandoff { handoff_token : str; handoff_expires_ms : N }.

(** [handoff_file] is what the digests' file holds. *)
Definition Handoffs := gmap DeviceId (list N * N).
Record HandoffStore := MkHandoffStore { handoffs : Handoffs; handoff_file : option Handoffs }.

(** [Handoffs::save]. *)
Definition handoff_save (s : Save) (h : HandoffStore) : HandoffStore * res Error unit :=
  match s with
  | None => (h, Err Encode)
  | Some io =>
      let '(replaced, r) := write_private io in
      (if replaced then MkHandoffStore (handoffs h) (Some (handoffs h)) else h, r)
  end.

Section handoffs.
Context `{Primitives} {order : IterOrder DeviceId (list N * N)}.

(** [Handoffs::mint]; the date wraps as in a release build. *)
Definition handoff_mint (h : HandoffStore) (device : DeviceId) (now_ms : N) (secret : Draw) (s : Save)
    : HandoffStore * res Error Handoff :=
  let live := filter (λ '(_, (_, expires)), now_ms < expires) (handoffs h) in
  match random_bytes secret with
  | Err e => (MkHandoffStore live (handoff_file h), Err e)
  | Ok secret =>
      let token := url_encode secret in
      let expires_ms := (now_ms + HANDOFF_TTL_MS) mod 2 ^ 64 in
      let '(h, r) := handoff_save s (MkHandoffStore (<[device := (sha256 (as_bytes token), expires_ms)]> live) (handoff_file h)) in
      (h, match r with Err e => Err e | Ok _ => Ok (MkHandoff token expires_ms) end)
  end.

(** [Handoffs::redeem]. *)
Definition handoff_redeem (h : HandoffStore) (token : str) (now_ms : N) (s : Save) : HandoffStore * res Error (option DeviceId) :=
  let g := sha256 (as_bytes token) in
  match find (λ '(_, (stored, expires)), (now_ms <? expires) && constant_time_eq stored g) (iter (handoffs h)) with
  | None => (h, Ok None)
  | Some (device, entry) =>
      let '(h, r) := handoff_save s (MkHandoffStore (base.delete device (handoffs h)) (handoff_file h)) in
      match r with
      | Err e => (MkHandoffStore (<[device := entry]> (handoffs h)) (handoff_file h), Err e)
      | Ok _ => (h, Ok (Some device))
      end
  end.
End handoffs.

(** [Handoffs::forget]. *)
Definition handoff_forget (h : HandoffStore) (device : DeviceId) (s : Save) : HandoffStore * res Error unit :=
  match handoffs h !! device with
  | None => (h, Ok tt)
  | Some _ => handoff_save s (MkHandoffStore (base.delete device (handoffs h)) (handoff_file h))
  end.

(** ** Room per device *)

Section room.
Context {K V : Type} `{IterOrder K V} (device_of : V → DeviceId) (issued : V → N).

Definition count (device : DeviceId) (m : gmap K V) : nat := size (filter (λ '(_, v), device_of v = device) m).

Lemma owned_count device m : length (owned device_of device m) = count device m.
Proof.
  unfold owned, count. rewrite <-length_map_to_list. apply Permutation_length, NoDup_Permutation.
  - apply NoDup_filter. rewrite iter_perm. apply NoDup_map_to_list.
  - apply NoDup_map_to_list.
  - intros [k v]. rewrite list_elem_of_filter, elem_of_iter, elem_of_map_to_list, map_lookup_filter_Some. tauto.
Qed.

Lemma make_room_sub limit device m : make_room device_of issued limit device m ⊆ m.
Proof. unfold make_room. repeat case_match; try done. apply delete_subseteq. Qed.

Lemma count_mono device m m' : m ⊆ m' → (count device m ≤ count device m')%nat.
Proof. intros Hm. apply map_subseteq_size. by apply map_filter_subseteq_mono. Qed.

(** Once room is made, one more entry of the device still fits. *)
Lemma make_room_count limit device m :
  (0 < limit)%nat → (count device m ≤ limit)%nat →
  (count device (make_room device_of issued limit device m) < limit)%nat.
Proof.
  intros Hpos Hle. unfold make_room. rewrite owned_count. destruct (Nat.leb_spec limit (count device m)) as [Hfull|?]; [|done].
  destruct (min_by_key _ _) as [[k v]|] eqn:E.
  - apply min_by_key_Some in E as [[Hv Hin%elem_of_iter]%list_elem_of_filter _]. unfold count.
    rewrite map_filter_delete, map_size_delete_Some; [unfold count in *; lia|].
    exists v. by apply map_lookup_filter_Some.
  - apply min_by_key_None in E. apply (f_equal length) in E. rewrite owned_count in E. cbn in E. lia.
Qed.

Lemma count_insert device k v m :
  (count device (<[k := v]> m) ≤ count device m + (if bool_decide (device_of v = device) then 1 else 0))%nat.
Proof.
  unfold count. destruct (bool_decide_reflect (device_of v = device)) as [Hv|Hv].
  - rewrite map_filter_insert_True by done. rewrite map_size_insert. case_match; cbn; lia.
  - rewrite map_filter_insert_False by done. pose proof (map_subseteq_size _ _ (map_filter_subseteq_mono (λ '(_, v), device_of v = device) _ _ (delete_subseteq m k))). lia.
Qed.
End room.

(** No device has more than its share of challenges and sessions. *)
Definition bounded (s : Sessions) : Prop := ∀ d,
  (count pending_device d (challenges s) ≤ MAX_CHALLENGES_PER_DEVICE)%nat ∧
  (count live_device d (sessions s) ≤ MAX_SESSIONS_PER_DEVICE)%nat.

Lemma bounded_sub s s' : challenges s' ⊆ challenges s → sessions s' ⊆ sessions s → bounded s → bounded s'.
Proof. intros H1 H2 Hb d. destruct (Hb d). split; (etrans; [by apply count_mono|done]). Qed.

Section ops.
Context `{Primitives} {order1 : IterOrder ChallengeId Pending} {order2 : IterOrder (list N) Live}.

(** An entry added where room was made. *)
Lemma room_insert {K V} `{IterOrder K V} (device_of : V → DeviceId) (issued : V → N) limit device m k v d :
  (0 < limit)%nat → (∀ d, count device_of d m ≤ limit)%nat → device_of v = device →
  (count device_of d (<[k := v]> (make_room device_of issued limit device m)) ≤ limit)%nat.
Proof.
  intros Hpos Hm Hv. etrans; [apply count_insert|]. rewrite Hv. destruct (bool_decide_reflect (device = d)) as [->|Hne].
  - pose proof (make_room_count device_of issued limit d m Hpos (Hm d)). lia.
  - pose proof (count_mono device_of d _ _ (make_room_sub device_of issued limit device m)). specialize (Hm d). lia.
Qed.

Lemma challenge_bounded s device now devices nonce id : bounded s → bounded (challenge s device now devices nonce id).1.
Proof.
  intros Hb. unfold challenge. destruct (get devices device) as [rec|]; [|done]. set (live := filter _ (challenges s)).
  assert (∀ d, count pending_device d live ≤ MAX_CHALLENGES_PER_DEVICE)%nat as Hlive.
  { intros d. etrans; [apply count_mono, map_filter_subseteq|apply Hb]. }
  assert (bounded (MkSessions (make_room pending_device issued_ms MAX_CHALLENGES_PER_DEVICE device live) (sessions s))) as Hroom.
  { apply (bounded_sub s); [|done|done]. etrans; [apply make_room_sub|apply map_filter_subseteq]. }
  destruct (random_bytes nonce); [|done]. destruct (random_id id); [|done].
  intros d. split; [|apply Hb]. apply room_insert; [unfold MAX_CHALLENGES_PER_DEVICE; lia|done..].
Qed.

Lemma start_bounded s device now token : bounded s → bounded (start s device now token).1.
Proof.
  intros Hb. unfold start. set (live := filter _ (sessions s)).
  assert (∀ d, count live_device d live ≤ MAX_SESSIONS_PER_DEVICE)%nat as Hlive.
  { intros d. etrans; [apply count_mono, map_filter_subseteq|apply Hb]. }
  destruct (random_bytes token); intros d; (split; [apply Hb|]).
  - apply room_insert; [unfold MAX_SESSIONS_PER_DEVICE; lia|done..].
  - etrans; [apply count_mono, make_room_sub|apply Hlive].
Qed.

Lemma verify_bounded s id sg now devices token : bounded s → bounded (verify s id sg now devices token).1.
Proof.
  intros Hb. unfold verify. set (used := MkSessions _ _). assert (bounded used) as Hu.
  { apply (bounded_sub s); [apply delete_subseteq|done|done]. }
  destruct (challenges s !! id) as [p|]; [|done]. destruct (_ <=? _); [done|].
  destruct (check_signature _ _ _); [|done]. by apply start_bounded.
Qed.

(** Where the sessions after an operation come from. *)
Lemma start_sessions s device now token s' r g l :
  start s device now token = (s', r) → sessions s' !! g = Some l →
  sessions s !! g = Some l ∨
  (∃ t, token = Some t ∧ g = sha256 t ∧ l = MkLive device now (saturating_add u64_max now SESSION_TTL_MS) ∧
     r = Ok (MkSession (url_encode t) device (saturating_add u64_max now SESSION_TTL_MS))).
Proof.
  unfold start. set (roomy := make_room _ _ _ _ _). assert (∀ g l, roomy !! g = Some l → sessions s !! g = Some l) as Hsub.
  { intros g0 l0 Hg. eapply lookup_weaken; [|apply (map_filter_subseteq (λ '(_, l), now < live_expires_ms l))].
    eapply lookup_weaken; [exact Hg|]. apply make_room_sub. }
  destruct token as [t|]; cbn [random_bytes ok_or]; intros [= <- <-]; cbn [sessions]; [|by left; apply Hsub].
  destruct (decide (g = sha256 t)) as [->|Hne].
  - rewrite lookup_insert_eq. intros [= <-]. right. by exists t.
  - rewrite lookup_insert_ne by done. left. by apply Hsub.
Qed.

Lemma verify_sessions s id sg now devices token s' r g l :
  verify s id sg now devices token = (s', r) → sessions s' !! g = Some l →
  sessions s !! g = Some l ∨
  (∃ p sn, challenges s !! id = Some p ∧ now < pending_expires_ms p ∧ check_signature p sg devices = Ok tt ∧
     l = MkLive (pending_device p) now (saturating_add u64_max now SESSION_TTL_MS) ∧ r = Ok sn).
Proof.
  unfold verify. destruct (challenges s !! id) as [p|] eqn:Ep; [|intros [= <- <-]; by left].
  destruct (N.leb_spec (pending_expires_ms p) now); [intros [= <- <-]; by left|].
  destruct (check_signature p sg devices) as [[]|] eqn:Ec; [|intros [= <- <-]; by left].
  intros Hs Hg. destruct (start_sessions _ _ _ _ _ _ _ _ Hs Hg) as [?|(t & _ & _ & -> & ->)]; [by left|right].
  eexists p, _. by repeat split.
Qed.

(** A device that answers its challenge in time with a signature by its key gets a bearer token, and the
    token names that device until the session ends, twelve hours on; the challenge cannot be answered again. *)
Theorem session_roundtrip `{!PrimitivesLaws} (s : Sessions) (id : ChallengeId) (p : Pending) (signature : str)
    (now later : N) (devices : Devices) (token : list N) :
  challenges s !! id = Some p → now < pending_expires_ms p → check_signature p signature devices = Ok tt →
  length token = SECRET_LEN → Forall is_byte token → now + SESSION_TTL_MS ≤ u64_max →
  ∃ s',
    verify s id signature now devices (Some token) =
      (s', Ok (MkSession (url_encode token) (pending_device p) (now + SESSION_TTL_MS))) ∧
    (authenticate s' (url_encode token) later).2 =
      (if later <? now + SESSION_TTL_MS then Some (pending_device p) else None) ∧
    challenges s' !! id = None.
Proof.
  intros Hp Hnow Hc Hl Hb Hmax. unfold verify. rewrite Hp, (proj2 (N.leb_gt _ _)), Hc by done. unfold start.
  cbn [random_bytes ok_or]. unfold saturating_add. rewrite N.min_r by done. eexists. split; [done|]. split.
  - unfold authenticate. rewrite <-Hl.
    assert (decode_fixed (length token) (url_encode token) = Some token) as ->.
    { unfold decode_fixed. rewrite encode_len, N.eqb_refl by done. cbn [negb]. by rewrite decode_encode, Nat.eqb_refl. }
    cbn [sessions]. rewrite lookup_insert_eq. cbn [live_expires_ms].
    destruct (N.leb_spec (now + SESSION_TTL_MS) later), (N.ltb_spec later (now + SESSION_TTL_MS)); (done || lia).
  - cbn. apply lookup_delete_eq.
Qed.
End ops.

(** *** Presence *)

Section presence_lemmas.
Context `{Primitives}.

(** A proof is of a nonce that waits, in time, by the key of the device it was given to; it is spent. *)
Lemma prove_sound ps nonce sg fp now devices ps' d :
  prove ps nonce sg fp now devices = (ps', Ok d) →
  ∃ i n r signature, ps !! i = Some n ∧ ps' = delete i ps ∧ nonce_device n = d ∧ now < nonce_expires_ms n ∧
    decode_fixed SECRET_LEN nonce = Some (nonce_bytes n) ∧ get devices d = Some r ∧
    ecdsa_verify (public_key r) (message fp (nonce_bytes n)) signature = true.
Proof.
  unfold prove. destruct (decode_fixed SECRET_LEN nonce) as [given|] eqn:Ed; [|done].
  destruct (list_find _ ps) as [[i n]|] eqn:El; [|done]. apply list_find_Some in El as (Hi & He & _).
  rewrite constant_time_eq_spec, bool_decide_eq_true in He. subst given. intros [= <- Hc]. apply ok_or_ok in Hc.
  unfold check_proof in Hc. destruct (N.leb_spec (nonce_expires_ms n) now); [done|].
  apply bind_Some in Hc as (signature & _ & Hc). destruct (negb _); [done|].
  apply bind_Some in Hc as (r & Hr & Hc). apply bind_Some in Hc as (key & Hk & Hc). unfold verifying_key in Hk.
  destruct (sec1_point (public_key r)); [|done]. injection Hk as <-.
  destruct (ecdsa_verify _ _ _) eqn:Ev; [|done]. injection Hc as <-. by exists i, n, r, signature.
Qed.

Lemma presence_room_length ps device now :
  (length ps ≤ MAX_PENDING)%nat → (length (presence_room ps device now) < MAX_PENDING)%nat.
Proof.
  intros Hl. unfold presence_room. cbv zeta.
  match goal with |- context [position ?m ?l] => set (mine := m) in *; set (live := l) in * end.
  assert (length live ≤ MAX_PENDING)%nat as H1 by (etrans; [apply length_filter|done]).
  match goal with |- context [(MAX_PENDING <=? length ?r)%nat] => set (roomy := r) end.
  assert (length roomy ≤ MAX_PENDING)%nat as H2.
  { unfold roomy. destruct (_ <=? _)%nat; [|done]. destruct (position mine live) as [i|]; [|done].
    etrans; [|exact H1]. change (length (delete i (live : list Nonce)) ≤ length live)%nat.
    rewrite delete_take_drop, length_app, length_take, length_drop. lia. }
  destruct (Nat.leb_spec MAX_PENDING (length roomy)); [rewrite length_drop; unfold MAX_PENDING in *; lia|done].
Qed.

(** However many hints are heard, few nonces wait. *)
Lemma presence_bounded ps h now devices nonce :
  (length ps ≤ MAX_PENDING)%nat → (length (presence_challenge ps h now devices nonce).1 ≤ MAX_PENDING)%nat.
Proof.
  intros Hl. unfold presence_challenge. destruct (decode_fixed HINT_LEN h); [|done]. destruct (find _ (ids devices)) as [d|]; [|done].
  pose proof (presence_room_length ps d now Hl). destruct (random_bytes nonce); cbn [fst]; [rewrite length_app; cbn; lia|lia].
Qed.
End presence_lemmas.

(** ** Witness *)

Definition sample_record : DeviceRecord :=
  MkDeviceRecord None (lit "d1") (lit "phone") (4 :: replicate 64 1) 0 None None None None [].
Definition sample_devices : Devices := MkDevices [sample_record] ∅ None.
Definition sample_pending : Pending := MkPending (lit "d1") (replicate 32 5) 0 60000.
Definition sample_sessions : Sessions := MkSessions {[ lit "c" := sample_pending ]} ∅.
Definition sample_signature : str :=
  url_encode (prefix_of 64 (drop 55 (public_key sample_record) ++ signed_message (pending_nonce sample_pending))).

Lemma session_roundtrip_witness :
  ∃ s',
    verify sample_sessions (lit "c") sample_signature 1000 sample_devices (Some (replicate 32 9)) =
      (s', Ok (MkSession (url_encode (replicate 32 9)) (lit "d1") (1000 + SESSION_TTL_MS))) ∧
    (authenticate s' (url_encode (replicate 32 9)) 2000).2 = Some (lit "d1") ∧
    challenges s' !! lit "c" = None.
Proof.
  apply (session_roundtrip sample_sessions (lit "c") sample_pending sample_signature 1000 2000 sample_devices (replicate 32 9)).
  - vm_compute. reflexivity.
  - vm_compute. reflexivity.
  - vm_compute. reflexivity.
  - reflexivity.
  - by apply Forall_replicate.
  - vm_compute. discriminate.
Defined.
End Sessions.
