(* ===== verification/HostLinks.v ===== *)
(** * HostLinks: phones asking to be paired with other hosts
    (crates/sheprd-remote-control/src/auth/links.rs)

    The requests in flight, and the revocations other hosts are owed with the
    file that keeps them. *)

From Stdlib Require Import NArith Lia.
From stdpp Require Import base option gmap strings sets list.
From S2P Require Import Prelude Devices.

Local Open Scope N_scope.

Module HostLinks.
Import Devices.

Definition MAX_ASKS : N := 256.
Definition MAX_REVOKES : nat := 1024.
Definition TAKEN_TTL_MS : N := 10 * 60 * 1000.
Definition QUEUED_TTL_MS : N := 24 * 60 * 60 * 1000.

Inductive Stage := Queued | Taken | FailedStage (reason : str).
#[export] Instance Stage_eq_dec : EqDecision Stage.
Proof. solve_decision. Defined.

Record Ask := MkAsk {
  ask_name : str; ask_key : PublicKey; confirm : bool; replace : option DeviceId; stage : Stage; since_ms : N }.

(** [revokes_file] is what the file of revocations holds. *)
Record Links := MkLinks {
  hosts : list Host;
  asks : gmap (DeviceId * HostId) Ask;
  revokes : list HostRevoke;
  revokes_file : option (list HostRevoke) }.

Definition with_asks (l : Links) (m : gmap (DeviceId * HostId) Ask) : Links :=
  MkLinks (hosts l) m (revokes l) (revokes_file l).

(** [Links::load]; a file that is missing or does not read is none. *)
Definition links_load (saved : option (list HostRevoke)) : Links := MkLinks [] ∅ (default [] saved) saved.

(** The hosts whose id was not seen before, in order: [retain] with [seen]. *)
Fixpoint first_ids (seen : list HostId) (hs : list Host) : list Host :=
  match hs with
  | [] => []
  | h :: hs =>
      if bool_decide (host_id h ∈ seen) then first_ids seen hs
      else h :: first_ids (host_id h :: seen) hs
  end.

(** [Links::set_hosts]. *)
Definition set_hosts (l : Links) (hs : list Host) : Links * res Error unit :=
  if (MAX_HOSTS <? lenN hs) || negb (forallb host_valid hs) then (l, Err (Devices.Links InvalidHost))
  else (MkLinks (first_ids [] hs) (asks l) (revokes l) (revokes_file l), Ok tt).

(** [Links::allowed]. *)
Definition allowed (l : Links) (ids : list HostId) : list Link :=
  (λ h, MkLink (host_id h) (host_name h) None) <$> filter (λ h, host_id h ∈ ids) (hosts l).

Definition with_stage (a : Ask) (s : Stage) (now_ms : N) : Ask :=
  MkAsk (ask_name a) (ask_key a) (confirm a) (replace a) s now_ms.

(** One request, refreshed: a request Sheprd took and never finished fails. *)
Definition refresh_ask (now_ms : N) (a : Ask) : Ask :=
  if bool_decide (stage a = Taken) && (TAKEN_TTL_MS <=? now_ms - since_ms a)
  then with_stage a (FailedStage (lit "Sheprd did not finish pairing this host")) now_ms
  else a.

(** [Links::refresh]. *)
Definition refresh (l : Links) (now_ms : N) : Links :=
  with_asks l (refresh_ask now_ms <$>
    filter (λ '(_, a), stage a = Taken ∨ now_ms - since_ms a < QUEUED_TTL_MS) (asks l)).

(** [Links::state]. *)
Definition state (l : Links) (device : DeviceRecord) (host : HostId) : HostState :=
  match asks l !! (record_id device, host) with
  | Some a =>
      match stage a with
      | FailedStage reason => FailedState reason
      | _ => if confirm a then Asking else Pending
      end
  | None =>
      match find (λ k, bool_decide (link_host k = host)) (links device) with
      | Some k => match paired k with Some e => PairedState e | None => Allowed end
      | None => Offered
      end
  end.

Definition known (l : Links) (host : HostId) : bool := existsb (λ h, bool_decide (host_id h = host)) (hosts l).

(** [Links::view]. *)
Definition view (l : Links) (device : DeviceRecord) (now_ms : N) : Links * list HostLink :=
  let l := refresh l now_ms in
  let all :=
    ((λ h, (host_id h, host_name h)) <$> hosts l)
    ++ ((λ k, (link_host k, link_name k)) <$> filter (λ k, known l (link_host k) = false) (links device)) in
  (l, (λ '(host, name), MkHostLink host name (state l device host)) <$> all).

Section ask.
Context `{Primitives}.

(** [Links::ask]. *)
Definition ask (l : Links) (device : DeviceRecord) (host : HostId) (public_key : str) (now_ms : N)
    : Links * res Error HostState :=
  let l := refresh l now_ms in
  match key_parse public_key with
  | Err e => (l, Err e)
  | Ok key =>
      let link := find (λ k, bool_decide (link_host k = host)) (links device) in
      if negb (bool_decide (is_Some link)) && negb (known l host) then (l, Err (Devices.Links UnknownHost))
      else
        let id := (record_id device, host) in
        let refused :=
          match asks l !! id with
          | Some a => if bool_decide (stage a = Taken) then Some Busy else None
          | None => if MAX_ASKS <=? N.of_nat (size (asks l)) then Some TooMany else None
          end in
        match refused, device_name (record_name device) with
        | Some e, _ => (l, Err (Devices.Links e))
        | None, Err e => (l, Err e)
        | None, Ok name =>
            let a := MkAsk name key (negb (bool_decide (is_Some link)))
                       (k ← link; e ← paired k; Some (enrolled_device e)) Queued now_ms in
            let l := with_asks l (<[id := a]> (asks l)) in
            (l, Ok (state l device host))
        end
  end.

(** [Links::take]; the requests come in the order the map iterates. *)
Definition take_asks {order : IterOrder (DeviceId * HostId) Ask} (l : Links) (now_ms : N) : Links * list HostPairing :=
  let l := refresh l now_ms in
  let pairings :=
    (λ '((device, host), a),
       MkHostPairing device host (ask_name a) (url_encode (ask_key a)) (confirm a) (replace a))
    <$> filter (λ '(_, a), stage a = Queued) (iter (asks l)) in
  (with_asks l ((λ a, if bool_decide (stage a = Queued) then with_stage a Taken now_ms else a) <$> asks l), pairings).
End ask.

(** [Links::replace_revokes]. *)
Definition replace_revokes (l : Links) (rs : list HostRevoke) (s : Save) : Links * res Error unit :=
  match s with
  | None => (l, Err Encode)
  | Some io =>
      let '(replaced, r) := write_private io in
      let l := if replaced then MkLinks (hosts l) (asks l) (revokes l) (Some rs) else l in
      match r with
      | Err e => (l, Err e)
      | Ok _ => (MkLinks (hosts l) (asks l) rs (revokes_file l), Ok tt)
      end
  end.

(** The loop of [Links::owe]. *)
Definition add_owed (rs : list HostRevoke) (r : HostRevoke) : list HostRevoke :=
  if bool_decide (r ∈ rs) then rs else rs ++ [r].

(** [Links::owe]. *)
Definition owe (l : Links) (owed : list HostRevoke) (s : Save) : Links * res Error unit :=
  let rs := foldl add_owed (revokes l) owed in
  if (length rs =? length (revokes l))%nat then (l, Ok tt)
  else replace_revokes l (drop (length rs - MAX_REVOKES) rs) s.

(** [Links::revoked]. *)
Definition revoked (l : Links) (r : HostRevoke) (s : Save) : Links * res Error unit :=
  let rs := filter (λ owed, owed ≠ r) (revokes l) in
  if (length rs =? length (revokes l))%nat then (l, Ok tt) else replace_revokes l rs s.

(** What a device's hosts are owed once it goes. *)
Definition owed_for (device : DeviceRecord) : list HostRevoke :=
  omap (λ k, e ← paired k; Some (MkHostRevoke (link_host k) (enrolled_device e))) (links device).

(** [Links::forget]. *)
Definition forget (l : Links) (device : DeviceRecord) (s : Save) : Links * res Error unit :=
  owe (with_asks l (filter (λ '((id, _), _), id ≠ record_id device) (asks l))) (owed_for device) s.

Section finish.
Context `{Primitives}.

(** The name [Links::finish] keeps for a host it paired. *)
Definition link_name_for (l : Links) (devices : Devices) (device : DeviceId) (host : HostId) (e : Enrolled) : str :=
  match find (λ h, bool_decide (host_id h = host)) (hosts l) with
  | Some h => host_name h
  | None =>
      default (computer e)
        (record ← get devices device;
         k ← find (λ k, bool_decide (link_host k = host)) (links record);
         Some (link_name k))
  end.

(** [Links::finish]; [s] answers the save of the revocations and [sd] the one of
    the devices. *)
Definition finish (l : Links) (devices : Devices) (device : DeviceId) (host : HostId) (public_key : option str)
    (outcome : HostOutcome) (now_ms : N) (s sd : Save) : Links * Devices * res Error unit :=
  let l := refresh l now_ms in
  let id := (device, host) in
  match match public_key with None => Ok None | Some k => key ← key_parse k; Ok (Some key) end with
  | Err e => (l, devices, Err e)
  | Ok attempt =>
      let mine a := bool_decide (stage a = Taken) && match attempt with None => true | Some key => bool_decide (key = ask_key a) end in
      match (a ← asks l !! id; if mine a then Some a else None) with
      | None =>
          match outcome with
          | PairedOutcome e =>
              if enrolled_valid e then
                let '(l, r) := owe l [MkHostRevoke host (enrolled_device e)] s in
                (l, devices, match r with Err e => Err e | Ok _ => Err (Devices.Links NotPairing) end)
              else (l, devices, Err (Devices.Links NotPairing))
          | _ => (l, devices, Err (Devices.Links NotPairing))
          end
      | Some a =>
          match outcome with
          | PairedOutcome e =>
              if negb (enrolled_valid e) then (l, devices, Err (Devices.Links InvalidOutcome))
              else
                let '(devices, r) :=
                  set_link devices device (MkLink host (link_name_for l devices device host e) (Some e)) sd in
                match r with
                | Err e => (l, devices, Err e)
                | Ok _ => (with_asks l (base.delete id (asks l)), devices, Ok tt)
                end
          | FailedOutcome reason =>
              (with_asks l (<[id := with_stage a (FailedStage (take MAX_REASON reason)) now_ms]> (asks l)), devices, Ok tt)
          | DeniedOutcome => (with_asks l (base.delete id (asks l)), devices, Ok tt)
          end
      end
  end.
End finish.

(** ** What hosts are owed *)

Lemma add_owed_in rs owed r : r ∈ foldl add_owed rs owed ↔ r ∈ rs ∨ r ∈ owed.
Proof.
  revert rs. induction owed as [|o owed IH]; intros rs; cbn; [set_solver|]. rewrite IH. unfold add_owed.
  case_bool_decide; set_solver.
Qed.

Lemma add_owed_prefix rs owed : ∃ new, foldl add_owed rs owed = rs ++ new.
Proof.
  revert rs. induction owed as [|o owed IH]; intros rs; cbn; [exists []; by rewrite app_nil_r|].
  destruct (IH (add_owed rs o)) as [new ->]. unfold add_owed. case_bool_decide; [by exists new|].
  exists (o :: new). by rewrite <-app_assoc.
Qed.

(** A write that was answered is kept, in memory and on disk. *)
Lemma replace_revokes_ok l rs s l' :
  replace_revokes l rs s = (l', Ok tt) → revokes l' = rs ∧ revokes_file l' = Some rs ∧ asks l' = asks l.
Proof.
  unfold replace_revokes. destruct s as [io|]; [|done]. unfold write_private.
  repeat (destruct (negb _); [intros; simplify_eq|]). by intros [= <-].
Qed.

(** A write that failed leaves memory as it was, so that a retry saves again. *)
Lemma replace_revokes_err l rs s l' e :
  replace_revokes l rs s = (l', Err e) → revokes l' = revokes l ∧ asks l' = asks l.
Proof.
  unfold replace_revokes. destruct s as [io|]; [|by intros [= <- _]]. unfold write_private.
  repeat (destruct (negb _); [by intros [= <- _]|]). done.
Qed.

(** What is owed when there is room for it is owed until a host says it is done. *)
Lemma owe_ok l owed s l' :
  (length (foldl add_owed (revokes l) owed) ≤ MAX_REVOKES)%nat → owe l owed s = (l', Ok tt) →
  ∀ r, r ∈ revokes l' ↔ r ∈ revokes l ∨ r ∈ owed.
Proof.
  intros Hroom. unfold owe. destruct (add_owed_prefix (revokes l) owed) as [new Hnew].
  destruct (Nat.eqb_spec (length (foldl add_owed (revokes l) owed)) (length (revokes l))) as [El|_].
  - intros [= <-] r. rewrite <-add_owed_in, Hnew. rewrite Hnew, length_app in El.
    destruct new; [by rewrite app_nil_r|cbn in El; lia].
  - intros (Hr & _)%replace_revokes_ok r. rewrite Hr, (proj2 (Nat.sub_0_le _ _) Hroom), drop_0. apply add_owed_in.
Qed.

(** One more revocation is kept however many wait: the oldest make room. *)
Lemma owe_one l r s l' : owe l [r] s = (l', Ok tt) → r ∈ revokes l'.
Proof.
  unfold owe. cbn. unfold add_owed. case_bool_decide as Hin.
  - rewrite Nat.eqb_refl. by intros [= <-].
  - rewrite length_app. cbn. destruct (Nat.eqb_spec (length (revokes l) + 1) (length (revokes l))) as [?|_]; [lia|].
    intros (-> & _)%replace_revokes_ok. rewrite drop_app_le by (unfold MAX_REVOKES; lia). set_solver.
Qed.

Lemma owe_bounded l owed s :
  (length (revokes l) ≤ MAX_REVOKES)%nat → (length (revokes (owe l owed s).1) ≤ MAX_REVOKES)%nat.
Proof.
  intros Hl. unfold owe. destruct (_ =? _)%nat; [done|].
  destruct (replace_revokes _ _ s) as [l' [[]|e]] eqn:E; cbn.
  - apply replace_revokes_ok in E as (-> & _). rewrite length_drop. lia.
  - by apply replace_revokes_err in E as [-> _].
Qed.

(** A device that is forgotten waits for nothing, and every host that holds it
    is owed a revocation. *)
Lemma forget_ok l device s l' :
  (length (foldl add_owed (revokes l) (owed_for device)) ≤ MAX_REVOKES)%nat → forget l device s = (l', Ok tt) →
  (∀ host, asks l' !! (record_id device, host) = None) ∧
  ∀ k e, k ∈ links device → paired k = Some e → MkHostRevoke (link_host k) (enrolled_device e) ∈ revokes l'.
Proof.
  intros Hroom Hf. split.
  - intros host. unfold forget, owe in Hf.
    assert (∀ m, (filter (λ '((id, _), _), id ≠ record_id device) m : gmap (DeviceId * HostId) Ask) !! (record_id device, host) = None) as Hm.
    { intros m. apply map_lookup_filter_None. right. intros a _. cbn. by intros []. }
    destruct (_ =? _)%nat; [injection Hf as <-; apply Hm|]. apply replace_revokes_ok in Hf as (_ & _ & ->). apply Hm.
  - intros k e Hk He. apply (owe_ok (with_asks l _) (owed_for device) s l' Hroom Hf). right. unfold owed_for. apply list_elem_of_omap. exists k.
    split; [done|]. by rewrite He.
Qed.

Lemma put_link_in link ls : link ∈ put_link link ls.
Proof.
  unfold put_link. destruct (update_first _ _ ls) as [ls'|] eqn:E; cbn; [|set_solver].
  revert ls' E. induction ls as [|k ls IH]; cbn; intros ls' E; [done|].
  case_bool_decide; [injection E as <-; set_solver|].
  destruct (update_first _ _ ls) as [l1|]; [|done]. injection E as <-. apply elem_of_cons. right. by apply IH.
Qed.

Lemma get_record_mut d id f d' :
  (∀ r, record_id (f r) = record_id r) → record_mut d id f = Some d' → get d' id = f <$> get d id.
Proof.
  intros Hf. unfold record_mut, get. destruct (update_first _ _ _) as [rs|] eqn:E; [|done]. intros [= <-]. cbn.
  revert rs E. induction (records d) as [|r rs IH]; cbn; intros rs' E; [done|].
  destruct (has_id id r) eqn:Hr.
  - injection E as <-. cbn. unfold has_id in *. by rewrite Hf, Hr.
  - destruct (update_first _ _ rs) as [l1|]; [|done]. injection E as <-. cbn. rewrite Hr. by apply IH.
Qed.

Lemma set_link_ok d id link s d' :
  set_link d id link s = (d', Ok tt) → ∃ r, get d' id = Some r ∧ link ∈ links r.
Proof.
  unfold set_link, change. destruct (get d id) as [old|] eqn:Eg; [|done].
  destruct (record_mut d id _) as [d1|] eqn:Em; [|done]. unfold save_or_undo.
  pose proof (save_records s d1) as [Hr _]. destruct (save s d1) as [d2 [u|e]]; intros [= <- _].
  apply get_record_mut in Em; [|done]. exists (set_links (put_link link (links old)) old). split; [|apply put_link_in].
  unfold get in *. cbn in Hr. by rewrite Hr, Em, Eg.
Qed.

(** The errors of a save are none of the links' own. *)
Lemma write_private_err io x e : write_private io ≠ (x, Err (Devices.Links e)).
Proof. unfold write_private. by repeat (destruct (negb _); [by intros [=]|]). Qed.

Lemma set_link_err d id link s d' e : set_link d id link s ≠ (d', Err (Devices.Links e)).
Proof.
  unfold set_link, change. destruct (get d id) as [old|]; [|done]. destruct (record_mut d id _) as [d1|]; [|done].
  unfold save_or_undo, save.
  destruct s as [io|]; [|done]. destruct (write_private io) as [x [u|err]] eqn:Ew; [done|].
  intros [= _ ->]. by apply write_private_err in Ew.
Qed.

Lemma owe_err l owed s l' e :
  owe l owed s = (l', Err e) → revokes l' = revokes l ∧ asks l' = asks l ∧ ∀ x, e ≠ Devices.Links x.
Proof.
  unfold owe. destruct (_ =? _)%nat; [done|]. intros Hr. destruct (replace_revokes_err _ _ _ _ _ Hr) as [-> ->].
  split; [done|]. split; [done|]. intros x ->. revert Hr. unfold replace_revokes. destruct s as [io|]; [|done].
  destruct (write_private io) as [y [u|err]] eqn:Ew; [done|]. intros [= _ ->]. by apply write_private_err in Ew.
Qed.

Lemma owe_asks l owed s : asks (owe l owed s).1 = asks l.
Proof.
  unfold owe. destruct (_ =? _)%nat; [done|]. destruct (replace_revokes _ _ _) as [l' [[]|e]] eqn:E; cbn;
    [by apply replace_revokes_ok in E as (_ & _ & ->)|by apply replace_revokes_err in E as [_ ->]].
Qed.

Section accounted.
Context `{Primitives}.

(** A host that answers that it took the phone in is accounted for, whether the phone was still waiting
    for it or not: the device's record keeps what the host answered, or the host is owed a revocation of a device
    nobody will use, or the answer fails with an error the caller sees; the request stays as it was then. *)
Theorem enrolment_accounted (l l' : Links) (d d' : Devices) (device : DeviceId) (host : HostId) (key : option str)
    (e : Enrolled) (now : N) (s sd : Save) (r : res Error unit) :
  enrolled_valid e = true → finish l d device host key (PairedOutcome e) now s sd = (l', d', r) →
  match r with
  | Ok _ =>
      asks l' !! (device, host) = None ∧
      ∃ rec k, get d' device = Some rec ∧ k ∈ links rec ∧ link_host k = host ∧ paired k = Some e
  | Err err =>
      (err = Devices.Links NotPairing → d' = d ∧ MkHostRevoke host (enrolled_device e) ∈ revokes l') ∧
      asks l' = asks (refresh l now)
  end.
Proof.
  intros Hv. unfold finish. rewrite Hv. destruct (match key with None => _ | Some _ => _ end) as [attempt|err] eqn:Ek.
  - destruct (asks (refresh l now) !! (device, host) ≫= _) as [a|].
    + cbn. destruct (set_link _ _ _ _) as [d1 [u|err]] eqn:Es; intros [= <- <- <-].
      * split; [apply lookup_delete_eq|]. destruct u. apply set_link_ok in Es as (rec & Hrec & Hk). by eexists _, _.
      * split; [|done]. intros ->. by apply set_link_err in Es.
    + pose proof (owe_asks (refresh l now) [MkHostRevoke host (enrolled_device e)] s) as Ha.
      destruct (owe _ _ s) as [l1 [[]|err]] eqn:Eo; intros [= <- <- <-]; (split; [|done]).
      * intros _. split; [done|]. by eapply owe_one.
      * intros ->. apply owe_err in Eo as (_ & _ & Hx). by edestruct Hx.
  - intros [= <- <- <-]. split; [|done]. intros ->. destruct key as [k|]; [|done]. revert Ek. unfold key_parse.
    cbn. repeat case_match; done.
Qed.

(** A host that finishes after the phone was dropped for being idle is neither
    kept nor owed a revocation: dropping idle devices does not end their
    requests. *)
Lemma finish_dropped_device l d device host e now s sd a :
  enrolled_valid e = true → asks (refresh l now) !! (device, host) = Some a → stage a = Taken → get d device = None →
  finish l d device host None (PairedOutcome e) now s sd = (refresh l now, d, Err UnknownDevice).
Proof.
  intros Hv Ha Hs Hg. unfold finish. cbn [mbind res_bind option_bind]. rewrite Ha. cbn. rewrite bool_decide_true by done. cbn.
  rewrite Hv. cbn. unfold set_link, change. by rewrite Hg.
Qed.
End accounted.

(** ** Witness *)

Definition sample_device : DeviceRecord :=
  MkDeviceRecord None (lit "d1") (lit "phone") (4 :: replicate 64 1) 0 None None None None [].
Definition sample_enrolled : Enrolled := MkEnrolled (lit "r1") (lit "studio") (lit "aa:bb") [lit "https://studio"].
Definition sample_links : Links :=
  MkLinks [] {[ (lit "d1", lit "h1") := MkAsk (lit "phone") (4 :: replicate 64 1) true None Taken 100 ]} [] None.

(** The phone asked again with another key: the host's late answer is owed a
    revocation. *)
Lemma enrolment_accounted_witness :
  (Devices.Links NotPairing = Devices.Links NotPairing →
   MkDevices [sample_device] ∅ None = MkDevices [sample_device] ∅ None ∧
   MkHostRevoke (lit "h1") (lit "r1") ∈ [MkHostRevoke (lit "h1") (lit "r1")]) ∧
  asks sample_links = asks (refresh sample_links 200).
Proof.
  apply (enrolment_accounted sample_links (MkLinks [] (asks sample_links) [MkHostRevoke (lit "h1") (lit "r1")] (Some [MkHostRevoke (lit "h1") (lit "r1")]))
    (MkDevices [sample_device] ∅ None) (MkDevices [sample_device] ∅ None) (lit "d1") (lit "h1")
    (Some (url_encode (4 :: replicate 64 2))) sample_enrolled 200 (Some io_fine) (Some io_fine) (Err (Devices.Links NotPairing))).
  - vm_compute. reflexivity.
  - vm_compute. reflexivity.
Defined.
End HostLinks.
