(* ===== verification/NearbyPairing.v ===== *)
(** * NearbyPairing: agreeing on a code with a phone nearby
    (crates/sheprd-remote-control/src/auth/nearby.rs)

    The daemon commits to its nonce before it sees the phone's; both compute six
    digits from everything they exchanged, and the token is sealed under the key
    they agreed on. Elliptic curves, HKDF and AES are third-party: the class
    [Curve]. *)

From Stdlib Require Import NArith Lia.
From stdpp Require Import base option gmap strings sets list.
From S2P Require Import Prelude Devices Pairing.

Local Open Scope N_scope.

Module NearbyPairing.
Import Devices.

Definition COMMIT_DOMAIN : list N := lit "herdr-sas-commit-v1".
Definition CODE_DOMAIN : list N := lit "herdr-sas-code-v1".
Definition KEY_INFO : list N := lit "herdr-sas-key-v1".
Definition NEARBY_TTL_MS : N := 60000.
Definition MAX_SESSIONS : nat := 4.
Definition AES_NONCE_LEN : nat := 12.

Class Curve := {
  SecretKey : Type;
  (** [SecretKey::from_slice], the public point's SEC1 bytes, and ECDH with a
      point, [None] when the bytes are none. *)
  secret_from_slice : list N → option SecretKey;
  public_point : SecretKey → list N;
  diffie_hellman : SecretKey → list N → option (list N);
  (** HKDF-SHA256 to 32 bytes: salt, input, info. *)
  hkdf : list N → list N → list N → option (list N);
  (** AES-256-GCM: key, nonce, associated data, message. *)
  aes_gcm : list N → list N → list N → list N → option (list N);
  (** The JSON of an offer: the token and where to claim it. *)
  offer_json : str → list str → option (list N);
}.

Record NearbyStarted := MkNearbyStarted {
  started_session : str; started_computer : str; started_fingerprint : str; started_key : str; started_commit : str }.
Record NearbyRevealed := MkNearbyRevealed { revealed_nonce : str; revealed_sealed : str }.
Record Revealed := MkRevealed { reveal_code : str; sealed : list N }.

(** [transcript]. *)
Definition transcript (phone_key daemon_key phone_nonce daemon_nonce fingerprint : list N) : list N :=
  phone_key ++ daemon_key ++ phone_nonce ++ daemon_nonce ++ fingerprint.

(** The value of a hex digit, as [from_str_radix] reads it. *)
Definition hex_val (c : N) : option N :=
  if is_ascii_digit c then Some (c - 48)
  else if (97 <=? c) && (c <=? 102) then Some (c - 87)
  else if (65 <=? c) && (c <=? 70) then Some (c - 55)
  else None.

(** [u8::from_str_radix] of two characters in base 16, a plus sign allowed. *)
Definition hex_pair (a b : N) : option N :=
  if a =? 43 then hex_val b else x ← hex_val a; y ← hex_val b; Some (x * 16 + y).

(** The loop over [chunks(2)]. *)
Fixpoint hex_pairs (digits : list N) : option (list N) :=
  match digits with
  | a :: b :: digits => x ← hex_pair a b; xs ← hex_pairs digits; Some (x :: xs)
  | _ => Some []
  end.

(** [fingerprint_bytes]. *)
Definition fingerprint_bytes (fingerprint : str) : option (list N) :=
  let digits := filter (λ b, b ≠ 58) (as_bytes fingerprint) in
  if negb (length digits =? 64)%nat then None else hex_pairs digits.

Definition hex_upper (n : N) : N := if n <? 10 then 48 + n else 55 + n.

(** [fingerprint_hex]. *)
Definition fingerprint_hex (bytes : list N) : str := bytes ≫= λ b, [hex_upper (b / 16); hex_upper (b mod 16)].

Section exchange.
Context `{Primitives} `{Curve}.

(** [commit], [code], [key], [seal], [shared_secret]. *)
Definition commit (daemon_key phone_key daemon_nonce : list N) : list N :=
  sha256 (COMMIT_DOMAIN ++ daemon_key ++ phone_key ++ daemon_nonce).
Definition code (transcript : list N) : str :=
  Pairing.pad6 (be_val (take 4 (sha256 (CODE_DOMAIN ++ transcript))) mod 1000000).
Definition key (shared transcript : list N) : res Error (list N) :=
  ok_or NearbyCrypto (hkdf (sha256 transcript) shared KEY_INFO).
Definition seal (key nonce plaintext : list N) : res Error (list N) :=
  sealed ← ok_or NearbyCrypto (aes_gcm key nonce KEY_INFO plaintext); Ok (nonce ++ sealed).
Definition shared_secret (daemon : SecretKey) (phone : PublicKey) : res Error (list N) :=
  ok_or InvalidKey (diffie_hellman daemon phone).

(** [Exchange::reveal]. *)
Definition exchange_reveal (daemon : SecretKey) (phone : PublicKey) (phone_nonce daemon_nonce fingerprint : list N)
    (token : list N) (origins : list str) (aes_nonce : list N) : res Error Revealed :=
  let transcript := transcript phone (public_point daemon) phone_nonce daemon_nonce fingerprint in
  shared ← shared_secret daemon phone;
  k ← key shared transcript;
  plaintext ← ok_or NearbyCrypto (offer_json (url_encode token) origins);
  sealed ← seal k aes_nonce plaintext;
  Ok (MkRevealed (code transcript) sealed).

Record NearbySession := MkNearbySession {
  session_id : str; session_secret : SecretKey; session_phone : PublicKey; session_nonce : list N; session_expires_ms : N }.

Definition NearbySessions := list NearbySession.

(** [random_secret]: draws until one is a scalar. *)
Fixpoint random_secret (draws : list Draw) : res Error SecretKey :=
  match draws with
  | [] => Err Random
  | d :: draws =>
      bytes ← random_bytes d;
      match secret_from_slice bytes with Some secret => Ok secret | None => random_secret draws end
  end.

(** [NearbySessions::start]. *)
Definition nearby_start (ss : NearbySessions) (phone_key computer fingerprint : str) (now_ms : N)
    (secrets : list Draw) (nonce id : Draw) : NearbySessions * res Error NearbyStarted :=
  match key_parse phone_key, fingerprint_bytes fingerprint with
  | Err e, _ => (ss, Err e)
  | Ok _, None => (ss, Err NearbyCrypto)
  | Ok phone, Some fp =>
      let ss := filter (λ s, now_ms < session_expires_ms s) ss in
      if (MAX_SESSIONS <=? length ss)%nat then (ss, Err NearbyBusy)
      else
        let made := secret ← random_secret secrets; nonce ← random_bytes nonce; id ← random_id id; Ok (secret, nonce, id) in
        match made with
        | Err e => (ss, Err e)
        | Ok (secret, nonce, id) =>
            (ss ++ [MkNearbySession id secret phone nonce (saturating_add u64_max now_ms NEARBY_TTL_MS)],
             Ok (MkNearbyStarted id computer (fingerprint_hex fp) (url_encode (public_point secret))
                   (url_encode (commit (public_point secret) phone nonce))))
        end
  end.

(** [swap_remove]: the last one takes the place of the one removed. *)
Definition swap_remove {A} (i : nat) (l : list A) : list A :=
  match last l with
  | Some z => if (S i =? length l)%nat then take i l else removelast (<[i := z]> l)
  | None => l
  end.

(** [NearbySessions::take]. *)
Definition nearby_take (ss : NearbySessions) (id : str) (now_ms : N) : NearbySessions * res Error NearbySession :=
  let ss := filter (λ s, now_ms < session_expires_ms s) ss in
  match list_find (λ s, constant_time_eq (as_bytes (session_id s)) (as_bytes id) = true) ss with
  | None => (ss, Err UnknownNearby)
  | Some (i, s) => (swap_remove i ss, Ok s)
  end.

(** [StartedSession::reveal]. *)
Definition session_reveal (s : NearbySession) (phone_nonce fingerprint : str) (token : list N) (origins : list str)
    (aes_nonce : Draw) : res Error (NearbyRevealed * str) :=
  phone_nonce ← ok_or NearbyCrypto (decode_fixed SECRET_LEN phone_nonce);
  fp ← ok_or NearbyCrypto (fingerprint_bytes fingerprint);
  aes_nonce ← random_bytes aes_nonce;
  revealed ← exchange_reveal (session_secret s) (session_phone s) phone_nonce (session_nonce s) fp token origins aes_nonce;
  Ok (MkNearbyRevealed (url_encode (session_nonce s)) (url_encode (sealed revealed)), reveal_code revealed).

(** ** Lemmas *)

(** A sixteenth in upper case reads back, and is neither a colon nor a sign. *)
Lemma hex_upper_val n : n < 16 → hex_val (hex_upper n) = Some n ∧ hex_upper n ≠ 58 ∧ hex_upper n ≠ 43 ∧ hex_upper n < 128.
Proof.
  intros Hn. unfold hex_upper, hex_val, is_ascii_digit. destruct (N.ltb_spec n 10).
  - rewrite (proj2 (N.leb_le 48 _)), (proj2 (N.leb_le _ 57)) by lia. cbn. split; [f_equal; lia|lia].
  - rewrite (proj2 (N.leb_gt _ 57)), andb_false_r, (proj2 (N.leb_gt 97 _)) by lia. cbn.
    rewrite (proj2 (N.leb_le 65 _)), (proj2 (N.leb_le _ 70)) by lia. cbn. split; [f_equal; lia|lia].
Qed.

Lemma fingerprint_hex_length bs : length (fingerprint_hex bs) = (2 * length bs)%nat.
Proof. induction bs as [|b bs IH]; cbn; [done|]. unfold fingerprint_hex in IH. rewrite IH. lia. Qed.

Lemma hex_pairs_hex bs : Forall is_byte bs → hex_pairs (fingerprint_hex bs) = Some bs.
Proof.
  induction 1 as [|b bs Hb Hbs IH]; [done|]. unfold is_byte in Hb. cbn. fold (fingerprint_hex bs). rewrite IH.
  assert (b / 16 < 16) as H1 by dlia. assert (b mod 16 < 16) as H2 by dlia.
  destruct (hex_upper_val _ H1) as (E1 & _ & N1 & _), (hex_upper_val _ H2) as (E2 & _).
  unfold hex_pair. rewrite (proj2 (N.eqb_neq _ _) N1), E1, E2. cbn. f_equal. f_equal. dlia.
Qed.

Lemma fingerprint_hex_plain bs : Forall is_byte bs → Forall (λ c, c ≠ 58 ∧ c < 128) (fingerprint_hex bs).
Proof.
  induction 1 as [|b bs Hb Hbs IH]; [constructor|]. unfold is_byte in Hb. cbn. fold (fingerprint_hex bs).
  assert (b / 16 < 16) as H1 by dlia. assert (b mod 16 < 16) as H2 by dlia.
  destruct (hex_upper_val _ H1) as (_ & ? & _ & ?), (hex_upper_val _ H2) as (_ & ? & _ & ?). by repeat constructor.
Qed.

(** The fingerprint a phone is told reads back as the certificate's. *)
Lemma fingerprint_roundtrip bs :
  Forall is_byte bs → length bs = 32%nat → fingerprint_bytes (fingerprint_hex bs) = Some bs.
Proof.
  intros Hb Hl. pose proof (fingerprint_hex_plain bs Hb) as Hp. unfold fingerprint_bytes.
  assert (as_bytes (fingerprint_hex bs) = fingerprint_hex bs) as ->.
  { induction Hp as [|c l [_ Hc] _ IH]; [done|]. change (as_bytes (c :: l)) with (utf8_char c ++ as_bytes l). rewrite IH.
    unfold utf8_char. by rewrite (proj2 (N.ltb_lt c 128) Hc). }
  assert (filter (λ b, b ≠ 58) (fingerprint_hex bs) = fingerprint_hex bs) as ->.
  { induction Hp as [|c l [Hc _] _ IH]; [done|]. rewrite filter_cons_True by done. by rewrite IH. }
  rewrite fingerprint_hex_length, Hl. cbn. by apply hex_pairs_hex.
Qed.

(** However often phones ask, few sessions wait. *)
Lemma nearby_start_bounded ss phone computer fp now secrets nonce id :
  (length ss ≤ MAX_SESSIONS)%nat → (length (nearby_start ss phone computer fp now secrets nonce id).1 ≤ MAX_SESSIONS)%nat.
Proof.
  intros Hl. unfold nearby_start. destruct (key_parse phone); [|done]. destruct (fingerprint_bytes fp); [|done].
  match goal with |- context [(MAX_SESSIONS <=? length ?l)%nat] => set (kept := l) end.
  assert (length kept ≤ MAX_SESSIONS)%nat as H1 by (etrans; [apply length_filter|done]). cbv zeta.
  destruct (Nat.leb_spec MAX_SESSIONS (length kept)) as [?|?]; [exact H1|].
  destruct (random_secret secrets); cbn; [|exact H1]. destruct (random_bytes nonce); cbn; [|exact H1]. destruct (random_id id); cbn; [|exact H1].
  rewrite length_app. cbn. lia.
Qed.

Lemma swap_remove_perm {A} i (l : list A) x : l !! i = Some x → l ≡ₚ x :: swap_remove i l.
Proof.
  intros Hi. unfold swap_remove. destruct l as [|z l _] using rev_ind; [done|]. rewrite last_snoc, length_app. change (length [z]) with 1%nat.
  destruct (Nat.eqb_spec (S i) (length l + 1)) as [E|E].
  - assert (i = length l) as -> by lia. rewrite lookup_app_r, Nat.sub_diag in Hi by done. injection Hi as ->.
    rewrite take_app_length. by rewrite Permutation_app_comm.
  - pose proof (lookup_lt_Some _ _ _ Hi) as Hlt. rewrite length_app in Hlt. cbn in Hlt.
    rewrite insert_app_l by lia. rewrite removelast_last. rewrite lookup_app_l in Hi by lia.
    rewrite <-(take_drop_middle l i x Hi) at 1. rewrite (insert_take_drop l i z) by lia.
    rewrite <-app_assoc. cbn. rewrite <-Permutation_middle. constructor. apply Permutation_app_head.
    by rewrite Permutation_app_comm.
Qed.

(** A session is used once: it is taken out of those that wait. *)
Lemma nearby_take_once ss id now ss' s :
  nearby_take ss id now = (ss', Ok s) →
  as_bytes (session_id s) = as_bytes id ∧ now < session_expires_ms s ∧ filter (λ s, now < session_expires_ms s) ss ≡ₚ s :: ss'.
Proof.
  unfold nearby_take. destruct (list_find _ _) as [[i s0]|] eqn:El; [|done]. intros [= <- ->].
  apply list_find_Some in El as (Hi & He & _). rewrite constant_time_eq_spec, bool_decide_eq_true in He.
  split; [done|]. split; [|by apply swap_remove_perm].
  apply list_elem_of_lookup_2, list_elem_of_filter in Hi. tauto.
Qed.
End exchange.
End NearbyPairing.
