(* ===== verification/Auth.v ===== *)
(** * Auth: pairing and authenticating phones
    (crates/sheprd-remote-control/src/auth.rs)

    The state the server keeps behind its lock and every operation on it,
    composed of the parts in [Devices], [AuthLimit], [Pairing], [Sessions],
    [HostLinks] and [NearbyPairing]. An operation's draws of randomness and what
    the disk answers to its saves are its last arguments. *)

From Stdlib Require Import NArith Lia.
From stdpp Require Import base option gmap strings sets list.
From S2P Require Import Prelude Limit Relay Devices AuthLimit Pairing Sessions HostLinks NearbyPairing.

Local Open Scope N_scope.

Module Auth.
Import Devices.
#[local] Existing Instances Relay.IpAddr_eq_dec Relay.IpAddr_countable.

Record Limits := MkLimits {
  pair_burst : N; pair_refill_ms : N; challenge_burst : N; challenge_refill_ms : N; addresses : N }.

Definition limits_default : Limits := MkLimits 5 12000 20 3000 1024.

Section auth.
Context `{Primitives} `{Curve : NearbyPairing.Curve}.
Context {order1 : IterOrder Sessions.ChallengeId Sessions.Pending} {order2 : IterOrder (list N) Sessions.Live}.
Context {order3 : IterOrder DeviceId (list N * N)} {order4 : IterOrder Relay.IpAddr AuthLimit.Bucket}.
Context {order5 : IterOrder (DeviceId * HostId) HostLinks.Ask}.

Record Auth := MkAuth {
  shared_apps : list str;
  challenge_limit : AuthLimit.RateLimiter Relay.IpAddr;
  devices : Devices;
  handoffs : Sessions.HandoffStore;
  host_links : HostLinks.Links;
  nearby : NearbyPairing.NearbySessions;
  pair_limit : AuthLimit.RateLimiter Relay.IpAddr;
  pairings : Pairing.Pairings;
  presence : Sessions.Presences;
  revision : N;
  sessions : Sessions.Sessions }.

Definition with_apps (a : Auth) (x : list str) : Auth :=
  MkAuth x (challenge_limit a) (devices a) (handoffs a) (host_links a) (nearby a) (pair_limit a) (pairings a) (presence a) (revision a) (sessions a).
Definition with_challenge_limit (a : Auth) (x : AuthLimit.RateLimiter Relay.IpAddr) : Auth :=
  MkAuth (shared_apps a) x (devices a) (handoffs a) (host_links a) (nearby a) (pair_limit a) (pairings a) (presence a) (revision a) (sessions a).
Definition with_devices (a : Auth) (x : Devices) : Auth :=
  MkAuth (shared_apps a) (challenge_limit a) x (handoffs a) (host_links a) (nearby a) (pair_limit a) (pairings a) (presence a) (revision a) (sessions a).
Definition with_handoffs (a : Auth) (x : Sessions.HandoffStore) : Auth :=
  MkAuth (shared_apps a) (challenge_limit a) (devices a) x (host_links a) (nearby a) (pair_limit a) (pairings a) (presence a) (revision a) (sessions a).
Definition with_links (a : Auth) (x : HostLinks.Links) : Auth :=
  MkAuth (shared_apps a) (challenge_limit a) (devices a) (handoffs a) x (nearby a) (pair_limit a) (pairings a) (presence a) (revision a) (sessions a).
Definition with_nearby (a : Auth) (x : NearbyPairing.NearbySessions) : Auth :=
  MkAuth (shared_apps a) (challenge_limit a) (devices a) (handoffs a) (host_links a) x (pair_limit a) (pairings a) (presence a) (revision a) (sessions a).
Definition with_pair_limit (a : Auth) (x : AuthLimit.RateLimiter Relay.IpAddr) : Auth :=
  MkAuth (shared_apps a) (challenge_limit a) (devices a) (handoffs a) (host_links a) (nearby a) x (pairings a) (presence a) (revision a) (sessions a).
Definition with_pairings (a : Auth) (x : Pairing.Pairings) : Auth :=
  MkAuth (shared_apps a) (challenge_limit a) (devices a) (handoffs a) (host_links a) (nearby a) (pair_limit a) x (presence a) (revision a) (sessions a).
Definition with_presence (a : Auth) (x : Sessions.Presences) : Auth :=
  MkAuth (shared_apps a) (challenge_limit a) (devices a) (handoffs a) (host_links a) (nearby a) (pair_limit a) (pairings a) x (revision a) (sessions a).
Definition with_revision (a : Auth) (x : N) : Auth :=
  MkAuth (shared_apps a) (challenge_limit a) (devices a) (handoffs a) (host_links a) (nearby a) (pair_limit a) (pairings a) (presence a) x (sessions a).
Definition with_sessions (a : Auth) (x : Sessions.Sessions) : Auth :=
  MkAuth (shared_apps a) (challenge_limit a) (devices a) (handoffs a) (host_links a) (nearby a) (pair_limit a) (pairings a) (presence a) (revision a) x.

(** [Auth::load]: what the three files hold. *)
Definition auth_load (io : ReadIo) (saved_handoffs : option Sessions.Handoffs) (saved_revokes : option (list HostRevoke))
    (limits : Limits) : res Error Auth :=
  devices ← devices_load io;
  Ok (MkAuth (apps devices)
        (AuthLimit.limiter_new (challenge_burst limits) (challenge_refill_ms limits) (addresses limits))
        devices (Sessions.MkHandoffStore (default ∅ saved_handoffs) saved_handoffs) (HostLinks.links_load saved_revokes) []
        (AuthLimit.limiter_new (pair_burst limits) (pair_refill_ms limits) (addresses limits))
        Pairing.pairings_default [] 0 Sessions.sessions_default).

(** [Auth::revoked]; the count wraps as in a release build. *)
Definition bump (a : Auth) : Auth := with_revision a ((revision a + 1) mod 2 ^ 64).
Definition sync_apps (a : Auth) : Auth := with_apps a (apps (devices a)).

Definition mint (a : Auth) (now_ms : N) (origins : list str) (fingerprint : str) (token id : Draw) : Auth * res Error Pairing.Offer :=
  let '(p, r) := Pairing.mint (pairings a) now_ms origins fingerprint token id in (with_pairings a p, r).

Definition pairing (a : Auth) (id : Pairing.PairingId) (now_ms : N) : Auth * res Error Pairing.PairingState :=
  let '(p, r) := Pairing.state (pairings a) id now_ms in (with_pairings a p, r).

Definition cancel (a : Auth) (id : Pairing.PairingId) : Auth * res Error unit :=
  let '(p, r) := Pairing.cancel (pairings a) id in (with_pairings a p, r).

Definition claim (a : Auth) (client : Relay.IpAddr) (token device_name public_key : str) (now_ms : N) (nonce id device : Draw)
    : Auth * res Error Pairing.Claim :=
  let '(l, allowed) := AuthLimit.allow (pair_limit a) client now_ms in
  let a := with_pair_limit a l in
  if negb allowed then (a, Err RateLimited)
  else
    let '(p, r) := Pairing.claim (pairings a) token device_name public_key now_ms nonce id device in
    (with_pairings a p, r).

Definition pairing_open (a : Auth) (now_ms : N) : Auth * bool :=
  let '(p, w) := Pairing.waiting (pairings a) now_ms in (with_pairings a p, w).

Definition nearby_start (a : Auth) (client : option Relay.IpAddr) (public_key computer fingerprint : str) (now_ms : N)
    (secrets : list Draw) (nonce id : Draw) : Auth * res Error NearbyPairing.NearbyStarted :=
  let '(a, allowed) :=
    match client with
    | Some client => let '(l, allowed) := AuthLimit.allow (pair_limit a) client now_ms in (with_pair_limit a l, allowed)
    | None => (a, true)
    end in
  if negb allowed then (a, Err RateLimited)
  else
    let '(p, w) := Pairing.waiting (pairings a) now_ms in
    let a := with_pairings a p in
    if negb w then (a, Err NoPairing)
    else
      let '(ss, r) := NearbyPairing.nearby_start (nearby a) public_key computer fingerprint now_ms secrets nonce id in
      (with_nearby a ss, r).

Definition nearby_reveal (a : Auth) (session nonce fingerprint : str) (origins : list str) (now_ms : N) (token aes : Draw)
    : Auth * res Error NearbyPairing.NearbyRevealed :=
  let '(ss, started) := NearbyPairing.nearby_take (nearby a) session now_ms in
  let a := with_nearby a ss in
  match started with
  | Err e => (a, Err e)
  | Ok started =>
      let '(p, w) := Pairing.waiting (pairings a) now_ms in
      let a := with_pairings a p in
      if negb w then (a, Err NoPairing)
      else
        match (token ← random_bytes token; r ← NearbyPairing.session_reveal started nonce fingerprint token origins aes; Ok (token, r)) with
        | Err e => (a, Err e)
        | Ok (token, (revealed, code)) =>
            let '(p, r) := Pairing.set_nearby (pairings a) token code now_ms in
            (with_pairings a p, _ ← r; Ok revealed)
        end
  end.

Definition presence_challenge (a : Auth) (hint : str) (now_ms : N) (nonce : Draw) : Auth * res Error (DeviceId * list N) :=
  let '(ps, r) := Sessions.presence_challenge (presence a) hint now_ms (devices a) nonce in (with_presence a ps, r).

Definition presence_prove (a : Auth) (nonce signature : str) (fingerprint : list N) (now_ms : N) : Auth * res Error DeviceId :=
  let '(ps, r) := Sessions.prove (presence a) nonce signature fingerprint now_ms (devices a) in (with_presence a ps, r).

Definition claimed_from (a : Auth) (claim : Pairing.ClaimId) (origin : str) : Auth :=
  with_pairings a (Pairing.claimed_from (pairings a) claim origin).

Definition claim_status (a : Auth) (id : Pairing.ClaimId) (now_ms : N) : Auth * res Error Pairing.PairingState :=
  let '(p, r) := Pairing.claim_status (pairings a) id now_ms in (with_pairings a p, r).

(** Whether the code the desktop shows is the claim's. *)
Definition shows (s : Pairing.PairingState) (shown : str) : bool :=
  match s with Pairing.S_Claimed _ code _ => constant_time_eq (as_bytes code) (as_bytes shown) | _ => false end.

(** The end of [answer_with_hosts], once an approval names the right code. *)
Definition answer_matched (a : Auth) (id : Pairing.PairingId) (allow : bool) (hosts : list HostId) (now_ms : N) (s : Save)
    : Auth * res Error Pairing.PairingState :=
  let links := HostLinks.allowed (host_links a) hosts in
  let '(p, d, r) :=
    Pairing.answer (pairings a) (devices a) id allow now_ms (λ d device, add_with d device now_ms None links s) in
  let a := with_devices (with_pairings a p) d in
  match r with
  | Err e => (a, Err e)
  | Ok _ => pairing (sync_apps a) id now_ms
  end.

Definition answer_with_hosts (a : Auth) (id : Pairing.PairingId) (allow : bool) (shown : str) (hosts : list HostId)
    (now_ms : N) (s : Save) : Auth * res Error Pairing.PairingState :=
  if allow then
    let '(a, st) := pairing a id now_ms in
    match st with
    | Err e => (a, Err e)
    | Ok st =>
        if shows st shown then answer_matched a id allow hosts now_ms s
        else
          let '(p, _, r) := Pairing.answer (pairings a) tt id false now_ms (λ u _, (u, Ok tt)) in
          (with_pairings a p, match r with Err e => Err e | Ok _ => Err CodeMismatch end)
    end
  else answer_matched a id allow hosts now_ms s.

Definition challenge (a : Auth) (client : Relay.IpAddr) (device : DeviceId) (now_ms : N) (nonce id : Draw)
    : Auth * res Error Sessions.Challenge :=
  let '(l, allowed) := AuthLimit.allow (challenge_limit a) client now_ms in
  let a := with_challenge_limit a l in
  if negb allowed then (a, Err RateLimited)
  else
    let '(ss, r) := Sessions.challenge (sessions a) device now_ms (devices a) nonce id in
    (with_sessions a ss, r).

Definition verify (a : Auth) (challenge : Sessions.ChallengeId) (signature : str) (now_ms : N) (token : Draw) (s : Save)
    : Auth * res Error Sessions.Session :=
  let '(ss, r) := Sessions.verify (sessions a) challenge signature now_ms (devices a) token in
  let a := with_sessions a ss in
  match r with
  | Err e => (a, Err e)
  | Ok session =>
      let '(d, t) := touch (devices a) (Sessions.session_device session) now_ms s in
      (with_devices a d, _ ← t; Ok session)
  end.

Definition authenticate (a : Auth) (bearer : str) (now_ms : N) : Auth * option DeviceId :=
  let '(ss, r) := Sessions.authenticate (sessions a) bearer now_ms in (with_sessions a ss, r).

Definition handoff (a : Auth) (device : DeviceId) (now_ms : N) (secret : Draw) (s : Save) : Auth * res Error Sessions.Handoff :=
  match get (devices a) device with
  | None => (a, Err UnknownDevice)
  | Some _ =>
      let '(h, r) := Sessions.handoff_mint (handoffs a) device now_ms secret s in (with_handoffs a h, r)
  end.

Definition redeem (a : Auth) (client : Relay.IpAddr) (token public_key : str) (now_ms : N) (s sd : Save) : Auth * res Error DeviceId :=
  let '(l, allowed) := AuthLimit.allow (pair_limit a) client now_ms in
  let a := with_pair_limit a l in
  if negb allowed then (a, Err RateLimited)
  else
    match key_parse public_key with
    | Err e => (a, Err e)
    | Ok key =>
        let '(h, r) := Sessions.handoff_redeem (handoffs a) token now_ms s in
        let a := with_handoffs a h in
        match r with
        | Err e => (a, Err e)
        | Ok None => (a, Err InvalidToken)
        | Ok (Some device) =>
            let '(d, r) := rekey (devices a) device key sd in
            let a := with_devices a d in
            match r with
            | Err e => (a, Err e)
            | Ok _ => (bump (with_sessions a (Sessions.end_device (sessions a) device)), Ok device)
            end
        end
    end.

Definition revoke (a : Auth) (device : DeviceId) (sl sh sd : Save) : Auth * res Error bool :=
  let '(a, forgotten) :=
    match get (devices a) device with
    | Some record => let '(l, r) := HostLinks.forget (host_links a) record sl in (with_links a l, r)
    | None => (a, Ok tt)
    end in
  match forgotten with
  | Err e => (a, Err e)
  | Ok _ =>
      let a := with_handoffs a (Sessions.handoff_forget (handoffs a) device sh).1 in
      let a := bump (with_sessions a (Sessions.end_device (sessions a) device)) in
      let '(d, r) := devices_revoke (devices a) device sd in
      (sync_apps (with_devices a d), r)
  end.

Definition device_list (a : Auth) (connected : DeviceId → bool) (now_ms : N) : Auth * list Device :=
  let list := devices_list (devices a) connected in
  foldl (λ '(a, out) '(device, record),
           let '(l, hosts) := HostLinks.view (host_links a) record now_ms in
           (with_links a l,
            out ++ [MkDevice (dev_id device) (dev_name device) (dev_created_ms device) (dev_last_seen_ms device)
                      (dev_push device) (Devices.connected device) (dev_via device) hosts]))
    (a, []) (zip list (records (devices a))).

Definition set_hosts (a : Auth) (hosts : list Host) : Auth * res Error unit :=
  let '(l, r) := HostLinks.set_hosts (host_links a) hosts in (with_links a l, r).

Definition links_of (a : Auth) (device : DeviceId) (now_ms : N) : Auth * res Error (list HostLink) :=
  match get (devices a) device with
  | None => (a, Err UnknownDevice)
  | Some record => let '(l, hosts) := HostLinks.view (host_links a) record now_ms in (with_links a l, Ok hosts)
  end.

Definition ask_host (a : Auth) (device : DeviceId) (host : HostId) (public_key : str) (now_ms : N) : Auth * res Error HostState :=
  match get (devices a) device with
  | None => (a, Err UnknownDevice)
  | Some record => let '(l, r) := HostLinks.ask (host_links a) record host public_key now_ms in (with_links a l, r)
  end.

Definition take_host_pairings (a : Auth) (now_ms : N) : Auth * list HostPairing :=
  let '(l, r) := HostLinks.take_asks (host_links a) now_ms in (with_links a l, r).

Definition host_paired (a : Auth) (device : DeviceId) (host : HostId) (public_key : option str) (outcome : HostOutcome)
    (now_ms : N) (s sd : Save) : Auth * res Error unit :=
  let '(l, d, r) := HostLinks.finish (host_links a) (devices a) device host public_key outcome now_ms s sd in
  (with_devices (with_links a l) d, r).

Definition host_revokes (a : Auth) : list HostRevoke := HostLinks.revokes (host_links a).

Definition host_revoked (a : Auth) (r : HostRevoke) (s : Save) : Auth * res Error unit :=
  let '(l, r) := HostLinks.revoked (host_links a) r s in (with_links a l, r).

Definition enroll (a : Auth) (e : Enroll) (now_ms : N) (id : Draw) (sl sh sr sd : Save) : Auth * res Error DeviceId :=
  match (key ← key_parse (enroll_public_key e); name ← device_name (enroll_name e); via ← device_name (enroll_via e); Ok (key, name, via)) with
  | Err err => (a, Err err)
  | Ok (key, name, via') =>
      let replaced := match enroll_replace e with
        | Some old => match get (devices a) old with
            | Some record => if bool_decide (is_Some (via record)) then Some old else None
            | None => None
            end
        | None => None
        end in
      let '(a, gone) := match replaced with Some old => let '(a, r) := revoke a old sl sh sr in (a, _ ← r; Ok tt) | None => (a, Ok tt) end in
      match gone with
      | Err err => (a, Err err)
      | Ok _ =>
          match random_id id with
          | Err err => (a, Err err)
          | Ok id =>
              let '(d, r) := add_with (devices a) (MkNewDevice None id name key) now_ms (Some via') [] sd in
              (with_devices a d, _ ← r; Ok id)
          end
      end
  end.

Definition expire_idle (a : Auth) (now_ms idle_ms : N) (s : Save) : Auth * res Error (list DeviceId) :=
  let '(d, r) := devices_expire_idle (devices a) now_ms idle_ms s in
  let a := with_devices a d in
  match r with
  | Err e => (a, Err e)
  | Ok expired =>
      let a := with_sessions a (foldl Sessions.end_device (sessions a) expired) in
      (if bool_decide (expired = []) then a else sync_apps (bump a), Ok expired)
  end.

(** ** Runs *)

Inductive AuthOp :=
| Do_mint (now_ms : N) (origins : list str) (fingerprint : str) (token id : Draw)
| Do_pairing (id : Pairing.PairingId) (now_ms : N)
| Do_cancel (id : Pairing.PairingId)
| Do_claim (client : Relay.IpAddr) (token name key : str) (now_ms : N) (nonce id device : Draw)
| Do_pairing_open (now_ms : N)
| Do_nearby_start (client : option Relay.IpAddr) (key computer fingerprint : str) (now_ms : N) (secrets : list Draw) (nonce id : Draw)
| Do_nearby_reveal (session nonce fingerprint : str) (origins : list str) (now_ms : N) (token aes : Draw)
| Do_presence_challenge (hint : str) (now_ms : N) (nonce : Draw)
| Do_presence_prove (nonce signature : str) (fingerprint : list N) (now_ms : N)
| Do_claimed_from (claim : Pairing.ClaimId) (origin : str)
| Do_claim_status (id : Pairing.ClaimId) (now_ms : N)
| Do_answer (id : Pairing.PairingId) (allow : bool) (shown : str) (hosts : list HostId) (now_ms : N) (s : Save)
| Do_challenge (client : Relay.IpAddr) (device : DeviceId) (now_ms : N) (nonce id : Draw)
| Do_verify (challenge : Sessions.ChallengeId) (signature : str) (now_ms : N) (token : Draw) (s : Save)
| Do_authenticate (bearer : str) (now_ms : N)
| Do_handoff (device : DeviceId) (now_ms : N) (secret : Draw) (s : Save)
| Do_redeem (client : Relay.IpAddr) (token key : str) (now_ms : N) (s sd : Save)
| Do_revoke (device : DeviceId) (sl sh sd : Save)
| Do_set_hosts (hosts : list Host)
| Do_links (device : DeviceId) (now_ms : N)
| Do_ask_host (device : DeviceId) (host : HostId) (key : str) (now_ms : N)
| Do_take (now_ms : N)
| Do_host_paired (device : DeviceId) (host : HostId) (key : option str) (outcome : HostOutcome) (now_ms : N) (s sd : Save)
| Do_host_revoked (r : HostRevoke) (s : Save)
| Do_enroll (e : Enroll) (now_ms : N) (id : Draw) (sl sh sr sd : Save)
| Do_expire (now_ms idle_ms : N) (s : Save)
| Do_set_push (device : DeviceId) (p : option Json) (s : Save)
| Do_set_apns (device : DeviceId) (p : option Json) (s : Save).

(** What an operation did that access can rest on. *)
Inductive AuthEvent :=
| A_Loaded (id : DeviceId) (key : PublicKey)
| A_Claimed (c : Pairing.Claim) (key : PublicKey)
| A_Approved (id : DeviceId) (key : PublicKey) (shown : str)
| A_Enrolled (id : DeviceId) (key : PublicKey)
| A_Rekeyed (id : DeviceId) (key : PublicKey)
| A_Challenged (id : DeviceId) (nonce : list N)
| A_Proved (id : DeviceId) (key : PublicKey) (nonce signature : list N) (now_ms : N).

(** The devices, each with its key, in order. *)
Definition idkey (r : DeviceRecord) : DeviceId * PublicKey := (record_id r, public_key r).
Definition idkeys (d : Devices) : list (DeviceId * PublicKey) := idkey <$> records d.

(** What a proof that was accepted was made of. *)
Definition proof_of (a : Auth) (id : Sessions.ChallengeId) (signature : str) (now_ms : N) (token : Draw) : list AuthEvent :=
  match Sessions.challenges (sessions a) !! id with
  | None => []
  | Some p =>
      match (Sessions.verify (sessions a) id signature now_ms (devices a) token).2, get (devices a) (Sessions.pending_device p),
        decode_fixed Sessions.SIGNATURE_LEN signature with
      | Ok _, Some r, Some sg => [A_Proved (Sessions.pending_device p) (public_key r) (Sessions.pending_nonce p) sg now_ms]
      | _, _, _ => []
      end
  end.

(** The records an operation added at the end. *)
Definition added (a a' : Auth) : list (DeviceId * PublicKey) := drop (length (records (devices a))) (idkeys (devices a')).

Definition auth_op (a : Auth) (op : AuthOp) : Auth * list AuthEvent :=
  match op with
  | Do_mint now origins fp token id => ((mint a now origins fp token id).1, [])
  | Do_pairing id now => ((pairing a id now).1, [])
  | Do_cancel id => ((cancel a id).1, [])
  | Do_claim client token name key now nonce id device =>
      let '(a, r) := claim a client token name key now nonce id device in
      (a, match r with Ok c => [A_Claimed c (default [] (ok (key_parse key)))] | Err _ => [] end)
  | Do_pairing_open now => ((pairing_open a now).1, [])
  | Do_nearby_start client key computer fp now secrets nonce id => ((nearby_start a client key computer fp now secrets nonce id).1, [])
  | Do_nearby_reveal session nonce fp origins now token aes => ((nearby_reveal a session nonce fp origins now token aes).1, [])
  | Do_presence_challenge hint now nonce => ((presence_challenge a hint now nonce).1, [])
  | Do_presence_prove nonce signature fp now => ((presence_prove a nonce signature fp now).1, [])
  | Do_claimed_from c origin => (claimed_from a c origin, [])
  | Do_claim_status id now => ((claim_status a id now).1, [])
  | Do_answer id allow shown hosts now s =>
      let a' := (answer_with_hosts a id allow shown hosts now s).1 in
      (a', (λ '(id, key), A_Approved id key shown) <$> added a a')
  | Do_challenge client device now nonce id =>
      let '(a, r) := challenge a client device now nonce id in
      (a, match r with Ok _ => [A_Challenged device (default [] nonce)] | Err _ => [] end)
  | Do_verify id signature now token s => ((verify a id signature now token s).1, proof_of a id signature now token)
  | Do_authenticate bearer now => ((authenticate a bearer now).1, [])
  | Do_handoff device now secret s => ((handoff a device now secret s).1, [])
  | Do_redeem client token key now s sd =>
      let '(a, r) := redeem a client token key now s sd in
      (a, match r with Ok device => [A_Rekeyed device (default [] (ok (key_parse key)))] | Err _ => [] end)
  | Do_revoke device sl sh sd => ((revoke a device sl sh sd).1, [])
  | Do_set_hosts hosts => ((set_hosts a hosts).1, [])
  | Do_links device now => ((links_of a device now).1, [])
  | Do_ask_host device host key now => ((ask_host a device host key now).1, [])
  | Do_take now => ((take_host_pairings a now).1, [])
  | Do_host_paired device host key outcome now s sd => ((host_paired a device host key outcome now s sd).1, [])
  | Do_host_revoked r s => ((host_revoked a r s).1, [])
  | Do_enroll e now id sl sh sr sd =>
      let '(a, r) := enroll a e now id sl sh sr sd in
      (a, match r with Ok id => [A_Enrolled id (default [] (ok (key_parse (enroll_public_key e))))] | Err _ => [] end)
  | Do_expire now idle s => ((expire_idle a now idle s).1, [])
  | Do_set_push device p s => (with_devices a (set_push (devices a) device p s).1, [])
  | Do_set_apns device p s => (with_devices a (set_apns (devices a) device p s).1, [])
  end.

(** The state after a run and its events, the newest first. *)
Definition run (ops : list AuthOp) (a : Auth) (h : list AuthEvent) : Auth * list AuthEvent :=
  foldl (λ '(a, h) op, let '(a, e) := auth_op a op in (a, e ++ h)) (a, h) ops.

(** ** The account of access *)

(** The key a device signs with. *)
Definition key_of (ik : list (DeviceId * PublicKey)) (id : DeviceId) : option PublicKey :=
  snd <$> find (λ '(i, _), bool_decide (i = id)) ik.

(** Somebody let the device in with this key: the desktop, which showed the code of the claim that presented it,
    another computer, or the device's own handoff; or it was paired before the daemon started. *)
Definition granted (h : list AuthEvent) (id : DeviceId) (key : PublicKey) : Prop :=
  A_Loaded id key ∈ h ∨ A_Enrolled id key ∈ h ∨ A_Rekeyed id key ∈ h ∨
  ∃ c shown, A_Approved id key shown ∈ h ∧ A_Claimed c key ∈ h ∧ as_bytes (Pairing.claim_code c) = as_bytes shown.

Record accounted (ik : list (DeviceId * PublicKey)) (ss : Sessions.Sessions) (oo : option Pairing.Open) (h : list AuthEvent) : Prop := {
  acc_devices : ∀ id key, (id, key) ∈ ik → granted h id key;
  acc_claims : ∀ o c d code dl, oo = Some o → Pairing.phase o = Pairing.Claimed c d code dl →
    A_Claimed (Pairing.MkClaim c code dl) (new_key d) ∈ h;
  acc_challenges : ∀ id p, Sessions.challenges ss !! id = Some p → A_Challenged (Sessions.pending_device p) (Sessions.pending_nonce p) ∈ h;
  acc_sessions : ∀ g l, Sessions.sessions ss !! g = Some l →
    ∃ key nonce sg t, key_of ik (Sessions.live_device l) = Some key ∧
      A_Proved (Sessions.live_device l) key nonce sg t ∈ h ∧ A_Challenged (Sessions.live_device l) nonce ∈ h ∧
      ecdsa_verify key (Sessions.signed_message nonce) sg = true ∧
      Sessions.live_expires_ms l = saturating_add u64_max t Sessions.SESSION_TTL_MS }.

Lemma granted_mono h h' id key : h ⊆ h' → granted h id key → granted h' id key.
Proof.
  intros Hh [?|[?|[?|(c & shown & ? & ? & ?)]]]; [left; set_solver|right; left; set_solver|do 2 right; left; set_solver|].
  do 3 right. exists c, shown. set_solver.
Qed.

(** Nothing that counts was lost. *)
Lemma accounted_mono ik ss oo h h' : h ⊆ h' → accounted ik ss oo h → accounted ik ss oo h'.
Proof.
  intros Hh [H1 H2 H3 H4]. split.
  - intros id key Hin. by apply (granted_mono h), H1.
  - intros o c d code dl Ho Hp. eapply elem_of_subseteq, H2; [done|done..].
  - intros id p Hp. by apply Hh, (H3 id).
  - intros g l Hl. destruct (H4 g l Hl) as (key & nonce & sg & t & ? & ? & ? & ? & ?).
    exists key, nonce, sg, t. repeat split; try done; by apply Hh.
Qed.

Lemma key_of_idkeys d id : key_of (idkeys d) id = public_key <$> get d id.
Proof.
  unfold key_of, idkeys, get, has_id. induction (records d) as [|r rs IH]; [done|]. cbn.
  by destruct (bool_decide (record_id r = id)).
Qed.

(** *** The parts *)

Definition claim_events (e : Pairing.PairEvent) : list AuthEvent :=
  match e with Pairing.E_Claimed _ _ c key => [A_Claimed c key] | _ => [] end.

Lemma evolves_claims ik ss h oo e oo' :
  Pairing.evolves oo e oo' → accounted ik ss oo h → accounted ik ss oo' (claim_events e ++ h).
Proof.
  intros Hev Hacc. assert (accounted ik ss oo (claim_events e ++ h)) as [H1 H2 H3 H4] by (eapply accounted_mono, Hacc; set_solver).
  split; try done. clear Hacc H1 H3 H4. intros o1 c1 d1 code1 dl1 E Hp1.
  destruct Hev as [oo|o o' Hl|oo|oo id g now n reveals Hn|o g code now Hp Hr|o g now c device n Hp Hc Hn He|
    o c d d' code dl Hp Hid Hname Hkey|o c d code dl now st Hp Hlt Hs]; try done; try injection E as <-; cbn in Hp1; try done.
  - by eapply H2.
  - destruct Hl as [->|(c & st & -> & _)]; [by eapply H2|done].
  - congruence.
  - injection Hp1 as <- <- <- <-. cbn. destruct c. cbn. set_solver.
  - injection Hp1 as <- <- <- <-. rewrite Hkey. by eapply (H2 o).
Qed.

(** The account after devices and sessions went, or moved to other records with the same keys. *)
Lemma accounted_shrink ik ik' ss ss' oo h :
  accounted ik ss oo h → (∀ x, x ∈ ik' → x ∈ ik) →
  Sessions.challenges ss' ⊆ Sessions.challenges ss → Sessions.sessions ss' ⊆ Sessions.sessions ss →
  (∀ g l, Sessions.sessions ss' !! g = Some l → key_of ik' (Sessions.live_device l) = key_of ik (Sessions.live_device l)) →
  accounted ik' ss' oo h.
Proof.
  intros [H1 H2 H3 H4] Hik Hch Hse Hkey. split.
  - intros id key Hin. by apply H1, Hik.
  - done.
  - intros id p Hp. apply (H3 id). by eapply lookup_weaken.
  - intros g l Hl. rewrite (Hkey g l Hl). apply (H4 g). by eapply lookup_weaken.
Qed.

Lemma key_of_app ik x id key : key_of ik id = Some key → key_of (ik ++ [x]) id = Some key.
Proof.
  unfold key_of. induction ik as [|[i k] ik IH]; [done|]. cbn. destruct (bool_decide (i = id)); [done|]. exact IH.
Qed.

(** A device let in. *)
Lemma accounted_add ik ss oo h id key :
  accounted ik ss oo h → granted h id key → accounted (ik ++ [(id, key)]) ss oo h.
Proof.
  intros [H1 H2 H3 H4] Hg. split; try done.
  - intros id' key' [Hin|[= -> ->]%list_elem_of_singleton]%elem_of_app; [by apply H1|done].
  - intros g l Hl. destruct (H4 g l Hl) as (k & nonce & sg & t & Hk & Hrest). exists k, nonce, sg, t.
    split; [by apply key_of_app|done].
Qed.

Lemma change_idkeys d id s f undo d' r :
  change d id s f undo = (d', r) → (∀ x, idkey (f x) = idkey x) → (∀ x, undo x (f x) = x) → idkeys d' = idkeys d.
Proof.
  intros E Hf Hu. pose proof (change_spec d id s f undo) as H1. rewrite E in H1.
  destruct H1 as [H1 _]; [intros x; by injection (Hf x)|done|]. unfold idkeys. destruct r.
  - destruct H1 as [_ Hup]. by eapply update_first_fmap.
  - by destruct H1 as [-> _].
Qed.

Lemma touch_idkeys d id now s : idkeys (touch d id now s).1 = idkeys d.
Proof.
  unfold touch, record_mut. destruct (update_first _ _ _) as [rs|] eqn:E; cbn [fmap option_fmap option_map]; [|done].
  assert (idkey <$> rs = idkeys d) as Hrs by (eapply update_first_fmap, E; done).
  destruct (negb _); [done|]. destruct (save s (with_records d rs)) as [d' r] eqn:Es.
  pose proof (save_records s (with_records d rs)) as [Hr _]. rewrite Es in Hr. cbn in Hr.
  destruct r; unfold idkeys; cbn; by rewrite Hr.
Qed.

Lemma add_idkeys d device now via' ls s :
  let '(d', r) := add_with d device now via' ls s in
  idkeys d' = match r with Ok _ => idkeys d ++ [(new_id device, new_key device)] | Err _ => idkeys d end.
Proof.
  unfold add_with. set (r0 := MkDeviceRecord _ _ _ _ _ _ _ _ _ _).
  pose proof (save_or_undo_spec s (λ d, with_records d (removelast (records d))) d (with_records d (records d ++ [r0]))
    ltac:(intros; apply removelast_snoc) ltac:(done) eq_refl) as H1.
  destruct (save_or_undo _ _ _) as [d' [u|e]]; unfold idkeys.
  - destruct H1 as (_ & -> & _). cbn [records with_records]. by rewrite fmap_app.
  - by destruct H1 as [-> _].
Qed.

(** A device's sessions and challenges gone, the others kept. *)
Lemma end_device_sub ss device :
  Sessions.challenges (Sessions.end_device ss device) ⊆ Sessions.challenges ss ∧
  Sessions.sessions (Sessions.end_device ss device) ⊆ Sessions.sessions ss ∧
  ∀ g l, Sessions.sessions (Sessions.end_device ss device) !! g = Some l → Sessions.live_device l ≠ device.
Proof.
  split; [apply map_filter_subseteq|]. split; [apply map_filter_subseteq|].
  intros g l Hl. by apply map_lookup_filter_Some in Hl as [_ ?].
Qed.

(** Changing or removing a device's records leaves the keys of the others. *)
Lemma key_of_find id f d d' :
  update_first (has_id id) f (records d) = Some (records d') → (∀ x, record_id (f x) = record_id x) →
  ∀ id', id' ≠ id → key_of (idkeys d') id' = key_of (idkeys d) id'.
Proof.
  intros Hup Hf id' Hne. rewrite !key_of_idkeys. unfold get. f_equal.
  eapply find_update_other; [|..|exact Hup].
  - intros x. unfold has_id. by rewrite Hf.
  - intros x. unfold has_id. rewrite bool_decide_eq_true, bool_decide_eq_false. congruence.
Qed.

Lemma find_delete_other {A} (q : A → bool) l i a :
  l !! i = Some a → q a = false → find q (delete i l) = find q l.
Proof.
  revert i. induction l as [|x l IH]; intros [|i]; cbn; try done.
  - intros [= ->] ->. done.
  - intros Hi Hq. destruct (q x); [done|]. exact (IH i Hi Hq).
Qed.

Lemma delete_elem {A} (l : list A) i x : x ∈ delete i l → x ∈ l.
Proof.
  rewrite delete_take_drop, elem_of_app. intros [?|?].
  - rewrite <-(take_drop i l), elem_of_app. by left.
  - rewrite <-(take_drop (S i) l), elem_of_app. by right.
Qed.

(** Every operation on the parts that count. *)

Definition holds (a : Auth) (h : list AuthEvent) : Prop :=
  accounted (idkeys (devices a)) (sessions a) (Pairing.open (pairings a)) h.

Lemma holds_pairings a h p e :
  holds a h → Pairing.evolves (Pairing.open (pairings a)) e (Pairing.open p) → holds (with_pairings a p) (claim_events e ++ h).
Proof. intros Hh Hev. by eapply evolves_claims. Qed.

Lemma revoke_holds a h device sl sh sd : holds a h → holds (revoke a device sl sh sd).1 h.
Proof.
  intros Hh. unfold revoke.
  destruct (match get (devices a) device with Some record => _ | None => _ end) as [a1 forgotten] eqn:Ef.
  assert (devices a1 = devices a ∧ sessions a1 = sessions a ∧ pairings a1 = pairings a) as (Ed & Es & Ep).
  { destruct (get (devices a) device); [destruct (HostLinks.forget _ _ _)|]; injection Ef as <- _; done. }
  destruct forgotten as [u|e]; [|unfold holds; cbn; by rewrite Ed, Es, Ep].
  cbn -[Sessions.end_device devices_revoke]. rewrite Ed.
  destruct (devices_revoke (devices a) device sd) as [d' r] eqn:Er.
  unfold holds. cbn -[Sessions.end_device]. rewrite Es, Ep.
  destruct (end_device_sub (sessions a) device) as (Hch & Hse & Hno).
  assert ((∀ x, x ∈ idkeys d' → x ∈ idkeys (devices a)) ∧
    ∀ id', id' ≠ device → key_of (idkeys d') id' = key_of (idkeys (devices a)) id') as [Hin Hkey].
  { unfold devices_revoke in Er. destruct (list_find _ _) as [[i r0]|] eqn:El; [|by injection Er as <- _].
    apply list_find_Some in El as (Hi & Hid & _). unfold has_id in Hid. apply bool_decide_eq_true in Hid.
    pose proof (save_or_undo_spec sd (λ d, with_records d (take i (records d) ++ r0 :: drop i (records d))) (devices a)
      (with_records (devices a) (delete i (records (devices a))))) as Hs. cbn -[save_or_undo] in Hs.
    specialize (Hs ltac:(intros f; by apply delete_insert_back) ltac:(done) eq_refl).
    assert (records d' = delete i (records (devices a)) ∨ records d' = records (devices a)) as Hrec.
    { destruct (save_or_undo _ _ _) as [d1 [u1|e1]]; injection Er as <- _; [left; apply Hs|right; apply Hs]. }
    split.
    - intros x. unfold idkeys. intros (r1 & -> & Hr1)%list_elem_of_fmap. apply list_elem_of_fmap_2.
      destruct Hrec as [Hrec|Hrec]; rewrite Hrec in Hr1; [by eapply delete_elem|done].
    - intros id' Hne. rewrite !key_of_idkeys. unfold get. f_equal. destruct Hrec as [->| ->]; [|done].
      eapply find_delete_other; [exact Hi|]. unfold has_id. apply bool_decide_eq_false. congruence. }
  eapply accounted_shrink; [exact Hh|exact Hin|exact Hch|exact Hse|].
  intros g l Hl. apply Hkey. by eapply Hno.
Qed.

Lemma foldl_end_sub expired ss :
  Sessions.challenges (foldl Sessions.end_device ss expired) ⊆ Sessions.challenges ss ∧
  Sessions.sessions (foldl Sessions.end_device ss expired) ⊆ Sessions.sessions ss ∧
  ∀ g l, Sessions.sessions (foldl Sessions.end_device ss expired) !! g = Some l → Sessions.live_device l ∉ expired.
Proof.
  revert ss. induction expired as [|x xs IH]; intros ss; cbn [foldl].
  { split; [done|]. split; [done|]. intros g l _. apply not_elem_of_nil. }
  destruct (IH (Sessions.end_device ss x)) as (H1 & H2 & H3). destruct (end_device_sub ss x) as (H4 & H5 & H6).
  split; [by etrans|]. split; [by etrans|]. intros g l Hl. apply not_elem_of_cons. split; [|by eapply H3].
  apply (H6 g). by eapply lookup_weaken.
Qed.

Lemma find_not_idle now idle_ms id rs :
  id ∉ record_id <$> filter (λ r, idle now idle_ms r = true) rs →
  find (has_id id) (filter (λ r, idle now idle_ms r = false) rs) = find (has_id id) rs.
Proof.
  induction rs as [|r rs IH]; [done|]. intros Hid. cbn [find]. destruct (idle now idle_ms r) eqn:Hi.
  - rewrite (filter_cons_False (λ r, idle now idle_ms r = false)) by congruence.
    rewrite (filter_cons_True (λ r, idle now idle_ms r = true)) in Hid by done. cbn in Hid.
    apply not_elem_of_cons in Hid as [Hne Hid]. unfold has_id at 2. rewrite bool_decide_false by done. by apply IH.
  - rewrite (filter_cons_True (λ r, idle now idle_ms r = false)) by done. cbn [find]. destruct (has_id id r); [done|].
    apply IH. intros Hin. apply Hid. by rewrite (filter_cons_False (λ r, idle now idle_ms r = true)) by congruence.
Qed.

Lemma expire_holds a h now idle_ms s : holds a h → holds (expire_idle a now idle_ms s).1 h.
Proof.
  intros Hh. unfold expire_idle. destruct (devices_expire_idle (devices a) now idle_ms s) as [d' r] eqn:E.
  unfold devices_expire_idle in E.
  destruct (negb (existsb (idle now idle_ms) (records (devices a)))).
  { injection E as <- <-. exact Hh. }
  pose proof (save_or_undo_spec s (λ d0, with_records d0 (records (devices a))) (devices a)
    (with_records (devices a) (filter (λ r, idle now idle_ms r = false) (records (devices a)))) ltac:(done) ltac:(done) eq_refl) as Hs.
  destruct (save_or_undo _ _ _) as [d1 [u|e]]; injection E as <- <-.
  2: { destruct Hs as [Hrec _]. unfold holds, idkeys. cbn. by rewrite Hrec. }
  destruct Hs as (_ & Hrec & _). cbn [fst]. set (expired := record_id <$> _).
  assert (accounted (idkeys d1) (foldl Sessions.end_device (sessions a) expired) (Pairing.open (pairings a)) h) as Hacc.
  { destruct (foldl_end_sub expired (sessions a)) as (Hch & Hse & Hno).
    eapply accounted_shrink; [exact Hh| |exact Hch|exact Hse|].
    - intros x. unfold idkeys. rewrite Hrec. cbn.
      intros (r1 & -> & [_ Hr1]%list_elem_of_filter)%list_elem_of_fmap. by apply list_elem_of_fmap_2.
    - intros g l Hl. specialize (Hno g l Hl). rewrite !key_of_idkeys. unfold get. rewrite Hrec. cbn. f_equal.
      by apply find_not_idle. }
  by destruct (bool_decide (expired = [])).
Qed.

Lemma answer_keep {D} p (d : D) id allow now keep p' d' r :
  Pairing.answer p d id allow now keep = (p', d', r) →
  d' = d ∨ ∃ o c dev code dl, allow = true ∧ Pairing.open p = Some o ∧ Pairing.phase o = Pairing.Claimed c dev code dl ∧
    d' = (keep d dev).1.
Proof.
  unfold Pairing.answer. destruct (Pairing.find_open p id) as [o|] eqn:Ef; [|intros [= _ <- _]; by left].
  apply Pairing.find_open_ok in Ef as [Eo _]. destruct (Pairing.refresh o (Pairing.outcomes p) now) as [o1 outs] eqn:Er.
  destruct (Pairing.phase o1) as [|c dev code dl|c st] eqn:Ep; try (intros [= _ <- _]; by left).
  destruct (Pairing.refresh_claimed _ _ _ _ _ _ _ _ _ Er Ep) as (-> & -> & _).
  destruct allow; cbn [negb]; [|destruct (Pairing.settle _ _ _) as [[? ?] ?]; intros [= _ <- _]; by left].
  destruct (keep d dev) as [d1 [u|e]] eqn:Ek; destruct (Pairing.settle _ _ _) as [[? ?] ?]; intros [= _ <- _]; right;
    exists o, c, dev, code, dl; by rewrite Ek.
Qed.

Lemma added_none a a' : idkeys (devices a') = idkeys (devices a) → added a a' = [].
Proof. unfold added. intros ->. apply drop_ge. unfold idkeys. by rewrite length_fmap. Qed.

Lemma added_one a a' x : idkeys (devices a') = idkeys (devices a) ++ [x] → added a a' = [x].
Proof. unfold added. intros ->. rewrite drop_app_length'; [done|]. unfold idkeys. by rewrite length_fmap. Qed.

Lemma pairing_holds a h id now : holds a h → holds (pairing a id now).1 h.
Proof.
  intros Hh. unfold pairing. pose proof (Pairing.state_evolves (pairings a) id now) as Hev.
  destruct (Pairing.state (pairings a) id now) as [p r]. cbn in *. exact (holds_pairings a h p _ Hh Hev).
Qed.

(** An answer that may let a device in: the claim it is about shows the code. *)
Lemma answer_matched_holds a h id allow hosts now s shown a' :
  holds a h →
  (allow = true → ∀ o c dev code dl, Pairing.open (pairings a) = Some o → Pairing.phase o = Pairing.Claimed c dev code dl →
     as_bytes code = as_bytes shown) →
  (answer_matched a id allow hosts now s).1 = a' →
  holds a' (((λ '(id, key), A_Approved id key shown) <$> added a a') ++ h).
Proof.
  intros Hh Hcode. unfold answer_matched.
  set (keep := λ d device, add_with d device now None (HostLinks.allowed (host_links a) hosts) s).
  destruct (Pairing.answer (pairings a) (devices a) id allow now keep) as [[p d] r] eqn:Ea.
  assert (Pairing.evolves (Pairing.open (pairings a)) (match r with Ok (Some dv) => Pairing.E_Approved dv now | _ => Pairing.E_Nothing end) (Pairing.open p)) as Hev
    by (by eapply Pairing.answer_evolves).
  pose proof (holds_pairings a h p _ Hh Hev) as Hp. replace (claim_events _) with (@nil AuthEvent) in Hp by (by destruct r as [[]|]).
  cbn [app] in Hp. set (a1 := with_devices (with_pairings a p) d).
  intros Ea'. assert (idkeys (devices a') = idkeys d ∧ (∀ h', holds a1 h' → holds a' h')) as [Hd Hfin].
  { subst a'. destruct r as [o|e]; [|done]. split; [|intros; by apply pairing_holds].
    unfold pairing, sync_apps. cbn. by destruct (Pairing.state p id now). }
  destruct (answer_keep _ _ _ _ _ _ _ _ _ Ea) as [->|(o & c & dev & code & dl & -> & Ho & Hph & ->)].
  { rewrite added_none by done. cbn. apply Hfin. exact Hp. }
  unfold keep in *. pose proof (add_idkeys (devices a) dev now None (HostLinks.allowed (host_links a) hosts) s) as Hadd.
  destruct (add_with _ _ _ _ _ _) as [d1 [u|e]]; cbn in *.
  - rewrite (added_one a a' (new_id dev, new_key dev)) by (by rewrite Hd). cbn. apply Hfin.
    unfold a1, holds. cbn. rewrite Hadd. apply accounted_add; [eapply accounted_mono, Hp; set_solver|].
    do 3 right. exists (Pairing.MkClaim c code dl), shown. split; [set_solver|]. split.
    + destruct Hh as [_ Hc _ _]. specialize (Hc _ _ _ _ _ Ho Hph). set_solver.
    + cbn. by eapply Hcode.
  - rewrite added_none by (by rewrite Hd). cbn. apply Hfin. unfold a1, holds. cbn. by rewrite Hadd.
Qed.

Lemma answer_holds a h id allow shown hosts now s a' :
  holds a h → (answer_with_hosts a id allow shown hosts now s).1 = a' →
  holds a' (((λ '(id, key), A_Approved id key shown) <$> added a a') ++ h).
Proof.
  intros Hh. unfold answer_with_hosts. destruct allow.
  2: { intros Ha'. eapply (answer_matched_holds a h id false hosts now s shown); [done|done|exact Ha']. }
  pose proof (pairing_holds a h id now Hh) as Hh1. destruct (pairing a id now) as [a1 st] eqn:Ep. cbn in Hh1.
  assert (devices a1 = devices a ∧ pairings a1 = (Pairing.state (pairings a) id now).1 ∧ st = (Pairing.state (pairings a) id now).2) as (Ed & Epp & Est).
  { unfold pairing in Ep. destruct (Pairing.state (pairings a) id now). by injection Ep as <- <-. }
  destruct st as [st|e]; [|intros <-; cbn; rewrite added_none by (by rewrite Ed); exact Hh1].
  destruct (shows st shown) eqn:Esh.
  - intros Ha'. replace (added a a') with (added a1 a') by (unfold added; by rewrite Ed).
    eapply answer_matched_holds; [exact Hh1| |exact Ha']. intros _ o c dev code dl Ho Hph. rewrite Epp in Ho.
    unfold Pairing.state in Ho, Est. destruct (Pairing.find_open (pairings a) id) as [o0|]; [|done].
    destruct (Pairing.refresh o0 _ now) as [o1 outs]. cbn in Ho, Est. injection Ho as ->. injection Est as ->.
    unfold shows, Pairing.view in Esh. rewrite Hph in Esh. by rewrite constant_time_eq_spec, bool_decide_eq_true in Esh.
  - destruct (Pairing.answer (pairings a1) tt id false now (λ u _, (u, Ok tt))) as [[p u] r] eqn:Ea. cbn. intros <-.
    rewrite added_none by (cbn; by rewrite Ed). cbn.
    pose proof (Pairing.answer_evolves _ _ _ _ _ _ _ _ _ Ea) as Hev. pose proof (holds_pairings a1 h p _ Hh1 Hev) as Hp.
    by replace (claim_events _) with (@nil AuthEvent) in Hp by (by destruct r as [[]|]).
Qed.

Lemma challenge_holds a h client device now nonce id a' r :
  holds a h → challenge a client device now nonce id = (a', r) →
  holds a' ((match r with Ok _ => [A_Challenged device (default [] nonce)] | Err _ => [] end) ++ h).
Proof.
  intros Hh. unfold challenge. destruct (AuthLimit.allow _ _ _) as [l allowed]. destruct allowed; cbn [negb]; [|by intros [= <- <-]].
  unfold Sessions.challenge. cbn. destruct (get (devices a) device) as [rec|]; [|by intros [= <- <-]].
  set (room := Sessions.make_room _ _ _ _ _).
  assert (room ⊆ Sessions.challenges (sessions a)) as Hsub.
  { etrans; [apply Sessions.make_room_sub|apply map_filter_subseteq]. }
  assert (∀ h', h ⊆ h' → accounted (idkeys (devices a)) (Sessions.MkSessions room (Sessions.sessions (sessions a))) (Pairing.open (pairings a)) h') as Hroom.
  { intros h' Hh'. eapply accounted_mono; [exact Hh'|]. by eapply accounted_shrink. }
  destruct nonce as [nonce|]; cbn; [|intros [= <- <-]; by apply (Hroom h)].
  destruct (random_id id) as [cid|]; intros [= <- <-]; cbn; [|by apply (Hroom h)].
  destruct (Hroom (A_Challenged device nonce :: h) ltac:(set_solver)) as [H1 H2 H3 H4]. split; try done.
  intros id' p. cbn. destruct (decide (id' = cid)) as [->|Hne].
  - rewrite lookup_insert_eq. intros [= <-]. cbn. set_solver.
  - rewrite lookup_insert_ne by done. apply H3.
Qed.

Lemma check_signature_ok p signature d :
  Sessions.check_signature p signature d = Ok tt →
  ∃ sg r, decode_fixed Sessions.SIGNATURE_LEN signature = Some sg ∧ get d (Sessions.pending_device p) = Some r ∧
    ecdsa_verify (public_key r) (Sessions.signed_message (Sessions.pending_nonce p)) sg = true.
Proof.
  unfold Sessions.check_signature. destruct (decode_fixed _ _) as [sg|]; [|done]. destruct (negb _); [done|].
  intros Hc. apply res_bind_ok in Hc as (r & Hr%ok_or_ok & Hc). apply res_bind_ok in Hc as (key & Hk & Hc).
  unfold verifying_key in Hk. destruct (sec1_point _); [|done]. injection Hk as <-.
  destruct (ecdsa_verify _ _ _) eqn:Ev; [|done]. by exists sg, r.
Qed.

Lemma start_challenges ss device now token : Sessions.challenges (Sessions.start ss device now token).1 = Sessions.challenges ss.
Proof. unfold Sessions.start. by destruct (random_bytes token). Qed.

Lemma verify_challenges ss id signature now d token :
  Sessions.challenges (Sessions.verify ss id signature now d token).1 ⊆ Sessions.challenges ss.
Proof.
  unfold Sessions.verify. destruct (Sessions.challenges ss !! id) as [p|]; [|apply delete_subseteq].
  destruct (_ <=? _); [apply delete_subseteq|]. destruct (Sessions.check_signature p signature d); [|apply delete_subseteq].
  rewrite start_challenges. apply delete_subseteq.
Qed.

Lemma verify_holds a h id signature now token s :
  holds a h → holds (verify a id signature now token s).1 (proof_of a id signature now token ++ h).
Proof.
  intros Hh. assert (holds a (proof_of a id signature now token ++ h)) as [H1 H2 H3 H4] by (eapply accounted_mono, Hh; set_solver).
  set (h' := proof_of a id signature now token ++ h) in *.
  destruct (Sessions.verify (sessions a) id signature now (devices a) token) as [ss r] eqn:Ev.
  assert (accounted (idkeys (devices a)) ss (Pairing.open (pairings a)) h') as Hacc.
  { split; [done|done| |].
    - intros cid p Hp. eapply H3. eapply lookup_weaken; [exact Hp|].
      pose proof (verify_challenges (sessions a) id signature now (devices a) token) as Hs. by rewrite Ev in Hs.
    - intros g l Hl. destruct (Sessions.verify_sessions _ _ _ _ _ _ _ _ _ _ Ev Hl) as [Hold|(p & sn & Hp & Hnow & Hc & -> & ->)]; [by apply (H4 g)|].
      destruct (check_signature_ok _ _ _ Hc) as (sg & rec & Hsg & Hrec & Hver). cbn.
      exists (public_key rec), (Sessions.pending_nonce p), sg, now. split; [by rewrite key_of_idkeys, Hrec|].
      split; [|split; [|done]].
      + unfold h', proof_of. rewrite Hp, Ev, Hrec, Hsg. cbn. set_solver.
      + by apply (H3 id). }
  unfold verify. rewrite Ev. destruct r as [sn|e]; [|exact Hacc]. cbn.
  pose proof (touch_idkeys (devices a) (Sessions.session_device sn) now s) as Ht.
  destruct (touch _ _ _ _) as [d t]. cbn in *. unfold holds. cbn. by rewrite Ht.
Qed.

Lemma authenticate_holds a h bearer now : holds a h → holds (authenticate a bearer now).1 h.
Proof.
  intros Hh. unfold authenticate, Sessions.authenticate. destruct (decode_fixed _ _) as [token|]; [|done].
  destruct (Sessions.sessions (sessions a) !! sha256 token) as [l|]; [|done]. destruct (_ <=? _); [|done].
  cbn. eapply accounted_shrink; [exact Hh|done|done|apply delete_subseteq|done].
Qed.

Lemma redeem_holds a h client token key now s sd a' r :
  holds a h → redeem a client token key now s sd = (a', r) →
  holds a' ((match r with Ok device => [A_Rekeyed device (default [] (ok (key_parse key)))] | Err _ => [] end) ++ h).
Proof.
  intros Hh. unfold redeem. destruct (AuthLimit.allow _ _ _) as [l allowed]. destruct allowed; cbn [negb]; [|by intros [= <- <-]].
  destruct (key_parse key) as [k|]; [|by intros [= <- <-]].
  destruct (Sessions.handoff_redeem _ _ _ _) as [ho [[device|]|e]]; [|by intros [= <- <-]..]. cbn [devices with_handoffs with_pair_limit].
  destruct (rekey (devices a) device k sd) as [d rk] eqn:Er. unfold rekey in Er.
  pose proof (change_spec (devices a) device sd (set_key k None) (λ old, set_key (public_key old) (push old))
    ltac:(done) ltac:(by intros [])) as Hc. rewrite Er in Hc. destruct Hc as [Hc _].
  destruct rk as [u|e]; intros [= <- <-]; cbn; unfold holds; cbn.
  2: { destruct Hc as [Hrec _]. unfold idkeys. by rewrite Hrec. }
  destruct Hc as [_ Hup]. destruct (end_device_sub (sessions a) device) as (Hch & Hse & Hno).
  assert (accounted (idkeys (devices a)) (Sessions.end_device (sessions a) device) (Pairing.open (pairings a)) (A_Rekeyed device k :: h)) as [H1 H2 H3 H4].
  { eapply accounted_shrink; [eapply accounted_mono, Hh; set_solver|done|done|done|done]. }
  split; [|done|done|].
  - intros id key' Hin. unfold idkeys in Hin. apply list_elem_of_fmap in Hin as (r & E & Hr). injection E as -> ->.
    destruct (decide (record_id r = device ∧ public_key r = k)) as [[-> ->]|Hne]; [right; right; left; set_solver|].
    apply H1. unfold idkeys. apply list_elem_of_fmap. exists r. split; [done|].
    clear -Hup Hr Hne. revert Hr Hup. generalize (records d), (records (devices a)). intros rs' rs. revert rs'.
    induction rs as [|x rs IH]; intros rs' Hr; cbn; [done|]. destruct (has_id device x) eqn:E.
    + intros [= <-]. apply elem_of_cons in Hr as [->|Hr]; [|set_solver]. exfalso. apply Hne.
      unfold has_id in E. by apply bool_decide_eq_true in E.
    + intros (k0 & Hk & ->)%fmap_Some. apply elem_of_cons in Hr as [->|Hr]; [set_solver|]. specialize (IH k0 Hr Hk). set_solver.
  - intros g l0 Hl. destruct (H4 g l0 Hl) as (key' & nonce & sg & t & Hk & Hrest). exists key', nonce, sg, t. split; [|done].
    rewrite <-Hk. eapply key_of_find; [exact Hup|done|]. by eapply Hno.
Qed.

Lemma host_paired_holds a h device host key outcome now s sd :
  holds a h → holds (host_paired a device host key outcome now s sd).1 h.
Proof.
  intros Hh. unfold host_paired. destruct (HostLinks.finish _ _ _ _ _ _ _ _ _) as [[l d] r] eqn:E.
  assert (idkeys d = idkeys (devices a)) as Hd; [|unfold holds; cbn; by rewrite Hd].
  unfold HostLinks.finish in E. destruct (match key with None => _ | Some k => _ end) as [attempt|]; [|by injection E as _ <- _].
  destruct (HostLinks.asks _ !! (device, host) ≫= _) as [ask|].
  - destruct outcome as [e|reason|]; [|by injection E as _ <- _..]. destruct (negb _); [by injection E as _ <- _|].
    destruct (set_link _ _ _ _) as [d1 [u|e1]] eqn:Es; injection E as _ <- _; unfold set_link in Es;
      (eapply change_idkeys; [exact Es|done|by intros []]).
  - destruct outcome as [e|reason|]; [|by injection E as _ <- _..].
    destruct (enrolled_valid e); [|by injection E as _ <- _]. destruct (HostLinks.owe _ _ _) as [l1 r1]. by injection E as _ <- _.
Qed.

Lemma enroll_holds a h e now id sl sh sr sd a' r :
  holds a h → enroll a e now id sl sh sr sd = (a', r) →
  holds a' ((match r with Ok id => [A_Enrolled id (default [] (ok (key_parse (enroll_public_key e))))] | Err _ => [] end) ++ h).
Proof.
  intros Hh. unfold enroll.
  destruct (key_parse (enroll_public_key e)) as [key|]; cbn [mbind res_bind]; [|by intros [= <- <-]].
  destruct (device_name (enroll_name e)) as [name|]; cbn [mbind res_bind]; [|by intros [= <- <-]].
  destruct (device_name (enroll_via e)) as [v|]; cbn [mbind res_bind]; [|by intros [= <- <-]].
  destruct (match match enroll_replace e with Some old => _ | None => _ end with Some old => _ | None => _ end) as [a1 gone] eqn:Eg.
  assert (holds a1 h) as Hh1.
  { destruct (match enroll_replace e with Some old => _ | None => _ end) as [old|]; [|by injection Eg as <- _].
    pose proof (revoke_holds a h old sl sh sr Hh) as Hr. destruct (revoke a old sl sh sr) as [a2 r2]. by injection Eg as <- _. }
  destruct gone as [u|err]; [|by intros [= <- <-]]. destruct (random_id id) as [did|err]; [|by intros [= <- <-]].
  pose proof (add_idkeys (devices a1) (MkNewDevice None did name key) now (Some v) [] sd) as Hadd.
  destruct (add_with _ _ _ _ _ _) as [d [u1|e1]]; intros [= <- <-]; cbn; unfold holds; cbn; rewrite Hadd; [|exact Hh1].
  apply accounted_add; [eapply accounted_mono, Hh1; set_solver|]. right. left. cbn. set_solver.
Qed.

(** A pairing operation that is no claim. *)
Lemma quiet_pairings a h p : holds a h → Pairing.evolves (Pairing.open (pairings a)) Pairing.E_Nothing (Pairing.open p) → holds (with_pairings a p) h.
Proof. intros Hh Hev. exact (holds_pairings a h p _ Hh Hev). Qed.

Lemma nearby_start_holds a h client key computer fp now secrets nonce id :
  holds a h → holds (nearby_start a client key computer fp now secrets nonce id).1 h.
Proof.
  intros Hh. unfold nearby_start.
  destruct (match client with Some client => _ | None => _ end) as [a1 allowed] eqn:Ec.
  assert (holds a1 h) as Hh1. { destruct client; [destruct (AuthLimit.allow _ _ _)|]; by injection Ec as <- _. }
  destruct allowed; cbn [negb]; [|done]. destruct (Pairing.waiting (pairings a1) now) as [p w] eqn:Ew.
  pose proof (quiet_pairings a1 h p Hh1 (proj1 (Pairing.waiting_evolves _ _ _ _ Ew))) as Hp.
  destruct w; cbn [negb]; [|done]. by destruct (NearbyPairing.nearby_start _ _ _ _ _ _ _ _).
Qed.

Lemma nearby_reveal_holds a h session nonce fp origins now token aes :
  holds a h → holds (nearby_reveal a session nonce fp origins now token aes).1 h.
Proof.
  intros Hh. unfold nearby_reveal. destruct (NearbyPairing.nearby_take _ _ _) as [ss [started|e]]; [|done].
  destruct (Pairing.waiting (pairings (with_nearby a ss)) now) as [p w] eqn:Ew.
  pose proof (quiet_pairings (with_nearby a ss) h p Hh (proj1 (Pairing.waiting_evolves _ _ _ _ Ew))) as Hp.
  destruct w; cbn [negb]; [|done]. destruct (random_bytes token ≫= _) as [[tok [revealed code]]|e]; [|done].
  destruct (Pairing.set_nearby (pairings (with_pairings (with_nearby a ss) p)) tok code now) as [p1 r] eqn:En.
  apply Pairing.nearby_evolves in En. pose proof (holds_pairings _ h p1 _ Hp En) as Hp1.
  replace (claim_events _) with (@nil AuthEvent) in Hp1 by (by destruct r). exact Hp1.
Qed.

Lemma claim_holds a h client token name key now nonce id device a' r :
  holds a h → claim a client token name key now nonce id device = (a', r) →
  holds a' ((match r with Ok c => [A_Claimed c (default [] (ok (key_parse key)))] | Err _ => [] end) ++ h).
Proof.
  intros Hh. unfold claim. destruct (AuthLimit.allow _ _ _) as [l allowed]. destruct allowed; cbn [negb]; [|by intros [= <- <-]].
  destruct (Pairing.claim _ _ _ _ _ _ _ _) as [p r0] eqn:Ec. intros [= <- <-].
  apply Pairing.claim_evolves in Ec. pose proof (holds_pairings (with_pair_limit a l) h p _ Hh Ec) as Hp. by destruct r0.
Qed.

Lemma auth_op_holds a h op : holds a h → let '(a', e) := auth_op a op in holds a' (e ++ h).
Proof.
  intros Hh. destruct op as [now os fp token id|id now|id|client token name key now nonce id device|now|
    client key computer fp now secrets nonce id|session nonce fp os now token aes|hint now nonce|nonce signature fp now|
    c origin|id now|id allow shown hosts now s|client device now nonce id|id signature now token s|bearer now|
    device now secret s|client token key now s sd|device sl sh sd|hosts|device now|device host key now|now|
    device host key outcome now s sd|r s|e now id sl sh sr sd|now idle_ms s|device p s|device p s]; cbn [auth_op].
  - unfold mint. destruct (Pairing.mint _ _ _ _ _ _) as [p r] eqn:E. apply Pairing.mint_evolves in E.
    pose proof (holds_pairings a h p _ Hh E) as Hp. by destruct r.
  - by apply pairing_holds.
  - unfold cancel. destruct (Pairing.cancel (pairings a) id) as [p r] eqn:E. apply quiet_pairings; [done|].
    eapply (Pairing.pair_op_evolves (pairings a) (Pairing.O_Cancel id)). cbn. by rewrite E.
  - destruct (claim _ _ _ _ _ _ _ _ _) as [a1 r] eqn:E. by eapply claim_holds.
  - unfold pairing_open. destruct (Pairing.waiting _ _) as [p w] eqn:E. apply Pairing.waiting_evolves in E as [E _].
    by apply quiet_pairings.
  - by apply nearby_start_holds.
  - by apply nearby_reveal_holds.
  - unfold presence_challenge. by destruct (Sessions.presence_challenge _ _ _ _ _).
  - unfold presence_prove. by destruct (Sessions.prove _ _ _ _ _ _).
  - apply quiet_pairings; [done|]. apply Pairing.from_evolves.
  - unfold claim_status. pose proof (Pairing.status_evolves (pairings a) id now) as E.
    destruct (Pairing.claim_status _ _ _) as [p r]. by apply quiet_pairings.
  - by apply (answer_holds a h id allow shown hosts now s).
  - destruct (challenge _ _ _ _ _ _) as [a1 r] eqn:E. by eapply challenge_holds.
  - by apply verify_holds.
  - by apply authenticate_holds.
  - unfold handoff. destruct (get _ _); [|done]. by destruct (Sessions.handoff_mint _ _ _ _ _).
  - destruct (redeem _ _ _ _ _ _ _) as [a1 r] eqn:E. by eapply redeem_holds.
  - by apply revoke_holds.
  - unfold set_hosts. by destruct (HostLinks.set_hosts _ _).
  - unfold links_of. destruct (get _ _); [|done]. by destruct (HostLinks.view _ _ _).
  - unfold ask_host. destruct (get _ _); [|done]. by destruct (HostLinks.ask _ _ _ _ _).
  - unfold take_host_pairings. by destruct (HostLinks.take_asks _ _).
  - by apply host_paired_holds.
  - unfold host_revoked. by destruct (HostLinks.revoked _ _ _).
  - destruct (enroll _ _ _ _ _ _ _ _) as [a1 r] eqn:E. by eapply enroll_holds.
  - by apply expire_holds.
  - destruct (set_push (devices a) device p s) as [d r] eqn:E. unfold set_push in E. unfold holds. cbn.
    rewrite (change_idkeys _ _ _ _ _ _ _ E); [exact Hh|done|by intros []].
  - destruct (set_apns (devices a) device p s) as [d r] eqn:E. unfold set_apns in E. unfold holds. cbn.
    rewrite (change_idkeys _ _ _ _ _ _ _ E); [exact Hh|done|by intros []].
Qed.

Lemma run_holds ops a h a' h' : holds a h → run ops a h = (a', h') → holds a' h'.
Proof.
  revert a h. induction ops as [|op ops IH]; intros a h Hh; cbn; [by intros [= <- <-]|].
  pose proof (auth_op_holds a h op Hh) as Hop. destruct (auth_op a op) as [a1 e]. by apply IH.
Qed.

(** The events a daemon starts with: the devices it loaded. *)
Definition loaded (a : Auth) : list AuthEvent := (λ '(id, key), A_Loaded id key) <$> idkeys (devices a).

Lemma load_holds io ho rs limits a : auth_load io ho rs limits = Ok a → holds a (loaded a).
Proof.
  unfold auth_load. destruct (devices_load io) as [d|]; cbn [mbind res_bind]; [|done]. intros [= <-]. split; cbn; try done.
  intros id key Hin. left. unfold loaded. cbn. apply list_elem_of_fmap. by exists (id, key).
Qed.

(** C3: whoever asks what in whatever order, a bearer token names a device only if that device is still
    paired, its present key signed a challenge this daemon gave it within the last twelve hours, and somebody let
    that key in: the desktop on the claim whose code it showed, another computer, the device's own handoff, or the
    list of devices the daemon started with. *)
Theorem access_accounted (io : ReadIo) (ho : option Sessions.Handoffs) (rs : option (list HostRevoke)) (limits : Limits)
    (a0 a : Auth) (ops : list AuthOp) (h : list AuthEvent) (bearer : str) (now : N) (device : DeviceId) :
  auth_load io ho rs limits = Ok a0 → run ops a0 (loaded a0) = (a, h) →
  (authenticate a bearer now).2 = Some device →
  ∃ key nonce signature t,
    public_key <$> get (devices a) device = Some key ∧
    A_Challenged device nonce ∈ h ∧ A_Proved device key nonce signature t ∈ h ∧
    ecdsa_verify key (Sessions.signed_message nonce) signature = true ∧
    now < saturating_add u64_max t Sessions.SESSION_TTL_MS ∧
    granted h device key.
Proof.
  intros Hload Hrun Hauth. pose proof (run_holds ops a0 (loaded a0) a h (load_holds _ _ _ _ _ Hload) Hrun) as [H1 _ _ H4].
  unfold authenticate, Sessions.authenticate in Hauth. destruct (decode_fixed _ _) as [token|]; [|done].
  destruct (Sessions.sessions (sessions a) !! sha256 token) as [l|] eqn:El; [|done].
  destruct (N.leb_spec (Sessions.live_expires_ms l) now); cbn in Hauth; [done|]. injection Hauth as <-.
  destruct (H4 _ _ El) as (key & nonce & sg & t & Hk & Hp & Hc & Hv & Ht). exists key, nonce, sg, t.
  pose proof Hk as Hkey. rewrite key_of_idkeys in Hkey. split; [done|]. split; [done|]. split; [done|]. split; [done|].
  split; [by rewrite <-Ht|]. apply H1. unfold key_of in Hk. apply fmap_Some in Hk as ([i k] & Hf & Ek). cbn in Ek. subst k.
  apply find_some in Hf as [Hin Hi]. apply bool_decide_eq_true in Hi as ->. by apply list_elem_of_In.
Qed.

(** ** A revoked device stays out *)

(** Events that let [device] in. *)
Definition lets_in (device : DeviceId) (e : AuthEvent) : bool :=
  match e with A_Approved id _ _ | A_Enrolled id _ => bool_decide (id = device) | _ => false end.

(** Events a device's place in the list can rest on. *)
Definition grants (device : DeviceId) (e : AuthEvent) : bool :=
  lets_in device e || match e with A_Loaded id _ | A_Rekeyed id _ => bool_decide (id = device) | _ => false end.

Lemma granted_grants h id key : granted h id key → ∃ e, e ∈ h ∧ grants id e = true.
Proof.
  intros [Hin|[Hin|[Hin|(c & shown & Hin & _)]]]; eexists; (split; [exact Hin|]); unfold grants; cbn;
    rewrite bool_decide_true by done; apply orb_true_r || done.
Qed.

Lemma not_known d id : get d id = None ↔ ∀ key, (id, key) ∉ idkeys d.
Proof.
  unfold get, idkeys. induction (records d) as [|r rs IH].
  { cbn. split; [intros _ key Hin; by apply not_elem_of_nil in Hin|done]. }
  rewrite fmap_cons. cbn [find]. unfold has_id at 1.
  destruct (bool_decide_reflect (record_id r = id)) as [<-|Hne].
  - split; [done|]. intros Hno. exfalso. apply (Hno (public_key r)). apply elem_of_cons. by left.
  - rewrite IH. split; intros Hno key; specialize (Hno key).
    + intros [[= -> _]|Hin]%elem_of_cons; done.
    + intros Hin. apply Hno, elem_of_cons. by right.
Qed.

(** The account without what let [device] in holds of a state that does not know it. *)
Lemma holds_without a h device :
  holds a h → get (devices a) device = None → holds a (filter (λ e, grants device e = false) h).
Proof.
  intros [H1 H2 H3 H4] Hno. assert (∀ key, (device, key) ∉ idkeys (devices a)) as Hout by (by apply not_known).
  split.
  - intros id key Hin. assert (id ≠ device) as Hne. { intros ->. by apply (Hout key). }
    assert (∀ e, e ∈ h → grants id e = true → e ∈ filter (λ e, grants device e = false) h) as Hkeep.
    { intros e He Hg. apply list_elem_of_filter. split; [|done]. destruct e; cbn in *; try done;
        unfold grants in *; cbn in *; rewrite ?orb_false_r in *;
        repeat match goal with H : bool_decide _ = true |- _ => apply bool_decide_eq_true in H as -> end;
        apply bool_decide_eq_false; congruence. }
    assert (∀ c key, A_Claimed c key ∈ h → A_Claimed c key ∈ filter (λ e, grants device e = false) h) as Hcl.
    { intros c k Hc. by apply list_elem_of_filter. }
    unfold granted. destruct (H1 id key Hin) as [Hg|[Hg|[Hg|(c & shown & Hg & Hc & He)]]].
    + left. apply Hkeep; [done|]. unfold grants. cbn. by rewrite bool_decide_true.
    + right; left. apply Hkeep; [done|]. unfold grants. cbn. by rewrite bool_decide_true.
    + right; right; left. apply Hkeep; [done|]. unfold grants. cbn. by rewrite bool_decide_true.
    + do 3 right. exists c, shown. split; [|split; [by apply Hcl|done]]. apply Hkeep; [done|]. unfold grants. cbn. by rewrite bool_decide_true.
  - intros o c d code dl Ho Hp. apply list_elem_of_filter. split; [done|by eapply H2].
  - intros id p Hp. apply list_elem_of_filter. split; [done|by eapply H3].
  - intros g l Hl. destruct (H4 g l Hl) as (key & nonce & sg & t & ? & ? & ? & ? & ?). exists key, nonce, sg, t.
    split; [done|]. split; [by apply list_elem_of_filter|]. split; [by apply list_elem_of_filter|done].
Qed.

Lemma rekeyed_known a op device key :
  A_Rekeyed device key ∈ (auth_op a op).2 → is_Some (get (devices a) device).
Proof.
  destruct op; cbn; try (intros Hin; by apply not_elem_of_nil in Hin);
    repeat match goal with |- context [let '(_, _) := ?x in _] => destruct x as [? ?] eqn:? end; cbn;
    try (match goal with r : res _ _ |- _ => destruct r end; cbn; intros Hin; set_solver).
  - intros (x & E & _)%list_elem_of_fmap. by destruct x.
  - unfold proof_of. repeat case_match; set_solver.
  - match goal with H : redeem _ _ _ _ _ _ _ = _ |- _ => rename H into Hr end.
    unfold redeem in Hr. destruct (AuthLimit.allow _ _ _) as [l []]; cbn [negb] in Hr; [|injection Hr as <- <-; set_solver].
    destruct (key_parse _) as [k|]; [|injection Hr as <- <-; set_solver].
    destruct (Sessions.handoff_redeem _ _ _ _) as [ho [[d|]|e]]; [|injection Hr as <- <-; set_solver..].
    cbn [devices with_handoffs with_pair_limit] in Hr. destruct (rekey (devices a) d k sd) as [d1 [u|e]] eqn:Ek; [|injection Hr as <- <-; set_solver].
    injection Hr as <- <-. intros [= -> _]%list_elem_of_singleton. unfold rekey, change in Ek.
    destruct (get (devices a) d) as [old|] eqn:Eg; [by eexists|]. congruence.
Qed.

Lemma find_nodup_delete rs i r id :
  NoDup (record_id <$> rs) → rs !! i = Some r → record_id r = id → find (has_id id) (delete i rs) = None.
Proof.
  revert i. induction rs as [|x rs IH]; intros i Hnd Hi Hid; [done|].
  rewrite fmap_cons in Hnd. apply NoDup_cons in Hnd as [Hx Hnd].
  assert (∀ rs', (∀ y, y ∈ rs' → record_id y ≠ id) → find (has_id id) rs' = None) as Hnone.
  { intros rs'. induction rs' as [|y rs' IH']; [done|]. intros Hy. cbn. unfold has_id at 1.
    rewrite bool_decide_false by (apply Hy; set_solver). apply IH'. set_solver. }
  destruct i as [|i]; cbn in Hi |- *.
  - injection Hi as ->. apply Hnone. intros y Hy Hy'. apply Hx, list_elem_of_fmap. exists y. split; [congruence|done].
  - unfold has_id at 1. rewrite bool_decide_false; [by apply IH|].
    intros E. apply Hx, list_elem_of_fmap. exists r. split; [congruence|by eapply list_elem_of_lookup_2].
Qed.

Lemma revoke_gone a device sl sh sd a' b :
  NoDup (ids (devices a)) → revoke a device sl sh sd = (a', Ok b) → get (devices a') device = None.
Proof.
  intros Hnd. unfold revoke.
  destruct (match get (devices a) device with Some record => _ | None => _ end) as [a1 forgotten] eqn:Ef.
  assert (devices a1 = devices a) as Ed.
  { destruct (get (devices a) device); [destruct (HostLinks.forget _ _ _)|]; by injection Ef as <- _. }
  destruct forgotten as [u|e]; [|done]. cbn -[devices_revoke]. rewrite Ed.
  destruct (devices_revoke (devices a) device sd) as [d r] eqn:Er. intros [= <- ->]. cbn. unfold devices_revoke in Er.
  destruct (list_find _ _) as [[i r0]|] eqn:El.
  - apply list_find_Some in El as (Hi & Hid & _). unfold has_id in Hid. apply bool_decide_eq_true in Hid.
    pose proof (save_or_undo_spec sd (λ d, with_records d (take i (records d) ++ r0 :: drop i (records d))) (devices a)
      (with_records (devices a) (delete i (records (devices a))))) as Hs. cbn -[save_or_undo] in Hs.
    specialize (Hs ltac:(intros f; by apply delete_insert_back) ltac:(done) eq_refl).
    destruct (save_or_undo _ _ _) as [d1 [u1|e1]]; injection Er as <- E; [|done]. destruct Hs as (_ & Hrec & _).
    unfold get. cbn. rewrite Hrec. by eapply find_nodup_delete.
  - injection Er as <- _. unfold get. apply list_find_None in El. destruct (find _ _) as [r1|] eqn:Ef1; [|done].
    apply find_some in Ef1 as [Hin%list_elem_of_In Hh]. rewrite Forall_forall in El. by apply El in Hin.
Qed.

(** A state that does not know a device learns of it only from an event that lets it in. *)
Lemma stays_out ops a h device a' e :
  holds a h → get (devices a) device = None → run ops a [] = (a', e) → Forall (λ x, lets_in device x = false) e →
  get (devices a') device = None ∧ holds a' (e ++ h).
Proof.
  intros Hh Hno. revert a' e. induction ops as [|op ops IH] using rev_ind; intros a' e.
  { intros [= <- <-] _. done. }
  unfold run. rewrite foldl_app. fold (run ops a []). destruct (run ops a []) as [a1 e1]. cbn.
  destruct (auth_op a1 op) as [a2 e2] eqn:Eop. intros [= <- <-] [H2 H1]%Forall_app.
  destruct (IH a1 e1 eq_refl H1) as [Hno1 Hh1]. pose proof (auth_op_holds a1 (e1 ++ h) op Hh1) as Hop. rewrite Eop in Hop.
  split; [|by rewrite <-app_assoc].
  pose proof (holds_without a1 (e1 ++ h) device Hh1 Hno1) as Hw. pose proof (auth_op_holds a1 _ op Hw) as Hop'. rewrite Eop in Hop'.
  apply not_known. intros key Hin. destruct Hop' as [Hg _ _ _]. destruct (granted_grants _ _ _ (Hg device key Hin)) as (x & Hx & Hgr).
  apply elem_of_app in Hx as [Hx|[Hx _]%list_elem_of_filter]; [|congruence].
  rewrite Forall_forall in H2. specialize (H2 x Hx). unfold grants in Hgr. rewrite H2 in Hgr. cbn in Hgr.
  destruct x as [i k| | | |i k| |]; try done; apply bool_decide_eq_true in Hgr as ->.
  - exfalso. clear -Hx Eop. assert (A_Loaded device k ∈ (auth_op a1 op).2) as Hl by (by rewrite Eop). clear Hx Eop.
    destruct op; cbn in Hl; try (by apply not_elem_of_nil in Hl);
      repeat match type of Hl with context [let '(_, _) := ?x in _] => destruct x as [? ?] eqn:? end; cbn in Hl;
      try (match goal with r : res _ _ |- _ => destruct r end; cbn in Hl; set_solver).
    + apply list_elem_of_fmap in Hl as (x & E & _). by destruct x.
    + unfold proof_of in Hl. repeat case_match; set_solver.
  - assert (is_Some (get (devices a1) device)) as [? ?]; [|congruence]. eapply (rekeyed_known a1 op device k). by rewrite Eop.
Qed.

(** C2: once a revocation was answered, the device is nowhere: whatever else happens, until the desktop
    approves it again or another computer enrolls it again, no bearer token names it, no challenge is issued to it
    and no proof of presence is accepted from it. *)
Theorem revoked_locked_out (io : ReadIo) (ho : option Sessions.Handoffs) (rs : option (list HostRevoke)) (limits : Limits)
    (a0 a a1 a2 : Auth) (before ops : list AuthOp) (h e : list AuthEvent) (device : DeviceId) (sl sh sd : Save) (b : bool) :
  auth_load io ho rs limits = Ok a0 → run before a0 (loaded a0) = (a, h) →
  NoDup (ids (devices a)) → revoke a device sl sh sd = (a1, Ok b) →
  run ops a1 [] = (a2, e) → Forall (λ x, lets_in device x = false) e →
  (∀ bearer now, (authenticate a2 bearer now).2 ≠ Some device) ∧
  (∀ client now nonce id c, (challenge a2 client device now nonce id).2 ≠ Ok c) ∧
  (∀ nonce signature fingerprint now, (presence_prove a2 nonce signature fingerprint now).2 ≠ Ok device).
Proof.
  intros Hload Hbefore Hnd Hrev Hrun He. pose proof (run_holds _ _ _ _ _ (load_holds _ _ _ _ _ Hload) Hbefore) as Hh.
  pose proof (revoke_gone _ _ _ _ _ _ _ Hnd Hrev) as Hgone.
  assert (holds a1 h) as Hh1 by (pose proof (revoke_holds a h device sl sh sd Hh) as Hr; by rewrite Hrev in Hr).
  destruct (stays_out ops a1 h device a2 e Hh1 Hgone Hrun He) as [Hout [_ _ _ H4]]. split; [|split].
  - intros bearer now Hauth. unfold authenticate, Sessions.authenticate in Hauth. destruct (decode_fixed _ _) as [token|]; [|done].
    destruct (Sessions.sessions (sessions a2) !! sha256 token) as [l|] eqn:El; [|done].
    destruct (_ <=? _); cbn in Hauth; [done|]. injection Hauth as Hd.
    destruct (H4 _ _ El) as (key & _ & _ & _ & Hk & _). rewrite Hd, key_of_idkeys, Hout in Hk. done.
  - intros client now nonce id c. unfold challenge. destruct (AuthLimit.allow _ _ _) as [l []]; cbn; [|done].
    unfold Sessions.challenge. by rewrite Hout.
  - intros nonce signature fp now Hp. unfold presence_prove in Hp. destruct (Sessions.prove _ _ _ _ _ _) as [ps r] eqn:Ep.
    cbn in Hp. subst r. apply Sessions.prove_sound in Ep as (i & n & r & sg & _ & _ & _ & _ & _ & Hr & _). congruence.
Qed.
End auth.

(** ** Witnesses *)

#[local] Instance plain_curve : NearbyPairing.Curve := {|
  NearbyPairing.SecretKey := list N;
  NearbyPairing.secret_from_slice := Some;
  NearbyPairing.public_point s := s;
  NearbyPairing.diffie_hellman s p := Some (s ++ p);
  NearbyPairing.hkdf salt input info := Some (prefix_of 32 (salt ++ input ++ info));
  NearbyPairing.aes_gcm key nonce data message := Some message;
  NearbyPairing.offer_json token origins := Some token;
|}.

(** A daemon that knows one phone, which signs in. *)
Definition sample_io : ReadIo := Content [Sessions.sample_record].
Definition sample_devices : Devices := MkDevices [Sessions.sample_record] ∅ (Some [Sessions.sample_record]).
Definition sample_auth : Auth :=
  MkAuth [] (AuthLimit.limiter_new 20 3000 1024) sample_devices (Sessions.MkHandoffStore ∅ None) (HostLinks.links_load None) []
    (AuthLimit.limiter_new 5 12000 1024) Pairing.pairings_default [] 0 Sessions.sessions_default.
Definition sample_client : Relay.IpAddr := Relay.V4 167772167.
Definition sample_challenge : AuthOp :=
  Do_challenge sample_client (lit "d1") 500 (Some (replicate 32 5)) (Some (replicate 16 3)).
Definition sample_ops : list AuthOp :=
  [sample_challenge;
   Do_verify (url_encode (replicate 16 3)) Sessions.sample_signature 1000 (Some (replicate 32 9)) (Some io_fine)].
Definition sample_run : Auth * list AuthEvent := run sample_ops sample_auth (loaded sample_auth).

Lemma access_accounted_witness :
  ∃ key nonce signature t,
    public_key <$> get (devices sample_run.1) (lit "d1") = Some key ∧
    A_Challenged (lit "d1") nonce ∈ sample_run.2 ∧ A_Proved (lit "d1") key nonce signature t ∈ sample_run.2 ∧
    ecdsa_verify key (Sessions.signed_message nonce) signature = true ∧
    2000 < saturating_add u64_max t Sessions.SESSION_TTL_MS ∧
    granted sample_run.2 (lit "d1") key.
Proof.
  apply (access_accounted sample_io None None limits_default sample_auth _ sample_ops _ (url_encode (replicate 32 9))).
  - vm_compute. reflexivity.
  - apply surjective_pairing.
  - vm_compute. reflexivity.
Defined.

(** The phone signs in, is revoked and asks for a challenge again. *)
Definition sample_revoked : Auth := (revoke sample_run.1 (lit "d1") (Some io_fine) (Some io_fine) (Some io_fine)).1.

Lemma revoked_locked_out_witness :
  let a := (run [sample_challenge] sample_revoked []).1 in
  (∀ bearer now, (authenticate a bearer now).2 ≠ Some (lit "d1")) ∧
  (∀ client now nonce id c, (challenge a client (lit "d1") now nonce id).2 ≠ Ok c) ∧
  (∀ nonce signature fingerprint now, (presence_prove a nonce signature fingerprint now).2 ≠ Ok (lit "d1")).
Proof.
  apply (revoked_locked_out sample_io None None limits_default sample_auth sample_run.1 sample_revoked _ sample_ops
           [sample_challenge] sample_run.2 [] (lit "d1") (Some io_fine) (Some io_fine) (Some io_fine) true).
  - vm_compute. reflexivity.
  - apply surjective_pairing.
  - vm_compute. apply NoDup_singleton.
  - vm_compute. reflexivity.
  - vm_compute. reflexivity.
  - constructor.
Defined.
End Auth.
