(* ===== verification/Transcript.v ===== *)
(** * Transcript: a chat's transcript and the reducer every side runs
    (crates/sheprd-chat-protocol/src/model.rs, model/activity.rs,
    model/question_answers.rs, media.rs and change.rs)

    A mutable transcript is a value passed on; [apply] gives the transcript
    afterwards next to its result, so that what an error leaves behind is
    visible. Searches are the standard library's binary search, written out. *)

From Stdlib Require Import NArith Lia Sorted.
From stdpp Require Import base option strings gmap sets list.
From S2P Require Import Prelude.

Local Open Scope N_scope.

Module Transcript.

(** ** Pictures *)

Inductive Author := Author_User | Author_Agent.
Inductive ImageType := Gif | Jpeg | Png | Webp.
Record Image := MkImage { image_data : str; image_kind : ImageType }.

Definition MAX_IMAGE_DATA : N := 5 * 1024 * 1024.

Definition mime (k : ImageType) : str :=
  match k with
  | Gif => lit "image/gif" | Jpeg => lit "image/jpeg" | Png => lit "image/png" | Webp => lit "image/webp"
  end.

(** [split(';').next()]. *)
Fixpoint before (c : N) (s : str) : str :=
  match s with
  | [] => []
  | d :: s => if d =? c then [] else d :: before c s
  end.

Definition from_mime (m : str) : option ImageType :=
  let essence := trim (before 59 m) in
  match find (λ k, eq_ignore_ascii_case (mime k) essence) [Gif; Jpeg; Png; Webp] with
  | Some k => Some k
  | None => if eq_ignore_ascii_case essence (lit "image/jpg") then Some Jpeg else None
  end.

Definition base64_byte (b : N) : bool := is_ascii_alphanumeric b || (b =? 43) || (b =? 47) || (b =? 61).

Definition image_new (m : str) (data : str) : option Image :=
  kind ← from_mime m;
  if negb (bool_decide (data = [])) && (str_len data <=? MAX_IMAGE_DATA) && forallb base64_byte (as_bytes data)
  then Some (MkImage data kind) else None.

(** ** Entries *)

Inductive NoticeLevel := Info | Warning | ErrorLevel.
Record QuestionAnswer := MkQuestionAnswer { question : str; answer : str }.

Inductive ToolKind :=
| Read | Edit | Delete | Move | Search | Execute | Think | Fetch | SwitchMode | Tool_Subagent | Tool_Other.
Inductive ToolStatus := Tool_Pending | Tool_InProgress | Tool_Completed | Tool_Failed.

Inductive ToolContent :=
| Content_Text (text : str)
| Content_Diff (new : str) (old : option str) (path : str)
| Content_Image (image : Image)
| Content_Terminal (id : str).

Record Tool := MkTool {
  tool_call_id : str;
  tool_content : list ToolContent;
  tool_kind : ToolKind;
  tool_locations : list str;
  tool_parent : option str;
  tool_started_ms : option N;
  tool_status : ToolStatus;
  tool_title : str }.

Inductive TurnEnd := Done | Cancelled | EndLimit | EndRefused | EndFailed | EndOther.
Record Tokens := MkTokens { cached : N; input : N; output : N; thought : N; total : N }.
Record TurnSummary := MkTurnSummary { duration_ms : N; ended_ms : option N; turn_end : TurnEnd; tokens : option Tokens }.

Inductive EntryKind :=
| User (text : str) (files : N)
| Agent (text : str)
| Thought (text : str)
| ImageEntry (author : Author) (image : Image)
| ToolEntry (tool : Tool)
| TurnEntry (turn : TurnSummary)
| Notice (answers : list QuestionAnswer) (details : option str) (level : NoticeLevel) (text : str).

Record Entry := MkEntry { entry_id : N; kind : EntryKind }.

(** [EntryKind::text]. *)
Definition text (k : EntryKind) : option str :=
  match k with
  | User t _ | Agent t | Thought t | Notice _ _ _ t => Some t
  | _ => None
  end.

(** [text_mut], then [push_str]. *)
Definition append_text (k : EntryKind) (more : str) : option EntryKind :=
  match k with
  | User t f => Some (User (t ++ more) f)
  | Agent t => Some (Agent (t ++ more))
  | Thought t => Some (Thought (t ++ more))
  | Notice a d l t => Some (Notice a d l (t ++ more))
  | _ => None
  end.

Definition MAX_QUESTION_ANSWERS : N := 32.
Definition MAX_QUESTION_TEXT : N := 128 * 1024.

(** The closure of [valid_question_answers], with its running total. *)
Fixpoint answers_fit (bytes : N) (answers : list QuestionAnswer) : bool :=
  match answers with
  | [] => true
  | a :: answers =>
      let bytes := saturating_add u64_max (saturating_add u64_max bytes (str_len (question a))) (str_len (answer a)) in
      (bytes <=? MAX_QUESTION_TEXT) && answers_fit bytes answers
  end.

Definition valid_question_answers (answers : list QuestionAnswer) : bool :=
  (lenN answers <=? MAX_QUESTION_ANSWERS) && answers_fit 0 answers.

(** ** Activities *)

Definition MAX_ACTIVITIES : nat := 32.
Definition MAX_ACTIVITY_TEXT : N := 1024.

Inductive ActivityKind := Subagent | Shell | OtherActivity.
Inductive ActivityState := Running_ | Failed_ | Killed | Finished.

Record Activity := MkActivity {
  call_id : str;
  detail : option str;
  finished_ms : option N;
  activity_kind : ActivityKind;
  label : str;
  started_ms : N;
  state : ActivityState }.

Definition is_running (a : Activity) : bool := match state a with Running_ => true | _ => false end.

(** [Activity::fits]. *)
Definition fits (a : Activity) : bool :=
  forallb (λ t, str_len t <=? MAX_ACTIVITY_TEXT) (call_id a :: label a :: option_list (detail a)).

Record Running := MkRunning { other : nat; shells : nat; subagents : nat }.

(** ** Permissions, plans, modes, settings *)

Inductive PermissionKind := AllowOnce | AllowAlways | RejectOnce | RejectAlways | OtherPermission.
#[export] Instance PermissionKind_eq_dec : EqDecision PermissionKind.
Proof. solve_decision. Defined.

Record PermissionOption := MkPermissionOption { option_id : str; option_kind : PermissionKind; option_name : str }.
Record Permission := MkPermission {
  permission_call_id : option str;
  permission_id : N;
  permission_options : list PermissionOption;
  permission_title : str }.

(** [Permission::allow_option]. *)
Definition allow_option (p : Permission) : option PermissionOption :=
  match find (λ o, bool_decide (option_kind o = AllowOnce)) (permission_options p) with
  | Some o => Some o
  | None => find (λ o, bool_decide (option_kind o = AllowAlways)) (permission_options p)
  end.

Inductive PlanPriority := HighPriority | LowPriority | MediumPriority.
Inductive PlanStatus := Plan_InProgress | Plan_Completed | Plan_Pending.
Record PlanEntry := MkPlanEntry { plan_content : str; plan_priority : PlanPriority; plan_status : PlanStatus }.

Record Mode := MkMode { mode_description : option str; mode_id : str; mode_name : str }.
Record Modes := MkModes { available : list Mode; current : str }.

Record Attachment := MkAttachment { path : str }.
Record Queued := MkQueued { attachments : list Attachment; queued_id : N; queued_text : str }.
Record SessionInfo := MkSessionInfo { cwd : option str; session_id : str; session_title : option str }.
Record SlashCommand := MkSlashCommand { command_description : str; hint : option str; command_name : str }.
Record Cost := MkCost { currency : str; micros : N }.
Record Usage := MkUsage { cost : option Cost; size : N; used : N }.
Record Turn := MkTurn { turn_started_ms : N }.

(** [Usage::percent]. *)
Definition percent (u : Usage) : N :=
  if size u =? 0 then 0 else N.min (saturating_mul u64_max (used u) 100 / size u) 100.

Inductive OptionCategory := Category_Mode | Category_Model | Category_ModelConfig | Category_ThoughtLevel | Category_Other.
#[export] Instance OptionCategory_eq_dec : EqDecision OptionCategory.
Proof. solve_decision. Defined.

Record Choice := MkChoice { choice_description : option str; group : option str; choice_id : str; choice_name : str }.
Inductive OptionKind := Select (choices : list Choice) (current : str) | Toggle (current : bool).
Inductive OptionValue := Value_Choice (id : str) | Value_Toggle (value : bool).
Record ConfigOption := MkConfigOption {
  category : OptionCategory;
  config_description : option str;
  config_id : str;
  config_kind : OptionKind;
  config_name : str }.

(** [ConfigOption::accepts]. *)
Definition accepts (o : ConfigOption) (v : OptionValue) : bool :=
  match config_kind o, v with
  | Select choices _, Value_Choice id => existsb (λ c, bool_decide (choice_id c = id)) choices
  | Toggle _, Value_Toggle _ => true
  | _, _ => false
  end.

Inductive Status := Starting | Idle | Working | Status_Failed (message : str) | Exited (message : str).

(** ** The transcript *)

Record Transcript := MkTranscript {
  activities : list Activity;
  agent : str;
  auto_accept : bool;
  clients : N;
  commands : list SlashCommand;
  entries : list Entry;
  modes : option Modes;
  options : list ConfigOption;
  permissions : list Permission;
  plan : list PlanEntry;
  queued : list Queued;
  read_only : bool;
  session : option SessionInfo;
  status : Status;
  truncated : bool;
  turn : option Turn;
  usage : option Usage }.

(** [Transcript::new]. *)
Definition transcript_new (agent : str) : Transcript :=
  MkTranscript [] agent false 0 [] [] None [] [] [] [] false None Starting false None None.

(** One field assigned. *)
Definition set_activities (t : Transcript) (v : list Activity) : Transcript :=
  MkTranscript v (agent t) (auto_accept t) (clients t) (commands t) (entries t) (modes t) (options t) (permissions t) (plan t) (queued t) (read_only t) (session t) (status t) (truncated t) (turn t) (usage t).
Definition set_auto_accept (t : Transcript) (v : bool) : Transcript :=
  MkTranscript (activities t) (agent t) v (clients t) (commands t) (entries t) (modes t) (options t) (permissions t) (plan t) (queued t) (read_only t) (session t) (status t) (truncated t) (turn t) (usage t).
Definition set_clients (t : Transcript) (v : N) : Transcript :=
  MkTranscript (activities t) (agent t) (auto_accept t) v (commands t) (entries t) (modes t) (options t) (permissions t) (plan t) (queued t) (read_only t) (session t) (status t) (truncated t) (turn t) (usage t).
Definition set_commands (t : Transcript) (v : list SlashCommand) : Transcript :=
  MkTranscript (activities t) (agent t) (auto_accept t) (clients t) v (entries t) (modes t) (options t) (permissions t) (plan t) (queued t) (read_only t) (session t) (status t) (truncated t) (turn t) (usage t).
Definition set_entries (t : Transcript) (v : list Entry) : Transcript :=
  MkTranscript (activities t) (agent t) (auto_accept t) (clients t) (commands t) v (modes t) (options t) (permissions t) (plan t) (queued t) (read_only t) (session t) (status t) (truncated t) (turn t) (usage t).
Definition set_modes (t : Transcript) (v : option Modes) : Transcript :=
  MkTranscript (activities t) (agent t) (auto_accept t) (clients t) (commands t) (entries t) v (options t) (permissions t) (plan t) (queued t) (read_only t) (session t) (status t) (truncated t) (turn t) (usage t).
Definition set_options (t : Transcript) (v : list ConfigOption) : Transcript :=
  MkTranscript (activities t) (agent t) (auto_accept t) (clients t) (commands t) (entries t) (modes t) v (permissions t) (plan t) (queued t) (read_only t) (session t) (status t) (truncated t) (turn t) (usage t).
Definition set_permissions (t : Transcript) (v : list Permission) : Transcript :=
  MkTranscript (activities t) (agent t) (auto_accept t) (clients t) (commands t) (entries t) (modes t) (options t) v (plan t) (queued t) (read_only t) (session t) (status t) (truncated t) (turn t) (usage t).
Definition set_plan (t : Transcript) (v : list PlanEntry) : Transcript :=
  MkTranscript (activities t) (agent t) (auto_accept t) (clients t) (commands t) (entries t) (modes t) (options t) (permissions t) v (queued t) (read_only t) (session t) (status t) (truncated t) (turn t) (usage t).
Definition set_queued (t : Transcript) (v : list Queued) : Transcript :=
  MkTranscript (activities t) (agent t) (auto_accept t) (clients t) (commands t) (entries t) (modes t) (options t) (permissions t) (plan t) v (read_only t) (session t) (status t) (truncated t) (turn t) (usage t).
Definition set_session (t : Transcript) (v : option SessionInfo) : Transcript :=
  MkTranscript (activities t) (agent t) (auto_accept t) (clients t) (commands t) (entries t) (modes t) (options t) (permissions t) (plan t) (queued t) (read_only t) v (status t) (truncated t) (turn t) (usage t).
Definition set_status (t : Transcript) (v : Status) : Transcript :=
  MkTranscript (activities t) (agent t) (auto_accept t) (clients t) (commands t) (entries t) (modes t) (options t) (permissions t) (plan t) (queued t) (read_only t) (session t) v (truncated t) (turn t) (usage t).
Definition set_truncated (t : Transcript) (v : bool) : Transcript :=
  MkTranscript (activities t) (agent t) (auto_accept t) (clients t) (commands t) (entries t) (modes t) (options t) (permissions t) (plan t) (queued t) (read_only t) (session t) (status t) v (turn t) (usage t).
Definition set_turn (t : Transcript) (v : option Turn) : Transcript :=
  MkTranscript (activities t) (agent t) (auto_accept t) (clients t) (commands t) (entries t) (modes t) (options t) (permissions t) (plan t) (queued t) (read_only t) (session t) (status t) (truncated t) v (usage t).
Definition set_usage (t : Transcript) (v : option Usage) : Transcript :=
  MkTranscript (activities t) (agent t) (auto_accept t) (clients t) (commands t) (entries t) (modes t) (options t) (permissions t) (plan t) (queued t) (read_only t) (session t) (status t) (truncated t) (turn t) v.

(** *** Searches *)

(** The loop of [binary_search_by] over [n] elements; [cmp] compares the element
    at an index with the target. *)
Fixpoint narrow (fuel size base : nat) (cmp : nat → comparison) : nat :=
  match fuel with
  | O => base
  | S fuel =>
      if (size <=? 1)%nat then base
      else
        let half := (size / 2)%nat in
        let mid := (base + half)%nat in
        narrow fuel (size - half) (match cmp mid with Gt => base | _ => mid end) cmp
  end.

(** [binary_search_by]: [inl] where it is, [inr] where it would go. *)
Definition binary_search_by (n : nat) (cmp : nat → comparison) : nat + nat :=
  if (n =? 0)%nat then inr 0%nat
  else
    let base := narrow n n 0 cmp in
    match cmp base with
    | Eq => inl base
    | Lt => inr (S base)
    | Gt => inr base
    end.

Definition compare_at (es : list Entry) (f : N → comparison) (i : nat) : comparison :=
  match es !! i with Some e => f (entry_id e) | None => Gt end.

(** [Transcript::position]. *)
Definition position (t : Transcript) (id : N) : option nat :=
  match binary_search_by (length (entries t)) (compare_at (entries t) (λ k, k ?= id)) with
  | inl i => Some i
  | inr _ => None
  end.

(** [partition_point]: the first index that fails [id < before]. *)
Definition partition_point (es : list Entry) (before : N) : nat :=
  match binary_search_by (length es) (compare_at es (λ k, if k <? before then Lt else Gt)) with
  | inl i | inr i => i
  end.

(** [Transcript::entry]. *)
Definition entry (t : Transcript) (id : N) : option Entry := position t id ≫= λ i, entries t !! i.

Definition last_entry_id (t : Transcript) : option N := entry_id <$> last (entries t).

Definition is_blocked (t : Transcript) : bool := negb (bool_decide (permissions t = [])).

(** [Transcript::option]. *)
Definition option_of (t : Transcript) (c : OptionCategory) : option ConfigOption :=
  find (λ o, bool_decide (category o = c)) (options t).

Definition activity (t : Transcript) (id : str) : option Activity :=
  find (λ a, bool_decide (call_id a = id)) (activities t).

(** [Transcript::running]. *)
Definition running (t : Transcript) : Running :=
  foldl (λ r a,
    match activity_kind a with
    | Subagent => MkRunning (other r) (shells r) (S (subagents r))
    | Shell => MkRunning (other r) (S (shells r)) (subagents r)
    | OtherActivity => MkRunning (S (other r)) (shells r) (subagents r)
    end) (MkRunning 0 0 0) (filter (λ a, is_running a = true) (activities t)).

(** ** Changes *)

Inductive Change :=
| Push (entry : Entry)
| Append (id : N) (text : str)
| Replace (entry : Entry)
| Truncate (before : N)
| SetStatus (status : Status)
| PermissionAsked (permission : Permission)
| PermissionResolved (id : N)
| SetPlan (plan : list PlanEntry)
| SetModes (modes : option Modes)
| CurrentMode (id : str)
| SetOptions (options : list ConfigOption)
| SetTurn (turn : option Turn)
| Queue (queued : list Queued)
| Clients (count : N)
| Session (session : option SessionInfo)
| Commands (commands : list SlashCommand)
| SetUsage (usage : option Usage)
| AutoAccept (on : bool)
| ActivityChange (activity : Activity).

Inductive Error :=
| ActivityLimit
| ActivityText
| DuplicatePermission (id : N)
| EmptyFrame
| EntryOrder (id last : N)
| FrameLimit (len : N)
| InvalidEndpoint
| Io
| Json
| NoModes
| NotText (id : N)
| QuestionAnswersLimit (id : N)
| Restore
| UnknownEntry (id : N)
| UnknownPermission (id : N).

(** The position of the first element that passes a test. *)
Fixpoint position_of {A} (p : A → bool) (l : list A) : option nat :=
  match l with
  | [] => None
  | a :: l => if p a then Some 0%nat else S <$> position_of p l
  end.

(** [Vec::remove]. *)
Definition remove_at {A} (i : nat) (l : list A) : list A := take i l ++ drop (S i) l.

(** [Transcript::record]. *)
Definition record (t : Transcript) (a : Activity) : Transcript * res Error unit :=
  if negb (fits a) then (t, Err ActivityText)
  else
    match position_of (λ known, bool_decide (call_id known = call_id a)) (activities t) with
    | Some i => (set_activities t (<[i := a]> (activities t)), Ok tt)
    | None =>
        if (MAX_ACTIVITIES <=? length (activities t))%nat then
          match position_of (λ known, negb (is_running known)) (activities t) with
          | None => (t, Err ActivityLimit)
          | Some ended => (set_activities t (remove_at ended (activities t) ++ [a]), Ok tt)
          end
        else (set_activities t (activities t ++ [a]), Ok tt)
    end.

(** The check before the match: the answers of a new or replaced notice. *)
Definition answers_refused (change : Change) : option N :=
  match change with
  | Push e | Replace e =>
      match kind e with
      | Notice answers _ _ _ => if valid_question_answers answers then None else Some (entry_id e)
      | _ => None
      end
  | _ => None
  end.

(** [Transcript::apply]: the transcript afterwards and the result; [None] for a
    panic (an index out of range). *)
Definition apply (t : Transcript) (change : Change) : option (Transcript * res Error unit) :=
  match answers_refused change with
  | Some id => Some (t, Err (QuestionAnswersLimit id))
  | None =>
      match change with
      | Push e =>
          match last_entry_id t with
          | Some last => 
              if entry_id e <=? last then Some (t, Err (EntryOrder (entry_id e) last))
              else Some (set_entries t (entries t ++ [e]), Ok tt)
          | None => Some (set_entries t (entries t ++ [e]), Ok tt)
          end
      | Append id more =>
          match position t id with
          | None => Some (t, Err (UnknownEntry id))
          | Some index =>
              e ← entries t !! index;
              match append_text (kind e) more with
              | None => Some (t, Err (NotText id))
              | Some k => Some (set_entries t (<[index := MkEntry (entry_id e) k]> (entries t)), Ok tt)
              end
          end
      | Replace e =>
          match position t (entry_id e) with
          | None => Some (t, Err (UnknownEntry (entry_id e)))
          | Some index =>
              _ ← entries t !! index;
              Some (set_entries t (<[index := e]> (entries t)), Ok tt)
          end
      | Truncate before =>
          let keep := partition_point (entries t) before in
          if (0 <? keep)%nat then
            if (keep <=? length (entries t))%nat
            then Some (set_truncated (set_entries t (drop keep (entries t))) true, Ok tt) else None
          else Some (t, Ok tt)
      | SetStatus v => Some (set_status t v, Ok tt)
      | PermissionAsked p =>
          if existsb (λ known, permission_id known =? permission_id p) (permissions t)
          then Some (t, Err (DuplicatePermission (permission_id p)))
          else Some (set_permissions t (permissions t ++ [p]), Ok tt)
      | PermissionResolved id =>
          match position_of (λ p, permission_id p =? id) (permissions t) with
          | None => Some (t, Err (UnknownPermission id))
          | Some index => Some (set_permissions t (remove_at index (permissions t)), Ok tt)
          end
      | SetPlan v => Some (set_plan t v, Ok tt)
      | SetModes v => Some (set_modes t v, Ok tt)
      | CurrentMode id =>
          match modes t with
          | None => Some (t, Err NoModes)
          | Some m => Some (set_modes t (Some (MkModes (available m) id)), Ok tt)
          end
      | SetOptions v => Some (set_options t v, Ok tt)
      | SetTurn v => Some (set_turn t v, Ok tt)
      | Queue v => Some (set_queued t v, Ok tt)
      | Clients v => Some (set_clients t v, Ok tt)
      | Session v => Some (set_session t v, Ok tt)
      | Commands v => Some (set_commands t v, Ok tt)
      | SetUsage v => Some (set_usage t v, Ok tt)
      | AutoAccept v => Some (set_auto_accept t v, Ok tt)
      | ActivityChange a => Some (record t a)
      end
  end.

(** ** Searching *)

Section search.
Context (n : nat) (cmp : nat → comparison).
Hypothesis Hmono : ∀ i j, (i ≤ j)%nat → (j < n)%nat → cmp i = Gt → cmp j = Gt.

(** Where the loop ends: at the last element that is not past the target. *)
Lemma narrow_spec fuel size base :
  (1 ≤ size)%nat → (size ≤ S fuel)%nat → (base + size ≤ n)%nat → (base = 0%nat ∨ cmp base ≠ Gt) →
  (∀ i, (base + size ≤ i)%nat → (i < n)%nat → cmp i = Gt) →
  let b := narrow fuel size base cmp in
  (b < n)%nat ∧ (b = 0%nat ∨ cmp b ≠ Gt) ∧ ∀ i, (b < i)%nat → (i < n)%nat → cmp i = Gt.
Proof.
  revert size base. induction fuel as [|fuel IH]; intros size base H1 Hf Hn Hb Hgt; cbn [narrow].
  { split; [lia|]. split; [done|]. intros i ??. apply Hgt; lia. }
  destruct (Nat.leb_spec size 1). { split; [lia|]. split; [done|]. intros i ??. apply Hgt; lia. }
  pose proof (Nat.div_mod size 2 ltac:(lia)). pose proof (Nat.mod_upper_bound size 2 ltac:(lia)).
  set (half := (size / 2)%nat) in *.
  destruct (cmp (base + half)%nat) eqn:E; apply IH; try lia; try (right; congruence); try done.
  all: intros i ??; try (apply Hgt; lia). apply (Hmono (base + half)); [lia|done|done].
Qed.

(** The search, when the elements below [p] are under the target and those from
    it on are past it. *)
Lemma search_inr :
  (∀ i, (i < n)%nat → cmp i ≠ Eq) →
  ∃ p, binary_search_by n cmp = inr p ∧ (p ≤ n)%nat ∧
    (∀ i, (i < p)%nat → cmp i = Lt) ∧ (∀ i, (p ≤ i)%nat → (i < n)%nat → cmp i = Gt).
Proof.
  intros Hne. unfold binary_search_by. destruct (Nat.eqb_spec n 0) as [->|Hn].
  { exists 0%nat. split; [done|]. split; [lia|]. split; intros; lia. }
  destruct (narrow_spec n n 0) as (Hb & H0 & Hgt); [lia..|by left|intros; lia|].
  set (b := narrow n n 0 cmp) in *.
  assert (∀ i, (i ≤ b)%nat → cmp b ≠ Gt → cmp i = Lt) as Hlt.
  { intros i Hi Hc. specialize (Hne i ltac:(lia)). destruct (cmp i) eqn:E; [done|done|].
    by rewrite (Hmono i b Hi Hb E) in Hc. }
  destruct (cmp b) eqn:E; [by specialize (Hne b Hb)|..].
  - exists (S b). split; [done|]. split; [lia|]. split; [intros i ?; apply Hlt; [lia|done]|]. intros i ??. apply Hgt; lia.
  - destruct H0 as [H0|]; [|done]. exists b. split; [done|]. split; [lia|].
    split; [intros; lia|]. intros i ??. destruct (decide (i = b)) as [->|]; [done|]. apply Hgt; lia.
Qed.

(** A match is found, and found at its only place. *)
Lemma search_inl i :
  (i < n)%nat → cmp i = Eq → (∀ j, (i < j)%nat → (j < n)%nat → cmp j = Gt) → binary_search_by n cmp = inl i.
Proof.
  intros Hi Heq Hafter. unfold binary_search_by. destruct (Nat.eqb_spec n 0); [lia|].
  destruct (narrow_spec n n 0) as (Hb & H0 & Hgt); [lia..|by left|intros; lia|].
  set (b := narrow n n 0 cmp) in *.
  assert (b = i) as ->; [|by rewrite Heq].
  destruct (Nat.lt_trichotomy b i) as [Hlt|[?|Hlt]]; [|done|].
  - by rewrite (Hgt i) in Heq.
  - destruct H0 as [?|Hc]; [lia|]. by rewrite (Hafter b) in Hc.
Qed.
End search.

(** ** Entries in order *)

Definition ids (es : list Entry) : list N := entry_id <$> es.
Definition ordered (es : list Entry) : Prop := StronglySorted N.lt (ids es).

Lemma ordered_lookup es i j a b :
  ordered es → es !! i = Some a → es !! j = Some b → (i < j)%nat → entry_id a < entry_id b.
Proof.
  unfold ordered, ids. revert i j. induction es as [|e es IH]; intros i j Ho; [done|].
  inversion Ho as [|? ? Hs Hf]; subst. destruct i as [|i], j as [|j]; cbn; try lia.
  - intros [= ->] Hb _. rewrite Forall_forall in Hf. apply Hf. apply list_elem_of_fmap. eexists. split; [done|].
    by eapply list_elem_of_lookup_2.
  - intros Ha Hb Hlt. apply (IH i j); [done..|lia].
Qed.

Lemma ordered_inj es i j a b :
  ordered es → es !! i = Some a → es !! j = Some b → entry_id a = entry_id b → i = j.
Proof.
  intros Ho Ha Hb E. destruct (Nat.lt_trichotomy i j) as [Hlt|[?|Hlt]]; [|done|].
  - pose proof (ordered_lookup _ _ _ _ _ Ho Ha Hb Hlt). lia.
  - pose proof (ordered_lookup _ _ _ _ _ Ho Hb Ha Hlt). lia.
Qed.

(** Comparing ids along an ordered transcript is monotone. *)
Lemma compare_mono es f :
  ordered es → (∀ a b, a < b → f a = Gt → f b = Gt) →
  ∀ i j, (i ≤ j)%nat → (j < length es)%nat → compare_at es f i = Gt → compare_at es f j = Gt.
Proof.
  intros Ho Hf i j Hij Hj. unfold compare_at. destruct (decide (i = j)) as [->|]; [done|].
  destruct (lookup_lt_is_Some_2 es i) as [a Ha]; [lia|]. destruct (lookup_lt_is_Some_2 es j Hj) as [b Hb].
  rewrite Ha, Hb. apply Hf. apply (ordered_lookup es i j a b); [done..|lia].
Qed.

Lemma position_spec t id :
  ordered (entries t) →
  match position t id with
  | Some i => ∃ e, entries t !! i = Some e ∧ entry_id e = id
  | None => id ∉ ids (entries t)
  end.
Proof.
  intros Ho. unfold position. set (cmp := compare_at (entries t) (λ k, k ?= id)).
  assert (∀ i j, (i ≤ j)%nat → (j < length (entries t))%nat → cmp i = Gt → cmp j = Gt) as Hmono.
  { apply compare_mono; [done|]. intros a b Hab. rewrite !N.compare_gt_iff. lia. }
  destruct (decide (id ∈ ids (entries t))) as [Hin|Hout].
  - unfold ids in Hin. apply list_elem_of_fmap in Hin as (e & -> & [i Hi]%list_elem_of_lookup).
    rewrite (search_inl (length (entries t)) cmp Hmono i); [eauto|by eapply lookup_lt_Some| |].
    + unfold cmp, compare_at. rewrite Hi. apply N.compare_refl.
    + intros j Hj Hjl. unfold cmp, compare_at. destruct (lookup_lt_is_Some_2 _ _ Hjl) as [b Hb]. rewrite Hb.
      apply N.compare_gt_iff. by apply (ordered_lookup (entries t) i j).
  - destruct (search_inr (length (entries t)) cmp Hmono) as (p & -> & _); [|done].
    intros i Hi Hc. apply Hout. destruct (lookup_lt_is_Some_2 _ _ Hi) as [e He].
    unfold cmp, compare_at in Hc. rewrite He in Hc. apply N.compare_eq in Hc as <-.
    apply list_elem_of_fmap. exists e. split; [done|]. by eapply list_elem_of_lookup_2.
Qed.

Lemma partition_spec es b :
  ordered es →
  (partition_point es b ≤ length es)%nat ∧
  Forall (λ e, entry_id e < b) (take (partition_point es b) es) ∧
  Forall (λ e, b ≤ entry_id e) (drop (partition_point es b) es).
Proof.
  intros Ho. unfold partition_point. set (cmp := compare_at es _).
  assert (∀ i j, (i ≤ j)%nat → (j < length es)%nat → cmp i = Gt → cmp j = Gt) as Hmono.
  { apply compare_mono; [done|]. intros a c Hac. destruct (N.ltb_spec a b), (N.ltb_spec c b); (done || lia). }
  assert (∀ i e, es !! i = Some e → cmp i = if entry_id e <? b then Lt else Gt) as Hc
    by (intros i e He; unfold cmp, compare_at; by rewrite He).
  destruct (search_inr (length es) cmp Hmono) as (p & -> & Hp & Hlt & Hge).
  { intros i Hi. destruct (lookup_lt_is_Some_2 _ _ Hi) as [e He]. rewrite (Hc i e He). by destruct (_ <? _). }
  split; [done|]. split; apply Forall_lookup; intros i e.
  - rewrite lookup_take_Some. intros [He Hi]. specialize (Hlt i Hi). rewrite (Hc i e He) in Hlt.
    destruct (N.ltb_spec (entry_id e) b); [done|done].
  - rewrite lookup_drop. intros He. specialize (Hge (p + i)%nat ltac:(lia) ltac:(by eapply lookup_lt_Some)).
    rewrite (Hc _ e He) in Hge. destruct (N.ltb_spec (entry_id e) b); done.
Qed.

(** ** The invariant *)

Definition answers_ok (e : Entry) : Prop :=
  match kind e with Notice answers _ _ _ => valid_question_answers answers = true | _ => True end.

(** Entries in order of their ids, permissions and activities told apart, the
    bounds on activities and on a notice's answers. *)
Record wf (t : Transcript) : Prop := {
  wf_order : ordered (entries t);
  wf_answers : Forall answers_ok (entries t);
  wf_permissions : NoDup (permission_id <$> permissions t);
  wf_activities : NoDup (call_id <$> activities t);
  wf_count : (length (activities t) ≤ MAX_ACTIVITIES)%nat;
  wf_fits : Forall (λ a, fits a = true) (activities t);
}.

Lemma wf_new name : wf (transcript_new name).
Proof. split; cbn; try by constructor. unfold MAX_ACTIVITIES. lia. Qed.

Lemma position_of_spec {A} (p : A → bool) l :
  match position_of p l with
  | Some i => ∃ a, l !! i = Some a ∧ p a = true
  | None => Forall (λ a, p a = false) l
  end.
Proof.
  induction l as [|a l IH]; cbn [position_of]; [constructor|]. destruct (p a) eqn:E; [by exists a|].
  destruct (position_of p l) as [i|]; cbn [fmap option_fmap option_map]; [done|by constructor].
Qed.

Lemma remove_at_sublist {A} i (l : list A) : remove_at i l `sublist_of` l.
Proof.
  unfold remove_at. rewrite <-(take_drop i l) at 3. apply sublist_app; [done|].
  replace (S i) with (i + 1)%nat by lia. rewrite <-drop_drop. apply sublist_drop.
Qed.

Lemma remove_at_length {A} i (l : list A) : (i < length l)%nat → S (length (remove_at i l)) = length l.
Proof. intros Hi. unfold remove_at. rewrite length_app, length_take, length_drop. lia. Qed.

Lemma sublist_elem {A} (k l : list A) x : k `sublist_of` l → x ∈ k → x ∈ l.
Proof. induction 1; set_solver. Qed.

Lemma NoDup_fmap_sublist {A B} (f : A → B) k l : k `sublist_of` l → NoDup (f <$> l) → NoDup (f <$> k).
Proof. intros Hs Hn. eapply sublist_NoDup; [exact Hn|]. clear Hn. induction Hs; rewrite ?fmap_cons; by econstructor. Qed.

(** Replacing an element by one with the same name keeps the names. *)
Lemma insert_names {A B} (f : A → B) (l : list A) (i : nat) a b : l !! i = Some a → f b = f a → f <$> <[i := b]> l = f <$> l.
Proof.
  intros Hi E. rewrite list_fmap_insert, E. apply list_insert_id. by rewrite list_lookup_fmap, Hi.
Qed.

Lemma NoDup_snoc {A} (l : list A) a : NoDup l → a ∉ l → NoDup (l ++ [a]).
Proof. intros Hl Ha. apply NoDup_app. split; [done|]. split; [set_solver|apply NoDup_singleton]. Qed.

Lemma ordered_snoc es e : ordered es → (∀ l, last es = Some l → entry_id l < entry_id e) → ordered (es ++ [e]).
Proof.
  unfold ordered, ids. induction es as [|a es IH]; intros Ho Hl; cbn; [by repeat constructor|].
  inversion Ho as [|? ? Hs Hf]; subst. constructor.
  - apply IH; [done|]. intros l Hlast. apply Hl. by rewrite last_cons, Hlast.
  - rewrite fmap_app. apply Forall_app. split; [done|]. repeat constructor.
    destruct (last es) as [l|] eqn:E.
    + specialize (Hl l). rewrite last_cons, E in Hl. specialize (Hl eq_refl).
      rewrite Forall_forall in Hf. assert (entry_id a < entry_id l); [|lia]. apply Hf.
      apply list_elem_of_fmap. eexists. split; [done|]. by apply last_Some_elem_of.
    + apply Hl. by rewrite last_cons, E.
Qed.

Lemma ordered_drop k es : ordered es → ordered (drop k es).
Proof.
  unfold ordered, ids. revert es. induction k as [|k IH]; intros [|e es]; cbn; try done.
  intros Ho. inversion Ho; subst. by apply IH.
Qed.

(** ** What a client sees of the entries *)

Definition view (es : list Entry) : gmap N EntryKind := list_to_map ((λ e, (entry_id e, kind e)) <$> es).

Lemma ordered_NoDup es : ordered es → NoDup (ids es).
Proof.
  intros Ho. apply NoDup_alt. intros i j x Hi Hj. unfold ids in *. rewrite list_lookup_fmap in Hi, Hj.
  destruct (es !! i) as [a|] eqn:Ea; [|done]. destruct (es !! j) as [b|] eqn:Eb; [|done]. cbn in Hi, Hj.
  apply (ordered_inj es i j a b); [done..|congruence].
Qed.

Lemma view_Some es i k : ordered es → view es !! i = Some k ↔ MkEntry i k ∈ es.
Proof.
  intros Ho. unfold view. rewrite <-elem_of_list_to_map.
  - rewrite list_elem_of_fmap. split.
    + intros ([i' k'] & E & Hin). cbn in E. by injection E as -> ->.
    + intros Hin. by exists (MkEntry i k).
  - rewrite <-list_fmap_compose. apply (ordered_NoDup es Ho).
Qed.

Lemma view_eq es m :
  ordered es → (∀ i k, m !! i = Some k ↔ MkEntry i k ∈ es) → view es = m.
Proof.
  intros Ho Hm. apply map_eq. intros i. apply option_eq. intros k. by rewrite view_Some, Hm.
Qed.

Lemma view_None es i : ordered es → i ∉ ids es → view es !! i = None.
Proof.
  intros Ho Hi. apply eq_None_not_Some. intros [k Hk]. apply view_Some in Hk; [|done]. apply Hi.
  apply list_elem_of_fmap. by exists (MkEntry i k).
Qed.

(** What a change means for the entries a client sees; [None] refuses it. *)
Definition change_view (c : Change) (m : gmap N EntryKind) : option (gmap N EntryKind) :=
  match answers_refused c, c with
  | Some _, _ => None
  | None, Push e => if bool_decide (map_Forall (λ i _, i < entry_id e) m) then Some (<[entry_id e := kind e]> m) else None
  | None, Append id more => k ← m !! id; k ← append_text k more; Some (<[id := k]> m)
  | None, Replace e => _ ← m !! entry_id e; Some (<[entry_id e := kind e]> m)
  | None, Truncate b => Some (filter (λ '(i, _), b ≤ i) m)
  | None, _ => Some m
  end.

Lemma view_snoc es e : ordered (es ++ [e]) → ordered es → view (es ++ [e]) = <[entry_id e := kind e]> (view es).
Proof.
  intros Ho Hes. apply view_eq; [done|]. intros i k. rewrite lookup_insert_Some, view_Some by done.
  rewrite elem_of_app, list_elem_of_singleton. pose proof (ordered_NoDup _ Ho) as Hn.
  unfold ids in Hn. rewrite fmap_app in Hn. apply NoDup_app in Hn as (_ & Hd & _). split.
  - intros [[<- <-]|[_ Hin]]; [right; by destruct e|by left].
  - intros [Hin| <-]; [right|by left]. split; [|done]. intros <-. apply (Hd (entry_id e)); [|set_solver].
    apply list_elem_of_fmap. by exists (MkEntry (entry_id e) k).
Qed.

Lemma view_insert es i a e :
  ordered es → es !! i = Some a → entry_id e = entry_id a → view (<[i := e]> es) = <[entry_id e := kind e]> (view es).
Proof.
  intros Ho Hi E. assert (ordered (<[i := e]> es)) as Ho' by (unfold ordered, ids; by rewrite (insert_names _ _ _ a)).
  pose proof (lookup_lt_Some _ _ _ Hi) as Hlt.
  apply view_eq; [done|]. intros j k. rewrite lookup_insert_Some, view_Some by done. split.
  - intros [[<- <-]|[Hne [n Hn]%list_elem_of_lookup]]; apply list_elem_of_lookup.
    + exists i. rewrite list_lookup_insert_eq by done. by destruct e.
    + exists n. rewrite list_lookup_insert_ne; [done|]. intros ->. rewrite Hi in Hn. injection Hn as ->. done.
  - intros [n Hn]%list_elem_of_lookup. destruct (decide (n = i)) as [->|Hne].
    + rewrite list_lookup_insert_eq in Hn by done. injection Hn as ->. by left.
    + rewrite list_lookup_insert_ne in Hn by done. right. split; [|by eapply list_elem_of_lookup_2].
      intros Hj. apply Hne. apply (ordered_inj es n i (MkEntry j k) a); [done..|]. cbn. congruence.
Qed.

Lemma view_drop es b :
  ordered es → view (drop (partition_point es b) es) = filter (λ '(i, _), b ≤ i) (view es).
Proof.
  intros Ho. destruct (partition_spec es b Ho) as (_ & Hlt & Hge). apply view_eq; [by apply ordered_drop|].
  intros i k. rewrite map_lookup_filter_Some, view_Some by done. rewrite Forall_forall in Hlt, Hge. split.
  - intros [Hin Hb]. rewrite <-(take_drop (partition_point es b) es), elem_of_app in Hin.
    destruct Hin as [Hin|?]; [|done]. specialize (Hlt _ Hin). cbn in Hlt. lia.
  - intros Hin. split; [|exact (Hge _ Hin)]. rewrite <-(take_drop (partition_point es b) es). apply elem_of_app. by right.
Qed.

(** The last entry has the largest id. *)
Lemma last_is_largest t e :
  ordered (entries t) →
  (∀ last, last_entry_id t = Some last → last < entry_id e) ↔ map_Forall (λ i _, i < entry_id e) (view (entries t)).
Proof.
  intros Ho. unfold last_entry_id. split.
  - intros Hl i k Hk. apply view_Some in Hk; [|done]. apply list_elem_of_lookup in Hk as [n Hn].
    destruct (last (entries t)) as [l|] eqn:El.
    + specialize (Hl (entry_id l) eq_refl). rewrite last_lookup in El.
      destruct (decide (n = pred (length (entries t)))) as [->|].
      * rewrite Hn in El. injection El as <-. done.
      * pose proof (lookup_lt_Some _ _ _ Hn). pose proof (ordered_lookup _ n _ _ _ Ho Hn El ltac:(lia)) as Hlt. cbn in Hlt. lia.
    + apply last_None in El. rewrite El in Hn. done.
  - intros Hm l El. destruct (last (entries t)) as [x|] eqn:Ex; [|done]. injection El as <-.
    apply (Hm _ (kind x)). apply view_Some; [done|]. apply last_Some_elem_of in Ex. by destruct x.
Qed.

(** What a change means for the permissions that wait. *)
Definition change_pending (c : Change) (pending : list N) : option (list N) :=
  match c with
  | PermissionAsked p => if bool_decide (permission_id p ∈ pending) then None else Some (pending ++ [permission_id p])
  | PermissionResolved id => if bool_decide (id ∈ pending) then Some (filter (λ i, i ≠ id) pending) else None
  | _ => Some pending
  end.

Definition pending (t : Transcript) : list N := permission_id <$> permissions t.

(** Why a change that touches neither is refused. *)
Definition refused_otherwise (t : Transcript) (c : Change) : Prop :=
  match c with
  | CurrentMode _ => modes t = None
  | ActivityChange a =>
      fits a = false ∨
      ((call_id a ∉ (call_id <$> activities t)) ∧ (MAX_ACTIVITIES ≤ length (activities t))%nat ∧
       Forall (λ k, is_running k = true) (activities t))
  | _ => False
  end.

(** Everything a change promises, in one place: no panic; the invariant; the
    entries and permissions follow [change_view] and [change_pending]; a refusal
    has its reason and leaves the transcript alone. *)
Definition applied (t : Transcript) (c : Change) : Prop :=
  match apply t c with
  | None => False
  | Some (t', Ok _) =>
      wf t' ∧ change_view c (view (entries t)) = Some (view (entries t')) ∧
      change_pending c (pending t) = Some (pending t')
  | Some (t', Err _) =>
      t' = t ∧
      (change_view c (view (entries t)) = None ∨ change_pending c (pending t) = None ∨ refused_otherwise t c)
  end.

Lemma wf_set_entries t es :
  wf t → ordered es → Forall answers_ok es → wf (set_entries t es).
Proof. by intros [] ??. Qed.

Lemma answers_accepted c e : answers_refused c = None → c = Push e ∨ c = Replace e → answers_ok e.
Proof.
  unfold answers_ok. intros Ha [-> | ->]; cbn in Ha; destruct (kind e); try done; by destruct (valid_question_answers _).
Qed.

Lemma applied_push t e : wf t → answers_refused (Push e) = None → applied t (Push e).
Proof.
  intros Hwf Ha. unfold applied, apply, change_view. rewrite Ha.
  pose proof (last_is_largest t e (wf_order t Hwf)) as Hl.
  assert ((∀ last, last_entry_id t = Some last → last < entry_id e) →
    wf (set_entries t (entries t ++ [e])) ∧
    (if bool_decide (map_Forall (λ i _, i < entry_id e) (view (entries t)))
     then Some (<[entry_id e := kind e]> (view (entries t))) else None)
      = Some (view (entries (set_entries t (entries t ++ [e])))) ∧
    Some (pending t) = Some (pending (set_entries t (entries t ++ [e])))) as Hok.
  { intros Hlast. assert (ordered (entries t ++ [e])) as Ho.
    { apply ordered_snoc; [apply Hwf|]. intros l El. apply Hlast. unfold last_entry_id. by rewrite El. }
    split; [|split; [|done]].
    - apply wf_set_entries; [done..|]. apply Forall_app. split; [apply Hwf|]. repeat constructor.
      by apply (answers_accepted (Push e)); [|left].
    - rewrite bool_decide_true by (by apply Hl). cbn [set_entries entries]. by rewrite view_snoc by (done || apply Hwf). }
  destruct (last_entry_id t) as [l|]; [destruct (N.leb_spec (entry_id e) l) as [Hle|]|].
  - split; [done|]. left. rewrite bool_decide_false; [done|]. intros Hm.
    pose proof (proj2 Hl Hm l eq_refl). lia.
  - apply Hok. intros x E. injection E as <-. done.
  - by apply Hok.
Qed.

Lemma applied_replace t e : wf t → answers_refused (Replace e) = None → applied t (Replace e).
Proof.
  intros Hwf Ha. unfold applied, apply, change_view. rewrite Ha.
  pose proof (position_spec t (entry_id e) (wf_order t Hwf)) as Hp.
  destruct (position t (entry_id e)) as [i|].
  2: { split; [done|]. left. by rewrite view_None by (done || apply Hwf). }
  destruct Hp as (a & Hi & E). rewrite Hi. cbn [mbind option_bind].
  assert (view (entries t) !! entry_id e = Some (kind a)) as Hv.
  { apply view_Some; [apply Hwf|]. rewrite <-E. apply list_elem_of_lookup. exists i. by destruct a. }
  rewrite Hv. cbn [mbind option_bind]. split; [|split; [|done]].
  - apply wf_set_entries; [done| |].
    + unfold ordered, ids. rewrite (insert_names _ _ _ a) by done. apply Hwf.
    + apply Forall_insert; [apply Hwf|]. by apply (answers_accepted (Replace e)); [|right].
  - cbn [set_entries entries]. by rewrite (view_insert _ _ a) by (done || apply Hwf).
Qed.

Lemma append_answers k k' more id : append_text k more = Some k' → answers_ok (MkEntry id k) → answers_ok (MkEntry id k').
Proof. unfold answers_ok. destruct k; cbn; intros E; try done; by injection E as <-. Qed.

Lemma applied_append t id more : wf t → applied t (Append id more).
Proof.
  intros Hwf. unfold applied, apply, change_view. cbn [answers_refused].
  pose proof (position_spec t id (wf_order t Hwf)) as Hp.
  destruct (position t id) as [i|].
  2: { split; [done|]. left. by rewrite view_None by (done || apply Hwf). }
  destruct Hp as ([id' k] & Hi & E). cbn in E. subst id'. rewrite Hi. cbn [mbind option_bind kind entry_id].
  assert (view (entries t) !! id = Some k) as Hv
    by (apply view_Some; [apply Hwf|]; apply list_elem_of_lookup; by exists i).
  rewrite Hv. cbn [mbind option_bind]. destruct (append_text k more) as [k'|] eqn:Ek; [|by split; [|left]].
  cbn [mbind option_bind]. split; [|split; [|done]].
  - apply wf_set_entries; [done| |].
    + unfold ordered, ids. rewrite (insert_names _ _ _ (MkEntry id k)) by done. apply Hwf.
    + apply Forall_insert; [apply Hwf|]. apply (append_answers k k' more); [done|].
      pose proof (wf_answers t Hwf) as Hf. rewrite Forall_lookup in Hf. by apply (Hf i).
  - cbn [set_entries entries]. by rewrite (view_insert _ _ (MkEntry id k)) by (done || apply Hwf).
Qed.

Lemma applied_truncate t b : wf t → applied t (Truncate b).
Proof.
  intros Hwf. unfold applied, apply, change_view. cbn [answers_refused].
  destruct (partition_spec (entries t) b (wf_order t Hwf)) as (Hle & Hlt & Hge).
  pose proof (view_drop (entries t) b (wf_order t Hwf)) as Hv.
  destruct (Nat.ltb_spec 0 (partition_point (entries t) b)) as [Hpos|Hz].
  - rewrite (proj2 (Nat.leb_le _ _) Hle). split; [|split; [cbn [set_truncated set_entries entries]; by rewrite Hv|done]].
    destruct (wf_set_entries t (drop (partition_point (entries t) b) (entries t)) Hwf) as []; [by apply ordered_drop, Hwf|by apply Forall_drop, Hwf|].
    by split.
  - replace (partition_point (entries t) b) with 0%nat in Hv by lia. rewrite drop_0 in Hv.
    split; [done|]. split; [by rewrite <-Hv|done].
Qed.

Lemma wf_set_activities t l :
  wf t → NoDup (call_id <$> l) → (length l ≤ MAX_ACTIVITIES)%nat → Forall (λ a, fits a = true) l → wf (set_activities t l).
Proof. by intros [] ???. Qed.

Lemma applied_activity t a : wf t → applied t (ActivityChange a).
Proof.
  intros Hwf. unfold applied, apply, change_view. cbn [answers_refused]. unfold record.
  destruct (fits a) eqn:Ef; [|by split; [|right; right; left]]. cbn [negb].
  pose proof (position_of_spec (λ known, bool_decide (call_id known = call_id a)) (activities t)) as Hp.
  destruct (position_of _ (activities t)) as [i|].
  { destruct Hp as (k & Hi & E). apply bool_decide_eq_true in E. split; [|done]. apply wf_set_activities; [done|..].
    - rewrite (insert_names _ _ _ k) by done. apply Hwf.
    - rewrite length_insert. apply Hwf.
    - apply Forall_insert; [apply Hwf|done]. }
  assert (∀ l, l `sublist_of` activities t → (S (length l) ≤ MAX_ACTIVITIES)%nat → wf (set_activities t (l ++ [a]))) as Hadd.
  { intros l Hs Hlen. apply wf_set_activities; [done| | |].
    - rewrite fmap_app. apply NoDup_snoc; [eapply NoDup_fmap_sublist; [done|apply Hwf]|].
      rewrite list_elem_of_fmap. intros (k & E & Hin). rewrite Forall_forall in Hp.
      specialize (Hp k). rewrite bool_decide_eq_false in Hp. apply Hp; [|done]. by eapply sublist_elem.
    - rewrite length_app. cbn. lia.
    - apply Forall_app. split; [|by constructor]. apply Forall_forall. intros k Hk.
      pose proof (wf_fits t Hwf) as Hf. rewrite Forall_forall in Hf. apply Hf. by eapply sublist_elem. }
  destruct (Nat.leb_spec MAX_ACTIVITIES (length (activities t))).
  - pose proof (position_of_spec (λ known, negb (is_running known)) (activities t)) as Hr.
    destruct (position_of _ (activities t)) as [i|].
    2: { split; [done|]. right. right. right. split; [|split; [done|]].
         - rewrite list_elem_of_fmap. intros (k & E & Hin). rewrite Forall_forall in Hp. specialize (Hp k Hin).
           by rewrite bool_decide_eq_false in Hp.
         - eapply Forall_impl; [exact Hr|]. intros k Hk. by apply negb_false_iff in Hk. }
    destruct Hr as (k & Hi & _). split; [|done].
    apply Hadd; [apply remove_at_sublist|]. rewrite remove_at_length by (by eapply lookup_lt_Some). apply Hwf.
  - split; [|done]. by apply Hadd.
Qed.

Lemma applied_permission_asked t p : wf t → applied t (PermissionAsked p).
Proof.
  intros Hwf. unfold applied, apply, change_view, change_pending. cbn [answers_refused].
  assert (existsb (λ known, permission_id known =? permission_id p) (permissions t) = bool_decide (permission_id p ∈ pending t)) as ->.
  { apply Bool.eq_iff_eq_true. rewrite existsb_exists, bool_decide_eq_true. unfold pending. rewrite list_elem_of_fmap.
    setoid_rewrite <-list_elem_of_In. setoid_rewrite N.eqb_eq. naive_solver. }
  destruct (bool_decide_reflect (permission_id p ∈ pending t)) as [|Hn]; [by split; [|right; left]|].
  split; [|split; [done|]].
  - destruct Hwf. split; try done. cbn [set_permissions permissions]. rewrite fmap_app. by apply NoDup_snoc.
  - unfold pending. cbn [set_permissions permissions]. by rewrite fmap_app.
Qed.

(** Removing the one with a name leaves the others. *)
Lemma remove_at_names {A} (f : A → N) l i a :
  NoDup (f <$> l) → l !! i = Some a → f <$> remove_at i l = filter (λ n, n ≠ f a) (f <$> l).
Proof.
  unfold remove_at. revert i. induction l as [|b l IH]; intros i Hn Hi; [done|].
  rewrite fmap_cons in *. apply NoDup_cons in Hn as [Hb Hn]. destruct i as [|i]; cbn in Hi.
  - injection Hi as ->. cbn [take drop app]. rewrite drop_0. rewrite filter_cons_False by (by intros []).
    clear -Hb. induction l as [|c l IH]; [done|]. rewrite fmap_cons in *. apply not_elem_of_cons in Hb as [Hc Hb].
    rewrite filter_cons_True by congruence. f_equal. by apply IH.
  - cbn [take drop app]. rewrite fmap_cons, IH by done. rewrite filter_cons_True; [done|].
    intros E. apply Hb. rewrite E. apply list_elem_of_fmap. exists a. split; [done|]. by eapply list_elem_of_lookup_2.
Qed.

Lemma applied_permission_resolved t id : wf t → applied t (PermissionResolved id).
Proof.
  intros Hwf. unfold applied, apply, change_view, change_pending. cbn [answers_refused].
  pose proof (position_of_spec (λ p, permission_id p =? id) (permissions t)) as Hp.
  destruct (position_of _ (permissions t)) as [i|].
  - destruct Hp as (p & Hi & <-%N.eqb_eq). split; [|split; [done|]].
    + destruct Hwf. split; try done.
      cbn [set_permissions permissions]. eapply NoDup_fmap_sublist; [apply remove_at_sublist|done].
    + rewrite bool_decide_true by (apply list_elem_of_fmap; exists p; split; [done|by eapply list_elem_of_lookup_2]).
      unfold pending. cbn [set_permissions permissions]. by rewrite (remove_at_names _ _ _ p) by (done || apply Hwf).
  - split; [done|]. right. left. rewrite bool_decide_false; [done|]. unfold pending. rewrite list_elem_of_fmap.
    intros (p & E & Hin). rewrite Forall_forall in Hp. specialize (Hp p Hin). apply N.eqb_neq in Hp. done.
Qed.

(** What applying a change does, by its cases. *)
Lemma applied_all (t : Transcript) (c : Change) : wf t → applied t c.
Proof.
  intros Hwf. destruct (answers_refused c) as [id|] eqn:Ha.
  { unfold applied, apply, change_view. rewrite Ha. by split; [|left]. }
  destruct c; try (by destruct Hwf; repeat split).
  - by apply applied_push.
  - by apply applied_append.
  - by apply applied_replace.
  - by apply applied_truncate.
  - by apply applied_permission_asked.
  - by apply applied_permission_resolved.
  - unfold applied, apply, change_view. cbn [answers_refused]. destruct (modes t) eqn:Em.
    + by destruct Hwf; repeat split.
    + split; [done|]. by right; right.
  - by apply applied_activity.
Qed.

(** C25: Applying a change to a well-formed transcript never panics. A
    change that does not fit leaves the transcript exactly as it was. One that
    fits keeps the invariant (entries in order of their ids, permissions and
    activities told apart, at most 32 activities, every bound on texts and
    answers) and does to the entries what it says: a push adds one past every
    other, an append and a replacement touch the entry they name, a truncation
    drops exactly the older ones; a permission waits from when it is asked to
    when it is resolved; and nothing else changes them. A refusal has its reason:
    an entry out of order, unknown or without text, answers over their limit, a
    permission asked twice or not known, no modes, an activity too long or one
    more than can run. *)
Theorem apply_correct (t : Transcript) (c : Change) : wf t → applied t c.
Proof.
  intros Hwf. pose proof (applied_all t c Hwf) as H. exact H.
Qed.

(** The binary search finds exactly the entry with the id asked for. *)
Theorem entry_correct (t : Transcript) (id : N) :
  wf t → kind <$> entry t id = view (entries t) !! id ∧ ∀ e, entry t id = Some e → entry_id e = id.
Proof.
  intros Hwf. unfold entry. pose proof (position_spec t id (wf_order t Hwf)) as Hp.
  destruct (position t id) as [i|]; cbn [mbind option_bind].
  - destruct Hp as (e & Hi & E). rewrite Hi. split; [|by intros x [= <-]]. symmetry. apply view_Some; [apply Hwf|].
    rewrite <-E. apply list_elem_of_lookup. exists i. by destruct e.
  - split; [|done]. symmetry. by apply view_None; [apply Hwf|].
Qed.

(** ** Witnesses *)

Definition chat : Transcript :=
  set_entries (transcript_new (lit "Claude")) [MkEntry 3 (User (lit "hi") 0); MkEntry 5 (Agent (lit "Hel")); MkEntry 9 (Thought [])].

Lemma chat_wf : wf chat.
Proof.
  apply wf_set_entries; [apply wf_new| |by repeat constructor].
  unfold ordered. cbn. repeat constructor.
Qed.

Lemma apply_correct_witness :
  applied chat (Append 5 (lit "lo")) ∧ applied chat (Push (MkEntry 9 (Agent []))) ∧ applied chat (Truncate 5) ∧
  apply chat (Push (MkEntry 9 (Agent []))) = Some (chat, Err (EntryOrder 9 9)).
Proof. split; [|split; [|split]]; [apply apply_correct, chat_wf..|reflexivity]. Defined.

Lemma entry_correct_witness : entry chat 5 = Some (MkEntry 5 (Agent (lit "Hel"))) ∧ kind <$> entry chat 5 = view (entries chat) !! 5.
Proof. split; [reflexivity|]. apply (entry_correct chat 5). apply chat_wf. Defined.
End Transcript.
