(* ===== verification/Nearby.v ===== *)
(** * Nearby: messages over Bluetooth (crates/sheprd-nearby/src/framing.rs,
    peripheral.rs and protocol.rs)

    JSON, base64 and the standard library's hasher (whose algorithm is not
    specified) are parameters: the class [NearbyOutside]. The core is a value
    passed on. *)

From Stdlib Require Import NArith Lia.
From stdpp Require Import base option strings gmap sets list.
From S2P Require Import Prelude.

Local Open Scope N_scope.

Module Nearby.

(** ** Framing *)

Definition MAX_MESSAGE : N := 4096.
Definition MIN_CHUNK : N := 20.

(** [framing::chunks]. *)
Definition message_chunks (message : list N) (size : N) : list (list N) :=
  if u16_max <? lenN message then []
  else if MAX_MESSAGE <? lenN message then []
  else
    let framed := be_bytes 2 (lenN message) ++ message in
    chunks (length framed) (N.max size MIN_CHUNK) framed.

Inductive Outcome := Partial | Complete (message : list N) | Invalid.

(** [Reassembly::add] on the buffer. *)
Definition add (buffer chunk : list N) : list N * Outcome :=
  let buffer := buffer ++ chunk in
  match buffer with
  | high :: low :: _ =>
      let length := be_val [high; low] in
      if (MAX_MESSAGE <? length) || (length + 2 <? lenN buffer) then (buffer, Invalid)
      else if lenN buffer =? length + 2 then ([], Complete (drop 2 buffer))
      else (buffer, Partial)
  | _ => (buffer, Partial)
  end.

(** ** Lines from Sheprd *)

Definition MAX_LINE : N := 8 * 1024.

Inductive Channel := Pair | Presence.
#[export] Instance Channel_eq_dec : EqDecision Channel.
Proof. solve_decision. Defined.
#[export] Program Instance Channel_countable : Countable Channel :=
  inj_countable' (λ c, match c with Pair => true | Presence => false end) (λ b : bool, if b then Pair else Presence) _.
Next Obligation. by intros []. Qed.

Inductive Command :=
| Advertise (name fingerprint : str)
| PresenceOn (on : bool)
| Stop
| FrameCommand (central : str) (channel : Channel) (data : list N).

Inductive Line :=
| Line_Advertise (name fp : option str)
| Line_AdvertisePresence (on : bool)
| Line_Frame (central data : str)
| Line_PresenceFrame (central data : str)
| Line_Stop.

Inductive Radio := PoweredOn | PoweredOff | Unsupported | Unknown.

Inductive Event :=
| State (state : Radio)
| FrameEvent (central data : str)
| PresenceFrame (central data : str)
| Disconnected (central : str)
| Idle (seconds : N)
| ErrorEvent (message : str).

Class NearbyOutside := {
  line_json : str → option Line;
  std_encode : list N → str;
  std_decode : str → option (list N);
  (** The two [finish]es of the hasher over the seed and the device. *)
  hashes : N → str → N * N;
}.

Section outside.
Context `{NearbyOutside}.

Definition frame_command (central : str) (channel : Channel) (data : str) : option Command :=
  bytes ← std_decode data;
  if lenN bytes <=? MAX_MESSAGE then Some (FrameCommand central channel bytes) else None.

(** [Command::parse]. *)
Definition command_parse (line : str) : option Command :=
  if MAX_LINE <? str_len line then None
  else
    l ← line_json line;
    match l with
    | Line_Advertise name fp => Some (Advertise (default (lit "Sheprd") name) (default [] fp))
    | Line_AdvertisePresence on => Some (PresenceOn on)
    | Line_Stop => Some Stop
    | Line_Frame central data => frame_command central Pair data
    | Line_PresenceFrame central data => frame_command central Presence data
    end.

(** [Event::frame]. *)
Definition event_frame (central : str) (channel : Channel) (data : list N) : Event :=
  match channel with
  | Pair => FrameEvent central (std_encode data)
  | Presence => PresenceFrame central (std_encode data)
  end.
End outside.

Definition NEWLINE : N := 10.

(** [position] of a newline in what a read gave. *)
Fixpoint newline_at (l : list N) : option nat :=
  match l with
  | [] => None
  | b :: l => if b =? NEWLINE then Some 0%nat else S <$> newline_at l
  end.

(** What a read adds to the line, until it is over the limit. *)
Definition extend (line : list N) (overlong : bool) (piece : list N) : list N * bool :=
  if overlong then (line, overlong)
  else
    let line := line ++ piece in
    if MAX_LINE + 1 <? lenN line then ([], true) else (line, false).

(** The loop of [read_line] over what successive [fill_buf]s give: whether there
    was a line, the line, and the reads left. An empty read is the end. *)
Fixpoint read_line_from (line : list N) (overlong : bool) (reads : list (list N)) : bool * list N * list (list N) :=
  match reads with
  | [] => (negb (bool_decide (line = [])) || overlong, line, [])
  | available :: reads =>
      if bool_decide (available = []) then (negb (bool_decide (line = [])) || overlong, line, reads)
      else
        let '(taken, done) :=
          match newline_at available with Some i => (S i, true) | None => (length available, false) end in
        let '(line, overlong) := extend line overlong (take taken available) in
        if (done : bool) then
          let rest := drop taken available in
          (true, if overlong then [] else line, if bool_decide (rest = []) then reads else rest :: reads)
        else read_line_from line overlong reads
  end.

Definition read_line (reads : list (list N)) : bool * list N * list (list N) := read_line_from [] false reads.

(** ** The core every platform shares *)

Definition IDLE_UNKNOWN : N := 365 * 24 * 60 * 60.

Record Core := MkCore {
  pairing : option (str * str);
  presence : bool;
  incoming : gmap (str * Channel) (list N);
  ids : gmap str str;
  devices : gmap str str;
  chunk : gmap str N;
  present : gset str;
  seed : N }.

Definition core_new (seed : N) : Core := MkCore None false ∅ ∅ ∅ ∅ ∅ seed.

(** What [info] reads, before it is written as JSON. *)
Record Info := MkInfo { info_v : N; info_name : option str; info_fp : option str }.

Definition wants_advertising (c : Core) : bool := bool_decide (is_Some (pairing c)) || presence c.

Definition info (c : Core) : option Info :=
  match pairing c with
  | Some (name, fp) => Some (MkInfo 1 (Some name) (Some fp))
  | None => if presence c then Some (MkInfo 1 None None) else None
  end.

Definition write_allowed (c : Core) (channel : Channel) : bool :=
  match channel with
  | Pair => bool_decide (is_Some (pairing c))
  | Presence => presence c
  end.

(** [width] upper-case hexadecimal digits. *)
Definition hex_upper (n : N) : N := if n <? 10 then 48 + n else 55 + n.
Fixpoint hex_width (width : nat) (n : N) : str :=
  match width with
  | O => []
  | S width => hex_width width (n / 16) ++ [hex_upper (n mod 16)]
  end.

Definition DASH : N := 45.

Section core.
Context `{NearbyOutside}.

(** The id of a device seen for the first time. *)
Definition make_id (seed : N) (device : str) : str :=
  let '(high, low) := hashes seed device in
  hex_width 8 (N.shiftr high 32) ++ [DASH] ++
  hex_width 4 (N.land (N.shiftr high 16) 65535) ++ [DASH; 52] ++
  hex_width 3 (N.land high 4095) ++ [DASH; 56] ++
  hex_width 3 (N.land (N.shiftr low 48) 4095) ++ [DASH] ++
  hex_width 12 (N.land low 281474976710655).

(** [Core::id]. *)
Definition id_ (c : Core) (device : str) : Core * str :=
  match ids c !! device with
  | Some id => (c, id)
  | None =>
      let id := make_id (seed c) device in
      (MkCore (pairing c) (presence c) (incoming c) (<[device := id]> (ids c)) (<[id := device]> (devices c))
         (chunk c) (present c) (seed c), id)
  end.

Definition device (c : Core) (id : str) : option str := devices c !! id.

Definition set_chunk (c : Core) (d : str) (size : N) : Core :=
  MkCore (pairing c) (presence c) (incoming c) (ids c) (devices c) (<[d := size]> (chunk c)) (present c) (seed c).

Definition chunk_of (c : Core) (d : str) : N := default MIN_CHUNK (chunk c !! d).

Definition set_incoming (c : Core) (m : gmap (str * Channel) (list N)) : Core :=
  MkCore (pairing c) (presence c) m (ids c) (devices c) (chunk c) (present c) (seed c).

Definition set_present (c : Core) (p : gset str) : Core :=
  MkCore (pairing c) (presence c) (incoming c) (ids c) (devices c) (chunk c) p (seed c).

(** [Core::received]. *)
Definition received (c : Core) (d : str) (channel : Channel) (piece : list N) : Core * option Event :=
  let '(c, id) := id_ c d in
  let c := match channel with Presence => set_present c ({[ d ]} ∪ present c) | Pair => c end in
  let key := (d, channel) in
  let '(buffer, outcome) := add (default [] (incoming c !! key)) piece in
  match outcome with
  | Partial => (set_incoming c (<[key := buffer]> (incoming c)), None)
  | Complete message => (set_incoming c (delete key (incoming c)), Some (event_frame id channel message))
  | Invalid => (set_incoming c (delete key (incoming c)), None)
  end.

(** [Core::left]. *)
Definition left_ (c : Core) (d : str) (channel : Channel) : Core * option Event :=
  let c := set_incoming c (delete (d, channel) (incoming c)) in
  match channel with
  | Pair => (c, None)
  | Presence =>
      if bool_decide (d ∈ present c) then
        let '(c, id) := id_ (set_present c (present c ∖ {[ d ]})) d in (c, Some (Disconnected id))
      else (c, None)
  end.

Inductive Step := Refresh (advertise : bool) | Send (device : str) (channel : Channel) (pieces : list (list N)) | Nothing.

Definition set_modes (c : Core) (p : option (str * str)) (on : bool) : Core :=
  MkCore p on (incoming c) (ids c) (devices c) (chunk c) (present c) (seed c).

(** [Core::apply]. *)
Definition apply (c : Core) (command : Command) : Core * Step :=
  match command with
  | FrameCommand central channel data =>
      match device c central with
      | None => (c, Nothing)
      | Some d => (c, Send d channel (message_chunks data (chunk_of c d)))
      end
  | Advertise name fingerprint =>
      let c := set_modes c (Some (name, fingerprint)) (presence c) in (c, Refresh (wants_advertising c))
  | PresenceOn on => let c := set_modes c (pairing c) on in (c, Refresh (wants_advertising c))
  | Stop => let c := set_modes c None (presence c) in (c, Refresh (wants_advertising c))
  end.

(** Writes of all phones, as they arrive, with the events they cause. *)
Fixpoint receive_all (c : Core) (writes : list (str * Channel * list N)) : Core * list (str * Channel * Event) :=
  match writes with
  | [] => (c, [])
  | (d, channel, piece) :: writes =>
      let '(c, e) := received c d channel piece in
      let '(c, events) := receive_all c writes in
      (c, match e with Some e => (d, channel, e) :: events | None => events end)
  end.

(** ** Reassembly *)

(** What one phone's writes on one channel become. *)
Fixpoint reassemble (buffer : list N) (pieces : list (list N)) : list (list N) :=
  match pieces with
  | [] => []
  | piece :: pieces =>
      match add buffer piece with
      | (buffer, Partial) => reassemble buffer pieces
      | (_, Complete message) => message :: reassemble [] pieces
      | (_, Invalid) => reassemble [] pieces
      end
  end.

Lemma add_framed buffer piece rest message :
  lenN message ≤ MAX_MESSAGE → buffer ++ piece ++ rest = be_bytes 2 (lenN message) ++ message →
  add buffer piece = if bool_decide (rest = []) then ([], Complete message) else (buffer ++ piece, Partial).
Proof.
  intros Hm E. unfold add.
  assert (length (buffer ++ piece) + length rest = 2 + length message)%nat as Hlen.
  { apply (f_equal length) in E. rewrite app_assoc, !length_app, length_be_bytes in E. rewrite length_app. lia. }
  rewrite app_assoc in E. destruct (buffer ++ piece) as [|high [|low tail]] eqn:Eb.
  - rewrite bool_decide_false; [done|]. intros ->. cbn in Hlen. lia.
  - rewrite bool_decide_false; [done|]. intros ->. cbn in Hlen. lia.
  - assert ([high; low] = be_bytes 2 (lenN message) ∧ tail ++ rest = message) as [Hh Ht].
    { apply (app_inj_1 [high; low] (be_bytes 2 (lenN message))); [by rewrite length_be_bytes|exact E]. }
    rewrite Hh, be_val_bytes by (change (256 ^ N.of_nat 2) with 65536; unfold MAX_MESSAGE in Hm; lia).
    rewrite (proj2 (N.ltb_ge MAX_MESSAGE (lenN message))) by done. unfold lenN in *. cbn [length] in *.
    rewrite (proj2 (N.ltb_ge (N.of_nat (length message) + 2) _)) by lia. cbn [orb].
    destruct (bool_decide_reflect (rest = [])) as [->|Hne].
    + cbn in Hlen. rewrite app_nil_r in Ht. subst tail. rewrite (proj2 (N.eqb_eq _ _)) by lia. done.
    + rewrite (proj2 (N.eqb_neq _ _)); [done|]. assert (length rest ≠ 0%nat) by (by destruct rest). lia.
Qed.

Lemma reassemble_pieces pieces buffer message more :
  lenN message ≤ MAX_MESSAGE → pieces ≠ [] → Forall (λ p, p ≠ []) pieces →
  buffer ++ concat pieces = be_bytes 2 (lenN message) ++ message →
  reassemble buffer (pieces ++ more) = message :: reassemble [] more.
Proof.
  intros Hm. revert buffer. induction pieces as [|p pieces IH]; intros buffer Hne Hf E; [done|].
  apply Forall_cons in Hf as [Hp Hf]. cbn [app reassemble concat] in *.
  rewrite (add_framed buffer p (concat pieces) message) by done.
  destruct (bool_decide_reflect (concat pieces = [])) as [Hc|Hc].
  - destruct pieces as [|q pieces]; [done|]. apply Forall_cons in Hf as [Hq _]. cbn in Hc. by apply app_nil in Hc as [? _].
  - apply IH; [by intros ->|done|]. by rewrite <-app_assoc.
Qed.

(** A message's own chunks give it back. *)
Lemma reassemble_message message size more :
  lenN message ≤ MAX_MESSAGE →
  reassemble [] (message_chunks message size ++ more) = message :: reassemble [] more.
Proof.
  intros Hm. unfold message_chunks.
  rewrite (proj2 (N.ltb_ge u16_max _)) by (unfold u16_max, MAX_MESSAGE in *; lia).
  rewrite (proj2 (N.ltb_ge MAX_MESSAGE _)) by done.
  set (framed := be_bytes 2 (lenN message) ++ message).
  destruct (chunks_spec (length framed) (N.max size MIN_CHUNK) framed) as [Hc Hf]; [unfold MIN_CHUNK; lia|done|].
  apply reassemble_pieces; [done| | |by rewrite Hc].
  - intros E. rewrite E in Hc. apply (f_equal length) in Hc. unfold framed in Hc. rewrite length_app, length_be_bytes in Hc. done.
  - eapply Forall_impl; [exact Hf|]. by intros p [_ Hp].
Qed.

(** ** Phones do not disturb each other *)

Definition known_id (c : Core) (d : str) : str := default (make_id (seed c) d) (ids c !! d).

Lemma id_known c d d' : (id_ c d).2 = known_id c d ∧ known_id (id_ c d).1 d' = known_id c d' ∧
  incoming (id_ c d).1 = incoming c.
Proof.
  unfold id_, known_id. destruct (ids c !! d) as [i|] eqn:E; cbn; [done|]. split; [done|]. split; [|done].
  destruct (decide (d = d')) as [->|]; [by rewrite lookup_insert_eq, E|by rewrite lookup_insert_ne].
Qed.

Definition buffer_of (c : Core) (key : str * Channel) : list N := default [] (incoming c !! key).

(** One write, as its own channel sees it and as the others do. *)
Lemma received_spec c d ch piece :
  let '(c', e) := received c d ch piece in
  (∀ d', known_id c' d' = known_id c d') ∧
  (∀ key, key ≠ (d, ch) → buffer_of c' key = buffer_of c key) ∧
  match add (buffer_of c (d, ch)) piece with
  | (b, Partial) => buffer_of c' (d, ch) = b ∧ e = None
  | (_, Complete m) => buffer_of c' (d, ch) = [] ∧ e = Some (event_frame (known_id c d) ch m)
  | (_, Invalid) => buffer_of c' (d, ch) = [] ∧ e = None
  end.
Proof.
  unfold received. pose proof (id_known c d) as Hid. destruct (id_ c d) as [c1 id] eqn:E1. cbn [fst snd] in Hid.
  set (c2 := match ch with Pair => c1 | Presence => set_present c1 ({[ d ]} ∪ present c1) end).
  assert (∀ d', known_id c2 d' = known_id c d') as Hk by (intros d'; destruct (Hid d') as (_ & <- & _); by destruct ch).
  assert (incoming c2 = incoming c) as Hin by (destruct (Hid d) as (_ & _ & <-); by destruct ch).
  assert (id = known_id c d) as -> by apply (Hid d).
  rewrite Hin. unfold buffer_of. destruct (add (default [] (incoming c !! (d, ch))) piece) as [b [|m|]];
    (split; [exact Hk|]); (split; [intros key Hne; cbn [set_incoming incoming]; rewrite ?Hin|cbn [set_incoming incoming]; rewrite ?Hin]).
  all: rewrite ?lookup_insert_ne, ?lookup_delete_ne, ?lookup_insert_eq, ?lookup_delete_eq by done; done.
Qed.

(** The writes, and the events, of one phone on one channel. *)
Definition writes_of (key : str * Channel) (writes : list (str * Channel * list N)) : list (list N) :=
  omap (λ '(k, piece), if bool_decide (k = key) then Some piece else None) writes.
Definition events_of (key : str * Channel) (events : list (str * Channel * Event)) : list Event :=
  omap (λ '(k, e), if bool_decide (k = key) then Some e else None) events.

Lemma receive_all_solo writes c d ch :
  events_of (d, ch) (receive_all c writes).2 =
    event_frame (known_id c d) ch <$> reassemble (buffer_of c (d, ch)) (writes_of (d, ch) writes).
Proof.
  revert c. induction writes as [|[[d' ch'] piece] writes IH]; intros c; [done|]. cbn [receive_all].
  pose proof (received_spec c d' ch' piece) as Hr. destruct (received c d' ch' piece) as [c1 e].
  destruct Hr as (Hk & Hothers & Hown). specialize (IH c1). destruct (receive_all c1 writes) as [c2 events].
  cbn [snd] in *. rewrite Hk in IH. unfold writes_of, events_of in *. cbn [omap list_omap].
  destruct (bool_decide_reflect ((d', ch') = (d, ch))) as [E|Hne].
  - injection E as -> ->. cbn [reassemble].
    destruct (add (buffer_of c (d, ch)) piece) as [b [|m|]]; destruct Hown as [Hb ->]; rewrite Hb in IH.
    + exact IH.
    + cbn [omap list_omap]. rewrite bool_decide_true by done. rewrite fmap_cons. by f_equal.
    + exact IH.
  - rewrite Hothers in IH by congruence. destruct e as [e|]; [|exact IH].
    cbn [omap list_omap]. by rewrite bool_decide_false by done.
Qed.

Lemma reassemble_messages messages :
  Forall (λ '(m, _), lenN m ≤ MAX_MESSAGE) messages →
  reassemble [] (messages ≫= λ '(m, size), message_chunks m size) = messages.*1.
Proof.
  induction 1 as [|[m size] messages Hm Hf IH]; [done|]. cbn [fmap list_fmap fst].
  rewrite bind_cons. rewrite reassemble_message by done. by f_equal.
Qed.

(** However the writes of any number of phones on both channels
    interleave, and whatever chunk sizes their links use, Sheprd hears exactly
    the messages each phone sent on each channel, whole, in order and under that
    phone's own id, even while other phones send nonsense. *)
Theorem nearby_delivers (c : Core) (d : str) (ch : Channel) (messages : list (list N * N))
    (writes : list (str * Channel * list N)) :
  incoming c !! (d, ch) = None → Forall (λ '(m, _), lenN m ≤ MAX_MESSAGE) messages →
  writes_of (d, ch) writes = (messages ≫= λ '(m, size), message_chunks m size) →
  events_of (d, ch) (receive_all c writes).2 = event_frame (known_id c d) ch <$> messages.*1.
Proof.
  intros Hin Hm Hw. rewrite receive_all_solo, Hw. unfold buffer_of. rewrite Hin. cbn [default from_option].
  by rewrite reassemble_messages.
Qed.
End core.

(** ** Lines *)

(** A line of the whole input: what comes before the first newline, when it is
    not too long, and what comes after it. *)
Definition spec_line (bytes : list N) : bool * list N * list N :=
  match newline_at bytes with
  | Some i =>
      let line := take (S i) bytes in
      (true, if MAX_LINE + 1 <? lenN line then [] else line, drop (S i) bytes)
  | None => (negb (bool_decide (bytes = [])), if MAX_LINE + 1 <? lenN bytes then [] else bytes, [])
  end.

Lemma newline_app a b :
  newline_at (a ++ b) = match newline_at a with Some i => Some i | None => (λ i, (length a + i)%nat) <$> newline_at b end.
Proof.
  induction a as [|x a IH]; cbn; [by destruct (newline_at b)|]. destruct (x =? NEWLINE); [done|]. rewrite IH.
  destruct (newline_at a); [done|]. by destruct (newline_at b).
Qed.

Lemma newline_lt a i : newline_at a = Some i → (i < length a)%nat.
Proof.
  revert i. induction a as [|x a IH]; intros i; cbn; [done|]. destruct (x =? NEWLINE); [intros [= <-]; lia|].
  destruct (newline_at a) as [j|]; [|done]. intros [= <-]. specialize (IH j eq_refl). lia.
Qed.

(** The loop, with [before] the bytes of this line it has consumed. *)
Lemma read_line_from_spec before line overlong reads :
  newline_at before = None → Forall (λ r, r ≠ []) reads →
  overlong = (MAX_LINE + 1 <? lenN before) → line = (if overlong then [] else before) →
  let '(more, line', rest) := read_line_from line overlong reads in
  (more, line', concat rest) = spec_line (before ++ concat reads).
Proof.
  revert before line overlong. induction reads as [|r reads IH]; intros before line overlong Hb Hf Ho Hl; cbn [read_line_from concat].
  { rewrite app_nil_r. unfold spec_line. rewrite Hb. subst line. rewrite <-Ho. destruct overlong; [|by rewrite orb_false_r].
    destruct before; [done|]. by rewrite orb_true_r. }
  apply Forall_cons in Hf as [Hr Hf]. rewrite bool_decide_false by done.
  assert (∀ k, let '(line1, overlong1) := extend line overlong (take k r) in
    overlong1 = (MAX_LINE + 1 <? lenN (before ++ take k r)) ∧ line1 = if overlong1 then [] else before ++ take k r) as Hstep.
  { intros k. subst line. unfold extend. destruct overlong.
    - split; [|done]. symmetry in Ho |- *. apply N.ltb_lt in Ho. apply N.ltb_lt. unfold lenN in *. rewrite length_app. lia.
    - by destruct (MAX_LINE + 1 <? lenN (before ++ take k r)). }
  destruct (newline_at r) as [i|] eqn:Ei; cbn [fst snd].
  - specialize (Hstep (S i)). destruct (extend line overlong (take (S i) r)) as [line1 over1]. destruct Hstep as [Ho1 Hl1].
    pose proof (newline_lt r i Ei) as Hi.
    assert (newline_at (before ++ r ++ concat reads) = Some (length before + i)%nat) as Hnl
      by (rewrite newline_app, Hb, newline_app, Ei; done).
    unfold spec_line. rewrite Hnl. replace (S (length before + i)) with (length before + S i)%nat by lia.
    rewrite take_app_add, drop_app_add. rewrite (take_app_le r) by lia. rewrite (drop_app_le r) by lia.
    rewrite <-Ho1. subst line1. by destruct over1, (bool_decide_reflect (drop (S i) r = [])) as [->|].
  - specialize (Hstep (length r)). rewrite (take_ge r) in Hstep by done. rewrite (take_ge r) by done.
    destruct (extend line overlong r) as [line1 over1]. destruct Hstep as [Ho1 Hl1].
    rewrite app_assoc. apply IH; [by rewrite newline_app, Hb, Ei|done..].
Qed.

(** A line from Sheprd does not depend on how the pipe hands it over:
    it is everything up to the first newline (or the end), empty when it is over
    the limit, and the next line starts right after it. *)
Theorem read_line_correct (reads : list (list N)) :
  Forall (λ r, r ≠ []) reads →
  let '(more, line, rest) := read_line reads in (more, line, concat rest) = spec_line (concat reads).
Proof. intros Hf. by apply (read_line_from_spec []). Qed.

Lemma read_line_correct_witness :
  let '(more, line, rest) := read_line [[104]; [105; 10; 120]] in (more, line, concat rest) = spec_line [104; 105; 10; 120].
Proof. apply (read_line_correct [[104]; [105; 10; 120]]). by repeat constructor. Defined.

(** ** A witness *)

Definition plain_outside : NearbyOutside :=
  {| line_json := λ _, None; std_encode := λ bs, bs; std_decode := Some; hashes := λ _ d, (le_val d, 0) |}.

(** Two phones at once: one message in three writes, an overlong frame from the
    other in between. *)
Definition two_phones : list (str * Channel * list N) :=
  let m := message_chunks (replicate 45 7) 20 in
  match m with
  | [a; b; c] => [(lit "a", Pair, a); (lit "b", Pair, [255; 255; 1]); (lit "a", Pair, b); (lit "a", Pair, c)]
  | _ => []
  end.

Lemma nearby_delivers_witness :
  events_of (lit "a", Pair) (receive_all (H := plain_outside) (core_new 0) two_phones).2 =
    [event_frame (H := plain_outside) (known_id (H := plain_outside) (core_new 0) (lit "a")) Pair (replicate 45 7)].
Proof.
  apply (nearby_delivers (H := plain_outside) (core_new 0) (lit "a") Pair [(replicate 45 7, 20)] two_phones);
    [reflexivity|by repeat constructor|by vm_compute].
Defined.
End Nearby.
