(* ===== verification/Display.v ===== *)
(** * Display: numbers as short text
    (crates/sheprd-chat-protocol/src/display.rs)

    Durations, token counts, costs and how a turn ended. [f64] is IEEE binary64
    as the Standard Library's [SpecFloat] computes it; a fixed number of decimals
    is the exact value rounded to them, halves to even. *)

From Stdlib Require Import NArith ZArith Lia Floats.SpecFloat.
From stdpp Require Import base option strings list.
From S2P Require Import Prelude Transcript.

Local Open Scope N_scope.

Module Display.

(** *** f64 *)

Definition f64 : Type := spec_float.
Definition f64_of (n : N) : f64 := binary_normalize 53 1024 (Z.of_N n) 0 false.
Definition f64_div : f64 → f64 → f64 := SFdiv 53 1024.
Definition f64_ltb : f64 → f64 → bool := SFltb.

(** [n / d] to the nearest integer, halves to even. *)
Definition round_even (n d : N) : N :=
  let q := n / d in
  let r := n mod d in
  match 2 * r ?= d with
  | Lt => q
  | Gt => q + 1
  | Eq => if N.even q then q else q + 1
  end.

(** A number of decimals, most significant first, with leading zeros. *)
Fixpoint decimals (k : nat) (n : N) : str :=
  match k with
  | O => []
  | S k => decimals k (n / 10) ++ [48 + n mod 10]
  end.

(** [format!("{:.k$}")] of a number that is not negative. *)
Definition fixed (k : nat) (a : f64) : str :=
  let scaled :=
    match a with
    | S754_finite _ m e =>
        let n := Npos m * 10 ^ N.of_nat k in
        match e with
        | Z0 => n
        | Zpos e => n * 2 ^ Npos e
        | Zneg e => round_even n (2 ^ Npos e)
        end
    | _ => 0
    end in
  dec (scaled / 10 ^ N.of_nat k) ++ (if (k =? 0)%nat then [] else 46 :: decimals k scaled).

(** [str::strip_suffix] of the tests below. *)
Definition strip_suffix (suffix s : str) : option str :=
  let n := (length s - length suffix)%nat in
  if bool_decide (drop n s = suffix) then Some (take n s) else None.

(** *** The texts *)

Definition DOT : str := [32; 183; 32].

Definition duration (ms : N) : str :=
  let seconds := ms / 1000 in
  if seconds =? 0 then dec ms ++ lit "ms"
  else if seconds <? 60 then dec seconds ++ lit "s"
  else if seconds <? 3600 then dec (seconds / 60) ++ lit "m " ++ dec (seconds mod 60) ++ lit "s"
  else dec (seconds / 3600) ++ lit "h " ++ dec (seconds mod 3600 / 60) ++ lit "m".

Definition trim_zero (number : str) : str := default number (strip_suffix (lit ".0") number).

Definition tokens (count : N) : str :=
  if count <? 1000 then dec count
  else if count <? 1000000 then trim_zero (fixed 1 (f64_div (f64_of count) (f64_of 1000))) ++ lit "k"
  else trim_zero (fixed 1 (f64_div (f64_of count) (f64_of 1000000))) ++ lit "M".

Definition cost (c : Transcript.Cost) : str :=
  let amount := f64_div (f64_of (Transcript.micros c)) (f64_of 1000000) in
  let digits := if f64_ltb amount (f64_div (f64_of 1) (f64_of 100)) && (0 <? Transcript.micros c) then 4%nat else 2%nat in
  let currency := Transcript.currency c in
  if bool_decide (currency ∈ [lit "USD"; lit "usd"; []]) then lit "$" ++ fixed digits amount
  else fixed digits amount ++ [32] ++ currency.

(** [TurnSummary::describe]. *)
Definition describe (s : Transcript.TurnSummary) : str :=
  let verb :=
    match Transcript.turn_end s with
    | Transcript.Done => lit "Worked"
    | Transcript.Cancelled => lit "Cancelled after"
    | Transcript.EndLimit => lit "Stopped at its limit after"
    | Transcript.EndRefused => lit "Refused after"
    | Transcript.EndFailed => lit "Failed after"
    | Transcript.EndOther => lit "Ended after"
    end in
  verb ++ [32] ++ duration (Transcript.duration_ms s) ++
  match Transcript.tokens s with
  | None => []
  | Some t =>
      DOT ++ tokens (Transcript.input t) ++ lit " in" ++ DOT ++ tokens (Transcript.output t) ++ lit " out" ++
      (if 0 <? Transcript.thought t then DOT ++ tokens (Transcript.thought t) ++ lit " thinking" else [])
  end.

Example duration_examples :
  duration 950 = lit "950ms" ∧ duration 12000 = lit "12s" ∧ duration 184000 = lit "3m 4s" ∧ duration 3720000 = lit "1h 2m".
Proof. done. Qed.

Example tokens_examples :
  tokens 950 = lit "950" ∧ tokens 18600 = lit "18.6k" ∧ tokens 1200000 = lit "1.2M" ∧ tokens 5000 = lit "5k".
Proof. by vm_compute. Qed.

Example cost_examples :
  cost (Transcript.MkCost (lit "USD") 420000) = lit "$0.42" ∧ cost (Transcript.MkCost (lit "EUR") 420000) = lit "0.42 EUR" ∧
  cost (Transcript.MkCost [] 1234) = lit "$0.0012".
Proof. by vm_compute. Qed.

(** Just under a million, the count is shown as a thousand thousands. *)
Lemma tokens_seam : tokens 999950 = lit "1000k" ∧ tokens 1000000 = lit "1M".
Proof. by vm_compute. Qed.
End Display.
