(* ===== verification/Alerts.v ===== *)
(** * Alerts: what a phone is told about a chat, and how often
    (crates/sheprd-remote-control/src/push/triggers.rs, push/throttle.rs,
    push/presence.rs, apns/alert.rs)

    A change of a transcript becomes a notification or none; each device has a
    budget of them and a place where they wait while their owner is at the
    computer; a notification for the native app is shortened until it fits. *)

From Stdlib Require Import NArith Lia Sorting.Sorted.
From stdpp Require Import base option gmap strings sets list.
From S2P Require Import Prelude Transcript Display Relay Devices.

Local Open Scope N_scope.

Module Alerts.

(** ** Excerpts (triggers.rs) *)

Definition EXCERPT_CHARS : nat := 120.
Definition ELLIPSIS : N := 8230.

(** [str::split_whitespace]. *)
Definition split_whitespace (text : str) : list str := filter (λ w, w ≠ []) (split_on is_whitespace text).

(** [str::trim_end]. *)
Definition trim_end (s : str) : str := reverse (trim_start (reverse s)).

Definition excerpt (text : str) : str :=
  let line := join [32] (split_whitespace text) in
  if (length line <=? EXCERPT_CHARS)%nat then line
  else trim_end (take (EXCERPT_CHARS - 1) line) ++ [ELLIPSIS].

(** ** Notifications (triggers.rs) *)

Record Chat := MkChat { chat_agent : str; chat_pane : str; chat_title : str; chat_workspace : str }.
Inductive Privacy := Generic | Excerpt.
Inductive Kind := Kind_Error | Kind_Question | Kind_TurnEnded.
(** [push::send::Urgency]. *)
Inductive Urgency := Normal | High.

#[export] Instance Privacy_eq_dec : EqDecision Privacy.
Proof. solve_decision. Defined.
#[export] Instance Kind_eq_dec : EqDecision Kind.
Proof. solve_decision. Defined.

Record Notification := MkNotification {
  body_of : str; clear : bool; n_kind : Kind; n_pane : str; n_permission : option Transcript.Permission; tag : str;
  n_title : str; urgency : Urgency }.

(** [tag]. *)
Definition tag_for (pane : str) : str := lit "chat-" ++ pane.

(** [Notification::new]. *)
Definition notification_new (chat : Chat) (kind : Kind) (title body : str) : Notification :=
  MkNotification body false kind (chat_pane chat) None (tag_for (chat_pane chat)) title
    (if bool_decide (kind = Kind_Question) then High else Normal).

(** [Notification::cleared] and [badge]. *)
Definition cleared_for (pane : str) : Notification :=
  MkNotification [] true Kind_Question pane None (tag_for pane) [] High.
Definition badge : Notification := cleared_for [].

Definition with_permission (n : Notification) (p : Transcript.Permission) : Notification :=
  MkNotification (body_of n) (clear n) (n_kind n) (n_pane n) (Some p) (tag n) (n_title n) (urgency n).

(** [path_segment]. *)
Definition hex_upper (n : N) : N := if n <? 10 then 48 + n else 55 + n.
Definition unreserved (b : N) : bool := is_ascii_alphanumeric b || bool_decide (b ∈ lit "-._~").
Definition path_segment (text : str) : str :=
  as_bytes text ≫= λ byte, if unreserved byte then [byte] else [37; hex_upper (byte / 16); hex_upper (byte mod 16)].

(** [push::Message] and [Notification::message]. *)
Record Message := MkMessage {
  m_badge : N; m_body : str; m_clear : bool; m_kind : Kind; m_tag : str; m_title : str; m_url : str }.
Definition message (n : Notification) (badge : N) : Message :=
  MkMessage badge (body_of n) (clear n) (n_kind n) (tag n) (n_title n) (lit "/chat/" ++ path_segment (n_pane n)).

(** [body]: the lines that there are. *)
Definition body (chat : Chat) (excerpt facts : option str) : str :=
  let place :=
    if bool_decide (chat_title chat = []) then chat_workspace chat
    else chat_workspace chat ++ Display.DOT ++ chat_title chat in
  join [10] (omap id [excerpt; Some place; facts]).

Definition when_excerpt {A} (privacy : Privacy) (x : A) : option A :=
  if bool_decide (privacy = Excerpt) then Some x else None.

(** [last_answer]. *)
Definition last_answer (t : Transcript.Transcript) : option str :=
  head (omap (λ e, match Transcript.kind e with
                   | Transcript.Agent text => if bool_decide (trim text = []) then None else Some text
                   | _ => None
                   end) (reverse (Transcript.entries t))).

(** [turn_ended]. *)
Definition turn_ended (chat : Chat) (before : Transcript.Transcript) (summary : Transcript.TurnSummary) (privacy : Privacy)
    : option Notification :=
  match Transcript.turn_end summary with
  | Transcript.Cancelled => None
  | _ =>
      let facts := Display.describe summary in
      let answer := excerpt <$> (when_excerpt privacy tt ≫= λ _, last_answer before) in
      Some (notification_new chat Kind_TurnEnded (chat_agent chat ++ lit " finished") (body chat answer (Some facts)))
  end.

(** Two statuses compared. *)
#[export] Instance Status_eq_dec : EqDecision Transcript.Status.
Proof. solve_decision. Defined.

(** [decide]. *)
Definition decide (chat : Chat) (before : Transcript.Transcript) (change : Transcript.Change) (privacy : Privacy)
    : option Notification :=
  let excerpt text := excerpt <$> when_excerpt privacy text in
  match change with
  | Transcript.PermissionAsked permission =>
      if Transcript.auto_accept before then None
      else
        Some (with_permission
                (notification_new chat Kind_Question (chat_agent chat ++ lit " needs an answer")
                   (body chat (excerpt (Transcript.permission_title permission)) None)) permission)
  | Transcript.PermissionResolved id =>
      match Transcript.permissions before with
      | [only] => if Transcript.permission_id only =? id then Some (cleared_for (chat_pane chat)) else None
      | _ => None
      end
  | Transcript.Push entry =>
      match Transcript.kind entry with
      | Transcript.TurnEntry summary => turn_ended chat before summary privacy
      | Transcript.Notice _ _ Transcript.ErrorLevel text =>
          Some (notification_new chat Kind_Error (chat_agent chat ++ lit " hit an error") (body chat (excerpt text) None))
      | _ => None
      end
  | Transcript.SetStatus status =>
      if bool_decide (status = Transcript.status before) then None
      else
        '(title, message) ←
          match status with
          | Transcript.Status_Failed message => Some (chat_agent chat ++ lit " failed", message)
          | Transcript.Exited message =>
              if Transcript.is_blocked before then Some (chat_agent chat ++ lit " stopped while asking", message) else None
          | _ => None
          end;
        Some (notification_new chat Kind_Error title (body chat (excerpt message) None))
  | _ => None
  end.

(** ** The budget of a device (throttle.rs) *)

Definition CHAT_INTERVAL_MS : N := 5000.
Definition HOUR_MS : N := 60 * 60 * 1000.
Definition MAX_PER_HOUR : nat := 30.
Definition MAX_CLEARS_PER_HOUR : nat := 60.

Record Recent := MkRecent { last_ms : N; pending : option Notification }.

Record Throttle := MkThrottle { chats : gmap (list N) Recent; cleared : list N; sent : list N }.

Definition throttle_default : Throttle := MkThrottle ∅ [] [].

(** The loop of [Throttle::forget] over one cap. *)
Fixpoint expire (now_ms : N) (times : list N) : list N :=
  match times with
  | [] => []
  | t :: rest => if HOUR_MS <=? now_ms - t then expire now_ms rest else times
  end.

(** [Throttle::prune]. *)
Definition prune (th : Throttle) (now_ms : N) : Throttle :=
  MkThrottle (filter (λ '(_, r), is_Some (pending r) ∨ now_ms - last_ms r < CHAT_INTERVAL_MS) (chats th))
    (cleared th) (sent th).

(** [Throttle::forget]. *)
Definition forget (th : Throttle) (now_ms : N) : Throttle :=
  prune (MkThrottle (chats th) (expire now_ms (cleared th)) (expire now_ms (sent th))) now_ms.

(** [Throttle::admit]. *)
Definition throttle_admit (th : Throttle) (n : Notification) (now_ms : N) : Throttle * option Notification :=
  let times := if clear n then cleared th else sent th in
  let cap := if clear n then MAX_CLEARS_PER_HOUR else MAX_PER_HOUR in
  if (cap <=? length times)%nat then (th, None)
  else
    let chats := <[tag n := MkRecent now_ms None]> (chats th) in
    (if clear n then MkThrottle chats (cleared th ++ [now_ms]) (sent th)
     else MkThrottle chats (cleared th) (sent th ++ [now_ms]), Some n).

Definition urgent (n : Notification) : bool := clear n || bool_decide (n_kind n = Kind_Question).

(** [Throttle::offer]. *)
Definition offer (th : Throttle) (n : Notification) (now_ms : N) : Throttle * option Notification :=
  let th := forget th now_ms in
  match chats th !! tag n with
  | Some recent =>
      if negb (urgent n) && (now_ms - last_ms recent <? CHAT_INTERVAL_MS)
      then (MkThrottle (<[tag n := MkRecent (last_ms recent) (Some n)]> (chats th)) (cleared th) (sent th), None)
      else throttle_admit th n now_ms
  | None => throttle_admit th n now_ms
  end.

(** The pass of [Throttle::due] over what is ready. *)
Definition throttle_admit_all (th : Throttle) (ns : list Notification) (now_ms : N) : Throttle * list Notification :=
  foldl (λ '(th, out) n, let '(th, r) := throttle_admit th n now_ms in (th, out ++ option_list r)) (th, []) ns.

Definition ended (now_ms : N) (r : Recent) : bool := CHAT_INTERVAL_MS <=? now_ms - last_ms r.

Section due.
Context {order : IterOrder (list N) Recent}.

(** [Throttle::due]; what is held comes in the order the map iterates. *)
Definition due (th : Throttle) (now_ms : N) : Throttle * list Notification :=
  let th := forget th now_ms in
  let ready := omap (λ '(_, r), if ended now_ms r then pending r else None) (iter (chats th)) in
  let th :=
    MkThrottle ((λ r, if ended now_ms r then MkRecent (last_ms r) None else r) <$> chats th) (cleared th) (sent th) in
  let '(th, out) := throttle_admit_all th ready now_ms in
  (prune th now_ms, out).
End due.

(** ** Alerts held while their owner is near (presence.rs) *)

Definition NEAR_TTL_MS : N := 120000.
Definition MAX_HELD : nat := 32.

Abbreviation Near := (gmap (list N) N) (only parsing).

(** [Near::set], [is_near], [forget]. *)
Definition near_set (m : Near) (device : list N) (near : bool) (now_ms : N) : Near :=
  if near then <[device := saturating_add u64_max now_ms NEAR_TTL_MS]> m else delete device m.
Definition is_near (m : Near) (device : list N) (now_ms : N) : bool :=
  match m !! device with Some until => now_ms <? until | None => false end.
Definition near_forget (m : Near) (now_ms : N) : Near := filter (λ '(_, until), now_ms < until) m.

Abbreviation Hold := (list Notification) (only parsing).

(** [Hold::hold]. *)
Definition hold (h : Hold) (n : Notification) : Hold * option Notification :=
  let h := filter (λ held, tag held ≠ tag n) h in
  if clear n then (h, Some n)
  else
    let h := h ++ [n] in
    (drop (length h - MAX_HELD) h, None).

(** [Hold::release]. *)
Definition release (h : Hold) : Hold * list Notification := ([], h).

(** ** Sealed alerts for the native app (alert.rs) *)

Definition VERSION : N := 1.
Definition MAX_OPTIONS : nat := 4.
Definition MAX_COLLAPSE_ID : N := 64.

Record SealedPermission := MkSealedPermission { sp_id : N; sp_options : list Transcript.PermissionOption }.
Record Sealed := MkSealed {
  sealed_v : N; sealed_kind : Kind; sealed_clear : bool; sealed_computer : str; sealed_pane : str; sealed_title : str;
  sealed_body : str; sealed_badge : N; sealed_permission : option SealedPermission }.

(** [Sealed::new]. *)
Definition sealed_new (n : Notification) (computer : str) (badge : N) : Sealed :=
  MkSealed VERSION (n_kind n) (clear n) computer (n_pane n) (n_title n) (body_of n) badge
    ((λ p, MkSealedPermission (Transcript.permission_id p) (take MAX_OPTIONS (Transcript.permission_options p)))
       <$> n_permission n).

Definition with_body (s : Sealed) (b : str) : Sealed :=
  MkSealed (sealed_v s) (sealed_kind s) (sealed_clear s) (sealed_computer s) (sealed_pane s) (sealed_title s) b
    (sealed_badge s) (sealed_permission s).

(** [shorten]. *)
Definition shorten (text : str) (drop : N) : str :=
  let base := default text (Display.strip_suffix [ELLIPSIS] text) in
  if str_len base <? drop + len_utf8 ELLIPSIS then []
  else
    match byte_prefix (str_len base - (drop + len_utf8 ELLIPSIS)) base with
    | [] => []
    | cut => cut ++ [ELLIPSIS]
    end.

(** [collapse_id]. *)
Definition collapse_id (tag : str) : str := byte_prefix (N.min (str_len tag) MAX_COLLAPSE_ID) tag.

Inductive ApnsError := Json | Apns | PayloadTooLarge (len : N).

(** [Aps] and [Cover]. *)
Record Aps := MkAps {
  alert : option (str * str); mutable_content : option N; content_available : option N; thread_id : option str;
  interruption_level : option str; sound : option str }.

Definition aps_for (s : Sealed) : Aps :=
  if sealed_clear s then MkAps None None (Some 1) None None None
  else
    MkAps (Some (lit "Sheprd", lit "New activity")) (Some 1) None (Some (sealed_pane s))
      (Some (if bool_decide (sealed_kind s = Kind_Question) then lit "time-sensitive" else lit "active"))
      (Some (lit "default")).

(** serde's JSON of what is sealed and of what is around it. *)
Class AlertJson := {
  sealed_json : Sealed → option (list N);
  outer_json : Aps → str → option (list N);
}.

Section alert.
Context `{Devices.Primitives} `{AlertJson}.
(** [seal]: the HPKE of the device's key. *)
Variable seal : list N → res ApnsError (list N).

(** [outer]. *)
Definition outer (s : Sealed) : res ApnsError (list N) :=
  plaintext ← ok_or Json (sealed_json s);
  sealed ← seal plaintext;
  ok_or Json (outer_json (aps_for s) (Devices.url_encode sealed)).

Definition div_ceil (a b : N) : N := (a + b - 1) / b.

(** The loop of [push]: [None] when the fuel runs out. *)
Fixpoint push_loop (fuel : nat) (s : Sealed) (tag : str) : option (res ApnsError Relay.Push) :=
  match fuel with
  | O => None
  | S fuel =>
      match outer s with
      | Err e => Some (Err e)
      | Ok body =>
          if lenN body <=? Relay.MAX_PAYLOAD then
            let question := bool_decide (sealed_kind s = Kind_Question) && negb (sealed_clear s) in
            Some (Ok (Relay.MkPush body (Some (collapse_id tag)) (if question then Relay.High else Relay.Low)
                        (if sealed_clear s then Relay.Push_Background else Relay.Push_Alert)))
          else if bool_decide (sealed_body s = []) then Some (Err (PayloadTooLarge (lenN body)))
          else
            let excess := div_ceil (lenN body - Relay.MAX_PAYLOAD) 4 * 3 in
            push_loop fuel (with_body s (shorten (sealed_body s) excess)) tag
      end
  end.

(** [push]: at most one round for each byte of the body. *)
Definition push (s : Sealed) (tag : str) : option (res ApnsError Relay.Push) :=
  push_loop (S (N.to_nat (str_len (sealed_body s)))) s tag.

(** *** Shortening *)

Lemma suffix_stripped suffix s r : Display.strip_suffix suffix s = Some r → s = r ++ suffix.
Proof.
  unfold Display.strip_suffix. case_bool_decide as E; [|done]. intros [= <-].
  rewrite <-E at 2. by rewrite take_drop.
Qed.

Lemma shorten_len text drop : text ≠ [] → 0 < drop → str_len (shorten text drop) < str_len text.
Proof.
  intros Ht Hd. assert (0 < str_len text) as Hpos.
  { destruct text as [|c text]; [done|]. rewrite str_len_cons. pose proof (len_utf8_pos c). lia. }
  unfold shorten. set (base := default text _).
  assert (str_len base ≤ str_len text) as Hb.
  { unfold base. destruct (Display.strip_suffix _ text) as [r|] eqn:E; cbn; [|lia].
    apply suffix_stripped in E as ->. rewrite str_len_app. lia. }
  destruct (N.ltb_spec (str_len base) (drop + len_utf8 ELLIPSIS)) as [_|Hle]; [exact Hpos|].
  pose proof (byte_prefix_len (str_len base - (drop + len_utf8 ELLIPSIS)) base) as Hp.
  destruct (byte_prefix _ base) as [|c cut]; [exact Hpos|]. rewrite str_len_app.
  change (str_len [ELLIPSIS]) with 3. change (len_utf8 ELLIPSIS) with 3 in *. lia.
Qed.

(** A text without the ellipsis of an earlier cut. *)
Definition uncut (text : str) : str := default text (Display.strip_suffix [ELLIPSIS] text).

(** A text with [d] bytes and the room of an ellipsis taken off its end, and no more
    than a character besides. *)
Definition cut_by (d : N) (text text' : str) : Prop :=
  (∃ kept, kept ≠ [] ∧ text' = kept ++ [ELLIPSIS] ∧ kept `prefix_of` uncut text ∧
     str_len kept + d + 3 ≤ str_len (uncut text) ∧ str_len (uncut text) < str_len kept + d + 3 + 4)
  ∨ text' = [] ∧ str_len (uncut text) < d + 3 + 4.

Lemma len_utf8_max c : len_utf8 c ≤ 4.
Proof. unfold len_utf8. repeat case_match; lia. Qed.

Lemma byte_prefix_tight n s : n < str_len s → n < str_len (byte_prefix n s) + 4.
Proof.
  intros Hn. destruct (byte_prefix_prefix n s) as [[|c t] E].
  - rewrite app_nil_r in E. pose proof (byte_prefix_len n s) as Hl. rewrite <-E in Hl. lia.
  - pose proof (byte_prefix_max n s c t E). pose proof (len_utf8_max c). lia.
Qed.

Lemma shorten_cut text d : cut_by d text (shorten text d).
Proof.
  unfold shorten. fold (uncut text). unfold cut_by. change (len_utf8 ELLIPSIS) with 3.
  destruct (N.ltb_spec (str_len (uncut text)) (d + 3)) as [Hlt|Hge]; [right; split; [done|lia]|].
  set (n := str_len (uncut text) - (d + 3)).
  pose proof (byte_prefix_len n (uncut text)) as Hl. pose proof (byte_prefix_tight n (uncut text) ltac:(lia)) as Ht.
  pose proof (byte_prefix_prefix n (uncut text)) as Hp.
  destruct (byte_prefix n (uncut text)) as [|c cut]; [right; split; [done|change (str_len []) with 0 in Ht; lia]|].
  left. exists (c :: cut). split_and!; [done|done|done|lia|lia].
Qed.

Lemma uncut_prefix text : uncut text `prefix_of` text.
Proof.
  unfold uncut. destruct (Display.strip_suffix _ text) as [r|] eqn:E; [|done]. apply suffix_stripped in E as ->. by apply prefix_app_r.
Qed.

Lemma uncut_ellipsis kept : uncut (kept ++ [ELLIPSIS]) = kept.
Proof.
  unfold uncut, Display.strip_suffix. cbn zeta. rewrite length_app, Nat.add_sub, drop_app_length, bool_decide_eq_true_2 by done.
  cbn. by rewrite take_app_length.
Qed.

(** A round of [push] on an alert that is too large: its body, and nothing else of
    it, loses three bytes for each four it is over, rounded up. *)
Definition cut_round (s s' : Sealed) : Prop :=
  ∃ b, outer s = Ok b ∧ Relay.MAX_PAYLOAD < lenN b ∧ sealed_body s ≠ [] ∧ s' = with_body s (sealed_body s') ∧
    cut_by (div_ceil (lenN b - Relay.MAX_PAYLOAD) 4 * 3) (sealed_body s) (sealed_body s').

(** The body as it was, its beginning and an ellipsis, or nothing. *)
Definition begins (body body' : str) : Prop :=
  body' = body ∨ (∃ kept, kept `prefix_of` body ∧ body' = kept ++ [ELLIPSIS]) ∨ body' = [].

Lemma begins_cut body body' d text : begins body body' → cut_by d body' text → begins body text.
Proof.
  intros Hb [(kept & _ & -> & Hp & _)|[-> _]]; [|by right; right]. right. left. exists kept. split; [|done].
  destruct Hb as [->|[(k & Hk & ->)| ->]].
  - etrans; [exact Hp|apply uncut_prefix].
  - rewrite uncut_ellipsis in Hp. by etrans.
  - etrans; [exact Hp|]. etrans; [apply uncut_prefix|]. apply prefix_nil.
Qed.

Lemma cut_rounds s s' : rtc cut_round s s' → s' = with_body s (sealed_body s') ∧ begins (sealed_body s) (sealed_body s').
Proof.
  revert s'. apply (rtc_ind_r (λ s', s' = with_body s (sealed_body s') ∧ begins (sealed_body s) (sealed_body s'))).
  - split; [by destruct s|by left].
  - intros s1 s2 _ (b & _ & _ & _ & E2 & Hc) [E1 Hb]. split; [|by eapply begins_cut].
    rewrite E2, E1. done.
Qed.

Lemma push_loop_spec fuel s tag :
  (N.to_nat (str_len (sealed_body s)) < fuel)%nat →
  ∃ s', rtc cut_round s s' ∧
    match push_loop fuel s tag with
    | None => False
    | Some (Ok p) => outer s' = Ok (Relay.body p) ∧ lenN (Relay.body p) ≤ Relay.MAX_PAYLOAD ∧ Relay.collapse_id p = Some (collapse_id tag)
    | Some (Err (PayloadTooLarge n)) =>
        (∃ b, outer s' = Ok b ∧ lenN b = n ∧ Relay.MAX_PAYLOAD < n ∧ sealed_body s' = []) ∨ outer s' = Err (PayloadTooLarge n)
    | Some (Err e) => outer s' = Err e
    end.
Proof.
  revert s. induction fuel as [|fuel IH]; intros s Hf; [lia|]. cbn [push_loop].
  destruct (outer s) as [b|e] eqn:Eo; [|exists s; split; [done|]; destruct e; auto].
  destruct (N.leb_spec (lenN b) Relay.MAX_PAYLOAD) as [Hle|Hgt]; [by exists s|].
  case_bool_decide as Eb; [exists s; split; [done|]; left; by exists b|].
  destruct (IH (with_body s (shorten (sealed_body s) (div_ceil (lenN b - Relay.MAX_PAYLOAD) 4 * 3)))) as (s' & Hs & Hr).
  { cbn [sealed_body with_body].
    assert (0 < div_ceil (lenN b - Relay.MAX_PAYLOAD) 4 * 3) as Hd by (unfold div_ceil; dlia).
    pose proof (shorten_len _ _ Eb Hd). lia. }
  exists s'. split; [|done]. eapply rtc_l; [|exact Hs]. exists b. split_and!; [done..|apply shorten_cut].
Qed.

(** C34: shortening a sealed alert ends: whatever the sealing and the JSON around it make of the body, [push]
    returns. What it returns fits the four kilobytes APNs takes, has a collapse id of at most 64 bytes, and carries the
    alert with everything but its body as it was, and the body whole, or its beginning with an ellipsis, or empty. The
    body is cut in rounds, each of an alert that was still too large, by three bytes for each four it is over and at
    most a character more; the alert is refused as too large only once nothing of the body is left. *)
Theorem push_returns (s : Sealed) (tag : str) :
  ∃ r s', push s tag = Some r ∧ rtc cut_round s s' ∧
    s' = with_body s (sealed_body s') ∧ begins (sealed_body s) (sealed_body s') ∧
    match r with
    | Ok p =>
        outer s' = Ok (Relay.body p) ∧ lenN (Relay.body p) ≤ Relay.MAX_PAYLOAD ∧
        ∃ id, Relay.collapse_id p = Some id ∧ id `prefix_of` tag ∧ str_len id ≤ MAX_COLLAPSE_ID
    | Err e =>
        outer s' = Err e ∨
        sealed_body s' = [] ∧ ∃ b, outer s' = Ok b ∧ Relay.MAX_PAYLOAD < lenN b ∧ e = PayloadTooLarge (lenN b)
    end.
Proof.
  destruct (push_loop_spec (S (N.to_nat (str_len (sealed_body s)))) s tag) as (s' & Hs & Hr); [lia|].
  destruct (cut_rounds s s' Hs) as [E Hb]. unfold push. destruct (push_loop _ s tag) as [[p|e]|]; [| |done].
  - destruct Hr as (Ho & Hl & Hc). eexists _, s'. do 4 (split; [done|]). split; [done|]. split; [done|]. exists (collapse_id tag).
    split; [done|]. split; [apply byte_prefix_prefix|]. unfold collapse_id.
    pose proof (byte_prefix_len (N.min (str_len tag) MAX_COLLAPSE_ID) tag). lia.
  - eexists _, s'. do 4 (split; [done|]). destruct e as [| |n]; [by left..|].
    destruct Hr as [(b & Ho & <- & Hl & Hb')|Ho]; [right|by left]. split; [done|]. by exists b.
Qed.
End alert.

(** ** The budget kept

    A run of the throttle with its clock: what it sends and when, the oldest
    first. *)

Abbreviation Trace := (list (N * Notification)) (only parsing).

Inductive ThrottleOp := T_Offer (n : Notification) | T_Due.

Section throttle.
Context {order : IterOrder (list N) Recent}.

Definition throttle_op (th : Throttle) (op : ThrottleOp) (now : N) : Throttle * list Notification :=
  match op with
  | T_Offer n => let '(th, r) := offer th n now in (th, option_list r)
  | T_Due => due th now
  end.

Definition throttle_run (ops : list (N * ThrottleOp)) (th : Throttle) (h : Trace) : Throttle * Trace :=
  foldl (λ '(th, h) '(now, op), let '(th, out) := throttle_op th op now in (th, h ++ (pair now <$> out))) (th, h) ops.

(** When the notifications that are clears, or are not, were sent. *)
Definition times (c : bool) (h : Trace) : list N := fst <$> filter (λ e, clear e.2 = c) h.

Definition sorted (l : list N) : Prop := StronglySorted N.le l.

(** What the throttle remembers at [now] of what it sent: the times of the last
    hour, and for each chat either that its interval is over or when it was sent
    last. What a chat holds back is its own and can wait. *)
Record remembers (now : N) (th : Throttle) (h : Trace) : Prop := {
  r_sorted : sorted (fst <$> h);
  r_past : Forall (λ e, e.1 ≤ now) h;
  r_sent : sent th = filter (λ t, now - t < HOUR_MS) (times false h);
  r_cleared : cleared th = filter (λ t, now - t < HOUR_MS) (times true h);
  r_sent_cap : (length (sent th) ≤ MAX_PER_HOUR)%nat;
  r_cleared_cap : (length (cleared th) ≤ MAX_CLEARS_PER_HOUR)%nat;
  r_chats : ∀ t n, (t, n) ∈ h → now - t < CHAT_INTERVAL_MS → ∃ r, chats th !! tag n = Some r ∧ t ≤ last_ms r;
  r_pending : ∀ k r n, chats th !! k = Some r → pending r = Some n → tag n = k ∧ urgent n = false;
}.

Lemma expire_filter now l :
  sorted l → Forall (λ t, t ≤ now) l → expire now l = filter (λ t, now - t < HOUR_MS) l.
Proof.
  induction 1 as [|t l Hs IH Hle]; intros Hf; cbn [expire]; [done|]. apply Forall_cons in Hf as [Ht Hf].
  destruct (N.leb_spec HOUR_MS (now - t)) as [Hold|Hnew].
  - rewrite filter_cons_False by lia. by apply IH.
  - rewrite filter_cons_True by lia. f_equal. rewrite <-(IH Hf). destruct l as [|u l]; [done|]. cbn [expire].
    apply Forall_cons in Hle as [Hle _]. by rewrite (proj2 (N.leb_gt _ _)) by lia.
Qed.

Lemma sorted_filter (P : N → Prop) `{∀ x, Decision (P x)} l : sorted l → sorted (filter P l).
Proof.
  induction 1 as [|t l Hs IH Hle]; [constructor|]. rewrite filter_cons. destruct (base.decide (P t)); [|done].
  constructor; [done|]. rewrite Forall_forall in *. intros x [_ Hx]%list_elem_of_filter. auto.
Qed.

Lemma sorted_times c h : sorted (fst <$> h) → sorted (times c h).
Proof.
  unfold times. induction h as [|e h IH]; [done|]. rewrite fmap_cons. intros [Hs Hle]%StronglySorted_inv. rewrite filter_cons.
  destruct (base.decide _); [|by apply IH]. rewrite fmap_cons. constructor; [by apply IH|]. rewrite Forall_forall in Hle |- *.
  intros x (y & -> & [_ Hy]%list_elem_of_filter)%list_elem_of_fmap. apply Hle. by apply list_elem_of_fmap_2.
Qed.

Lemma times_past c now h : Forall (λ e, e.1 ≤ now) h → Forall (λ t, t ≤ now) (times c h).
Proof.
  rewrite !Forall_forall. intros Hh x (e & -> & [_ He]%list_elem_of_filter)%list_elem_of_fmap. by apply Hh.
Qed.

Lemma filter_later now now' (l : list N) :
  now ≤ now' →
  filter (λ t, now' - t < HOUR_MS) (filter (λ t, now - t < HOUR_MS) l) = filter (λ t, now' - t < HOUR_MS) l.
Proof. intros Hn. rewrite list_filter_filter. apply list_filter_iff. intros t. lia. Qed.

Lemma expire_later c now now' h :
  now ≤ now' → sorted (fst <$> h) → Forall (λ e, e.1 ≤ now) h →
  expire now' (filter (λ t, now - t < HOUR_MS) (times c h)) = filter (λ t, now' - t < HOUR_MS) (times c h).
Proof.
  intros Hn Hs Hp. rewrite expire_filter; [by apply filter_later| |].
  - apply sorted_filter. by apply sorted_times.
  - apply (times_past c) in Hp. rewrite Forall_forall in Hp |- *. intros x [_ Hx]%list_elem_of_filter. specialize (Hp x Hx). lia.
Qed.

Lemma remembers_prune now th h : remembers now th h → remembers now (prune th now) h.
Proof.
  intros [H0 H1 H2 H3 H4 H5 H6 H8]. split; try done; cbn.
  - intros t n Hin Ht. destruct (H6 t n Hin Ht) as (r & Hr & Hle). exists r. split; [|done].
    apply map_lookup_filter_Some. split; [done|]. right. lia.
  - intros k r n [Hr _]%map_lookup_filter_Some. by apply H8.
Qed.

Lemma filter_length_mono (P Q : N → Prop) `{∀ x, Decision (P x)} `{∀ x, Decision (Q x)} l :
  (∀ x, x ∈ l → P x → Q x) → (length (filter P l) ≤ length (filter Q l))%nat.
Proof.
  induction l as [|x l IH]; intros Hpq; [done|]. rewrite !filter_cons.
  assert (length (filter P l) ≤ length (filter Q l))%nat by (apply IH; intros; apply Hpq; set_solver).
  destruct (base.decide (P x)), (base.decide (Q x)); cbn; try lia. exfalso. naive_solver set_solver.
Qed.

Lemma remembers_forget now now' th h : now ≤ now' → remembers now th h → remembers now' (forget th now') h.
Proof.
  intros Hn [H0 H1 H2 H3 H4 H5 H6 H8]. apply remembers_prune. split; try done; cbn.
  - rewrite Forall_forall in *. intros e He. specialize (H1 e He). lia.
  - rewrite H2. by apply expire_later.
  - rewrite H3. by apply expire_later.
  - rewrite H2, expire_later by done. rewrite H2 in H4. etrans; [|exact H4]. apply filter_length_mono. lia.
  - rewrite H3, expire_later by done. rewrite H3 in H5. etrans; [|exact H5]. apply filter_length_mono. lia.
  - intros t n Hin Ht. apply (H6 t n Hin). lia.
Qed.

Lemma sorted_snoc l x : sorted l → Forall (λ y, y ≤ x) l → sorted (l ++ [x]).
Proof.
  induction 1 as [|y l Hs IH Hle]; intros Hf; cbn; [repeat constructor|]. apply Forall_cons in Hf as [Hy Hf].
  constructor; [by apply IH|]. apply Forall_app. split; [done|]. by constructor.
Qed.

Lemma times_snoc c h t n : times c (h ++ [(t, n)]) = times c h ++ (if bool_decide (clear n = c) then [t] else []).
Proof. unfold times. rewrite filter_app, fmap_app. f_equal. rewrite filter_cons. cbn [snd].
  case_bool_decide; [by rewrite decide_True|by rewrite decide_False]. Qed.

(** A notification that was let through is remembered. *)
Lemma remembers_admit now th h n th' r :
  remembers now th h → throttle_admit th n now = (th', r) → remembers now th' (h ++ (pair now <$> option_list r)).
Proof.
  intros Hr. unfold throttle_admit.
  destruct (Nat.leb_spec (if clear n then MAX_CLEARS_PER_HOUR else MAX_PER_HOUR) (length (if clear n then cleared th else sent th)))
    as [_|Hcap]; intros [= <- <-]; cbn [option_list]; [by rewrite app_nil_r|]. change (pair now <$> option_list (Some n)) with [(now, n)].
  destruct Hr as [H0 H1 H2 H3 H4 H5 H6 H8].
  assert (∀ l, filter (λ t, now - t < HOUR_MS) l ++ [now] = filter (λ t, now - t < HOUR_MS) (l ++ [now])) as Hnow.
  { intros l. rewrite filter_app, filter_cons_True; [done|]. unfold HOUR_MS. lia. }
  assert (∀ l, filter (λ t, now - t < HOUR_MS) l = filter (λ t, now - t < HOUR_MS) (l ++ [] : list N)) as Hsame by (intros l; by rewrite app_nil_r).
  assert (chats (if clear n then MkThrottle (<[tag n := MkRecent now None]> (chats th)) (cleared th ++ [now]) (sent th)
    else MkThrottle (<[tag n := MkRecent now None]> (chats th)) (cleared th) (sent th ++ [now])) = <[tag n := MkRecent now None]> (chats th)) as Hc
    by (by destruct (clear n)).
  split; rewrite ?Hc.
  - rewrite fmap_app. apply sorted_snoc; [done|]. by apply Forall_fmap.
  - apply Forall_app. split; [done|]. by constructor.
  - rewrite times_snoc. destruct (clear n); cbn [sent bool_decide]; rewrite H2; [apply Hsame|apply Hnow].
  - rewrite times_snoc. destruct (clear n); cbn [cleared bool_decide]; rewrite H3; [apply Hnow|apply Hsame].
  - destruct (clear n); cbn [sent]; [done|]. rewrite length_app. cbn. lia.
  - destruct (clear n); cbn [cleared]; [|done]. rewrite length_app. cbn. lia.
  - intros t m [Hin|[= -> ->]%list_elem_of_singleton]%elem_of_app Ht.
    + destruct (base.decide (tag m = tag n)) as [->|Hne].
      * rewrite lookup_insert_eq. eexists. split; [done|]. rewrite Forall_forall in H1. apply (H1 (t, m) Hin).
      * rewrite lookup_insert_ne by done. by apply H6.
    + rewrite lookup_insert_eq. eexists. by split.
  - intros k r m Hk Hp. destruct (base.decide (k = tag n)) as [->|Hne]; [rewrite lookup_insert_eq in Hk; by injection Hk as <-|].
    rewrite lookup_insert_ne in Hk by done. by eapply H8.
Qed.

(** Two notifications of a chat are an interval apart unless the later one is
    urgent. *)
Definition gaps (h : Trace) : Prop :=
  ∀ h1 t1 n1 h2 t2 n2 h3, h = h1 ++ (t1, n1) :: h2 ++ (t2, n2) :: h3 → tag n1 = tag n2 → urgent n2 = false →
    CHAT_INTERVAL_MS ≤ t2 - t1.

(** Nothing of the chat was sent within the interval. *)
Definition quiet (now : N) (h : Trace) (n : Notification) : Prop :=
  urgent n = false → ∀ t m, (t, m) ∈ h → tag m = tag n → CHAT_INTERVAL_MS ≤ now - t.

Lemma gaps_snoc h now n : gaps h → quiet now h n → gaps (h ++ [(now, n)]).
Proof.
  intros Hg Hq h1 t1 n1 h2 t2 n2 h3 E Ht Hu. destruct h3 as [|e h3 _] using rev_ind.
  - rewrite app_comm_cons, app_assoc in E. apply app_inj_tail in E as [-> [= <- <-]]. eapply Hq; [done| |done]. set_solver.
  - assert (h1 ++ (t1, n1) :: h2 ++ (t2, n2) :: h3 ++ [e] = (h1 ++ (t1, n1) :: h2 ++ (t2, n2) :: h3) ++ [e]) as E'
      by (rewrite <-app_assoc; cbn; by rewrite <-app_assoc).
    rewrite E' in E. apply app_inj_tail in E as [E _]. by eapply (Hg h1 t1 n1 h2 t2 n2 h3).
Qed.

Lemma gaps_admit now th h n th' r :
  gaps h → quiet now h n → throttle_admit th n now = (th', r) → gaps (h ++ (pair now <$> option_list r)).
Proof.
  intros Hg Hq. unfold throttle_admit. destruct (_ <=? _)%nat; intros [= _ <-]; cbn; [by rewrite app_nil_r|by apply gaps_snoc].
Qed.

(** What the chats hold is of chats told apart. *)
Lemma ready_tags now (l : list (list N * Recent)) :
  NoDup (fst <$> l) → (∀ k r n, (k, r) ∈ l → pending r = Some n → tag n = k) →
  NoDup (tag <$> omap (λ '(_, r), if ended now r then pending r else None) l).
Proof.
  induction l as [|[k r] l IH]; intros Hnd Ht; cbn; [constructor|]. rewrite fmap_cons in Hnd. apply NoDup_cons in Hnd as [Hk Hnd].
  assert (NoDup (tag <$> omap (λ '(_, r), if ended now r then pending r else None) l)) as Hl
    by (apply IH; [done|]; intros k0 r0 n Hin; apply Ht; by apply list_elem_of_further).
  destruct (ended now r); [|done]. destruct (pending r) as [n|] eqn:Ep; [|done]. rewrite fmap_cons. constructor; [|done].
  intros (m & E & ([k' r'] & Hin & Hm)%list_elem_of_omap)%list_elem_of_fmap. destruct (ended now r'); [|done].
  apply Hk, list_elem_of_fmap. exists (k', r'). split; [|done]. cbn. rewrite <-(Ht k r n), E; [|by apply list_elem_of_here|done].
  eapply Ht; [|done]. by apply list_elem_of_further.
Qed.

Lemma admit_all_spec now ns th h th' out :
  remembers now th h → gaps h → NoDup (tag <$> ns) → Forall (quiet now h) ns → throttle_admit_all th ns now = (th', out) →
  remembers now th' (h ++ (pair now <$> out)) ∧ gaps (h ++ (pair now <$> out)).
Proof.
  intros Hr Hg Hnd Hq. unfold throttle_admit_all.
  assert (∀ out0 h0, h = h0 ++ (pair now <$> out0) →
    foldl (λ '(th, out) n, let '(th, r) := throttle_admit th n now in (th, out ++ option_list r)) (th, out0) ns = (th', out) →
    remembers now th' (h0 ++ (pair now <$> out)) ∧ gaps (h0 ++ (pair now <$> out))) as Hgen.
  { revert th h Hr Hg Hnd Hq. induction ns as [|n ns IH]; intros th h Hr Hg Hnd Hq out0 h0 ->; cbn; [by intros [= <- <-]|].
    rewrite fmap_cons in Hnd. apply NoDup_cons in Hnd as [Hn Hnd]. apply Forall_cons in Hq as [Hqn Hq].
    destruct (throttle_admit th n now) as [th1 r] eqn:Ea. intros E.
    eapply (IH th1 (h0 ++ (pair now <$> out0) ++ (pair now <$> option_list r))); [| |done| |by rewrite fmap_app|done].
    - rewrite app_assoc. by eapply remembers_admit.
    - rewrite app_assoc. by eapply gaps_admit.
    - rewrite Forall_forall in Hq |- *. intros m Hm Hu t n' Hin Ht. rewrite app_assoc in Hin.
      apply elem_of_app in Hin as [Hin|Hin]; [by eapply Hq|]. exfalso. apply Hn.
      apply list_elem_of_fmap in Hin as (y & [= -> ->] & Hy). unfold throttle_admit in Ea. destruct (_ <=? _)%nat; injection Ea as _ <-; [by apply not_elem_of_nil in Hy|].
      apply list_elem_of_singleton in Hy as ->. rewrite Ht. by apply list_elem_of_fmap_2. }
  apply (Hgen [] h). by rewrite app_nil_r.
Qed.

Lemma quiet_ended now th h k r n :
  remembers now th h → chats th !! k = Some r → tag n = k → ended now r = true → quiet now h n.
Proof.
  intros Hr Hk Ht He _ t m Hin Hm. destruct (base.decide (now - t < CHAT_INTERVAL_MS)) as [Hlt|]; [|lia].
  destruct (r_chats _ _ _ Hr t m Hin Hlt) as (r' & Hr' & Hle). rewrite Hm, Ht, Hk in Hr'. injection Hr' as <-.
  unfold ended in He. apply N.leb_le in He. lia.
Qed.

Lemma remembers_take now th h :
  remembers now th h →
  remembers now (MkThrottle ((λ r, if ended now r then MkRecent (last_ms r) None else r) <$> chats th) (cleared th) (sent th)) h.
Proof.
  intros [H0 H1 H2 H3 H4 H5 H6 H8]. split; try done; cbn.
  - intros t n Hin Ht. destruct (H6 t n Hin Ht) as (r & Hr & Hle). rewrite lookup_fmap, Hr. cbn. eexists. split; [done|].
    by destruct (ended now r).
  - intros k r n. rewrite lookup_fmap, fmap_Some. intros (r' & Hr' & ->). destruct (ended now r'); [done|]. by apply H8.
Qed.

Lemma throttle_op_step now now' th h op th' out :
  now ≤ now' → remembers now th h → gaps h → throttle_op th op now' = (th', out) →
  remembers now' th' (h ++ (pair now' <$> out)) ∧ gaps (h ++ (pair now' <$> out)).
Proof.
  intros Hn Hr Hg. pose proof (remembers_forget now now' th h Hn Hr) as Hf. destruct op as [n|]; cbn.
  - destruct (offer th n now') as [th1 r] eqn:E. intros [= <- <-]. unfold offer in E.
    destruct (chats (forget th now') !! tag n) as [recent|] eqn:Ec.
    + destruct (urgent n) eqn:Eu; cbn [negb andb] in E.
      { split; [by eapply remembers_admit|]. eapply gaps_admit; [done| |done]. by intros Hu; rewrite Eu in Hu. }
      destruct (N.ltb_spec (now' - last_ms recent) CHAT_INTERVAL_MS) as [Hlt|Hge].
      * injection E as <- <-. cbn. rewrite app_nil_r. split; [|done]. destruct Hf as [H0 H1 H2 H3 H4 H5 H6 H8]. split; try done; cbn -[forget].
        -- intros t m Hin Ht. destruct (base.decide (tag m = tag n)) as [Em|Hne].
           ++ rewrite Em, lookup_insert_eq. eexists. split; [done|]. cbn. destruct (H6 t m Hin Ht) as (r & Hr1 & Hle).
              rewrite Em, Ec in Hr1. by injection Hr1 as <-.
           ++ rewrite lookup_insert_ne by done. by apply H6.
        -- intros k r m Hk Hp. destruct (base.decide (k = tag n)) as [->|Hne].
           ++ rewrite lookup_insert_eq in Hk. injection Hk as <-. injection Hp as <-. done.
           ++ rewrite lookup_insert_ne in Hk by done. by eapply H8.
      * split; [by eapply remembers_admit|]. eapply gaps_admit; [done| |done]. eapply quiet_ended; [done..|]. by apply N.leb_le.
    + split; [by eapply remembers_admit|]. eapply gaps_admit; [done| |done]. intros _ t m Hin Hm.
      destruct (base.decide (now' - t < CHAT_INTERVAL_MS)) as [Hlt|]; [|lia].
      destruct (r_chats _ _ _ Hf t m Hin Hlt) as (r' & Hr' & _). rewrite Hm, Ec in Hr'. done.
  - unfold due. destruct (throttle_admit_all _ _ now') as [th1 o] eqn:E. intros [= <- <-].
    eapply admit_all_spec in E as [Hr1 Hg1]; [split; [by apply remembers_prune|done]|by apply remembers_take|done| |].
    + apply ready_tags; [rewrite iter_perm; apply NoDup_fst_map_to_list|]. intros k r n Hin%elem_of_iter Hp. by eapply (r_pending _ _ _ Hf).
    + apply Forall_forall. intros n ([k r] & Hin & Hp)%list_elem_of_omap. apply elem_of_iter in Hin. destruct (ended now' r) eqn:He; [|done].
      eapply quiet_ended; [done|done|by eapply (r_pending _ _ _ Hf)|done].
Qed.

(** How many of the notifications that are clears, or are not, were sent from
    [t] on for an hour. *)
Definition in_hour (c : bool) (t : N) (h : Trace) : nat :=
  length (filter (λ e, (t ≤ e.1 ∧ e.1 < t + HOUR_MS) ∧ clear e.2 = c) h).

Lemma in_hour_times c t h : in_hour c t h = length (filter (λ x, t ≤ x ∧ x < t + HOUR_MS) (times c h)).
Proof.
  unfold in_hour, times. induction h as [|e h IH]; [done|]. rewrite !filter_cons.
  destruct (base.decide (clear e.2 = c)) as [Hc|Hc].
  - rewrite fmap_cons, filter_cons. destruct (base.decide (t ≤ e.1 ∧ e.1 < t + HOUR_MS)) as [Ht|Ht].
    + rewrite decide_True by done. cbn [length]. by rewrite IH.
    + rewrite decide_False by tauto. by rewrite IH.
  - rewrite decide_False by tauto. by rewrite IH.
Qed.

Lemma in_hour_app c t h k : in_hour c t (h ++ k) = (in_hour c t h + in_hour c t k)%nat.
Proof. unfold in_hour. by rewrite filter_app, length_app. Qed.

Lemma in_hour_outside c t now out : ¬ (t ≤ now ∧ now < t + HOUR_MS) → in_hour c t (pair now <$> out) = 0%nat.
Proof.
  intros Hno. unfold in_hour. induction out as [|n out IH]; [done|]. rewrite fmap_cons, filter_cons_False; [done|]. cbn. tauto.
Qed.

Lemma in_hour_capped c now th h t :
  remembers now th h → t ≤ now → now < t + HOUR_MS →
  (in_hour c t h ≤ if c then MAX_CLEARS_PER_HOUR else MAX_PER_HOUR)%nat.
Proof.
  intros [H0 H1 H2 H3 H4 H5 _ _] Hlo Hhi. rewrite in_hour_times.
  transitivity (length (filter (λ x, now - x < HOUR_MS) (times c h))).
  - apply filter_length_mono. lia.
  - destruct c; [by rewrite <-H3|by rewrite <-H2].
Qed.

Lemma throttle_run_spec ops th h :
  sorted (fst <$> ops) → throttle_run ops throttle_default [] = (th, h) →
  (∃ now, Forall (λ o, o.1 ≤ now) ops ∧ (∀ later, Forall (λ o, o.1 ≤ later) ops → now ≤ later) ∧ remembers now th h) ∧
  gaps h ∧ ∀ c t, (in_hour c t h ≤ if c then MAX_CLEARS_PER_HOUR else MAX_PER_HOUR)%nat.
Proof.
  revert th h. induction ops as [|[now' op] ops IH] using rev_ind; intros th h Hs.
  { intros [= <- <-]. split; [|split; [by intros [] ?|by intros []; cbn; unfold MAX_CLEARS_PER_HOUR, MAX_PER_HOUR; lia]].
    exists 0. split; [done|]. split; [lia|]. split; cbn; try (unfold MAX_CLEARS_PER_HOUR, MAX_PER_HOUR; by auto with lia).
    intros t n Hin. by apply not_elem_of_nil in Hin. }
  unfold throttle_run. rewrite foldl_app. fold (throttle_run ops throttle_default []).
  destruct (throttle_run ops throttle_default []) as [th1 h1]. cbn. destruct (throttle_op th1 op now') as [th2 out] eqn:Eop.
  intros [= <- <-]. rewrite fmap_app in Hs.
  assert (sorted (fst <$> ops) ∧ Forall (λ o, o.1 ≤ now') ops) as [Hs1 Hlast].
  { clear -Hs. induction ops as [|o ops IH]; [split; [constructor|done]|]. rewrite fmap_cons in Hs. apply StronglySorted_inv in Hs as [Hs Hle].
    destruct (IH Hs) as [Hs1 Hl]. apply Forall_app in Hle as [Hle [Ho _]%Forall_cons]. split; [by constructor|by constructor]. }
  destruct (IH th1 h1 Hs1 eq_refl) as ((now & Hpast & Hleast & Hr) & Hg & Hcap). pose proof (Hleast _ Hlast) as Hn.
  destruct (throttle_op_step now now' th1 h1 op th2 out Hn Hr Hg Eop) as [Hr2 Hg2]. split; [|split; [done|]].
  - exists now'. split; [|split; [|done]].
    + apply Forall_app. split; [done|]. by constructor.
    + intros later [_ [Hl _]%Forall_cons]%Forall_app. done.
  - intros c t. destruct (base.decide (t ≤ now' ∧ now' < t + HOUR_MS)) as [[Hlo Hhi]|Hno]; [by eapply in_hour_capped|].
    rewrite in_hour_app, in_hour_outside by done. rewrite Nat.add_0_r. apply Hcap.
Qed.

(** Whatever is offered to a device and however often it is asked for what is due, as long as the clock does
    not run back: in any hour at most thirty alerts and sixty clears are sent, two notifications of one chat are five
    seconds apart unless the later one is a question or a clear, and a question is sent the moment it is offered
    unless thirty alerts were sent in the last hour, however many clears and whatever other chats did. *)
Theorem budget_kept (ops : list (N * ThrottleOp)) (th : Throttle) (h : Trace) :
  sorted (fst <$> ops) → throttle_run ops throttle_default [] = (th, h) →
  (∀ t, (in_hour false t h ≤ MAX_PER_HOUR)%nat ∧ (in_hour true t h ≤ MAX_CLEARS_PER_HOUR)%nat) ∧
  gaps h ∧
  ∀ n now, Forall (λ o, o.1 ≤ now) ops → n_kind n = Kind_Question → clear n = false →
    (offer th n now).2 =
      if (length (filter (λ t, (now - t < HOUR_MS)%N) (times false h)) <? MAX_PER_HOUR)%nat then Some n else None.
Proof.
  intros Hs Hrun. destruct (throttle_run_spec ops th h Hs Hrun) as ((now0 & Hpast & Hleast & Hr) & Hg & Hcap).
  split; [intros t; split; [apply (Hcap false)|apply (Hcap true)]|]. split; [done|]. intros n now Hnow Hk Hc.
  pose proof (remembers_forget now0 now th h (Hleast _ Hnow) Hr) as Hf.
  assert (offer th n now = throttle_admit (forget th now) n now) as ->.
  { unfold offer, urgent. rewrite Hk, Hc. cbn. by destruct (_ !! tag n). }
  unfold throttle_admit. rewrite Hc, (r_sent _ _ _ Hf). rewrite Nat.leb_antisym. by destruct (_ <? _)%nat.
Qed.
End throttle.

Definition sample_chat : Chat := MkChat (lit "Claude") (lit "w1-p3") (lit "plan") (lit "herdr").
Definition sample_note (k : Kind) : Notification := notification_new sample_chat k (lit "Claude finished") (lit "herdr").
Definition sample_ops : list (N * ThrottleOp) :=
  [(0, T_Offer (sample_note Kind_TurnEnded)); (1000, T_Offer (sample_note Kind_Error)); (2000, T_Offer (sample_note Kind_Question));
   (3000, T_Offer (sample_note Kind_Error)); (7000, T_Due)].
Definition sample_trace : Trace :=
  [(0, sample_note Kind_TurnEnded); (2000, sample_note Kind_Question); (7000, sample_note Kind_Error)].

Lemma budget_kept_witness :
  (∀ t, (in_hour false t sample_trace ≤ MAX_PER_HOUR)%nat ∧ (in_hour true t sample_trace ≤ MAX_CLEARS_PER_HOUR)%nat) ∧
  gaps sample_trace ∧
  ∀ n now, Forall (λ o, o.1 ≤ now) sample_ops → n_kind n = Kind_Question → clear n = false →
    (offer (throttle_run sample_ops throttle_default []).1 n now).2 =
      if (length (filter (λ t, (now - t < HOUR_MS)%N) (times false sample_trace)) <? MAX_PER_HOUR)%nat then Some n else None.
Proof.
  apply (budget_kept sample_ops).
  - repeat constructor; vm_compute; discriminate.
  - vm_compute. reflexivity.
Defined.

(** ** What a generic notification says *)

(** Two changes a transcript before them tells apart only by what was said. *)
Inductive alike (t t' : Transcript.Transcript) : Transcript.Change → Transcript.Change → Prop :=
| alike_asked p p' : alike t t' (Transcript.PermissionAsked p) (Transcript.PermissionAsked p')
| alike_resolved id : alike t t' (Transcript.PermissionResolved id) (Transcript.PermissionResolved id)
| alike_turn i j s : alike t t' (Transcript.Push (Transcript.MkEntry i (Transcript.TurnEntry s))) (Transcript.Push (Transcript.MkEntry j (Transcript.TurnEntry s)))
| alike_notice i j a a' d d' l x x' :
    alike t t' (Transcript.Push (Transcript.MkEntry i (Transcript.Notice a d l x))) (Transcript.Push (Transcript.MkEntry j (Transcript.Notice a' d' l x')))
| alike_agent i j x x' :
    alike t t' (Transcript.Push (Transcript.MkEntry i (Transcript.Agent x))) (Transcript.Push (Transcript.MkEntry j (Transcript.Agent x')))
| alike_user i j x x' f f' :
    alike t t' (Transcript.Push (Transcript.MkEntry i (Transcript.User x f))) (Transcript.Push (Transcript.MkEntry j (Transcript.User x' f')))
| alike_failed m m' :
    (Transcript.Status_Failed m = Transcript.status t ↔ Transcript.Status_Failed m' = Transcript.status t') →
    alike t t' (Transcript.SetStatus (Transcript.Status_Failed m)) (Transcript.SetStatus (Transcript.Status_Failed m'))
| alike_exited m m' :
    (Transcript.Exited m = Transcript.status t ↔ Transcript.Exited m' = Transcript.status t') →
    alike t t' (Transcript.SetStatus (Transcript.Exited m)) (Transcript.SetStatus (Transcript.Exited m')).

(** Two transcripts that wait for the same answers. *)
Definition waits_alike (t t' : Transcript.Transcript) : Prop :=
  Transcript.auto_accept t = Transcript.auto_accept t' ∧
  Transcript.permission_id <$> Transcript.permissions t = Transcript.permission_id <$> Transcript.permissions t'.

(** With the generic privacy the message a push carries says who asked and where, never what was said: two
    chats that differ only in the texts of their entries, questions, notices and failures, and in the answers a
    question offers, send the same message or none. *)
Theorem generic_says_nothing (chat : Chat) (t t' : Transcript.Transcript) (c c' : Transcript.Change) (badge : N) :
  waits_alike t t' → alike t t' c c' →
  (λ n, message n badge) <$> decide chat t c Generic = (λ n, message n badge) <$> decide chat t' c' Generic.
Proof.
  intros [Ha Hp] Hc. destruct Hc as [p p'|id|i j s|i j a a' d d' l x x'|i j x x'|i j x x' f f'|m m' Hm|m m' Hm]; try done; cbn.
  - rewrite Ha. by destruct (Transcript.auto_accept t').
  - destruct (Transcript.permissions t) as [|p [|q ps]], (Transcript.permissions t') as [|p' [|q' ps']]; try done.
    rewrite !fmap_cons in Hp. injection Hp as ->. done.
  - rewrite (bool_decide_ext _ _ Hm). by destruct (bool_decide _).
  - assert (Transcript.is_blocked t = Transcript.is_blocked t') as ->.
    { unfold Transcript.is_blocked. f_equal. apply bool_decide_ext. by destruct (Transcript.permissions t), (Transcript.permissions t'). }
    rewrite (bool_decide_ext _ _ Hm). by destruct (bool_decide _), (Transcript.is_blocked t').
Qed.

(** The alert for the native app carries the names of the answers all the same. *)
Lemma generic_keeps_options chat t p computer badge :
  Transcript.auto_accept t = false →
  (λ n, sealed_permission (sealed_new n computer badge)) <$> decide chat t (Transcript.PermissionAsked p) Generic =
  Some (Some (MkSealedPermission (Transcript.permission_id p) (take MAX_OPTIONS (Transcript.permission_options p)))).
Proof. intros Ha. cbn. by rewrite Ha. Qed.

Definition sample_asking (title : str) : Transcript.Change :=
  Transcript.PermissionAsked (Transcript.MkPermission None 4 [] title).

Lemma generic_says_nothing_witness :
  (λ n, message n 1) <$> decide sample_chat (Transcript.transcript_new (lit "Claude")) (sample_asking (lit "Run rm -rf?")) Generic =
  (λ n, message n 1) <$> decide sample_chat Transcript.chat (sample_asking (lit "Read lib.rs?")) Generic.
Proof.
  apply (generic_says_nothing sample_chat (Transcript.transcript_new (lit "Claude")) Transcript.chat
    (sample_asking (lit "Run rm -rf?")) (sample_asking (lit "Read lib.rs?")) 1).
  - split; reflexivity.
  - apply alike_asked.
Defined.

(** ** Excerpts, links and held alerts *)

Lemma trim_start_length s : (length (trim_start s) ≤ length s)%nat.
Proof. induction s as [|c s IH]; cbn; [done|]. destruct (is_whitespace c); cbn; lia. Qed.

(** An excerpt is short. *)
Lemma excerpt_length text : (length (excerpt text) ≤ EXCERPT_CHARS)%nat.
Proof.
  unfold excerpt. set (line := join _ _). destruct (Nat.leb_spec (length line) EXCERPT_CHARS); [done|].
  rewrite length_app. cbn [length]. unfold trim_end. rewrite length_reverse.
  pose proof (trim_start_length (reverse (take (EXCERPT_CHARS - 1) line))) as Hl. rewrite length_reverse, length_take in Hl.
  unfold EXCERPT_CHARS in *. lia.
Qed.

Lemma split_whitespace_plain text : Forall (Forall (λ c, is_whitespace c = false)) (split_whitespace text).
Proof.
  unfold split_whitespace. apply Forall_forall. intros w [_ Hw]%list_elem_of_filter. revert w Hw.
  apply Forall_forall. induction text as [|c text IH]; cbn; [by repeat constructor|].
  destruct (is_whitespace c) eqn:Ec; [by constructor|]. destruct (split_on is_whitespace text) as [|w ws]; [by repeat constructor|].
  apply Forall_cons in IH as [Hw Hws]. by repeat constructor.
Qed.

Lemma trim_start_suffix s : ∃ k, s = k ++ trim_start s.
Proof.
  induction s as [|c s [k IH]]; [by exists []|]. cbn. destruct (is_whitespace c); [|by exists []].
  exists (c :: k). cbn. by rewrite <-IH.
Qed.

(** An excerpt is one line: no white space but single spaces. *)
Lemma excerpt_one_line text : Forall (λ c, is_whitespace c = true → c = 32) (excerpt text).
Proof.
  unfold excerpt. set (line := join _ _).
  assert (Forall (λ c, is_whitespace c = true → c = 32) line) as Hl.
  { apply join_Forall; [by repeat constructor|]. eapply Forall_impl; [apply split_whitespace_plain|]. intros w Hw.
    eapply Forall_impl; [exact Hw|]. cbn. congruence. }
  destruct (_ <=? _)%nat; [done|]. apply Forall_app. split; [|by repeat constructor]. unfold trim_end. apply Forall_reverse.
  destruct (trim_start_suffix (reverse (take (EXCERPT_CHARS - 1) line))) as [k Hk].
  apply (Forall_take _ (EXCERPT_CHARS - 1)%nat), Forall_reverse in Hl. rewrite Hk in Hl. by apply Forall_app in Hl as [_ Hl].
Qed.

(** What a device holds: at most one notification of a chat and few in all, none
    of them a clear. *)
Definition held_well (h : Hold) : Prop :=
  NoDup (tag <$> h) ∧ (length h ≤ MAX_HELD)%nat ∧ Forall (λ n, clear n = false) h.

Lemma sublist_drop_fmap {A B} (f : A → B) n (l : list A) : NoDup (f <$> l) → NoDup (f <$> drop n l).
Proof. rewrite <-(take_drop n l) at 1. rewrite fmap_app. by intros (_ & _ & H)%NoDup_app. Qed.

Lemma NoDup_fmap_filter {A B} (f : A → B) (P : A → Prop) `{∀ x, Decision (P x)} (l : list A) :
  NoDup (f <$> l) → NoDup (f <$> filter P l).
Proof.
  induction l as [|x l IH]; [done|]. rewrite fmap_cons. intros [Hx Hl]%NoDup_cons. rewrite filter_cons.
  destruct (base.decide (P x)); [|by apply IH]. rewrite fmap_cons. constructor; [|by apply IH].
  intros (y & E & [_ Hy]%list_elem_of_filter)%list_elem_of_fmap. apply Hx, list_elem_of_fmap. by exists y.
Qed.

(** Holding keeps that; the newest notification of a chat is the one held, and a
    clear goes out at once and takes what its chat held with it. *)
Lemma hold_spec (h : list Notification) n h' r :
  held_well h → hold h n = (h', r) →
  held_well h' ∧
  if clear n then r = Some n ∧ tag n ∉ (tag <$> h') else r = None ∧ last h' = Some n.
Proof.
  intros (Hnd & Hlen & Hcl). unfold hold. set (kept := filter (λ held, tag held ≠ tag n) (h : list Notification)).
  assert (tag n ∉ (tag <$> kept)) as Hn.
  { intros (m & E & [Hm _]%list_elem_of_filter)%list_elem_of_fmap. done. }
  assert (NoDup (tag <$> kept)) as Hk by (by apply NoDup_fmap_filter).
  assert (length kept ≤ length h)%nat as Hl by apply length_filter.
  assert (Forall (λ n, clear n = false) kept) as Hkc
    by (rewrite Forall_forall in *; intros m [_ Hm]%list_elem_of_filter; by apply Hcl).
  destruct (clear n) eqn:Ec; intros [= <- <-].
  - split; [|done]. split; [done|]. split; [exact (Nat.le_trans _ _ _ Hl Hlen)|done].
  - split; [split; [|split]|split; [done|]].
    + apply sublist_drop_fmap. rewrite fmap_app. apply NoDup_app. split; [done|]. split; [|apply NoDup_singleton].
      intros t Ht [= ->]%list_elem_of_singleton. done.
    + rewrite length_drop. lia.
    + apply Forall_drop, Forall_app. by repeat constructor.
    + rewrite drop_app_le by (rewrite length_app; unfold MAX_HELD; cbn [length]; lia). by rewrite last_snoc.
Qed.
End Alerts.
