(* ===== verification/LiveActivity.v ===== *)
(** * LiveActivity: the activity a phone shows for a running turn
    (crates/sheprd-remote-control/src/apns/decide.rs, apns/payload.rs,
    apns/redact.rs, apns/pacer.rs, apns/tokens.rs)

    When a change of a transcript starts, updates or ends a chat's activity, what
    a device's choices leave of it, how often updates go out, and the tokens a
    device registered. The JSON of a push is serde's. *)

From Stdlib Require Import NArith Lia.
From stdpp Require Import base option gmap strings sets list.
From S2P Require Import Prelude Transcript Display Relay Devices Alerts.

Local Open Scope N_scope.

Module LiveActivity.
Import Alerts.

(** ** The payload (payload.rs) *)

Definition MAX_BUTTONS : nat := 3.
Definition MAX_PREVIOUS : nat := 2.

Inductive Phase := Failed | Finished | Question | Working.
#[export] Instance Phase_eq_dec : EqDecision Phase.
Proof. solve_decision. Defined.

Record Attributes := MkAttributes {
  att_agent : str; att_chat_title : str; att_computer : str; att_computer_id : str; att_pane : str; att_workspace : str }.

Record ContentState := MkContentState {
  st_options : list Transcript.PermissionOption; st_permission : option N; st_phase : Phase; st_plan_done : option N;
  st_plan_total : option N; st_previous : list str; st_question : option str; st_started_at : N; st_step : str;
  st_summary : option str; st_waiting : N; st_working : N }.

(** [payload::Alert]. *)
Record Banner := MkBanner { banner_body : str; banner_title : str }.

Inductive Event :=
| Start (alert : Banner) (attributes : Attributes)
| Update (alert : option Banner)
| End_ (dismissal_s : N).

Record Live := MkLive { event : Event; pane : str; state : ContentState }.

(** [Live::urgent]. *)
Definition live_urgent (l : Live) : bool := bool_decide (st_phase (state l) = Question).

(** ** What an activity shows (decide.rs) *)

Definition LINGER_S : N := 15 * 60.
Definition DEFAULT_STEP : str := lit "Working".

Definition is_user (k : Transcript.EntryKind) : bool := match k with Transcript.User _ _ => true | _ => false end.

(** [Iterator::take_while]. *)
Fixpoint take_while {A} (p : A → bool) (l : list A) : list A :=
  match l with
  | [] => []
  | a :: l => if p a then a :: take_while p l else []
  end.

(** The entries of the current turn, the newest first. *)
Definition turn_entries (t : Transcript.Transcript) : list Transcript.Entry :=
  take_while (λ e, negb (is_user (Transcript.kind e))) (reverse (Transcript.entries t)).

Definition tool_running (tool : Transcript.Tool) : bool :=
  match Transcript.tool_status tool with
  | Transcript.Tool_Pending | Transcript.Tool_InProgress => true
  | _ => false
  end.

(** The loop of [previous]. *)
Fixpoint previous_loop (step : str) (es : list Transcript.Entry) (steps : list str) : list str :=
  match es with
  | [] => steps
  | e :: es =>
      match Transcript.kind e with
      | Transcript.ToolEntry tool =>
          if bool_decide (trim (Transcript.tool_title tool) = []) then previous_loop step es steps
          else
            let title := excerpt (Transcript.tool_title tool) in
            let steps :=
              if negb (bool_decide (title = step)) && negb (bool_decide (title ∈ steps)) then steps ++ [title] else steps in
            if (length steps =? MAX_PREVIOUS)%nat then steps else previous_loop step es steps
      | _ => previous_loop step es steps
      end
  end.

(** [previous]. *)
Definition previous (t : Transcript.Transcript) (step : str) : list str := reverse (previous_loop step (turn_entries t) []).

Definition plan_done (e : Transcript.PlanEntry) : bool :=
  match Transcript.plan_status e with Transcript.Plan_Completed => true | _ => false end.

(** [plan_counts]. *)
Definition plan_counts (plan : list Transcript.PlanEntry) : option N * option N :=
  match plan with
  | [] => (None, None)
  | _ =>
      let count n := if N.of_nat n <=? u32_max then N.of_nat n else u32_max in
      (Some (count (length (filter (λ e, plan_done e = true) plan))), Some (count (length plan)))
  end.

(** The loop of [step]: the running tool, or the last one with a title. *)
Fixpoint step_loop (es : list Transcript.Entry) (last_tool : option str) : str + option str :=
  match es with
  | [] => inr last_tool
  | e :: es =>
      match Transcript.kind e with
      | Transcript.ToolEntry tool =>
          if bool_decide (trim (Transcript.tool_title tool) = []) then step_loop es last_tool
          else if tool_running tool then inl (excerpt (Transcript.tool_title tool))
          else step_loop es (match last_tool with None => Some (Transcript.tool_title tool) | _ => last_tool end)
      | _ => step_loop es last_tool
      end
  end.

(** [step] and [current_step]. *)
Definition step (t : Transcript.Transcript) (plan : list Transcript.PlanEntry) : str :=
  match step_loop (turn_entries t) None with
  | inl title => title
  | inr last_tool =>
      let planned :=
        Transcript.plan_content <$>
          find (λ e, match Transcript.plan_status e with Transcript.Plan_InProgress => true | _ => false end) plan in
      match planned, last_tool with
      | Some text, _ | None, Some text => excerpt text
      | None, None => DEFAULT_STEP
      end
  end.
Definition current_step (t : Transcript.Transcript) : str := step t (Transcript.plan t).

(** [summarized]. *)
Definition summarized (t : Transcript.Transcript) : bool :=
  match last (Transcript.entries t) with
  | Some e => match Transcript.kind e with Transcript.TurnEntry _ => true | _ => false end
  | None => false
  end.

(** [computer_id]. *)
Definition computer_id (fingerprint : str) : str := to_ascii_uppercase <$> filter (λ c, c ≠ 58) fingerprint.

(** [place]. *)
Definition place (chat : Chat) : str :=
  if bool_decide (chat_title chat = []) then excerpt (chat_workspace chat)
  else excerpt (chat_workspace chat ++ Display.DOT ++ chat_title chat).

(** [phase]. *)
Definition phase (t : Transcript.Transcript) : Phase := if Transcript.is_blocked t then Question else Working.

(** [asking]. *)
Definition asking (s : ContentState) (p : Transcript.Permission) : ContentState :=
  MkContentState (take MAX_BUTTONS (Transcript.permission_options p)) (Some (Transcript.permission_id p)) (st_phase s) (st_plan_done s)
    (st_plan_total s) (st_previous s) (st_question s) (st_started_at s) (st_step s) (st_summary s) (st_waiting s) (st_working s).

Definition with_question (s : ContentState) (q : option str) : ContentState :=
  MkContentState (st_options s) (st_permission s) (st_phase s) (st_plan_done s) (st_plan_total s) (st_previous s) q
    (st_started_at s) (st_step s) (st_summary s) (st_waiting s) (st_working s).
Definition with_summary (s : ContentState) (q : option str) : ContentState :=
  MkContentState (st_options s) (st_permission s) (st_phase s) (st_plan_done s) (st_plan_total s) (st_previous s) (st_question s)
    (st_started_at s) (st_step s) q (st_waiting s) (st_working s).
Definition with_plan (s : ContentState) (counts : option N * option N) : ContentState :=
  MkContentState (st_options s) (st_permission s) (st_phase s) counts.1 counts.2 (st_previous s) (st_question s)
    (st_started_at s) (st_step s) (st_summary s) (st_waiting s) (st_working s).
Definition with_started (s : ContentState) (at_ : N) : ContentState :=
  MkContentState (st_options s) (st_permission s) (st_phase s) (st_plan_done s) (st_plan_total s) (st_previous s) (st_question s)
    at_ (st_step s) (st_summary s) (st_waiting s) (st_working s).

(** [state]. *)
Definition state_for (before : Transcript.Transcript) (phase : Phase) (step : str) : ContentState :=
  let '(done, total) := plan_counts (Transcript.plan before) in
  let s :=
    MkContentState [] None phase done total (previous before step) None
      (match Transcript.turn before with Some turn => Transcript.turn_started_ms turn / 1000 | None => 0 end) step None 0 0 in
  match phase, head (Transcript.permissions before) with
  | Question, Some permission => asking (with_question s (Some (excerpt (Transcript.permission_title permission)))) permission
  | _, _ => s
  end.

(** [update] and [end]. *)
Definition update (chat : Chat) (s : ContentState) (alert : option Banner) : Live := MkLive (Update alert) (chat_pane chat) s.
Definition end_at (chat : Chat) (s : ContentState) (dismissal_s : N) : Live := MkLive (End_ dismissal_s) (chat_pane chat) s.

(** [turn_ended]. *)
Definition live_turn_ended (chat : Chat) (before : Transcript.Transcript) (summary : Transcript.TurnSummary) (now_s : N) : Live :=
  let phase :=
    match Transcript.turn_end summary with
    | Transcript.EndFailed | Transcript.EndRefused => Failed
    | _ => Finished
    end in
  let s := with_summary (state_for before phase (current_step before)) (Some (Display.describe summary)) in
  end_at chat s (match Transcript.turn_end summary with Transcript.Cancelled => now_s | _ => now_s + LINGER_S end).

(** [tool_step]. *)
Definition tool_step (chat : Chat) (before : Transcript.Transcript) (tool : Transcript.Tool) : option Live :=
  if negb (tool_running tool) || bool_decide (trim (Transcript.tool_title tool) = []) then None
  else
    let step := excerpt (Transcript.tool_title tool) in
    if bool_decide (step = current_step before) then None
    else Some (update chat (state_for before (phase before) step) None).

(** [decide]. *)
Definition live_decide (chat : Chat) (computer fingerprint : str) (before : Transcript.Transcript) (change : Transcript.Change)
    (now_ms : N) : option Live :=
  let now_s := now_ms / 1000 in
  let running := bool_decide (is_Some (Transcript.turn before)) in
  match change with
  | Transcript.SetTurn (Some turn) =>
      if running then None
      else
        let s := with_plan (with_started (state_for before Working DEFAULT_STEP) (Transcript.turn_started_ms turn / 1000)) (None, None) in
        Some (MkLive
          (Start (MkBanner (place chat) (chat_agent chat ++ lit " is working"))
             (MkAttributes (excerpt (chat_agent chat)) (excerpt (chat_title chat)) (excerpt computer) (computer_id fingerprint)
                (chat_pane chat) (excerpt (chat_workspace chat))))
          (chat_pane chat) s)
  | Transcript.SetTurn None =>
      if running && negb (summarized before) then
        Some (end_at chat (with_summary (state_for before Failed (current_step before)) (Some (chat_agent chat ++ lit " stopped")))
                (now_s + LINGER_S))
      else None
  | Transcript.Push entry =>
      if running then
        match Transcript.kind entry with
        | Transcript.TurnEntry summary => Some (live_turn_ended chat before summary now_s)
        | Transcript.ToolEntry tool => tool_step chat before tool
        | _ => None
        end
      else None
  | Transcript.Replace entry =>
      if running then
        match Transcript.kind entry with
        | Transcript.ToolEntry tool => tool_step chat before tool
        | _ => None
        end
      else None
  | Transcript.SetPlan plan =>
      if running then
        let s := with_plan (state_for before (phase before) (step before plan)) (plan_counts plan) in
        let unchanged :=
          bool_decide (st_step s = current_step before) && bool_decide (plan_counts plan = plan_counts (Transcript.plan before)) in
        if unchanged then None else Some (update chat s None)
      else None
  | Transcript.PermissionAsked permission =>
      if running && negb (Transcript.auto_accept before) then
        let s := with_question (state_for before Question (current_step before)) (Some (excerpt (Transcript.permission_title permission))) in
        Some (update chat (asking s permission) (Some (MkBanner (place chat) (chat_agent chat ++ lit " needs an answer"))))
      else None
  | Transcript.PermissionResolved id =>
      if running then
        match Transcript.permissions before with
        | [only] =>
            if Transcript.permission_id only =? id
            then Some (update chat (state_for before Working (current_step before)) None) else None
        | _ => None
        end
      else None
  | Transcript.SetStatus (Transcript.Status_Failed message) =>
      if running then
        Some (end_at chat (with_summary (state_for before Failed (current_step before)) (Some (excerpt message))) (now_s + LINGER_S))
      else None
  | _ => None
  end.

(** ** What a device's choices leave (redact.rs) *)

Definition GENERIC_BODY : str := lit "Open Sheprd for details".
Definition GENERIC_QUESTION : str := lit "Open Sheprd to answer".

(** [app::config::ActivityDetail]. *)
Inductive ActivityDetail := Detailed | GenericDetail.
#[export] Instance ActivityDetail_eq_dec : EqDecision ActivityDetail.
Proof. solve_decision. Defined.

(** [Live::hide_quotes]. *)
Definition hide_quotes (l : Live) : Live :=
  let s := state l in
  MkLive (event l) (pane l)
    (MkContentState [] None (st_phase s) (st_plan_done s) (st_plan_total s) (st_previous s) None (st_started_at s) (st_step s)
       (match st_phase s with Failed => None | _ => st_summary s end) (st_waiting s) (st_working s)).

(** [Live::hide_chat]. *)
Definition hide_chat (l : Live) : Live :=
  let s := state l in
  MkLive
    (match event l with
     | Start alert a =>
         Start (MkBanner GENERIC_BODY (banner_title alert))
           (MkAttributes (att_agent a) [] (att_computer a) (att_computer_id a) (att_pane a) (att_computer a))
     | Update (Some alert) => Update (Some (MkBanner GENERIC_BODY (banner_title alert)))
     | Update None => Update None
     | End_ d => End_ d
     end)
    (pane l)
    (MkContentState (st_options s) (st_permission s) (st_phase s) (st_plan_done s) (st_plan_total s) [] (st_question s)
       (st_started_at s)
       (match st_phase s with Working => DEFAULT_STEP | Question => GENERIC_QUESTION | Failed | Finished => GENERIC_BODY end)
       None (st_waiting s) (st_working s)).

(** [Live::redacted]. *)
Definition redacted (l : Live) (privacy : Privacy) (detail : ActivityDetail) : Live :=
  let l := if bool_decide (privacy = Generic) || bool_decide (detail = GenericDetail) then hide_quotes l else l in
  if bool_decide (detail = GenericDetail) then hide_chat l else l.

(** ** Pacing (pacer.rs) *)

Definition STEP_INTERVAL_MS : N := 10000.

Record Held := MkHeld { held_last_ms : N; held_pending : option Live }.

(** [Pacer]. *)
Abbreviation Pacer := (gmap (list N) Held) (only parsing).

(** [Pacer::offer]. *)
Definition pacer_offer (p : Pacer) (l : Live) (now_ms : N) : Pacer * option Live :=
  let send := (<[pane l := MkHeld now_ms None]> p, Some l) in
  match event l with
  | End_ _ => (delete (pane l) p, Some l)
  | Start _ _ => send
  | Update _ =>
      if live_urgent l then send
      else
        match p !! pane l with
        | Some recent =>
            if now_ms - held_last_ms recent <? STEP_INTERVAL_MS
            then (<[pane l := MkHeld (held_last_ms recent) (Some l)]> p, None)
            else send
        | None => send
        end
  end.

(** One chat of [Pacer::due]. *)
Definition released (now_ms : N) (h : Held) : option Live :=
  if STEP_INTERVAL_MS <=? now_ms - held_last_ms h then held_pending h else None.

Section pacer.
Context {order : IterOrder (list N) Held}.

(** [Pacer::due]. *)
Definition pacer_due (p : Pacer) (now_ms : N) : Pacer * list Live :=
  ((λ h, match released now_ms h with Some _ => MkHeld now_ms None | None => h end) <$> p,
   omap (λ '(_, h), released now_ms h) (iter p)).

Inductive PacerOp := P_Offer (l : Live) | P_Due.

Definition pacer_op (p : Pacer) (op : PacerOp) (now : N) : Pacer * list Live :=
  match op with
  | P_Offer l => let '(p, r) := pacer_offer p l now in (p, option_list r)
  | P_Due => pacer_due p now
  end.

Definition pacer_run (ops : list (N * PacerOp)) (p : Pacer) (h : list (N * Live)) : Pacer * list (N * Live) :=
  foldl (λ '(p, h) '(now, op), let '(p, out) := pacer_op p op now in (p, h ++ (pair now <$> out))) (p, h) ops.
End pacer.

(** ** Tokens (tokens.rs) *)

Definition MAX_ACTIVITIES : nat := 32.
Definition MAX_PANE : nat := 128.

(** [DeviceToken] and the point of a [NotifyKey]: compared only. *)
Definition DeviceToken := list N.
Definition NotifyKey := list N.

Record ActivityToken := MkActivityToken { at_pane : str; at_token : DeviceToken }.

Record Registration := MkRegistration {
  reg_activities : list ActivityToken; activity_detail : ActivityDetail; reg_alert : option DeviceToken;
  notify_key : option NotifyKey; push_to_start : option DeviceToken }.

Definition registration_default : Registration := MkRegistration [] Detailed None None None.

(** [Registration::is_empty]. *)
Definition registration_empty (r : Registration) : bool :=
  bool_decide (push_to_start r = None) && bool_decide (reg_activities r = []) && bool_decide (reg_alert r = None)
  && bool_decide (notify_key r = None).

(** [Registration::alerts]. *)
Definition alerts_of (r : Registration) : option (DeviceToken * NotifyKey) :=
  t ← reg_alert r; k ← notify_key r; Some (t, k).

Inductive TokenError := TooManyActivities (len : N) | Pane.

Definition valid_pane (p : str) : bool :=
  (1 <=? length p)%nat && (length p <=? MAX_PANE)%nat && negb (existsb is_control p).

(** [Registration::check]. *)
Definition registration_check (r : Registration) : res TokenError unit :=
  if (MAX_ACTIVITIES <? length (reg_activities r))%nat then Err (TooManyActivities (lenN (reg_activities r)))
  else if negb (forallb (λ a, valid_pane (at_pane a)) (reg_activities r)) then Err Pane
  else Ok tt.

(** The loop of [Registration::merge] over the tokens, the latest first. *)
Definition keep_first (kept : list ActivityToken) (a : ActivityToken) : list ActivityToken :=
  if existsb (λ k, bool_decide (at_pane k = at_pane a)) kept then kept else kept ++ [a].

(** [Registration::merge]. *)
Definition merge (r update : Registration) : Registration :=
  let newer {A} (new old : option A) := match new with Some _ => new | None => old end in
  MkRegistration (reverse (foldl keep_first [] (reverse (reg_activities update)))) (activity_detail update)
    (newer (reg_alert update) (reg_alert r)) (newer (notify_key update) (notify_key r))
    (newer (push_to_start update) (push_to_start r)).

(** [Registration::activity]. *)
Definition activity_token (r : Registration) (pane : str) : option DeviceToken :=
  at_token <$> find (λ a, bool_decide (at_pane a = pane)) (reg_activities r).

(** [Registration::forget]. *)
Definition forget_token (r : Registration) (token : DeviceToken) : Registration * bool :=
  let kept := filter (λ a, at_token a ≠ token) (reg_activities r) in
  let drop_it (t : option DeviceToken) := if bool_decide (t = Some token) then None else t in
  (MkRegistration kept (activity_detail r) (drop_it (reg_alert r)) (notify_key r) (drop_it (push_to_start r)),
   negb (length kept =? length (reg_activities r))%nat || bool_decide (push_to_start r = Some token)
   || bool_decide (reg_alert r = Some token)).

(** [Registration::end]. *)
Definition end_activity (r : Registration) (pane : str) : Registration * bool :=
  let kept := filter (λ a, at_pane a ≠ pane) (reg_activities r) in
  (MkRegistration kept (activity_detail r) (reg_alert r) (notify_key r) (push_to_start r),
   negb (length kept =? length (reg_activities r))%nat).

(** ** What a generic activity says *)

(** What a push may say of a chat on a device that keeps its activities
    generic: the agent, the phase, the plan's counts, when the turn started and
    when the activity goes; the computer; and the pane it is about. *)
Definition visible (l : Live) : option (str * option (str * str * str * str)) * option N * str * Phase * (option N * option N) * N * (N * N) :=
  let s := state l in
  (match event l with
   | Start alert a => Some (banner_title alert, Some (att_agent a, att_computer a, att_computer_id a, att_pane a))
   | Update (Some alert) => Some (banner_title alert, None)
   | Update None => None
   | End_ _ => None
   end,
   match event l with End_ d => Some d | _ => None end,
   pane l, st_phase s, (st_plan_done s, st_plan_total s), st_started_at s, (st_waiting s, st_working s)).

(** On a device that keeps its activities generic, whatever the computer's own choice, two pushes that
    agree on the agent, the phase, the counts and the times are the same push: the chat's title, its workspace, the
    steps, the question with its buttons and the summary leave no trace. *)
Theorem generic_activity (l l' : Live) (privacy privacy' : Privacy) :
  visible l = visible l' → redacted l privacy GenericDetail = redacted l' privacy' GenericDetail.
Proof.
  destruct l as [e p s], l' as [e' p' s']. unfold visible, redacted. cbn. rewrite !orb_true_r. unfold hide_chat, hide_quotes. cbn.
  intros [= Hal Hend -> -> -> -> -> -> ->].
  destruct e as [b a|[b|]|d], e' as [b' a'|[b'|]|d']; simplify_eq/=; congruence.
Qed.

Definition asked_update (question : string) : Live :=
  MkLive (Update (Some (MkBanner (lit question) (lit "Claude")))) (lit "p1")
    (MkContentState [] (Some 1) Question None None [lit "Read the file"] (Some (lit question)) 100 (lit question) None 1 0).

Lemma generic_activity_witness :
  asked_update "Delete it?" ≠ asked_update "Push it?"
  ∧ redacted (asked_update "Delete it?") Excerpt GenericDetail = redacted (asked_update "Push it?") Generic GenericDetail.
Proof. split; [discriminate|]. apply generic_activity. reflexivity. Defined.

(** ** An activity that started ends *)

(** The pushes of a run of changes, each decided on the transcript before it; a
    change that is refused leaves the transcript as it was. *)
Definition live_step (chat : Chat) (computer fingerprint : str) (now_ms : N) (t : Transcript.Transcript) (c : Transcript.Change)
    : Transcript.Transcript * option Live :=
  (match Transcript.apply t c with Some (t', _) => t' | None => t end, live_decide chat computer fingerprint t c now_ms).

Fixpoint live_run (chat : Chat) (computer fingerprint : str) (t : Transcript.Transcript) (cs : list (N * Transcript.Change))
    : Transcript.Transcript * list Live :=
  match cs with
  | [] => (t, [])
  | (now, c) :: cs =>
      let '(t, l) := live_step chat computer fingerprint now t c in
      let '(t, ls) := live_run chat computer fingerprint t cs in
      (t, option_list l ++ ls)
  end.

Definition is_end (l : Live) : bool := match event l with End_ _ => true | _ => false end.

(** A change that stops the turn, and one that makes an older entry a summary. *)
Definition stops (c : Transcript.Change) : bool := match c with Transcript.SetTurn None => true | _ => false end.
Definition rewrites (c : Transcript.Change) : bool :=
  match c with
  | Transcript.Replace e => match Transcript.kind e with Transcript.TurnEntry _ => true | _ => false end
  | _ => false
  end.
Definition within (c : Transcript.Change) : bool := negb (stops c) && negb (rewrites c).

Definition is_summary (e : Transcript.Entry) : bool :=
  match Transcript.kind e with Transcript.TurnEntry _ => true | _ => false end.

Lemma summarized_last t : summarized t = match last (Transcript.entries t) with Some e => is_summary e | None => false end.
Proof. unfold summarized, is_summary. by destruct (last _). Qed.

(** An entry other than a summary put anywhere leaves the last one no summary. *)
Lemma last_insert (es : list Transcript.Entry) i e :
  is_summary e = false → match last es with Some e => is_summary e | None => false end = false →
  match last (<[i := e]> es) with Some e => is_summary e | None => false end = false.
Proof.
  intros He. destruct es as [|z es _] using rev_ind; [done|]. rewrite last_snoc. intros Hz.
  destruct (Nat.lt_trichotomy i (length es)) as [Hlt|[->|Hgt]].
  - rewrite insert_app_l by done. by rewrite last_snoc.
  - rewrite insert_app_r_alt, Nat.sub_diag by done. cbn. by rewrite last_snoc.
  - rewrite list_insert_ge by (rewrite length_app; cbn; lia). by rewrite last_snoc.
Qed.

Lemma last_drop (es : list Transcript.Entry) k :
  match last es with Some e => is_summary e | None => false end = false →
  match last (drop k es) with Some e => is_summary e | None => false end = false.
Proof.
  destruct es as [|z es _] using rev_ind; [by rewrite drop_nil|]. rewrite last_snoc. intros Hz.
  destruct (Nat.le_gt_cases k (length es)); [by rewrite drop_app_le, last_snoc|].
  by rewrite drop_ge by (rewrite length_app; cbn; lia).
Qed.

Lemma append_no_summary k more k' : Transcript.append_text k more = Some k' → is_summary (Transcript.MkEntry 0 k') = false.
Proof. by destruct k; cbn; intros [= <-]. Qed.

(** During a turn a change that ends no activity leaves the turn running and
    the last entry no summary. *)
Lemma live_step_running chat computer fingerprint now t c :
  is_Some (Transcript.turn t) → summarized t = false → within c = true →
  match (live_step chat computer fingerprint now t c).2 with Some l => is_end l = false | None => True end →
  is_Some (Transcript.turn (live_step chat computer fingerprint now t c).1) ∧ summarized (live_step chat computer fingerprint now t c).1 = false.
Proof.
  intros Ht Hs Hw. rewrite summarized_last in Hs |- *. unfold live_step. cbn [fst snd]. unfold Transcript.apply.
  destruct (Transcript.answers_refused c); [done|].
  destruct c as [e|i more|e|before|v|perm|id|v|v|id|v|v|v|v|v|v|v|v|a]; try done.
  - cbn. rewrite bool_decide_true by done. intros Hl.
    assert (is_summary e = false) as He by (unfold is_summary; by destruct (Transcript.kind e)).
    destruct (Transcript.last_entry_id t) as [x|]; [destruct (_ <=? x); [done|]|]; cbn; by rewrite last_snoc.
  - intros _. destruct (Transcript.position t i) as [k|]; [|done]. cbn. destruct (Transcript.entries t !! k) as [e|]; [|done]. cbn.
    destruct (Transcript.append_text (Transcript.kind e) more) as [k'|] eqn:E; [|done]. cbn. split; [done|]. apply last_insert; [|done].
    by apply append_no_summary in E.
  - intros _. destruct (Transcript.position t _) as [k|]; [|done]. cbn. destruct (Transcript.entries t !! k) as [e'|]; [|done]. cbn.
    split; [done|]. apply last_insert; [|done]. unfold is_summary. cbn in Hw. by destruct (Transcript.kind e).
  - intros _. destruct (_ <? _)%nat; [|done]. destruct (_ <=? _)%nat; [|done]. cbn. split; [done|]. by apply last_drop.
  - intros _. destruct (existsb _ _); done.
  - intros _. destruct (Transcript.position_of _ _); done.
  - intros _. destruct (Transcript.modes t); done.
  - destruct v; [done|]. done.
  - intros _. unfold Transcript.record. destruct (negb _); [done|]. by destruct (Transcript.position_of _ _); [|destruct (_ <=? _)%nat; [destruct (Transcript.position_of _ _)|]].
Qed.

Lemma turn_ended_run chat computer fingerprint t t' cs ls now :
  is_Some (Transcript.turn t) → summarized t = false → Forall (λ c, within c.2 = true) cs →
  live_run chat computer fingerprint t (cs ++ [(now, Transcript.SetTurn None)]) = (t', ls) →
  Exists (λ l, is_end l = true) ls.
Proof.
  revert t t' ls. induction cs as [|[at_ c] cs IH]; intros t t' ls Ht Hs Hw.
  - cbn. rewrite Hs, bool_decide_true by done. intros [= _ <-]. by constructor.
  - apply Forall_cons in Hw as [Hc Hw]. cbn -[live_step].
    pose proof (live_step_running chat computer fingerprint at_ t c Ht Hs Hc) as Hstep.
    destruct (live_step chat computer fingerprint at_ t c) as [t1 l]. cbn [fst snd] in Hstep.
    destruct (live_run _ _ _ t1 _) as [t2 ls1] eqn:Er. intros [= _ <-]. apply Exists_app.
    destruct l as [l|]; [destruct (is_end l) eqn:El; [left; by constructor|]|]; right.
    all: destruct Hstep as [Ht1 Hs1]; [done|]; by eapply IH.
Qed.

(** C32: an activity that a turn started is ended: when the turn stops, at least one push since its start ended the
    activity, whatever changes of the transcript came in between, with two exceptions: the last entry was already
    the summary of an earlier turn when the turn started, or an entry was replaced by a summary during it. *)
Theorem activity_ended (chat : Chat) (computer fingerprint : str) (t t' : Transcript.Transcript) (cs : list (N * Transcript.Change))
    (ls : list Live) (now : N) :
  is_Some (Transcript.turn t) → Forall (λ c, stops c.2 = false) cs →
  live_run chat computer fingerprint t (cs ++ [(now, Transcript.SetTurn None)]) = (t', ls) →
  Exists (λ l, is_end l = true) ls ∨ summarized t = true ∨ Exists (λ c, rewrites c.2 = true) cs.
Proof.
  intros Ht Hstop Hrun. destruct (summarized t) eqn:Hs; [by right; left|].
  destruct (base.decide (Exists (λ c, rewrites c.2 = true) cs)) as [|Hr]; [by right; right|]. apply (not_Exists_Forall _) in Hr.
  left. eapply turn_ended_run; [done|done| |exact Hrun]. apply Forall_forall. intros c Hc. rewrite Forall_forall in Hstop, Hr.
  unfold within. rewrite (Hstop c Hc). cbn. specialize (Hr c Hc). cbn in Hr. by destruct (rewrites c.2).
Qed.

(** A turn that adds nothing after the summary of the one before starts an
    activity that no push ends. *)
Definition summed_up : Transcript.Transcript :=
  Transcript.set_entries (Transcript.transcript_new (lit "Claude"))
    [Transcript.MkEntry 1 (Transcript.TurnEntry (Transcript.MkTurnSummary 12000 None Transcript.Done None))].

Lemma empty_turn_lingers :
  (λ l, is_end l) <$>
    (live_run sample_chat (lit "studio") (lit "AB") summed_up
       [(1000, Transcript.SetTurn (Some (Transcript.MkTurn 1000))); (2000, Transcript.SetTurn None)]).2 = [false].
Proof. vm_compute. reflexivity. Qed.

(** So does a turn whose last entry is replaced by a summary. *)
Lemma replaced_lingers :
  (λ l, is_end l) <$>
    (live_run sample_chat (lit "studio") (lit "AB") (Transcript.transcript_new (lit "Claude"))
       [(1000, Transcript.SetTurn (Some (Transcript.MkTurn 1000)));
        (1500, Transcript.Push (Transcript.MkEntry 1 (Transcript.Agent (lit "Hi"))));
        (1600, Transcript.Replace (Transcript.MkEntry 1 (Transcript.TurnEntry (Transcript.MkTurnSummary 12000 None Transcript.Done None))));
        (2000, Transcript.SetTurn None)]).2 = [false].
Proof. vm_compute. reflexivity. Qed.

Definition sample_turn : Transcript.Transcript := Transcript.set_turn (Transcript.transcript_new (lit "Claude")) (Some (Transcript.MkTurn 1000)).
Definition sample_changes : list (N * Transcript.Change) :=
  [(1500, Transcript.Push (Transcript.MkEntry 1 (Transcript.User (lit "fix it") 0))); (1600, sample_asking (lit "Run tests?"))].

Lemma activity_ended_witness :
  Exists (λ l, is_end l = true)
    (live_run sample_chat (lit "studio") (lit "AB") sample_turn (sample_changes ++ [(9000, Transcript.SetTurn None)])).2.
Proof.
  destruct (activity_ended sample_chat (lit "studio") (lit "AB") sample_turn _ sample_changes _ 9000
              ltac:(by eexists) ltac:(by repeat constructor) (surjective_pairing _)) as [He|[Hs|Hr]].
  - exact He.
  - discriminate Hs.
  - exfalso. apply Exists_exists in Hr as (c & Hc & Hr). unfold sample_changes in Hc.
    repeat (apply elem_of_cons in Hc as [->|Hc]; [discriminate Hr|]). by apply elem_of_nil in Hc.
Defined.

(** ** The pacer *)

Section pacing.
Context {order : IterOrder (list N) Held}.

(** What is held for a pane is that pane's. *)
Definition own_panes (p : Pacer) : Prop := ∀ k h l, p !! k = Some h → held_pending h = Some l → pane l = k.

Lemma pacer_op_own p op now : own_panes p → own_panes (pacer_op p op now).1.
Proof.
  intros Ho. destruct op as [l|]; cbn.
  - assert (own_panes (<[pane l := MkHeld now None]> p)) as Hsend.
    { intros k h m Hk Hm. destruct (base.decide (k = pane l)) as [->|Hne].
      - rewrite lookup_insert_eq in Hk. by injection Hk as <-.
      - rewrite lookup_insert_ne in Hk by done. by eapply Ho. }
    destruct (pacer_offer p l now) as [p' r] eqn:E. cbn. unfold pacer_offer in E. destruct (event l).
    + by injection E as <- _.
    + destruct (live_urgent l); [by injection E as <- _|]. destruct (p !! pane l) as [h|] eqn:Ep; [|by injection E as <- _].
      destruct (_ <? _); injection E as <- _; [|done]. intros k h' m Hk Hm. destruct (base.decide (k = pane l)) as [->|Hne].
      * rewrite lookup_insert_eq in Hk. injection Hk as <-. by injection Hm as <-.
      * rewrite lookup_insert_ne in Hk by done. by eapply Ho.
    + injection E as <- _. intros k h m [_ Hk]%lookup_delete_Some. by apply Ho.
  - intros k h l. rewrite lookup_fmap, fmap_Some. intros (h' & Hk & ->). destruct (released now h'); [done|]. by apply Ho.
Qed.

Lemma pacer_op_absent p op now x :
  own_panes p → p !! x = None → match op with P_Offer l => pane l ≠ x | P_Due => True end →
  (pacer_op p op now).1 !! x = None ∧ Forall (λ l, pane l ≠ x) (pacer_op p op now).2.
Proof.
  intros Ho Hx Hop. destruct op as [l|]; cbn.
  - destruct (pacer_offer p l now) as [p' r] eqn:E. unfold pacer_offer in E.
    assert (p' !! x = None ∧ (r = Some l ∨ r = None)) as [Hp Hr].
    { destruct (event l); [| |injection E as <- <-; split; [by apply lookup_delete_None; right|auto]].
      - injection E as <- <-. rewrite lookup_insert_ne by done. auto.
      - destruct (live_urgent l); [injection E as <- <-; rewrite lookup_insert_ne by done; auto|].
        destruct (p !! pane l); [destruct (_ <? _)|]; injection E as <- <-; rewrite lookup_insert_ne by done; auto. }
    split; [done|]. destruct Hr as [->| ->]; by repeat constructor.
  - split; [by rewrite lookup_fmap, Hx|]. apply Forall_forall. intros l ([k h] & Hin & Hl)%list_elem_of_omap.
    apply elem_of_iter in Hin. unfold released in Hl. destruct (_ <=? _); [|done]. rewrite (Ho k h l) by done. intros ->. congruence.
Qed.

(** An activity that ended stays ended: after its end was sent, however long the daemon runs and whatever
    other chats do, nothing more is sent for the pane, held updates included, until a push for it is offered again. *)
Theorem ended_stays_ended (before after : list (N * PacerOp)) (l : Live) (now : N) (p p' : Pacer) (h h' : list (N * Live)) :
  is_end l = true → pacer_run (before ++ [(now, P_Offer l)]) ∅ [] = (p, h) →
  Forall (λ o, match o.2 with P_Offer m => pane m ≠ pane l | P_Due => True end) after →
  pacer_run after p [] = (p', h') →
  last h = Some (now, l) ∧ Forall (λ e, pane e.2 ≠ pane l) h'.
Proof.
  intros Hend Hrun Hafter Hrun'.
  assert (∀ ops p0 h0, own_panes p0 → own_panes (pacer_run ops p0 h0).1) as Hown.
  { intros ops. induction ops as [|[t op] ops IH]; intros p0 h0 Ho; [done|]. cbn. pose proof (pacer_op_own p0 op t Ho) as H1.
    destruct (pacer_op p0 op t) as [p1 out]. by apply IH. }
  assert (own_panes ∅) as He by (intros k x y Hk; by rewrite lookup_empty in Hk).
  unfold pacer_run in Hrun. rewrite foldl_app in Hrun. fold (pacer_run before ∅ []) in Hrun.
  pose proof (Hown before ∅ [] He) as Ho. destruct (pacer_run before ∅ []) as [p1 h1]. cbn in Ho, Hrun.
  unfold pacer_offer in Hrun. unfold is_end in Hend. destruct (event l) eqn:El; try done. cbn in Hrun. injection Hrun as <- <-.
  split; [by rewrite last_snoc|].
  assert (own_panes (delete (pane l) p1)) as Ho2 by (intros k x y [_ Hk]%lookup_delete_Some; by apply Ho).
  assert ((delete (pane l) p1 : Pacer) !! pane l = None) as Hx by apply lookup_delete_eq.
  assert (∀ h0, Forall (λ e, pane e.2 ≠ pane l) h0 → ∀ q, own_panes q → q !! pane l = None → pacer_run after q h0 = (p', h') →
    Forall (λ e, pane e.2 ≠ pane l) h') as Hgen.
  { clear Hrun' Ho2 Hx. induction Hafter as [|[t op] after Hop _ IH]; intros h0 Hh q Hoq Hq; [by intros [= _ <-]|]. cbn.
    pose proof (pacer_op_own q op t Hoq) as H1. destruct (pacer_op_absent q op t (pane l) Hoq Hq Hop) as [H2 H3].
    destruct (pacer_op q op t) as [q1 out]. cbn in H1, H2, H3. apply IH; [|done..]. apply Forall_app. split; [done|].
    by apply Forall_fmap. }
  by eapply (Hgen [] ltac:(constructor)).
Qed.
End pacing.

Definition sample_live (e : Event) : Live := MkLive e (lit "w1-p3") (state_for sample_turn Working (lit "Reading")).

Lemma ended_stays_ended_witness :
  last (pacer_run ([(0, P_Offer (sample_live (Update None))); (500, P_Offer (sample_live (Update None)))] ++ [(600, P_Offer (sample_live (End_ 900)))]) ∅ []).2
    = Some (600, sample_live (End_ 900)) ∧
  Forall (λ e : N * Live, pane e.2 ≠ pane (sample_live (End_ 900)))
    (pacer_run [(20000, P_Due)] (pacer_run ([(0, P_Offer (sample_live (Update None))); (500, P_Offer (sample_live (Update None)))] ++ [(600, P_Offer (sample_live (End_ 900)))]) ∅ []).1 []).2.
Proof.
  eapply (ended_stays_ended [(0, P_Offer (sample_live (Update None))); (500, P_Offer (sample_live (Update None)))] [(20000, P_Due)]
    (sample_live (End_ 900)) 600).
  - reflexivity.
  - apply surjective_pairing.
  - by repeat constructor.
  - apply surjective_pairing.
Defined.

(** ** Registered tokens *)

Lemma keep_first_spec as_ kept :
  NoDup (at_pane <$> kept) →
  NoDup (at_pane <$> foldl keep_first kept as_) ∧
  ∀ pane, find (λ a, bool_decide (at_pane a = pane)) (foldl keep_first kept as_) = find (λ a, bool_decide (at_pane a = pane)) (kept ++ as_).
Proof.
  revert kept. induction as_ as [|a as_ IH]; intros kept Hnd; cbn; [by rewrite app_nil_r|]. unfold keep_first at 2 4.
  destruct (existsb _ kept) eqn:Ex.
  - destruct (IH kept Hnd) as [H1 H2]. split; [done|]. intros x. rewrite H2.
    apply existsb_exists in Ex as (k & Hk & Ek). apply bool_decide_eq_true in Ek.
    clear -Hk Ek. induction kept as [|y kept IHk]; [done|]. cbn. case_bool_decide as Ey; [done|].
    destruct Hk as [->|Hk]; [|by apply IHk]. rewrite Ek in Ey. clear -Ey. induction kept as [|z kept IHk]; cbn.
    + by rewrite bool_decide_false.
    + by case_bool_decide.
  - destruct (IH (kept ++ [a])) as [H1 H2].
    { rewrite fmap_app. apply NoDup_app. split; [done|]. split; [|apply NoDup_singleton].
      intros y Hy ->%list_elem_of_singleton. apply list_elem_of_fmap in Hy as (k & E & Hk).
      assert (existsb (λ k, bool_decide (at_pane k = at_pane a)) kept = true); [|congruence].
      apply existsb_exists. exists k. split; [by apply list_elem_of_In|]. by apply bool_decide_eq_true. }
    split; [done|]. intros x. rewrite H2. by rewrite <-app_assoc.
Qed.

(** After a merge each pane has one token, the last one the phone sent for it. *)
Lemma merge_activities r update :
  NoDup (at_pane <$> reg_activities (merge r update)) ∧
  ∀ pane t, activity_token (merge r update) pane = Some t ↔
    at_token <$> find (λ a, bool_decide (at_pane a = pane)) (reverse (reg_activities update)) = Some t.
Proof.
  destruct (keep_first_spec (reverse (reg_activities update)) []) as [Hnd Hf]; [constructor|]. unfold merge. cbn [reg_activities].
  split; [by rewrite fmap_reverse, reverse_Permutation|]. intros x t. unfold activity_token. cbn [reg_activities].
  cbn [app] in Hf. rewrite <-(Hf x). set (ks := foldl keep_first [] _) in *. clearbody ks. clear Hf.
  assert (∀ ks, NoDup (at_pane <$> ks) → find (λ a, bool_decide (at_pane a = x)) (reverse ks) = find (λ a, bool_decide (at_pane a = x)) ks) as Hrev.
  { clear. intros ks. induction ks as [|k ks IH]; [done|]. rewrite fmap_cons. intros [Hk Hnd]%NoDup_cons. rewrite reverse_cons. cbn.
    assert (∀ l a, find (λ a, bool_decide (at_pane a = x)) (l ++ [a]) =
      match find (λ a, bool_decide (at_pane a = x)) l with Some y => Some y | None => find (λ a, bool_decide (at_pane a = x)) [a] end) as Happ.
    { intros l a. induction l as [|y l IHl]; [done|]. cbn. by case_bool_decide. }
    rewrite Happ, (IH Hnd). cbn. case_bool_decide as E; [|by destruct (find _ ks)].
    destruct (find _ ks) as [y|] eqn:Ef; [|done]. exfalso. apply find_some in Ef as [Hy Ey]. apply bool_decide_eq_true in Ey.
    apply Hk, list_elem_of_fmap. exists y. split; [congruence|by apply list_elem_of_In]. }
  by rewrite Hrev.
Qed.

(** A token APNs refused is gone from everywhere it was used. *)
Lemma forget_token_gone r token :
  let '(r', b) := forget_token r token in
  token ∉ (at_token <$> reg_activities r') ∧ reg_alert r' ≠ Some token ∧ push_to_start r' ≠ Some token ∧
  (b = false → r' = r).
Proof.
  unfold forget_token. cbn. split; [|split; [|split]].
  - intros (a & -> & [Ha _]%list_elem_of_filter)%list_elem_of_fmap. done.
  - by case_bool_decide.
  - by case_bool_decide.
  - rewrite !orb_false_iff, negb_false_iff, Nat.eqb_eq. intros [[Hl Hp] Ha]. apply bool_decide_eq_false in Hp, Ha.
    rewrite !bool_decide_false by done. destruct r as [as_ d al k ps]. cbn in *. f_equal.
    clear -Hl. induction as_ as [|a as_ IH]; [done|]. rewrite filter_cons in Hl |- *. destruct (base.decide _); cbn in Hl.
    + f_equal. apply IH. lia.
    + pose proof (length_filter (λ a, at_token a ≠ token) as_). lia.
Qed.
End LiveActivity.
