(* ===== verification/Notifier.v ===== *)
(** * Notifier: who is told what, and when
    (crates/sheprd-remote-control/src/server/notifier.rs)

    The parts of [Alerts] put together per device: a notification passes each
    subscribed device's throttle, waits while its owner is near, and goes to the
    device's queue. Which devices are subscribed, the marks of those near and the
    clock are arguments: the code reads them from shared state. The queues and
    the network behind them are not modelled; [log] lists what was put into them,
    in order. *)

From Stdlib Require Import NArith Lia.
From stdpp Require Import base option gmap strings sets list.
From S2P Require Import Prelude Transcript Display Relay Devices Alerts.

Local Open Scope N_scope.

Module Notifier.
Import Alerts.

Definition DeviceId := Devices.DeviceId.

Record Notifier := MkNotifier {
  throttles : gmap (list N) Throttle;
  holds : gmap (list N) (list Notification);
  log : list (list N * Notification) }.

Definition notifier_new : Notifier := MkNotifier ∅ ∅ [].

(** [Outbox::send]. *)
Definition send (s : Notifier) (device : list N) (n : Notification) : Notifier :=
  MkNotifier (throttles s) (holds s) (log s ++ [(device, n)]).

(** [dispatch]. *)
Definition dispatch (s : Notifier) (near : Near) (device : list N) (n : Notification) (now_ms : N) : Notifier :=
  if is_near near device now_ms then
    let '(h, passed) := hold (default [] (holds s !! device)) n in
    let s := MkNotifier (throttles s) (<[device := h]> (holds s)) (log s) in
    match passed with Some n => send s device n | None => s end
  else send s device n.

(** One device of [offer]. *)
Definition offer_device (near : Near) (n : Notification) (now_ms : N) (s : Notifier) (device : list N) : Notifier :=
  let '(th, passed) := Alerts.offer (default throttle_default (throttles s !! device)) n now_ms in
  let s := MkNotifier (<[device := th]> (throttles s)) (holds s) (log s) in
  match passed with Some n => dispatch s near device n now_ms | None => s end.

(** [offer]. *)
Definition offer (s : Notifier) (near : Near) (subscribed : list (list N)) (n : Notification) (now_ms : N) : Notifier :=
  let s := MkNotifier (filter (λ '(device, _), device ∈ subscribed) (throttles s)) (holds s) (log s) in
  foldl (offer_device near n now_ms) s subscribed.

Section tick.
Context {order1 : IterOrder (list N) (list Notification)} {order2 : IterOrder (list N) Throttle} {order3 : IterOrder (list N) Recent}.

(** The loop of [release]. *)
Definition release_device (s : Notifier) (device : list N) : Notifier :=
  match holds s !! device with
  | None => s
  | Some h => MkNotifier (throttles s) (delete device (holds s)) (log s ++ (pair device <$> h))
  end.

(** [release]. *)
Definition release (s : Notifier) (near : Near) (now_ms : N) : Notifier :=
  let near := near_forget near now_ms in
  let gone := filter (λ device, is_near near device now_ms = false) ((iter (holds s)).*1) in
  let s := foldl release_device s gone in
  MkNotifier (throttles s) (filter (λ '(_, h), h ≠ []) (holds s)) (log s).

(** [badge_changes]; the sets are ordered. *)
Definition badge_changes (was now : list (list N)) : list Notification :=
  let left := cleared_for <$> filter (λ pane, pane ∉ now) was in
  match left with
  | [] => if bool_decide (was = now) then [] else [badge]
  | _ => left
  end.

(** The first half of a tick: what the throttles held back. *)
Definition tick_due (s : Notifier) (near : Near) (now_ms : N) : Notifier :=
  let '(ths, out) :=
    foldl (λ '(ths, out) '(device, th),
             let '(th, ns) := due th now_ms in (<[device := th]> ths, out ++ (pair device <$> ns)))
      (throttles s, []) (iter (throttles s)) in
  foldl (λ s '(device, n), dispatch s near device n now_ms) (MkNotifier ths (holds s) (log s)) out.

(** A tick of [run]. *)
Definition tick (s : Notifier) (near : Near) (subscribed : list (list N)) (was needing : list (list N)) (now_ms : N) : Notifier :=
  let s := release (tick_due s near now_ms) near now_ms in
  foldl (λ s n, offer s near subscribed n now_ms) s (badge_changes was needing).
End tick.

(** ** The order of what a chat's notifications reach a device in *)

(** What was put into a device's queue for a chat. *)
Definition logged (device k : list N) (l : list (list N * Notification)) : list Notification :=
  snd <$> filter (λ e, e.1 = device ∧ tag e.2 = k) l.

(** What a device holds for a chat. *)
Definition held (device k : list N) (s : Notifier) : list Notification :=
  filter (λ n, tag n = k) (default [] (holds s !! device)).

(** An operation the notifier is made of: a notification for a device, or the
    release of what a device holds. *)
Inductive Step :=
| Dispatch (near : Near) (device : list N) (n : Notification) (now_ms : N)
| Release (device : list N).

Definition do_step (s : Notifier) (op : Step) : Notifier :=
  match op with
  | Dispatch near device n now => dispatch s near device n now
  | Release device => release_device s device
  end.

Definition dispatched (op : Step) : list (list N * Notification) :=
  match op with Dispatch _ device n _ => [(device, n)] | Release _ => [] end.

(** A device that is not near has nothing left waiting. *)
Definition released_first (s : Notifier) (op : Step) : Prop :=
  match op with
  | Dispatch near device n now => is_near near device now = true ∨ holds s !! device = None
  | Release _ => True
  end.

Fixpoint steps (s : Notifier) (ops : list Step) : Notifier :=
  match ops with
  | [] => s
  | op :: ops => steps (do_step s op) ops
  end.

Fixpoint in_turn (s : Notifier) (ops : list Step) : Prop :=
  match ops with
  | [] => True
  | op :: ops => released_first s op ∧ in_turn (do_step s op) ops
  end.

Lemma sublist_filter_mono {A} (P : A → Prop) `{∀ x, Decision (P x)} (l k : list A) :
  l `sublist_of` k → filter P l `sublist_of` filter P k.
Proof.
  induction 1 as [|x l k Hl IH|x l k Hl IH]; [done|..].
  - rewrite !filter_cons. destruct (base.decide (P x)); [by constructor|done].
  - rewrite filter_cons. destruct (base.decide (P x)); [by constructor|done].
Qed.

Lemma logged_app device k l l' : logged device k (l ++ l') = logged device k l ++ logged device k l'.
Proof. unfold logged. by rewrite filter_app, fmap_app. Qed.

Lemma logged_one device k d n : logged device k [(d, n)] = if bool_decide (d = device ∧ tag n = k) then [n] else [].
Proof. unfold logged. rewrite filter_cons. cbn [fst snd]. case_bool_decide; [by rewrite decide_True|by rewrite decide_False]. Qed.

Lemma logged_device device k (h : list Notification) : logged device k (pair device <$> h) = filter (λ n, tag n = k) h.
Proof.
  unfold logged. induction h as [|n h IH]; [done|]. rewrite fmap_cons, !filter_cons. cbn [fst snd].
  destruct (base.decide (tag n = k)); [rewrite decide_True by done|rewrite decide_False by tauto]; cbn; by rewrite IH.
Qed.

Lemma logged_other device k d (h : list Notification) : d ≠ device → logged device k (pair d <$> h) = [].
Proof. intros Hd. unfold logged. induction h as [|n h IH]; [done|]. rewrite fmap_cons, filter_cons_False; [done|]. cbn. tauto. Qed.

(** What holding one more does to what is held for a chat. *)
Lemma hold_held (h h' : list Notification) n r k :
  hold h n = (h', r) →
  (tag n ≠ k → filter (λ m, tag m = k) h' `sublist_of` filter (λ m, tag m = k) h) ∧
  (tag n = k → option_list r ++ filter (λ m, tag m = k) h' = [n]) ∧ (r = Some n ∨ r = None).
Proof.
  unfold hold. set (kept := filter (λ held, tag held ≠ tag n) (h : list Notification)).
  assert (tag n = k → filter (λ m, tag m = k) kept = []) as Hnone.
  { intros <-. unfold kept. rewrite list_filter_filter. clear. induction h as [|m h IH]; [done|]. rewrite filter_cons_False; [done|tauto]. }
  destruct (clear n); intros [= <- <-].
  - split; [intros _; apply sublist_filter_mono, sublist_filter|]. split; [|by left]. intros Hk. by rewrite Hnone.
  - split; [|split; [|by right]].
    + intros Hk. etrans; [apply sublist_filter_mono, sublist_drop|]. rewrite filter_app, (filter_cons_False _ n) by done.
      rewrite app_nil_r. apply sublist_filter_mono, sublist_filter.
    + intros Hk. cbn. rewrite drop_app_le by (rewrite length_app; unfold MAX_HELD; cbn [length]; lia).
      rewrite filter_app, (filter_cons_True _ n) by done. rewrite <-(app_nil_l [n]) at 2. f_equal.
      assert (filter (λ m, tag m = k) (drop (length (kept ++ [n]) - MAX_HELD) kept) `sublist_of` filter (λ m, tag m = k) kept) as Hs
        by apply sublist_filter_mono, sublist_drop.
      rewrite (Hnone Hk) in Hs. by apply sublist_nil_r.
Qed.

Lemma do_step_order s op device k past :
  released_first s op →
  logged device k (log s) ++ held device k s `sublist_of` logged device k past →
  logged device k (log (do_step s op)) ++ held device k (do_step s op) `sublist_of` logged device k (past ++ dispatched op).
Proof.
  intros Hop Hs. assert (logged device k (log s) `sublist_of` logged device k past) as Hl.
  { etrans; [|exact Hs]. by apply sublist_inserts_r. }
  destruct op as [near d n now|d]; cbn.
  - rewrite (logged_app _ _ past), logged_one. unfold dispatch. cbn in Hop. destruct (is_near near d now).
    + destruct (hold (default [] (holds s !! d)) n) as [h' r] eqn:Eh. destruct (hold_held _ _ _ _ k Eh) as (Hne & Heq & Hr).
      assert (held device k (MkNotifier (throttles s) (<[d := h']> (holds s)) (log s)) =
        if bool_decide (d = device) then filter (λ m, tag m = k) h' else held device k s) as Hheld.
      { unfold held. cbn. case_bool_decide as Ed; [by rewrite Ed, lookup_insert_eq|by rewrite lookup_insert_ne]. }
      assert (logged device k (log s) ++ logged device k (pair d <$> option_list r) ++
        (if bool_decide (d = device) then filter (λ m, tag m = k) h' else held device k s)
        `sublist_of` logged device k past ++ (if bool_decide (d = device ∧ tag n = k) then [n] else [])) as Hgoal.
      { destruct (base.decide (d = device)) as [->|Hd].
        - rewrite logged_device, (bool_decide_true (device = device)) by done. destruct (base.decide (tag n = k)) as [Hk|Hk].
          + rewrite (bool_decide_true (device = device ∧ _)) by done. apply sublist_app; [done|].
            assert (filter (λ m, tag m = k) (option_list r) = option_list r) as ->.
            { destruct Hr as [->| ->]; [|done]. change (option_list (Some n)) with [n]. by rewrite filter_cons_True. }
            by rewrite (Heq Hk).
          + rewrite (bool_decide_false (device = device ∧ _)) by tauto. rewrite app_nil_r.
            assert (filter (λ m, tag m = k) (option_list r) = []) as ->.
            { destruct Hr as [->| ->]; [|done]. change (option_list (Some n)) with [n]. by rewrite filter_cons_False. }
            etrans; [|exact Hs]. apply sublist_app; [done|]. cbn. by apply Hne.
        - rewrite logged_other, (bool_decide_false (d = device)), (bool_decide_false (d = device ∧ _)) by tauto. by rewrite app_nil_r. }
      rewrite <-Hheld in Hgoal. destruct Hr as [->| ->]; [|done].
      change (held device k (send (MkNotifier (throttles s) (<[d := h']> (holds s)) (log s)) d n))
        with (held device k (MkNotifier (throttles s) (<[d := h']> (holds s)) (log s))).
      cbn [log send]. rewrite (logged_app _ _ (log s)). by rewrite <-app_assoc.
    + destruct Hop as [Hop|Hop]; [done|]. cbn [log send]. rewrite (logged_app _ _ (log s)), logged_one.
      change (held device k (send s d n)) with (held device k s). case_bool_decide as E.
      * destruct E as [-> _]. assert (held device k s = []) as -> by (unfold held; by rewrite Hop).
        rewrite app_nil_r. by apply sublist_app.
      * by rewrite !app_nil_r.
  - rewrite app_nil_r. unfold release_device. destruct (holds s !! d) as [h|] eqn:Eh; [|done]. cbn [log].
    rewrite logged_app. destruct (base.decide (d = device)) as [->|Hd].
    + rewrite logged_device. unfold held at 1. cbn. rewrite lookup_delete_eq. cbn. rewrite app_nil_r.
      unfold held in Hs. by rewrite Eh in Hs.
    + rewrite logged_other by done. rewrite app_nil_r. unfold held at 1. cbn. rewrite lookup_delete_ne by done. exact Hs.
Qed.

(** A device hears of each chat in order: as long as what a device holds is released before anything else is
    sent to it once its owner has left, what is put into its queue for a chat is, in the same order, some of what the
    notifier let through for it; so a question never follows the clear that answers it. *)
Theorem order_kept (ops : list Step) (device k : list N) :
  in_turn notifier_new ops →
  logged device k (log (steps notifier_new ops)) `sublist_of` logged device k (ops ≫= dispatched).
Proof.
  intros Hin.
  assert (∀ s past, in_turn s ops → logged device k (log s) ++ held device k s `sublist_of` logged device k past →
    logged device k (log (steps s ops)) `sublist_of` logged device k (past ++ (ops ≫= dispatched))) as Hgen.
  { clear Hin. induction ops as [|op ops IH]; intros s past Hin Hs.
    - cbn. rewrite app_nil_r. etrans; [|exact Hs]. by apply sublist_inserts_r.
    - destruct Hin as [Hop Hin]. cbn [steps]. rewrite bind_cons, app_assoc. apply IH; [done|]. by apply do_step_order. }
  apply (Hgen notifier_new [] Hin). constructor.
Qed.

Definition sample_near : Near := {[ lit "d1" := 5000 ]}.
Definition sample_question : Notification := sample_note Kind_Question.
Definition sample_clear : Notification := cleared_for (lit "w1-p3").

Lemma order_kept_witness :
  logged (lit "d1") (tag sample_question)
    (log (steps notifier_new [Dispatch sample_near (lit "d1") sample_question 1000; Release (lit "d1"); Dispatch ∅ (lit "d1") sample_clear 6000]))
    `sublist_of`
  logged (lit "d1") (tag sample_question)
    ([Dispatch sample_near (lit "d1") sample_question 1000; Release (lit "d1"); Dispatch ∅ (lit "d1") sample_clear 6000] ≫= dispatched).
Proof.
  apply (order_kept [Dispatch sample_near (lit "d1") sample_question 1000; Release (lit "d1"); Dispatch ∅ (lit "d1") sample_clear 6000]).
  split; [left; vm_compute; reflexivity|]. split; [exact I|]. split; [right; vm_compute; reflexivity|exact I].
Defined.

(** Between the moment a mark lapses and the next tick the condition fails: the
    clear is sent at once, and the question it answers is released after it. *)
Lemma stale_after_clear :
  (log (release (dispatch (dispatch notifier_new sample_near (lit "d1") sample_question 1000) sample_near (lit "d1") sample_clear 5000)
     sample_near 5500)).*2 = [sample_clear; sample_question].
Proof. vm_compute. reflexivity. Qed.
End Notifier.
