(* ===== verification/Ansi.v ===== *)
(** * Ansi: a pane's screen as runs of styled text
    (crates/sheprd-remote-control/src/ansi.rs, web/render/ansi.rs)

    Terminal output is untrusted: only SGR parameters are read. Text is
    characters; the rendered page's escaping is maud's. *)

From Stdlib Require Import NArith Lia.
From stdpp Require Import base option strings list.
From S2P Require Import Prelude.

Local Open Scope N_scope.

Module Ansi.

Definition MAX_TEXT : nat := N.to_nat (256 * 1024).

Inductive Color := Default | Named (index : N) | Rgb (r g b : N).
#[export] Instance Color_eq_dec : EqDecision Color.
Proof. solve_decision. Defined.

Record Style := MkStyle {
  fg : Color; bg : Color; bold : bool; dim : bool; italic : bool; underline : bool; reverse_ : bool; hidden : bool; strike : bool }.
#[export] Instance Style_eq_dec : EqDecision Style.
Proof. solve_decision. Defined.

Definition style_default : Style := MkStyle Default Default false false false false false false false.

Definition Run : Type := Style * list N.
Record Screen := MkScreen { lines : list (list (Style * list N)); columns : nat }.

(** ** Colors *)

(** [palette]; [u8] arithmetic, which the bounds below show never wraps. *)
Definition level (value : N) : N := if value =? 0 then 0 else (55 + value * 40) mod 256.
Definition palette (index : N) : Color :=
  if index <=? 15 then Named index
  else if index <=? 231 then
    let index := index - 16 in
    Rgb (level (index / 36)) (level (index / 6 mod 6)) (level (index mod 6))
  else
    let gray := (8 + (index - 232) * 10) mod 256 in
    Rgb gray gray gray.

Definition named (index : N) : Color := Named (if index <=? u8_max then index else 7).

(** [byte] of [extended]: the next code, cut to a byte, and the codes after it. *)
Definition byte (codes : list N) : N * list N :=
  match codes with
  | [] => (0, [])
  | v :: codes => (if v <=? u8_max then v else u8_max, codes)
  end.

(** [extended]. *)
Definition extended (codes : list N) : Color * list N :=
  match codes with
  | [] => (Default, [])
  | v :: codes =>
      if v =? 5 then let '(i, codes) := byte codes in (palette i, codes)
      else if v =? 2 then
        let '(r, codes) := byte codes in
        let '(g, codes) := byte codes in
        let '(b, codes) := byte codes in
        (Rgb r g b, codes)
      else (Default, codes)
  end.

(** ** SGR sequences *)

Definition set_fg (s : Style) (c : Color) : Style :=
  MkStyle c (bg s) (bold s) (dim s) (italic s) (underline s) (reverse_ s) (hidden s) (strike s).
Definition set_bg (s : Style) (c : Color) : Style :=
  MkStyle (fg s) c (bold s) (dim s) (italic s) (underline s) (reverse_ s) (hidden s) (strike s).
Definition set_weight (s : Style) (b d : bool) : Style :=
  MkStyle (fg s) (bg s) b d (italic s) (underline s) (reverse_ s) (hidden s) (strike s).
Definition set_italic (s : Style) (v : bool) : Style :=
  MkStyle (fg s) (bg s) (bold s) (dim s) v (underline s) (reverse_ s) (hidden s) (strike s).
Definition set_underline (s : Style) (v : bool) : Style :=
  MkStyle (fg s) (bg s) (bold s) (dim s) (italic s) v (reverse_ s) (hidden s) (strike s).
Definition set_reverse (s : Style) (v : bool) : Style :=
  MkStyle (fg s) (bg s) (bold s) (dim s) (italic s) (underline s) v (hidden s) (strike s).
Definition set_hidden (s : Style) (v : bool) : Style :=
  MkStyle (fg s) (bg s) (bold s) (dim s) (italic s) (underline s) (reverse_ s) v (strike s).
Definition set_strike (s : Style) (v : bool) : Style :=
  MkStyle (fg s) (bg s) (bold s) (dim s) (italic s) (underline s) (reverse_ s) (hidden s) v.

(** One code of the loop of [apply] other than 38 and 48. *)
Definition sgr (s : Style) (code : N) : Style :=
  if code =? 0 then style_default
  else if code =? 1 then set_weight s true (dim s)
  else if code =? 2 then set_weight s (bold s) true
  else if code =? 3 then set_italic s true
  else if code =? 4 then set_underline s true
  else if code =? 7 then set_reverse s true
  else if code =? 8 then set_hidden s true
  else if code =? 9 then set_strike s true
  else if (code =? 21) || (code =? 22) then set_weight s false false
  else if code =? 23 then set_italic s false
  else if code =? 24 then set_underline s false
  else if code =? 27 then set_reverse s false
  else if code =? 28 then set_hidden s false
  else if code =? 29 then set_strike s false
  else if (30 <=? code) && (code <=? 37) then set_fg s (named (code - 30))
  else if (90 <=? code) && (code <=? 97) then set_fg s (named (code - 90 + 8))
  else if (40 <=? code) && (code <=? 47) then set_bg s (named (code - 40))
  else if (100 <=? code) && (code <=? 107) then set_bg s (named (code - 100 + 8))
  else if code =? 39 then set_fg s Default
  else if code =? 49 then set_bg s Default
  else s.

(** The loop of [apply]; each round takes at least one code. *)
Fixpoint apply_codes (fuel : nat) (s : Style) (codes : list N) : Style :=
  match fuel, codes with
  | S fuel, code :: codes =>
      if (code =? 38) || (code =? 48) then
        let '(color, codes) := extended codes in
        apply_codes fuel (if code =? 38 then set_fg s color else set_bg s color) codes
      else apply_codes fuel (sgr s code) codes
  | _, _ => s
  end.

(** [apply]. *)
Definition apply (s : Style) (parameters : str) : Style :=
  let codes := (λ code, default 0 (parse_uint u16_max code)) <$> split_on (λ c, (c =? 59) || (c =? 58)) parameters in
  if bool_decide (parameters = []) then style_default else apply_codes (length codes) s codes.

(** ** Lines *)

(** The loop over an OSC: what is left after BEL or ST. *)
Fixpoint skip_osc (previous : N) (chars : str) : str :=
  match chars with
  | [] => []
  | c :: chars => if (c =? 7) || ((previous =? 27) && (c =? 92)) then chars else skip_osc c chars
  end.

(** The loop over a CSI: its parameters, how it ended and what is left. The
    parameters are cut at 64 bytes. *)
Fixpoint read_csi (parameters : str) (chars : str) : str * option N * str :=
  match chars with
  | [] => (parameters, None, [])
  | c :: chars =>
      if (64 <=? c) && (c <=? 126) then (parameters, Some c, chars)
      else read_csi (if str_len parameters <? 64 then parameters ++ [c] else parameters) chars
  end.

(** What an escape makes of the style, and what is left after it. *)
Definition escape (s : Style) (chars : str) : Style * str :=
  match chars with
  | [] => (s, [])
  | c :: rest =>
      if c =? 93 then (s, skip_osc 0 chars)
      else if c =? 91 then
        let '(parameters, end_, rest) := read_csi [] rest in
        (if bool_decide (end_ = Some 109) then apply s parameters else s, rest)
      else if (c =? 40) || (c =? 41) || (c =? 42) || (c =? 43) then (s, drop 1 rest)
      else (s, rest)
  end.

(** A character added to the runs. *)
Definition push_char (runs : list (Style * list N)) (s : Style) (c : N) : list (Style * list N) :=
  match last runs with
  | Some (last_style, text) =>
      if bool_decide (last_style = s) then removelast runs ++ [(last_style, text ++ [c])] else runs ++ [(s, [c])]
  | None => runs ++ [(s, [c])]
  end.

(** The loop of [runs]; each round takes at least one character. *)
Fixpoint runs_loop (fuel : nat) (chars : str) (s : Style) (runs : list (Style * list N)) (width : nat)
    : list (Style * list N) * nat * Style :=
  match fuel, chars with
  | S fuel, c :: chars =>
      if c =? 27 then
        let '(s, chars) := escape s chars in runs_loop fuel chars s runs width
      else
        let c := if c =? 9 then 32 else c in
        if is_control c then runs_loop fuel chars s runs width
        else runs_loop fuel chars s (push_char runs s c) (S width)
  | _, _ => (runs, width, s)
  end.

(** [runs]. *)
Definition runs (line : str) (s : Style) : list (Style * list N) * nat * Style := runs_loop (length line) line s [] 0.

(** [str::trim_end_matches('\r')]. *)
Fixpoint trim_start_cr (s : str) : str :=
  match s with
  | c :: t => if c =? 13 then trim_start_cr t else s
  | [] => []
  end.
Definition trim_end_cr (s : str) : str := reverse (trim_start_cr (reverse s)).

(** The loop of [parse]. *)
Fixpoint parse_lines (ls : list str) (s : Style) (screen : Screen) : Screen :=
  match ls with
  | [] => screen
  | line :: ls =>
      let '(rs, width, s) := runs (trim_end_cr line) s in
      parse_lines ls s (MkScreen (lines screen ++ [rs]) (Nat.max (columns screen) width))
  end.

(** [parse]. *)
Definition parse (text : str) : Screen :=
  parse_lines (split_on (λ c, c =? 10) (take MAX_TEXT text)) style_default (MkScreen [] 0).

(** [str::find('\n')] and what follows it. *)
Fixpoint after_newline (s : str) : option str :=
  match s with
  | [] => None
  | c :: s => if c =? 10 then Some s else after_newline s
  end.

(** [tail]. *)
Definition tail (text : str) : str :=
  if (length text <=? MAX_TEXT)%nat then text
  else default [] (after_newline (drop (length text - S MAX_TEXT) text)).

(** ** The page (web/render/ansi.rs) *)

Definition shown_colors (s : Style) : Color * Color := if reverse_ s then (bg s, fg s) else (fg s, bg s).

(** [classes]. *)
Definition classes (s : Style) : option str :=
  let '(f, b) := shown_colors s in
  let cs :=
    (match f with Named i => [lit "t-fg" ++ dec i] | Default => if reverse_ s then [lit "t-fg-bg"] else [] | _ => [] end)
    ++ (match b with Named i => [lit "t-bg" ++ dec i] | Default => if reverse_ s then [lit "t-bg-fg"] else [] | _ => [] end)
    ++ omap (λ '((on, class) : bool * str), if on then Some class else None)
         [(bold s, lit "t-b"); (dim s, lit "t-d"); (italic s, lit "t-i"); (underline s, lit "t-u"); (strike s, lit "t-s");
          (hidden s, lit "t-h")] in
  match cs with [] => None | _ => Some (join [32] cs) end.

Definition hex_lower (n : N) : N := if n <? 10 then 48 + n else 87 + n.
Definition hex2 (n : N) : str := [hex_lower (n / 16); hex_lower (n mod 16)].

(** [inline]. *)
Definition inline (s : Style) : option str :=
  let '(f, b) := shown_colors s in
  let rules :=
    (match f with Rgb r g b => [lit "color:#" ++ hex2 r ++ hex2 g ++ hex2 b] | _ => [] end)
    ++ (match b with Rgb r g b => [lit "background:#" ++ hex2 r ++ hex2 g ++ hex2 b] | _ => [] end) in
  match rules with [] => None | _ => Some (join [59] rules) end.

(** ** Colors stay in range *)

Definition color_ok (c : Color) : Prop :=
  match c with Default => True | Named i => i ≤ 15 | Rgb r g b => r ≤ 255 ∧ g ≤ 255 ∧ b ≤ 255 end.
Definition style_ok (s : Style) : Prop := color_ok (fg s) ∧ color_ok (bg s).

(** The palette's arithmetic fits a byte: no step of it wraps. *)
Lemma palette_ok index : index ≤ 255 → color_ok (palette index) ∧ 55 + 5 * 40 ≤ 255 ∧ (231 < index → 8 + (index - 232) * 10 ≤ 255).
Proof.
  intros Hi. split; [|lia]. unfold palette. destruct (N.leb_spec index 15); [done|].
  assert (∀ v, level v ≤ 255) as Hl.
  { intros v. unfold level. destruct (v =? 0); [lia|]. pose proof (N.mod_lt (55 + v * 40) 256). lia. }
  destruct (index <=? 231); cbn; [by split_and!|]. pose proof (N.mod_lt (8 + (index - 232) * 10) 256). lia.
Qed.

(** The cube's levels, without wrapping. *)
Lemma level_exact v : v ≤ 5 → level v = if v =? 0 then 0 else 55 + v * 40.
Proof. intros Hv. unfold level. destruct (v =? 0); [done|]. apply N.mod_small. lia. Qed.

Lemma byte_ok codes : (byte codes).1 ≤ 255 ∧ (length (byte codes).2 ≤ length codes)%nat.
Proof. destruct codes as [|v codes]; cbn; [lia|]. unfold u8_max. destruct (N.leb_spec v 255); cbn; lia. Qed.

Lemma extended_ok codes : color_ok (extended codes).1 ∧ (length (extended codes).2 ≤ length codes)%nat.
Proof.
  destruct codes as [|v codes]; cbn; [done|]. destruct (v =? 5).
  - pose proof (byte_ok codes) as [Hb Hl]. destruct (byte codes) as [i rest]. cbn in *. split; [by apply palette_ok|lia].
  - destruct (v =? 2); [|cbn; lia]. pose proof (byte_ok codes) as [Hb Hl]. destruct (byte codes) as [r c1]. cbn in Hb, Hl.
    pose proof (byte_ok c1) as [Hb1 Hl1]. destruct (byte c1) as [g c2]. cbn in Hb1, Hl1.
    pose proof (byte_ok c2) as [Hb2 Hl2]. destruct (byte c2) as [b c3]. cbn in *. lia.
Qed.

Lemma named_ok i : i ≤ 15 → color_ok (named i).
Proof. intros Hi. unfold named, u8_max. destruct (N.leb_spec i 255); cbn; lia. Qed.

Lemma sgr_ok s code : style_ok s → style_ok (sgr s code).
Proof.
  intros [Hf Hb]. unfold sgr.
  repeat match goal with
  | |- style_ok (if ?c then _ else _) => destruct c eqn:?; [try done|]
  end; try done.
  all: match goal with H : _ = true |- _ => apply andb_true_iff in H as [?%N.leb_le ?%N.leb_le] end.
  all: split; cbn; try done; apply named_ok; lia.
Qed.

Lemma apply_codes_ok fuel s codes : style_ok s → style_ok (apply_codes fuel s codes).
Proof.
  revert s codes. induction fuel as [|fuel IH]; intros s codes Hs; [done|]. destruct codes as [|code codes]; [done|]. cbn.
  destruct ((code =? 38) || (code =? 48)).
  - pose proof (extended_ok codes) as [Hc _]. destruct (extended codes) as [color rest]. apply IH. destruct Hs. by destruct (code =? 38).
  - apply IH. by apply sgr_ok.
Qed.

Lemma apply_ok s parameters : style_ok s → style_ok (apply s parameters).
Proof. intros Hs. unfold apply. case_bool_decide; [done|]. by apply apply_codes_ok. Qed.

(** ** Escapes take what they read *)

Lemma skip_osc_suffix previous chars : skip_osc previous chars `suffix_of` chars.
Proof.
  revert previous. induction chars as [|c chars IH]; intros previous; cbn; [done|].
  destruct (_ || _); [by apply suffix_cons_r|]. apply suffix_cons_r, IH.
Qed.

Lemma read_csi_suffix parameters chars : (read_csi parameters chars).2 `suffix_of` chars.
Proof.
  revert parameters. induction chars as [|c chars IH]; intros parameters; cbn; [done|].
  destruct (_ && _); [by apply suffix_cons_r|]. apply suffix_cons_r, IH.
Qed.

Lemma escape_spec s chars : style_ok s → style_ok (escape s chars).1 ∧ (escape s chars).2 `suffix_of` chars.
Proof.
  intros Hs. unfold escape. destruct chars as [|c rest]; [done|]. destruct (c =? 93); [split; [done|apply skip_osc_suffix]|].
  destruct (c =? 91).
  - pose proof (read_csi_suffix [] rest) as Hr. destruct (read_csi [] rest) as [[parameters e] left]. cbn in *.
    split; [case_bool_decide; [by apply apply_ok|done]|]. by apply suffix_cons_r.
  - destruct (_ || _); cbn; (split; [done|]); apply suffix_cons_r; [|done]. apply suffix_drop.
Qed.

(** ** Runs *)

(** What a character is shown as. *)
Definition shown (c : N) : N := if c =? 9 then 32 else c.

(** A line's runs: none empty, no control character in any, neighbours of
    different styles, every color in range. *)
Fixpoint runs_ok (rs : list (Style * list N)) : Prop :=
  match rs with
  | [] => True
  | (s, text) :: rs =>
      style_ok s ∧ text ≠ [] ∧ Forall (λ c, is_control c = false) text ∧
      match rs with (s', _) :: _ => s ≠ s' | [] => True end ∧ runs_ok rs
  end.

Definition text_of (rs : list (Style * list N)) : list N := rs ≫= snd.

Lemma runs_ok_push rs s c :
  runs_ok rs → style_ok s → is_control c = false → runs_ok (push_char rs s c) ∧ text_of (push_char rs s c) = text_of rs ++ [c].
Proof.
  intros Hok Hs Hc. unfold push_char.
  assert (∀ rs0 rs1 : list (Style * list N), text_of (rs0 ++ rs1) = text_of rs0 ++ text_of rs1) as Htext by (intros; apply bind_app).
  assert (∀ s', style_ok s' → runs_ok [(s', [c])]) as Hone by (intros s' Hs'; cbn; split_and!; try done; by apply Forall_singleton).
  destruct rs as [|[ls text] rs _] using rev_ind; [split; [by apply Hone|done]|]. rewrite last_snoc.
  assert (∀ rs x, runs_ok (rs ++ [x]) ↔ runs_ok rs ∧ runs_ok [x] ∧ match last rs with Some (s', _) => s' ≠ x.1 | None => True end) as Hsplit.
  { clear. intros rs [s text]. induction rs as [|[s0 t0] rs IH]; cbn -[last]; [tauto|].
    destruct rs as [|[s1 t1] rs]; cbn -[last] in *; [cbn; tauto|]. rewrite IH.
    change (last ((s0, t0) :: (s1, t1) :: rs)) with (last ((s1, t1) :: rs)). tauto. }
  apply Hsplit in Hok as (Hrs & (Hls & Hne & Htx & _) & Hlast). case_bool_decide as E.
  - subst ls. rewrite removelast_last. split.
    + apply Hsplit. split; [done|]. split; [|done]. cbn. split_and!; try done; [by destruct text|]. apply Forall_app. split; [done|by apply Forall_singleton].
    + rewrite !Htext. cbn. rewrite !app_nil_r. by rewrite app_assoc.
  - split.
    + apply Hsplit. split; [apply Hsplit; split_and!; try done; cbn; by split_and!|]. split; [by apply Hone|]. by rewrite last_snoc.
    + rewrite !Htext. cbn. by rewrite !app_nil_r.
Qed.

Lemma runs_loop_spec fuel chars s rs width rs' width' s' :
  runs_ok rs → style_ok s → width = length (text_of rs) → runs_loop fuel chars s rs width = (rs', width', s') →
  runs_ok rs' ∧ style_ok s' ∧ width' = length (text_of rs') ∧
  ∃ more, text_of rs' = text_of rs ++ more ∧ more `sublist_of` (shown <$> chars).
Proof.
  revert chars s rs width. induction fuel as [|fuel IH]; intros chars s rs width Hok Hs Hw.
  { intros [= <- <- <-]. split_and!; try done. exists []. rewrite app_nil_r. split; [done|apply sublist_nil_l]. }
  destruct chars as [|c chars]; cbn.
  { intros [= <- <- <-]. split_and!; try done. exists []. rewrite app_nil_r. split; [done|apply sublist_nil_l]. }
  destruct (c =? 27).
  - pose proof (escape_spec s chars Hs) as [Hs1 [k Hk]]. destruct (escape s chars) as [s1 rest]. cbn in Hs1, Hk. intros E.
    destruct (IH _ _ _ _ Hok Hs1 Hw E) as (H1 & H2 & H3 & more & H4 & H5). split_and!; try done. exists more. split; [done|].
    apply sublist_cons. rewrite Hk, fmap_app. by apply sublist_inserts_l.
  - destruct (is_control (if c =? 9 then 32 else c)) eqn:Ec; intros E.
    + destruct (IH _ _ _ _ Hok Hs Hw E) as (H1 & H2 & H3 & more & H4 & H5). split_and!; try done. exists more. split; [done|].
      by apply sublist_cons.
    + destruct (runs_ok_push rs s (if c =? 9 then 32 else c) Hok Hs Ec) as [Hok1 Ht].
      destruct (IH _ _ _ (S width) Hok1 Hs ltac:(rewrite Ht, length_app, Hw; cbn [length]; lia) E) as (H1 & H2 & H3 & more & H4 & H5). split_and!; try done.
      exists (shown c :: more). rewrite H4, Ht, <-app_assoc. split; [done|]. by apply sublist_skip.
Qed.

(** The loop ends: more rounds than characters change nothing. *)
Lemma runs_loop_enough fuel k chars s rs width :
  (length chars ≤ fuel)%nat → runs_loop (fuel + k) chars s rs width = runs_loop fuel chars s rs width.
Proof.
  revert chars s rs width. induction fuel as [|fuel IH]; intros chars s rs width Hf.
  { destruct chars; [|cbn in Hf; lia]. by destruct k. }
  destruct chars as [|c chars]; [done|]. cbn in Hf |- *. destruct (c =? 27).
  - assert ((escape s chars).2 `suffix_of` chars) as Hsuf.
    { unfold escape. destruct chars as [|d rest]; [done|]. destruct (d =? 93); [apply skip_osc_suffix|].
      destruct (d =? 91); [pose proof (read_csi_suffix [] rest) as Hr; destruct (read_csi [] rest) as [[? ?] ?]; by apply suffix_cons_r|].
      destruct (_ || _); cbn; apply suffix_cons_r; [apply suffix_drop|done]. }
    destruct (escape s chars) as [s1 rest]. cbn in Hsuf. apply IH. apply suffix_length in Hsuf. lia.
  - destruct (is_control _); apply IH; lia.
Qed.

(** ** Screens *)

Definition widest (ls : list (list (Style * list N))) : nat := foldr Nat.max 0%nat ((λ rs, length (text_of rs)) <$> ls).

Lemma widest_snoc ls rs : widest (ls ++ [rs]) = Nat.max (widest ls) (length (text_of rs)).
Proof. unfold widest. rewrite fmap_app, foldr_app. cbn. induction ls as [|x ls IH]; cbn; [lia|]. rewrite IH. lia. Qed.

Lemma trim_start_cr_suffix s : trim_start_cr s `suffix_of` s.
Proof. induction s as [|c s IH]; cbn; [done|]. destruct (c =? 13); [by apply suffix_cons_r|done]. Qed.

Lemma trim_end_cr_prefix s : trim_end_cr s `prefix_of` s.
Proof.
  unfold trim_end_cr. destruct (trim_start_cr_suffix (reverse s)) as [k Hk]. exists (reverse k).
  rewrite <-reverse_app, <-Hk. by rewrite reverse_involutive.
Qed.

Lemma parse_lines_spec ls s scr :
  style_ok s → Forall runs_ok (lines scr) → columns scr = widest (lines scr) →
  ∃ new, lines (parse_lines ls s scr) = lines scr ++ new ∧ Forall runs_ok new ∧
    columns (parse_lines ls s scr) = widest (lines scr ++ new) ∧
    Forall2 (λ rs line, text_of rs `sublist_of` (shown <$> line)) new ls.
Proof.
  revert s scr. induction ls as [|line ls IH]; intros s scr Hs Hok Hc; cbn.
  { exists []. rewrite app_nil_r. by split_and!. }
  destruct (runs (trim_end_cr line) s) as [[rs width] s'] eqn:Er. unfold runs in Er.
  destruct (runs_loop_spec _ _ _ [] 0 _ _ _ I Hs eq_refl Er) as (H1 & H2 & H3 & more & H4 & H5).
  destruct (IH s' (MkScreen (lines scr ++ [rs]) (Nat.max (columns scr) width))) as (new & E1 & E2 & E3 & E4); cbn [lines columns]; [done|..].
  - apply Forall_app. split; [done|by apply Forall_singleton].
  - by rewrite widest_snoc, Hc, H3.
  - cbn [lines columns] in E1, E3. exists (rs :: new). rewrite E1, E3, <-app_assoc. split; [done|]. split; [by constructor|]. split; [done|].
    constructor; [|done]. rewrite H4. cbn. etrans; [exact H5|]. apply fmap_sublist. destruct (trim_end_cr_prefix line) as [k Hk].
    rewrite Hk at 2. by apply sublist_inserts_r.
Qed.

(** C40: whatever a terminal wrote, what is drawn is its lines and nothing else: one line for each line of the text
    that is kept, in runs that are never empty, hold no control character, differ from their neighbours and have
    colors in range; a line's characters are some of the line's own, in order, tabs as spaces; and the columns are
    the widest line's. *)
Theorem parse_safe (text : str) :
  let kept := split_on (λ c, c =? 10) (take MAX_TEXT text) in
  Forall runs_ok (lines (parse text)) ∧
  Forall2 (λ rs line, text_of rs `sublist_of` (shown <$> line)) (lines (parse text)) kept ∧
  columns (parse text) = widest (lines (parse text)).
Proof.
  cbv zeta. unfold parse. destruct (parse_lines_spec (split_on (λ c, c =? 10) (take MAX_TEXT text)) style_default (MkScreen [] 0))
    as (new & E1 & E2 & E3 & E4); [done|done|done|]. cbn in E1, E3. by rewrite E1, E3.
Qed.

(** ** Plain text *)

Definition plain (c : N) : Prop := is_control c = false.

Lemma plain_facts c : plain c → c ≠ 27 ∧ c ≠ 9 ∧ c ≠ 10 ∧ c ≠ 13.
Proof. unfold plain, is_control. rewrite orb_false_iff, N.ltb_ge. lia. Qed.

Lemma push_char_same pre s text c : push_char (pre ++ [(s, text)]) s c = pre ++ [(s, text ++ [c])].
Proof. unfold push_char. rewrite last_snoc, bool_decide_true by done. by rewrite removelast_last. Qed.

Lemma runs_plain_more line s text fuel width :
  Forall plain line → (length line ≤ fuel)%nat →
  runs_loop fuel line s [(s, text)] width = ([(s, text ++ line)], (width + length line)%nat, s).
Proof.
  intros Hl. revert text fuel width. induction Hl as [|c line Hc Hl IH]; intros text fuel width Hf.
  { rewrite app_nil_r, Nat.add_0_r. by destruct fuel. }
  destruct fuel as [|fuel]; cbn in Hf; [lia|]. destruct (plain_facts c Hc) as (H27 & H9 & _). cbn [runs_loop].
  rewrite (proj2 (N.eqb_neq c 27) H27), (proj2 (N.eqb_neq c 9) H9), Hc.
  rewrite (push_char_same [] s text c : push_char [(s, text)] s c = [(s, text ++ [c])]). rewrite IH by lia. rewrite <-app_assoc. cbn [length]. by rewrite Nat.add_succ_r.
Qed.

(** The runs of a plain line: one, unless it is empty. *)
Definition one_run (s : Style) (line : str) : list (Style * list N) := if bool_decide (line = []) then [] else [(s, line)].

Lemma runs_plain line s : Forall plain line → runs line s = (one_run s line, length line, s).
Proof.
  intros Hl. destruct Hl as [|c line Hc Hl]; [done|]. unfold runs, one_run. rewrite bool_decide_false by done.
  destruct (plain_facts c Hc) as (H27 & H9 & _). cbn [runs_loop length]. rewrite (proj2 (N.eqb_neq c 27) H27), (proj2 (N.eqb_neq c 9) H9), Hc.
  change (push_char [] s c) with [(s, [c])]. by rewrite runs_plain_more.
Qed.

Lemma trim_end_cr_plain line : Forall plain line → trim_end_cr line = line.
Proof.
  intros Hl. unfold trim_end_cr. destruct line as [|c line _] using rev_ind; [done|]. rewrite reverse_snoc. cbn [trim_start_cr].
  apply Forall_app in Hl as [_ [Hc _]%Forall_cons]. destruct (plain_facts c Hc) as (_ & _ & _ & H13).
  rewrite (proj2 (N.eqb_neq c 13) H13). by rewrite reverse_cons, reverse_involutive.
Qed.

Lemma parse_lines_plain ls s scr :
  Forall (Forall plain) ls →
  parse_lines ls s scr = MkScreen (lines scr ++ (one_run s <$> ls)) (foldl Nat.max (columns scr) (length <$> ls)).
Proof.
  intros Hl. revert scr. induction Hl as [|line ls Hline Hl IH]; intros scr; cbn; [rewrite app_nil_r; by destruct scr|].
  rewrite trim_end_cr_plain, runs_plain by done. rewrite IH. cbn. by rewrite <-app_assoc.
Qed.

Lemma split_join (ls : list str) :
  ls ≠ [] → Forall (Forall plain) ls → split_on (λ c, c =? 10) (join [10] ls) = ls.
Proof.
  assert (∀ l, Forall plain l → Forall (λ x, (x =? 10) = false) l) as Hsep.
  { intros l Hl. eapply Forall_impl; [exact Hl|]. intros c Hc. apply N.eqb_neq. by apply plain_facts in Hc as (_ & _ & Hc & _). }
  intros Hne Hl. induction Hl as [|line ls Hline Hl IH]; [done|]. cbn. destruct ls as [|l2 ls].
  - by apply split_on_none, Hsep.
  - cbn [app]. rewrite split_on_app; [|by apply Hsep|done]. f_equal. by apply IH.
Qed.

(** Text without escapes or controls is drawn as it is: each of its lines is one run in the default style,
    and joining them again gives the text. *)
Theorem plain_drawn (ls : list str) :
  ls ≠ [] → Forall (Forall plain) ls → (length (join [10%N] ls) ≤ MAX_TEXT)%nat →
  lines (parse (join [10] ls)) = one_run style_default <$> ls ∧
  columns (parse (join [10] ls)) = foldl Nat.max 0%nat (length <$> ls) ∧
  join [10] (text_of <$> lines (parse (join [10] ls))) = join [10] ls.
Proof.
  intros Hne Hl Hlen. unfold parse. rewrite take_ge by done. rewrite split_join by done. rewrite parse_lines_plain by done. cbn.
  split; [done|]. split; [done|]. f_equal. rewrite <-list_fmap_compose. rewrite <-(list_fmap_id ls) at 2. apply list_fmap_ext.
  intros i l Hi. cbn. unfold one_run. case_bool_decide as E; [by rewrite E|]. cbn. by rewrite app_nil_r.
Qed.

Lemma plain_drawn_witness :
  lines (parse (join [10] [lit "ab"; []; lit "longer line"])) = one_run style_default <$> [lit "ab"; []; lit "longer line"] ∧
  columns (parse (join [10] [lit "ab"; []; lit "longer line"])) = foldl Nat.max 0%nat (length <$> [lit "ab"; []; lit "longer line"]) ∧
  join [10] (text_of <$> lines (parse (join [10] [lit "ab"; []; lit "longer line"]))) = join [10] [lit "ab"; []; lit "longer line"].
Proof.
  apply (plain_drawn [lit "ab"; []; lit "longer line"]).
  - discriminate.
  - repeat constructor.
  - apply Nat.leb_le. vm_compute. reflexivity.
Defined.

(** ** The end of a history *)

Lemma after_newline_spec s r : after_newline s = Some r → ∃ pre, s = pre ++ 10 :: r.
Proof.
  induction s as [|c s IH]; cbn; [done|]. destruct (N.eqb_spec c 10) as [->|]; [intros [= ->]; by exists []|].
  intros (pre & ->)%IH. by exists (c :: pre).
Qed.

(** [tail] is the end of the text from the start of a line, and [parse] keeps it
    whole. *)
Lemma tail_spec text :
  take MAX_TEXT (tail text) = tail text ∧
  (tail text = text ∨ tail text = [] ∨ ∃ pre, text = pre ++ 10 :: tail text).
Proof.
  unfold tail. destruct (Nat.leb_spec (length text) MAX_TEXT) as [Hle|Hgt]; [split; [by apply take_ge|by left]|].
  destruct (after_newline _) as [r|] eqn:E; cbn; [|split; [by destruct MAX_TEXT|by right; left]].
  apply after_newline_spec in E as [pre E]. split.
  - apply take_ge. apply (f_equal length) in E. rewrite length_drop, length_app in E. cbn in E. lia.
  - right. right. exists (take (length text - S MAX_TEXT) text ++ pre). rewrite <-app_assoc, <-E. by rewrite take_drop.
Qed.

Example colors_example :
  lines (parse ([27] ++ lit "[1;32mok" ++ [27] ++ lit "[0m done")) =
    [[(set_weight (set_fg style_default (Named 2)) true false, lit "ok"); (style_default, lit " done")]] ∧
  inline (apply style_default (lit "38;5;196")) = Some (lit "color:#ff0000") ∧
  classes (apply style_default (lit "31;7")) = Some (lit "t-fg-bg t-bg1").
Proof. vm_compute. done. Qed.
End Ansi.
