(* ===== verification/ClientImages.v ===== *)
(** * ClientImages: pixels for the images a surface places
    (crates/sheprd-client/src/surface_images.rs)

    Herdr sends an image's bytes once; the worker keeps them as long as a
    surface received or shown names them. The counter of serials is process
    wide: it is threaded through. *)

From Stdlib Require Import NArith Lia.
From stdpp Require Import base option gmap strings sets list fin_maps fin_map_dom.
From S2P Require Import Prelude Wire.

Local Open Scope N_scope.

Module ClientImages.

Definition MAX_PLACEMENTS : nat := N.to_nat 4096.
Definition MAX_IMAGE_SIDE : N := 10000.
Definition MAX_IMAGES : nat := 256.
Definition MAX_IMAGE_BYTES : N := 256 * 1024 * 1024.

Record SurfaceImage := MkSurfaceImage { serial : N; data : list N }.

(** The keys are countable, for maps and sets of them. *)
#[export] Instance Source_countable : Countable SurfaceGraphicsSource.
Proof.
  refine (inj_countable'
    (λ s, match s with
          | GSource_Terminal (GTarget_Pane p) i => inl (inl (p, i))
          | GSource_Terminal (GTarget_Popup p) i => inl (inr (p, i))
          | GSource_PaneLayer p l => inr (p, l)
          end)
    (λ x : (list N * N + list N * N) + (list N * list N),
       match x with
       | inl (inl (p, i)) => GSource_Terminal (GTarget_Pane p) i
       | inl (inr (p, i)) => GSource_Terminal (GTarget_Popup p) i
       | inr (p, l) => GSource_PaneLayer p l
       end) _). by intros [[] ?|].
Defined.

#[export] Instance Format_countable : Countable SurfaceGraphicsFormat.
Proof.
  refine (inj_countable' (λ f, match f with GFormat_Rgb => 0 | GFormat_Rgba => 1 | GFormat_Png => 2 end)
    (λ n, if n =? 0 then GFormat_Rgb else if n =? 1 then GFormat_Rgba else GFormat_Png) _). by intros [].
Defined.

#[export] Instance Key_countable : Countable SurfaceGraphicsAssetKey.
Proof.
  refine (inj_countable'
    (λ k, (ak_source k, (ak_image_width k, ak_image_height k, ak_format k), (ak_data_len k, ak_data_fingerprint k)))
    (λ '(s, (w, h, f), (l, p)), MkSurfaceGraphicsAssetKey s w h f l p) _). by intros [].
Defined.

Abbreviation Images := (gmap SurfaceGraphicsAssetKey SurfaceImage) (only parsing).
Abbreviation Keys := (gset SurfaceGraphicsAssetKey) (only parsing).

Definition side_ok (n : N) : bool := (1 <=? n) && (n <=? MAX_IMAGE_SIDE).

(** [valid_asset]; lengths are 64-bit. *)
Definition valid_asset (key : SurfaceGraphicsAssetKey) (data : list N) : bool :=
  if bool_decide (data = []) || negb (lenN data =? ak_data_len key) || negb (side_ok (ak_image_width key))
     || negb (side_ok (ak_image_height key)) then false
  else
    let pixels := ak_image_width key * ak_image_height key in
    match ak_format key with
    | GFormat_Rgb => bool_decide (checked_mul u64_max pixels 3 = Some (ak_data_len key))
    | GFormat_Rgba => bool_decide (checked_mul u64_max pixels 4 = Some (ak_data_len key))
    | GFormat_Png => true
    end.

(** [referenced]. *)
Definition referenced (scene : SurfaceGraphicsScene) : Keys :=
  list_to_set ((pl_asset <$> scene_placements scene) ++ scene_retained_assets scene).

Record ImageStore := MkImageStore { images : Images; bytes : N; latest : Keys; shown : Keys }.

Definition store_default : ImageStore := MkImageStore ∅ 0 ∅ ∅.

(** The bytes of images that are not kept: [freed] of [prune]. *)
Definition total (m : Images) : N := map_fold (λ _ i acc, lenN (data i) + acc) 0 m.

Definition kept (s : ImageStore) (k : SurfaceGraphicsAssetKey) : Prop := k ∈ latest s ∨ k ∈ shown s.
#[export] Instance kept_dec s k : Decision (kept s k).
Proof. unfold kept. apply _. Defined.

(** [ImageStore::prune]; [None] when the count of bytes would go below zero. *)
Definition prune (s : ImageStore) : option (ImageStore * bool) :=
  let keep := filter (λ '(k, _), kept s k) (images s) in
  let freed := total (filter (λ '(k, _), ¬ kept s k) (images s)) in
  if bytes s <? freed then None
  else Some (MkImageStore keep (bytes s - freed) (latest s) (shown s), negb (size keep =? size (images s))%nat).

(** One asset of [receive]; the serial a new image takes. *)
Definition receive_asset (x : ImageStore * N * bool) (a : SurfaceGraphicsAsset) : ImageStore * N * bool :=
  let '(s, next, changed) := x in
  if bool_decide (is_Some (images s !! asset_key a)) || negb (bool_decide (asset_key a ∈ latest s)) then x
  else if negb (valid_asset (asset_key a) (asset_data a)) then x
  else if (MAX_IMAGES <=? size (images s))%nat || (MAX_IMAGE_BYTES - bytes s <? lenN (asset_data a)) then x
  else
    (MkImageStore (<[asset_key a := MkSurfaceImage next (asset_data a)]> (images s)) (bytes s + lenN (asset_data a)) (latest s) (shown s),
     next + 1, true).

(** [ImageStore::receive]: the store, the next serial, the surface's scene and
    whether the published set changed. *)
Definition receive (s : ImageStore) (next : N) (scene : SurfaceGraphicsScene) : option (ImageStore * N * SurfaceGraphicsScene * bool) :=
  let placements := take MAX_PLACEMENTS (scene_placements scene) in
  let assets := scene_assets scene in
  let scene := MkSurfaceGraphicsScene [] placements (scene_retained_assets scene) in
  '(s, changed) ← prune (MkImageStore (images s) (bytes s) (referenced scene) (shown s));
  let '(s, next, changed) := foldl receive_asset (s, next, changed) assets in
  Some (s, next, scene, changed).

(** [ImageStore::show]. *)
Definition show (s : ImageStore) : option (ImageStore * bool) :=
  prune (MkImageStore (images s) (bytes s) (latest s) (latest s)).

(** ** Runs *)

Inductive Op := Receive (scene : SurfaceGraphicsScene) | Show_.

Definition op (x : ImageStore * N) (o : Op) : option (ImageStore * N) :=
  let '(s, next) := x in
  match o with
  | Receive scene => '(s, next, _, _) ← receive s next scene; Some (s, next)
  | Show_ => '(s, _) ← show s; Some (s, next)
  end.

Definition run (x : ImageStore * N) (ops : list Op) : option (ImageStore * N) := foldM op x ops.

(** What the store promises: the bytes are counted and bounded, every image is
    what its key says and is named by a surface received or shown, and serials
    are given once. *)
Record store_ok (s : ImageStore) (next : N) : Prop := {
  s_total : bytes s = total (images s);
  s_bytes : bytes s ≤ MAX_IMAGE_BYTES;
  s_count : (size (images s) ≤ MAX_IMAGES)%nat;
  s_valid : map_Forall (λ k i, valid_asset k (data i) = true ∧ kept s k ∧ serial i < next) (images s);
  s_serials : ∀ k k' i i', images s !! k = Some i → images s !! k' = Some i' → serial i = serial i' → k = k';
}.

Lemma total_insert m k i : m !! k = None → total (<[k := i]> m) = lenN (data i) + total m.
Proof. intros Hk. unfold total. rewrite map_fold_insert_L; [done| |done]. intros. lia. Qed.

Lemma total_split (P : SurfaceGraphicsAssetKey → Prop) `{∀ k, Decision (P k)} m :
  total m = total (filter (λ '(k, _), P k) m) + total (filter (λ '(k, _), ¬ P k) m).
Proof.
  induction m as [|k i m Hk IH] using map_ind; [done|]. rewrite total_insert by done.
  destruct (decide (P k)) as [Hp|Hp].
  - rewrite (map_filter_insert_True _ m k i), total_insert by (done || by apply map_lookup_filter_None; left).
    rewrite (map_filter_insert_not (λ '(k, _), ¬ P k) m k i) by (intros ?; tauto). lia.
  - rewrite (map_filter_insert_not (λ '(k, _), P k) m k i) by done.
    rewrite (map_filter_insert_True (λ '(k, _), ¬ P k) m k i), total_insert by (done || by apply map_lookup_filter_None; left). lia.
Qed.

(** The store before it is pruned: named keys aside, it is in order. *)
Record countable_ok (s : ImageStore) (next : N) : Prop := {
  c_total : bytes s = total (images s);
  c_bytes : bytes s ≤ MAX_IMAGE_BYTES;
  c_count : (size (images s) ≤ MAX_IMAGES)%nat;
  c_valid : map_Forall (λ k i, valid_asset k (data i) = true ∧ serial i < next) (images s);
  c_serials : ∀ k k' i i', images s !! k = Some i → images s !! k' = Some i' → serial i = serial i' → k = k';
}.

Lemma prune_ok s next :
  countable_ok s next →
  ∃ s' changed, prune s = Some (s', changed) ∧ store_ok s' next ∧ latest s' = latest s ∧ shown s' = shown s ∧
    ∀ k i, images s' !! k = Some i ↔ images s !! k = Some i ∧ kept s k.
Proof.
  intros [H1 H2 H3 H4 H5]. unfold prune. pose proof (total_split (kept s) (images s)) as Ht.
  destruct (N.ltb_spec (bytes s) (total (filter (λ '(k, _), ¬ kept s k) (images s)))) as [Hlt|Hge]; [lia|].
  eexists _, _. split; [done|].
  assert (∀ k i, filter (λ '(k, _), kept s k) (images s) !! k = Some i ↔ images s !! k = Some i ∧ kept s k) as Hk.
  { intros k i. by rewrite map_lookup_filter_Some. }
  split; [|done]. split; cbn.
  - lia.
  - lia.
  - etrans; [|exact H3]. apply map_size_filter.
  - intros k i [Hi Hkept]%Hk. destruct (H4 k i Hi). done.
  - intros k k' i i' [Hi _]%Hk [Hi' _]%Hk. by apply H5.
Qed.

Lemma receive_asset_ok s next changed a s' next' changed' :
  store_ok s next → receive_asset (s, next, changed) a = (s', next', changed') →
  store_ok s' next' ∧ latest s' = latest s ∧ shown s' = shown s ∧ next ≤ next' ∧
  ∀ k i, images s !! k = Some i → images s' !! k = Some i.
Proof.
  intros Hs. unfold receive_asset. destruct (_ || _) eqn:E1; [intros [= <- <- <-]; by split_and!|].
  destruct (negb (valid_asset _ _)) eqn:E2; [intros [= <- <- <-]; by split_and!|].
  destruct (_ || (_ <? _)) eqn:E3; [intros [= <- <- <-]; by split_and!|]. intros [= <- <- <-]. cbn.
  apply orb_false_iff in E1 as [Hnew%bool_decide_eq_false Hlatest%negb_false_iff%bool_decide_eq_true].
  apply negb_false_iff in E2. apply orb_false_iff in E3 as [Hc%Nat.leb_gt Hb%N.ltb_ge].
  assert (images s !! asset_key a = None) as Hnone by (by apply eq_None_not_Some).
  destruct Hs as [H1 H2 H3 H4 H5]. split; [|split_and!; try done; [lia|]].
  - split; cbn.
    + rewrite total_insert by done. cbn. lia.
    + lia.
    + rewrite map_size_insert_None by done. lia.
    + intros k i Hk. apply lookup_insert_Some in Hk as [[<- <-]|[Hne Hk]]; cbn.
      * split_and!; [done|by left|lia].
      * destruct (H4 k i Hk) as (? & ? & ?). split_and!; [done|done|lia].
    + intros k k' i i' Hk Hk' E. apply lookup_insert_Some in Hk as [[<- <-]|[Hne Hk]], Hk' as [[<- <-]|[Hne' Hk']]; cbn in *.
      * done.
      * destruct (H4 k' i' Hk') as (_ & _ & ?). lia.
      * destruct (H4 k i Hk) as (_ & _ & ?). lia.
      * by eapply H5.
  - intros k i Hk. rewrite lookup_insert_ne; [done|]. intros <-. congruence.
Qed.

Lemma receive_assets_ok assets s next changed s' next' changed' :
  store_ok s next → foldl receive_asset (s, next, changed) assets = (s', next', changed') →
  store_ok s' next' ∧ latest s' = latest s ∧ shown s' = shown s ∧ next ≤ next' ∧
  ∀ k i, images s !! k = Some i → images s' !! k = Some i.
Proof.
  revert s next changed. induction assets as [|a assets IH]; intros s next changed Hs; cbn -[receive_asset]; [intros [= <- <- <-]; by split_and!|].
  destruct (receive_asset (s, next, changed) a) as [[s1 n1] c1] eqn:E1. intros E.
  destruct (receive_asset_ok _ _ _ _ _ _ _ Hs E1) as (G1 & G2 & G3 & G4 & G5).
  destruct (IH _ _ _ G1 E) as (F1 & F2 & F3 & F4 & F5). split_and!; [done|congruence|congruence|lia|]. intros k i Hk. by apply F5, G5.
Qed.

Lemma store_countable s next l sh : store_ok s next → countable_ok (MkImageStore (images s) (bytes s) l sh) next.
Proof. intros [H1 H2 H3 H4 H5]. split; try done. intros k i Hk. destruct (H4 k i Hk) as (? & ? & ?). done. Qed.

(** One operation: it does not fail, and keeps every image a surface it leaves
    received or shown names. *)
Lemma op_ok s next o :
  store_ok s next →
  ∃ s' next', op (s, next) o = Some (s', next') ∧ store_ok s' next' ∧ next ≤ next' ∧
    ∀ k i, images s !! k = Some i → kept s' k → images s' !! k = Some i.
Proof.
  intros Hs. destruct o as [scene|]; cbn.
  - unfold receive. set (scene' := MkSurfaceGraphicsScene _ _ _).
    destruct (prune_ok _ _ (store_countable s next (referenced scene') (shown s) Hs)) as (s1 & c1 & -> & H1 & H2 & H3 & H4).
    cbn -[receive_asset]. destruct (foldl receive_asset (s1, next, c1) (scene_assets scene)) as [[s2 n2] c2] eqn:E. cbn.
    destruct (receive_assets_ok _ _ _ _ _ _ _ H1 E) as (G1 & G2 & G3 & G4 & G5). exists s2, n2. split_and!; [done|done|done|].
    intros k i Hk Hkept. apply G5, H4. split; [done|]. unfold kept in *. rewrite G2, G3, H2, H3 in Hkept. done.
  - unfold show. destruct (prune_ok _ _ (store_countable s next (latest s) (latest s) Hs)) as (s1 & c1 & -> & H1 & H2 & H3 & H4). cbn.
    exists s1, next. split_and!; [done|done|done|]. intros k i Hk Hkept. apply H4. split; [done|]. unfold kept in *. by rewrite H2, H3 in Hkept.
Qed.

(** Whatever surfaces arrive and are shown, in whatever order and with whatever bytes: the count of bytes
    never goes below zero and is the sum of what is kept, at most 256 images and 256 MiB are kept, each of them
    exactly what its key says, named by a surface that is received or shown, and with a serial of its own; and an
    image stays, the same delivery of it, for as long as such a surface names it. *)
Theorem images_kept (ops : list Op) (o : Op) :
  ∃ s next, run (store_default, 1) ops = Some (s, next) ∧ store_ok s next ∧
    ∃ s' next', op (s, next) o = Some (s', next') ∧ store_ok s' next' ∧
      ∀ k i, images s !! k = Some i → kept s' k → images s' !! k = Some i.
Proof.
  assert (∃ s next, run (store_default, 1) ops = Some (s, next) ∧ store_ok s next) as (s & next & Hrun & Hok).
  { assert (∀ s next, store_ok s next → ∃ s' next', run (s, next) ops = Some (s', next') ∧ store_ok s' next') as Hgen.
    { induction ops as [|o' ops IH]; intros s next Hs; cbn -[op]; [by exists s, next|].
      destruct (op_ok s next o' Hs) as (s1 & n1 & -> & H1 & _). cbn -[op]. by apply IH. }
    apply Hgen. split; cbn [images bytes store_default]; [done|by vm_compute|rewrite map_size_empty; lia|apply map_Forall_empty|].
    intros k k' i i' Hk. by rewrite lookup_empty in Hk. }
  exists s, next. split_and!; [done|done|]. destruct (op_ok s next o Hok) as (s' & n' & H1 & H2 & _ & H4). by exists s', n'.
Qed.

(** What [receive] leaves of a surface: no bytes, and no more placements than
    fit. *)
Lemma receive_scene s next scene s' next' scene' changed :
  receive s next scene = Some (s', next', scene', changed) →
  scene_assets scene' = [] ∧ (length (scene_placements scene') ≤ MAX_PLACEMENTS)%nat ∧
  scene_placements scene' `prefix_of` scene_placements scene ∧ scene_retained_assets scene' = scene_retained_assets scene.
Proof.
  unfold receive. destruct (prune _) as [[s1 c1]|]; [|done]. cbn -[receive_asset MAX_PLACEMENTS].
  destruct (foldl receive_asset _ _) as [[s2 n2] c2]. intros [= <- <- <- <-]. cbn -[MAX_PLACEMENTS]. split; [done|].
  split; [rewrite length_take; lia|]. split; [|done]. exists (drop MAX_PLACEMENTS (scene_placements scene)). by rewrite take_drop.
Qed.

(** ** The flags of [receive] and [show] *)

Lemma prune_same s s' : prune s = Some (s', false) → images s' = images s.
Proof.
  unfold prune. destruct (_ <? _); [done|]. intros [= <- Hsize%negb_false_iff%Nat.eqb_eq]. cbn [images].
  apply map_eq. intros k. destruct (images s !! k) as [i|] eqn:Hk; [|by apply map_lookup_filter_None; left].
  apply map_lookup_filter_Some. split; [done|]. destruct (decide (kept s k)) as [|Hno]; [done|].
  assert (filter (λ '(k, _), kept s k) (images s) ⊆ delete k (images s)) as Hsub.
  { apply map_subseteq_spec. intros j x [Hj Hkj]%map_lookup_filter_Some. rewrite lookup_delete_ne; [done|]. by intros ->. }
  apply subseteq_dom, dom_subseteq_size in Hsub.
  rewrite map_size_delete_Some in Hsub by done. assert (size (images s) ≠ 0%nat) by (intros E; apply map_size_empty_inv in E; by rewrite E, lookup_empty in Hk).
  lia.
Qed.

Lemma receive_assets_same assets s next c s' next' :
  foldl receive_asset (s, next, c) assets = (s', next', false) → images s' = images s ∧ c = false.
Proof.
  revert s next c. induction assets as [|a assets IH]; intros s next c; cbn -[receive_asset]; [by intros [= <- <- ->]|].
  destruct (receive_asset (s, next, c) a) as [[s1 n1] c1] eqn:E1. intros [E ->]%IH. rewrite E. revert E1. unfold receive_asset.
  destruct (_ || _); [by intros [= <- <- ->]|]. destruct (negb _); [by intros [= <- <- ->]|]. destruct (_ || _); [by intros [= <- <- ->]|].
  done.
Qed.

Lemma show_total s next : store_ok s next →
  ∃ s' changed, show s = Some (s', changed) ∧ store_ok s' next ∧ (changed = false → images s' = images s).
Proof.
  intros Hs. unfold show. destruct (prune_ok _ _ (store_countable s next (latest s) (latest s) Hs)) as (s' & c & E & H1 & _).
  exists s', c. split_and!; [done|done|]. intros ->. by apply prune_same in E.
Qed.

Lemma receive_total s next scene : store_ok s next →
  ∃ s' next' scene' changed, receive s next scene = Some (s', next', scene', changed) ∧ store_ok s' next' ∧
    (changed = false → images s' = images s).
Proof.
  intros Hs. destruct (op_ok s next (Receive scene) Hs) as (s' & n' & E & H1 & _). cbn in E.
  destruct (receive s next scene) as [[[[s1 n1] sc] c]|] eqn:Er; [|done]. cbn in E. injection E as <- <-.
  exists s1, n1, sc, c. split_and!; [done|done|]. intros ->. revert Er. unfold receive.
  destruct (prune _) as [[s2 c2]|] eqn:Ep; [|done]. cbn -[receive_asset].
  destruct (foldl receive_asset _ _) as [[s3 n3] c3] eqn:Ef. intros [= <- <- <- ->].
  destruct (receive_assets_same _ _ _ _ _ _ Ef) as [-> ->]. by apply prune_same in Ep.
Qed.
End ClientImages.
