(* ===== verification/ClientFrame.v ===== *)
(** * ClientFrame: frames read and written in pieces
    (crates/sheprd-client/src/frame.rs)

    A socket gives and takes some bytes at a time and times out in between; a
    frame that is partly read or written is kept and resumed. What each call of
    the socket answers and the clock are arguments. *)

From Stdlib Require Import NArith Lia.
From stdpp Require Import base option strings list.
From S2P Require Import Prelude Wire Codec.

Local Open Scope N_scope.

Module ClientFrame.
Import Codec.

(** limits.rs, in milliseconds. *)
Definition COMMAND_TIMEOUT : N := 60000.
Definition POLL : N := 10.

Inductive ClientError := PartialFrameTimeout | WriteTimeout | SocketClosed | FrameLength | ClientIo | ClientProtocol (e : Error).

(** ** Writing *)

Record ImageWriter := MkImageWriter { offset : nat; w_started : option N }.
Definition writer_default : ImageWriter := MkImageWriter 0 None.

(** What [Write::write] answers. *)
Inductive WriteOutcome := W_Wrote (n : nat) | W_Retry | W_Fail.

Definition CHUNK : nat := N.to_nat (64 * 1024).

(** [ImageWriter::write_some]: how much is offered, and what becomes of it;
    [None] when the slice is out of range. *)
Definition offered (w : ImageWriter) (bytes : list N) : option (list N) :=
  slice (offset w) (Nat.min (length bytes) (offset w + CHUNK)) bytes.

Definition write_some (w : ImageWriter) (bytes : list N) (now_ms : N) (o : WriteOutcome)
    : option (ImageWriter * res ClientError bool) :=
  let started := match w_started w with None => Some now_ms | s => s end in
  _ ← offered w bytes;
  let finish at_ := Some (MkImageWriter at_ started, Ok (at_ =? length bytes)%nat) in
  match o with
  | W_Wrote 0 => Some (MkImageWriter (offset w) started, Err ClientIo)
  | W_Wrote n => finish (offset w + n)%nat
  | W_Retry => finish (offset w)
  | W_Fail => Some (MkImageWriter (offset w) started, Err ClientIo)
  end.

(** [ImageWriter::deadline], [check_timeout] and [poll]. *)
Definition writer_deadline (w : ImageWriter) : option N := (λ s, s + COMMAND_TIMEOUT) <$> w_started w.
Definition writer_timed_out (w : ImageWriter) (now_ms : N) : bool :=
  match writer_deadline w with Some due => due <=? now_ms | None => false end.
Definition writer_poll (w : ImageWriter) (bytes : list N) (now_ms : N) (o : WriteOutcome)
    : option (ImageWriter * res ClientError bool) :=
  if writer_timed_out w now_ms then Some (w, Err WriteTimeout) else write_some w bytes now_ms o.

(** ** Reading *)

Record FrameReader := MkFrameReader { fr_bytes : list N; target : nat; r_started : option N; timeout : N }.

(** [FrameReader::with_timeout]. *)
Definition with_timeout (timeout : N) : FrameReader := MkFrameReader [] 4 None timeout.

(** What [Read::read] answers; no bytes are the end of the stream. *)
Inductive ReadOutcome := R_Read (bs : list N) | R_Retry | R_Fail.

Definition BUFFER : nat := N.to_nat 8192.

(** The room [poll] reads into. *)
Definition read_len (r : FrameReader) : nat := Nat.min BUFFER (target r - length (fr_bytes r)).

Section reader.
Context {M : Type} `{Bincode M}.

(** [FrameReader::poll]. *)
Definition poll (r : FrameReader) (o : ReadOutcome) (now_ms : N) : FrameReader * res ClientError (option M) :=
  match o with
  | R_Retry => (r, Ok None)
  | R_Fail => (r, Err ClientIo)
  | R_Read [] => (r, Err SocketClosed)
  | R_Read bs =>
      let r := MkFrameReader (fr_bytes r ++ bs) (target r) (match r_started r with None => Some now_ms | s => s end) (timeout r) in
      if negb (length (fr_bytes r) =? target r)%nat then (r, Ok None)
      else if (target r =? 4)%nat then
        let len := le_val (fr_bytes r) in
        if (len =? 0) || (MAX_GRAPHICS_FRAME_SIZE <? len) then (r, Err FrameLength)
        else (MkFrameReader (fr_bytes r) (target r + N.to_nat len) (r_started r) (timeout r), Ok None)
      else
        match decode_payload (drop 4 (fr_bytes r)) with
        | Err e => (r, Err (ClientProtocol e))
        | Ok message => (MkFrameReader [] 4 None (timeout r), Ok (Some message))
        end
  end.

(** The loop of [poll_batch]: the answers of the socket, each with the time it
    came at. *)
Fixpoint batch (r : FrameReader) (started : N) (outs : list (ReadOutcome * N)) : FrameReader * res ClientError (option M) :=
  match outs with
  | [] => (r, Ok None)
  | (o, now) :: outs =>
      let previous := length (fr_bytes r) in
      let '(r, got) := poll r o now in
      match got with
      | Err e => (r, Err e)
      | Ok (Some m) => (r, Ok (Some m))
      | Ok None => if (length (fr_bytes r) =? previous)%nat || (POLL <=? now - started) then (r, Ok None) else batch r started outs
      end
  end.

(** [FrameReader::poll_batch]: at most 128 reads. *)
Definition poll_batch (r : FrameReader) (started : N) (outs : list (ReadOutcome * N)) : FrameReader * res ClientError (option M) :=
  batch r started (take 128 outs).

(** [FrameReader::deadline] and [check_timeout]. *)
Definition reader_deadline (r : FrameReader) : option N := (λ s, s + timeout r) <$> r_started r.
Definition check_timeout (r : FrameReader) (now_ms : N) : res ClientError unit :=
  match reader_deadline r with
  | Some due => if due <=? now_ms then Err PartialFrameTimeout else Ok tt
  | None => Ok tt
  end.

(** ** A socket that delivers a stream in pieces

    [caps] says how much of the stream each read may give: nothing when the
    read times out or the stream has no more yet. *)

Definition answer (r : FrameReader) (cap : nat) (stream : list N) : ReadOutcome * list N :=
  let n := Nat.min cap (read_len r) in
  match take n stream with
  | [] => (R_Retry, stream)
  | chunk => (R_Read chunk, drop n stream)
  end.

Fixpoint pump (r : FrameReader) (stream : list N) (caps : list (nat * N)) : FrameReader * list N * res ClientError (list M) :=
  match caps with
  | [] => (r, stream, Ok [])
  | (cap, now) :: caps =>
      let '(o, stream) := answer r cap stream in
      let '(r, got) := poll r o now in
      match got with
      | Err e => (r, stream, Err e)
      | Ok m =>
          let '(r, stream, ms) := pump r stream caps in
          (r, stream, match ms with Ok ms => Ok (option_list m ++ ms) | Err e => Err e end)
      end
  end.

(** A frame as it is on the wire. *)
Definition frame (message : M) : res Error (list N) := encode_message message MAX_GRAPHICS_FRAME_SIZE.

(** The reader is part of the way through a frame. *)
Record inside (r : FrameReader) (f : list N) : Prop := {
  i_prefix : fr_bytes r `prefix_of` f;
  i_short : (length (fr_bytes r) < length f)%nat;
  i_target : target r = if (length (fr_bytes r) <? 4)%nat then 4%nat else length f;
  i_started : r_started r = None ↔ fr_bytes r = [];
}.

Context `{!BincodeLaws M}.

(** What a frame is made of. *)
Lemma frame_parts m f :
  frame m = Ok f → bin_fits MAX_GRAPHICS_FRAME_SIZE m →
  ∃ payload, f = le_bytes 4 (lenN payload) ++ payload ∧ payload ≠ [] ∧ lenN payload ≤ MAX_GRAPHICS_FRAME_SIZE ∧
    decode_payload payload = Ok m.
Proof.
  intros (ws & Hw & Hne & Hle & ->)%encode_message_Ok Hfit. exists (concat ws). split; [done|]. split; [done|].
  assert (lenN (concat ws) ≤ MAX_GRAPHICS_FRAME_SIZE) by lia. split; [done|]. by apply decode_payload_concat.
Qed.

Lemma frame_length payload : length (le_bytes 4 (lenN payload) ++ payload) = (4 + length payload)%nat.
Proof. by rewrite length_app, length_le_bytes. Qed.

(** One read inside a frame: it stays inside, or the frame is whole and its
    message comes out. *)
Lemma poll_inside r m f chunk now :
  frame m = Ok f → bin_fits MAX_GRAPHICS_FRAME_SIZE m → inside r f → chunk ≠ [] → (length chunk ≤ read_len r)%nat →
  fr_bytes r ++ chunk `prefix_of` f →
  ∃ r', (inside r' f ∧ fr_bytes r' = fr_bytes r ++ chunk ∧ poll r (R_Read chunk) now = (r', Ok None)) ∨
    (r' = with_timeout (timeout r) ∧ f = fr_bytes r ++ chunk ∧ poll r (R_Read chunk) now = (r', Ok (Some m))).
Proof.
  intros Hf Hfit [H1 H2 H3 H4] Hne Hlen Hpre. destruct (frame_parts m f Hf Hfit) as (payload & -> & Hp & Hmax & Hdec).
  rewrite frame_length in *. unfold read_len in Hlen.
  assert (length payload ≠ 0%nat) as Hp0 by (by destruct payload).
  assert (length (fr_bytes r ++ chunk) ≤ 4 + length payload)%nat as Hle by (apply prefix_length in Hpre; by rewrite frame_length in Hpre).
  rewrite length_app in Hle. destruct chunk as [|c chunk]; [done|]. set (bs := c :: chunk) in *. cbn [poll].
  change (match bs with [] => _ | _ => ?x end) with x. cbn [fr_bytes target r_started timeout].
  assert (length bs ≠ 0%nat) as Hbs by done. rewrite length_app.
  destruct (Nat.eqb_spec (length (fr_bytes r) + length bs) (target r)) as [Et|Et]; cbn [negb].
  - destruct (Nat.eqb_spec (target r) 4) as [E4|E4].
    + assert (fr_bytes r ++ bs = le_bytes 4 (lenN payload)) as Eb.
      { destruct Hpre as [k Hk]. assert (length (fr_bytes r ++ bs) = length (le_bytes 4 (lenN payload))) as El
          by (rewrite length_app, length_le_bytes; lia).
        apply app_inj_1 in Hk as [Hk _]; [done|by symmetry]. }
      rewrite Eb. unfold MAX_GRAPHICS_FRAME_SIZE in Hmax. rewrite le_val_bytes4 by (unfold u32_max; lia).
      assert (lenN payload ≠ 0) as Hl0 by (by rewrite lenN_nil). rewrite (proj2 (N.eqb_neq _ _) Hl0).
      rewrite (proj2 (N.ltb_ge MAX_GRAPHICS_FRAME_SIZE (lenN payload))) by (unfold MAX_GRAPHICS_FRAME_SIZE; lia). cbn [orb].
      eexists. left. split; [|split; [|done]]; [|done]. rewrite <-Eb. split; cbn [fr_bytes target r_started].
      * by exists payload.
      * rewrite !length_app. lia.
      * rewrite !length_app, Et, E4. cbn. unfold lenN. lia.
      * destruct (r_started r); split; try done; intros E; by destruct (fr_bytes r).
    + revert H3. destruct (Nat.ltb_spec (length (fr_bytes r)) 4) as [Hlt|Hge]; intros H3; [lia|].
      assert (fr_bytes r ++ bs = le_bytes 4 (lenN payload) ++ payload) as Eb.
      { destruct Hpre as [k Hk]. destruct k as [|x k]; [by rewrite app_nil_r in Hk|]. apply (f_equal length) in Hk.
        rewrite frame_length, !length_app in Hk. change (length (x :: k)) with (S (length k)) in Hk. lia. }
      rewrite Eb, drop_app_length' by (by rewrite length_le_bytes). rewrite Hdec. eexists. right. done.
  - eexists. left. split; [|split; [|done]]; [|done]. split; cbn [fr_bytes target r_started].
    + done.
    + rewrite length_app, frame_length. revert H3. destruct (Nat.ltb_spec (length (fr_bytes r)) 4); intros Ht3; lia.
    + rewrite length_app, frame_length. revert H3. destruct (Nat.ltb_spec (length (fr_bytes r)) 4), (Nat.ltb_spec (length (fr_bytes r) + length bs) 4); intros Ht3; lia.
    + destruct (r_started r); split; try done; intros E; by destruct (fr_bytes r).
Qed.

(** Where a reader is in the stream of some frames. *)
Definition position (r : FrameReader) (stream : list N) (fs : list (list N)) : Prop :=
  match fs with
  | [] => fr_bytes r = [] ∧ target r = 4%nat ∧ r_started r = None ∧ stream = []
  | f :: fs => inside r f ∧ stream = drop (length (fr_bytes r)) f ++ concat fs
  end.

Lemma fresh_position t ms fs :
  Forall2 (λ m f, frame m = Ok f) ms fs → Forall (bin_fits MAX_GRAPHICS_FRAME_SIZE) ms →
  position (with_timeout t) (concat fs) fs.
Proof.
  intros Hf Hfit. destruct Hf as [|m f ms fs Hm Hf]; cbn; [done|]. rewrite drop_0. split; [|done].
  apply Forall_cons in Hfit as [Hfit _]. destruct (frame_parts m f Hm Hfit) as (payload & -> & Hp & _).
  split; cbn; [apply prefix_nil|rewrite frame_length; lia|done|done].
Qed.

Lemma read_len_inside r m f :
  frame m = Ok f → bin_fits MAX_GRAPHICS_FRAME_SIZE m → inside r f →
  (0 < read_len r)%nat ∧ (length (fr_bytes r) + read_len r ≤ length f)%nat.
Proof.
  intros Hf Hfit [H1 H2 H3 H4]. unfold read_len. assert (0 < BUFFER)%nat by (unfold BUFFER; lia).
  destruct (frame_parts m f Hf Hfit) as (payload & -> & Hp & _). rewrite frame_length in *. revert H3.
  destruct (Nat.ltb_spec (length (fr_bytes r)) 4); intros Ht3; lia.
Qed.

Lemma poll_timeout r o now : timeout (poll r o now).1 = timeout r.
Proof. unfold poll. destruct o as [[|c bs]| |]; [done| |done|done]. cbv zeta. repeat case_match; simplify_eq/=; done. Qed.

(** One read wherever the reader is: the message it completes, if any, is the
    next one. *)
Lemma pump_step t r stream m ms f fs cap now :
  timeout r = t → Forall2 (λ m f, frame m = Ok f) (m :: ms) (f :: fs) → Forall (bin_fits MAX_GRAPHICS_FRAME_SIZE) (m :: ms) →
  position r stream (f :: fs) →
  let '(o, stream') := answer r cap stream in
  timeout (poll r o now).1 = t ∧ (cap ≠ 0%nat → length stream' < length stream)%nat ∧ (length stream' ≤ length stream)%nat ∧
  ((poll r o now).2 = Ok None ∧ position (poll r o now).1 stream' (f :: fs) ∨
   (poll r o now).2 = Ok (Some m) ∧ position (poll r o now).1 stream' fs).
Proof.
  intros Ht Hf Hfit [Hin ->]. apply Forall2_cons in Hf as [Hm Hf]. apply Forall_cons in Hfit as [Hfm Hfit].
  destruct (read_len_inside r m f Hm Hfm Hin) as [Hpos Hroom]. pose proof Hin as [Hpre Hshort _ _].
  destruct Hpre as [rest Hrest]. rewrite Hrest. rewrite drop_app_length. rewrite Hrest, length_app in Hroom, Hshort. unfold answer.
  set (n := Nat.min cap (read_len r)). assert (n ≤ length rest)%nat as Hn by lia.
  assert (take n (rest ++ concat fs) = take n rest) as Htake by (by rewrite take_app_le).
  rewrite Htake. destruct (take n rest) as [|c chunk] eqn:Echunk.
  - assert (n = 0%nat) as Hn0.
    { apply (f_equal length) in Echunk. rewrite length_take in Echunk. cbn in Echunk. lia. }
    cbn. split; [done|]. split; [lia|]. split; [lia|]. left. split; [done|]. split; [by rewrite <-Hrest|].
    by rewrite drop_app_length.
  - set (bs := c :: chunk) in *. assert (length bs = n) as Hlen by (rewrite <-Echunk, length_take; lia).
    assert (n ≠ 0%nat) as Hn0 by (rewrite <-Hlen; done).
    destruct (poll_inside r m f bs now Hm Hfm Hin) as (r' & Hcase); [done|lia| |].
    { exists (drop n rest). rewrite <-app_assoc, <-Echunk, take_drop. done. }
    assert (drop n (rest ++ concat fs) = drop n rest ++ concat fs) as Hdrop by (by rewrite drop_app_le).
    rewrite Hdrop, length_app, length_drop, length_app. split; [|split; [lia|split; [lia|]]].
    { by rewrite poll_timeout. }
    destruct Hcase as [(Hin' & Hb & ->)|(-> & Ef & ->)]; cbn [fst snd]; [left|right]; (split; [done|]).
    + rewrite <-Hrest. split; [done|]. rewrite Hb, Hrest. f_equal. rewrite length_app, <-drop_drop, drop_app_length. by rewrite Hlen.
    + assert (drop n rest = []) as ->.
      { apply drop_ge. rewrite Hrest in Ef. apply app_inv_head in Ef. rewrite Ef. lia. }
      cbn [app]. by eapply fresh_position.
Qed.

Lemma answer_empty r cap : answer r cap [] = (R_Retry, []).
Proof. unfold answer. by rewrite take_nil. Qed.

Lemma pump_spec caps r stream ms fs :
  Forall2 (λ m f, frame m = Ok f) ms fs → Forall (bin_fits MAX_GRAPHICS_FRAME_SIZE) ms → position r stream fs →
  ∃ r' stream' out ms' fs', pump r stream caps = (r', stream', Ok out) ∧ ms = out ++ ms' ∧
    Forall2 (λ m f, frame m = Ok f) ms' fs' ∧ position r' stream' fs' ∧
    (length stream' + length (filter (λ c, c.1 ≠ 0%nat) caps) ≤ length stream ∨ stream' = [])%nat.
Proof.
  revert r stream ms fs. induction caps as [|[cap now] caps IH]; intros r stream ms fs Hf Hfit Hpos.
  { exists r, stream, [], ms, fs. cbn. split; [done|]. split; [done|]. split; [done|]. split; [done|]. left. lia. }
  cbn [pump]. destruct Hf as [|m f ms fs Hm Hf].
  - destruct Hpos as (Hb & Ht & Hst & ->). rewrite answer_empty. cbn [poll].
    destruct (IH r [] [] []) as (r' & s' & out & ms' & fs' & -> & E & H1 & H2 & H3); [constructor|constructor|done|].
    exists r', s', out, ms', fs'. split; [done|]. split; [done|]. split; [done|]. split; [done|]. right.
    destruct H3 as [H3|H3]; [|done]. destruct s'; [done|cbn in H3; lia].
  - pose proof (pump_step (timeout r) r stream m ms f fs cap now eq_refl ltac:(by constructor) Hfit Hpos) as Hstep.
    destruct (answer r cap stream) as [o s1]. destruct Hstep as (_ & Hlt & Hle & Hcase).
    destruct (poll r o now) as [r1 got]. cbn [fst snd] in Hcase.
    assert (∀ got' ms0 fs0, got = Ok got' → m :: ms = option_list got' ++ ms0 → Forall2 (λ m f, frame m = Ok f) ms0 fs0 →
      position r1 s1 fs0 → ∃ r' stream' out ms' fs',
        (match got with
         | Ok m0 => let '(r2, s2, ms2) := pump r1 s1 caps in (r2, s2, match ms2 with Ok ms2 => Ok (option_list m0 ++ ms2) | Err e => Err e end)
         | Err e => (r1, s1, Err e)
         end) = (r', stream', Ok out) ∧ m :: ms = out ++ ms' ∧ Forall2 (λ m f, frame m = Ok f) ms' fs' ∧ position r' stream' fs' ∧
        (length stream' + length (filter (λ c, c.1 ≠ 0%nat) ((cap, now) :: caps)) ≤ length stream ∨ stream' = [])%nat) as Hnext.
    { intros got' ms0 fs0 -> Ems Hf0 Hpos0.
      assert (Forall (bin_fits MAX_GRAPHICS_FRAME_SIZE) ms0) as Hfit0 by (rewrite Ems in Hfit; by apply Forall_app in Hfit as [_ ?]).
      destruct (IH r1 s1 ms0 fs0 Hf0 Hfit0 Hpos0) as (r' & s' & out & ms' & fs' & -> & E & H1 & H2 & H3).
      exists r', s', (option_list got' ++ out), ms', fs'. split; [done|]. split; [by rewrite Ems, E, <-app_assoc|]. split; [done|].
      split; [done|]. destruct H3 as [H3|H3]; [left|by right]. rewrite filter_cons. cbn [fst].
      destruct (decide (cap ≠ 0%nat)) as [Hc|Hc]; cbn [length]; [specialize (Hlt Hc)|]; lia. }
    destruct Hcase as [[Hgot Hp]|[Hgot Hp]].
    + apply (Hnext None (m :: ms) (f :: fs)); [done|done|by constructor|done].
    + apply (Hnext (Some m) ms fs); done.
Qed.

(** C33: frames survive a socket that gives bytes in any pieces and times out in between: whatever each read
    gives, what comes out are the messages that were written, in order and none twice, with no error; once there
    were as many reads that gave something as the stream has bytes, all of them have come out and the reader waits
    for the next frame with no deadline running. *)
Theorem reader_delivers (ms : list M) (fs : list (list N)) (t : N) (caps : list (nat * N)) :
  Forall2 (λ m f, frame m = Ok f) ms fs → Forall (bin_fits MAX_GRAPHICS_FRAME_SIZE) ms →
  ∃ r stream out, pump (with_timeout t) (concat fs) caps = (r, stream, Ok out) ∧ out `prefix_of` ms ∧
    ((length (concat fs) ≤ length (filter (λ c, c.1 ≠ 0%nat) caps))%nat →
     out = ms ∧ stream = [] ∧ fr_bytes r = [] ∧ target r = 4%nat ∧ reader_deadline r = None).
Proof.
  intros Hf Hfit. destruct (pump_spec caps (with_timeout t) (concat fs) ms fs Hf Hfit (fresh_position t ms fs Hf Hfit))
    as (r & s & out & ms' & fs' & -> & E & Hf' & Hp & Hlen).
  exists r, s, out. split; [done|]. split; [by exists ms'|]. intros Hall.
  assert (s = []) as ->.
  { destruct Hlen as [Hlen|Hlen]; [|done]. destruct s; [done|]. cbn in Hlen. lia. }
  destruct Hf' as [|m f ms' fs' Hm Hf'].
  - rewrite app_nil_r in E. destruct Hp as (Hb & Ht & Hst & _). subst. unfold reader_deadline. by rewrite Hst.
  - destruct Hp as [[_ Hshort _ _] Hs]. exfalso. apply (f_equal length) in Hs. rewrite length_app, length_drop in Hs. cbn in Hs. lia.
Qed.
End reader.

Definition sample_caps : list (nat * N) := [(3%nat, 0); (0%nat, 5)] ++ replicate 9 (9%nat, 6).

Lemma reader_delivers_witness :
  ∃ r stream out, pump (with_timeout 10000) (concat [[1; 0; 0; 0; 7]; [1; 0; 0; 0; 8]]) sample_caps = (r, stream, Ok out) ∧
    out = [7; 8] ∧ stream = [] ∧ reader_deadline r = None.
Proof.
  destruct (reader_delivers [7; 8] [[1; 0; 0; 0; 7]; [1; 0; 0; 0; 8]] 10000 sample_caps) as (r & stream & out & Hp & _ & H).
  - repeat constructor.
  - repeat constructor; vm_compute; discriminate.
  - exists r, stream, out. split; [exact Hp|]. destruct H as (H1 & H2 & _ & _ & H3); [apply Nat.leb_le; by vm_compute|]. exact (conj H1 (conj H2 H3)).
Defined.

(** ** The writer writes each byte once *)

(** A run of writes, with what the socket took. *)
Fixpoint write_run (w : ImageWriter) (bytes : list N) (outs : list (WriteOutcome * N)) (taken : list N) : option (ImageWriter * list N) :=
  match outs with
  | [] => Some (w, taken)
  | (o, now) :: outs =>
      chunk ← offered w bytes;
      '(w', r) ← write_some w bytes now o;
      let taken := taken ++ match o with W_Wrote n => take n chunk | _ => [] end in
      match r with
      | Ok false => write_run w' bytes outs taken
      | _ => Some (w', taken)
      end
  end.

(** The socket takes no more than it is offered. *)
Fixpoint honest (w : ImageWriter) (bytes : list N) (outs : list (WriteOutcome * N)) : Prop :=
  match outs with
  | [] => True
  | (o, now) :: outs =>
      match o with W_Wrote n => match offered w bytes with Some chunk => n ≤ length chunk | None => True end | _ => True end%nat ∧
      match write_some w bytes now o with Some (w', Ok false) => honest w' bytes outs | _ => True end
  end.

Lemma offered_fits w bytes : (offset w ≤ length bytes)%nat → ∃ chunk, offered w bytes = Some chunk ∧ chunk `prefix_of` drop (offset w) bytes.
Proof.
  intros Ho. unfold offered, slice.
  assert ((offset w <=? Nat.min (length bytes) (offset w + CHUNK)) = true)%nat as -> by (apply Nat.leb_le; lia).
  assert ((Nat.min (length bytes) (offset w + CHUNK) <=? length bytes) = true)%nat as -> by (apply Nat.leb_le; lia). cbn.
  eexists. split; [done|]. match goal with |- take ?n ?l `prefix_of` _ => exists (drop n l) end. by rewrite take_drop.
Qed.

Lemma write_some_spec w bytes now o :
  (offset w ≤ length bytes)%nat →
  match o with W_Wrote n => match offered w bytes with Some chunk => n ≤ length chunk | None => True end | _ => True end%nat →
  ∃ chunk w' r, offered w bytes = Some chunk ∧ write_some w bytes now o = Some (w', r) ∧ (offset w' ≤ length bytes)%nat ∧
    take (offset w) bytes ++ match o with W_Wrote n => take n chunk | _ => [] end = take (offset w') bytes ∧
    (r = Ok true → offset w' = length bytes) ∧ (r = Ok false → (offset w' < length bytes)%nat).
Proof.
  intros Ho Hn. destruct (offered_fits w bytes Ho) as (chunk & Hc & [rest Hrest]). rewrite Hc in Hn. exists chunk.
  assert (length chunk + length rest = length bytes - offset w)%nat as Hlen.
  { apply (f_equal length) in Hrest. rewrite length_drop, length_app in Hrest. lia. }
  unfold write_some. rewrite Hc. cbn.
  destruct o as [[|n]| |]; eexists _, _; (split; [done|]); (split; [done|]); cbn [offset].
  - split; [done|]. split; [by rewrite take_0, app_nil_r|]. done.
  - split; [lia|]. split; [|split; [|]].
    + rewrite <-(take_drop (offset w) bytes) at 2. rewrite Hrest, take_app_ge by (rewrite length_take; lia).
      rewrite length_take, Nat.min_l by lia. f_equal. replace (offset w + S n - offset w)%nat with (S n) by lia.
      by rewrite take_app_le.
    + intros [= E%Nat.eqb_eq]. done.
    + intros [= E%Nat.eqb_neq]. lia.
  - split; [done|]. split; [by rewrite app_nil_r|]. split; [intros [= E%Nat.eqb_eq]; done|]. intros [= E%Nat.eqb_neq]. lia.
  - split; [done|]. split; [by rewrite app_nil_r|]. done.
Qed.

(** Whatever the socket takes at a time, what it has taken is the beginning of
    the frame up to the writer's offset: nothing twice, nothing left out. *)
Lemma writer_exact outs w bytes taken :
  (offset w ≤ length bytes)%nat → honest w bytes outs → taken = take (offset w) bytes →
  ∃ w', write_run w bytes outs taken = Some (w', take (offset w') bytes) ∧ (offset w' ≤ length bytes)%nat.
Proof.
  revert w taken. induction outs as [|[o now] outs IH]; intros w taken Ho Hh ->; cbn -[write_some offered]; [by exists w|].
  destruct Hh as [Hn Hh]. destruct (write_some_spec w bytes now o Ho Hn) as (chunk & w' & r & -> & Hw & Ho' & Ht & _ & _).
  rewrite Hw in Hh |- *. cbn -[write_some offered]. rewrite Ht. destruct r as [[]|e]; [by exists w'|by apply IH|by exists w'].
Qed.
End ClientFrame.
