(* ===== verification/Groups.v ===== *)
(** * Groups: a workspace's view split into groups of tabs
    (crates/sheprd-gpui/src/browser/groups.rs)

    Each group lists its own tabs and shows one of them. Widths are binary32
    numbers, as in [Panes]. *)

From Stdlib Require Import NArith ZArith Lia Floats.SpecFloat.
From stdpp Require Import base option strings list sets.
From S2P Require Import Prelude Backend Panes.

Local Open Scope N_scope.

Module Groups.
Import Panes.

(** [0.08], the binary32 number nearest to eight hundredths. *)
Definition MIN_SHARE : f32 := f32_div (f32_of 8) (f32_of 100).
Definition MAX_SAVED_GROUPS : nat := 32.
Definition MAX_SAVED_TABS : nat := 512.
Definition MAX_TAB_ID_BYTES : N := 256.

Definition GroupId := N.

(** [GroupIds::next]; the count wraps as in a release build. *)
Definition next_id (ids : N) : N * N := let ids := (ids + 1) mod 2 ^ 64 in (ids, ids).

Inductive Pick := Herdr (tab : list N) | Page (id : N).
#[export] Instance Pick_eq_dec : EqDecision Pick.
Proof. solve_decision. Defined.

Inductive Shown := Terminal | ShownPage (id : N) | Elsewhere (tab : list N) | Empty.

Record Group := MkGroup { g_id : N; g_pick : option Pick; g_share : f32 }.
Record Layout := MkLayout { groups : list Group; active : N; owners : list (Pick * N) }.

(** [Layout::new]. *)
Definition layout_new (id : N) : Layout := MkLayout [MkGroup id None (f32_of 1)] id [].

Definition group (l : Layout) (id : N) : option Group := find (λ g, g_id g =? id) (groups l).

(** [Layout::share]. *)
Definition share (l : Layout) (id : N) : f32 := match group l id with Some g => g_share g | None => f32_of 0 end.

(** [Layout::pick]. *)
Definition pick (l : Layout) (id : N) (focused : option (list N)) : option Pick :=
  g ← group l id;
  match g_pick g with
  | Some p => Some p
  | None => if (length (groups l) =? 1)%nat then Herdr <$> focused else None
  end.

(** [Layout::shown]. *)
Definition shown (l : Layout) (id : N) (focused : N → option (list N)) : Shown :=
  match pick l id (focused id) with
  | Some (Page page) => ShownPage page
  | Some (Herdr tab) => if bool_decide (focused id = Some tab) then Terminal else Elsewhere tab
  | None => if (length (groups l) =? 1)%nat then Terminal else Empty
  end.

(** [Layout::terminal_holders]. *)
Definition terminal_holders (l : Layout) : list (N * list N) :=
  omap (λ g, match g_pick g with Some (Herdr tab) => Some (g_id g, tab) | _ => None end) (groups l).

(** [Layout::claimed]. *)
Definition claimed (l : Layout) (p : Pick) : option N := snd <$> find (λ o, bool_decide (o.1 = p)) (owners l).

(** [Layout::owner]. *)
Definition owner (l : Layout) (p : Pick) : N :=
  match claimed l p with
  | Some g => if (1 <? length (groups l))%nat then g else active l
  | None => active l
  end.

(** [Layout::lists]. *)
Definition lists (l : Layout) (id : N) (p : Pick) : bool := bool_decide (is_Some (group l id)) && (owner l p =? id).

Definition with_owners (l : Layout) (os : list (Pick * N)) : Layout := MkLayout (groups l) (active l) os.
Definition with_groups (l : Layout) (gs : list Group) : Layout := MkLayout gs (active l) (owners l).
Definition with_active (l : Layout) (id : N) : Layout := MkLayout (groups l) id (owners l).
Definition set_pick (g : Group) (p : option Pick) : Group := MkGroup (g_id g) p (g_share g).
Definition set_share (g : Group) (s : f32) : Group := MkGroup (g_id g) (g_pick g) s.

(** A tab named the group's own unless it is somebody's. *)
Definition own_new (l : Layout) (p : Pick) (id : N) : Layout :=
  match claimed l p with None => with_owners l (owners l ++ [(p, id)]) | Some _ => l end.

(** [Layout::adopt]. *)
Definition adopt (l : Layout) (tabs : list Pick) : Layout :=
  if (length (groups l) <? 2)%nat then l else foldl (λ l p, own_new l p (active l)) l tabs.

Definition shows (p : Pick) (g : Group) : bool := bool_decide (g_pick g = Some p).

(** The step of [settle_owners] for one tab. *)
Definition settle_one (l : Layout) (p : Pick) : Layout :=
  match find (shows p) (groups l) with Some g => own_new l p (g_id g) | None => l end.

(** [Layout::settle_owners]. *)
Definition settle_owners (l : Layout) : Layout := foldl settle_one l (omap g_pick (groups l)).

(** [Layout::activate]. *)
Definition activate (l : Layout) (id : N) : Layout * bool :=
  if (active l =? id) || bool_decide (group l id = None) then (l, false)
  else (with_active (settle_owners l) id, true).

(** The owner of a tab replaced, or named. *)
Fixpoint put_owner (p : Pick) (id : N) (os : list (Pick * N)) : list (Pick * N) :=
  match os with
  | [] => [(p, id)]
  | o :: os => if bool_decide (o.1 = p) then (o.1, id) :: os else o :: put_owner p id os
  end.

(** [Layout::claim]. *)
Definition claim (l : Layout) (id : N) (p : Pick) : Layout :=
  let gs := (λ g, if negb (g_id g =? id) && shows p g then set_pick g None else g) <$> groups l in
  let l := with_groups l gs in
  if (length gs <? 2)%nat then l else with_owners l (put_owner p id (owners l)).

(** [Layout::give]. *)
Definition give (l : Layout) (id : N) (p : Pick) : Layout :=
  match group l id with Some _ => claim l id p | None => l end.

(** The first group [id] changed: [group_mut]. *)
Fixpoint update_group (id : N) (f : Group → Group) (gs : list Group) : list Group :=
  match gs with
  | [] => []
  | g :: gs => if g_id g =? id then f g :: gs else g :: update_group id f gs
  end.

(** [Layout::show]. *)
Definition show (l : Layout) (id : N) (p : Pick) : Layout :=
  match group l id with
  | None => l
  | Some _ => let l := claim l id p in with_groups l (update_group id (λ g, set_pick g (Some p)) (groups l))
  end.

(** [Layout::choose]. *)
Definition choose (l : Layout) (id : N) (p : Pick) : Layout :=
  match group l id with Some _ => show (activate l id).1 id p | None => l end.

(** [Layout::forget]. *)
Definition forget (l : Layout) (p : Pick) : Layout * option N :=
  let l := with_owners l (filter (λ o, o.1 ≠ p) (owners l)) in
  match list_find (λ g, shows p g = true) (groups l) with
  | None => (l, None)
  | Some (i, g) => (with_groups l (<[i := set_pick g None]> (groups l)), Some (g_id g))
  end.

(** The groups of a split before the new one is put in: a lone group that
    followed the terminal keeps the focused tab. *)
Definition split_source (l : Layout) (focused : option (list N)) : list Group :=
  match groups l with
  | [lone] => match g_pick lone with None => [set_pick lone (Herdr <$> focused)] | Some _ => [lone] end
  | gs => gs
  end.

(** [Layout::split]. *)
Definition split (l : Layout) (id new : N) (focused : option (list N)) (tabs : list Pick) : Layout * bool :=
  match list_find (λ g, (g_id g =? id) = true) (groups l) with
  | None => (l, false)
  | Some (index, _) =>
      let gs := split_source l focused in
      let half := f32_div (default (f32_of 0) (g_share <$> gs !! index)) (f32_of 2) in
      let gs := alter (λ g, set_share g half) index gs in
      let gs := take (S index) gs ++ MkGroup new None half :: drop (S index) gs in
      let l := settle_owners (adopt (with_groups l gs) tabs) in
      (with_active l new, true)
  end.

(** [Layout::fold_target]. *)
Definition fold_target (l : Layout) (id : N) : option (nat * f32 * N) :=
  if (length (groups l) <? 2)%nat then None
  else
    '(index, g) ← list_find (λ g, (g_id g =? id) = true) (groups l);
    into ← groups l !! (if (index =? 0)%nat then 1%nat else (index - 1)%nat);
    Some (index, g_share g, g_id into).

(** An owner that closes hands its tab to [next]. *)
Definition move_owner (id next : N) (o : Pick * N) : Pick * N := if o.2 =? id then (o.1, next) else o.

(** [Layout::close]. *)
Definition close (l : Layout) (id : N) : Layout * bool :=
  if (length (groups l) <? 2)%nat then (l, false)
  else
    match list_find (λ g, (g_id g =? id) = true) (groups l) with
    | None => (l, false)
    | Some (index, closed) =>
        let l := settle_owners l in
        let gs := delete index (groups l) in
        let neighbour := (index - 1)%nat in
        match gs !! neighbour with
        | None => (l, false)
        | Some n =>
            let gs := <[neighbour := set_share n (f32_add (g_share n) (g_share closed))]> gs in
            let next := g_id n in
            let os := move_owner id next <$> owners l in
            (MkLayout gs (if active l =? id then next else active l) (if (length gs =? 1)%nat then [] else os), true)
        end
    end.

Definition is_finite (a : f32) : bool := match a with S754_finite _ _ _ | S754_zero _ => true | _ => false end.
Definition f32_leb (a b : f32) : bool := SFleb a b.
(** [Iterator::sum] over [f32] starts at negative zero. *)
Definition sum (ss : list f32) : f32 := foldl f32_add (S754_zero true) ss.
(** [Layout::drag]; [None] when [clamp] would panic. *)
Definition drag (l : Layout) (divider : nat) (offset width : f32) : option (Layout * bool) :=
  if (length (groups l) <=? divider + 1)%nat || is_nan width || f32_leb width (f32_of 0) || negb (is_finite offset) then Some (l, false)
  else
    a ← groups l !! divider;
    b ← groups l !! (S divider);
    let start := sum (g_share <$> take divider (groups l)) in
    let pair := f32_add (g_share a) (g_share b) in
    if SFltb pair (f32_mul (f32_of 2) MIN_SHARE) then Some (l, false)
    else
      let hi := f32_sub pair MIN_SHARE in
      if negb (f32_leb MIN_SHARE hi) then None
      else
        let left := f32_clamp MIN_SHARE hi (f32_sub (f32_div offset width) start) in
        if SFeqb left (g_share a) then Some (l, false)
        else
          Some (with_groups l (<[S divider := set_share b (f32_sub pair left)]> (<[divider := set_share a left]> (groups l))), true).

(** [Layout::focus_moved]. *)
Definition focus_moved (l : Layout) (id : N) (new : list N) : Layout :=
  match group l id with
  | Some g => match g_pick g with Some _ => show l id (Herdr new) | None => l end
  | None => l
  end.

(** [Layout::tabs]. *)
Definition tabs (l : Layout) : list Pick := omap g_pick (groups l) ++ (owners l).*1.

(** ** Saved layouts *)

Record SavedGroup := MkSavedGroup { s_pick : option Pick; s_share : f32; s_tabs : list Pick; s_hidden : list Pick }.
Record SavedLayout := MkSavedLayout { s_groups : list SavedGroup; s_active : nat }.

Definition valid_pick (p : Pick) : bool :=
  match p with
  | Herdr tab => negb (bool_decide (tab = [])) && (N.of_nat (length tab) <=? MAX_TAB_ID_BYTES)
  | Page _ => true
  end.

(** [SavedLayout::valid]. *)
Definition valid (s : SavedLayout) : bool :=
  negb (bool_decide (s_groups s = [])) && (length (s_groups s) <=? MAX_SAVED_GROUPS)%nat
  && (s_active s <? length (s_groups s))%nat
  && forallb (λ g, is_finite (s_share g) && SFltb (f32_of 0) (s_share g)
                   && match s_pick g with Some p => valid_pick p | None => true end
                   && (length (s_tabs g) <=? MAX_SAVED_TABS)%nat && forallb valid_pick (s_tabs g)
                   && (length (s_hidden g) <=? MAX_SAVED_TABS)%nat && forallb valid_pick (s_hidden g)) (s_groups s).

(** The closure [claim] of [SavedLayout::owners]: the first claim stands. *)
Definition claim_at (os : list (Pick * nat)) (p : Pick) (i : nat) : list (Pick * nat) :=
  if bool_decide (p ∈ os.*1) then os else os ++ [(p, i)].

Definition kept (p : Pick) (g : SavedGroup) : bool := negb (bool_decide (p ∈ s_hidden g)).
Definition shows_kept (p : Pick) (g : SavedGroup) : bool := bool_decide (s_pick g = Some p) && kept p g.

Definition position (f : SavedGroup → bool) (gs : list SavedGroup) : option nat :=
  fst <$> list_find (λ g, f g = true) gs.

(** The closure [using]. *)
Definition using_group (s : SavedLayout) (wanted : SavedGroup → bool) : option nat :=
  match s_groups s !! s_active s with Some g => if wanted g then Some (s_active s) else None | None => None end.

Definition or_else {A} (a b : option A) : option A := match a with Some _ => a | None => b end.

Definition keeper (s : SavedLayout) (p : Pick) : nat :=
  default (s_active s)
    (or_else (using_group s (shows_kept p))
      (or_else (position (shows_kept p) (s_groups s))
        (or_else (using_group s (kept p)) (position (kept p) (s_groups s))))).

Definition claim_all (os cs : list (Pick * nat)) : list (Pick * nat) := foldl (λ os c, claim_at os c.1 c.2) os cs.

(** The claims of [SavedLayout::owners] in their order: each group's tabs,
    then the tabs shown and the tabs closed. *)
Definition claims (s : SavedLayout) : list (Pick * nat) :=
  mjoin (imap (λ i g, (λ p, (p, i)) <$> s_tabs g) (s_groups s))
  ++ ((λ p, (p, keeper s p)) <$> (omap s_pick (s_groups s) ++ (s_groups s ≫= s_hidden))).

(** [SavedLayout::owners]. *)
Definition saved_owners (s : SavedLayout) : list (Pick * nat) :=
  claim_all [] (claims s).

(** [Layout::saved]. *)
Definition saved (l : Layout) : option SavedLayout :=
  match groups l with
  | [MkGroup _ None _] => None
  | gs =>
      Some (MkSavedLayout
        ((λ g, MkSavedGroup (g_pick g) (g_share g) (filter (λ o, o.2 = g_id g) (owners l)).*1 []) <$> gs)
        (default 0%nat (fst <$> list_find (λ g, g_id g = active l) gs)))
  end.

(** The ids [GroupIds::next] hands out to [n] groups, and the counter after. *)
Fixpoint next_ids (n : nat) (ids : N) : list N * N :=
  match n with
  | O => ([], ids)
  | S n => let '(id, ids) := next_id ids in let '(rest, ids) := next_ids n ids in (id :: rest, ids)
  end.

(** The tab a restored group shows: the one saved, where it is its own. *)
Definition restored_pick (os : list (Pick * N)) (g : Group) : Group :=
  if bool_decide (os = []) || match g_pick g with Some p => bool_decide ((p, g_id g) ∈ os) | None => false end
  then g else set_pick g None.

(** [Layout::restore]; [None] where an index of the source would panic. *)
Definition restore (s : SavedLayout) (ids : N) : option (Layout * N) :=
  let total := sum (s_share <$> s_groups s) in
  let '(names, ids) := next_ids (length (s_groups s)) ids in
  let gs := zip_with (λ g id, MkGroup id (s_pick g) (f32_div (s_share g) total)) (s_groups s) names in
  a ← gs !! Nat.min (s_active s) (length gs - 1);
  os ← (if (1 <? length gs)%nat
        then mapM (λ o, g ← gs !! o.2; Some (o.1, g_id g)) (saved_owners s) else Some []);
  Some (MkLayout (restored_pick os <$> gs) (g_id a) os, ids).

(** ** Well-formed layouts *)

Definition ids (l : Layout) : list N := g_id <$> groups l.
#[local] Arguments ids : simpl never.

(** What every layout keeps: distinct groups, one of them in use, at most one
    owner per tab. *)
Record shaped (l : Layout) : Prop := MkShaped {
  sh_ids : NoDup (ids l);
  sh_active : active l ∈ ids l;
  sh_keys : NoDup (owners l).*1;
  sh_owned : ∀ p o, (p, o) ∈ owners l → o ∈ ids l
}.

(** A lone group owns every tab unnamed; beside another, a group is the named
    owner of the tab it shows. *)
Record wf (l : Layout) : Prop := MkWf {
  wf_shaped : shaped l;
  wf_lone : length (groups l) = 1%nat → owners l = [];
  wf_shown : (length (groups l) ≠ 1)%nat → ∀ g p, g ∈ groups l → g_pick g = Some p → (p, g_id g) ∈ owners l
}.

(** Between two settlements: a tab shown without an owner is shown by the
    group in use. *)
Definition pending (l : Layout) : Prop :=
  ∀ g p, g ∈ groups l → g_pick g = Some p →
    (p, g_id g) ∈ owners l ∨ ((p ∉ (owners l).*1) ∧ g_id g = active l).

Lemma keys_elem (os : list (Pick * N)) p o : (p, o) ∈ os → p ∈ os.*1.
Proof. intros H. apply list_elem_of_fmap. by exists (p, o). Qed.

Lemma keys_inj (os : list (Pick * N)) p o o' : NoDup os.*1 → (p, o) ∈ os → (p, o') ∈ os → o = o'.
Proof.
  induction os as [|[q r] os IH]; cbn; [by intros _ ?%elem_of_nil|].
  intros [Hq Hn]%NoDup_cons H H'. apply elem_of_cons in H, H'.
  destruct H as [E|H], H' as [E'|H']; [congruence| | |eauto].
  - injection E as -> ->. by apply keys_elem in H'.
  - injection E' as -> ->. by apply keys_elem in H.
Qed.

Lemma claimed_elem l p o : claimed l p = Some o → (p, o) ∈ owners l.
Proof.
  unfold claimed. intros ([q r]&Hf&->)%fmap_Some. apply find_some in Hf as [Hin Hq].
  apply bool_decide_eq_true in Hq. cbn in Hq. subst. by apply list_elem_of_In.
Qed.

Lemma claimed_None l p : (claimed l p = None) ↔ p ∉ (owners l).*1.
Proof.
  unfold claimed. rewrite fmap_None. split.
  - intros Hf ([q r]&->&Hin)%list_elem_of_fmap. apply list_elem_of_In in Hin.
    apply (find_none _ _ Hf) in Hin. by apply bool_decide_eq_false in Hin.
  - intros Hp. destruct (find _ _) as [[q r]|] eqn:Hf; [|done]. apply find_some in Hf as [Hin Hq].
    apply bool_decide_eq_true in Hq. cbn in Hq. subst. destruct Hp. by apply (keys_elem _ _ r), list_elem_of_In.
Qed.

Lemma claimed_Some l p o : NoDup (owners l).*1 → (claimed l p = Some o) ↔ (p, o) ∈ owners l.
Proof.
  intros Hn. split; [apply claimed_elem|]. intros Hin.
  destruct (claimed l p) as [o'|] eqn:Hc.
  - f_equal. apply claimed_elem in Hc. by eapply keys_inj.
  - apply claimed_None in Hc. by destruct Hc; apply keys_elem in Hin.
Qed.

Lemma group_Some l id g : group l id = Some g → g ∈ groups l ∧ g_id g = id.
Proof. intros [Hin Hid]%find_some. split; [by apply list_elem_of_In|by apply N.eqb_eq]. Qed.

Lemma group_None l id : (group l id = None) ↔ id ∉ ids l.
Proof.
  unfold ids. split.
  - intros Hf (g&->&Hin)%list_elem_of_fmap. apply list_elem_of_In in Hin.
    apply (find_none _ _ Hf) in Hin. by rewrite N.eqb_refl in Hin.
  - intros Hid. destruct (group l id) as [g|] eqn:Hg; [|done]. apply group_Some in Hg as [Hin <-].
    destruct Hid. by apply list_elem_of_fmap_2.
Qed.

Lemma group_is_Some l id : is_Some (group l id) ↔ id ∈ ids l.
Proof.
  rewrite <- not_eq_None_Some, group_None. split; [apply dec_stable|auto].
Qed.

Lemma groups_inj l g g' : NoDup (ids l) → g ∈ groups l → g' ∈ groups l → g_id g = g_id g' → g = g'.
Proof.
  unfold ids. intros Hn (i&Hi)%list_elem_of_lookup (j&Hj)%list_elem_of_lookup E.
  assert (i = j) as ->; [|congruence].
  eapply (NoDup_lookup _ _ _ (g_id g) Hn); rewrite list_lookup_fmap;
    [by rewrite Hi|by rewrite Hj, E].
Qed.

(** *** Adopting and settling *)

Lemma own_new_fields l p id : groups (own_new l p id) = groups l ∧ active (own_new l p id) = active l.
Proof. unfold own_new. by destruct (claimed l p). Qed.

Lemma own_new_keys l p id q : q ∈ (owners (own_new l p id)).*1 ↔ q ∈ (owners l).*1 ∨ q = p.
Proof.
  unfold own_new. destruct (claimed l p) as [o|] eqn:Hc; cbn.
  - apply claimed_elem, keys_elem in Hc. naive_solver.
  - rewrite fmap_app, elem_of_app. cbn. by rewrite list_elem_of_singleton.
Qed.

Lemma own_new_shaped l p id : shaped l → id ∈ ids l → shaped (own_new l p id).
Proof.
  intros [Hi Ha Hk Ho] Hid. unfold own_new. destruct (claimed l p) as [o|] eqn:Hc; [done|].
  apply claimed_None in Hc. split; cbn; [done..| |].
  - rewrite fmap_app. apply NoDup_app. split_and!; [done| |apply NoDup_singleton].
    intros q Hq ->%list_elem_of_singleton. done.
  - intros q o [H|[= -> ->]%list_elem_of_singleton]%elem_of_app; [by eapply Ho|done].
Qed.

Lemma own_new_pending l p : pending l → pending (own_new l p (active l)).
Proof.
  intros Hp g q. unfold own_new. destruct (claimed l p) as [o|] eqn:Hc; [apply Hp|]. cbn. intros Hg Hq.
  rewrite elem_of_app, list_elem_of_singleton, fmap_app, not_elem_of_app. cbn.
  destruct (Hp g q Hg Hq) as [H|[Hk Ha]]; [by left; left|].
  destruct (base.decide (q = p)) as [->|]; [left; right; by rewrite Ha|].
  right. set_solver.
Qed.

Lemma adopt_spec l ts : shaped l → pending l →
  shaped (adopt l ts) ∧ pending (adopt l ts) ∧ groups (adopt l ts) = groups l ∧ active (adopt l ts) = active l.
Proof.
  unfold adopt. destruct (_ <? 2)%nat; [done|]. revert l. induction ts as [|p ts IH]; intros l Hs Hp; [done|]. cbn.
  destruct (own_new_fields l p (active l)) as [Hg Ha].
  destruct (IH (own_new l p (active l))) as (?&?&Eg&Ea).
  - apply own_new_shaped; [done|apply Hs].
  - by apply own_new_pending.
  - by rewrite Eg, Ea.
Qed.

Lemma shows_true p g : (shows p g = true) ↔ g_pick g = Some p.
Proof. unfold shows. by rewrite bool_decide_eq_true. Qed.

Lemma settle_one_spec l p : shaped l → pending l →
  shaped (settle_one l p) ∧ pending (settle_one l p) ∧ groups (settle_one l p) = groups l
  ∧ active (settle_one l p) = active l
  ∧ (p ∈ omap g_pick (groups l) → p ∈ (owners (settle_one l p)).*1)
  ∧ (∀ q, q ∈ (owners l).*1 → q ∈ (owners (settle_one l p)).*1).
Proof.
  intros Hs Hp. unfold settle_one. destruct (find _ _) as [g|] eqn:Hf.
  - apply find_some in Hf as [Hin Hsh]. apply shows_true in Hsh. apply list_elem_of_In in Hin.
    destruct (own_new_fields l p (g_id g)) as [Hg Ha]. split_and!; [| |done..| |].
    + apply own_new_shaped; [done|]. by apply list_elem_of_fmap_2.
    + destruct (Hp g p Hin Hsh) as [H|[_ ->]]; [|by apply own_new_pending].
      unfold own_new. apply (claimed_Some l p (g_id g) (sh_keys l Hs)) in H. by rewrite H.
    + intros _. apply own_new_keys. by right.
    + intros q Hq. apply own_new_keys. by left.
  - split_and!; [done..| |done]. intros (g&Hin&Hg)%list_elem_of_omap.
    apply list_elem_of_In, (find_none _ _ Hf) in Hin. apply shows_true in Hg. congruence.
Qed.

Lemma settle_list_spec ps l : shaped l → pending l →
  shaped (foldl settle_one l ps) ∧ pending (foldl settle_one l ps) ∧ groups (foldl settle_one l ps) = groups l
  ∧ active (foldl settle_one l ps) = active l
  ∧ (∀ p, p ∈ ps → p ∈ omap g_pick (groups l) → p ∈ (owners (foldl settle_one l ps)).*1)
  ∧ (∀ q, q ∈ (owners l).*1 → q ∈ (owners (foldl settle_one l ps)).*1).
Proof.
  revert l. induction ps as [|p ps IH]; intros l Hs Hp; cbn [foldl].
  { split_and!; try done. by intros p ?%elem_of_nil. }
  destruct (settle_one_spec l p Hs Hp) as (Hs'&Hp'&Hg&Ha&Hin&Hm).
  destruct (IH _ Hs' Hp') as (?&?&Eg&Ea&Hin'&Hm'). rewrite Eg, Ea, Hg, Ha. split_and!; try done; [|by auto].
  rewrite Hg in Hin'. intros q [->|Hq]%elem_of_cons Hsh; [by apply Hm', Hin|by apply Hin'].
Qed.

Lemma settle_spec l : shaped l → pending l →
  shaped (settle_owners l) ∧ groups (settle_owners l) = groups l ∧ active (settle_owners l) = active l
  ∧ (∀ g p, g ∈ groups l → g_pick g = Some p → (p, g_id g) ∈ owners (settle_owners l)).
Proof.
  intros Hs Hp. destruct (settle_list_spec (omap g_pick (groups l)) l Hs Hp) as (?&Hp'&Eg&Ea&Hin&_).
  change (foldl settle_one l (omap g_pick (groups l))) with (settle_owners l) in *.
  split_and!; [done..|]. intros g p Hg Hgp.
  assert (p ∈ omap g_pick (groups l)) as Hsh by (apply list_elem_of_omap; by exists g).
  specialize (Hp' g p). rewrite Eg in Hp'. destruct (Hp' Hg Hgp) as [?|[Hn _]]; [done|].
  by destruct Hn; apply Hin.
Qed.

Lemma wf_pending l : wf l → length (groups l) ≠ 1%nat → pending l.
Proof. intros [_ _ Hs] Hl g p Hg Hp. left. by apply Hs. Qed.

Lemma settle_wf l : wf l → length (groups l) ≠ 1%nat →
  wf (settle_owners l) ∧ groups (settle_owners l) = groups l ∧ active (settle_owners l) = active l.
Proof.
  intros Hw Hl. destruct (settle_spec l (wf_shaped l Hw) (wf_pending l Hw Hl)) as (Hs&Eg&Ea&Hsh).
  split_and!; [|done..]. split; [done|by rewrite Eg|]. intros _ g p. rewrite Eg. apply Hsh.
Qed.

(** *** The operations *)

Lemma lone_ids l id id' : length (groups l) = 1%nat → id ∈ ids l → id' ∈ ids l → id = id'.
Proof.
  unfold ids. destruct (groups l) as [|g [|]]; [done| |done]. intros _.
  by intros ->%list_elem_of_singleton ->%list_elem_of_singleton.
Qed.

Lemma layout_new_wf id : wf (layout_new id).
Proof.
  split; [split| |]; cbn; try done.
  - apply NoDup_singleton.
  - by apply list_elem_of_singleton.
  - constructor.
  - by intros p o ?%elem_of_nil.
Qed.

Lemma activate_wf l id : wf l → wf (activate l id).1.
Proof.
  intros Hw. unfold activate. destruct (_ || _) eqn:Hb; [done|].
  apply orb_false_iff in Hb as [Hne Hg]. apply N.eqb_neq in Hne. apply bool_decide_eq_false in Hg.
  apply not_eq_None_Some, group_is_Some in Hg.
  assert (length (groups l) ≠ 1%nat) as Hl.
  { intros Hl. destruct Hne. eapply lone_ids; [done|apply Hw|done]. }
  destruct (settle_wf l Hw Hl) as ([[Hi Ha Hk Ho] H1 H2]&Eg&Ea).
  split; [split|..]; try done. unfold ids in *. by rewrite <- Eg in Hg.
Qed.

Lemma own_new_grow l p id q o : (q, o) ∈ owners l → (q, o) ∈ owners (own_new l p id).
Proof. unfold own_new. destruct (claimed l p); [done|]. cbn. set_solver. Qed.

Lemma own_new_wf l p : wf l → length (groups l) ≠ 1%nat → wf (own_new l p (active l)).
Proof.
  intros [Hs H1 H2] Hl. destruct (own_new_fields l p (active l)) as [Hg _]. split.
  - apply own_new_shaped; [done|apply Hs].
  - by rewrite Hg.
  - rewrite Hg. intros _ g q Hin Hq. by apply own_new_grow, H2.
Qed.

Lemma adopt_wf l ts : wf l → wf (adopt l ts).
Proof.
  unfold adopt. destruct (Nat.ltb_spec (length (groups l)) 2) as [|Hl]; [done|]. revert l Hl.
  induction ts as [|p ts IH]; intros l Hl Hw; [done|]. cbn. apply IH; [|apply own_new_wf; [done|lia]].
  by rewrite (proj1 (own_new_fields l p (active l))).
Qed.

Lemma put_owner_elem p id os q o : (q, o) ∈ put_owner p id os → (q = p ∧ o = id) ∨ (q, o) ∈ os.
Proof.
  induction os as [|[r s] os IH]; cbn.
  - intros [= -> ->]%list_elem_of_singleton. by left.
  - case_bool_decide as E; cbn in E; subst; intros [[= -> ->]|H]%elem_of_cons; set_solver.
Qed.

Lemma put_owner_new p id os : (p, id) ∈ put_owner p id os.
Proof. induction os as [|[r s] os IH]; cbn; [set_solver|]. case_bool_decide; cbn in *; subst; set_solver. Qed.

Lemma put_owner_old p id os q o : q ≠ p → (q, o) ∈ os → (q, o) ∈ put_owner p id os.
Proof.
  intros Hq. induction os as [|[r s] os IH]; cbn; [by intros ?%elem_of_nil|].
  case_bool_decide as E; cbn in *; subst; intros [[= -> ->]|Hin]%elem_of_cons; set_solver.
Qed.

Lemma put_owner_keys p id os q : q ∈ (put_owner p id os).*1 → q = p ∨ q ∈ os.*1.
Proof.
  intros ([q' o]&->&H)%list_elem_of_fmap. cbn.
  destruct (put_owner_elem _ _ _ _ _ H) as [[-> _]|?]; [by left|]. right. by eapply keys_elem.
Qed.

Lemma put_owner_NoDup p id os : NoDup os.*1 → NoDup (put_owner p id os).*1.
Proof.
  induction os as [|[r s] os IH]; cbn; [intros _; apply NoDup_singleton|].
  intros [Hr Hn]%NoDup_cons. case_bool_decide; cbn in *; apply NoDup_cons; [done|].
  split; [|by apply IH]. intros [->|?]%put_owner_keys; done.
Qed.

Definition hide_from (id : N) (p : Pick) (g : Group) : Group :=
  if negb (g_id g =? id) && shows p g then set_pick g None else g.

Lemma hide_from_id id p g : g_id (hide_from id p g) = g_id g.
Proof. unfold hide_from. by destruct (_ && _). Qed.

Lemma hide_from_ids id p (gs : list Group) : g_id <$> (hide_from id p <$> gs) = g_id <$> gs.
Proof. rewrite <- list_fmap_compose. apply list_fmap_ext. intros i g _. apply hide_from_id. Qed.

Lemma hide_from_pick id p g q : g_pick (hide_from id p g) = Some q → g_pick g = Some q ∧ (q = p → g_id g = id).
Proof.
  unfold hide_from. destruct (_ && _) eqn:Hb; [done|]. intros Hq. split; [done|]. intros ->.
  apply andb_false_iff in Hb as [Hb|Hb].
  - by apply negb_false_iff, N.eqb_eq in Hb.
  - apply shows_true in Hq. congruence.
Qed.

Lemma claim_wf l id p : wf l → id ∈ ids l →
  wf (claim l id p) ∧ ids (claim l id p) = ids l ∧ length (groups (claim l id p)) = length (groups l)
  ∧ (length (groups l) ≠ 1%nat → (p, id) ∈ owners (claim l id p)).
Proof.
  intros [[Hi Ha Hk Ho] H1 H2] Hid. unfold claim. fold (hide_from id p). rewrite length_fmap.
  assert (ids (with_groups l (hide_from id p <$> groups l)) = ids l) as Ei by (unfold ids; cbn; apply hide_from_ids).
  destruct (Nat.ltb_spec (length (groups l)) 2) as [Hl|Hl].
  - assert (length (groups l) = 1%nat) as Hl1.
    { destruct (groups l) as [|? [|]] eqn:E; cbn in *; [|done|lia]. unfold ids in Hid. rewrite E in Hid. by apply elem_of_nil in Hid. }
    split_and!; [|done|by cbn; rewrite length_fmap|done].
    split; [split|..]; cbn; rewrite ?Ei, ?length_fmap; try done.
  - set (l' := with_owners _ _). assert (ids l' = ids l) as Ei' by done. cbn. rewrite length_fmap.
    split_and!; [|done..|intros _; apply put_owner_new].
    split; [split|..]; rewrite ?Ei'; cbn; rewrite ?length_fmap.
    + done.
    + done.
    + by apply put_owner_NoDup.
    + intros q o H. apply put_owner_elem in H as [[-> ->]|H]; [done|by eapply Ho].
    + lia.
    + intros Hn g q (g0&->&Hg)%list_elem_of_fmap [Hq Hp]%hide_from_pick. rewrite hide_from_id.
      destruct (base.decide (q = p)) as [->|Hne]; [rewrite (Hp eq_refl); apply put_owner_new|].
      apply put_owner_old; [done|]. by apply H2.
Qed.

Lemma give_wf l id p : wf l → wf (give l id p).
Proof.
  intros Hw. unfold give. destruct (group l id) eqn:Hg; [|done]. apply claim_wf; [done|].
  by apply group_is_Some; rewrite Hg.
Qed.

Lemma update_group_ids id f gs : (∀ g, g_id (f g) = g_id g) → g_id <$> update_group id f gs = g_id <$> gs.
Proof. intros Hf. induction gs as [|g gs IH]; [done|]. cbn. destruct (_ =? _); cbn; congruence. Qed.

Lemma update_group_elem id f gs g : g ∈ update_group id f gs → g ∈ gs ∨ ∃ g0, g0 ∈ gs ∧ g_id g0 = id ∧ g = f g0.
Proof.
  induction gs as [|h gs IH]; cbn; [by intros ?%elem_of_nil|]. destruct (N.eqb_spec (g_id h) id) as [E|E];
    intros [->|Hg]%elem_of_cons; set_solver.
Qed.

Lemma show_wf l id p : wf l → wf (show l id p).
Proof.
  intros Hw. unfold show. destruct (group l id) as [g|] eqn:Hg; [|done].
  assert (id ∈ ids l) as Hid by (by apply group_is_Some; rewrite Hg).
  destruct (claim_wf l id p Hw Hid) as ([[Hi Ha Hk Ho] H1 H2]&_&Hl&Hown).
  set (l1 := claim l id p) in *. set (f := λ g, set_pick g (Some p)).
  assert (ids (with_groups l1 (update_group id f (groups l1))) = ids l1) as Ei
    by (unfold ids; cbn; by apply update_group_ids).
  assert (length (update_group id f (groups l1)) = length (groups l1)) as El
    by (apply (f_equal length) in Ei; unfold ids in Ei; by rewrite !length_fmap in Ei).
  split; [split|..]; cbn; rewrite ?Ei, ?El; try done.
  intros Hn h q [Hh|(g0&Hg0&<-&->)]%update_group_elem Hq; [by apply H2|].
  cbn in *. injection Hq as <-. apply Hown. by rewrite <- Hl.
Qed.

Lemma choose_wf l id p : wf l → wf (choose l id p).
Proof. intros Hw. unfold choose. destruct (group l id); [|done]. by apply show_wf, activate_wf. Qed.

Lemma focus_moved_wf l id new : wf l → wf (focus_moved l id new).
Proof.
  intros Hw. unfold focus_moved. destruct (group l id) as [g|]; [|done]. destruct (g_pick g); [|done]. by apply show_wf.
Qed.

Lemma insert_ids i (gs : list Group) g g' : gs !! i = Some g → g_id g' = g_id g →
  g_id <$> <[i := g']> gs = g_id <$> gs.
Proof. intros Hg E. rewrite list_fmap_insert, E. apply list_insert_id. by rewrite list_lookup_fmap, Hg. Qed.

(** A tab beside another group is shown by one group at most. *)
Lemma shown_once l g g' p : wf l → g ∈ groups l → g' ∈ groups l →
  g_pick g = Some p → g_pick g' = Some p → g = g'.
Proof.
  intros [[Hi Ha Hk Ho] H1 H2] Hg Hg' Hp Hp'.
  destruct (base.decide (length (groups l) = 1%nat)) as [Hl|Hl].
  - eapply groups_inj; [done..|]. eapply lone_ids; [done|by apply list_elem_of_fmap_2..].
  - eapply groups_inj; [done..|]. eapply keys_inj; [apply Hk|by apply H2..].
Qed.

Lemma forget_wf l p : wf l → wf (forget l p).1.
Proof.
  intros Hw. pose proof Hw as [[Hi Ha Hk Ho] H1 H2]. unfold forget.
  set (os := filter (λ o, o.1 ≠ p) (owners l)). cbn [groups with_owners].
  assert (NoDup os.*1) as Hk' by (eapply sublist_NoDup; [done|apply fmap_sublist, sublist_filter]).
  assert (∀ q o, (q, o) ∈ os → o ∈ ids l) as Ho'
    by (intros q o [_ ?]%list_elem_of_filter; by eapply Ho).
  assert (length (groups l) = 1%nat → os = []) as H1' by (intros Hl; unfold os; by rewrite H1).
  assert (∀ q o, q ≠ p → (q, o) ∈ owners l → (q, o) ∈ os) as Hkeep by (intros; by apply list_elem_of_filter).
  destruct (list_find _ _) as [[i g]|] eqn:Hf; cbn.
  - apply list_find_Some in Hf as (Hi'&Hsh&_). apply shows_true in Hsh.
    assert (ids (with_groups (with_owners l os) (<[i:=set_pick g None]> (groups l))) = ids l) as Ei
      by (unfold ids; cbn; by eapply insert_ids).
    split; [split|..]; cbn; rewrite ?Ei, ?length_insert; try done.
    intros Hl h q Hh Hq.
    apply list_elem_of_lookup in Hh as [j Hj]. destruct (base.decide (i = j)) as [<-|Hne].
    { rewrite list_lookup_insert_eq in Hj by (by eapply lookup_lt_Some). by injection Hj as <-. }
    rewrite list_lookup_insert_ne in Hj by done. apply Hkeep; [|by apply H2; [|eapply list_elem_of_lookup_2|]].
    intros ->. assert (g = h) as <- by (eapply (shown_once l); eauto using list_elem_of_lookup_2).
    destruct Hne. eapply (NoDup_lookup _ _ _ (g_id g) Hi); unfold ids; by rewrite list_lookup_fmap, ?Hi', ?Hj.
  - apply list_find_None in Hf. rewrite Forall_forall in Hf.
    split; [split|..]; cbn; try done. intros Hl h q Hh Hq. apply Hkeep; [|by apply H2].
    intros ->. apply (Hf h Hh). by apply shows_true.
Qed.

(** What the invariant reads of a group: all but its width. *)
Definition tag (g : Group) : N * option Pick := (g_id g, g_pick g).

Lemma tags_ids (gs : list Group) : g_id <$> gs = (tag <$> gs).*1.
Proof. by rewrite <- list_fmap_compose. Qed.

Lemma tags_elem (gs gs' : list Group) g : tag <$> gs' = tag <$> gs → g ∈ gs' →
  ∃ g0, g0 ∈ gs ∧ g_id g0 = g_id g ∧ g_pick g0 = g_pick g.
Proof.
  intros E Hg. apply (list_elem_of_fmap_2 tag) in Hg. rewrite E in Hg.
  apply list_elem_of_fmap in Hg as (g0&[= ]&Hg0). by exists g0.
Qed.

Lemma insert_tags i (gs : list Group) g g' : gs !! i = Some g → tag g' = tag g → tag <$> <[i := g']> gs = tag <$> gs.
Proof. intros Hg E. rewrite list_fmap_insert, E. apply list_insert_id. by rewrite list_lookup_fmap, Hg. Qed.

Lemma alter_tags i f (gs : list Group) : (∀ g, tag (f g) = tag g) → tag <$> alter f i gs = tag <$> gs.
Proof.
  intros Hf. revert i. induction gs as [|g gs IH]; intros [|i]; cbn; [done..| |]; by rewrite ?Hf, ?IH.
Qed.

(** Changing widths keeps a layout well formed. *)
Lemma tags_wf l gs : wf l → tag <$> gs = tag <$> groups l → wf (with_groups l gs).
Proof.
  intros [[Hi Ha Hk Ho] H1 H2] E.
  assert (ids (with_groups l gs) = ids l) as Ei by (unfold ids; cbn; by rewrite !tags_ids, E).
  assert (length gs = length (groups l)) as El by (apply (f_equal length) in E; by rewrite !length_fmap in E).
  split; [split|..]; rewrite ?Ei; cbn; rewrite ?El; try done.
  intros Hl g p Hg Hp. destruct (tags_elem _ _ g E Hg) as (g0&Hg0&<-&Ep). apply H2; congruence.
Qed.

Lemma drag_wf l d o w l' b : wf l → drag l d o w = Some (l', b) → wf l'.
Proof.
  intros Hw. unfold drag. destruct (_ || _); [congruence|].
  destruct (groups l !! d) as [a|] eqn:Ha; cbn [mbind option_bind]; [|done].
  destruct (groups l !! S d) as [c|] eqn:Hc; cbn [mbind option_bind]; [|done].
  do 3 (case_match; [congruence|]). intros [= <- <-]. apply tags_wf; [done|].
  erewrite (insert_tags _ _ c); [by eapply insert_tags| |done].
  rewrite list_lookup_insert_ne by lia. done.
Qed.

Lemma split_source_spec l focused : wf l →
  g_id <$> split_source l focused = ids l
  ∧ pending (with_groups l (split_source l focused)).
Proof.
  intros Hw. destruct (base.decide (length (groups l) = 1%nat)) as [Hl|Hl].
  - pose proof (wf_lone _ Hw Hl) as Eo. destruct Hw as [[_ Ha _ _] _ _].
    unfold split_source, ids, pending in *. cbn. rewrite Eo. destruct (groups l) as [|lone [|]]; [done| |done].
    cbn in Ha. apply list_elem_of_singleton in Ha.
    destruct (g_pick lone); (split; [done|]); intros g q ->%list_elem_of_singleton _; right; by split; [apply not_elem_of_nil|].
  - assert (split_source l focused = groups l) as E by (unfold split_source; by destruct (groups l) as [|? [|]]).
    rewrite E. split; [done|]. intros g p Hg Hp. left. by apply (wf_shown _ Hw).
Qed.

Lemma group_split_wf l id new focused ts : wf l → new ∉ ids l → wf (split l id new focused ts).1.
Proof.
  intros Hw Hnew. unfold split. destruct (list_find _ _) as [[i g]|]; [|done].
  destruct (split_source_spec l focused Hw) as [Eids Hp].
  set (gs := split_source l focused) in *. set (half := f32_div _ _).
  set (gs2 := alter _ i gs).
  assert (tag <$> gs2 = tag <$> gs) as Et
    by (by apply alter_tags).
  set (gs3 := take (S i) gs2 ++ MkGroup new None half :: drop (S i) gs2).
  assert (gs3 ≡ₚ MkGroup new None half :: gs2) as Hperm
    by (unfold gs3; by rewrite <- Permutation_middle, take_drop).
  pose proof Hw as [[Hi Ha Hk Ho] _ _].
  assert (ids (with_groups l gs3) ≡ₚ new :: ids l) as Hids
    by (unfold ids at 1; cbn; rewrite Hperm; cbn; by rewrite tags_ids, Et, <- tags_ids, Eids).
  assert (shaped (with_groups l gs3)) as Hs.
  { split; cbn; [rewrite Hids; by apply NoDup_cons|rewrite Hids; by right|done|].
    intros p o Hpo. rewrite Hids. right. by eapply Ho. }
  assert (pending (with_groups l gs3)) as Hp3.
  { intros h p Hh Hhp. cbn in Hh. rewrite Hperm in Hh. apply elem_of_cons in Hh as [->|Hh]; [done|].
    destruct (tags_elem _ _ h Et Hh) as (h0&Hh0&Eid&Ep). cbn. rewrite <- Eid. apply Hp; [done|]. congruence. }
  destruct (adopt_spec _ ts Hs Hp3) as (Hs4&Hp4&Eg4&_).
  destruct (settle_spec _ Hs4 Hp4) as ([Hi5 Ha5 Hk5 Ho5]&Eg5&_&Hsh). rewrite Eg4 in Eg5.
  set (l5 := settle_owners _) in *. cbn.
  assert (new ∈ ids l5) as Hnew5 by (unfold ids; rewrite Eg5; fold (ids (with_groups l gs3)); rewrite Hids; by left).
  split; [by split|..]; cbn.
  - rewrite Eg5. cbn. rewrite Hperm. cbn. intros [= Hlen]. apply (f_equal length) in Et. rewrite !length_fmap, Hlen in Et.
    apply (f_equal length) in Eids. rewrite length_fmap, <- Et in Eids. symmetry in Eids. apply nil_length_inv in Eids.
    rewrite Eids in Ha. by apply elem_of_nil in Ha.
  - intros _ h p Hh Hhp. apply Hsh; [|done]. by rewrite Eg4, <- Eg5.
Qed.

Lemma move_owner_keys id next (os : list (Pick * N)) : (move_owner id next <$> os).*1 = os.*1.
Proof.
  rewrite <- list_fmap_compose. apply list_fmap_ext. intros ? [p o] _. unfold move_owner. cbn. by destruct (_ =? _).
Qed.

Lemma move_owner_elem id next (os : list (Pick * N)) p o : (p, o) ∈ move_owner id next <$> os ↔
  ∃ o', (p, o') ∈ os ∧ o = if o' =? id then next else o'.
Proof.
  rewrite list_elem_of_fmap. split.
  - intros ([q r]&E&Hq). unfold move_owner in E. cbn in E. exists r.
    destruct (r =? id); injection E as -> ->; done.
  - intros (o'&Hin&->). exists (p, o'). split; [|done]. unfold move_owner. cbn. by destruct (_ =? _).
Qed.

Lemma close_wf l id : wf l → wf (close l id).1.
Proof.
  intros Hw. unfold close. destruct (Nat.ltb_spec (length (groups l)) 2) as [|Hl]; [done|].
  destruct (list_find _ _) as [[i closed]|] eqn:Hf; [|done].
  apply list_find_Some in Hf as (Hci&Hcid&_). apply N.eqb_eq in Hcid.
  destruct (settle_wf l Hw) as ([[Hi Ha Hk Ho] _ H2]&Eg&_); [lia|]. rewrite Eg in *.
  set (l1 := settle_owners l) in *. set (rest := delete i (groups l)).
  destruct (rest !! (i - 1)%nat) as [n|] eqn:Hn; cbn; [|by apply settle_wf; [|lia]].
  set (gs := <[(i - 1)%nat := _]> rest).
  assert (tag <$> gs = tag <$> rest) as Et by (by eapply insert_tags).
  pose proof (delete_Permutation (groups l) i closed Hci) as Hperm. fold rest in Hperm.
  assert (ids l1 ≡ₚ id :: (g_id <$> gs)) as Hids
    by (unfold ids; rewrite Eg, Hperm; cbn; by rewrite Hcid, !tags_ids, Et).
  rewrite Hids in Hi. apply NoDup_cons in Hi as [Hnid Hi].
  assert (g_id n ∈ g_id <$> gs) as Hnin
    by (rewrite tags_ids, Et, <- tags_ids; by eapply list_elem_of_fmap_2, list_elem_of_lookup_2).
  assert (length gs = length rest) as El by (apply length_insert).
  assert (length (groups l) = S (length rest)) as El' by (by rewrite Hperm).
  split; [split|..]; unfold ids; cbn.
  - done.
  - destruct (N.eqb_spec (active l1) id) as [E|E]; [done|]. rewrite Hids in Ha.
    apply elem_of_cons in Ha as [|?]; [done|]. done.
  - destruct (_ =? 1)%nat; [constructor|by rewrite move_owner_keys].
  - intros p o. destruct (_ =? 1)%nat; [by intros ?%elem_of_nil|].
    intros (r&Hq&->)%move_owner_elem. destruct (N.eqb_spec r id); [done|].
    apply Ho in Hq. rewrite Hids in Hq. by apply elem_of_cons in Hq as [|?].
  - intros E. by rewrite E.
  - intros Hlen g p Hg Hp. destruct (Nat.eqb_spec (length gs) 1); [done|].
    assert (g_id g ≠ id) as Hgid by (intros E; apply Hnid; rewrite <- E; by apply list_elem_of_fmap_2).
    destruct (tags_elem _ _ g Et Hg) as (g0&Hg0&Eid&Ep). rewrite <- Ep in Hp.
    assert (g0 ∈ groups l) as Hg0' by (rewrite Hperm; by right).
    apply move_owner_elem. exists (g_id g0). split; [apply H2; [lia|done..]|].
    apply N.eqb_neq in Hgid. by rewrite Eid, Hgid.
Qed.

(** *** Restoring *)

Lemma claim_all_spec cs os : NoDup os.*1 →
  NoDup (claim_all os cs).*1 ∧ (∀ c, c ∈ claim_all os cs → c ∈ os ∨ c ∈ cs)
  ∧ (∀ p, p ∈ (claim_all os cs).*1 ↔ p ∈ os.*1 ∨ p ∈ cs.*1).
Proof.
  revert os. induction cs as [|[p i] cs IH]; intros os Hn; cbn [claim_all foldl].
  { split_and!; [done|by left|]. intros p. cbn. rewrite elem_of_nil. naive_solver. }
  assert (NoDup (claim_at os p i).*1 ∧ (∀ c, c ∈ claim_at os p i → c ∈ os ∨ c = (p, i))
    ∧ (∀ q, q ∈ (claim_at os p i).*1 ↔ q ∈ os.*1 ∨ q = p)) as (Hn'&Hc'&Hk').
  { unfold claim_at. case_bool_decide as Hin; [split_and!; set_solver|]. rewrite fmap_app. cbn. split_and!.
    - apply NoDup_app. split_and!; [done| |apply NoDup_singleton]. set_solver.
    - intros c. rewrite elem_of_app, list_elem_of_singleton. done.
    - intros q. rewrite elem_of_app, list_elem_of_singleton. done. }
  destruct (IH _ Hn') as (Hn2&Hc&Hk). split_and!; [done| |].
  - intros c [[Hi|Hi]%Hc'|Hi]%Hc; set_solver.
  - intros q. fold (claim_all (claim_at os p i) cs). rewrite Hk, Hk'. cbn. rewrite elem_of_cons. naive_solver.
Qed.

Lemma claim_all_known cs os : (∀ c, c ∈ cs → c.1 ∈ os.*1) → claim_all os cs = os.
Proof.
  revert os. induction cs as [|[p i] cs IH]; intros os H; [done|]. cbn.
  assert (claim_at os p i = os) as ->; [|apply IH; set_solver].
  unfold claim_at. rewrite bool_decide_eq_true_2; [done|]. apply (H (p, i)). set_solver.
Qed.

Lemma using_bound s f i : using_group s f = Some i → (i < length (s_groups s))%nat.
Proof.
  unfold using_group. destruct (s_groups s !! s_active s) eqn:E; [|done]. destruct (f _); [|done].
  intros [= <-]. by eapply lookup_lt_Some.
Qed.

Lemma position_bound f gs i : position f gs = Some i → (i < length gs)%nat.
Proof. unfold position. intros ([j g]&(Hj&_)%list_find_Some&->)%fmap_Some. by eapply lookup_lt_Some. Qed.

Lemma keeper_bound s p : (s_active s < length (s_groups s))%nat → (keeper s p < length (s_groups s))%nat.
Proof.
  intros Ha. unfold keeper.
  destruct (using_group s (shows_kept p)) eqn:E1; cbn; [by eapply using_bound|].
  destruct (position (shows_kept p) (s_groups s)) eqn:E2; cbn; [by eapply position_bound|].
  destruct (using_group s (kept p)) eqn:E3; cbn; [by eapply using_bound|].
  destruct (position (kept p) (s_groups s)) eqn:E4; cbn; [by eapply position_bound|done].
Qed.

Lemma tab_claims s p i : (p, i) ∈ mjoin (imap (λ i g, (λ p, (p, i)) <$> s_tabs g) (s_groups s)) ↔
  ∃ g, s_groups s !! i = Some g ∧ p ∈ s_tabs g.
Proof.
  rewrite list_elem_of_join. split.
  - intros (ps&Hin&(j&g&->&Hg)%elem_of_lookup_imap). apply list_elem_of_fmap in Hin as (q&[= -> ->]&Hq). by exists g.
  - intros (g&Hg&Hp). exists ((λ p, (p, i)) <$> s_tabs g). split; [by apply (list_elem_of_fmap_2 (λ p, (p, i)))|].
    apply elem_of_lookup_imap. by exists i, g.
Qed.

Lemma saved_owners_spec s : (s_active s < length (s_groups s))%nat →
  NoDup (saved_owners s).*1 ∧ (∀ p i, (p, i) ∈ saved_owners s → (i < length (s_groups s))%nat)
  ∧ (∀ p, p ∈ omap s_pick (s_groups s) → p ∈ (saved_owners s).*1).
Proof.
  intros Ha. destruct (claim_all_spec (claims s) []) as (Hn&Hc&Hk); [constructor|]. split_and!; [done| |].
  - intros p i [?%elem_of_nil|H]%Hc; [done|]. apply elem_of_app in H as [H|H].
    + apply tab_claims in H as (g&Hg&_). by eapply lookup_lt_Some.
    + apply list_elem_of_fmap in H as (q&[= -> ->]&_). by apply keeper_bound.
  - intros p Hp. apply Hk. right. unfold claims. rewrite fmap_app. apply elem_of_app. right.
    rewrite <- list_fmap_compose. apply list_elem_of_fmap. exists p. split; [done|]. apply elem_of_app. by left.
Qed.

Lemma next_ids_spec n i : i + N.of_nat n < 2 ^ 64 →
  next_ids n i = ((λ k, i + 1 + N.of_nat k) <$> seq 0 n, i + N.of_nat n).
Proof.
  revert i. induction n as [|n IH]; intros i H; cbn [next_ids].
  { f_equal. lia. }
  unfold next_id. rewrite N.mod_small by lia. rewrite IH by lia. f_equal; [|lia].
  cbn. f_equal; [lia|]. rewrite <- fmap_S_seq, <- list_fmap_compose. apply list_fmap_ext. intros ? k _. cbn. lia.
Qed.

Lemma next_ids_NoDup n i : NoDup ((λ k, i + 1 + N.of_nat k) <$> seq 0 n).
Proof. apply NoDup_fmap_2; [intros x y; lia|apply NoDup_seq]. Qed.

(** The owners of a restored layout, by the groups' new names. *)
Lemma owners_named (gs : list Group) os : (∀ p i, (p, i) ∈ os → (i < length gs)%nat) →
  ∃ os', mapM (λ o : Pick * nat, g ← gs !! o.2; Some (o.1, g_id g)) os = Some os' ∧ os'.*1 = os.*1
    ∧ (∀ p id, (p, id) ∈ os' ↔ ∃ i, (p, i) ∈ os ∧ (g_id <$> gs) !! i = Some id).
Proof.
  induction os as [|[p i] os IH]; intros Hb.
  { exists []. split_and!; [done..|]. intros p id. setoid_rewrite elem_of_nil. naive_solver. }
  destruct IH as (os'&Em&Ek&Hin). { intros q j Hq. apply (Hb q). by right. }
  destruct (lookup_lt_is_Some_2 gs i) as [g Hg]. { apply (Hb p). by left. }
  exists ((p, g_id g) :: os'). cbn. rewrite Hg. cbn. rewrite Em. cbn. split_and!; [done|by rewrite Ek|].
  intros q id. rewrite elem_of_cons, Hin. split.
  - intros [[= -> ->]|(j&Hj&Ej)]; [exists i|exists j]; (split; [|done || by rewrite list_lookup_fmap, Hg]); set_solver.
  - intros (j&[[= -> ->]|Hj]%elem_of_cons&Ej); [left|right; by exists j].
    rewrite list_lookup_fmap, Hg in Ej. cbn in Ej. congruence.
Qed.

Lemma restored_pick_id os g : g_id (restored_pick os g) = g_id g.
Proof. unfold restored_pick. by destruct (_ || _). Qed.

Lemma restored_pick_ids os (gs : list Group) : g_id <$> (restored_pick os <$> gs) = g_id <$> gs.
Proof. rewrite <- list_fmap_compose. apply list_fmap_ext. intros i g _. apply restored_pick_id. Qed.

Lemma restored_pick_Some os g p : g_pick (restored_pick os g) = Some p →
  g_pick g = Some p ∧ (os = [] ∨ (p, g_id g) ∈ os).
Proof.
  unfold restored_pick. destruct (_ || _) eqn:E; [|done]. intros Hp. split; [done|]. rewrite Hp in E.
  apply orb_true_iff in E as [E|E]; apply bool_decide_eq_true in E; auto.
Qed.

(** The groups [restore] makes before their tabs are checked. *)
Definition named (s : SavedLayout) (names : list N) : list Group :=
  zip_with (λ g id, MkGroup id (s_pick g) (f32_div (s_share g) (sum (s_share <$> s_groups s)))) (s_groups s) names.

Lemma named_ids s names : length names = length (s_groups s) → g_id <$> named s names = names.
Proof. intros H. unfold named. rewrite fmap_zip_with_r; [done|done|lia]. Qed.

Lemma named_picks s names : length names = length (s_groups s) → g_pick <$> named s names = s_pick <$> s_groups s.
Proof.
  unfold named. generalize (sum (s_share <$> s_groups s)). intros t. revert names.
  induction (s_groups s) as [|g gs IH]; intros [|n names] H; try done. cbn in *. f_equal. apply IH. lia.
Qed.

Lemma restore_spec s i0 :
  (s_active s < length (s_groups s))%nat → i0 + N.of_nat (length (s_groups s)) < 2 ^ 64 →
  ∃ l names os, restore s i0 = Some (l, i0 + N.of_nat (length (s_groups s)))
    ∧ l = MkLayout (restored_pick os <$> named s names) (active l) os
    ∧ length names = length (s_groups s) ∧ NoDup names ∧ names !! s_active s = Some (active l)
    ∧ (length (s_groups s) = 1%nat → os = [])
    ∧ (length (s_groups s) ≠ 1%nat → os.*1 = (saved_owners s).*1
        ∧ ∀ p id, (p, id) ∈ os ↔ ∃ i, (p, i) ∈ saved_owners s ∧ names !! i = Some id).
Proof.
  intros Ha Hb. unfold restore. rewrite next_ids_spec by done.
  set (names := (λ k, i0 + 1 + N.of_nat k) <$> seq 0 (length (s_groups s))).
  assert (length names = length (s_groups s)) as Hn by (unfold names; by rewrite length_fmap, length_seq).
  fold (named s names). pose proof (named_ids s names Hn) as Eids.
  assert (length (named s names) = length (s_groups s)) as El
    by (pose proof (f_equal length Eids) as E; rewrite length_fmap in E; congruence).
  rewrite El, Nat.min_l by lia.
  destruct (lookup_lt_is_Some_2 (named s names) (s_active s)) as [a Hl]; [lia|]. rewrite Hl. cbn [mbind option_bind].
  assert (names !! s_active s = Some (g_id a)) as Hact by (rewrite <- Eids, list_lookup_fmap, Hl; done).
  destruct (saved_owners_spec s Ha) as (_&Hbound&_).
  destruct (Nat.ltb_spec 1 (length (s_groups s))) as [Hlt|Hlt]; cbn [mbind option_bind].
  - destruct (owners_named (named s names) (saved_owners s)) as (os&Em&Ek&Hin).
    { intros p i Hi. rewrite El. by eapply Hbound. }
    rewrite Em. cbn [mbind option_bind]. exists (MkLayout (restored_pick os <$> named s names) (g_id a) os), names, os.
    rewrite Eids in Hin. split_and!; try done; [apply next_ids_NoDup|lia].
  - exists (MkLayout (restored_pick [] <$> named s names) (g_id a) []), names, [].
    split_and!; try done; [apply next_ids_NoDup|lia].
Qed.

Lemma restore_wf s i0 l i1 :
  (s_active s < length (s_groups s))%nat → i0 + N.of_nat (length (s_groups s)) < 2 ^ 64 →
  restore s i0 = Some (l, i1) → wf l.
Proof.
  intros Ha Hb Hr. destruct (restore_spec s i0 Ha Hb) as (l'&names&os&Hr'&El&Hn&Hnd&Hact&H1&H2).
  rewrite Hr in Hr'. injection Hr' as <- _. rewrite El.
  assert (g_id <$> (restored_pick os <$> named s names) = names) as Eids by (by rewrite restored_pick_ids, named_ids).
  assert (length (restored_pick os <$> named s names) = length (s_groups s)) as Elen
    by (pose proof (f_equal length Eids) as E; rewrite length_fmap in E; congruence).
  destruct (saved_owners_spec s Ha) as (Hkd&Hbound&Hshown).
  split; [split|..]; unfold ids; cbn; rewrite ?Eids, ?Elen; try done.
  - by eapply list_elem_of_lookup_2.
  - destruct (base.decide (length (s_groups s) = 1%nat)) as [E|E]; [rewrite H1 by done; constructor|].
    destruct (H2 E) as [-> _]. done.
  - intros p o Hpo. destruct (base.decide (length (s_groups s) = 1%nat)) as [E|E].
    { rewrite H1 in Hpo by done. by apply elem_of_nil in Hpo. }
    destruct (H2 E) as [_ Hin]. apply Hin in Hpo as (i&_&Hi). by eapply list_elem_of_lookup_2.
  - intros E g p (g0&->&Hg0)%list_elem_of_fmap [Hp [Hos|Hos]]%restored_pick_Some; rewrite restored_pick_id; [|done].
    destruct (H2 E) as [Ek _]. assert (p ∈ omap s_pick (s_groups s)) as Hps.
    { apply (list_elem_of_fmap_2 g_pick) in Hg0. rewrite named_picks, Hp in Hg0 by done.
      apply list_elem_of_fmap in Hg0 as (sg&Esg&Hsg). apply list_elem_of_omap. by exists sg. }
    apply Hshown in Hps. rewrite <- Ek, Hos in Hps. by apply elem_of_nil in Hps.
Qed.

(** *** What is listed *)

Lemma owner_in l p : wf l → owner l p ∈ ids l.
Proof.
  intros [[_ Ha _ Ho] _ _]. unfold owner. destruct (claimed l p) eqn:Hc; [|done].
  destruct (_ <? _)%nat; [|done]. by eapply Ho, claimed_elem.
Qed.

Lemma lists_spec l id p : wf l → id ∈ ids l → lists l id p = true ↔
  length (groups l) = 1%nat ∨ (p, id) ∈ owners l ∨ ((p ∉ (owners l).*1) ∧ active l = id).
Proof.
  intros Hw Hid. pose proof Hw as [[_ Ha Hk _] H1 _]. unfold lists.
  rewrite bool_decide_eq_true_2 by (by apply group_is_Some). cbn. rewrite N.eqb_eq.
  destruct (base.decide (length (groups l) = 1%nat)) as [E|E].
  { split; [by left|]. intros _. eapply lone_ids; [done|by apply owner_in|done]. }
  assert (length (groups l) ≠ 0%nat) as E0.
  { intros Hl%nil_length_inv. unfold ids in Hid. rewrite Hl in Hid. by apply elem_of_nil in Hid. }
  unfold owner. rewrite (proj2 (Nat.ltb_lt 1 (length (groups l)))) by lia.
  destruct (claimed l p) as [o|] eqn:Hc.
  - apply claimed_elem in Hc. split; [intros ->; auto|]. intros [?|[H|[H _]]]; [done|by eapply keys_inj|].
    by apply keys_elem in Hc.
  - apply claimed_None in Hc. split; [auto|]. intros [?|[H|[_ H]]]; [done| |done]. by apply keys_elem in H.
Qed.

(** The layouts a window can come to: a fresh or a restored one, and what the
    operations make of it; a split names a group no other group has. *)
Inductive reach : Layout → Prop :=
| reach_new id : reach (layout_new id)
| reach_restore s i0 l i1 :
    valid s = true → i0 + N.of_nat (length (s_groups s)) < 2 ^ 64 → restore s i0 = Some (l, i1) → reach l
| reach_activate l id : reach l → reach (activate l id).1
| reach_adopt l ts : reach l → reach (adopt l ts)
| reach_give l id p : reach l → reach (give l id p)
| reach_show l id p : reach l → reach (show l id p)
| reach_choose l id p : reach l → reach (choose l id p)
| reach_forget l p : reach l → reach (forget l p).1
| reach_split l id new focused ts : reach l → new ∉ ids l → reach (split l id new focused ts).1
| reach_close l id : reach l → reach (close l id).1
| reach_drag l d o w l' b : reach l → drag l d o w = Some (l', b) → reach l'
| reach_focus l id new : reach l → reach (focus_moved l id new).

Lemma valid_active s : valid s = true → (s_active s < length (s_groups s))%nat.
Proof. unfold valid. intros [[[_ _]%andb_true_iff H]%andb_true_iff _]%andb_true_iff. by apply Nat.ltb_lt. Qed.

Create HintDb groups.
#[local] Hint Resolve layout_new_wf restore_wf activate_wf adopt_wf give_wf show_wf choose_wf forget_wf group_split_wf
  close_wf drag_wf focus_moved_wf valid_active : groups.

Lemma reach_wf l : reach l → wf l.
Proof. induction 1; eauto with groups. Qed.

(** C27: in every layout the operations reach, a tab is listed in the strip
    of one group and of no other; the group that shows a tab is the one that
    lists it, and no other group shows it. *)
Theorem listed_once l p : reach l →
  (∃ id, lists l id p = true ∧ ∀ id', lists l id' p = true → id' = id)
  ∧ (∀ g, g ∈ groups l → g_pick g = Some p →
      lists l (g_id g) p = true ∧ ∀ g', g' ∈ groups l → g_pick g' = Some p → g' = g).
Proof.
  intros Hw%reach_wf. split.
  - exists (owner l p). unfold lists.
    rewrite bool_decide_eq_true_2 by (by apply group_is_Some, owner_in). split; [apply N.eqb_refl|].
    intros id [_ H%N.eqb_eq]%andb_true_iff. congruence.
  - intros g Hg Hp. split; [|by intros; eapply shown_once].
    apply lists_spec; [done|by apply list_elem_of_fmap_2|].
    destruct (base.decide (length (groups l) = 1%nat)); [by left|]. right. left. by apply (wf_shown _ Hw).
Qed.

Lemma saved_spec l s : saved l = Some s → active l ∈ ids l →
  s_pick <$> s_groups s = g_pick <$> groups l
  ∧ (∀ i, s_tabs <$> s_groups s !! i = (λ id, (filter (λ o, o.2 = id) (owners l)).*1) <$> ids l !! i)
  ∧ (s_groups s ≫= s_hidden) = []
  ∧ ids l !! s_active s = Some (active l).
Proof.
  intros Hs Ha.
  assert (s = MkSavedLayout
      ((λ g, MkSavedGroup (g_pick g) (g_share g) (filter (λ o, o.2 = g_id g) (owners l)).*1 []) <$> groups l)
      (default 0%nat (fst <$> list_find (λ g, g_id g = active l) (groups l)))) as ->.
  { unfold saved in Hs. destruct (groups l) as [|[? [|] ?] [|]]; congruence. }
  unfold ids in *. cbn. split_and!.
  - by rewrite <- list_fmap_compose.
  - intros i. rewrite !list_lookup_fmap. by destruct (groups l !! i).
  - clear. by induction (groups l).
  - destruct (list_find _ _) as [[i g]|] eqn:Hf; cbn.
    + apply list_find_Some in Hf as (Hi&Hid&_). by rewrite list_lookup_fmap, Hi, <- Hid.
    + apply list_find_None in Hf. rewrite Forall_forall in Hf.
      apply list_elem_of_fmap in Ha as (g&E&Hg). by destruct (Hf g Hg).
Qed.

(** Saving keeps who owns what. *)
Lemma saved_owners_kept l s p i : wf l → length (groups l) ≠ 1%nat → saved l = Some s →
  (p, i) ∈ saved_owners s ↔ ∃ id, ids l !! i = Some id ∧ (p, id) ∈ owners l.
Proof.
  intros [[Hi Ha Hk Ho] _ H2] Hl Hs. destruct (saved_spec l s Hs Ha) as (Epick&Etabs&Ehid&_).
  set (tabs1 := mjoin (imap (λ i g, (λ p, (p, i)) <$> s_tabs g) (s_groups s))).
  assert (∀ q j, (q, j) ∈ tabs1 ↔ ∃ id, ids l !! j = Some id ∧ (q, id) ∈ owners l) as Htabs.
  { intros q j. unfold tabs1. rewrite tab_claims. specialize (Etabs j). split.
    - intros (g&Hg&Hq). rewrite Hg in Etabs. destruct (ids l !! j) as [id|]; [|done].
      injection Etabs as Et. rewrite Et in Hq. exists id. split; [done|].
      apply list_elem_of_fmap in Hq as ([q' o]&->&[Eo Hin]%list_elem_of_filter). cbn in *. by subst.
    - intros (id&Hid&Hin). rewrite Hid in Etabs. destruct (s_groups s !! j) as [g|]; [|done].
      injection Etabs as Et. exists g. split; [done|]. rewrite Et. apply list_elem_of_fmap. exists (q, id).
      split; [done|]. by apply list_elem_of_filter. }
  destruct (claim_all_spec tabs1 []) as (_&Hc&Hkeys); [constructor|].
  assert (saved_owners s = claim_all [] tabs1) as ->.
  { unfold saved_owners, claims. fold tabs1. rewrite Ehid, app_nil_r. unfold claim_all at 1. rewrite foldl_app.
    apply claim_all_known. intros c (q&->&(sg&Hsg&Hq)%list_elem_of_omap)%list_elem_of_fmap. cbn.
    apply Hkeys. right. apply (list_elem_of_fmap_2 s_pick) in Hsg. rewrite Epick, Hq in Hsg.
    apply list_elem_of_fmap in Hsg as (g&Hgq&Hg). pose proof (H2 Hl g q Hg (eq_sym Hgq)) as Hown.
    apply (list_elem_of_fmap_2 g_id), list_elem_of_lookup in Hg as [j Hj].
    apply list_elem_of_fmap. exists (q, j). split; [done|]. apply Htabs. by exists (g_id g). }
  rewrite <- Htabs. split; [by intros [?%elem_of_nil|]%Hc|]. intros Hin.
  assert (p ∈ (claim_all [] tabs1).*1) as Hp by (apply Hkeys; right; apply list_elem_of_fmap; by exists (p, i)).
  apply list_elem_of_fmap in Hp as ([q j]&Eq&Hj). cbn in Eq. subst q.
  pose proof Hj as [?%elem_of_nil|Hj']%Hc; [done|]. apply Htabs in Hj' as (id'&Hid'&Hown'), Hin as (id&Hid&Hown).
  assert (id = id') as <- by (by eapply keys_inj). assert (i = j) as -> by (by apply (NoDup_lookup (ids l) i j id)). done.
Qed.

Lemma restored_owners l s i0 l' i1 : wf l → saved l = Some s → i0 + N.of_nat (length (groups l)) < 2 ^ 64 →
  restore s i0 = Some (l', i1) →
  wf l' ∧ g_pick <$> groups l' = g_pick <$> groups l
  ∧ (∀ i id id', ids l !! i = Some id → ids l' !! i = Some id' →
      (active l = id ↔ active l' = id') ∧ ∀ p, (p, id) ∈ owners l ↔ (p, id') ∈ owners l').
Proof.
  intros Hw Hs Hb Hr. pose proof Hw as [[Hi Ha Hk Ho] H1 H2].
  destruct (saved_spec l s Hs Ha) as (Epick&_&_&Eact).
  assert (length (s_groups s) = length (groups l)) as El by (pose proof (f_equal length Epick) as E; by rewrite !length_fmap in E).
  assert (s_active s < length (s_groups s))%nat as Hact.
  { rewrite El. apply lookup_lt_Some in Eact. unfold ids in Eact. by rewrite length_fmap in Eact. }
  rewrite <- El in Hb. split; [by eapply restore_wf|].
  destruct (restore_spec s i0 Hact Hb) as (l2&names&os&Hr'&El'&Hn&Hnd&Hacts&R1&R2).
  rewrite Hr in Hr'. injection Hr' as <- _.
  assert (ids l' = names) as Eids by (rewrite El'; unfold ids; cbn; by rewrite restored_pick_ids, named_ids).
  assert (owners l' = os) as Eos by (by rewrite El'). rewrite Eids, Eos.
  assert (∀ i id id', ids l !! i = Some id → names !! i = Some id' → ∀ p, (p, id) ∈ owners l ↔ (p, id') ∈ os) as Hown.
  { intros i id id' Hid Hid' p. destruct (base.decide (length (groups l) = 1%nat)) as [E|E].
    { rewrite H1, R1 by congruence. by rewrite !elem_of_nil. }
    destruct (R2 ltac:(congruence)) as [_ ->]. setoid_rewrite (saved_owners_kept l s p _ Hw E Hs). split.
    - intros Hp. exists i. split; [by exists id|done].
    - intros (j&(id2&Hj&Hp)&Hnj). assert (i = j) as <- by (by apply (NoDup_lookup names i j id')). congruence. }
  split.
  - rewrite El'. cbn. rewrite <- Epick, <- (named_picks s names Hn), <- list_fmap_compose.
    apply list_fmap_ext. intros i g Hg. cbn. unfold restored_pick. destruct (_ || _) eqn:E; [done|].
    apply orb_false_iff in E as [E1%bool_decide_eq_false E2]. destruct (g_pick g) as [p|] eqn:Hp; [|done].
    apply bool_decide_eq_false in E2. destruct E2.
    assert (names !! i = Some (g_id g)) as Hni by (by rewrite <- (named_ids s names Hn), list_lookup_fmap, Hg).
    assert ((g_pick <$> groups l) !! i = Some (Some p)) as Hgi
      by (rewrite <- Epick, <- (named_picks s names Hn), list_lookup_fmap, Hg; by cbn; rewrite Hp).
    rewrite list_lookup_fmap in Hgi. destruct (groups l !! i) as [g0|] eqn:Hg0; [|done]. injection Hgi as Hgp.
    apply (Hown i (g_id g0)); [unfold ids; by rewrite list_lookup_fmap, Hg0|done|].
    apply H2; [|by eapply list_elem_of_lookup_2|done]. intros E. apply E1, R1. congruence.
  - intros i id id' Hid Hid'. split; [|by eapply Hown]. split; intros <-.
    + assert (i = s_active s) as -> by (by apply (NoDup_lookup (ids l) _ _ (active l))). congruence.
    + assert (i = s_active s) as -> by (by apply (NoDup_lookup names _ _ (active l'))). congruence.
Qed.

Lemma owned_keys l p : wf l → p ∈ (owners l).*1 ↔ ∃ i id, ids l !! i = Some id ∧ (p, id) ∈ owners l.
Proof.
  intros [[_ _ _ Ho] _ _]. split.
  - intros ([q id]&->&Hin)%list_elem_of_fmap. pose proof (Ho q id Hin) as [i Hi]%list_elem_of_lookup. by exists i, id.
  - intros (_&id&_&Hin). by eapply keys_elem.
Qed.

Lemma same_length_lookup {A B} (xs : list A) (ys : list B) i x :
  length ys = length xs → xs !! i = Some x → ∃ y, ys !! i = Some y.
Proof. intros E H%lookup_lt_Some. apply lookup_lt_is_Some_2. lia. Qed.

(** A layout saved and restored under new names shows in each place the
    tab it showed, and lists in each place the tabs it listed; the group in use
    is the one in use before. *)
Theorem saved_roundtrip l s i0 :
  reach l → saved l = Some s → i0 + N.of_nat (length (groups l)) < 2 ^ 64 →
  ∃ l' i1, restore s i0 = Some (l', i1) ∧ g_pick <$> groups l' = g_pick <$> groups l
    ∧ ∀ i id, ids l !! i = Some id → ∃ id', ids l' !! i = Some id'
        ∧ (active l = id ↔ active l' = id') ∧ ∀ p, lists l' id' p = lists l id p.
Proof.
  intros Hw%reach_wf Hs Hb. destruct (saved_spec l s Hs (sh_active _ (wf_shaped _ Hw))) as (Epick&_&_&Eact).
  assert (length (s_groups s) = length (groups l)) as El by (pose proof (f_equal length Epick) as E; by rewrite !length_fmap in E).
  destruct (restore_spec s i0) as (l'&_&_&Hr&_).
  { rewrite El. apply lookup_lt_Some in Eact. unfold ids in Eact. by rewrite length_fmap in Eact. }
  { by rewrite El. }
  exists l', (i0 + N.of_nat (length (s_groups s))). destruct (restored_owners _ _ _ _ _ Hw Hs Hb Hr) as (Hw'&Ep&Hown).
  split_and!; [done..|]. assert (length (groups l') = length (groups l)) as El'
    by (pose proof (f_equal length Ep) as E; by rewrite !length_fmap in E).
  assert (length (ids l') = length (ids l)) as Elen by (unfold ids; by rewrite !length_fmap).
  intros i id Hid. destruct (same_length_lookup _ (ids l') i id Elen Hid) as [id' Hid'].
  exists id'. destruct (Hown i id id' Hid Hid') as [Hact Hp]. split_and!; [done..|]. intros p.
  apply eq_true_iff_eq. rewrite !lists_spec by (done || by eapply list_elem_of_lookup_2).
  rewrite El', Hp, Hact.
  assert (p ∈ (owners l).*1 ↔ p ∈ (owners l').*1) as ->; [|done].
  rewrite !owned_keys by done. split.
  - intros (j&o&Hj&Hin). destruct (same_length_lookup _ (ids l') j o Elen Hj) as [o' Hj'].
    exists j, o'. split; [done|]. by apply (Hown j o o').
  - intros (j&o&Hj&Hin). destruct (same_length_lookup _ (ids l) j o (eq_sym Elen) Hj) as [o' Hj'].
    exists j, o'. split; [done|]. by apply (Hown j o' o).
Qed.

(** A terminal beside a page, the page in use. *)
Definition two_groups : Layout :=
  choose (split (layout_new 1) 1 2 (Some [97]) [Page 7; Herdr [97]]).1 2 (Page 7).

Lemma two_groups_reach : reach two_groups.
Proof.
  apply reach_choose, reach_split; [apply reach_new|]. cbn. intros H%list_elem_of_singleton. discriminate.
Qed.

Lemma listed_once_witness :
  (∃ id, lists two_groups id (Page 7) = true ∧ ∀ id', lists two_groups id' (Page 7) = true → id' = id)
  ∧ lists two_groups 2 (Page 7) = true ∧ lists two_groups 1 (Herdr [97]) = true.
Proof. split; [exact (proj1 (listed_once two_groups (Page 7) two_groups_reach))|by vm_compute]. Defined.

Lemma saved_roundtrip_witness :
  ∃ s, saved two_groups = Some s
    ∧ ∃ l' i1, restore s 5 = Some (l', i1) ∧ g_pick <$> groups l' = g_pick <$> groups two_groups
      ∧ ∀ i id, ids two_groups !! i = Some id → ∃ id', ids l' !! i = Some id'
        ∧ (active two_groups = id ↔ active l' = id') ∧ ∀ p, lists l' id' p = lists two_groups id p.
Proof.
  eexists. split; [reflexivity|].
  exact (saved_roundtrip two_groups _ 5 two_groups_reach eq_refl ltac:(by vm_compute)).
Defined.

(** A layout saved when each group named the tabs it had closed: the tab goes to the group that shows it. *)
Example owners_of_closed :
  saved_owners (MkSavedLayout
    [MkSavedGroup (Some (Page 1)) (f32_of 1) [] [Page 2]; MkSavedGroup (Some (Page 2)) (f32_of 1) [] [Page 1]] 1)
  = [(Page 1, 0%nat); (Page 2, 1%nat)].
Proof. reflexivity. Qed.
End Groups.
