(* ===== verification/Diff.v ===== *)
(** * Diff: the lines of a file under review
    (crates/sheprd-gpui/src/review/diff.rs and review/diff/context.rs)

    A file keeps its text in one buffer and its lines as byte ranges of it. The
    lines are paired side by side once they are all in. *)

From Stdlib Require Import NArith ZArith Lia.
From stdpp Require Import base option strings list sets.
From S2P Require Import Prelude.

Local Open Scope N_scope.

(** ** Strings by bytes *)

(** The string cut before its byte [n]; [None] inside a character or past the
    end. *)
Fixpoint split_bytes (n : N) (s : str) : option (str * str) :=
  if n =? 0 then Some ([], s)
  else
    match s with
    | [] => None
    | c :: s => if n <? len_utf8 c then None else '(a, b) ← split_bytes (n - len_utf8 c) s; Some (c :: a, b)
    end.

(** [str::get] of a range of bytes. *)
Definition str_get (s : str) (a b : N) : option str :=
  if a <=? b then '(_, t) ← split_bytes a s; '(u, _) ← split_bytes (b - a) t; Some u else None.

Lemma str_len_snoc c s : str_len (c :: s) = len_utf8 c + str_len s.
Proof.
  unfold str_len. change (as_bytes (c :: s)) with (utf8_char c ++ as_bytes s). by rewrite lenN_app, length_utf8_char.
Qed.

Lemma str_len_cat s t : str_len (s ++ t) = str_len s + str_len t.
Proof. unfold str_len. by rewrite as_bytes_app, lenN_app. Qed.

Lemma len_utf8_bound c : 1 ≤ len_utf8 c ∧ len_utf8 c ≤ 4.
Proof. unfold len_utf8. destruct (c <? 128), (c <? 2048), (c <? 65536); lia. Qed.

Lemma split_bytes_app a b : split_bytes (str_len a) (a ++ b) = Some (a, b).
Proof.
  induction a as [|c a IH]; [by destruct b|]. cbn [app]. pose proof (len_utf8_bound c) as Hc.
  cbn [split_bytes]. rewrite str_len_snoc, (proj2 (N.eqb_neq _ _)) by lia. rewrite (proj2 (N.ltb_ge _ _)) by lia.
  replace (len_utf8 c + str_len a - len_utf8 c) with (str_len a) by lia. by rewrite IH.
Qed.

Lemma str_get_mid a b c : str_get (a ++ b ++ c) (str_len a) (str_len (a ++ b)) = Some b.
Proof.
  unfold str_get. rewrite str_len_cat, (proj2 (N.leb_le _ _)) by lia. rewrite split_bytes_app. cbn.
  replace (str_len a + str_len b - str_len a) with (str_len b) by lia. by rewrite split_bytes_app.
Qed.

(** [str::strip_prefix] and [str::strip_suffix]. *)
Fixpoint strip_start (p s : str) : option str :=
  match p, s with
  | [], _ => Some s
  | c :: p, d :: s => if c =? d then strip_start p s else None
  | _ :: _, [] => None
  end.
Definition strip_end (p s : str) : option str := reverse <$> strip_start (reverse p) (reverse s).
Definition starts_with (p s : str) : bool := bool_decide (is_Some (strip_start p s)).

Lemma strip_start_app p s : strip_start p (p ++ s) = Some s.
Proof. induction p as [|c p IH]; [by destruct s|]. cbn. by rewrite N.eqb_refl. Qed.

Lemma strip_start_Some p s t : strip_start p s = Some t → s = p ++ t.
Proof.
  revert s. induction p as [|c p IH]; intros s; [destruct s; cbn; congruence|]. destruct s as [|d s]; [done|]. cbn.
  destruct (N.eqb_spec c d) as [->|]; [|done]. by intros ->%IH.
Qed.

Lemma strip_end_app p s : strip_end p (s ++ p) = Some s.
Proof. unfold strip_end. rewrite reverse_app, strip_start_app. cbn. by rewrite reverse_involutive. Qed.

(** *** [client::text::unsafe_char]: controls and direction overrides. *)
Definition unsafe_char (c : N) : bool :=
  is_control c || ((8234 <=? c) && (c <=? 8238)) || ((8294 <=? c) && (c <=? 8297)) || (c =? 8206) || (c =? 8207)
  || (c =? 1564) || (c =? 8232) || (c =? 8233).

Module Diff.

Definition MAX_LINE_CHARS : nat := N.to_nat 16384.
Definition MAX_FILE_LINES : N := 250000.
Definition STRETCH : nat := N.to_nat 400.

Inductive Kind := Hunk | Context_ | Added | Removed | Meta.
#[export] Instance Kind_eq_dec : EqDecision Kind.
Proof. solve_decision. Defined.

Record Line := MkLine { kind : Kind; old : option N; new : option N; range : N * N }.

Inductive SplitRow := Across (line : nat) | Sides (left right : option nat).

Record Lines := MkLines {
  text : str; lines : list Line; hunks : list nat; split : list SplitRow; partners : list N; truncated : bool }.

Definition lines_default : Lines := MkLines [] [] [] [] [] false.

(** [offset]. *)
Definition offset (at_ : N) : N := if at_ <=? u32_max then at_ else u32_max.

(** The loop of [push_clean]: the characters kept so far are counted. *)
Fixpoint clean_from (kept : nat) (s : str) : str :=
  match s with
  | [] => []
  | c :: s =>
      if (MAX_LINE_CHARS <=? kept)%nat then [8230]
      else if c =? 9 then lit "    " ++ clean_from (S kept) s
      else if unsafe_char c then clean_from kept s
      else c :: clean_from (S kept) s
  end.

(** What [push_clean] appends. *)
Definition clean (s : str) : str := clean_from 0 (default s (strip_end [13] s)).

(** [Lines::push]. *)
Definition push (ls : Lines) (k : Kind) (old new : option N) (t : str) : Lines * bool :=
  if (MAX_FILE_LINES <=? lenN (lines ls)) || (u32_max / 2 <=? str_len (text ls)) then
    (MkLines (text ls) (lines ls) (hunks ls) (split ls) (partners ls) true, false)
  else
    let start := str_len (text ls) in
    let buffer := text ls ++ clean t in
    let range := (offset start, offset (str_len buffer)) in
    let hunks := if bool_decide (k = Hunk) then hunks ls ++ [length (lines ls)] else hunks ls in
    (MkLines buffer (lines ls ++ [MkLine k old new range]) hunks (split ls) (partners ls) (truncated ls), true).

(** ** Side by side *)

(** The closure [flush] of [split_rows]. *)
Definition flush (removed added : list nat) : list SplitRow :=
  (λ i, Sides (removed !! i) (added !! i)) <$> seq 0 (Nat.max (length removed) (length added)).

(** The loop of [split_rows], at line [index]. *)
Fixpoint rows_from (index : nat) (ks : list Kind) (removed added : list nat) : list SplitRow :=
  match ks with
  | [] => flush removed added
  | k :: ks =>
      match k with
      | Removed =>
          match added with
          | [] => rows_from (S index) ks (removed ++ [index]) added
          | _ => flush removed added ++ rows_from (S index) ks [index] []
          end
      | Added => rows_from (S index) ks removed (added ++ [index])
      | Context_ => flush removed added ++ Sides (Some index) (Some index) :: rows_from (S index) ks [] []
      | Hunk | Meta => flush removed added ++ Across index :: rows_from (S index) ks [] []
      end
  end.

Definition split_rows (ls : list Line) : list SplitRow := rows_from 0 (kind <$> ls) [] [].

(** [u32::try_from(i).unwrap_or(u32::MAX)]. *)
Definition index_u32 (i : nat) : N := offset (N.of_nat i).

(** The loop body of [finish]. *)
Definition pair_row (ps : list N) (row : SplitRow) : list N :=
  match row with
  | Sides (Some l) (Some r) => if (l =? r)%nat then ps else <[r := index_u32 l]> (<[l := index_u32 r]> ps)
  | _ => ps
  end.

(** [Lines::finish]. *)
Definition finish (ls : Lines) : Lines :=
  let rows := split_rows (lines ls) in
  MkLines (text ls) (lines ls) (hunks ls) rows (foldl pair_row (replicate (length (lines ls)) u32_max) rows) (truncated ls).

(** [Lines::partner]. *)
Definition partner (ls : Lines) (line : nat) : option nat :=
  p ← partners ls !! line; if p =? u32_max then None else Some (N.to_nat p).

(** [Lines::text_of] and [Lines::text]. *)
Definition text_of (ls : Lines) (l : Line) : str := default [] (str_get (text ls) (range l).1 (range l).2).
Definition text_at (ls : Lines) (index : nat) : str :=
  match lines ls !! index with Some l => text_of ls l | None => [] end.

(** The loop of [Lines::added]. *)
Fixpoint add_all (ls : Lines) (index : N) (contents : list str) : Lines :=
  match contents with
  | [] => ls
  | t :: contents =>
      let '(ls, ok) := push ls Added None (Some (offset (index + 1))) t in
      if ok then add_all ls (index + 1) contents else ls
  end.

(** [Lines::added] of the lines of a file. *)
Definition added (contents : list str) : Lines :=
  let '(ls, _) := push lines_default Hunk None None (lit "@@ -0,0 +1," ++ dec (lenN contents) ++ lit " @@") in
  finish (add_all ls 0 contents).

(** ** Hunks *)

(** [slice::partition_point] of [header <= line] on the sorted headers. *)
Definition hunks_upto (ls : Lines) (line : nat) : nat := length (filter (λ h, h ≤ line)%nat (hunks ls)).

(** [Lines::hunk_start]. *)
Definition hunk_start (ls : Lines) (line : nat) : nat :=
  match hunks_upto ls line with
  | O => O
  | S h => S (default 0%nat (hunks ls !! h))
  end.

(** [Lines::stretch]. *)
Definition stretch (ls : Lines) (line : nat) : nat * nat :=
  let start := hunk_start ls line in
  let end_ := default (length (lines ls)) (hunks ls !! hunks_upto ls line) in
  let from := (start + (line - start) / STRETCH * STRETCH)%nat in
  (from, Nat.max (Nat.min (from + STRETCH) end_) from).

(** ** Every line has its place *)

Definition lefts (rows : list SplitRow) : list nat := omap (λ r, match r with Sides l _ => l | _ => None end) rows.
Definition rights (rows : list SplitRow) : list nat := omap (λ r, match r with Sides _ r => r | _ => None end) rows.
Definition acrosses (rows : list SplitRow) : list nat := omap (λ r, match r with Across i => Some i | _ => None end) rows.

Definition on_left (k : Kind) : bool := bool_decide (k = Removed ∨ k = Context_).
Definition on_right (k : Kind) : bool := bool_decide (k = Added ∨ k = Context_).
Definition on_both (k : Kind) : bool := bool_decide (k = Hunk ∨ k = Meta).

(** The places of the kinds [f] accepts, counted from [i]. *)
Fixpoint places (f : Kind → bool) (i : nat) (ks : list Kind) : list nat :=
  match ks with
  | [] => []
  | k :: ks => if f k then i :: places f (S i) ks else places f (S i) ks
  end.

Lemma omap_of_fmap {A B C} (f : A → B) (g : B → option C) (l : list A) : omap g (f <$> l) = omap (λ x, g (f x)) l.
Proof. induction l as [|x l IH]; [done|]. cbn. by rewrite IH. Qed.

Lemma lookup_seq_all (l : list nat) n : (length l ≤ n)%nat → omap (λ i, l !! i) (seq 0 n) = l.
Proof.
  revert n. induction l as [|x l IH]; intros n Hn.
  - clear. generalize 0%nat. induction n as [|n IH]; intros k; [done|]. cbn. apply IH.
  - destruct n as [|n]; [cbn in Hn; lia|]. cbn. f_equal.
    rewrite <- fmap_S_seq, omap_of_fmap. apply IH. cbn in Hn. lia.
Qed.

Lemma flush_sides r a : lefts (flush r a) = r ∧ rights (flush r a) = a ∧ acrosses (flush r a) = [].
Proof.
  unfold lefts, rights, acrosses, flush. rewrite !omap_of_fmap. split_and!; try (apply lookup_seq_all; lia).
  by induction (seq 0 _).
Qed.

Lemma rows_from_places ks i r a :
  lefts (rows_from i ks r a) = r ++ places on_left i ks ∧
  rights (rows_from i ks r a) = a ++ places on_right i ks ∧
  acrosses (rows_from i ks r a) = places on_both i ks.
Proof.
  revert i r a. induction ks as [|k ks IH]; intros i r a; cbn [rows_from places].
  { rewrite !app_nil_r. apply flush_sides. }
  destruct (flush_sides r a) as (Hl & Hr & Ha). unfold lefts, rights, acrosses in *.
  destruct k; cbn [on_left on_right on_both bool_decide].
  - destruct (IH (S i) [] []) as (E1 & E2 & E3). rewrite !omap_app. cbn. by rewrite Hl, Hr, Ha, E1, E2, E3.
  - destruct (IH (S i) [] []) as (E1 & E2 & E3). rewrite !omap_app. cbn. by rewrite Hl, Hr, Ha, E1, E2, E3.
  - destruct (IH (S i) r (a ++ [i])) as (E1 & E2 & E3). rewrite E1, E2, E3. by rewrite <- app_assoc.
  - destruct a as [|x a].
    + destruct (IH (S i) (r ++ [i]) []) as (E1 & E2 & E3). rewrite E1, E2, E3. by rewrite <- app_assoc.
    + destruct (IH (S i) [i] []) as (E1 & E2 & E3). rewrite !omap_app, Hl, Hr, Ha, E1, E2, E3. done.
  - destruct (IH (S i) [] []) as (E1 & E2 & E3). rewrite !omap_app. cbn. by rewrite Hl, Hr, Ha, E1, E2, E3.
Qed.

Lemma places_elem f i ks j : j ∈ places f i ks ↔ (i ≤ j)%nat ∧ ∃ k, ks !! (j - i)%nat = Some k ∧ f k = true.
Proof.
  revert i. induction ks as [|k ks IH]; intros i; cbn [places].
  { split; [by intros ?%elem_of_nil|]. by intros (_ & k & E & _). }
  assert (j ∈ places f (S i) ks ↔ (S i ≤ j)%nat ∧ ∃ k', (k :: ks) !! (j - i)%nat = Some k' ∧ f k' = true) as Hrest.
  { rewrite IH. split; intros (Hle & k' & E & Hf); (split; [done|]); exists k'; (split; [|done]).
    - replace (j - i)%nat with (S (j - S i)) by lia. done.
    - replace (j - i)%nat with (S (j - S i)) in E by lia. done. }
  destruct (f k) eqn:Hf; rewrite ?elem_of_cons, Hrest.
  - split.
    + intros [->|[Hle H]]; [split; [lia|]; exists k; by rewrite Nat.sub_diag|]. split; [lia|done].
    + intros [Hle H]. destruct (decide (j = i)) as [->|Hne]; [by left|]. right. split; [lia|done].
  - split; [intros [Hle H]; split; [lia|done]|]. intros [Hle (k' & E & Hf')].
    destruct (decide (j = i)) as [->|Hne]; [rewrite Nat.sub_diag in E; cbn in E; congruence|]. split; [lia|eauto].
Qed.

Lemma places_NoDup f i ks : NoDup (places f i ks).
Proof.
  revert i. induction ks as [|k ks IH]; intros i; cbn; [constructor|]. destruct (f k); [|done].
  constructor; [|done]. rewrite places_elem. lia.
Qed.

Definition is_removed (k : Kind) : bool := bool_decide (k = Removed).
Definition is_added (k : Kind) : bool := bool_decide (k = Added).

Lemma flush_pair r a l n : Sides (Some l) (Some n) ∈ flush r a → l ∈ r ∧ n ∈ a.
Proof.
  unfold flush. intros (i & [= El En] & _)%list_elem_of_fmap. split; by eapply list_elem_of_lookup_2.
Qed.

Lemma rows_pair ks i r a l n :
  Sides (Some l) (Some n) ∈ rows_from i ks r a → l ≠ n →
  l ∈ r ++ places is_removed i ks ∧ n ∈ a ++ places is_added i ks.
Proof.
  intros Hin Hne. revert i r a Hin. induction ks as [|k ks IH]; intros i r a Hin; cbn [rows_from places] in *.
  { rewrite !app_nil_r. by apply flush_pair. }
  destruct k; cbn [is_removed is_added bool_decide] in *.
  - apply elem_of_app in Hin as [Hin|[?|Hin]%elem_of_cons]; [apply flush_pair in Hin; set_solver|done|].
    apply IH in Hin. set_solver.
  - apply elem_of_app in Hin as [Hin|[[= -> ->]|Hin]%elem_of_cons]; [apply flush_pair in Hin; set_solver|done|].
    apply IH in Hin. set_solver.
  - apply IH in Hin. set_solver.
  - destruct a as [|x a]; [apply IH in Hin; set_solver|].
    apply elem_of_app in Hin as [Hin|Hin]; [apply flush_pair in Hin; set_solver|]. apply IH in Hin. set_solver.
  - apply elem_of_app in Hin as [Hin|[?|Hin]%elem_of_cons]; [apply flush_pair in Hin; set_solver|done|].
    apply IH in Hin. set_solver.
Qed.

(** ** Partners *)

(** The entries [finish] writes, in order. *)
Definition entries (rows : list SplitRow) : list (nat * nat) :=
  rows ≫= λ row,
    match row with
    | Sides (Some l) (Some r) => if (l =? r)%nat then [] else [(l, r); (r, l)]
    | _ => []
    end.

Definition write (ps : list N) (e : nat * nat) : list N := <[e.1 := index_u32 e.2]> ps.

Lemma pair_rows_write rows ps : foldl pair_row ps rows = foldl write ps (entries rows).
Proof.
  revert ps. induction rows as [|row rows IH]; intros ps; [done|]. cbn [foldl]. rewrite IH.
  assert (entries (row :: rows) = entries [row] ++ entries rows) as -> by (unfold entries; cbn; by rewrite app_nil_r).
  rewrite foldl_app. f_equal.
  destruct row as [?|[l|] [r|]]; try done. unfold entries. cbn. by destruct (l =? r)%nat.
Qed.

Lemma writes_lookup es ps k : NoDup es.*1 → (∀ e, e ∈ es → e.1 < length ps)%nat →
  foldl write ps es !! k = match find (λ e, (e.1 =? k)%nat) es with Some e => Some (index_u32 e.2) | None => ps !! k end.
Proof.
  revert ps. induction es as [|[i j] es IH]; intros ps Hn Hb; [done|]. cbn [foldl find fst].
  apply NoDup_cons in Hn as [Hi Hn].
  rewrite IH; [|done|intros e He; unfold write; rewrite length_insert; apply Hb; set_solver].
  destruct (Nat.eqb_spec i k) as [->|Hne].
  - assert (find (λ e, (e.1 =? k)%nat) es = None) as ->.
    { destruct (find _ es) as [e|] eqn:Ef; [|done]. apply find_some in Ef as [He Ek%Nat.eqb_eq]. destruct Hi.
      apply list_elem_of_fmap. exists e. split; [done|by apply list_elem_of_In]. }
    unfold write. cbn. apply list_lookup_insert_eq. apply (Hb (k, j)). set_solver.
  - destruct (find _ es); [done|]. unfold write. cbn. by apply list_lookup_insert_ne.
Qed.

Lemma entries_elem rows i j : (i, j) ∈ entries rows ↔
  i ≠ j ∧ (Sides (Some i) (Some j) ∈ rows ∨ Sides (Some j) (Some i) ∈ rows).
Proof.
  unfold entries. rewrite list_elem_of_bind. split.
  - intros (row & Hin & Hrow). destruct row as [?|[l|] [r|]]; try (by apply elem_of_nil in Hin).
    destruct (Nat.eqb_spec l r); [by apply elem_of_nil in Hin|].
    apply elem_of_cons in Hin as [[= -> ->]|[= -> ->]%list_elem_of_singleton]; auto.
  - intros [Hne [Hin|Hin]]; (eexists; split; [|exact Hin]); cbn; rewrite (proj2 (Nat.eqb_neq _ _)) by auto; set_solver.
Qed.

(** The two sides of the rows that pair two lines. *)
Definition pair_of (row : SplitRow) : option (nat * nat) :=
  match row with Sides (Some l) (Some r) => if (l =? r)%nat then None else Some (l, r) | _ => None end.

Lemma entries_keys rows :
  (entries rows).*1 ≡ₚ (omap pair_of rows).*1 ++ (omap pair_of rows).*2.
Proof.
  unfold entries. induction rows as [|row rows IH]; [done|]. rewrite bind_cons, fmap_app, IH. cbn [omap list_omap].
  destruct row as [?|[l|] [r|]]; cbn; try done. destruct (l =? r)%nat; cbn; [done|].
  apply perm_skip. by rewrite Permutation_middle.
Qed.

Lemma pairs_sublist rows : (omap pair_of rows).*1 `sublist_of` lefts rows ∧ (omap pair_of rows).*2 `sublist_of` rights rows.
Proof.
  induction rows as [|row rows [IH1 IH2]]; [done|]. unfold lefts, rights in *. cbn [omap list_omap].
  destruct row as [?|[l|] [r|]]; cbn; try done; try (by split; [|constructor]); try (by split; [constructor|]).
  destruct (l =? r)%nat; cbn; split; by constructor.
Qed.

Lemma pair_kinds ls l r : (l, r) ∈ omap pair_of (split_rows ls) →
  kind <$> ls !! l = Some Removed ∧ kind <$> ls !! r = Some Added.
Proof.
  intros (row & Hin & Hrow)%list_elem_of_omap. destruct row as [?|[l'|] [r'|]]; try done. cbn in Hrow.
  destruct (Nat.eqb_spec l' r') as [|Hne]; [done|]. injection Hrow as -> ->.
  apply rows_pair in Hin as [Hl Hr]; [|done]. cbn in Hl, Hr. rewrite places_elem in Hl, Hr.
  destruct Hl as (_ & k & Ek & Hk), Hr as (_ & k' & Ek' & Hk'). rewrite Nat.sub_0_r, list_lookup_fmap in *.
  apply bool_decide_eq_true in Hk, Hk'. by subst.
Qed.

Lemma pair_sides (rows : list SplitRow) l r : (l, r) ∈ omap pair_of rows → Sides (Some l) (Some r) ∈ rows.
Proof.
  intros (row & Hin & Hrow)%list_elem_of_omap. destruct row as [?|[l'|] [r'|]]; try done. cbn in Hrow.
  by destruct (l' =? r')%nat; simplify_eq.
Qed.

Lemma entries_NoDup ls : NoDup (entries (split_rows ls)).*1.
Proof.
  rewrite entries_keys. destruct (pairs_sublist (split_rows ls)) as [H1 H2].
  destruct (rows_from_places (kind <$> ls) 0 [] []) as (E1 & E2 & _). fold (split_rows ls) in E1, E2. cbn in E1, E2.
  apply NoDup_app. split_and!.
  - eapply sublist_NoDup; [|exact H1]. rewrite E1. apply places_NoDup.
  - intros x ([l r] & -> & Hlr)%list_elem_of_fmap ([l' r'] & E & Hlr')%list_elem_of_fmap. cbn in *. subst.
    apply pair_kinds in Hlr as [Hk _], Hlr' as [_ Hk']. congruence.
  - eapply sublist_NoDup; [|exact H2]. rewrite E2. apply places_NoDup.
Qed.

Lemma find_entry es i j : NoDup es.*1 → (i, j) ∈ es → find (λ e : nat * nat, (e.1 =? i)%nat) es = Some (i, j).
Proof.
  induction es as [|[a b] es IH]; [by intros _ ?%elem_of_nil|]. cbn. intros [Ha Hn]%NoDup_cons [[= <- <-]|Hin]%elem_of_cons.
  - by rewrite Nat.eqb_refl.
  - rewrite (proj2 (Nat.eqb_neq a i)); [by apply IH|]. intros ->. apply Ha, list_elem_of_fmap. by exists (i, j).
Qed.

Lemma entries_pairs rows i j : (i, j) ∈ entries rows ↔ (i, j) ∈ omap pair_of rows ∨ (j, i) ∈ omap pair_of rows.
Proof.
  rewrite entries_elem, !list_elem_of_omap. split.
  - intros [Hne [Hin|Hin]]; [left|right]; (eexists; split; [exact Hin|]); cbn; by rewrite (proj2 (Nat.eqb_neq _ _)) by auto.
  - intros [(row & Hin & E)|(row & Hin & E)]; destruct row as [?|[l|] [r|]]; try done; cbn in E;
      destruct (Nat.eqb_spec l r); simplify_eq; auto.
Qed.

(** The partner of a line is the line it is paired with. *)
Lemma partner_spec ls i j : lenN (lines ls) ≤ MAX_FILE_LINES →
  partner (finish ls) i = Some j ↔ (i, j) ∈ entries (split_rows (lines ls)).
Proof.
  intros Hlen. unfold partner, finish. cbn [partners]. rewrite pair_rows_write.
  set (es := entries (split_rows (lines ls))).
  assert (∀ a b, (a, b) ∈ es → a < length (lines ls) ∧ b < length (lines ls))%nat as Hb.
  { intros a b [H|H]%entries_pairs; apply pair_kinds in H as [H1 H2];
      destruct (lines ls !! a) eqn:Ea, (lines ls !! b) eqn:Eb; try done; apply lookup_lt_Some in Ea, Eb; done. }
  rewrite writes_lookup; [|apply entries_NoDup|].
  2:{ intros [a b] H. rewrite length_replicate. by apply Hb in H as [H _]. }
  assert (∀ b, (b < length (lines ls))%nat → index_u32 b = N.of_nat b ∧ N.of_nat b ≠ u32_max) as Hix.
  { intros b Hlt. unfold index_u32, offset, lenN, MAX_FILE_LINES, u32_max in *. rewrite (proj2 (N.leb_le _ _)) by lia. lia. }
  split.
  - destruct (find _ es) as [[a b]|] eqn:Ef; cbn.
    + apply find_some in Ef as [Hin Ea%Nat.eqb_eq]. apply list_elem_of_In in Hin. cbn in Ea. subst a.
      destruct (Hix b) as [-> Hne]; [by apply (Hb i b)|]. rewrite (proj2 (N.eqb_neq _ _)) by done.
      intros [= <-]. by rewrite Nat2N.id.
    + destruct (replicate _ _ !! i) eqn:Er; [|done]. apply lookup_replicate in Er as [-> _]. done.
  - intros Hin. rewrite (find_entry es i j) by (done || apply entries_NoDup). cbn.
    destruct (Hix j) as [-> Hne]; [by apply (Hb i j)|]. rewrite (proj2 (N.eqb_neq _ _)) by done. by rewrite Nat2N.id.
Qed.

(** Side by side, every line of a file has its place and only that: the left column is the removed and
    unchanged lines in order, the right column the added and unchanged ones, and headers and remarks go across. Lines
    are partners both ways or not at all, one of them removed and the other added, where the view puts them beside
    each other. *)
Theorem split_complete ls : lenN (lines ls) ≤ MAX_FILE_LINES →
  let f := finish ls in
  lefts (split f) = places on_left 0 (kind <$> lines ls) ∧
  rights (split f) = places on_right 0 (kind <$> lines ls) ∧
  acrosses (split f) = places on_both 0 (kind <$> lines ls) ∧
  ∀ i j, partner f i = Some j → partner f j = Some i ∧
    ((kind <$> lines ls !! i = Some Removed ∧ kind <$> lines ls !! j = Some Added ∧ Sides (Some i) (Some j) ∈ split f) ∨
     (kind <$> lines ls !! i = Some Added ∧ kind <$> lines ls !! j = Some Removed ∧ Sides (Some j) (Some i) ∈ split f)).
Proof.
  intros Hlen. cbn zeta. destruct (rows_from_places (kind <$> lines ls) 0 [] []) as (E1 & E2 & E3).
  split_and!; [exact E1|exact E2|exact E3|]. intros i j Hp%partner_spec; [|done]. split.
  - apply partner_spec; [done|]. rewrite entries_pairs in *. naive_solver.
  - apply entries_pairs in Hp as [Hp|Hp]; pose proof (pair_kinds _ _ _ Hp) as [Hk1 Hk2]; apply pair_sides in Hp; auto.
Qed.

Definition sample_lines : Lines :=
  MkLines [] ((λ k, MkLine k None None (0, 0)) <$> [Hunk; Context_; Removed; Removed; Added; Meta; Removed; Added]) [] [] [] false.

Lemma split_complete_witness :
  split (finish sample_lines) =
    [Across 0; Sides (Some 1) (Some 1); Sides (Some 2) (Some 4); Sides (Some 3) None; Across 5; Sides (Some 6) (Some 7)]%nat ∧
  partner (finish sample_lines) 2 = Some 4%nat ∧ partner (finish sample_lines) 4 = Some 2%nat.
Proof.
  assert (lenN (lines sample_lines) ≤ MAX_FILE_LINES) as Hlen by (by vm_compute).
  split; [reflexivity|]. split; [reflexivity|].
  exact (proj1 (proj2 (proj2 (proj2 (split_complete sample_lines Hlen))) 2%nat 4%nat eq_refl)).
Defined.

(** ** The text of a line *)

Lemma clean_from_safe n s : Forall (λ c, unsafe_char c = false) (clean_from n s).
Proof.
  revert n. induction s as [|c s IH]; intros n; cbn [clean_from]; [constructor|].
  destruct (_ <=? _)%nat; [by repeat constructor|]. destruct (c =? 9).
  - apply Forall_app. split; [|done]. by repeat constructor.
  - destruct (unsafe_char c) eqn:Hc; [done|]. by constructor.
Qed.

Lemma clean_from_len n s : (n ≤ MAX_LINE_CHARS)%nat →
  str_len (clean_from n s) ≤ 4 * N.of_nat (MAX_LINE_CHARS - n) + 3.
Proof.
  revert n. induction s as [|c s IH]; intros n Hn; cbn [clean_from]; [unfold str_len, lenN; cbn; lia|].
  destruct (Nat.leb_spec MAX_LINE_CHARS n) as [|Hlt]; [change (str_len [8230]) with 3; lia|].
  specialize (IH (S n) Hlt) as IH1. destruct (c =? 9).
  - rewrite str_len_cat. change (str_len (lit "    ")) with 4. lia.
  - destruct (unsafe_char c); [by apply IH|]. rewrite str_len_snoc. pose proof (len_utf8_bound c). lia.
Qed.

Lemma clean_len s : str_len (clean s) ≤ 4 * 16384 + 3.
Proof. etrans; [apply clean_from_len; lia|]. unfold MAX_LINE_CHARS. lia. Qed.

(** A line that is shown as it is. *)
Definition plain (s : str) : Prop := Forall (λ c, unsafe_char c = false) s ∧ (length s ≤ MAX_LINE_CHARS)%nat.

Lemma clean_from_plain n s : Forall (λ c, unsafe_char c = false) s → (n + length s ≤ MAX_LINE_CHARS)%nat → clean_from n s = s.
Proof.
  revert n. induction s as [|c s IH]; intros n Hs Hn; [done|]. apply Forall_cons in Hs as [Hc Hs]. cbn [clean_from length] in *.
  rewrite (proj2 (Nat.leb_gt _ _)) by lia. destruct (N.eqb_spec c 9) as [->|]; [done|]. rewrite Hc, IH by (done || lia). done.
Qed.

Lemma strip_end_none c s : c ∉ s → strip_end [c] s = None.
Proof.
  intros Hc. unfold strip_end. cbn. destruct (reverse s) as [|d t] eqn:E; [done|]. cbn.
  destruct (N.eqb_spec c d) as [<-|]; [|done]. destruct Hc. apply elem_of_reverse. rewrite E. by left.
Qed.

Lemma plain_no s c : plain s → unsafe_char c = true → c ∉ s.
Proof. intros [Hs _] Hc Hin. rewrite Forall_forall in Hs. specialize (Hs c Hin). congruence. Qed.

Lemma clean_plain s : plain s → clean s = s.
Proof.
  intros Hs. unfold clean. rewrite strip_end_none by (by apply (plain_no s 13)). by apply clean_from_plain; apply Hs.
Qed.

(** The lines' texts lie one after the other in the buffer. *)
Record laid (ls : Lines) (ts : list str) : Prop := MkLaid {
  laid_text : text ls = concat ts;
  laid_ranges : range <$> lines ls = imap (λ i _, (str_len (concat (take i ts)), str_len (concat (take (S i) ts)))) ts;
  laid_hunks : hunks ls = places (λ k, bool_decide (k = Hunk)) 0 (kind <$> lines ls);
  laid_count : lenN (lines ls) ≤ MAX_FILE_LINES;
  laid_size : str_len (text ls) ≤ u32_max
}.

Lemma laid_default : laid lines_default [].
Proof. split; try done; by vm_compute. Qed.

Lemma laid_length ls ts : laid ls ts → length ts = length (lines ls).
Proof. intros [_ E _ _ _]. apply (f_equal length) in E. by rewrite length_fmap, length_imap in E. Qed.

(** Every line reads as what was written. *)
Lemma text_at_laid ls ts i t : laid ls ts → ts !! i = Some t → text_at ls i = t.
Proof.
  intros [Et Er _ _ _] Ht. unfold text_at. apply (f_equal (lookup i)) in Er. rewrite list_lookup_fmap, list_lookup_imap, Ht in Er.
  cbn in Er. destruct (lines ls !! i) as [l|]; [|done]. injection Er as Er. unfold text_of. rewrite Er, Et. cbn [fst snd].
  rewrite (take_S_r _ _ _ Ht), concat_app. cbn [concat]. rewrite app_nil_r.
  replace (concat ts) with (concat (take i ts) ++ t ++ concat (drop (S i) ts)).
  - by rewrite str_get_mid.
  - rewrite <- (take_drop_middle _ _ _ Ht) at 3. by rewrite concat_app.
Qed.

Lemma places_app f i a b : places f i (a ++ b) = places f i a ++ places f (i + length a) b.
Proof.
  revert i. induction a as [|k a IH]; intros i; cbn; [by rewrite Nat.add_0_r|].
  rewrite IH, Nat.add_succ_r. by destruct (f k).
Qed.

Lemma push_laid ls ts k o n t : laid ls ts →
  let '(ls', ok) := push ls k o n t in
  if ok then laid ls' (ts ++ [clean t]) ∧ lines ls' = lines ls ++ [MkLine k o n (str_len (concat ts), str_len (concat ts ++ clean t))]
    ∧ truncated ls' = truncated ls
  else laid ls' ts ∧ lines ls' = lines ls ∧ truncated ls' = true.
Proof.
  intros Hl. pose proof (laid_length _ _ Hl) as Elen. pose proof Hl as [Et Er Eh Hc Hs]. unfold push.
  destruct (_ || _) eqn:Hfull; [by repeat split|]. apply orb_false_iff in Hfull as [H1%N.leb_gt H2%N.leb_gt].
  pose proof (clean_len t) as Hclean.
  assert (∀ x, x ≤ u32_max → offset x = x) as Hoff by (intros x Hx; unfold offset; by rewrite (proj2 (N.leb_le _ _))).
  assert (str_len (text ls ++ clean t) ≤ u32_max) as Hsize.
  { rewrite str_len_cat. unfold u32_max in *. change (4294967295 / 2) with 2147483647 in H2. lia. }
  rewrite !Hoff by (done || rewrite str_len_cat in Hsize; lia). split_and!; [|by rewrite Et|done].
  split; cbn [text lines hunks].
  - rewrite Et, concat_app. cbn. by rewrite app_nil_r.
  - rewrite fmap_app, Er, imap_app. cbn. f_equal.
    + apply imap_ext. intros i x Hi. apply lookup_lt_Some in Hi. by rewrite !take_app_le by lia.
    + rewrite Nat.add_0_r, take_app_length, firstn_all2 by (rewrite length_app; cbn; lia).
      rewrite concat_app, Et. cbn. by rewrite app_nil_r.
  - rewrite fmap_app, places_app, <- Eh, length_fmap. cbn. destruct (bool_decide _); [done|by rewrite app_nil_r].
  - unfold lenN in *. rewrite length_app. cbn. lia.
  - done.
Qed.

(** ** Hunks and stretches *)

Lemma places_bound f i ks j : j ∈ places f i ks → (i ≤ j < i + length ks)%nat.
Proof. intros (Hle & k & Ek%lookup_lt_Some & _)%places_elem. lia. Qed.

(** The headers are in order, so as many as are at or before a line come first. *)
Lemma places_count f i ks x n h : places f i ks !! n = Some h →
  (n < length (filter (λ h, h ≤ x)%nat (places f i ks)))%nat ↔ (h ≤ x)%nat.
Proof.
  revert i n. induction ks as [|k ks IH]; intros i n; cbn [places]; [done|]. destruct (f k); [|apply IH].
  rewrite filter_cons. destruct (decide (i ≤ x)%nat) as [Hle|Hgt].
  - destruct n as [|n]; cbn; [intros [= <-]; lia|]. intros Hn. rewrite <- (IH (S i) n Hn). lia.
  - assert (filter (λ h, h ≤ x)%nat (places f (S i) ks) = []) as ->.
    { destruct (filter _ _) as [|y l] eqn:E; [done|]. assert (y ∈ filter (λ h, h ≤ x)%nat (places f (S i) ks)) as Hy by (rewrite E; by left).
      apply list_elem_of_filter in Hy as [Hy Hin]. apply places_bound in Hin. lia. }
    intros Hn. assert (h ∈ i :: places f (S i) ks) as Hin by (by eapply list_elem_of_lookup_2).
    apply elem_of_cons in Hin as [->|Hin]; [cbn; lia|]. apply places_bound in Hin. cbn. lia.
Qed.

Lemma hunk_start_spec ls ts line : laid ls ts → (line < length (lines ls))%nat → line ∉ hunks ls →
  (hunk_start ls line ≤ line)%nat ∧ (∀ h, h ∈ hunks ls → h < hunk_start ls line ∨ line < h)%nat ∧
  (∀ h, h ∈ hunks ls → (line < h)%nat → default (length (lines ls)) (hunks ls !! hunks_upto ls line) ≤ h)%nat ∧
  (line < default (length (lines ls)) (hunks ls !! hunks_upto ls line) ≤ length (lines ls))%nat.
Proof.
  intros [_ _ Eh _ _] Hline Hno. unfold hunk_start, hunks_upto. rewrite Eh in *.
  set (ks := kind <$> lines ls) in *. set (f := λ k, bool_decide (k = Hunk)) in *. set (hs := places f 0 ks) in *.
  pose proof (λ n h, places_count f 0 ks line n h) as Hcount. fold hs in Hcount.
  set (n := length (filter (λ h, h ≤ line)%nat hs)) in *.
  assert (∀ a b x y, hs !! a = Some x → hs !! b = Some y → (a ≤ b)%nat → (x ≤ y)%nat) as Hmono.
  { intros a b x y Ha Hb Hab. destruct (decide (x ≤ y)%nat) as [|Hgt]; [done|].
    pose proof (proj2 (places_count f 0 ks y b y Hb) ltac:(lia)) as H1.
    pose proof (proj1 (places_count f 0 ks y a x Ha)) as H2. fold hs in H1, H2. lia. }
  assert (n ≤ length hs)%nat as Hn by (apply length_filter).
  assert (line < default (length (lines ls)) (hs !! n) ≤ length (lines ls))%nat as Hend.
  { destruct (hs !! n) as [h|] eqn:E; cbn; [|lia]. pose proof (Hcount n h E) as Hc.
    apply list_elem_of_lookup_2, places_bound in E as Hb. unfold ks in Hb. rewrite length_fmap in Hb. lia. }
  split_and!; [| | |apply Hend|apply Hend].
  - destruct n as [|m]; [lia|]. destruct (lookup_lt_is_Some_2 hs m) as [h Hh]; [lia|]. rewrite Hh. cbn.
    assert (h ≤ line)%nat as Hle by (apply (Hcount m h Hh); lia).
    assert (h ≠ line) by (intros ->; by eapply Hno, list_elem_of_lookup_2). lia.
  - intros h [j Hj]%list_elem_of_lookup. destruct (decide (h ≤ line)%nat) as [Hle|]; [left|right; lia].
    apply (Hcount j h Hj) in Hle as Hlt. destruct n as [|m]; [lia|].
    destruct (lookup_lt_is_Some_2 hs m) as [h' Hh']; [lia|]. rewrite Hh'. cbn.
    enough (h ≤ h')%nat by lia. eapply (Hmono j m); [done|done|lia].
  - intros h [j Hj]%list_elem_of_lookup Hlt.
    assert (n ≤ j)%nat as Hnj. { destruct (decide (j < n)%nat) as [Hjn|]; [|lia]. apply (Hcount j h Hj) in Hjn. lia. }
    destruct (lookup_lt_is_Some_2 hs n) as [h' Hh']; [apply lookup_lt_Some in Hj; lia|]. rewrite Hh'. cbn. by eapply (Hmono n j).
Qed.

(** The stretch that holds a line: the line is in it, it is within one hunk,
    and it is at most [STRETCH] lines. *)
Lemma stretch_spec ls ts line : laid ls ts → (line < length (lines ls))%nat → line ∉ hunks ls →
  let '(a, b) := stretch ls line in
  (a ≤ line < b)%nat ∧ (b ≤ a + STRETCH)%nat ∧ (b ≤ length (lines ls))%nat ∧ ∀ h, h ∈ hunks ls → ¬ (a ≤ h < b)%nat.
Proof.
  intros Hl Hline Hno. destruct (hunk_start_spec ls ts line Hl Hline Hno) as (H1 & H2 & H3 & H4). unfold stretch.
  set (start := hunk_start ls line) in *. set (end_ := default _ _) in *.
  assert (STRETCH ≠ 0)%nat as HS by (unfold STRETCH; lia).
  pose proof (Nat.div_mod (line - start) STRETCH HS) as Hdm. pose proof (Nat.mod_upper_bound (line - start) STRETCH HS) as Hm.
  set (q := ((line - start) / STRETCH)%nat) in *. split_and!; [lia|lia|lia|lia|].
  intros h Hh [Ha Hb]. destruct (H2 h Hh) as [?|Hgt]; [lia|]. specialize (H3 h Hh Hgt). lia.
Qed.
End Diff.
