(* ===== verification/DiffParse.v ===== *)
(** * DiffParse: Git's diff as files and their numbered lines
    (crates/sheprd-gpui/src/review/diff/parse.rs, context.rs and the notes of
    diff.rs) *)

From Stdlib Require Import NArith ZArith Lia.
From stdpp Require Import base option strings list sets.
From S2P Require Import Prelude Schedule Diff.

Local Open Scope N_scope.

Module DiffParse.
Import Diff.

(** ** [String::from_utf8_lossy] *)

Definition cont (b : N) : bool := (128 <=? b) && (b <=? 191).
Definition within (lo hi b : N) : bool := (lo <=? b) && (b <=? hi).

(** The second byte a three- or four-byte sequence may have. *)
Definition second3 (b c : N) : bool :=
  if b =? 224 then within 160 191 c else if b =? 237 then within 128 159 c else within 128 191 c.
Definition second4 (b c : N) : bool :=
  if b =? 240 then within 144 191 c else if b =? 244 then within 128 143 c else within 128 191 c.

(** One character, or an invalid sequence, and how many bytes after the first
    it takes. *)
Definition utf8_next (b : N) (rest : list N) : option N * nat :=
  if b <? 128 then (Some b, 0%nat)
  else if within 194 223 b then
    match rest with
    | c :: _ => if cont c then (Some ((b - 192) * 64 + (c - 128)), 1%nat) else (None, 0%nat)
    | [] => (None, 0%nat)
    end
  else if within 224 239 b then
    match rest with
    | c :: rest =>
        if second3 b c then
          match rest with
          | d :: _ => if cont d then (Some ((b - 224) * 4096 + (c - 128) * 64 + (d - 128)), 2%nat) else (None, 1%nat)
          | [] => (None, 1%nat)
          end
        else (None, 0%nat)
    | [] => (None, 0%nat)
    end
  else if within 240 244 b then
    match rest with
    | c :: rest =>
        if second4 b c then
          match rest with
          | d :: rest =>
              if cont d then
                match rest with
                | e :: _ =>
                    if cont e then (Some ((b - 240) * 262144 + (c - 128) * 4096 + (d - 128) * 64 + (e - 128)), 3%nat)
                    else (None, 2%nat)
                | [] => (None, 2%nat)
                end
              else (None, 1%nat)
          | [] => (None, 1%nat)
          end
        else (None, 0%nat)
    | [] => (None, 0%nat)
    end
  else (None, 0%nat).

Fixpoint lossy (fuel : nat) (bs : list N) : str :=
  match fuel, bs with
  | S fuel, b :: rest => let '(c, n) := utf8_next b rest in default 65533 c :: lossy fuel (drop n rest)
  | _, _ => []
  end.

Definition from_utf8_lossy (bs : list N) : str := lossy (length bs) bs.

(** ** Names *)

Definition octal (b : N) : bool := (48 <=? b) && (b <=? 55).

(** The escapes of one letter; any other stands for itself. *)
Definition escape_byte (e : N) : N :=
  if e =? 97 then 7 else if e =? 98 then 8 else if e =? 116 then 9 else if e =? 110 then 10 else if e =? 118 then 11
  else if e =? 102 then 12 else if e =? 114 then 13 else e.

(** The loop of [unquote]. *)
Fixpoint unquote_bytes (bs : list N) : list N :=
  match bs with
  | [] => []
  | b :: rest =>
      if b =? 92 then
        match rest with
        | [] => [92]
        | e :: rest =>
            if (48 <=? e) && (e <=? 51) then
              match rest with
              | s :: t :: rest' =>
                  if octal s && octal t
                  then N.lor (N.lor (N.shiftl (e - 48) 6) (N.shiftl (s - 48) 3)) (t - 48) :: unquote_bytes rest'
                  else e :: unquote_bytes rest
              | _ => e :: unquote_bytes rest
              end
            else escape_byte e :: unquote_bytes rest
        end
      else b :: unquote_bytes rest
  end.

Definition unquote (quoted : str) : str := from_utf8_lossy (unquote_bytes (as_bytes quoted)).

(** [str::trim_end_matches] of one character. *)
Fixpoint drop_while_eq (c : N) (s : str) : str :=
  match s with
  | d :: t => if d =? c then drop_while_eq c t else s
  | [] => []
  end.
Definition trim_end_char (c : N) (s : str) : str := reverse (drop_while_eq c (reverse s)).

Definition path (text prefix : str) : str :=
  let text := trim_end_char 13 text in
  let name :=
    match t ← strip_start [34] text; strip_end [34] t with
    | Some quoted => unquote quoted
    | None => default text (strip_end [9] text)
    end in
  default name (strip_start prefix name).

(** [str::rfind]: what starts at the last occurrence. *)
Fixpoint last_at (p s : str) : option str :=
  match s with
  | [] => None
  | c :: t => match last_at p t with Some u => Some u | None => if starts_with p s then Some s else None end
  end.

Definition header_name (header : str) : str :=
  let at_ := if bool_decide (is_Some (strip_end [34] header)) then last_at [32; 34; 98; 47] header else last_at (lit " b/") header in
  path (match at_ with Some t => drop 1 t | None => header end) (lit "b/").



(** ** Files *)

Inductive Status := Modified | Added_ | Deleted | Renamed | Untracked.
Inductive Unreadable := U_Change | U_File | U_NotFile | U_TooLarge.
Inductive Body := Pending | Loaded (ls : Lines) | Binary | Large | Failed (why : Unreadable).

Record Parsed := MkParsed { p_path : str; p_old_path : option str; p_status : Status; p_body : Body }.

(** [Open]. *)
Record Open := MkOpen { parsed : Parsed; o_lines : Lines; binary : bool; hunk : option (N * N) }.


(** [Open::header]. *)
Definition header (o : Open) (raw : str) : Open :=
  let p := parsed o in
  let with_parsed p := MkOpen p (o_lines o) (binary o) (hunk o) in
  match strip_start (lit "+++ ") raw with
  | Some name =>
      if bool_decide (name = lit "/dev/null") then o
      else with_parsed (MkParsed (path name (lit "b/")) (p_old_path p) (p_status p) (p_body p))
  | None =>
      if starts_with (lit "new file mode") raw || starts_with (lit "copy from") raw then
        with_parsed (MkParsed (p_path p) (p_old_path p) Added_ (p_body p))
      else if starts_with (lit "deleted file mode") raw then
        with_parsed (MkParsed (p_path p) (p_old_path p) Deleted (p_body p))
      else
        match strip_start (lit "rename from ") raw with
        | Some from => with_parsed (MkParsed (p_path p) (Some (path from [])) Renamed (p_body p))
        | None =>
            if starts_with (lit "Binary files") raw || bool_decide (raw = lit "GIT binary patch")
            then MkOpen p (o_lines o) true (hunk o) else o
        end
  end.





(** ** Names Git wrote are read back *)






(** How Git writes a name with [core.quotePath=false]: controls, the quote and
    the backslash are escaped, and a name that has any is quoted. *)
Definition special (c : N) : bool := (c <? 32) || (c =? 127) || (c =? 34) || (c =? 92).

Definition quote_char (c : N) : str :=
  if negb (special c) then [c]
  else if (7 <=? c) && (c <=? 13) then [92; nth (N.to_nat (c - 7)) (lit "abtnvfr") 0]
  else if (c =? 34) || (c =? 92) then [92; c]
  else [92; 48 + c / 64; 48 + c / 8 mod 8; 48 + c mod 8].

Definition quote (s : str) : str := s ≫= quote_char.

Definition git_name (prefix name : str) : str :=
  if existsb special name then 34 :: quote (prefix ++ name) ++ [34] else prefix ++ name.

























(** ** Hunk headers *)






(** ** A diff as Git writes it *)



Inductive Form := F_Modified | F_Added | F_Deleted | F_Renamed.
#[export] Instance Form_eq_dec : EqDecision Form.
Proof. solve_decision. Defined.









(** *** What it says *)



Abbreviation Shown := (Kind * option N * option N * str)%type.










(** *** Carriage returns *)










(** *** Lines go in as they are *)












(** *** The lines before a file's hunks *)










(** *** Whole files *)





(** *** Whole diffs *)









































(** A file deleted, or with no hunks, has only its header to tell its name,
    and a name with a space before [b/] is cut there. *)
Lemma header_name_cut :
  header_name (git_name (lit "a/") (lit "x b/y") ++ 32 :: git_name (lit "b/") (lit "x b/y")) = lit "y".
Proof. by vm_compute. Qed.
End DiffParse.
