(* ===== verification/ClientSession.v ===== *)
(** * ClientSession: what a connection to a generation-1 server keeps and reports
    (crates/sheprd-client/src/session.rs, session/barrier.rs, method.rs, event.rs
    and the handshake types of sheprd-protocol/src/endpoint.rs)

    Every message of the server goes through [handle_message]: the welcome, then
    snapshots, surfaces in four encodings, patches of them, and the answers to
    requests in chunks. What a window sees is the list of events delivered. The
    JSON reader is the class [EndpointJson]; times are milliseconds. *)

From Stdlib Require Import NArith Lia.
From stdpp Require Import base option strings list gmap sets.
From S2P Require Import Prelude Wire Codec Frame SurfaceScroll SurfaceDelta ClientFrame ClientImages.

Local Open Scope N_scope.

Module ClientSession.
Import Codec ClientImages.

(** ** endpoint.rs *)

Definition ENDPOINT_PROTOCOL_GENERATION : N := 1.
Definition ENDPOINT_WELCOME_KIND : str := lit "endpoint.welcome.v1".
Definition SNAPSHOT_CODEC_V1 : str := lit "shell.snapshot.v1".
Definition ENDPOINT_SNAPSHOT_KIND : str := SNAPSHOT_CODEC_V1.
Definition SURFACE_CODEC_V1 : str := lit "shell.surface.v1".
Definition INPUT_CODEC_V1 : str := lit "shell.input.semantic.v1".
Definition BLOB_CODEC_V1 : str := lit "shell.blob.v1".

Record EndpointHandshakeError := MkEndpointHandshakeError { code : str; message : str }.

Record EndpointServerWelcome := MkEndpointServerWelcome {
  generation : N; server_version : str; snapshot_codec : str; surface_codec : str; input_codec : str; blob_codec : str;
  methods : list str; capabilities : list str; error : option EndpointHandshakeError }.

(** [surface_delta::MESSAGE_KIND], [surface_reuse::MESSAGE_KIND] and the
    capabilities. *)
Definition DELTA_CAPABILITY : str := lit "surface_delta".
Definition DELTA_KIND : str := lit "endpoint.surface-delta.v1".
Definition REUSE_CAPABILITY : str := lit "surface_reuse".
Definition REUSE_KIND : str := lit "endpoint.surface-reuse.v1".

(** ** method.rs *)

Inductive Method :=
| ClientShellSurfaceSet
| CommandInvoke
| IntegrationInstall
| IntegrationInstallV2
| IntegrationList
| IntegrationListV2
| LayoutSetSplitRatio
| PaneClear
| PaneClose
| PaneCopyMotion
| PaneCopySearch
| PaneEditScrollback
| PaneFocus
| PaneFocusDirection
| PaneInputSet
| PaneLinkActivate
| PaneLinkResolve
| PaneRename
| PaneResize
| PaneScroll
| PaneSelectionRead
| PaneSplit
| PaneSwap
| PaneZoom
| ProductAnnouncementDismiss
| ReleaseNotesDismiss
| ServerReloadConfig
| TabClose
| TabCreate
| TabFocus
| TabMove
| TabRename
| WorkspaceClose
| WorkspaceCreate
| WorkspaceFocus
| WorkspaceMove
| WorkspaceMoveBlock
| WorkspaceRename
| WorktreeCreate
| WorktreeList
| WorktreeOpen
| WorktreeRemove.
#[export] Instance Method_eq_dec : EqDecision Method.
Proof. solve_decision. Defined.

(** [Method::as_str]. *)
Definition method_as_str (m : Method) : str :=
  match m with
  | ClientShellSurfaceSet => lit "client_shell.surface.set"
  | CommandInvoke => lit "command.invoke"
  | IntegrationInstall => lit "integration.install"
  | IntegrationInstallV2 => lit "integration.install.v2"
  | IntegrationList => lit "integration.list"
  | IntegrationListV2 => lit "integration.list.v2"
  | LayoutSetSplitRatio => lit "layout.set_split_ratio"
  | PaneClear => lit "pane.clear"
  | PaneClose => lit "pane.close"
  | PaneCopyMotion => lit "pane.copy_motion"
  | PaneCopySearch => lit "pane.copy_search"
  | PaneEditScrollback => lit "pane.edit_scrollback"
  | PaneFocus => lit "pane.focus"
  | PaneFocusDirection => lit "pane.focus_direction"
  | PaneInputSet => lit "pane.input.set"
  | PaneLinkActivate => lit "pane.link.activate"
  | PaneLinkResolve => lit "pane.link.resolve"
  | PaneRename => lit "pane.rename"
  | PaneResize => lit "pane.resize"
  | PaneScroll => lit "pane.scroll"
  | PaneSelectionRead => lit "pane.selection.read"
  | PaneSplit => lit "pane.split"
  | PaneSwap => lit "pane.swap"
  | PaneZoom => lit "pane.zoom"
  | ProductAnnouncementDismiss => lit "product_announcement.dismiss"
  | ReleaseNotesDismiss => lit "release_notes.dismiss"
  | ServerReloadConfig => lit "server.reload_config"
  | TabClose => lit "tab.close"
  | TabCreate => lit "tab.create"
  | TabFocus => lit "tab.focus"
  | TabMove => lit "tab.move"
  | TabRename => lit "tab.rename"
  | WorkspaceClose => lit "workspace.close"
  | WorkspaceCreate => lit "workspace.create"
  | WorkspaceFocus => lit "workspace.focus"
  | WorkspaceMove => lit "workspace.move"
  | WorkspaceMoveBlock => lit "workspace.move_block"
  | WorkspaceRename => lit "workspace.rename"
  | WorktreeCreate => lit "worktree.create"
  | WorktreeList => lit "worktree.list"
  | WorktreeOpen => lit "worktree.open"
  | WorktreeRemove => lit "worktree.remove"
  end.

(** [Method::advertised_in]. *)
Definition advertised_in (m : Method) (methods : list str) : bool := existsb (λ x, bool_decide (x = method_as_str m)) methods.

(** ** limits.rs, in milliseconds *)

Definition QUIET_PING : N := 5000.
Definition TIMEOUT : N := 10000.
Definition PING_TIMEOUT : N := 10000.
Definition LIVENESS_TIMEOUT : N := 3000.
Definition IDLE_WAIT : N := 5000.
Definition MAX_RESPONSE_BYTES : N := 8 * 1024 * 1024.
Definition COMMAND_TIMEOUT : N := ClientFrame.COMMAND_TIMEOUT.

(** The variants of [Error] a connection ends or refuses with. *)
Inductive SessionError :=
| Io | Protocol (e : Codec.Error) | Frame_ (e : ClientFrame.ClientError) | Json | InputWriteTimeout | CommandBoot | UnsupportedMethod
| UnsupportedSurfaceInterest | Cancelled | EventReceiverDropped | HealthTimeout | HandshakeTimeout | RequestTimeout
| ExpectedWelcome | LegacyDaemon | ClosedBeforeWelcome | EndpointGeneration (generation : N) (server_version : str) | WelcomeKind
| WelcomeRejected (code message : str) | IncompatibleCodecs | MissingSurfaceInterest (server_version : str)
| MissingHealthCheck (server_version : str) | SnapshotIdentity | SurfaceBeforeSnapshot | SurfaceIdentity | PatchBeforeBaseline
| EncodedSurfaceBeforeBaseline | SurfaceEncodingNotNegotiated | ResponseBoot | ResponseLimit | UnsolicitedResponse | ResponseId
| ServerShutdown (reason : str) | ClipboardCancelled | PreparationTimeout.

(** ** Health *)

Record Health := MkHealth { received : N; ping : option (N * N) }.

Definition health_new (now : N) : Health := MkHealth now None.

(** [Health::received]. *)
Definition health_received (h : Health) (now : N) : Health := MkHealth now None.

(** [Health::probe]. *)
Definition probe (h : Health) (now timeout : N) : Health * bool :=
  let deadline := now + timeout in
  match ping h with
  | Some (at_, due) => (MkHealth (received h) (Some (at_, N.min due deadline)), false)
  | None => (MkHealth (received h) (Some (now, deadline)), true)
  end.

(** [Health::deadline]. *)
Definition health_deadline (h : Health) : N := match ping h with Some (_, due) => due | None => received h + QUIET_PING end.

(** [Health::tick]. *)
Definition tick (h : Health) (now : N) : Health * res SessionError bool :=
  if now <? health_deadline h then (h, Ok false)
  else
    match ping h with
    | Some _ => (h, Err HealthTimeout)
    | None => (MkHealth (received h) (Some (now, now + PING_TIMEOUT)), Ok true)
    end.

(** ** State *)

Record SurfaceEncodings := MkSurfaceEncodings { reuse : bool; delta : bool; scroll : bool }.

Record Pending := MkPending { p_id : str; p_method : Method; p_bytes : list N; p_started : N }.

(** JSON as the session reads it: the welcome, a snapshot, an answer with its
    [id] and the [code] of its [error]. *)
Class EndpointJson (V : Type) := {
  welcome_from_str : str → option EndpointServerWelcome;
  snapshot_from_str : str → option ClientShellSnapshot;
  response_from_slice : list N → option V;
  response_id : V → option str;
  error_code : V → option str;
}.

Section session.
Context {V : Type} {EJ : EndpointJson V} {B64 : SurfaceScroll.Base64} {BSM : Bincode ServerMessage} {BSD : Bincode SurfaceDelta} {RJ : ReuseJson}.

Record Barrier := MkBarrier { b_pending : Pending; b_request : list N; b_held : option V; b_refused : bool }.

(** [Session]; the counter of image serials is the process's. *)
Record Session := MkSession {
  started : N; surface_active : bool; remote : bool; health : option Health; welcome : option EndpointServerWelcome;
  encodings : SurfaceEncodings; snapshot : option ClientShellSnapshot; surface : option PaneSurfaceFrame;
  images : ClientImages.ImageStore; serials : N; pending : option Pending; barrier : option Barrier; pipeline_barriers : bool }.

(** [Session::new]. *)
Definition session_new (now : N) (surface_active remote : bool) (serials : N) : Session :=
  MkSession now surface_active remote None None (MkSurfaceEncodings false false false) None None ClientImages.store_default serials
    None None false.

Inductive ClientEvent :=
| Ev_Connected (w : EndpointServerWelcome)
| Ev_Snapshot (s : ClientShellSnapshot)
| Ev_Surface (f : PaneSurfaceFrame)
| Ev_SurfaceImages (i : gmap SurfaceGraphicsAssetKey ClientImages.SurfaceImage)
| Ev_Response (request_id : str) (response : V)
| Ev_CommandRejected (request_id : option str) (reason : SessionError)
| Ev_Message (m : ServerMessage).

(** ** Events are delivered, or end the connection

    A handler runs on the events delivered so far; [None] is a panic. Delivery
    fails when the owner stopped the connection or dropped its receiver: the
    oracle [refused] says why the next one does, from those before it. *)
Definition Out (A : Type) : Type := list ClientEvent → option (list ClientEvent * res SessionError A).

Definition out_ret {A} (a : A) : Out A := λ log, Some (log, Ok a).
Definition out_err {A} (e : SessionError) : Out A := λ log, Some (log, Err e).
Definition out_bind {A B} (m : Out A) (f : A → Out B) : Out B :=
  λ log, match m log with
         | None => None
         | Some (log, Ok a) => f a log
         | Some (log, Err e) => Some (log, Err e)
         end.
Definition out_res {A} (r : res SessionError A) : Out A := λ log, Some (log, r).
Definition out_panic {A} (o : option A) : Out A := λ log, match o with Some a => Some (log, Ok a) | None => None end.

Declare Scope out_scope.
Delimit Scope out_scope with out.
Notation "'let*' x ':=' m 'in' k" := (out_bind m (λ x, k)) (at level 10, x binder, m at level 100, k at level 200) : out_scope.
Notation "m ';;' k" := (out_bind m (λ _ : unit, k)) (at level 100, k at level 200, right associativity) : out_scope.
Local Open Scope out_scope.

Context (refused : list ClientEvent → option SessionError).

(** [deliver]. *)
Definition emit (e : ClientEvent) : Out unit :=
  λ log, match refused log with Some err => Some (log, Err err) | None => Some (log ++ [e], Ok tt) end.

(** ** The welcome *)

Definition has_capability (w : EndpointServerWelcome) (c : str) : bool := existsb (λ x, bool_decide (x = c)) (capabilities w).

Definition supports_surface_interest (w : EndpointServerWelcome) : bool :=
  forallb (has_capability w) [lit "surface_interest"; lit "presentation_effects_fence"] && advertised_in ClientShellSurfaceSet (methods w).

(** [SurfaceEncodings::from]. *)
Definition encodings_from (w : EndpointServerWelcome) : SurfaceEncodings :=
  MkSurfaceEncodings (has_capability w REUSE_CAPABILITY) (has_capability w DELTA_CAPABILITY) (has_capability w SurfaceScroll.CAPABILITY).

(** [barrier::verified_ordering]. *)
Definition verified_ordering (v : str) : bool :=
  existsb (λ x, bool_decide (v = x)) [lit "0.9.0"; lit "0.9.1"; lit "0.9.2"; lit "0.9.3"; lit "0.9.4"; lit "0.9.5"].

Definition codecs_differ (w : EndpointServerWelcome) : bool :=
  negb (bool_decide (snapshot_codec w = SNAPSHOT_CODEC_V1)) || negb (bool_decide (surface_codec w = SURFACE_CODEC_V1))
  || negb (bool_decide (input_codec w = INPUT_CODEC_V1)) || negb (bool_decide (blob_codec w = BLOB_CODEC_V1)).

(** The checks of a welcome, in order. *)
Definition check_welcome (s : Session) (w : EndpointServerWelcome) : res SessionError unit :=
  if negb (generation w =? ENDPOINT_PROTOCOL_GENERATION) then Err (EndpointGeneration (generation w) (server_version w))
  else
    match error w with
    | Some e => Err (WelcomeRejected (code e) (message e))
    | None =>
        if codecs_differ w then Err IncompatibleCodecs
        else if (remote s || negb (surface_active s)) && negb (supports_surface_interest w) then
          Err (MissingSurfaceInterest (server_version w))
        else if remote s && negb (has_capability w (lit "health_check")) then Err (MissingHealthCheck (server_version w))
        else Ok tt
    end.

(** [handle_message] before the welcome. *)
Definition handle_welcome (now : N) (s : Session) (m : ServerMessage) : Out Session :=
  match m with
  | SM_EndpointControl kind data =>
      if negb (bool_decide (kind = ENDPOINT_WELCOME_KIND)) then out_err WelcomeKind
      else
        match welcome_from_str data with
        | None => out_err Json
        | Some w =>
            let* _ := out_res (check_welcome s w) in
            let h := if remote s then Some (health_new now) else health s in
            emit (Ev_Connected w);;
            out_ret (MkSession (started s) (surface_active s) (remote s) h (Some w) (encodings_from w) (snapshot s) (surface s) (images s)
                       (serials s) (pending s) (barrier s) (verified_ordering (server_version w)))
        end
  | SM_Welcome _ _ _ => out_err LegacyDaemon
  | _ => out_err ExpectedWelcome
  end.

(** ** Surfaces *)

Definition with_surface (s : Session) (f : PaneSurfaceFrame) : Session :=
  MkSession (started s) (surface_active s) (remote s) (health s) (welcome s) (encodings s) (snapshot s) (Some f) (images s) (serials s)
    (pending s) (barrier s) (pipeline_barriers s).
Definition with_images (s : Session) (i : ImageStore) (n : N) : Session :=
  MkSession (started s) (surface_active s) (remote s) (health s) (welcome s) (encodings s) (snapshot s) (surface s) i n
    (pending s) (barrier s) (pipeline_barriers s).
Definition with_snapshot (s : Session) (n : ClientShellSnapshot) : Session :=
  MkSession (started s) (surface_active s) (remote s) (health s) (welcome s) (encodings s) (Some n) (surface s) (images s) (serials s)
    (pending s) (barrier s) (pipeline_barriers s).
Definition with_requests (s : Session) (p : option Pending) (b : option Barrier) (pipeline : bool) : Session :=
  MkSession (started s) (surface_active s) (remote s) (health s) (welcome s) (encodings s) (snapshot s) (surface s) (images s) (serials s)
    p b pipeline.
Definition with_health (s : Session) (h : option Health) : Session :=
  MkSession (started s) (surface_active s) (remote s) h (welcome s) (encodings s) (snapshot s) (surface s) (images s) (serials s)
    (pending s) (barrier s) (pipeline_barriers s).

Definition with_graphics (f : PaneSurfaceFrame) (g : SurfaceGraphicsScene) : PaneSurfaceFrame :=
  MkPaneSurfaceFrame (surf_boot_id f) (surf_projection_revision f) (surf_surface_revision f) (surf_frame f) (surf_panes f) (surf_splits f)
    (surf_popup f) g.

Definition from_protocol {A} (r : res Codec.Error A) : res SessionError A :=
  match r with Ok a => Ok a | Err e => Err (Protocol e) end.

(** [if images.show() { emit(SurfaceImages) }; emit(Surface)]. *)
Definition show_surface (s : Session) (f : PaneSurfaceFrame) : Out Session :=
  let* x := out_panic (show (images s)) in
  let s := with_images s x.1 (serials s) in
  (if x.2 then emit (Ev_SurfaceImages (ClientImages.images x.1)) else out_ret tt);;
  emit (Ev_Surface f);;
  out_ret s.

(** [emit_patched]; the patched surface is in the session already. *)
Definition emit_patched (s : Session) (f : PaneSurfaceFrame) : Out Session :=
  match snapshot s with
  | Some n => if snap_revision n =? surf_projection_revision f then show_surface s f else out_ret s
  | None => out_ret s
  end.

(** [accept_surface]. *)
Definition accept_surface (s : Session) (next : PaneSurfaceFrame) : Out Session :=
  match snapshot s with
  | None => out_err SurfaceBeforeSnapshot
  | Some n =>
      if negb (bool_decide (surf_boot_id next = snap_boot_id n))
         || match surface s with Some old => surf_surface_revision next <=? surf_surface_revision old | None => false end
      then out_err SurfaceIdentity
      else
        let* _ := out_res (from_protocol (frame_validate (surf_frame next))) in
        let* _ := out_res (match surf_popup next with Some p => from_protocol (frame_validate (popup_frame p)) | None => Ok tt end) in
        let* r := out_panic (receive (images s) (serials s) (surf_graphics next)) in
        let '(store, serial, scene, changed) := r in
        let next := with_graphics next scene in
        let shown := surf_projection_revision next =? snap_revision n in
        let* y := if shown then out_panic (show store) else out_ret (store, false) in
        let s := with_images s y.1 serial in
        (if changed || y.2 then emit (Ev_SurfaceImages (ClientImages.images y.1)) else out_ret tt);;
        (if shown then emit (Ev_Surface next) else out_ret tt);;
        out_ret (with_surface s next)
  end.

(** A patch of the retained surface, applied in place. *)
Definition patch_surface (s : Session) (apply : PaneSurfaceFrame → option (PaneSurfaceFrame * res Codec.Error unit)) : Out Session :=
  match surface s with
  | None => out_err PatchBeforeBaseline
  | Some current =>
      let* x := out_panic (apply current) in
      let* _ := out_res (from_protocol x.2) in
      emit_patched (with_surface s x.1) x.1
  end.

(** An encoding of a whole surface against the retained one. *)
Definition rebuild_surface (s : Session) (rebuild : PaneSurfaceFrame → option (res Codec.Error PaneSurfaceFrame)) : Out Session :=
  match surface s with
  | None => out_err EncodedSurfaceBeforeBaseline
  | Some base =>
      let* r := out_panic (rebuild base) in
      let* next := out_res (from_protocol r) in
      accept_surface s next
  end.

(** ** Snapshots *)

Definition handle_snapshot (s : Session) (data : str) : Out Session :=
  match snapshot_from_str data with
  | None => out_err Json
  | Some next =>
      if bool_decide (snap_boot_id next = [])
         || match snapshot s with
            | Some n => negb (bool_decide (snap_boot_id n = snap_boot_id next)) || (snap_revision next <? snap_revision n)
            | None => false
            end
      then out_err SnapshotIdentity
      else
        let revision_changed := match snapshot s with Some n => negb (snap_revision n =? snap_revision next) | None => true end in
        let s := with_snapshot s next in
        emit (Ev_Snapshot next);;
        match surface s with
        | Some current =>
            if revision_changed && (surf_projection_revision current =? snap_revision next) then show_surface s current else out_ret s
        | None => out_ret s
        end
  end.

(** ** Responses *)

(** [Barrier::awaits]. *)
Definition awaits (b : Barrier) (id : str) : bool := bool_decide (p_id (b_pending b) = id) && negb (is_some (b_held b)) && negb (b_refused b).

(** [barrier::endpoint_busy]. *)
Definition endpoint_busy (v : V) : bool := bool_decide (error_code v = Some (lit "endpoint_busy")).

Definition assembled (s : Session) : N :=
  (match pending s with Some p => lenN (p_bytes p) | None => 0 end) + (match barrier s with Some b => lenN (p_bytes (b_pending b)) | None => 0 end).

Definition with_bytes (p : Pending) (bs : list N) : Pending := MkPending (p_id p) (p_method p) bs (p_started p).
Definition barrier_bytes (b : Barrier) (bs : list N) : Barrier := MkBarrier (with_bytes (b_pending b) bs) (b_request b) (b_held b) (b_refused b).

(** The answer in [bytes], when it is one to [id]. *)
Definition read_response (id : str) (bytes : list N) : res SessionError V :=
  match response_from_slice bytes with
  | None => Err Json
  | Some v => if bool_decide (response_id v = Some id) then Ok v else Err ResponseId
  end.

(** A chunk for the activation that waits behind a focus. *)
Definition barrier_chunk (s : Session) (b : Barrier) (id : str) (final : bool) (data : list N) : Out Session :=
  let bytes := p_bytes (b_pending b) ++ data in
  if negb final then out_ret (with_requests s (pending s) (Some (barrier_bytes b bytes)) (pipeline_barriers s))
  else
    let* v := out_res (read_response id bytes) in
    if endpoint_busy v then
      out_ret (with_requests s (pending s) (Some (MkBarrier (with_bytes (b_pending b) []) (b_request b) (b_held b) true)) false)
    else if is_some (pending s) then
      out_ret (with_requests s (pending s) (Some (MkBarrier (with_bytes (b_pending b) bytes) (b_request b) (Some v) (b_refused b)))
                 (pipeline_barriers s))
    else
      emit (Ev_Response id v);;
      out_ret (with_requests s (pending s) None (pipeline_barriers s)).

(** A chunk for the request that has the lease; an activation that was answered
    before it is delivered after it. *)
Definition pending_chunk (s : Session) (p : Pending) (id : str) (final : bool) (data : list N) : Out Session :=
  let bytes := p_bytes p ++ data in
  if negb final then out_ret (with_requests s (Some (with_bytes p bytes)) (barrier s) (pipeline_barriers s))
  else
    let* v := out_res (read_response id bytes) in
    emit (Ev_Response id v);;
    match barrier s with
    | Some b =>
        match b_held b with
        | Some held => emit (Ev_Response (p_id (b_pending b)) held);; out_ret (with_requests s None None (pipeline_barriers s))
        | None => out_ret (with_requests s None (barrier s) (pipeline_barriers s))
        end
    | None => out_ret (with_requests s None None (pipeline_barriers s))
    end.

Definition handle_chunk (s : Session) (boot_id id : str) (final : bool) (data : list N) : Out Session :=
  if match snapshot s with Some n => negb (bool_decide (snap_boot_id n = boot_id)) | None => true end then out_err ResponseBoot
  else if MAX_RESPONSE_BYTES - assembled s <? lenN data then out_err ResponseLimit
  else
    match barrier s with
    | Some b =>
        if awaits b id then barrier_chunk s b id final data
        else
          match pending s with
          | Some p => if bool_decide (p_id p = id) then pending_chunk s p id final data else out_err UnsolicitedResponse
          | None => out_err UnsolicitedResponse
          end
    | None =>
        match pending s with
        | Some p => if bool_decide (p_id p = id) then pending_chunk s p id final data else out_err UnsolicitedResponse
        | None => out_err UnsolicitedResponse
        end
    end.

(** ** [Session::handle_message] *)

Definition handle_control (s : Session) (kind data : str) : Out Session :=
  if bool_decide (kind = ENDPOINT_SNAPSHOT_KIND) then handle_snapshot s data
  else if bool_decide (kind = SurfaceScroll.MESSAGE_KIND) then
    if negb (scroll (encodings s)) then out_err SurfaceEncodingNotNegotiated
    else let* x := out_res (from_protocol (scroll_decode data)) in patch_surface s (λ f, apply_scroll_patch f x)
  else if bool_decide (kind = DELTA_KIND) then
    if negb (delta (encodings s)) then out_err SurfaceEncodingNotNegotiated
    else let* x := out_res (from_protocol (delta_decode data)) in rebuild_surface s (delta_reconstruct x)
  else if bool_decide (kind = REUSE_KIND) then
    if negb (reuse (encodings s)) then out_err SurfaceEncodingNotNegotiated
    else let* x := out_res (from_protocol (reuse_decode data)) in rebuild_surface s (λ f, Some (reuse_reconstruct x f))
  else out_ret s.

Definition handle_message (now : N) (s : Session) (m : ServerMessage) : Out Session :=
  let s := with_health s ((λ h, health_received h now) <$> health s) in
  match welcome s with
  | None => handle_welcome now s m
  | Some _ =>
      match m with
      | SM_EndpointControl kind data => handle_control s kind data
      | SM_PaneSurface next => accept_surface s next
      | SM_PaneSurfacePatch patch => patch_surface s (λ f, apply_patch f patch)
      | SM_ClientShellEndpointResponseChunk boot_id id final data => handle_chunk s boot_id id final data
      | SM_ServerShutdown reason => out_err (ServerShutdown (default (lit "server shutdown") reason))
      | other => emit (Ev_Message other);; out_ret s
      end
  end.

(** ** What a window sees

    The contract of a connection's events: a window that follows them from the
    start has a snapshot, a surface and its images. *)
Record View := MkView {
  v_connected : bool; v_snapshot : option ClientShellSnapshot; v_surface : option PaneSurfaceFrame;
  v_images : gmap SurfaceGraphicsAssetKey SurfaceImage }.

Definition view_new : View := MkView false None None ∅.

(** A surface that can be drawn as it is: every cell, link and cursor in range,
    in its popup too, and its scene without pixels. *)
Definition drawable (f : PaneSurfaceFrame) : Prop :=
  frame_wf (surf_frame f) ∧ (∀ p, surf_popup f = Some p → frame_wf (popup_frame p)) ∧
  scene_assets (surf_graphics f) = [] ∧ (length (scene_placements (surf_graphics f)) ≤ MAX_PLACEMENTS)%nat.

Inductive sees (v : View) : ClientEvent → View → Prop :=
| sees_connected w : v_connected v = false → generation w = ENDPOINT_PROTOCOL_GENERATION →
    sees v (Ev_Connected w) (MkView true (v_snapshot v) (v_surface v) (v_images v))
| sees_snapshot n : v_connected v = true → snap_boot_id n ≠ [] →
    (∀ m, v_snapshot v = Some m → snap_boot_id n = snap_boot_id m ∧ snap_revision m ≤ snap_revision n) →
    sees v (Ev_Snapshot n) (MkView true (Some n) (v_surface v) (v_images v))
| sees_images i : v_connected v = true → (size i ≤ MAX_IMAGES)%nat → ClientImages.total i ≤ MAX_IMAGE_BYTES →
    sees v (Ev_SurfaceImages i) (MkView true (v_snapshot v) (v_surface v) i)
| sees_surface f n : v_connected v = true → v_snapshot v = Some n → surf_boot_id f = snap_boot_id n →
    surf_projection_revision f = snap_revision n → drawable f →
    (∀ g, v_surface v = Some g → surf_surface_revision g < surf_surface_revision f) →
    sees v (Ev_Surface f) (MkView true (v_snapshot v) (Some f) (v_images v))
| sees_response id r : v_connected v = true → is_Some (v_snapshot v) → sees v (Ev_Response id r) v
| sees_message m : v_connected v = true → sees v (Ev_Message m) v
| sees_rejected id e : sees v (Ev_CommandRejected id e) v.

Inductive seen : list ClientEvent → View → Prop :=
| seen_nil : seen [] view_new
| seen_snoc log v e v' : seen log v → sees v e v' → seen (log ++ [e]) v'.

(** A handler that starts where the view has [P] does not panic, keeps to the
    contract, and leaves [Q] when it returns. *)
Definition triple {A} (P : View → Prop) (m : Out A) (Q : A → View → Prop) : Prop :=
  ∀ log v, seen log v → P v →
    ∃ log' r v', m log = Some (log', r) ∧ seen log' v' ∧ log `prefix_of` log' ∧ ∀ a, r = Ok a → Q a v'.

Lemma triple_ret {A} (a : A) P Q : (∀ v, P v → Q a v) → triple P (out_ret a) Q.
Proof. intros H log v Hs Hp. exists log, (Ok a), v. split_and!; [done..|]. intros ? [= <-]. auto. Qed.

Lemma triple_err {A} e P (Q : A → View → Prop) : triple P (out_err e) Q.
Proof. intros log v Hs _. by exists log, (Err e), v. Qed.

Lemma triple_bind {A B} P (m : Out A) (f : A → Out B) R Q :
  triple P m R → (∀ a, triple (R a) (f a) Q) → triple P (out_bind m f) Q.
Proof.
  intros Hm Hf log v Hs Hp. destruct (Hm log v Hs Hp) as (l1 & r & v1 & E & H1 & Hpre & HR). unfold out_bind. rewrite E.
  destruct r as [a|e]; [|by exists l1, (Err e), v1].
  destruct (Hf a l1 v1 H1 (HR a eq_refl)) as (l2 & r2 & v2 & E2 & H2 & Hpre2 & HQ). exists l2, r2, v2. split_and!; [done|done|by etrans|done].
Qed.

Lemma triple_res {A B} (r : res SessionError A) (f : A → Out B) P Q :
  (∀ a, r = Ok a → triple P (f a) Q) → triple P (out_bind (out_res r) f) Q.
Proof. intros H log v Hs Hp. unfold out_bind, out_res. destruct r as [a|e]; [exact (H a eq_refl log v Hs Hp)|by exists log, (Err e), v]. Qed.

Lemma triple_panic {A B} (o : option A) (f : A → Out B) a P Q : o = Some a → triple P (f a) Q → triple P (out_bind (out_panic o) f) Q.
Proof. intros -> H log v Hs Hp. exact (H log v Hs Hp). Qed.

(** What the view says of the session itself. *)
Lemma triple_fact {A} (F : Prop) P (m : Out A) Q : (∀ v, P v → F) → (F → triple P m Q) → triple P m Q.
Proof. intros HF H log v Hs Hp. exact (H (HF v Hp) log v Hs Hp). Qed.

Lemma triple_emit e P Q : (∀ v, P v → ∃ v', sees v e v' ∧ Q tt v') → triple P (emit e) Q.
Proof.
  intros H log v Hs Hp. unfold emit. destruct (refused log) as [err|]; [by exists log, (Err err), v|].
  destruct (H v Hp) as (v' & Hv & HQ). exists (log ++ [e]), (Ok tt), v'. split_and!; [done|by eapply seen_snoc|by apply prefix_app_r|].
  by intros [] _.
Qed.

Lemma triple_pre {A} (P P' : View → Prop) (m : Out A) Q : (∀ v, P v → P' v) → triple P' m Q → triple P m Q.
Proof. intros H Hm log v Hs Hp. apply (Hm log v Hs). auto. Qed.

(** ** The session implements it *)

Record sim (s : Session) (v : View) : Prop := MkSim {
  sim_welcome : v_connected v = is_some (welcome s);
  sim_snapshot : v_snapshot v = snapshot s;
  sim_fresh : welcome s = None → snapshot s = None;
  sim_surface : ∀ f, surface s = Some f → drawable f ∧ ∃ n, snapshot s = Some n ∧ surf_boot_id f = snap_boot_id n;
  sim_seen : ∀ g, v_surface v = Some g → ∃ f n, surface s = Some f ∧ snapshot s = Some n ∧
    surf_surface_revision g ≤ surf_surface_revision f ∧ (surf_surface_revision g = surf_surface_revision f → g = f) ∧
    surf_projection_revision g ≤ snap_revision n;
  sim_images : v_images v = ClientImages.images (images s);
  sim_store : store_ok (images s) (serials s);
  sim_assembled : assembled s ≤ MAX_RESPONSE_BYTES
}.

(** The surface kept is the one shown whenever it is for the last snapshot. *)
Definition current (s : Session) (v : View) : Prop :=
  ∀ f n, surface s = Some f → snapshot s = Some n → surf_projection_revision f = snap_revision n → v_surface v = Some f.

Definition agrees (s : Session) (v : View) : Prop := sim s v ∧ current s v.

(** Parts of the session the contract does not see may change. *)
Lemma sim_same s s' v :
  welcome s' = welcome s → snapshot s' = snapshot s → surface s' = surface s → images s' = images s → serials s' = serials s →
  assembled s' ≤ MAX_RESPONSE_BYTES → sim s v → sim s' v.
Proof. intros E1 E2 E3 E4 E5 Ha []. split; rewrite ?E1, ?E2, ?E3, ?E4, ?E5; done. Qed.

Lemma agrees_same s s' v :
  welcome s' = welcome s → snapshot s' = snapshot s → surface s' = surface s → images s' = images s → serials s' = serials s →
  assembled s' ≤ MAX_RESPONSE_BYTES → agrees s v → agrees s' v.
Proof. intros E1 E2 E3 E4 E5 Ha [Hs Hc]. split; [by apply (sim_same s)|]. unfold current. by rewrite E2, E3. Qed.

Lemma sim_connected s v : sim s v → is_Some (snapshot s) → v_connected v = true.
Proof.
  intros Hs [n Hn]. rewrite (sim_welcome _ _ Hs). destruct (welcome s) eqn:E; [done|]. pose proof (sim_fresh _ _ Hs E). congruence.
Qed.

(** An emitted set of images. *)
Lemma emit_images (i : gmap SurfaceGraphicsAssetKey SurfaceImage) (P : View → Prop) store serial :
  ClientImages.images store = i → store_ok store serial → (∀ v, P v → v_connected v = true) →
  triple P (emit (Ev_SurfaceImages i))
    (λ _ v', ∃ v, P v ∧ v' = MkView true (v_snapshot v) (v_surface v) i).
Proof.
  intros <- [H1 H2 H3 _ _] Hc. apply triple_emit. intros v Hv. eexists. split; [apply sees_images; [by apply Hc|done|by rewrite <- H1]|].
  by exists v.
Qed.

(** The view of a session before it publishes the images of [store]. *)
Definition publishing (s : Session) (i : gmap SurfaceGraphicsAssetKey SurfaceImage) (v : View) : Prop :=
  ∃ w, sim s w ∧ v = MkView true (v_snapshot w) (v_surface w) i.

(** Publishing the images when they changed. *)
Lemma publish_triple s (changed : bool) store serial (R : View → Prop) :
  is_Some (snapshot s) → store_ok store serial → (changed = false → ClientImages.images store = ClientImages.images (images s)) →
  (∀ v v', R v → v_surface v' = v_surface v → R v') →
  triple (λ v, sim s v ∧ R v)
    (if changed then emit (Ev_SurfaceImages (ClientImages.images store)) else out_ret tt)
    (λ _ v, publishing s (ClientImages.images store) v ∧ R v).
Proof.
  intros Hn [H1 H2 H3 _ _] Hsame HR. destruct changed.
  - apply triple_emit. intros v [Hs Hr]. eexists. split.
    + apply sees_images; [by apply (sim_connected s)|done|by rewrite <- H1].
    + split; [by exists v|by apply (HR v)].
  - apply triple_ret. intros v [Hs Hr]. split; [|done]. exists v. split; [done|]. rewrite Hsame by done. rewrite <- (sim_images _ _ Hs).
    pose proof (sim_connected _ _ Hs Hn). destruct v. cbn in *. by subst.
Qed.

(** The surface shown is older than [f]. *)
Definition older (f : PaneSurfaceFrame) (v : View) : Prop := ∀ g, v_surface v = Some g → surf_surface_revision g < surf_surface_revision f.

Lemma older_same f v v' : older f v → v_surface v' = v_surface v → older f v'.
Proof. unfold older. by intros H ->. Qed.

Lemma show_surface_triple s f n :
  surface s = Some f → snapshot s = Some n → surf_projection_revision f = snap_revision n →
  triple (λ v, sim s v ∧ older f v) (show_surface s f) agrees.
Proof.
  intros Hf Hn Hp. unfold show_surface. apply (triple_fact (store_ok (images s) (serials s))); [by intros v [[] _]|]. intros Hstore.
  destruct (show_total _ _ Hstore) as (store & c & Eshow & Hok & Hsame). eapply triple_panic; [exact Eshow|]. cbn [fst snd].
  eapply triple_bind; [apply (publish_triple s c store (serials s) (older f)); [by rewrite Hn|done|done|apply older_same]|]. intros [].
  apply (triple_bind _ _ _ (λ _ v, agrees (with_images s store (serials s)) v)); [|by intros []; apply triple_ret].
  apply triple_emit. intros v' [(v & Hs & ->) Hnew]. eexists. split.
  - destruct (sim_surface _ _ Hs f Hf) as (Hd & m & Hm & Hb).
    apply (sees_surface _ f n); cbn; [done|by rewrite (sim_snapshot _ _ Hs)|congruence|done|done|exact Hnew].
  - pose proof (sim_connected _ _ Hs ltac:(by rewrite Hn)) as Hc. split.
    + destruct Hs. split; cbn; try done; [congruence|].
      intros g [= <-]. exists f, n. split_and!; [done|done|done|done|by rewrite Hp].
    + intros f' n'. cbn. congruence.
Qed.

(** *** Surfaces and patches *)

Lemma accept_surface_triple s next : triple (sim s) (accept_surface s next) agrees.
Proof.
  unfold accept_surface. destruct (snapshot s) as [n|] eqn:Hn; [|apply triple_err].
  destruct (_ || _) eqn:Hid; [apply triple_err|]. apply orb_false_iff in Hid as [Hb%negb_false_iff%bool_decide_eq_true Hrev].
  apply triple_res. intros [] Hv. apply triple_res. intros [] Hpop.
  apply (triple_fact (store_ok (images s) (serials s))); [by intros v []|]. intros Hstore.
  destruct (receive_total _ _ (surf_graphics next) Hstore) as (s1 & n1 & scene & c1 & Er & Hok1 & Hsame1).
  eapply triple_panic; [exact Er|]. cbv beta iota zeta.
  destruct (receive_scene _ _ _ _ _ _ _ Er) as (Ha & Hpl & _ & _). set (f := with_graphics next scene).
  assert (drawable f) as Hd.
  { split_and!; [|intros p E|done|done].
    - apply frame_validate_ok. cbn. destruct (frame_validate (surf_frame next)) as [[]|]; done.
    - apply frame_validate_ok. cbn in E. rewrite E in Hpop. by destruct (frame_validate (popup_frame p)) as [[]|]. }
  assert (∃ s2 c2, (if surf_projection_revision f =? snap_revision n then show s1 else Some (s1, false)) = Some (s2, c2) ∧
    store_ok s2 n1 ∧ (c2 = false → ClientImages.images s2 = ClientImages.images s1)) as (s2 & c2 & Es & Hok2 & Hsame2).
  { destruct (_ =? _); [by apply show_total|by exists s1, false]. }
  eapply (triple_bind _ _ _ (λ y v, y = (s2, c2) ∧ sim s v)).
  { destruct (_ =? _); [rewrite Es|injection Es as -> ->]; intros log v Hl Hs; by exists log, (Ok (s2, c2)), v; split_and!; [..|intros ? [= <-]]. }
  intros y. apply (triple_fact (y = (s2, c2))); [by intros v [? _]|]. intros ->. cbn [fst snd].
  assert (∀ v, sim s v → older f v) as Holder.
  { intros v Hs g Hg. destruct (sim_seen _ _ Hs g Hg) as (f0 & n0 & Hf0 & _ & Hle & _). rewrite Hf0 in Hrev. apply N.leb_gt in Hrev. cbn. lia. }
  eapply triple_bind.
  { eapply triple_pre; [|apply (publish_triple s (c1 || c2) s2 n1 (older f)); [by rewrite Hn|done| |apply older_same]].
    - intros v [_ Hs]. auto.
    - intros [-> ->]%orb_false_iff. by rewrite Hsame2, Hsame1. }
  intros []. set (s' := with_surface (with_images s s2 n1) f).
  assert (∀ v, sim s v → sim s' (MkView true (v_snapshot v) (v_surface v) (ClientImages.images s2))) as Hnext.
  { intros v Hs. pose proof (sim_connected _ _ Hs ltac:(by rewrite Hn)) as Hc. pose proof (Holder v Hs) as Ho. destruct Hs. split; cbn; try done.
    - congruence.
    - intros g [= <-]. split; [done|]. exists n. done.
    - intros g Hg. destruct (sim_seen0 g Hg) as (f0 & n0 & Hf0 & Hn0 & Hle & _ & Hp0). exists f, n0.
      specialize (Ho g Hg). split_and!; [done|done|lia|lia|done]. }
  destruct (N.eqb_spec (surf_projection_revision f) (snap_revision n)) as [Hp|Hp].
  - apply (triple_bind _ _ _ (λ _ v, agrees s' v)); [|by intros []; apply triple_ret].
    apply triple_emit. intros v' [(v & Hs & ->) Ho]. eexists. split.
    + apply (sees_surface _ f n); cbn; [done|by rewrite (sim_snapshot _ _ Hs)|done|done|done|exact Ho].
    + specialize (Hnext v Hs). split; [|intros f' n'; cbn; congruence].
      destruct Hnext. split; try done. cbn. intros g [= <-]. exists f, n. split_and!; [done|done|done|done|by rewrite Hp].
  - apply (triple_bind _ _ _ (λ _ v, agrees s' v)); [|by intros []; apply triple_ret].
    apply triple_ret. intros v' [(v & Hs & ->) Ho]. split; [by apply Hnext|]. intros f' n'. cbn. congruence.
Qed.

Lemma patch_surface_triple s apply :
  (∀ f, ∃ f' r, apply f = Some (f', r) ∧
    match r with
    | Err _ => f' = f
    | Ok _ => frame_wf (surf_frame f') ∧ surf_popup f = None ∧ keeps_identity f f' ∧ surf_surface_revision f' = surf_surface_revision f + 1
    end) →
  triple (sim s) (patch_surface s apply) agrees.
Proof.
  intros Happly. unfold patch_surface. destruct (surface s) as [f|] eqn:Hf; [|apply triple_err].
  destruct (Happly f) as (f' & r & E & Hr). eapply triple_panic; [exact E|]. cbn [fst snd]. apply triple_res. intros [] Ho.
  destruct r as [[]|]; [|done]. destruct Hr as (Hwf & Hpop & (Hb & Hp & Hpop' & Hg) & Hrev).
  assert (∀ v, sim s v → sim (with_surface s f') v ∧ older f' v) as Hnext.
  { intros v Hs. split.
    - destruct Hs. split; cbn; try done.
      + intros g [= <-]. destruct (sim_surface0 f Hf) as ((_ & _ & Ha & Hpl) & n & Hn & Hbn). split; [|exists n; split; [done|congruence]].
        split_and!; [done|intros p; congruence|by rewrite Hg|by rewrite Hg].
      + intros g Hg'. destruct (sim_seen0 g Hg') as (f0 & n0 & Hf0 & Hn0 & Hle & _ & Hp0). exists f', n0.
        rewrite Hf in Hf0. injection Hf0 as <-. split_and!; [done|done|lia|lia|done].
    - intros g Hg'. destruct (sim_seen _ _ Hs g Hg') as (f0 & n0 & Hf0 & _ & Hle & _). rewrite Hf in Hf0. injection Hf0 as <-. lia. }
  unfold emit_patched. cbn [snapshot with_surface]. destruct (snapshot s) as [n|] eqn:Hn.
  - destruct (N.eqb_spec (snap_revision n) (surf_projection_revision f')) as [Hpn|].
    + eapply triple_pre; [exact Hnext|]. by apply (show_surface_triple _ f' n).
    + apply triple_ret. intros v Hs. split; [by apply Hnext|]. intros g m. cbn. congruence.
  - apply triple_ret. intros v Hs. split; [by apply Hnext|]. intros g m. cbn. congruence.
Qed.

Lemma rebuild_surface_triple s rebuild : (∀ f, is_Some (rebuild f)) → triple (sim s) (rebuild_surface s rebuild) agrees.
Proof.
  intros Hr. unfold rebuild_surface. destruct (surface s) as [f|]; [|apply triple_err]. destruct (Hr f) as [r E].
  eapply triple_panic; [exact E|]. apply triple_res. intros next _. apply accept_surface_triple.
Qed.

Lemma handle_snapshot_triple s data : is_Some (welcome s) → triple (agrees s) (handle_snapshot s data) agrees.
Proof.
  intros Hw. unfold handle_snapshot. destruct (snapshot_from_str data) as [next|]; [|apply triple_err].
  destruct (_ || _) eqn:Hid; [apply triple_err|]. apply orb_false_iff in Hid as [Hb%bool_decide_eq_false Hid].
  assert (∀ n, snapshot s = Some n → snap_boot_id n = snap_boot_id next ∧ snap_revision n ≤ snap_revision next) as Hn.
  { intros n E. rewrite E in Hid. by apply orb_false_iff in Hid as [?%negb_false_iff%bool_decide_eq_true ?%N.ltb_ge]. }
  set (R := λ v, ∀ g, v_surface v = Some g → ∃ n, snapshot s = Some n ∧ surf_projection_revision g ≤ snap_revision n).
  apply (triple_bind _ _ _ (λ _ v, sim (with_snapshot s next) v ∧ R v ∧ current s v)).
  { apply triple_emit. intros v [Hs Hcur]. eexists. split.
    - apply sees_snapshot; [|done|].
      + rewrite (sim_welcome _ _ Hs). by destruct Hw as [w ->].
      + intros m Hm. rewrite (sim_snapshot _ _ Hs) in Hm. destruct (Hn m Hm). done.
    - split; [|split; [intros g Hg; destruct (sim_seen _ _ Hs g Hg) as (_ & n0 & _ & Hn0 & _ & _ & Hp0); by exists n0|exact Hcur]].
      destruct Hs. split; cbn; try done.
      + destruct Hw as [w ->]. done.
      + intros E. by rewrite E in Hw; destruct Hw.
      + intros f Hf. destruct (sim_surface0 f Hf) as (Hd & n0 & Hn0 & Hb0). split; [done|]. exists next. destruct (Hn n0 Hn0). split; [done|congruence].
      + intros g Hg. destruct (sim_seen0 g Hg) as (f0 & n0 & Hf0 & Hn0 & Hle & He & Hp0). exists f0, next. destruct (Hn n0 Hn0).
        split_and!; [done|done|done|done|lia]. }
  intros []. cbn [surface with_snapshot]. destruct (surface s) as [f|] eqn:Hf.
  2: { apply triple_ret. intros v (Hs & _ & _). split; [done|]. intros g m. cbn. congruence. }
  destruct (_ && _) eqn:Hch.
  2: { apply triple_ret. intros v (Hs & _ & Hcur). split; [done|]. intros g m Hg [= <-] Hp. cbn in Hg. rewrite Hf in Hg. injection Hg as <-.
    rewrite (proj2 (N.eqb_eq _ _) Hp), andb_true_r in Hch. destruct (snapshot s) as [n0|] eqn:Hn0; [|done].
    apply negb_false_iff, N.eqb_eq in Hch. apply (Hcur f n0); [done..|congruence]. }
  apply andb_true_iff in Hch as [Hch Hp%N.eqb_eq].
  eapply triple_pre; [|by apply (show_surface_triple _ f next)]. intros v (Hs & HR & _). split; [done|].
  intros g Hg. destruct (sim_seen _ _ Hs g Hg) as (f0 & n0 & Hf0 & _ & Hle & He & _). cbn in Hf0. rewrite Hf in Hf0. injection Hf0 as <-.
  destruct (HR g Hg) as (m & Hm & Hpm). rewrite Hm in Hch. apply negb_true_iff, N.eqb_neq in Hch. destruct (Hn m Hm) as [_ Hlm].
  destruct (N.eq_dec (surf_surface_revision g) (surf_surface_revision f)) as [E|]; [|lia]. rewrite (He E) in Hpm. lia.
Qed.

(** *** Answers *)

Lemma emit_response s id v0 : is_Some (snapshot s) → triple (agrees s) (emit (Ev_Response id v0)) (λ _ v, agrees s v).
Proof.
  intros Hn. apply triple_emit. intros v [Hs Hc]. exists v. split; [|done]. apply sees_response; [by apply (sim_connected s)|].
  by rewrite (sim_snapshot _ _ Hs).
Qed.

Lemma requests_triple s p b pipeline (P : View → Prop) :
  (∀ v, P v → agrees s v) → assembled (with_requests s p b pipeline) ≤ MAX_RESPONSE_BYTES → triple P (out_ret (with_requests s p b pipeline)) agrees.
Proof. intros HP Ha. apply triple_ret. intros v Hv. apply (agrees_same s); [done..|by apply HP]. Qed.

Lemma handle_chunk_triple s boot_id id final data : triple (agrees s) (handle_chunk s boot_id id final data) agrees.
Proof.
  unfold handle_chunk. destruct (snapshot s) as [n|] eqn:Hn; [|apply triple_err]. destruct (negb _); [apply triple_err|].
  destruct (N.ltb_spec (MAX_RESPONSE_BYTES - assembled s) (lenN data)) as [|Hfit]; [apply triple_err|].
  apply (triple_fact (assembled s ≤ MAX_RESPONSE_BYTES)); [by intros v [[] _]|]. intros Ha.
  assert (is_Some (snapshot s)) as Hsn by (by rewrite Hn).
  assert (∀ p, pending s = Some p → triple (agrees s) (pending_chunk s p id final data) agrees) as Hpending.
  { intros p Hp. unfold pending_chunk. destruct final; cbn [negb].
    - apply triple_res. intros v0 _. eapply triple_bind; [by apply (emit_response s)|]. intros [].
      destruct (barrier s) as [b|] eqn:Hb.
      + destruct (b_held b) as [held|].
        * eapply triple_bind; [by apply (emit_response s)|]. intros []. apply requests_triple; [done|]. done.
        * apply requests_triple; [done|]. unfold assembled in *. cbn. rewrite Hb in Ha. lia.
      + apply requests_triple; [done|]. done.
    - apply requests_triple; [done|]. unfold assembled in *. cbn. rewrite Hp in *. unfold lenN in *. rewrite length_app. lia. }
  assert (∀ p, pending s = Some p → triple (agrees s) (if bool_decide (p_id p = id) then pending_chunk s p id final data else out_err UnsolicitedResponse) agrees)
    as Hpend by (intros p Hp; destruct (bool_decide _); [by apply Hpending|apply triple_err]).
  destruct (barrier s) as [b|] eqn:Hb; [|destruct (pending s); [by apply Hpend|apply triple_err]].
  destruct (awaits b id); [|destruct (pending s); [by apply Hpend|apply triple_err]].
  unfold barrier_chunk. destruct final; cbn [negb].
  - apply triple_res. intros v0 _. destruct (endpoint_busy v0).
    + apply requests_triple; [done|]. unfold assembled in *. cbn. rewrite Hb in Ha. clear -Ha. unfold lenN in *. destruct (pending s); cbn in *; lia.
    + destruct (is_some (pending s)).
      * apply requests_triple; [done|]. unfold assembled in *. cbn. rewrite Hb in *. clear -Ha Hfit. unfold lenN in *. rewrite length_app. destruct (pending s); cbn in *; lia.
      * eapply triple_bind; [by apply (emit_response s)|]. intros []. apply requests_triple; [done|]. unfold assembled in *. cbn. rewrite Hb in Ha. clear -Ha. unfold lenN in *. destruct (pending s); cbn in *; lia.
  - apply requests_triple; [done|]. unfold assembled in *. cbn. rewrite Hb in *. clear -Ha Hfit. unfold lenN in *. rewrite length_app. destruct (pending s); cbn in *; lia.
Qed.

Lemma triple_agrees {A} s (m : Out A) Q : triple (sim s) m Q → triple (agrees s) m Q.
Proof. apply triple_pre. by intros ? [? _]. Qed.

Lemma handle_control_triple s kind data : is_Some (welcome s) → triple (agrees s) (handle_control s kind data) agrees.
Proof.
  intros Hw. unfold handle_control. destruct (bool_decide (kind = ENDPOINT_SNAPSHOT_KIND)); [by apply handle_snapshot_triple|].
  destruct (bool_decide _); [|destruct (bool_decide _); [|destruct (bool_decide _); [|by apply triple_ret]]]; (destruct (negb _); [apply triple_err|]);
    apply triple_res; intros x Hx.
  - apply triple_agrees. apply patch_surface_triple. intros f. apply apply_scroll_total.
  - apply triple_agrees. apply rebuild_surface_triple. intros f. unfold from_protocol in Hx. destruct (delta_decode data) as [d|] eqn:E; [|done]. injection Hx as <-.
    by eapply delta_reconstruct_total.
  - apply triple_agrees. by apply rebuild_surface_triple.
Qed.

Lemma handle_welcome_triple now s m : welcome s = None → triple (agrees s) (handle_welcome now s m) agrees.
Proof.
  intros Hw. unfold handle_welcome. destruct m; try apply triple_err. destruct (negb _); [apply triple_err|].
  destruct (welcome_from_str _) as [w|]; [|apply triple_err]. apply triple_res. intros [] Hc.
  match goal with |- triple _ (out_bind _ (λ _, out_ret ?s')) _ => apply (triple_bind _ _ _ (λ _ v, agrees s' v)); [|by intros []; apply triple_ret] end.
  apply triple_emit. intros v [Hs Hcur]. eexists. split.
  - apply sees_connected; [by rewrite (sim_welcome _ _ Hs), Hw|]. unfold check_welcome in Hc.
    by destruct (N.eqb_spec (generation w) ENDPOINT_PROTOCOL_GENERATION).
  - split; [|exact Hcur]. destruct Hs. by split.
Qed.

Lemma handle_message_triple now s m : triple (agrees s) (handle_message now s m) agrees.
Proof.
  unfold handle_message. set (s' := with_health s _). eapply triple_pre.
  { intros v Hs. assert (agrees s' v) as H by (apply (agrees_same s); try done; apply Hs). exact H. }
  destruct (welcome s') as [w|] eqn:Hw; [|by apply handle_welcome_triple].
  assert (∀ other, triple (agrees s') (emit (Ev_Message other);; out_ret s') agrees) as Hother.
  { intros other. apply (triple_bind _ _ _ (λ _ v, agrees s' v)); [|by intros []; apply triple_ret].
    apply triple_emit. intros v [Hs Hcur]. exists v. split; [|done]. apply sees_message. by rewrite (sim_welcome _ _ Hs), Hw. }
  destruct m; try apply Hother.
  - apply triple_err.
  - apply triple_agrees. apply accept_surface_triple.
  - apply handle_chunk_triple.
  - apply triple_agrees. apply patch_surface_triple. intros f. apply apply_patch_total.
  - apply handle_control_triple. by rewrite Hw.
Qed.

Lemma agrees_new now active remote serials : agrees (session_new now active remote serials) view_new.
Proof.
  split; [|done]. split; try done. cbn. split; cbn; [done|by vm_compute|rewrite map_size_empty; lia|apply map_Forall_empty|].
  intros k k' i i' Hk. by rewrite lookup_empty in Hk.
Qed.

(** ** Requests and their answers *)

(** The answers delivered, and the requests that still wait, in order. *)
Definition responses (log : list ClientEvent) : list str := omap (λ e, match e with Ev_Response id _ => Some id | _ => None end) log.
Definition owed (s : Session) : list str := option_list (p_id <$> pending s) ++ option_list ((λ b, p_id (b_pending b)) <$> barrier s).

(** An activation that was answered early is only held behind a request. *)
Definition held_ok (s : Session) : Prop := ∀ b, barrier s = Some b → is_Some (b_held b) → is_Some (pending s) ∧ b_refused b = false.

(** The boot of a session does not change. *)
Definition same_boot (s s' : Session) : Prop :=
  ∀ n, snapshot s = Some n → ∃ n', snapshot s' = Some n' ∧ snap_boot_id n' = snap_boot_id n.

Lemma same_boot_at s s' : snapshot s' = snapshot s → same_boot s s'.
Proof. intros E n Hn. exists n. by rewrite E. Qed.

(** A handler that delivers no answer and leaves [Q]. *)
Definition quiet {A} (m : Out A) (Q : A → Prop) : Prop :=
  ∀ log log' r, m log = Some (log', r) → responses log' = responses log ∧ ∀ a, r = Ok a → Q a.

Lemma quiet_ret {A} (a : A) (Q : A → Prop) : Q a → quiet (out_ret a) Q.
Proof. intros HQ log log' r [= <- <-]. split; [done|]. by intros ? [= <-]. Qed.

Lemma quiet_err {A} e (Q : A → Prop) : quiet (out_err e) Q.
Proof. intros log log' r [= <- <-]. done. Qed.

Lemma quiet_bind {A B} (m : Out A) (f : A → Out B) R Q : quiet m R → (∀ a, R a → quiet (f a) Q) → quiet (out_bind m f) Q.
Proof.
  intros Hm Hf log log' r. unfold out_bind. destruct (m log) as [[l1 r1]|] eqn:E; [|done]. destruct (Hm _ _ _ E) as [E1 H1].
  destruct r1 as [a|e]; [|by intros [= <- <-]]. intros E2. destruct (Hf a (H1 a eq_refl) _ _ _ E2) as [E3 H3]. split; [congruence|done].
Qed.

Lemma quiet_res {A B} (x : res SessionError A) (f : A → Out B) Q : (∀ a, x = Ok a → quiet (f a) Q) → quiet (out_bind (out_res x) f) Q.
Proof. intros H. apply (quiet_bind _ _ (λ a, x = Ok a)); [|done]. intros log log' r [= <- <-]. by split; [|intros a ->]. Qed.

Lemma quiet_panic {A B} (x : option A) (f : A → Out B) Q : (∀ a, quiet (f a) Q) → quiet (out_bind (out_panic x) f) Q.
Proof. intros H. apply (quiet_bind _ _ (λ _, True)); [|done]. intros log log' r. unfold out_panic. destruct x; [|done]. by intros [= <- <-]. Qed.

Lemma responses_snoc log e : responses (log ++ [e]) = responses log ++ responses [e].
Proof. unfold responses. by rewrite omap_app. Qed.

Lemma quiet_emit e : responses [e] = [] → quiet (emit e) (λ _, True).
Proof.
  intros He log log' r. unfold emit. destruct (refused log); intros [= <- <-]; [done|]. by rewrite responses_snoc, He, app_nil_r.
Qed.

Lemma quiet_if {A} (b : bool) (m m' : Out A) Q : quiet m Q → quiet m' Q → quiet (if b then m else m') Q.
Proof. by destruct b. Qed.

(** What every handler but that of an answer leaves of a session. *)
Definition kept_requests (s s' : Session) : Prop := pending s' = pending s ∧ barrier s' = barrier s ∧ same_boot s s'.

Lemma kept_here s s' : pending s' = pending s → barrier s' = barrier s → snapshot s' = snapshot s → kept_requests s s'.
Proof. intros E1 E2 E3. split_and!; [done|done|]. intros n Hn. exists n. by rewrite E3. Qed.

Ltac quiet_step :=
  first [ apply quiet_err | apply quiet_res; intros | apply quiet_panic; intros
        | apply (quiet_bind _ _ (λ _, True)); [first [by apply quiet_emit | by apply quiet_if; [apply quiet_emit|apply quiet_ret]
             | by apply quiet_ret | idtac]|intros ? _] | apply quiet_ret ].

Lemma show_surface_quiet s0 s f : kept_requests s0 s → quiet (show_surface s f) (kept_requests s0).
Proof. intros Hk. unfold show_surface. do 4 quiet_step. destruct Hk as (E1 & E2 & E3). by split_and!. Qed.

Lemma accept_surface_quiet s next : quiet (accept_surface s next) (kept_requests s).
Proof.
  unfold accept_surface. destruct (snapshot s) as [n|] eqn:Hn; [|quiet_step]. destruct (_ || _); [quiet_step|].
  apply quiet_res. intros [] _. apply quiet_res. intros [] _. apply quiet_panic. intros [[[store serial] scene] changed].
  apply (quiet_bind _ _ (λ _, True)).
  { destruct (_ =? _); [|by apply quiet_ret]. intros log log' r. unfold out_panic. destruct (show store); [|done]. by intros [= <- <-]. }
  intros y _. do 3 quiet_step. by apply kept_here.
Qed.

Lemma patch_surface_quiet s apply : quiet (patch_surface s apply) (kept_requests s).
Proof.
  unfold patch_surface. destruct (surface s); [|quiet_step]. apply quiet_panic. intros x. apply quiet_res. intros _ _. unfold emit_patched.
  cbn [snapshot with_surface]. destruct (snapshot s) as [n|] eqn:Hn; [|by apply quiet_ret, kept_here].
  apply quiet_if; [by apply show_surface_quiet, kept_here|by apply quiet_ret, kept_here].
Qed.

Lemma rebuild_surface_quiet s rebuild : quiet (rebuild_surface s rebuild) (kept_requests s).
Proof.
  unfold rebuild_surface. destruct (surface s); [|quiet_step]. apply quiet_panic. intros x. apply quiet_res. intros next _. apply accept_surface_quiet.
Qed.

Lemma handle_snapshot_quiet s data : quiet (handle_snapshot s data) (kept_requests s).
Proof.
  unfold handle_snapshot. destruct (snapshot_from_str data) as [next|]; [|quiet_step]. destruct (_ || _) eqn:Hid; [quiet_step|].
  apply orb_false_iff in Hid as [_ Hid].
  assert (kept_requests s (with_snapshot s next)) as Hk.
  { split_and!; [done|done|]. intros n Hn. exists next. split; [done|]. rewrite Hn in Hid.
    by apply orb_false_iff in Hid as [?%negb_false_iff%bool_decide_eq_true _]. }
  quiet_step. cbn [surface with_snapshot]. destruct (surface s); [|by apply quiet_ret].
  apply quiet_if; [by apply show_surface_quiet|by apply quiet_ret].
Qed.

Lemma handle_control_quiet s kind data : quiet (handle_control s kind data) (kept_requests s).
Proof.
  unfold handle_control. apply quiet_if; [apply handle_snapshot_quiet|].
  repeat (apply quiet_if; [apply quiet_if; [apply quiet_err|apply quiet_res; intros x _; first [apply patch_surface_quiet|apply rebuild_surface_quiet]]|]).
  by apply quiet_ret, kept_here.
Qed.

Lemma handle_welcome_quiet now s m : quiet (handle_welcome now s m) (kept_requests s).
Proof.
  unfold handle_welcome. destruct m; try apply quiet_err. apply quiet_if; [apply quiet_err|]. destruct (welcome_from_str _); [|apply quiet_err].
  apply quiet_res. intros [] _. quiet_step. by apply quiet_ret, kept_here.
Qed.

(** The activation in flight is the one it was. *)
Definition same_barrier (s s' : Session) : Prop :=
  ∀ b', barrier s' = Some b' → ∃ b, barrier s = Some b ∧ b_request b' = b_request b ∧ p_id (b_pending b') = p_id (b_pending b)
    ∧ p_method (b_pending b') = p_method (b_pending b).

(** What handling a message does to the requests: some of those owed are
    answered, from the first on. *)
Definition answers (s : Session) (log log' : list ClientEvent) (r : res SessionError Session) : Prop :=
  ∃ more, responses log' = responses log ++ more ∧
    match r with
    | Ok s' => more ++ owed s' = owed s ∧ held_ok s' ∧ same_boot s s' ∧ same_barrier s s'
    | Err _ => more `prefix_of` owed s
    end.

Lemma quiet_answers s (m : Out Session) log log' r : held_ok s → quiet m (kept_requests s) → m log = Some (log', r) → answers s log log' r.
Proof.
  intros Hh Hq E. destruct (Hq _ _ _ E) as [Er HQ]. exists []. rewrite Er, app_nil_r. split; [done|]. destruct r as [s'|e]; [|apply prefix_nil].
  destruct (HQ s' eq_refl) as (E1 & E2 & E3). unfold owed, held_ok, same_barrier. rewrite E1, E2. split_and!; [done|done|done|]. intros b' Hb. by exists b'.
Qed.

Lemma emit_cases e log log' r : emit e log = Some (log', r) → (log' = log ∧ ∃ err, r = Err err) ∨ (log' = log ++ [e] ∧ r = Ok tt).
Proof. unfold emit. destruct (refused log); intros [= <- <-]; [left|right]; eauto. Qed.

Lemma responses_emit id v0 log : responses (log ++ [Ev_Response id v0]) = responses log ++ [id].
Proof. by rewrite responses_snoc. Qed.

Lemma pending_chunk_answers s p id final data log log' r :
  held_ok s → pending s = Some p → p_id p = id → pending_chunk s p id final data log = Some (log', r) → answers s log log' r.
Proof.
  intros Hh Hp Hid. unfold pending_chunk. destruct final; cbn [negb].
  2: { intros [= <- <-]. exists []. rewrite app_nil_r. split; [done|]. split_and!.
    - unfold owed. cbn. by rewrite Hp.
    - intros b Hb Hheld. destruct (Hh b Hb Hheld). split; [by eexists|done].
    - by apply same_boot_at.
    - intros b Hb. by exists b. }
  unfold out_bind at 1, out_res. destruct (read_response id _) as [v0|e]; [|intros [= <- <-]; exists []; rewrite app_nil_r; split; [done|apply prefix_nil]].
  unfold out_bind at 1. destruct (emit _ log) as [[l1 r1]|] eqn:E1; [|done]. destruct (emit_cases _ _ _ _ E1) as [[-> [err ->]]|[-> ->]].
  { intros [= <- <-]. exists []. rewrite app_nil_r. split; [done|apply prefix_nil]. }
  destruct (barrier s) as [b|] eqn:Hb; [destruct (b_held b) as [held|] eqn:Hheld|].
  - unfold out_bind. destruct (emit _ (log ++ _)) as [[l2 r2]|] eqn:E2; [|done]. destruct (emit_cases _ _ _ _ E2) as [[-> [err ->]]|[-> ->]]; intros [= <- <-].
    + exists [id]. rewrite responses_emit. split; [done|]. unfold owed. rewrite Hp. cbn. rewrite Hid. apply prefix_cons, prefix_nil.
    + exists [id; p_id (b_pending b)]. rewrite !responses_emit, <- app_assoc. split; [done|]. unfold owed. rewrite Hp, Hb. cbn. rewrite Hid. split_and!; [done|done|by apply same_boot_at|done].
  - intros [= <- <-]. exists [id]. rewrite responses_emit. split; [done|]. unfold owed. rewrite Hp. cbn. rewrite Hb, Hid. cbn. split_and!; [done| | |].
    + intros b0 [= <-]. rewrite Hheld. by intros [].
    + by apply same_boot_at.
    + intros b0 [= <-]. by exists b.
  - intros [= <- <-]. exists [id]. rewrite responses_emit. split; [done|]. unfold owed. rewrite Hp, Hb. cbn. rewrite Hid. split_and!; [done|done|by apply same_boot_at|done].
Qed.

Lemma barrier_chunk_answers s b id final data log log' r :
  held_ok s → barrier s = Some b → awaits b id = true → barrier_chunk s b id final data log = Some (log', r) → answers s log log' r.
Proof.
  intros Hh Hb Haw. unfold awaits in Haw. rewrite !andb_true_iff, bool_decide_eq_true, !negb_true_iff in Haw. destruct Haw as [[Hid Hheld] Href].
  assert (∀ p bs h f pl, p = pending s → (is_Some h → is_Some (pending s) ∧ f = false) →
    answers s log log (Ok (with_requests s p (Some (MkBarrier (with_bytes (b_pending b) bs) (b_request b) h f)) pl))) as Hsame.
  { intros p bs h f pl -> Hf. exists []. rewrite app_nil_r. split; [done|]. split_and!.
    - unfold owed. cbn. by rewrite Hb.
    - intros b0 [= <-]. cbn. exact Hf.
    - by apply same_boot_at.
    - intros b0 [= <-]. by exists b. }
  unfold barrier_chunk. destruct final; cbn [negb].
  2: { intros [= <- <-]. apply Hsame; [done|]. intros [v Hv]. by rewrite Hv in Hheld. }
  unfold out_bind at 1, out_res. destruct (read_response id _) as [v0|e]; [|intros [= <- <-]; exists []; rewrite app_nil_r; split; [done|apply prefix_nil]].
  destruct (endpoint_busy v0).
  { intros [= <- <-]. apply Hsame; [done|]. intros [v Hv]. by rewrite Hv in Hheld. }
  destruct (is_some (pending s)) eqn:Hp.
  { intros [= <- <-]. apply Hsame; [done|]. intros _. by destruct (pending s). }
  unfold out_bind. destruct (emit _ log) as [[l1 r1]|] eqn:E1; [|done]. destruct (emit_cases _ _ _ _ E1) as [[-> [err ->]]|[-> ->]]; intros [= <- <-].
  { exists []. rewrite app_nil_r. split; [done|apply prefix_nil]. }
  exists [id]. rewrite responses_emit. split; [done|]. unfold owed. cbn. rewrite Hb. destruct (pending s); [done|]. cbn. rewrite Hid. split_and!; [done|done|by apply same_boot_at|done].
Qed.

Lemma handle_message_answers now s m log log' r : held_ok s → handle_message now s m log = Some (log', r) → answers s log log' r.
Proof.
  intros Hh. unfold handle_message. set (s' := with_health s _). assert (held_ok s') as Hh' by exact Hh.
  assert (∀ m', quiet m' (kept_requests s') → m' log = Some (log', r) → answers s log log' r) as Hq.
  { intros m' Hm E. exact (quiet_answers s' m' log log' r Hh' Hm E). }
  destruct (welcome s'); [|apply Hq, handle_welcome_quiet].
  assert (∀ other, quiet (emit (Ev_Message other);; out_ret s') (kept_requests s')) as Hother
    by (intros other; quiet_step; by apply quiet_ret, kept_here).
  destruct m as [| | | | | | | | | | | | | | | | | |boot_id request_id final_chunk bytes| |]; try apply Hq, Hother.
  - apply Hq, quiet_err.
  - apply Hq, accept_surface_quiet.
  - unfold handle_chunk. destruct (match snapshot s' with Some _ => _ | None => _ end); [apply Hq, quiet_err|].
    destruct (_ <? _); [apply Hq, quiet_err|].
    assert (∀ p, pending s' = Some p →
      (if bool_decide (p_id p = request_id) then pending_chunk s' p request_id final_chunk bytes else out_err UnsolicitedResponse) log = Some (log', r) →
      answers s log log' r) as Hp.
    { intros p Hp. destruct (bool_decide_reflect (p_id p = request_id)); [|apply Hq, quiet_err]. by apply (pending_chunk_answers s'). }
    destruct (barrier s') as [b|] eqn:Hb; [destruct (awaits b request_id) eqn:Haw; [by apply (barrier_chunk_answers s')|]|];
      (destruct (pending s') as [p|] eqn:Hpp; [by apply Hp|apply Hq, quiet_err]).
  - apply Hq, patch_surface_quiet.
  - apply Hq, handle_control_quiet.
Qed.

End session.
End ClientSession.
