(* ===== verification/ClientWorker.v ===== *)
(** * ClientWorker: the thread that serves a connection to a generation-1 server
    (crates/sheprd-client/src/session.rs, session/barrier.rs, handle.rs, queue.rs
    and clipboard.rs)

    One thread writes commands in the order they were queued, pings a quiet
    link, reads frames and hands their messages to the session. Everything the
    thread asks of the rest of the world in one turn (the clock, the stop flag,
    what the socket takes and gives, whether an upload was published or
    cancelled) is an argument of that turn. *)

From Stdlib Require Import NArith Lia.
From stdpp Require Import base option strings list gmap sets.
From S2P Require Import Prelude Wire Codec Frame SurfaceScroll SurfaceDelta ClientFrame ClientImages ClientSession.

Local Open Scope N_scope.

Module ClientWorker.
Import Codec ClientFrame ClientSession.

Definition MAX_INTERLEAVED_INPUT_BYTES : N := 4 * 1024.
Definition COMMAND_CAPACITY : nat := 64.
(** The turns of a batch. *)
Definition BATCH : nat := 16.

(** [PendingRequest], [ImageSlot] without its shared parts, and [Command]; each
    command carries its place in the order of queueing. *)
Record PendingRequest := MkPendingRequest { r_id : str; r_method : Method }.
Record ImageSlot := MkImageSlot { reserved_at : N; writer : ImageWriter }.
Record Command := MkCommand {
  place : nat; c_boot_id : str; c_bytes : list N; input_pane : option str; request : option PendingRequest;
  image : option ImageSlot; written : ImageWriter }.

(** What a handle is asked to queue: a message, or a place for an upload, with
    the lease of images free or taken. *)
Inductive Sending :=
| Q_Message (boot : str) (m : ClientMessage) (request : option PendingRequest)
| Q_Upload (boot : str) (target : ClientClipboardImageTarget) (claim : option bool) (reserved : N).

Inductive SendError := SE_Disconnected | SE_MissingBootId | SE_Protocol (e : Codec.Error) | SE_Busy | SE_Full.

Definition pane_of (m : ClientMessage) : option str :=
  match m with CM_ClientShellPaneInput pane_id _ => Some pane_id | _ => None end.

(** [Command::started] and [Command::input_attempted]. *)
Definition command_started (c : Command) : bool :=
  (0 <? offset (written c))%nat || match image c with Some i => (0 <? offset (writer i))%nat | None => false end.
Definition input_attempted (c : Command) : bool := negb (is_some (image c)) && is_some (w_started (written c)).

(** [ImageSlot::deadline]. *)
Definition slot_deadline (i : ImageSlot) (published : bool) : option N :=
  if published then writer_deadline (writer i) else Some (reserved_at i + COMMAND_TIMEOUT).

(** [Pace]. *)
Record Pace := MkPace { idle_wait : N; pace_liveness : N; partial_frame : N }.
Definition pace_default : Pace := MkPace IDLE_WAIT LIVENESS_TIMEOUT TIMEOUT.

(** [wait_timeout]. *)
Definition wait_timeout (now cap : N) (deadlines : list (option N)) : N :=
  foldl N.min (now + cap) (omap id deadlines) - now.

Section worker.
Context {V : Type} {EJ : EndpointJson V} {B64 : SurfaceScroll.Base64} {BSM : Bincode ServerMessage} {BSD : Bincode SurfaceDelta}
  {RJ : ReuseJson} {HC : HeaderCodec} {BCM : Bincode ClientMessage}.

Abbreviation Session := (@Session V).
Abbreviation ClientEvent := (@ClientEvent V).

(** ** Handles *)

(** [ClientHandle::enqueue] and [reserve_clipboard]; [stopped] is the flag they
    look at. *)
Definition enqueue (stopped : bool) (place : nat) (q : Sending) : res SendError Command :=
  if stopped then Err SE_Disconnected
  else
    match q with
    | Q_Message boot m request =>
        if bool_decide (boot = []) then Err SE_MissingBootId
        else
          match encode_message m MAX_FRAME_SIZE with
          | Err e => Err (SE_Protocol e)
          | Ok bytes => Ok (MkCommand place boot bytes (pane_of m) request None writer_default)
          end
    | Q_Upload boot target claim reserved =>
        if bool_decide (boot = []) then Err SE_MissingBootId
        else
          match SurfaceDelta.validate_clipboard_image_target target with
          | Err e => Err (SE_Protocol e)
          | Ok _ =>
              if bool_decide (claim = Some false) then Err SE_Busy
              else Ok (MkCommand place boot [] None None (Some (MkImageSlot reserved writer_default)) writer_default)
          end
    end.

(** ** What a session says of commands and deadlines *)

(** [Session::handshake_deadline], [request_deadline], [deadline] and
    [check_timeouts]. *)
Definition handshake_deadline (s : Session) : option N := if is_some (snapshot s) then None else Some (started s + TIMEOUT).
Definition in_flight (s : Session) : list Pending := option_list (pending s) ++ option_list (b_pending <$> barrier s).
Definition earliest (l : list N) : option N := match l with [] => None | x :: l => Some (foldl N.min x l) end.
Definition request_deadline (s : Session) : option N := earliest ((λ p, p_started p + COMMAND_TIMEOUT) <$> in_flight s).
Definition session_deadline (s : Session) : option N := earliest (omap id [handshake_deadline s; request_deadline s]).

Definition due_by (now : N) (d : option N) : bool := match d with Some due => due <=? now | None => false end.

Definition check_timeouts (s : Session) (now : N) : res SessionError unit :=
  if due_by now (handshake_deadline s) then Err HandshakeTimeout
  else if due_by now (request_deadline s) then Err RequestTimeout
  else Ok tt.

(** [Session::rejection_reason]. *)
Definition rejection_reason (s : Session) (c : Command) : option SessionError :=
  if match snapshot s with Some n => negb (bool_decide (snap_boot_id n = c_boot_id c)) | None => true end then Some CommandBoot
  else
    match request c with
    | None => None
    | Some r =>
        if match welcome s with Some w => negb (advertised_in (r_method r) (methods w)) | None => true end then Some UnsupportedMethod
        else if bool_decide (r_method r = ClientShellSurfaceSet)
                && match welcome s with Some w => negb (supports_surface_interest w) | None => true end
        then Some UnsupportedSurfaceInterest
        else None
    end.

(** [FrameReader::has_current_surface_prefix]; [None] is a panic. *)
Definition current_prefix (r : FrameReader) (now : N) (n : ClientShellSnapshot) (f : PaneSurfaceFrame) : option bool :=
  if match reader_deadline r with Some due => now <? due | None => false end
     && (4 <? target r)%nat && (length (fr_bytes r) <? target r)%nat
  then
    if (4 <=? length (fr_bytes r))%nat then SurfaceDelta.has_current_surface_prefix (drop 4 (fr_bytes r)) n f else Some false
  else Some false.

(** [Session::permits_partial_input], off Windows. *)
Definition permits_partial_input (s : Session) (c : Command) (r : FrameReader) (now : N) : option bool :=
  if is_some (pending s) || is_some (barrier s) || is_some (request c) || is_some (image c)
     || (MAX_INTERLEAVED_INPUT_BYTES <? lenN (c_bytes c))
  then Some false
  else
    match snapshot s, surface s, input_pane c with
    | Some n, Some f, Some pane =>
        if negb (bool_decide (c_boot_id c = snap_boot_id n)) || is_some (surf_popup f)
           || negb (bool_decide (snap_focused_pane_id n = Some pane))
        then Some false
        else
          prefix ← current_prefix r now n f;
          if negb prefix then Some false
          else
            match snap_focused_tab_id n, snap_focused_workspace_id n with
            | Some tab, Some workspace =>
                Some (existsb (λ p, bool_decide (cpane_pane_id p = pane) && bool_decide (cpane_tab_id p = tab)
                                    && bool_decide (cpane_workspace_id p = workspace)) (snap_panes n)
                      && existsb (λ p, bool_decide (pane_pane_id p = pane)) (surf_panes f))
            | _, _ => Some false
            end
    | _, _, _ => Some false
    end.

(** [Session::input_writable]. *)
Definition input_writable (s : Session) (c : Command) (r : FrameReader) (now : N) : option bool :=
  if command_started c || negb (is_some (r_started r)) then Some true else permits_partial_input s c r now.

(** [Session::pipelines], [resend_ready] and [take_refused_barrier]. *)
Definition pipelines (s : Session) (c : Command) : bool :=
  pipeline_barriers s && negb (is_some (barrier s))
  && match request c with Some r => bool_decide (r_method r = ClientShellSurfaceSet) | None => false end
  && match pending s with
     | Some p => bool_decide (p_method p = PaneFocus) || bool_decide (p_method p = TabFocus) || bool_decide (p_method p = WorkspaceFocus)
     | None => false
     end.
Definition resend_ready (s : Session) : bool :=
  negb (is_some (pending s)) && match barrier s with Some b => b_refused b | None => false end.
Definition take_refused_barrier (s : Session) : Session * option (@Barrier V) :=
  if resend_ready s then (with_requests s (pending s) None (pipeline_barriers s), barrier s) else (s, None).

(** ** State *)

(** A frame on the wire. *)
Inductive Sent := Hello | Ping | Wrote (c : Command) | Resent (b : @Barrier V).

(** What became of a command that is no longer queued. *)
Inductive Fate := Written | Rejected (e : SessionError) | Skipped.

Record Worker := MkWorker {
  session : Session;
  reader : FrameReader;
  queued : option Command;
  channel : list Command;            (** the bounded queue *)
  events : list ClientEvent;         (** delivered so far *)
  wire : list N;                     (** every byte the socket took *)
  sent : list Sent;                  (** the frames that are whole on the wire *)
  done : list (Command * Fate);      (** the commands that left, in order *)
  accepted : list Sending            (** what was queued, in order *)
}.

Definition with_session (w : Worker) (s : Session) : Worker :=
  MkWorker s (reader w) (queued w) (channel w) (events w) (wire w) (sent w) (done w) (accepted w).
Definition with_queued (w : Worker) (c : option Command) : Worker :=
  MkWorker (session w) (reader w) c (channel w) (events w) (wire w) (sent w) (done w) (accepted w).
Definition with_reader (w : Worker) (r : FrameReader) : Worker :=
  MkWorker (session w) r (queued w) (channel w) (events w) (wire w) (sent w) (done w) (accepted w).
Definition with_events (w : Worker) (es : list ClientEvent) : Worker :=
  MkWorker (session w) (reader w) (queued w) (channel w) es (wire w) (sent w) (done w) (accepted w).
Definition took (w : Worker) (bytes : list N) : Worker :=
  MkWorker (session w) (reader w) (queued w) (channel w) (events w) (wire w ++ bytes) (sent w) (done w) (accepted w).
Definition frame_done (w : Worker) (f : Sent) : Worker :=
  MkWorker (session w) (reader w) (queued w) (channel w) (events w) (wire w) (sent w ++ [f]) (done w) (accepted w).
Definition left (w : Worker) (c : Command) (f : Fate) : Worker :=
  MkWorker (session w) (reader w) (queued w) (channel w) (events w) (wire w) (sent w) (done w ++ [(c, f)]) (accepted w).

(** [queue] and [CommandSender::try_send]: refused when full. *)
Definition try_send (w : Worker) (x : bool * Sending) : Worker * res SendError unit :=
  match enqueue x.1 (length (accepted w)) x.2 with
  | Err e => (w, Err e)
  | Ok c =>
      if (COMMAND_CAPACITY <=? length (channel w))%nat then (w, Err SE_Full)
      else (MkWorker (session w) (reader w) (queued w) (channel w ++ [c]) (events w) (wire w) (sent w) (done w) (accepted w ++ [x.2]), Ok tt)
  end.

(** ** One turn of a batch *)

(** Bytes an upload published, none yet, or that it is gone. *)
Inductive Upload := U_Published (bytes : list N) | U_Empty | U_Gone.

(** What one turn observes; [t_sends] was queued since the last. [t_all] is how much [write_all] wrote when it
    failed; [t_readable] what a poll of the socket answers. *)
Record Turn := MkTurn {
  t_sends : list (bool * Sending); t_now : N; t_stop : bool; t_readable : res SessionError bool; t_all : option nat; t_some : WriteOutcome;
  t_cancelled : bool; t_upload : Upload }.

(** How a turn ends: the next one, the end of the batch, or the end of the
    connection. *)
Inductive End := Continue | Break | Return (r : res SessionError unit).

(** [write_all] of one frame. *)
Definition write_all (w : Worker) (t : Turn) (bytes : list N) : Worker * bool :=
  match t_all t with
  | None => (took w bytes, true)
  | Some n => (took w (take n bytes), false)
  end.

(** A socket takes no more than it is offered. *)
Definition fit (wr : ImageWriter) (bytes : list N) (o : WriteOutcome) : WriteOutcome :=
  match o with W_Wrote n => W_Wrote (Nat.min n (length (default [] (offered wr bytes)))) | o => o end.

(** [write_input]: one bounded write of a command's input, and of an image. *)
Definition write_input (w : Worker) (t : Turn) (c : Command) : option (Worker * Command * res ClientError bool) :=
  '(wr, r) ← write_some (written c) (c_bytes c) (t_now t) (fit (written c) (c_bytes c) (t_some t));
  Some (took w (take (offset wr - offset (written c)) (drop (offset (written c)) (c_bytes c))),
        MkCommand (place c) (c_boot_id c) (c_bytes c) (input_pane c) (request c) (image c) wr, r).

Definition write_image (w : Worker) (t : Turn) (c : Command) (i : ImageSlot) : option (Worker * Command * res ClientError bool) :=
  '(wr, r) ← writer_poll (writer i) (c_bytes c) (t_now t) (fit (writer i) (c_bytes c) (t_some t));
  Some (took w (take (offset wr - offset (writer i)) (drop (offset (writer i)) (c_bytes c))),
        MkCommand (place c) (c_boot_id c) (c_bytes c) (input_pane c) (request c) (Some (MkImageSlot (reserved_at i) wr)) (written c), r).

(** What follows a bounded write: done, kept for later, or the end. *)
Definition bounded (x : option (Worker * Command * res ClientError bool)) (next : End) : option (Worker * End) :=
  '(w, c, r) ← x;
  Some (match r with
        | Err e => (w, Return (Err (Frame_ e)))
        | Ok true => (left (frame_done w (Wrote c)) c Written, next)
        | Ok false => (with_queued w (Some c), Break)
        end).

Context (refused : list ClientEvent → option SessionError).

(** [deliver]ing that a command was refused. *)
Definition reject (w : Worker) (c : Command) (id : option str) (reason : SessionError) : Worker * End :=
  match emit refused (Ev_CommandRejected id reason) (events w) with
  | Some (es, Ok _) => (left (with_events w es) c (Rejected reason), Continue)
  | Some (es, Err e) => (with_events w es, Return (Err e))
  | None => (w, Return (Err Io))
  end.

(** The part of a turn for an image that is not fenced. *)
Definition image_turn (w : Worker) (t : Turn) (c : Command) (i : ImageSlot) : option (Worker * End) :=
  if t_cancelled t then
    Some (if (0 <? offset (writer i))%nat then (w, Return (Err ClipboardCancelled)) else (left w c Skipped, Continue))
  else
    let write c := bounded (write_image w t c i) Break in
    match c_bytes c with
    | [] =>
        match t_upload t with
        | U_Published bytes => write (MkCommand (place c) (c_boot_id c) bytes (input_pane c) (request c) (image c) (written c))
        | U_Empty =>
            Some (if reserved_at i + COMMAND_TIMEOUT <=? t_now t then reject w c None PreparationTimeout
                  else (with_queued w (Some c), Break))
        | U_Gone => Some (left w c Skipped, Continue)
        end
    | _ => write c
    end.

(** A whole write, and the lease of a request. *)
Definition plain_turn (w : Worker) (t : Turn) (c : Command) : Worker * End :=
  let '(w, ok) := write_all w t (c_bytes c) in
  if negb ok then (w, Return (Err Io))
  else
    let w := left (frame_done w (Wrote c)) c Written in
    match request c with
    | None => (w, Continue)
    | Some r =>
        let p := MkPending (r_id r) (r_method r) [] (t_now t) in
        let s := session w in
        let s := if is_some (pending s) then with_requests s (pending s) (Some (MkBarrier p (c_bytes c) None false)) (pipeline_barriers s)
                 else with_requests s (Some p) (barrier s) (pipeline_barriers s) in
        (with_session w s, Continue)
    end.

(** A command taken from the queue. *)
Definition command_turn (w : Worker) (t : Turn) (c : Command) : option (Worker * End) :=
  let s := session w in
  let fenced := is_some (r_started (reader w)) in
  if t_stop t then Some (w, Return (Ok tt))
  else if negb (is_some (image c)) && command_started c then bounded (write_input w t c) Continue
  else
    held ← (if fenced && negb (command_started c) then
              permitted ← permits_partial_input s c (reader w) (t_now t);
              Some (if negb permitted then Ok true else t_readable t)
            else Some (Ok false));
    match held with
    | Err e => Some (w, Return (Err e))
    | Ok true => Some (with_queued w (Some c), Break)
    | Ok false =>
        match rejection_reason s c with
        | Some reason => Some (reject w c (r_id <$> request c) reason)
        | None =>
            if is_some (request c) && (is_some (pending s) || is_some (barrier s)) && negb (pipelines s c)
            then Some (with_queued w (Some c), Break)
            else
              match image c with
              | Some i => image_turn w t c i
              | None => if fenced || input_attempted c then bounded (write_input w t c) Continue else Some (plain_turn w t c)
              end
        end
    end.

(** The body of the batch's loop. *)
Definition turn (w : Worker) (t : Turn) : option (Worker * End) :=
  let w := foldl (λ w x, (try_send w x).1) w (t_sends t) in
  let busy := match queued w with Some c => command_started c || input_attempted c | None => false end in
  let '(s, b) := if negb (is_some (r_started (reader w))) && negb busy then take_refused_barrier (session w) else (session w, None) in
  match b with
  | Some b =>
      if t_stop t then Some (with_session w s, Return (Ok tt))
      else
        let '(w, ok) := write_all w t (b_request b) in
        Some (if negb ok then (with_session w s, Return (Err Io))
              else
                let p := MkPending (p_id (b_pending b)) (p_method (b_pending b)) (p_bytes (b_pending b)) (t_now t) in
                (with_session (frame_done w (Resent b)) (with_requests s (Some p) (barrier s) (pipeline_barriers s)), Continue))
  | None =>
      match queued w with
      | Some c => command_turn (with_queued w None) t c
      | None =>
          match channel w with
          | c :: rest =>
              command_turn (MkWorker (session w) (reader w) None rest (events w) (wire w) (sent w) (done w) (accepted w)) t c
          | [] => Some (w, Break)
          end
      end
  end.

(** At most [BATCH] turns. *)
Fixpoint batch (ts : list Turn) (w : Worker) : option (Worker * option (res SessionError unit)) :=
  match ts with
  | [] => Some (w, None)
  | t :: ts =>
      '(w, e) ← turn w t;
      match e with
      | Continue => batch ts w
      | Break => Some (w, None)
      | Return r => Some (w, Some r)
      end
  end.

(** ** One round of the connection's loop *)

(** A round's turns, and what else it observes. *)
Record Round := MkRound {
  rd_stop : bool; rd_now : N; rd_cancelled : bool; rd_liveness : bool; rd_ping : option nat; rd_turns : list Turn;
  rd_wait : res SessionError bool; rd_reads : N * list (ReadOutcome * N) }.

(** The checks before the batch. *)
Definition check_queued (w : Worker) (rd : Round) : res SessionError unit :=
  match queued w with
  | None => Ok tt
  | Some c =>
      if input_attempted c && due_by (rd_now rd) (writer_deadline (written c)) then Err InputWriteTimeout
      else
        match image c with
        | None => Ok tt
        | Some i =>
            if writer_timed_out (writer i) (rd_now rd) then Err (Frame_ WriteTimeout)
            else if (0 <? offset (writer i))%nat && rd_cancelled rd then Err ClipboardCancelled
            else Ok tt
        end
  end.

Definition busy_out (w : Worker) : bool :=
  match queued w with Some c => command_started c || input_attempted c | None => false end.

Definition ping_message : ClientMessage := CM_EndpointControl (lit "endpoint.health.ping.v1") [].

Definition health_turn (pace : Pace) (w : Worker) (rd : Round) : Worker * res SessionError unit :=
  match (if busy_out w then None else health (session w)) with
  | None => (w, Ok tt)
  | Some h =>
      let '(h, probed) := if rd_liveness rd then probe h (rd_now rd) (pace_liveness pace) else (h, false) in
      let '(h, r) := tick h (rd_now rd) in
      let w := with_session w (with_health (session w) (Some h)) in
      match r with
      | Err e => (w, Err e)
      | Ok due =>
          if due || probed then
            match encode_message ping_message MAX_FRAME_SIZE with
            | Err e => (w, Err (Protocol e))
            | Ok bytes =>
                match rd_ping rd with
                | None => (frame_done (took w bytes) Ping, Ok tt)
                | Some n => (took w (take n bytes), Err Io)
                end
            end
          else (w, Ok tt)
      end
  end.

(** What the loop waits for: whether for room to write, and how long. *)
Definition image_waits (w : Worker) : option (ImageSlot * bool) :=
  c ← queued w; i ← image c;
  if negb (is_some (r_started (reader w))) || (0 <? offset (writer i))%nat then Some (i, negb (SurfaceDelta.is_empty (c_bytes c))) else None.

Definition partial_image (w : Worker) : bool :=
  match queued w with Some c => match image c with Some i => (0 <? offset (writer i))%nat | None => false end | None => false end.

Definition input_waits (w : Worker) : option Command := c ← queued w; if input_attempted c then Some c else None.

Definition wait_writable (w : Worker) (now : N) : option bool :=
  ready ← match input_waits w with Some c => input_writable (session w) c (reader w) now | None => Some false end;
  Some (match image_waits w with Some (_, published) => published | None => false end || ready).

Definition wait_time (pace : Pace) (w : Worker) (now : N) (liveness : bool) : N :=
  let partial_out := partial_image w || is_some (input_waits w) in
  if (negb (is_some (queued w)) && negb (SurfaceDelta.is_empty (channel w)))
     || (negb partial_out && is_some (health (session w)) && liveness)
     || (negb partial_out && negb (is_some (r_started (reader w))) && resend_ready (session w))
  then 0
  else
    wait_timeout now (idle_wait pace)
      [session_deadline (session w); reader_deadline (reader w);
       (if partial_out then None else health_deadline <$> health (session w));
       ('(i, published) ← image_waits w; slot_deadline i published); (c ← input_waits w; writer_deadline (written c))].

(** The read and the message it finishes. *)
Definition read_turn (w : Worker) (rd : Round) : option (Worker * res SessionError unit) :=
  match rd_wait rd with
  | Err e => Some (w, Err e)
  | Ok false => Some (w, Ok tt)
  | Ok true =>
      let read := length (fr_bytes (reader w)) in
      let '(r, got) := poll_batch (M := ServerMessage) (reader w) (rd_reads rd).1 (rd_reads rd).2 in
      let w := with_reader w r in
      let s := session w in
      match got with
      | Err SocketClosed => Some (w, Err (if negb (is_some (welcome s)) && negb (remote s) then ClosedBeforeWelcome else Frame_ SocketClosed))
      | Err e => Some (w, Err (Frame_ e))
      | Ok None =>
          Some (if (read <? length (fr_bytes r))%nat
                then with_session w (with_health s ((λ h, health_received h (rd_now rd)) <$> health s)) else w, Ok tt)
      | Ok (Some m) =>
          '(es, res) ← handle_message refused (rd_now rd) s m (events w);
          let w := with_events w es in
          Some (match res with Ok s => (with_session w s, Ok tt) | Err e => (w, Err e) end)
      end
  end.

(** [run_connection]'s loop body; [Some r] is its result. *)
Definition round (pace : Pace) (w : Worker) (rd : Round) : option (Worker * option (res SessionError unit)) :=
  if rd_stop rd then Some (w, Some (Ok tt))
  else
    match check_timeouts (session w) (rd_now rd) with
    | Err e => Some (w, Some (Err e))
    | Ok _ =>
        match check_timeout (reader w) (rd_now rd) with
        | Err e => Some (w, Some (Err (Frame_ e)))
        | Ok _ =>
            match check_queued w rd with
            | Err e => Some (w, Some (Err e))
            | Ok _ =>
                let '(w, r) := health_turn pace w rd in
                match r with
                | Err e => Some (w, Some (Err e))
                | Ok _ =>
                    '(w, r) ← batch (take BATCH (rd_turns rd)) w;
                    match r with
                    | Some r => Some (w, Some r)
                    | None =>
                        '(w, r) ← read_turn w rd;
                        Some (w, match r with Ok _ => None | Err e => Some (Err e) end)
                    end
                end
            end
        end
    end.

(** A connection runs rounds until one ends it. *)
Fixpoint run (pace : Pace) (w : Worker) (rds : list Round) : option (Worker * option (res SessionError unit)) :=
  match rds with
  | [] => Some (w, None)
  | rd :: rds =>
      '(w, r) ← round pace w rd;
      match r with Some r => Some (w, Some r) | None => run pace w rds end
  end.

(** After the hello. *)
Definition worker_new (pace : Pace) (now : N) (active remote : bool) (serials : N) (hello : list N) : Worker :=
  MkWorker (session_new now active remote serials) (with_timeout (partial_frame pace)) None [] [] hello [Hello] [] [].

(** ** The order of commands and the frames on the wire *)

Context (hello : list N).

Definition bytes_of (f : Sent) : list N :=
  match f with
  | Hello => hello
  | Ping => match encode_message ping_message MAX_FRAME_SIZE with Ok bytes => bytes | Err _ => [] end
  | Wrote c => c_bytes c
  | Resent b => b_request b
  end.

(** The writer a command's frame goes through, and what it has written. *)
Definition out_writer (c : Command) : ImageWriter := match image c with Some i => writer i | None => written c end.
Definition part (c : Command) : list N := take (offset (out_writer c)) (c_bytes c).

(** A command is the one that was queued; an upload's bytes come later. *)
Definition stems (c : Command) (q : Sending) : Prop :=
  match q with
  | Q_Message boot m r =>
      c_boot_id c = boot ∧ encode_message m MAX_FRAME_SIZE = Ok (c_bytes c) ∧ input_pane c = pane_of m ∧ request c = r ∧ image c = None
  | Q_Upload boot _ _ reserved =>
      c_boot_id c = boot ∧ request c = None ∧ written c = writer_default ∧ ∃ i, image c = Some i ∧ reserved_at i = reserved
  end.
Definition queued_as (w : Worker) (c : Command) : Prop := ∃ q, accepted w !! place c = Some q ∧ stems c q.

Definition wrote (f : Sent) : option Command := match f with Wrote c => Some c | _ => None end.
Definition written_of (d : list (Command * Fate)) : list Command := omap (λ x, match x.2 with Written => Some x.1 | _ => None end) d.

(** The requests written, in order. *)
Definition requested (fs : list Sent) : list str := omap (λ f, c ← wrote f; r_id <$> request c) fs.

(** A resent frame is one that was written before, unchanged. *)
Definition resend_of (fs : list Sent) (b : @Barrier V) : Prop :=
  p_method (b_pending b) = ClientShellSurfaceSet ∧
  ∃ c r, Wrote c ∈ fs ∧ request c = Some r ∧ r_id r = p_id (b_pending b) ∧ c_bytes c = b_request b.

Record inv (w : Worker) : Prop := MkInv {
  i_order : ((place ∘ fst) <$> done w) ++ (place <$> option_list (queued w)) ++ (place <$> channel w) = seq 0 (length (accepted w));
  i_stems : Forall (queued_as w) ((done w).*1 ++ option_list (queued w) ++ channel w);
  i_fresh : Forall (λ c, out_writer c = writer_default ∧ written c = writer_default) (channel w);
  i_wire : wire w = concat (bytes_of <$> sent w) ++ match queued w with Some c => part c | None => [] end;
  i_offset : ∀ c, queued w = Some c → (offset (out_writer c) ≤ length (c_bytes c))%nat;
  i_started : ∀ c, queued w = Some c → command_started c = true → rejection_reason (session w) c = None ∧ request c = None;
  i_attempt : ∀ c, queued w = Some c → input_attempted c = true → request c = None;
  i_sent : omap wrote (sent w) = written_of (done w);
  i_requests : requested (sent w) = responses (events w) ++ owed (session w);
  i_held : held_ok (session w);
  i_barrier : ∀ b, barrier (session w) = Some b → resend_of (sent w) b;
  i_resent : ∀ b, Resent b ∈ sent w → resend_of (sent w) b;
  i_view : ∃ v, seen (events w) v ∧ agrees (session w) v
}.

(** The frame that was being written when a connection ended. *)
Definition next_frame (w : Worker) (f : Sent) : Prop :=
  match f with
  | Hello => False
  | Ping => True
  | Wrote c => place c = length (done w) ∧ queued_as w c
  | Resent b => resend_of (sent w) b
  end.

(** What holds of a connection that ended, too. *)
Record over (w : Worker) : Prop := MkOver {
  o_order : (place ∘ fst) <$> done w = seq 0 (length (done w));
  o_stems : Forall (queued_as w) (done w).*1;
  o_wire : ∃ f p, wire w = concat (bytes_of <$> sent w) ++ p ∧ p `prefix_of` bytes_of f ∧ next_frame w f;
  o_sent : omap wrote (sent w) = written_of (done w);
  o_requests : responses (events w) `prefix_of` requested (sent w);
  o_resent : ∀ b, Resent b ∈ sent w → resend_of (sent w) b;
  o_view : ∃ v, seen (events w) v
}.

Lemma seq_split_first (l k : list nat) n m : l ++ k = seq n m → l = seq n (length l) ∧ (length l ≤ m)%nat.
Proof.
  intros E. assert (length l ≤ m)%nat as Hl by (apply (f_equal length) in E; rewrite length_app, length_seq in E; lia). split; [|done].
  apply (f_equal (take (length l))) in E. rewrite take_app_length, take_seq in E. etrans; [exact E|]. f_equal. lia.
Qed.

Lemma inv_over w : inv w → over w.
Proof.
  intros []. split; try done.
  - apply seq_split_first in i_order0 as [-> _]. by rewrite length_fmap.
  - by apply Forall_app in i_stems0 as [? _].
  - destruct (queued w) as [c|] eqn:Hq.
    + exists (Wrote c), (part c). split_and!; [done| |].
      * exists (drop (offset (out_writer c)) (c_bytes c)). symmetry. apply take_drop.
      * split; [|apply Forall_app in i_stems0 as [_ Hs]; by inversion Hs].
        apply (f_equal (lookup (length (done w)))) in i_order0. rewrite lookup_app_r in i_order0 by (by rewrite length_fmap).
        rewrite length_fmap, Nat.sub_diag in i_order0. cbn in i_order0. symmetry in i_order0. by apply lookup_seq in i_order0 as [-> _].
    + exists Ping, []. split_and!; [done|apply prefix_nil|done].
  - rewrite i_requests0. by apply prefix_app_r.
  - destruct i_view0 as (v & Hv & _). by exists v.
Qed.

(** *** A command in hand *)

Lemma with_queued_none w : queued w = None → with_queued w None = w.
Proof. by destruct w; cbn; intros ->. Qed.

Lemma rejection_same s s' c : snapshot s' = snapshot s → welcome s' = welcome s → rejection_reason s' c = rejection_reason s c.
Proof. intros E1 E2. unfold rejection_reason. by rewrite E1, E2. Qed.

Lemma rejection_like s c c' : c_boot_id c' = c_boot_id c → request c' = request c → rejection_reason s c' = rejection_reason s c.
Proof. intros E1 E2. unfold rejection_reason. by rewrite E1, E2. Qed.

(** A command without a request is refused only for its boot, which stays. *)
Lemma rejection_kept s s' c : same_boot s s' → request c = None → rejection_reason s c = None → rejection_reason s' c = None.
Proof.
  intros Hb Hr. unfold rejection_reason. rewrite Hr. destruct (snapshot s) as [n|] eqn:Hn; [|done].
  destruct (Hb n Hn) as (n' & -> & ->). done.
Qed.

Lemma part_not_started c : command_started c = false → part c = [].
Proof.
  unfold command_started, part, out_writer. destruct (image c) as [i|]; intros H.
  - apply orb_false_iff in H as [_ H%Nat.ltb_ge]. assert (offset (writer i) = 0%nat) as -> by lia. done.
  - apply orb_false_iff in H as [H%Nat.ltb_ge _]. assert (offset (written c) = 0%nat) as -> by lia. done.
Qed.

(** A command that leaves without a byte on the wire. *)
Lemma retire_skip w c fate :
  inv (with_queued w (Some c)) → queued w = None → part c = [] → fate ≠ Written → inv (left w c fate).
Proof.
  intros [] Hq Hp Hf. split; cbn [left queued channel events wire sent done accepted session reader with_queued] in *; rewrite ?Hq; try done.
  - rewrite fmap_app, <- app_assoc. exact i_order0.
  - rewrite fmap_app, <- app_assoc. exact i_stems0.
  - by rewrite Hp in i_wire0.
  - rewrite i_sent0. unfold written_of. rewrite omap_app. cbn. destruct fate; by rewrite ?app_nil_r.
Qed.

Lemma resend_more fs f b : resend_of fs b → resend_of (fs ++ [f]) b.
Proof. intros (Hm & c & r & H1 & H2). split; [done|]. exists c, r. rewrite elem_of_app. auto. Qed.

(** A command whose frame is now whole; the session takes note of a request. *)
Lemma retire_frame w c c' bytes s' :
  inv (with_queued w (Some c)) → queued w = None → place c' = place c → queued_as w c' → part c ++ bytes = c_bytes c' →
  owed s' = owed (session w) ++ option_list (r_id <$> request c') → held_ok s' →
  (∀ b, barrier s' = Some b → resend_of (sent w ++ [Wrote c']) b) → (∀ v, agrees (session w) v → agrees s' v) →
  inv (with_session (left (frame_done (took w bytes) (Wrote c')) c' Written) s').
Proof.
  intros [] Hq Hpl Hst Hp Ho Hh Hb Ha.
  split; cbn [left queued channel events wire sent done accepted session reader with_queued with_session frame_done took] in *; rewrite ?Hq; try done.
  - rewrite fmap_app, <- app_assoc. cbn. rewrite Hpl. exact i_order0.
  - rewrite fmap_app, <- app_assoc. cbn. apply Forall_app in i_stems0 as [H1 H2]. apply Forall_app. split; [exact H1|].
    inversion H2; subst. constructor; [exact Hst|done].
  - rewrite i_wire0, fmap_app, concat_app, <- app_assoc, Hp. cbn. by rewrite !app_nil_r.
  - unfold written_of. rewrite !omap_app. cbn. by rewrite i_sent0.
  - unfold requested in *. rewrite omap_app, i_requests0, Ho, <- app_assoc. done.
  - intros b [Hb'|Hb'%list_elem_of_singleton]%elem_of_app; [|done]. by apply resend_more, i_resent0.
  - destruct i_view0 as (v & Hv & Hg). exists v. auto.
Qed.

Lemma retire_written w c c' bytes :
  inv (with_queued w (Some c)) → queued w = None → place c' = place c → queued_as w c' → part c ++ bytes = c_bytes c' → request c' = None →
  inv (left (frame_done (took w bytes) (Wrote c')) c' Written).
Proof.
  intros Hi Hq Hpl Hst Hp Hr. apply (retire_frame w c c' bytes (session w)); try done.
  - by rewrite Hr, app_nil_r.
  - apply Hi.
  - intros b Hb. by apply resend_more, (i_barrier _ Hi).
Qed.

(** A command with more of its frame on the wire. *)
Lemma keep_writing w c c' bytes :
  inv (with_queued w (Some c)) → queued w = None → place c' = place c → queued_as w c' → part c ++ bytes = part c' →
  (offset (out_writer c') ≤ length (c_bytes c'))%nat → rejection_reason (session w) c' = None → request c' = None →
  inv (with_queued (took w bytes) (Some c')).
Proof.
  intros [] Hq Hpl Hst Hp Ho Hrej Hr. split; cbn [queued channel events wire sent done accepted session reader with_queued took] in *; try done.
  - cbn in *. by rewrite Hpl.
  - apply Forall_app in i_stems0 as [H1 H2]. apply Forall_app. split; [exact H1|]. inversion H2; subst. constructor; [exact Hst|done].
  - by rewrite i_wire0, <- app_assoc, Hp.
  - by intros ? [= <-].
  - by intros ? [= <-].
  - by intros ? [= <-].
Qed.

(** *** Bounded writes *)

Definition fine (x : option (Worker * End)) : Prop := ∃ w e, x = Some (w, e) ∧ match e with Return _ => over w | _ => inv w end.

Lemma fine_intro w e : match e with Return _ => over w | _ => inv w end → fine (Some (w, e)).
Proof. intros H. by exists w, e. Qed.

Lemma over_same w w' :
  done w' = done w → accepted w' = accepted w → wire w' = wire w → sent w' = sent w → events w' = events w → over w → over w'.
Proof.
  intros E1 E2 E3 E4 E5 []. split; rewrite ?E1, ?E3, ?E4, ?E5; try done.
  - unfold queued_as. rewrite E2. done.
  - destruct o_wire0 as (f & p & H1 & H2 & H3). exists f, p. split_and!; [done|done|]. unfold next_frame, queued_as in *. rewrite E1, E2, E4. done.
Qed.

Lemma write_some_fit wr bytes now o : (offset wr ≤ length bytes)%nat →
  ∃ wr' r, write_some wr bytes now (fit wr bytes o) = Some (wr', r) ∧ (offset wr ≤ offset wr' ≤ length bytes)%nat ∧
    (∀ b, r = Ok b → b = (offset wr' =? length bytes)%nat) ∧ (∀ e, r = Err e → offset wr' = offset wr).
Proof.
  intros Hle. assert (∃ l, offered wr bytes = Some l ∧ (offset wr + length l ≤ length bytes)%nat) as (l & El & Hl).
  { unfold offered, slice. set (b := Nat.min (length bytes) (offset wr + CHUNK)).
    assert (offset wr ≤ b ≤ length bytes)%nat as [H1 H2] by (unfold b; lia).
    rewrite (proj2 (Nat.leb_le _ _) H1), (proj2 (Nat.leb_le _ _) H2). eexists. split; [done|]. rewrite length_take, length_drop. lia. }
  unfold write_some. rewrite El. cbn [mbind option_bind]. unfold fit. rewrite El. change (default [] (Some l)) with l.
  destruct o as [n| |].
  - destruct (Nat.min n (length l)) as [|m] eqn:Em.
    + eexists _, _. split; [done|]. cbn. split_and!; [lia|lia|done|done].
    + eexists _, _. split; [done|]. cbn [offset]. split_and!; [lia|lia| |done]. by intros b [= <-].
  - eexists _, _. split; [done|]. cbn [offset]. split_and!; [lia|lia| |done]. by intros b [= <-].
  - eexists _, _. split; [done|]. cbn. split_and!; [lia|lia|done|done].
Qed.

Lemma writer_poll_fit wr bytes now o : (offset wr ≤ length bytes)%nat →
  ∃ wr' r, writer_poll wr bytes now (fit wr bytes o) = Some (wr', r) ∧ (offset wr ≤ offset wr' ≤ length bytes)%nat ∧
    (∀ b, r = Ok b → b = (offset wr' =? length bytes)%nat) ∧ (∀ e, r = Err e → offset wr' = offset wr).
Proof.
  intros Hle. unfold writer_poll. destruct (writer_timed_out _ _); [|by apply write_some_fit].
  eexists _, _. split; [done|]. split_and!; [lia|lia|done|done].
Qed.

(** The bytes a writer moved over follow what it had written. *)
Lemma moved (bytes : list N) a b : (a ≤ b)%nat → take a bytes ++ take (b - a) (drop a bytes) = take b bytes.
Proof. intros H. rewrite <- (take_drop a (take b bytes)), take_take, skipn_firstn_comm. do 2 f_equal. lia. Qed.

(** After one bounded write, of input or of an image. *)
Lemma bounded_fine w c c' next bytes wr (r : res ClientError bool) :
  inv (with_queued w (Some c)) → queued w = None → place c' = place c → queued_as w c' → c_bytes c' = c_bytes c → c_boot_id c' = c_boot_id c →
  request c' = None → request c = None → rejection_reason (session w) c = None → out_writer c' = wr →
  bytes = take (offset wr - offset (out_writer c)) (drop (offset (out_writer c)) (c_bytes c)) →
  (offset (out_writer c) ≤ offset wr ≤ length (c_bytes c))%nat →
  (∀ b, r = Ok b → b = (offset wr =? length (c_bytes c))%nat) → (∀ e, r = Err e → offset wr = offset (out_writer c)) →
  (∀ r, next ≠ Return r) →
  fine (bounded (Some (took w bytes, c', r)) next).
Proof.
  intros Hi Hq Hpl Hst Hb Hboot Hr' Hr Hrej Hw -> [Hlo Hhi] Hok Herr Hnext. unfold bounded. cbn [mbind option_bind].
  assert (part c ++ take (offset wr - offset (out_writer c)) (drop (offset (out_writer c)) (c_bytes c)) = take (offset wr) (c_bytes c)) as Hp
    by (by apply moved).
  destruct r as [[]|e].
  - specialize (Hok true eq_refl). symmetry in Hok. apply Nat.eqb_eq in Hok. apply fine_intro.
    assert (inv (left (frame_done (took w (take (offset wr - offset (out_writer c)) (drop (offset (out_writer c)) (c_bytes c)))) (Wrote c')) c' Written)) as H.
    { apply (retire_written w c); [done..| |done]. rewrite Hp, Hb, Hok. apply firstn_all. }
    destruct next; [done|done|by destruct (Hnext r)].
  - apply fine_intro. apply (keep_writing w c); [done..| | | |done].
    + rewrite Hp. unfold part. by rewrite Hw, Hb.
    + by rewrite Hw, Hb.
    + rewrite (rejection_like _ c); [done|done|congruence].
  - apply fine_intro. rewrite (Herr e eq_refl), Nat.sub_diag. cbn. apply (over_same (with_queued w (Some c))); try done; [|by apply inv_over].
    cbn. by rewrite app_nil_r.
Qed.

Lemma inv_in_hand w c : inv (with_queued w (Some c)) → queued_as w c ∧ (offset (out_writer c) ≤ length (c_bytes c))%nat.
Proof.
  intros []. split; [|by apply i_offset0]. apply Forall_app in i_stems0 as [_ H]. by inversion H.
Qed.

Lemma image_upload w c i : queued_as w c → image c = Some i → request c = None ∧ written c = writer_default.
Proof. intros (q & _ & Hs) Hi. destruct q; cbn in Hs; [|naive_solver]. destruct Hs as (_ & _ & _ & _ & H). congruence. Qed.

Lemma write_input_fine w t c next :
  inv (with_queued w (Some c)) → queued w = None → image c = None → request c = None → rejection_reason (session w) c = None →
  (∀ r, next ≠ Return r) → fine (bounded (write_input w t c) next).
Proof.
  intros Hi Hq Him Hr Hrej Hn. destruct (inv_in_hand _ _ Hi) as [(q & Hacc & Hst) Ho]. unfold out_writer in Ho. rewrite Him in Ho.
  destruct (write_some_fit (written c) (c_bytes c) (t_now t) (t_some t) Ho) as (wr & r & E & Hb & Hok & Herr).
  unfold write_input. rewrite E. cbn [mbind option_bind].
  eapply (bounded_fine w c _ next _ wr r Hi Hq); try done; unfold out_writer; rewrite ?Him; try done.
  exists q. split; [done|]. destruct q; [by destruct Hst as (? & ? & ? & ? & ?)|]. destruct Hst as (_ & _ & _ & i & H & _). congruence.
Qed.

Lemma write_image_fine w t c i :
  inv (with_queued w (Some c)) → queued w = None → image c = Some i → rejection_reason (session w) c = None →
  fine (bounded (write_image w t c i) Break).
Proof.
  intros Hi Hq Him Hrej. destruct (inv_in_hand _ _ Hi) as [Hst Ho]. destruct (image_upload _ _ _ Hst Him) as [Hr Hwr].
  unfold out_writer in Ho. rewrite Him in Ho.
  destruct (writer_poll_fit (writer i) (c_bytes c) (t_now t) (t_some t) Ho) as (wr & r & E & Hb & Hok & Herr).
  unfold write_image. rewrite E. cbn [mbind option_bind].
  eapply (bounded_fine w c _ Break _ wr r Hi Hq); try done; unfold out_writer; rewrite ?Him; try done.
  destruct Hst as (q & Hacc & Hst). exists q. split; [done|]. destruct q; [destruct Hst as (_ & _ & _ & _ & H); congruence|].
  destruct Hst as (H1 & H2 & H3 & i' & H4 & H5). split_and!; [done|done|done|]. rewrite Him in H4. injection H4 as <-. by eexists.
Qed.

(** *** The turns *)

Lemma reject_fine w c id reason : inv (with_queued w (Some c)) → queued w = None → part c = [] → fine (Some (reject w c id reason)).
Proof.
  intros Hi Hq Hp. unfold reject, emit. destruct (refused (events w)) as [err|] eqn:E.
  { apply fine_intro. by apply (over_same (with_queued w (Some c))); [..|apply inv_over]. }
  apply fine_intro. apply retire_skip; [|done|done|done]. destruct Hi. split; try done.
  - cbn [sent events session with_queued with_events] in *. by rewrite responses_snoc, app_nil_r.
  - cbn in *. destruct i_view0 as (v & Hv & Ha). exists v. split; [|done]. eapply seen_snoc; [done|apply sees_rejected].
Qed.

Lemma published_inv w c i bytes : inv (with_queued w (Some c)) → queued w = None → image c = Some i → c_bytes c = [] →
  inv (with_queued w (Some (MkCommand (place c) (c_boot_id c) bytes (input_pane c) (request c) (image c) (written c)))).
Proof.
  intros Hi Hq Him Hb. destruct (inv_in_hand _ _ Hi) as [Hst Ho]. unfold out_writer in Ho. rewrite Him, Hb in Ho. cbn in Ho.
  pose proof Hi as []. split; cbn [queued channel events wire sent done accepted session reader with_queued] in *; try done.
  - apply Forall_app in i_stems0 as [H1 H2]. apply Forall_app. split; [exact H1|]. inversion H2; subst. constructor; [|done].
    destruct Hst as (q & Hacc & Hst). exists q. split; [done|]. destruct q; [destruct Hst as (_ & _ & _ & _ & H); congruence|].
    destruct Hst as (S1 & S2 & S3 & i' & S4 & S5). split_and!; [done|done|done|]. by exists i'.
  - rewrite i_wire0. f_equal. unfold part, out_writer. cbn. rewrite Him, Hb. assert (offset (writer i) = 0%nat) as -> by lia. by destruct bytes.
  - intros ? [= <-]. unfold out_writer. cbn. rewrite Him. lia.
  - intros ? [= <-] Hs. unfold command_started in Hs. cbn in Hs. destruct (image_upload _ _ _ Hst Him) as [Hr Hwr]. rewrite Hwr, Him in Hs. cbn in Hs.
    assert (offset (writer i) = 0%nat) as E by lia. by rewrite E in Hs.
  - intros ? [= <-] Hs. unfold input_attempted in Hs. cbn in Hs. by rewrite Him in Hs.
Qed.

Lemma image_turn_fine w t c i :
  inv (with_queued w (Some c)) → queued w = None → image c = Some i → rejection_reason (session w) c = None → fine (image_turn w t c i).
Proof.
  intros Hi Hq Him Hrej. unfold image_turn. destruct (t_cancelled t).
  { destruct (Nat.ltb_spec 0 (offset (writer i))); apply fine_intro.
    - by apply (over_same (with_queued w (Some c))); [..|apply inv_over].
    - apply retire_skip; [done|done| |done]. unfold part, out_writer. rewrite Him. assert (offset (writer i) = 0%nat) as -> by lia. done. }
  destruct (c_bytes c) as [|b bs] eqn:Hb; [|by apply write_image_fine].
  assert (part c = []) as Hp by (unfold part; rewrite Hb; apply take_nil).
  destruct (t_upload t) as [bytes| |].
  - apply write_image_fine; [by apply (published_inv w c i)|done|done|]. rewrite (rejection_like _ c); done.
  - destruct (_ <=? _); [by apply reject_fine|]. by apply fine_intro.
  - apply fine_intro. by apply retire_skip.
Qed.

Lemma over_cut w c n : inv (with_queued w (Some c)) → part c = [] → over (took w (take n (c_bytes c))).
Proof.
  intros Hi Hp. pose proof (inv_over _ Hi) as []. split; try done. exists (Wrote c), (take n (c_bytes c)). split_and!.
  - pose proof (i_wire _ Hi) as Hw. cbn [wire queued sent with_queued] in Hw. cbn [wire sent took]. by rewrite Hw, Hp, app_nil_r.
  - exists (drop n (c_bytes c)). symmetry. apply take_drop.
  - destruct (inv_in_hand _ _ Hi) as [Hst _]. split; [|done]. pose proof (i_order _ Hi) as Ho. cbn in Ho.
    apply (f_equal (lookup (length (done w)))) in Ho. rewrite lookup_app_r in Ho by (by rewrite length_fmap).
    rewrite length_fmap, Nat.sub_diag in Ho. cbn in Ho. symmetry in Ho. by apply lookup_seq in Ho as [-> _].
Qed.

(** The lease is free, or the command is an activation behind a focus. *)
Definition may_send (s : Session) (c : Command) : Prop :=
  is_Some (request c) → (pending s = None ∧ barrier s = None) ∨ pipelines s c = true.

Lemma plain_turn_fine w t c :
  inv (with_queued w (Some c)) → queued w = None → part c = [] → may_send (session w) c → fine (Some (plain_turn w t c)).
Proof.
  intros Hi Hq Hp Hm. destruct (inv_in_hand _ _ Hi) as [Hst _]. unfold plain_turn, write_all.
  destruct (t_all t) as [n|]; cbn [negb]; [apply fine_intro; by apply over_cut|].
  destruct (request c) as [r|] eqn:Hr; cbn [session left frame_done took].
  2: { apply fine_intro. apply (retire_written w c); try done. by rewrite Hp. }
  apply fine_intro. apply (retire_frame w c); try done; rewrite ?Hp, ?Hr; try done.
  - destruct (Hm (mk_is_Some _ _ Hr)) as [[Hpn Hbn]|Hpipe].
    + rewrite Hpn. unfold owed. cbn. by rewrite Hbn, Hpn.
    + unfold pipelines in Hpipe. destruct (pending (session w)) as [p|] eqn:Hpp; [|by rewrite andb_false_r in Hpipe].
      destruct (barrier (session w)) eqn:Hbb; [by rewrite andb_false_r in Hpipe|]. unfold owed. cbn. by rewrite Hpp, Hbb.
  - destruct (is_some (pending (session w))) eqn:E; intros b Hb Hheld; cbn in Hb; [injection Hb as <-; by destruct Hheld|].
    destruct (i_held _ Hi b Hb Hheld) as [H _]. cbn in H. by destruct (pending (session w)).
  - destruct (is_some (pending (session w))) eqn:E; intros b Hb; cbn in Hb; [|by apply resend_more, (i_barrier _ Hi)].
    injection Hb as <-. destruct (Hm (mk_is_Some _ _ Hr)) as [[Hpn _]|Hpipe]; [by rewrite Hpn in E|].
    unfold pipelines in Hpipe. rewrite Hr, !andb_true_iff, bool_decide_eq_true in Hpipe. destruct Hpipe as [[_ Hmeth] _]. split; [done|].
    exists c, r. split_and!; [set_solver|done|done|done].
  - intros v Hv. pose proof (sim_assembled _ _ (proj1 Hv)) as Has. destruct (is_some (pending (session w))) eqn:E; apply (agrees_same (session w)); try done.
    + destruct (Hm (mk_is_Some _ _ Hr)) as [[Hpn _]|Hpipe]; [by rewrite Hpn in E|]. unfold pipelines in Hpipe.
      destruct (barrier (session w)) eqn:Hbb; [by rewrite andb_false_r in Hpipe|]. unfold assembled in *. cbn. rewrite Hbb in Has. done.
    + unfold assembled in *. cbn. destruct (pending (session w)); done.
Qed.

Lemma slice_head {A} (l : list A) n : slice 0 (length l `min` n) l = Some (take (length l `min` n) l).
Proof. unfold slice. rewrite (proj2 (Nat.leb_le _ _)), (proj2 (Nat.leb_le _ _)) by lia. cbn [andb]. by rewrite Nat.sub_0_r, drop_0. Qed.

Lemma slice_tail {A} (l : list A) a : (a ≤ length l)%nat → is_Some (slice a (length l) l).
Proof. intros H. unfold slice. by rewrite (proj2 (Nat.leb_le _ _) H), (proj2 (Nat.leb_le _ _)) by lia. Qed.

Lemma current_prefix_total r now n f : is_Some (current_prefix r now n f).
Proof.
  unfold current_prefix, SurfaceDelta.has_current_surface_prefix. destruct (_ && _); [|done]. destruct (_ <=? _)%nat; [|done].
  set (payload := drop 4 (fr_bytes r)). destruct (_ || _); [done|].
  rewrite slice_head. cbn [mbind option_bind]. destruct (header_decode _) as [[[[[tag boot] proj] rev] used]|] eqn:Eh; [|done].
  apply header_used in Eh. destruct (_ || _); [done|]. destruct (tag =? SURFACE_TAG); [done|]. destruct (tag =? PATCH_TAG); [|done].
  destruct (slice_tail _ _ Eh) as [rest ->]. cbn [mbind option_bind]. by destruct (revision_decode _) as [[??]|].
Qed.

Lemma permits_total s c r now : ∃ b, permits_partial_input s c r now = Some b ∧ (b = true → request c = None).
Proof.
  unfold permits_partial_input. destruct (_ || _) eqn:E; [by exists false|].
  assert (request c = None) as Hr by (rewrite !orb_false_iff in E; destruct E as [[[_ E] _] _]; by destruct (request c)).
  destruct (snapshot s) as [n|]; [|by exists false]. destruct (surface s) as [f|]; [|by exists false]. destruct (input_pane c); [|by exists false].
  destruct (negb _ || _ || negb _); [by exists false|]. destruct (current_prefix_total r now n f) as [b ->]. cbn [mbind option_bind].
  destruct b; cbn [negb]; [|by exists false]. destruct (snap_focused_tab_id n), (snap_focused_workspace_id n); eauto.
Qed.

Lemma command_turn_fine w t c : inv (with_queued w (Some c)) → queued w = None → fine (command_turn w t c).
Proof.
  intros Hi Hq. unfold command_turn.
  assert (∀ r, fine (Some (w, Return r))) as Hret by (intros r; apply fine_intro; by apply (over_same (with_queued w (Some c))); [..|apply inv_over]).
  assert (fine (Some (with_queued w (Some c), Break))) as Hkeep by (by apply fine_intro).
  destruct (t_stop t); [done|]. destruct (negb (is_some (image c)) && command_started c) eqn:Hst.
  { apply andb_true_iff in Hst as [Him Hst]. destruct (i_started _ Hi c eq_refl Hst) as [Hrej Hr]. apply write_input_fine; try done. by destruct (image c). }
  destruct (permits_total (session w) c (reader w) (t_now t)) as (p & Hp & Hpr). rewrite Hp. cbn [mbind option_bind].
  assert (∀ k : res SessionError bool → option (Worker * End),
    (∀ e, fine (k (Err e))) → fine (k (Ok true)) →
    ((is_some (r_started (reader w)) = true → command_started c = false → request c = None) → fine (k (Ok false))) →
    fine ((if is_some (r_started (reader w)) && negb (command_started c) then Some (if negb p then Ok true else t_readable t) else Some (Ok false))
      ≫= k)) as Hheld.
  { intros k Herr Htrue Hfalse. destruct (is_some (r_started (reader w)) && negb (command_started c)) eqn:Hf; cbn [mbind option_bind].
    - destruct p; cbn [negb]; [|done]. destruct (t_readable t) as [[]|]; [done| |done]. apply Hfalse. intros _ _. by apply Hpr.
    - apply Hfalse. intros E1 E2. rewrite E1, E2 in Hf. done. }
  apply Hheld; [intros e; apply Hret|done|]. intros Hreq.
  destruct (rejection_reason (session w) c) as [reason|] eqn:Hrej.
  { apply reject_fine; [done|done|]. apply part_not_started. destruct (command_started c) eqn:E; [|done].
    destruct (i_started _ Hi c eq_refl E) as [H _]. cbn in H. congruence. }
  destruct (_ && _ && negb (pipelines (session w) c)) eqn:Hlease; [done|].
  destruct (image c) as [i|] eqn:Him; [by apply image_turn_fine|]. cbn [is_some negb andb] in Hst.
  destruct (is_some (r_started (reader w)) || input_attempted c) eqn:Hin.
  - apply write_input_fine; try done. apply orb_true_iff in Hin as [Hin|Hin]; [by apply Hreq|by apply (i_attempt _ Hi)].
  - apply plain_turn_fine; [done|done|by apply part_not_started|]. intros [r Hr]. rewrite Hr in Hlease. cbn [is_some andb] in Hlease.
    apply andb_false_iff in Hlease as [Hl|Hl%negb_false_iff]; [|by right]. left.
    apply orb_false_iff in Hl as [H1 H2]. by destruct (pending (session w)), (barrier (session w)).
Qed.

Lemma enqueue_ok stopped n q c : enqueue stopped n q = Ok c →
  place c = n ∧ stems c q ∧ out_writer c = writer_default ∧ written c = writer_default.
Proof.
  unfold enqueue. destruct stopped; [done|]. destruct q as [boot m r|boot target claim reserved]; (destruct (bool_decide _); [done|]).
  - destruct (encode_message m _) as [bytes|e] eqn:E; [|done]. by intros [= <-].
  - destruct (SurfaceDelta.validate_clipboard_image_target target); [|done]. destruct (bool_decide _); [done|]. intros [= <-].
    split_and!; try done. cbn. split_and!; try done. by eexists.
Qed.

Lemma try_send_inv w x : inv w → inv (try_send w x).1.
Proof.
  intros Hi. unfold try_send. destruct (enqueue _ _ _) as [c|e] eqn:E; [|done]. destruct (enqueue_ok _ _ _ _ E) as (Hp & Hst & F1 & F2).
  destruct (_ <=? _)%nat; [done|]. pose proof Hi as [].
  assert (∀ c', queued_as w c' → queued_as (MkWorker (session w) (reader w) (queued w) (channel w ++ [c]) (events w)
    (wire w) (sent w) (done w) (accepted w ++ [x.2])) c') as Hmore.
  { intros c' (q' & Hq & Hs). exists q'. split; [|done]. by apply lookup_app_l_Some. }
  split; cbn [fst queued channel events wire sent done accepted session reader]; try done.
  - rewrite fmap_app, !app_assoc, <- (app_assoc _ (place <$> option_list (queued w))), i_order0, length_app, seq_app. cbn. by rewrite Hp.
  - rewrite !app_assoc. apply Forall_app. split; [rewrite <- app_assoc; eapply Forall_impl; [exact i_stems0|exact Hmore]|].
    constructor; [|constructor]. exists x.2. split; [|done]. rewrite Hp. by apply list_lookup_middle.
  - apply Forall_app. split; [done|]. by constructor.
Qed.

Lemma sends_inv xs w : inv w → inv (foldl (λ w x, (try_send w x).1) w xs).
Proof. revert w. induction xs as [|x xs IH]; intros w Hi; [done|]. cbn [foldl]. by apply IH, try_send_inv. Qed.

Lemma not_busy_part w : busy_out w = false → match queued w with Some c => part c | None => [] end = [].
Proof. unfold busy_out. destruct (queued w) as [c|]; [|done]. intros [H _]%orb_false_iff. by apply part_not_started. Qed.

(** A frame of the worker's own, between commands. *)
Lemma own_frame w f s' :
  inv w → busy_out w = false → wrote f = None → (∀ b, f = Resent b → resend_of (sent w) b) →
  owed s' = owed (session w) → held_ok s' → (∀ b, barrier s' = Some b → resend_of (sent w) b) →
  snapshot s' = snapshot (session w) → welcome s' = welcome (session w) → (∀ v, agrees (session w) v → agrees s' v) →
  inv (with_session (frame_done (took w (bytes_of f)) f) s').
Proof.
  intros Hi Hb Hf Hr Ho Hh Hbar Hs Hw Ha. pose proof (not_busy_part w Hb) as Hp. pose proof Hi as [].
  split; cbn [queued channel events wire sent done accepted session reader with_session frame_done took] in *; try done.
  - rewrite i_wire0, Hp, fmap_app, concat_app, !app_nil_r. cbn. by rewrite app_nil_r.
  - intros c Hc Hst. destruct (i_started0 c Hc Hst) as [H1 H2]. by rewrite (rejection_same (session w)).
  - rewrite omap_app, i_sent0. cbn. by rewrite Hf, app_nil_r.
  - unfold requested in *. rewrite omap_app, i_requests0, Ho. cbn. by rewrite Hf, app_nil_r.
  - intros b Hbb. by apply resend_more, Hbar.
  - intros b [Hbb|Hbb%list_elem_of_singleton]%elem_of_app; apply resend_more; auto.
  - destruct i_view0 as (v & Hv & Hg). exists v. auto.
Qed.

(** Such a frame that failed part of the way. *)
Lemma own_cut w f n s' : inv w → busy_out w = false → next_frame w f → over (with_session (took w (take n (bytes_of f))) s').
Proof.
  intros Hi Hb Hf. pose proof (not_busy_part w Hb) as Hp. pose proof (inv_over _ Hi) as []. split; try done.
  exists f, (take n (bytes_of f)). split_and!; [|exists (drop n (bytes_of f)); symmetry; apply take_drop|].
  - cbn [wire with_session took sent]. by rewrite (i_wire _ Hi), Hp, app_nil_r.
  - destruct f; done.
Qed.

Lemma turn_fine w t : inv w → fine (turn w t).
Proof.
  intros Hi. unfold turn. apply (sends_inv (t_sends t)) in Hi. set (w0 := foldl (λ w x, (try_send w x).1) w (t_sends t)) in *. clearbody w0. clear w.
  fold (busy_out w0).
  assert (fine match queued w0 with
    | Some c => command_turn (with_queued w0 None) t c
    | None => match channel w0 with
              | c :: rest => command_turn (MkWorker (session w0) (reader w0) None rest (events w0) (wire w0) (sent w0) (done w0) (accepted w0)) t c
              | [] => Some (w0, Break)
              end
    end) as Hnone.
  { destruct (queued w0) as [c|] eqn:Hq.
    - apply command_turn_fine; [|done]. destruct w0. cbn in *. by subst.
    - destruct (channel w0) as [|c rest] eqn:Hc; [by apply fine_intro|]. apply command_turn_fine; [|done].
      destruct Hi. rewrite Hq, Hc in *. cbn in *. apply Forall_cons in i_fresh0 as [[F1 F2] F3].
      assert (command_started c = false ∧ input_attempted c = false) as [N1 N2].
      { unfold command_started, input_attempted, out_writer in *. rewrite F2. cbn. destruct (image c) as [i|]; [|done]. by rewrite F1. }
      split; try done.
      + cbn. rewrite i_wire0, part_not_started by done. done.
      + intros ? [= <-]. rewrite F1. cbn. lia.
      + intros ? [= <-]. congruence.
      + intros ? [= <-]. congruence. }
  destruct (negb (is_some (r_started (reader w0))) && negb (busy_out w0)) eqn:Hfree; [|done].
  apply andb_true_iff in Hfree as [_ Hb%negb_true_iff]. unfold take_refused_barrier. destruct (resend_ready (session w0)) eqn:Hready; [|done].
  unfold resend_ready in Hready. apply andb_true_iff in Hready as [Hpn%negb_true_iff Hready].
  destruct (barrier (session w0)) as [b|] eqn:Hbar; [|done]. destruct (pending (session w0)) eqn:Hpp; [done|].
  pose proof (i_barrier _ Hi b Hbar) as Hres.
  destruct (t_stop t); [apply fine_intro; by apply (over_same w0); [..|apply inv_over]|].
  unfold write_all. destruct (t_all t) as [n|]; cbn [negb]; apply fine_intro.
  - by apply (own_cut w0 (Resent b)).
  - apply (own_frame w0 (Resent b)); try done.
    + by intros ? [= <-].
    + unfold owed. cbn. by rewrite Hpp, Hbar.
    + intros v Hv. apply (agrees_same (session w0)); try done. pose proof (sim_assembled _ _ (proj1 Hv)) as Has. unfold assembled in *. cbn.
      rewrite Hpp, Hbar in Has. lia.
Qed.

Lemma batch_fine ts w : inv w →
  ∃ w' r, batch ts w = Some (w', r) ∧ match r with Some _ => over w' | None => inv w' end.
Proof.
  revert w. induction ts as [|t ts IH]; intros w Hi; [by exists w, None|]. cbn [batch]. destruct (turn_fine w t Hi) as (w' & e & -> & He).
  cbn [mbind option_bind]. destruct e; [by apply IH|by exists w', None|by exists w', (Some r)].
Qed.

Lemma health_fine pace w rd : inv w →
  let '(w', r) := health_turn pace w rd in match r with Err _ => over w' | Ok _ => inv w' end.
Proof.
  intros Hi. unfold health_turn. destruct (busy_out w) eqn:Hb; [done|]. destruct (health (session w)) as [h|]; [|done].
  destruct (if rd_liveness rd then _ else _) as [h1 probed]. destruct (tick h1 (rd_now rd)) as [h2 r].
  set (s' := with_health (session w) (Some h2)).
  assert (∀ v, agrees (session w) v → agrees s' v) as Ha by (intros v Hv; apply (agrees_same (session w)); try done; apply Hv).
  assert (inv (with_session w s')) as Hi'.
  { destruct Hi. split; try done. destruct i_view0 as (v & Hv & Hg). exists v. auto. }
  destruct r as [due|e]; [|by apply inv_over]. destruct (due || probed); [|done].
  destruct (encode_message ping_message MAX_FRAME_SIZE) as [bytes|e] eqn:Ee; [|by apply inv_over].
  assert (bytes_of Ping = bytes) as Hbytes by (cbn; by rewrite Ee).
  destruct (rd_ping rd) as [n|].
  - pose proof (own_cut w Ping n s' Hi Hb I) as H. rewrite Hbytes in H. exact H.
  - assert (inv (with_session (frame_done (took w (bytes_of Ping)) Ping) s')) as H; [|rewrite Hbytes in H; exact H].
    apply own_frame; try done; [apply Hi|apply (i_barrier _ Hi)].
Qed.

(** What handling a message leaves: a session that goes on, or the end. *)
Lemma handled_fine w now m : inv w →
  ∃ es r, handle_message refused now (session w) m (events w) = Some (es, r) ∧
    match r with Ok s => inv (with_session (with_events w es) s) | Err _ => over (with_events w es) end.
Proof.
  intros Hi. pose proof (inv_over _ Hi) as []. pose proof Hi as [].
  destruct i_view0 as (v & Hv & Hg). destruct (handle_message_triple refused now (session w) m (events w) v Hv Hg) as (es & r & v' & E & Hv' & _ & Hag).
  destruct (handle_message_answers refused now (session w) m _ _ _ i_held0 E) as (more & Em & Hm). exists es, r. split; [done|].
  destruct r as [s|e].
  - destruct Hm as (Hmore & Hh & Hb & Hbar).
    split; cbn [queued channel events wire sent done accepted session reader with_session with_events]; try done.
    + intros c Hc Hst. destruct (i_started0 c Hc Hst) as [H1 H2]. split; [|done]. by apply (rejection_kept (session w)).
    + by rewrite i_requests0, Em, <- app_assoc, Hmore.
    + intros b Hbb. destruct (Hbar b Hbb) as (b0 & Hb0 & E1 & E2 & E3). destruct (i_barrier0 b0 Hb0) as (M & c & q & R1 & R2 & R3 & R4).
      split; [congruence|]. exists c, q. split_and!; [done|done|congruence|congruence].
    + exists v'. split; [done|]. by apply Hag.
  - split; cbn [queued channel events wire sent done accepted session reader with_session with_events]; try done.
    + rewrite i_requests0, Em. by apply prefix_app.
    + by exists v'.
Qed.

Lemma reader_inv w r : inv w → inv (with_reader w r).
Proof. intros []. by split. Qed.

Lemma read_fine w rd : inv w →
  ∃ w' r, read_turn w rd = Some (w', r) ∧ match r with Ok _ => inv w' | Err _ => over w' end.
Proof.
  intros Hi. unfold read_turn. destruct (rd_wait rd) as [[]|e]; [|by exists w, (Ok tt)|exists w, (Err e); by split; [|apply inv_over]].
  destruct (poll_batch _ _ _) as [r got]. apply (reader_inv _ r) in Hi. set (w1 := with_reader w r) in *.
  destruct got as [[m|]|e].
  - destruct (handled_fine w1 (rd_now rd) m Hi) as (es & res & E & Hres). rewrite E. cbn [mbind option_bind].
    destruct res as [s|e]; [by eexists _, (Ok tt)|by eexists _, (Err e)].
  - eexists _, (Ok tt). split; [done|]. destruct (_ <? _)%nat; [|done]. destruct Hi. split; try done.
    destruct i_view0 as (v & Hv & Hg). exists v. split; [done|]. apply (agrees_same (session w1)); try done. apply Hg.
  - apply inv_over in Hi. destruct e; eexists _, (Err _); done.
Qed.

Definition ended (r : option (res SessionError unit)) (w : Worker) : Prop := match r with Some _ => over w | None => inv w end.

Lemma round_fine pace w rd : inv w → ∃ w' r, round pace w rd = Some (w', r) ∧ ended r w'.
Proof.
  intros Hi. pose proof (inv_over _ Hi) as Ho. unfold round.
  assert (∀ r, ∃ w' r', Some (w, Some r) = Some (w', r') ∧ ended r' w') as Hend by (intros r; by exists w, (Some r)).
  destruct (rd_stop rd); [done|]. destruct (check_timeouts _ _); [|done]. destruct (check_timeout _ _); [|done]. destruct (check_queued _ _); [|done].
  pose proof (health_fine pace w rd Hi) as Hh. destruct (health_turn pace w rd) as [w1 [u|e]]; [|by exists w1, (Some (Err e))].
  destruct (batch_fine (take BATCH (rd_turns rd)) w1 Hh) as (w2 & r2 & -> & H2). cbn [mbind option_bind].
  destruct r2 as [r2|]; [by exists w2, (Some r2)|]. destruct (read_fine w2 rd H2) as (w3 & r3 & -> & H3). cbn [mbind option_bind].
  destruct r3 as [u3|e]; [by exists w3, None|by exists w3, (Some (Err e))].
Qed.

Lemma run_fine pace rds w : inv w → ∃ w' r, run pace w rds = Some (w', r) ∧ ended r w'.
Proof.
  revert w. induction rds as [|rd rds IH]; intros w Hi; [by exists w, None|]. cbn [run]. destruct (round_fine pace w rd Hi) as (w1 & r & -> & Hr).
  cbn [mbind option_bind]. destruct r as [r|]; [by exists w1, (Some r)|by apply IH].
Qed.

Lemma new_inv pace now active remote serials : inv (worker_new pace now active remote serials hello).
Proof.
  split; try done.
  - cbn. by rewrite !app_nil_r.
  - intros b Hb. by apply list_elem_of_singleton in Hb.
  - exists view_new. split; [constructor|apply agrees_new].
Qed.

(** What [assembled] counts is what has come for the requests in flight. *)
Lemma assembled_in_flight (s : Session) n :
  assembled s ≤ n → (sum_list_with (λ p, length (p_bytes p)) (in_flight s) ≤ N.to_nat n)%nat.
Proof. unfold assembled, in_flight, lenN. destruct (pending s), (barrier s); cbn; lia. Qed.

(** C14: whatever a server sends and an owner asks for, in whatever order and pieces, and whenever the owner stops
    listening, the worker of a connection does not panic, and the events a window gets keep its contract: one welcome of
    the client's generation first; snapshots of one boot whose revisions do not go back; a surface only for the revision
    of the last snapshot, of its boot, each newer than the one before, with every cell, link and cursor in range (its
    popup too) whatever encoding or patch made it; and never more than 256 images and 256 MiB of them. While the
    connection goes on, what the window has is what the session keeps: the snapshot and the images are the last ones
    published, the surface is the one shown whenever it is for that snapshot, and what has come of the answers to the
    requests in flight, the focus and the activation behind it together, takes at most 8 MiB. *)
Theorem session_refines pace now active remote serials rds :
  ∃ w r v, run pace (worker_new pace now active remote serials hello) rds = Some (w, r) ∧ seen (events w) v ∧
    (r = None → v_snapshot v = snapshot (session w) ∧ v_images v = ClientImages.images (images (session w)) ∧
       current (session w) v ∧ sum_list_with (λ p, length (p_bytes p)) (in_flight (session w)) ≤ N.to_nat MAX_RESPONSE_BYTES)%nat.
Proof.
  destruct (run_fine pace rds _ (new_inv pace now active remote serials)) as (w & [r|] & E & Hr).
  - destruct (o_view _ Hr) as [v Hv]. by exists w, (Some r), v.
  - destruct (i_view _ Hr) as (v & Hv & Hs & Hc). exists w, None, v. split_and!; [done..|]. intros _.
    split_and!; [apply (sim_snapshot _ _ Hs)|apply (sim_images _ _ Hs)|exact Hc|apply assembled_in_flight, (sim_assembled _ _ Hs)].
Qed.

(** C15: whatever the socket, the clock, the owner and the server do, the worker of a connection does not panic, and
    what it put on the wire is a sequence of whole frames followed by part of at most one more. Those frames are the
    hello, pings, resent activations and the commands that were written, each of these with the bytes it was queued with
    and in the order of queueing: the commands that left the queue are the first ones accepted, none skipped over,
    repeated or out of turn, and every one of them was written, refused or, for a cancelled upload, given up. What is cut
    off is a frame that may come next. A resent activation repeats a frame written before, byte for byte. *)
Theorem wire_in_order pace now active remote serials rds :
  ∃ w r, run pace (worker_new pace now active remote serials hello) rds = Some (w, r) ∧
    (∃ f cut, wire w = concat (bytes_of <$> sent w) ++ cut ∧ cut `prefix_of` bytes_of f ∧ next_frame w f) ∧
    (place ∘ fst) <$> done w = seq 0 (length (done w)) ∧
    Forall (queued_as w) (done w).*1 ∧
    omap wrote (sent w) = written_of (done w) ∧
    (∀ b, Resent b ∈ sent w → resend_of (sent w) b) ∧
    (r = None → ((place ∘ fst) <$> done w) ++ (place <$> option_list (queued w)) ++ (place <$> channel w) = seq 0 (length (accepted w))).
Proof.
  destruct (run_fine pace rds _ (new_inv pace now active remote serials)) as (w & r & E & Hr). exists w, r. split; [done|].
  assert (over w) as [] by (destruct r; [done|by apply inv_over]). split_and!; try done. intros ->. apply Hr.
Qed.

(** C16: the answers an owner gets are those of the requests written, in the order they were written, each once:
    none is dropped, repeated or overtaken, also when an activation was refused as busy and sent again, and also when
    the connection ends. While it runs, the requests without an answer are the ones in flight: at most two, of which
    the second is an activation. *)
Theorem answers_in_order pace now active remote serials rds :
  ∃ w r, run pace (worker_new pace now active remote serials hello) rds = Some (w, r) ∧
    responses (events w) `prefix_of` requested (sent w) ∧
    (r = None → requested (sent w) = responses (events w) ++ (p_id <$> in_flight (session w)) ∧
       (length (in_flight (session w)) ≤ 2)%nat ∧
       ∀ b, barrier (session w) = Some b → p_method (b_pending b) = ClientShellSurfaceSet).
Proof.
  destruct (run_fine pace rds _ (new_inv pace now active remote serials)) as (w & r & E & Hr). exists w, r. split; [done|].
  assert (over w) as [] by (destruct r; [done|by apply inv_over]). split; [done|]. intros ->. destruct Hr. split_and!.
  - rewrite i_requests0. unfold owed, in_flight. by destruct (pending (session w)), (barrier (session w)).
  - unfold in_flight. by destruct (pending (session w)), (barrier (session w)); cbn; lia.
  - intros b Hb. by destruct (i_barrier0 b Hb).
Qed.

(** The wait of a round reaches no deadline late. *)
Lemma wait_timeout_bound now cap ds :
  wait_timeout now cap ds ≤ cap ∧ ∀ d, Some d ∈ ds → now + wait_timeout now cap ds ≤ N.max now d.
Proof.
  unfold wait_timeout.
  assert (∀ l a, foldl N.min a l ≤ a ∧ ∀ d, d ∈ l → foldl N.min a l ≤ d) as Hmin.
  { induction l as [|x l IH]; intros a; cbn; [split; [lia|by intros ? ?%elem_of_nil]|]. destruct (IH (N.min a x)) as [H1 H2]. split; [lia|].
    intros d [->|Hd]%elem_of_cons; [lia|by apply H2]. }
  destruct (Hmin (omap id ds) (now + cap)) as [H1 H2]. split; [lia|]. intros d Hd.
  assert (d ∈ omap id ds) as Hd' by (apply list_elem_of_omap; by exists (Some d)). specialize (H2 d Hd'). lia.
Qed.

End worker.

(** ** A connection of bytes

    Every message of the server is one byte, every answer its request and
    whether the server was busy. *)
Definition toy_welcome : EndpointServerWelcome :=
  MkEndpointServerWelcome ENDPOINT_PROTOCOL_GENERATION (lit "0.9.0") SNAPSHOT_CODEC_V1 SURFACE_CODEC_V1 INPUT_CODEC_V1 BLOB_CODEC_V1
    [lit "pane.focus"; lit "client_shell.surface.set"] [lit "surface_interest"; lit "presentation_effects_fence"] None.

Definition toy_message (b : N) : option ServerMessage :=
  match b with
  | 0 => Some (SM_EndpointControl ENDPOINT_WELCOME_KIND [])
  | 1 => Some (SM_EndpointControl ENDPOINT_SNAPSHOT_KIND [])
  | 2 => Some (SM_ClientShellEndpointResponseChunk (lit "b") [1] true [1; 0])
  | 3 => Some (SM_ClientShellEndpointResponseChunk (lit "b") [2] true [2; 1])
  | 4 => Some (SM_ClientShellEndpointResponseChunk (lit "b") [2] true [2; 0])
  | 5 => Some (SM_ClientShellEndpointResponseChunk (lit "b") [1] false [1])
  | 6 => Some (SM_ClientShellEndpointResponseChunk (lit "b") [1] true [0])
  | 7 => Some (SM_ClientShellEndpointResponseChunk (lit "b") [2] false [2])
  | _ => None
  end.

#[local] Instance toy_json : EndpointJson (N * bool) := {|
  welcome_from_str _ := Some toy_welcome;
  snapshot_from_str _ := Some SurfaceDelta.boot_snapshot;
  response_from_slice bs := match bs with [id; busy] => Some (id, busy =? 1) | _ => None end;
  response_id v := Some [v.1];
  error_code v := if v.2 : bool then Some (lit "endpoint_busy") else None |}.
#[local] Instance toy_server : Bincode ServerMessage := {|
  bin_writes _ := None;
  bin_decode _ bs := match bs with b :: _ => m ← toy_message b; Some (m, 1) | [] => None end;
  bin_fits _ _ := True |}.
#[local] Instance toy_client : Bincode ClientMessage := {|
  bin_writes m := match m with CM_ClientShellEndpointRequest _ r => Some [r] | _ => None end; bin_decode _ _ := None; bin_fits _ _ := True |}.
#[local] Instance toy_delta : Bincode SurfaceDelta := {| bin_writes _ := None; bin_decode _ _ := None; bin_fits _ _ := True |}.
#[local] Instance toy_base64 : SurfaceScroll.Base64 := {| SurfaceScroll.b64_encode bs := bs; SurfaceScroll.b64_decode s := Some s;
  SurfaceScroll.b64_encoded_len n := Some n |}.
#[local] Existing Instance byte_header.
#[local] Instance toy_reuse : ReuseJson := {| reuse_from_str _ := None; reuse_to_string _ := None |}.

Definition toy_turn (qs : list (bool * Sending)) : Turn := MkTurn qs 20 false (Ok false) None W_Retry false U_Empty.
Definition toy_turns : list Turn :=
  [toy_turn [(false, Q_Message (lit "b") (CM_ClientShellEndpointRequest (lit "b") [1]) (Some (MkPendingRequest [1] PaneFocus)));
            (false, Q_Message (lit "b") (CM_ClientShellEndpointRequest (lit "b") [2]) (Some (MkPendingRequest [2] ClientShellSurfaceSet)))];
   toy_turn []; toy_turn []].

(** One message is read in two reads. *)
Definition toy_round (b : N) (ts : list Turn) : Round :=
  MkRound false 20 false false None ts (Ok true) (20, [(R_Read [1; 0; 0; 0], 20); (R_Read [b], 20)]).

(** A focus and an activation behind it, refused as busy and sent again. *)
Definition toy_rounds : list Round :=
  [toy_round 0 []; toy_round 1 []; toy_round 3 toy_turns; toy_round 2 []; toy_round 4 [toy_turn []]].

Definition toy_open (log : list (@ClientEvent (N * bool))) : option SessionError := None.
Definition toy_start : @Worker (N * bool) := worker_new pace_default 10 true false 0 [5; 5].

Example toy_run :
  match run toy_open pace_default toy_start toy_rounds with
  | Some (w, None) => wire w = [5; 5] ++ [1; 0; 0; 0; 1] ++ [1; 0; 0; 0; 2] ++ [1; 0; 0; 0; 2] ∧ responses (events w) = [[1]; [2]] ∧ in_flight (session w) = []
  | _ => False
  end.
Proof. vm_compute. auto. Qed.

(** Both answers are half here, the activation's first; then the focus's ends. *)
Definition toy_halves : list Round := [toy_round 0 []; toy_round 1 []; toy_round 7 toy_turns; toy_round 5 []].

Example toy_half_run :
  match run toy_open pace_default toy_start toy_halves with
  | Some (w, None) => (p_bytes <$> in_flight (session w)) = [[1]; [2]] ∧ responses (events w) = []
  | _ => False
  end ∧
  match run toy_open pace_default toy_start (toy_halves ++ [toy_round 6 []]) with
  | Some (w, None) => (p_bytes <$> in_flight (session w)) = [[2]] ∧ responses (events w) = [[1]]
  | _ => False
  end.
Proof. vm_compute. auto. Qed.

Lemma session_refines_witness : ∃ w v, run toy_open pace_default toy_start toy_halves = Some (w, None) ∧ seen (events w) v ∧
  v_snapshot v = Some SurfaceDelta.boot_snapshot ∧ sum_list_with (λ p, length (p_bytes p)) (in_flight (session w)) = 2%nat.
Proof.
  destruct (@session_refines _ _ _ _ _ _ byte_header _ toy_open [5; 5] pace_default 10 true false 0 toy_halves) as (w & r & v & E & Hv & H).
  change (worker_new _ _ _ _ _ _) with toy_start in E.
  assert (∃ w, run toy_open pace_default toy_start toy_halves = Some (w, None) ∧ snapshot (session w) = Some SurfaceDelta.boot_snapshot ∧
    sum_list_with (λ p, length (p_bytes p)) (in_flight (session w)) = 2%nat) as (w' & E' & Hn & Hl)
    by (eexists; split_and!; vm_compute; reflexivity).
  rewrite E in E'. injection E' as -> ->. exists w', v. destruct (H eq_refl) as [Hs _]. split_and!; [exact E|exact Hv|by rewrite Hs|exact Hl].
Defined.

Lemma wire_in_order_witness : ∃ w r, run toy_open pace_default toy_start toy_rounds = Some (w, r) ∧ omap wrote (sent w) = written_of (done w).
Proof.
  destruct (@wire_in_order _ _ _ _ _ _ byte_header _ toy_open [5; 5] pace_default 10 true false 0 toy_rounds) as (w & r & E & _ & _ & _ & H & _).
  exists w, r. split; [exact E|exact H].
Defined.

Lemma answers_in_order_witness : ∃ w r, run toy_open pace_default toy_start toy_rounds = Some (w, r) ∧ responses (events w) `prefix_of` requested (sent w).
Proof.
  destruct (@answers_in_order _ _ _ _ _ _ byte_header _ toy_open [5; 5] pace_default 10 true false 0 toy_rounds) as (w & r & E & H & _).
  exists w, r. split; [exact E|exact H].
Defined.

End ClientWorker.
