(* ===== verification/Project.v ===== *)
(** * Project: an agent's updates as changes of a transcript
    (crates/sheprd-acp/src/project.rs, project/activity.rs,
    project/claude_code.rs and project/todos.rs)

    A projector reads the transcript its changes will be applied to and keeps
    what the agent's protocol needs besides: the text entry that still streams,
    the entry of each tool call, the steps of sub-agents. A mutable projector is
    a value passed on. The types of the protocol's crate are those parts of them
    the code reads, with one constructor for the rest of an open enum. *)

From Stdlib Require Import NArith ZArith Lia SpecFloat.
From stdpp Require Import base option strings list gmap sets.
From S2P Require Import Prelude Transcript Display.

Local Open Scope N_scope.

Module Project.
Import Transcript.

#[export] Instance ActivityKind_eq_dec : EqDecision ActivityKind.
Proof. solve_decision. Defined.
#[export] Instance ActivityState_eq_dec : EqDecision ActivityState.
Proof. solve_decision. Defined.
#[export] Instance Activity_eq_dec : EqDecision Activity.
Proof. solve_decision. Defined.

(** ** JSON values, as the tags and to-do lists read them *)

Inductive Value :=
| Null | Bool (b : bool) | Number | String (s : str) | Array (l : list Value) | Object (fields : list (str * Value)).

(** [Value::get] of a name, [as_str], [as_bool]. *)
Definition field (k : str) (fields : list (str * Value)) : option Value := snd <$> find (λ f, bool_decide (f.1 = k)) fields.
Definition get (k : str) (v : Value) : option Value := match v with Object fields => field k fields | _ => None end.
Definition as_str (v : Value) : option str := match v with String s => Some s | _ => None end.
Definition as_bool (v : Value) : option bool := match v with Bool b => Some b | _ => None end.

Definition Meta : Type := list (str * Value).

(** ** The protocol's updates *)

Inductive ContentBlock :=
| CB_Text (text : str) | CB_Image (mime data : str) | CB_Audio | CB_ResourceLink (name uri : str)
| CB_TextResource (text : str) | CB_BlobResource (uri : str) | CB_OtherResource | CB_Other.

Inductive WireToolKind := W_Read | W_Edit | W_Delete | W_Move | W_Search | W_Execute | W_Think | W_Fetch | W_SwitchMode | W_Other | W_Newer.
#[export] Instance WireToolKind_eq_dec : EqDecision WireToolKind.
Proof. solve_decision. Defined.
Inductive ToolCallStatus := TS_Pending | TS_InProgress | TS_Completed | TS_Failed | TS_Newer.
Inductive ToolCallContent := TC_Content (block : ContentBlock) | TC_Diff (new : str) (old : option str) (path : str) | TC_Terminal (id : str) | TC_Other.
Record ToolCallLocation := MkToolCallLocation { loc_path : str; loc_line : option N }.

Record ToolCall := MkToolCall {
  c_id : str; c_name : option str; c_title : str; c_kind : WireToolKind; c_status : ToolCallStatus; c_content : list ToolCallContent;
  c_locations : list ToolCallLocation; c_raw_input : option Value; c_meta : option Meta }.
Record ToolCallUpdateFields := MkToolCallUpdateFields {
  f_title : option str; f_kind : option WireToolKind; f_status : option ToolCallStatus; f_content : option (list ToolCallContent);
  f_locations : option (list ToolCallLocation); f_raw_input : option Value }.
Record ToolCallUpdate := MkToolCallUpdate { u_id : str; u_fields : ToolCallUpdateFields; u_meta : option Meta }.

Inductive WirePriority := WP_High | WP_Medium | WP_Low | WP_Newer.
Inductive WirePlanStatus := WS_Pending | WS_InProgress | WS_Completed | WS_Newer.
Record WirePlanEntry := MkWirePlanEntry { wp_content : str; wp_priority : WirePriority; wp_status : WirePlanStatus }.
Record AvailableCommand := MkAvailableCommand { ac_description : str; ac_hint : option str; ac_name : str }.
Inductive Severity := Sev_Info | Sev_Warning | Sev_Error | Sev_Newer.

(** A usage's cost is its amount and currency; a title may be left alone, cleared or set. *)
Inductive SessionUpdate :=
| UserMessageChunk (message : option str) (content : ContentBlock)
| AgentMessageChunk (message : option str) (content : ContentBlock)
| AgentThoughtChunk (message : option str) (content : ContentBlock)
| U_ToolCall (call : ToolCall)
| U_ToolCallUpdate (update : ToolCallUpdate)
| U_Plan (entries : list WirePlanEntry)
| AvailableCommandsUpdate (commands : list AvailableCommand)
| CurrentModeUpdate (mode : str)
| SessionInfoUpdate (title : option (option str))
| UsageUpdate (cost : option (Display.f64 * str)) (size used : N)
| U_Notice (severity : Severity) (title : str) (description : option str)
| U_Other.

(** ** Bounds *)

Definition MAX_ACTIVITIES_TRACKED : nat := 2 * MAX_ACTIVITIES.
Definition MAX_ENTRY_TEXT : N := 256 * 1024.
Definition TRUNCATED : str := 10 :: 8230 :: lit " (truncated)".
Definition MAX_STEPS : nat := 64.
Definition MAX_SKIPPED : nat := N.to_nat 1024.
Definition MAX_PLAN : nat := 256.

(** [clip] of project.rs: the part of a text that fits after [have] bytes. *)
Definition clip (have : N) (t : str) : option str :=
  if MAX_ENTRY_TEXT <? have then None
  else
    let room := MAX_ENTRY_TEXT - have in
    if room <? str_len TRUNCATED + 4 then None
    else if str_len t <=? room then Some t
    else Some (byte_prefix (room - str_len TRUNCATED) t ++ TRUNCATED).

Definition bounded (t : str) : str := default [] (clip 0 t).

(** [activity::clip]: the first line, trimmed, cut; its [\r] goes with the
    spaces. *)
Definition clip_line (t : str) : str := byte_prefix MAX_ACTIVITY_TEXT (trim (before 10 t)).

(** ** activity.rs *)

Record Report := MkReport { r_detail : option str; r_kind : ActivityKind; r_label : option str; r_state : ActivityState }.
#[export] Instance Report_eq_dec : EqDecision Report.
Proof. solve_decision. Defined.
Record Tag := MkTag { t_activity : option Report; t_parent : option str }.
#[export] Instance Tag_eq_dec : EqDecision Tag.
Proof. solve_decision. Defined.
Definition tag_default : Tag := MkTag None None.

(** serde's reading of a tag. *)
Class TagJson := tag_from_value : Value → option Tag.

(** [Tag::read] and [Tag::or_else]. *)
Definition tag_read `{TagJson} (meta : option Meta) : Tag :=
  default tag_default (m ← meta; v ← field (lit "herdr") m; tag_from_value v).
Definition tag_or_else (t other : Tag) : Tag := if bool_decide (t = tag_default) then other else t.

(** [Tag::mark]. *)
Definition mark (t : Tag) (tool : Tool) : Tool :=
  let kind := match t_activity t with
              | Some r => if bool_decide (r_kind r = Subagent) then Tool_Subagent else tool_kind tool
              | None => tool_kind tool
              end in
  let parent := match t_parent t with Some p => Some (clip_line p) | None => tool_parent tool end in
  MkTool (tool_call_id tool) (tool_content tool) kind (tool_locations tool) parent (tool_started_ms tool) (tool_status tool) (tool_title tool).

(** [activity::record]. *)
Definition record (t : Transcript) (call title : str) (r : Report) (now : N) : option Change :=
  if MAX_ACTIVITY_TEXT <? str_len call then None
  else
    let known := activity t call in
    if match known with Some k => negb (is_running k) | None => negb (bool_decide (r_state r = Running_)) end then None
    else if negb (is_some known) && (MAX_ACTIVITIES <=? length (activities t))%nat && forallb is_running (activities t) then None
    else
      let running := bool_decide (r_state r = Running_) in
      let a := MkActivity call
        (match r_detail r with Some d => Some (clip_line d) | None => k ← known; detail k end)
        (if running then None else Some now) (r_kind r)
        (match r_label r with Some l => clip_line l | None => match known with Some k => label k | None => clip_line title end end)
        (match known with Some k => started_ms k | None => now end) (r_state r) in
      if bool_decide (Some a = known) then None else Some (ActivityChange a).

(** [activity::step]. *)
Definition step (t : Transcript) (parent title : str) : option Change :=
  k ← activity t parent;
  if negb (is_running k) then None
  else
    let d := clip_line title in
    if bool_decide (detail k = Some d) then None
    else Some (ActivityChange (MkActivity (call_id k) (Some d) (finished_ms k) (activity_kind k) (label k) (started_ms k) (state k))).

(** [activity::kill_all]. *)
Definition kill_all (t : Transcript) (now : N) : list Change :=
  (λ a, ActivityChange (MkActivity (call_id a) (detail a) (Some now) (activity_kind a) (label a) (started_ms a) Killed))
    <$> filter (λ a, is_running a = true) (activities t).

(** ** claude_code.rs *)

Definition claude_tag (meta : option Meta) (input : option Value) (status : option ToolCallStatus) : Tag :=
  match meta ≫= field (lit "claudeCode") with
  | None => tag_default
  | Some code =>
      let parent := get (lit "parentToolUseId") code ≫= as_str in
      let tool := get (lit "toolName") code ≫= as_str in
      let subagent := bool_decide (tool = Some (lit "Agent")) || bool_decide (tool = Some (lit "Task")) in
      let background := bool_decide (((input ≫= get (lit "run_in_background")) ≫= as_bool) = Some true)
        || bool_decide (((get (lit "toolResponse") code ≫= get (lit "isAsync")) ≫= as_bool) = Some true) in
      let activity :=
        if subagent && negb background then
          Some (MkReport None Subagent None
            match status with Some TS_Completed => Finished | Some TS_Failed => Failed_ | _ => Running_ end)
        else None in
      MkTag activity parent
  end.

(** ** todos.rs *)

Definition TODO_TOOLS : list str := [lit "todowrite"; lit "update_todo"].

Definition list_kind (k : WireToolKind) : bool := bool_decide (k = W_Other) || bool_decide (k = W_Think).
Definition unwritten (input : option Value) : bool :=
  match input with None => true | Some (Object []) => true | Some _ => false end.
Definition has_list (input : option Value) : bool := is_some (input ≫= get (lit "todos")).

(** [todos::is_tool] and [stays_tool]. *)
Definition is_tool (name : option str) (title : str) (kind : WireToolKind) (input : option Value) : bool :=
  let known shown := existsb (eq_ignore_ascii_case shown) TODO_TOOLS in
  list_kind kind
  && match name with
     | Some name => known name && (has_list input || unwritten input)
     | None => known title && has_list input
     end.
Definition stays_tool (kind : option WireToolKind) (input : option Value) : bool :=
  match kind with Some k => list_kind k | None => true end && (unwritten input || has_list input).

(** [todos::status], [listed] and [item]. *)
Definition todo_status (name : str) : option WirePlanStatus :=
  if bool_decide (name = lit "pending") then Some WS_Pending
  else if bool_decide (name = lit "in_progress") then Some WS_InProgress
  else if bool_decide (name = lit "completed") then Some WS_Completed
  else None.
Definition todo_step (content : str) (status : WirePlanStatus) : WirePlanEntry := MkWirePlanEntry content WP_Medium status.

Definition listed_one (todo : Value) : option WirePlanEntry :=
  let name := get (lit "status") todo ≫= as_str in
  if bool_decide (name = Some (lit "cancelled")) then None
  else
    content ← get (lit "content") todo ≫= as_str;
    Some (todo_step content (default WS_Pending (name ≫= todo_status))).
Definition listed (todos : list Value) : list WirePlanEntry := take MAX_PLAN (omap listed_one todos).

Fixpoint skip_digits (s : str) : str := match s with c :: t => if is_ascii_digit c then skip_digits t else s | [] => [] end.

(** [strip_prefix] of one of some characters. *)
Definition strip_one (cs : list N) (s : str) : option str :=
  match s with c :: t => if existsb (N.eqb c) cs then Some t else None | [] => None end.
(** [split_once] of a character. *)
Fixpoint split_once (c : N) (s : str) : option (str * str) :=
  match s with
  | [] => None
  | d :: t => if d =? c then Some ([], t) else '(a, b) ← split_once c t; Some (d :: a, b)
  end.

Definition item (line : str) : option WirePlanEntry :=
  let line := trim_start line in
  rest ← match strip_one [45; 42; 43] line with
         | Some rest => Some rest
         | None => strip_one [46; 41] (skip_digits line)
         end;
  rest ← strip_one [91] (trim_start rest);
  '(mark, content) ← split_once 93 rest;
  status ← (if bool_decide (trim mark = []) then Some WS_Pending
            else if bool_decide (trim mark = lit "x") || bool_decide (trim mark = lit "X") then Some WS_Completed
            else None);
  let content := trim content in
  if bool_decide (content = []) then None else Some (todo_step content status).
Definition checklist (t : str) : list WirePlanEntry := take MAX_PLAN (omap item (str_lines t)).

(** [todos::plan]. *)
Definition todos_plan (input : Value) : option (list WirePlanEntry) :=
  match get (lit "todos") input with
  | Some (Array todos) => Some (listed todos)
  | Some (String t) => Some (checklist t)
  | _ => None
  end.

(** ** The protocol's values as the transcript's *)

Definition media (b : ContentBlock) : option Image := match b with CB_Image mime data => image_new mime data | _ => None end.

Definition block_text (b : ContentBlock) : str :=
  match b with
  | CB_Text t => t
  | CB_Image _ _ => lit "[image]"
  | CB_Audio => lit "[audio]"
  | CB_ResourceLink name uri => lit "[" ++ name ++ lit "](" ++ uri ++ lit ")"
  | CB_TextResource t => t
  | CB_BlobResource uri => lit "[" ++ uri ++ lit "]"
  | CB_OtherResource => lit "[resource]"
  | CB_Other => lit "[content]"
  end.

(** [tool_kind], [tool_status], [tool_content] and [locations]. *)
Definition kind_of (k : WireToolKind) : ToolKind :=
  match k with
  | W_Read => Read | W_Edit => Edit | W_Delete => Delete | W_Move => Move | W_Search => Search | W_Execute => Execute
  | W_Think => Think | W_Fetch => Fetch | W_SwitchMode => SwitchMode | W_Other | W_Newer => Tool_Other
  end.
Definition status_of (s : ToolCallStatus) : ToolStatus :=
  match s with
  | TS_InProgress => Tool_InProgress | TS_Completed => Tool_Completed | TS_Failed => Tool_Failed | TS_Pending | TS_Newer => Tool_Pending
  end.
Definition content_of (c : ToolCallContent) : ToolContent :=
  match c with
  | TC_Content b => match media b with Some i => Content_Image i | None => Content_Text (bounded (block_text b)) end
  | TC_Diff new old path => Content_Diff (bounded new) (bounded <$> old) path
  | TC_Terminal id => Content_Terminal id
  | TC_Other => Content_Text (lit "[content]")
  end.
Definition locations (ls : list ToolCallLocation) : list str :=
  (λ l, match loc_line l with Some line => loc_path l ++ lit ":" ++ dec line | None => loc_path l end) <$> ls.

Definition apply_call (c : ToolCall) (tool : Tool) : Tool :=
  MkTool (tool_call_id tool) (content_of <$> c_content c) (kind_of (c_kind c)) (locations (c_locations c)) (tool_parent tool)
    (tool_started_ms tool) (status_of (c_status c)) (c_title c).
Definition apply_fields (f : ToolCallUpdateFields) (tool : Tool) : Tool :=
  MkTool (tool_call_id tool) (match f_content f with Some c => content_of <$> c | None => tool_content tool end)
    (match f_kind f with Some k => kind_of k | None => tool_kind tool end)
    (match f_locations f with Some l => locations l | None => tool_locations tool end) (tool_parent tool) (tool_started_ms tool)
    (match f_status f with Some s => status_of s | None => tool_status tool end) (default (tool_title tool) (f_title f)).

Definition plan_entry (e : WirePlanEntry) : PlanEntry :=
  MkPlanEntry (bounded (wp_content e))
    (match wp_priority e with WP_High => HighPriority | WP_Low => LowPriority | _ => MediumPriority end)
    (match wp_status e with WS_InProgress => Plan_InProgress | WS_Completed => Plan_Completed | _ => Plan_Pending end).
Definition plan_change (es : list WirePlanEntry) : Change := SetPlan (plan_entry <$> es).

Definition slash_command (c : AvailableCommand) : SlashCommand := MkSlashCommand (ac_description c) (ac_hint c) (ac_name c).

(** [f64::round] of a number that is not negative, then [as u64]. *)
Definition round_u64 (a : Display.f64) : N :=
  match a with
  | S754_finite _ m (Zneg e) => N.min u64_max ((Npos m + 2 ^ (Npos e - 1)) / 2 ^ Npos e)
  | S754_finite _ m e => N.min u64_max (Npos m * 2 ^ Z.to_N e)
  | _ => 0
  end.

(** A cost in millionths; a negative amount, an infinity or a NaN is none. *)
Definition cost_micros (amount : Display.f64) : option N :=
  let micros := SFmul 53 1024 amount (Display.f64_of 1000000) in
  match micros with
  | S754_zero _ | S754_finite false _ _ => Some (round_u64 micros)
  | _ => None
  end.

Definition usage_of (cost : option (Display.f64 * str)) (size used : N) : Usage :=
  MkUsage ('(amount, currency) ← cost; micros ← cost_micros amount; Some (MkCost (take 8 currency) micros)) size used.

(** *** Modes and settings *)

Record WireMode := MkWireMode { wm_description : option str; wm_id : str; wm_name : str }.
Record WireModes := MkWireModes { wm_available : list WireMode; wm_current : str }.

(** [modes]. *)
Definition modes_of (s : WireModes) : Modes := MkModes ((λ m, MkMode (wm_description m) (wm_id m) (wm_name m)) <$> wm_available s) (wm_current s).

Definition MAX_OPTIONS : nat := 64.
Definition MAX_CHOICES : nat := 256.

Record WireChoice := MkWireChoice { wc_description : option str; wc_value : str; wc_name : str }.
Inductive WireChoices := Ungrouped (choices : list WireChoice) | Grouped (groups : list (str * list WireChoice)) | Choices_Newer.
Inductive WireConfigKind := WK_Select (options : WireChoices) (current : str) | WK_Boolean (current : bool) | WK_Newer.
Inductive WireCategory := WC_Mode | WC_Model | WC_ModelConfig | WC_ThoughtLevel | WC_Newer.
Record WireConfigOption := MkWireConfigOption {
  wo_category : option WireCategory; wo_description : option str; wo_id : str; wo_kind : WireConfigKind; wo_name : str }.

Definition choice_of (group : option str) (c : WireChoice) : Choice := MkChoice (bounded <$> wc_description c) group (wc_value c) (bounded (wc_name c)).

Definition choices_of (cs : WireChoices) : option (list Choice) :=
  match cs with
  | Ungrouped cs => Some (choice_of None <$> cs)
  | Grouped gs => Some (gs ≫= λ g, choice_of (Some g.1) <$> g.2)
  | Choices_Newer => None
  end.

Definition config_option (o : WireConfigOption) : option ConfigOption :=
  kind ← match wo_kind o with
         | WK_Select cs current => cs ← choices_of cs; Some (Select (take MAX_CHOICES cs) current)
         | WK_Boolean b => Some (Toggle b)
         | WK_Newer => None
         end;
  Some (MkConfigOption
          match wo_category o with
          | Some WC_Mode => Category_Mode | Some WC_Model => Category_Model | Some WC_ModelConfig => Category_ModelConfig
          | Some WC_ThoughtLevel => Category_ThoughtLevel | _ => Category_Other
          end (bounded <$> wo_description o) (wo_id o) kind (bounded (wo_name o))).

(** [options]: of an array, the items that read as settings. *)
Definition options_of (items : option (list (option WireConfigOption))) : list ConfigOption :=
  match items with
  | Some items => take MAX_OPTIONS (omap config_option (omap id items))
  | None => []
  end.

(** ** The projector *)

Inductive Stream := S_User | S_Agent | S_Thought.
#[export] Instance Stream_eq_dec : EqDecision Stream.
Proof. solve_decision. Defined.
Record Open := MkOpen { o_entry : N; o_message : option str; o_stream : Stream }.

Record Projector := MkProjector {
  next : N; p_open : option Open; planned : bool; skipped : gmap str str; steps : gmap str nat; todos : gset str; tools : gmap str N }.

Definition projector_default : Projector := MkProjector 0 None false ∅ ∅ ∅ ∅.
(** [Projector::after]. *)
Definition projector_after (last : N) : Projector := MkProjector last None false ∅ ∅ ∅ ∅.

Definition with_open (p : Projector) (o : option Open) : Projector :=
  MkProjector (next p) o (planned p) (skipped p) (steps p) (todos p) (tools p).
Definition with_tools (p : Projector) (t : gmap str N) : Projector :=
  MkProjector (next p) (p_open p) (planned p) (skipped p) (steps p) (todos p) t.
Definition with_skipped (p : Projector) (s : gmap str str) : Projector :=
  MkProjector (next p) (p_open p) (planned p) s (steps p) (todos p) (tools p).
Definition with_steps (p : Projector) (s : gmap str nat) : Projector :=
  MkProjector (next p) (p_open p) (planned p) (skipped p) s (todos p) (tools p).
Definition with_todos (p : Projector) (t : gset str) : Projector :=
  MkProjector (next p) (p_open p) (planned p) (skipped p) (steps p) t (tools p).
Definition with_planned (p : Projector) : Projector :=
  MkProjector (next p) (p_open p) true (skipped p) (steps p) (todos p) (tools p).

Definition next_id (p : Projector) : Projector * N :=
  (MkProjector (next p + 1) (p_open p) (planned p) (skipped p) (steps p) (todos p) (tools p), next p + 1).

Definition renumber (p : Projector) (old : N) : Projector * N :=
  let '(p, new) := next_id p in
  let p := with_open p ((λ o, if o_entry o =? old then MkOpen new (o_message o) (o_stream o) else o) <$> p_open p) in
  (with_tools p ((λ id, if id =? old then new else id) <$> tools p), new).

Definition close (p : Projector) : Projector := with_open p None.

(** An entry of its own. *)
Definition push_entry (p : Projector) (k : EntryKind) : Projector * Change :=
  let '(p, id) := next_id (close p) in (p, Push (MkEntry id k)).

Definition notice (p : Projector) (level : NoticeLevel) (t : str) : Projector * Change := push_entry p (Notice [] None level (bounded t)).
(** [Projector::turn], [image] and [prompt]. *)
Definition turn_change (p : Projector) (s : TurnSummary) : Projector * Change := push_entry p (TurnEntry s).
Definition image_change (p : Projector) (author : Author) (i : Image) : Projector * Change := push_entry p (ImageEntry author i).
Definition prompt_change (p : Projector) (t : str) (files : N) : Projector * Change := push_entry p (User (bounded t) files).

(** [Projector::text]. *)
Definition text_change (p : Projector) (tr : Transcript) (stream : Stream) (message : option str) (t : str) : Projector * option Change :=
  if bool_decide (t = []) then (p, None)
  else
    match (o ← p_open p;
           if bool_decide (o_stream o = stream) && bool_decide (o_message o = message) && bool_decide (last_entry_id tr = Some (o_entry o))
           then Some o else None) with
    | Some o =>
        let have := match entry tr (o_entry o) ≫= λ e, text (kind e) with Some t => str_len t | None => 0 end in
        (p, Append (o_entry o) <$> clip have t)
    | None =>
        let '(p, id) := next_id p in
        let p := with_open p (Some (MkOpen id message stream)) in
        let t := bounded t in
        (p, Some (Push (MkEntry id (match stream with S_User => User t 0 | S_Agent => Agent t | S_Thought => Thought t end))))
    end.

(** [Projector::tool]. *)
Definition known_tool (p : Projector) (tr : Transcript) (call : str) : option (N * Tool) :=
  id ← tools p !! call; e ← entry tr id; match kind e with ToolEntry tool => Some (entry_id e, tool) | _ => None end.
Definition new_tool (call : str) : Tool := MkTool call [] Tool_Other [] None None Tool_Pending call.

Definition tool_change (p : Projector) (tr : Transcript) (call : str) (update : Tool → Tool) : Projector * Change :=
  match known_tool p tr call with
  | Some (id, tool) => (p, Replace (MkEntry id (ToolEntry (update tool))))
  | None =>
      let '(p, id) := next_id (close p) in
      (with_tools p (<[call := id]> (tools p)), Push (MkEntry id (ToolEntry (update (new_tool call)))))
  end.

Definition forget_before (p : Projector) (before : N) : Projector := with_tools p (filter (λ x, before ≤ x.2) (tools p)).

(** [Projector::skip] and [admit]. *)
Definition skip (p : Projector) (tr : Transcript) (call parent : str) : Projector :=
  let p := if (MAX_SKIPPED <=? base.size (skipped p))%nat
           then with_skipped p (filter (λ x, (is_running <$> activity tr x.2) = Some true) (skipped p)) else p in
  if (base.size (skipped p) <? MAX_SKIPPED)%nat then with_skipped p (<[call := parent]> (skipped p)) else p.

Definition admit_step (p : Projector) (tr : Transcript) (parent : str) : Projector * bool :=
  let p := if (MAX_ACTIVITIES_TRACKED <? base.size (steps p))%nat
           then with_steps p (filter (λ x, is_Some (activity tr x.1)) (steps p)) else p in
  let count := S (default 0%nat (steps p !! parent)) in
  (with_steps p (<[parent := count]> (steps p)), (count <=? MAX_STEPS)%nat).

(** The closure [tagged] hands to [tool]. *)
Definition started (now : N) (tool : Tool) : Tool :=
  match tool_status tool with
  | Tool_Pending | Tool_InProgress =>
      MkTool (tool_call_id tool) (tool_content tool) (tool_kind tool) (tool_locations tool) (tool_parent tool)
        (Some (default now (tool_started_ms tool))) (tool_status tool) (tool_title tool)
  | _ => tool
  end.

Definition tool_in (c : Change) : option Tool :=
  match c with Push e | Replace e => match kind e with ToolEntry tool => Some tool | _ => None end | _ => None end.

(** [Projector::tagged]. *)
Definition tagged (p : Projector) (tr : Transcript) (call : str) (tag : Tag) (now : N) (update : Tool → Tool) : Projector * list Change :=
  let shown := is_some (tools p !! call) in
  let step_of := if shown then None else t_parent tag in
  let was_skipped := is_some (skipped p !! call) in
  let '(p, shows) := if was_skipped then (p, false)
                     else match step_of with Some parent => admit_step p tr parent | None => (p, true) end in
  let '(p, changes, tool) :=
    if shows then
      let '(p, change) := tool_change p tr call (λ tool, started now (mark tag (update tool))) in
      (p, [change], tool_in change)
    else
      let found := update (new_tool call) in
      let p := match tool_status found with
               | Tool_Completed | Tool_Failed => with_skipped p (delete call (skipped p))
               | _ => match step_of with Some parent => skip p tr call parent | None => p end
               end in
      (p, [], Some found) in
  match tool with
  | None => (p, changes)
  | Some tool =>
      (p, changes
          ++ match t_activity tag with Some r => option_list (record tr call (tool_title tool) r now) | None => [] end
          ++ match t_parent tag with Some parent => option_list (step tr parent (tool_title tool)) | None => [] end)
  end.

(** [Projector::todo_plan]. *)
Definition todo_plan (p : Projector) (input : option Value) : list Change :=
  if planned p then [] else option_list (plan_change <$> (input ≫= todos_plan)).

(** [Projector::chunk]. *)
Definition chunk (p : Projector) (tr : Transcript) (stream : Stream) (message : option str) (b : ContentBlock) : Projector * option Change :=
  let author := match stream with S_User => Some Author_User | S_Agent => Some Author_Agent | S_Thought => None end in
  match (i ← media b; a ← author; Some (a, i)) with
  | Some (a, i) => let '(p, c) := image_change p a i in (p, Some c)
  | None => text_change p tr stream message (block_text b)
  end.

Section update.
Context {TJ : TagJson}.

(** The arms of [Projector::update] for tool calls. *)
Definition update_call (p : Projector) (tr : Transcript) (c : ToolCall) (now : N) : Projector * list Change :=
  let tag := tag_or_else (tag_read (c_meta c)) (claude_tag (c_meta c) (c_raw_input c) None) in
  if bool_decide (tag = tag_default) && (base.size (todos p) <? MAX_SKIPPED)%nat && is_tool (c_name c) (c_title c) (c_kind c) (c_raw_input c)
  then let p := with_todos p ({[c_id c]} ∪ todos p) in (p, todo_plan p (c_raw_input c))
  else tagged p tr (c_id c) tag now (apply_call c).

Definition ends_call (s : option ToolCallStatus) : bool := match s with Some (TS_Completed | TS_Failed) => true | _ => false end.

Definition update_tool (p : Projector) (tr : Transcript) (u : ToolCallUpdate) (now : N) : Projector * list Change :=
  let call := u_id u in
  let f := u_fields u in
  let tag := tag_or_else (tag_read (u_meta u)) (claude_tag (u_meta u) (f_raw_input f) (f_status f)) in
  let hidden := bool_decide (call ∈ todos p) in
  let stays := bool_decide (tag = tag_default) && stays_tool (f_kind f) (f_raw_input f) in
  let p := if hidden && (negb stays || ends_call (f_status f)) then with_todos p (todos p ∖ {[call]}) else p in
  if hidden && stays then (p, todo_plan p (f_raw_input f))
  else
    let shown := is_some (tools p !! call ≫= entry tr) in
    match (if shown then None else r ← t_activity tag; k ← activity tr call; Some (r, k)) with
    | Some (r, k) => (p, option_list (record tr call (label k) r now))
    | None => tagged p tr call tag now (apply_fields f)
    end.

Definition as_list (x : Projector * option Change) : Projector * list Change := (x.1, option_list x.2).

(** [Projector::update]. *)
Definition update (p : Projector) (tr : Transcript) (u : SessionUpdate) (now : N) : Projector * list Change :=
  match u with
  | UserMessageChunk message b => as_list (chunk p tr S_User message b)
  | AgentMessageChunk message b => as_list (chunk p tr S_Agent message b)
  | AgentThoughtChunk message b => as_list (chunk p tr S_Thought message b)
  | U_ToolCall c => update_call p tr c now
  | U_ToolCallUpdate u => update_tool p tr u now
  | U_Plan es => (with_planned p, [plan_change es])
  | AvailableCommandsUpdate cs => (p, [Commands (slash_command <$> cs)])
  | CurrentModeUpdate mode => (p, if is_some (modes tr) then [CurrentMode mode] else [])
  | SessionInfoUpdate title =>
      (p, match session tr with
          | Some s => [Session (Some (MkSessionInfo (cwd s) (session_id s) (default (session_title s) title)))]
          | None => []
          end)
  | UsageUpdate cost size used => (p, [SetUsage (Some (usage_of cost size used))])
  | U_Notice severity title description =>
      let level := match severity with Sev_Warning => Warning | Sev_Error => ErrorLevel | _ => Info end in
      let '(p, c) := notice p level (match description with Some d => title ++ [10] ++ d | None => title end) in
      (p, [c])
  | U_Other => (p, [])
  end.
End update.

(** ** Every change a projector makes fits *)

Fixpoint apply_each (t : Transcript) (cs : list Change) : option Transcript :=
  match cs with
  | [] => Some t
  | c :: cs => match apply t c with Some (t, Ok _) => apply_each t cs | _ => None end
  end.

Definition stream_kind (s : Stream) (k : EntryKind) : Prop :=
  match s, k with S_User, User _ _ | S_Agent, Agent _ | S_Thought, Thought _ => True | _, _ => False end.

(** What a projector knows of the transcript its changes go to. *)
Record pinv (p : Projector) (t : Transcript) : Prop := MkPinv {
  pi_wf : wf t;
  pi_ids : ∀ e, e ∈ entries t → entry_id e ≤ next p;
  pi_tools : ∀ call id, tools p !! call = Some id → id ≤ next p ∧ ∀ o, p_open p = Some o → o_entry o ≠ id;
  pi_open : ∀ o, p_open p = Some o → o_entry o ≤ next p ∧ ∀ k, MkEntry (o_entry o) k ∈ entries t → stream_kind (o_stream o) k;
  pi_texts : ∀ e s, e ∈ entries t → text (kind e) = Some s → str_len s ≤ MAX_ENTRY_TEXT
}.

(** *** Cutting *)

Lemma clip_fits have t s : clip have t = Some s → have + str_len s ≤ MAX_ENTRY_TEXT.
Proof.
  unfold clip. destruct (N.ltb_spec MAX_ENTRY_TEXT have); [done|]. set (room := MAX_ENTRY_TEXT - have). destruct (N.ltb_spec room (str_len TRUNCATED + 4)); [done|].
  destruct (N.leb_spec (str_len t) room); intros [= <-]; [lia|]. rewrite str_len_app. pose proof (byte_prefix_len (room - str_len TRUNCATED) t). lia.
Qed.

Lemma bounded_fits t : str_len (bounded t) ≤ MAX_ENTRY_TEXT.
Proof. unfold bounded. destruct (clip 0 t) as [s|] eqn:E; [change (str_len s ≤ MAX_ENTRY_TEXT); apply clip_fits in E; lia|]. done. Qed.

Lemma clip_line_fits t : str_len (clip_line t) ≤ MAX_ACTIVITY_TEXT.
Proof. unfold clip_line. apply byte_prefix_len. Qed.

(** *** Entries *)

Lemma push_fits t e : wf t → (∀ x, x ∈ entries t → entry_id x < entry_id e) → answers_ok e →
  apply t (Push e) = Some (set_entries t (entries t ++ [e]), Ok tt) ∧ wf (set_entries t (entries t ++ [e])).
Proof.
  intros Hwf Hlt Ha. assert (apply t (Push e) = Some (set_entries t (entries t ++ [e]), Ok tt)) as E.
  { unfold apply. assert (answers_refused (Push e) = None) as ->.
    { unfold answers_refused, answers_ok in *. destruct (kind e); try done. by rewrite Ha. }
    unfold last_entry_id. destruct (last (entries t)) as [x|] eqn:El; [|done]. cbn [fmap option_fmap option_map].
    apply last_Some_elem_of, Hlt in El. by rewrite (proj2 (N.leb_gt _ _)). }
  split; [done|]. pose proof (applied_all t (Push e) Hwf) as Hap. unfold applied in Hap. rewrite E in Hap. apply Hap.
Qed.

Lemma append_fits t id k k' more : wf t → MkEntry id k ∈ entries t → append_text k more = Some k' →
  ∃ t', apply t (Append id more) = Some (t', Ok tt) ∧ wf t' ∧ activities t' = activities t ∧
    (∀ e, e ∈ entries t' → e ∈ entries t ∧ entry_id e ≠ id ∨ e = MkEntry id k').
Proof.
  intros Hwf Hin Hk. pose proof (wf_order _ Hwf) as Ho. pose proof (position_spec t id Ho) as Hp. destruct (position t id) as [i|] eqn:Ep.
  2: { destruct Hp. unfold ids. apply (list_elem_of_fmap_2 entry_id) in Hin. exact Hin. }
  destruct Hp as (e & He & Eid). assert (e = MkEntry id k) as ->.
  { destruct e as [id' k0]. cbn in Eid. subst id'. f_equal. apply list_elem_of_lookup_2 in He. apply view_Some in He, Hin; [congruence|done|done]. }
  assert (apply t (Append id more) = Some (set_entries t (<[i := MkEntry id k']> (entries t)), Ok tt)) as E.
  { unfold apply. cbn [answers_refused]. rewrite Ep, He. cbn [mbind option_bind kind entry_id]. by rewrite Hk. }
  eexists. split; [exact E|]. pose proof (applied_all t (Append id more) Hwf) as Hap. unfold applied in Hap. rewrite E in Hap. split; [apply Hap|]. split; [done|].
  intros e [j Hj]%list_elem_of_lookup. cbn in Hj. apply list_lookup_insert_Some in Hj as [(-> & <- & _)|(Hne & Hj)]; [by right|]. left.
  split; [by eapply list_elem_of_lookup_2|]. intros Ej. destruct (Nat.lt_total i j) as [Hlt|[->|Hlt]]; [|done|].
  - pose proof (ordered_lookup _ _ _ _ _ Ho He Hj Hlt) as H. cbn in H. lia.
  - pose proof (ordered_lookup _ _ _ _ _ Ho Hj He Hlt) as H. cbn in H. lia.
Qed.

Lemma replace_fits t e k : wf t → MkEntry (entry_id e) k ∈ entries t → answers_ok e →
  ∃ t', apply t (Replace e) = Some (t', Ok tt) ∧ wf t' ∧ activities t' = activities t ∧ (∀ x, x ∈ entries t' → x ∈ entries t ∧ entry_id x ≠ entry_id e ∨ x = e).
Proof.
  intros Hwf Hin Ha. pose proof (wf_order _ Hwf) as Ho. pose proof (position_spec t (entry_id e) Ho) as Hp. destruct (position t (entry_id e)) as [i|] eqn:Ep.
  2: { destruct Hp. unfold ids. apply (list_elem_of_fmap_2 entry_id) in Hin. exact Hin. }
  destruct Hp as (old & He & Eid).
  assert (apply t (Replace e) = Some (set_entries t (<[i := e]> (entries t)), Ok tt)) as E.
  { unfold apply. assert (answers_refused (Replace e) = None) as ->.
    { unfold answers_refused, answers_ok in *. destruct (kind e); try done. by rewrite Ha. }
    by rewrite Ep, He. }
  eexists. split; [exact E|]. pose proof (applied_all t (Replace e) Hwf) as Hap. unfold applied in Hap. rewrite E in Hap. split; [apply Hap|]. split; [done|].
  intros x [j Hj]%list_elem_of_lookup. cbn in Hj. apply list_lookup_insert_Some in Hj as [(-> & <- & _)|(Hne & Hj)]; [by right|]. left.
  split; [by eapply list_elem_of_lookup_2|]. intros Ex. destruct (Nat.lt_total i j) as [Hlt|[->|Hlt]]; [|done|].
  - pose proof (ordered_lookup _ _ _ _ _ Ho He Hj Hlt) as H. lia.
  - pose proof (ordered_lookup _ _ _ _ _ Ho Hj He Hlt) as H. lia.
Qed.

(** *** Activities *)

Lemma find_known t call k : activity t call = Some k → k ∈ activities t ∧ call_id k = call.
Proof. unfold activity. intros [H1%list_elem_of_In H2%bool_decide_eq_true]%find_some. done. Qed.

Lemma remove_at_keeps {A} (l : list A) i a b : l !! i = Some a → b ∈ l → b ≠ a → b ∈ remove_at i l.
Proof.
  intros Hi Hb Hne. unfold remove_at. rewrite <- (take_drop_middle l i a Hi) in Hb. apply elem_of_app in Hb as [Hb|[Hb|Hb]%elem_of_cons]; [set_solver|done|set_solver].
Qed.

(** An activity that fits and has room is recorded, and no running one is lost. *)
Lemma record_fits t a : wf t → fits a = true →
  (is_Some (activity t (call_id a)) ∨ (length (activities t) < MAX_ACTIVITIES)%nat ∨ forallb is_running (activities t) = false) →
  ∃ t', apply t (ActivityChange a) = Some (t', Ok tt) ∧ wf t' ∧ entries t' = entries t ∧
    ∀ k, k ∈ activities t → is_running k = true → ∃ k', k' ∈ activities t' ∧ call_id k' = call_id k.
Proof.
  intros Hwf Hf Hroom.
  assert (∃ t', Transcript.record t a = (t', Ok tt) ∧ entries t' = entries t ∧
    ∀ k, k ∈ activities t → is_running k = true → ∃ k', k' ∈ activities t' ∧ call_id k' = call_id k) as (t' & E & H1 & H2).
  { unfold Transcript.record. rewrite Hf. cbn [negb].
    pose proof (position_of_spec (λ known, bool_decide (call_id known = call_id a)) (activities t)) as Hp. destruct (position_of _ (activities t)) as [i|] eqn:Ep.
    - destruct Hp as (old & Hi & Eq%bool_decide_eq_true). eexists. split; [done|]. split; [done|]. intros k [j Hj]%list_elem_of_lookup _. cbn.
      destruct (decide (i = j)) as [->|Hne].
      + exists a. split; [|congruence]. apply list_elem_of_lookup. exists j. apply list_lookup_insert_eq. by eapply lookup_lt_Some.
      + exists k. split; [|done]. apply list_elem_of_lookup. exists j. by rewrite list_lookup_insert_ne.
    - assert (activity t (call_id a) = None) as Hnone.
      { destruct (activity t (call_id a)) as [k|] eqn:Ek; [|done]. apply find_known in Ek as [Hin Eq]. rewrite Forall_forall in Hp. specialize (Hp k Hin).
        by rewrite bool_decide_eq_true_2 in Hp. }
      rewrite Hnone in Hroom. destruct (MAX_ACTIVITIES <=? length (activities t))%nat eqn:El.
      + apply Nat.leb_le in El. destruct Hroom as [[? ?]|[?|Hrun]]; [done|lia|].
        pose proof (position_of_spec (λ known, negb (is_running known)) (activities t)) as Hq. destruct (position_of (λ known, negb _) (activities t)) as [i|] eqn:Eq.
        * destruct Hq as (old & Hi & Hr%negb_true_iff). eexists. split; [done|]. split; [done|]. intros k Hk Hkr. exists k. split; [|done]. cbn. apply elem_of_app. left.
          eapply remove_at_keeps; [done|done|]. congruence.
        * exfalso. apply not_true_iff_false in Hrun. apply Hrun. apply forallb_forall. intros k Hk%list_elem_of_In. rewrite Forall_forall in Hq. specialize (Hq k Hk). by apply negb_false_iff.
      + eexists. split; [done|]. split; [done|]. intros k Hk _. exists k. split; [|done]. cbn. apply elem_of_app. by left. }
  assert (apply t (ActivityChange a) = Some (t', Ok tt)) as Ea by (unfold apply; cbn [answers_refused]; by rewrite E).
  exists t'. split_and!; [done| |done|done]. pose proof (applied_all t (ActivityChange a) Hwf) as Hap. unfold applied in Hap. rewrite Ea in Hap. apply Hap.
Qed.

Lemma fits_parts call lbl det fin kd st sta : str_len call ≤ MAX_ACTIVITY_TEXT → str_len lbl ≤ MAX_ACTIVITY_TEXT →
  (∀ d, det = Some d → str_len d ≤ MAX_ACTIVITY_TEXT) → fits (MkActivity call det fin kd lbl st sta) = true.
Proof.
  intros H1 H2 H3. unfold fits. cbn [call_id label detail forallb]. rewrite (proj2 (N.leb_le _ _) H1), (proj2 (N.leb_le _ _) H2). cbn [andb].
  destruct det as [d|]; cbn; [|done]. by rewrite (proj2 (N.leb_le _ _) (H3 d eq_refl)).
Qed.
Lemma parts_fit a : fits a = true → str_len (call_id a) ≤ MAX_ACTIVITY_TEXT ∧ str_len (label a) ≤ MAX_ACTIVITY_TEXT ∧
  ∀ d, detail a = Some d → str_len d ≤ MAX_ACTIVITY_TEXT.
Proof.
  unfold fits. cbn [forallb]. intros [H1%N.leb_le [H2%N.leb_le H3]%andb_true_iff]%andb_true_iff. split_and!; [done|done|]. intros d Hd. rewrite Hd in H3. cbn in H3.
  by apply andb_true_iff in H3 as [H3%N.leb_le _].
Qed.

(** What [record] makes of a report fits, and what [step] makes still fits after it. *)
Lemma recorded_fits t call title r now c : wf t → record t call title r now = Some c →
  ∃ a t', c = ActivityChange a ∧ apply t c = Some (t', Ok tt) ∧ wf t' ∧ entries t' = entries t ∧
    ∀ k, k ∈ activities t → is_running k = true → ∃ k', k' ∈ activities t' ∧ call_id k' = call_id k.
Proof.
  intros Hwf. unfold record. destruct (N.ltb_spec MAX_ACTIVITY_TEXT (str_len call)) as [|Hcall]; [done|].
  destruct (match activity t call with Some k => _ | None => _ end); [done|]. destruct (_ && _ && _) eqn:Eroom; [done|]. destruct (bool_decide (_ = activity t call)); [done|].
  intros [= <-]. match goal with |- context [ActivityChange ?x] => set (a := x) end.
  assert (∀ k, activity t call = Some k → fits k = true) as Hk.
  { intros k [Hin _]%find_known. pose proof (wf_fits _ Hwf) as Hw. rewrite Forall_forall in Hw. by apply Hw. }
  assert (fits a = true) as Hf.
  { apply fits_parts; [done| |].
    - destruct (r_label r); [apply clip_line_fits|]. destruct (activity t call) as [k|] eqn:Ek; [by destruct (parts_fit k (Hk k eq_refl)) as (_ & Hl & _)|apply clip_line_fits].
    - intros d. destruct (r_detail r); [intros [= <-]; apply clip_line_fits|]. destruct (activity t call) as [k|] eqn:Ek; [|done]. intros Hd. by apply (parts_fit k (Hk k eq_refl)). }
  exists a. destruct (record_fits t a Hwf Hf) as (t' & H1 & H2 & H3 & H4); [|by exists t'].
  cbn [call_id a]. destruct (activity t call); [left; by eexists|]. right. cbn [is_some negb andb] in Eroom. apply andb_false_iff in Eroom as [E%Nat.leb_gt|E]; [by left|by right].
Qed.

Lemma stepped_fits t t1 parent title c : wf t → wf t1 → (∀ k, k ∈ activities t → is_running k = true → ∃ k', k' ∈ activities t1 ∧ call_id k' = call_id k) →
  step t parent title = Some c → ∃ a t', c = ActivityChange a ∧ apply t1 c = Some (t', Ok tt) ∧ wf t' ∧ entries t' = entries t1.
Proof.
  intros Hwf Hwf1 Hrun. unfold step. destruct (activity t parent) as [k|] eqn:Ek; [|done]. cbn [mbind option_bind]. destruct (is_running k) eqn:Er; [|done]. cbn [negb].
  destruct (bool_decide _); [done|]. intros [= <-]. apply find_known in Ek as [Hin Eid]. pose proof (wf_fits _ Hwf) as Hw. rewrite Forall_forall in Hw.
  destruct (parts_fit k (Hw k Hin)) as (Hc & Hl & _). match goal with |- context [ActivityChange ?x] => set (a := x) end.
  assert (fits a = true) as Hf by (apply fits_parts; [done|done|intros d [= <-]; apply clip_line_fits]).
  exists a. destruct (record_fits t1 a Hwf1 Hf) as (t' & H1 & H2 & H3 & _); [|by exists t'].
  left. destruct (Hrun k Hin Er) as (k' & Hk' & Ek'). unfold activity. destruct (find _ _) eqn:E; [by eexists|].
  apply list_elem_of_In, (find_none _ _ E k') in Hk'. cbn in Hk'. by rewrite bool_decide_eq_true_2 in Hk'.
Qed.

(** *** The projector *)

(** The transcript changed in ways a projector does not look at. *)
Lemma pinv_entries p t t' : pinv p t → wf t' → entries t' = entries t → pinv p t'.
Proof. intros [] Hwf He. split; rewrite ?He; done. Qed.

(** The projector changed in what it knows besides. *)
Lemma pinv_same p p' t : pinv p t → next p' = next p → p_open p' = p_open p → tools p' = tools p → pinv p' t.
Proof. intros [] E1 E2 E3. split; rewrite ?E1, ?E2, ?E3; done. Qed.

Lemma pinv_close p t : pinv p t → pinv (close p) t.
Proof. intros []. split; try done. intros call id H. split; [by apply (pi_tools0 call)|done]. Qed.

(** A new entry, closed, streaming, or of a call. *)
Lemma pinv_push p t k o ts : pinv p t → answers_ok (MkEntry (next p + 1) k) → (∀ s, text k = Some s → str_len s ≤ MAX_ENTRY_TEXT) →
  (∀ x, o = Some x → o_entry x = next p + 1 ∧ stream_kind (o_stream x) k) →
  (∀ call id, ts !! call = Some id → tools p !! call = Some id ∨ id = next p + 1 ∧ o = None) →
  let p' := MkProjector (next p + 1) o (planned p) (skipped p) (steps p) (todos p) ts in
  ∃ t', apply t (Push (MkEntry (next p + 1) k)) = Some (t', Ok tt) ∧ pinv p' t' ∧ activities t' = activities t.
Proof.
  intros [] Ha Hs Ho Hts. destruct (push_fits t (MkEntry (next p + 1) k) pi_wf0) as [E Hwf]; [intros x Hx; cbn; specialize (pi_ids0 x Hx); lia|done|].
  eexists. split; [exact E|]. split; [|done]. split; cbn; [done| | | |].
  - intros e [He|He%list_elem_of_singleton]%elem_of_app; [specialize (pi_ids0 e He); lia|subst e; cbn; lia].
  - intros call id Hc. destruct (Hts call id Hc) as [H|[-> ->]]; [|split; [lia|done]]. destruct (pi_tools0 call id H) as [Hle _]. split; [lia|].
    intros x Hx. destruct (Ho x Hx) as [-> _]. lia.
  - intros x Hx. destruct (Ho x Hx) as [Ee Hk]. split; [lia|]. intros k' [Hin|Hin%list_elem_of_singleton]%elem_of_app.
    + specialize (pi_ids0 _ Hin). cbn in pi_ids0. lia.
    + by injection Hin as _ ->.
  - intros e s [He|He%list_elem_of_singleton]%elem_of_app; [by apply pi_texts0|]. subst e. apply Hs.
Qed.

Lemma push_entry_fits p t k : pinv p t → answers_ok (MkEntry (next p + 1) k) → (∀ s, text k = Some s → str_len s ≤ MAX_ENTRY_TEXT) →
  ∃ t', apply t (push_entry p k).2 = Some (t', Ok tt) ∧ pinv (push_entry p k).1 t' ∧ activities t' = activities t.
Proof. intros Hp Ha Hs. apply (pinv_push p t k None (tools p)); try done. intros call id H. by left. Qed.

Lemma text_change_fits p t stream message s p' c : pinv p t → text_change p t stream message s = (p', Some c) →
  ∃ t', apply t c = Some (t', Ok tt) ∧ pinv p' t' ∧ activities t' = activities t.
Proof.
  intros Hp. unfold text_change. destruct (bool_decide (s = [])); [done|]. destruct (p_open p ≫= _) as [o|] eqn:Eo.
  - destruct (p_open p) as [o'|] eqn:Epo; [|done]. cbn [mbind option_bind] in Eo. destruct (_ && _ && _) eqn:Ec; [|done]. injection Eo as ->.
    apply andb_true_iff in Ec as [[Es%bool_decide_eq_true _]%andb_true_iff El%bool_decide_eq_true]. intros [= <- Hc].
    destruct (clip _ s) as [more|] eqn:Ecl; [|done]. injection Hc as <-. destruct Hp. destruct (pi_open0 o Epo) as [Hle Hk].
    unfold last_entry_id in El. destruct (last (entries t)) as [[id k]|] eqn:Elast; [|done]. injection El as El. cbn in El. subst id.
    apply last_Some_elem_of in Elast. specialize (Hk k Elast). pose proof (wf_order _ pi_wf0) as Hord.
    assert (entry t (o_entry o) = Some (MkEntry (o_entry o) k)) as Een.
    { unfold entry. pose proof (position_spec t (o_entry o) Hord) as Hpos. destruct (position t (o_entry o)) as [i|].
      - destruct Hpos as ([id' k'] & Hi & Eid). cbn in Eid. subst id'. cbn. rewrite Hi. f_equal. f_equal. apply list_elem_of_lookup_2 in Hi. apply view_Some in Hi, Elast; [congruence|done|done].
      - destruct Hpos. by apply (list_elem_of_fmap_2 entry_id) in Elast. }
    rewrite Een in Ecl. cbn [mbind option_bind kind] in Ecl.
    assert (∃ old, text k = Some old ∧ ∃ k', append_text k more = Some k' ∧ text k' = Some (old ++ more) ∧ stream_kind (o_stream o) k') as (old & Eold & k' & Ek' & Et & Hs').
    { destruct (o_stream o), k; try done; cbn; eexists; (split; [done|]); eexists; by split_and!. }
    rewrite Eold in Ecl. apply clip_fits in Ecl.
    destruct (append_fits t (o_entry o) k k' more pi_wf0 Elast Ek') as (t' & Ha & Hwf & Hact & Hin). exists t'. split_and!; [done| |done]. split; try done.
    + intros e He. destruct (Hin e He) as [[He' _]| ->]; [by apply pi_ids0|done].
    + intros o2 Ho2. rewrite Epo in Ho2. injection Ho2 as <-. split; [done|]. intros k2 Hk2. destruct (Hin _ Hk2) as [[_ Hne]|[= ->]]; [done|done].
    + intros e x He Hx. destruct (Hin e He) as [[He' _]| ->]; [by apply (pi_texts0 e)|]. cbn in Hx. rewrite Et in Hx. injection Hx as <-. rewrite str_len_app. lia.
  - cbn [next_id]. intros [= <- <-]. apply (pinv_push p t _ _ (tools p) Hp); cbn.
    + by destruct stream.
    + intros x Hx. destruct stream; injection Hx as <-; apply bounded_fits.
    + intros x [= <-]. cbn. split; [done|]. by destruct stream.
    + intros call id H. by left.
Qed.

Lemma tool_change_fits p t call f : pinv p t → let '(p', c) := tool_change p t call f in
  ∃ t', apply t c = Some (t', Ok tt) ∧ pinv p' t' ∧ activities t' = activities t.
Proof.
  intros Hp. unfold tool_change. destruct (known_tool p t call) as [[id tool]|] eqn:Ek.
  - unfold known_tool in Ek. destruct (tools p !! call) as [id'|] eqn:Et; [|done]. cbn [mbind option_bind] in Ek.
    destruct (entry t id') as [e|] eqn:Ee; [|done]. cbn [mbind option_bind] in Ek. destruct (kind e) eqn:Eke; try done. injection Ek as <- <-.
    assert (e ∈ entries t ∧ entry_id e = id') as [Hin Eid].
    { unfold entry in Ee. pose proof (position_spec t id' (wf_order _ (pi_wf _ _ Hp))) as Hpos. destruct (position t id') as [i|]; [|done]. cbn in Ee.
      destruct Hpos as (e' & Hi & Eid). rewrite Hi in Ee. injection Ee as ->. split; [by eapply list_elem_of_lookup_2|done]. }
    destruct Hp. destruct (pi_tools0 call id' Et) as [Hle Hno].
    destruct (replace_fits t (MkEntry (entry_id e) (ToolEntry (f tool0))) (kind e) pi_wf0) as (t' & Ha & Hwf & Hact & Hin'); [by destruct e|done|].
    exists t'. split_and!; [done| |done]. split; try done.
    + intros x Hx. destruct (Hin' x Hx) as [[Hx' _]| ->]; [by apply pi_ids0|]. cbn. lia.
    + intros o Ho. destruct (pi_open0 o Ho) as [H1 H2]. split; [done|]. intros k Hk. destruct (Hin' _ Hk) as [[Hk' _]|[= E1 E2]]; [by apply H2|]. destruct (Hno o Ho). congruence.
    + intros x s Hx Hs. destruct (Hin' x Hx) as [[Hx' _]| ->]; [by apply (pi_texts0 x)|done].
  - apply (pinv_push p t (ToolEntry (f (new_tool call))) None (<[call := next p + 1]> (tools p)) Hp); try done. intros c id [[_ <-]|[_ H]]%lookup_insert_Some; [by right|by left].
Qed.

Lemma apply_each_app t cs ds : apply_each t (cs ++ ds) = apply_each t cs ≫= λ t, apply_each t ds.
Proof. revert t. induction cs as [|c cs IH]; intros t; cbn; [done|]. destruct (apply t c) as [[t' []]|]; [apply IH|done|done]. Qed.

(** The changes land one after the other. *)
Definition lands (t : Transcript) (p : Projector) (cs : list Change) : Prop := ∃ t', apply_each t cs = Some t' ∧ pinv p t'.

Lemma lands_nil p t : pinv p t → lands t p [].
Proof. intros H. by exists t. Qed.
Lemma lands_one p t c : (∃ t', apply t c = Some (t', Ok tt) ∧ pinv p t') → lands t p [c].
Proof. intros (t' & E & H). exists t'. cbn. by rewrite E. Qed.

(** What a call reports of its activity and that of its sub-agent. *)
Lemma reports_fit p t t1 tag call title now : wf t → pinv p t1 → activities t1 = activities t →
  lands t1 p (match t_activity tag with Some r => option_list (record t call title r now) | None => [] end
    ++ match t_parent tag with Some parent => option_list (step t parent title) | None => [] end).
Proof.
  intros Hwf Hp Ha.
  assert (∃ t2, apply_each t1 (match t_activity tag with Some r => option_list (record t call title r now) | None => [] end) = Some t2 ∧ pinv p t2 ∧
    ∀ k, k ∈ activities t → is_running k = true → ∃ k', k' ∈ activities t2 ∧ call_id k' = call_id k) as (t2 & E & Hp2 & Hrun).
  { assert (∃ t2, apply_each t1 [] = Some t2 ∧ pinv p t2 ∧ ∀ k, k ∈ activities t → is_running k = true → ∃ k', k' ∈ activities t2 ∧ call_id k' = call_id k) as Hnil.
    { exists t1. split_and!; [done|done|]. intros k Hk _. exists k. by rewrite Ha. }
    destruct (t_activity tag) as [r|]; [|done]. destruct (record t call title r now) as [c|] eqn:Er; [|done].
    assert (record t1 call title r now = Some c) as Er1 by (unfold record, activity in *; by rewrite Ha).
    destruct (recorded_fits t1 call title r now c (pi_wf _ _ Hp) Er1) as (a & t2 & -> & H1 & H2 & H3 & H4). exists t2. cbn [option_list option_rect apply_each]. rewrite H1.
    split_and!; [done|by eapply pinv_entries|]. intros k Hk. apply H4. by rewrite Ha. }
  unfold lands. rewrite apply_each_app, E. cbn [mbind option_bind]. destruct (t_parent tag) as [parent|]; [|by exists t2].
  destruct (step t parent title) as [c|] eqn:Es; [|by exists t2]. destruct (stepped_fits t t2 parent title c Hwf (pi_wf _ _ Hp2) Hrun Es) as (a & t3 & -> & H1 & H2 & H3).
  exists t3. cbn [option_list option_rect apply_each]. rewrite H1. split; [done|]. by eapply pinv_entries.
Qed.

Lemma skip_same p t call parent : next (skip p t call parent) = next p ∧ p_open (skip p t call parent) = p_open p ∧ tools (skip p t call parent) = tools p.
Proof. unfold skip. destruct (_ <=? _)%nat; destruct (_ <? _)%nat; done. Qed.
Lemma admit_same p t parent : let p' := (admit_step p t parent).1 in next p' = next p ∧ p_open p' = p_open p ∧ tools p' = tools p.
Proof. unfold admit_step. destruct (_ <? _)%nat; done. Qed.

Lemma tagged_fits p t call tag now f : pinv p t → let '(p', cs) := tagged p t call tag now f in lands t p' cs.
Proof.
  intros Hp. unfold tagged. set (step_of := if is_some (tools p !! call) then None else t_parent tag).
  assert (pinv (if is_some (skipped p !! call) then (p, false) else match step_of with Some parent => admit_step p t parent | None => (p, true) end).1 t) as Hp1.
  { destruct (is_some (skipped p !! call)); [done|]. destruct step_of as [parent|]; [|done]. destruct (admit_same p t parent) as (E1 & E2 & E3). by eapply pinv_same. }
  destruct (if is_some (skipped p !! call) then _ else _) as [p1 shows]. cbn [fst] in Hp1. pose proof (pi_wf _ _ Hp) as Hwf. destruct shows.
  - pose proof (tool_change_fits p1 t call (λ tool, started now (mark tag (f tool))) Hp1) as Ht. destruct (tool_change p1 t call _) as [p2 c]. destruct Ht as (t1 & E & Hp2 & Ha).
    destruct (tool_in c) as [tool|]; [|apply lands_one; by exists t1]. unfold lands. rewrite apply_each_app. cbn [apply_each]. rewrite E. cbn [mbind option_bind]. by apply reports_fit.
  - assert (∀ p2, next p2 = next p1 → p_open p2 = p_open p1 → tools p2 = tools p1 → pinv p2 t) as Hsame by (intros p2 E1 E2 E3; by eapply pinv_same).
    cbn [app]. apply reports_fit; [done| |done]. destruct (tool_status _); try (by apply Hsame); destruct step_of as [parent|]; try done; apply Hsame; apply skip_same.
Qed.

Lemma chunk_fits p t stream message b : pinv p t → lands t (as_list (chunk p t stream message b)).1 (as_list (chunk p t stream message b)).2.
Proof.
  intros Hp. unfold chunk. destruct (media b ≫= _) as [[a i]|].
  - unfold image_change. pose proof (push_entry_fits p t (ImageEntry a i) Hp) as H. destruct (push_entry p (ImageEntry a i)) as [p' c]. apply lands_one.
    destruct H as (t' & H1 & H2 & _); [done|done|]. by exists t'.
  - destruct (text_change p t stream message (block_text b)) as [p' [c|]] eqn:E.
    + apply lands_one. destruct (text_change_fits _ _ _ _ _ _ _ Hp E) as (t' & H1 & H2 & _). by exists t'.
    + apply lands_nil. unfold text_change in E. destruct (bool_decide _); [by injection E as <-|]. destruct (p_open p ≫= _); [by injection E as <- _|done].
Qed.

(** A change that replaces a part the projector does not look at. *)
Lemma plain_fits p t c t' : pinv p t → apply t c = Some (t', Ok tt) → entries t' = entries t → lands t p [c].
Proof.
  intros Hp E He. apply lands_one. exists t'. split; [done|]. eapply pinv_entries; [done| |done].
  pose proof (applied_all t c (pi_wf _ _ Hp)) as Hap. unfold applied in Hap. rewrite E in Hap. apply Hap.
Qed.

Section fits.
Context {TJ : TagJson}.

Lemma update_call_fits p t c now : pinv p t → let '(p', cs) := update_call p t c now in lands t p' cs.
Proof.
  intros Hp. unfold update_call. destruct (_ && _ && _); [|by apply tagged_fits]. set (p1 := with_todos _ _). assert (pinv p1 t) as H1 by (by eapply pinv_same).
  unfold todo_plan. destruct (planned p1); [by apply lands_nil|]. destruct (c_raw_input c ≫= todos_plan); [|by apply lands_nil]. by eapply plain_fits.
Qed.

Lemma update_tool_fits p t u now : pinv p t → let '(p', cs) := update_tool p t u now in lands t p' cs.
Proof.
  intros Hp. unfold update_tool. match goal with |- context [if ?b then with_todos ?x ?y else p] => set (p1 := if b then with_todos x y else p) end. assert (pinv p1 t) as H1 by (unfold p1; destruct (_ && _); [by eapply pinv_same|done]). clearbody p1.
  destruct (_ && _).
  - unfold todo_plan. destruct (planned p1); [by apply lands_nil|]. destruct (f_raw_input (u_fields u) ≫= todos_plan); [|by apply lands_nil]. by eapply plain_fits.
  - destruct (if is_some _ then None else _) as [[r k]|]; [|by apply tagged_fits]. destruct (record t _ _ r now) as [c|] eqn:Er; [|by apply lands_nil].
    destruct (recorded_fits _ _ _ _ _ _ (pi_wf _ _ Hp) Er) as (a & t' & -> & E & Hwf & He & _). by eapply plain_fits.
Qed.

(** C26: whatever an agent's update says, the changes a projector makes
    of it fit the transcript it read, one after the other: an entry it adds comes
    last, one it appends to or replaces is there and of the right kind, an activity
    it records has room and its texts are short enough, and no text of the
    transcript grows over 256 KiB. The projector is right about the transcript
    again afterwards, for the next update. *)
Theorem updates_fit p t u now : pinv p t → let '(p', cs) := update p t u now in ∃ t', apply_each t cs = Some t' ∧ pinv p' t'.
Proof.
  intros Hp. destruct u; cbn [update]; try apply (chunk_fits p t); try done.
  - by apply update_call_fits.
  - by apply update_tool_fits.
  - eapply (plain_fits _ _ _ _ (pinv_same p (with_planned p) t Hp eq_refl eq_refl eq_refl)); reflexivity.
  - by eapply (plain_fits _ _ _ _ Hp).
  - destruct (modes t) eqn:Em; cbn [is_some]; [|by apply lands_nil]. eapply (plain_fits _ _ _ _ Hp); [cbn; by rewrite Em|done].
  - destruct (Transcript.session t); [by eapply (plain_fits _ _ _ _ Hp)|by apply lands_nil].
  - by eapply (plain_fits _ _ _ _ Hp).
  - unfold notice. match goal with |- context [push_entry p ?k] => pose proof (push_entry_fits p t k Hp) as H; destruct (push_entry p k) as [p' c] end.
    apply lands_one. destruct H as (t' & H1 & H2 & _); [done|intros x [= <-]; apply bounded_fits|]. by exists t'.
  - by apply lands_nil.
Qed.
End fits.

(** ** A first message *)

Lemma pinv_start name : pinv projector_default (transcript_new name).
Proof. split; cbn; try done; [apply wf_new|by intros e Hin%not_elem_of_nil|by intros e s Hin%not_elem_of_nil]. Qed.

Lemma updates_fit_witness : pinv projector_default (transcript_new (lit "agent")) ∧
  ∃ t', apply_each (transcript_new (lit "agent")) (update (TJ := λ _, None) projector_default (transcript_new (lit "agent"))
    (AgentMessageChunk None (CB_Text (lit "hi"))) 5).2 = Some t' ∧ entries t' = [MkEntry 1 (Agent (lit "hi"))].
Proof.
  split; [apply pinv_start|].
  pose proof (updates_fit (TJ := λ _, None) projector_default (transcript_new (lit "agent")) (AgentMessageChunk None (CB_Text (lit "hi"))) 5 (pinv_start _)) as H.
  destruct H as (t' & E & _). exists t'. split; [exact E|]. vm_compute in E. injection E as <-. reflexivity.
Defined.
End Project.
