(* ===== verification/ChatSession.v ===== *)
(** * ChatSession: the owner of a conversation
    (crates/sheprd-acp/src/session.rs, session/agent.rs, session/commands.rs
    and session/pictures.rs)

    One thread takes inputs in order: what the agent says, what clients ask for,
    clients that attach and leave. It keeps the transcript, and sends every change
    of it to the clients. What the rest of the world does (whether a bounded queue
    has room, the clock, the pictures a file holds) are oracles of the number of
    times the session asked. *)

From Stdlib Require Import NArith Lia.
From stdpp Require Import base option strings list gmap sets sorting.
From S2P Require Import Prelude Transcript Display Project.

Local Open Scope N_scope.

Module ChatSession.
Import Transcript Project.

#[export] Instance Status_eq_dec : EqDecision Status.
Proof. solve_decision. Defined.

Definition LOG : nat := N.to_nat 8192.
Definition LOG_BYTES : N := 32 * 1024 * 1024.
Definition HANDLED : nat := 256.
Definition MAX_ENTRIES : nat := N.to_nat 2000.
Definition MAX_TRANSCRIPT_TEXT : N := 2 * 1024 * 1024.
Definition MAX_TRANSCRIPT_MEDIA : N := 8 * 1024 * 1024.
Definition MAX_QUEUED : nat := 32.
Definition MAX_QUEUED_TEXT : N := 1024 * 1024.
Definition MAX_PROMPT_SIZE : N := 256 * 1024.
Definition MAX_ATTACHMENTS : nat := 10.
Definition ATTACHED : str := [128206; 32].
Definition VERSION : N := 1.

(** ** Messages *)

Record Cursor := MkCursor { epoch : N; seq : N }.
#[export] Instance Cursor_eq_dec : EqDecision Cursor.
Proof. solve_decision. Defined.

Inductive Rejection :=
| EmptyPrompt | PromptTooLong | NotReady | NotWorking | UnknownPermission_ | UnknownOption | UnknownMode | UnknownSetting | UnknownQueued
| AgentUnavailable | TooManyAttachments | QueueFull | UnknownFile | Unsupported | OtherRejection.

Inductive Command :=
| Prompt (text : str) (attachments : list Attachment)
| Cancel
| Answer (option : str) (permission : N)
| SetMode (id : str)
| SetOption (id : str) (value : OptionValue)
| Unqueue (id : N)
| SetAutoAccept (on : bool).

Inductive ByeReason := Bye_Version (supported : N) | Exiting | Handshake.

Inductive ServerMessage :=
| Welcome (agent : str) (pane : option str) (version : N)
| Snapshot (cursor : Cursor) (transcript : Transcript)
| ChangeTo (change : Change) (cursor : Cursor)
| Ack (id : N) (rejected : option Rejection)
| Bye (reason : ByeReason).

(** What goes to the agent: requests, cancelling, answers to its own requests. *)
Inductive RequestId := Id_Number (n : Z) | Id_Text (s : str) | Id_Null.
Inductive AgentRequest :=
| Req_Initialize
| Req_NewSession
| Req_LoadSession (id : str)
| Req_Prompt (session : str) (blocks : list ContentBlock)
| Req_SetMode (session mode : str)
| Req_SetOption (session id : str) (value : OptionValue).
Inductive AgentAnswer := Selected (option : str) | Cancelled_ | MethodNotFound | InvalidParams.
Inductive AgentLine :=
| Line_Request (id : N) (r : AgentRequest)
| Line_Cancel (session : str)
| Line_Answer (id : RequestId) (a : AgentAnswer).

(** ** What an agent's messages hold, as serde reads them *)

Record Capabilities := MkCapabilities { embedded : bool; image : bool; load_session : bool }.
Inductive PermissionOptionKind := PO_AllowOnce | PO_AllowAlways | PO_RejectOnce | PO_RejectAlways | PO_Newer.
Record WirePermissionOption := MkWirePermissionOption { po_id : str; po_kind : PermissionOptionKind; po_name : str; po_manual : bool }.
Record PermissionRequest := MkPermissionRequest {
  pr_session : str; pr_call : str; pr_fields : ToolCallUpdateFields; pr_options : list WirePermissionOption }.
Inductive StopReason := EndTurn | StopCancelled | MaxTokens | MaxTurnRequests | Refusal | Stop_Newer.

(** [config_options] are the settings of an answer: present, then an array of
    items; [update_session] is the [sessionId] of an update, and [config_update]
    the settings of one that sets them. *)
Class AcpJson (V : Type) := {
  initialize_response : V → res str Capabilities;
  config_options : V → option (option (list (option WireConfigOption)));
  loaded_modes : V → option WireModes;
  new_session : V → res str (str * option WireModes);
  update_session : V → option str;
  config_update : V → option (option (list (option WireConfigOption)));
  notification : V → option (str * SessionUpdate);
  permission_request : V → option PermissionRequest;
  stop_reason : V → option StopReason;
  prompt_tokens : V → option Tokens;
}.

Record AgentError := MkAgentError { auth_required : bool; error_message : str }.

Inductive Inbound {V : Type} :=
| In_Request (id : RequestId) (method : str) (params : V)
| In_Notification (method : str) (params : V)
| In_Response (id : RequestId) (result : res AgentError V)
| In_Closed (error : option str).
Arguments Inbound : clear implicits.

(** ** Sizes *)

Definition sumN (l : list N) : N := foldr N.add 0 l.

Definition content_size (c : ToolContent) : N :=
  match c with
  | Content_Text t => str_len t
  | Content_Diff new old path => str_len new + match old with Some o => str_len o | None => 0 end + str_len path
  | Content_Terminal id => str_len id
  | Content_Image _ => 0
  end.

Definition entry_size (e : Entry) : N :=
  match kind e with
  | Notice answers details _ t =>
      str_len t + match details with Some d => str_len d | None => 0 end + sumN ((λ a, str_len (question a) + str_len (answer a)) <$> answers)
  | ToolEntry tool => str_len (tool_title tool) + sumN (str_len <$> tool_locations tool) + sumN (content_size <$> tool_content tool)
  | TurnEntry _ => 32
  | k => match text k with Some t => str_len t | None => 0 end
  end.

Definition entry_media (e : Entry) : N :=
  match kind e with
  | ImageEntry _ i => str_len (image_data i)
  | ToolEntry tool => sumN ((λ c, match c with Content_Image i => str_len (image_data i) | _ => 0 end) <$> tool_content tool)
  | _ => 0
  end.

Definition change_size (c : Change) : N :=
  match c with
  | Push e | Replace e => entry_size e + entry_media e
  | Append _ t => str_len t
  | _ => 64
  end.

(** The loop of [keep_from] over the entries still kept, from the one at [drop]. *)
Fixpoint keep_loop (es : list Entry) (drop : nat) (txt media : N) : nat :=
  match es with
  | [] => drop
  | e :: rest =>
      if ((MAX_TRANSCRIPT_TEXT <? txt) || (MAX_TRANSCRIPT_MEDIA <? media)) && negb (bool_decide (length rest = 0%nat))
      then keep_loop rest (S drop) (txt - entry_size e) (media - entry_media e) else drop
  end.

Definition keep_from (es : list Entry) : nat :=
  let first := (length es - MAX_ENTRIES)%nat in
  let kept := drop first es in
  keep_loop kept first (sumN (entry_size <$> kept)) (sumN (entry_media <$> kept)).

(** ** State *)

(** A client: what it had when it came, and what its queue took. *)
Record Subscriber := MkSubscriber { conn : N; local : bool; held : option (Cursor * Transcript); outbox : list ServerMessage }.

Inductive SessionActivity := A_Idle | A_Working | A_Blocked.
#[export] Instance SessionActivity_eq_dec : EqDecision SessionActivity.
Proof. solve_decision. Defined.
Inductive Update := Up_Activity (a : SessionActivity) | Up_Opened (id : str) | Up_Prompt (shown : str).

Inductive Pending := P_Initialize | P_NewSession | P_LoadSession | P_Prompt | P_SetMode (mode : str) | P_SetOption.
Record Asked := MkAsked { asked_options : list str; asked_request : RequestId }.
Record Pictures := MkPictures { pic_open : option N; pic_tools : gset str }.

Record Config := MkConfig {
  cfg_agent : str; cfg_cwd : str; exit_with_agent : bool; cfg_load : option str; login_hint : option str; cfg_pane : option str;
  require_load : bool }.

(** The part of a session that follows the changes. [past] has the transcript
    after every number of changes and [gone] the clients that left; [asks] counts
    the questions to the world. *)
Record Feed := MkFeed {
  transcript : Transcript; f_epoch : N; f_seq : N; log : list (N * Change); log_bytes : N; subscribers : list Subscriber; asks : nat;
  past : list Transcript; gone : list Subscriber }.

Record Session := MkSession {
  feed : Feed;
  projector : Projector;
  pictures : Pictures;
  s_activity : option SessionActivity;
  reports : list Update;             (** what the report function was told *)
  to_agent : list AgentLine;         (** the lines the agent's queue took *)
  accepts_ : Capabilities;
  acp_session : option str;
  asked : gmap N Asked;
  handled : list (N * option Rejection);
  next_permission : N;
  next_request : N;
  s_pending : gmap N Pending;
  ready : bool;
  s_turn : option N
}.

Definition tr (s : Session) : Transcript := transcript (feed s).
Definition cursor (f : Feed) : Cursor := MkCursor (f_epoch f) (f_seq f).

Definition with_feed (s : Session) (f : Feed) : Session :=
  MkSession f (projector s) (pictures s) (s_activity s) (reports s) (to_agent s) (accepts_ s) (acp_session s) (asked s) (handled s)
    (next_permission s) (next_request s) (s_pending s) (ready s) (s_turn s).
Definition with_projector (s : Session) (p : Projector) : Session :=
  MkSession (feed s) p (pictures s) (s_activity s) (reports s) (to_agent s) (accepts_ s) (acp_session s) (asked s) (handled s)
    (next_permission s) (next_request s) (s_pending s) (ready s) (s_turn s).
Definition with_pictures (s : Session) (p : Pictures) : Session :=
  MkSession (feed s) (projector s) p (s_activity s) (reports s) (to_agent s) (accepts_ s) (acp_session s) (asked s) (handled s)
    (next_permission s) (next_request s) (s_pending s) (ready s) (s_turn s).
Definition with_report (s : Session) (a : option SessionActivity) (u : Update) : Session :=
  MkSession (feed s) (projector s) (pictures s) a (reports s ++ [u]) (to_agent s) (accepts_ s) (acp_session s) (asked s) (handled s)
    (next_permission s) (next_request s) (s_pending s) (ready s) (s_turn s).
Definition with_agent (s : Session) (l : list AgentLine) (next : N) (pending : gmap N Pending) : Session :=
  MkSession (feed s) (projector s) (pictures s) (s_activity s) (reports s) l (accepts_ s) (acp_session s) (asked s) (handled s)
    (next_permission s) next pending (ready s) (s_turn s).
Definition with_opened (s : Session) (c : Capabilities) (id : option str) (ready : bool) : Session :=
  MkSession (feed s) (projector s) (pictures s) (s_activity s) (reports s) (to_agent s) c id (asked s) (handled s)
    (next_permission s) (next_request s) (s_pending s) ready (s_turn s).
Definition with_asked (s : Session) (a : gmap N Asked) (next : N) : Session :=
  MkSession (feed s) (projector s) (pictures s) (s_activity s) (reports s) (to_agent s) (accepts_ s) (acp_session s) a (handled s)
    next (next_request s) (s_pending s) (ready s) (s_turn s).
Definition with_handled (s : Session) (h : list (N * option Rejection)) : Session :=
  MkSession (feed s) (projector s) (pictures s) (s_activity s) (reports s) (to_agent s) (accepts_ s) (acp_session s) (asked s) h
    (next_permission s) (next_request s) (s_pending s) (ready s) (s_turn s).
Definition with_turn (s : Session) (t : option N) : Session :=
  MkSession (feed s) (projector s) (pictures s) (s_activity s) (reports s) (to_agent s) (accepts_ s) (acp_session s) (asked s) (handled s)
    (next_permission s) (next_request s) (s_pending s) (ready s) t.

Definition with_subscribers (f : Feed) (subs lost : list Subscriber) (asks : nat) : Feed :=
  MkFeed (transcript f) (f_epoch f) (f_seq f) (log f) (log_bytes f) subs asks (past f) (gone f ++ lost).
Definition ask (f : Feed) : Feed :=
  MkFeed (transcript f) (f_epoch f) (f_seq f) (log f) (log_bytes f) (subscribers f) (S (asks f)) (past f) (gone f).

(** The world, asked for the [n]th time: room in a client's queue and in the
    agent's, the time, whether a file can be sent, its content block and picture,
    the pictures a message links and those a finished tool call wrote. *)
Record World := MkWorld {
  room : nat → bool;
  agent_room : nat → res str unit;
  clock : nat → N;
  readable : nat → Attachment → bool;
  prepare : nat → Attachment → Capabilities → ContentBlock * option Image;
  linked : nat → str → list Image;
  of_tool : nat → Tool → list ToolContent
}.

Existing Class World.
Existing Class Config.

Section session.
Context {V : Type} {AJ : AcpJson V} {TJ : TagJson} {W : World} {cfg : Config}.

(** ** Sending a change to every client *)

Definition remote_clients (f : Feed) : N := N.min u32_max (lenN (filter (λ s, local s = false) (subscribers f))).

(** The changes kept make room for one of [size]. *)
Fixpoint trim_log (l : list (N * Change)) (bytes size : N) : list (N * Change) * N :=
  match l with
  | [] => ([], bytes)
  | (_, old) :: rest =>
      if (length l =? LOG)%nat || (LOG_BYTES <? bytes + size) then trim_log rest (bytes - change_size old) size else (l, bytes)
  end.

Definition landed (f : Feed) (t : Transcript) (c : Change) : Feed :=
  let seq := f_seq f + 1 in
  let '(l, bytes) := trim_log (log f) (log_bytes f) (change_size c) in
  MkFeed t (f_epoch f) seq (l ++ [(seq, c)]) (bytes + change_size c) (subscribers f) (asks f) (past f ++ [t]) (gone f).

Definition took (s : Subscriber) (m : ServerMessage) : Subscriber := MkSubscriber (conn s) (local s) (held s) (outbox s ++ [m]).

(** [try_send] to each; the clients whose queue has no room leave. *)
Fixpoint send_each (m : ServerMessage) (subs : list Subscriber) (n : nat) : list Subscriber * list Subscriber * nat :=
  match subs with
  | [] => ([], [], n)
  | s :: subs =>
      let '(kept, lost, n') := send_each m subs (S n) in
      if room W n then (took s m :: kept, lost, n') else (kept, s :: lost, n')
  end.
Definition broadcast (f : Feed) (m : ServerMessage) : Feed :=
  let '(kept, lost, n) := send_each m (subscribers f) (asks f) in with_subscribers f kept lost n.

(** [report_activity]. *)
Definition activity_of (t : Transcript) : SessionActivity :=
  if is_blocked t then A_Blocked else if bool_decide (status t = Working) then A_Working else A_Idle.
Definition report_activity (s : Session) : Session :=
  let a := activity_of (tr s) in
  if bool_decide (s_activity s = Some a) then s else with_report s (Some a) (Up_Activity a).

(** pictures.rs, around the change that [emit] lands. *)
Definition linked_images (s : Session) (open : N) : list Image :=
  match entry (tr s) open with
  | Some e => match kind e with Agent t => linked W (asks (feed s)) t | _ => [] end
  | None => []
  end.

Definition emit_image (emit : Session → Change → option Session) (s : Session) (i : Image) : option Session :=
  let '(p, c) := image_change (projector s) Author_Agent i in emit (with_projector s p) c.

Definition pictures_before (emit : Session → Change → option Session) (s : Session) (c : Change) : option (Session * Change) :=
  match c with
  | Push e =>
      if bool_decide (pic_open (pictures s) = Some (entry_id e)) then Some (s, c)
      else
        '(s, e) ← match pic_open (pictures s) with
                  | None => Some (s, e)
                  | Some open =>
                      let images := linked_images s open in
                      let s := with_pictures (with_feed s (ask (feed s))) (MkPictures None (pic_tools (pictures s))) in
                      s ← foldM (emit_image emit) s images;
                      match images with
                      | [] => Some (s, e)
                      | _ => let '(p, id) := renumber (projector s) (entry_id e) in Some (with_projector s p, MkEntry id (kind e))
                      end
                  end;
        let s := match kind e with Agent _ => with_pictures s (MkPictures (Some (entry_id e)) (pic_tools (pictures s))) | _ => s end in
        Some (s, Push e)
  | _ => Some (s, c)
  end.

Definition add_content (tool : Tool) (more : list ToolContent) : Tool :=
  MkTool (tool_call_id tool) (tool_content tool ++ more) (tool_kind tool) (tool_locations tool) (tool_parent tool) (tool_started_ms tool)
    (tool_status tool) (tool_title tool).

Definition finished_tool (c : Change) : option (N * Tool) :=
  match c with
  | Push e | Replace e =>
      match kind e with
      | ToolEntry tool => match tool_status tool with Tool_Completed => Some (entry_id e, tool) | _ => None end
      | _ => None
      end
  | _ => None
  end.

Definition pictures_after (emit : Session → Change → option Session) (s : Session) (c : Change) : option Session :=
  match finished_tool c with
  | None => Some s
  | Some (id, tool) =>
      if bool_decide (tool_call_id tool ∈ pic_tools (pictures s)) then Some s
      else
        let images := of_tool W (asks (feed s)) tool in
        let s := with_pictures (with_feed s (ask (feed s)))
                   (MkPictures (pic_open (pictures s)) ({[tool_call_id tool]} ∪ pic_tools (pictures s))) in
        match images with
        | [] => Some s
        | _ => emit s (Replace (MkEntry id (ToolEntry (add_content tool images))))
        end
  end.

(** [bound]; [None] is an index out of range. *)
Definition bound (emit : Session → Change → option Session) (s : Session) : option Session :=
  let n := keep_from (entries (tr s)) in
  if (0 <? n)%nat then e ← entries (tr s) !! n; emit s (Truncate (entry_id e)) else Some s.

Definition changes_entries (c : Change) : bool := match c with Push _ | Append _ _ | Replace _ => true | _ => false end.

(** A change that fits: it lands, and every client is told. *)
Definition land (s : Session) (t : Transcript) (c : Change) : Session :=
  let f := landed (feed s) t c in
  let s := with_feed s (broadcast f (ChangeTo c (cursor f))) in
  match c with Truncate before => with_projector s (forget_before (projector s) before) | _ => s end.

(** [emit]: [None] is a panic, or no fuel for the changes it emits in turn. *)
Fixpoint emit_loop (fuel : nat) (s : Session) (c : Change) : option Session :=
  match fuel with
  | O => None
  | S fuel =>
      '(s, c) ← pictures_before (emit_loop fuel) s c;
      '(t, r) ← apply (tr s) c;
      match r with
      | Err _ => Some (with_feed s (MkFeed t (f_epoch (feed s)) (f_seq (feed s)) (log (feed s)) (log_bytes (feed s)) (subscribers (feed s))
                          (asks (feed s)) (past (feed s)) (gone (feed s))))
      | Ok _ =>
          let before := remote_clients (feed s) in
          let s := land s t c in
          s ← (if changes_entries c then bound (emit_loop fuel) s else Some s);
          s ← (if remote_clients (feed s) =? before then Some s else emit_loop fuel s (Clients (remote_clients (feed s))));
          pictures_after (emit_loop fuel) (report_activity s) c
      end
  end.

(** A change may emit pictures, a truncation and a picture of a tool, each of
    which may lose clients, who are counted again. *)
Definition fuel_for (s : Session) : nat := length (subscribers (feed s)) + 3.
Definition emit (s : Session) (c : Change) : option Session := emit_loop (fuel_for s) s c.
Definition emit_all (s : Session) (cs : list Change) : option Session := foldM emit s cs.

(** [Session::notice], [status], [queue_changed], [clear_queue] and [fail]. *)
Definition emit_notice (s : Session) (level : NoticeLevel) (t : str) : option Session :=
  let '(p, c) := notice (projector s) level t in emit (with_projector s p) c.
Definition status_to (s : Session) (st : Status) : option Session := if bool_decide (status (tr s) = st) then Some s else emit s (SetStatus st).
Definition queue_changed (s : Session) (q : list Queued) : option Session := emit s (Queue q).
Definition clear_queue (s : Session) : option Session := match queued (tr s) with [] => Some s | _ => queue_changed s [] end.
Definition fail (s : Session) (message : str) : option Session :=
  s ← emit_notice s ErrorLevel message; s ← status_to s (Status_Failed message); clear_queue s.

(** ** Clients *)

(** [attach]: the messages its queue takes, in order, up to the first it has no
    room for; the client is in when all were taken. *)
Fixpoint fill (n : nat) (ms : list ServerMessage) : list ServerMessage * nat * bool :=
  match ms with
  | [] => ([], n, true)
  | m :: ms => if room W n then let '(sent, n', all) := fill (S n) ms in (m :: sent, n', all) else ([], S n, false)
  end.

Definition catch_up (f : Feed) (since : option Cursor) : option Cursor :=
  let first := match log f with (seq, _) :: _ => seq | [] => f_seq f + 1 end in
  c ← since; if (epoch c =? f_epoch f) && (seq c <=? f_seq f) && (first <=? seq c + 1) then Some c else None.

Definition first_messages (f : Feed) (since : option Cursor) : list ServerMessage :=
  Welcome (cfg_agent cfg) (cfg_pane cfg) VERSION
    :: match catch_up f since with
       | Some c => (λ x, ChangeTo x.2 (MkCursor (f_epoch f) x.1)) <$> filter (λ x, seq c < x.1) (log f)
       | None => [Snapshot (cursor f) (transcript f)]
       end.

(** The transcript a client of this run has at its cursor. *)
Definition has_at (f : Feed) (since : option Cursor) : option (Cursor * Transcript) :=
  c ← since; if (epoch c =? f_epoch f) && (seq c <=? f_seq f) then t ← past f !! N.to_nat (seq c); Some (c, t) else None.

Definition attach (s : Session) (id : N) (local : bool) (since : option Cursor) : option Session :=
  let f := feed s in
  let '(sent, n, all) := fill (asks f) (first_messages f since) in
  let client := MkSubscriber id local (has_at f since) sent in
  if all then
    let s := with_feed s (with_subscribers f (subscribers f ++ [client]) [] n) in
    if local then Some s else emit s (Clients (remote_clients (feed s)))
  else Some (with_feed s (with_subscribers f (subscribers f) [client] n)).

Definition detach (s : Session) (id : N) : option Session :=
  let f := feed s in
  let before := remote_clients f in
  let kept := filter (λ x, conn x ≠ id) (subscribers f) in
  let s := with_feed s (with_subscribers f kept (filter (λ x, conn x = id) (subscribers f)) (asks f)) in
  if remote_clients (feed s) =? before then Some s else emit s (Clients (remote_clients (feed s))).

(** [bye]: each is told, as far as its queue has room. *)
Definition bye (s : Session) (reason : ByeReason) : Session :=
  let f := feed s in
  let '(kept, lost, n) := send_each (Bye reason) (subscribers f) (asks f) in with_feed s (with_subscribers f [] (kept ++ lost) n).

Definition send_to (s : Session) (id : N) (m : ServerMessage) : option Session :=
  let f := feed s in
  match list_find (λ x, conn x = id) (subscribers f) with
  | None => Some s
  | Some (i, x) =>
      if room W (asks f) then Some (with_feed s (with_subscribers f (<[i := took x m]> (subscribers f)) [] (S (asks f))))
      else detach (with_feed s (ask f)) id
  end.

Definition ack (s : Session) (id cmd : N) (rejected : option Rejection) : option Session :=
  let h := if (length (handled s) =? HANDLED)%nat then tail (handled s) else handled s in
  send_to (with_handled s (h ++ [(cmd, rejected)])) id (Ack cmd rejected).

(** ** The agent *)

(** A line for the agent's queue. *)
Definition send_agent (s : Session) (l : AgentLine) : Session * res str unit :=
  let r := agent_room W (asks (feed s)) in
  let s := with_feed s (ask (feed s)) in
  (match r with Ok _ => with_agent s (to_agent s ++ [l]) (next_request s) (s_pending s) | Err _ => s end, r).

Definition now_ms (s : Session) : Session * N := (with_feed s (ask (feed s)), clock W (asks (feed s))).

(** [Session::request]: whether the agent's queue took it. *)
Definition request (s : Session) (r : AgentRequest) (p : Pending) : option (Session * bool) :=
  let id := next_request s + 1 in
  let s := with_agent s (to_agent s) id (s_pending s) in
  let '(s, sent) := send_agent s (Line_Request id r) in
  match sent with
  | Ok _ => Some (with_agent s (to_agent s) (next_request s) (<[id := p]> (s_pending s)), true)
  | Err e => s ← fail s e; Some (s, false)
  end.

Definition start (s : Session) : option Session :=
  '(s, _) ← request s Req_Initialize P_Initialize; Some (report_activity s).

(** *** Prompts *)

(** [Attachment::name]. *)
Definition attachment_name (a : Attachment) : str :=
  default (path a) (find (λ part, negb (bool_decide (part = []))) (reverse (split_on (λ c, (c =? 47) || (c =? 92)) (path a)))).

Definition shown_prompt (t : str) (attachments : list Attachment) : str :=
  foldl (λ shown a, (if bool_decide (shown = []) then shown else shown ++ [10]) ++ ATTACHED ++ attachment_name a) t attachments.

(** The attachments as they go to the agent, read now. *)
Fixpoint prepare_all (n : nat) (c : Capabilities) (attachments : list Attachment) : list (ContentBlock * option Image) :=
  match attachments with [] => [] | a :: attachments => prepare W n a c :: prepare_all (S n) c attachments end.
Definition asked_times (f : Feed) (k : nat) : Feed :=
  MkFeed (transcript f) (f_epoch f) (f_seq f) (log f) (log_bytes f) (subscribers f) (asks f + k) (past f) (gone f).

Definition emit_prepared (s : Session) (x : ContentBlock * option Image) : option Session :=
  match x.2 with
  | Some i => let '(p, c) := image_change (projector s) Author_User i in emit (with_projector s p) c
  | None => Some s
  end.

Definition send_prompt (s : Session) (t : str) (attachments : list Attachment) : option Session :=
  match acp_session s with
  | None => Some s
  | Some session =>
      let prepared := prepare_all (asks (feed s)) (accepts_ s) attachments in
      let s := with_feed s (asked_times (feed s) (length attachments)) in
      let shown := shown_prompt t attachments in
      let '(p, c) := prompt_change (projector s) shown (lenN attachments) in
      s ← emit (with_projector s p) c;
      s ← foldM emit_prepared s prepared;
      let blocks := (if bool_decide (trim t = []) then [] else [CB_Text t]) ++ prepared.*1 in
      '(s, sent) ← request s (Req_Prompt session blocks) P_Prompt;
      if sent : bool then
        let s := with_report s (s_activity s) (Up_Prompt shown) in
        let s := with_turn s (Some (next_request s)) in
        let '(s, now) := now_ms s in
        s ← emit s (SetTurn (Some (MkTurn now)));
        status_to s Working
      else Some s
  end.

Definition next_queued (s : Session) : option Session :=
  if is_some (s_turn s) || negb (ready s) then Some s
  else
    match queued (tr s) with
    | [] => Some s
    | next :: rest => s ← queue_changed s rest; send_prompt s (queued_text next) (attachments next)
    end.

(** *** Permissions *)

(** [Session::resolve]. *)
Definition resolve (s : Session) (permission : N) (choice : option str) : option Session :=
  match asked s !! permission with
  | None => Some s
  | Some a =>
      let s := with_asked s (delete permission (asked s)) (next_permission s) in
      let '(s, sent) := send_agent s (Line_Answer (asked_request a) (match choice with Some o => Selected o | None => Cancelled_ end)) in
      s ← match sent with Ok _ => Some s | Err e => fail s e end;
      emit s (PermissionResolved permission)
  end.

(** [resolve_all]: in the order of their ids. *)
Definition sorted_ids (m : gmap N Asked) : list N := merge_sort N.le (map_to_list m).*1.
Definition resolve_all (s : Session) : option Session := foldM (λ s id, resolve s id None) s (sorted_ids (asked s)).

Definition auto_answer (s : Session) (permission : N) : option Session :=
  if negb (auto_accept (tr s)) then Some s
  else
    match (p ← find (λ p, permission_id p =? permission) (permissions (tr s)); option_id <$> allow_option p) with
    | Some o => resolve s permission (Some o)
    | None => Some s
    end.

Definition permission_option (o : WirePermissionOption) : PermissionOption :=
  MkPermissionOption (po_id o)
    (if po_manual o then OtherPermission
     else match po_kind o with
          | PO_AllowOnce => AllowOnce | PO_AllowAlways => AllowAlways | PO_RejectOnce => RejectOnce | PO_RejectAlways => RejectAlways
          | PO_Newer => OtherPermission
          end) (po_name o).

Definition agent_request (s : Session) (id : RequestId) (method : str) (params : V) : option Session :=
  if negb (bool_decide (method = lit "session/request_permission")) then Some (send_agent s (Line_Answer id MethodNotFound)).1
  else
    match (r ← permission_request params; if bool_decide (acp_session s = Some (pr_session r)) then Some r else None) with
    | None => Some (send_agent s (Line_Answer id InvalidParams)).1
    | Some r =>
        let '(p, c) := tool_change (projector s) (tr s) (pr_call r) (apply_fields (pr_fields r)) in
        let title := match f_title (pr_fields r) with
                     | Some t => t
                     | None => match tool_in c with Some tool => tool_title tool | None => lit "The agent asks for permission" end
                     end in
        s ← emit (with_projector s p) c;
        let permission := next_permission s + 1 in
        let options := permission_option <$> pr_options r in
        let s := with_asked s (<[permission := MkAsked (option_id <$> options) id]> (asked s)) permission in
        s ← emit s (PermissionAsked (MkPermission (Some (pr_call r)) permission options title));
        auto_answer s permission
    end.

(** *** What the agent answers *)

Definition initialized (s : Session) (result : res AgentError V) : option Session :=
  match result with
  | Err e => fail s (lit "The agent refused the handshake: " ++ error_message e)
  | Ok v =>
      match initialize_response v with
      | Err e => fail s (lit "The agent's handshake was invalid: " ++ e)
      | Ok c =>
          let s := with_opened s c (acp_session s) (ready s) in
          match cfg_load cfg with
          | Some id =>
              if load_session c then
                let s := with_opened s c (Some id) (ready s) in fst <$> request s (Req_LoadSession id) P_LoadSession
              else if require_load cfg then
                fail s (cfg_agent cfg ++ lit " cannot continue session " ++ id ++ lit ", so no new session was started.")
              else
                s ← emit_notice s Warning (lit "This agent cannot continue a session; starting a new one.");
                fst <$> request s Req_NewSession P_NewSession
          | None => fst <$> request s Req_NewSession P_NewSession
          end
      end
  end.

(** The rest of [session_opened], once the session has its id. *)
Definition opened (s : Session) (ms : option WireModes) (options : list ConfigOption) : option Session :=
  match acp_session s with
  | None => Some s
  | Some id =>
      let s := with_opened s (accepts_ s) (acp_session s) true in
      let s := with_report s (s_activity s) (Up_Opened id) in
      s ← emit s (Transcript.Session (Some (MkSessionInfo (Some (cfg_cwd cfg)) id None)));
      s ← match ms with Some m => emit s (SetModes (Some (modes_of m))) | None => Some s end;
      s ← match options with [] => Some s | _ => emit s (SetOptions options) end;
      let s := with_projector s (close (projector s)) in
      s ← status_to s Idle;
      next_queued s
  end.

Definition session_opened (s : Session) (loaded : bool) (result : res AgentError V) : option Session :=
  match result with
  | Err e =>
      fail s (if auth_required e then
                match login_hint cfg with
                | Some hint => cfg_agent cfg ++ lit " needs you to sign in: " ++ hint
                | None => cfg_agent cfg ++ lit " needs you to sign in first."
                end
              else lit "Could not start the session: " ++ error_message e)
  | Ok v =>
      let options := options_of (default None (config_options v)) in
      if loaded then opened s (loaded_modes v) options
      else
        match new_session v with
        | Err e => fail s (lit "The agent's session was invalid: " ++ e)
        | Ok (id, ms) => opened (with_opened s (accepts_ s) (Some id) (ready s)) ms options
        end
  end.

Definition end_of (r : StopReason) : TurnEnd :=
  match r with
  | EndTurn => Done | StopCancelled => Cancelled | MaxTokens | MaxTurnRequests => EndLimit | Refusal => EndRefused | Stop_Newer => EndOther
  end.

Definition turn_ended (s : Session) (id : N) (result : res AgentError V) : option Session :=
  if negb (bool_decide (s_turn s = Some id)) then Some s
  else
    s ← resolve_all (with_turn s None);
    let s := with_projector s (close (projector s)) in
    let '(end_, toks, error) :=
      match result with
      | Ok v => match stop_reason v with Some r => (end_of r, prompt_tokens v, None) | None => (EndOther, None, None) end
      | Err e => (EndFailed, None, Some (error_message e))
      end in
    s ← match error with Some e => emit_notice s ErrorLevel e | None => Some s end;
    let '(s, begun) := match turn (tr s) with Some t => (s, turn_started_ms t) | None => now_ms s end in
    let '(s, ended) := now_ms s in
    let '(p, c) := turn_change (projector s) (MkTurnSummary (ended - begun) (Some ended) end_ toks) in
    s ← emit (with_projector s p) c;
    s ← emit s (SetTurn None);
    s ← (if bool_decide (status (tr s) = Working) then status_to s Idle else Some s);
    next_queued s.

Definition response (s : Session) (id : N) (p : Pending) (result : res AgentError V) : option Session :=
  match p with
  | P_Initialize => initialized s result
  | P_NewSession => session_opened s false result
  | P_LoadSession => session_opened s true result
  | P_Prompt => turn_ended s id result
  | P_SetOption =>
      match result with
      | Ok v => match config_options v with Some items => emit s (SetOptions (options_of items)) | None => Some s end
      | Err e => emit_notice s Warning (lit "Could not change the setting: " ++ error_message e)
      end
  | P_SetMode mode =>
      match result with
      | Ok _ => emit s (CurrentMode mode)
      | Err e => emit_notice s Warning (lit "Could not change mode: " ++ error_message e)
      end
  end.

Definition session_update (s : Session) (params : V) : option Session :=
  let ours := bool_decide (update_session params = acp_session s) && is_some (update_session params) in
  match (if ours : bool then config_update params else None) with
  | Some items => emit s (SetOptions (options_of items))
  | None =>
      match notification params with
      | None => Some s
      | Some (id, u) =>
          if negb (bool_decide (acp_session s = Some id)) then Some s
          else
            let '(s, now) := now_ms s in
            let '(p, cs) := update (projector s) (tr s) u now in
            emit_all (with_projector s p) cs
      end
  end.

Definition agent_message (s : Session) (m : Inbound V) : option Session :=
  match m with
  | In_Response (Id_Number n) result =>
      match s_pending s !! Z.to_N n with
      | Some p =>
          if (0 <=? n)%Z then response (with_agent s (to_agent s) (next_request s) (delete (Z.to_N n) (s_pending s))) (Z.to_N n) p result else Some s
      | None => Some s
      end
  | In_Response _ _ => Some s
  | In_Notification method params => if bool_decide (method = lit "session/update") then session_update s params else Some s
  | In_Request id method params => agent_request s id method params
  | In_Closed (Some e) => fail s e
  | In_Closed None => Some s
  end.

(** [to_string] of an exit status. *)
Definition dec_z (z : Z) : str := if (z <? 0)%Z then 45 :: dec (Z.to_N (- z)) else dec (Z.to_N z).

(** [exited]. *)
Definition exited (s : Session) (code : option Z) (stderr : list str) : option Session :=
  let summary := match code with
                 | Some 0%Z => cfg_agent cfg ++ lit " exited."
                 | Some c => cfg_agent cfg ++ lit " exited with status " ++ dec_z c ++ lit "."
                 | None => cfg_agent cfg ++ lit " was stopped."
                 end in
  let clean := bool_decide (code = Some 0%Z) in
  let message := if negb (bool_decide (stderr = [])) && negb clean then summary ++ [10] ++ join [10] stderr else summary in
  let s := with_asked s ∅ (next_permission s) in
  s ← foldM (λ s id, emit s (PermissionResolved id)) s (permission_id <$> permissions (tr s));
  let s := with_opened (with_turn s None) (accepts_ s) (acp_session s) false in
  s ← (if is_some (turn (tr s)) then emit s (SetTurn None) else Some s);
  s ← clear_queue s;
  let '(s, now) := now_ms s in
  s ← emit_all s (kill_all (tr s) now);
  s ← emit_notice s (if clean then Info else ErrorLevel) message;
  status_to s (Exited summary).

(** ** Clients' commands *)

(** [Status::accepts_prompts]. *)
Definition accepts_prompts (st : Status) : bool := match st with Idle | Working | Starting => true | _ => false end.

(** A command's outcome next to the session. *)
Definition Done_ : Type := option (Session * option Rejection).
Definition refuse (s : Session) (r : Rejection) : Done_ := Some (s, Some r).
Definition done (x : option Session) : Done_ := s ← x; Some (s, None).

Fixpoint all_readable (n : nat) (attachments : list Attachment) : bool :=
  match attachments with [] => true | a :: attachments => readable W n a && all_readable (S n) attachments end.

Definition prompt (s : Session) (id : N) (t : str) (attachments : list Attachment) : Done_ :=
  if bool_decide (trim t = []) && (length attachments =? 0)%nat then refuse s EmptyPrompt
  else if (MAX_ATTACHMENTS <? length attachments)%nat then refuse s TooManyAttachments
  else
    let ok := all_readable (asks (feed s)) attachments in
    let s := with_feed s (asked_times (feed s) (length attachments)) in
    if negb ok then refuse s UnknownFile
    else if MAX_PROMPT_SIZE <? str_len t then refuse s PromptTooLong
    else if negb (accepts_prompts (status (tr s))) then refuse s NotReady
    else if is_some (s_turn s) || negb (ready s) then
      let waiting := queued (tr s) in
      if (MAX_QUEUED <=? length waiting)%nat || (MAX_QUEUED_TEXT <? sumN ((λ q, str_len (queued_text q)) <$> waiting) + str_len t)
      then refuse s QueueFull
      else done (queue_changed s (waiting ++ [MkQueued attachments id t]))
    else done (send_prompt s t attachments).

Definition cancel (s : Session) : Done_ :=
  if negb (is_some (s_turn s)) && (length (queued (tr s)) =? 0)%nat then refuse s NotWorking
  else
    s ← clear_queue s;
    s ← resolve_all s;
    match s_turn s, acp_session s with
    | Some _, Some session =>
        let '(s, sent) := send_agent s (Line_Cancel session) in
        match sent with Ok _ => Some (s, None) | Err e => s ← fail s e; refuse s AgentUnavailable end
    | _, _ => Some (s, None)
    end.

Definition answer_permission (s : Session) (permission : N) (choice : str) : Done_ :=
  match asked s !! permission with
  | None => refuse s UnknownPermission_
  | Some a =>
      if negb (existsb (λ o, bool_decide (o = choice)) (asked_options a)) then refuse s UnknownOption
      else done (resolve s permission (Some choice))
  end.

Definition requested (x : option (Session * bool)) : Done_ := '(s, sent) ← x; if sent : bool then Some (s, None) else refuse s AgentUnavailable.

Definition set_mode (s : Session) (mode : str) : Done_ :=
  match acp_session s with
  | None => refuse s NotReady
  | Some session =>
      if negb match modes (tr s) with Some m => existsb (λ k, bool_decide (mode_id k = mode)) (available m) | None => false end
      then refuse s UnknownMode else requested (request s (Req_SetMode session mode) (P_SetMode mode))
  end.

Definition set_option (s : Session) (id : str) (value : OptionValue) : Done_ :=
  match acp_session s with
  | None => refuse s NotReady
  | Some session =>
      if negb (existsb (λ o, bool_decide (config_id o = id) && accepts o value) (options (tr s)))
      then refuse s UnknownSetting else requested (request s (Req_SetOption session id value) P_SetOption)
  end.

Definition unqueue (s : Session) (id : N) : Done_ :=
  match position_of (λ q, queued_id q =? id) (queued (tr s)) with
  | None => refuse s UnknownQueued
  | Some i => done (emit s (Queue (remove_at i (queued (tr s)))))
  end.

Definition set_auto_accept (s : Session) (on : bool) : option Session :=
  s ← (if bool_decide (auto_accept (tr s) = on) then Some s else emit s (AutoAccept on));
  if on then foldM auto_answer s (permission_id <$> permissions (tr s)) else Some s.

Definition run_command (s : Session) (id : N) (c : Command) : Done_ :=
  match c with
  | Prompt t attachments => prompt s id t attachments
  | Cancel => cancel s
  | Answer o permission => answer_permission s permission o
  | SetMode mode => set_mode s mode
  | SetOption id value => set_option s id value
  | Unqueue id => unqueue s id
  | SetAutoAccept on => done (set_auto_accept s on)
  end.

Definition command (s : Session) (client id : N) (c : Command) : option Session :=
  match find (λ h, h.1 =? id) (handled s) with
  | Some (_, rejected) => send_to s client (Ack id rejected)
  | None => '(s, rejected) ← run_command s id c; ack s client id rejected
  end.

(** ** Inputs *)

Inductive Input :=
| I_Agent (m : Inbound V)
| I_AgentExited (code : option Z) (stderr : list str)
| I_Attach (client : N) (local : bool) (since : option Cursor)
| I_Command (client id : N) (c : Command)
| I_Detach (client : N)
| I_Unsupported (client id : N)
| I_Shutdown.

(** [handle]; [true] is [Flow::Exit]. *)
Definition handle (s : Session) (i : Input) : option (Session * bool) :=
  match i with
  | I_Agent m => s ← agent_message s m; Some (s, false)
  | I_AgentExited code stderr =>
      s ← exited s code stderr;
      Some (if exit_with_agent cfg then (bye s Exiting, true) else (s, false))
  | I_Attach client local since => s ← attach s client local since; Some (s, false)
  | I_Command client id c => s ← command s client id c; Some (s, false)
  | I_Detach client => s ← detach s client; Some (s, false)
  | I_Unsupported client id => s ← ack s client id (Some Unsupported); Some (s, false)
  | I_Shutdown => Some (bye s Exiting, true)
  end.

(** The session's thread: notices, the handshake, then inputs until one ends it. *)
Fixpoint handle_all (s : Session) (ins : list Input) : option (Session * bool) :=
  match ins with
  | [] => Some (s, false)
  | i :: ins => '(s, over) ← handle s i; if over : bool then Some (s, true) else handle_all s ins
  end.

(** [Session::new]; a continued conversation has entries already. *)
Definition session_new (id : N) (history : option Transcript) : Session :=
  let t := transcript_new (cfg_agent cfg) in
  let t := match history with Some h => set_usage (set_truncated (set_entries t (entries h)) (truncated h)) (usage h) | None => t end in
  let p := match last (entries t) with Some e => projector_after (entry_id e) | None => projector_default end in
  MkSession (MkFeed t id 0 [] 0 [] 0 [t] []) p (MkPictures None ∅) None [] [] (MkCapabilities false false false) None ∅ [] 0 0 ∅ false None.

Definition run (id : N) (history : option Transcript) (notices : list (NoticeLevel * str)) (ins : list Input) : option (Session * bool) :=
  s ← foldM (λ s n, emit_notice s n.1 n.2) (session_new id history) notices;
  s ← start s;
  handle_all s ins.
End session.
Arguments Input : clear implicits.
End ChatSession.
