(* ===== verification/ChatEmit.v ===== *)
(** * ChatEmit: what emitting a change of a conversation comes to
    (crates/sheprd-acp/src/session.rs)

    A change lands with the changes of its own that [emit] makes around it
    (pictures, a truncation, the count of clients). Emitting comes to an end, keeps
    every client in step with the transcript, and the transcript within its
    bounds. *)

From Stdlib Require Import NArith Lia.
From stdpp Require Import base option strings list gmap sets sorting.
From S2P Require Import Prelude Transcript Display Project ChatSession.

Local Open Scope N_scope.

Module ChatEmit.
Import Transcript Project ChatSession.

Section session.
Context {V : Type} {AJ : AcpJson V} {TJ : TagJson} {W : World} {cfg : Config}.

(** ** Steps

    A handler does two kinds of things: it lands changes that fit, and it touches
    what is not the transcript. *)

(** The parts of a session that emitting a change may touch besides the feed. *)
Definition retouch (s : Session) (n : nat) (p : Projector) (pics : Pictures) (a : option SessionActivity) (r : list Update) : Session :=
  MkSession (MkFeed (tr s) (f_epoch (feed s)) (f_seq (feed s)) (log (feed s)) (log_bytes (feed s)) (subscribers (feed s)) n (past (feed s)) (gone (feed s)))
    p pics a r (to_agent s) (accepts_ s) (acp_session s) (asked s) (handled s) (next_permission s) (next_request s) (s_pending s) (ready s) (s_turn s).

(** [moves s cs s']: from [s] the changes [cs] landed, in order. *)
Inductive moves : Session → list Change → Session → Prop :=
| moves_refl s : moves s [] s
| moves_land s t c cs s' : apply (tr s) c = Some (t, Ok tt) → moves (land s t c) cs s' → moves s (c :: cs) s'
| moves_touch s n p pics a r cs s' : moves (retouch s n p pics a r) cs s' → moves s cs s'.

Lemma moves_trans s cs s1 ds s2 : moves s cs s1 → moves s1 ds s2 → moves s (cs ++ ds) s2.
Proof. induction 1; intros H2; [done| |]; [eapply moves_land|eapply moves_touch]; eauto. Qed.

Lemma moves_touched s cs s1 n p pics a r : moves s cs s1 → moves s cs (retouch s1 n p pics a r).
Proof. intros H. rewrite <- (app_nil_r cs). eapply moves_trans; [exact H|]. eapply moves_touch, moves_refl. Qed.

Lemma touch_same s s' : s' = retouch s (asks (feed s')) (projector s') (pictures s') (s_activity s') (reports s') → moves s [] s'.
Proof. intros ->. eapply moves_touch, moves_refl. Qed.

Ltac touch := apply touch_same; repeat match goal with x := _ : Session |- _ => subst x end;
  repeat match goal with x : Session |- _ => destruct x as [[]] end; reflexivity.

(** The changes [emit] makes of its own accord. *)
Definition extra (c : Change) : Prop :=
  match c with
  | Push (MkEntry _ (ImageEntry _ _)) | Truncate _ | Clients _ | Replace (MkEntry _ (ToolEntry _)) => True
  | _ => False
  end.

(** A change that landed for the one asked for: itself, or with a later id. *)
Definition stands_for (c c' : Change) : Prop :=
  match c with Push e => ∃ id, c' = Push (MkEntry id (kind e)) | _ => c' = c end.

Lemma stands_refl c : stands_for c c.
Proof. destruct c as [[id k]| | | | | | | | | | | | | | | | | |]; try done. by exists id. Qed.

(** The part of the state that decides what agent and clients are told. *)
Record Core := MkCore {
  k_permissions : list Permission; k_queued : list Queued; k_auto : bool; k_agent : list AgentLine; k_asked : gmap N Asked; k_next : N;
  k_session : option str; k_handled : list (N * option Rejection); k_ready : bool; k_turn : option N }.
Definition core (s : Session) : Core :=
  MkCore (permissions (tr s)) (queued (tr s)) (auto_accept (tr s)) (to_agent s) (asked s) (next_permission s) (acp_session s) (handled s) (ready s)
    (s_turn s).

(** What a change does to it. *)
Definition core_change (c : Change) (k : Core) : Core :=
  let set ps q a := MkCore ps q a (k_agent k) (k_asked k) (k_next k) (k_session k) (k_handled k) (k_ready k) (k_turn k) in
  match c with
  | PermissionAsked p =>
      if existsb (λ known, permission_id known =? permission_id p) (k_permissions k) then k
      else set (k_permissions k ++ [p]) (k_queued k) (k_auto k)
  | PermissionResolved id =>
      match position_of (λ p, permission_id p =? id) (k_permissions k) with
      | Some i => set (remove_at i (k_permissions k)) (k_queued k) (k_auto k)
      | None => k
      end
  | Queue q => set (k_permissions k) q (k_auto k)
  | AutoAccept v => set (k_permissions k) (k_queued k) v
  | _ => k
  end.

Lemma extra_core c k : extra c → core_change c k = k.
Proof. by destruct c. Qed.

Lemma core_stands c c' k : stands_for c c' → core_change c' k = core_change c k.
Proof. destruct c; cbn [stands_for]; try (by intros ->). by intros [id ->]. Qed.

(** What [apply] leaves as it was. *)
Lemma apply_core s t r c : apply (tr s) c = Some (t, r) →
  core_change c (core s) = MkCore (permissions t) (queued t) (auto_accept t) (to_agent s) (asked s) (next_permission s) (acp_session s) (handled s) (ready s)
    (s_turn s).
Proof.
  unfold apply. assert (∀ e, Some (tr s, Err e) = Some (t, r) → core s = MkCore (permissions t) (queued t) (auto_accept t) (to_agent s) (asked s)
    (next_permission s) (acp_session s) (handled s) (ready s) (s_turn s)) as Herr by (intros e [= <- _]; done).
  destruct (answers_refused c) eqn:Ea. { destruct c; try done; apply Herr. }
  destruct c; cbn [core_change k_permissions k_queued k_auto core k_agent k_asked k_next k_session k_handled k_ready k_turn]; try (by intros [= <- _]).
  - destruct (last_entry_id _); [destruct (_ <=? _)|]; by intros [= <- _].
  - destruct (position _ _); [|apply Herr]. destruct (entries _ !! _); [|done]. cbn [mbind option_bind]. destruct (append_text _ _); [|apply Herr]. by intros [= <- _].
  - destruct (position _ _); [|apply Herr]. destruct (entries _ !! _); [|done]. by intros [= <- _].
  - destruct (_ <? _)%nat; [destruct (_ <=? _)%nat; [|done]|]; by intros [= <- _].
  - destruct (existsb _ _); by intros [= <- _].
  - destruct (position_of _ _); [|apply Herr]. by intros [= <- _].
  - destruct (modes _); by intros [= <- _].
  - unfold Transcript.record. destruct (negb _); [by intros [= <- _]|]. destruct (position_of _ _); [by intros [= <- _]|]. destruct (_ <=? _)%nat; [destruct (position_of _ _)|]; by intros [= <- _].
Qed.

(** What [emit] comes to: the changes around it are its own, and the change itself
    landed, or did not fit and is not to be seen. *)
Definition emitted (s : Session) (c : Change) (s' : Session) : Prop :=
  ∃ pre mid post, moves s (pre ++ mid ++ post) s' ∧ Forall extra pre ∧ Forall extra post ∧
    (mid = [] ∧ core_change c (core s) = core s ∨ ∃ c', mid = [c'] ∧ stands_for c c').

Lemma emitted_extra s c s' : emitted s c s' → extra c → ∃ cs, moves s cs s' ∧ Forall extra cs.
Proof.
  intros (pre & mid & post & Hm & H1 & H2 & Hmid) Hc. exists (pre ++ mid ++ post). split; [done|]. rewrite !Forall_app. split_and!; [done| |done].
  destruct Hmid as [[-> _]|(c' & -> & Hst)]; [constructor|]. constructor; [|constructor].
  destruct c as [[id k]| | | | | | | | | | | | | | | | | |]; cbn in Hst; try (by subst); try done.
  destruct Hst as [id' ->]. by destruct k.
Qed.

Lemma report_moves s : moves s [] (report_activity s).
Proof. unfold report_activity. destruct (bool_decide _); [apply moves_refl|]. touch. Qed.

(** *** Induction over the fuel *)

Section loop.
Context (go : Session → Change → option Session).
Hypothesis go_emits : ∀ s c s', wf (tr s) → go s c = Some s' → emitted s c s' ∧ wf (tr s').

Lemma bound_moves s s' : wf (tr s) → bound go s = Some s' → (∃ cs, moves s cs s' ∧ Forall extra cs) ∧ wf (tr s').
Proof.
  intros Hwf. unfold bound. destruct (_ <? _)%nat; [|intros [= <-]; split; [by exists []; split; [apply moves_refl|]|done]].
  destruct (entries (tr s) !! _) as [e|]; [|done]. cbn [mbind option_bind]. intros E. destruct (go_emits _ _ _ Hwf E) as [H1 H2].
  split; [|done]. by apply (emitted_extra _ _ _ H1).
Qed.

Lemma images_moves images s s' : wf (tr s) → foldM (emit_image go) s images = Some s' → (∃ cs, moves s cs s' ∧ Forall extra cs) ∧ wf (tr s').
Proof.
  revert s. induction images as [|i images IH]; intros s Hwf; cbn [foldM].
  { intros [= <-]. split; [by exists []; split; [apply moves_refl|]|done]. }
  unfold emit_image at 1. cbn. set (s0 := with_projector s _). destruct (go s0 _) as [s1|] eqn:E; [|done]. cbn [mbind option_bind].
  destruct (go_emits s0 _ _ Hwf E) as [H1 H2]. destruct (emitted_extra _ _ _ H1 I) as (cs1 & M1 & F1).
  intros E2. destruct (IH s1 H2 E2) as [(cs2 & M2 & F2) H3]. split; [|done]. exists (cs1 ++ cs2). split; [|by apply Forall_app].
  eapply moves_trans; [|exact M2]. rewrite <- (app_nil_l cs1). eapply moves_trans; [|exact M1]. touch.
Qed.

Lemma before_moves s c s' c' : wf (tr s) → pictures_before go s c = Some (s', c') →
  (∃ cs, moves s cs s' ∧ Forall extra cs) ∧ wf (tr s') ∧ stands_for c c'.
Proof.
  intros Hwf. unfold pictures_before.
  assert (∀ s0 : Session, (∃ cs, moves s0 cs s0 ∧ Forall extra cs)) as Hrefl by (intros s0; exists []; by split; [apply moves_refl|]).
  destruct c as [e| | | | | | | | | | | | | | | | | |]; try (intros [= <- <-]; split_and!; [apply Hrefl|done|done]).
  destruct (bool_decide _). { intros [= <- <-]. split_and!; [apply Hrefl|done|apply stands_refl]. }
  assert (∀ s1 e1, (∃ cs, moves s cs s1 ∧ Forall extra cs) → wf (tr s1) → kind e1 = kind e →
    Some (match kind e1 with Agent _ => with_pictures s1 (MkPictures (Some (entry_id e1)) (pic_tools (pictures s1))) | _ => s1 end, Push e1) = Some (s', c') →
    (∃ cs, moves s cs s' ∧ Forall extra cs) ∧ wf (tr s') ∧ stands_for (Push e) c') as Hend.
  { intros s1 e1 (cs & M & F) H1 Hk [= <- <-]. split_and!.
    - exists cs. split; [|done]. rewrite <- (app_nil_r cs). eapply moves_trans; [exact M|]. destruct (kind e1); try apply moves_refl. touch.
    - by destruct (kind e1).
    - cbn. exists (entry_id e1). destruct e1; cbn in *. by subst. }
  destruct (pic_open (pictures s)) as [open|]; [|cbn [mbind option_bind]; intros E; by eapply (Hend s e)].
  set (s0 := with_pictures (with_feed s (ask (feed s))) (MkPictures None (pic_tools (pictures s)))).
  destruct (foldM (emit_image go) s0 (linked_images s open)) as [s1|] eqn:E1; [|done]. cbn [mbind option_bind].
  destruct (images_moves _ s0 s1 Hwf E1) as [(cs & M & F) H1].
  assert (moves s cs s1) as M'. { rewrite <- (app_nil_l cs). eapply moves_trans; [|exact M]. touch. }
  destruct (linked_images s open) as [|i images].
  - cbn [mbind option_bind]. intros E. eapply (Hend s1 e); eauto.
  - destruct (renumber (projector s1) (entry_id e)) as [p id]. cbn [mbind option_bind]. intros E.
    eapply (Hend (with_projector s1 p) (MkEntry id (kind e))); eauto. exists cs. split; [|done].
    rewrite <- (app_nil_r cs). eapply moves_trans; [exact M'|]. touch.
Qed.

Lemma after_moves s c s' : wf (tr s) → pictures_after go s c = Some s' → (∃ cs, moves s cs s' ∧ Forall extra cs) ∧ wf (tr s').
Proof.
  intros Hwf. unfold pictures_after.
  assert (∀ s1, moves s [] s1 → wf (tr s1) → (∃ cs, moves s cs s1 ∧ Forall extra cs) ∧ wf (tr s1)) as Hnil by (intros s1 M H; split; [by exists []|done]).
  destruct (finished_tool c) as [[id tool]|]; [|intros [= <-]; apply Hnil; [apply moves_refl|done]].
  destruct (bool_decide _); [intros [= <-]; apply Hnil; [apply moves_refl|done]|].
  set (s0 := with_pictures (with_feed s (ask (feed s))) _). assert (moves s [] s0) as M0 by touch.
  destruct (of_tool W _ tool) as [|i images]; [intros [= <-]; by apply Hnil|].
  intros E. destruct (go_emits s0 _ _ Hwf E) as [H1 H2]. destruct (emitted_extra _ _ _ H1 I) as (cs & M & F).
  split; [|done]. exists cs. split; [|done]. rewrite <- (app_nil_l cs). by eapply moves_trans.
Qed.
End loop.

Lemma same_transcript s : with_feed s (MkFeed (tr s) (f_epoch (feed s)) (f_seq (feed s)) (log (feed s)) (log_bytes (feed s)) (subscribers (feed s))
  (asks (feed s)) (past (feed s)) (gone (feed s))) = s.
Proof. by destruct s as [[]]. Qed.

Lemma land_tr s t c : tr (land s t c) = t.
Proof. unfold land, landed, broadcast, tr. destruct (trim_log _ _ _). destruct (send_each _ _ _) as [[??]?]. by destruct c. Qed.

Lemma land_core s t c : apply (tr s) c = Some (t, Ok tt) → core (land s t c) = core_change c (core s).
Proof.
  intros H. rewrite (apply_core s t (Ok tt) c H). unfold core. rewrite land_tr. unfold land. by destruct c.
Qed.

Lemma moves_core s cs s' : moves s cs s' → core s' = foldl (λ k c, core_change c k) (core s) cs.
Proof.
  induction 1 as [|s t c cs s' Happ Hm IH|s n p pics a r cs s' Hm IH]; [done| |done]. by rewrite IH, (land_core _ _ _ Happ).
Qed.

Lemma extras_core cs k : Forall extra cs → foldl (λ k c, core_change c k) k cs = k.
Proof. induction 1 as [|c cs Hc _ IH]; cbn [foldl]; [done|]. by rewrite extra_core. Qed.

Lemma emitted_core s c s' : emitted s c s' → core s' = core_change c (core s).
Proof.
  intros (pre & mid & post & Hm & H1 & H2 & Hmid). rewrite (moves_core _ _ _ Hm), !foldl_app, (extras_core pre), (extras_core post) by done.
  destruct Hmid as [[-> Hs]|(c' & -> & Hs)]; cbn; [done|]. by apply core_stands.
Qed.

Lemma emit_loop_emits fuel s c s' : wf (tr s) → emit_loop fuel s c = Some s' → emitted s c s' ∧ wf (tr s').
Proof.
  revert s c s'. induction fuel as [|fuel IH]; intros s c s' Hwf; [done|]. cbn [emit_loop].
  destruct (pictures_before (emit_loop fuel) s c) as [[s1 c1]|] eqn:Eb; [|done]. cbn [mbind option_bind].
  destruct (before_moves _ IH _ _ _ _ Hwf Eb) as ((pre & M1 & F1) & Hwf1 & Hst).
  pose proof (applied_all (tr s1) c1 Hwf1) as Ha. unfold applied in Ha. destruct (apply (tr s1) c1) as [[t [[]|e]]|] eqn:Eapp; [| |done]; cbn [mbind option_bind].
  2: { destruct Ha as [-> _]. rewrite same_transcript. intros [= <-]. split; [|done].
    exists pre, [], []. rewrite app_nil_r. split_and!; [done|done|constructor|]. left. split; [done|].
    assert (core s1 = core s) as <- by (rewrite (moves_core _ _ _ M1); by apply extras_core).
    rewrite <- (core_stands _ _ _ Hst). exact (apply_core _ _ _ _ Eapp). }
  destruct Ha as (Hwft & _). set (s2 := land s1 t c1).
  assert (wf (tr s2)) as Hwf2 by (unfold s2; by rewrite land_tr).
  destruct (if changes_entries c1 then bound (emit_loop fuel) s2 else Some s2) as [s3|] eqn:E3; [|done]. cbn [mbind option_bind].
  assert ((∃ cs, moves s2 cs s3 ∧ Forall extra cs) ∧ wf (tr s3)) as [(cs3 & M3 & F3) Hwf3].
  { destruct (changes_entries c1); [by apply (bound_moves _ IH)|]. injection E3 as <-. split; [by exists []; split; [apply moves_refl|]|done]. }
  destruct (if remote_clients (feed s3) =? _ then Some s3 else _) as [s4|] eqn:E4; [|done]. cbn [mbind option_bind].
  assert ((∃ cs, moves s3 cs s4 ∧ Forall extra cs) ∧ wf (tr s4)) as [(cs4 & M4 & F4) Hwf4].
  { destruct (_ =? _); [injection E4 as <-; split; [by exists []; split; [apply moves_refl|]|done]|].
    destruct (IH _ _ _ Hwf3 E4) as [H1 H2]. split; [|done]. by apply (emitted_extra _ _ _ H1). }
  assert (tr (report_activity s4) = tr s4) as Er by (unfold report_activity; by destruct (bool_decide _)).
  intros E5. destruct (after_moves _ IH (report_activity s4) c1 s') as [(cs5 & M5 & F5) Hwf5]; [by rewrite Er|done|]. split; [|done].
  exists pre, [c1], (cs3 ++ cs4 ++ cs5). split_and!; [|done|by rewrite !Forall_app|right; by exists c1].
  eapply moves_trans; [exact M1|]. cbn [app]. eapply moves_land; [exact Eapp|]. eapply moves_trans; [exact M3|]. eapply moves_trans; [exact M4|].
  change cs5 with ([] ++ cs5). eapply moves_trans; [apply report_moves|exact M5].
Qed.

(** *** What is kept of the entries *)

(** At most 2000 entries, within both budgets, but always the newest one. *)
Definition in_frame (es : list Entry) : Prop :=
  (length es ≤ MAX_ENTRIES)%nat ∧
  (length es ≤ 1 ∨ (sumN (entry_size <$> es) ≤ MAX_TRANSCRIPT_TEXT ∧ sumN (entry_media <$> es) ≤ MAX_TRANSCRIPT_MEDIA)%N)%nat.

Lemma keep_loop_spec es d : ∃ k, keep_loop es d (sumN (entry_size <$> es)) (sumN (entry_media <$> es)) = (d + k)%nat ∧
  (k < length es ∨ k = 0)%nat ∧
  (length (drop k es) ≤ 1 ∨ (sumN (entry_size <$> drop k es) ≤ MAX_TRANSCRIPT_TEXT ∧ sumN (entry_media <$> drop k es) ≤ MAX_TRANSCRIPT_MEDIA)%N)%nat.
Proof.
  revert d. induction es as [|e es IH]; intros d.
  { exists 0%nat. cbn. split; [lia|]. split; [lia|]. left. lia. }
  cbn [keep_loop fmap list_fmap sumN foldr]. destruct (_ && _) eqn:E.
  - apply andb_true_iff in E as [_ He%negb_true_iff%bool_decide_eq_false].
    replace (entry_size e + foldr N.add 0 (entry_size <$> es) - entry_size e) with (sumN (entry_size <$> es)) by (unfold sumN; lia).
    replace (entry_media e + foldr N.add 0 (entry_media <$> es) - entry_media e) with (sumN (entry_media <$> es)) by (unfold sumN; lia).
    destruct (IH (S d)) as (k & -> & Hk & Hf). exists (S k). split; [lia|]. split; [cbn; lia|]. exact Hf.
  - exists 0%nat. split; [lia|]. split; [cbn; lia|]. cbn [drop]. apply andb_false_iff in E as [E|E%negb_false_iff%bool_decide_eq_true].
    + right. apply orb_false_iff in E as [E1%N.ltb_ge E2%N.ltb_ge]. split; [exact E1|exact E2].
    + left. cbn. lia.
Qed.

Lemma keep_from_spec es : (keep_from es < length es ∨ keep_from es = 0)%nat ∧ in_frame (drop (keep_from es) es).
Proof.
  unfold keep_from. destruct (keep_loop_spec (drop (length es - MAX_ENTRIES) es) (length es - MAX_ENTRIES)) as (k & -> & Hk & Hf).
  rewrite length_drop in Hk. rewrite drop_drop in Hf. split.
  - unfold MAX_ENTRIES in *. destruct es; cbn [length] in *; lia.
  - split; [|exact Hf]. rewrite length_drop. lia.
Qed.

(** *** Clients only leave while changes land *)

Lemma send_each_spec m subs n : ∃ kept lost n', send_each m subs n = (kept, lost, n') ∧
  ∃ keep : list Subscriber, kept = (λ s, took s m) <$> keep ∧ keep `sublist_of` subs ∧ keep ++ lost ≡ₚ subs.
Proof.
  revert n. induction subs as [|s subs IH]; intros n; cbn [send_each]; [by exists [], [], n; split; [|exists []]|].
  destruct (IH (S n)) as (kept & lost & n' & -> & keep & -> & Hs & Hp). destruct (room W n).
  - eexists _, _, _. split; [done|]. exists (s :: keep). cbn. split_and!; [done|by apply sublist_skip|by rewrite Hp].
  - eexists _, _, _. split; [done|]. exists keep. split_and!; [done|by apply sublist_cons|]. by rewrite <- Permutation_middle, Hp.
Qed.

Lemma land_subs s t c : ∃ keep lost : list Subscriber,
  subscribers (feed (land s t c)) = (λ x, took x (ChangeTo c (cursor (landed (feed s) t c)))) <$> keep ∧
  gone (feed (land s t c)) = gone (feed s) ++ lost ∧ keep `sublist_of` subscribers (feed s) ∧ keep ++ lost ≡ₚ subscribers (feed s).
Proof.
  unfold land. set (f := landed (feed s) t c).
  assert (subscribers f = subscribers (feed s) ∧ gone f = gone (feed s)) as [E1 E2] by (unfold f, landed; by destruct (trim_log _ _ _)).
  assert (∃ keep lost : list Subscriber, subscribers (broadcast f (ChangeTo c (cursor f))) = (λ x, took x (ChangeTo c (cursor f))) <$> keep ∧
    gone (broadcast f (ChangeTo c (cursor f))) = gone (feed s) ++ lost ∧ keep `sublist_of` subscribers (feed s) ∧ keep ++ lost ≡ₚ subscribers (feed s))
    as (keep & lost & H1 & H2 & H3 & H4).
  { unfold broadcast. destruct (send_each_spec (ChangeTo c (cursor f)) (subscribers f) (asks f)) as (kept & lost & n' & -> & keep & -> & Hs & Hp).
    exists keep, lost. cbn. rewrite <- E1, <- E2. done. }
  exists keep, lost. by destruct c.
Qed.

Lemma moves_locals s cs s' : moves s cs s' → (local <$> subscribers (feed s')) `sublist_of` (local <$> subscribers (feed s)).
Proof.
  induction 1 as [|s t c cs s' Happ Hm IH|s n p pics a r cs s' Hm IH]; [done| |exact IH]. etrans; [exact IH|].
  destruct (land_subs s t c) as (keep & lost & -> & _ & Hs & _). rewrite <- list_fmap_compose.
  assert (local ∘ (λ x, took x (ChangeTo c (cursor (landed (feed s) t c)))) = local) as -> by done. clear IH. induction Hs; cbn; by econstructor.
Qed.

Lemma sublist_same {A} (k l : list A) : k `sublist_of` l → length k = length l → k = l.
Proof.
  induction 1 as [|x k l H IH|x k l H IH]; cbn; intros E; [done|f_equal; apply IH; lia|]. apply sublist_length in H. lia.
Qed.

Lemma moves_count s cs s' : moves s cs s' →
  (length (subscribers (feed s')) ≤ length (subscribers (feed s)))%nat ∧
  (remote_clients (feed s') ≠ remote_clients (feed s) → (length (subscribers (feed s')) < length (subscribers (feed s)))%nat).
Proof.
  intros Hm. pose proof (moves_locals _ _ _ Hm) as Hs. pose proof (sublist_length _ _ Hs) as Hl. rewrite !length_fmap in Hl. split; [done|].
  intros Hr. destruct (decide (length (subscribers (feed s')) = length (subscribers (feed s)))) as [E|]; [|lia]. destruct Hr.
  assert (local <$> subscribers (feed s') = local <$> subscribers (feed s)) as Eq.
  { apply sublist_same; [done|]. by rewrite !length_fmap. }
  unfold remote_clients, lenN. do 2 f_equal. revert Eq. generalize (subscribers (feed s)) as l, (subscribers (feed s')) as k. clear.
  induction l as [|x l IH]; intros [|y k] Eq; try done. injection Eq as E1 E2. rewrite !filter_cons, E1. destruct (decide _); cbn [length]; by rewrite (IH k).
Qed.

(** *** Emitting always returns *)

Definition simple (c : Change) : Prop := changes_entries c = false.

Lemma simple_before go s c : simple c → pictures_before go s c = Some (s, c).
Proof. by destruct c. Qed.
Lemma simple_after go s c : simple c → pictures_after go s c = Some s.
Proof. by destruct c. Qed.

Lemma report_pictures s : pictures (report_activity s) = pictures s ∧ feed (report_activity s) = feed s.
Proof. unfold report_activity. by destruct (bool_decide _). Qed.
Lemma land_pictures s t c : pictures (land s t c) = pictures s.
Proof. unfold land. by destruct c. Qed.

Lemma one_landed s t c : apply (tr s) c = Some (t, Ok tt) → moves s [c] (land s t c).
Proof. intros E. eapply moves_land; [exact E|apply moves_refl]. Qed.

(** A change of no entry emits only the new count of clients, once for every
    client lost. *)
Lemma emit_simple fuel s c : wf (tr s) → simple c → (length (subscribers (feed s)) < fuel)%nat →
  ∃ s', emit_loop fuel s c = Some s' ∧ pictures s' = pictures s.
Proof.
  revert s c. induction fuel as [|fuel IH]; intros s c Hwf Hc Hf; [lia|]. cbn [emit_loop]. rewrite (simple_before _ _ _ Hc). cbn [mbind option_bind].
  pose proof (applied_all (tr s) c Hwf) as Ha. unfold applied in Ha. destruct (apply (tr s) c) as [[t [[]|e]]|] eqn:Eapp; [| |done]; cbn [mbind option_bind].
  2: { eexists. split; [done|]. done. }
  rewrite Hc. cbn [mbind option_bind]. destruct Ha as (Hwft & _). pose proof (moves_count _ _ _ (one_landed _ _ _ Eapp)) as [Hle Hlt].
  destruct (N.eqb_spec (remote_clients (feed (land s t c))) (remote_clients (feed s))) as [_|Hne]; cbn [mbind option_bind].
  - rewrite (simple_after _ _ _ Hc). eexists. split; [done|]. by rewrite (proj1 (report_pictures _)), land_pictures.
  - destruct (IH (land s t c) (Clients (remote_clients (feed (land s t c))))) as (s' & -> & Hp); [by rewrite land_tr|done|specialize (Hlt Hne); lia|].
    cbn [mbind option_bind]. rewrite (simple_after _ _ _ Hc). eexists. split; [done|]. by rewrite (proj1 (report_pictures _)), Hp, land_pictures.
Qed.

Lemma bound_total fuel s : wf (tr s) → (length (subscribers (feed s)) < fuel)%nat →
  ∃ s', bound (emit_loop fuel) s = Some s' ∧ pictures s' = pictures s ∧ wf (tr s') ∧ (length (subscribers (feed s')) ≤ length (subscribers (feed s)))%nat.
Proof.
  intros Hwf Hf. unfold bound. destruct (Nat.ltb_spec 0 (keep_from (entries (tr s)))) as [Hk|_]; [|by exists s].
  destruct (keep_from_spec (entries (tr s))) as [[Hlt|?] _]; [|lia]. destruct (lookup_lt_is_Some_2 _ _ Hlt) as [e ->]. cbn [mbind option_bind].
  destruct (emit_simple fuel s (Truncate (entry_id e)) Hwf eq_refl Hf) as (s' & E & Hp). exists s'.
  destruct (emit_loop_emits _ _ _ _ Hwf E) as [(pre & mid & post & Hm & _) Hwf']. by pose proof (moves_count _ _ _ Hm) as [? _].
Qed.

(** The part of [emit] after a change of an entry landed. *)
Lemma landed_total fuel s c t : wf (tr s) → apply (tr s) c = Some (t, Ok tt) → (length (subscribers (feed s)) < fuel)%nat →
  ∃ s3 s4, bound (emit_loop fuel) (land s t c) = Some s3 ∧
    (if remote_clients (feed s3) =? remote_clients (feed s) then Some s3 else emit_loop fuel s3 (Clients (remote_clients (feed s3)))) = Some s4 ∧
    pictures s4 = pictures s ∧ wf (tr s4) ∧ (length (subscribers (feed s4)) ≤ length (subscribers (feed s)))%nat.
Proof.
  intros Hwf Eapp Hf. pose proof (applied_all (tr s) c Hwf) as Ha. unfold applied in Ha. rewrite Eapp in Ha. destruct Ha as (Hwft & _).
  pose proof (moves_count _ _ _ (one_landed _ _ _ Eapp)) as [Hle _].
  destruct (bound_total fuel (land s t c)) as (s3 & E3 & P3 & W3 & L3); [by rewrite land_tr|lia|]. exists s3.
  destruct (_ =? _).
  - exists s3. split_and!; [done|done|by rewrite P3, land_pictures|done|lia].
  - destruct (emit_simple fuel s3 (Clients (remote_clients (feed s3))) W3 eq_refl ltac:(lia)) as (s4 & E4 & P4). exists s4.
    destruct (emit_loop_emits _ _ _ _ W3 E4) as [(pre & mid & post & Hm & _) W4]. pose proof (moves_count _ _ _ Hm) as [? _].
    split_and!; [done|done|by rewrite P4, P3, land_pictures|done|lia].
Qed.

(** A change with no pictures around it. *)
Definition plain (s : Session) (c : Change) : Prop :=
  match c with
  | Push e => pic_open (pictures s) = None ∧ match kind e with ImageEntry _ _ => True | _ => False end
  | Append _ _ => True
  | Replace e => ∀ id tool, finished_tool c = Some (id, tool) → tool_call_id tool ∈ pic_tools (pictures s)
  | _ => False
  end.

Lemma plain_before go s c : plain s c → pictures_before go s c = Some (s, c).
Proof.
  destruct c as [e| | | | | | | | | | | | | | | | | |]; try done. intros [Hn Hk]. unfold pictures_before. rewrite Hn.
  rewrite bool_decide_eq_false_2 by done. cbn. by destruct (kind e).
Qed.

Lemma plain_after go s s1 c : plain s c → pictures s1 = pictures s → pictures_after go s1 c = Some s1.
Proof.
  intros Hp Hs. unfold pictures_after. destruct (finished_tool c) as [[id tool]|] eqn:Ef; [|done]. rewrite Hs.
  destruct c as [e| |e| | | | | | | | | | | | | | | |]; try done.
  - destruct Hp as [_ Hk]. unfold finished_tool in Ef. by destruct (kind e).
  - rewrite bool_decide_eq_true_2; [done|]. by apply (Hp id).
Qed.

Lemma emit_plain fuel s c : wf (tr s) → plain s c → changes_entries c = true → (length (subscribers (feed s)) + 1 < fuel)%nat →
  ∃ s', emit_loop fuel s c = Some s' ∧ pictures s' = pictures s.
Proof.
  intros Hwf Hp Hc Hf. destruct fuel as [|fuel]; [lia|]. cbn [emit_loop]. rewrite (plain_before _ _ _ Hp). cbn [mbind option_bind].
  pose proof (applied_all (tr s) c Hwf) as Ha. unfold applied in Ha. destruct (apply (tr s) c) as [[t [[]|e]]|] eqn:Eapp; [| |done]; cbn [mbind option_bind].
  2: by eexists.
  rewrite Hc. destruct (landed_total fuel s c t Hwf Eapp ltac:(lia)) as (s3 & s4 & -> & E4 & P4 & _). cbn [mbind option_bind]. rewrite E4. cbn [mbind option_bind].
  rewrite (plain_after _ s) by (try done; by rewrite (proj1 (report_pictures _))). eexists. split; [done|]. by rewrite (proj1 (report_pictures _)).
Qed.

Lemma images_total fuel images s : wf (tr s) → pic_open (pictures s) = None → (length (subscribers (feed s)) + 1 < fuel)%nat →
  ∃ s', foldM (emit_image (emit_loop fuel)) s images = Some s' ∧ wf (tr s') ∧ (length (subscribers (feed s')) ≤ length (subscribers (feed s)))%nat.
Proof.
  revert s. induction images as [|i images IH]; intros s Hwf Ho Hf; cbn [foldM]; [by exists s|]. unfold emit_image at 1. cbn. set (s0 := with_projector s _).
  destruct (emit_plain fuel s0 (Push (MkEntry (next (projector s) + 1) (ImageEntry Author_Agent i))) Hwf (conj Ho I) eq_refl Hf) as (s1 & E & Hp).
  rewrite E. cbn [mbind option_bind]. destruct (emit_loop_emits _ s0 _ _ Hwf E) as [(pre & mid & post & Hm & _) Hwf1].
  pose proof (moves_count _ _ _ Hm) as [Hle _]. destruct (IH s1 Hwf1) as (s' & E' & Hwf' & Hle'); [by rewrite Hp|cbn in Hle; lia|].
  exists s'. cbn in Hle. split_and!; [done|done|lia].
Qed.

Lemma before_total fuel s c : wf (tr s) → (length (subscribers (feed s)) + 1 < fuel)%nat →
  ∃ s' c', pictures_before (emit_loop fuel) s c = Some (s', c') ∧ wf (tr s') ∧ (length (subscribers (feed s')) ≤ length (subscribers (feed s)))%nat.
Proof.
  intros Hwf Hf. unfold pictures_before. destruct c as [e| | | | | | | | | | | | | | | | | |]; try (by eexists _, _).
  destruct (bool_decide _); [by eexists _, _|]. destruct (pic_open (pictures s)) as [open|] eqn:Ho.
  2: { cbn [mbind option_bind]. eexists _, _. split; [done|]. by destruct (kind e). }
  set (s0 := with_pictures (with_feed s (ask (feed s))) (MkPictures None (pic_tools (pictures s)))).
  destruct (images_total fuel (linked_images s open) s0) as (s1 & -> & Hwf1 & Hle); [done|done|done|]. cbn [mbind option_bind].
  destruct (linked_images s open); cbn [mbind option_bind]; [|destruct (renumber _ _) as [p id]; cbn [mbind option_bind]];
    (eexists _, _; split; [done|]; by destruct (kind _)).
Qed.

Lemma emit_total s c : wf (tr s) → is_Some (emit s c).
Proof.
  intros Hwf. unfold emit, fuel_for. replace (length (subscribers (feed s)) + 3)%nat with (S (length (subscribers (feed s)) + 2)) by lia.
  set (fuel := (length (subscribers (feed s)) + 2)%nat). cbn [emit_loop].
  destruct (before_total fuel s c Hwf ltac:(lia)) as (s1 & c1 & -> & Hwf1 & Hle1). cbn [mbind option_bind].
  pose proof (applied_all (tr s1) c1 Hwf1) as Ha. unfold applied in Ha. destruct (apply (tr s1) c1) as [[t [[]|e]]|] eqn:Eapp; [|by eexists|done]; cbn [mbind option_bind].
  destruct (changes_entries c1) eqn:Hc.
  - destruct (landed_total fuel s1 c1 t Hwf1 Eapp ltac:(lia)) as (s3 & s4 & -> & E4 & P4 & Hwf4 & L4). cbn [mbind option_bind]. rewrite E4. cbn [mbind option_bind].
    unfold pictures_after. destruct (finished_tool c1) as [[id tool]|] eqn:Ef; [|by eexists]. destruct (bool_decide _); [by eexists|].
    destruct (report_pictures s4) as [Rp Rf]. rewrite Rf. set (s5 := with_pictures _ _).
    destruct (of_tool W _ tool) as [|i images]; [by eexists|].
    destruct (emit_plain fuel s5 (Replace (MkEntry id (ToolEntry (add_content tool (i :: images)))))) as (s6 & E6 & _).
    + unfold s5, tr. cbn. done.
    + intros id' tool' Ef'. cbn in Ef'. destruct (tool_status tool) eqn:Est; try done. injection Ef' as <- <-. unfold s5. cbn. set_solver.
    + done.
    + unfold s5. cbn. lia.
    + rewrite E6. by eexists.
  - cbn [mbind option_bind]. pose proof (applied_all (tr s1) c1 Hwf1) as Ha'. unfold applied in Ha'. rewrite Eapp in Ha'. destruct Ha' as (Hwft & _).
    pose proof (moves_count _ _ _ (one_landed _ _ _ Eapp)) as [Hle _].
    destruct (_ =? _); cbn [mbind option_bind]; [rewrite (simple_after _ _ _ Hc); by eexists|].
    destruct (emit_simple fuel (land s1 t c1) (Clients (remote_clients (feed (land s1 t c1))))) as (s4 & -> & _); [by rewrite land_tr|done|lia|].
    cbn [mbind option_bind]. rewrite (simple_after _ _ _ Hc). by eexists.
Qed.

Lemma emit_spec s c : wf (tr s) → ∃ s', emit s c = Some s' ∧ emitted s c s' ∧ wf (tr s').
Proof.
  intros Hwf. destruct (emit_total s c Hwf) as [s' E]. exists s'. destruct (emit_loop_emits _ _ _ _ Hwf E). done.
Qed.

(** ** Clients follow the transcript *)

(** A client that follows the messages: it has nothing yet, the transcript of a
    cursor, or got a change that does not follow its cursor or does not fit. *)
Inductive Held := Nothing | Holds (c : Cursor) (t : Transcript) | Broken.
Definition follow (st : Held) (m : ServerMessage) : Held :=
  match m with
  | Snapshot c t => Holds c t
  | ChangeTo change c =>
      match st with
      | Holds at_ t =>
          if (epoch at_ =? epoch c) && (seq at_ + 1 =? seq c)
          then match apply t change with Some (t', Ok _) => Holds c t' | _ => Broken end else Broken
      | _ => Broken
      end
  | Welcome _ _ v => if v =? VERSION then st else Broken
  | _ => st
  end.
Definition came_with (x : option (Cursor * Transcript)) : Held := match x with Some (c, t) => Holds c t | None => Nothing end.
Definition received (x : Subscriber) (ms : list ServerMessage) : Held := foldl follow (came_with (held x)) ms.

(** The client has the transcript of its cursor. *)
Definition has_past (f : Feed) (st : Held) : Prop :=
  match st with Holds c t => epoch c = f_epoch f ∧ seq c ≤ f_seq f ∧ past f !! N.to_nat (seq c) = Some t | Nothing => True | Broken => False end.

(** Whatever part of its messages it has received. *)
Definition greeted (x : Subscriber) : Prop := match outbox x with [] | Welcome _ _ _ :: _ => True | _ => False end.
Definition consistent (f : Feed) (x : Subscriber) : Prop := greeted x ∧ ∀ n, has_past f (received x (take n (outbox x))).
(** It has everything, and so the present transcript. *)
Definition is_bye (m : ServerMessage) : bool := match m with Bye _ => true | _ => false end.
Definition current (f : Feed) (x : Subscriber) : Prop :=
  received x (outbox x) = Holds (cursor f) (transcript f) ∧ outbox x ≠ [] ∧ Forall (λ m, is_bye m = false) (outbox x).

Definition seqs (k : N) (n : nat) : list N := (λ i, k + N.of_nat i) <$> List.seq 0 n.

(** The transcripts of a session follow one another. *)
Definition chained (f : Feed) : Prop :=
  ∀ i a b, past f !! i = Some a → past f !! S i = Some b → ∃ c, apply a c = Some (b, Ok tt).

Record ok (f : Feed) : Prop := MkOk {
  ok_wf : wf (transcript f);
  ok_past : length (past f) = S (N.to_nat (f_seq f));
  ok_chain : chained f;
  ok_now : past f !! N.to_nat (f_seq f) = Some (transcript f);
  ok_log : (log f).*1 = seqs (f_seq f + 1 - lenN (log f)) (length (log f)) ∧ lenN (log f) ≤ f_seq f;
  ok_steps : ∀ q c, (q, c) ∈ log f → 1 ≤ q ∧ ∃ a b, past f !! N.to_nat (q - 1) = Some a ∧ past f !! N.to_nat q = Some b ∧ apply a c = Some (b, Ok tt);
  ok_bytes : log_bytes f = sumN ((λ x, change_size x.2) <$> log f) ∧ (length (log f) ≤ LOG)%nat ∧ (log_bytes f ≤ LOG_BYTES ∨ lenN (log f) ≤ 1);
  ok_consistent : Forall (consistent f) (subscribers f ++ gone f);
  ok_current : Forall (current f) (subscribers f)
}.

Lemma has_past_more f g st t : f_epoch g = f_epoch f → f_seq f ≤ f_seq g → past g = past f ++ t → has_past f st → has_past g st.
Proof.
  intros E1 E2 E3. destruct st as [|c t0|]; try done. intros (H1 & H2 & H3). cbn. rewrite E1, E3. split_and!; [done|lia|]. by apply lookup_app_l_Some.
Qed.

Lemma received_snoc x m : received (took x m) (outbox (took x m)) = follow (received x (outbox x)) m.
Proof. unfold received. cbn. by rewrite foldl_snoc. Qed.

Lemma consistent_more f g x t : f_epoch g = f_epoch f → f_seq f ≤ f_seq g → past g = past f ++ t → consistent f x → consistent g x.
Proof. intros E1 E2 E3 [Hg H]. split; [done|]. intros n. by eapply has_past_more. Qed.

Lemma consistent_took f x m : consistent f x → outbox x ≠ [] → has_past f (follow (received x (outbox x)) m) → consistent f (took x m).
Proof.
  intros [Hg H] Hne Hm. split; [unfold greeted in *; cbn; by destruct (outbox x) as [|[]]|]. intros n. destruct (decide (n ≤ length (outbox x))%nat) as [Hn|Hn].
  - unfold received. cbn. rewrite take_app_le by done. apply H.
  - rewrite take_ge; [by rewrite received_snoc|]. cbn. rewrite length_app. cbn. lia.
Qed.

Lemma current_took f g x m : current g x → is_bye m = false → follow (received x (outbox x)) m = Holds (cursor f) (transcript f) → current f (took x m).
Proof. intros (_ & _ & Hb) Hm H. split_and!; [by rewrite received_snoc|cbn; by destruct (outbox x)|]. cbn. apply Forall_app. by repeat constructor. Qed.

(** *** The log *)

Lemma seqs_cons k n : seqs k (S n) = k :: seqs (k + 1) n.
Proof.
  unfold seqs. cbn [List.seq fmap list_fmap]. f_equal; [cbn; lia|]. rewrite <- seq_shift, <- list_fmap_compose. apply list_fmap_ext. intros i x _. cbn. lia.
Qed.

Lemma seqs_snoc k n : seqs k (S n) = seqs k n ++ [k + N.of_nat n].
Proof. unfold seqs. rewrite seq_S, fmap_app. done. Qed.

(** Old changes go until the new one fits, or none is left. *)
Lemma trim_log_spec l bytes size k : bytes = sumN ((λ x, change_size x.2) <$> l) → l.*1 = seqs k (length l) → (length l ≤ LOG)%nat →
  ∃ d, (trim_log l bytes size).1 = drop d l ∧ (d ≤ length l)%nat ∧ (trim_log l bytes size).2 = sumN ((λ x, change_size x.2) <$> drop d l) ∧
    (drop d l).*1 = seqs (k + N.of_nat d) (length (drop d l)) ∧ (length (drop d l) < LOG)%nat ∧
    ((trim_log l bytes size).2 + size ≤ LOG_BYTES ∨ drop d l = []).
Proof.
  revert bytes k. induction l as [|[q old] l IH]; intros bytes k Hb Hk Hl; cbn [trim_log].
  { exists 0%nat. cbn. split_and!; try done; [unfold LOG; lia|by right]. }
  cbn [length fmap list_fmap fst] in Hk. rewrite seqs_cons in Hk. injection Hk as -> Hk. destruct (_ || _) eqn:E.
  - destruct (IH (bytes - change_size old) (k + 1)) as (d & E1 & Hd & E2 & E3 & E4 & E5); [|done|cbn in Hl; lia|].
    { rewrite Hb. cbn [fmap list_fmap sumN foldr snd]. unfold sumN. lia. }
    exists (S d). cbn [drop]. split_and!; [done|cbn; lia|done| |done|done]. rewrite E3. f_equal. lia.
  - apply orb_false_iff in E as [E1%Nat.eqb_neq E2%N.ltb_ge]. exists 0%nat. cbn [drop]. split_and!; [done|lia|done| | |by left].
    + rewrite N.add_0_r. cbn [length fmap list_fmap fst]. by rewrite seqs_cons, Hk.
    + lia.
Qed.

Lemma landed_ok f t c : ok f → apply (transcript f) c = Some (t, Ok tt) →
  let g := landed f t c in
  wf t ∧ transcript g = t ∧ f_epoch g = f_epoch f ∧ f_seq g = f_seq f + 1 ∧ past g = past f ++ [t] ∧ subscribers g = subscribers f ∧ gone g = gone f ∧
  (length (past g) = S (N.to_nat (f_seq g)) ∧ past g !! N.to_nat (f_seq g) = Some t) ∧
  ((log g).*1 = seqs (f_seq g + 1 - lenN (log g)) (length (log g)) ∧ lenN (log g) ≤ f_seq g) ∧
  (∀ q d, (q, d) ∈ log g → 1 ≤ q ∧ ∃ a b, past g !! N.to_nat (q - 1) = Some a ∧ past g !! N.to_nat q = Some b ∧ apply a d = Some (b, Ok tt)) ∧
  (log_bytes g = sumN ((λ x, change_size x.2) <$> log g) ∧ (length (log g) ≤ LOG)%nat ∧ (log_bytes g ≤ LOG_BYTES ∨ lenN (log g) ≤ 1)).
Proof.
  intros [] Happ. pose proof (applied_all _ c ok_wf0) as Ha. unfold applied in Ha. rewrite Happ in Ha. destruct Ha as (Hwf & _).
  destruct ok_log0 as [Hseq Hlen], ok_bytes0 as (Hb & Hl & _).
  destruct (trim_log_spec (log f) (log_bytes f) (change_size c) _ Hb Hseq Hl) as (d & E1 & Hd & E2 & E3 & E4 & E5).
  unfold landed. destruct (trim_log (log f) (log_bytes f) (change_size c)) as [l bytes]. cbn in E1, E2, E5. subst l bytes. cbn [transcript f_epoch f_seq past subscribers gone log log_bytes].
  assert (N.to_nat (f_seq f + 1) = length (past f)) as Hn by lia.
  assert (length (drop d (log f)) = length (log f) - d)%nat as Hdl by apply length_drop.
  split_and!; try done.
  - rewrite length_app. cbn. lia.
  - rewrite Hn. by apply list_lookup_middle.
  - rewrite fmap_app, length_app, E3. cbn [length fmap list_fmap fst]. replace (length (drop d (log f)) + 1)%nat with (S (length (drop d (log f)))) by lia. rewrite seqs_snoc. unfold lenN in *.
    rewrite length_app. cbn [length]. f_equal; [f_equal; lia|f_equal; lia].
  - unfold lenN in *. rewrite length_app. cbn [length]. lia.
  - intros q x [Hin|Hin%list_elem_of_singleton]%elem_of_app.
    + assert ((q, x) ∈ log f) as Hin' by (apply list_elem_of_lookup in Hin as [i Hi]; rewrite lookup_drop in Hi; by eapply list_elem_of_lookup_2).
      destruct (ok_steps0 q x Hin') as (H1 & a & b & Ha & Hb' & Hab). split; [done|]. exists a, b. split_and!; [by apply lookup_app_l_Some..|done].
    + injection Hin as -> ->. split; [lia|]. exists (transcript f), t. split_and!; [|rewrite Hn; by apply list_lookup_middle|done].
      replace (f_seq f + 1 - 1) with (f_seq f) by lia. by apply lookup_app_l_Some.
  - rewrite fmap_app. unfold sumN. rewrite foldr_app. cbn. clear. generalize (drop d (log f)) as l. induction l as [|x l IH]; cbn; [lia|]. rewrite <- IH. lia.
  - rewrite length_app. cbn. lia.
  - unfold lenN. rewrite length_app. cbn [length]. destruct E5 as [E5|E5]; [left; lia|]. right. rewrite E5. cbn. lia.
Qed.

(** *** Landing a change keeps every client in step *)

Lemma land_feed s t c : feed (land s t c) = broadcast (landed (feed s) t c) (ChangeTo c (cursor (landed (feed s) t c))).
Proof. unfold land. by destruct c. Qed.

Lemma land_ok s t c : ok (feed s) → apply (tr s) c = Some (t, Ok tt) → ok (feed (land s t c)).
Proof.
  intros Hok Happ. pose proof Hok as []. rewrite land_feed. set (f := landed (feed s) t c). set (m := ChangeTo c (cursor f)).
  destruct (landed_ok (feed s) t c Hok Happ) as (Hwf & Et & Ee & Eq & Ep & Es & Eg & [Hp1 Hp2] & Hlog & Hsteps & Hbytes). fold f in Et, Ee, Eq, Ep, Es, Eg, Hp1, Hp2, Hlog, Hsteps, Hbytes.
  assert (∀ x, x ∈ subscribers (feed s) → follow (received x (outbox x)) m = Holds (cursor f) t) as Hrec.
  { intros x Hx. rewrite Forall_forall in ok_current0. rewrite (proj1 (ok_current0 x Hx)). unfold m. cbn [follow cursor epoch seq]. rewrite Ee, Eq, !N.eqb_refl. cbn [andb]. fold (tr s). by rewrite Happ. }
  assert (has_past f (Holds (cursor f) t)) as Hnow by (cbn; split_and!; [done|lia|done]).
  unfold broadcast. destruct (send_each_spec m (subscribers f) (asks f)) as (kept & lost & n' & -> & keep & -> & Hsub & Hperm). rewrite Es in Hsub, Hperm.
  assert (∀ x, x ∈ keep → x ∈ subscribers (feed s)) as Hkeep by (intros x Hx; rewrite <- Hperm; set_solver).
  assert (Forall (consistent f) (subscribers (feed s) ++ gone (feed s))) as Hcons.
  { eapply Forall_impl; [exact ok_consistent0|]. intros x Hx. eapply (consistent_more (feed s) f x [t]); [done|lia|done|done]. }
  split; cbn; rewrite ?Et, ?Eg; try done.
  - intros i a b. cbn [past with_subscribers]. rewrite !Ep. intros Ha Hb. destruct (decide (S i < length (past (feed s)))%nat) as [Hi|Hi].
    + rewrite lookup_app_l in Ha, Hb by lia. by apply (ok_chain0 i).
    + apply lookup_app_Some in Hb as [Hb%lookup_lt_Some|[Hge Hb]]; [lia|]. apply list_lookup_singleton_Some in Hb as [Hi0 <-].
      rewrite lookup_app_l in Ha by lia. replace i with (N.to_nat (f_seq (feed s))) in Ha by lia. rewrite ok_now0 in Ha. injection Ha as <-. by exists c.
  - rewrite Forall_app, Forall_app in *. destruct Hcons as [Hc1 Hc2]. split_and!; [|done|].
    + apply Forall_fmap. apply Forall_forall. intros x Hx. cbn. apply (consistent_took f); [|rewrite Forall_forall in ok_current0; apply (ok_current0 x), Hkeep, Hx|by rewrite (Hrec x (Hkeep x Hx))].
      rewrite Forall_forall in Hc1. by apply Hc1, Hkeep.
    + rewrite Forall_forall in Hc1 |- *. intros x Hx. apply Hc1. rewrite <- Hperm. set_solver.
  - apply Forall_fmap. apply Forall_forall. intros x Hx. rewrite Forall_forall in ok_current0. apply (current_took _ (feed s)); [by apply ok_current0, Hkeep|done|]. cbn. rewrite Et. exact (Hrec x (Hkeep x Hx)).
Qed.

Lemma moves_ok s cs s' : moves s cs s' → ok (feed s) → ok (feed s').
Proof. induction 1 as [|s t c cs s' Happ Hm IH|s n p pics a r cs s' Hm IH]; [done| |]; intros Hok; apply IH; [by apply land_ok|]. by destruct Hok. Qed.

Lemma emit_ok s c : ok (feed s) → ∃ s', emit s c = Some s' ∧ emitted s c s' ∧ ok (feed s').
Proof.
  intros Hok. destruct (emit_spec s c (ok_wf _ Hok)) as (s' & E & Hem & _). exists s'. split_and!; [done|done|].
  destruct Hem as (pre & mid & post & Hm & _). by apply (moves_ok _ _ _ Hm).
Qed.

(** ** The transcript stays within a frame *)

Lemma sumN_app l k : sumN (l ++ k) = sumN l + sumN k.
Proof. unfold sumN. rewrite foldr_app. induction l as [|x l IH]; cbn; [done|]. rewrite IH. lia. Qed.

Lemma in_frame_drop k es : in_frame es → in_frame (drop k es).
Proof.
  intros [H1 H2]. rewrite <- (take_drop k es) in H2. rewrite !fmap_app, !sumN_app, length_app in H2. split; rewrite ?length_drop; [lia|].
  rewrite length_drop in H2. destruct H2 as [?|[? ?]]; [left; lia|right; lia].
Qed.

(** A truncation at an entry drops the entries before it. *)
Lemma truncate_at es n e : ordered es → es !! n = Some e → partition_point es (entry_id e) = n.
Proof.
  intros Ho Hn. destruct (partition_spec es (entry_id e) Ho) as (Hp & Hlt & Hge). set (p := partition_point es (entry_id e)) in *.
  destruct (Nat.lt_trichotomy p n) as [H|[H|H]]; [|done|].
  - destruct (lookup_lt_is_Some_2 es p) as [x Hx]; [apply lookup_lt_Some in Hn; lia|].
    pose proof (ordered_lookup es p n x e Ho Hx Hn H). rewrite Forall_lookup in Hge.
    specialize (Hge 0%nat x). rewrite lookup_drop, Nat.add_0_r in Hge. specialize (Hge Hx). cbn in Hge. lia.
  - rewrite Forall_lookup in Hlt. specialize (Hlt n e). rewrite lookup_take_lt in Hlt by done. specialize (Hlt Hn). cbn in Hlt. lia.
Qed.

(** A change of no entry leaves the entries, or drops old ones. *)
Lemma simple_entries t c t' r : simple c → apply t c = Some (t', r) →
  entries t' = entries t ∨ ∃ b, c = Truncate b ∧ entries t' = drop (partition_point (entries t) b) (entries t).
Proof.
  intros Hc. unfold apply. destruct (answers_refused c); [intros [= <- <-]; by left|]. destruct c as [| | |b0| | | | | | | | | | | | | | |]; try done; try (intros [= <- <-]; by left).
  - destruct (Nat.ltb_spec 0 (partition_point (entries t) b0)); [|intros [= <- <-]; by left].
    destruct (_ <=? _)%nat; [|done]. intros [= <- <-]. right. by exists b0.
  - destruct (existsb _ _); intros [= <- <-]; by left.
  - destruct (position_of _ _); intros [= <- <-]; by left.
  - destruct (modes t); intros [= <- <-]; by left.
  - unfold Transcript.record. destruct (negb _); [intros [= <- <-]; by left|]. destruct (position_of _ _); [intros [= <- <-]; by left|].
    destruct (_ <=? _)%nat; [|intros [= <- <-]; by left]. destruct (position_of _ _); intros [= <- <-]; by left.
Qed.

Lemma emit_simple_entries fuel s c s' : wf (tr s) → simple c → emit_loop fuel s c = Some s' →
  entries (tr s') = entries (tr s) ∨ ∃ b, c = Truncate b ∧ entries (tr s') = drop (partition_point (entries (tr s)) b) (entries (tr s)).
Proof.
  revert s c s'. induction fuel as [|fuel IH]; intros s c s' Hwf Hc; [done|]. cbn [emit_loop]. rewrite (simple_before _ _ _ Hc). cbn [mbind option_bind].
  pose proof (applied_all (tr s) c Hwf) as Ha. unfold applied in Ha. destruct (apply (tr s) c) as [[t [[]|e]]|] eqn:Eapp; [| |done]; cbn [mbind option_bind].
  2: { destruct Ha as [-> _]. rewrite same_transcript. intros [= <-]. by left. }
  rewrite Hc. cbn [mbind option_bind]. destruct Ha as (Hwft & _). pose proof (simple_entries _ _ _ _ Hc Eapp) as Hent.
  assert (∀ x, entries (tr (report_activity x)) = entries (tr x)) as Hrep by (intros x; unfold tr; by rewrite (proj2 (report_pictures x))).
  destruct (_ =? _); cbn [mbind option_bind].
  { rewrite (simple_after _ _ _ Hc). intros [= <-]. by rewrite Hrep, land_tr. }
  destruct (emit_loop fuel (land s t c) _) as [s4|] eqn:E4; [|done]. cbn [mbind option_bind]. rewrite (simple_after _ _ _ Hc). intros [= <-]. rewrite Hrep.
  destruct (IH (land s t c) (Clients (remote_clients (feed (land s t c)))) s4) as [->|(b & ? & _)]; [by rewrite land_tr|done|done| |done]. by rewrite land_tr.
Qed.

Lemma bound_frame fuel s s' : wf (tr s) → bound (emit_loop fuel) s = Some s' → in_frame (entries (tr s')).
Proof.
  intros Hwf. unfold bound. destruct (keep_from_spec (entries (tr s))) as [Hk Hf].
  destruct (Nat.ltb_spec 0 (keep_from (entries (tr s)))) as [H0|H0].
  - destruct Hk as [Hk|?]; [|lia]. destruct (lookup_lt_is_Some_2 _ _ Hk) as [e He]. rewrite He. cbn [mbind option_bind]. intros E.
    pose proof (truncate_at _ _ _ (wf_order _ Hwf) He) as Hp. pose proof Hwf as Hwf0.
    destruct fuel as [|fuel]; [done|]. cbn [emit_loop] in E. rewrite simple_before in E by done. cbn [mbind option_bind] in E.
    unfold apply in E. cbn [answers_refused] in E. rewrite Hp in E. rewrite (proj2 (Nat.ltb_lt _ _) H0), (proj2 (Nat.leb_le _ _)) in E by lia.
    cbn [mbind option_bind changes_entries] in E. set (t := set_truncated _ _) in E. set (s1 := land s t _) in E.
    assert (in_frame (entries (tr s1))) as Hf1 by (unfold s1; by rewrite land_tr).
    assert (∀ x, entries (tr (report_activity x)) = entries (tr x)) as Hrep by (intros x; unfold tr; by rewrite (proj2 (report_pictures x))).
    destruct (_ =? _) in E; cbn [mbind option_bind] in E; [rewrite simple_after in E by done; injection E as <-; by rewrite Hrep|].
    destruct (emit_loop fuel s1 _) as [s2|] eqn:E2; [|done]. cbn [mbind option_bind] in E. rewrite simple_after in E by done. injection E as <-. rewrite Hrep.
    assert (wf (tr s1)) as Hwf1. { unfold s1. rewrite land_tr. unfold t. destruct Hwf0. split; try done; cbn; [by apply ordered_drop|by apply Forall_drop]. }
    destruct (emit_simple_entries _ _ _ _ Hwf1 (eq_refl : simple (Clients _)) E2) as [->|(b & ? & _)]; done.
  - intros [= <-]. assert (keep_from (entries (tr s)) = 0%nat) as E0 by lia. by rewrite E0 in Hf.
Qed.

Lemma emit_loop_frame fuel s c s' : wf (tr s) → in_frame (entries (tr s)) → emit_loop fuel s c = Some s' → in_frame (entries (tr s')).
Proof.
  revert s c s'. induction fuel as [|fuel IH]; intros s c s' Hwf Hf; [done|]. cbn [emit_loop].
  assert (∀ x, tr (report_activity x) = tr x) as Hrep by (intros x; unfold tr; by rewrite (proj2 (report_pictures x))).
  assert (∀ images s0 s1, wf (tr s0) → in_frame (entries (tr s0)) → foldM (emit_image (emit_loop fuel)) s0 images = Some s1 →
    wf (tr s1) ∧ in_frame (entries (tr s1))) as Himages.
  { induction images as [|i images IHi]; intros s0 s1 Hw0 Hf0; cbn [foldM]; [by intros [= <-]|]. unfold emit_image at 1. cbn.
    set (s2 := with_projector s0 _). destruct (emit_loop fuel s2 _) as [s3|] eqn:E; [|done]. cbn [mbind option_bind]. apply IHi.
    - by apply (emit_loop_emits _ s2 _ _ Hw0 E).
    - by apply (IH s2 _ _ Hw0 Hf0 E). }
  destruct (pictures_before (emit_loop fuel) s c) as [[s1 c1]|] eqn:Eb; [|done]. cbn [mbind option_bind].
  assert (wf (tr s1) ∧ in_frame (entries (tr s1))) as [Hwf1 Hf1].
  { revert Eb. unfold pictures_before. destruct c as [e| | | | | | | | | | | | | | | | | |]; try (by intros [= <- <-]). destruct (bool_decide _); [by intros [= <- <-]|].
    destruct (pic_open (pictures s)) as [open|]; [|cbn [mbind option_bind]; intros [= <- _]; by destruct (kind e)].
    set (s0 := with_pictures (with_feed s (ask (feed s))) (MkPictures None (pic_tools (pictures s)))).
    destruct (foldM (emit_image (emit_loop fuel)) s0 (linked_images s open)) as [s2|] eqn:E2; [|done]. cbn [mbind option_bind].
    destruct (Himages _ s0 s2 Hwf Hf E2) as [H1 H2].
    destruct (linked_images s open); cbn [mbind option_bind]; [|destruct (renumber _ _) as [p id]; cbn [mbind option_bind]]; intros [= <- _]; by destruct (kind _). }
  pose proof (applied_all (tr s1) c1 Hwf1) as Ha. unfold applied in Ha. destruct (apply (tr s1) c1) as [[t [[]|e]]|] eqn:Eapp; [| |done]; cbn [mbind option_bind].
  2: { destruct Ha as [-> _]. rewrite same_transcript. by intros [= <-]. }
  destruct Ha as (Hwft & _). destruct (if changes_entries c1 then bound (emit_loop fuel) (land s1 t c1) else Some (land s1 t c1)) as [s3|] eqn:E3; [|done]. cbn [mbind option_bind].
  assert (wf (tr s3) ∧ in_frame (entries (tr s3))) as [Hwf3 Hf3].
  { destruct (changes_entries c1) eqn:Hc.
    - split; [|apply (bound_frame fuel (land s1 t c1)); [by rewrite land_tr|done]].
      apply (bound_moves _ (emit_loop_emits fuel) (land s1 t c1)); [by rewrite land_tr|done].
    - injection E3 as <-. rewrite land_tr. split; [done|]. destruct (simple_entries _ _ _ _ Hc Eapp) as [->|(b & _ & ->)]; [done|by apply in_frame_drop]. }
  destruct (if remote_clients (feed s3) =? _ then Some s3 else _) as [s4|] eqn:E4; [|done]. cbn [mbind option_bind].
  assert (wf (tr s4) ∧ in_frame (entries (tr s4))) as [Hwf4 Hf4].
  { destruct (_ =? _); [by injection E4 as <-|]. split; [by apply (emit_loop_emits _ _ _ _ Hwf3 E4)|by apply (IH _ _ _ Hwf3 Hf3 E4)]. }
  unfold pictures_after. destruct (finished_tool c1) as [[id tool]|]; [|intros [= <-]; by rewrite Hrep]. destruct (bool_decide _); [intros [= <-]; by rewrite Hrep|].
  rewrite (proj2 (report_pictures s4)). set (s5 := with_pictures _ _). destruct (of_tool W _ tool); [intros [= <-]; done|].
  intros E. by apply (IH s5 _ _ Hwf4 Hf4 E).
Qed.

(** ** Every input keeps the session in order *)

Definition good (f : Feed) : Prop := ok f ∧ in_frame (entries (transcript f)).

Lemma emit_good s c : good (feed s) → ∃ s', emit s c = Some s' ∧ emitted s c s' ∧ good (feed s').
Proof.
  intros [Hok Hf]. destruct (emit_ok s c Hok) as (s' & E & Hem & Hok'). exists s'. split_and!; [done|done|]. split; [done|].
  by apply (emit_loop_frame _ s c s' (ok_wf _ Hok) Hf E).
Qed.
End session.
End ChatEmit.
