(* ===== verification/ChatRun.v ===== *)
(** * ChatRun: what clients and the agent see of a conversation
    (crates/sheprd-acp/src/session.rs and its handlers)

    Every input keeps the clients in step with the transcript, what is kept within
    its bounds, and what the agent is told in line with what agent and clients
    asked for. *)

From Stdlib Require Import NArith Lia.
From stdpp Require Import base option strings list gmap sets sorting.
From S2P Require Import Prelude Transcript Display Project ChatSession ChatEmit.

Local Open Scope N_scope.

Module ChatRun.
Import Transcript Project ChatSession ChatEmit.

Section session.
Context {V : Type} {AJ : AcpJson V} {TJ : TagJson} {W : World} {cfg : Config}.

(** *** Clients that come *)

Lemma log_after l k n q : l.*1 = seqs k n → filter (λ x : N * Change, q < x.1) l = drop (N.to_nat (q + 1 - k)) l.
Proof.
  revert k n. induction l as [|[j c] l IH]; intros k n H; [by rewrite drop_nil|]. destruct n as [|n]; [done|].
  cbn [fmap list_fmap fst] in H. rewrite seqs_cons in H. injection H as Hj H. rewrite filter_cons, Hj. cbn [fst]. specialize (IH _ _ H). destruct (decide (q < k)) as [Hq|Hq].
  - replace (N.to_nat (q + 1 - k)) with 0%nat by lia. rewrite IH. replace (N.to_nat (q + 1 - (k + 1))) with 0%nat by lia. done.
  - replace (N.to_nat (q + 1 - k)) with (S (N.to_nat (q + 1 - (k + 1)))) by lia. exact IH.
Qed.

(** Replaying changes that follow one another from where the client is. *)
Lemma replay f l q t : ok f → (∀ x, x ∈ l → x ∈ log f) → l.*1 = seqs (q + 1) (length l) → past f !! N.to_nat q = Some t → ∀ n,
  ∃ t', past f !! N.to_nat (q + N.of_nat (length (take n l))) = Some t' ∧
    foldl follow (Holds (MkCursor (f_epoch f) q) t) ((λ x, ChangeTo x.2 (MkCursor (f_epoch f) x.1)) <$> take n l)
    = Holds (MkCursor (f_epoch f) (q + N.of_nat (length (take n l)))) t'.
Proof.
  intros Hok. revert q t. induction l as [|[j c] l IH]; intros q t Hin Hs Ht n.
  { exists t. rewrite take_nil. cbn. by rewrite N.add_0_r. }
  destruct n as [|n]; [exists t; cbn; by rewrite N.add_0_r|]. cbn [length fmap list_fmap fst] in Hs. rewrite seqs_cons in Hs. injection Hs as Hj Hs. subst j.
  destruct (ok_steps _ Hok (q + 1) c) as (_ & a & b & Ha & Hb & Hab); [apply Hin; set_solver|].
  replace (q + 1 - 1) with q in Ha by lia. rewrite Ht in Ha. injection Ha as <-.
  destruct (IH (q + 1) b) with (n := n) as (t' & Hp & Hf); [intros x Hx; apply Hin; set_solver|done|done|].
  exists t'. cbn [take length fmap list_fmap foldl follow epoch seq snd fst]. rewrite !N.eqb_refl. cbn [andb]. rewrite Hab.
  replace (q + N.of_nat (S (length (take n l)))) with (q + 1 + N.of_nat (length (take n l))) by lia. done.
Qed.

Lemma first_messages_ok f since : ok f →
  (∀ n, has_past f (foldl follow (came_with (has_at f since)) (take n (first_messages f since)))) ∧
  foldl follow (came_with (has_at f since)) (first_messages f since) = Holds (cursor f) (transcript f).
Proof.
  intros Hok. assert (has_past f (came_with (has_at f since))) as Hat.
  { unfold has_at. destruct since as [c|]; [|done]. cbn [mbind option_bind]. destruct (_ && _) eqn:E; [|done].
    apply andb_true_iff in E as [E1%N.eqb_eq E2%N.leb_le]. destruct (past f !! N.to_nat (seq c)) eqn:Ep; done. }
  assert (has_past f (Holds (cursor f) (transcript f))) as Hnow.
  { cbn. split_and!; [done|lia|apply (ok_now _ Hok)]. }
  unfold first_messages. destruct (catch_up f since) as [c|] eqn:Ec.
  2: { split; [|done]. intros [|[|[|n]]]; done. }
  unfold catch_up in Ec. destruct since as [c0|]; [|done]. cbn [mbind option_bind] in Ec.
  destruct (_ && _ && _) eqn:E; [|done]. injection Ec as ->. apply andb_true_iff in E as [[E1%N.eqb_eq E2%N.leb_le]%andb_true_iff E3%N.leb_le].
  destruct (ok_log _ Hok) as [Hs Hl]. set (k := f_seq f + 1 - lenN (log f)) in *. rewrite (log_after _ k _ _ Hs).
  set (d := N.to_nat (seq c + 1 - k)). unfold lenN in *.
  assert (k ≤ seq c + 1) as Hk.
  { destruct (log f) as [|[j x] l] eqn:El; [unfold k; cbn in *; lia|]. cbn [length fmap list_fmap fst] in Hs. rewrite seqs_cons in Hs. injection Hs as Hj _. by rewrite Hj in E3. }
  assert ((drop d (log f)).*1 = seqs (seq c + 1) (length (drop d (log f)))) as Hds.
  { rewrite fmap_drop, Hs. unfold seqs. rewrite <- fmap_drop, drop_seq, length_drop.
    replace (0 + d)%nat with (d + 0)%nat by lia. rewrite <- (fmap_add_seq d 0), <- list_fmap_compose. apply list_fmap_ext. intros i x _. cbn. unfold d. lia. }
  assert (past f !! N.to_nat (seq c) = Some (default (transcript f) (past f !! N.to_nat (seq c)))) as Ht.
  { destruct (lookup_lt_is_Some_2 (past f) (N.to_nat (seq c))) as [t ->]; [rewrite (ok_past _ Hok); lia|done]. }
  assert (has_at f (Some c) = Some (MkCursor (f_epoch f) (seq c), default (transcript f) (past f !! N.to_nat (seq c)))) as Hheld.
  { unfold has_at. cbn [mbind option_bind]. rewrite E1, N.eqb_refl, (proj2 (N.leb_le _ _) E2). cbn [andb]. rewrite Ht. cbn. destruct c. cbn in *. by subst. }
  assert (∀ n, ∃ t', past f !! N.to_nat (seq c + N.of_nat (length (take n (drop d (log f))))) = Some t' ∧
    foldl follow (came_with (has_at f (Some c))) ((λ x, ChangeTo x.2 (MkCursor (f_epoch f) x.1)) <$> take n (drop d (log f)))
    = Holds (MkCursor (f_epoch f) (seq c + N.of_nat (length (take n (drop d (log f)))))) t') as Hr.
  { rewrite Hheld. apply (replay f); [done| |done|done]. intros x Hx. apply list_elem_of_lookup in Hx as [i Hi]. rewrite lookup_drop in Hi. by eapply list_elem_of_lookup_2. }
  assert (length (drop d (log f)) = length (log f) - d)%nat as Hdl by apply length_drop.
  split.
  - intros [|n]; [done|]. cbn [take foldl follow]. rewrite N.eqb_refl, <- fmap_take. destruct (Hr n) as (t' & Hp & ->). cbn. split_and!; [done| |done].
    rewrite length_take, Hdl. unfold d, k. lia.
  - cbn [foldl follow]. rewrite N.eqb_refl. destruct (Hr (length (drop d (log f)))) as (t' & Hp & E). rewrite take_ge in E, Hp by lia.
    assert (seq c + N.of_nat (length (drop d (log f))) = f_seq f) as Eq by (rewrite Hdl; unfold d, k in *; lia). rewrite Eq in E, Hp.
    rewrite (ok_now _ Hok) in Hp. injection Hp as <-. exact E.
Qed.

Lemma fill_spec n ms : ∃ sent n' all, fill n ms = (sent, n', all) ∧ sent `prefix_of` ms ∧ (all = true → sent = ms).
Proof.
  revert n. induction ms as [|m ms IH]; intros n; cbn [fill]; [by eexists _, _, _|]. destruct (room W n).
  - destruct (IH (S n)) as (sent & n' & all & -> & Hp & Ha). eexists _, _, _. split; [done|]. split; [by apply prefix_cons|]. intros Hall. by rewrite Ha.
  - eexists _, _, _. split; [done|]. split; [apply prefix_nil|done].
Qed.

(** Clients that come and go, and the counts of the world. *)
Lemma good_subscribers f subs lost n : good f → Forall (consistent f) (subs ++ lost) →
  Forall (current f) subs → good (with_subscribers f subs lost n).
Proof.
  intros [Hok Hf] Hc Hr. split; [|done]. destruct Hok. split; try done. apply Forall_app in Hc as [Hc1 Hc2]. apply Forall_app in ok_consistent0 as [_ Hg].
  cbn. by rewrite !Forall_app.
Qed.

Lemma good_asks f n : good f → good (MkFeed (transcript f) (f_epoch f) (f_seq f) (log f) (log_bytes f) (subscribers f) n (past f) (gone f)).
Proof. intros [[] Hf]. by split. Qed.

Lemma prefix_consistent f id local since sent : ok f → sent `prefix_of` first_messages f since → consistent f (MkSubscriber id local (has_at f since) sent).
Proof.
  intros Hok [rest E]. split; [unfold greeted, first_messages in *; cbn [outbox]; destruct sent as [|m sent]; [done|]; by injection E as <- _|].
  intros n. unfold received. cbn [held outbox]. destruct (first_messages_ok f since Hok) as [H _].
  specialize (H (Nat.min n (length sent))). rewrite E, take_app_le in H by lia.
  destruct (decide (n ≤ length sent)%nat); [by rewrite Nat.min_l in H|]. rewrite Nat.min_r in H by lia. by rewrite firstn_all in H; rewrite take_ge by lia.
Qed.

(** What a step ends in. *)
Definition yields {A} (P : A → Prop) (x : option A) : Prop := ∃ a, x = Some a ∧ P a.

Lemma yields_some {A} (P : A → Prop) a : P a → yields P (Some a).
Proof. intros H. by exists a. Qed.
Lemma yields_bind {A B} (P : A → Prop) (Q : B → Prop) x k : yields P x → (∀ a, P a → yields Q (k a)) → yields Q (x ≫= k).
Proof. intros (a & -> & H) Hk. by apply Hk. Qed.
Lemma yields_impl {A} (P Q : A → Prop) x : yields P x → (∀ a, P a → Q a) → yields Q x.
Proof. intros (a & -> & H) Hk. exists a. auto. Qed.
Lemma yields_fold {A} (P : Session → Prop) (f : Session → A → option Session) l :
  (∀ s a, a ∈ l → P s → yields P (f s a)) → ∀ s, P s → yields P (foldM f s l).
Proof.
  induction l as [|a l IH]; intros Hf s Hs; cbn [foldM]; [by apply yields_some|]. eapply yields_bind; [apply Hf; [set_solver|done]|].
  apply IH. intros s1 b Hb. apply Hf. set_solver.
Qed.

(** In order, and the core as it was. *)
Definition keeps (k : Core) (x : option Session) : Prop := yields (λ s, good (feed s) ∧ core s = k) x.

Lemma keeps_some k s : good (feed s) → core s = k → keeps k (Some s).
Proof. intros H1 H2. by apply yields_some. Qed.

Lemma emit_core s c : good (feed s) → keeps (core_change c (core s)) (emit s c).
Proof. intros H. destruct (emit_good s c H) as (s' & E & Hem & Hs). exists s'. split_and!; [done|done|by apply emitted_core]. Qed.

Lemma keeps_emit k s c : good (feed s) → core_change c (core s) = k → keeps k (emit s c).
Proof. intros H <-. by apply emit_core. Qed.

Lemma attach_keeps s id local since : good (feed s) → keeps (core s) (attach s id local since).
Proof.
  intros Hg. unfold attach. destruct (fill_spec (asks (feed s)) (first_messages (feed s) since)) as (sent & n & all & -> & Hp & Ha).
  pose proof (proj1 Hg) as Hok. pose proof (prefix_consistent (feed s) id local since sent Hok Hp) as Hc. pose proof (ok_consistent _ Hok) as Hcs.
  apply Forall_app in Hcs as [Hcs _]. destruct all.
  - assert (good (with_subscribers (feed s) (subscribers (feed s) ++ [MkSubscriber id local (has_at (feed s) since) sent]) [] n)) as Hg'.
    { apply good_subscribers; [done|rewrite app_nil_r; apply Forall_app; split; [done|by apply Forall_singleton]|]. apply Forall_app. split; [apply (ok_current _ Hok)|].
      constructor; [|constructor]. unfold current, received. cbn [held outbox]. rewrite (Ha eq_refl). split_and!; [by apply first_messages_ok|done|]. unfold first_messages. constructor; [done|].
      destruct (catch_up _ _); [|by repeat constructor]. apply Forall_fmap, Forall_forall. by intros y _. }
    destruct local; [by apply keeps_some|]. by apply keeps_emit.
  - apply keeps_some; [|done]. cbn. apply good_subscribers; [done|apply Forall_app; split; [done|by apply Forall_singleton]|apply (ok_current _ Hok)].
Qed.

Lemma filter_keeps {A} (P Q : A → Prop) `{∀ x, Decision (Q x)} l : Forall P l → Forall P (filter Q l).
Proof. rewrite !Forall_forall. intros Hl x [_ Hx]%list_elem_of_filter. by apply Hl. Qed.

Lemma detach_keeps s id : good (feed s) → keeps (core s) (detach s id).
Proof.
  intros Hg. unfold detach. set (s1 := with_feed s _).
  assert (good (feed s1)) as H1.
  { apply good_subscribers; [done| |]; rewrite ?Forall_app.
    - pose proof (ok_consistent _ (proj1 Hg)) as Hcs. apply Forall_app in Hcs as [Hcs _]. split; by apply filter_keeps.
    - apply filter_keeps, (ok_current _ (proj1 Hg)). }
  destruct (_ =? _); [by apply keeps_some|by apply keeps_emit].
Qed.

Lemma bye_good s reason : good (feed s) → good (feed (bye s reason)).
Proof.
  intros Hg. unfold bye. destruct (send_each_spec (Bye reason) (subscribers (feed s)) (asks (feed s))) as (kept & lost & n & -> & keep & -> & Hsub & Hperm).
  apply good_subscribers; [done| |constructor]. pose proof (ok_consistent _ (proj1 Hg)) as Hcs. apply Forall_app in Hcs as [Hcs _].
  pose proof (ok_current _ (proj1 Hg)) as Hcur. rewrite Forall_forall in Hcs, Hcur.
  cbn [app]. rewrite Forall_app, Forall_fmap, !Forall_forall. split.
  - intros x Hx. assert (x ∈ subscribers (feed s)) as Hin by (rewrite <- Hperm; set_solver). apply consistent_took; [by apply Hcs|by apply (Hcur x Hin)|].
    rewrite (proj1 (Hcur x Hin)). cbn. split_and!; [done|lia|apply (ok_now _ (proj1 Hg))].
  - intros x Hx. apply Hcs. rewrite <- Hperm. set_solver.
Qed.

Lemma send_to_keeps s id cmd rejected : good (feed s) → keeps (core s) (send_to s id (Ack cmd rejected)).
Proof.
  intros Hg. unfold send_to. destruct (list_find _ _) as [[i x]|] eqn:Ef; [|by apply keeps_some]. apply list_find_Some in Ef as (Hx & _ & _).
  destruct (room W _); [|apply (detach_keeps (with_feed s (ask (feed s)))); by apply good_asks]. apply keeps_some; [|done].
  pose proof (ok_consistent _ (proj1 Hg)) as Hcs. apply Forall_app in Hcs as [Hcs _]. pose proof (ok_current _ (proj1 Hg)) as Hcur.
  assert (x ∈ subscribers (feed s)) as Hin by (by eapply list_elem_of_lookup_2). pose proof Hcs as Hcs'. pose proof Hcur as Hcur'. rewrite Forall_forall in Hcs', Hcur'.
  apply good_subscribers; [done| |].
  - rewrite app_nil_r. apply Forall_insert; [done|]. apply consistent_took; [by apply Hcs'|by apply (Hcur' x Hin)|]. cbn. rewrite (proj1 (Hcur' x Hin)).
    cbn. split_and!; [done|lia|apply (ok_now _ (proj1 Hg))].
  - apply Forall_insert; [done|]. apply (current_took _ (feed s)); [by apply Hcur'|done|]. cbn. by apply Hcur'.
Qed.

(** *** What agent and clients are told *)

#[export] Instance RequestId_eq_dec : EqDecision RequestId.
Proof. solve_decision. Defined.

(** How often the agent sent a request of an id, and was answered. *)
Definition count {A} (p : A → bool) (l : list A) : nat := length (List.filter p l).
Definition requests (r : RequestId) (ins : list (Input V)) : nat :=
  count (λ i, match i with I_Agent (In_Request id _ _) => bool_decide (id = r) | _ => false end) ins.
Definition answers_to (r : RequestId) (ls : list AgentLine) : nat :=
  count (λ l, match l with Line_Answer id _ => bool_decide (id = r) | _ => false end) ls.
Definition open_for (r : RequestId) (m : gmap N Asked) : nat := count (λ x, bool_decide (asked_request x.2 = r)) (map_to_list m).

(** The prompts of clients, and those the agent got. *)
Definition prompts (ins : list (Input V)) : list (str * list Attachment) :=
  ins ≫= λ i, match i with I_Command _ _ (Prompt t a) => [(t, a)] | _ => [] end.
Definition prompt_lines (ls : list AgentLine) : list AgentLine :=
  List.filter (λ l, match l with Line_Request _ (Req_Prompt _ _) => true | _ => false end) ls.
Definition sent_for (l : AgentLine) (p : str * list Attachment) : Prop :=
  ∃ id session (blocks : list ContentBlock), length blocks = length p.2 ∧
    l = Line_Request id (Req_Prompt session ((if bool_decide (trim p.1 = []) then [] else [CB_Text p.1]) ++ blocks)).
Definition waiting (q : list Queued) : list (str * list Attachment) := (λ q, (queued_text q, attachments q)) <$> q.

#[global] Arguments count : simpl never.
#[global] Arguments requests : simpl never.
#[global] Arguments answers_to : simpl never.
#[global] Arguments open_for : simpl never.
#[global] Arguments prompt_lines : simpl never.

(** [w] was among the options of a request of the agent. *)
Definition offers (ins : list (Input V)) (r : RequestId) (ws : list WirePermissionOption) : Prop :=
  ∃ method params req, I_Agent (In_Request r method params) ∈ ins ∧ permission_request params = Some req ∧ pr_options req = ws.

(** An answer [o] to request [r] that a person stands behind. *)
Definition authorized (ins : list (Input V)) (r : RequestId) (o : str) : Prop :=
  ∃ ws w, offers ins r ws ∧ w ∈ ws ∧ po_id w = o ∧
    ((∃ client cmd permission, I_Command client cmd (Answer o permission) ∈ ins) ∨
     ((∃ client cmd, I_Command client cmd (SetAutoAccept true) ∈ ins) ∧ po_manual w = false ∧ (po_kind w = PO_AllowOnce ∨ po_kind w = PO_AllowAlways))).

Definition queue_fits (q : list Queued) : Prop := (length q ≤ MAX_QUEUED)%nat ∧ sumN ((λ q, str_len (queued_text q)) <$> q) ≤ MAX_QUEUED_TEXT.

(** After the inputs [ins], of which [rq] requests and the prompts [pr] count,
    with the commands [hd] remembered: permissions but those of [X] are asked and shown; with [b], nothing waits for
    an agent that is free. *)
Record J (ins : list (Input V)) (rq : RequestId → nat) (pr : list (str * list Attachment))
  (hd : list (N * option Rejection)) (X : N → Prop) (b : bool) (k : Core) : Prop := MkJ {
  j_perms : ∀ p, p ∈ k_permissions k → ¬ X (permission_id p) →
    ∃ a ws, k_asked k !! permission_id p = Some a ∧ offers ins (asked_request a) ws ∧ permission_options p = permission_option <$> ws;
  j_asked : ∀ id a, k_asked k !! id = Some a →
    id ≤ k_next k ∧ (¬ X id → id ∈ permission_id <$> k_permissions k) ∧ ∃ ws, offers ins (asked_request a) ws ∧ asked_options a = po_id <$> ws;
  j_answers : ∀ r, (answers_to r (k_agent k) + open_for r (k_asked k) ≤ rq r)%nat;
  j_auto : k_auto k = true → ∃ client cmd, I_Command client cmd (SetAutoAccept true) ∈ ins;
  j_auth : ∀ r o, Line_Answer r (Selected o) ∈ k_agent k → authorized ins r o;
  j_queue : queue_fits (k_queued k);
  j_order : ∃ ps, Forall2 sent_for (prompt_lines (k_agent k)) ps ∧ ps ++ waiting (k_queued k) `sublist_of` pr;
  j_idle : b = true → k_turn k = None → k_ready k = true → k_queued k = [];
  j_open : k_ready k = true → is_Some (k_session k);
  j_handled : k_handled k = hd
}.

Lemma count_app {A} (p : A → bool) l1 l2 : count p (l1 ++ l2) = (count p l1 + count p l2)%nat.
Proof. unfold count. by rewrite List.filter_app, length_app. Qed.
Lemma count_perm {A} (p : A → bool) l1 l2 : l1 ≡ₚ l2 → count p l1 = count p l2.
Proof.
  unfold count. induction 1 as [|x l1 l2 _ IH|x y l|l1 l2 l3 _ IH1 _ IH2]; cbn; [done|by destruct (p x); cbn; rewrite ?IH| |by rewrite IH1].
  by destruct (p x), (p y).
Qed.

Lemma open_insert r m id a : m !! id = None → open_for r (<[id := a]> m) = ((if bool_decide (asked_request a = r) then 1 else 0) + open_for r m)%nat.
Proof.
  intros H. unfold open_for. rewrite (count_perm _ _ _ (map_to_list_insert m id a H)). unfold count. cbn. by destruct (bool_decide _).
Qed.
Lemma open_delete r m id a : m !! id = Some a → open_for r m = ((if bool_decide (asked_request a = r) then 1 else 0) + open_for r (delete id m))%nat.
Proof. intros H. rewrite <- (open_insert r (delete id m) id a) by apply lookup_delete_eq. by rewrite insert_delete_id. Qed.

Lemma offers_more ins ins' r ws : ins ⊆ ins' → offers ins r ws → offers ins' r ws.
Proof. intros H (m & p & q & Hin & E1 & E2). exists m, p, q. split_and!; [by apply H|done|done]. Qed.
Lemma authorized_more ins ins' r o : ins ⊆ ins' → authorized ins r o → authorized ins' r o.
Proof.
  intros H (ws & w & Ho & Hw & E & Hp). exists ws, w. split_and!; [by eapply offers_more|done|done|].
  destruct Hp as [(c & i & p & Hp)|[(c & i & Hp) Hk]]; [left; exists c, i, p; by apply H|right]. split; [|done]. exists c, i. by apply H.
Qed.

Lemma J_more ins ins' rq rq' pr pr' hd X b k :
  ins ⊆ ins' → (∀ r, (rq r ≤ rq' r)%nat) → pr `sublist_of` pr' → J ins rq pr hd X b k → J ins' rq' pr' hd X b k.
Proof.
  intros Hi Hr Hp []. split; try done.
  - intros p Hin HX. destruct (j_perms0 p Hin HX) as (a & ws & Ha & Ho & Hw). exists a, ws. split_and!; [done|by eapply offers_more|done].
  - intros id a Ha. destruct (j_asked0 id a Ha) as (Hle & Hs & ws & Ho & Hw). split_and!; [done|done|]. exists ws. split; [by eapply offers_more|done].
  - intros r. etrans; [apply j_answers0|apply Hr].
  - intros H. destruct (j_auto0 H) as (c & i & Hin). exists c, i. by apply Hi.
  - intros r o H. by eapply authorized_more, j_auth0.
  - destruct j_order0 as (ps & H1 & H2). exists ps. split; [done|]. by etrans.
Qed.

Lemma J_busy ins rq pr hd X b k : J ins rq pr hd X true k → J ins rq pr hd X b k.
Proof. intros []. by split; auto. Qed.

(** The core with some of its parts written. *)
Definition core_line (l : AgentLine) (k : Core) : Core :=
  MkCore (k_permissions k) (k_queued k) (k_auto k) (k_agent k ++ [l]) (k_asked k) (k_next k) (k_session k) (k_handled k) (k_ready k) (k_turn k).
Definition core_asked (a : gmap N Asked) (next : N) (k : Core) : Core :=
  MkCore (k_permissions k) (k_queued k) (k_auto k) (k_agent k) a next (k_session k) (k_handled k) (k_ready k) (k_turn k).
Definition core_turn (t : option N) (k : Core) : Core :=
  MkCore (k_permissions k) (k_queued k) (k_auto k) (k_agent k) (k_asked k) (k_next k) (k_session k) (k_handled k) (k_ready k) t.
Definition core_opened (id : option str) (r : bool) (k : Core) : Core :=
  MkCore (k_permissions k) (k_queued k) (k_auto k) (k_agent k) (k_asked k) (k_next k) id (k_handled k) r (k_turn k).

(** A line that is neither an answer nor a prompt. *)
Definition plain_line (l : AgentLine) : bool :=
  match l with Line_Answer _ _ | Line_Request _ (Req_Prompt _ _) => false | _ => true end.
Definition quiet (c : Change) : bool :=
  match c with PermissionAsked _ | PermissionResolved _ | Queue _ | AutoAccept _ => false | _ => true end.
Lemma quiet_core c k : quiet c = true → core_change c k = k.
Proof. by destruct c. Qed.

Lemma sumN_sublist {A} (f : A → N) (l l' : list A) : l `sublist_of` l' → sumN (f <$> l) ≤ sumN (f <$> l').
Proof. unfold sumN. induction 1; cbn; lia. Qed.
Lemma waiting_sublist q q' : q `sublist_of` q' → waiting q `sublist_of` waiting q'.
Proof. unfold waiting. induction 1; cbn; by econstructor. Qed.

Section inv.
Context (ins : list (Input V)) (rq : RequestId → nat) (pr : list (str * list Attachment)) (hd : list (N * option Rejection)).
Abbreviation JJ := (J ins rq pr hd).
Definition none : N → Prop := λ _, False.

Lemma J_queue X b q k : JJ X b k → q `sublist_of` k_queued k → JJ X b (core_change (Queue q) k).
Proof.
  intros [] Hq. split; try done; cbn.
  - destruct j_queue0 as [H1 H2]. split; [etrans; [by apply sublist_length|done]|]. etrans; [by apply sumN_sublist|done].
  - destruct j_order0 as (ps & H1 & H2). exists ps. split; [done|]. etrans; [|exact H2]. by apply sublist_app, waiting_sublist.
  - intros H1 H2 H3. specialize (j_idle0 H1 H2 H3). rewrite j_idle0 in Hq. by apply sublist_nil_r in Hq.
Qed.

Lemma J_cleared X b k : JJ X b k → JJ X true (core_change (Queue []) k).
Proof. intros H. destruct (J_queue X b [] k H) as []; [apply sublist_nil_l|]. by split. Qed.

Lemma J_line X b l k : plain_line l = true → JJ X b k → JJ X b (core_line l k).
Proof.
  intros Hl []. assert (answers_to_same : ∀ r, answers_to r (k_agent k ++ [l]) = answers_to r (k_agent k)).
  { intros r. unfold answers_to. rewrite count_app. destruct l; unfold count; cbn; [lia|lia|done]. }
  split; try done; cbn.
  - intros r. by rewrite answers_to_same.
  - intros r o [H|H%list_elem_of_singleton]%elem_of_app; [by apply j_auth0|]. by subst l.
  - unfold prompt_lines. rewrite List.filter_app. destruct l as [? []| |]; cbn; by rewrite ?app_nil_r.
Qed.

Lemma J_turn X b t k : JJ X b k → (b = true → t = None → k_ready k = true → k_queued k = []) → JJ X b (core_turn t k).
Proof. intros [] H. by split. Qed.

(** The parts of a session that touch no more than the feed. *)
Lemma good_ask f : good f → good (ask f).
Proof. apply good_asks. Qed.
Lemma good_asked_times f k : good f → good (asked_times f k).
Proof. apply good_asks. Qed.

Lemma send_agent_core s l : good (feed s) →
  good (feed (send_agent s l).1) ∧ core (send_agent s l).1 = match (send_agent s l).2 with Ok _ => core_line l (core s) | Err _ => core s end.
Proof. intros H. unfold send_agent. destruct (agent_room _ _); split; try done; by apply good_ask. Qed.

Lemma notice_keeps s level t : good (feed s) → keeps (core s) (emit_notice s level t).
Proof. intros H. unfold emit_notice. cbn. by apply keeps_emit. Qed.
Lemma status_keeps s st : good (feed s) → keeps (core s) (status_to s st).
Proof. intros H. unfold status_to. destruct (bool_decide _); [by apply keeps_some|by apply keeps_emit]. Qed.
Lemma clear_queue_keeps s : good (feed s) → keeps (core_change (Queue []) (core s)) (clear_queue s).
Proof.
  intros H. unfold clear_queue, queue_changed. destruct (queued (tr s)) eqn:E; [|by apply keeps_emit]. apply keeps_some; [done|]. unfold core. cbn. by rewrite E.
Qed.

Lemma keeps_bind k k' x f : keeps k x → (∀ s, good (feed s) → core s = k → keeps k' (f s)) → keeps k' (x ≫= f).
Proof. intros H Hf. eapply yields_bind; [exact H|]. intros s [H1 H2]. by apply Hf. Qed.

Lemma fail_keeps s message : good (feed s) → keeps (core_change (Queue []) (core s)) (fail s message).
Proof.
  intros H. unfold fail. eapply keeps_bind; [by apply notice_keeps|]. intros s1 H1 <-. eapply keeps_bind; [by apply status_keeps|]. intros s2 H2 <-.
  by apply clear_queue_keeps.
Qed.

Lemma request_core s r p : good (feed s) → yields (λ x, good (feed x.1) ∧
  core x.1 = if x.2 : bool then core_line (Line_Request (next_request s + 1) r) (core s) else core_change (Queue []) (core s)) (request s r p).
Proof.
  intros H. unfold request. set (s0 := with_agent _ _ _ _). destruct (send_agent_core s0 (Line_Request (next_request s + 1) r) H) as [H1 H2].
  destruct (send_agent s0 _) as [s1 [[]|e]]; cbn [fst snd] in H1, H2; [by apply yields_some|]. eapply yields_bind; [by apply fail_keeps|].
  intros s2 [H3 H4]. apply yields_some. split; [done|]. cbn. by rewrite H4, H2.
Qed.

(** *** Prompts *)

(** In order, with what agent and clients are told. *)
Definition told (X : N → Prop) (b : bool) (s : Session) : Prop := good (feed s) ∧ JJ X b (core s).

Lemma told_keeps X b k x : keeps k x → JJ X b k → yields (told X b) x.
Proof. intros H HJ. eapply yields_impl; [exact H|]. intros s [H1 <-]. by split. Qed.

Lemma fail_told X b s m : told X b s → yields (told X true) (fail s m).
Proof. intros [H1 H2]. eapply told_keeps; [by apply fail_keeps|]. by eapply J_cleared. Qed.

Lemma told_busy X b s : told X true s → told X b s.
Proof. intros [H1 H2]. split; [done|by apply J_busy]. Qed.

Lemma emit_told X b s c : quiet c = true → told X b s → yields (told X b) (emit s c).
Proof. intros Hc [H1 H2]. eapply told_keeps; [by apply keeps_emit|]. by rewrite quiet_core. Qed.

Lemma request_told X b s r p : (∀ i, plain_line (Line_Request i r) = true) → told X b s → yields (λ x, told X b x.1) (request s r p).
Proof.
  intros Hr [H1 H2]. eapply yields_impl; [by apply request_core|]. intros [s1 []] [H3 H4]; cbn [fst snd] in *; (split; [done|]); rewrite H4; [by apply J_line|].
  by apply J_busy; eapply J_cleared.
Qed.

Lemma prepare_length n c l : length (prepare_all n c l) = length l.
Proof. revert n. induction l as [|a l IH]; intros n; cbn; [done|by rewrite IH]. Qed.

Lemma send_prompt_told X b s t a : told X b s → is_Some (acp_session s) →
  (∃ ps, Forall2 sent_for (prompt_lines (to_agent s)) ps ∧ ps ++ (t, a) :: waiting (queued (tr s)) `sublist_of` pr) →
  yields (told X true) (send_prompt s t a).
Proof.
  intros [Hg HJ] [session Es] (ps & Hps & Hord). unfold send_prompt. rewrite Es. set (prepared := prepare_all _ _ _).
  assert (length prepared.*1 = length a) as Hlen by (rewrite length_fmap; apply prepare_length). unfold prompt_change, push_entry, next_id. cbn [fst snd].
  match goal with |- yields _ (emit ?s ?c ≫= _) => set (s0 := s); set (c0 := c) end.
  eapply yields_bind; [apply (keeps_emit (core s) s0 c0); [by apply good_asked_times|done]|]. intros s1 [H1 E1].
  eapply yields_bind.
  { apply (yields_fold (λ s', good (feed s') ∧ core s' = core s) emit_prepared prepared); [|done]. intros s2 x _ [H2 E2]. unfold emit_prepared.
    destruct x.2; [|by apply keeps_some]. cbn. by apply keeps_emit. }
  intros s2 [H2 E2]. eapply yields_bind; [by apply request_core|]. intros [s3 []] [H3 E3]; cbn [fst snd] in *.
  2: { apply yields_some. split; [done|]. rewrite E3, E2. by eapply J_cleared. }
  cbn [now_ms]. match goal with |- yields _ (emit ?s _ ≫= _) => set (s4 := s) end.
  assert (told X true s4) as H4.
  { split; [by apply good_ask|]. change (core s4) with (core_turn (Some (next_request s3)) (core s3)). rewrite E3, E2. destruct HJ. split; try done; cbn.
    - intros r. unfold answers_to in *. rewrite count_app. unfold count at 2. cbn. rewrite Nat.add_0_r. apply j_answers0.
    - intros r o [H|H%list_elem_of_singleton]%elem_of_app; [by apply j_auth0|done].
    - exists (ps ++ [(t, a)]). unfold prompt_lines. rewrite List.filter_app. cbn. split; [|by rewrite <- app_assoc].
      apply Forall2_app; [exact Hps|]. constructor; [|constructor]. by exists (next_request s2 + 1), session, prepared.*1. }
  eapply yields_bind; [by apply (emit_told X true)|]. intros s5 [H5 J5]. eapply told_keeps; [by apply status_keeps|done].
Qed.

Lemma next_queued_told X b s : told X b s → yields (told X true) (next_queued s).
Proof.
  intros [Hg HJ]. unfold next_queued. destruct (is_some (s_turn s) || negb (ready s)) eqn:Eb.
  { apply yields_some. split; [done|]. destruct HJ. split; try done. cbn. intros _ Ht Hr. by rewrite Ht, Hr in Eb. }
  apply orb_false_iff in Eb as [_ Hr%negb_false_iff]. destruct (queued (tr s)) as [|next rest] eqn:Eq.
  { apply yields_some. split; [done|]. destruct HJ. split; try done. }
  unfold queue_changed. eapply yields_bind; [by apply emit_core|]. intros s1 [H1 E1].
  assert (JJ X false (core s1)) as HJ1.
  { rewrite E1. apply J_queue; [|cbn; rewrite Eq; by apply sublist_cons]. destruct HJ. by split. }
  assert (to_agent s1 = to_agent s ∧ queued (tr s1) = rest ∧ acp_session s1 = acp_session s) as (Ea & Eqs & Es) by (unfold core in E1; cbn in E1; by injection E1).
  apply (send_prompt_told X false); [by split|rewrite Es; by apply (j_open _ _ _ _ _ _ _ HJ)|]. rewrite Ea, Eqs.
  destruct (j_order _ _ _ _ _ _ _ HJ) as (ps & Hps & Hsub). exists ps. split; [done|]. cbn in Hsub. by rewrite Eq in Hsub.
Qed.

(** *** Permissions *)

Lemma id_shown (ps : list Permission) (id : N) i : position_of (λ p, permission_id p =? id) ps = Some i → NoDup (permission_id <$> ps) →
  (∀ p, p ∈ remove_at i ps → p ∈ ps ∧ permission_id p ≠ id) ∧ (∀ p, p ∈ ps → permission_id p ≠ id → p ∈ remove_at i ps).
Proof.
  intros Hi Hd. pose proof (position_of_spec (λ p, permission_id p =? id) ps) as Hs. rewrite Hi in Hs. destruct Hs as (q & Hq & Eq%N.eqb_eq).
  assert (∃ l1 l2, ps = l1 ++ q :: l2 ∧ remove_at i ps = l1 ++ l2) as (l1 & l2 & E & ->).
  { exists (take i ps), (drop (S i) ps). split; [by rewrite take_drop_middle|done]. }
  clear Hi Hq. subst ps. rewrite fmap_app, fmap_cons in Hd. apply NoDup_app in Hd as (_ & Hn1 & [Hn2 _]%NoDup_cons).
  split.
  - intros p Hp. apply elem_of_app in Hp as [Hp|Hp].
    + split; [set_solver|]. intros Ep. apply (Hn1 (permission_id p)); [by apply list_elem_of_fmap_2|]. rewrite Ep, <- Eq. apply elem_of_cons. by left.
    + split; [set_solver|]. intros Ep. apply Hn2. rewrite Eq, <- Ep. by apply list_elem_of_fmap_2.
  - intros p Hp Hne. apply elem_of_app in Hp as [Hp|[->|Hp]%elem_of_cons]; [set_solver|done|set_solver].
Qed.

Lemma J_resolved b id k : NoDup (permission_id <$> k_permissions k) → k_asked k !! id = None → JJ (λ x, x = id) b k → JJ none b (core_change (PermissionResolved id) k).
Proof.
  intros Hd Ha []. cbn [core_change]. destruct (position_of _ _) as [i|] eqn:Ei.
  - destruct (id_shown _ _ _ Ei Hd) as [H1 H2]. split; try done; cbn.
    + intros p Hp _. destruct (H1 p Hp) as [Hin Hne]. by apply j_perms0.
    + intros x a Hx. destruct (j_asked0 x a Hx) as (Hle & Hs & Ho). split_and!; [done| |done]. intros _.
      assert (x ≠ id) as Hne by (intros ->; by rewrite Ha in Hx). destruct (proj1 (list_elem_of_fmap _ _ _) (Hs Hne)) as (p & -> & Hp).
      apply list_elem_of_fmap_2, H2; done.
  - pose proof (position_of_spec (λ p, permission_id p =? id) (k_permissions k)) as Hs. rewrite Ei in Hs. rewrite Forall_forall in Hs.
    split; try done; cbn.
    + intros p Hp _. apply j_perms0; [done|]. apply N.eqb_neq. by apply Hs.
    + intros x a Hx. destruct (j_asked0 x a Hx) as (Hle & Hsx & Ho). split_and!; [done| |done]. intros _. apply Hsx. intros ->. by rewrite Ha in Hx.
Qed.

Lemma good_ids s : good (feed s) → NoDup (permission_id <$> k_permissions (core s)).
Proof. intros [Hok _]. apply (wf_permissions _ (ok_wf _ Hok)). Qed.

Definition answer_of (choice : option str) : AgentAnswer := match choice with Some o => Selected o | None => Cancelled_ end.

(** A permission is no longer asked, and its request answered. *)
Lemma J_answered b id a choice k : JJ none b k → k_asked k !! id = Some a → (∀ o, choice = Some o → authorized ins (asked_request a) o) →
  JJ (λ x, x = id) b (core_asked (delete id (k_asked k)) (k_next k) k) ∧
  JJ (λ x, x = id) b (core_line (Line_Answer (asked_request a) (answer_of choice)) (core_asked (delete id (k_asked k)) (k_next k) k)).
Proof.
  intros [] Ha Hauth.
  assert (∀ p, p ∈ k_permissions k → permission_id p ≠ id → ∃ a ws, delete id (k_asked k) !! permission_id p = Some a ∧ offers ins (asked_request a) ws ∧
    permission_options p = permission_option <$> ws) as Hp.
  { intros p Hp Hne. destruct (j_perms0 p Hp) as (a' & ws & H1 & H2 & H3); [intros []|]. exists a', ws. by rewrite lookup_delete_ne. }
  assert (∀ x a', delete id (k_asked k) !! x = Some a' → x ≤ k_next k ∧ (x ≠ id → x ∈ permission_id <$> k_permissions k) ∧
    ∃ ws, offers ins (asked_request a') ws ∧ asked_options a' = po_id <$> ws) as Hq.
  { intros x a' Hx. apply lookup_delete_Some in Hx as [_ Hx]. destruct (j_asked0 x a' Hx) as (H1 & H2 & H3). split_and!; [done| |done]. intros _. apply H2. intros []. }
  split; split; try done; cbn.
  - intros r. specialize (j_answers0 r). rewrite (open_delete r _ _ _ Ha) in j_answers0. lia.
  - intros r. specialize (j_answers0 r). rewrite (open_delete r _ _ _ Ha) in j_answers0. unfold answers_to in *. rewrite count_app. unfold count at 2. cbn.
    destruct (bool_decide (asked_request a = r)); cbn; lia.
  - intros r o [H|H%list_elem_of_singleton]%elem_of_app; [by apply j_auth0|]. injection H as -> H. destruct choice as [o'|]; [|done]. injection H as <-. by apply Hauth.
  - unfold prompt_lines. rewrite List.filter_app. cbn. by rewrite app_nil_r.
Qed.

Lemma resolve_told b s id choice : told none b s → (∀ o a, choice = Some o → asked s !! id = Some a → authorized ins (asked_request a) o) →
  yields (told none b) (resolve s id choice).
Proof.
  intros [Hg HJ] Hauth. unfold resolve. destruct (asked s !! id) as [a|] eqn:Ea; [|by apply yields_some]. set (s0 := with_asked _ _ _).
  destruct (J_answered b id a choice (core s) HJ Ea) as [J0 J1]; [intros o Ho; by apply Hauth|].
  destruct (send_agent_core s0 (Line_Answer (asked_request a) (answer_of choice)) Hg) as [H1 H2]. unfold answer_of in H1, H2.
  assert (yields (λ s', (good (feed s') ∧ JJ (λ x, x = id) b (core s')) ∧ asked s' !! id = None)
    (match (send_agent s0 (Line_Answer (asked_request a) (match choice with Some o => Selected o | None => Cancelled_ end))).2 with
     | Ok _ => Some (send_agent s0 (Line_Answer (asked_request a) (match choice with Some o => Selected o | None => Cancelled_ end))).1
     | Err e => fail (send_agent s0 (Line_Answer (asked_request a) (match choice with Some o => Selected o | None => Cancelled_ end))).1 e end)) as Hs.
  { destruct (send_agent s0 _) as [s1 [[]|e]]; cbn [fst snd] in *.
    - apply yields_some. split_and!; [done|by rewrite H2|]. change (k_asked (core s1) !! id = None). rewrite H2. cbn. apply lookup_delete_eq.
    - eapply yields_impl; [by apply fail_keeps|]. intros s2 [H3 H4]. split_and!; [done| |].
      + rewrite H4, H2. apply J_busy. by eapply J_cleared.
      + change (k_asked (core s2) !! id = None). rewrite H4, H2. cbn. apply lookup_delete_eq. }
  destruct (send_agent s0 _) as [s1 sent]. cbn [fst snd] in Hs. eapply yields_bind; [exact Hs|]. intros s2 [[H3 H4] H5].
  eapply told_keeps; [by apply emit_core|]. apply J_resolved; [by apply good_ids|done|done].
Qed.

Lemma resolve_all_told b s : told none b s → yields (told none b) (resolve_all s).
Proof. intros H. apply yields_fold; [|done]. intros s1 id _ H1. by apply resolve_told. Qed.

Lemma allow_option_spec p o : allow_option p = Some o → o ∈ permission_options p ∧ (option_kind o = AllowOnce ∨ option_kind o = AllowAlways).
Proof.
  unfold allow_option. destruct (find _ _) as [o'|] eqn:E1.
  - intros [= <-]. apply find_some in E1 as [H1%list_elem_of_In H2%bool_decide_eq_true]. auto.
  - intros E2. apply find_some in E2 as [H1%list_elem_of_In H2%bool_decide_eq_true]. auto.
Qed.

Lemma auto_answer_told b s id : told none b s → yields (told none b) (auto_answer s id).
Proof.
  intros [Hg HJ]. unfold auto_answer. destruct (auto_accept (tr s)) eqn:Ha; [|by apply yields_some]. cbn [negb].
  destruct (find _ _) as [p|] eqn:Ef; [|by apply yields_some]. apply find_some in Ef as [Hp%list_elem_of_In Eid%N.eqb_eq]. cbn [mbind option_bind].
  destruct (allow_option p) as [o|] eqn:Eo; [|by apply yields_some]. cbn [fmap option_fmap option_map]. apply resolve_told; [done|].
  intros o' a [= <-] Hasked. destruct (allow_option_spec p o Eo) as [Hin Hk].
  destruct (j_perms _ _ _ _ _ _ _ HJ p Hp) as (a' & ws & H1 & H2 & H3); [intros []|]. cbn in H1. rewrite Eid, Hasked in H1. injection H1 as <-.
  rewrite H3 in Hin. apply list_elem_of_fmap in Hin as (w & -> & Hw). exists ws, w. split_and!; [done|done|done|]. right.
  split; [by apply (j_auto _ _ _ _ _ _ _ HJ)|]. cbn in Hk. destruct (po_manual w), (po_kind w), Hk as [Hk|Hk]; try done; auto.
Qed.

Lemma tool_change_quiet p t call f : quiet (tool_change p t call f).2 = true.
Proof. unfold tool_change. by destruct (known_tool _ _ _) as [[]|]. Qed.

(** What the agent asks: the answers there may be have room for one more. *)
Lemma agent_request_told b s id method params : told none b s → I_Agent (In_Request id method params) ∈ ins →
  (∀ r, (answers_to r (to_agent s) + open_for r (asked s) + (if bool_decide (id = r) then 1 else 0) ≤ rq r)%nat) →
  yields (told none b) (agent_request s id method params).
Proof.
  intros [Hg HJ] Hin Hrq. unfold agent_request.
  assert (∀ a, (∀ o, a ≠ Selected o) → yields (told none b) (Some (send_agent s (Line_Answer id a)).1)) as Hans.
  { intros a Hna. apply yields_some. destruct (send_agent_core s (Line_Answer id a) Hg) as [H1 H2]. split; [done|]. rewrite H2. destruct (_.2); [|done].
    destruct HJ. split; try done; cbn.
    - intros r. specialize (Hrq r). unfold answers_to in *. rewrite count_app. unfold count at 2. cbn. destruct (bool_decide (id = r)); cbn; lia.
    - intros r o [H|H%list_elem_of_singleton]%elem_of_app; [by apply j_auth0|]. injection H as -> H. by destruct (Hna o).
    - unfold prompt_lines. rewrite List.filter_app. cbn. by rewrite app_nil_r. }
  destruct (negb _); [by apply Hans|]. destruct (permission_request params) as [q|] eqn:Eq; [|by apply Hans]. cbn [mbind option_bind].
  destruct (bool_decide _); [|by apply Hans]. pose proof (tool_change_quiet (projector s) (tr s) (pr_call q) (apply_fields (pr_fields q))) as Hc.
  destruct (tool_change _ _ _ _) as [p c]. cbn [snd] in Hc.
  eapply yields_bind; [apply (keeps_emit (core s)); [exact Hg|by apply quiet_core]|]. intros s1 [H1 E1].
  set (new := next_permission s1 + 1). set (a := MkAsked (option_id <$> (permission_option <$> pr_options q)) id).
  assert (next_permission s1 = next_permission s ∧ asked s1 = asked s ∧ permissions (tr s1) = permissions (tr s)) as (En & Eas & Ep)
    by (unfold core in E1; by injection E1).
  assert (asked s !! new = None) as Hnew.
  { destruct (asked s !! new) as [a'|] eqn:E; [|done]. destruct (j_asked _ _ _ _ _ _ _ HJ _ _ E) as (Hle & _). cbn in Hle. unfold new in Hle. lia. }
  assert (∀ p', p' ∈ permissions (tr s) → permission_id p' ≠ new) as Hfresh.
  { intros p' Hp' E. destruct (j_perms _ _ _ _ _ _ _ HJ p' Hp') as (a' & ws & Ha' & _); [intros []|]. cbn in Ha'. by rewrite E, Hnew in Ha'. }
  assert (offers ins id (pr_options q)) as Hoff by (by exists method, params, q).
  set (s2 := with_asked _ _ _). eapply yields_bind; [apply (emit_core s2); exact H1|]. intros s3 [H3 E3].
  apply auto_answer_told. split; [done|]. rewrite E3.
  change (core s2) with (core_asked (<[new := a]> (asked s1)) new (core s1)). rewrite E1, Eas. cbn [core_change core_asked k_permissions core permission_id].
  assert (existsb (λ known, permission_id known =? new) (permissions (tr s)) = false) as ->.
  { apply not_true_iff_false. intros (p' & Hp'%list_elem_of_In & E%N.eqb_eq)%existsb_exists. by apply (Hfresh p' Hp'). }
  destruct HJ. split; try done; cbn.
  - intros p' [Hp'|Hp'%list_elem_of_singleton]%elem_of_app _.
    + destruct (j_perms0 p' Hp') as (a' & ws & Ha' & Ho); [intros []|]. exists a', ws. rewrite lookup_insert_ne; [done|]. intros E. by apply (Hfresh p' Hp').
    + subst p'. exists a, (pr_options q). cbn. by rewrite lookup_insert_eq.
  - intros x a' [[<- <-]|[Hne Hx]]%lookup_insert_Some.
    + split_and!; [lia|intros _; rewrite fmap_app; set_solver|]. exists (pr_options q). split; [done|]. cbn. by rewrite <- list_fmap_compose.
    + destruct (j_asked0 x a' Hx) as (Hle & Hs & Ho). split_and!; [cbn in Hle; unfold new; lia| |done]. intros HX. rewrite fmap_app. apply elem_of_app. left. by apply Hs.
  - intros r. specialize (Hrq r). rewrite open_insert by done. cbn. lia.
Qed.

(** *** The rest of the agent's messages *)

Lemma record_quiet t call title r now c : Project.record t call title r now = Some c → quiet c = true.
Proof. unfold Project.record. repeat case_match; by intros [= <-]. Qed.
Lemma step_quiet t parent title c : Project.step t parent title = Some c → quiet c = true.
Proof. unfold Project.step. destruct (activity _ _); [|done]. cbn [mbind option_bind]. repeat case_match; by intros [= <-]. Qed.

Definition quiet_all (cs : list Change) : Prop := ∀ c, c ∈ cs → quiet c = true.
Lemma option_quiet (x : option Change) : (∀ c, x = Some c → quiet c = true) → quiet_all (option_list x).
Proof. intros H c. destruct x; cbn; [|by intros Hc%not_elem_of_nil]. intros ->%list_elem_of_singleton. by apply H. Qed.
Lemma quiet_app cs ds : quiet_all cs → quiet_all ds → quiet_all (cs ++ ds).
Proof. intros H1 H2 c [Hc|Hc]%elem_of_app; auto. Qed.
Lemma quiet_one c : quiet c = true → quiet_all [c].
Proof. by intros H d ->%list_elem_of_singleton. Qed.
Lemma quiet_nil : quiet_all [].
Proof. by intros c Hc%not_elem_of_nil. Qed.

Lemma tagged_quiet p t call tag now f : quiet_all (tagged p t call tag now f).2.
Proof.
  unfold tagged. destruct (if is_some (skipped p !! call) then _ else _) as [p1 shows].
  assert (∀ p2 cs tool, quiet_all cs → quiet_all (match tool with None => (p2, cs) | Some tool => (p2, cs
      ++ match t_activity tag with Some r => option_list (Project.record t call (tool_title tool) r now) | None => [] end
      ++ match t_parent tag with Some parent => option_list (Project.step t parent (tool_title tool)) | None => [] end) end : Projector * list Change).2) as Hend.
  { intros p2 cs [tool|] Hcs; cbn [snd]; [|done]. apply quiet_app; [done|]. apply quiet_app.
    - destruct (t_activity tag); [|apply quiet_nil]. apply option_quiet. intros c. apply record_quiet.
    - destruct (t_parent tag); [|apply quiet_nil]. apply option_quiet. intros c. apply step_quiet. }
  destruct shows; [|apply (Hend _ [] (Some (f (new_tool call)))), quiet_nil]. pose proof (tool_change_quiet p1 t call (λ tool, started now (mark tag (f tool)))) as Hc.
  destruct (tool_change p1 _ _ _) as [p2 c]. apply (Hend p2 [c] (tool_in c)). by apply quiet_one.
Qed.

Lemma todo_quiet p input : quiet_all (todo_plan p input).
Proof.
  unfold todo_plan. destruct (planned p); [apply quiet_nil|]. apply option_quiet. intros c. destruct (input ≫= todos_plan); [|done]. by intros [= <-].
Qed.

Lemma chunk_quiet p t stream message blk c : (chunk p t stream message blk).2 = Some c → quiet c = true.
Proof.
  unfold chunk. destruct (media blk ≫= _) as [[a i]|]; cbn; [by intros [= <-]|]. unfold text_change. destruct (bool_decide _); [done|].
  destruct (p_open p ≫= _) as [o|]; cbn; [|by intros [= <-]]. destruct (clip _ _); [|done]. by intros [= <-].
Qed.

Lemma update_quiet p t u now : quiet_all (update p t u now).2.
Proof.
  destruct u; cbn [update as_list snd]; try (by apply quiet_nil); try (by apply quiet_one); try (apply option_quiet; intros ?; apply chunk_quiet).
  - unfold update_call. destruct (_ && _); [apply todo_quiet|apply tagged_quiet].
  - unfold update_tool. destruct (_ && _); [apply todo_quiet|]. destruct (if _ : bool then _ else _) as [[r k]|]; [|apply tagged_quiet].
    apply option_quiet. intros c. apply record_quiet.
  - destruct (is_some _); [by apply quiet_one|apply quiet_nil].
  - destruct (Transcript.session t); [by apply quiet_one|apply quiet_nil].
Qed.

Lemma emit_all_told X b s cs : quiet_all cs → told X b s → yields (told X b) (emit_all s cs).
Proof. intros Hcs H. apply yields_fold; [|done]. intros s1 c Hc H1. apply emit_told; [by apply Hcs|done]. Qed.

Lemma kill_quiet t now : quiet_all (kill_all t now).
Proof. by intros c (a & -> & _)%list_elem_of_fmap. Qed.

(** The session of the agent is known, or ready, or over. *)
Lemma J_session X b id k : JJ X b k → JJ X b (core_opened (Some id) (k_ready k) k).
Proof. intros []. by split. Qed.
Lemma J_ready X b k : JJ X b k → is_Some (k_session k) → JJ X false (core_opened (k_session k) true k).
Proof. intros [] H. by split. Qed.
Lemma J_over X b k : JJ X b k → JJ X true (core_opened (k_session k) false k).
Proof. intros []. by split. Qed.
Lemma J_idle X b k : JJ X b k → JJ X false k.
Proof. intros []. by split. Qed.

Lemma told_change X b s s' : told X b s → feed s' = feed s → core s' = core s → told X b s'.
Proof. intros [H1 H2] Ef Ec. split; [by rewrite Ef|by rewrite Ec]. Qed.
Lemma notice_told X b s level t : told X b s → yields (told X b) (emit_notice s level t).
Proof. intros [H1 H2]. eapply told_keeps; [by apply notice_keeps|done]. Qed.
Lemma status_told X b s st : told X b s → yields (told X b) (status_to s st).
Proof. intros [H1 H2]. eapply told_keeps; [by apply status_keeps|done]. Qed.
Lemma fail_still X b s m : told X b s → yields (told X b) (fail s m).
Proof. intros H. eapply yields_impl; [by eapply fail_told|]. intros s'. apply told_busy. Qed.
Lemma clear_told X b s : told X b s → yields (told X b) (clear_queue s).
Proof. intros [H1 H2]. eapply told_keeps; [by apply clear_queue_keeps|]. apply J_busy. by eapply J_cleared. Qed.
Lemma told_ask X b s : told X b s → told X b (with_feed s (ask (feed s))).
Proof. intros [H1 H2]. split; [by apply good_ask|done]. Qed.

Lemma requested_told X b s r p : (∀ i, plain_line (Line_Request i r) = true) → told X b s → yields (told X b) (fst <$> request s r p).
Proof. intros Hr H. destruct (request_told X b s r p Hr H) as ([s1 sent] & -> & H1). by apply yields_some. Qed.

Lemma initialized_told b s result : told none b s → yields (told none b) (initialized s result).
Proof.
  intros H. unfold initialized. destruct result as [v|e]; [|by apply fail_still]. destruct (initialize_response v) as [c|e]; [|by apply fail_still].
  set (s1 := with_opened s c (acp_session s) (ready s)). assert (told none b s1) as H1 by done.
  destruct (cfg_load cfg) as [id|]; [|by apply requested_told]. destruct (load_session c).
  - apply requested_told; [done|]. split; [apply H1|]. apply (J_session none b id (core s1)), H1.
  - destruct (require_load cfg); [by apply fail_still|]. eapply yields_bind; [by apply notice_told|]. intros s2 H2. by apply requested_told.
Qed.

Lemma opened_told b s ms options : told none b s → yields (told none b) (opened s ms options).
Proof.
  intros [Hg HJ]. unfold opened. destruct (acp_session s) as [id|] eqn:Es; [|by apply yields_some].
  match goal with |- yields _ (emit ?s _ ≫= _) => set (s1 := s) end.
  assert (told none false s1) as H1.
  { split; [done|]. change (core s1) with (core_opened (Some id) true (core s)). rewrite <- Es. apply (J_ready none b (core s)); [done|]. cbn. by rewrite Es. }
  eapply yields_bind; [by apply (emit_told none false)|]. intros s2 H2.
  eapply (yields_bind (told none false)); [destruct ms; [by apply emit_told|by apply yields_some]|]. intros s3 H3.
  eapply (yields_bind (told none false)); [destruct options; [by apply yields_some|by apply emit_told]|]. intros s4 H4.
  eapply (yields_bind (told none false)); [by apply status_told|]. intros s5 H5. eapply yields_impl; [by eapply next_queued_told|]. intros s6. apply told_busy.
Qed.

Lemma session_opened_told b s loaded result : told none b s → yields (told none b) (session_opened s loaded result).
Proof.
  intros H. unfold session_opened. destruct result as [v|e]; [|by apply fail_still]. destruct loaded; [by apply opened_told|].
  destruct (new_session v) as [[id ms]|]; [|by apply fail_still]. apply opened_told. split; [apply H|]. apply (J_session none b id (core s)), H.
Qed.

Lemma turn_ended_told b s id result : told none b s → yields (told none b) (turn_ended s id result).
Proof.
  intros [Hg HJ]. unfold turn_ended. destruct (negb _); [by apply yields_some|].
  assert (told none false (with_turn s None)) as H0. { split; [done|]. apply (J_turn none false None (core s)); [by eapply J_idle|done]. }
  eapply yields_bind; [by apply resolve_all_told|]. intros s1 H1. destruct (match result with Ok _ => _ | Err _ => _ end) as [[end_ toks] error].
  eapply (yields_bind (told none false)); [destruct error; [by apply notice_told|by apply yields_some]|]. intros s2 H2.
  assert (∀ s3 begun, told none false s3 → yields (told none b)
    (let '(s, ended) := now_ms s3 in let '(p, c) := turn_change (projector s) (MkTurnSummary (ended - begun) (Some ended) end_ toks) in
     s ← emit (with_projector s p) c; s ← emit s (SetTurn None); s ← (if bool_decide (status (tr s) = Working) then status_to s Idle else Some s); next_queued s)) as Hend.
  { intros s3 begun H3. cbn [now_ms turn_change push_entry next_id].
    eapply yields_bind; [apply (emit_told none false); [done|]; by apply told_ask in H3|]. intros s4 H4.
    eapply yields_bind; [by apply (emit_told none false)|]. intros s5 H5.
    eapply (yields_bind (told none false)); [destruct (bool_decide _); [by apply status_told|by apply yields_some]|]. intros s6 H6.
    eapply yields_impl; [by eapply next_queued_told|]. intros s7. apply told_busy. }
  destruct (turn _); [by apply (Hend s2)|]. cbn [now_ms]. apply (Hend (with_feed s2 (ask (feed s2)))). by apply told_ask.
Qed.

Lemma response_told b s id p result : told none b s → yields (told none b) (response s id p result).
Proof.
  intros H. destruct p; cbn [response]; [by apply initialized_told|by apply session_opened_told|by apply session_opened_told|by apply turn_ended_told| |].
  - destruct result; [by apply emit_told|by apply notice_told].
  - destruct result as [v|]; [|by apply notice_told]. destruct (config_options v); [by apply emit_told|by apply yields_some].
Qed.

Lemma session_update_told b s params : told none b s → yields (told none b) (session_update s params).
Proof.
  intros H. unfold session_update. destruct (if _ : bool then _ else _) as [items|]; [by apply emit_told|]. destruct (notification params) as [[id u]|]; [|by apply yields_some].
  destruct (negb _); [by apply yields_some|]. cbn [now_ms]. pose proof (update_quiet (projector (with_feed s (ask (feed s)))) (tr (with_feed s (ask (feed s)))) u (clock W (asks (feed s)))) as Hq.
  destruct (update _ _ _ _) as [p cs]. apply emit_all_told; [done|]. by apply told_ask in H.
Qed.

Lemma agent_message_told b s m : told none b s → I_Agent m ∈ ins →
  (∀ r, (answers_to r (to_agent s) + open_for r (asked s) + requests r [I_Agent m] ≤ rq r)%nat) → yields (told none b) (agent_message s m).
Proof.
  intros H Hin Hrq. destruct m as [id method params|method params|[n| |] result|[e|]]; cbn [agent_message]; try (by apply yields_some).
  - apply agent_request_told; [done|done|]. intros r. specialize (Hrq r). unfold requests, count in Hrq. cbn in Hrq. destruct (bool_decide (id = r)); exact Hrq.
  - destruct (bool_decide _); [by apply session_update_told|by apply yields_some].
  - destruct (s_pending s !! _); [|by apply yields_some]. destruct (0 <=? n)%Z; [|by apply yields_some]. by apply response_told.
  - by apply fail_still.
Qed.

(** The agent is gone: nothing is asked, and what was shown is resolved. *)
Lemma resolved_all ids X b s : told X b s → ids = permission_id <$> permissions (tr s) → (∀ id, X id) →
  yields (λ s', told X b s' ∧ permissions (tr s') = []) (foldM (λ s id, emit s (PermissionResolved id)) s ids).
Proof.
  intros H Hids HX. revert s H Hids. induction ids as [|id ids IH]; intros s H Hids; cbn [foldM].
  { apply yields_some. split; [done|]. by destruct (permissions (tr s)). }
  destruct (permissions (tr s)) as [|p ps] eqn:Ep; [done|]. injection Hids as -> Hids.
  assert (core_change (PermissionResolved (permission_id p)) (core s) = MkCore ps (queued (tr s)) (auto_accept (tr s)) (to_agent s) (asked s) (next_permission s)
    (acp_session s) (handled s) (ready s) (s_turn s)) as Ec.
  { unfold core, core_change. cbn [k_permissions]. rewrite Ep. cbn [position_of]. by rewrite N.eqb_refl. }
  eapply yields_bind; [apply emit_core, H|]. intros s1 [H1 E1]. rewrite Ec in E1. apply IH.
  - split; [done|]. rewrite E1. destruct H as [_ []]. split; try done.
    + intros q _ Hq. by destruct Hq.
    + intros x a Hx. destruct (j_asked0 x a Hx) as (Hle & _ & Ho). split_and!; [done|by intros []|done].
  - rewrite Hids. f_equal. unfold core in E1. by injection E1.
Qed.

Lemma J_gone b k : JJ none b k → JJ (λ _, True) b (core_asked ∅ (k_next k) k).
Proof.
  intros []. split; try done.
  intros r. cbn. specialize (j_answers0 r). assert (open_for r ∅ = 0%nat) as -> by (unfold open_for; by rewrite map_to_list_empty). lia.
Qed.

Lemma J_nothing b k : JJ (λ _, True) b k → k_permissions k = [] → k_asked k = ∅ → JJ none b k.
Proof. intros [] H1 H2. split; try done; rewrite ?H1, ?H2; [by intros p Hp%not_elem_of_nil|done]. Qed.

Lemma resolved_asked ids s s' : good (feed s) → foldM (λ s id, emit s (PermissionResolved id)) s ids = Some s' → asked s' = asked s.
Proof.
  revert s. induction ids as [|id ids IH]; intros s Hs; cbn [foldM]; [by intros [= <-]|].
  destruct (emit_core s (PermissionResolved id) Hs) as (s1 & -> & H1 & E1). cbn [mbind option_bind]. intros E. rewrite (IH _ H1 E).
  unfold core, core_change in E1. cbn in E1. destruct (position_of _ _) in E1; by injection E1.
Qed.

Lemma exited_told b s code stderr : told none b s → yields (told none b) (exited s code stderr).
Proof.
  intros [Hg HJ]. unfold exited. set (s0 := with_asked s ∅ (next_permission s)).
  assert (told (λ _, True) b s0) as H0 by (split; [done|]; by apply (J_gone b (core s))).
  eapply yields_bind.
  { apply (yields_impl (λ s', (told (λ _, True) b s' ∧ permissions (tr s') = []) ∧ asked s' = ∅)); [|intros s' Hs'; exact Hs'].
    destruct (resolved_all (permission_id <$> permissions (tr s0)) (λ _, True) b s0 H0 eq_refl) as (s1 & E & H1 & Hp); [done|]. exists s1. split; [done|].
    split; [done|]. by rewrite (resolved_asked _ s0 _ Hg E). }
  intros s1 [[H1 Hp] Ha]. set (s2 := with_opened (with_turn s1 None) (accepts_ s1) (acp_session s1) false).
  assert (told none true s2) as H2.
  { split; [apply H1|]. assert (JJ none b (core s1)) as Hj by (apply J_nothing; [apply H1|done|done]). destruct Hj. by split. }
  eapply (yields_bind (told none true)); [destruct (is_some _); [by apply emit_told|by apply yields_some]|]. intros s3 H3.
  eapply (yields_bind (told none true)); [by apply clear_told|]. intros s4 H4. cbn [now_ms].
  eapply (yields_bind (told none true)); [apply emit_all_told; [apply kill_quiet|by apply told_ask]|]. intros s5 H5.
  eapply (yields_bind (told none true)); [by apply notice_told|]. intros s6 H6. eapply yields_impl; [by apply status_told|]. intros s7. apply told_busy.
Qed.

(** *** Commands *)

Definition done_told (x : Done_) : Prop := yields (λ y, told none true y.1) x.
Lemma refuse_told s r : told none true s → done_told (refuse s r).
Proof. apply (yields_some (λ y, told none true y.1) (s, Some r)). Qed.
Lemma finish_told x : yields (told none true) x → done_told (done x).
Proof. intros H. eapply yields_bind; [exact H|]. intros s1 H1. apply (yields_some _ (s1, None)), H1. Qed.
Lemma requested_done s r p : (∀ i, plain_line (Line_Request i r) = true) → told none true s → done_told (requested (request s r p)).
Proof. intros Hr H. destruct (request_told none true s r p Hr H) as ([s1 []] & -> & H1); by apply (yields_some (λ y, told none true y.1)). Qed.

Lemma sublist_snoc_cons {A} (ps w : list A) x q : (ps ++ w) ++ [x] `sublist_of` q → w = [] → ps ++ x :: w `sublist_of` q.
Proof. intros H ->. by rewrite app_nil_r in H. Qed.

Lemma prompt_told s id t a : told none true s →
  (∃ ps, Forall2 sent_for (prompt_lines (to_agent s)) ps ∧ (ps ++ waiting (queued (tr s))) ++ [(t, a)] `sublist_of` pr) → done_told (prompt s id t a).
Proof.
  intros [Hg HJ] (ps & Hps & Hord). unfold prompt. destruct (_ && _); [by apply refuse_told|]. destruct (_ <? _)%nat; [by apply refuse_told|].
  set (s1 := with_feed s (asked_times (feed s) (length a))). assert (told none true s1) as H1 by (split; [by apply good_asked_times|done]).
  destruct (negb (all_readable _ _)); [by apply refuse_told|]. destruct (_ <? _); [by apply refuse_told|]. destruct (negb (accepts_prompts _)); [by apply refuse_told|].
  destruct (is_some (s_turn s1) || negb (ready s1)) eqn:Eb.
  - destruct ((MAX_QUEUED <=? _)%nat || _) eqn:Ef; [by apply refuse_told|]. apply orb_false_iff in Ef as [Ef1%Nat.leb_gt Ef2%N.ltb_ge]. apply finish_told.
    unfold queue_changed. eapply told_keeps; [apply emit_core, H1|]. destruct HJ. split; try done.
    + cbn. split; [rewrite length_app; cbn; cbn in Ef1; lia|]. rewrite fmap_app. unfold sumN in *. rewrite foldr_app. cbn in Ef2 |- *.
      assert (∀ (l : list N) z, foldr N.add z l = foldr N.add 0 l + z) as Hsum by (intros l z; induction l; cbn; lia). rewrite Hsum. lia.
    + cbn. exists ps. split; [done|]. unfold waiting in *. by rewrite fmap_app, app_assoc.
    + cbn. intros _ Ht Hr. cbn in Eb. by rewrite Ht, Hr in Eb.
  - apply orb_false_iff in Eb as [Ht Hr%negb_false_iff]. apply finish_told, (send_prompt_told none true); [done|by apply (j_open _ _ _ _ _ _ _ HJ)|].
    exists ps. split; [done|]. apply sublist_snoc_cons; [done|]. assert (queued (tr s) = []) as Eq; [|change (tr s1) with (tr s); by rewrite Eq].
    apply (j_idle _ _ _ _ _ _ _ HJ); [done| |done]. cbn. change (s_turn s1) with (s_turn s) in Ht. by destruct (s_turn s).
Qed.

Lemma cancel_told s : told none true s → done_told (cancel s).
Proof.
  intros H. unfold cancel. destruct (_ && _); [by apply refuse_told|]. eapply yields_bind; [by apply (clear_told none true)|]. intros s1 H1.
  eapply yields_bind; [by apply (resolve_all_told true)|]. intros s2 H2.
  assert (yields (λ y : Session * option Rejection, told none true y.1) (Some (s2, None))) as Hsame by (by apply yields_some).
  destruct (s_turn s2); [|done]. destruct (acp_session s2) as [session|]; [|done].
  destruct (send_agent_core s2 (Line_Cancel session) (proj1 H2)) as [H3 E3]. destruct (send_agent s2 _) as [s3 [[]|e]]; cbn [fst snd] in *.
  - apply yields_some. split; [done|]. cbn [fst]. rewrite E3. by apply J_line, H2.
  - eapply yields_bind; [apply (fail_still none true); split; [done|]; rewrite E3; apply H2|]. intros s4 H4. by apply refuse_told.
Qed.

Lemma answer_told s client cmd permission o : told none true s → I_Command client cmd (Answer o permission) ∈ ins → done_told (answer_permission s permission o).
Proof.
  intros H Hin. unfold answer_permission. destruct (asked s !! permission) as [a|] eqn:Ea; [|by apply refuse_told].
  destruct (existsb _ _) eqn:Ee; [|by apply refuse_told]. apply finish_told, resolve_told; [done|]. intros o' a' [= <-] Ha'. rewrite Ea in Ha'. injection Ha' as <-.
  apply existsb_exists in Ee as (x & Hx%list_elem_of_In & ->%bool_decide_eq_true).
  destruct (j_asked _ _ _ _ _ _ _ (proj2 H) _ _ Ea) as (_ & _ & ws & Ho & Ew). rewrite Ew in Hx. apply list_elem_of_fmap in Hx as (w & -> & Hw).
  exists ws, w. split_and!; [done|done|done|]. left. by exists client, cmd, permission.
Qed.

Lemma set_auto_told s on : told none true s → (on = true → ∃ client cmd, I_Command client cmd (SetAutoAccept true) ∈ ins) → yields (told none true) (set_auto_accept s on).
Proof.
  intros H Hon. unfold set_auto_accept. apply (yields_bind (told none true)).
  - destruct (bool_decide _); [by apply yields_some|]. eapply told_keeps; [apply emit_core, H|]. destruct H as [_ []]. by split.
  - intros s1 H1. destruct on; [|by apply yields_some]. apply yields_fold; [|done]. intros s2 id _ H2. by apply auto_answer_told.
Qed.

(** What a command says of the inputs. *)
Lemma run_command_told s client id c : told none true s → I_Command client id c ∈ ins →
  (∃ ps, Forall2 sent_for (prompt_lines (to_agent s)) ps ∧ (ps ++ waiting (queued (tr s))) ++ prompts [I_Command client id c] `sublist_of` pr) →
  done_told (run_command s id c).
Proof.
  intros H Hin Hord. destruct c as [t a| |o p|mode|oid v|q|on]; cbn [run_command].
  - by apply prompt_told.
  - by apply cancel_told.
  - by eapply answer_told.
  - unfold set_mode. destruct (acp_session s); [|by apply refuse_told]. destruct (negb _); [by apply refuse_told|by apply requested_done].
  - unfold set_option. destruct (acp_session s); [|by apply refuse_told]. destruct (negb _); [by apply refuse_told|by apply requested_done].
  - unfold unqueue. destruct (position_of _ _); [|by apply refuse_told]. apply finish_told. eapply told_keeps; [apply emit_core, H|].
    apply J_queue; [apply H|apply remove_at_sublist].
  - apply finish_told, set_auto_told; [done|]. intros ->. by exists client, id.
Qed.

End inv.

Definition push_handled (h : list (N * option Rejection)) (x : N * option Rejection) : list (N * option Rejection) :=
  (if (length h =? HANDLED)%nat then tail h else h) ++ [x].

Lemma push_bounded h x : (length h ≤ HANDLED)%nat → (length (push_handled h x) ≤ HANDLED)%nat.
Proof.
  intros Hh. unfold push_handled. rewrite length_app. cbn [length]. destruct (length h =? HANDLED)%nat eqn:E.
  - apply Nat.eqb_eq in E. destruct h; cbn [tail length] in *; unfold HANDLED in *; lia.
  - apply Nat.eqb_neq in E. lia.
Qed.

Lemma ack_told ins rq pr hd s client id rejected : told ins rq pr hd none true s →
  yields (told ins rq pr (push_handled hd (id, rejected)) none true) (ack s client id rejected).
Proof.
  intros [Hg HJ]. unfold ack. eapply told_keeps; [by apply send_to_keeps|]. pose proof (j_handled _ _ _ _ _ _ _ HJ) as Hh. cbn in Hh.
  destruct HJ. split; try done. cbn. by rewrite Hh.
Qed.

(** ** Every run *)

Lemma prompts_app ins ins' : prompts (ins ++ ins') = prompts ins ++ prompts ins'.
Proof. apply bind_app. Qed.

Lemma J_input ins i hd X b k :
  J ins (λ r, requests r ins) (prompts ins) hd X b k → J (ins ++ [i]) (λ r, requests r (ins ++ [i])) (prompts (ins ++ [i])) hd X b k.
Proof.
  apply J_more; [set_solver| |].
  - intros r. unfold requests. rewrite count_app. lia.
  - rewrite prompts_app. by apply sublist_inserts_r.
Qed.

(** In order after the inputs [ins], and with the commands [hd] remembered. *)
Abbreviation with_hd ins hd := (told ins (λ r, requests r ins) (prompts ins) hd none true).
Definition after (ins : list (Input V)) (s : Session) : Prop := with_hd ins (handled s) s ∧ (length (handled s) ≤ HANDLED)%nat.

Lemma told_after ins hd s : with_hd ins hd s → (length hd ≤ HANDLED)%nat → after ins s ∧ handled s = hd.
Proof. intros H Hl. pose proof (j_handled _ _ _ _ _ _ _ (proj2 H)) as Hh. cbn in Hh. unfold after. by rewrite Hh. Qed.

Lemma after_of ins s x : after ins s → yields (with_hd ins (handled s)) x → yields (after ins) x.
Proof. intros [_ Hl] Hx. eapply yields_impl; [exact Hx|]. intros s1 H1. by apply (told_after _ _ _ H1 Hl). Qed.

(** The command an input brings, and what is remembered of it. *)
Definition commanded (i : Input V) : option N := match i with I_Command _ id _ | I_Unsupported _ id => Some id | _ => None end.
Definition remembers (i : Input V) (h h' : list (N * option Rejection)) : Prop :=
  match commanded i with
  | None => h' = h
  | Some id => h' = h ∧ id ∈ h.*1 ∨ ∃ r, h' = push_handled h (id, r)
  end.

Lemma handle_told ins s i : after ins s → yields (λ x, after (ins ++ [i]) x.1 ∧ remembers i (handled s) (handled x.1)) (handle s i).
Proof.
  intros [[Hg HJ] Hl]. assert (with_hd (ins ++ [i]) (handled s) s) as H by (split; [done|by apply J_input]).
  assert (∀ s1, with_hd (ins ++ [i]) (handled s) s1 → commanded i = None → after (ins ++ [i]) s1 ∧ remembers i (handled s) (handled s1)) as Hend.
  { intros s1 H1 Hc. destruct (told_after _ _ _ H1 Hl) as [H2 H3]. unfold remembers. by rewrite Hc. }
  assert (∀ (P : Session → Prop) x, yields P x → (∀ s1, P s1 → after (ins ++ [i]) s1 ∧ remembers i (handled s) (handled s1)) →
    yields (λ x, after (ins ++ [i]) x.1 ∧ remembers i (handled s) (handled x.1)) (s ← x; Some (s, false))) as Hstep.
  { intros P x Hx Hpq. eapply yields_bind; [exact Hx|]. intros s1 H1. by apply yields_some, Hpq. }
  assert (∀ s1 r, with_hd (ins ++ [i]) (handled s) s1 → with_hd (ins ++ [i]) (handled s) (bye s1 r)) as Hbye.
  { intros s1 r [H1 H2]. split; [by apply bye_good|]. unfold bye. destruct (send_each _ _ _) as [[kept lost] n]. exact H2. }
  assert (∀ x, keeps (core s) x → yields (with_hd (ins ++ [i]) (handled s)) x) as Hkeeps by (intros x Hx; by eapply told_keeps; [exact Hx|]; apply H).
  assert (∀ s1 id r, commanded i = Some id → with_hd (ins ++ [i]) (push_handled (handled s) (id, r)) s1 →
    after (ins ++ [i]) s1 ∧ remembers i (handled s) (handled s1)) as Hack.
  { intros s1 id r Hc H1. destruct (told_after _ _ _ H1 (push_bounded _ _ Hl)) as [H2 H3]. unfold remembers. rewrite Hc. eauto. }
  destruct i as [m|code stderr|client loc since|client id c|client|client id|]; cbn [handle].
  - eapply Hstep; [apply agent_message_told; [exact H|set_solver|]|intros; by apply Hend].
    intros r. pose proof (j_answers _ _ _ _ _ _ _ HJ r) as Hr. cbn in Hr. unfold requests in *. rewrite count_app. lia.
  - eapply yields_bind; [apply exited_told; exact H|]. intros s1 H1. destruct (exit_with_agent cfg); apply yields_some; apply Hend; [by apply Hbye|done..].
  - eapply Hstep; [by apply Hkeeps, attach_keeps|]. intros; by apply Hend.
  - unfold command. destruct (find _ _) as [[]|] eqn:Ef.
    + eapply Hstep; [by apply Hkeeps, send_to_keeps|]. intros s1 H1. destruct (told_after _ _ _ H1 Hl) as [H2 H3]. split; [done|]. left. split; [done|].
      apply find_some in Ef as [Hin%list_elem_of_In E%N.eqb_eq]. cbn in E. subst. by apply (list_elem_of_fmap_2 fst) in Hin.
    + eapply (Hstep (λ s1, ∃ r, with_hd (ins ++ [I_Command client id c]) (push_handled (handled s) (id, r)) s1)); [|intros s1 [r H1]; by eapply Hack].
      eapply yields_bind; [eapply (run_command_told _ _ _ _ s client); [exact H|set_solver|]|].
      * destruct (j_order _ _ _ _ _ _ _ HJ) as (ps & H1 & H2). exists ps. split; [done|]. rewrite prompts_app. apply sublist_app; [exact H2|reflexivity].
      * intros [s1 rejected] H1. eapply yields_impl; [by apply ack_told|]. intros s2 H2. by exists rejected.
  - eapply Hstep; [by apply Hkeeps, detach_keeps|]. intros; by apply Hend.
  - eapply Hstep; [by apply ack_told|]. intros s1 H1. by eapply Hack.
  - apply yields_some. apply Hend; [by apply Hbye|done].
Qed.

Lemma handle_all_told ins : ∀ pre s, after pre s → yields (λ x, ∃ done rest, ins = done ++ rest ∧ after (pre ++ done) x.1) (handle_all s ins).
Proof.
  induction ins as [|i ins IH]; intros pre s H; cbn [handle_all]. { apply yields_some. exists [], []. split; [done|]. by rewrite (app_nil_r pre). }
  destruct (handle_told pre s i H) as ([s1 []] & -> & H1 & _); cbn [mbind option_bind].
  - apply yields_some. by exists [i], ins.
  - eapply yields_impl; [by apply (IH (pre ++ [i]))|]. intros [s2 over] (d & rest & -> & H2). exists (i :: d), rest. split; [done|]. by rewrite <- app_assoc in H2.
Qed.

(** The history a session is given: entries as the log reader leaves them. *)
Definition history_ok (history : option Transcript) : Prop :=
  ∀ h, history = Some h → ordered (entries h) ∧ Forall answers_ok (entries h) ∧ in_frame (entries h).

Lemma in_frame_nil : in_frame [].
Proof. split; [cbn; unfold MAX_ENTRIES; lia|left; cbn; lia]. Qed.

Lemma new_told id history : history_ok history → after [] (session_new id history).
Proof.
  intros Hh. split; [|unfold session_new; destruct history; cbn; lia]. split.
  - assert (∀ t, wf t → in_frame (entries t) → good (MkFeed t id 0 [] 0 [] 0 [t] [])) as Hgood.
    { intros t Hwf Hf. split; [|done]. split; try done; cbn; [by intros q c Hin%not_elem_of_nil|]. split_and!; [done|unfold LOG; lia|left; unfold LOG_BYTES; lia]. }
    unfold session_new. destruct history as [h|]; apply Hgood; [|apply (Hh h eq_refl)|apply wf_new|apply in_frame_nil].
    destruct (Hh h eq_refl) as (H1 & H2 & _). destruct (wf_new (cfg_agent cfg)). by split.
  - assert (core (session_new id history) = MkCore [] [] false [] ∅ 0 None [] false None) as -> by (unfold session_new; by destruct history).
    assert (handled (session_new id history) = []) as -> by (unfold session_new; by destruct history).
    split; cbn; try done.
    + by intros p Hp%not_elem_of_nil.
    + intros r o Hin%not_elem_of_nil. done.
    + split; cbn; [lia|unfold MAX_QUEUED_TEXT; lia].
    + exists []. by split.
Qed.

Lemma run_told id history notices ins : history_ok history →
  yields (λ x, ∃ done rest, ins = done ++ rest ∧ after done x.1) (run id history notices ins).
Proof.
  intros Hh. unfold run. eapply (yields_bind (after [])).
  { apply yields_fold; [|by apply new_told]. intros s n _ H. eapply after_of; [exact H|]. apply notice_told, H. }
  intros s1 H1. eapply (yields_bind (after [])).
  { eapply after_of; [exact H1|]. unfold start.
    destruct (request_told [] (λ r, requests r []) (prompts []) (handled s1) none true s1 Req_Initialize P_Initialize) as ([s2 sent] & -> & H2 & H3); [done|apply H1|].
    apply yields_some. split; [by rewrite (proj2 (report_pictures s2))|]. unfold report_activity. by destruct (bool_decide _). }
  intros s2 H2. by apply (handle_all_told ins [] s2).
Qed.

(** Whatever the agent says, the clients do and the queues take, a
    session comes to an end of its inputs (no index is out of range, every change
    it emits in turn comes to an end), the transcripts it goes through follow one
    another by a change each, every client that has received any part of what it
    was sent holds the transcript of its cursor and never gets a change that does
    not follow or does not fit, whether it began with a snapshot or caught up from
    its own cursor, and one that is still attached and received everything holds
    the transcript of the session. *)
Theorem clients_follow id history notices ins : history_ok history →
  ∃ s over, run id history notices ins = Some (s, over) ∧
    chained (feed s) ∧ past (feed s) !! N.to_nat (f_seq (feed s)) = Some (tr s) ∧
    (∀ x n, x ∈ subscribers (feed s) ++ gone (feed s) → has_past (feed s) (received x (take n (outbox x)))) ∧
    (∀ x, x ∈ subscribers (feed s) → received x (outbox x) = Holds (cursor (feed s)) (tr s)).
Proof.
  intros Hh. destruct (run_told id history notices ins Hh) as ([s over] & E & d & rest & _ & [[[Hok _] _] _]). exists s, over. split; [done|]. destruct Hok.
  split_and!; [|done| |].
  - done.
  - intros x n Hx. rewrite Forall_forall in ok_consistent0. by apply (ok_consistent0 x).
  - intros x Hx. rewrite Forall_forall in ok_current0. by apply (ok_current0 x).
Qed.

(** C31: what a session keeps is bounded whatever the agent and clients
    send: at most 2000 entries, within 2 MiB of text and 8 MiB of pictures unless
    one entry alone is larger, a log of at most 8192 changes whose bytes are
    counted right and stay within 32 MiB unless one change is larger, at most 32
    prompts of 1 MiB of text together that wait, and 256 commands remembered. *)
Theorem session_bounded id history notices ins : history_ok history →
  ∃ s over, run id history notices ins = Some (s, over) ∧
    in_frame (entries (tr s)) ∧ (length (log (feed s)) ≤ LOG)%nat ∧ log_bytes (feed s) = sumN ((λ x, change_size x.2) <$> log (feed s)) ∧
    (log_bytes (feed s) ≤ LOG_BYTES ∨ lenN (log (feed s)) ≤ 1) ∧ queue_fits (queued (tr s)) ∧ (length (handled s) ≤ HANDLED)%nat.
Proof.
  intros Hh. destruct (run_told id history notices ins Hh) as ([s over] & E & d & rest & _ & [[[[] Hf] []] Hl]). exists s, over. split; [done|].
  destruct ok_bytes0 as (Hb & Hlen & Hbound). by split_and!.
Qed.

(** C6: the agent's requests are never answered twice, by whichever way
    (a client, automatic acceptance, a cancelled or ended turn, a refusal): the
    answers sent for an id and the permissions still open for it are no more than
    the requests it came with. A permission is answered with an option only if the
    agent offered that option and either a client chose it, or a client switched
    automatic acceptance on and the option allows and is not one to be chosen by
    hand. A permission is shown exactly while it is open. *)
Theorem answers_authorized id history notices ins : history_ok history →
  ∃ s over, run id history notices ins = Some (s, over) ∧
    (∀ r, (answers_to r (to_agent s) + open_for r (asked s) ≤ requests r ins)%nat) ∧
    (∀ r o, Line_Answer r (Selected o) ∈ to_agent s → authorized ins r o) ∧
    (∀ p, is_Some (asked s !! p) ↔ p ∈ permission_id <$> permissions (tr s)).
Proof.
  intros Hh. destruct (run_told id history notices ins Hh) as ([s over] & E & d & rest & -> & [[_ HJ] _]). exists s, over. split; [done|].
  apply (J_more _ (d ++ rest) _ (λ r, requests r (d ++ rest)) _ (prompts (d ++ rest))) in HJ;
    [|set_solver|intros r; unfold requests; rewrite count_app; lia|rewrite prompts_app; by apply sublist_inserts_r].
  destruct HJ. split_and!; [done|done|]. intros p. split.
  - intros [a Ha]. destruct (j_asked0 p a Ha) as (_ & Hs & _). apply Hs. intros [].
  - intros (q & -> & Hq)%list_elem_of_fmap. destruct (j_perms0 q Hq) as (a & ws & Ha & _); [intros []|]. by exists a.
Qed.

(** C19: the prompts the agent gets, with those that wait, are prompts of
    clients in the order the clients sent them, each at most once, and with as many
    blocks as it has files; none waits while the agent is ready and free. *)
Theorem prompts_in_order id history notices ins : history_ok history →
  ∃ s over, run id history notices ins = Some (s, over) ∧
    (∃ ps, Forall2 sent_for (prompt_lines (to_agent s)) ps ∧ ps ++ waiting (queued (tr s)) `sublist_of` prompts ins) ∧
    (s_turn s = None → ready s = true → queued (tr s) = []).
Proof.
  intros Hh. destruct (run_told id history notices ins Hh) as ([s over] & E & d & rest & -> & [[_ HJ] _]). exists s, over. split; [done|].
  destruct HJ. split; [|intros; by apply j_idle0]. destruct j_order0 as (ps & H1 & H2). exists ps. split; [done|]. rewrite prompts_app. etrans; [exact H2|].
  by apply sublist_inserts_r.
Qed.

(** *** Commands sent again *)

(** The command is remembered with its verdict, and at most [k] came after it. *)
Definition recent (k : nat) (h : list (N * option Rejection)) (x : N * option Rejection) : Prop :=
  ∃ pre post, h = pre ++ x :: post ∧ (x.1 ∉ pre.*1) ∧ (length post ≤ k)%nat.

Lemma recent_push k h x y : recent k h x → (S k < HANDLED)%nat → recent (S k) (push_handled h y) x.
Proof.
  intros (pre & post & -> & Hn & Hk) Hlt. unfold push_handled. destruct (length (pre ++ x :: post) =? HANDLED)%nat eqn:E.
  - apply Nat.eqb_eq in E. rewrite length_app in E. cbn [length] in E. destruct pre as [|z pre]; [cbn [length] in E; lia|].
    exists pre, (post ++ [y]). cbn [app tail]. rewrite <- app_assoc. split_and!; [done|cbn in Hn; set_solver|rewrite length_app; cbn; lia].
  - exists pre, (post ++ [y]). rewrite <- app_assoc. split_and!; [done|done|rewrite length_app; cbn; lia].
Qed.

Lemma recent_find k h x : recent k h x → find (λ y : N * option Rejection, y.1 =? x.1) h = Some x.
Proof.
  intros (pre & post & -> & Hn & _). induction pre as [|z pre IH]; cbn; [by rewrite N.eqb_refl|].
  cbn in Hn. apply not_elem_of_cons in Hn as [H1 H2]. rewrite (proj2 (N.eqb_neq _ _)) by congruence. by apply IH.
Qed.

Lemma recent_all x ins : ∀ pre k s s', after pre s → recent k (handled s) x → (k + count (λ i, is_some (commanded i)) ins < HANDLED)%nat →
  handle_all s ins = Some (s', false) → (∃ pre', after pre' s') ∧ recent (k + count (λ i, is_some (commanded i)) ins) (handled s') x.
Proof.
  induction ins as [|i ins IH]; intros pre k s s' Ha Hr Hk; cbn [handle_all].
  { intros [= <-]. split; [by exists pre|]. unfold count in *. cbn in *. by rewrite Nat.add_0_r. }
  change (i :: ins) with ([i] ++ ins) in *. rewrite count_app in Hk |- *.
  assert (count (λ i, is_some (commanded i)) [i] = if is_some (commanded i) then 1%nat else 0%nat) as Hc by (unfold count; cbn; by destruct (is_some _)).
  rewrite Hc in Hk |- *. destruct (handle_told pre s i Ha) as ([s1 []] & -> & H1 & Hm); cbn [mbind option_bind]; [done|].
  cbn [fst] in H1, Hm. rewrite Nat.add_assoc in Hk |- *. apply (IH _ _ _ _ H1); [|done]. unfold remembers in Hm. destruct (commanded i) as [id|]; cbn [is_some] in Hk |- *.
  - rewrite Nat.add_1_r. destruct Hm as [[-> _]|[r ->]].
    + destruct Hr as (p & q & Hr & Hn & Hl). exists p, q. split_and!; [done|done|lia].
    + apply recent_push; [done|lia].
  - rewrite Nat.add_0_r. by rewrite Hm.
Qed.

(** A command that is sent again, by whichever connection, after fewer
    than 256 other commands, is not run again: the client is told the verdict of
    the first time, and nothing else of the session changes. *)
Theorem command_once id history notices ins1 ins2 client cmd c client' c' s1 s2 s3 :
  history_ok history → run id history notices ins1 = Some (s1, false) → cmd ∉ (handled s1).*1 →
  handle s1 (I_Command client cmd c) = Some (s2, false) → handle_all s2 ins2 = Some (s3, false) →
  (count (λ i, is_some (commanded i)) ins2 < HANDLED)%nat →
  ∃ r s4, last (handled s2) = Some (cmd, r) ∧ handle s3 (I_Command client' cmd c') = Some (s4, false) ∧
    send_to s3 client' (Ack cmd r) = Some s4 ∧ core s4 = core s3.
Proof.
  intros Hh E1 Hnew E2 E3 Hk. destruct (run_told id history notices ins1 Hh) as ([s over] & E & d & rest & _ & Ha). rewrite E1 in E. injection E as <- <-. cbn [fst] in Ha.
  destruct (handle_told d s1 (I_Command client cmd c) Ha) as ([s' over] & E & Ha2 & Hm). rewrite E2 in E. injection E as <- <-. cbn [fst] in Ha2, Hm.
  destruct Hm as [[_ Hin]|[r Hm]]; [done|]. assert (recent 0 (handled s2) (cmd, r)) as Hr.
  { rewrite Hm. unfold push_handled. eexists _, []. split_and!; [done| |done]. cbn [fst]. destruct (_ =? _)%nat; [|done]. destruct (handled s1); [done|]. cbn in Hnew |- *. set_solver. }
  destruct (recent_all _ _ _ _ _ _ Ha2 Hr Hk E3) as [[d' Ha3] Hr3]. apply recent_find in Hr3. cbn [fst] in Hr3.
  destruct (send_to_keeps s3 client' cmd r) as (s4 & E4 & _ & Ec); [apply Ha3|]. exists r, s4. split_and!; [|cbn [handle]; unfold command; by rewrite Hr3, E4|done|done].
  rewrite Hm. unfold push_handled. by rewrite last_snoc.
Qed.
End session.

(** ** A small agent *)

Inductive Said := S_Hello | S_Opened | S_Talks (message : option str) (text : str) | S_Asks | S_Stops.
Definition test_session : str := lit "s".
#[local] Instance said_json : AcpJson Said := {|
  initialize_response v := match v with S_Hello => Ok (MkCapabilities false false false) | _ => Err (lit "no handshake") end;
  config_options _ := None;
  loaded_modes _ := None;
  new_session v := match v with S_Opened => Ok (test_session, None) | _ => Err (lit "no session") end;
  update_session v := match v with S_Talks _ _ => Some test_session | _ => None end;
  config_update _ := None;
  notification v := match v with S_Talks m t => Some (test_session, AgentMessageChunk m (CB_Text t)) | _ => None end;
  permission_request v := match v with
    | S_Asks => Some (MkPermissionRequest test_session (lit "call") (MkToolCallUpdateFields (Some (lit "Run it")) None None None None None)
        [MkWirePermissionOption (lit "all") PO_AllowAlways (lit "Always") true; MkWirePermissionOption (lit "yes") PO_AllowOnce (lit "Once") false])
    | _ => None end;
  stop_reason v := match v with S_Stops => Some EndTurn | _ => None end;
  prompt_tokens _ := None |}.
#[local] Instance no_tags : TagJson := λ _, None.

(** Queues with room, but the one for the first client's tenth message. *)
Definition test_world : World :=
  MkWorld (λ n, negb (n =? 20)%nat) (λ _, Ok tt) N.of_nat (λ _ _, true) (λ _ a _, (CB_ResourceLink (path a) (path a), None)) (λ _ _, []) (λ _ _, []).
Definition test_config : Config := MkConfig (lit "agent") (lit "/") false None None None false.

Definition test_inputs : list (Input Said) :=
  [I_Attach 1 true None;
   I_Command 1 100 (Prompt (lit "first") []);
   I_Agent (In_Response (Id_Number 1) (Ok S_Hello));
   I_Attach 2 false (Some (MkCursor 7 1));
   I_Agent (In_Response (Id_Number 2) (Ok S_Opened));
   I_Command 2 101 (Prompt (lit "second") []);
   I_Agent (In_Notification (lit "session/update") (S_Talks None (lit "Hel")));
   I_Agent (In_Notification (lit "session/update") (S_Talks None (lit "lo")));
   I_Command 2 102 (SetAutoAccept true);
   I_Agent (In_Request (Id_Number 5) (lit "session/request_permission") S_Asks);
   I_Command 2 101 (Prompt (lit "second") []);
   I_Agent (In_Response (Id_Number 3) (Ok S_Stops));
   I_Attach 3 false (Some (MkCursor 7 0))].

Definition test_history : option Transcript := Some (set_entries (transcript_new (lit "agent")) [MkEntry 4 (User (lit "before") 0)]).

Lemma test_history_ok : history_ok test_history.
Proof.
  intros h [= <-]. split_and!; [by repeat constructor|by repeat constructor|]. split; [cbn; unfold MAX_ENTRIES; lia|left; cbn; lia].
Qed.

Definition test_run : option (Session * bool) := run (W := test_world) (cfg := test_config) 7 test_history [(Info, lit "hi")] test_inputs.

(** The prompts went out one after the other, the second of them once, and the
    permission was granted with the option that is not to be chosen by hand. *)
Example test_agent : (λ x, to_agent x.1) <$> test_run = Some
  [Line_Request 1 Req_Initialize; Line_Request 2 Req_NewSession; Line_Request 3 (Req_Prompt test_session [CB_Text (lit "first")]);
   Line_Answer (Id_Number 5) (Selected (lit "yes")); Line_Request 4 (Req_Prompt test_session [CB_Text (lit "second")])].
Proof. vm_compute. reflexivity. Qed.

Example test_clients : (λ x, (conn <$> subscribers (feed x.1), conn <$> gone (feed x.1), f_seq (feed x.1))) <$> test_run = Some ([2; 3], [1], 24).
Proof. vm_compute. reflexivity. Qed.

Lemma clients_follow_witness : ∃ s over, test_run = Some (s, over) ∧ chained (feed s).
Proof.
  destruct (clients_follow (W := test_world) (cfg := test_config) 7 test_history [(Info, lit "hi")] test_inputs test_history_ok) as (s & over & E & Hc & _).
  exists s, over. exact (conj E Hc).
Defined.

Lemma session_bounded_witness : ∃ s over, test_run = Some (s, over) ∧ in_frame (entries (tr s)).
Proof.
  destruct (session_bounded (W := test_world) (cfg := test_config) 7 test_history [(Info, lit "hi")] test_inputs test_history_ok) as (s & over & E & Hc & _).
  exists s, over. exact (conj E Hc).
Defined.

Lemma answers_authorized_witness : ∃ s over, test_run = Some (s, over) ∧ ∀ r, (answers_to r (to_agent s) + open_for r (asked s) ≤ requests r test_inputs)%nat.
Proof.
  destruct (answers_authorized (W := test_world) (cfg := test_config) 7 test_history [(Info, lit "hi")] test_inputs test_history_ok) as (s & over & E & Hc & _).
  exists s, over. exact (conj E Hc).
Defined.

Lemma prompts_in_order_witness : ∃ s over, test_run = Some (s, over) ∧ (s_turn s = None → ready s = true → queued (tr s) = []).
Proof.
  destruct (prompts_in_order (W := test_world) (cfg := test_config) 7 test_history [(Info, lit "hi")] test_inputs test_history_ok) as (s & over & E & _ & Hc).
  exists s, over. exact (conj E Hc).
Defined.
(** The same prompt on two connections. *)
Definition again_before : list (Input Said) := take 5 test_inputs.
Definition again_between : list (Input Said) := [I_Detach 2; I_Attach 4 false (Some (MkCursor 7 3)); I_Command 1 300 Cancel].
Definition again : Command := Prompt (lit "once") [].

(** Three steps that end without the session being over. *)
Definition three (x : option (Session * bool)) (f g : Session → option (Session * bool)) (p : Session → bool) : bool :=
  match x with
  | Some (s1, false) => match f s1 with Some (s2, false) => match g s2 with Some (s3, false) => p s1 | _ => false end | _ => false end
  | _ => false
  end.
Lemma three_spec x f g p : three x f g p = true → ∃ s1 s2 s3, x = Some (s1, false) ∧ f s1 = Some (s2, false) ∧ g s2 = Some (s3, false) ∧ p s1 = true.
Proof.
  unfold three. destruct x as [[s1 []]|]; try done. destruct (f s1) as [[s2 []]|] eqn:E1; try done. destruct (g s2) as [[s3 []]|] eqn:E2; try done.
  intros H. by exists s1, s2, s3.
Qed.

Lemma again_checked : three (run (W := test_world) (cfg := test_config) 7 test_history [] again_before)
  (λ s, handle (W := test_world) (cfg := test_config) s (I_Command 2 200 again))
  (λ s, handle_all (W := test_world) (cfg := test_config) s again_between) (λ s, bool_decide (200 ∉ (handled s).*1)) = true.
Proof. vm_compute. reflexivity. Qed.

Lemma command_once_witness : ∃ s3 r s4, handle (W := test_world) (cfg := test_config) s3 (I_Command 4 200 again) = Some (s4, false) ∧
  send_to (W := test_world) s3 4 (Ack 200 r) = Some s4 ∧ core s4 = core s3.
Proof.
  destruct (three_spec _ _ _ _ again_checked) as (s1 & s2 & s3 & E1 & E2 & E3 & H%bool_decide_eq_true).
  assert (count (λ i, is_some (commanded i)) again_between < HANDLED)%nat as Hk by (apply Nat.ltb_lt; vm_compute; reflexivity).
  destruct (command_once (W := test_world) (cfg := test_config) 7 test_history [] again_before again_between 2 200 again 4 again s1 s2 s3 test_history_ok E1 H E2 E3 Hk)
    as (r & s4 & _ & H1 & H2 & H3).
  exists s3, r, s4. exact (conj H1 (conj H2 H3)).
Defined.

(** A picture that a message links is shown before the next one begins, and that
    closes the entry the next message has just opened: its second part no longer
    continues the first, but begins an entry of its own. *)
Definition linking_world : World :=
  MkWorld (λ _, true) (λ _, Ok tt) N.of_nat (λ _ _, true) (λ _ a _, (CB_ResourceLink (path a) (path a), None))
    (λ _ t, if bool_decide (t = lit "see a.png") then [MkImage (lit "data") Png] else []) (λ _ _, []).
Definition linking_inputs : list (Input Said) :=
  [I_Agent (In_Response (Id_Number 1) (Ok S_Hello)); I_Agent (In_Response (Id_Number 2) (Ok S_Opened));
   I_Agent (In_Notification (lit "session/update") (S_Talks (Some (lit "1")) (lit "see a.png")));
   I_Agent (In_Notification (lit "session/update") (S_Talks (Some (lit "2")) (lit "Hel")));
   I_Agent (In_Notification (lit "session/update") (S_Talks (Some (lit "2")) (lit "lo")))].

Example message_split : (λ x, kind <$> entries (tr x.1)) <$> run (W := linking_world) (cfg := test_config) 7 None [] linking_inputs =
  Some [Agent (lit "see a.png"); ImageEntry Author_Agent (MkImage (lit "data") Png); Agent (lit "Hel"); Agent (lit "lo")].
Proof. vm_compute. reflexivity. Qed.

(** Without the picture the parts are one entry. *)
Example message_whole : (λ x, kind <$> entries (tr x.1)) <$> run (W := test_world) (cfg := test_config) 7 None [] linking_inputs =
  Some [Agent (lit "see a.png"); Agent (lit "Hello")].
Proof. vm_compute. reflexivity. Qed.
End ChatRun.
