(* ===== verification/ChatClient.v ===== *)
(** * ChatClient: a window's copy of a conversation
    (crates/sheprd-gpui/src/chat/session.rs, chat.rs and chat/list.rs, and
    crates/sheprd-acp/src/attach/downgrade.rs)

    What a window knows of a chat: the transcript as of its cursor, the commands
    not acknowledged yet, and the revision each entry last changed at, by which the
    rows of the list are drawn again; and what a client of an earlier revision of
    the protocol is sent instead of changes it cannot read. *)

From Stdlib Require Import NArith Lia.
From stdpp Require Import base option strings list gmap sets sorting.
From S2P Require Import Prelude Transcript Display Project ChatSession ChatEmit ChatRun.

Local Open Scope N_scope.

Module ChatClient.
Import Transcript ChatSession ChatEmit ChatRun.

#[export] Instance Author_eq_dec : EqDecision Author.
Proof. solve_decision. Defined.
#[export] Instance ImageType_eq_dec : EqDecision ImageType.
Proof. solve_decision. Defined.
#[export] Instance Image_eq_dec : EqDecision Image.
Proof. solve_decision. Defined.
#[export] Instance NoticeLevel_eq_dec : EqDecision NoticeLevel.
Proof. solve_decision. Defined.
#[export] Instance QuestionAnswer_eq_dec : EqDecision QuestionAnswer.
Proof. solve_decision. Defined.
#[export] Instance ToolKind_eq_dec : EqDecision ToolKind.
Proof. solve_decision. Defined.
#[export] Instance ToolStatus_eq_dec : EqDecision ToolStatus.
Proof. solve_decision. Defined.
#[export] Instance ToolContent_eq_dec : EqDecision ToolContent.
Proof. solve_decision. Defined.
#[export] Instance Tool_eq_dec : EqDecision Tool.
Proof. solve_decision. Defined.
#[export] Instance TurnEnd_eq_dec : EqDecision TurnEnd.
Proof. solve_decision. Defined.
#[export] Instance Tokens_eq_dec : EqDecision Tokens.
Proof. solve_decision. Defined.
#[export] Instance TurnSummary_eq_dec : EqDecision TurnSummary.
Proof. solve_decision. Defined.
#[export] Instance EntryKind_eq_dec : EqDecision EntryKind.
Proof. solve_decision. Defined.
#[export] Instance Entry_eq_dec : EqDecision Entry.
Proof. solve_decision. Defined.
#[export] Instance Rejection_eq_dec : EqDecision Rejection.
Proof. solve_decision. Defined.

(** ** The window's session *)

Definition SENDS : N := 2.
Definition MAX_PENDING : nat := 32.

Record PendingCommand := MkPendingCommand { pc_command : Command; pc_id : N; sends : N }.

Record Client := MkClient {
  c_agent : str;
  c_cursor : option Cursor;
  c_pending : list PendingCommand;
  c_rejection : option Rejection;
  c_revisions : gmap N N;
  c_revision : N;
  c_snapshots : N;
  tail_changed : bool;
  c_transcript : Transcript;
  welcomed : bool
}.

(** The errors of [chat.rs] that a session meets. *)
Inductive ChatError :=
| E_Apply (e : Error)
| E_Busy
| E_Bye (reason : ByeReason)
| E_Handshake
| E_ReadOnly
| E_Stream (after : option Cursor) (got : Cursor)
| E_Version (version : N).

Definition permanent (e : ChatError) : bool := match e with E_Version _ | E_Bye (Bye_Version _) => true | _ => false end.
Definition desynced (e : ChatError) : bool := match e with E_Stream _ _ | E_Apply _ => true | _ => false end.

(** A new session, around the default transcript. *)
Definition client_new : Client := MkClient [] None [] None ∅ 0 0 false (transcript_new []) false.

Definition begin (c : Client) : Client :=
  MkClient (c_agent c) (c_cursor c) (c_pending c) (c_rejection c) (c_revisions c) (c_revision c) (c_snapshots c) (tail_changed c) (c_transcript c) false.

Definition lost (c : Client) (e : ChatError) : Client :=
  MkClient (c_agent c) (if desynced e then None else c_cursor c) (c_pending c) (c_rejection c) (c_revisions c) (c_revision c) (c_snapshots c)
    (tail_changed c) (c_transcript c) false.

Definition since (c : Client) : option Cursor := c_cursor c.
Definition synced (c : Client) : bool := 0 <? c_snapshots c.
Definition live (c : Client) : bool := welcomed c && is_some (c_cursor c).

Definition set_observed_status (c : Client) (st : Status) : Client * bool :=
  if negb (read_only (c_transcript c)) || bool_decide (status (c_transcript c) = st) then (c, false)
  else (MkClient (c_agent c) (c_cursor c) (c_pending c) (c_rejection c) (c_revisions c) (c_revision c) (c_snapshots c) (tail_changed c)
          (set_status (c_transcript c) st) (welcomed c), true).

Definition agent_name (c : Client) : str := if bool_decide (agent (c_transcript c) = []) then c_agent c else agent (c_transcript c).

Definition take_tail_changed (c : Client) : Client * bool :=
  (MkClient (c_agent c) (c_cursor c) (c_pending c) (c_rejection c) (c_revisions c) (c_revision c) (c_snapshots c) false (c_transcript c) (welcomed c),
   tail_changed c).

(** [keys]: each entry with the revision it, or the latest of its steps, last
    changed at. *)
Definition revision_of (c : Client) (id : N) : N := default 0 (c_revisions c !! id).
Definition steps_of (c : Client) : gmap str N :=
  foldl (λ m e, match kind e with
                | ToolEntry tool => match tool_parent tool with
                                    | Some parent => <[parent := N.max (default 0 (m !! parent)) (revision_of c (entry_id e))]> m
                                    | None => m
                                    end
                | _ => m
                end) ∅ (entries (c_transcript c)).
Definition key_of (c : Client) (e : Entry) : N :=
  N.max (revision_of c (entry_id e)) (match kind e with ToolEntry tool => default 0 (steps_of c !! tool_call_id tool) | _ => 0 end).
Definition keys (c : Client) : list (N * N) := (λ e, (entry_id e, key_of c e)) <$> entries (c_transcript c).

(** [resend]: what goes out on a new connection. *)
Definition resend (c : Client) : Client * list (N * Command) :=
  let kept := filter (λ p, sends p < SENDS) (c_pending c) in
  let c := MkClient (c_agent c) (c_cursor c) kept
             (if (length kept <? length (c_pending c))%nat then Some Unsupported else c_rejection c)
             (c_revisions c) (c_revision c) (c_snapshots c) (tail_changed c) (c_transcript c) (welcomed c) in
  (c, (λ p, (pc_id p, pc_command p)) <$> kept).

(** [submit], with the random id it takes. *)
Definition submit (c : Client) (id : N) (command : Command) : Client * res ChatError (N * Command) :=
  if read_only (c_transcript c) then (c, Err E_ReadOnly)
  else if (MAX_PENDING <=? length (c_pending c))%nat then (c, Err E_Busy)
  else
    (MkClient (c_agent c) (c_cursor c) (c_pending c ++ [MkPendingCommand command id (if welcomed c then 1 else 0)]) None (c_revisions c) (c_revision c)
       (c_snapshots c) (tail_changed c) (c_transcript c) (welcomed c), Ok (id, command)).

(** [touch], on the transcript after the change. *)
Definition touch (t : Transcript) (c : Change) (revisions : gmap N N) (revision : N) : gmap N N * N :=
  let revision := revision + 1 in
  match c with
  | Push e | Replace e => (<[entry_id e := revision]> revisions, revision)
  | Append id _ => (<[id := revision]> revisions, revision)
  | Truncate _ => (filter (λ x, is_Some (position t x.1)) revisions, revision)
  | _ => (revisions, revision)
  end.

Definition follows (after : option Cursor) (got : Cursor) : bool :=
  match after with Some a => (epoch a =? epoch got) && (seq a + 1 =? seq got) | None => false end.

(** [receive]: the state and the result; [None] for a panic of [apply]. *)
Definition receive (c : Client) (m : ServerMessage) : option (Client * res ChatError bool) :=
  match m with
  | Welcome agent _ version =>
      if negb (version =? VERSION) then Some (c, Err (E_Version version))
      else Some (MkClient agent (c_cursor c) ((λ p, MkPendingCommand (pc_command p) (pc_id p) (N.min 255 (sends p + 1))) <$> c_pending c) (c_rejection c)
                   (c_revisions c) (c_revision c) (c_snapshots c) (tail_changed c) (c_transcript c) true, Ok true)
  | _ =>
      if negb (welcomed c) then Some (c, Err E_Handshake)
      else
        match m with
        | Snapshot cursor t =>
            let tail := tail_changed c || negb (bool_decide (last (entries (c_transcript c)) = last (entries t))) in
            Some (MkClient (c_agent c) (Some cursor) (c_pending c) (c_rejection c) ∅ (c_revision c) (c_snapshots c + 1) tail t (welcomed c), Ok true)
        | ChangeTo change cursor =>
            if negb (follows (c_cursor c) cursor) then Some (c, Err (E_Stream (c_cursor c) cursor))
            else
              '(t, r) ← apply (c_transcript c) change;
              match r with
              | Err e => Some (MkClient (c_agent c) (c_cursor c) (c_pending c) (c_rejection c) (c_revisions c) (c_revision c) (c_snapshots c)
                                 (tail_changed c) t (welcomed c), Err (E_Apply e))
              | Ok _ =>
                  let '(revisions, revision) := touch t change (c_revisions c) (c_revision c) in
                  Some (MkClient (c_agent c) (Some cursor) (c_pending c) (c_rejection c) revisions revision (c_snapshots c) (tail_changed c) t
                          (welcomed c), Ok true)
              end
        | Ack id rejected =>
            let shown := r ← rejected; if bool_decide (r = UnknownPermission_) then None else Some r in
            Some (MkClient (c_agent c) (c_cursor c) (filter (λ p, pc_id p ≠ id) (c_pending c)) (match shown with Some r => Some r | None => c_rejection c end)
                    (c_revisions c) (c_revision c) (c_snapshots c) (tail_changed c) (c_transcript c) (welcomed c), Ok (is_some shown))
        | Bye reason => Some (c, Err (E_Bye reason))
        | Welcome _ _ _ => None
        end
  end.

(** Messages in turn, up to the first that is an error ([poll]). *)
Fixpoint receive_all (c : Client) (ms : list ServerMessage) : option (Client * option ChatError) :=
  match ms with
  | [] => Some (c, None)
  | m :: ms => '(c, r) ← receive c m; match r with Ok _ => receive_all c ms | Err e => Some (c, Some e) end
  end.

(** ** The rows of the list (list.rs) *)

Record Splice := MkSplice { range_from : nat; range_to : nat; splice_count : nat }.

Definition splices (old new : list (N * N)) : option (list Splice) :=
  match new with
  | [] => match old with [] => Some [] | _ => None end
  | (first, _) :: _ =>
      let dropped := default (length old) (position_of (λ k, k.1 =? first) old) in
      let kept := drop dropped old in
      if (length new <? length kept)%nat || existsb (λ x : N * N * (N * N), negb (x.1.1 =? x.2.1)) (zip kept new) then None
      else
        Some ((if (0 <? dropped)%nat then [MkSplice 0 dropped 0] else [])
              ++ ((λ x : nat * (N * N * (N * N)), MkSplice x.1 (S x.1) 1) <$> filter (λ x : nat * (N * N * (N * N)), x.2.1.2 ≠ x.2.2.2) (imap pair (zip kept new)))
              ++ (if (length kept <? length new)%nat then [MkSplice (length kept) (length kept) (length new - length kept)] else []))
  end.

(** A row is what it was measured for, or to be measured. [ListState::splice]
    puts rows to be measured in place of a range. *)
Definition splice_rows {A} (rows : list (option A)) (s : Splice) : list (option A) :=
  take (range_from s) rows ++ replicate (splice_count s) None ++ drop (range_to s) rows.

(** ** A client of an earlier revision (downgrade.rs) *)

Definition REVISION : N := 1.
Record Downgrade := MkDowngrade { d_clients : option N; d_revision : N }.
Definition downgrade_new (revision : N) : Downgrade := MkDowngrade None revision.
Definition is_current (d : Downgrade) : bool := REVISION <=? d_revision d.

Definition message (d : Downgrade) (m : ServerMessage) : Downgrade * option ServerMessage :=
  if is_current d then (d, Some m)
  else
    match m with
    | Snapshot cursor t => (MkDowngrade (Some (clients t)) (d_revision d), Some m)
    | ChangeTo change cursor =>
        match change with
        | Clients count => (MkDowngrade (Some count) (d_revision d), Some m)
        | ActivityChange _ => (d, (λ n, ChangeTo (Clients n) cursor) <$> d_clients d)
        | _ => (d, Some m)
        end
    | _ => (d, Some m)
    end.

(** The messages of a connection, up to one that cannot be put so. *)
Fixpoint messages (d : Downgrade) (ms : list ServerMessage) : Downgrade * list ServerMessage * bool :=
  match ms with
  | [] => (d, [], true)
  | m :: ms =>
      match message d m with
      | (d, None) => (d, [], false)
      | (d, Some m) => let '(d, rest, all) := messages d ms in (d, m :: rest, all)
      end
  end.

(** ** The window is in step *)

Definition held_by (c : Client) : Held := match c_cursor c with Some cursor => Holds cursor (c_transcript c) | None => Nothing end.

(** A window and one that follows the messages: before the first transcript of a
    connection, the window may hold an older one. *)
Definition sim (c : Client) (st : Held) : Prop := st = Nothing ∨ st = held_by c.

Lemma receive_sim c st m : sim c st → (welcomed c = true ∨ ∃ a p v, m = Welcome a p v) → follow st m ≠ Broken → is_bye m = false →
  ∃ c' b, receive c m = Some (c', Ok b) ∧ welcomed c' = true ∧ sim c' (follow st m) ∧ (follow st m = Nothing → held_by c' = held_by c).
Proof.
  intros Hs Hw Hf Hb. destruct m as [a p v|cursor t|change cursor|id rejected|reason]; try done.
  - cbn in *. destruct (v =? VERSION); [|done]. cbn. by eexists _, _.
  - destruct Hw as [Hw|(a & p & v & Hm)]; [|done]. cbn. rewrite Hw. cbn. eexists _, _. split; [done|]. split_and!; [done|by right|done].
  - destruct Hw as [Hw|(a & p & v & Hm)]; [|done]. destruct Hs as [-> | ->]; [done|]. unfold held_by in *. cbn [follow receive] in *. rewrite Hw. cbn [negb].
    destruct (c_cursor c) as [after|] eqn:Ec; [|done]. unfold follows. destruct (_ && _); [|done]. cbn [negb].
    destruct (apply (c_transcript c) change) as [[t [[]|e]]|]; try done. cbn [mbind option_bind].
    destruct (touch _ _ _ _) as [revisions revision]. eexists _, _. split; [done|]. split_and!; [done|by right|done].
  - destruct Hw as [Hw|(a & p & v & Hm)]; [|done]. cbn. rewrite Hw. cbn. eexists _, _. split; [done|]. split_and!; [done|exact Hs|done].
Qed.

(** Messages up to the program's goodbye. *)
Lemma receive_all_sim ms : ∀ c st, sim c st → (welcomed c = true ∨ match ms with [] | Welcome _ _ _ :: _ => True | _ => False end) →
  (∀ n, foldl follow st (take n ms) ≠ Broken) →
  ∃ c' e k, receive_all c ms = Some (c', e) ∧ sim c' (foldl follow st (take k ms)) ∧ (foldl follow st (take k ms) = Nothing → held_by c' = held_by c) ∧
    (e = None ∧ k = length ms ∨ ∃ r, e = Some (E_Bye r)) ∧ (Forall (λ m, is_bye m = false) ms → e = None).
Proof.
  induction ms as [|m ms IH]; intros c st Hs Hw Hf; cbn [receive_all].
  { exists c, None, 0%nat. by split_and!; try done; left. }
  destruct (is_bye m) eqn:Eb.
  - destruct m as [| | | |reason]; try done. destruct Hw as [Hw|[]]. cbn [receive]. rewrite Hw. cbn. exists c, (Some (E_Bye reason)), 0%nat.
    split_and!; [done|done|done|right; by exists reason|]. intros H. by inversion H.
  - destruct (receive_sim c st m) as (c1 & b & E & Hw1 & Hs1 & Hn1); [done| |exact (Hf 1%nat)|done|].
    { destruct Hw as [Hw|Hw]; [by left|right]. destruct m; try done. by eexists _, _, _. }
    rewrite E. cbn [mbind option_bind]. destruct (IH c1 (follow st m) Hs1) as (c2 & e & k & E2 & Hs2 & Hn2 & He & Hb2); [by left|intros n; exact (Hf (S n))|].
    exists c2, e, (S k). cbn [take foldl]. split_and!; [done|done| | |].
    + intros Hk. rewrite (Hn2 Hk). apply Hn1. clear -Hk. revert Hk. generalize (take k ms) as l, (follow st m) as h. intros l. induction l as [|m' l IHl]; intros h; [done|].
      cbn [foldl]. intros H. specialize (IHl _ H). destruct h; try done; destruct m'; cbn in IHl; try done; repeat (case_match; try done).
    + destruct He as [[-> ->]|He]; [by left|by right].
    + intros Hall. apply Hb2. by inversion Hall.
Qed.

Lemma receive_all_welcomed ms : ∀ c c' e, welcomed c = true → receive_all c ms = Some (c', e) → welcomed c' = true.
Proof.
  induction ms as [|m ms IH]; intros c c' e Hw; cbn [receive_all]; [by intros [= <- _]|]. destruct (receive c m) as [[c1 r]|] eqn:Er; [|done]. cbn [mbind option_bind].
  assert (welcomed c1 = true) as Hw1.
  { destruct m; cbn in Er; rewrite ?Hw in Er; cbn in Er; repeat (case_match; try done); simplify_eq; try done.
    all: by destruct (apply _ _) as [[? []]|]; cbn in Er; repeat case_match; simplify_eq. }
  destruct r; [by apply IH|]. by intros [= <- _].
Qed.

Section window.
Context {V : Type} {AJ : AcpJson V} {TJ : Project.TagJson} {W : World} {cfg : Config}.

(** C5: whatever the agent says, the clients do and the queues take, a
    conversation comes to the end of its inputs (no index is out of range, the
    changes it emits in turn come to an end) and the transcripts it goes through
    follow one another by a change each. A window that attaches with its cursor,
    holding the transcript the conversation had there (or holding anything, when
    its cursor is of another run), never meets a change that does not follow or
    does not fit: after any part of the messages of that connection it has seen no
    error but the program's goodbye, and holds what it held before or the
    transcript the conversation had at its cursor; and with all of them, still
    attached, it is live with the transcript of the conversation. *)
Theorem window_in_step id history notices ins : history_ok history →
  ∃ s over, run id history notices ins = Some (s, over) ∧ chained (feed s) ∧ past (feed s) !! N.to_nat (f_seq (feed s)) = Some (tr s) ∧
    ∀ x c, x ∈ subscribers (feed s) ++ gone (feed s) →
      (∀ cursor t, held x = Some (cursor, t) → c_cursor c = Some cursor ∧ c_transcript c = t) →
      (∀ n, ∃ c' e, receive_all (begin c) (take n (outbox x)) = Some (c', e) ∧ (e = None ∨ ∃ r, e = Some (E_Bye r)) ∧
        (held_by c' = held_by c ∨ has_past (feed s) (held_by c') ∧ is_Some (c_cursor c'))) ∧
      (x ∈ subscribers (feed s) →
        ∃ c', receive_all (begin c) (outbox x) = Some (c', None) ∧ live c' = true ∧ c_cursor c' = Some (cursor (feed s)) ∧ c_transcript c' = tr s).
Proof.
  intros Hh. destruct (run_told id history notices ins Hh) as ([s over] & E & d & rest & _ & [[[Hok _] _] _]). exists s, over.
  split_and!; [done|apply (ok_chain _ Hok)|apply (ok_now _ Hok)|]. intros x c Hx Hheld. pose proof (ok_consistent _ Hok) as Hc. rewrite Forall_forall in Hc. destruct (Hc x Hx) as [Hgr Hpast].
  assert (sim (begin c) (came_with (held x))) as Hsim.
  { unfold sim, held_by. cbn. destruct (held x) as [[cursor t]|] eqn:Eh; [|by left]. right. destruct (Hheld _ _ eq_refl) as [-> ->]. done. }
  assert (∀ n, match take n (outbox x) with [] | Welcome _ _ _ :: _ => True | _ => False end) as Hhead.
  { intros n. unfold greeted in Hgr. destruct (outbox x) as [|m ms]; [by destruct n|]. by destruct n, m. }
  assert (∀ n k, foldl follow (came_with (held x)) (take k (take n (outbox x))) ≠ Broken) as Hnb.
  { intros n k. rewrite take_take. specialize (Hpast (Nat.min k n)). unfold received in Hpast. intros Eb. by rewrite Eb in Hpast. }
  assert (∀ n, ∃ c' e k, receive_all (begin c) (take n (outbox x)) = Some (c', e) ∧ sim c' (foldl follow (came_with (held x)) (take k (take n (outbox x)))) ∧
    (foldl follow (came_with (held x)) (take k (take n (outbox x))) = Nothing → held_by c' = held_by c) ∧
    (e = None ∧ k = length (take n (outbox x)) ∨ ∃ r, e = Some (E_Bye r)) ∧ (Forall (λ m, is_bye m = false) (take n (outbox x)) → e = None)) as Hrec.
  { intros n. exact (receive_all_sim _ (begin c) _ Hsim (or_intror (Hhead n)) (Hnb n)). }
  split.
  - intros n. destruct (Hrec n) as (c' & e & k & E1 & Hs & Hn & He & _). exists c', e. split_and!; [done|destruct He as [[-> _]|He]; [by left|by right]|].
    destruct Hs as [Hs|Hs]; [left; by apply Hn|]. rewrite take_take in Hs. pose proof (Hpast (Nat.min k n)) as Hp. unfold received in Hp. rewrite Hs in Hp.
    destruct (c_cursor c') as [cu|] eqn:Ecu; [right; split; [done|by eexists]|]. left. apply Hn. rewrite take_take, Hs. unfold held_by. by rewrite Ecu.
  - intros Hsub. pose proof (ok_current _ Hok) as Hcur. rewrite Forall_forall in Hcur. destruct (Hcur x Hsub) as (Hr & Hne & Hb).
    destruct (Hrec (length (outbox x))) as (c' & e & k & E1 & Hs & _ & He & Hnone). rewrite (take_ge (outbox x) (length (outbox x))) in E1, Hs, He, Hnone by lia. specialize (Hnone Hb). subst e.
    destruct He as [[_ ->]|[r Hbye]]; [|done]. rewrite take_ge in Hs by lia. fold (received x (outbox x)) in Hs. rewrite Hr in Hs. destruct Hs as [Hs|Hs]; [done|].
    exists c'. unfold held_by in Hs. destruct (c_cursor c') as [cu|] eqn:Ecu; [|done]. injection Hs as E2 E3. split_and!; [done| |by rewrite E2|done].
    unfold live. rewrite Ecu. cbn. rewrite andb_true_r.
    unfold greeted in Hgr. destruct (outbox x) as [|[a p v| | | |] ms]; try done. cbn [receive_all receive] in E1. destruct (v =? VERSION); cbn in E1; [|done].
    by eapply receive_all_welcomed in E1.
Qed.
End window.

(** ** Rows are drawn for what they show *)

(** What [splices] keeps of the rows. *)
Lemma splice_one {A} (rows : list (option A)) i : (i < length rows)%nat → splice_rows rows (MkSplice i (S i) 1) = <[i := None]> rows.
Proof. intros Hi. unfold splice_rows. cbn. by rewrite insert_take_drop. Qed.

Lemma splice_each {A} (ixs : list nat) : ∀ rows : list (option A), Forall (λ i, (i < length rows)%nat) ixs →
  let rows' := foldl splice_rows rows ((λ i, MkSplice i (S i) 1) <$> ixs) in
  length rows' = length rows ∧ ∀ j, rows' !! j = if decide (j ∈ ixs) then (λ _, None) <$> rows !! j else rows !! j.
Proof.
  induction ixs as [|i ixs IH]; intros rows Hall; cbn [fmap list_fmap foldl].
  { split; [done|]. intros j. rewrite decide_False; [done|]. apply not_elem_of_nil. }
  inversion Hall as [|? ? Hi His]; subst. rewrite splice_one by done. destruct (IH (<[i := None]> rows)) as [H1 H2].
  { rewrite length_insert. exact His. }
  cbn in H1, H2. split; [by rewrite H1, length_insert|]. intros j. rewrite H2. destruct (decide (j = i)) as [->|Hne].
  - rewrite (list_lookup_insert_eq rows) by done. destruct (lookup_lt_is_Some_2 rows i Hi) as [r ->]. rewrite (decide_True (P := i ∈ i :: ixs)) by set_solver.
    by destruct (decide (i ∈ ixs)).
  - rewrite (list_lookup_insert_ne rows) by done. destruct (decide (j ∈ ixs)); [rewrite decide_True by set_solver|rewrite decide_False by set_solver]; done.
Qed.

(** The rows of the keys whose revision changed. *)
Lemma changed_rows (kept new : list (N * N)) i :
  i ∈ (λ x : nat * (N * N * (N * N)), x.1) <$> filter (λ x : nat * (N * N * (N * N)), x.2.1.2 ≠ x.2.2.2) (imap pair (zip kept new)) ↔
  ∃ a b, kept !! i = Some a ∧ new !! i = Some b ∧ a.2 ≠ b.2.
Proof.
  rewrite list_elem_of_fmap. split.
  - intros ((i' & (a & b)) & -> & [Hne Hin]%list_elem_of_filter). apply list_elem_of_lookup in Hin as [j Hj]. rewrite list_lookup_imap in Hj.
    destruct (zip kept new !! j) as [[a' b']|] eqn:Ez; [|done]. injection Hj as <- <- <-. apply lookup_zip_Some in Ez as [H1 H2]. by exists a', b'.
  - intros (a & b & H1 & H2 & Hne). exists (i, (a, b)). split; [done|]. apply list_elem_of_filter. split; [done|].
    apply list_elem_of_lookup. exists i. rewrite list_lookup_imap. assert (zip kept new !! i = Some (a, b)) as -> by (by apply lookup_zip_Some). done.
Qed.

(** The rows after the splices: one for each new key, and a row that was kept
    is that of the old key of the same id and revision. *)
Lemma splices_rows {A} old new (rows : list A) sp : length rows = length old → splices old new = Some sp →
  let rows' := foldl splice_rows (Some <$> rows) sp in
  length rows' = length new ∧
  ∀ i r, rows' !! i = Some (Some r) → ∃ j k, rows !! j = Some r ∧ old !! j = Some k ∧ new !! i = Some k.
Proof.
  intros Hl. unfold splices. destruct new as [|[first rev] new0] eqn:En. { destruct old; [|done]. intros [= <-]. by destruct rows. }
  rewrite <- En. set (dropped := default _ _). set (kept := drop dropped old). destruct (_ || _) eqn:Eo; [done|]. intros [= <-].
  apply orb_false_iff in Eo as [Hlen%Nat.ltb_ge Hids].
  assert (dropped ≤ length old)%nat as Hd.
  { unfold dropped. pose proof (position_of_spec (λ k : N * N, k.1 =? first) old) as Hp. destruct (position_of _ _) as [i|]; cbn; [|lia].
    destruct Hp as (k & Hk%lookup_lt_Some & _). lia. }
  rewrite !foldl_app.
  assert (foldl splice_rows (Some <$> rows) (if (0 <? dropped)%nat then [MkSplice 0 dropped 0] else []) = Some <$> drop dropped rows) as ->.
  { destruct (0 <? dropped)%nat eqn:E; cbn; [by rewrite fmap_drop|]. apply Nat.ltb_ge in E. replace dropped with 0%nat by lia. done. }
  set (ixs := (λ x : nat * (N * N * (N * N)), x.1) <$> filter (λ x : nat * (N * N * (N * N)), x.2.1.2 ≠ x.2.2.2) (imap pair (zip kept new))).
  assert ((λ x : nat * (N * N * (N * N)), MkSplice x.1 (S x.1) 1) <$> filter (λ x : nat * (N * N * (N * N)), x.2.1.2 ≠ x.2.2.2) (imap pair (zip kept new))
    = (λ i, MkSplice i (S i) 1) <$> ixs) as -> by (unfold ixs; by rewrite <- list_fmap_compose).
  assert (length kept = length old - dropped)%nat as Hkl by apply length_drop.
  assert (∀ i, i ∈ ixs ↔ ∃ a b, kept !! i = Some a ∧ new !! i = Some b ∧ a.2 ≠ b.2) as His by apply changed_rows.
  destruct (splice_each ixs (Some <$> drop dropped rows)) as [H1 H2].
  { apply Forall_forall. intros i (a & b & Ha%lookup_lt_Some & _)%His. rewrite length_fmap, length_drop. lia. }
  cbv zeta in H1, H2. set (mid := foldl splice_rows _ _) in *. rewrite length_fmap, length_drop in H1.
  assert (∀ i r, mid !! i = Some (Some r) → ∃ j k, rows !! j = Some r ∧ old !! j = Some k ∧ new !! i = Some k) as Hmid.
  { intros i r Hi. rewrite H2 in Hi. destruct (decide (i ∈ ixs)) as [|Hno]; [by destruct ((Some <$> drop dropped rows) !! i)|].
    rewrite list_lookup_fmap, lookup_drop in Hi. destruct (rows !! (dropped + i)%nat) as [r'|] eqn:Er; [|done]. injection Hi as ->.
    assert (dropped + i < length old)%nat as Hlt by (rewrite <- Hl; by eapply lookup_lt_Some). destruct (lookup_lt_is_Some_2 old _ Hlt) as [a Ha].
    destruct (lookup_lt_is_Some_2 new i) as [b Hb]; [lia|]. exists (dropped + i)%nat, a. split_and!; [done|done|].
    assert (kept !! i = Some a) as Hka by (unfold kept; by rewrite lookup_drop).
    assert (a.1 = b.1) as E1.
    { apply not_true_iff_false in Hids. destruct (a.1 =? b.1) eqn:E; [by apply N.eqb_eq|]. destruct Hids. apply existsb_exists. exists (a, b). split; [|cbn; by rewrite E].
      apply list_elem_of_In, list_elem_of_lookup. exists i. by apply lookup_zip_Some. }
    assert (a.2 = b.2) as E2. { destruct (decide (a.2 = b.2)) as [|Hne]; [done|]. destruct Hno. apply His. by exists a, b. }
    rewrite Hb. f_equal. destruct a, b; cbn in *. by subst. }
  destruct (length kept <? length new)%nat eqn:E; cbn [foldl].
  - apply Nat.ltb_lt in E. unfold splice_rows. cbn [range_from range_to splice_count]. rewrite take_ge, drop_ge, app_nil_r by lia. split.
    + rewrite length_app, length_replicate. lia.
    + intros i r [Hi|[_ Hi]]%lookup_app_Some; [by apply Hmid|]. by apply lookup_replicate in Hi as [Hi _].
  - apply Nat.ltb_ge in E. split; [lia|done].
Qed.

(** The revisions a window gave out so far. *)
Record counted (c : Client) : Prop := {
  counted_wf : wf (c_transcript c);
  counted_le : ∀ id r, c_revisions c !! id = Some r → r ≤ c_revision c
}.

Lemma revision_le c id : counted c → revision_of c id ≤ c_revision c.
Proof. intros Hc. unfold revision_of. destruct (c_revisions c !! id) eqn:E; cbn; [by apply (counted_le _ Hc id)|lia]. Qed.

(** An entry of [c'] that did not change since [c] is an entry of [c]. *)
Definition unchanged (c c' : Client) : Prop := c_revision c ≤ c_revision c' ∧
  ∀ id k, view (entries (c_transcript c')) !! id = Some k → revision_of c' id ≤ c_revision c → view (entries (c_transcript c)) !! id = Some k.

Lemma change_untouched t t' c id k : wf t → apply t c = Some (t', Ok tt) → view (entries t') !! id = Some k →
  match c with Push e | Replace e => entry_id e ≠ id | Append i _ => i ≠ id | _ => True end → view (entries t) !! id = Some k.
Proof.
  intros Hwf Happ Hv Hc. pose proof (applied_all t c Hwf) as Ha. unfold applied in Ha. rewrite Happ in Ha. destruct Ha as (_ & Hcv & _). revert Hcv. unfold change_view.
  destruct (answers_refused c); [done|]. destruct c as [e|i more|e|b| | | | | | | | | | | | | | |]; try (by intros [= ->]).
  - destruct (bool_decide _); [|done]. intros [= Ev]. rewrite <- Ev, lookup_insert_ne in Hv; done.
  - destruct (view (entries t) !! i); [|done]. cbn [mbind option_bind]. destruct (append_text _ _); [|done]. intros [= Ev]. rewrite <- Ev, lookup_insert_ne in Hv; done.
  - destruct (view (entries t) !! entry_id e); [|done]. cbn [mbind option_bind]. intros [= Ev]. rewrite <- Ev, lookup_insert_ne in Hv; done.
  - intros [= Ev]. rewrite <- Ev in Hv. by apply map_lookup_filter_Some in Hv as [Hv _].
Qed.

Lemma position_view t id k : wf t → view (entries t) !! id = Some k → is_Some (position t id).
Proof.
  intros Hwf Hv. pose proof (position_spec t id (wf_order _ Hwf)) as Hp. destruct (position t id); [by eexists|]. by rewrite (view_None _ _ (wf_order _ Hwf) Hp) in Hv.
Qed.

(** One more change. *)
Lemma touch_unchanged c0 c t change cursor : counted c → unchanged c0 c → apply (c_transcript c) change = Some (t, Ok tt) →
  let '(revisions, revision) := touch t change (c_revisions c) (c_revision c) in
  let c' := MkClient (c_agent c) (Some cursor) (c_pending c) (c_rejection c) revisions revision (c_snapshots c) (tail_changed c) t (welcomed c) in
  counted c' ∧ unchanged c0 c'.
Proof.
  intros [Hwf Hle] [Hr Hu] Happ. pose proof (applied_all _ change Hwf) as Ha. unfold applied in Ha. rewrite Happ in Ha. destruct Ha as (Hwft & _).
  assert (∀ id k, view (entries t) !! id = Some k → match change with Push e | Replace e => entry_id e ≠ id | Append i _ => i ≠ id | _ => True end →
    revision_of c id ≤ c_revision c0 → view (entries (c_transcript c0)) !! id = Some k) as Hold.
  { intros id k Hv Hc Hrev. apply Hu; [|done]. by eapply change_untouched. }
  assert (∀ i : N, (∀ id k, view (entries t) !! id = Some k → i ≠ id → revision_of c id ≤ c_revision c0 → view (entries (c_transcript c0)) !! id = Some k) →
    let c' := MkClient (c_agent c) (Some cursor) (c_pending c) (c_rejection c) (<[i := c_revision c + 1]> (c_revisions c)) (c_revision c + 1) (c_snapshots c)
      (tail_changed c) t (welcomed c) in counted c' ∧ unchanged c0 c') as Htouch.
  { intros i Hi. split; [split; [done|]|split; [cbn; lia|]]; cbn.
    - intros id r [[_ <-]|[_ H]]%lookup_insert_Some; [lia|]. specialize (Hle _ _ H). lia.
    - intros id k Hv Hrev. unfold revision_of in Hrev. cbn in Hrev. destruct (decide (i = id)) as [->|Hne]; [rewrite lookup_insert_eq in Hrev; cbn in Hrev; lia|].
      rewrite lookup_insert_ne in Hrev by done. by apply Hi. }
  assert (∀ revs : gmap N N, (∀ id r, revs !! id = Some r → c_revisions c !! id = Some r) →
    (∀ id k, view (entries t) !! id = Some k → revs !! id = c_revisions c !! id) →
    (∀ id k, view (entries t) !! id = Some k → revision_of c id ≤ c_revision c0 → view (entries (c_transcript c0)) !! id = Some k) →
    let c' := MkClient (c_agent c) (Some cursor) (c_pending c) (c_rejection c) revs (c_revision c + 1) (c_snapshots c) (tail_changed c) t (welcomed c) in
    counted c' ∧ unchanged c0 c') as Hsame.
  { intros revs H1 H2 H3. split; [split; [done|]|split; [cbn; lia|]]; cbn.
    - intros id r H. specialize (Hle _ _ (H1 _ _ H)). lia.
    - intros id k Hv Hrev. unfold revision_of in Hrev. cbn in Hrev. rewrite (H2 id k Hv) in Hrev. by apply (H3 id). }
  destruct change as [e|i more|e|b| | | | | | | | | | | | | | |]; cbn [touch]; try (apply Hsame; [done|done|intros j k Hv; by apply Hold]); try (apply Htouch; intros j k Hv Hne; by apply Hold).
  apply Hsame; [by intros id r [H _]%map_lookup_filter_Some| |intros id k Hv; by apply Hold].
  intros id k Hv. destruct (c_revisions c !! id) as [r|] eqn:E; [|by apply map_lookup_filter_None; left].
  apply map_lookup_filter_Some. split; [done|]. cbn. by eapply position_view.
Qed.

Lemma receive_unchanged c0 c m c' b : counted c → unchanged c0 c → (∀ cursor t, m ≠ Snapshot cursor t) → receive c m = Some (c', Ok b) → counted c' ∧ unchanged c0 c'.
Proof.
  intros Hc Hu Hns. destruct m as [a p v|cursor t|change cursor|id rejected|reason]; cbn [receive]; [| by destruct (Hns cursor t) | | |].
  - destruct (negb _); [done|]. intros [= <- _]. by destruct Hc.
  - destruct (negb (welcomed c)); [done|]. destruct (negb _); [done|]. destruct (apply (c_transcript c) change) as [[t [[]|e]]|] eqn:Ha; try done. cbn [mbind option_bind].
    pose proof (touch_unchanged c0 c t change cursor Hc Hu Ha) as Ht. destruct (touch _ _ _ _) as [revs r]. by intros [= <- _].
  - destruct (negb (welcomed c)); [done|]. intros [= <- _]. by destruct Hc.
  - by destruct (negb (welcomed c)).
Qed.

Lemma receive_all_unchanged ms : ∀ c0 c c', counted c → unchanged c0 c → Forall (λ m, ∀ cursor t, m ≠ Snapshot cursor t) ms →
  receive_all c ms = Some (c', None) → counted c' ∧ unchanged c0 c'.
Proof.
  induction ms as [|m ms IH]; intros c0 c c' Hc Hu Hns; cbn [receive_all]; [by intros [= <-]|]. inversion Hns as [|? ? Hm Hms]; subst.
  destruct (receive c m) as [[c1 [b|e]]|] eqn:E; try done. cbn [mbind option_bind]. destruct (receive_unchanged _ _ _ _ _ Hc Hu Hm E) as [H1 H2]. by apply IH.
Qed.

(** *** The latest of a call's steps *)

Definition step_in (c : Client) (m : gmap str N) (e : Entry) : gmap str N :=
  match kind e with
  | ToolEntry tool => match tool_parent tool with
                      | Some parent => <[parent := N.max (default 0 (m !! parent)) (revision_of c (entry_id e))]> m
                      | None => m
                      end
  | _ => m
  end.

Lemma steps_grow c es : ∀ m p, default 0 (m !! p) ≤ default 0 (foldl (step_in c) m es !! p).
Proof.
  induction es as [|e es IH]; intros m p; cbn [foldl]; [lia|]. etrans; [|apply IH]. unfold step_in. destruct (kind e) as [| | | |tool| |]; try lia.
  destruct (tool_parent tool) as [q|]; [|lia]. destruct (decide (q = p)) as [->|]; [rewrite lookup_insert_eq; cbn; lia|by rewrite lookup_insert_ne].
Qed.

Lemma steps_max c es : ∀ m e tool p, e ∈ es → kind e = ToolEntry tool → tool_parent tool = Some p →
  revision_of c (entry_id e) ≤ default 0 (foldl (step_in c) m es !! p).
Proof.
  induction es as [|e' es IH]; intros m e tool p Hin Hk Hp; [by apply not_elem_of_nil in Hin|]. cbn [foldl]. apply elem_of_cons in Hin as [<-|Hin]; [|by eapply IH].
  etrans; [|apply steps_grow]. unfold step_in. rewrite Hk, Hp, lookup_insert_eq. cbn. lia.
Qed.

Lemma steps_bounded c es : counted c → ∀ m, (∀ p r, m !! p = Some r → r ≤ c_revision c) → ∀ p, default 0 (foldl (step_in c) m es !! p) ≤ c_revision c.
Proof.
  intros Hc. induction es as [|e es IH]; intros m Hm p; cbn [foldl]; [destruct (m !! p) eqn:E; cbn; [by eapply Hm|lia]|].
  apply IH. intros q r. unfold step_in. destruct (kind e) as [| | | |tool| |]; try apply Hm. destruct (tool_parent tool) as [q'|]; [|apply Hm].
  intros [[_ <-]|[_ H]]%lookup_insert_Some; [|by eapply Hm]. pose proof (revision_le c (entry_id e) Hc). destruct (m !! q') eqn:E; cbn; [specialize (Hm _ _ E)|]; lia.
Qed.

Lemma key_le c e : counted c → key_of c e ≤ c_revision c.
Proof.
  intros Hc. unfold key_of. pose proof (revision_le c (entry_id e) Hc). destruct (kind e) as [| | | |tool| |]; try lia.
  pose proof (steps_bounded c (entries (c_transcript c)) Hc ∅ (λ p r H, ltac:(by rewrite lookup_empty in H)) (tool_call_id tool)). unfold steps_of. fold (step_in c). lia.
Qed.

(** C29: the rows of a window's list show what the transcript holds. From the
    rows measured for the entries at one time, the edits computed from the keys
    then and now (with no snapshot in between, which starts the list over) leave
    one row for each entry, and a row that is not to be measured again was measured
    for the entry it stands for as it is now; if that is a call, each of its steps
    is as it was then. *)
Theorem rows_current c c' ms sp : counted c → Forall (λ m, ∀ cursor t, m ≠ Snapshot cursor t) ms → receive_all c ms = Some (c', None) →
  splices (keys c) (keys c') = Some sp →
  let rows := foldl splice_rows (Some <$> entries (c_transcript c)) sp in
  length rows = length (entries (c_transcript c')) ∧
  ∀ i e, rows !! i = Some (Some e) → entries (c_transcript c') !! i = Some e ∧
    ∀ tool step st, kind e = ToolEntry tool → step ∈ entries (c_transcript c') → kind step = ToolEntry st → tool_parent st = Some (tool_call_id tool) →
      step ∈ entries (c_transcript c).
Proof.
  intros Hc Hns Hrec Hsp. destruct (receive_all_unchanged ms c c c' Hc) as [Hc' [_ Hu]]; [split; [lia|done]|done|done|].
  destruct (splices_rows (keys c) (keys c') (entries (c_transcript c)) sp) as [H1 H2]; [unfold keys; by rewrite length_fmap|done|].
  split; [rewrite H1; unfold keys; by rewrite length_fmap|]. intros i e Hi. destruct (H2 i e Hi) as (j & k & Hj & Hkj & Hki).
  unfold keys in Hkj, Hki. rewrite list_lookup_fmap, Hj in Hkj. injection Hkj as <-. rewrite list_lookup_fmap in Hki.
  destruct (entries (c_transcript c') !! i) as [e'|] eqn:Ei; [|done]. injection Hki as Eid Ekey.
  pose proof (key_le c e Hc) as Hle. pose proof (wf_order _ (counted_wf _ Hc)) as Ho. pose proof (wf_order _ (counted_wf _ Hc')) as Ho'.
  assert (∀ x : Entry, x ∈ entries (c_transcript c') → revision_of c' (entry_id x) ≤ c_revision c → x ∈ entries (c_transcript c)) as Hsame.
  { intros [idx kx] Hx Hrev. apply view_Some in Hx; [|done]. apply (Hu idx kx Hx) in Hrev. by apply view_Some in Hrev. }
  assert (e' ∈ entries (c_transcript c)) as He'. { apply Hsame; [by eapply list_elem_of_lookup_2|]. assert (revision_of c' (entry_id e') ≤ key_of c' e') by (unfold key_of; lia). lia. }
  assert (e' = e) as ->.
  { destruct e' as [id1 k1], e as [id2 k2]. cbn in Eid. subst id1. f_equal. apply list_elem_of_lookup_2 in Hj. apply view_Some in He'; [|done]. apply view_Some in Hj; [|done]. congruence. }
  split; [done|]. intros tool step st Hk Hin Hks Hps. apply Hsame; [done|].
  pose proof (steps_max c' (entries (c_transcript c')) ∅ step st _ Hin Hks Hps) as Hm.
  assert (default 0 (steps_of c' !! tool_call_id tool) ≤ key_of c' e) by (unfold key_of; rewrite Hk; lia). unfold steps_of in *. fold (step_in c') in *. lia.
Qed.

(** ** A client that knows no activities *)

(** What such a client has of a transcript, of a message, and holds. *)
Definition erase (t : Transcript) : Transcript := set_activities t [].
Definition erase_message (m : ServerMessage) : ServerMessage := match m with Snapshot cursor t => Snapshot cursor (erase t) | _ => m end.
Definition erase_held (st : Held) : Held := match st with Holds cursor t => Holds cursor (erase t) | _ => st end.
Definition knows (m : ServerMessage) : bool := match m with ChangeTo (ActivityChange _) _ => false | _ => true end.

Lemma apply_erase t c : (∀ a, c ≠ ActivityChange a) → apply (erase t) c = (λ x, (erase x.1, x.2)) <$> apply t c.
Proof.
  intros Hc. unfold apply. destruct (answers_refused c); [done|].
  destruct c as [e|i more|e|b| |p|id| | |mode| | | | | | | | |a]; try done; [..|by destruct (Hc a)].
  - change (last_entry_id (erase t)) with (last_entry_id t). destruct (last_entry_id t); [destruct (_ <=? _)|]; done.
  - change (position (erase t) i) with (position t i). destruct (position t i); [|done]. change (entries (erase t)) with (entries t). destruct (entries t !! _); [|done]. cbn. by destruct (append_text _ _).
  - change (position (erase t) (entry_id e)) with (position t (entry_id e)). destruct (position t _); [|done]. change (entries (erase t)) with (entries t). by destruct (entries t !! _).
  - change (entries (erase t)) with (entries t). destruct (_ <? _)%nat; [destruct (_ <=? _)%nat|]; done.
  - change (permissions (erase t)) with (permissions t). by destruct (existsb _ _).
  - change (permissions (erase t)) with (permissions t). by destruct (position_of _ _).
  - change (modes (erase t)) with (modes t). by destruct (modes t).
Qed.

Lemma apply_activity t a t' : apply t (ActivityChange a) = Some (t', Ok tt) → erase t' = erase t ∧ clients t' = clients t.
Proof.
  unfold apply. cbn [answers_refused]. unfold Transcript.record. intros H. repeat (case_match; try done); simplify_eq; done.
Qed.

Lemma apply_clients t c t' : apply t c = Some (t', Ok tt) → clients t' = match c with Clients n => n | _ => clients t end.
Proof.
  destruct c as [e|i more|e|b| |p|id| | |mode| | | | | | | | |a]; intros H; try (by apply apply_activity in H as [_ H]); unfold apply in H; cbn [answers_refused] in H;
    try (by injection H as <-).
  - repeat (case_match; try done); simplify_eq; done.
  - destruct (position t i); [|done]. destruct (entries t !! _); [|done]. cbn in H. destruct (append_text _ _); [|done]. by injection H as <-.
  - repeat (case_match; try done); destruct (entries t !! _); try done; by injection H as <-.
  - repeat (case_match; try done); simplify_eq; done.
  - repeat (case_match; try done); simplify_eq; done.
  - repeat (case_match; try done); simplify_eq; done.
  - repeat (case_match; try done); simplify_eq; done.
Qed.

(** The downgrade knows the count the client holds. *)
Definition knows_count (d : Downgrade) (st : Held) : Prop := match st with Holds _ t => d_clients d = Some (clients t) | Nothing => True | Broken => False end.

Lemma message_follow d st m : is_current d = false → knows_count d st → follow st m ≠ Broken →
  ∃ d' m', message d m = (d', Some m') ∧ is_current d' = false ∧ knows_count d' (follow st m) ∧ knows m' = true ∧
    follow (erase_held st) (erase_message m') = erase_held (follow st m).
Proof.
  intros Hd Hk Hf. unfold message. rewrite Hd. destruct m as [a p v|cursor t|change cursor|id rejected|reason].
  - exists d, (Welcome a p v). cbn in *. destruct (v =? VERSION); [|done]. by split_and!.
  - by eexists _, _.
  - cbn [follow] in Hf. destruct st as [|at_ t|]; try done. destruct (_ && _) eqn:Ef; [|done].
    destruct (apply t change) as [[t' [[]|e]]|] eqn:Ha; try done. cbn [knows_count] in Hk. pose proof (apply_clients _ _ _ Ha) as Hcl.
    assert ((∀ a, change ≠ ActivityChange a) → follow (erase_held (Holds at_ t)) (ChangeTo change cursor) = Holds cursor (erase t')) as Hplain.
    { intros Hna. cbn [follow erase_held]. rewrite Ef, apply_erase, Ha by done. done. }
    destruct change as [e|i more|e|b| |p|id| | |mode| | | |n| | | | |a];
      try (eexists d, _; split; [done|]; cbn [follow]; rewrite Ef, Ha; split_and!; [done|cbn; by rewrite Hcl|done|by apply Hplain]).
    + eexists _, _. split; [done|]. cbn [follow]. rewrite Ef, Ha. split_and!; [done|cbn; by rewrite Hcl|done|by apply Hplain].
    + rewrite Hk. eexists d, _. split; [done|]. destruct (apply_activity _ _ _ Ha) as [E1 E2]. cbn [follow]. rewrite Ef, Ha.
      split_and!; [done|cbn; by rewrite E2|done|]. cbn [erase_message erase_held follow]. rewrite Ef. cbn. rewrite E1. by destruct t.
  - exists d, (Ack id rejected). by split_and!.
  - exists d, (Bye reason). by split_and!.
Qed.

Lemma messages_follow ms : ∀ d st, is_current d = false → knows_count d st → (∀ n, foldl follow st (take n ms) ≠ Broken) →
  ∃ d' ms', messages d ms = (d', ms', true) ∧ length ms' = length ms ∧ Forall (λ m, knows m = true) ms' ∧
    ∀ n, foldl follow (erase_held st) (erase_message <$> take n ms') = erase_held (foldl follow st (take n ms)).
Proof.
  induction ms as [|m ms IH]; intros d st Hd Hk Hf; cbn [messages].
  { exists d, []. split_and!; try done. intros n. by rewrite !take_nil. }
  destruct (message_follow d st m Hd Hk (Hf 1%nat)) as (d1 & m' & -> & Hd1 & Hk1 & Hn & Hst).
  destruct (IH d1 (follow st m) Hd1 Hk1 (λ n, Hf (S n))) as (d2 & ms' & -> & Hl & Hall & Hfs). exists d2, (m' :: ms').
  split_and!; [done|cbn; by rewrite Hl|by constructor|]. intros [|n]; [done|]. cbn [take fmap list_fmap foldl]. rewrite Hst. apply Hfs.
Qed.

Section older.
Context {V : Type} {AJ : AcpJson V} {TJ : Project.TagJson} {W : World} {cfg : Config}.

(** C30: a client of an earlier revision of the protocol, which attaches
    without a cursor, is sent a message for each message of its connection, none
    of them one that it cannot read, and following them it holds at every time the
    transcript of the conversation without the activities it knows nothing of. *)
Theorem older_client_follows id history notices ins : history_ok history →
  ∃ s over, run id history notices ins = Some (s, over) ∧
    ∀ x revision, x ∈ subscribers (feed s) ++ gone (feed s) → held x = None → revision < REVISION →
      ∃ d ms, messages (downgrade_new revision) (outbox x) = (d, ms, true) ∧ length ms = length (outbox x) ∧ Forall (λ m, knows m = true) ms ∧
        ∀ n, foldl follow Nothing (erase_message <$> take n ms) = erase_held (received x (take n (outbox x))) ∧ has_past (feed s) (received x (take n (outbox x))).
Proof.
  intros Hh. destruct (run_told id history notices ins Hh) as ([s over] & E & d & rest & _ & [[[Hok _] _] _]). exists s, over. split; [done|].
  intros x revision Hx Hheld Hrev. pose proof (ok_consistent _ Hok) as Hc. rewrite Forall_forall in Hc. destruct (Hc x Hx) as [_ Hp]. unfold received in *. rewrite Hheld in *.
  destruct (messages_follow (outbox x) (downgrade_new revision) Nothing) as (d' & ms & Em & Hl & Hall & Hf).
  - unfold is_current. cbn. by apply N.leb_gt.
  - done.
  - intros n Eb. specialize (Hp n). cbn in Hp. by rewrite Eb in Hp.
  - exists d', ms. split_and!; [done|done|done|]. intros n. split; [apply Hf|apply Hp].
Qed.
End older.

(** ** A small conversation *)

Lemma window_in_step_witness : ∃ s over, test_run = Some (s, over) ∧
  ∀ x, x ∈ subscribers (feed s) → held x = None → ∃ c', receive_all (begin client_new) (outbox x) = Some (c', None) ∧ c_transcript c' = tr s.
Proof.
  destruct (window_in_step (AJ := said_json) (TJ := no_tags) (W := test_world) (cfg := test_config) 7 test_history [(Info, lit "hi")] test_inputs test_history_ok)
    as (s & over & E & _ & _ & H).
  exists s, over. split; [exact E|]. intros x Hx Hn. destruct (H x client_new) as [_ H2]; [apply elem_of_app; left; exact Hx|intros cu t Hc; rewrite Hn in Hc; discriminate|].
  destruct (H2 Hx) as (c' & H3 & _ & _ & H4). exists c'. exact (conj H3 H4).
Defined.

Lemma older_client_follows_witness : ∃ s over, test_run = Some (s, over) ∧
  ∀ x, x ∈ subscribers (feed s) → held x = None → ∃ d ms, messages (downgrade_new 0) (outbox x) = (d, ms, true).
Proof.
  destruct (older_client_follows (AJ := said_json) (TJ := no_tags) (W := test_world) (cfg := test_config) 7 test_history [(Info, lit "hi")] test_inputs test_history_ok)
    as (s & over & E & H).
  exists s, over. split; [exact E|]. intros x Hx Hn. destruct (H x 0) as (d & ms & Hm & _); [apply elem_of_app; left; exact Hx|exact Hn|reflexivity|]. exists d, ms. exact Hm.
Defined.

Definition said_so_far : Transcript :=
  set_entries (transcript_new (lit "agent")) [MkEntry 1 (User (lit "hi") 0); MkEntry 2 (Agent (lit "Hel"))].
Definition showing : Client := MkClient [] (Some (MkCursor 1 0)) [] None ∅ 0 1 false said_so_far true.
Definition next_said : list ServerMessage :=
  [ChangeTo (Append 2 (lit "lo")) (MkCursor 1 1); ChangeTo (Push (MkEntry 5 (Agent (lit "there")))) (MkCursor 1 2)].
Definition shown_next : Client := match receive_all showing next_said with Some (c, _) => c | None => showing end.

Lemma showing_counted : counted showing.
Proof. split; [|done]. apply wf_set_entries; [apply wf_new|by repeat constructor|by repeat constructor]. Qed.

(** The first row stays, the second is measured again, the third is new. *)
Lemma rows_current_witness : ∃ sp, splices (keys showing) (keys shown_next) = Some sp ∧
  foldl splice_rows (Some <$> entries said_so_far) sp = [Some (MkEntry 1 (User (lit "hi") 0)); None; None] ∧
  length (foldl splice_rows (Some <$> entries said_so_far) sp) = length (entries (c_transcript shown_next)).
Proof.
  exists [MkSplice 1 2 1; MkSplice 2 2 1]. split; [vm_compute; reflexivity|]. split; [vm_compute; reflexivity|].
  apply (rows_current showing shown_next next_said [MkSplice 1 2 1; MkSplice 2 2 1]); [apply showing_counted|by repeat constructor|vm_compute; reflexivity|vm_compute; reflexivity].
Defined.
End ChatClient.
