(* ===== verification/Release.v ===== *)
(** * Release: which update is offered and what is downloaded
    (crates/sheprd-updater/src/release.rs, release/format.rs, release/host.rs,
    release/repository.rs, channel.rs, the rate-limit headers of error.rs and
    [authenticate] of install.rs)

    A check asks GitHub for the newest release of a channel, reads the signed
    manifest attached to it and picks the asset of this platform; a download
    writes that asset while it counts and hashes it. The network, the
    cancellation flag and the clock are the record [Net]: what the n-th look at
    the flag gives, and what a request is answered, given the requests sent
    before it. The state [Io] is what was asked so far. JSON, ed25519, SHA-256
    and the parser of addresses are the class [Trusted]. *)

From Stdlib Require Import NArith ZArith Lia.
From stdpp Require Import base option strings list sets.
From S2P Require Import Prelude.

Local Open Scope N_scope.

Module Release.

Definition MANIFEST_LIMIT : N := 64 * 1024.
Definition ARCHIVE_LIMIT : N := 256 * 1024 * 1024.
Definition METADATA_LIMIT : N := 1024 * 1024.
Definition RELEASE_LIST_LIMIT : N := 4 * 1024 * 1024.
Definition RELEASES_PAGE : str := lit "https://github.com/sheprd-labs/sheprd/releases".
Definition LATEST_URL : str := lit "https://api.github.com/repos/sheprd-labs/sheprd/releases/latest".
Definition RELEASES_URL : str := lit "https://api.github.com/repos/sheprd-labs/sheprd/releases?per_page=10".
Definition HISTORY_URL : str := lit "https://api.github.com/repos/sheprd-labs/sheprd/releases?per_page=20".
Definition HISTORY_LIMIT : N := 12 * 1024 * 1024.
Definition MAX_GROUPED_RELEASES : N := 20.
Definition MAX_GROUPED_LINES : N := 360.
Definition MAX_GROUPED_BYTES : N := 48 * 1024.

(** ** Data *)

Inductive UpdateChannel := Stable | Beta.
#[export] Instance UpdateChannel_eq_dec : EqDecision UpdateChannel.
Proof. solve_decision. Defined.

Record Asset := MkAsset { target : str; name : str; size : N; sha256 : str }.
#[export] Instance Asset_eq_dec : EqDecision Asset.
Proof. solve_decision. Defined.

Record Manifest := MkManifest { schema : N; version : str; assets : list Asset }.
#[export] Instance Manifest_eq_dec : EqDecision Manifest.
Proof. solve_decision. Defined.

Record Offer := MkOffer {
  manifest : Manifest; asset : Asset; manifest_bytes : list N; signature : list N; notes : str }.

(** [ReleaseAsset] and [Release], GitHub's own metadata. *)
Record ReleaseAsset := MkReleaseAsset { asset_name : str; asset_size : N; browser_download_url : str }.
Record Release := MkRelease {
  tag : str; draft : bool; prerelease : bool; release_assets : list ReleaseAsset; body : option str }.

(** The variants of [Error] this part returns; a source error is left out, and a
    reset time is in seconds. *)
Inductive Error :=
| ManifestJson | ReleaseJson | PublicKey | SignatureLength | Signature | Http | HttpStatus (status : N)
| RateLimited (reset : option Z)
| ReadUpdate | ReadArchive | WriteArchive | CreateArchive | SyncArchive | OpenArchive | Cancelled
| InvalidHex | UnsupportedTarget | ManifestSchema | ManifestAssetCount | ManifestAsset | ArchiveSize | ManifestBounds
| ManifestVersion | UntrustedUrl | InvalidRedirect | RedirectLimit | ResponseLimit | MetadataLimit | UnstableRelease
| NoPublishedRelease | ReleaseAssetCount | ReleaseAssetInvalid | CurrentVersion | ReleaseVersion | MissingSignedMetadata
| MissingPackageMetadata | MissingInstallerMetadata | SignedMetadataSize | MissingPlatformAsset | ArchiveMetadata
| ArchiveExceedsSize | ArchiveDigest | OfferAsset | LocalBuild | StaleRequest | UnauthenticatedOffer.
#[export] Instance Error_eq_dec : EqDecision Error.
Proof. solve_decision. Defined.

Abbreviation result := (res Error).

(** What the sources call: serde_json, ed25519_dalek, sha2 and http. An address
    parses to its scheme and its authority. *)
Class Trusted := {
  manifest_of : list N → option Manifest;
  release_of : list N → option Release;
  releases_of : list N → option (list Release);
  key_ok : list N → bool;
  verify_strict : list N → list N → list N → bool;
  digest : list N → list N;
  uri : str → option (option str * option str);
}.

(** ** Text *)

Fixpoint strip_prefix (p s : str) : option str :=
  match p, s with
  | [], _ => Some s
  | c :: p, d :: s => if c =? d then strip_prefix p s else None
  | _ :: _, [] => None
  end.

Definition strip_suffix (p s : str) : option str := reverse <$> strip_prefix (reverse p) (reverse s).

Definition starts_with (p s : str) : bool := is_some (strip_prefix p s).

Fixpoint split_once (c : N) (s : str) : option (str * str) :=
  match s with
  | [] => None
  | d :: s => if c =? d then Some ([], s) else '(a, b) ← split_once c s; Some (d :: a, b)
  end.

(** [replacen(pattern, to, 1)]. *)
Fixpoint replace_first (pattern to s : str) : str :=
  match strip_prefix pattern s with
  | Some rest => to ++ rest
  | None => match s with [] => [] | c :: s => c :: replace_first pattern to s end
  end.

Definition all_digits (s : str) : bool := forallb is_ascii_digit (as_bytes s).

(** ** Versions *)

Definition parse_version (value : str) : option (N * N) :=
  '(date, counter) ← split_once 46 value;
  if negb (str_len date =? 8) || starts_with [48] date || negb (all_digits date)
     || bool_decide (counter = []) || starts_with [48] counter || negb (all_digits counter)
  then None
  else
    date ← parse_uint u64_max date;
    counter ← parse_uint u64_max counter;
    Some (date, counter).

(** The order of pairs. *)
Definition version_lt (a b : N * N) : bool := (a.1 <? b.1) || ((a.1 =? b.1) && (a.2 <? b.2)).

Definition hex_digit (b : N) : result N :=
  if (48 <=? b) && (b <=? 57) then Ok (b - 48)
  else if (97 <=? b) && (b <=? 102) then Ok (b - 97 + 10)
  else Err InvalidHex.

Fixpoint hex_pairs (l : list N) : result (list N) :=
  match l with
  | a :: b :: l => a ← hex_digit a; b ← hex_digit b; rest ← hex_pairs l; Ok (a * 16 + b :: rest)
  | _ => Ok []
  end.

Definition hex32 (value : str) : result (list N) :=
  if negb (str_len value =? 64) then Err InvalidHex else hex_pairs (as_bytes value).

(** ** Formats and names *)

Inductive Os := Windows | Macos | Linux | OtherOs.
Inductive Arch := X86_64 | Aarch64 | OtherArch.

(** [target]: the platform this build is for, from [cfg!]. *)
Record Platform := MkPlatform { os : Os; arch : Arch; gnu : bool }.

Definition platform_target (p : Platform) : option str :=
  match os p, arch p with
  | Windows, X86_64 => Some (lit "x86_64-pc-windows-msvc")
  | Windows, Aarch64 => Some (lit "aarch64-pc-windows-msvc")
  | Macos, _ => Some (lit "universal-apple-darwin")
  | Linux, X86_64 => if gnu p then Some (lit "x86_64-unknown-linux-gnu") else None
  | Linux, Aarch64 => if gnu p then Some (lit "aarch64-unknown-linux-gnu") else None
  | _, _ => None
  end.

Inductive Naming := NamingHerdr | NamingSheprd.

Definition naming_name (n : Naming) (legacy : str) : str :=
  match n with
  | NamingHerdr => legacy
  | NamingSheprd =>
      replace_first (lit "herdr-remote-control-") (lit "sheprd-remote-control-")
        (replace_first (lit "Herdr-") (lit "Sheprd-") (replace_first (lit "herdr-gpui-") (lit "sheprd-") legacy))
  end.

Inductive Format := Archive | Deb | Rpm | ArchPackage | Installer.
#[export] Instance Format_eq_dec : EqDecision Format.
Proof. solve_decision. Defined.

Definition WINDOWS_TARGETS : list str := [lit "x86_64-pc-windows-msvc"; lit "aarch64-pc-windows-msvc"].
Definition LINUX_TARGETS : list str := [lit "x86_64-unknown-linux-gnu"; lit "aarch64-unknown-linux-gnu"].
Definition HOST_TARGETS : list str := [lit "x86_64-unknown-linux-musl"; lit "aarch64-unknown-linux-musl"].
Definition HOST_SCHEMA : N := 4.

Definition archive_name (version target : str) : result str :=
  suffix ←
    if decide (target = lit "universal-apple-darwin") then Ok (lit "macos-universal.app")
    else if decide (target = lit "x86_64-unknown-linux-gnu") then Ok (lit "x86_64-unknown-linux-gnu-update")
    else if decide (target = lit "aarch64-unknown-linux-gnu") then Ok (lit "aarch64-unknown-linux-gnu-update")
    else Err UnsupportedTarget;
  Ok (lit "herdr-gpui-" ++ version ++ lit "-" ++ suffix ++ lit ".tar.gz").

Definition package_name (extension version target : str) : result str :=
  if decide (target ∈ LINUX_TARGETS) then Ok (lit "Herdr-" ++ version ++ lit "-" ++ target ++ lit "." ++ extension)
  else Err UnsupportedTarget.

Definition format_name (f : Format) (version target : str) : result str :=
  match f with
  | Archive => archive_name version target
  | Installer =>
      if decide (target ∈ WINDOWS_TARGETS) then Ok (lit "Herdr-" ++ version ++ lit "-" ++ target ++ lit "-setup.exe")
      else Err UnsupportedTarget
  | Deb => package_name (lit "deb") version target
  | Rpm => package_name (lit "rpm") version target
  | ArchPackage => package_name (lit "pkg.tar.zst") version target
  end.

Definition any_naming (legacy : result str) (name : str) : bool :=
  match legacy with
  | Ok legacy => existsb (λ naming, bool_decide (naming_name naming legacy = name)) [NamingHerdr; NamingSheprd]
  | Err _ => false
  end.

Definition format_accepts (f : Format) (version target name : str) : bool :=
  any_naming (format_name f version target) name.

Definition format_schema (f : Format) : N :=
  match f with Archive => 1 | Deb | Rpm | ArchPackage => 2 | Installer => 3 end.

Definition format_manifest (f : Format) : str * str :=
  match f with
  | Archive => (lit "update-manifest.json", lit "update-manifest.sig")
  | Installer => (lit "windows-manifest.json", lit "windows-manifest.sig")
  | _ => (lit "package-manifest.json", lit "package-manifest.sig")
  end.

Definition select (f : Format) (m : Manifest) (t : str) : result Asset :=
  ok_or MissingPlatformAsset
    (List.find (λ a, bool_decide (target a = t) && format_accepts f (version m) t (name a)) (assets m)).

Definition host_name (version target : str) : result str :=
  if decide (target ∈ HOST_TARGETS) then Ok (lit "herdr-remote-control-" ++ version ++ lit "-" ++ target)
  else Err UnsupportedTarget.

Definition host_accepts (version target name : str) : bool := any_naming (host_name version target) name.

(** ** The signed manifest *)

Definition validate_digest (a : Asset) : result (list N) :=
  if (size a =? 0) || (ARCHIVE_LIMIT <? size a) then Err ArchiveSize else hex32 (sha256 a).

(** The formats of a schema and how many assets it may list. *)
Definition schema_formats (schema : N) : result (list Format * N) :=
  if schema =? 1 then Ok ([Archive], 3)
  else if schema =? 2 then Ok ([Deb; Rpm; ArchPackage], 6)
  else if schema =? 3 then Ok ([Installer], lenN WINDOWS_TARGETS)
  else if schema =? HOST_SCHEMA then Ok ([], lenN HOST_TARGETS)
  else Err ManifestSchema.

Definition valid_name (m : Manifest) (formats : list Format) (a : Asset) : bool :=
  if schema m =? 1 then format_accepts Archive (version m) (target a) (name a)
  else if schema m =? HOST_SCHEMA then host_accepts (version m) (target a) (name a)
  else existsb (λ f, format_accepts f (version m) (target a) (name a)) formats.

(** An earlier asset takes the same name or the same place. *)
Definition same_slot (m : Manifest) (formats : list Format) (a other : Asset) : bool :=
  bool_decide (name other = name a)
  || (bool_decide (target other = target a)
      && (negb (schema m =? 2)
          || existsb (λ f, format_accepts f (version m) (target a) (name a)
                           && format_accepts f (version m) (target other) (name other)) formats)).

Fixpoint validate_assets (m : Manifest) (formats : list Format) (before rest : list Asset) : result unit :=
  match rest with
  | [] => Ok tt
  | a :: rest =>
      if negb (valid_name m formats a) || existsb (same_slot m formats a) before then Err ManifestAsset
      else _ ← validate_digest a; validate_assets m formats (before ++ [a]) rest
  end.

Definition validate_manifest (m : Manifest) : result unit :=
  '(formats, maximum) ← schema_formats (schema m);
  if negb (is_some (parse_version (version m))) then Err ManifestSchema
  else if bool_decide (assets m = []) || (maximum <? lenN (assets m)) then Err ManifestAssetCount
  else validate_assets m formats [] (assets m).

Section trusted.
Context `{Trusted}.

Definition verify_manifest (bytes signature : list N) (key_hex expected_version : str) : result Manifest :=
  if (MANIFEST_LIMIT <? lenN bytes) || negb (is_some (parse_version expected_version)) then Err ManifestBounds
  else
    key ← hex32 key_hex;
    if negb (key_ok key) then Err PublicKey
    else if negb (lenN signature =? 64) then Err SignatureLength
    else if negb (verify_strict key bytes signature) then Err Signature
    else
      m ← ok_or ManifestJson (manifest_of bytes);
      _ ← validate_manifest m;
      if negb (bool_decide (version m = expected_version)) then Err ManifestVersion else Ok m.

(** ** The two approved repositories *)

Definition HOSTS : list str := [lit "api.github.com"; lit "github.com"; lit "release-assets.githubusercontent.com"].

Definition allowed_url (value : str) : bool :=
  match uri value with
  | Some (scheme, authority) =>
      bool_decide (scheme = Some (lit "https"))
      && match authority with Some a => bool_decide (a ∈ HOSTS) | None => false end
      && negb (bool_decide (35 ∈ value))
  | None => false
  end.

Inductive Repository := RepoHerdr | RepoSheprd.
#[local] Instance Repository_eq_dec : EqDecision Repository.
Proof. solve_decision. Defined.

Definition repository_path (r : Repository) : str :=
  match r with RepoHerdr => lit "penso/herdr-gpui" | RepoSheprd => lit "sheprd-labs/sheprd" end.

Definition api_prefix (r : Repository) : str := lit "https://api.github.com/repos/" ++ repository_path r ++ lit "/releases".
Definition download_prefix (r : Repository) : str :=
  lit "https://github.com/" ++ repository_path r ++ lit "/releases/download/v".

Definition asset_url (r : Repository) (version name : str) : str := download_prefix r ++ version ++ lit "/" ++ name.

Inductive Resource := ResMetadata (suffix : str) | ResAsset (version name : str).
#[local] Instance Resource_eq_dec : EqDecision Resource.
Proof. solve_decision. Defined.

Definition resource_url (res : Resource) (r : Repository) : str :=
  match res with ResMetadata suffix => api_prefix r ++ suffix | ResAsset version name => asset_url r version name end.

Definition SUFFIXES : list str := [lit "/latest"; lit "?per_page=10"; lit "?per_page=20"].

(** The bytes of a name that can be an asset's. *)
Definition name_byte (b : N) : bool := is_ascii_alphanumeric b || (b =? 45) || (b =? 95) || (b =? 46).

Definition plain_name (name : str) : bool :=
  negb (bool_decide (name = [])) && (str_len name <=? 255)
  && negb (bool_decide (name = lit ".")) && negb (bool_decide (name = lit ".."))
  && forallb name_byte (as_bytes name).

Definition metadata_resource (r : Repository) (url : str) : option Resource :=
  suffix ← strip_prefix (api_prefix r) url;
  if decide (suffix ∈ SUFFIXES) then Some (ResMetadata suffix) else None.

Definition download_resource (r : Repository) (url : str) : option Resource :=
  rest ← strip_prefix (download_prefix r) url;
  '(version, name) ← split_once 47 rest;
  if is_some (parse_version version) && plain_name name then Some (ResAsset version name) else None.

(** One turn of [resource]'s loop over the repositories. *)
Definition resource_in (r : Repository) (url : str) : option (Repository * Resource) :=
  match metadata_resource r url with
  | Some m => Some (r, m)
  | None => pair r <$> download_resource r url
  end.

Definition resource (url : str) : option (Repository * Resource) :=
  if negb (allowed_url url) then None
  else match resource_in RepoHerdr url with Some found => Some found | None => resource_in RepoSheprd url end.

Definition is_metadata (url : str) : bool :=
  match resource url with Some (_, ResMetadata _) => true | _ => false end.

Definition CDN : str := lit "https://release-assets.githubusercontent.com/".

(** The answer of a moved repository: its number in place of its name. *)
Definition moved_id (suffix next : str) : option str :=
  strip_prefix (lit "https://api.github.com/repositories/") next ≫= strip_suffix (lit "/releases" ++ suffix).

Definition redirect (original next : str) : result str :=
  '(repository, expected) ← ok_or UntrustedUrl (resource original);
  if negb (allowed_url next) then Err UntrustedUrl
  else if bool_decide (snd <$> resource next = Some expected) then Ok next
  else match expected with
       | ResAsset _ _ => if starts_with CDN next then Ok next else Err UntrustedUrl
       | ResMetadata suffix =>
           if bool_decide (repository = RepoHerdr) then
             match moved_id suffix next with
             | Some id =>
                 if negb (bool_decide (id = [])) && all_digits id then Ok (resource_url expected RepoSheprd)
                 else Err UntrustedUrl
             | None => Err UntrustedUrl
             end
           else Err UntrustedUrl
       end.

Definition release_url (version name : str) : str := asset_url RepoSheprd version name.

Definition release_page (version : str) : str :=
  if is_some (parse_version version) then RELEASES_PAGE ++ lit "/tag/v" ++ version else RELEASES_PAGE.

(** ** Requests

    A body is what each read gives: [None] is an error, an empty piece or the end
    of the list is the end of the body. *)

Record Response := MkResponse { status : N; headers : list (str * str); chunks : list (option (list N)) }.

Record Net := MkNet { cancel : nat → bool; answer : list (str * str) → option Response; now : nat → Z }.

Record Io := MkIo { sent : list (str * str); looks : nat }.

Definition M (A : Type) : Type := Io → Io * result A.

Definition io_ok {A} (a : A) : M A := λ io, (io, Ok a).
Definition io_err {A} (e : Error) : M A := λ io, (io, Err e).
Definition io_lift {A} (r : result A) : M A := λ io, (io, r).
Definition io_bind {A B} (m : M A) (k : A → M B) : M B := λ io,
  match m io with (io, Ok a) => k a io | (io, Err e) => (io, Err e) end.
Notation "'let!' x ':=' m 'in' k" := (io_bind m (λ x, k)) (at level 10, x binder, m at level 100, k at level 200).

(** [headers.get(name)]: the first of that name. *)
Definition header (name : str) (hs : list (str * str)) : option str := snd <$> List.find (λ h, bool_decide (h.1 = name)) hs.

Definition i64_of (s : str) : option Z :=
  match s with
  | 45 :: t => match t with
               | [] => None
               | c :: _ => if c =? 43 then None else v ← parse_uint (2 ^ 63) t; Some (- Z.of_N v)%Z
               end
  | _ => Z.of_N <$> parse_uint (2 ^ 63 - 1) s
  end.

Definition header_number (name : str) (hs : list (str * str)) : option Z := v ← header name hs; i64_of (trim v).

Definition quota_exhausted (hs : list (str * str)) : bool :=
  bool_decide (header_number (lit "x-ratelimit-remaining") hs = Some 0%Z) || is_some (header (lit "retry-after") hs).

(** Times are whole seconds, and chrono's range is [time_ok]: about 262 thousand
    years either way. *)
Definition MAX_TIME : Z := 8210266876799.
Definition MIN_TIME : Z := -8334601228800.
Definition time_ok (t : Z) : bool := (MIN_TIME <=? t)%Z && (t <=? MAX_TIME)%Z.
Definition MAX_SECONDS : Z := 9223372036854775.

Definition rate_limit_reset (hs : list (str * str)) (now : Z) : option Z :=
  reset ←
    match (seconds ← header_number (lit "retry-after") hs;
           if (Z.abs seconds <=? MAX_SECONDS)%Z && time_ok (now + seconds) then Some (now + seconds)%Z else None) with
    | Some t => Some t
    | None => epoch ← header_number (lit "x-ratelimit-reset") hs; if time_ok epoch then Some epoch else None
    end;
  if (now <? reset)%Z then Some reset else None.

Definition status_error (status : N) (hs : list (str * str)) (now : Z) : Error :=
  if negb ((status =? 403) || (status =? 429)) || negb (quota_exhausted hs) then HttpStatus status
  else RateLimited (rate_limit_reset hs now).

Definition is_redirect (status : N) : bool := bool_decide (status ∈ [301; 302; 303; 307; 308]).

Section net.
Context (net : Net).

Definition cancelled : M unit := λ io,
  (MkIo (sent io) (S (looks io)), if cancel net (looks io) then Err Cancelled else Ok tt).

(** [agent.get(url)…call()]. *)
Definition send (url accept : str) : M Response := λ io,
  let sent := sent io ++ [(url, accept)] in
  (MkIo sent (looks io), ok_or Http (answer net sent)).

(** [response.headers().get("location")], if it is short enough. *)
Definition location (hs : list (str * str)) : option str :=
  v ← header (lit "location") hs; if str_len v <=? 8192 then Some v else None.

(** The loop of [request_with]; [hops] redirects may still be followed. *)
Fixpoint request_loop (original accept : str) (hops : nat) (url : str) : M Response :=
  let! _ := cancelled in
  if negb (allowed_url url) then io_err UntrustedUrl
  else
    let! response := send url accept in
    if status response =? 200 then io_ok response
    else if is_redirect (status response) then
      match hops with
      | O => io_err RedirectLimit
      | S hops =>
          let! next := io_lift (ok_or InvalidRedirect (location (headers response))) in
          let! url := io_lift (redirect original next) in
          request_loop original accept hops url
      end
    else λ io, (io, Err (status_error (status response) (headers response) (now net (length (sent io))))).

Definition request_exact (original : str) : M Response :=
  let! _ := io_lift (ok_or UntrustedUrl (resource original)) in
  request_loop original
    (if is_metadata original then lit "application/vnd.github+json" else lit "application/octet-stream") 5 original.

(** [repository::fetch]: absence at the old address permits the new one. *)
Definition fetch_moved {A} (fetch : str → M A) (url : str) : M A :=
  let! found := io_lift (ok_or UntrustedUrl (resource url)) in
  λ io,
    match fetch url io with
    | (io, Err (HttpStatus 404)) =>
        if bool_decide (found.1 = RepoHerdr) then fetch (resource_url found.2 RepoSheprd) io else (io, Err (HttpStatus 404))
    | answer => answer
    end.

Definition request (url : str) : M Response := fetch_moved request_exact url.

Fixpoint read_loop (limit : N) (bytes : list N) (chunks : list (option (list N))) : M (list N) :=
  let! _ := cancelled in
  match chunks with
  | None :: _ => io_err ReadUpdate
  | [] | Some [] :: _ => let! _ := cancelled in io_ok bytes
  | Some piece :: chunks =>
      if saturating_sub limit (lenN bytes) <? lenN piece then io_err ResponseLimit
      else read_loop limit (bytes ++ piece) chunks
  end.

Definition read_bounded (chunks : list (option (list N))) (limit : N) : M (list N) := read_loop limit [] chunks.

(** ** GitHub's metadata *)

Definition release_asset_url (r : Release) (name : str) : result str :=
  ok_or MissingSignedMetadata
    (browser_download_url <$> List.find (λ a, bool_decide (asset_name a = name)) (release_assets r)).

Definition bad_asset (version : str) (before : list ReleaseAsset) (a : ReleaseAsset) : bool :=
  bool_decide (asset_name a = []) || (255 <? str_len (asset_name a)) || negb (forallb name_byte (as_bytes (asset_name a)))
  || bool_decide (asset_name a = lit ".") || bool_decide (asset_name a = lit "..")
  || (asset_size a =? 0) || (ARCHIVE_LIMIT <? asset_size a)
  || negb (existsb (λ r, bool_decide (browser_download_url a = asset_url r version (asset_name a))) [RepoHerdr; RepoSheprd])
  || existsb (λ other, bool_decide (asset_name other = asset_name a)) before.

Fixpoint validate_release_assets (version : str) (before rest : list ReleaseAsset) : result unit :=
  match rest with
  | [] => Ok tt
  | a :: rest => if bad_asset version before a then Err ReleaseAssetInvalid else validate_release_assets version (before ++ [a]) rest
  end.

Definition validate_release (r : Release) (channel : UpdateChannel) : result Release :=
  version ← ok_or ReleaseVersion (strip_prefix [118] (tag r));
  if draft r || (prerelease r && bool_decide (channel = Stable)) || negb (is_some (parse_version version)) then Err UnstableRelease
  else if 128 <? lenN (release_assets r) then Err ReleaseAssetCount
  else
    _ ← validate_release_assets version [] (release_assets r);
    Ok (MkRelease version (draft r) (prerelease r) (release_assets r) (body r)).

Definition parse_release (bytes : list N) : result Release :=
  if METADATA_LIMIT <? lenN bytes then Err MetadataLimit
  else r ← ok_or ReleaseJson (release_of bytes); validate_release r Stable.

Definition tag_version (r : Release) : option (N * N) := strip_prefix [118] (tag r) ≫= parse_version.

(** [max_by_key] keeps the last of the greatest. *)
Definition newer (best : option ((N * N) * Release)) (x : (N * N) * Release) : option ((N * N) * Release) :=
  match best with
  | Some b => if version_lt x.1 b.1 then Some b else Some x
  | None => Some x
  end.

Definition candidates (rs : list Release) : list ((N * N) * Release) :=
  omap (λ r, (λ v, (v, r)) <$> tag_version r) (List.filter (λ r, negb (draft r)) rs).

Definition parse_releases (bytes : list N) : result Release :=
  if RELEASE_LIST_LIMIT <? lenN bytes then Err MetadataLimit
  else
    rs ← ok_or ReleaseJson (releases_of bytes);
    newest ← ok_or NoPublishedRelease (foldl newer None (candidates rs));
    validate_release newest.2 Beta.

(** ** Notes of the releases in between *)

Definition Noted : Type := (N * N) * str * str.

(** [trim_start_matches('v')]. *)
Fixpoint trim_v (s : str) : str := match s with 118 :: s => trim_v s | _ => s end.

Definition shown_section (current target : N * N) (channel : UpdateChannel) (r : Release) : option Noted :=
  if draft r || negb (bool_decide (channel = Beta) || negb (prerelease r)) then None
  else
    v ← tag_version r;
    let body := trim (default [] (body r)) in
    if version_lt current v && version_lt v target && negb (bool_decide (body = [])) then Some (v, trim_v (tag r), body) else None.

(** [sort_by_key(Reverse)] is stable: a later one goes after its equals. *)
Fixpoint insert_section (s : Noted) (l : list Noted) : list Noted :=
  match l with
  | [] => [s]
  | t :: l => if version_lt t.1.1 s.1.1 then s :: t :: l else t :: insert_section s l
  end.

Definition sort_sections (l : list Noted) : list Noted := foldl (λ acc s, insert_section s acc) [] l.

Definition section_text (s : Noted) : str := lit "## " ++ s.1.2 ++ [10; 10] ++ s.2.

Fixpoint join_sections (kept : N) (notes : str) (l : list Noted) : N * str :=
  match l with
  | [] => (kept, notes)
  | s :: l =>
      let text := section_text s in
      let lines := lenN (str_lines notes) + lenN (str_lines text) + 2 in
      let bytes := str_len notes + str_len text + 2 in
      let full := (kept =? MAX_GROUPED_RELEASES) || (MAX_GROUPED_LINES <? lines) || (MAX_GROUPED_BYTES <? bytes) in
      if (0 <? kept) && full then (kept, notes)
      else join_sections (kept + 1) (notes ++ (if 0 <? kept then [10; 10] else []) ++ text) l
  end.

Definition history_notes (metadata : list N) (current : N * N) (target : str) (target_body : option str)
    (channel : UpdateChannel) : result (option str) :=
  if HISTORY_LIMIT <? lenN metadata then Err MetadataLimit
  else
    target_version ← ok_or ReleaseVersion (parse_version target);
    rs ← ok_or ReleaseJson (releases_of metadata);
    let others := sort_sections (omap (shown_section current target_version channel) rs) in
    let shown :=
      match trim <$> target_body with
      | Some (c :: t) => (target_version, target, c :: t) :: others
      | _ => others
      end in
    let '(kept, notes) := join_sections 0 [] shown in
    if kept <? 2 then Ok None
    else if kept <? lenN shown then
      Ok (Some (notes ++ [10; 10] ++ lit "> Showing the newest " ++ dec kept ++ lit " releases. [All releases]("
                ++ RELEASES_PAGE ++ lit ")"))
    else Ok (Some notes).

(** ** The check *)

Definition missing_metadata (f : Format) : Error :=
  match f with
  | Archive => MissingSignedMetadata
  | Installer => MissingInstallerMetadata
  | _ => MissingPackageMetadata
  end.

(** One turn over the manifest's and the signature's metadata. *)
Definition signed_metadata (f : Format) (r : Release) (name : str) (limit : N) : result unit :=
  a ← ok_or (missing_metadata f) (List.find (λ a, bool_decide (asset_name a = name)) (release_assets r));
  if (limit <? asset_size a) || (bool_decide (name = (format_manifest f).2) && negb (asset_size a =? 64))
  then Err SignedMetadataSize else Ok tt.

(** [.ok()]: an answer or nothing. *)
Definition io_try {A} (m : M A) : M (option A) := λ io, let '(io, r) := m io in (io, Ok (ok r)).

Definition check_with (current_version key_hex : str) (channel : UpdateChannel) (f : Format) (target : str)
    (fetch : str → N → M (list N)) : M (option Offer) :=
  let fetch url limit := fetch_moved (λ url, fetch url limit) url in
  let! _ := cancelled in
  let! current := io_lift (ok_or CurrentVersion (parse_version current_version)) in
  let! key := io_lift (hex32 key_hex) in
  let! _ := io_lift (refuse_if (negb (key_ok key)) PublicKey) in
  let! metadata := match channel with
                   | Stable => fetch LATEST_URL METADATA_LIMIT
                   | Beta => fetch RELEASES_URL RELEASE_LIST_LIMIT
                   end in
  let! release := io_lift (match channel with Stable => parse_release metadata | Beta => parse_releases metadata end) in
  let! found := io_lift (ok_or ReleaseVersion (parse_version (tag release))) in
  if negb (version_lt current found) then io_ok None
  else
    let '(manifest_name, signature_name) := format_manifest f in
    let! _ := io_lift (signed_metadata f release manifest_name MANIFEST_LIMIT) in
    let! _ := io_lift (signed_metadata f release signature_name 64) in
    let! url := io_lift (release_asset_url release manifest_name) in
    let! manifest_bytes := fetch url MANIFEST_LIMIT in
    let! url := io_lift (release_asset_url release signature_name) in
    let! signature := fetch url 64 in
    let! manifest := io_lift (verify_manifest manifest_bytes signature key_hex (tag release)) in
    let! _ := io_lift (refuse_if (negb (schema manifest =? format_schema f)) ManifestSchema) in
    let! asset := io_lift (select f manifest target) in
    let! _ := io_lift (refuse_if (negb (existsb (λ m, bool_decide (asset_name m = name asset) && (asset_size m =? size asset))
                                    (release_assets release))) ArchiveMetadata) in
    let! _ := cancelled in
    let! listing := io_try (fetch HISTORY_URL HISTORY_LIMIT) in
    let grouped := listing ≫= λ listing, mjoin (ok (history_notes listing current (tag release) (body release) channel)) in
    let! _ := cancelled in
    io_ok (Some (MkOffer manifest asset manifest_bytes signature (default (default [] (body release)) grouped))).

(** What [check] and [download_host_build] pass for transport. *)
Definition fetch_bytes (url : str) (limit : N) : M (list N) :=
  let! response := request_exact url in
  read_bounded (chunks response) limit.

Definition check (platform : Platform) (current_version key_hex : str) (channel : UpdateChannel) (f : Format) : M (option Offer) :=
  match platform_target platform with
  | None => io_ok None
  | Some target => check_with current_version key_hex channel f target fetch_bytes
  end.

(** ** The download *)

(** The file written so far and the progress told. *)
Record Copy := MkCopy { written : list N; told : list (N * N) }.

(** What the file system answers: whether the file is created, whether the n-th
    write and the final sync succeed. *)
Record Disk := MkDisk { create_ok : bool; write_ok : nat → bool; sync_ok : bool }.

Definition copy_end (a : Asset) (expected : list N) (c : Copy) (io : Io) : Io * (Copy * result unit) :=
  if negb (lenN (written c) =? size a) || negb (bool_decide (digest (written c) = expected)) then (io, (c, Err ArchiveDigest))
  else let '(io, r) := cancelled io in (io, (c, r)).

Fixpoint copy_loop (a : Asset) (expected : list N) (disk : Disk) (writes : nat) (c : Copy) (chunks : list (option (list N)))
    (io : Io) : Io * (Copy * result unit) :=
  match cancelled io with
  | (io, Err e) => (io, (c, Err e))
  | (io, Ok _) =>
      match chunks with
      | None :: _ => (io, (c, Err ReadArchive))
      | _ =>
          match cancelled io with
          | (io, Err e) => (io, (c, Err e))
          | (io, Ok _) =>
              match chunks with
              | Some (x :: piece) :: chunks =>
                  if size a - lenN (written c) <? lenN (x :: piece) then (io, (c, Err ArchiveExceedsSize))
                  else if negb (write_ok disk writes) then (io, (c, Err WriteArchive))
                  else
                    let bytes := written c ++ x :: piece in
                    copy_loop a expected disk (S writes) (MkCopy bytes (told c ++ [(lenN bytes, size a)])) chunks io
              | _ => copy_end a expected c io
              end
          end
      end
  end.

Definition copy_archive (chunks : list (option (list N))) (disk : Disk) (a : Asset) (io : Io) : Io * (Copy * result unit) :=
  match validate_digest a with
  | Err e => (io, (MkCopy [] [], Err e))
  | Ok expected =>
      match cancelled io with
      | (io, Err e) => (io, (MkCopy [] [], Err e))
      | (io, Ok _) => copy_loop a expected disk 0 (MkCopy [] [(0, size a)]) chunks io
      end
  end.

(** The end of a download: the file is created, filled and synced. [None] is no
    file. *)
Definition save_archive (chunks : list (option (list N))) (disk : Disk) (a : Asset) (io : Io) : Io * (option Copy * result unit) :=
  if negb (create_ok disk) then (io, (None, Err CreateArchive))
  else
    match copy_archive chunks disk a io with
    | (io, (c, Err e)) => (io, (Some c, Err e))
    | (io, (c, Ok _)) =>
        if negb (sync_ok disk) then (io, (Some c, Err SyncArchive))
        else let '(io, r) := cancelled io in (io, (Some c, r))
    end.

Definition offered_asset (platform : Platform) (o : Offer) : result unit :=
  _ ← validate_manifest (manifest o);
  refuse_if (negb (bool_decide (asset o ∈ assets (manifest o)))
             || negb (bool_decide (Some (target (asset o)) = platform_target platform))) OfferAsset.

Definition download (platform : Platform) (o : Offer) (disk : Disk) (io : Io) : Io * (option Copy * result unit) :=
  let asked :=
    let! _ := cancelled in
    let! _ := io_lift (offered_asset platform o) in
    let! response := request (release_url (version (manifest o)) (name (asset o))) in
    let! _ := cancelled in
    io_ok response in
  match asked io with
  | (io, Err e) => (io, (None, Err e))
  | (io, Ok response) => save_archive (chunks response) disk (asset o) io
  end.

(** [verify_archive]: [None] is a file that cannot be opened. *)
Definition verify_archive (file : option (list (option (list N)))) (a : Asset) (io : Io) : Io * result unit :=
  match cancelled io with
  | (io, Err e) => (io, Err e)
  | (io, Ok _) =>
      match file with
      | None => (io, Err OpenArchive)
      | Some chunks => let '(io, (_, r)) := copy_archive chunks (MkDisk true (λ _, true) true) a io in (io, r)
      end
  end.

(** ** Host builds *)

Definition HOST_MANIFEST : str * str := (lit "host-manifest.json", lit "host-manifest.sig").

Definition host_asset_with (version key_hex target : str) (fetch : str → N → M (list N)) : M Asset :=
  let fetch url limit := fetch_moved (λ url, fetch url limit) url in
  let! _ := io_lift (host_name version target) in
  let! _ := io_lift (ok_or ReleaseVersion (parse_version version)) in
  let! bytes := fetch (release_url version HOST_MANIFEST.1) MANIFEST_LIMIT in
  let! signature := fetch (release_url version HOST_MANIFEST.2) 64 in
  let! manifest := io_lift (verify_manifest bytes signature key_hex version) in
  let! _ := io_lift (refuse_if (negb (schema manifest =? HOST_SCHEMA)) ManifestSchema) in
  io_lift (ok_or MissingPlatformAsset
    (List.find (λ a, bool_decide (Release.target a = target) && host_accepts version target (name a)) (assets manifest))).

Definition release_identity (version : str) (key : option str) : result (str * str) :=
  key ← ok_or LocalBuild key;
  _ ← ok_or LocalBuild (parse_version version);
  Ok (version, key).

Definition download_host_build (app_version : str) (key : option str) (target : str) (disk : Disk) (io : Io) :
    Io * (option Copy * result unit) :=
  let asked :=
    let! id := io_lift (release_identity app_version key) in
    let! a := host_asset_with id.1 id.2 target fetch_bytes in
    let! response := request (release_url id.1 (name a)) in
    io_ok (a, response) in
  match asked io with
  | (io, Err e) => (io, (None, Err e))
  | (io, Ok (a, response)) => save_archive (chunks response) disk a io
  end.
End net.

(** ** The helper's own check (install.rs) *)

Record Request := MkRequest { current_version : str; request_version : str; request_manifest : list N; request_signature : list N }.

(** [None <= Some(_)], as [Option] is ordered. *)
Definition version_after (a b : option (N * N)) : bool :=
  match a, b with
  | Some a, Some b => version_lt b a
  | Some _, None => true
  | None, _ => false
  end.

Definition authenticate (platform : Platform) (app_version : str) (key : option str) (r : Request) : result Offer :=
  if negb (bool_decide (current_version r = app_version)) || negb (is_some (parse_version app_version))
     || negb (version_after (parse_version (request_version r)) (parse_version app_version)) then Err StaleRequest
  else
    key ← ok_or LocalBuild key;
    m ← verify_manifest (request_manifest r) (request_signature r) key (request_version r);
    if negb (schema m =? 1) then Err ManifestSchema
    else
      a ← ok_or MissingPlatformAsset
            (List.find (λ a, bool_decide (Some (target a) = platform_target platform)) (assets m));
      Ok (MkOffer m a (request_manifest r) (request_signature r) []).

Definition same_signed_manifest (a b : Offer) : bool :=
  bool_decide (manifest_bytes a = manifest_bytes b) && bool_decide (signature a = signature b).

(** [prepare]: the request written for the helper must answer for the offer. *)
Definition request_for (app_version : str) (o : Offer) : Request :=
  MkRequest app_version (version (manifest o)) (manifest_bytes o) (signature o).

Definition prepare_offer (platform : Platform) (app_version : str) (key : option str) (o : Offer) : result Offer :=
  authenticated ← authenticate platform app_version key (request_for app_version o);
  if negb (same_signed_manifest authenticated o) then Err UnauthenticatedOffer else Ok authenticated.
End trusted.

(** ** Text and versions *)

Lemma strip_prefix_Some p s r : strip_prefix p s = Some r ↔ s = p ++ r.
Proof.
  revert s. induction p as [|c p IH]; intros s; cbn; [naive_solver|]. destruct s as [|d s]; [done|].
  destruct (N.eqb_spec c d) as [->|Hne]; [rewrite IH|]; naive_solver.
Qed.

Lemma starts_with_true p s : starts_with p s = true ↔ ∃ r, s = p ++ r.
Proof.
  unfold starts_with. destruct (strip_prefix p s) as [r|] eqn:E; cbn.
  - apply strip_prefix_Some in E. naive_solver.
  - split; [done|]. intros [r Hr]. apply strip_prefix_Some in Hr. congruence.
Qed.

Lemma once_split c s a b : split_once c s = Some (a, b) ↔ s = a ++ c :: b ∧ c ∉ a.
Proof.
  revert a. induction s as [|d s IH]; intros a; cbn.
  { split; [done|]. intros [E _]. by destruct a. }
  destruct (N.eqb_spec c d) as [<-|Hne].
  - split; [intros [= <- <-]; split; [done|set_solver]|]. intros [E Ha]. destruct a as [|x a]; [by simplify_eq/=|].
    simplify_eq/=. set_solver.
  - destruct (split_once c s) as [[a' b']|] eqn:E; cbn.
    + split.
      * intros [= <- <-]. destruct (proj1 (IH a') eq_refl) as [-> Ha]. split; [done|set_solver].
      * intros [Es Ha]. destruct a as [|x a]; [by simplify_eq/=|]. injection Es as <- Es.
        assert (Some (a', b') = Some (a, b)) as [= -> ->] by (apply IH; split; [done|set_solver]). done.
    + split; [done|]. intros [Es Ha]. destruct a as [|x a]; [by simplify_eq/=|]. injection Es as <- Es.
      assert (None = Some (a, b)); [|done]. apply IH. split; [done|set_solver].
Qed.

(** A number written without leading zeros is what [dec] writes. *)
Lemma dec_go_snoc fuel s c :
  s ≠ [] → Forall (λ c, is_ascii_digit c = true) (s ++ [c]) → dval 0 s ≠ 0 →
  dec_go (S fuel) (dval 0 (s ++ [c])) [] = dec_go fuel (dval 0 s) [] ++ [c].
Proof.
  intros _ [Hs [Hc _]%Forall_cons]%Forall_app Hn. rewrite dval_app. cbn. apply digit_range in Hc.
  rewrite (N.add_comm _ (c - 48)), N.Div0.mod_add, N.div_add by lia. rewrite N.mod_small, N.div_small, N.add_0_l by lia.
  destruct (N.eqb_spec (dval 0 s) 0) as [|_]; [done|]. rewrite dec_go_app. f_equal. f_equal. lia.
Qed.

Lemma dval_pos s c t : s = c :: t → is_ascii_digit c = true → c ≠ 48 → dval 0 s ≠ 0.
Proof. intros -> Hc Hne. apply digit_range in Hc. change (dval (0 * 10 + (c - 48)) t ≠ 0). pose proof (dval_mono (0 * 10 + (c - 48)) t). lia. Qed.

Lemma dec_go_back fuel s c t :
  s = c :: t → c ≠ 48 → Forall (λ c, is_ascii_digit c = true) s → (length s ≤ fuel)%nat → dec_go fuel (dval 0 s) [] = s.
Proof.
  revert fuel c t. induction s as [|d s IH] using rev_ind; intros fuel c t Es Hc Hd Hl; [done|].
  rewrite length_app in Hl. destruct fuel as [|fuel]; [cbn in Hl; lia|]. destruct s as [|e s].
  - apply Forall_inv, digit_range in Hd. cbn. rewrite N.mod_small, N.div_small by lia. cbn. f_equal. lia.
  - injection Es as -> Es. pose proof Hd as [Hs _]%Forall_app.
    rewrite dec_go_snoc; [|done..|]; [|eapply dval_pos; [done|by apply Forall_inv in Hs|done]].
    f_equal. eapply IH; [done|done|done|cbn in *; lia].
Qed.

Lemma dval_size s c t :
  s = c :: t → is_ascii_digit c = true → c ≠ 48 → N.of_nat (length s) ≤ N.size (dval 0 s) + 1.
Proof.
  intros -> Hc Hne. apply digit_range in Hc. cbn [length].
  assert (∀ acc, acc ≠ 0 → N.size acc + N.of_nat (length t) ≤ N.size (dval acc t)) as Hgo.
  { induction t as [|d t IH]; intros acc Ha; [cbn; lia|]. cbn [dval foldl length]. change (foldl _ ?a t) with (dval a t).
    specialize (IH (acc * 10 + (d - 48)) ltac:(lia)).
    assert (N.size acc + 1 ≤ N.size (acc * 10 + (d - 48))); [|lia].
    rewrite !N.size_log2 by lia. rewrite <- !N.add_1_r. apply N.add_le_mono_r.
    rewrite N.add_1_r, <- N.log2_double by lia. apply N.log2_le_mono. lia. }
  specialize (Hgo (0 * 10 + (c - 48)) ltac:(lia)). change (dval 0 (c :: t)) with (dval (0 * 10 + (c - 48)) t). lia.
Qed.

Lemma dec_digits_back s c t :
  s = c :: t → c ≠ 48 → Forall (λ c, is_ascii_digit c = true) s → dec (dval 0 s) = s.
Proof.
  intros Es Hc Hd. unfold dec. eapply dec_go_back; [done|done|done|].
  pose proof (dval_size s c t Es) as Hsz. rewrite Es in Hd. apply Forall_inv in Hd. specialize (Hsz Hd Hc). lia.
Qed.

Lemma utf8_digits s : forallb is_ascii_digit (as_bytes s) = true → Forall (λ c, is_ascii_digit c = true) s.
Proof.
  induction s as [|c s IH]; [constructor|]. change (as_bytes (c :: s)) with (utf8_char c ++ as_bytes s).
  rewrite forallb_app, andb_true_iff. intros [Hc Hs]. constructor; [|by apply IH]. revert Hc.
  unfold utf8_char. destruct (c <? 128); [cbn [forallb]; by rewrite andb_true_r|].
  assert (∀ x y, 128 ≤ x → is_ascii_digit (x + y) = false) as Hno
    by (intros x y Hx; apply not_true_iff_false; rewrite digit_range; lia).
  destruct (c <? 2048), (c <? 65536); cbn [forallb]; rewrite Hno by done; done.
Qed.

Lemma parse_digits_value max acc s v : parse_digits max acc s = Some v → v = dval acc s.
Proof.
  revert acc. induction s as [|c s IH]; intros acc; cbn [parse_digits]; [by intros [= ->]|].
  destruct (is_ascii_digit c); [|done]. rewrite !bind_Some. intros (a & [-> _]%checked_mul_Some & (b & [-> _]%checked_add_Some & Hb)%bind_Some).
  apply IH in Hb. done.
Qed.

Lemma parse_uint_value max s v : Forall (λ c, is_ascii_digit c = true) s → parse_uint max s = Some v → v = dval 0 s.
Proof.
  intros Hs. unfold parse_uint. destruct s as [|c [|d t]]; [done|..]; apply Forall_inv, digit_range in Hs;
    (rewrite (proj2 (N.eqb_neq c 43)) by lia); apply parse_digits_value.
Qed.

(** A number a version accepts is written in the one way [dec] writes it. *)
Lemma version_number s v :
  s ≠ [] → starts_with [48] s = false → all_digits s = true → parse_uint u64_max s = Some v → s = dec v.
Proof.
  intros Hne Hz Hd Hv. apply utf8_digits in Hd. apply parse_uint_value in Hv as ->; [|done].
  destruct s as [|c t]; [done|]. symmetry. apply (dec_digits_back _ c t); [done| |done].
  intros ->. by apply not_true_iff_false in Hz as []; apply starts_with_true; exists t.
Qed.

(** A version is written in one way, so equal versions are equal texts. *)
Lemma parse_version_canonical s v : parse_version s = Some v → s = dec v.1 ++ 46 :: dec v.2.
Proof.
  unfold parse_version. rewrite bind_Some. intros ([date counter] & [-> _]%once_split & Hv). revert Hv.
  destruct (N.eqb_spec (str_len date) 8) as [Hl|]; [|done]. destruct (starts_with [48] date) eqn:Hz; [done|].
  destruct (all_digits date) eqn:Hd; [|done]. destruct (decide (counter = [])) as [|Hc]; [by rewrite bool_decide_eq_true_2|].
  rewrite bool_decide_eq_false_2 by done. destruct (starts_with [48] counter) eqn:Hz'; [done|].
  destruct (all_digits counter) eqn:Hd'; [|done]. cbn. rewrite bind_Some. intros (d & Hp & (n & Hp' & [= <-])%bind_Some).
  assert (date ≠ []) by (by intros ->). cbn. do 2 f_equal; by apply version_number.
Qed.

Lemma version_injective s t v : parse_version s = Some v → parse_version t = Some v → s = t.
Proof. by intros ->%parse_version_canonical ->%parse_version_canonical. Qed.

Lemma version_lt_irrefl v : version_lt v v = false.
Proof. unfold version_lt. by rewrite !N.ltb_irrefl, andb_false_r. Qed.

Lemma version_lt_trans a b c : version_lt a b = true → version_lt b c = true → version_lt a c = true.
Proof.
  unfold version_lt. rewrite !orb_true_iff, !andb_true_iff, !N.ltb_lt, !N.eqb_eq. lia.
Qed.

Lemma version_lt_total a b : version_lt a b = false → version_lt b a = false → a = b.
Proof.
  destruct a, b. unfold version_lt. cbn. rewrite !orb_false_iff, !andb_false_iff, !N.ltb_ge, !N.eqb_neq. intros. f_equal; lia.
Qed.

(** ** Addresses *)

#[local] Arguments lit : simpl never.
#[local] Arguments api_prefix : simpl never.
#[local] Arguments download_prefix : simpl never.
#[local] Arguments resource : simpl never.
#[local] Arguments resource_in : simpl never.
#[local] Arguments plain_name : simpl never.
#[local] Arguments parse_version : simpl never.

Section addresses.
Context `{Trusted}.

Lemma metadata_resource_url r url x : metadata_resource r url = Some x → resource_url x r = url ∧ ∃ s, x = ResMetadata s ∧ s ∈ SUFFIXES.
Proof.
  unfold metadata_resource. rewrite bind_Some. intros (s & ->%strip_prefix_Some & Hx).
  case_decide as Hs; [|done]. injection Hx as <-. eauto.
Qed.

Lemma download_resource_url r url x :
  download_resource r url = Some x →
  resource_url x r = url ∧ ∃ v n, x = ResAsset v n ∧ is_some (parse_version v) = true ∧ plain_name n = true.
Proof.
  unfold download_resource. rewrite bind_Some. intros (rest & ->%strip_prefix_Some & Hx).
  apply bind_Some in Hx as ([v n] & [-> _]%once_split & Hx). destruct (is_some (parse_version v)) eqn:Hv; [|done].
  destruct (plain_name n) eqn:Hn; [|done]. injection Hx as <-. cbn. split; [done|by eauto].
Qed.

Lemma resource_in_url r r' url x : resource_in r url = Some (r', x) → r' = r ∧ resource_url x r = url.
Proof.
  unfold resource_in. destruct (metadata_resource r url) as [m|] eqn:E.
  - intros [= <- <-]. by apply metadata_resource_url in E as [? _].
  - rewrite fmap_Some. intros (y & Hy & [= -> ->]). by apply download_resource_url in Hy as [? _].
Qed.

(** What [resource] reads from an address writes that address. *)
Lemma resource_exact url r x : resource url = Some (r, x) → resource_url x r = url ∧ allowed_url url = true.
Proof.
  unfold resource. destruct (allowed_url url); [|done]. cbn. destruct (resource_in RepoHerdr url) as [[r' x']|] eqn:E.
  - intros [= <- <-]. by apply resource_in_url in E as [-> ?].
  - intros E'. by apply resource_in_url in E' as [-> ?].
Qed.

(** The resource at the new address is the same one: only its place changed. *)
Lemma resource_readdressed url r x :
  resource url = Some (r, x) → allowed_url (resource_url x RepoSheprd) = true →
  resource (resource_url x RepoSheprd) = Some (RepoSheprd, x).
Proof.
  intros Hr Ha. pose proof Hr as [Hu _]%resource_exact. unfold resource in *. rewrite Ha.
  destruct (allowed_url url); [|done]. cbn [negb] in Hr |- *.
  assert (∃ r', resource_in r' url = Some (r', x)) as [r' Hx].
  { destruct (resource_in RepoHerdr url) as [[q y]|] eqn:E.
    - injection Hr as -> ->. exists r. by pose proof E as [-> _]%resource_in_url.
    - exists r. by pose proof Hr as [-> _]%resource_in_url. }
  clear Hr Hu. unfold resource_in in Hx. destruct (metadata_resource r' url) as [m|] eqn:E; [injection Hx as ->|].
  - apply metadata_resource_url in E as (_ & s & -> & Hs). unfold resource_in. cbn [resource_url].
    assert (strip_prefix (api_prefix RepoHerdr) (api_prefix RepoSheprd ++ s) = None) as H1 by (by vm_compute).
    assert (strip_prefix (download_prefix RepoHerdr) (api_prefix RepoSheprd ++ s) = None) as H2 by (by vm_compute).
    unfold metadata_resource, download_resource. rewrite H1, H2. cbn [mbind option_bind].
    rewrite (proj2 (strip_prefix_Some (api_prefix RepoSheprd) _ s)) by done. cbn. by rewrite decide_True.
  - apply fmap_Some in Hx as (y & Hy & [= ->]). apply download_resource_url in Hy as (_ & v & n & -> & Hv & Hn).
    unfold resource_in.
    assert (∀ r, metadata_resource r (resource_url (ResAsset v n) RepoSheprd) = None) as Hm.
    { intros q. unfold metadata_resource. assert (strip_prefix (api_prefix q) (resource_url (ResAsset v n) RepoSheprd) = None) as ->; [|done]. by destruct q; vm_compute. }
    assert (download_resource RepoHerdr (resource_url (ResAsset v n) RepoSheprd) = None) as Hd.
    { unfold download_resource. assert (strip_prefix (download_prefix RepoHerdr) (resource_url (ResAsset v n) RepoSheprd) = None) as ->; [|done]. by vm_compute. }
    rewrite !Hm, Hd. cbn [resource_url]. unfold asset_url, download_resource.
    rewrite (proj2 (strip_prefix_Some _ _ (v ++ lit "/" ++ n))) by done. change (lit "/" ++ n) with (47 :: n). cbn.
    destruct (parse_version v) as [w|] eqn:Ev; [|done].
    rewrite (proj2 (once_split 47 (v ++ 47 :: n) v n)); [cbn; by rewrite Ev, Hn|]. split; [done|].
    apply parse_version_canonical in Ev as ->. rewrite not_elem_of_app, not_elem_of_cons.
    assert (∀ k, 47 ∉ dec k) as Hno.
    { intros k Hk. pose proof (dec_digits k) as Hd'. rewrite Forall_forall in Hd'. by specialize (Hd' 47 Hk). }
    split; [apply Hno|]. split; [done|apply Hno].
Qed.

(** Where a request for the resource [x] may go: an approved repository's address
    of that very resource, or the store of release assets. *)
Definition approved (x : Resource) (url : str) : Prop :=
  allowed_url url = true ∧
  ((∃ r, resource url = Some (r, x) ∧ url = resource_url x r)
   ∨ (∃ v n, x = ResAsset v n) ∧ ∃ rest, url = CDN ++ rest).

Lemma redirect_approved original r x next url :
  resource original = Some (r, x) → redirect original next = Ok url → allowed_url url = true → approved x url.
Proof.
  intros Hr Hu Ha. split; [done|]. unfold redirect in Hu. rewrite Hr in Hu. cbn in Hu.
  destruct (allowed_url next); [|done]. cbn in Hu. case_bool_decide as Hn.
  { injection Hu as ->. left. apply fmap_Some in Hn as ([q y] & Hq & ->). exists q. by pose proof Hq as [? _]%resource_exact. }
  destruct x as [s|v n].
  - case_bool_decide; [|done]. destruct (moved_id s next) as [id|]; [|done]. destruct (_ && _); [|done].
    assert (url = resource_url (ResMetadata s) RepoSheprd) as -> by congruence. left. exists RepoSheprd. split; [|done]. by eapply resource_readdressed.
  - destruct (starts_with CDN next) eqn:E; [|done]. injection Hu as ->. right. apply starts_with_true in E. eauto.
Qed.

(** ** What is sent *)

Section net.
Context (net : Net).

(** [m] sends at most [n] requests, all of them good. *)
Definition sends {A} (n : nat) (P : str → Prop) (m : M A) : Prop :=
  ∀ io, ∃ new, sent (m io).1 = sent io ++ new ∧ (length new ≤ n)%nat ∧ Forall (λ s, P s.1) new.

Lemma sends_none {A} n P (m : M A) : (∀ io, sent (m io).1 = sent io) → sends n P m.
Proof. intros Hm io. exists []. rewrite Hm, app_nil_r. split; [done|]. split; [cbn; lia|constructor]. Qed.

Lemma sends_bind {A B} n k P (m : M A) (f : A → M B) :
  sends n P m → (∀ a, sends k P (f a)) → sends (n + k) P (io_bind m f).
Proof.
  intros Hm Hf io. unfold io_bind. destruct (Hm io) as (new & Hn & Hl & Hp). destruct (m io) as [io' [a|e]]; cbn in *.
  - destruct (Hf a io') as (new' & Hn' & Hl' & Hp'). exists (new ++ new'). rewrite Hn', Hn, app_assoc.
    split; [done|]. rewrite length_app, Forall_app. split; [lia|done].
  - exists new. split; [done|]. split; [lia|done].
Qed.

Lemma sends_le {A} n k P (m : M A) : sends n P m → (n ≤ k)%nat → sends k P m.
Proof. intros Hm Hk io. destruct (Hm io) as (new & ? & ? & ?). exists new. split; [done|]. split; [lia|done]. Qed.

Lemma sends_weaken {A} n P Q (m : M A) : (∀ u, P u → Q u) → sends n P m → sends n Q m.
Proof.
  intros Hpq Hm io. destruct (Hm io) as (new & ? & ? & Hp). exists new. split; [done|]. split; [done|].
  eapply Forall_impl; [done|]. intros; by apply Hpq.
Qed.

Lemma sends_cancelled P : sends 0 P (cancelled net).
Proof. by apply sends_none. Qed.

Lemma sends_lift {A} P (r : result A) : sends 0 P (io_lift r).
Proof. by apply sends_none. Qed.

Lemma sends_ok {A} P (a : A) : sends 0 P (io_ok a).
Proof. by apply sends_none. Qed.

Lemma sends_err {A} P e : sends 0 P (@io_err A e).
Proof. by apply sends_none. Qed.

Lemma sends_send (P : str → Prop) url accept : P url → sends 1 P (send net url accept).
Proof. intros Hu io. exists [(url, accept)]. by repeat constructor. Qed.

Lemma sends_try {A} n P (m : M A) : sends n P m → sends n P (io_try m).
Proof. intros Hm io. destruct (Hm io) as (new & ?). exists new. unfold io_try. by destruct (m io). Qed.

Lemma request_loop_sends original r x accept hops url :
  resource original = Some (r, x) → (allowed_url url = true → approved x url) →
  sends (S hops) (approved x) (request_loop net original accept hops url).
Proof.
  intros Hr. revert url. induction hops as [|hops IH]; intros url Hu; cbn [request_loop].
  all: apply (sends_bind 0); [apply sends_cancelled|]; intros _.
  all: destruct (allowed_url url) eqn:Ha; cbn [negb]; [|eapply sends_le; [apply sends_err|lia]].
  all: apply (sends_bind 1); [by apply sends_send, Hu|]; intros resp.
  all: destruct (status resp =? 200); [eapply sends_le; [apply sends_ok|lia]|].
  all: destruct (is_redirect (status resp)); [|by apply sends_none].
  - apply sends_err.
  - apply (sends_bind 0); [apply sends_lift|]. intros next io. unfold io_bind, io_lift.
    destruct (redirect original next) as [url'|e] eqn:E.
    + apply (IH url'). intros Ha'. by eapply redirect_approved.
    + by apply (sends_none (S hops) _ (io_err e : M Response)).
Qed.

(** [x] is the resource of [url]. *)
Definition about (url : str) (sent : str) : Prop := ∃ r x, resource url = Some (r, x) ∧ approved x sent.

Lemma request_exact_sends url : sends 6 (about url) (request_exact net url).
Proof.
  unfold request_exact. destruct (resource url) as [[r x]|] eqn:E; cbn [ok_or].
  - apply (sends_weaken 6 (approved x)); [by exists r, x|]. apply (sends_bind 0 6); [apply sends_lift|]. intros _.
    eapply request_loop_sends; [done|].
    pose proof E as [Hu Ha]%resource_exact. intros _. split; [done|]. left. eauto.
  - by apply sends_none.
Qed.

Lemma fetch_moved_sends {A} n url (fetch : str → M A) :
  (∀ u, sends n (about u) (fetch u)) → sends (n + n) (about url) (fetch_moved fetch url).
Proof.
  intros Hf io. unfold fetch_moved, io_bind, io_lift. destruct (resource url) as [[r x]|] eqn:E; cbn; [|by apply (sends_none _ _ (io_err UntrustedUrl : M A))].
  destruct (Hf url io) as (new & Hn & Hl & Hp). destruct (fetch url io) as [io1 res] eqn:Ef.
  assert (∃ l, sent io1 = sent io ++ l ∧ (length l ≤ n + n)%nat ∧ Forall (λ s, about url s.1) l) as Hone
    by (exists new; split; [done|]; split; [lia|done]).
  destruct res as [a|e]; [done|]. destruct e; try done. destruct (decide (status0 = 404)) as [->|]; last first.
  { destruct status0; [done|]. by repeat (destruct p; try done). }
  destruct (bool_decide (r = RepoHerdr)); [|done]. set (moved := resource_url x RepoSheprd).
  destruct (Hf moved io1) as (new' & Hn' & Hl' & Hp'). cbn in Hn. exists (new ++ new').
  split; [by rewrite Hn', Hn, app_assoc|]. rewrite length_app, Forall_app. split; [lia|]. split; [done|].
  eapply Forall_impl; [done|]. intros s (r' & x' & Hr' & Hs). exists r, x. split; [done|].
  pose proof Hr' as [_ Ha']%resource_exact. unfold moved in Hr'.
  rewrite (resource_readdressed _ _ _ E Ha') in Hr'. by injection Hr' as _ <-.
Qed.

Lemma read_loop_sends P limit bytes chunks : sends 0 P (read_loop net limit bytes chunks).
Proof.
  revert bytes. induction chunks as [|[[|c piece]|] chunks IH]; intros bytes; cbn [read_loop];
    apply (sends_bind 0); [apply sends_cancelled|intros _| apply sends_cancelled|intros _|apply sends_cancelled|intros _|apply sends_cancelled|intros _].
  - apply (sends_bind 0); [apply sends_cancelled|]. intros _. apply sends_ok.
  - apply (sends_bind 0); [apply sends_cancelled|]. intros _. apply sends_ok.
  - destruct (_ <? _); [apply sends_err|apply IH].
  - apply sends_err.
Qed.

Lemma fetch_bytes_sends url limit : sends 6 (about url) (fetch_bytes net url limit).
Proof. apply (sends_bind 6 0); [apply request_exact_sends|]. intros resp. apply read_loop_sends. Qed.
End net.
End addresses.

(** ** Signed manifests *)

Lemma validate_assets_ok m formats before rest :
  validate_assets m formats before rest = Ok tt →
  ∀ pre a post, rest = pre ++ a :: post →
    valid_name m formats a = true ∧ existsb (same_slot m formats a) (before ++ pre) = false ∧ ∃ d, validate_digest a = Ok d.
Proof.
  revert before. induction rest as [|b rest IH]; intros before Hv pre a post Hr; [by destruct pre|].
  cbn [validate_assets] in Hv. destruct (valid_name m formats b) eqn:Hn; [|done].
  destruct (existsb _ before) eqn:He; [done|]. cbn in Hv. destruct (validate_digest b) as [d|] eqn:Hd; [|done]. cbn in Hv.
  destruct pre as [|c pre]; injection Hr as <- ->.
  - rewrite app_nil_r. eauto.
  - destruct (IH _ Hv pre a post eq_refl) as (H1 & H2 & H3). by rewrite <- app_assoc in H2.
Qed.

Lemma validate_manifest_ok m :
  validate_manifest m = Ok tt →
  ∃ formats maximum, schema_formats (schema m) = Ok (formats, maximum) ∧ is_some (parse_version (version m)) = true
    ∧ 0 < lenN (assets m) ≤ maximum ∧ validate_assets m formats [] (assets m) = Ok tt.
Proof.
  unfold validate_manifest. destruct (schema_formats (schema m)) as [[formats maximum]|]; [|done]. cbn.
  destruct (is_some _); [|done]. cbn. destruct (bool_decide (assets m = [])) eqn:E; [done|].
  destruct (N.ltb_spec maximum (lenN (assets m))); [done|]. cbn. intros Hv. exists formats, maximum.
  apply bool_decide_eq_false in E. rewrite <- lenN_nil in E. repeat split; [done..|lia|lia|done].
Qed.

(** The assets of a valid manifest that a format takes for a platform. *)
Definition takes (f : Format) (m : Manifest) (t : str) (a : Asset) : Prop :=
  a ∈ assets m ∧ target a = t ∧ format_accepts f (version m) t (name a) = true.

Lemma slot_taken m formats f t a b :
  f ∈ formats → takes f m t a → takes f m t b → same_slot m formats b a = true.
Proof.
  intros Hf (_ & Ha & Haa) (_ & Hb & Hba). unfold same_slot. rewrite Ha, Hb, (bool_decide_eq_true_2 (t = t)) by done.
  apply orb_true_iff. right. cbn. apply orb_true_iff. right. apply existsb_exists. exists f. split; [by apply list_elem_of_In|].
  by rewrite Hba, Haa.
Qed.

Lemma takes_unique m f t a b :
  validate_manifest m = Ok tt → schema m = format_schema f → takes f m t a → takes f m t b → a = b.
Proof.
  intros (formats & maximum & Hs & _ & _ & Hv)%validate_manifest_ok Hf Ha Hb.
  assert (f ∈ formats) as Hin by (rewrite Hf in Hs; destruct f; injection Hs as <- _; set_solver).
  pose proof Ha as (Hae & _). pose proof Hb as (Hbe & _).
  apply list_elem_of_split in Hbe as (pre & post & Hl). rewrite Hl, elem_of_app, elem_of_cons in Hae.
  assert (∀ x y k k', assets m = k ++ x :: k' → y ∈ k → same_slot m formats x y = true → False) as Hno.
  { intros x y k k' Hk Hy Hxy. destruct (validate_assets_ok _ _ _ _ Hv k x k' Hk) as (_ & He & _).
    apply not_true_iff_false in He as []. apply existsb_exists. exists y. split; [by apply list_elem_of_In|done]. }
  destruct Hae as [Hae | [-> | Hae]]; [|done|].
  - exfalso. eapply Hno; [done|done|by eapply slot_taken].
  - exfalso. apply list_elem_of_split in Hae as (k & k' & ->). eapply (Hno a b (pre ++ b :: k) k').
    + by rewrite Hl, <- app_assoc.
    + set_solver.
    + by eapply slot_taken.
Qed.

Lemma find_some {A} (p : A → bool) l a : List.find p l = Some a → a ∈ l ∧ p a = true.
Proof. intros [Hin Hp]%List.find_some. split; [by apply list_elem_of_In|done]. Qed.

Lemma select_ok f m t a :
  validate_manifest m = Ok tt → schema m = format_schema f → select f m t = Ok a → ∀ b, takes f m t b ↔ b = a.
Proof.
  intros Hv Hs Ha. unfold select in Ha. apply ok_or_ok in Ha. apply find_some in Ha as [Hin Hp].
  apply andb_true_iff in Hp as [Ht%bool_decide_eq_true Hp]. intros b. split; [|by intros ->].
  intros Hb. by eapply takes_unique.
Qed.

Lemma find_ext {A} (p q : A → bool) l : (∀ a, a ∈ l → p a = q a) → List.find p l = List.find q l.
Proof.
  induction l as [|a l IH]; intros Hpq; [done|]. cbn. rewrite (Hpq a) by set_solver. destruct (q a); [done|].
  apply IH. intros. apply Hpq. set_solver.
Qed.

(** In a manifest of archives the platform alone names the asset. *)
Lemma archive_by_target m t :
  validate_manifest m = Ok tt → schema m = 1 →
  List.find (λ a, bool_decide (Some (target a) = Some t)) (assets m)
  = List.find (λ a, bool_decide (target a = t) && format_accepts Archive (version m) t (name a)) (assets m).
Proof.
  intros (formats & maximum & _ & _ & _ & Hv)%validate_manifest_ok Hs. apply find_ext. intros a Ha.
  apply list_elem_of_split in Ha as (pre & post & Hl). destruct (validate_assets_ok _ _ _ _ Hv _ _ _ Hl) as (Hn & _ & _).
  unfold valid_name in Hn. rewrite Hs in Hn. cbn in Hn. destruct (decide (target a = t)) as [Ht|Ht].
  - rewrite !bool_decide_eq_true_2 by congruence. by rewrite <- Ht, Hn.
  - rewrite !bool_decide_eq_false_2 by congruence. done.
Qed.

Section trusted_proofs.
Context `{Trusted}.

Lemma verify_manifest_ok bytes signature key_hex v m :
  verify_manifest bytes signature key_hex v = Ok m →
  ∃ key, hex32 key_hex = Ok key ∧ key_ok key = true ∧ verify_strict key bytes signature = true
    ∧ manifest_of bytes = Some m ∧ validate_manifest m = Ok tt ∧ version m = v.
Proof.
  unfold verify_manifest. destruct (_ || _); [done|]. destruct (hex32 key_hex) as [key|]; [|done]. cbn.
  destruct (key_ok key) eqn:Hk; [|done]. cbn. destruct (_ =? 64); [|done]. cbn. destruct (verify_strict _ _ _) eqn:Hs; [|done]. cbn.
  destruct (manifest_of bytes) as [m'|]; [|done]. cbn. destruct (validate_manifest m') as [[]|] eqn:Hv; [|done]. cbn.
  case_bool_decide as He; [|done]. cbn. intros [= ->]. eauto 10.
Qed.

Lemma io_bind_ok {A B} (m : M A) (k : A → M B) io io' b :
  io_bind m k io = (io', Ok b) ↔ ∃ io1 a, m io = (io1, Ok a) ∧ k a io1 = (io', Ok b).
Proof. unfold io_bind. destruct (m io) as [io1 [a|e]]; naive_solver. Qed.

Lemma io_lift_ok {A} (r : result A) io io' a : io_lift r io = (io', Ok a) ↔ io' = io ∧ r = Ok a.
Proof. unfold io_lift. naive_solver. Qed.

Lemma validate_release_ok r ch r' :
  validate_release r ch = Ok r' →
  tag r = 118 :: tag r' ∧ draft r = false ∧ (ch = Stable → prerelease r = false) ∧ is_some (parse_version (tag r')) = true.
Proof.
  unfold validate_release. destruct (strip_prefix [118] (tag r)) as [v|] eqn:E; [|done]. apply strip_prefix_Some in E. cbn.
  destruct (draft r); [done|]. destruct (prerelease r && bool_decide (ch = Stable)) eqn:Ep; [done|].
  destruct (is_some (parse_version v)) eqn:Ev; [|done]. cbn. destruct (128 <? _); [done|].
  destruct (validate_release_assets _ _ _); [|done]. cbn. intros [= <-]. cbn. split; [done|]. split; [done|]. split; [|done].
  intros ->. by rewrite andb_true_r in Ep.
Qed.

(** ** Offers *)

Definition authentic (platform : Platform) (app_version key_hex : str) (f : Format) (o : Offer) : Prop :=
  ∃ t key current new hash,
    platform_target platform = Some t ∧ hex32 key_hex = Ok key ∧ key_ok key = true
    ∧ verify_strict key (manifest_bytes o) (signature o) = true ∧ manifest_of (manifest_bytes o) = Some (manifest o)
    ∧ parse_version app_version = Some current ∧ parse_version (version (manifest o)) = Some new ∧ version_lt current new = true
    ∧ schema (manifest o) = format_schema f ∧ (∀ a, takes f (manifest o) t a ↔ a = asset o)
    ∧ 0 < size (asset o) ≤ ARCHIVE_LIMIT ∧ hex32 (sha256 (asset o)) = Ok hash.

(** What [check_with] found on its way to an offer. *)
Lemma check_with_offer net app_version key_hex ch f t fetch io io' o :
  check_with net app_version key_hex ch f t fetch io = (io', Ok (Some o)) →
  ∃ current v, parse_version app_version = Some current ∧ parse_version (version (manifest o)) = Some v
    ∧ version_lt current v = true
    ∧ verify_manifest (manifest_bytes o) (signature o) key_hex (version (manifest o)) = Ok (manifest o)
    ∧ schema (manifest o) = format_schema f ∧ select f (manifest o) t = Ok (asset o).
Proof.
  unfold check_with. intros (i1 & [] & _ & Hc)%io_bind_ok.
  apply io_bind_ok in Hc as (i2 & current & [-> Hcur]%io_lift_ok & Hc). apply ok_or_ok in Hcur.
  apply io_bind_ok in Hc as (i3 & key & _ & Hc). apply io_bind_ok in Hc as (i4 & u & _ & Hc).
  apply io_bind_ok in Hc as (i5 & metadata & _ & Hc). apply io_bind_ok in Hc as (i6 & r & _ & Hc).
  apply io_bind_ok in Hc as (i7 & v & [-> Hv]%io_lift_ok & Hc). apply ok_or_ok in Hv.
  destruct (version_lt current v) eqn:Hlt; [|done]. cbn [negb] in Hc. destruct (format_manifest f) as [mn sn].
  apply io_bind_ok in Hc as (i8 & u1 & _ & Hc). apply io_bind_ok in Hc as (i9 & u2 & _ & Hc).
  apply io_bind_ok in Hc as (i10 & u3 & _ & Hc). apply io_bind_ok in Hc as (i11 & bytes & _ & Hc).
  apply io_bind_ok in Hc as (i12 & u4 & _ & Hc). apply io_bind_ok in Hc as (i13 & sig & _ & Hc).
  apply io_bind_ok in Hc as (i14 & m & [-> Hm]%io_lift_ok & Hc). apply io_bind_ok in Hc as (i15 & u5 & [-> Hs]%io_lift_ok & Hc).
  apply refuse_if_ok, negb_false_iff, N.eqb_eq in Hs.
  apply io_bind_ok in Hc as (i16 & a & [-> Ha]%io_lift_ok & Hc). apply io_bind_ok in Hc as (i17 & u6 & _ & Hc).
  apply io_bind_ok in Hc as (i18 & u7 & _ & Hc). apply io_bind_ok in Hc as (i19 & l & _ & Hc).
  apply io_bind_ok in Hc as (i20 & u8 & _ & Hc). unfold io_ok in Hc. injection Hc as _ <-. cbn.
  pose proof Hm as (_ & _ & _ & _ & _ & _ & Hmv)%verify_manifest_ok. exists current, v. by rewrite Hmv.
Qed.

Lemma offer_ok net platform app_version key_hex ch f io io' o :
  check net platform app_version key_hex ch f io = (io', Ok (Some o)) → authentic platform app_version key_hex f o.
Proof.
  unfold check. destruct (platform_target platform) as [t|] eqn:Ht; [|done].
  intros (cur & v & Hc & Hv & Hlt & Hm & Hs & Ha)%check_with_offer.
  apply verify_manifest_ok in Hm as (key & Hk & Hko & Hsig & Hof & Hval & _).
  pose proof (select_ok _ _ _ _ Hval Hs Ha) as Ht'. pose proof (proj2 (Ht' (asset o)) eq_refl) as (Hin & _ & _).
  pose proof Hval as (formats & maximum & _ & _ & _ & Hassets)%validate_manifest_ok.
  apply list_elem_of_split in Hin as (pre & post & Hl).
  destruct (validate_assets_ok _ _ _ _ Hassets _ _ _ Hl) as (_ & _ & hash & Hd). unfold validate_digest in Hd.
  destruct (N.eqb_spec (size (asset o)) 0); [done|]. destruct (N.ltb_spec ARCHIVE_LIMIT (size (asset o))); [done|]. cbn in Hd.
  exists t, key, cur, v, hash. repeat (split; [done|]). split; [|done]. split; [lia|done].
Qed.

(** The helper, which sees only the signed material, comes to the same asset. *)
Lemma offer_prepared net platform app_version key_hex ch f io io' o :
  check net platform app_version key_hex ch f io = (io', Ok (Some o)) →
  prepare_offer platform app_version (Some key_hex) o
  = (if decide (f = Archive) then Ok (MkOffer (manifest o) (asset o) (manifest_bytes o) (signature o) []) else Err ManifestSchema).
Proof.
  unfold check. destruct (platform_target platform) as [t|] eqn:Ht; [|done].
  intros (cur & v & Hc & Hv & Hlt & Hm & Hs & Ha)%check_with_offer. unfold prepare_offer, authenticate, request_for. cbn.
  rewrite bool_decide_eq_true_2, Hc, Hv by done. cbn. rewrite Hlt. cbn. rewrite Hm. cbn. rewrite Hs.
  case_decide as Hf; [subst f|by destruct f]. cbn. rewrite Ht.
  pose proof Hm as (_ & _ & _ & _ & _ & Hval & _)%verify_manifest_ok. rewrite archive_by_target by done.
  unfold select in Ha. rewrite Ha. cbn. unfold same_signed_manifest. cbn. by rewrite !bool_decide_eq_true_2.
Qed.

(** ** Requests of a check *)

Definition approved_somewhere (url : str) : Prop := ∃ x, approved x url.

Lemma fetched_sends net url limit :
  sends 12 approved_somewhere (fetch_moved (λ url, fetch_bytes net url limit) url).
Proof.
  apply (sends_weaken 12 (about url)); [intros u (r & x & _ & Hx); by exists x|].
  apply (fetch_moved_sends 6). intros u. apply fetch_bytes_sends.
Qed.

Lemma check_sends net platform app_version key_hex ch f :
  sends 48 approved_somewhere (check net platform app_version key_hex ch f).
Proof.
  unfold check. destruct (platform_target platform) as [t|]; [|by apply sends_none]. unfold check_with.
  apply (sends_bind 0 48); [apply sends_cancelled|intros _]. apply (sends_bind 0 48); [apply sends_lift|intros current].
  apply (sends_bind 0 48); [apply sends_lift|intros key]. apply (sends_bind 0 48); [apply sends_lift|intros _].
  apply (sends_bind 12 36); [destruct ch; apply fetched_sends|intros metadata].
  apply (sends_bind 0 36); [apply sends_lift|intros r]. apply (sends_bind 0 36); [apply sends_lift|intros v].
  destruct (negb _); [by apply sends_none|]. destruct (format_manifest f) as [mn sn].
  apply (sends_bind 0 36); [apply sends_lift|intros _]. apply (sends_bind 0 36); [apply sends_lift|intros _].
  apply (sends_bind 0 36); [apply sends_lift|intros u]. apply (sends_bind 12 24); [apply fetched_sends|intros bytes].
  apply (sends_bind 0 24); [apply sends_lift|intros u']. apply (sends_bind 12 12); [apply fetched_sends|intros sig].
  apply (sends_bind 0 12); [apply sends_lift|intros m]. apply (sends_bind 0 12); [apply sends_lift|intros _].
  apply (sends_bind 0 12); [apply sends_lift|intros a]. apply (sends_bind 0 12); [apply sends_lift|intros _].
  apply (sends_bind 0 12); [apply sends_cancelled|intros _].
  apply (sends_bind 12 0); [apply sends_try, fetched_sends|intros l].
  apply (sends_bind 0 0); [apply sends_cancelled|intros _]. apply sends_ok.
Qed.
End trusted_proofs.

(** ** Downloads *)

Section downloads.
Context `{Trusted} (net : Net).

(** A copy in progress: never more than the signed size, and only what the body
    held, in order. *)
Definition copied (a : Asset) (body : list (option (list N))) (c : Copy) : Prop :=
  lenN (written c) ≤ size a ∧ written c `prefix_of` concat (omap id body)
  ∧ Forall (λ p, p.1 ≤ p.2 ∧ p.2 = size a) (told c).

Lemma copied_more a body c x :
  copied a body c → lenN x ≤ size a - lenN (written c) → written c ++ x `prefix_of` concat (omap id body) →
  copied a body (MkCopy (written c ++ x) (told c ++ [(lenN (written c ++ x), size a)])).
Proof.
  intros (Hs & _ & Ht) Hx Hp. split; [cbn; rewrite lenN_app; lia|]. split; [done|]. cbn.
  apply Forall_app. split; [done|]. constructor; [|constructor]. cbn. rewrite lenN_app. lia.
Qed.

Lemma copy_loop_spec a hash disk body chunks writes c io :
  copied a body c → written c ++ concat (omap id chunks) `prefix_of` concat (omap id body) →
  match copy_loop net a hash disk writes c chunks io with
  | (io', (c', r)) => sent io' = sent io ∧ copied a body c' ∧ (r = Ok tt → lenN (written c') = size a ∧ digest (written c') = hash)
  end.
Proof.
  revert writes c io. induction chunks as [|[[|x piece]|] chunks IH]; intros writes c io Hc Hp; cbn [copy_loop];
    unfold cancelled at 1; destruct (cancel net (looks io)); try done.
  1,2: unfold cancelled; cbn [looks sent]; destruct (cancel net (S (looks io))); [done|]; unfold copy_end, cancelled;
    cbn [looks sent]; destruct (N.eqb_spec (lenN (written c)) (size a)); [|done]; case_bool_decide; [|done]; cbn;
    by destruct (cancel net _).
  unfold cancelled; cbn [looks sent]; destruct (cancel net (S (looks io))); [done|].
  destruct (N.ltb_spec (size a - lenN (written c)) (lenN (x :: piece))) as [|Hle]; [done|]. destruct (write_ok disk writes); [|done].
  change (concat (omap id (Some (x :: piece) :: chunks))) with ((x :: piece) ++ concat (omap id chunks)) in Hp.
  rewrite app_assoc in Hp. cbn [negb]. apply (IH (S writes) _ (MkIo (sent io) (S (S (looks io))))); [|done].
  apply copied_more; [done..|]. etrans; [|done]. by apply prefix_app_r.
Qed.

Lemma copy_archive_spec a disk body io :
  match copy_archive net body disk a io with
  | (io', (c, r)) =>
      sent io' = sent io ∧ copied a body c ∧ (r = Ok tt → lenN (written c) = size a ∧ hex32 (sha256 a) = Ok (digest (written c)))
  end.
Proof.
  assert (copied a body (MkCopy [] [])) as H0 by (split; [apply N.le_0_l|]; split; [apply prefix_nil|constructor]).
  unfold copy_archive. destruct (validate_digest a) as [hash|e] eqn:Hd; [|done]. unfold cancelled.
  destruct (cancel net (looks io)); [done|].
  pose proof (copy_loop_spec a hash disk body body 0 (MkCopy [] [(0, size a)]) (MkIo (sent io) (S (looks io)))) as Hl.
  destruct (copy_loop _ _ _ _ _ _ _ _) as [io' [c r]]. destruct Hl as (Hs & Hc & Hr); [|done|].
  { split; [apply N.le_0_l|]. split; [apply prefix_nil|]. constructor; [|constructor]. split; [apply N.le_0_l|done]. }
  split; [done|]. split; [done|]. intros Hok. destruct (Hr Hok) as [? ->]. split; [done|].
  unfold validate_digest in Hd. by destruct (_ || _).
Qed.

Lemma save_archive_spec a disk body io :
  match save_archive net body disk a io with
  | (io', (file, r)) =>
      sent io' = sent io ∧ (∀ c, file = Some c → copied a body c)
      ∧ (r = Ok tt → ∃ c, file = Some c ∧ lenN (written c) = size a ∧ hex32 (sha256 a) = Ok (digest (written c)))
  end.
Proof.
  unfold save_archive. destruct (create_ok disk); [|done]. cbn. pose proof (copy_archive_spec a disk body io) as Hc.
  destruct (copy_archive _ _ _ _ _) as [io' [c [[]|e]]]; destruct Hc as (Hs & Hc & Hr).
  - specialize (Hr eq_refl). destruct (sync_ok disk); cbn; [|naive_solver]. unfold cancelled.
    split; [done|]. split; [by intros ? [= <-]|]. intros _. eauto.
  - naive_solver.
Qed.

Lemma request_sends url : sends 12 (about url) (request net url).
Proof. apply (fetch_moved_sends 6). intros. apply request_exact_sends. Qed.

(** What a request gives back is the network's answer to the last thing it sent. *)
Definition answered (io : Io) (r : Response) : Prop := answer net (sent io) = Some r ∧ status r = 200.

Lemma cancelled_sent io io' u : cancelled net io = (io', Ok u) → sent io' = sent io.
Proof. unfold cancelled. by intros [= <- _]. Qed.

Lemma request_loop_answered original accept hops url io io' r :
  request_loop net original accept hops url io = (io', Ok r) → answered io' r.
Proof.
  revert url io. induction hops as [|hops IH]; intros url io; cbn [request_loop]; intros (i1 & u & _ & Hc)%io_bind_ok;
    (destruct (allowed_url url); [cbn [negb] in Hc|done]);
    apply io_bind_ok in Hc as (i2 & response & Hsend & Hc); unfold send in Hsend; injection Hsend as <- Ha; apply ok_or_ok in Ha;
    (destruct (N.eqb_spec (status response) 200); [unfold io_ok in Hc; injection Hc as <- <-; by split|]);
    (destruct (is_redirect (status response)); [|done]); [done|].
  apply io_bind_ok in Hc as (i3 & next & _ & Hc). apply io_bind_ok in Hc as (i4 & url' & _ & Hc). by eapply IH.
Qed.

Lemma request_answered url io io' r : request net url io = (io', Ok r) → answered io' r.
Proof.
  assert (∀ u i i', request_exact net u i = (i', Ok r) → answered i' r) as Hx.
  { intros u i i'. unfold request_exact. intros (i1 & x & _ & Hc)%io_bind_ok. by eapply request_loop_answered. }
  unfold request, fetch_moved. intros (i1 & found & _ & Hc)%io_bind_ok.
  destruct (request_exact net url i1) as [i2 [r'|e]] eqn:E; [injection Hc as <- <-; by eapply Hx|].
  destruct e; try done. destruct (decide (status0 = 404)) as [->|]; last first.
  { destruct status0; [done|]. by repeat (destruct p; try done). }
  destruct (bool_decide _); [by eapply Hx|done].
Qed.

(** A staged archive passes the second check only with the signed bytes. *)
Lemma verify_archive_ok body a io io' :
  verify_archive net (Some body) a io = (io', Ok tt) →
  ∃ c, copied a body c ∧ lenN (written c) = size a ∧ hex32 (sha256 a) = Ok (digest (written c)).
Proof.
  unfold verify_archive, cancelled. destruct (cancel net (looks io)); [done|].
  pose proof (copy_archive_spec a (MkDisk true (λ _, true) true) body (MkIo (sent io) (S (looks io)))) as Hc.
  destruct (copy_archive _ _ _ _ _) as [i [c r]]. destruct Hc as (_ & Hc & Hr). intros [= _ ->]. eauto.
Qed.

(** ** The newest of a listing *)

Lemma newer_folds best l :
  (∀ b, best = Some b → ∃ x, foldl newer best l = Some x ∧ version_lt x.1 b.1 = false)
  ∧ ∀ y, y ∈ l → ∃ x, foldl newer best l = Some x ∧ version_lt x.1 y.1 = false.
Proof.
  revert best. induction l as [|y l IH]; intros best; cbn.
  { split; [|set_solver]. intros b ->. exists b. split; [done|apply version_lt_irrefl]. }
  destruct (IH (newer best y)) as [Hb Hl]. split.
  - intros b ->. cbn in *. destruct (version_lt y.1 b.1) eqn:E; [by apply Hb|].
    destruct (Hb y eq_refl) as (x & Hx & Hlt). exists x. split; [done|]. apply not_true_iff_false. intros Hxb.
    destruct (version_lt b.1 y.1) eqn:E'; [by rewrite (version_lt_trans _ _ _ Hxb E') in Hlt|].
    rewrite (version_lt_total _ _ E E') in Hlt. congruence.
  - intros z [->|Hz]%elem_of_cons; [|by apply Hl]. destruct best as [b|]; cbn in *; [|by apply Hb].
    destruct (version_lt y.1 b.1) eqn:E; [|by apply Hb]. destruct (Hb b eq_refl) as (x & Hx & Hlt). exists x. split; [done|].
    apply not_true_iff_false. intros Hxy. by rewrite (version_lt_trans _ _ _ Hxy E) in Hlt.
Qed.

(** The beta channel takes the highest version listed, wherever it is listed. *)
Lemma newest_highest bytes rs r :
  releases_of bytes = Some rs → parse_releases bytes = Ok r →
  ∃ v, parse_version (tag r) = Some v ∧ ∀ q w, q ∈ rs → draft q = false → tag_version q = Some w → version_lt v w = false.
Proof.
  unfold parse_releases. destruct (_ <? _); [done|]. intros ->. cbn. destruct (foldl newer None (candidates rs)) as [[v r0]|] eqn:E; [|done].
  cbn. intros Hr. pose proof Hr as (Ht & _ & _ & Hv)%validate_release_ok.
  assert ((v, r0) ∈ candidates rs) as Hin.
  { clear Hr Ht Hv. assert (∀ l best x, foldl newer best l = Some x → best = Some x ∨ x ∈ l) as Hgo.
    { induction l as [|y l IH]; intros best x Hx; cbn in Hx; [by left|]. apply IH in Hx as [Hx|]; [|right; set_solver].
      destruct best as [b|]; cbn in Hx; [destruct (version_lt _ _)|]; injection Hx as ->; set_solver. }
    by apply Hgo in E as [|]. }
  unfold candidates in Hin. apply list_elem_of_omap in Hin as (r1 & _ & Hv1). apply fmap_Some in Hv1 as (v1 & Hv1 & [= -> ->]).
  unfold tag_version in Hv1. rewrite Ht in Hv1. cbn in Hv1. exists v1. split; [done|].
  intros q w Hq Hd Hw. change (tag_version q = Some w) in Hw. destruct (proj2 (newer_folds None (candidates rs)) (w, q)) as (x & Hx & Hlt).
  { apply list_elem_of_omap. exists q. rewrite Hw. split; [|done]. apply list_elem_of_In, List.filter_In.
    split; [by apply list_elem_of_In|by rewrite Hd]. }
  rewrite E in Hx. by injection Hx as <-.
Qed.
End downloads.

(** ** Notes that fit the dialog *)

Definition newlines (s : str) : nat := length (filter (λ c, c = 10) s).

Lemma split_pieces s : length (split_on (λ c, c =? 10) s) = S (newlines s).
Proof.
  induction s as [|c s IH]; [done|]. cbn [split_on]. unfold newlines in *. rewrite filter_cons.
  destruct (N.eqb_spec c 10) as [->|Hne].
  - rewrite decide_True by done. cbn [length]. by rewrite IH.
  - rewrite decide_False by done. destruct (split_on _ s) as [|p ps]; [done|]. cbn [length] in *. by rewrite IH.
Qed.

Lemma ended_lines_length pieces :
  (length (ended_lines pieces) ≤ length pieces ≤ S (length (ended_lines pieces)))%nat.
Proof.
  induction pieces as [|p [|q ps] IH]; [cbn; lia|cbn; case_bool_decide; cbn; lia|].
  change (ended_lines (p :: q :: ps)) with (strip_cr p :: ended_lines (q :: ps)). cbn [length] in *. lia.
Qed.

Lemma lines_newlines s : (newlines s ≤ length (str_lines s) ≤ S (newlines s))%nat.
Proof. unfold str_lines. pose proof (ended_lines_length (split_on (λ c, c =? 10) s)) as Hl. rewrite split_pieces in Hl. lia. Qed.

Lemma newlines_app a b : newlines (a ++ b) = (newlines a + newlines b)%nat.
Proof. unfold newlines. by rewrite filter_app, length_app. Qed.

Lemma ended_lines_app a b : b ≠ [] → length (ended_lines (a ++ b)) = (length a + length (ended_lines b))%nat.
Proof.
  intros Hb. induction a as [|p a IH]; [done|]. cbn [app].
  destruct (a ++ b) as [|q ps] eqn:E; [by apply app_nil in E as [_ ->]|].
  change (ended_lines (p :: q :: ps)) with (strip_cr p :: ended_lines (q :: ps)). cbn [length]. by rewrite IH.
Qed.

Lemma split_nonempty s : split_on (λ c, c =? 10) s ≠ [].
Proof. intros E. pose proof (split_pieces s) as Hs. by rewrite E in Hs. Qed.

Lemma split_on_newline a b :
  ∃ k, split_on (λ c, c =? 10) (a ++ 10 :: b) = k ++ split_on (λ c, c =? 10) b ∧ length k = S (newlines a).
Proof.
  induction a as [|c a (k & Hk & Hl)]; [by exists [[]]|]. cbn [app split_on]. unfold newlines in *. rewrite filter_cons, Hk.
  destruct (N.eqb_spec c 10) as [->|Hne].
  - rewrite decide_True by done. exists ([] :: k). cbn. by rewrite Hl.
  - rewrite decide_False by done. destruct k as [|p k]; [done|]. by exists ((c :: p) :: k).
Qed.

Lemma lines_joined (a b : str) : (length (str_lines (a ++ [10%N; 10%N] ++ b)) ≤ length (str_lines a) + 2 + length (str_lines b))%nat.
Proof.
  change (a ++ [10; 10] ++ b) with (a ++ 10 :: 10 :: b). unfold str_lines at 1.
  destruct (split_on_newline a (10 :: b)) as (k & -> & Hk). destruct (split_on_newline [] b) as (k' & Hb & Hk').
  cbn [app] in Hb. rewrite Hb, app_assoc, ended_lines_app by apply split_nonempty.
  change (ended_lines (split_on (λ c, c =? 10) b)) with (str_lines b). rewrite length_app, Hk, Hk'.
  pose proof (lines_newlines a). change (newlines []) with 0%nat. lia.
Qed.

(** Beyond the first, a release is added only while the whole fits. *)
Lemma join_sections_fit l kept notes kept' notes' :
  join_sections kept notes l = (kept', notes') →
  kept ≤ kept' ∧ (kept ≤ MAX_GROUPED_RELEASES → kept' ≤ N.max 1 MAX_GROUPED_RELEASES)
  ∧ (kept' = kept ∧ notes' = notes ∨ kept' = 1
     ∨ lenN (str_lines notes') ≤ MAX_GROUPED_LINES ∧ str_len notes' ≤ MAX_GROUPED_BYTES).
Proof.
  revert kept notes. induction l as [|s l IH]; intros kept notes; cbn [join_sections].
  { intros [= <- <-]. split; [lia|]. split; [unfold MAX_GROUPED_RELEASES; lia|]. by left. }
  destruct (N.ltb_spec 0 kept) as [Hk|Hk]; cbn [andb].
  2: { intros (H1 & H2 & H3)%IH. split; [lia|]. split; [intros; apply H2; unfold MAX_GROUPED_RELEASES; lia|].
       right. destruct H3 as [[? _]|H3]; [left; lia|done]. }
  destruct (N.eqb_spec kept MAX_GROUPED_RELEASES) as [Hf|Hf]; cbn [orb].
  { intros [= <- <-]. split; [lia|]. split; [lia|]. by left. }
  destruct (N.ltb_spec MAX_GROUPED_LINES (lenN (str_lines notes) + lenN (str_lines (section_text s)) + 2)) as [|Hl]; cbn [orb].
  { intros [= <- <-]. split; [lia|]. split; [lia|]. by left. }
  destruct (N.ltb_spec MAX_GROUPED_BYTES (str_len notes + str_len (section_text s) + 2)) as [|Hb].
  { intros [= <- <-]. split; [lia|]. split; [lia|]. by left. }
  intros (H1 & H2 & H3)%IH. split; [lia|]. split; [intros; apply H2; lia|]. right.
  destruct H3 as [[-> ->]|H3]; [|done]. right. rewrite !str_len_app. change (str_len [10; 10]) with 2.
  pose proof (lines_joined notes (section_text s)). unfold lenN in *. split; lia.
Qed.

(** ** A release on a site *)

Module Site.
Definition fill (n : nat) (c : N) : str := replicate n c.
Definition key : str := fill 64 48.
Definition app_version : str := lit "20260930.1".
Definition platform : Platform := MkPlatform Linux X86_64 true.
Definition file : Asset :=
  MkAsset (lit "x86_64-unknown-linux-gnu") (lit "sheprd-20261001.2-x86_64-unknown-linux-gnu-update.tar.gz") 3
    (concat (replicate 32 (lit "03"))).
Definition mac : Asset :=
  MkAsset (lit "universal-apple-darwin") (lit "herdr-gpui-20261001.2-macos-universal.app.tar.gz") 5 (fill 64 49).
Definition signed : Manifest := MkManifest 1 (lit "20261001.2") [mac; file].

Definition listed (name : str) (size : N) : ReleaseAsset :=
  MkReleaseAsset name size (asset_url RepoSheprd (lit "20261001.2") name).
Definition latest : Release :=
  MkRelease (lit "v20261001.2") false false
    [listed (lit "update-manifest.json") 1; listed (lit "update-manifest.sig") 64; listed (name file) 3] (Some (lit "Fixes")).

(** [https://host/path], read as far as its host. *)
Definition read_uri (s : str) : option (option str * option str) :=
  rest ← strip_prefix (lit "https://") s;
  match split_once 47 rest with Some (host, _) => Some (Some (lit "https"), Some host) | None => None end.

#[export] Instance site : Trusted := {|
  manifest_of b := if decide (b = [1]) then Some signed else None;
  release_of b := if decide (b = [2]) then Some latest else None;
  releases_of b := if decide (b = [3]) then Some [latest] else None;
  key_ok _ := true;
  verify_strict _ _ s := bool_decide (s = fill 64 7);
  digest b := fill 32 (lenN b);
  uri := read_uri |}.

Definition page (url : str) : option (list N) :=
  if decide (url = LATEST_URL) then Some [2]
  else if decide (url = HISTORY_URL) then Some [3]
  else if decide (url = release_url (lit "20261001.2") (lit "update-manifest.json")) then Some [1]
  else if decide (url = release_url (lit "20261001.2") (lit "update-manifest.sig")) then Some (fill 64 7)
  else if decide (url = CDN ++ lit "f?sig=1") then Some [9; 9; 9]
  else None.

(** The file is behind a redirect. *)
Definition net : Net := MkNet (λ _, false) (λ sent,
  url ← fst <$> last sent;
  if decide (url = release_url (lit "20261001.2") (name file)) then Some (MkResponse 302 [(lit "location", CDN ++ lit "f?sig=1")] [])
  else Some (match page url with
             | Some body => MkResponse 200 [] [Some body]
             | None => MkResponse 404 [] []
             end)) (λ _, 0%Z).

Definition offer : Offer := MkOffer signed file [1] (fill 64 7) (lit "Fixes").
Definition disk : Disk := MkDisk true (λ _, true) true.

Example offered : (check net platform app_version key Stable Archive (MkIo [] 0)).2 = Ok (Some offer).
Proof. vm_compute. reflexivity. Qed.

Example downloaded : (download net platform offer disk (MkIo [] 0)).2 = (Some (MkCopy [9; 9; 9] [(0, 3); (3, 3)]), Ok tt).
Proof. vm_compute. reflexivity. Qed.
End Site.

(** C7: Whatever the network answers, an offered update is newer than this
    build, carries a manifest signed by the embedded key, and its asset is the
    only one of that manifest for this platform and format, with a size and a
    digest within bounds; the check asks at most 48 times, and only at approved
    addresses. Of an archive, the helper that installs it, which sees only the
    signed material, comes to the same asset; an offer of a package or of the
    Windows installer, which are not installed by it, it refuses. *)
Theorem offer_authentic `{Trusted} net platform app_version key_hex ch f io io' o :
  check net platform app_version key_hex ch f io = (io', Ok (Some o)) →
  authentic platform app_version key_hex f o
  ∧ prepare_offer platform app_version (Some key_hex) o
    = (if decide (f = Archive) then Ok (MkOffer (manifest o) (asset o) (manifest_bytes o) (signature o) []) else Err ManifestSchema)
  ∧ ∃ new, sent io' = sent io ++ new ∧ (length new ≤ 48)%nat ∧ Forall (λ s, approved_somewhere s.1) new.
Proof.
  intros Hc. split; [by eapply offer_ok|]. split; [by eapply offer_prepared|].
  pose proof (check_sends net platform app_version key_hex ch f io) as Hs. by rewrite Hc in Hs.
Qed.

(** C21: Whatever the network and the disk answer, a download writes no more
    than the signed size, and only the bytes, from the first one and in order, of the
    network's answer to its last request; it asks only for that asset at approved
    addresses, and succeeds only with a file of the signed size and digest of this
    platform's asset. *)
Theorem download_verified `{Trusted} net platform o disk io io' file r :
  download net platform o disk io = (io', (file, r)) →
  (∀ c, file = Some c → lenN (written c) ≤ size (asset o) ∧ Forall (λ p, p.1 ≤ p.2) (told c)
     ∧ ∃ response, answer net (sent io') = Some response ∧ status response = 200
                   ∧ written c `prefix_of` concat (omap id (chunks response)))
  ∧ (r = Ok tt → ∃ c, file = Some c ∧ lenN (written c) = size (asset o) ∧ hex32 (sha256 (asset o)) = Ok (digest (written c))
       ∧ asset o ∈ assets (manifest o) ∧ platform_target platform = Some (target (asset o)))
  ∧ ∃ new, sent io' = sent io ++ new ∧ (length new ≤ 12)%nat
           ∧ Forall (λ s, about (release_url (version (manifest o)) (name (asset o))) s.1) new.
Proof.
  unfold download. set (url := release_url _ _).
  match goal with |- context [match ?m io with _ => _ end] => set (asked := m) end.
  assert (sends 12 (about url) asked) as Hs.
  { apply (sends_bind 0 12); [apply sends_cancelled|intros _]. apply (sends_bind 0 12); [apply sends_lift|intros _].
    apply (sends_bind 12 0); [apply request_sends|intros resp]. apply (sends_bind 0 0); [apply sends_cancelled|intros _]. apply sends_ok. }
  specialize (Hs io). destruct (asked io) as [io1 [resp|e]] eqn:Ea; cbn in Hs; [|intros [= <- <- <-]; naive_solver].
  apply io_bind_ok in Ea as (i1 & [] & _ & Ea). apply io_bind_ok in Ea as (i2 & u & [_ Ho]%io_lift_ok & Ea).
  apply io_bind_ok in Ea as (i3 & resp' & Hq%request_answered & Ea). apply io_bind_ok in Ea as (i4 & u' & Hq'%cancelled_sent & Ea).
  unfold io_ok in Ea. injection Ea as <- <-. unfold answered in Hq. rewrite <-Hq' in Hq.
  pose proof (save_archive_spec net (asset o) disk (chunks resp') i4) as Hsave.
  destruct (save_archive _ _ _ _ _) as [io2 [file' r']]. intros [= -> -> ->]. destruct Hsave as (Hsent & Hfile & Hr). rewrite Hsent.
  split.
  { intros c Hc. destruct (Hfile c Hc) as (? & Hp & Ht). split; [done|]. split; [eapply Forall_impl; [done|]; by intros p [? _]|].
    exists resp'. by destruct Hq. }
  split; [|done]. intros ->. destruct (Hr eq_refl) as (c & Hc & Hsz & Hd). exists c. repeat (split; [done|]).
  unfold offered_asset in Ho. destruct (validate_manifest (manifest o)); [|done]. cbn in Ho.
  apply refuse_if_ok, orb_false_iff in Ho as [H1%negb_false_iff%bool_decide_eq_true H2%negb_false_iff%bool_decide_eq_true]. done.
Qed.

#[local] Existing Instance Site.site.

Lemma offer_authentic_witness :
  authentic Site.platform Site.app_version Site.key Archive Site.offer
  ∧ prepare_offer Site.platform Site.app_version (Some Site.key) Site.offer = Ok (MkOffer Site.signed Site.file [1] (Site.fill 64 7) []).
Proof.
  destruct (offer_authentic Site.net Site.platform Site.app_version Site.key Stable Archive (MkIo [] 0)
    (check Site.net Site.platform Site.app_version Site.key Stable Archive (MkIo [] 0)).1 Site.offer) as (Ha & Hp & _).
  - vm_compute. reflexivity.
  - split; [exact Ha|exact Hp].
Defined.

Lemma download_verified_witness :
  ∃ c, Some (MkCopy [9; 9; 9] [(0, 3); (3, 3)]) = Some c ∧ lenN (written c) = 3
    ∧ hex32 (sha256 Site.file) = Ok (digest (written c)) ∧ Site.file ∈ [Site.mac; Site.file]
    ∧ platform_target Site.platform = Some (target Site.file).
Proof.
  destruct (download_verified Site.net Site.platform Site.offer Site.disk (MkIo [] 0)
    (download Site.net Site.platform Site.offer Site.disk (MkIo [] 0)).1 (Some (MkCopy [9; 9; 9] [(0, 3); (3, 3)])) (Ok tt)) as (_ & Hr & _).
  - vm_compute. reflexivity.
  - exact (Hr eq_refl).
Defined.
End Release.
