(* ===== verification/Install.v ===== *)
(** * Install: unpacking an update and putting it in place
    (crates/sheprd-updater/src/install/archive.rs, install/apply.rs and
    install/bundle.rs)

    [Files] is what both parts use of the operating system: every call can fail,
    and a failed call changes nothing. [Archive] unpacks a verified archive into
    a private directory of a file system with symbolic links; [Apply] swaps the
    installation for the candidate, with its rollbacks. What the calls answer, the
    cancellation flag and the order of a [HashSet] are the record [Outside]; the
    entries tar reads are an argument. *)

From Stdlib Require Import NArith Lia.
From stdpp Require Import base option strings list gmap sets.
From S2P Require Import Prelude.

Local Open Scope N_scope.

Module Files.

Inductive IoError := NotFound | AlreadyExists | OtherIo.
#[export] Instance IoError_eq_dec : EqDecision IoError.
Proof. solve_decision. Defined.

(** The variants of [Error] these parts return; paths are left out. *)
Inductive Error :=
| Io (e : IoError) | Cancelled | ArchiveEntryLimit | ArchivePath | LinuxPayload | OutsideBundle | ExpandedArchiveLimit
| MissingLinkTarget | ArchiveSymlink | DirectoryData | MissingArchiveParent | PayloadNotExecutable | ArchiveEntryType
| TrailingArchiveData | ArchiveSymlinkParent | MissingSymlinkParent | SymlinkEscape | EmptyArchive | BundleNotExecutable
| RecoveryExists | MissingDestinationParent | RecoveryChanged | LaunchFailed
| ReplacementRollback (source rollback : IoError)
| ReplacementCleanup (source : IoError) (cleanup : Error)
| RestartRecovery (source : Error) (recovery : IoError).

Inductive Mode := Linux | Mac.
#[export] Instance Mode_eq_dec : EqDecision Mode.
Proof. solve_decision. Defined.

(** A path by the names on it. *)
Abbreviation path := (list (list N)) (only parsing).

(** Whether the n-th call fails, for a reason that says nothing about the files;
    what the n-th look at the flag gives; whether the link the n-th call finds leads
    anywhere; the order a set of paths is visited in. *)
Record Outside := MkOutside {
  fails : nat → bool;
  cancel : nat → bool;
  resolves : nat → bool;
  order : list path → list path;
  order_ok l p : p ∈ order l ↔ p ∈ l;
}.

(** The files, the calls so far, and the files after each of them. *)
Record Os (F : Type) := MkOs { files : F; calls : nat; trace : list F }.
Arguments MkOs {F}. Arguments files {F}. Arguments calls {F}. Arguments trace {F}.

Definition M (F E A : Type) : Type := Os F → Os F * res E A.

Section monad.
Context {F : Type} {E : Type}.

Definition ret {A} (a : A) : M F E A := λ s, (s, Ok a).
Definition err {A} (e : E) : M F E A := λ s, (s, Err e).
Definition lift {A} (r : res E A) : M F E A := λ s, (s, r).
Definition bind {A B} (m : M F E A) (k : A → M F E B) : M F E B := λ s,
  match m s with (s, Ok a) => k a s | (s, Err e) => (s, Err e) end.

(** [map_err]. *)
Definition with_err {E'} {A} (f : E → E') (m : M F E A) : M F E' A := λ s,
  let '(s, r) := m s in (s, map_err f r).

(** The result as a value: [if let Err(error) = m]. *)
Definition attempt {E'} {A} (m : M F E A) : M F E' (res E A) := λ s, let '(s, r) := m s in (s, Ok r).
End monad.

Notation "'do' x ':=' m 'in' k" := (bind m (λ x, k)) (at level 10, x binder, m at level 100, k at level 200).

Section calls.
Context {F : Type} (out : Outside).

(** A call of the operating system: [f] is its effect and answer when nothing
    else goes wrong. *)
Definition call {A} (f : F → res IoError (F * A)) : M F IoError A := λ s,
  let n := calls s in
  if fails out n then (MkOs (files s) (S n) (trace s ++ [files s]), Err OtherIo)
  else
    match f (files s) with
    | Ok (files, a) => (MkOs files (S n) (trace s ++ [files]), Ok a)
    | Err e => (MkOs (files s) (S n) (trace s ++ [files s]), Err e)
    end.

(** [check]. *)
Definition check : M F Error unit := λ s,
  (MkOs (files s) (S (calls s)) (trace s), if cancel out (calls s) then Err Cancelled else Ok tt).
End calls.
End Files.

Module Archive.
Import Files.

Definition LIMIT : N := 1024 * 1024 * 1024.
Definition ROOTS : list (list N) := [lit "Herdr.app"; lit "Sheprd.app"].

(** ** Paths

    [Path::components]: empty pieces and inner dots are left out. *)
Inductive Component := RootDir | CurDir | ParentDir | Normal (name : list N).
#[export] Instance Component_eq_dec : EqDecision Component.
Proof. solve_decision. Defined.

Definition component (piece : list N) : option Component :=
  if decide (piece = []) then None
  else if decide (piece = lit ".") then None
  else if decide (piece = lit "..") then Some ParentDir
  else Some (Normal piece).

Definition components (p : list N) : list Component :=
  let pieces := split_on (λ c, c =? 47) p in
  match p with
  | 47 :: _ => RootDir :: omap component pieces
  | _ => (if decide (head pieces = Some (lit ".")) then [CurDir] else []) ++ omap component pieces
  end.

(** The names of a path of ordinary names. *)
Definition normal (c : Component) : option (list N) := match c with Normal n => Some n | _ => None end.
Definition is_normal (c : Component) : bool := is_some (normal c).
Definition names (p : list N) : path := omap normal (components p).

Definition safe_path (p : list N) : bool :=
  negb (bool_decide (p = [])) && (lenN p <=? 4096) && forallb is_normal (components p).

(** The walk over a link's target; [None] is a refusal. *)
Fixpoint link_depth (depth : N) (cs : list Component) : option N :=
  match cs with
  | [] => Some depth
  | Normal _ :: cs => link_depth (depth + 1) cs
  | CurDir :: cs => link_depth depth cs
  | ParentDir :: cs => if 1 <? depth then link_depth (depth - 1) cs else None
  | RootDir :: _ => None
  end.

Definition safe_link (p target : list N) : bool :=
  if bool_decide (target = []) || (4096 <? lenN target) then false
  else match link_depth (lenN (components p) - 1) (components target) with
       | Some depth => 1 <=? depth
       | None => false
       end.

(** [Path::parent] and the proper ancestors with a name, nearest first. *)
Definition parent (p : path) : option path := match p with [] => None | _ => Some (removelast p) end.
Fixpoint ancestors_of (fuel : nat) (p : path) : list path :=
  match fuel, p with
  | S fuel, _ :: _ :: _ => removelast p :: ancestors_of fuel (removelast p)
  | _, _ => []
  end.
Definition ancestors (p : path) : list path := ancestors_of (length p) p.

(** ** A file system with links *)

Inductive Node := Dir (mode : N) | File (mode : N) (data : list N) | Link (target : list N).
#[export] Instance Node_eq_dec : EqDecision Node.
Proof. solve_decision. Defined.

Abbreviation Fs := (gmap (list (list N)) Node) (only parsing).

(** Where a path leads, every link followed. A name that is missing, a file in the
    middle of the path and too many steps are errors. *)
Fixpoint walk (fuel : nat) (fs : Fs) (at_ : path) (cs : list Component) : res IoError path :=
  match fuel, cs with
  | O, _ => Err OtherIo
  | S _, [] => Ok at_
  | S fuel, RootDir :: cs => walk fuel fs [] cs
  | S fuel, CurDir :: cs => walk fuel fs at_ cs
  | S fuel, ParentDir :: cs => walk fuel fs (removelast at_) cs
  | S fuel, Normal n :: cs =>
      match fs !! (at_ ++ [n]) with
      | Some (Dir _) => walk fuel fs (at_ ++ [n]) cs
      | Some (File _ _) => if decide (cs = []) then Ok (at_ ++ [n]) else Err OtherIo
      | Some (Link t) => walk fuel fs at_ (components t ++ cs)
      | None => Err NotFound
      end
  end.

Section archive.
Context (out : Outside) (fuel : nat).

Definition resolve (fs : Fs) (p : path) : res IoError path := walk fuel fs [] (Normal <$> p).

Definition is_dir (fs : Fs) (p : path) : bool :=
  match resolve fs p with
  | Ok q => match q with [] => true | _ => match fs !! q with Some (Dir _) => true | _ => false end end
  | Err _ => false
  end.

(** The entry a new name goes to: its directory must exist. *)
Definition place (fs : Fs) (p : path) : res IoError path :=
  match last p with
  | None => Err AlreadyExists
  | Some n => d ← resolve fs (removelast p); if is_dir fs (removelast p) then Ok (d ++ [n]) else Err OtherIo
  end.

(** [mkdir], [open] with [O_EXCL] and [symlink]: nothing may be there. *)
Definition create (node : Node) (p : path) : M Fs IoError path :=
  call out (λ fs,
    q ← place fs p;
    match fs !! q with
    | Some _ => Err AlreadyExists
    | None => Ok (<[q := node]> fs, q)
    end).

Definition probe {A} (f : Fs → res IoError A) : M Fs IoError A := call out (λ fs, a ← f fs; Ok (fs, a)).

(** [path.is_dir()]: an error is no. *)
Definition ask_dir (p : path) : M Fs IoError bool := λ s,
  match probe (λ fs, Ok (is_dir fs p)) s with
  | (s, Ok b) => (s, Ok b)
  | (s, Err _) => (s, Ok false)
  end.

Definition or_dir (p : path) (e : IoError) : M Fs IoError unit :=
  do dir := ask_dir p in if dir then ret tt else err e.

(** [DirBuilder::create] with [recursive]: [create_dir_all]. *)
Fixpoint create_dir_all (depth : nat) (p : path) : M Fs IoError unit :=
  if decide (p = []) then ret tt
  else
    do made := attempt (create (Dir 448) p) in
    match made with
    | Ok _ => ret tt
    | Err NotFound =>
        match depth with
        | O => err OtherIo
        | S depth =>
            do _ := create_dir_all depth (removelast p) in
            do again := attempt (create (Dir 448) p) in
            match again with Ok _ => ret tt | Err e => or_dir p e end
        end
    | Err e => or_dir p e
    end.

Definition directories (p : path) : M Fs Error unit := with_err Io (create_dir_all (length p) p).

(** [set_permissions] follows links; a file's own goes through its descriptor. *)
Definition with_mode (mode : N) (n : Node) : Node :=
  match n with Dir _ => Dir mode | File _ data => File mode data | Link t => Link t end.

Definition chmod (p : path) (mode : N) : M Fs IoError unit :=
  call out (λ fs,
    q ← resolve fs p;
    match fs !! q with Some n => Ok (<[q := with_mode mode n]> fs, tt) | None => Err NotFound end).

Definition fd_write (q : path) (bytes : list N) : M Fs IoError unit :=
  call out (λ fs,
    match fs !! q with
    | Some (File mode data) => Ok (<[q := File mode (data ++ bytes)]> fs, tt)
    | _ => Err OtherIo
    end).

Definition fd_chmod (q : path) (mode : N) : M Fs IoError unit :=
  call out (λ fs,
    match fs !! q with
    | Some n => Ok (<[q := with_mode mode n]> fs, tt)
    | _ => Err OtherIo
    end).

Definition sync : M Fs IoError unit := call out (λ fs, Ok (fs, tt)).

(** ** The program of a bundle (bundle.rs) *)

Definition EXECUTABLES : list (list N) := [lit "Herdr"; lit "sheprd"].

(** A mode with any of the execute bits. *)
Definition executable (mode : N) : bool := negb (N.land mode 73 =? 0).

(** [symlink_metadata]: the last name is not followed. *)
Definition lstat (p : path) : M Fs IoError Node :=
  probe (λ fs, q ← place fs p; ok_or NotFound (fs !! q)).

Fixpoint find_executable (bundle : path) (found : option path) (ns : list (list N)) : M Fs Error path :=
  match ns with
  | [] => lift (ok_or BundleNotExecutable found)
  | n :: ns =>
      let p := bundle ++ [lit "Contents"; lit "MacOS"; n] in
      do meta := attempt (lstat p) in
      match meta with
      | Ok (File mode _) =>
          if executable mode then
            match found with
            | Some _ => err BundleNotExecutable
            | None => find_executable bundle (Some p) ns
            end
          else err BundleNotExecutable
      | Err NotFound => find_executable bundle found ns
      | _ => err BundleNotExecutable
      end
  end.

Definition bundle_executable (bundle : path) : M Fs Error path := find_executable bundle None EXECUTABLES.

(** ** Entries

    What tar reads of an entry; [None] is an error of the reader. *)
Inductive Kind := KFile | KDir | KSymlink | KOther.
#[local] Instance Kind_eq_dec : EqDecision Kind.
Proof. solve_decision. Defined.

Record Entry := MkEntry {
  entry_path : option (list N); kind : Kind; entry_size : N; link_name : option (option (list N));
  entry_mode : option N; reads : list (option (list N)) }.

Record State := MkState {
  seen : list path; dirs : list path; links : list (path * list N); bundle_root : option (list N); expanded : N }.

Definition opt_io {A} (o : option A) : res Error A := ok_or (Io OtherIo) o.

(** The checks on an entry's place: the root of a bundle, or the one executable. *)
Definition entry_root (mode : Mode) (name : path) (k : Kind) (p : path) (st : State) : res Error (option (list N)) :=
  match mode with
  | Linux => if negb (bool_decide (p = name)) || negb (bool_decide (k = KFile)) then Err LinuxPayload else Ok (bundle_root st)
  | Mac =>
      root ← ok_or OutsideBundle (List.find (λ r, bool_decide (head p = Some r)) ROOTS);
      match bundle_root st with
      | Some other => if decide (other = root) then Ok (Some root) else Err OutsideBundle
      | None => Ok (Some root)
      end
  end.

Definition grow (expanded size : N) : res Error N :=
  match checked_add u64_max expanded size with
  | Some n => if n <=? LIMIT then Ok n else Err ExpandedArchiveLimit
  | None => Err ExpandedArchiveLimit
  end.

Fixpoint copy_entry (q : path) (reads : list (option (list N))) : M Fs Error unit :=
  do _ := check out in
  match reads with
  | None :: _ => err (Io OtherIo)
  | Some (x :: bytes) :: reads => do _ := with_err Io (fd_write q (x :: bytes)) in copy_entry q reads
  | _ => ret tt
  end.

Definition write_entry (mode : Mode) (destination : path) (e : Entry) : M Fs Error unit :=
  do above := lift (ok_or MissingArchiveParent (parent destination)) in
  do _ := directories above in
  do bits := lift (opt_io (entry_mode e)) in
  let exec := executable bits in
  if bool_decide (mode = Linux) && negb exec then err PayloadNotExecutable
  else
    do q := with_err Io (create (File (if exec then 448 else 384) []) destination) in
    do _ := copy_entry q (reads e) in
    do _ := with_err Io (fd_chmod q (if exec then 493 else 420)) in
    with_err Io sync.

(** One turn of the loop over the entries. *)
Definition entry_step (root : path) (mode : Mode) (name : path) (st : State) (e : Entry) : M Fs Error State :=
  do raw := lift (opt_io (entry_path e)) in
  let p := names raw in
  if negb (safe_path raw) || bool_decide (p ∈ seen st) then err ArchivePath
  else
    let st := MkState (p :: seen st) (ancestors p ++ dirs st) (links st) (bundle_root st) (expanded st) in
    do found := lift (entry_root mode name (kind e) p st) in
    do size := lift (grow (expanded st) (entry_size e)) in
    let st := MkState (seen st) (dirs st) (links st) found size in
    let destination := root ++ p in
    if bool_decide (kind e = KSymlink) && bool_decide (mode = Mac) then
      do name := lift (opt_io (link_name e)) in
      do target := lift (ok_or MissingLinkTarget name) in
      if negb (safe_link raw target) || negb (entry_size e =? 0) then err ArchiveSymlink
      else ret (MkState (seen st) (dirs st) (links st ++ [(p, target)]) found size)
    else if bool_decide (kind e = KDir) && bool_decide (mode = Mac) then
      if negb (entry_size e =? 0) then err DirectoryData
      else
        do _ := directories destination in
        ret (MkState (seen st) (p :: dirs st) (links st) found size)
    else if bool_decide (kind e = KFile) then
      do _ := write_entry mode destination e in ret st
    else err ArchiveEntryType.

Fixpoint entries_loop (root : path) (mode : Mode) (name : path) (index : N) (st : State) (es : list (option Entry)) :
    M Fs Error State :=
  match es with
  | [] => ret st
  | e :: es =>
      do _ := check out in
      if 20000 <=? index then err ArchiveEntryLimit
      else
        do e := lift (opt_io e) in
        do st := entry_step root mode name st e in
        entries_loop root mode name (index + 1) st es
  end.

(** What is left after the last entry must be zeros. *)
Fixpoint trailing (reads : list (option (list N))) : M Fs Error unit :=
  do _ := check out in
  match reads with
  | None :: _ => err (Io OtherIo)
  | Some (x :: bytes) :: reads =>
      if existsb (λ b, negb (b =? 0)) (x :: bytes) then err TrailingArchiveData else trailing reads
  | _ => ret tt
  end.

Fixpoint make_dirs (root : path) (ps : list path) : M Fs Error unit :=
  match ps with
  | [] => ret tt
  | p :: ps =>
      do _ := check out in
      do _ := directories (root ++ p) in
      do _ := with_err Io (chmod (root ++ p) 493) in
      make_dirs root ps
  end.

Fixpoint make_links (root : path) (ls : list (path * list N)) : M Fs Error unit :=
  match ls with
  | [] => ret tt
  | (p, target) :: ls =>
      do above := lift (ok_or MissingSymlinkParent (parent (root ++ p))) in
      do _ := directories above in
      do _ := with_err Io (create (Link target) (root ++ p)) in
      make_links root ls
  end.

Definition canonicalize (p : path) : M Fs Error path :=
  with_err Io (probe (λ fs, resolve fs p)).

Definition starts (p q : path) : bool := bool_decide (p `prefix_of` q).

Fixpoint check_links (root : path) (bundle : option (list N)) (ls : list (path * list N)) : M Fs Error unit :=
  match ls with
  | [] => ret tt
  | (p, _) :: ls =>
      do at_ := canonicalize (root ++ p) in
      do b := lift (ok_or EmptyArchive bundle) in
      do base := canonicalize (root ++ [b]) in
      if starts base at_ then check_links root bundle ls else err SymlinkEscape
  end.

(** [extract]; [name] is a path, [limited] is whether the reader's limit was
    used up. *)
Definition extract (root : path) (mode : Mode) (name : list N) (es : list (option Entry)) (rest : list (option (list N)))
    (limited : bool) : M Fs Error path :=
  do st := entries_loop root mode (names name) 0 (MkState [] [] [] None 0) es in
  do _ := trailing rest in
  if limited then err ExpandedArchiveLimit
  else if existsb (λ p, existsb (λ a, bool_decide (a ∈ (links st).*1)) (ancestors p)) (order out (seen st)) then err ArchiveSymlinkParent
  else
    do _ := make_dirs root (order out (dirs st)) in
    do _ := make_links root (links st) in
    do _ := check_links root (bundle_root st) (links st) in
    do candidate := match mode with
                    | Mac => do b := lift (ok_or EmptyArchive (bundle_root st)) in ret (root ++ [b])
                    | Linux => ret (root ++ names name)
                    end in
    do there := attempt (probe (λ fs, Ok (is_some (ok (resolve fs candidate))))) in
    if bool_decide (seen st = []) || negb (match there with Ok b => b | Err _ => false end) then err EmptyArchive
    else ret candidate.
End archive.

(** ** Reasoning about calls

    [triple P m Q R]: from files in [P], [m] ends in [Q] when it succeeds, in [R]
    when it fails, and is in [R] after each call. *)

Definition triple {F E A} (P : F → Prop) (m : M F E A) (Q : A → F → Prop) (R : F → Prop) : Prop :=
  ∀ s, P (files s) →
  (∃ new, trace (m s).1 = trace s ++ new ∧ Forall R new)
  ∧ match m s with (s', Ok a) => Q a (files s') | (s', Err _) => R (files s') end.

Section triples.
Context {F E : Type}.
Implicit Types P R : F → Prop.

Lemma triple_seq {A B} P (m : M F E A) Q (k : A → M F E B) Q' R :
  triple P m Q R → (∀ a, triple (Q a) (k a) Q' R) → triple P (bind m k) Q' R.
Proof.
  intros Hm Hk s HP. unfold bind. destruct (Hm s HP) as [(new & Hn & Hr) Hq]. destruct (m s) as [s' [a|e]]; cbn in *; [|by eauto].
  destruct (Hk a s' Hq) as [(new' & Hn' & Hr') Hq']. split; [|done]. exists (new ++ new').
  rewrite Hn', Hn, app_assoc. split; [done|]. by apply Forall_app.
Qed.

Lemma triple_none {A} P (m : M F E A) (Q : A → F → Prop) R :
  (∀ s, trace (m s).1 = trace s) →
  (∀ s, P (files s) → match m s with (s', Ok a) => Q a (files s') | (s', Err _) => R (files s') end) → triple P m Q R.
Proof. intros Ht Hm s HP. split; [|by apply Hm]. exists []. rewrite Ht, app_nil_r. by split. Qed.

Lemma triple_return {A} P (a : A) (Q : A → F → Prop) R : (∀ fs, P fs → Q a fs) → triple P (ret a : M F E A) Q R.
Proof. intros HQ. apply triple_none; [done|]. intros s. apply HQ. Qed.

Lemma triple_fail {A} P e Q R : (∀ fs, P fs → R fs) → triple P (err e : M F E A) Q R.
Proof. intros HR. apply triple_none; [done|]. intros s. apply HR. Qed.

Lemma triple_lift {A} P (r : res E A) R : (∀ fs, P fs → R fs) → triple P (lift r) (λ a fs, r = Ok a ∧ P fs) R.
Proof. intros HR. apply triple_none; [done|]. intros s HP. cbn. destruct r; [done|by apply HR]. Qed.

Lemma triple_conseq {A} P P' (m : M F E A) (Q Q' : A → F → Prop) R R' :
  triple P m Q R → (∀ fs, P' fs → P fs) → (∀ a fs, Q a fs → Q' a fs) → (∀ fs, R fs → R' fs) → triple P' m Q' R'.
Proof.
  intros Hm HP HQ HR s Hs. destruct (Hm s (HP _ Hs)) as [(new & Hn & Hf) Hq]. split.
  - exists new. split; [done|]. by eapply Forall_impl.
  - destruct (m s) as [s' [a|e]]; [by apply HQ|by apply HR].
Qed.

Lemma triple_pure {A} P φ (m : M F E A) Q R : (φ → triple P m Q R) → triple (λ fs, φ ∧ P fs) m Q R.
Proof. intros Hm s [Hφ HP]. by apply Hm. Qed.

Lemma triple_with_err {E' A} (f : E → E') P (m : M F E A) Q R : triple P m Q R → triple P (with_err f m) Q R.
Proof. intros Hm s HP. unfold with_err. destruct (Hm s HP) as [Ht Hq]. by destruct (m s) as [s' [a|e]]. Qed.

Lemma triple_attempt {E' A} P (m : M F E A) Q R :
  triple P m Q R →
  triple P (attempt m : M F E' (res E A)) (λ r fs, match r with Ok a => Q a fs | Err _ => R fs end) R.
Proof. intros Hm s HP. unfold attempt. destruct (Hm s HP) as [Ht Hq]. by destruct (m s) as [s' [a|e]]. Qed.

Lemma triple_call {A} out P (f : F → res IoError (F * A)) (Q : A → F → Prop) R :
  (∀ fs, P fs → R fs) → (∀ fs fs' a, P fs → f fs = Ok (fs', a) → Q a fs' ∧ R fs') → triple P (call out f) Q R.
Proof.
  intros HR Hf s HP. unfold call. destruct (fails out (calls s)).
  { split; [|by apply HR]. exists [files s]. split; [done|]. constructor; [by apply HR|constructor]. }
  destruct (f (files s)) as [[fs' a]|e] eqn:Ef; cbn.
  - destruct (Hf _ _ _ HP Ef). split; [|done]. exists [fs']. split; [done|]. by constructor; [|constructor].
  - split; [|by apply HR]. exists [files s]. split; [done|]. constructor; [by apply HR|constructor].
Qed.

End triples.

Lemma triple_check {F} out (P R : F → Prop) : (∀ fs, P fs → R fs) → triple P (check out) (λ _, P) R.
Proof. intros HR. apply triple_none; [done|]. intros s HP. cbn. destruct (cancel out (calls s)); [by apply HR|done]. Qed.

(** ** Paths without links *)

Lemma removelast_end {A} (p : list A) x : removelast (p ++ [x]) = p.
Proof. apply List.removelast_last. Qed.

Lemma last_removelast {A} (p : list A) x : last p = Some x → removelast p ++ [x] = p.
Proof.
  destruct p as [|y p] using rev_ind; [done|]. rewrite last_snoc. intros [= ->]. by rewrite removelast_end.
Qed.

Lemma removelast_prefix {A} (p : list A) : removelast p `prefix_of` p.
Proof. destruct p as [|y p] using rev_ind; [done|]. rewrite removelast_end. by apply prefix_app_r. Qed.

Lemma prefix_app_cases {A} (pre a b : list A) :
  pre `prefix_of` a ++ b → pre `prefix_of` a ∨ ∃ k, k ≠ [] ∧ pre = a ++ k ∧ k `prefix_of` b.
Proof.
  revert pre. induction a as [|x a IH]; intros pre Hp.
  - destruct pre as [|y pre]; [by left|]. right. by exists (y :: pre).
  - destruct pre as [|y pre]; [left; apply prefix_nil|]. cbn in Hp. pose proof (prefix_cons_inv_1 _ _ _ _ Hp) as ->.
    apply prefix_cons_inv_2 in Hp. destruct (IH _ Hp) as [Hl|(k & Hk & -> & Hkb)].
    + left. by apply prefix_cons.
    + right. by exists k.
Qed.

Definition plain (fs : Fs) (p : path) : Prop := ∀ pre t, pre ≠ [] → pre `prefix_of` p → fs !! pre ≠ Some (Link t).

Lemma plain_prefix fs p q : plain fs p → q `prefix_of` p → plain fs q.
Proof. intros Hp Hq pre t Hne Hpre. apply Hp; [done|]. by etrans. Qed.

Lemma walk_plain n fs at_ ps q :
  (∀ pre t, pre ≠ [] → pre `prefix_of` ps → fs !! (at_ ++ pre) ≠ Some (Link t)) →
  walk n fs at_ (Normal <$> ps) = Ok q → q = at_ ++ ps.
Proof.
  revert at_ ps. induction n as [|n IH]; intros at_ ps Hl; [done|]. destruct ps as [|x ps]; cbn [fmap list_fmap walk].
  { intros [= <-]. by rewrite app_nil_r. }
  destruct (fs !! (at_ ++ [x])) as [[m|m d|t]|] eqn:Hx; [..|done].
  - intros Hw. apply IH in Hw as ->; [by rewrite <- app_assoc|].
    intros pre t Hne Hpre. rewrite <- app_assoc. apply Hl; [done|]. by apply prefix_cons.
  - case_decide as Hps; [|done]. intros [= <-]. by apply fmap_nil_inv in Hps as ->.
  - exfalso. eapply (Hl [x]); [done| |done]. apply prefix_cons, prefix_nil.
Qed.

Section plain.
Context (fuel : nat) (fs : Fs).

Lemma resolve_plain p q : plain fs p → resolve fuel fs p = Ok q → q = p.
Proof. intros Hp Hr. by apply walk_plain in Hr. Qed.

Lemma place_plain p q : plain fs (removelast p) → place fuel fs p = Ok q → q = p ∧ p ≠ [].
Proof.
  intros Hp. unfold place. destruct (last p) as [x|] eqn:Hl; [|done]. destruct (resolve fuel fs (removelast p)) as [d|] eqn:Hd; [|done].
  cbn. destruct (is_dir _ _ _); [|done]. intros [= <-]. apply resolve_plain in Hd as ->; [|done].
  split; [by apply last_removelast|]. by intros ->.
Qed.
End plain.

(** ** Confinement *)

Section confined.
Context (out : Outside) (fuel : nat) (root : path) (fs0 : Fs).

Definition below (p : path) : Prop := ∃ q, q ≠ [] ∧ p = root ++ q.

(** The directory to unpack into is real, and nothing is in it yet. *)
Definition fresh_root : Prop :=
  (∀ r, r ≠ [] → r `prefix_of` root → ∃ mode, fs0 !! r = Some (Dir mode)) ∧ ∀ p, below p → fs0 !! p = None.

Definition untouched (fs : Fs) : Prop := ∀ p, ¬ below p → fs !! p = fs0 !! p.

(** A path under the first name of one of [seen]. *)
Definition top (seen : list path) (q : path) : Prop := ∃ p, p ∈ seen ∧ head q = head p.

(** What is below the root: nothing but under the first names of [seen], and no
    link but those of [ls]. *)
Record inv (seen : list path) (ls : list (path * list N)) (fs : Fs) : Prop := MkInv {
  inv_out : untouched fs;
  inv_top q n : q ≠ [] → fs !! (root ++ q) = Some n → top seen q;
  inv_link q t : q ≠ [] → fs !! (root ++ q) = Some (Link t) → (q, t) ∈ ls }.

Context (Hroot : fresh_root).

Lemma prefix_not_below r : r `prefix_of` root → ¬ below r.
Proof.
  intros [k Hk] (q & Hq & ->). apply (f_equal length) in Hk. rewrite !length_app in Hk. destruct q; [done|]. cbn in Hk. lia.
Qed.

Lemma inv_root seen ls fs r : inv seen ls fs → r ≠ [] → r `prefix_of` root → ∃ mode, fs !! r = Some (Dir mode).
Proof. intros Hi Hr Hp. rewrite (inv_out _ _ _ Hi) by (by apply prefix_not_below). by apply Hroot. Qed.

Lemma inv_fresh : inv [] [] fs0.
Proof.
  split; [done|..].
  - intros q n Hq Hn. rewrite (proj2 Hroot) in Hn; [done|]. by exists q.
  - intros q t Hq Hn. rewrite (proj2 Hroot) in Hn; [done|]. by exists q.
Qed.

Lemma inv_more seen seen' ls ls' fs : inv seen ls fs → seen ⊆ seen' → ls ⊆ ls' → inv seen' ls' fs.
Proof.
  intros [Ho Ht Hl] Hs Hls. split; [done|..].
  - intros q n Hq Hn. destruct (Ht q n Hq Hn) as (p & Hp & Hh). exists p. split; [by apply Hs|done].
  - intros q t Hq Hn. by apply Hls, (Hl q t).
Qed.

(** No link on the way. *)
Definition free (ls : list (path * list N)) (p : path) : Prop := ∀ pre, pre ≠ [] → pre `prefix_of` p → pre ∉ ls.*1.

Lemma inv_plain seen ls fs p : inv seen ls fs → free ls p → plain fs (root ++ p).
Proof.
  intros Hi Hf pre t Hne Hpre Hl. apply prefix_app_cases in Hpre as [Hpre|(k & Hk & -> & Hkp)].
  - destruct (inv_root _ _ _ _ Hi Hne Hpre) as [m Hm]. congruence.
  - apply (Hf k Hk Hkp). apply (inv_link _ _ _ Hi) in Hl; [|done]. apply list_elem_of_fmap. by exists (k, t).
Qed.

Lemma inv_plain_root seen ls fs r : inv seen ls fs → r `prefix_of` root → plain fs r.
Proof.
  intros Hi Hr. eapply plain_prefix; [|done]. rewrite <- (app_nil_r root). eapply inv_plain; [done|].
  intros pre Hne Hpre. by apply prefix_nil_inv in Hpre.
Qed.

Lemma inv_insert seen ls fs p n :
  inv seen ls fs → p ≠ [] → top seen p → (∀ t, n = Link t → (p, t) ∈ ls) → inv seen ls (<[root ++ p := n]> fs).
Proof.
  intros [Ho Ht Hl] Hp Htop Hn. split.
  - intros q Hq. rewrite lookup_insert_ne; [by apply Ho|]. intros <-. apply Hq. by exists p.
  - intros q m Hq Hm. destruct (decide (p = q)) as [->|Hne]; [done|].
    rewrite lookup_insert_ne in Hm; [by eapply Ht|]. by intros ?%app_inv_head.
  - intros q t Hq Hm. destruct (decide (p = q)) as [->|Hne].
    + rewrite lookup_insert_eq in Hm. injection Hm as ->. by apply Hn.
    + rewrite lookup_insert_ne in Hm; [by eapply Hl|]. by intros ?%app_inv_head.
Qed.

(** ** Calls below the root *)

Lemma create_below node p seen ls :
  p ≠ [] → free ls (removelast p) → top seen p → (∀ t, node = Link t → (p, t) ∈ ls) →
  triple (inv seen ls) (create out fuel node (root ++ p)) (λ q fs, q = root ++ p ∧ inv seen ls fs) (inv seen ls).
Proof.
  intros Hp Hf Ht Hn. apply triple_call; [done|]. intros fs fs' q Hi Hc.
  destruct (place fuel fs (root ++ p)) as [q'|] eqn:Hpl; [|done]. cbn in Hc.
  apply place_plain in Hpl as [-> _].
  2: { rewrite removelast_app by done. by eapply inv_plain. }
  destruct (fs !! (root ++ p)); [done|]. injection Hc as <- <-.
  pose proof (inv_insert _ _ _ _ _ Hi Hp Ht Hn). done.
Qed.

Lemma create_above node r seen ls :
  r ≠ [] → r `prefix_of` root → triple (inv seen ls) (create out fuel node r) (λ _, inv seen ls) (inv seen ls).
Proof.
  intros Hne Hr. apply triple_call; [done|]. intros fs fs' q Hi Hc.
  destruct (place fuel fs r) as [q'|] eqn:Hpl; [|done]. cbn in Hc. apply place_plain in Hpl as [-> _].
  2: { eapply inv_plain_root; [done|]. etrans; [apply removelast_prefix|done]. }
  destruct (inv_root _ _ _ _ Hi Hne Hr) as [m Hm]. by rewrite Hm in Hc.
Qed.

(** A directory that may be made: below the root, or one that is there. *)
Definition fine (seen : list path) (ls : list (path * list N)) (p : path) : Prop :=
  p `prefix_of` root ∨ ∃ q, q ≠ [] ∧ p = root ++ q ∧ free ls q ∧ top seen q.

Lemma free_removelast ls p : free ls p → free ls (removelast p).
Proof. intros Hf pre Hne Hpre. apply Hf; [done|]. etrans; [done|apply removelast_prefix]. Qed.

Lemma top_removelast seen p : top seen p → removelast p ≠ [] → top seen (removelast p).
Proof.
  intros (s & Hs & Hh) Hne. exists s. split; [done|]. rewrite <- Hh. destruct p as [|x p]; [done|]. by destruct p.
Qed.

Lemma fine_below seen ls p : free ls p → top seen p → fine seen ls (root ++ p).
Proof. intros Hf Ht. destruct (decide (p = [])) as [->|Hp]; [left; by rewrite app_nil_r|right; by exists p]. Qed.

Lemma fine_removelast seen ls p : fine seen ls p → fine seen ls (removelast p).
Proof.
  intros [Hp|(q & Hq & -> & Hf & Ht)]; [left; etrans; [apply removelast_prefix|done]|].
  rewrite removelast_app by done. destruct (decide (removelast q = [])) as [->|Hne]; [left; by rewrite app_nil_r|].
  apply fine_below; [by apply free_removelast|by apply top_removelast].
Qed.

Lemma create_dir mode p seen ls :
  p ≠ [] → fine seen ls p → triple (inv seen ls) (create out fuel (Dir mode) p) (λ _, inv seen ls) (inv seen ls).
Proof.
  intros Hne [Hp|(q & Hq & -> & Hf & Ht)]; [by apply create_above|].
  eapply triple_conseq; [apply (create_below (Dir mode) q seen ls); [done|by apply free_removelast|done|done]|done| |done].
  by intros a fs [_ ?].
Qed.

Lemma ask_dir_keeps p seen ls : triple (inv seen ls) (ask_dir out fuel p) (λ _, inv seen ls) (inv seen ls).
Proof.
  intros s Hi. unfold ask_dir.
  assert (triple (inv seen ls) (probe out (λ fs, Ok (is_dir fuel fs p))) (λ _, inv seen ls) (inv seen ls)) as Hp
    by (apply triple_call; [done|]; by intros fs fs' a Hf [= <- <-]).
  destruct (Hp s Hi) as [Ht Hq]. destruct (probe _ _ s) as [s' [b|e]]; done.
Qed.

Lemma or_dir_keeps p e seen ls : triple (inv seen ls) (or_dir out fuel p e) (λ _, inv seen ls) (inv seen ls).
Proof.
  eapply triple_seq; [apply ask_dir_keeps|]. intros []; [by apply triple_return|by apply triple_fail].
Qed.

Lemma create_dir_all_keeps depth p seen ls :
  fine seen ls p → triple (inv seen ls) (create_dir_all out fuel depth p) (λ _, inv seen ls) (inv seen ls).
Proof.
  revert p. induction depth as [|depth IH]; intros p Hp; cbn [create_dir_all];
    (destruct (decide (p = [])) as [|Hne]; [by apply triple_return|]).
  all: eapply triple_seq; [by apply triple_attempt, create_dir|]; intros [q|[]];
    try (by apply triple_return); try apply or_dir_keeps; try (by apply triple_fail).
  eapply triple_seq; [by apply IH, fine_removelast|]. intros []. eapply triple_seq; [by apply triple_attempt, create_dir|].
  intros [q|e]; [by apply triple_return|apply or_dir_keeps].
Qed.

Lemma directories_keeps p seen ls :
  fine seen ls p → triple (inv seen ls) (directories out fuel p) (λ _, inv seen ls) (inv seen ls).
Proof. intros Hp. by apply triple_with_err, create_dir_all_keeps. Qed.

Lemma with_mode_link mode n t : with_mode mode n = Link t → n = Link t.
Proof. by destruct n. Qed.

Lemma mode_keeps seen ls fs p n mode :
  inv seen ls fs → p ≠ [] → fs !! (root ++ p) = Some n → inv seen ls (<[root ++ p := with_mode mode n]> fs).
Proof.
  intros Hi Hp Hn. apply inv_insert; [done|done|by eapply inv_top|]. intros t ->%with_mode_link. by eapply inv_link.
Qed.

Lemma chmod_keeps p mode seen ls :
  p ≠ [] → free ls p → triple (inv seen ls) (chmod out fuel (root ++ p) mode) (λ _, inv seen ls) (inv seen ls).
Proof.
  intros Hp Hf. apply triple_call; [done|]. intros fs fs' [] Hi Hc.
  destruct (resolve fuel fs (root ++ p)) as [q|] eqn:Hr; [|done]. cbn in Hc. apply resolve_plain in Hr as ->; [|by eapply inv_plain].
  destruct (fs !! (root ++ p)) as [n|] eqn:Hn; [|done]. injection Hc as <-. pose proof (mode_keeps _ _ _ _ _ mode Hi Hp Hn). done.
Qed.

Lemma fd_chmod_keeps p mode seen ls :
  p ≠ [] → triple (inv seen ls) (fd_chmod out (root ++ p) mode) (λ _, inv seen ls) (inv seen ls).
Proof.
  intros Hp. apply triple_call; [done|]. intros fs fs' [] Hi Hc. destruct (fs !! (root ++ p)) as [n|] eqn:Hn; [|done].
  injection Hc as <-. pose proof (mode_keeps _ _ _ _ _ mode Hi Hp Hn). done.
Qed.

Lemma fd_write_keeps p bytes seen ls :
  p ≠ [] → triple (inv seen ls) (fd_write out (root ++ p) bytes) (λ _, inv seen ls) (inv seen ls).
Proof.
  intros Hp. apply triple_call; [done|]. intros fs fs' [] Hi Hc. destruct (fs !! (root ++ p)) as [[|m d|]|] eqn:Hn; try done.
  injection Hc as <-. assert (inv seen ls (<[root ++ p := File m (d ++ bytes)]> fs)); [|done].
  apply inv_insert; [done|done|by eapply inv_top|done].
Qed.

Lemma copy_entry_keeps p reads seen ls :
  p ≠ [] → triple (inv seen ls) (copy_entry out (root ++ p) reads) (λ _, inv seen ls) (inv seen ls).
Proof.
  intros Hp. induction reads as [|[[|x bytes]|] reads IH]; cbn [copy_entry];
    (eapply triple_seq; [by apply triple_check|]; intros []); try (by apply triple_return); [|by apply triple_fail].
  eapply triple_seq; [by apply triple_with_err, fd_write_keeps|]. intros []. apply IH.
Qed.

Lemma parent_below p : p ≠ [] → parent (root ++ p) = Some (root ++ removelast p).
Proof.
  intros Hp. unfold parent. rewrite removelast_app by done. by destruct (root ++ p) eqn:E; [apply app_nil in E as [_ ->]|].
Qed.

Lemma fine_parent seen ls p : p ≠ [] → free ls (removelast p) → top seen p → fine seen ls (root ++ removelast p).
Proof.
  intros Hp Hf Ht. destruct (decide (removelast p = [])) as [->|Hne]; [left; by rewrite app_nil_r|].
  apply fine_below; [done|by apply top_removelast].
Qed.

Lemma write_entry_keeps mode p e seen ls :
  p ≠ [] → free ls (removelast p) → top seen p →
  triple (inv seen ls) (write_entry out fuel mode (root ++ p) e) (λ _, inv seen ls) (inv seen ls).
Proof.
  intros Hp Hf Ht. unfold write_entry. eapply triple_seq; [by apply triple_lift|]. intros above. apply triple_pure.
  rewrite parent_below by done. intros [= <-]. eapply triple_seq; [by apply directories_keeps, fine_parent|]. intros [].
  eapply triple_seq; [by apply triple_lift|]. intros bits. apply triple_pure. intros _. destruct (_ && _); [by apply triple_fail|].
  eapply triple_seq; [apply triple_with_err, (create_below _ p seen ls); [done|done|done|done]|]. intros q. apply triple_pure. intros ->.
  eapply triple_seq; [by apply copy_entry_keeps|]. intros []. eapply triple_seq; [by apply triple_with_err, fd_chmod_keeps|]. intros [].
  apply triple_with_err, triple_call; [done|]. by intros fs fs' [] Hi [= <-].
Qed.

(** ** Entries *)

Lemma split_first (sep : N → bool) c s : sep c = false → ∃ p ps, split_on sep (c :: s) = (c :: p) :: ps.
Proof. intros Hc. cbn. rewrite Hc. destruct (split_on sep s) as [|p ps]; eauto. Qed.

Lemma names_normal cs : forallb is_normal cs = true → cs = Normal <$> omap normal cs.
Proof.
  induction cs as [|c cs IH]; [done|]. cbn. intros [Hc Hcs]%andb_true_iff. destruct c; try done. cbn. by rewrite <- IH.
Qed.

Lemma safe_path_names raw : safe_path raw = true → components raw = Normal <$> names raw ∧ names raw ≠ [].
Proof.
  unfold safe_path, names. rewrite !andb_true_iff. intros [[Hne%negb_true_iff%bool_decide_eq_false _] Hc].
  pose proof (names_normal _ Hc) as Hn. split; [done|]. intros E. rewrite E in Hn. cbn in Hn. clear E Hc.
  destruct raw as [|c raw]; [done|]. unfold components in Hn. destruct (decide (c = 47)) as [->|Hc]; [done|].
  destruct (split_first (λ c, c =? 47) c raw) as (p & ps & Hs); [by apply N.eqb_neq|]. rewrite Hs in Hn.
  assert ((if decide (head ((c :: p) :: ps) = Some (lit ".")) then [CurDir] else []) ++ omap component ((c :: p) :: ps) = []) as Hn'
    by (destruct c as [|[[]|[]|]]; try done; repeat (destruct p0; try done)).
  clear Hn. case_decide as Hd; [done|]. cbn [app omap list_omap] in Hn'. unfold component in Hn'.
  rewrite decide_False in Hn' by done. rewrite decide_False in Hn' by (intros E; apply Hd; cbn [head]; by rewrite E). by case_decide.
Qed.

Lemma safe_link_depth raw target :
  safe_path raw = true → safe_link raw target = true →
  ∃ d, link_depth (lenN (names raw) - 1) (components target) = Some d ∧ 1 ≤ d.
Proof.
  intros [Hc _]%safe_path_names. unfold safe_link. destruct (_ || _); [done|]. rewrite Hc.
  assert (lenN (Normal <$> names raw) = lenN (names raw)) as -> by (unfold lenN; by rewrite length_fmap).
  destruct (link_depth _ _) as [d|]; [|done]. rewrite N.leb_le. eauto.
Qed.

(** What the entries so far come to. *)
Record good (mode : Mode) (name : path) (st : State) : Prop := MkGood {
  good_seen p : p ∈ seen st → p ≠ [];
  good_dirs d : d ∈ dirs st → d ≠ [] ∧ top (seen st) d;
  good_links p t : (p, t) ∈ links st →
    p ∈ seen st ∧ mode = Mac ∧ ∃ d, link_depth (lenN p - 1) (components t) = Some d ∧ 1 ≤ d;
  good_root p : p ∈ seen st → match mode with Mac => head p = bundle_root st | Linux => p = name end }.

Lemma ancestors_nonempty p n a : a ∈ ancestors_of n p → a ≠ [] ∧ head a = head p.
Proof.
  revert p. induction n as [|n IH]; intros p; [set_solver|]. destruct p as [|x [|y p]]; cbn [ancestors_of]; [set_solver..|].
  intros [->|Ha]%elem_of_cons; [done|]. by apply IH in Ha.
Qed.

Lemma ancestors_prefix p n a : (length p ≤ n)%nat → a ≠ [] → a `prefix_of` removelast p → a ∈ ancestors_of n p.
Proof.
  revert p. induction n as [|n IH]; intros p Hn Ha Hp.
  { destruct p; [|cbn in Hn; lia]. by apply prefix_nil_inv in Hp. }
  destruct p as [|x [|y p]]; cbn [ancestors_of]; [by apply prefix_nil_inv in Hp..|].
  destruct (decide (a = removelast (x :: y :: p))) as [->|Hne]; [by left|]. right. apply IH; [|done|].
  - rewrite removelast_firstn_len, length_firstn. cbn in *. lia.
  - destruct Hp as [k Hk]. destruct k as [|z k _] using rev_ind; [by rewrite app_nil_r in Hk|].
    rewrite Hk, app_assoc, removelast_end. by apply prefix_app_r.
Qed.

Lemma top_self seen p : top (p :: seen) p.
Proof. exists p. split; [set_solver|done]. Qed.

Lemma free_nil p : free [] p.
Proof. intros pre _ _. set_solver. Qed.

Lemma top_more seen seen' q : top seen q → seen ⊆ seen' → top seen' q.
Proof. intros (p & Hp & Hh) Hs. exists p. split; [by apply Hs|done]. Qed.

Lemma good_entry mode name st k p found size dirs' links' :
  good mode name st → p ≠ [] → entry_root mode name k p (MkState (p :: seen st) dirs' (links st) (bundle_root st) (expanded st)) = Ok found →
  (∀ d, d ∈ dirs' → d ∈ dirs st ∨ d ≠ [] ∧ head d = head p) →
  (∀ q t, (q, t) ∈ links' → (q, t) ∈ links st ∨
     q = p ∧ mode = Mac ∧ ∃ d, link_depth (lenN p - 1) (components t) = Some d ∧ 1 ≤ d) →
  good mode name (MkState (p :: seen st) dirs' links' found size).
Proof.
  intros [Hs Hd Hl Hr] Hp He Hd' Hl'. split; cbn.
  - intros q [->|Hq]%elem_of_cons; [done|by apply Hs].
  - intros d [Hin|[Hne Hh]]%Hd'; [destruct (Hd d Hin) as [? Ht]; split; [done|]; eapply top_more; [done|set_solver]|].
    split; [done|]. exists p. split; [set_solver|done].
  - intros q t [Hin|(-> & -> & Hx)]%Hl'; [destruct (Hl q t Hin) as (? & ? & ?); split; [set_solver|done]|].
    split; [set_solver|done].
  - unfold entry_root in He. destruct mode; cbn [bundle_root] in He.
    + destruct (bool_decide (p = name)) eqn:Ep; [|done]. apply bool_decide_eq_true in Ep as ->.
      intros q [->|Hq]%elem_of_cons; [done|by apply Hr].
    + destruct (List.find _ ROOTS) as [root'|] eqn:Ef; [|done]. cbn [ok_or mbind res_bind] in He.
      apply List.find_some in Ef as [_ Ef%bool_decide_eq_true]. destruct (bundle_root st) as [other|] eqn:Eb.
      * case_decide as E; [|done]. injection He as <-. intros q [->|Hq]%elem_of_cons; [done|].
        apply Hr in Hq. congruence.
      * injection He as <-. intros q [->|Hq]%elem_of_cons; [done|]. pose proof (Hr q Hq) as Hb. apply Hs in Hq. by destruct q.
Qed.

Definition going (mode : Mode) (name : path) (st : State) (fs : Fs) : Prop := good mode name st ∧ inv (seen st) [] fs.

Lemma entry_step_keeps mode name st e :
  triple (going mode name st) (entry_step out fuel root mode name st e) (going mode name) untouched.
Proof.
  assert (∀ fs, going mode name st fs → untouched fs) as Hout by (intros fs [_ Hi]; by eapply inv_out).
  unfold entry_step. eapply triple_seq; [by apply triple_lift|]. intros raw. apply triple_pure. intros _.
  destruct (safe_path raw) eqn:Hsafe; [|by apply triple_fail]. pose proof (safe_path_names _ Hsafe) as [_ Hp]. cbn [negb orb].
  destruct (bool_decide _); [by apply triple_fail|]. set (p := names raw) in *. cbn [seen dirs links bundle_root expanded].
  eapply triple_seq; [by apply triple_lift|]. intros found. apply triple_pure. intros Hfound.
  eapply triple_seq; [by apply triple_lift|]. intros size. apply triple_pure. intros _.
  intros s [Hg Hi]. revert s Hi.
  assert (∀ dirs' links', (∀ d, d ∈ dirs' → d ∈ ancestors p ++ dirs st ∨ d = p) →
    (∀ q t, (q, t) ∈ links' → (q, t) ∈ links st ∨ q = p ∧ mode = Mac ∧ ∃ d, link_depth (lenN p - 1) (components t) = Some d ∧ 1 ≤ d) →
    good mode name (MkState (p :: seen st) dirs' links' found size)) as Hgood.
  { intros dirs' links' Hd Hl. eapply good_entry; [done|done|done| |done]. intros d [[Ha|?]%elem_of_app| ->]%Hd; [right|by left|by right].
    by apply ancestors_nonempty in Ha. }
  assert (∀ fs, inv (seen st) [] fs → inv (p :: seen st) [] fs) as Hmore by (intros fs Hi; eapply inv_more; [done|set_solver|done]).
  assert (∀ fs, inv (p :: seen st) [] fs → untouched fs) as Hout' by (intros fs Hi; by eapply inv_out).
  destruct (bool_decide (kind e = KSymlink) && bool_decide (mode = Mac)) eqn:Hk1.
  { apply andb_true_iff in Hk1 as [_ Hmac%bool_decide_eq_true].
    eapply triple_seq; [by apply triple_lift; intros fs Hi; apply Hout', Hmore|]. intros ln. apply triple_pure. intros _.
    eapply triple_seq; [by apply triple_lift; intros fs Hi; apply Hout', Hmore|]. intros target. apply triple_pure. intros _.
    destruct (safe_link raw target) eqn:Hlink; [|by apply triple_fail; intros fs Hi; apply Hout', Hmore].
    destruct (entry_size e =? 0); [|by apply triple_fail; intros fs Hi; apply Hout', Hmore]. apply triple_return. intros fs Hi.
    split; [|by apply Hmore]. apply Hgood; [by left|]. intros q t [?|[= -> ->]%list_elem_of_singleton]%elem_of_app; [by left|right].
    split; [done|]. split; [done|]. by apply safe_link_depth. }
  destruct (bool_decide (kind e = KDir) && bool_decide (mode = Mac)).
  { destruct (entry_size e =? 0); [|by apply triple_fail; intros fs Hi; apply Hout', Hmore].
    eapply triple_seq.
    { eapply triple_conseq; [apply (directories_keeps (root ++ p) (p :: seen st) []), fine_below; [apply free_nil|apply top_self]| |done|done]. done. }
    intros []. apply triple_return. intros fs Hi. split; [|done]. apply Hgood; [|by left].
    intros d [->|?]%elem_of_cons; [by right|by left]. }
  destruct (bool_decide (kind e = KFile)); [|by apply triple_fail; intros fs Hi; apply Hout', Hmore].
  eapply triple_seq.
  { eapply triple_conseq; [apply (write_entry_keeps mode p e (p :: seen st) []); [done|apply free_nil|apply top_self]| |done|done]. done. }
  intros []. apply triple_return. intros fs Hi. split; [|done]. apply Hgood; [by left|by left].
Qed.

Lemma entries_loop_keeps mode name es index st :
  triple (going mode name st) (entries_loop out fuel root mode name index st es) (going mode name) untouched.
Proof.
  revert index st. induction es as [|e es IH]; intros index st; cbn [entries_loop]; [by apply triple_return|].
  assert (∀ fs, going mode name st fs → untouched fs) as Hout by (intros fs [_ Hi]; by eapply inv_out).
  eapply triple_seq; [by apply triple_check|]. intros []. destruct (_ <=? _); [by apply triple_fail|].
  eapply triple_seq; [by apply triple_lift|]. intros e'. apply triple_pure. intros _.
  eapply triple_seq; [apply entry_step_keeps|]. intros st'. apply IH.
Qed.

Lemma trailing_keeps (P R : Fs → Prop) reads : (∀ fs, P fs → R fs) → triple P (trailing out reads) (λ _, P) R.
Proof.
  intros HR. induction reads as [|[[|x bytes]|] reads IH]; cbn [trailing];
    (eapply triple_seq; [by apply triple_check|]; intros []); try (by apply triple_return); [|by apply triple_fail].
  destruct (existsb _ _); [by apply triple_fail|apply IH].
Qed.

Lemma make_dirs_keeps seen ps :
  (∀ d, d ∈ ps → d ≠ [] ∧ top seen d) → triple (inv seen []) (make_dirs out fuel root ps) (λ _, inv seen []) untouched.
Proof.
  assert (∀ fs, inv seen [] fs → untouched fs) as Hout by (intros fs Hi; by eapply inv_out).
  induction ps as [|p ps IH]; intros Hps; cbn [make_dirs]; [by apply triple_return|]. destruct (Hps p) as [Hp Ht]; [set_solver|].
  eapply triple_seq; [by apply triple_check|]. intros [].
  eapply triple_seq; [eapply triple_conseq; [apply (directories_keeps (root ++ p) seen []), fine_below; [apply free_nil|done]|done|done|done]|]. intros [].
  eapply triple_seq; [eapply triple_conseq; [apply triple_with_err, (chmod_keeps p 493 seen []); [done|apply free_nil]|done|done|done]|]. intros [].
  apply IH. intros d Hd. apply Hps. set_solver.
Qed.

Lemma make_links_keeps seen ls todo :
  todo ⊆ ls → (∀ p t, (p, t) ∈ ls → p ≠ [] ∧ top seen p ∧ free ls (removelast p)) →
  triple (inv seen ls) (make_links out fuel root todo) (λ _, inv seen ls) untouched.
Proof.
  intros Hsub Hls. assert (∀ fs, inv seen ls fs → untouched fs) as Hout by (intros fs Hi; by eapply inv_out).
  induction todo as [|[p t] todo IH]; cbn [make_links]; [by apply triple_return|].
  destruct (Hls p t) as (Hp & Ht & Hf); [by apply Hsub; left|].
  eapply triple_seq; [by apply triple_lift|]. intros above. apply triple_pure. rewrite parent_below by done. intros [= <-].
  eapply triple_seq; [eapply triple_conseq; [by apply directories_keeps, fine_parent|done|done|done]|]. intros [].
  apply (triple_seq _ _ (λ _, inv seen ls)).
  { eapply triple_conseq; [apply triple_with_err, (create_below (Link t) p seen ls); [done|done|done|]|done| |done].
    - intros t' [= <-]. apply Hsub, list_elem_of_here.
    - by intros q fs [_ Hi]. }
  intros q. apply IH. intros x Hx. apply Hsub. by right.
Qed.

(** ** Where links lead *)

Lemma walk_dirs n fs at_ ps cs r :
  (∀ pre, pre ≠ [] → pre `prefix_of` ps → ∃ mode, fs !! (at_ ++ pre) = Some (Dir mode)) →
  walk n fs at_ ((Normal <$> ps) ++ cs) = Ok r → ∃ n', walk n' fs (at_ ++ ps) cs = Ok r.
Proof.
  revert n at_. induction ps as [|x ps IH]; intros n at_ Hd Hw; [exists n; by rewrite app_nil_r|].
  destruct n as [|n]; [done|]. cbn [fmap list_fmap app walk] in Hw.
  destruct (Hd [x]) as [mode Hm]; [done|apply prefix_cons, prefix_nil|]. rewrite Hm in Hw.
  destruct (IH n (at_ ++ [x])) as [n' Hn']; [|done|exists n'; by rewrite <- app_assoc in Hn'].
  intros pre Hne Hpre. rewrite <- app_assoc. apply Hd; [done|]. by apply prefix_cons.
Qed.

(** A bundle that is a link has nowhere to lead: it is alone in the directory, and
    its target starts there. *)
Lemma bundle_link_stuck fs b t n cs rest r d :
  fs !! (root ++ [b]) = Some (Link t) → (∀ x m, fs !! (root ++ [x]) = Some m → x = b) →
  (∃ d, link_depth 0 (components t) = Some d ∧ 1 ≤ d) →
  link_depth 0 cs = Some d → 1 ≤ d → walk n fs root (cs ++ rest) ≠ Ok r.
Proof.
  intros Hb Honly (d' & Ht & Hd'). revert cs rest d. induction n as [|n IH]; intros cs rest d Hc Hd; [done|].
  destruct cs as [|[| | |x] cs]; cbn in Hc; [injection Hc as <-; lia|done| |done|]; cbn [app walk].
  - by eapply IH.
  - destruct (fs !! (root ++ [x])) as [m|] eqn:Hx; [|done]. pose proof (Honly _ _ Hx) as ->. rewrite Hb in Hx. injection Hx as <-.
    by eapply IH.
Qed.

Lemma bundle_resolved seen ls fs b base :
  inv seen ls fs → (∀ q, top seen q → head q = Some b) →
  (∀ p t, (p, t) ∈ ls → ∃ d, link_depth (lenN p - 1) (components t) = Some d ∧ 1 ≤ d) →
  resolve fuel fs (root ++ [b]) = Ok base → base = root ++ [b].
Proof.
  intros Hi Htop Hls Hr. assert (∀ x m, fs !! (root ++ [x]) = Some m → x = b) as Honly.
  { intros x m Hx. apply (inv_top _ _ _ Hi) in Hx; [|done]. apply Htop in Hx. by injection Hx. }
  destruct (fs !! (root ++ [b])) as [[| |t]|] eqn:Hb.
  3: { exfalso. unfold resolve in Hr. rewrite fmap_app in Hr. apply walk_dirs in Hr as [n Hn].
       - eapply (bundle_link_stuck fs b t n [Normal b] [] base 1); [done|done| |done|done|done].
         apply (Hls [b] t). by apply (inv_link _ _ _ Hi).
       - intros pre Hne Hpre. by eapply inv_root. }
  all: apply resolve_plain in Hr; [done|]; intros pre t Hne Hpre Hl;
    apply prefix_app_cases in Hpre as [Hpre|(k & Hk & -> & Hkb)];
    [destruct (inv_root _ _ _ _ Hi Hne Hpre); congruence|];
    destruct k as [|y k]; [done|]; pose proof (prefix_cons_inv_1 _ _ _ _ Hkb) as ->;
    apply prefix_cons_inv_2, prefix_nil_inv in Hkb as ->; congruence.
Qed.

Lemma triple_exists {F E A X} (P : X → F → Prop) (m : M F E A) Q R :
  (∀ x, triple (P x) m Q R) → triple (λ fs, ∃ x, P x fs) m Q R.
Proof. intros Hm s [x HP]. by apply (Hm x). Qed.

Definition leads (fs : Fs) (b : list N) (p : path) : Prop :=
  ∃ a base, resolve fuel fs (root ++ p) = Ok a ∧ resolve fuel fs (root ++ [b]) = Ok base ∧ base `prefix_of` a.

Lemma canonicalize_pinned fs1 p :
  untouched fs1 → triple (eq fs1) (canonicalize out fuel p) (λ q fs, resolve fuel fs1 p = Ok q ∧ fs1 = fs) untouched.
Proof.
  intros Hu. apply triple_with_err, triple_call; [by intros fs <-|]. intros fs fs' q <- Hc.
  destruct (resolve fuel fs1 p); [|done]. by injection Hc as <- <-.
Qed.

Lemma check_links_pinned fs1 bundle ls :
  untouched fs1 →
  triple (eq fs1) (check_links out fuel root bundle ls)
    (λ _ fs, (∀ p t, (p, t) ∈ ls → ∃ b, bundle = Some b ∧ leads fs1 b p) ∧ fs1 = fs) untouched.
Proof.
  intros Hu. induction ls as [|[p t] ls IH]; cbn [check_links]; [apply triple_return; intros fs <-; split; [set_solver|done]|].
  eapply triple_seq; [by apply canonicalize_pinned|]. intros a. apply triple_pure. intros Ha.
  eapply triple_seq; [apply triple_lift; by intros fs <-|]. intros b. apply triple_pure. intros Hb%ok_or_ok.
  eapply triple_seq; [by apply canonicalize_pinned|]. intros base. apply triple_pure. intros Hbase.
  unfold starts. case_bool_decide as Hpre; [|apply triple_fail; by intros fs <-].
  eapply triple_conseq; [apply IH|done| |done]. intros [] fs [Hl <-]. split; [|done].
  intros q u [[= -> ->]|Hq]%elem_of_cons; [|by eapply Hl]. exists b. split; [done|]. by exists a, base.
Qed.

(** What was unpacked: one tree, in which every link leads to a place inside. *)
Definition unpacked (candidate : path) (fs : Fs) : Prop :=
  untouched fs ∧
  ∃ b, root ++ [b] `prefix_of` candidate
    ∧ (∀ q n, q ≠ [] → fs !! (root ++ q) = Some n → head q = Some b)
    ∧ (∀ q t, q ≠ [] → fs !! (root ++ q) = Some (Link t) → ∃ a, resolve fuel fs (root ++ q) = Ok a ∧ root ++ [b] `prefix_of` a).

Lemma unpacked_from mode name st fs b candidate :
  good mode name st → inv (seen st) (links st) fs →
  (∀ p t, (p, t) ∈ links st → ∃ b, bundle_root st = Some b ∧ leads fs b p) →
  (∀ p, p ∈ seen st → head p = Some b) → root ++ [b] `prefix_of` candidate → unpacked candidate fs.
Proof.
  intros Hg Hi Hl Hb Hpre. split; [by eapply inv_out|]. exists b. split; [done|].
  assert (∀ q, top (seen st) q → head q = Some b) as Htop by (intros q (p & Hp & ->); by apply Hb).
  split; [intros q n Hq Hn; eapply Htop, inv_top; done|].
  intros q t Hq Hn. pose proof (inv_link _ _ _ Hi _ _ Hq Hn) as Hin. destruct (Hl _ _ Hin) as (b' & Hb' & a & base & Ha & Hbase & Hab).
  exists a. split; [done|]. destruct (good_links _ _ _ Hg _ _ Hin) as (Hseen & -> & _).
  pose proof (good_root _ _ _ Hg _ Hseen) as Hroot'. cbn in Hroot'. rewrite Hb, Hb' in Hroot' by done. injection Hroot' as <-.
  assert (base = root ++ [b]) as ->; [|done]. eapply bundle_resolved; [done|done| |done].
  intros p u Hpu. by destruct (good_links _ _ _ Hg _ _ Hpu) as (_ & _ & ?).
Qed.

Lemma no_link_parents st p t mode name :
  good mode name st → existsb (λ p, existsb (λ a, bool_decide (a ∈ (links st).*1)) (ancestors p)) (order out (seen st)) = false →
  (p, t) ∈ links st → p ≠ [] ∧ top (seen st) p ∧ free (links st) (removelast p).
Proof.
  intros Hg He Hp. destruct (good_links _ _ _ Hg _ _ Hp) as (Hs & _ & _). split; [by eapply good_seen|].
  split; [by exists p|]. intros pre Hne Hpre Hin. apply not_true_iff_false in He as []. apply existsb_exists. exists p.
  split; [by apply list_elem_of_In, order_ok|]. apply existsb_exists. exists pre.
  split; [|by apply bool_decide_eq_true]. apply list_elem_of_In. by apply ancestors_prefix.
Qed.

Lemma extract_triple mode name es rest limited :
  triple (eq fs0) (extract out fuel root mode name es rest limited) unpacked untouched.
Proof.
  unfold extract. eapply triple_seq.
  { eapply triple_conseq; [apply (entries_loop_keeps mode (names name) es 0 (MkState [] [] [] None 0))| |done|done].
    intros fs <-. split; [|apply inv_fresh]. split; cbn; set_solver. }
  intros st. assert (∀ fs, going mode (names name) st fs → untouched fs) as Hout by (intros fs [_ Hi]; by eapply inv_out).
  eapply triple_seq; [by apply trailing_keeps|]. intros []. destruct limited; [by apply triple_fail|].
  destruct (existsb _ _) eqn:He; [by apply triple_fail|]. apply triple_pure. intros Hg.
  eapply triple_seq; [apply make_dirs_keeps; intros d Hd; eapply good_dirs; [done|by apply order_ok in Hd]|]. intros [].
  eapply triple_seq.
  { eapply triple_conseq; [apply (make_links_keeps (seen st) (links st) (links st)); [done|]| |done|done].
    - intros p t Hp. by eapply no_link_parents.
    - intros fs Hi. eapply inv_more; [done|done|set_solver]. }
  intros [].
  apply (triple_conseq (λ fs, ∃ fs1, inv (seen st) (links st) fs1 ∧ fs1 = fs) _ _ unpacked _ untouched); [|by eauto|done|done].
  apply triple_exists. intros fs1. apply triple_pure. intros Hi. pose proof (inv_out _ _ _ Hi) as Hu.
  eapply triple_seq; [by apply check_links_pinned|]. intros []. apply triple_pure. intros Hl.
  apply (triple_seq _ _ (λ c fs, c = match mode with Mac => root ++ from_option (λ b, [b]) [] (bundle_root st) | Linux => root ++ names name end
    ∧ (mode = Mac → is_Some (bundle_root st)) ∧ fs1 = fs)).
  { destruct mode; [apply triple_return; by intros fs <-|]. eapply triple_seq; [apply triple_lift; by intros fs <-|].
    intros b. apply triple_pure. intros ->%ok_or_ok. apply triple_return. intros fs <-. eauto. }
  intros c. apply triple_pure. intros ->. apply triple_pure. intros Hm.
  eapply triple_seq.
  { apply triple_attempt. apply (triple_call _ (eq fs1) _ (λ _, eq fs1) untouched); [by intros fs <-|]. intros fs fs' a <- [= <- <-]. done. }
  intros there. destruct (bool_decide (seen st = [])) eqn:Hs; [apply triple_fail; by destruct there; [intros fs <-|]|].
  destruct there as [[]|e]; cbn; [|apply triple_fail; by intros fs <-|by apply triple_fail].
  apply triple_return. intros fs <-. apply bool_decide_eq_false in Hs.
  destruct (seen st) as [|p ps] eqn:Es; [done|]. assert (p ∈ seen st) as Hp by (rewrite Es; left).
  pose proof (good_root _ _ _ Hg) as Hr. rewrite <- Es in Hi. destruct mode.
  - pose proof (Hr p Hp) as Hpn. assert (p ≠ []) as Hne by (by eapply good_seen). destruct (head p) as [b|] eqn:Hh; [|by destruct p].
    eapply (unpacked_from Linux (names name) st fs1 b); [done|done|done|..].
    + intros q Hq. apply Hr in Hq as ->. by rewrite <- Hpn.
    + rewrite <- Hpn. destruct p as [|y p]; [done|]. injection Hh as <-. apply prefix_app, prefix_cons, prefix_nil.
  - destruct Hm as [b Hb]; [done|]. eapply (unpacked_from Mac (names name) st fs1 b); [done|done|done|..].
    + intros q Hq. by rewrite (Hr q Hq).
    + by rewrite Hb.
Qed.
End confined.

(** ** An archive of a bundle *)

Module Bundle.
Definition quiet : Outside.
Proof. refine (MkOutside (λ _, false) (λ _, false) (λ _, false) (λ l, l) _). done. Defined.

Definition root : path := [lit "stage"; lit "tree"].
Definition disk : Fs :=
  <[[lit "stage"] := Dir 448]> (<[[lit "stage"; lit "tree"] := Dir 448]> (<[[lit "home"] := File 384 [1]]> ∅)).

Definition entry (p : string) (k : Kind) (target : option (list N)) (data : list N) : option Entry :=
  Some (MkEntry (Some (lit p)) k (lenN data) (Some target) (Some 493) [Some data]).
Definition payload : list (option Entry) :=
  [entry "Sheprd.app/" KDir None []; entry "Sheprd.app/Contents/MacOS/sheprd" KFile None [7; 7];
   entry "Sheprd.app/Contents/run" KSymlink (Some (lit "../Contents/MacOS/sheprd")) []].

(** A link to a link: each stays inside by its own text, and the chain does not. *)
Definition escape : list (option Entry) :=
  [entry "Sheprd.app/a/b/c" KFile None []; entry "Sheprd.app/a/b/l" KSymlink (Some (lit "../..")) [];
   entry "Sheprd.app/up" KSymlink (Some (lit "a/b/l/../..")) []].

Example unpacks :
  (extract quiet 100 root Mac [] payload [Some [0; 0]] false (MkOs disk 0 [])).2 = Ok (root ++ [lit "Sheprd.app"]).
Proof. vm_compute. reflexivity. Qed.

Example refuses_escape : (extract quiet 100 root Mac [] escape [] false (MkOs disk 0 [])).2 = Err SymlinkEscape.
Proof. vm_compute. reflexivity. Qed.

Lemma fresh : fresh_root root disk.
Proof.
  split.
  - intros r Hne [k Hk]. exists 448. destruct r as [|a [|b [|c r]]]; [by contradiction Hne|..].
    + assert (a = lit "stage") as -> by (unfold root in Hk; cbn [app] in Hk; congruence). vm_compute. reflexivity.
    + assert (a = lit "stage") as -> by (unfold root in Hk; cbn [app] in Hk; congruence).
      assert (b = lit "tree") as -> by (unfold root in Hk; cbn [app] in Hk; congruence). vm_compute. reflexivity.
    + exfalso. apply (f_equal length) in Hk. cbn in Hk. lia.
  - intros p (q & Hq & ->). destruct q as [|x q]; [by contradiction Hq|].
    assert (∀ k : path, (length k < 3)%nat → k ≠ root ++ x :: q) as Hk.
    { intros k Hk ->. rewrite length_app in Hk. cbn in Hk. lia. }
    unfold disk. rewrite !lookup_insert_ne by (apply Hk; cbn; lia). apply lookup_empty.
Qed.
End Bundle.

(** C8: Whatever an archive holds and whichever calls fail, unpacking it touches
    nothing outside the fresh private directory, not even in between; when it
    succeeds, everything unpacked is under one name, and every symbolic link leads
    to a place inside it. *)
Theorem extract_confined out fuel root mode name es rest limited s :
  fresh_root root (files s) →
  let '(s', r) := extract out fuel root mode name es rest limited s in
  (∃ new, trace s' = trace s ++ new ∧ Forall (untouched root (files s)) new)
  ∧ untouched root (files s) (files s')
  ∧ ∀ candidate, r = Ok candidate → unpacked fuel root (files s) candidate (files s').
Proof.
  intros Hr. destruct (extract_triple out fuel root (files s) Hr mode name es rest limited s eq_refl) as [Ht Hq].
  destruct (extract _ _ _ _ _ _ _ _ s) as [s' [c|e]]; split; try done.
  - split; [by destruct Hq|]. by intros ? [= <-].
Qed.

Lemma extract_confined_witness :
  unpacked 100 Bundle.root Bundle.disk (Bundle.root ++ [lit "Sheprd.app"])
    (files (extract Bundle.quiet 100 Bundle.root Mac [] Bundle.payload [Some [0; 0]] false (MkOs Bundle.disk 0 [])).1).
Proof.
  pose proof (extract_confined Bundle.quiet 100 Bundle.root Mac [] Bundle.payload [Some [0; 0]] false (MkOs Bundle.disk 0 [])) as Hc.
  specialize (Hc Bundle.fresh).
  set (o := extract Bundle.quiet 100 Bundle.root Mac [] Bundle.payload [Some [0; 0]] false (MkOs Bundle.disk 0 [])) in *.
  assert (o.2 = Ok (Bundle.root ++ [lit "Sheprd.app"])) as Ho by (vm_compute; reflexivity).
  clearbody o. destruct o as [s' r]. exact (proj2 (proj2 Hc) _ Ho).
Defined.
End Archive.

Module Apply.
Import Files.

(** What a path holds: a file by its identity, a directory with all that is in it,
    or a link. The paths of an update are not inside one another. *)
Inductive Obj := OFile (dev ino : N) | OTree (id : N) | OLink (target : list N).
#[export] Instance Obj_eq_dec : EqDecision Obj.
Proof. solve_decision. Defined.

Abbreviation Fs := (gmap (list (list N)) Obj) (only parsing).

Definition LEGACY : list N := lit "Herdr.app".
Definition CURRENT : list N := lit "Sheprd.app".

Definition is_file (o : Obj) : bool := match o with OFile _ _ => true | _ => false end.
Definition is_symlink (o : Obj) : bool := match o with OLink _ => true | _ => false end.

(** The same [dev] and [ino]. *)
Definition same_file (a b : Obj) : bool :=
  match a, b with OFile d i, OFile d' i' => (d =? d') && (i =? i') | _, _ => false end.

Section apply.
Context (out : Outside).

(** ** Calls *)

(** [try_exists] follows a link. *)
Definition try_exists (p : path) : M Fs IoError bool := λ s,
  call out (λ fs, Ok (fs, match fs !! p with
                          | None => false
                          | Some (OLink _) => resolves out (calls s)
                          | Some _ => true
                          end)) s.

Definition symlink_metadata (p : path) : M Fs IoError Obj := call out (λ fs, o ← ok_or NotFound (fs !! p); Ok (fs, o)).

Definition hard_link (old new : path) : M Fs IoError unit :=
  call out (λ fs,
    match fs !! old, fs !! new with
    | None, _ => Err NotFound
    | Some (OTree _), _ => Err OtherIo
    | Some _, Some _ => Err AlreadyExists
    | Some o, None => Ok (<[new := o]> fs, tt)
    end).

(** [rename] replaces what is no directory by what is none; two names of one file
    are left alone. *)
Definition rename_result (fs : Fs) (old new : path) : res IoError Fs :=
  match fs !! old with
  | None => Err NotFound
  | Some o =>
      match fs !! new with
      | None => Ok (<[new := o]> (delete old fs))
      | Some o' =>
          if same_file o o' || bool_decide (old = new) then Ok fs
          else match o, o' with
               | OTree _, _ | _, OTree _ => Err OtherIo
               | _, _ => Ok (<[new := o]> (delete old fs))
               end
      end
  end.

Definition rename (old new : path) : M Fs IoError unit := call out (λ fs, fs ← rename_result fs old new; Ok (fs, tt)).

Definition symlink (target : list N) (p : path) : M Fs IoError unit :=
  call out (λ fs, match fs !! p with Some _ => Err AlreadyExists | None => Ok (<[p := OLink target]> fs, tt) end).

Definition remove_file (p : path) : M Fs IoError unit :=
  call out (λ fs,
    match fs !! p with
    | None => Err NotFound
    | Some (OTree _) => Err OtherIo
    | Some _ => Ok (delete p fs, tt)
    end).

Definition sync_dir : M Fs IoError unit :=
  do _ := call out (λ fs, Ok (fs, tt)) in call out (λ fs, Ok (fs, tt)).

(** ** bundle.rs *)

Definition renamed (bundle : path) : option path :=
  if decide (last bundle = Some LEGACY) then Some (removelast bundle ++ [CURRENT]) else None.

(** Hiding the link is a command whose failure is only logged. *)
Definition link_legacy (legacy : path) : M Fs Error unit := with_err Io (symlink CURRENT legacy).

(** ** apply.rs *)

Definition target (destination candidate : path) (mode : Mode) (recorded : bool) : M Fs Error path :=
  let moved := renamed destination ≫= λ r, if decide (mode = Mac ∧ last r = last candidate) then Some r else None in
  match moved with
  | None => ret destination
  | Some r =>
      if recorded then ret destination
      else
        do meta := attempt (symlink_metadata r) in
        match meta with
        | Ok _ => ret destination
        | Err NotFound => ret r
        | Err e => err (Io e)
        end
  end.

Definition remove_legacy_link (legacy : path) : M Fs IoError unit :=
  do meta := attempt (symlink_metadata legacy) in
  match meta with
  | Ok o => if is_symlink o then remove_file legacy else err AlreadyExists
  | Err NotFound => ret tt
  | Err e => err e
  end.

Definition remove_failed_linux_backup (destination backup : path) (original : Obj) : M Fs Error unit :=
  do current := with_err Io (symlink_metadata destination) in
  do saved := with_err Io (symlink_metadata backup) in
  if negb (is_file original)
     || existsb (λ meta, negb (is_file meta) || negb (same_file meta original)) [current; saved]
  then err RecoveryChanged
  else with_err Io (remove_file backup).

Definition parent (p : path) : option path := match p with [] => None | _ => Some (removelast p) end.

(** [launch] is what starting the new program answers. *)
Definition replace (destination target candidate backup : path) (mode : Mode) (launch : res Error unit) : M Fs Error unit :=
  let moved := negb (bool_decide (target = destination)) in
  do taken := with_err Io (try_exists backup) in
  if (taken : bool) then err RecoveryExists
  else
    do original := with_err Io (symlink_metadata destination) in
    do _ := with_err Io (match mode with Linux => hard_link destination backup | Mac => rename destination backup end) in
    do swapped := attempt (rename candidate target) in
    match swapped with
    | Err error =>
        match mode with
        | Mac =>
            do back := attempt (rename backup destination) in
            match back with Err rollback => err (ReplacementRollback error rollback) | Ok _ => err (Io error) end
        | Linux =>
            do clean := attempt (remove_failed_linux_backup destination backup original) in
            match clean with Err cleanup => err (ReplacementCleanup error cleanup) | Ok _ => err (Io error) end
        end
    | Ok _ =>
        do started := attempt (do _ := if moved then link_legacy destination else ret tt in lift launch) in
        match started with
        | Err error =>
            do recovered := attempt (
              do _ := if moved then remove_legacy_link destination else ret tt in
              do _ := rename target candidate in
              rename backup destination) in
            match recovered with Err recovery => err (RestartRecovery error recovery) | Ok _ => err error end
        | Ok _ =>
            do _ := lift (ok_or MissingDestinationParent (parent destination)) in
            with_err Io sync_dir
        end
    end.

(** The end of [helper]: [executable] is what [replacement_executable] finds in
    the candidate. *)
Definition install_candidate (stage destination candidate : path) (mode : Mode) (recorded : bool)
    (executable : res Error path) (launch : res Error unit) : M Fs Error unit :=
  let backup := stage ++ [lit "previous-installation"] in
  do target := target destination candidate mode recorded in
  do _ := lift executable in
  replace destination target candidate backup mode launch.
End apply.

(** ** Following a program from known files

    [spec f m T Q]: from the files [f], [m] ends as [Q] says, and the files are in
    [T] after each call. *)

Definition spec {F E A} (f : F) (m : M F E A) (T : F → Prop) (Q : res E A → F → Prop) : Prop :=
  ∀ s, files s = f → (∃ new, trace (m s).1 = trace s ++ new ∧ Forall T new) ∧ Q (m s).2 (files (m s).1).

Section specs.
Context {F : Type}.
Implicit Types (f : F) (T : F → Prop).

Lemma spec_bind {E A B} f (m : M F E A) (k : A → M F E B) T Q :
  spec f m T (λ r f', match r with Ok a => spec f' (k a) T Q | Err e => Q (Err e) f' end) → spec f (bind m k) T Q.
Proof.
  intros Hm s Hs. unfold bind. destruct (Hm s Hs) as [(new & Hn & Hf) Hq]. destruct (m s) as [s' [a|e]]; cbn in *; [|by eauto].
  destruct (Hq s' eq_refl) as [(new' & Hn' & Hf') Hq']. split; [|done]. exists (new ++ new').
  rewrite Hn', Hn, app_assoc. split; [done|]. by apply Forall_app.
Qed.

Lemma spec_done {E A} f (r : res E A) T (Q : res E A → F → Prop) (m : M F E A) :
  (∀ s, m s = (s, r)) → Q r f → spec f m T Q.
Proof. intros Hm Hq s <-. rewrite Hm. split; [|done]. exists []. by rewrite app_nil_r. Qed.

Lemma spec_attempt {E E' A} f (m : M F E A) T (Q : res E' (res E A) → F → Prop) :
  spec f m T (λ r, Q (Ok r)) → spec f (attempt m) T Q.
Proof. intros Hm s Hs. unfold attempt. destruct (Hm s Hs) as [Ht Hq]. by destruct (m s). Qed.

Lemma spec_with_err {E E' A} (g : E → E') f (m : M F E A) T Q :
  spec f m T (λ r, Q (map_err g r)) → spec f (with_err g m) T Q.
Proof. intros Hm s Hs. unfold with_err. destruct (Hm s Hs) as [Ht Hq]. by destruct (m s). Qed.

Lemma spec_call {A} out f (g : F → res IoError (F * A)) T Q :
  T f → Q (Err OtherIo) f → match g f with Ok (f', a) => T f' ∧ Q (Ok a) f' | Err e => Q (Err e) f end →
  spec f (call out g) T Q.
Proof.
  intros HT He Hg s Hs. unfold call. rewrite Hs. destruct (fails out (calls s)); cbn.
  { split; [|done]. exists [f]. split; [done|by repeat constructor]. }
  destruct (g f) as [[f' a]|e]; cbn; (split; [|by try destruct Hg]); [exists [f']|exists [f]]; (split; [done|]); constructor; [|constructor| |constructor]; by try destruct Hg.
Qed.

Lemma spec_conseq {E A} f (m : M F E A) (T : F → Prop) (Q Q' : res E A → F → Prop) :
  spec f m T Q → (∀ r f', Q r f' → Q' r f') → spec f m T Q'.
Proof. intros Hm HQ s Hs. destruct (Hm s Hs) as [Ht Hq]. split; [done|by apply HQ]. Qed.
End specs.

Ltac finish := (eapply spec_done; [by intros|]).

(** ** The swap *)

Section swap.
Context (out : Outside) (fs0 : Fs) (destination candidate backup : path) (old new : Obj) (mode : Mode).

(** The installation and the candidate are there, and are two things; the place
    for the backup is free. *)
Record ready : Prop := MkReady {
  ready_old : fs0 !! destination = Some old;
  ready_new : fs0 !! candidate = Some new;
  ready_path : destination ≠ [];
  ready_apart : destination ≠ candidate;
  ready_two : same_file new old = false;
  ready_backup : fs0 !! backup = None }.

(** Where the candidate goes: the installation's place, or a free one. *)
Definition placed (to : path) : Prop := to = destination ∨ mode = Mac ∧ fs0 !! to = None ∧ to ≠ backup.

(** Nothing is lost: the old installation and the new one are both somewhere, and
    every other path is as it was. *)
Definition survive (to : path) (fs : Fs) : Prop :=
  (fs !! destination = Some old ∨ fs !! backup = Some old)
  ∧ (fs !! candidate = Some new ∨ fs !! to = Some new)
  ∧ ∀ p, p ≠ destination → p ≠ candidate → p ≠ backup → p ≠ to → fs !! p = fs0 !! p.

Definition installed (to : path) (fs : Fs) : Prop :=
  fs !! to = Some new ∧ fs !! backup = Some old ∧ fs !! candidate = None
  ∧ (to ≠ destination → fs !! destination = Some (OLink CURRENT)).

(** How [replace] ends. *)
Definition outcome (to : path) (r : res Error unit) (fs : Fs) : Prop :=
  survive to fs ∧
  match r with
  | Ok _ => installed to fs
  | Err (ReplacementRollback _ _) =>
      mode = Mac ∧ fs !! destination = None ∧ fs !! backup = Some old ∧ fs !! candidate = Some new
  | Err (ReplacementCleanup _ _) =>
      mode = Linux ∧ fs !! destination = Some old ∧ fs !! candidate = Some new
  | Err (RestartRecovery _ _) => True
  | Err (Io _) => fs = fs0 ∨ installed to fs
  | Err _ => fs = fs0
  end.

Context (Hready : ready) (to : path) (Hto : placed to).

(** The files after the backup, and after the candidate is in place. *)
Definition saved : Fs := match mode with Linux => <[backup := old]> fs0 | Mac => <[backup := old]> (delete destination fs0) end.
Definition swapped : Fs := <[to := new]> (delete candidate saved).

Lemma backup_free : backup ≠ destination ∧ backup ≠ candidate.
Proof. destruct Hready. split; intros ->; congruence. Qed.

Lemma to_free : to ≠ candidate ∧ to ≠ backup.
Proof.
  destruct Hready, backup_free. destruct Hto as [->|(_ & Hn & Hb)]; [done|]. split; [|done]. intros ->. congruence.
Qed.

Ltac facts := destruct Hready as [Hold Hnew Hpath Hapart Htwo Hback], backup_free as [Hbd Hbc], to_free as [Htc Htb].

Ltac look := repeat (rewrite lookup_insert_eq || (rewrite lookup_insert_ne by congruence) || rewrite lookup_delete_eq
  || (rewrite lookup_delete_ne by congruence)).

(** Once the backup is taken, a map that differs only at the four places. *)
Ltac pointwise := apply map_eq; intros i; repeat (first
  [ rewrite lookup_insert_eq | rewrite lookup_delete_eq
  | rewrite lookup_insert_ne by congruence | rewrite lookup_delete_ne by congruence
  | match goal with |- context [<[?k := _]> _ !! i] => destruct (decide (k = i)) as [<-|] end
  | match goal with |- context [delete ?k _ !! i] => destruct (decide (k = i)) as [<-|] end ]); congruence.

Lemma survive_start : survive to fs0.
Proof. facts. split; [by left|]. split; [by left|done]. Qed.

Lemma saved_lookup p : p ≠ destination → p ≠ backup → saved !! p = fs0 !! p.
Proof. intros. unfold saved. destruct mode; by look. Qed.

Lemma saved_backup : saved !! backup = Some old.
Proof. unfold saved. destruct mode; by look. Qed.

Lemma survive_saved : survive to saved.
Proof.
  facts. split; [right; apply saved_backup|]. split; [left; by rewrite saved_lookup|]. intros. by rewrite saved_lookup.
Qed.

Lemma backup_step :
  spec fs0 (match mode with Linux => hard_link out destination backup | Mac => rename out destination backup end) (survive to)
    (λ r f, f = if r is Ok _ then saved else fs0).
Proof.
  facts. pose proof survive_saved as Hs. unfold saved in *. destruct mode.
  - apply spec_call; [apply survive_start|done|]. rewrite Hold, Hback. by destruct old.
  - apply spec_call; [apply survive_start|done|]. unfold rename_result. by rewrite Hold, Hback.
Qed.

Lemma saved_to : saved !! to = None ∨ to = destination ∧ saved !! to = Some old.
Proof.
  facts. destruct Hto as [->|(Hm & Hn & _)].
  - unfold saved. destruct mode; [right; by look|left; by look].
  - left. unfold saved. rewrite Hm. look. destruct (decide (destination = to)) as [->|]; by look.
Qed.

Lemma swapped_at :
  swapped !! to = Some new ∧ swapped !! candidate = None ∧ swapped !! backup = Some old
  ∧ (to ≠ destination → swapped !! destination = None)
  ∧ ∀ p, p ≠ destination → p ≠ candidate → p ≠ backup → p ≠ to → swapped !! p = fs0 !! p.
Proof.
  facts. unfold swapped. look. split; [done|]. split; [done|]. split; [apply saved_backup|]. split.
  - intros Hne. look. destruct Hto as [|(Hm & _)]; [done|]. unfold saved. rewrite Hm. by look.
  - intros p H1 H2 H3 H4. look. by rewrite saved_lookup.
Qed.

Lemma survive_swapped : survive to swapped.
Proof. destruct swapped_at as (H1 & H2 & H3 & _ & H5). split; [by right|]. split; [by right|done]. Qed.

Lemma swap_step : spec saved (rename out candidate to) (survive to) (λ r f, f = if r is Ok _ then swapped else saved).
Proof.
  facts. pose proof survive_swapped as Hs. apply spec_call; [apply survive_saved|done|]. unfold rename_result.
  rewrite saved_lookup, Hnew by done. fold swapped. destruct saved_to as [->|[Hd ->]]; [done|].
  rewrite Htwo, bool_decide_eq_false_2 by congruence. cbn [orb]. by destruct new, old.
Qed.

(** The files with the legacy link in place, where there is one. *)
Definition linked : Fs := if bool_decide (to = destination) then swapped else <[destination := OLink CURRENT]> swapped.

Lemma survive_linked : survive to linked.
Proof.
  facts. unfold linked. case_bool_decide; [apply survive_swapped|]. destruct swapped_at as (H1 & H2 & H3 & _ & H5).
  split; [right; by look|]. split; [right; by look|]. intros p Hp1 Hp2 Hp3 Hp4. look. by apply H5.
Qed.

(** What starting a program can answer. *)
Definition started (launch : res Error unit) : Prop := launch = Ok tt ∨ ∃ e, launch = Err (Io e).

Lemma link_step (launch : res Error unit) :
  started launch →
  spec swapped (do _ := if negb (bool_decide (to = destination)) then link_legacy out destination else ret tt in lift launch) (survive to)
    (λ r f, r = Ok tt ∧ f = linked ∨ (∃ e, r = Err (Io e)) ∧ (f = linked ∨ f = swapped)).
Proof.
  intros Hst. assert (launch = Ok tt ∧ linked = linked ∨ (∃ e, launch = Err (Io e)) ∧ (linked = linked ∨ linked = swapped)) as Hq
    by (destruct Hst as [->|[e ->]]; [by left|right; eauto]).
  apply spec_bind. destruct swapped_at as (_ & _ & _ & Hd & _). unfold linked in *. pose proof survive_linked as Hl. unfold linked in Hl.
  case_bool_decide as Hm; cbn [negb]; [by finish; finish|].
  apply spec_with_err, spec_call; [apply survive_swapped|right; eauto|]. rewrite Hd by done. split; [done|]. by finish.
Qed.

Definition unwound : Fs := <[candidate := new]> (delete to swapped).

Lemma unwound_at : unwound !! backup = Some old ∧ unwound !! destination = None ∧ unwound !! candidate = Some new
  ∧ ∀ p, p ≠ destination → p ≠ candidate → p ≠ backup → p ≠ to → unwound !! p = fs0 !! p.
Proof.
  facts. destruct swapped_at as (H1 & H2 & H3 & H4 & H5). unfold unwound. split; [by look|]. split.
  - destruct (decide (to = destination)) as [->|Hne]; look; [done|by apply H4].
  - split; [by look|]. intros p P1 P2 P3 P4. look. by apply H5.
Qed.

Lemma unwound_back : <[destination := old]> (delete backup unwound) = fs0.
Proof.
  facts. destruct unwound_at as (H1 & H2 & H3 & H4). apply map_eq. intros p.
  destruct (decide (p = destination)) as [->|P1]; [by look|]. look. destruct (decide (p = backup)) as [->|P2]; [by look|]. look.
  destruct (decide (p = candidate)) as [->|P3]; [congruence|]. destruct (decide (p = to)) as [->|P4]; [|by apply H4].
  unfold unwound. look. destruct Hto as [|(_ & Hn & _)]; [done|]. done.
Qed.

Lemma recover_step (f : Fs) :
  f = linked ∨ f = swapped →
  spec f (do _ := if negb (bool_decide (to = destination)) then remove_legacy_link out destination else ret tt in
          do _ := rename out to candidate in rename out backup destination) (survive to)
    (λ r fs, survive to fs ∧ (r = Ok tt → fs = fs0)).
Proof.
  intros Hf. facts. destruct swapped_at as (H1 & H2 & H3 & H4 & H5). destruct unwound_at as (U1 & U2 & U3 & U4).
  assert (survive to unwound) as Hu by (split; [by right|]; split; [by left|done]).
  pose proof survive_swapped as Hs. pose proof survive_linked as Hsl. pose proof survive_start as H0.
  assert (spec swapped (do _ := rename out to candidate in rename out backup destination) (survive to)
    (λ r fs, survive to fs ∧ (r = Ok tt → fs = fs0))) as Hrest.
  { apply spec_bind, spec_call; [done|done|]. unfold rename_result at 1. rewrite H1, H2. cbn. fold unwound. split; [done|].
    apply spec_call; [done|done|]. unfold rename_result. rewrite U1, U2. cbn. rewrite unwound_back. done. }
  apply spec_bind. case_bool_decide as Hm; cbn [negb].
  { finish. destruct Hf as [->| ->]; [unfold linked; by rewrite bool_decide_eq_true_2|done]. }
  apply spec_bind, spec_attempt. destruct Hf as [->| ->].
  - unfold linked. rewrite bool_decide_eq_false_2 by done. unfold linked in Hsl. rewrite bool_decide_eq_false_2 in Hsl by done.
    apply spec_call; [done|by finish|]. look. split; [done|]. apply spec_call; [done|done|]. look. rewrite delete_insert_id by auto. done.
  - apply spec_call; [done|by finish|]. rewrite H4 by done. by finish.
Qed.

Lemma cleanup_step :
  mode = Linux →
  spec saved (remove_failed_linux_backup out destination backup old) (survive to)
    (λ r fs, survive to fs ∧ fs !! destination = Some old ∧ fs !! candidate = Some new ∧ (r = Ok tt → fs = fs0)).
Proof.
  intros Hm. facts. pose proof survive_saved as Hs. pose proof survive_start as H0.
  assert (saved !! destination = Some old) as Hd by (unfold saved; rewrite Hm; by look).
  assert (saved !! candidate = Some new) as Hc by (by rewrite saved_lookup).
  assert (delete backup saved = fs0) as Hundo by (unfold saved; rewrite Hm; by apply delete_insert_id).
  pose proof saved_backup as Hb. apply spec_bind, spec_with_err, spec_call; [done|done|]. rewrite Hd. split; [done|].
  apply spec_bind, spec_with_err, spec_call; [done|done|]. rewrite Hb. split; [done|].
  cbn beta iota delta [map_err]. match goal with |- spec _ (if ?b then _ else _) _ _ => destruct b eqn:E end; [by finish|]. apply spec_with_err, spec_call; [done|done|]. rewrite Hb.
  destruct old; try done. rewrite Hundo. done.
Qed.

Lemma rollback_step :
  mode = Mac →
  spec saved (rename out backup destination) (survive to) (λ r fs, survive to fs ∧ fs = if r is Ok _ then fs0 else saved).
Proof.
  intros Hm. facts. pose proof survive_saved as Hs. apply spec_call; [done|done|]. unfold rename_result. rewrite saved_backup.
  assert (saved !! destination = None) as -> by (unfold saved; rewrite Hm; by look). cbn.
  assert (<[destination := old]> (delete backup saved) = fs0) as ->; [|by pose proof survive_start].
  apply map_eq. intros p. destruct (decide (p = destination)) as [->|P1]; [by look|]. look.
  destruct (decide (p = backup)) as [->|P2]; [by look|]. look. by apply saved_lookup.
Qed.

Lemma installed_linked : installed to linked.
Proof.
  facts. destruct swapped_at as (H1 & H2 & H3 & H4 & H5). unfold linked. case_bool_decide as Hm; [done|].
  split; [by look|]. split; [by look|]. split; [by look|]. intros _. by look.
Qed.

Lemma unchanged e :
  match e with ReplacementRollback _ _ | ReplacementCleanup _ _ => False | _ => True end → outcome to (Err e) fs0.
Proof. pose proof survive_start. destruct e; try done; intros _; split; try done. by left. Qed.

(** From the backup on. *)
Lemma replace_tail launch :
  started launch →
  spec saved (do swapped := attempt (rename out candidate to) in
    match swapped with
    | Err error =>
        match mode with
        | Mac =>
            do back := attempt (rename out backup destination) in
            match back with Err rollback => err (ReplacementRollback error rollback) | Ok _ => err (Io error) end
        | Linux =>
            do clean := attempt (remove_failed_linux_backup out destination backup old) in
            match clean with Err cleanup => err (ReplacementCleanup error cleanup) | Ok _ => err (Io error) end
        end
    | Ok _ =>
        do begun := attempt (do _ := if negb (bool_decide (to = destination)) then link_legacy out destination else ret tt in lift launch) in
        match begun with
        | Err error =>
            do recovered := attempt (
              do _ := if negb (bool_decide (to = destination)) then remove_legacy_link out destination else ret tt in
              do _ := rename out to candidate in
              rename out backup destination) in
            match recovered with Err recovery => err (RestartRecovery error recovery) | Ok _ => err error end
        | Ok _ =>
            do _ := lift (ok_or MissingDestinationParent (parent destination)) in
            with_err Io (sync_dir out)
        end
    end) (survive to) (outcome to).
Proof.
  intros Hst. facts. pose proof survive_linked as Hl. pose proof installed_linked as Hil.
  apply spec_bind, spec_attempt. eapply spec_conseq; [apply swap_step|]. intros [[]|error] f ->.
  - apply spec_bind, spec_attempt. eapply spec_conseq; [by apply link_step|]. intros r f [[-> ->]|[[e ->] Hf]].
    + assert (outcome to (Ok tt) linked ∧ (∀ e, outcome to (Err (Io e)) linked)) as [Hok Hio] by (split; [done|]; intros; split; [done|by right]).
      apply spec_bind. assert (is_Some (parent destination)) as [d ->].
      { destruct destination; [done|by eexists]. }
      finish. apply spec_with_err, spec_bind, spec_call; [done|by apply Hio|]. split; [done|]. apply spec_call; [done|by apply Hio|by split].
    + apply spec_bind, spec_attempt. eapply spec_conseq; [by apply recover_step|]. intros [[]|x] f' [Hs' Hr]; finish; [|done].
      rewrite Hr by done. by apply unchanged.
  - pose proof survive_saved. destruct mode eqn:Hm.
    + apply spec_bind, spec_attempt. eapply spec_conseq; [by apply cleanup_step|]. intros [[]|x] f' (Hs' & Hd & Hc & Hr); finish; [|done].
      rewrite Hr by done. by apply unchanged.
    + apply spec_bind, spec_attempt. eapply spec_conseq; [by apply rollback_step|]. intros [[]|x] f' [Hs' ->]; finish; [by apply unchanged|].
      split; [done|]. unfold saved. rewrite Hm. split; [done|]. split; [by look|]. split; by look.
Qed.

Lemma try_exists_step p f T Q : f !! p = None → T f → Q (Err OtherIo) f → Q (Ok false) f → spec f (try_exists out p) T Q.
Proof.
  intros Hp HT He Hq s Hs. unfold try_exists.
  apply (spec_call out f (λ fs, Ok (fs, match fs !! p with None => false | Some (OLink _) => resolves out (calls s) | Some _ => true end)) T Q);
    [done|done| |done]. by rewrite Hp.
Qed.

Lemma replace_outcome launch :
  started launch → spec fs0 (replace out destination to candidate backup mode launch) (survive to) (outcome to).
Proof.
  intros Hst. pose proof survive_start as H0. facts. apply spec_bind, spec_with_err, try_exists_step; [done|done|by apply unchanged|].
  apply spec_bind, spec_with_err, spec_call; [done|by apply unchanged|]. rewrite Hold. split; [done|].
  apply spec_bind, spec_with_err. eapply spec_conseq; [apply backup_step|]. intros [[]|e] f ->; [by apply replace_tail|by apply unchanged].
Qed.
End swap.

(** ** The whole end of the helper *)

Lemma renamed_last p r : renamed p = Some r → last r = Some CURRENT.
Proof. unfold renamed. case_decide; [|done]. intros [= <-]. apply last_snoc. Qed.

(** The place chosen is the installation's own, or a free one beside it. *)
Lemma target_step out fs destination candidate mode recorded T Q :
  T fs → Q (Err (Io OtherIo)) fs → Q (Ok destination) fs →
  (∀ r, mode = Mac → renamed destination = Some r → fs !! r = None → Q (Ok r) fs) →
  spec fs (target out destination candidate mode recorded) T Q.
Proof.
  intros HT He Hd Hr. unfold target. destruct (renamed destination) as [r|] eqn:Er; cbn [mbind option_bind]; [|by finish].
  case_decide as Hm; [|by finish]. destruct recorded; [by finish|].
  apply spec_bind, spec_attempt, spec_call; [done|by finish|]. destruct (fs !! r) as [o|] eqn:Eo; cbn; [split; [done|]|]; finish; [done|].
  apply Hr; [by destruct Hm|done|done].
Qed.

(** C9: Whichever call fails and wherever the helper stops, the old
    installation and the new one both survive, each at a known place, and no other
    path changes; an error leaves the files exactly as they were, unless it names
    the recovery that failed or comes from the last sync of a finished
    installation. *)
Theorem replace_recovers out stage destination candidate mode recorded executable launch old new s :
  ready (files s) destination candidate (stage ++ [lit "previous-installation"]) old new → started launch →
  (executable = Err BundleNotExecutable ∨ ∃ p, executable = Ok p) →
  let '(s', r) := install_candidate out stage destination candidate mode recorded executable launch s in
  ∃ to, (to = destination ∨ mode = Mac ∧ renamed destination = Some to ∧ files s !! to = None)
    ∧ outcome (files s) destination candidate (stage ++ [lit "previous-installation"]) old new mode to r (files s')
    ∧ ∃ steps, trace s' = trace s ++ steps
        ∧ Forall (survive (files s) destination candidate (stage ++ [lit "previous-installation"]) old new to) steps.
Proof.
  intros Hready Hst Hexec. set (backup := stage ++ _) in *. set (fs0 := files s) in *.
  assert (spec fs0 (target out destination candidate mode recorded) (eq fs0) (λ r f, fs0 = f ∧
    match r with
    | Ok to => to = destination ∨ mode = Mac ∧ renamed destination = Some to ∧ fs0 !! to = None
    | Err e => e = Io OtherIo
    end)) as Ht by (apply target_step; [done|done|by split; [|left]|]; intros r ? ? ?; split; [done|by right]).
  destruct (Ht s eq_refl) as [(tr & Htr & Htrs) Hq]. unfold install_candidate, bind, lift.
  assert (∀ to steps, to = destination ∨ mode = Mac ∧ renamed destination = Some to ∧ fs0 !! to = None → Forall (eq fs0) steps →
    placed fs0 destination backup mode to ∧ Forall (survive fs0 destination candidate backup old new to) steps) as Hplaced.
  { intros to steps Hto Hsteps. assert (placed fs0 destination backup mode to) as Hp.
    { destruct Hto as [->|(Hm & Hr & Hn)]; [by left|right]. repeat (split; [done|]). intros ->.
      apply renamed_last in Hr. unfold backup in Hr. rewrite last_snoc in Hr. apply (inj Some) in Hr. by vm_compute in Hr. }
    split; [done|]. eapply Forall_impl; [done|]. intros f <-. by eapply survive_start. }
  destruct (target out destination candidate mode recorded s) as [s1 [to|e]]; cbn in Htr, Hq; destruct Hq as [Hf Hq].
  2: { subst e. destruct (Hplaced destination tr) as [Hp Hs]; [by left|done|]. exists destination. split; [by left|]. rewrite <- Hf.
       split; [by eapply unchanged|by exists tr]. }
  destruct (Hplaced to tr) as [Hp Hs]; [done|done|]. destruct Hexec as [->|[p ->]].
  { exists to. split; [done|]. rewrite <- Hf. split; [by eapply unchanged|by exists tr]. }
  destruct (replace_outcome out fs0 destination candidate backup old new mode Hready to Hp launch Hst s1 (eq_sym Hf)) as [(tr' & Htr' & Hs') Ho].
  destruct (replace _ _ _ _ _ _ _ s1) as [s2 r]. exists to. split; [done|]. split; [done|]. exists (tr ++ tr').
  cbn in Htr'. rewrite Htr', Htr, app_assoc. split; [done|]. by apply Forall_app.
Qed.

(** ** An update of a renamed bundle *)

Module Swap.
Definition home : path := [lit "Applications"].
Definition destination : path := home ++ [LEGACY].
Definition stage : path := home ++ [lit ".herdr-update-1"].
Definition candidate : path := stage ++ [lit "tree"; CURRENT].
Definition disk : Fs := <[destination := OTree 1]> (<[candidate := OTree 2]> ∅).
(** The calls of these numbers fail. *)
Definition failing (ns : list nat) : Outside.
Proof. refine (MkOutside (λ n, bool_decide (n ∈ ns)) (λ _, false) (λ _, false) (λ l, l) _). done. Defined.

Definition run (ns : list nat) (launch : res Error unit) : Os Fs * res Error unit :=
  install_candidate (failing ns) stage destination candidate Mac false (Ok []) launch (MkOs disk 0 []).

Lemma disk_ready : ready disk destination candidate (stage ++ [lit "previous-installation"]) (OTree 1) (OTree 2).
Proof. split; [vm_compute; reflexivity|vm_compute; reflexivity|done|done|done|vm_compute; reflexivity]. Qed.

Example moves : (run [] (Ok tt)).2 = Ok tt
  ∧ files (run [] (Ok tt)).1 !! destination = Some (OLink CURRENT)
  ∧ files (run [] (Ok tt)).1 !! (home ++ [CURRENT]) = Some (OTree 2).
Proof. split; [vm_compute; reflexivity|]. split; vm_compute; reflexivity. Qed.

Example rolls_back : (run [4%nat] (Ok tt)).2 = Err (Io OtherIo) ∧ files (run [4%nat] (Ok tt)).1 = disk.
Proof. split; [vm_compute; reflexivity|]. apply map_eq. intros p. vm_compute (files _). reflexivity. Qed.

(** The last sync fails: the new program runs, and the answer is an error. *)
Example sync_failure : (run [7%nat] (Ok tt)).2 = Err (Io OtherIo)
  ∧ files (run [7%nat] (Ok tt)).1 !! (home ++ [CURRENT]) = Some (OTree 2).
Proof. split; vm_compute; reflexivity. Qed.
End Swap.

Lemma replace_recovers_witness :
  let '(s', r) := Swap.run [5%nat; 7%nat] (Err (Io OtherIo)) in
  ∃ to, (to = Swap.destination ∨ Mac = Mac ∧ renamed Swap.destination = Some to ∧ Swap.disk !! to = None)
    ∧ outcome Swap.disk Swap.destination Swap.candidate (Swap.stage ++ [lit "previous-installation"]) (OTree 1) (OTree 2) Mac to r (files s')
    ∧ ∃ steps, trace s' = [] ++ steps
        ∧ Forall (survive Swap.disk Swap.destination Swap.candidate (Swap.stage ++ [lit "previous-installation"]) (OTree 1) (OTree 2) to) steps.
Proof.
  apply (replace_recovers (Swap.failing [5%nat; 7%nat]) Swap.stage Swap.destination Swap.candidate Mac false (Ok []) (Err (Io OtherIo))
    (OTree 1) (OTree 2) (MkOs Swap.disk 0 [])).
  - exact Swap.disk_ready.
  - right. eauto.
  - right. eauto.
Defined.
End Apply.

