(* ===== verification/Updater.v ===== *)
(** * Updater: the update service a window drives
    (crates/sheprd-updater/src/lib.rs, progress.rs and reason.rs)

    A window's thread and a worker share a bounded queue of commands, a mailbox of
    one message, and two flags. Every handler of the window is a function on the
    whole [World]; the worker takes a command, publishes progress and finishes with
    the outcome of what it ran (a check, a download, an installer, Homebrew), which
    is an argument. [step] interleaves them. *)

From Stdlib Require Import NArith Lia Relations.
From stdpp Require Import base option strings list relations.
From S2P Require Import Prelude Release.

Local Open Scope N_scope.

Module Updater.
Import Release.

(** ** Data *)

Inductive Progress := PApprove | PAsking | PChecking | PHomebrew (line : str) | PPackage (line : str) | PPreparing
| PRefreshing | PRetrying | PStarting.
#[export] Instance Progress_eq_dec : EqDecision Progress.
Proof. solve_decision. Defined.

(** [Display] of a step, and how the helper's lines are read back. *)
Definition progress_text (p : Progress) : str :=
  match p with
  | PApprove => lit "Approve the system authentication prompt to install the package..."
  | PAsking => lit "Asking Homebrew to upgrade the cask..."
  | PChecking => lit "Checking the installed Homebrew cask version..."
  | PHomebrew line => lit "Homebrew: " ++ line
  | PPackage line => line
  | PPreparing => lit "Preparing installation..."
  | PRefreshing => lit "Refreshing Homebrew metadata with brew update..."
  | PRetrying => lit "Retrying Homebrew cask upgrade after refresh..."
  | PStarting => lit "Starting Homebrew..."
  end.

Definition from_helper (line : str) : Progress :=
  if decide (line = progress_text PApprove) then PApprove else PPackage line.

Inductive UpdateError := Checked (e : Release.Error) | MissingOffer | MissingPrepared | MissingCask | WorkerStopped
| CancelUnacknowledged | Installer (code : N).

(** A failure is shared, and equal only to itself: [failure] is its address. *)
Record Failure := MkFailure { failure : N; cause : UpdateError }.

Inductive Disabled := LocalBuildOnly | NoPlatform | Secondary | Unsupported (f : Failure).

Inductive State :=
| SDisabled (d : Disabled) | SIdle | SChecking | SCurrent | SAvailable (version notes : str)
| SDownloading (received total : N) | SReady (version : str) | SInstalling | SHomebrew (version notes : str)
| SUpgrading (detail : Progress) | SRestart (version : str) | SRestarting | SCancelling | SError (f : Failure).

(** [==], with [Arc::ptr_eq] for failures. *)
Definition same_failure (a b : Failure) : bool := failure a =? failure b.
Definition same_disabled (a b : Disabled) : bool :=
  match a, b with
  | LocalBuildOnly, LocalBuildOnly | NoPlatform, NoPlatform | Secondary, Secondary => true
  | Unsupported a, Unsupported b => same_failure a b
  | _, _ => false
  end.
Definition same_state (a b : State) : bool :=
  match a, b with
  | SDisabled a, SDisabled b => same_disabled a b
  | SIdle, SIdle | SChecking, SChecking | SCurrent, SCurrent | SInstalling, SInstalling | SRestarting, SRestarting
  | SCancelling, SCancelling => true
  | SAvailable v n, SAvailable v' n' | SHomebrew v n, SHomebrew v' n' => bool_decide (v = v') && bool_decide (n = n')
  | SDownloading r t, SDownloading r' t' => (r =? r') && (t =? t')
  | SReady v, SReady v' | SRestart v, SRestart v' => bool_decide (v = v')
  | SUpgrading d, SUpgrading d' => bool_decide (d = d')
  | SError a, SError b => same_failure a b
  | _, _ => false
  end.

Definition busy (s : State) : bool :=
  match s with SChecking | SDownloading _ _ | SInstalling | SUpgrading _ | SRestarting | SCancelling => true | _ => false end.

Inductive Operation := OCheck (channel : UpdateChannel) | ODownload | OInstall | OUpgrade | ORestart | OCancel.
#[export] Instance Operation_eq_dec : EqDecision Operation.
Proof. solve_decision. Defined.

Record Command := MkCommand { cmd_generation : N; operation : Operation }.

(** A guard is the pipe to a helper that waits for [commit]. *)
Inductive Guard := GStandalone | GPackage.

Record Mailbox := MkMailbox { mail_generation : N; mail_state : State; mail_restart : option Guard; mail_relaunched : bool }.

(** What is staged, with the offer it was staged for. *)
Inductive Kind := Standalone | Package.
Record Prepared := MkPrepared { prepared_kind : Kind; prepared_for : Offer }.

Inductive Restart := RestartHomebrew | RestartPackage.

Record Ui := MkUi {
  state : State; connected : bool; generation : N; restart : option Guard; relaunched : bool; committed : bool;
  next_check : N; channel : UpdateChannel; checked : UpdateChannel; latest_version : option str }.

(** [running] is the command the worker is at, with what it took to run it. *)
Record Worker := MkWorker {
  offer : option Offer; prepared : option Prepared; relaunch : Restart; running : option (Command * option Prepared); alive : bool }.

Record World := MkWorld {
  ui : Ui; worker : Worker; queue : list Command; mailbox : option Mailbox; cancelled : bool; stopped : bool; arcs : N }.

Definition CHECK_INTERVAL : N := 60 * 60.
Definition u64_mod : N := 2 ^ 64.
Definition next (g : N) : N := (g + 1) mod u64_mod.

(** ** The window's side *)

Definition with_ui (w : World) (u : Ui) : World := MkWorld u (worker w) (queue w) (mailbox w) (cancelled w) (stopped w) (arcs w).
Definition set_state (u : Ui) (s : State) : Ui :=
  MkUi s (connected u) (generation u) (restart u) (relaunched u) (committed u) (next_check u) (channel u) (checked u) (latest_version u).

(** [Failure::from]: a new address. *)
Definition fail (w : World) (e : UpdateError) : World * Failure :=
  (MkWorld (ui w) (worker w) (queue w) (mailbox w) (cancelled w) (stopped w) (arcs w + 1), MkFailure (arcs w) e).

Inductive Sent := SentOk (queue : list Command) | Full | Disconnected.
Definition try_send (w : World) (c : Command) : Sent :=
  if negb (alive (worker w)) then Disconnected
  else if (length (queue w) <? 2)%nat then SentOk (queue w ++ [c]) else Full.

Definition send (now : N) (op : Operation) (s : State) (w : World) : World :=
  let u := ui w in
  if negb (connected u) then w
  else if busy (state u) || is_some (restart u) then w
  else
    let g := next (generation u) in
    let w := MkWorld u (worker w) (queue w) (mailbox w) false (stopped w) (arcs w) in
    match try_send w (MkCommand g op) with
    | SentOk q =>
        let checked := match op with OCheck c => c | _ => checked u end in
        MkWorld (MkUi s (connected u) g (restart u) (relaunched u) (committed u) (now + CHECK_INTERVAL) (channel u) checked (latest_version u))
          (worker w) q (mailbox w) (cancelled w) (stopped w) (arcs w)
    | Full => w
    | Disconnected => let '(w, f) := fail w WorkerStopped in with_ui w (set_state u (SError f))
    end.

Definition check (now : N) (w : World) : World :=
  let u := ui w in
  match state u with
  | SRestart _ => w
  | SReady _ => if decide (checked u = channel u) then w else send now (OCheck (channel u)) SChecking w
  | _ => send now (OCheck (channel u)) SChecking w
  end.

Definition download (now : N) (w : World) : World :=
  match state (ui w) with SAvailable _ _ => send now ODownload (SDownloading 0 0) w | _ => w end.

Definition install (now : N) (w : World) : World :=
  match state (ui w) with SReady _ => send now OInstall (SUpgrading PPreparing) w | _ => w end.

Definition upgrade (now : N) (w : World) : World :=
  match state (ui w) with SHomebrew _ _ => send now OUpgrade (SUpgrading PStarting) w | _ => w end.

Definition restart_app (now : N) (w : World) : World :=
  match state (ui w) with SRestart _ => send now ORestart SRestarting w | _ => w end.

Definition set_channel (now : N) (c : UpdateChannel) (w : World) : World :=
  let u := ui w in
  if decide (channel u = c) then w
  else
    with_ui w (MkUi (state u) (connected u) (generation u) (restart u) (relaunched u) (committed u)
      (if connected u then now else next_check u) c (checked u) (latest_version u)).

Definition update_available (u : Ui) : bool :=
  match state u with SAvailable _ _ | SReady _ | SHomebrew _ _ | SRestart _ => true | _ => false end.

Definition interruptible (s : State) : bool :=
  busy s && match s with SCancelling | SUpgrading _ | SRestarting => false | _ => true end.

Definition cancel (w : World) : World :=
  let u := ui w in
  if interruptible (state u) && negb (committed u) then
    let w := MkWorld u (worker w) (queue w) (mailbox w) true (stopped w) (arcs w) in
    if negb (connected u) then w
    else
      let g := next (generation u) in
      match try_send w (MkCommand g OCancel) with
      | SentOk q =>
          MkWorld (MkUi SCancelling (connected u) g None (relaunched u) (committed u) (next_check u) (channel u) (checked u) (latest_version u))
            (worker w) q (mailbox w) (cancelled w) (stopped w) (arcs w)
      | _ => let '(w, f) := fail w CancelUnacknowledged in with_ui w (set_state u (SError f))
      end
  else w.

(** The version a message names. *)
Definition named (app_version : str) (s : State) : option str :=
  match s with
  | SAvailable v _ | SReady v | SHomebrew v _ | SRestart v => Some v
  | SCurrent => Some app_version
  | _ => None
  end.

(** [poll]; [locked] is whether [try_lock] fails. *)
Definition poll (app_version : str) (now : N) (locked : bool) (w : World) : World * bool :=
  let u := ui w in
  let '(w, scheduled) :=
    if connected u && (next_check u <=? now) then
      let w' := check now w in (w', negb (same_state (state u) (state (ui w'))))
    else (w, false) in
  let u := ui w in
  if locked then (w, scheduled)
  else match mailbox w with
       | None => (w, scheduled)
       | Some m =>
           let w := MkWorld u (worker w) (queue w) None (cancelled w) (stopped w) (arcs w) in
           if negb (mail_generation m =? generation u) then (w, scheduled)
           else
             let changed := negb (same_state (state u) (mail_state m)) || is_some (mail_restart m) || mail_relaunched m in
             let latest := match named app_version (mail_state m) with Some v => Some v | None => latest_version u end in
             (with_ui w (MkUi (mail_state m) (connected u) (generation u) (mail_restart m) (relaunched u || mail_relaunched m)
                (committed u) (next_check u) (channel u) (checked u) latest), changed || scheduled)
       end.

(** [commit_restart]; [pipe] is whether the guard's own commit succeeds. *)
Definition commit_restart (pipe : res UpdateError unit) (w : World) : World * res Failure bool :=
  let u := ui w in
  let commit := MkUi (state u) (connected u) (generation u) (restart u) (relaunched u) true (next_check u) (channel u) (checked u) (latest_version u) in
  let closed s := MkUi s (connected u) (generation u) None (relaunched u) (committed u) (next_check u) (channel u) (checked u) (latest_version u) in
  if committed u then (w, Ok false)
  else if relaunched u then (with_ui w commit, Ok true)
  else match restart u with
       | None => (w, Ok false)
       | Some _ =>
           if cancelled w then (with_ui w (closed SIdle), Ok false)
           else match pipe with
                | Err e => let '(w, f) := fail w e in (with_ui w (closed (SError f)), Err f)
                | Ok _ => (with_ui w commit, Ok true)
                end
       end.

(** [Drop]. *)
Definition drop_updater (w : World) : World :=
  let u := ui w in
  MkWorld (MkUi (state u) false (generation u) (restart u) (relaunched u) (committed u) (next_check u) (channel u) (checked u) (latest_version u))
    (worker w) (queue w) (mailbox w) true true (arcs w).

(** ** The worker *)

Definition put (w : World) (g : N) (s : State) (guard : option Guard) (relaunched : bool) : World :=
  MkWorld (ui w) (worker w) (queue w) (Some (MkMailbox g s guard relaunched)) (cancelled w) (stopped w) (arcs w).
Definition publish (w : World) (g : N) (s : State) (guard : option Guard) : World := put w g s guard false.

Definition with_worker (w : World) (k : Worker) : World := MkWorld (ui w) k (queue w) (mailbox w) (cancelled w) (stopped w) (arcs w).

Definition version_of (o : option Offer) : option str := (λ o, version (manifest o)) <$> o.

Definition through_homebrew (c : UpdateChannel) (cask : bool) : bool := bool_decide (c = Stable) && cask.

Definition restage (staged : option Prepared) (previous found : option str) : option Prepared :=
  if is_some found && bool_decide (found = previous) then staged else None.

(** The state a finished check shows. *)
Definition found_state (o : option Offer) (homebrew staged : bool) : State :=
  match o with
  | Some o =>
      if homebrew then SHomebrew (version (manifest o)) (notes o)
      else if staged then SReady (version (manifest o)) else SAvailable (version (manifest o)) (notes o)
  | None => SCurrent
  end.

(** [recv]: the next command is taken, and what it starts with happens. *)
Definition recv (w : World) : World :=
  let k := worker w in
  match running k, queue w with
  | None, c :: q =>
      let w := MkWorld (ui w) k q (mailbox w) (cancelled w) (stopped w) (arcs w) in
      if stopped w then with_worker w (MkWorker (offer k) (prepared k) (relaunch k) None false)
      else
        let take := MkWorker (offer k) None (relaunch k) (Some (c, prepared k)) (alive k) in
        let keep := MkWorker (offer k) (prepared k) (relaunch k) (Some (c, None)) (alive k) in
        match operation c with
        | OCheck _ => with_worker (publish w (cmd_generation c) SChecking None) take
        | OInstall =>
            match prepared k with
            | Some (MkPrepared Standalone _) => with_worker (publish w (cmd_generation c) SInstalling None) take
            | _ => with_worker w take
            end
        | OCancel => with_worker w (MkWorker (offer k) None (relaunch k) (Some (c, None)) (alive k))
        | _ => with_worker w keep
        end
  | None, [] => if connected (ui w) then w else with_worker w (MkWorker (offer k) (prepared k) (relaunch k) None false)
  | Some _, _ => w
  end.

(** Progress of a download, a package installation or Homebrew. *)
Inductive Report := Received (received total : N) | Detail (p : Progress).

Definition report (r : Report) (w : World) : World :=
  match running (worker w) with
  | Some (c, taken) =>
      match operation c, r with
      | ODownload, Received n total => if offer (worker w) then publish w (cmd_generation c) (SDownloading n total) None else w
      | OInstall, Detail p =>
          match taken with Some (MkPrepared Package _) => publish w (cmd_generation c) (SUpgrading p) None | _ => w end
      | OUpgrade, Detail p => if offer (worker w) then publish w (cmd_generation c) (SUpgrading p) None else w
      | _, _ => w
      end
  | None => w
  end.

(** What the code around the worker answers: whether this installation can be
    updated at all, whether a cask owns it, and the result of the operation. *)
Record Outcome := MkOutcome {
  unsupported : option UpdateError;
  cask : bool;
  found : res UpdateError (option Offer);
  staged : res UpdateError Kind;
  helper : res UpdateError unit;
  package : res UpdateError unit;
  upgraded : res UpdateError str;
  launched : res UpdateError unit }.

(** A result and what the worker keeps, or a message after which the loop goes on
    at once. *)
Inductive Done :=
| Result (r : res UpdateError State) (offer : option Offer) (prepared : option Prepared) (relaunch : Restart)
| Continue (s : State + UpdateError) (guard : option Guard) (relaunched : bool) (offer : option Offer).

Definition operate (k : Worker) (op : Operation) (taken : option Prepared) (o : Outcome) : Done :=
  let same r := Result r (offer k) (prepared k) (relaunch k) in
  match op with
  | OCheck c =>
      match unsupported o with
      | Some e => Continue (inr e) None false None
      | None =>
          match found o with
          | Ok f =>
              let kept := restage taken (version_of (offer k)) (version_of f) in
              Result (Ok (found_state f (through_homebrew c (cask o)) (is_some kept))) f kept (relaunch k)
          | Err e => same (Err e)
          end
      end
  | ODownload =>
      match offer k with
      | Some f =>
          match staged o with
          | Ok kind => Result (Ok (SReady (version (manifest f)))) (offer k) (Some (MkPrepared kind f)) (relaunch k)
          | Err e => same (Err e)
          end
      | None => same (Err MissingOffer)
      end
  | OInstall =>
      match taken with
      | Some (MkPrepared Standalone _) =>
          match helper o with
          | Ok _ => Continue (inl SInstalling) (Some GStandalone) false (offer k)
          | Err e => same (Err e)
          end
      | Some (MkPrepared Package _) =>
          match package o with
          | Ok _ => Result (s ← ok_or MissingOffer (version_of (offer k)); Ok (SRestart s)) (offer k) (prepared k) RestartPackage
          | Err e => same (Err e)
          end
      | None => same (Err MissingPrepared)
      end
  | OUpgrade =>
      match offer k, cask o with
      | Some _, true =>
          match upgraded o with
          | Ok v => Result (Ok (SRestart v)) (offer k) (prepared k) RestartHomebrew
          | Err e => same (Err e)
          end
      | None, _ => same (Err MissingOffer)
      | _, false => same (Err MissingCask)
      end
  | ORestart =>
      match relaunch k, launched o with
      | RestartHomebrew, Ok _ => if cask o then Continue (inl SRestarting) None true (offer k) else same (Err MissingCask)
      | RestartHomebrew, Err e => if cask o then same (Err e) else same (Err MissingCask)
      | RestartPackage, Ok _ => Continue (inl SRestarting) (Some GPackage) false (offer k)
      | RestartPackage, Err e => same (Err e)
      end
  | OCancel => Result (Ok SIdle) (offer k) None (relaunch k)
  end.

(** The end of a turn of the worker's loop. *)
Definition finish (o : Outcome) (w : World) : World :=
  let k := worker w in
  match running k with
  | None => w
  | Some (c, taken) =>
      let g := cmd_generation c in
      match operate k (operation c) taken o with
      | Continue s guard relaunched f =>
          let w := with_worker w (MkWorker f (prepared k) (relaunch k) None (alive k)) in
          match s with
          | inl s => put w g s guard relaunched
          | inr e => let '(w, fl) := fail w e in put w g (SDisabled (Unsupported fl)) guard relaunched
          end
      | Result r f p rl =>
          if stopped w then with_worker w (MkWorker f p rl None false)
          else if cancelled w then publish (with_worker w (MkWorker f None rl None (alive k))) g SIdle None
          else
            let w := with_worker w (MkWorker f p rl None (alive k)) in
            match r with
            | Ok s => publish w g s None
            | Err e => let '(w, fl) := fail w e in publish w g (SError fl) None
            end
      end
  end.

(** ** Interleavings *)

(** [Updater::start] once the worker runs, before its first check. *)
Definition started (c : UpdateChannel) (now : N) : World :=
  MkWorld (MkUi SIdle true 0 None false false (now + CHECK_INTERVAL) c Stable None)
    (MkWorker None None RestartHomebrew None true) [] None false false 0.

Definition start (c : UpdateChannel) (now : N) : World := check now (started c now).

Inductive Event :=
| ECheck (now : N) | EDownload (now : N) | EInstall (now : N) | EUpgrade (now : N) | ERestart (now : N) | ECancel
| ESetChannel (now : N) (c : UpdateChannel) | EPoll (app_version : str) (now : N) (locked : bool)
| ECommit (pipe : res UpdateError unit) | EDrop | ERecv | EReport (r : Report) | EFinish (o : Outcome).

Definition act (e : Event) (w : World) : World :=
  match e with
  | ECheck now => check now w
  | EDownload now => download now w
  | EInstall now => install now w
  | EUpgrade now => upgrade now w
  | ERestart now => restart_app now w
  | ECancel => cancel w
  | ESetChannel now c => set_channel now c w
  | EPoll v now locked => (poll v now locked w).1
  | ECommit pipe => (commit_restart pipe w).1
  | EDrop => drop_updater w
  | ERecv => recv w
  | EReport r => report r w
  | EFinish o => finish o w
  end.

Definition run (es : list Event) (w : World) : World := foldl (λ w e, act e w) w es.

(** ** What the two sides agree on *)

Lemma next_ne g : next g ≠ g.
Proof.
  unfold next, u64_mod. intros E. pose proof (N.mod_lt (g + 1) (2 ^ 64) ltac:(lia)) as Hlt. rewrite E in Hlt.
  destruct (decide (g + 1 = 2 ^ 64)) as [H|H]; [rewrite H, N.Div0.mod_same in E; lia|]. rewrite N.mod_small in E by lia. lia.
Qed.

(** The commands that are not done. *)
Definition pending (w : World) : list Command :=
  match running (worker w) with Some (c, _) => c :: queue w | None => queue w end.

Definition staged_version (p : Prepared) : str := version (manifest (prepared_for p)).

(** What is staged is for the worker's offer. *)
Definition staged_ok (k : Worker) (p : option Prepared) : Prop := ∀ x, p = Some x → version_of (offer k) = Some (staged_version x).
Definition worker_ok (k : Worker) : Prop :=
  staged_ok k (prepared k)
  ∧ ∀ c taken, running k = Some (c, taken) → staged_ok k taken ∧ ∀ ch, operation c = OCheck ch → prepared k = None.

(** A state shown to the user is backed by what the worker holds. *)
Definition backed (k : Worker) (s : State) : Prop :=
  match s with
  | SAvailable v _ | SHomebrew v _ => version_of (offer k) = Some v
  | SReady v => ∃ p, prepared k = Some p ∧ staged_version p = v
  | _ => True
  end.

(** A busy state with nothing pending is one that hands over. *)
Definition handed (s : State) (guard : option Guard) (relaunched : bool) : Prop :=
  busy s = true → is_Some guard ∨ relaunched = true.

Definition settled (w : World) : Prop :=
  match mailbox w with
  | Some m => mail_generation m = generation (ui w) ∧ busy (state (ui w)) = true ∧ restart (ui w) = None
              ∧ backed (worker w) (mail_state m) ∧ handed (mail_state m) (mail_restart m) (mail_relaunched m)
  | None => backed (worker w) (state (ui w)) ∧ handed (state (ui w)) (restart (ui w)) (relaunched (ui w))
  end.

(** A message on the way to a result. *)
Definition underway (g : N) (m : Mailbox) : Prop :=
  mail_generation m = g ∧ busy (mail_state m) = true ∧ mail_state m ≠ SCancelling ∧ mail_restart m = None ∧ mail_relaunched m = false.

Definition stale (g : N) (m : Mailbox) : Prop := next (mail_generation m) = g.

(** One operation is being worked on. *)
Definition working (w : World) (c : Command) : Prop :=
  operation c ≠ OCancel ∧ cmd_generation c = generation (ui w) ∧ busy (state (ui w)) = true ∧ state (ui w) ≠ SCancelling
  ∧ restart (ui w) = None ∧ cancelled w = false ∧ ∀ m, mailbox w = Some m → underway (generation (ui w)) m.

(** Its cancellation is, last in the queue. *)
Definition cancelling (w : World) (d : Command) : Prop :=
  operation d = OCancel ∧ cmd_generation d = generation (ui w) ∧ state (ui w) = SCancelling ∧ restart (ui w) = None
  ∧ ∀ m, mailbox w = Some m → stale (generation (ui w)) m.

Definition agree (w : World) : Prop :=
  match pending w with
  | [] => settled w
  | [c] => working w c ∨ cancelling w c
  | [c; d] => cancelling w d ∧ operation c ≠ OCancel ∧ next (cmd_generation c) = generation (ui w)
  | _ => False
  end.

(** As long as the window is there. *)
Definition inv (w : World) : Prop :=
  connected (ui w) = true → stopped w = false ∧ alive (worker w) = true ∧ worker_ok (worker w) ∧ agree w.

Lemma pending_queue w : agree w → (length (queue w) ≤ length (pending w) ≤ 2)%nat.
Proof.
  unfold agree, pending. destruct (running (worker w)) as [[c t]|]; destruct (queue w) as [|? [|? [|]]]; cbn; try done; lia.
Qed.

Lemma agree_idle w : agree w → busy (state (ui w)) = false → pending w = [] ∧ mailbox w = None ∧ settled w.
Proof.
  unfold agree. destruct (pending w) as [|c [|d [|]]]; [|..|done].
  - unfold settled. destruct (mailbox w) as [m|]; [|done]. intros (_ & Hb & _). congruence.
  - intros [(_ & _ & Hb & _)|(_ & _ & Hs & _)]; [congruence|]. by rewrite Hs.
  - intros [(_ & _ & Hs & _) _]. by rewrite Hs.
Qed.

Lemma pending_nil w : pending w = [] ↔ running (worker w) = None ∧ queue w = [].
Proof. unfold pending. destruct (running (worker w)) as [[c t]|]; [naive_solver|]. naive_solver. Qed.

(** ** The window's side *)

Lemma try_send_ok w c : alive (worker w) = true → (length (queue w) < 2)%nat → try_send w c = SentOk (queue w ++ [c]).
Proof. intros Ha Hl. unfold try_send. by rewrite Ha, (proj2 (Nat.ltb_lt _ _) Hl). Qed.

Lemma send_keeps now op s w :
  op ≠ OCancel → busy s = true → s ≠ SCancelling → inv w → inv (send now op s w).
Proof.
  intros Hop Hbs Hs Hi. unfold send. destruct (connected (ui w)) eqn:Hc; [|done]. cbn [negb]. destruct (Hi Hc) as (Hst & Ha & Hk & Hag).
  destruct (busy (state (ui w))) eqn:Hb; [done|]. cbn [orb]. destruct (restart (ui w)) eqn:Hr; [done|]. cbn [is_some].
  destruct (agree_idle _ Hag Hb) as (Hp & Hm & _). apply pending_nil in Hp as [Hrun Hq].
  rewrite try_send_ok by (cbn; rewrite ?Hq; cbn; done || lia). cbn. rewrite Hq. cbn. intros _. split; [done|]. split; [done|]. split; [done|].
  unfold agree, pending. cbn. rewrite Hrun. left. split; [done|]. cbn. rewrite Hm. done.
Qed.

Lemma check_keeps now w : inv w → inv (check now w).
Proof. intros Hi. unfold check. destruct (state (ui w)); try (by apply send_keeps); [|done]. case_decide; [done|by apply send_keeps]. Qed.

Lemma cancel_keeps w : inv w → inv (cancel w).
Proof.
  intros Hi. unfold cancel. destruct (interruptible (state (ui w)) && negb (committed (ui w))) eqn:Hint; [|done].
  apply andb_true_iff in Hint as [Hint _]. destruct (connected (ui w)) eqn:Hc; cbn [negb].
  2: { intros Hc'. cbn in Hc'. congruence. }
  destruct (Hi Hc) as (Hst & Ha & Hk & Hag).
  assert (∀ u k q m cn st n, generation u = next (generation (ui w)) → state u = SCancelling → restart u = None → running k = running (worker w) →
    alive k = true → worker_ok k → st = false → q = queue w ++ [MkCommand (next (generation (ui w))) OCancel] → m = mailbox w →
    inv (MkWorld u k q m cn st n)) as Hgo.
  { intros u k q m cn st n Hu Hs Hr Hrun Ha' Hk' -> -> -> _. split; [done|]. split; [done|]. split; [done|].
    unfold interruptible in Hint. apply andb_true_iff in Hint as [Hb Hint].
    unfold agree in *. unfold pending in *. cbn. rewrite Hrun.
    assert (∀ m, mailbox w = Some m → pending w = [] ∨ (∃ c, pending w = [c] ∧ working w c) → mail_generation m = generation (ui w)) as Hm.
    { intros m Hm [Hp|(c & Hp & Hw)].
      - unfold pending in Hp. rewrite Hp in Hag. unfold settled in Hag. rewrite Hm in Hag. by destruct Hag.
      - destruct Hw as (_ & _ & _ & _ & _ & _ & Hw). by destruct (Hw m Hm). }
    assert (∀ c, working w c ∨ cancelling w c → working w c) as Hwork.
    { intros c [?|(_ & _ & Hs' & _)]; [done|]. by rewrite Hs' in Hint. }
    assert (pending w = [] ∨ (∃ c, pending w = [c] ∧ working w c) → ∀ q', 
      cancelling (MkWorld u k q' (mailbox w) cn false n) (MkCommand (next (generation (ui w))) OCancel)) as Hcan.
    { intros Hp q'. split; [done|]. cbn. rewrite Hu. split; [done|]. split; [done|]. split; [done|]. intros m' Hm'. unfold stale. by rewrite (Hm m'). }
    unfold pending in *. destruct (running (worker w)) as [[c t]|]; destruct (queue w) as [|d [|e [|]]]; cbn in Hag |- *; try done.
    - apply Hwork in Hag as Hw. split; [by apply Hcan; right; exists c|]. destruct Hw as (Ho & Hg & _). rewrite Hu. by rewrite Hg.
    - destruct Hag as [(_ & _ & Hs' & _) _]. by rewrite Hs' in Hint.
    - right. apply Hcan. by left.
    - apply Hwork in Hag as Hw. split; [by apply Hcan; right; exists d|]. destruct Hw as (Ho & Hg & _). rewrite Hu. by rewrite Hg.
    - destruct Hag as [(_ & _ & Hs' & _) _]. by rewrite Hs' in Hint. }
  assert ((length (queue w) < 2)%nat) as Hlen.
  { unfold interruptible in Hint. apply andb_true_iff in Hint as [Hb Hint]. unfold agree, pending in Hag.
    destruct (running (worker w)) as [[c t]|]; destruct (queue w) as [|d [|e [|]]]; cbn in *; try done; try lia.
    destruct Hag as [(_ & _ & Hs' & _) _]. by rewrite Hs' in Hint. }
  rewrite try_send_ok by done. by apply Hgo.
Qed.

(** A change of the window that no other part reads. *)
Lemma quiet_keeps w u :
  state u = state (ui w) → generation u = generation (ui w) → restart u = restart (ui w) → relaunched u = relaunched (ui w) →
  connected u = connected (ui w) → inv w → inv (with_ui w u).
Proof.
  intros Hs Hg Hr Hl Hc Hi Hcon. cbn in Hcon. rewrite Hc in Hcon. destruct (Hi Hcon) as (Hst & Ha & Hk & Hag).
  split; [done|]. split; [done|]. split; [done|]. unfold agree, pending, settled, working, cancelling in *. cbn. by rewrite Hs, Hg, Hr, Hl.
Qed.

Lemma set_channel_keeps now c w : inv w → inv (set_channel now c w).
Proof. intros Hi. unfold set_channel. case_decide; [done|]. by apply quiet_keeps. Qed.

Lemma take_keeps app_version w m :
  inv w → mailbox w = Some m →
  inv (let u := ui w in
       let w := MkWorld u (worker w) (queue w) None (cancelled w) (stopped w) (arcs w) in
       if negb (mail_generation m =? generation u) then w
       else with_ui w (MkUi (mail_state m) (connected u) (generation u) (mail_restart m) (relaunched u || mail_relaunched m) (committed u)
              (next_check u) (channel u) (checked u)
              (match named app_version (mail_state m) with Some v => Some v | None => latest_version u end))).
Proof.
  intros Hi Hm. cbn zeta. destruct (N.eqb_spec (mail_generation m) (generation (ui w))) as [Hg|Hg]; cbn [negb]; intros Hc; cbn in Hc;
    destruct (Hi Hc) as (Hst & Ha & Hk & Hag); (split; [done|]); (split; [done|]); (split; [done|]); unfold agree, pending in *; cbn;
    match type of Hag with match ?l with _ => _ end => destruct l as [|c [|d [|]]] end; try done.
  - unfold settled in *. cbn. rewrite Hm in Hag. destruct Hag as (_ & _ & _ & Hb & Hh). split; [done|]. intros Hbusy.
    destruct (Hh Hbusy) as [?|Hr]; [by left|right]. rewrite Hr. apply orb_true_r.
  - destruct Hag as [(Ho & Hcg & Hb & Hs & Hr & Hcn & Hu)|(_ & _ & _ & _ & Hst')].
    + left. destruct (Hu m Hm) as (_ & Hub & Hus & Hur & _). done.
    + exfalso. apply (next_ne (generation (ui w))). rewrite <- Hg at 1. by apply Hst'.
  - destruct Hag as [(_ & _ & _ & _ & Hst') _]. exfalso. apply (next_ne (generation (ui w))). rewrite <- Hg at 1. by apply Hst'.
  - unfold settled in *. cbn. rewrite Hm in Hag. by destruct Hag.
  - destruct Hag as [(Ho & Hcg & Hb & Hs & Hr & Hcn & Hu)|(Ho & Hcg & Hs & Hr & Hu)]; [left|right]; by split_and!.
  - destruct Hag as [(Ho & Hcg & Hs & Hr & Hu) ?]. split; [|done]. by split_and!.
Qed.

Lemma poll_keeps app_version now locked w : inv w → inv (poll app_version now locked w).1.
Proof.
  intros Hi. unfold poll.
  match goal with |- context [let '(_, _) := ?p in _] => assert (inv p.1) as Hi' by (destruct (_ && _); [by apply check_keeps|done]);
    destruct p as [w' scheduled] end.
  cbn in Hi'. destruct locked; [done|]. destruct (mailbox w') as [m|] eqn:Hm; [|done].
  pose proof (take_keeps app_version w' m Hi' Hm) as Ht. cbn zeta in Ht. by destruct (negb _).
Qed.

Lemma commit_keeps pipe w : inv w → inv (commit_restart pipe w).1.
Proof.
  intros Hi. unfold commit_restart. destruct (committed (ui w)); [done|]. destruct (relaunched (ui w)) eqn:Hl; [by apply quiet_keeps|].
  destruct (restart (ui w)) as [g|] eqn:Hr; [|done].
  assert (∀ s n cn rl cm, busy s = false → backed (worker w) s →
    inv (MkWorld (MkUi s (connected (ui w)) (generation (ui w)) None rl cm (next_check (ui w)) (channel (ui w))
      (checked (ui w)) (latest_version (ui w))) (worker w) (queue w) (mailbox w) cn (stopped w) n)) as Hclosed.
  { intros s n cn rl cm Hb Hs Hc. cbn in Hc. destruct (Hi Hc) as (Hst & Ha & Hk & Hag). split; [done|]. split; [done|]. split; [done|].
    unfold agree, pending in *. cbn. match type of Hag with match ?l with _ => _ end => destruct l as [|c [|d [|]]] end; try done.
    - unfold settled in *. cbn. destruct (mailbox w) as [m|]; [|split; [done|intros ?; congruence]].
      destruct Hag as (_ & _ & Hr' & _). congruence.
    - destruct Hag as [(_ & _ & _ & _ & Hr' & _)|(_ & _ & _ & Hr' & _)]; congruence.
    - destruct Hag as [(_ & _ & _ & Hr' & _) _]; congruence. }
  destruct (cancelled w); [by apply Hclosed|]. destruct pipe as [[]|e]; cbn; [|by apply Hclosed]. apply quiet_keeps; try done; by rewrite ?Hl, ?Hr.
Qed.

Lemma drop_keeps w : inv (drop_updater w).
Proof. by intros Hc. Qed.

(** ** The worker's side *)

(** What the worker publishes while a command runs. *)
Lemma publish_keeps w c k q s :
  busy s = true → s ≠ SCancelling → operation c ≠ OCancel → (∃ t, running k = Some (c, t)) → alive k = true → worker_ok k →
  c :: q = pending w → inv w → inv (MkWorld (ui w) k q (Some (MkMailbox (cmd_generation c) s None false)) (cancelled w) (stopped w) (arcs w)).
Proof.
  intros Hb Hs Hop [t Hrun] Ha Hk Hp Hi Hc. destruct (Hi Hc) as (Hst & _ & _ & Hag). split; [done|]. split; [done|]. split; [done|].
  unfold agree in *. rewrite <- Hp in Hag. unfold pending. cbn. rewrite Hrun. destruct q as [|d [|]]; try done.
  - destruct Hag as [(Ho & Hcg & Hw)|(Ho & _)]; [|done]. left. split; [done|]. split; [done|]. cbn. destruct Hw as (H1 & H2 & H3 & H4 & _).
    split_and!; try done. intros m [= <-]. done.
  - destruct Hag as ((Ho & Hcg & H1 & H2 & _) & Hop' & Hn). split; [|done]. split_and!; try done. intros m [= <-]. done.
Qed.

(** The worker goes on without a message. *)
Lemma silent_keeps w k q n :
  alive k = true → worker_ok k → pending (MkWorld (ui w) k q (mailbox w) (cancelled w) (stopped w) n) = pending w →
  (pending w = [] → offer k = offer (worker w) ∧ prepared k = prepared (worker w)) → inv w →
  inv (MkWorld (ui w) k q (mailbox w) (cancelled w) (stopped w) n).
Proof.
  intros Ha Hk Hp Hsame Hi Hc. destruct (Hi Hc) as (Hst & _ & _ & Hag). split; [done|]. split; [done|]. split; [done|].
  unfold agree in *. rewrite Hp. destruct (pending w) as [|c [|d [|]]]; try done. destruct (Hsame eq_refl) as [Ho Hpr].
  unfold settled, backed in *. cbn. by rewrite Ho, Hpr.
Qed.

Lemma recv_keeps w : inv w → inv (recv w).
Proof.
  intros Hi. unfold recv. destruct (running (worker w)) as [x|] eqn:Hrun; [done|]. destruct (queue w) as [|c q] eqn:Hq.
  { destruct (connected (ui w)) eqn:Hc; [done|]. intros Hc'. cbn in Hc'. congruence. }
  cbn [stopped]. destruct (stopped w) eqn:Hst.
  { intros Hc. cbn in Hc. destruct (Hi Hc) as (Hst' & _). congruence. }
  destruct (connected (ui w)) eqn:Hc; [|intros Hc'; exfalso; revert Hc'; destruct (operation c); try destruct (prepared _) as [[[]]|]; cbn; congruence].
  destruct (Hi Hc) as (_ & Ha & [Hk Hk'] & Hag). assert (pending w = c :: q) as Hp by (unfold pending; by rewrite Hrun).
  assert (∀ p taken, staged_ok (worker w) p → staged_ok (worker w) taken → (∀ ch, operation c = OCheck ch → p = None) →
    worker_ok (MkWorker (offer (worker w)) p (relaunch (worker w)) (Some (c, taken)) (alive (worker w)))) as Hwk
    by (intros p taken Hp1 Hp2 Hp3; split; [done|]; by intros ? ? [= <- <-]).
  assert (staged_ok (worker w) None) as Hnone by done.
  assert (∀ k, (∃ t, running k = Some (c, t)) → alive k = true → worker_ok k →
    inv (MkWorld (ui w) k q (mailbox w) (cancelled w) (stopped w) (arcs w))) as Hsil.
  { intros k [t Hr] Hal Hok. apply silent_keeps; [done|done| |by rewrite Hp|done]. rewrite Hp. unfold pending. cbn. by rewrite Hr. }
  rewrite <- Hst. destruct (operation c) eqn:Ho; try (apply Hsil; [by eexists|done|by apply Hwk]).
  - apply (publish_keeps w c); [done|done|congruence|by eexists|done|by apply Hwk|by rewrite Hp|done].
  - destruct (prepared (worker w)) as [[[] ?]|] eqn:Hpr; try (apply Hsil; [by eexists|done|by apply Hwk]).
    apply (publish_keeps w c); [done|done|congruence|by eexists|done|by apply Hwk|by rewrite Hp|done].
Qed.

Lemma report_keeps r w : inv w → inv (report r w).
Proof.
  intros Hi. unfold report. destruct (running (worker w)) as [[c taken]|] eqn:Hrun; [|done].
  assert (∀ s, busy s = true → s ≠ SCancelling → operation c ≠ OCancel → inv (publish w (cmd_generation c) s None)) as Hpub.
  { intros s Hb Hs Ho Hc. destruct (Hi Hc) as (_ & Ha & Hk & _).
    eapply (publish_keeps w c); [done|done|done|by eexists|done|done|by unfold pending; rewrite Hrun|done|done]. }
  destruct (operation c) eqn:Ho, r; try done.
  - destruct (offer (worker w)); [by apply Hpub|done].
  - destruct taken as [[[]]|]; try done. by apply Hpub.
  - destruct (offer (worker w)); [by apply Hpub|done].
Qed.

(** The end of an operation: its message is the last for its generation. *)
Lemma finish_message w c taken k m n :
  running (worker w) = Some (c, taken) → running k = None → alive k = true → worker_ok k →
  mail_generation m = cmd_generation c → backed k (mail_state m) → handed (mail_state m) (mail_restart m) (mail_relaunched m) →
  inv w → inv (MkWorld (ui w) k (queue w) (Some m) (cancelled w) (stopped w) n).
Proof.
  intros Hrun Hrun' Ha Hk Hm Hb Hh Hi Hc. destruct (Hi Hc) as (Hst & _ & _ & Hag). split; [done|]. split; [done|]. split; [done|].
  unfold agree, pending in *. cbn. rewrite Hrun' , Hrun in *. destruct (queue w) as [|d [|]]; cbn in Hag; try done.
  - unfold settled. cbn. destruct Hag as [(_ & Hcg & Hbu & _ & Hr & _)|(_ & Hcg & Hs & Hr & _)]; rewrite Hm, Hcg; split_and!; try done. by rewrite Hs.
  - right. destruct Hag as ((Ho & Hcg & Hs & Hr & _) & _ & Hn). split_and!; try done. intros m' [= <-]. unfold stale. by rewrite Hm.
Qed.

(** What an operation shows is backed by what it leaves behind. *)
Lemma operate_backed k op taken o :
  worker_ok k → staged_ok k taken →
  match operate k op taken o with
  | Result r f p rl =>
      (∀ x, p = Some x → version_of f = Some (staged_version x))
      ∧ ∀ s, r = Ok s → busy s = false ∧ backed (MkWorker f p rl None true) s
  | Continue s guard relaunched f =>
      (f = offer k ∨ ∃ ch, op = OCheck ch) ∧ handed (if s is inl t then t else SIdle) guard relaunched
      ∧ ∀ k', backed k' (if s is inl t then t else SIdle)
  end.
Proof.
  intros [Hk _] Ht. destruct op; cbn.
  - destruct (unsupported o); [split_and!; [eauto|done|done]|]. destruct (found o) as [f|e]; [|by split].
    unfold restage. destruct (is_some (version_of f)) eqn:Hf; cbn; [|split; [done|]; intros s [= <-]; by destruct f].
    destruct f as [f|]; [|done]. destruct (decide (version_of (Some f) = version_of (offer k))) as [E|E].
    + rewrite bool_decide_eq_true_2 by done. split; [intros x Hx; rewrite E; by apply Ht|]. intros s [= <-]. cbn.
      destruct (through_homebrew _ _); [done|]. destruct taken as [p|]; cbn; [|done]. split; [done|]. exists p. split; [done|].
      specialize (Ht p eq_refl). rewrite <- E in Ht. by injection Ht.
    + rewrite bool_decide_eq_false_2 by done. split; [done|]. intros s [= <-]. cbn. by destruct (through_homebrew _ _).
  - destruct (offer k) as [f|] eqn:Eo; [|split; [|done]; intros x Hx; rewrite <- Eo; by apply Hk].
    destruct (staged o) as [kind|e]; [|split; [|done]; intros x Hx; rewrite <- Eo; by apply Hk].
    split; [by intros x [= <-]|]. intros s [= <-]. split; [done|]. by eexists.
  - destruct taken as [[[] f]|]; [| |by split].
    + destruct (helper o); [|by split]. split_and!; [by left| |done]. intros _. left. by eexists.
    + destruct (package o); [|by split]. split; [done|]. intros s. destruct (version_of (offer k)); [|done]. by intros [= <-].
  - destruct (offer k) eqn:Eo; [|split; [|done]; intros x Hx; rewrite <- Eo; by apply Hk].
    destruct (cask o); [|split; [|done]; intros x Hx; rewrite <- Eo; by apply Hk].
    destruct (upgraded o); (split; [intros x Hx; rewrite <- Eo; by apply Hk|]); [by intros s [= <-]|done].
  - destruct (relaunch k), (launched o), (cask o); try (by split); (split_and!; [by left| |done]); intros _; by first [by right|left; eexists].
  - split; [done|]. by intros s [= <-].
Qed.

Lemma finish_keeps o w : inv w → inv (finish o w).
Proof.
  intros Hi. unfold finish. destruct (running (worker w)) as [[c taken]|] eqn:Hrun; [|done].
  destruct (connected (ui w)) eqn:Hc.
  2: { intros Hc'. exfalso. revert Hc'. destruct (operate _ _ _ _) as [[] ? ? ?|[] ? ? ?]; cbn; [destruct (stopped w), (cancelled w); cbn; congruence..|congruence|congruence]. }
  destruct (Hi Hc) as (Hst & Ha & Hk & _). pose proof Hk as [Hp Hr]. destruct (Hr _ _ Hrun) as [Ht Hnone].
  pose proof (operate_backed (worker w) (operation c) taken o Hk Ht) as Hop.
  destruct (operate (worker w) (operation c) taken o) as [r f p rl|s guard rela f].
  - destruct Hop as [Hv Hb]. rewrite Hst.
    assert (∀ p', (p' = p ∨ p' = None) → worker_ok (MkWorker f p' rl None (alive (worker w)))) as Hwk
      by (intros p' [->| ->]; split; done).
    destruct (cancelled w) eqn:Hcn.
    + eapply (finish_message w c taken); [done|done|done|by apply Hwk; right|done|done|done|done].
    + destruct r as [s|e].
      * destruct (Hb s eq_refl) as [Hbusy Hs]. eapply (finish_message w c taken); [done|done|done|by apply Hwk; left|done|done| |done].
        intros Hb'. cbn in Hb'. congruence.
      * eapply (finish_message w c taken); [done|done|done|by apply Hwk; left|done|done|done|done].
  - destruct Hop as (Hf & Hh & Hb).
    assert (worker_ok (MkWorker f (prepared (worker w)) (relaunch (worker w)) None (alive (worker w)))) as Hwk.
    { split; [|done]. intros x Hx. cbn in *. destruct Hf as [->|[ch Hch]]; [by apply Hp|]. rewrite (Hnone ch Hch) in Hx. done. }
    destruct s as [s|e]; cbn; eapply (finish_message w c taken); try done.
Qed.

Lemma act_keeps e w : inv w → inv (act e w).
Proof.
  intros Hi. destruct e; cbn [act].
  - by apply check_keeps.
  - unfold download. destruct (state (ui w)); try done. by apply send_keeps.
  - unfold install. destruct (state (ui w)); try done. by apply send_keeps.
  - unfold upgrade. destruct (state (ui w)); try done. by apply send_keeps.
  - unfold restart_app. destruct (state (ui w)); try done. by apply send_keeps.
  - by apply cancel_keeps.
  - by apply set_channel_keeps.
  - by apply poll_keeps.
  - by apply commit_keeps.
  - apply drop_keeps.
  - by apply recv_keeps.
  - by apply report_keeps.
  - by apply finish_keeps.
Qed.

Lemma run_keeps es w : inv w → inv (run es w).
Proof. revert w. induction es as [|e es IH]; intros w Hi; [done|]. by apply IH, act_keeps. Qed.

Lemma start_inv c now : inv (start c now).
Proof. apply check_keeps. intros _. split; [done|]. split; [done|]. split; [split; done|]. by split. Qed.

(** ** Running out *)

Lemma finish_idle o w : connected (ui w) = true → inv w → pending (finish o w) = queue w ∧ ui (finish o w) = ui w ∧ running (worker (finish o w)) = None.
Proof.
  intros Hc Hi. destruct (Hi Hc) as (Hst & _). unfold finish, pending. destruct (running (worker w)) as [[c t]|] eqn:Hr; [|by rewrite Hr].
  destruct (operate _ _ _ _) as [[] ? ? ?|[] ? ? ?]; rewrite ?Hst; [destruct (cancelled w)..| |]; done.
Qed.

Lemma recv_idle w :
  connected (ui w) = true → inv w → running (worker w) = None →
  queue (recv w) = tail (queue w) ∧ ui (recv w) = ui w ∧ (queue w = [] → running (worker (recv w)) = None).
Proof.
  intros Hc Hi Hr. destruct (Hi Hc) as (Hst & _). unfold recv. rewrite Hr. destruct (queue w) as [|c q] eqn:Hq; [by rewrite Hc, Hq|].
  cbn. rewrite Hst. destruct (operation c); try done. by destruct (prepared (worker w)) as [[[]]|].
Qed.

(** The worker's turns until nothing is pending. *)
Definition turns (o1 o2 o3 : Outcome) : list Event := [EFinish o1; ERecv; EFinish o2; ERecv; EFinish o3].

Lemma turns_empty o1 o2 o3 w :
  connected (ui w) = true → inv w → pending (run (turns o1 o2 o3) w) = [] ∧ ui (run (turns o1 o2 o3) w) = ui w.
Proof.
  intros Hc Hi. pose proof (pending_queue w (proj2 (proj2 (proj2 (Hi Hc))))) as Hlen. unfold run, turns. cbn [foldl act].
  destruct (finish_idle o1 w Hc Hi) as (Hp1 & Hu1 & Hr1). pose proof (finish_keeps o1 w Hi) as Hi1. set (w1 := finish o1 w) in *.
  assert (queue w1 = queue w) as Hq1 by (unfold pending in Hp1; by rewrite Hr1 in Hp1).
  assert (connected (ui w1) = true) as Hc1 by (by rewrite Hu1).
  destruct (recv_idle w1 Hc1 Hi1 Hr1) as (Hq2 & Hu2 & _). pose proof (recv_keeps w1 Hi1) as Hi2. set (w2 := recv w1) in *.
  assert (connected (ui w2) = true) as Hc2 by (by rewrite Hu2).
  destruct (finish_idle o2 w2 Hc2 Hi2) as (Hp3 & Hu3 & Hr3). pose proof (finish_keeps o2 w2 Hi2) as Hi3. set (w3 := finish o2 w2) in *.
  assert (queue w3 = queue w2) as Hq3 by (unfold pending in Hp3; by rewrite Hr3 in Hp3).
  assert (connected (ui w3) = true) as Hc3 by (by rewrite Hu3).
  destruct (recv_idle w3 Hc3 Hi3 Hr3) as (Hq4 & Hu4 & _). pose proof (recv_keeps w3 Hi3) as Hi4. set (w4 := recv w3) in *.
  assert (connected (ui w4) = true) as Hc4 by (by rewrite Hu4).
  destruct (finish_idle o3 w4 Hc4 Hi4) as (Hp5 & Hu5 & _). split; [|congruence]. rewrite Hp5, Hq4, Hq3, Hq2, Hq1.
  destruct (queue w) as [|x [|y [|]]]; cbn in *; try done. lia.
Qed.

Lemma poll_settles app_version now w :
  connected (ui w) = true → inv w → pending w = [] → now < next_check (ui w) →
  let w' := (poll app_version now false w).1 in mailbox w' = None ∧ pending w' = [] ∧ connected (ui w') = true.
Proof.
  intros Hc Hi Hp Hn. unfold poll. rewrite Hc. cbn [andb]. rewrite (proj2 (N.leb_gt _ _) Hn).
  destruct (mailbox w) as [m|] eqn:Hm; [|done]. destruct (negb _); done.
Qed.

Lemma poll_rests app_version now w :
  connected (ui w) = true → inv w → pending w = [] → now < next_check (ui w) →
  busy (state (ui (poll app_version now false w).1)) = true →
  is_Some (restart (ui (poll app_version now false w).1)) ∨ relaunched (ui (poll app_version now false w).1) = true.
Proof.
  intros Hc Hi Hp Hn. destruct (poll_settles app_version now w Hc Hi Hp Hn) as (Hm' & Hp' & Hc').
  pose proof (poll_keeps app_version now false w Hi) as Hip. generalize dependent (poll app_version now false w).1. clear. intros w Hm Hp Hc Hi.
  destruct (Hi Hc) as (_ & _ & _ & Hag). unfold agree in Hag. rewrite Hp in Hag. unfold settled in Hag. rewrite Hm in Hag. by destruct Hag.
Qed.

Lemma settles_from w app_version later o1 o2 o3 :
  inv w → connected (ui w) = true →
  (length (queue w) ≤ 2)%nat
  ∧ (∀ v, state (ui w) = SReady v →
       running (worker w) = None ∧ queue w = [] ∧ ∃ p, prepared (worker w) = Some p ∧ staged_version p = v)
  ∧ (∀ v n, state (ui w) = SAvailable v n → version_of (offer (worker w)) = Some v)
  ∧ (interruptible (state (ui w)) = true → committed (ui w) = false → state (ui (cancel w)) = SCancelling)
  ∧ (later < next_check (ui w) → busy (state (ui (poll app_version later false (run (turns o1 o2 o3) w)).1)) = true →
     is_Some (restart (ui (poll app_version later false (run (turns o1 o2 o3) w)).1))
     ∨ relaunched (ui (poll app_version later false (run (turns o1 o2 o3) w)).1) = true).
Proof.
  intros Hi Hc. destruct (Hi Hc) as (Hst & Ha & _ & Hag).
  assert (∀ s, state (ui w) = s → busy s = false → running (worker w) = None ∧ queue w = [] ∧ backed (worker w) s) as Hidle.
  { intros s <- Hb. destruct (agree_idle w Hag Hb) as ([Hr Hq]%pending_nil & Hm & Hs). unfold settled in Hs. rewrite Hm in Hs. by destruct Hs. }
  split; [pose proof (pending_queue w Hag); lia|]. split; [|split; [|split]].
  - intros v Hv. destruct (Hidle _ Hv) as (? & ? & ?); done.
  - intros v n Hv. by destruct (Hidle _ Hv) as (_ & _ & ?).
  - intros Hint Hcm. unfold cancel. rewrite Hint, Hcm, Hc. cbn [andb negb]. rewrite try_send_ok; [done|done|]. cbn.
    pose proof (pending_queue w Hag) as [Hq _]. unfold interruptible in Hint. apply andb_true_iff in Hint as [_ Hint].
    unfold agree in Hag. destruct (pending w) as [|x [|y [|]]]; cbn in *; try done; [lia|lia|].
    destruct Hag as ((_ & _ & Hs & _) & _). by rewrite Hs in Hint.
  - intros Hl. destruct (turns_empty o1 o2 o3 w Hc Hi) as [Hp Hu]. assert (inv (run (turns o1 o2 o3) w)) as Hi' by (by apply run_keeps).
    apply poll_rests; [by rewrite Hu|done|done|by rewrite Hu].
Qed.

(** ** A staged update whose channel is left *)

Definition an_offer (v : str) : Offer := MkOffer (MkManifest 1 v []) (MkAsset [] [] 0 []) [] [] [].
Definition answer (found : option Offer) : Outcome :=
  MkOutcome None false (Ok found) (Ok Standalone) (Ok tt) (Ok tt) (Ok []) (Ok tt).
Definition v2 : str := lit "20261001.2".

(** Checked, downloaded, and the window has seen it. *)
Definition downloaded : list Event :=
  [ERecv; EFinish (answer (Some (an_offer v2))); EPoll [] 1 false; EDownload 1; ERecv; EReport (Received 1 3);
   EFinish (answer (Some (an_offer v2))); EPoll [] 1 false].

Example ready_again :
  state (ui (run (downloaded ++ [ESetChannel 2 Stable; EPoll [] 2 false; ERecv; EFinish (answer (Some (an_offer v2))); EPoll [] 3 false])
    (start Beta 0))) = SReady v2.
Proof. vm_compute. reflexivity. Qed.

Example dropped :
  state (ui (run (downloaded ++ [ESetChannel 2 Stable; EPoll [] 2 false; ERecv; EFinish (answer None); EPoll [] 3 false]) (start Beta 0))) = SCurrent
  ∧ prepared (worker (run (downloaded ++ [ESetChannel 2 Stable; EPoll [] 2 false; ERecv; EFinish (answer None); EPoll [] 3 false]) (start Beta 0))) = None.
Proof. vm_compute. by split. Qed.

(** C10: Whatever order the window's and the worker's steps come in, what the
    window shows is backed by what the worker holds: an update shown as ready is
    staged, for that version, with the worker at rest, and an update shown as
    available is the worker's offer; a cancellation always finds room in the
    queue; and a busy state always ends: once the worker has done what is queued
    and its message is read, the window is at rest or has the handover in hand. *)
Theorem updater_settles c now es app_version later o1 o2 o3 :
  let w := run es (start c now) in
  let w' := (poll app_version later false (run (turns o1 o2 o3) w)).1 in
  connected (ui w) = true →
  (length (queue w) ≤ 2)%nat
  ∧ (∀ v, state (ui w) = SReady v →
       running (worker w) = None ∧ queue w = [] ∧ ∃ p, prepared (worker w) = Some p ∧ staged_version p = v)
  ∧ (∀ v n, state (ui w) = SAvailable v n → version_of (offer (worker w)) = Some v)
  ∧ (interruptible (state (ui w)) = true → committed (ui w) = false → state (ui (cancel w)) = SCancelling)
  ∧ (later < next_check (ui w) → busy (state (ui w')) = true → is_Some (restart (ui w')) ∨ relaunched (ui w') = true).
Proof. cbn zeta. apply settles_from, run_keeps, start_inv. Qed.

Lemma updater_settles_witness :
  let w := run downloaded (start Beta 0) in
  running (worker w) = None ∧ queue w = [] ∧ ∃ p, prepared (worker w) = Some p ∧ staged_version p = v2.
Proof.
  refine (proj1 (proj2 (updater_settles Beta 0 downloaded [] 1 (answer None) (answer None) (answer None) _)) v2 _).
  - vm_compute. reflexivity.
  - vm_compute. reflexivity.
Defined.
End Updater.
