(* ===== verification/AutoStore.v ===== *)
(** * AutoStore: the tables of the automation daemon
    (crates/sheprd-automate/src/store.rs and store/rows.rs)

    Every table of the schema is a map from its primary key, or a list in the
    order of its ids; every SQL statement is a function on the tables. That a
    statement can fail, and that other processes write in between, is the part of
    the programs that run them ([AutoRun], [AutoDaemon]). Columns that hold text
    printed for people (a plan, a schedule, a step, a detail) keep what is
    printed. Sums of token counts are taken not to leave 64 bits. *)

From Stdlib Require Import ZArith NArith Lia.
From stdpp Require Import base option strings list gmap sorting.
From S2P Require Import Prelude Schedule ScheduleNext Plan.

Local Open Scope Z_scope.

Module AutoStore.

(** ** Rows *)

Inductive Reason := Scheduled | Late | ByHand.
Inductive RunState := Running | Completed | Stopped | Halted | Failed | Interrupted.
Inductive StepState := StepRunning | StepSucceeded | StepFailed | StepHalted.
#[export] Instance Reason_eq_dec : EqDecision Reason.
Proof. solve_decision. Defined.
#[export] Instance RunState_eq_dec : EqDecision RunState.
Proof. solve_decision. Defined.
#[export] Instance StepState_eq_dec : EqDecision StepState.
Proof. solve_decision. Defined.

(** Why the runner stopped a run: [Halt] of runner.rs. *)
Inductive Halt := HStopped | HWallTime | HOffPlan | HAgentsPerRun | HHostAgents | HScriptTokens | HHostTokens.
#[export] Instance Halt_eq_dec : EqDecision Halt.
Proof. solve_decision. Defined.

(** What a run's detail says. *)
Inductive Detail :=
| NoTrigger (number : nat) | StepFailedDetail (position : N) (call : Plan.Call) | HaltedBefore (step : nat) (halt : Halt)
| ErrorText (text : str) | DaemonStopped.

(** Why a script is paused or disabled. *)
Inductive SwitchReason := ByYou | AfterFailures | TokenBudget.

Record Switch := MkSwitch { paused : bool; disabled : bool; why : option SwitchReason }.
Definition switch_default : Switch := MkSwitch false false None.

Record TriggerStatus := MkTriggerStatus {
  t_index : nat; t_name : option str; t_schedule : ScheduleNext.Kind; t_zone : option Plan.Zone; t_next : option Z }.

Record WorktreeScripts := MkWorktreeScripts { setup : option str; wt_run : option str }.
#[export] Instance WorktreeScripts_eq_dec : EqDecision WorktreeScripts.
Proof. solve_decision. Defined.

(** [s_plan] is the plan printed with the worktree scripts below it. *)
Record ScriptRow := MkScriptRow {
  s_path : str; s_name : str; s_repo : option str; s_hash : str; s_error : option str;
  s_plan : option (Plan.Plan * option WorktreeScripts); s_triggers : list TriggerStatus;
  s_caps : option Plan.Caps; s_seen_at : Z }.
Definition script_row_default : ScriptRow := MkScriptRow [] [] None [] None None [] None 0.

Record NewRun := MkNewRun {
  n_path : str; n_name : str; n_trigger : nat; n_trigger_name : option str; n_reason : Reason;
  n_scheduled : option Z; n_hash : str; n_started_at : Z }.

Record RunRow := MkRunRow {
  r_id : Z; r_path : str; r_name : str; r_trigger : nat; r_trigger_name : option str; r_reason : Reason;
  r_scheduled : option Z; r_hash : str; r_started_at : Z; r_finished_at : option Z; r_state : RunState;
  r_detail : option Detail; r_steps : N }.

Record StepRow := MkStepRow {
  p_call : Plan.Call; p_started_at : Z; p_finished_at : option Z; p_state : StepState; p_exit : option Z;
  p_log_tail : str; p_worktree : option str; p_pane : option str; p_cpu_ms : option N; p_peak_memory : option N }.

Record TokenCount := MkTokenCount { input : N; output : N; cache_read : N; cache_write : N }.

Record AgentRow := MkAgentRow {
  a_run : Z; a_position : N; a_path : str; a_harness : str; a_pane : str; a_cwd : str; a_started_at : Z;
  a_done_at : option Z; a_tokens : option TokenCount; a_cpu_ms : option N; a_peak_memory : option N; a_sampled_at : option Z }.

Inductive RequestKind := RunNow (path : str) (trigger : option str) | StopRun (run : Z) | Shutdown.

(** A row of [requests], in its columns. *)
Record RequestRow := MkRequestRow {
  q_id : Z; q_kind : str; q_path : option str; q_argument : option str; q_created_at : Z; q_taken_at : option Z }.
Record Request := MkRequest { request_id : Z; kind : RequestKind; created_at : Z }.

Record DaemonRow := MkDaemonRow { d_pid : option N; d_started_at : option Z; d_beat_at : option Z; paused_all : bool }.

(** [runs] is in the order of the ids; [run_sequence] and [request_sequence] are
    the last ids given out, which AUTOINCREMENT never gives again. *)
Record Store := MkStore {
  repos : gmap str Z;
  approvals : gmap str (str * Z * str);
  switches : gmap str Switch;
  scripts : gmap str ScriptRow;
  cursors : gmap (str * nat) (Z * option Z);
  runs : list RunRow;
  run_sequence : Z;
  steps : gmap (Z * N) StepRow;
  agents : gmap (Z * N) AgentRow;
  agent_days : gmap (Z * N * Z) TokenCount;
  requests : list RequestRow;
  request_sequence : Z;
  daemon : option DaemonRow }.

Definition empty_store : Store := MkStore ∅ ∅ ∅ ∅ ∅ [] 0 ∅ ∅ ∅ [] 0 None.

Definition with_repos (f : gmap str Z → gmap str Z) (s : Store) : Store :=
  MkStore (f (repos s)) (approvals s) (switches s) (scripts s) (cursors s) (runs s) (run_sequence s) (steps s) (agents s)
    (agent_days s) (requests s) (request_sequence s) (daemon s).
Definition with_approvals f (s : Store) : Store :=
  MkStore (repos s) (f (approvals s)) (switches s) (scripts s) (cursors s) (runs s) (run_sequence s) (steps s) (agents s)
    (agent_days s) (requests s) (request_sequence s) (daemon s).
Definition with_switches f (s : Store) : Store :=
  MkStore (repos s) (approvals s) (f (switches s)) (scripts s) (cursors s) (runs s) (run_sequence s) (steps s) (agents s)
    (agent_days s) (requests s) (request_sequence s) (daemon s).
Definition with_scripts f (s : Store) : Store :=
  MkStore (repos s) (approvals s) (switches s) (f (scripts s)) (cursors s) (runs s) (run_sequence s) (steps s) (agents s)
    (agent_days s) (requests s) (request_sequence s) (daemon s).
Definition with_cursors f (s : Store) : Store :=
  MkStore (repos s) (approvals s) (switches s) (scripts s) (f (cursors s)) (runs s) (run_sequence s) (steps s) (agents s)
    (agent_days s) (requests s) (request_sequence s) (daemon s).
Definition with_runs f (s : Store) : Store :=
  MkStore (repos s) (approvals s) (switches s) (scripts s) (cursors s) (f (runs s)) (run_sequence s) (steps s) (agents s)
    (agent_days s) (requests s) (request_sequence s) (daemon s).
Definition with_steps f (s : Store) : Store :=
  MkStore (repos s) (approvals s) (switches s) (scripts s) (cursors s) (runs s) (run_sequence s) (f (steps s)) (agents s)
    (agent_days s) (requests s) (request_sequence s) (daemon s).
Definition with_agents f (s : Store) : Store :=
  MkStore (repos s) (approvals s) (switches s) (scripts s) (cursors s) (runs s) (run_sequence s) (steps s) (f (agents s))
    (agent_days s) (requests s) (request_sequence s) (daemon s).
Definition with_agent_days f (s : Store) : Store :=
  MkStore (repos s) (approvals s) (switches s) (scripts s) (cursors s) (runs s) (run_sequence s) (steps s) (agents s)
    (f (agent_days s)) (requests s) (request_sequence s) (daemon s).
Definition with_daemon f (s : Store) : Store :=
  MkStore (repos s) (approvals s) (switches s) (scripts s) (cursors s) (runs s) (run_sequence s) (steps s) (agents s)
    (agent_days s) (requests s) (request_sequence s) (f (daemon s)).

(** ** Repositories, approvals and switches *)

(** Texts in the order SQLite compares them, which is that of their characters. *)
Fixpoint str_leb (a b : str) : bool :=
  match a, b with
  | [], _ => true
  | _, [] => false
  | x :: a, y :: b => if (x <? y)%N then true else if (y <? x)%N then false else str_leb a b
  end.
Fixpoint insert_sorted (p : str) (l : list str) : list str :=
  match l with
  | [] => [p]
  | q :: l => if str_leb p q then p :: q :: l else q :: insert_sorted p l
  end.

Definition all_repos (s : Store) : list str := foldr insert_sorted [] (map_to_list (repos s)).*1.
Definition add_repo (path : str) (now : Z) (s : Store) : Store * bool :=
  match repos s !! path with
  | Some _ => (s, false)
  | None => (with_repos <[path := now]> s, true)
  end.
Definition remove_repo (path : str) (s : Store) : Store * bool := (with_repos (delete path) s, is_some (repos s !! path)).

Definition approved_hash (path : str) (s : Store) : option str := (λ r, r.1.1) <$> approvals s !! path.
Definition approve (path hash by_ : str) (now : Z) : Store → Store := with_approvals <[path := (hash, now, by_)]>.

Definition switch (path : str) (s : Store) : Switch := default switch_default (switches s !! path).
Definition set_switch (path : str) (sw : Switch) : Store → Store := with_switches <[path := sw]>.

(** ** Scripts *)

Definition put_script (row : ScriptRow) : Store → Store := with_scripts <[s_path row := row]>.
Definition set_triggers (path : str) (ts : list TriggerStatus) : Store → Store :=
  with_scripts (alter (λ r, MkScriptRow (s_path r) (s_name r) (s_repo r) (s_hash r) (s_error r) (s_plan r) ts (s_caps r) (s_seen_at r)) path).
Definition forget_scripts_before (seen_at : Z) : Store → Store :=
  with_scripts (filter (λ kv, ¬ (s_seen_at kv.2 < seen_at))).
Definition script (path : str) (s : Store) : option ScriptRow := scripts s !! path.

(** ** Cursors *)

Definition cursor (path : str) (index : nat) (s : Store) : option (Z * option Z) := cursors s !! (path, index).
Definition set_cursor (path : str) (index : nat) (checked : Z) (fired : option Z) : Store → Store :=
  with_cursors (λ m, <[(path, index) := (checked, match fired with Some f => Some f | None => (m !! (path, index)) ≫= snd end)]> m).
Definition clear_cursors (path : str) : Store → Store := with_cursors (filter (λ kv, kv.1.1 ≠ path)).

(** ** Runs *)

(** The unique key of a firing; NULLs are never equal. *)
Definition same_firing (n : NewRun) (r : RunRow) : bool :=
  bool_decide (r_path r = n_path n) && bool_decide (r_trigger r = n_trigger n)
  && match n_scheduled n, r_scheduled r with Some a, Some b => a =? b | _, _ => false end.

Definition start_run (n : NewRun) (s : Store) : Store * option Z :=
  if existsb (same_firing n) (runs s) then (s, None)
  else
    let id := run_sequence s + 1 in
    let row := MkRunRow id (n_path n) (n_name n) (n_trigger n) (n_trigger_name n) (n_reason n) (n_scheduled n) (n_hash n)
                 (n_started_at n) None Running None 0 in
    (MkStore (repos s) (approvals s) (switches s) (scripts s) (cursors s) (runs s ++ [row]) id (steps s) (agents s)
       (agent_days s) (requests s) (request_sequence s) (daemon s), Some id).

Definition ended (state : RunState) (detail : option Detail) (now : Z) (r : RunRow) : RunRow :=
  MkRunRow (r_id r) (r_path r) (r_name r) (r_trigger r) (r_trigger_name r) (r_reason r) (r_scheduled r) (r_hash r)
    (r_started_at r) (Some now) state detail (r_steps r).

(** [UPDATE runs SET ... WHERE ...]. *)
Definition update_runs (which : RunRow → bool) (f : RunRow → RunRow) : Store → Store :=
  with_runs (fmap (λ r, if which r then f r else r)).

Definition finish_run (id : Z) (state : RunState) (detail : option Detail) (now : Z) : Store → Store :=
  update_runs (λ r, r_id r =? id) (ended state detail now).

(** The two statements of [interrupt_running]. *)
Definition interrupt_steps (now : Z) : Store → Store :=
  with_steps (fmap (λ p, if decide (p_state p = StepRunning)
    then MkStepRow (p_call p) (p_started_at p) (Some now) StepHalted (p_exit p) (p_log_tail p) (p_worktree p) (p_pane p)
           (p_cpu_ms p) (p_peak_memory p)
    else p)).
Definition interrupt_runs (now : Z) (s : Store) : Store * nat :=
  (update_runs (λ r, bool_decide (r_state r = Running)) (ended Interrupted (Some DaemonStopped) now) s,
   length (filter (λ r, r_state r = Running) (runs s))).

Definition get_run (id : Z) (s : Store) : option RunRow := list_find (λ r, r_id r = id) (runs s) ≫= λ ir, Some ir.2.

(** The leading failures of a list of states. *)
Fixpoint leading_failures (l : list RunState) : N :=
  match l with
  | (Failed | Halted | Stopped) :: l => 1 + leading_failures l
  | _ => 0
  end.

Definition failures_in_a_row (path : str) (s : Store) : N :=
  leading_failures (r_state <$> take 20 (filter (λ r, r_path r = path ∧ r_state r ≠ Running) (reverse (runs s)))).

(** ** Steps *)

(** The two statements of [start_step]. *)
Definition insert_step (run : Z) (position : N) (call : Plan.Call) (now : Z) : Store → Store :=
  with_steps <[(run, position) := MkStepRow call now None StepRunning None [] None None None None]>.
Definition count_step (run : Z) (position : N) : Store → Store :=
  update_runs (λ r, r_id r =? run) (λ r,
    MkRunRow (r_id r) (r_path r) (r_name r) (r_trigger r) (r_trigger_name r) (r_reason r) (r_scheduled r) (r_hash r)
      (r_started_at r) (r_finished_at r) (r_state r) (r_detail r) (N.max (r_steps r) position)).

Definition i64_max : N := 9223372036854775807.

(** [i64::try_from(value).ok()]. *)
Definition column (value : option N) : option N := v ← value; if (v <=? i64_max)%N then Some v else None.

Definition finish_step (run : Z) (position : N) (row : StepRow) (now : Z) : Store → Store :=
  with_steps (alter (λ p,
    MkStepRow (p_call p) (p_started_at p) (Some now) (p_state row) (p_exit row) (p_log_tail row) (p_worktree row)
      (p_pane row) (column (p_cpu_ms row)) (column (p_peak_memory row))) (run, position)).

(** ** Agents and their usage *)

Definition add_agent (a : AgentRow) : Store → Store :=
  with_agents <[(a_run a, a_position a) :=
    MkAgentRow (a_run a) (a_position a) (a_path a) (a_harness a) (a_pane a) (a_cwd a) (a_started_at a) None None None None None]>.

Definition live (a : AgentRow) : Prop := a_done_at a = None.
#[export] Instance live_dec a : Decision (live a).
Proof. unfold live. apply _. Defined.

Definition live_agents (s : Store) : list AgentRow := filter live (map_to_list (agents s)).*2.

(** The columns of a count, and how a row reads them back. *)
Definition token_columns (t : option TokenCount) : option TokenCount :=
  t ← t;
  i ← column (Some (input t));
  Some (MkTokenCount i (default 0%N (column (Some (output t)))) (default 0%N (column (Some (cache_read t))))
          (default 0%N (column (Some (cache_write t))))).

Definition update_agent (a : AgentRow) : Store → Store :=
  with_agents (alter (λ r,
    MkAgentRow (a_run r) (a_position r) (a_path r) (a_harness r) (a_pane r) (a_cwd r) (a_started_at r) (a_done_at a)
      (token_columns (a_tokens a)) (column (a_cpu_ms a)) (column (a_peak_memory a)) (a_sampled_at a)) (a_run a, a_position a)).

Definition no_tokens : TokenCount := MkTokenCount 0 0 0 0.

(** The first statement of [sample_agent]: the first sample of a day keeps what
    was used before it. *)
Definition open_day (run : Z) (position : N) (day : Z) (s : Store) : Store :=
  match agents s !! (run, position), agent_days s !! (run, position, day) with
  | Some a, None => with_agent_days <[(run, position, day) := default no_tokens (a_tokens a)]> s
  | _, _ => s
  end.

(** The rows the daily count joins: an agent with what it had before the day. *)
Definition day_rows (path : option str) (day : Z) (s : Store) : list (TokenCount * AgentRow) :=
  omap (λ kd, if bool_decide (kd.1.2 = day)
              then a ← agents s !! kd.1.1;
                   if match path with None => true | Some p => bool_decide (a_path a = p) end then Some (kd.2, a) else None
              else None) (map_to_list (agent_days s)).

Definition sum_of (f : TokenCount → N) (rows : list (TokenCount * AgentRow)) : Z :=
  foldr (λ r acc, acc + (Z.of_N (f (default no_tokens (a_tokens r.2))) - Z.of_N (f r.1))) 0 rows.

Definition tokens_on (path : option str) (day : Z) (s : Store) : option TokenCount :=
  let rows := day_rows path day s in
  if forallb (λ r, negb (is_some (a_tokens r.2))) rows then None
  else Some (MkTokenCount (Z.to_N (sum_of input rows)) (Z.to_N (sum_of output rows)) (Z.to_N (sum_of cache_read rows))
               (Z.to_N (sum_of cache_write rows))).

(** [Tokens::total]. *)
Definition total (t : TokenCount) : N :=
  saturating_add u64_max (saturating_add u64_max (saturating_add u64_max (input t) (output t)) (cache_read t)) (cache_write t).

(** ** Requests *)

(** [to_string] and [str::parse] of a signed integer of 64 bits. *)
Definition int_text (z : Z) : str := if z <? 0 then 45%N :: dec (Z.to_N (- z)) else dec (Z.to_N z).
Definition parse_i64 (s : str) : option Z :=
  match s with
  | 45%N :: (c :: _) as t => if (c =? 43)%N then None else (λ n, - Z.of_N n) <$> parse_uint (i64_max + 1) t
  | _ => Z.of_N <$> parse_uint i64_max s
  end.

Definition columns (k : RequestKind) : str * option str * option str :=
  match k with
  | RunNow path trigger => (lit "run-now", Some path, trigger)
  | StopRun run => (lit "stop", None, Some (int_text run))
  | Shutdown => (lit "shutdown", None, None)
  end.

Definition read_request (r : RequestRow) : option Request :=
  k ← if bool_decide (q_kind r = lit "run-now") then (λ p, RunNow p (q_argument r)) <$> q_path r
      else if bool_decide (q_kind r = lit "stop") then StopRun <$> (q_argument r ≫= parse_i64)
      else if bool_decide (q_kind r = lit "shutdown") then Some Shutdown
      else None;
  Some (MkRequest (q_id r) k (q_created_at r)).

Definition with_requests (l : list RequestRow) (sequence : Z) (s : Store) : Store :=
  MkStore (repos s) (approvals s) (switches s) (scripts s) (cursors s) (runs s) (run_sequence s) (steps s) (agents s)
    (agent_days s) l sequence (daemon s).

Definition push_request (k : RequestKind) (now : Z) (s : Store) : Store :=
  let '(name, path, argument) := columns k in
  let id := request_sequence s + 1 in
  with_requests (requests s ++ [MkRequestRow id name path argument now None]) id s.

(** The statement of [take_requests] that claims the waiting ones, and the one
    that forgets old ones. The table is in the order of the ids, which is the one
    the source sorts by. *)
Definition claim_requests (now : Z) (s : Store) : Store * list Request :=
  (with_requests ((λ r, match q_taken_at r with
                        | None => MkRequestRow (q_id r) (q_kind r) (q_path r) (q_argument r) (q_created_at r) (Some now)
                        | Some _ => r
                        end) <$> requests s) (request_sequence s) s,
   omap read_request (filter (λ r, q_taken_at r = None) (requests s))).
Definition forget_requests (now : Z) (s : Store) : Store :=
  with_requests (filter (λ r, match q_taken_at r with Some t => t <? now - 86400 | None => false end = false) (requests s))
    (request_sequence s) s.

(** ** The daemon's own row *)

Definition beat (pid : N) (started_at now : Z) : Store → Store :=
  with_daemon (λ d, Some (MkDaemonRow (Some pid) (Some started_at) (Some now) (match d with Some d => paused_all d | None => false end))).
Definition set_paused_all (b : bool) : Store → Store :=
  with_daemon (λ d, Some (match d with
                          | Some d => MkDaemonRow (d_pid d) (d_started_at d) (d_beat_at d) b
                          | None => MkDaemonRow None None None b
                          end)).
Definition is_paused_all (s : Store) : bool := match daemon s with Some d => paused_all d | None => false end.
Definition clear_beat : Store → Store :=
  with_daemon (fmap (λ d, MkDaemonRow None (d_started_at d) None (paused_all d))).

(** ** Requests read back *)

Lemma parse_int_text z : - Z.of_N i64_max - 1 ≤ z ≤ Z.of_N i64_max → parse_i64 (int_text z) = Some z.
Proof.
  intros Hz. unfold int_text. destruct (Z.ltb_spec z 0) as [Hneg|Hpos].
  - pose proof (dec_digits (Z.to_N (- z))) as Hd. destruct (dec (Z.to_N (- z))) as [|c s] eqn:Ed; [by apply dec_nonempty in Ed|].
    cbn [parse_i64]. rewrite <-Ed. apply Forall_cons in Hd as [Hc _]. unfold is_ascii_digit in Hc.
    destruct (N.eqb_spec c 43) as [->|_]; [done|]. rewrite parse_uint_dec by (unfold i64_max in *; lia). cbn. f_equal. lia.
  - pose proof (dec_digits (Z.to_N z)) as Hd. destruct (dec (Z.to_N z)) as [|c s] eqn:Ed; [by apply dec_nonempty in Ed|].
    apply Forall_cons in Hd as [Hc _]. unfold parse_i64. replace (c :: s) with (dec (Z.to_N z)) by done.
    assert (parse_uint i64_max (dec (Z.to_N z)) = Some (Z.to_N z)) as Hp by (apply parse_uint_dec; unfold i64_max in *; lia).
    rewrite Ed in *. unfold is_ascii_digit in Hc.
    destruct (N.eqb_spec c 45) as [->|Hne]; [done|].
    assert ((λ n, Z.of_N n) <$> parse_uint i64_max (c :: s) = Some z) as <- by (rewrite Hp; cbn; f_equal; lia).
    destruct c as [|p]; [done|]. repeat (destruct p as [p|p|]; try done).
Qed.

(** Every request a command leaves is read as it was meant. *)
Theorem request_roundtrip (k : RequestKind) (id at_ : Z) (taken : option Z) :
  match k with StopRun r => - Z.of_N i64_max - 1 ≤ r ≤ Z.of_N i64_max | _ => True end →
  let '(name, path, argument) := columns k in
  read_request (MkRequestRow id name path argument at_ taken) = Some (MkRequest id k at_).
Proof. destruct k as [p t|r|]; intros Hr; cbn; [done| |done]. unfold read_request. cbn. by rewrite parse_int_text. Qed.

Lemma request_roundtrip_witness :
  read_request (MkRequestRow 4 (lit "stop") None (Some (lit "-12")) 9 None) = Some (MkRequest 4 (StopRun (-12)) 9).
Proof. exact (request_roundtrip (StopRun (-12)) 4 9 None ltac:(unfold i64_max; lia)). Defined.
End AutoStore.
