(* ===== verification/Threads.v ===== *)
(** * Threads: programs that interleave on a shared world

    The automation daemon is threads and processes that share a database, locks
    and channels. A [prog] is what one of them does, one access of the shared
    world at a time; [thread_step] runs the next access of any thread. [wp] is a
    rely/guarantee logic for them: a thread may assume of the others what [rely]
    says for it, owes the others the same, and the invariant holds between any two
    accesses ([step_safe]). *)

From stdpp Require Import base option list gmap relations.
From S2P Require Import Prelude.

Module Threads.

(** [W] is the shared world, [I] what an access gets from outside (a clock, a
    file, whether a call fails), [J] what a new thread is given. *)
Inductive prog (W I J A : Type) : Type :=
| Ret (a : A)
| Act {X : Type} (act : I → W → option (W * X)) (k : X → prog W I J A)
| Fork (j : J) (k : prog W I J A).
Arguments Ret {W I J A} a.
Arguments Act {W I J A X} act k.
Arguments Fork {W I J A} j k.

Section prog.
Context {W I J : Type}.

Fixpoint bind {A B} (m : prog W I J A) (k : A → prog W I J B) : prog W I J B :=
  match m with
  | Ret a => k a
  | Act act h => Act act (λ x, bind (h x) k)
  | Fork j h => Fork j (bind h k)
  end.

(** The [?] operator. *)
Definition try {E A B} (m : prog W I J (res E A)) (k : A → prog W I J (res E B)) : prog W I J (res E B) :=
  bind m (λ r, match r with Ok a => k a | Err e => Ret (Err e) end).

(** An access that is always possible. *)
Definition act {X} (f : I → W → W * X) : prog W I J X := Act (λ i w, Some (f i w)) Ret.

(** What an access gets from outside, with the world left alone. *)
Definition ask {X} (f : I → X) : prog W I J X := act (λ i w, (w, f i)).

Definition fork (j : J) : prog W I J unit := Fork j (Ret tt).
End prog.

Notation "'do' x ':=' m 'in' k" := (bind m (λ x, k)) (at level 10, x binder, m at level 100, k at level 200).
Notation "'let?' x ':=' m 'in' k" := (try m (λ x, k)) (at level 10, x binder, m at level 100, k at level 200).

(** What a new thread runs, who it is, and how its start shows in the world. *)
Class Spawns (W I J T : Type) := {
  tid : J → T;
  forked : J → W → W;
  body : J → prog W I J unit;
}.

Section threads.
Context {W I J T : Type} `{Countable T} `{!Spawns W I J T}.

Record Config := MkConfig { world : W; pool : gmap T (prog W I J unit) }.

(** The next access of the thread [t]; [None] when it cannot go on now. *)
Definition thread_step (t : T) (i : I) (c : Config) : option Config :=
  match pool c !! t with
  | None => None
  | Some (Ret _) => Some (MkConfig (world c) (delete t (pool c)))
  | Some (Act act k) => '(w, x) ← act i (world c); Some (MkConfig w (<[t := k x]> (pool c)))
  | Some (Fork j k) =>
      match pool c !! tid j with
      | Some _ => None
      | None => Some (MkConfig (forked j (world c)) (<[tid j := body j]> (<[t := k]> (pool c))))
      end
  end.

(** ** The logic *)

Class Protocol := {
  inv : W → Prop;
  rely : T → W → W → Prop;
  (** The threads that were started. *)
  born : T → W → Prop;
  (** What a new thread may assume. *)
  pre : J → W → Prop;
  legal : I → Prop;
  rely_pre t :: PreOrder (rely t);
}.

Context `{!Protocol}.

(** What the access of [t] from [w] to [w'] owes. *)
Definition keeps (t : T) (w w' : W) : Prop :=
  inv w' ∧ (∀ u, u ≠ t → born u w → rely u w w') ∧ ∀ u, born u w → born u w'.

Fixpoint wp {A} (t : T) (p : prog W I J A) (Q : A → W → Prop) (w : W) : Prop :=
  match p with
  | Ret a => Q a w
  | Act act k => ∀ w1 i w2 x, rely t w w1 → inv w1 → legal i → act i w1 = Some (w2, x) → keeps t w1 w2 ∧ wp t (k x) Q w2
  | Fork j k => ∀ w1, rely t w w1 → inv w1 →
      keeps t w1 (forked j w1) ∧ ¬ born (tid j) w1 ∧ tid j ≠ t ∧ born (tid j) (forked j w1) ∧ pre j (forked j w1)
      ∧ wp t k Q (forked j w1)
  end.

Lemma wp_rely t (p : prog W I J unit) w w' : rely t w w' → wp t p (λ _ _, True) w → wp t p (λ _ _, True) w'.
Proof.
  intros Hr. destruct p as [a|X act k|j k]; cbn; [done|..].
  - intros Hw w1 i w2 x Hr1. apply Hw. by etrans.
  - intros Hw w1 Hr1. apply Hw. by etrans.
Qed.

Lemma wp_mono {A} t (p : prog W I J A) (Q R : A → W → Prop) w : (∀ a w', Q a w' → R a w') → wp t p Q w → wp t p R w.
Proof.
  intros HQ. revert w. induction p as [a|X act k IH|j k IH]; intros w; cbn; [apply HQ|..].
  - intros Hw w1 i w2 x ????. destruct (Hw w1 i w2 x) as [Hk Hn]; [done..|]. split; [done|by apply IH].
  - intros Hw w1 ??. destruct (Hw w1) as (? & ? & ? & ? & ? & Hn); [done..|]. repeat (split; [done|]). by apply IH.
Qed.

Lemma wp_bind {A B} t (m : prog W I J A) (k : A → prog W I J B) Q w :
  wp t m (λ a w', wp t (k a) Q w') w → wp t (bind m k) Q w.
Proof.
  revert w. induction m as [a|X act h IH|j h IH]; intros w; cbn; [done|..].
  - intros Hw w1 i w2 x ????. destruct (Hw w1 i w2 x) as [Hk Hn]; [done..|]. split; [done|by apply IH].
  - intros Hw w1 ??. destruct (Hw w1) as (? & ? & ? & ? & ? & Hn); [done..|]. repeat (split; [done|]). by apply IH.
Qed.

Lemma wp_try {E A B} t (m : prog W I J (res E A)) (k : A → prog W I J (res E B)) Q w :
  wp t m (λ r w', match r with Ok a => wp t (k a) Q w' | Err e => Q (Err e) w' end) w → wp t (try m k) Q w.
Proof. intros Hm. apply wp_bind. eapply wp_mono; [|exact Hm]. by intros [a|e] w'. Qed.

(** ** Quiet programs: accesses that owe nothing to anyone *)

Context (same : W → W → Prop).
Hypothesis same_keeps : ∀ w w' t, same w w' → inv w → inv w' ∧ rely t w w' ∧ ∀ u, born u w → born u w'.

(** [p] forks nothing, leaves what matters as it is, and its result satisfies
    [P]. *)
Fixpoint quiet {A} (p : prog W I J A) (P : A → Prop) : Prop :=
  match p with
  | Ret a => P a
  | Act act k => ∀ i w w' x, legal i → act i w = Some (w', x) → same w w' ∧ quiet (k x) P
  | Fork _ _ => False
  end.

Lemma quiet_mono {A} (p : prog W I J A) (P R : A → Prop) : (∀ a, P a → R a) → quiet p P → quiet p R.
Proof.
  intros HP. induction p as [a|X act k IH|j k IH]; cbn; [apply HP| |done].
  intros Hq i w w' x ??. destruct (Hq i w w' x) as [? Hk]; [done..|]. split; [done|by apply IH].
Qed.

Lemma quiet_then {A B} (m : prog W I J A) (k : A → prog W I J B) P : quiet m (λ a, quiet (k a) P) → quiet (bind m k) P.
Proof.
  induction m as [a|X act h IH|j h IH]; cbn; [done| |done].
  intros Hq i w w' x ??. destruct (Hq i w w' x) as [? Hk]; [done..|]. split; [done|by apply IH].
Qed.

Lemma quiet_try {E A B} (m : prog W I J (res E A)) (k : A → prog W I J (res E B)) P :
  quiet m (λ r, match r with Ok a => quiet (k a) P | Err e => P (Err e) end) → quiet (try m k) P.
Proof. intros Hm. apply quiet_then. eapply quiet_mono; [|exact Hm]. by intros [a|e]. Qed.

Lemma wp_quiet {A} t (p : prog W I J A) (P : A → Prop) Q w :
  quiet p P → (∀ a w', P a → rely t w w' → Q a w') → wp t p Q w.
Proof.
  revert w. induction p as [a|X act k IH|j k IH]; intros w; cbn; [|intros Hq HQ|done].
  - intros HP HQ. apply HQ; [done|reflexivity].
  - intros w1 i w2 x Hr Hi Hl Ha. destruct (Hq i w1 w2 x Hl Ha) as [Hs Hk].
    destruct (same_keeps _ _ t Hs Hi) as (Hi2 & Hr2 & Hb). split.
    + split; [done|]. split; [|done]. intros u _ _. by apply same_keeps.
    + apply IH; [done|]. intros a w' HP Hr'. apply HQ; [done|]. etrans; [exact Hr|]. by etrans.
Qed.

(** ** Soundness *)

Definition pool_ok (c : Config) : Prop :=
  inv (world c) ∧ ∀ t p, pool c !! t = Some p → born t (world c) ∧ wp t p (λ _ _, True) (world c).

Lemma pool_keeps t c w p :
  pool_ok c → keeps t (world c) w → (∃ q, pool c !! t = Some q) → wp t p (λ _ _, True) w →
  pool_ok (MkConfig w (<[t := p]> (pool c))).
Proof.
  intros [Hi Hp] (Hi' & Hr & Hb) [q Hq] Hw. split; [done|]. intros u r. cbn.
  destruct (decide (u = t)) as [->|Hne].
  - rewrite lookup_insert_eq. intros [= <-]. split; [|done]. apply Hb. by apply (Hp t q).
  - rewrite lookup_insert_ne by done. intros Hu. destruct (Hp u r Hu) as [Hborn Hwp].
    split; [by apply Hb|]. eapply wp_rely; [|exact Hwp]. by apply Hr.
Qed.

Hypothesis body_ok : ∀ j w, pre j w → wp (tid j) (body j) (λ _ _, True) w.

(** Every step of every thread keeps the invariant and every thread's own
    reasoning; a thread that forks never finds its new thread's name taken. *)
Lemma step_safe t i c c' : pool_ok c → legal i → thread_step t i c = Some c' → pool_ok c'.
Proof.
  intros Hc Hl. unfold thread_step. destruct (pool c !! t) as [p|] eqn:Et; [|done].
  destruct (proj2 Hc t p Et) as [Hborn Hw]. destruct p as [a|X act k|j k].
  - intros [= <-]. split; [apply Hc|]. intros u q. cbn. intros [_ Hu]%lookup_delete_Some. by apply Hc.
  - cbn in Hw. destruct (act i (world c)) as [[w x]|] eqn:Ea; cbn; [|done]. intros [= <-].
    destruct (Hw (world c) i w x) as [Hk Hwp]; [reflexivity|apply Hc|done..|]. apply pool_keeps; eauto.
  - cbn in Hw. destruct (Hw (world c)) as (Hk & Hnb & Hne & Hb & Hpre & Hwp); [reflexivity|apply Hc|].
    destruct (pool c !! tid j) as [q|] eqn:Ej; [done|]. intros [= <-].
    pose proof (pool_keeps t c (forked j (world c)) k Hc Hk (ex_intro _ _ Et) Hwp) as [Hi Hp].
    split; [done|]. intros u r. cbn. destruct (decide (u = tid j)) as [->|Hu].
    + rewrite lookup_insert_eq. intros [= <-]. split; [done|]. by apply body_ok.
    + rewrite lookup_insert_ne by done. apply Hp.
Qed.

Lemma fork_free t c j k : pool_ok c → pool c !! t = Some (Fork j k) → pool c !! tid j = None.
Proof.
  intros Hc Et. destruct (pool c !! tid j) as [q|] eqn:Ej; [|done]. destruct (proj2 Hc _ _ Et) as [_ Hw].
  destruct (Hw (world c)) as (_ & Hnb & _); [reflexivity|apply Hc|]. contradiction Hnb. by apply (proj2 Hc _ q).
Qed.
End threads.
End Threads.
