(* ===== verification/AutoRun.v ===== *)
(** * AutoRun: one run of a script, and the agents it starts
    (crates/sheprd-automate/src/runner.rs, steps.rs, fingerprint.rs, settings.rs
    and sampler.rs)

    The threads of the daemon's process, in the programs of [Threads]: a run
    checks the plan, a stop, the time and the caps before each step, carries the
    step out and records it; the sampler watches the agents. Each SQL statement is
    an access of its own, and can fail. What a process, Herdr, a file or the clock
    answers is part of the [Input] of the access that asks. *)

From Stdlib Require Import ZArith NArith Lia.
From stdpp Require Import base option strings list gmap relations.
From S2P Require Import Prelude Schedule ScheduleNext Plan Tokens AutoStore Threads.

Local Open Scope Z_scope.

Module AutoRun.
Import AutoStore Threads.

(** ** What approval is pinned to *)

(** SHA-256. *)
Class Sha := { sha256 : list N → list N }.

(** [format!("{byte:02x}")]. *)
Definition hex_digit (n : N) : N := if (n <? 10)%N then (48 + n)%N else (87 + n)%N.
Definition hex (bytes : list N) : str := bytes ≫= λ b, [hex_digit (b / 16)%N; hex_digit (b mod 16)%N].

(** The strings of the table [scripts] of a worktree.toml that was read; blank ones
    count as missing. *)
Definition worktree_read (file : option (str → option str)) : WorktreeScripts :=
  match file with
  | None => MkWorktreeScripts None None
  | Some scripts =>
      let script name := s ← scripts name; if bool_decide (trim s = []) then None else Some s in
      MkWorktreeScripts (script (lit "setup")) (script (lit "run"))
  end.

Definition worktree_get (w : WorktreeScripts) (name : str) : option str :=
  if bool_decide (name = lit "setup") then setup w else if bool_decide (name = lit "run") then wt_run w else None.

Record Fingerprint := MkFingerprint { fp_hash : str; worktree : option WorktreeScripts }.
#[export] Instance Fingerprint_eq_dec : EqDecision Fingerprint.
Proof. solve_decision. Defined.

Definition tagged (script : option str) : list N :=
  match script with
  | Some s => 1%N :: be_bytes 8 (str_len s) ++ as_bytes s
  | None => [0%N]
  end.
Definition preimage (source_hash : str) (w : WorktreeScripts) : list N :=
  as_bytes source_hash ++ tagged (setup w) ++ tagged (wt_run w).

(** Whether a step, or what its failure leads to, is a [run]. *)
Fixpoint step_runs (s : Plan.PlannedStep) : bool :=
  match s with
  | Plan.MkPlannedStep c failure =>
      match Plan.step c with Plan.Run _ => true | _ => false end
      || match failure with Plan.Branch instead => existsb step_runs instead | _ => false end
  end.
Definition uses_run (plan : Plan.Plan) : bool :=
  existsb (λ t, existsb step_runs (Plan.steps t)) (Plan.plan_triggers plan).

(** [Fingerprint::of], with the worktree scripts it read. *)
Definition fingerprint `{Sha} (source : Plan.Source) (w : option WorktreeScripts) : Fingerprint :=
  match w with
  | None => MkFingerprint (Plan.source_hash source) None
  | Some w => MkFingerprint (hex (sha256 (preimage (Plan.source_hash source) w))) (Some w)
  end.

(** ** Settings *)

Record Settings := MkSettings { max_agents : N; max_tokens_per_day : N }.
Definition settings_default : Settings := MkSettings 3 10000000.

(** What reading config.toml gives; numbers past the width of their field are a
    parse error. *)
Inductive SettingsFile := NoSettings | BadSettings | SettingsValues (agents tokens : option N).

Definition settings_read (f : SettingsFile) : option Settings :=
  match f with
  | NoSettings => Some settings_default
  | BadSettings => None
  | SettingsValues a t =>
      let a := default (max_agents settings_default) a in
      let t := default (max_tokens_per_day settings_default) t in
      if (u32_max <? a)%N || (u64_max <? t)%N then None else Some (MkSettings a t)
  end.

(** ** The world *)

(** What a step hands to the system or to Herdr. *)
Inductive Launch :=
| LGitPull (repo : str)
| LScript (repo script : str)
| LShell (command : str) (env : list (str * str))
| LWorktree (repo name : str) (base : option str)
| LAgent (label harness pane : str)
| LPrompt (pane prompt : str) (wait : bool)
| LNotify (title text : str).
#[export] Instance Launch_eq_dec : EqDecision Launch.
Proof. solve_decision. Defined.

(** A firing the daemon starts: [Job]; its stop flag is [stops] at [run]. *)
Record Job := MkJob {
  run : Z; path : str; repo : option str; source : Plan.Source; job_worktree : option WorktreeScripts;
  trigger : nat; date : str; time : str }.

Record Ended := MkEnded { e_state : RunState; e_detail : option Detail }.

(** What a run did, in order: it took up a call, handed something over with a
    limit of time, and finished the call. *)
Inductive Did :=
| DExec (position : N) (call : Plan.Call) (values : Tokens.Values)
| DDo (what : Launch) (limit : N)
| DEnd (ok : bool).

Inductive Event :=
| EApprove (path hash : str)
| ETick
| EStart (job : Job)
| EDid (run : Z) (did : Did).

(** The daemon's process has its lock, stop flags, agent slots and channel of ended
    runs. [events], [held], [counted] and [alive] are kept for the proofs: what
    happened; whether a run's slot is counted as an agent too; the count made under
    the lock of the slots; the runs that go on, with their script. *)
Record World := MkWorld {
  store : Store;
  lock : bool;
  stops : gset Z;
  stop_sampler : bool;
  starting : N;
  slots_lock : option Z;
  done : list (str * Z * res str Ended);
  sampling : bool;
  events : list Event;
  held : gmap Z bool;
  counted : option N;
  alive : gmap Z str }.

Definition with_store (f : Store → Store) (w : World) : World :=
  MkWorld (f (store w)) (lock w) (stops w) (stop_sampler w) (starting w) (slots_lock w) (done w) (sampling w) (events w) (held w)
    (counted w) (alive w).
Definition with_event (e : Event) (w : World) : World :=
  MkWorld (store w) (lock w) (stops w) (stop_sampler w) (starting w) (slots_lock w) (done w) (sampling w) (events w ++ [e]) (held w)
    (counted w) (alive w).
Definition with_slots (n : N) (l : option Z) (h : gmap Z bool) (c : option N) (w : World) : World :=
  MkWorld (store w) (lock w) (stops w) (stop_sampler w) n l (done w) (sampling w) (events w) h c (alive w).
Definition with_done (d : list (str * Z * res str Ended)) (a : gmap Z str) (w : World) : World :=
  MkWorld (store w) (lock w) (stops w) (stop_sampler w) (starting w) (slots_lock w) d (sampling w) (events w) (held w) (counted w) a.

(** What [process::run] gives back; [None] when it could not run. *)
Record Finished := MkFinished { f_ok : bool; f_exit : option Z; f_log_tail : str; f_cpu_ms : option N; f_peak_memory : option N }.

(** What the sampler finds of an agent's pane. *)
Record Pane := MkPane {
  pane_quiet : bool; process_ok : bool; at_prompt : bool; pane_missing : bool; pane_tokens : option TokenCount;
  meter_cpu : option N; meter_peak : option N }.

(** What an access gets from outside. *)
Record Input := MkInput {
  fails : bool;
  clock : Z;
  midnight : Z;
  left_ : option N;
  listing : option str → list str;
  file : str → res str Plan.Source;
  toml : str → option (str → option str);
  config : SettingsFile;
  git : res str str;
  process : option Finished;
  herdr : option (str * str);
  log_file : option str;
  pane : AgentRow → Pane;
  flag : bool;
  in_personal : bool;
  in_repo : str → bool;
  pane_agent : bool;
  answer : str;
  process_id : N;
}.

(** The threads a thread of the daemon starts. *)
Inductive Start := SRun (job : Job) (settings : Settings) | SSampler (turns : nat).

Notation program := (prog World Input Start).

(** A SQL statement. *)
Definition sql {A} (f : Store → Store * A) : program (res str A) :=
  act (λ i w, if fails i then (w, Err (lit "state database"))
              else let '(s, a) := f (store w) in (with_store (const s) w, Ok a)).
Definition exec_sql (f : Store → Store) : program (res str unit) := sql (λ s, (f s, tt)).
Definition query {A} (f : Store → A) : program (res str A) := sql (λ s, (s, f s)).

Definition now : program Z := ask clock.

(** Something a run did, with what came of it. *)
Definition note {X} (r : Z) (d : Did) (f : Input → X) : program X := act (λ i w, (with_event (EDid r d) w, f i)).

(** The stop flag of a run. *)
Definition stop_asked (r : Z) : program bool := act (λ _ w, (w, bool_decide (r ∈ stops w))).

(** ** Steps *)

Record StepResult := MkStepResult {
  ok_ : bool; exit_ : option Z; log_tail : str; worktree_ : option str; pane_ : option str; run_id : option str;
  cpu_ms : option N; peak_memory : option N }.

Section steps.
Context (windows : bool) (job : Job).

(** What a step needs besides its call: [finished] hands a job to the system. *)
Definition finished (what : Launch) (limit : N) : program (res str StepResult) :=
  do f := note (run job) (DDo what limit) process in
  match f with
  | None => Ret (Err (lit "the command did not start"))
  | Some f => Ret (Ok (MkStepResult (f_ok f) (f_exit f) (f_log_tail f) None None None (f_cpu_ms f) (f_peak_memory f)))
  end.

Definition repo_of : res str str := ok_or (lit "a personal script has no repository") (repo job).

Definition pull (branch : str) (limit : N) : program (res str StepResult) :=
  match repo_of with
  | Err e => Ret (Err e)
  | Ok repo =>
      let? current := ask git in
      if negb (bool_decide (current = branch)) then Ret (Err (lit "the checkout is on another branch"))
      else
        let? status := ask git in
        if negb (bool_decide (status = [])) then Ret (Err (lit "the checkout has uncommitted changes"))
        else finished (LGitPull repo) limit
  end.

Definition worktree_script (name : str) (limit : N) : program (res str StepResult) :=
  match repo_of, job_worktree job ≫= λ w, worktree_get w name with
  | Err e, _ => Ret (Err e)
  | Ok _, None => Ret (Err (lit "no such script"))
  | Ok repo, Some script =>
      if windows then Ret (Err (lit "worktree scripts need a Unix shell")) else finished (LScript repo script) limit
  end.

Definition shell (command : str) (env : list (str * str)) (limit : N) : program (res str StepResult) :=
  if windows && negb (bool_decide (env = [])) then Ret (Err (lit "needs a Unix shell"))
  else finished (LShell command (env ++ [(lit "HERDR_AUTOMATION", Plan.source_name (source job));
                                         (lit "HERDR_AUTOMATION_RUN", int_text (run job))])) limit.

(** A call of Herdr; [None] is an error. *)
Definition ask_herdr (what : Launch) (limit : N) : program (res str (str * str)) :=
  do r := note (run job) (DDo what limit) herdr in Ret (ok_or (lit "herdr") r).
Definition ensure_server : program (res str unit) := do b := ask flag in Ret (if b then Ok tt else Err (lit "herdr")).

Definition worktree_step (name : str) (base : option str) (limit : N) : program (res str StepResult) :=
  match repo_of with
  | Err e => Ret (Err e)
  | Ok repo =>
      let? _ := ensure_server in
      let? created := ask_herdr (LWorktree repo name base) limit in
      Ret (Ok (MkStepResult true None (lit "created worktree " ++ created.1) (Some created.1) (Some created.2) None None None))
  end.

Definition notify (t : str) (limit : N) : program (res str StepResult) :=
  let? _ := ensure_server in
  let? _ := ask_herdr (LNotify (Plan.source_name (source job)) t) limit in
  Ret (Ok (MkStepResult true None (lit "notified: " ++ t) None None None None None)).

(** [Drop] of a reservation: the lock, the count, the lock. *)
Definition release : program unit :=
  Act (λ _ w, match slots_lock w with
              | Some _ => None
              | None => Some (with_slots (saturating_sub (starting w) 1) None (delete (run job) (held w)) None w, tt)
              end) Ret.

(** The row of a new agent; in the proofs' count its slot is now an agent. *)
Definition record_agent (a : AgentRow) : program (res str unit) :=
  act (λ i w, if fails i then (w, Err (lit "state database"))
              else (with_slots (starting w) (slots_lock w) (alter (const true) (run job) (held w)) (counted w)
                      (with_store (add_agent a) w), Ok tt)).

Definition automatic_branch (position : N) : str :=
  lit "automate/" ++ Plan.source_name (source job) ++ lit "-" ++ int_text (run job) ++ lit "-" ++ dec position.
Definition label : str := Plan.source_name (source job) ++ lit "-" ++ int_text (run job).

(** The agent step; the flag says whether the reservation is still held. *)
Definition agent (position : N) (harness prompt : str) (worktree base : option str) (wait : bool) (limit : N)
    : program (bool * res str StepResult) :=
  let failed e := Ret (true, Err e) in
  match repo_of with
  | Err e => failed e
  | Ok repo =>
      do up := ensure_server in
      match up with Err e => failed e | Ok _ =>
      do made := ask_herdr (LWorktree repo (default (automatic_branch position) worktree) base) limit in
      match made with Err e => failed e | Ok created =>
      do started := ask_herdr (LAgent label harness created.2) limit in
      match started with Err e => failed e | Ok _ =>
      do at_ := now in
      do added := record_agent (MkAgentRow (run job) position (path job) harness created.2 created.1 at_ None None None None None) in
      match added with Err e => failed e | Ok _ =>
      do _ := release in
      do sent := ask_herdr (LPrompt created.2 prompt wait) limit in
      match sent with Err e => Ret (false, Err e) | Ok _ =>
      Ret (false, Ok (MkStepResult true None (lit "started " ++ harness) (Some created.1) (Some created.2) (Some created.2) None None))
      end end end end end
  end.

(** [steps::execute]: an error is a failed step with its reason as the log. *)
Definition execute_step (reserved : bool) (r : Tokens.Resolved) (position limit : N) : program (bool * StepResult) :=
  let plain (m : program (res str StepResult)) := do x := m in Ret (reserved, x) in
  do result :=
    match Plan.step (Tokens.resolved_call r) with
    | Plan.Pull branch => plain (pull branch limit)
    | Plan.Run name => plain (worktree_script name limit)
    | Plan.Sh command => plain (shell command (Tokens.env r) limit)
    | Plan.Worktree name base => plain (worktree_step name base limit)
    | Plan.Agent harness prompt worktree base wait => agent position harness prompt worktree base wait limit
    | Plan.Notify t => plain (notify t limit)
    end in
  let '(reserved, result) := result in
  match result with
  | Ok s =>
      if bool_decide (log_tail s = []) then
        do tail := ask log_file in
        Ret (reserved, MkStepResult (ok_ s) (exit_ s) (default [] tail) (worktree_ s) (pane_ s) (run_id s) (cpu_ms s) (peak_memory s))
      else Ret (reserved, s)
  | Err e => do tail := ask log_file in Ret (reserved, MkStepResult false None (default e tail) None None None None None)
  end.
End steps.

(** ** Caps *)

Section caps.
Context (settings : Settings) (job : Job).

(** Tokens used today; a read that fails counts none. *)
Definition used (p : option str) (today : Z) : program N :=
  do t := query (tokens_on p today) in
  Ret (match t with Ok (Some t) => total t | _ => 0%N end).

Definition lock_slots : program unit :=
  Act (λ _ w, match slots_lock w with
              | Some _ => None
              | None => Some (with_slots (starting w) (Some (run job)) (held w) None w, tt)
              end) Ret.

(** The agents counted under the lock; a read that fails counts as too many. *)
Definition count_agents : program N :=
  act (λ i w, if fails i then (w, u64_max)
              else let n := lenN (live_agents (store w)) in
                   (with_slots (starting w) (slots_lock w) (held w) (Some n) w, n)).

(** The comparison, the reservation and the end of the lock. *)
Definition take_slot (n : N) : program (res Halt unit) :=
  act (λ _ w,
    if (max_agents settings <=? saturating_add u64_max n (starting w))%N
    then (with_slots (starting w) None (held w) None w, Err HHostAgents)
    else (with_slots (starting w + 1) None (<[run job := false]> (held w)) None w, Ok tt)).

Definition agent_cap (plan : Plan.Plan) (started : N) : program (res Halt unit) :=
  if (Plan.agents_per_run (Plan.plan_caps plan) <=? started)%N then Ret (Err HAgentsPerRun)
  else
    do today := ask midnight in
    do mine := used (Some (path job)) today in
    if (Plan.tokens_per_day (Plan.plan_caps plan) <=? mine)%N then Ret (Err HScriptTokens)
    else
      do all := used None today in
      if (max_tokens_per_day settings <=? all)%N then Ret (Err HHostTokens)
      else
        do _ := lock_slots in
        do n := count_agents in
        take_slot n.
End caps.

(** ** A run *)

(** [Script::run] with a callback that is a program. *)
Fixpoint run_calls {S H} (remaining : nat) (handler : Plan.Handler) (exec : S → Plan.Call → program (S * Plan.Verdict H)) (s : S)
    (outcomes : list bool) : program (S * res Plan.Error (Plan.End H)) :=
  match handler outcomes with
  | Plan.Returns => Ret (s, Ok Plan.Completed)
  | Plan.Raises => Ret (s, Err Plan.Lua)
  | Plan.Calls call =>
      match remaining with
      | O => Ret (s, Err Plan.Lua)
      | Datatypes.S remaining =>
          do sv := exec s call in
          let '(s, verdict) := sv in
          match verdict with
          | Plan.Halt halt => Ret (s, Ok (Plan.Halted (length outcomes) halt))
          | Plan.Failed =>
              if Plan.check call then Ret (s, Ok (Plan.Stopped (length outcomes)))
              else run_calls remaining handler exec s (outcomes ++ [false])
          | Plan.Succeeded => run_calls remaining handler exec s (outcomes ++ [true])
          end
      end
  end.

(** [Limits::default().steps]. *)
Definition STEPS : nat := 32.

(** What the callback keeps between calls. *)
Record RunSt := MkRunSt {
  walker : Plan.Walker; log_tails : list (option str); run_ids : list (option str); agents_started : N; failure : option Detail }.

Section run.
Context (windows : bool) (settings : Settings) (job : Job) (plan : Plan.Plan).

Definition position_of (st : RunSt) : N := N.min u32_max (lenN (log_tails st) + 1).

(** [start_step]: two statements. *)
Definition start_step (position : N) (call : Plan.Call) : program (res str unit) :=
  do at_ := now in
  let? _ := exec_sql (insert_step (run job) position call at_) in
  exec_sql (count_step (run job) position).

(** The callback from the call that was let through. *)
Definition carry_out (st : RunSt) (agents : N) (reserved : bool) (call : Plan.Call) (remaining : N) : program (RunSt * Plan.Verdict Halt) :=
  let position := position_of st in
  let values := Tokens.MkValues (date job) (time job) (log_tails st) (run_ids st) in
  let resolved := Tokens.resolve call values in
  do _ := start_step position (Tokens.resolved_call resolved) in
  let limit := match Plan.timeout call with Some t => N.min t remaining | None => remaining end in
  do _ := note (run job) (DExec position call values) (const tt) in
  do done_ := execute_step windows job reserved resolved position limit in
  let '(reserved, result) := done_ in
  do _ := if reserved then release job else Ret tt in
  do at_ := now in
  let row := MkStepRow (Tokens.resolved_call resolved) 0 None (if ok_ result then StepSucceeded else StepFailed) (exit_ result)
               (log_tail result) (worktree_ result) (pane_ result) (cpu_ms result) (peak_memory result) in
  do _ := exec_sql (finish_step (run job) position row at_) in
  do _ := note (run job) (DEnd (ok_ result)) (const tt) in
  let st := MkRunSt (Plan.record (walker st) (ok_ result)) (log_tails st ++ [Some (log_tail result)]) (run_ids st ++ [run_id result])
              agents (if negb (ok_ result) && Plan.check call then Some (StepFailedDetail position call) else failure st) in
  do stop := stop_asked (run job) in
  Ret (st, if stop then Plan.Halt HStopped else if ok_ result then Plan.Succeeded else Plan.Failed).

Definition on_call (st : RunSt) (call : Plan.Call) : program (RunSt * Plan.Verdict Halt) :=
  do stop := stop_asked (run job) in
  if stop then Ret (st, Plan.Halt HStopped)
  else
    do rest := ask left_ in
    match rest with
    | None => Ret (st, Plan.Halt HWallTime)
    | Some remaining =>
        if negb (Plan.expects (walker st) call) then Ret (st, Plan.Halt HOffPlan)
        else
          match Plan.step call with
          | Plan.Agent _ _ _ _ _ =>
              do cap := agent_cap settings job plan (agents_started st) in
              match cap with
              | Err halt => Ret (st, Plan.Halt halt)
              | Ok _ => carry_out st (agents_started st + 1) true call remaining
              end
          | _ => carry_out st (agents_started st) false call remaining
          end
    end.
End run.

Definition plan_error_text (e : Plan.Error) : str :=
  match e with
  | Plan.TooManyPaths limit => lit "a trigger has more than " ++ dec (N.of_nat limit) ++ lit " paths; call fewer steps with check = false"
  | Plan.UnknownTrigger index => lit "the script has no trigger number " ++ dec (N.of_nat index)
  | Plan.Lua => lit "Lua"
  | Plan.LoadFailed => lit "load"
  end.

(** [execute]. *)
Definition execute (windows : bool) (settings : Settings) (job : Job) : program (res str Ended) :=
  let? _ := exec_sql id in
  match Plan.build (source job) STEPS with
  | Err e => Ret (Err (plan_error_text e))
  | Ok plan =>
      match Plan.plan_triggers plan !! trigger job with
      | None => Ret (Ok (MkEnded Failed (Some (NoTrigger (trigger job + 1)))))
      | Some t =>
          match Plan.load (source job) with
          | Err e => Ret (Err (plan_error_text e))
          | Ok script =>
              match Plan.script_triggers script !! trigger job with
              | None => Ret (Ok (MkEnded Failed (Some (ErrorText (plan_error_text (Plan.UnknownTrigger (trigger job)))))))
              | Some tr =>
                  do out := run_calls STEPS (Plan.handler tr) (on_call windows settings job plan)
                              (MkRunSt (Plan.walker_new t) [] [] 0 None) [] in
                  let '(st, end_) := out in
                  match end_ with
                  | Ok Plan.Completed => Ret (Ok (MkEnded Completed None))
                  | Ok (Plan.Stopped _) => Ret (Ok (MkEnded Stopped (failure st)))
                  | Ok (Plan.Halted step halt) =>
                      do _ := if decide (halt = HScriptTokens)
                              then do _ := exec_sql (set_switch (path job) (MkSwitch true false (Some TokenBudget))) in Ret tt
                              else Ret tt in
                      Ret (Ok (MkEnded Halted (Some (HaltedBefore (step + 1) halt))))
                  | Err e => Ret (Ok (MkEnded Failed (Some (ErrorText (plan_error_text e)))))
                  end
              end
          end
      end
  end.

(** The thread of a run: it ends with a message to the daemon. *)
Definition send_done (job : Job) (ended : res str Ended) : program unit :=
  act (λ _ w, (with_done (done w ++ [(path job, run job, ended)]) (delete (run job) (alive w)) w, tt)).
Definition run_thread (windows : bool) (settings : Settings) (job : Job) : program unit :=
  do ended := execute windows settings job in send_done job ended.

(** A thread past the turns that are looked at: it does nothing more. *)
Definition beyond {A} : program A := Act (X := Empty_set) (λ _ _, None) (λ x, match x with end).

(** ** The sampler *)

Definition IDLE_DONE : Z := 600.
Definition AT_MOST : Z := 86400.

Fixpoint sample_all (at_ day : Z) (idle : gmap (Z * N) Z) (l : list AgentRow) : program (gmap (Z * N) Z * res str unit) :=
  match l with
  | [] => Ret (idle, Ok tt)
  | a :: l =>
      let key := (a_run a, a_position a) in
      do p := ask (λ i, pane i a) in
      let gone := if process_ok p then at_prompt p else pane_missing p in
      let tokens := match pane_tokens p with Some t => Some t | None => a_tokens a end in
      let cpu := match meter_cpu p with Some c => Some c | None => a_cpu_ms a end in
      let peak := match meter_peak p, a_peak_memory a with Some x, Some y => Some (N.max x y) | Some x, None => Some x | None, y => y end in
      let idle := if pane_quiet p then match idle !! key with Some _ => idle | None => <[key := at_]> idle end else delete key idle in
      let idle_long := match idle !! key with Some since => IDLE_DONE <=? at_ - since | None => false end in
      let over := gone || idle_long || (AT_MOST <=? at_ - a_started_at a) in
      let idle := if over then delete key idle else idle in
      let a := MkAgentRow (a_run a) (a_position a) (a_path a) (a_harness a) (a_pane a) (a_cwd a) (a_started_at a)
                 (if over then Some at_ else a_done_at a) tokens cpu peak (Some at_) in
      do first := exec_sql (open_day (a_run a) (a_position a) day) in
      match first with
      | Err e => Ret (idle, Err e)
      | Ok _ =>
          do second := exec_sql (update_agent a) in
          match second with
          | Err e => Ret (idle, Err e)
          | Ok _ => sample_all at_ day idle l
          end
      end
  end.

Fixpoint sampler (turns : nat) (idle : gmap (Z * N) Z) : program unit :=
  match turns with
  | O => beyond
  | S turns =>
      do at_ := now in
      do day := ask midnight in
      do l := query live_agents in
      do idle := match l with
                 | Err _ => Ret idle
                 | Ok l => do r := sample_all at_ day idle l in Ret r.1
                 end in
      do stop := act (λ _ w, (w, stop_sampler w)) in
      if stop then Ret tt else sampler turns idle
  end.

(** ** The callback as a function *)

(** With steps that are functions, this is [Script::run] as [Plan] has it. *)
Lemma run_calls_pure {S H} n handler (f : S → Plan.Call → S * Plan.Verdict H) s outcomes :
  run_calls n handler (λ s c, Ret (f s c)) s outcomes = Ret (Plan.run_from n handler f s outcomes).
Proof.
  revert s outcomes. induction n as [|n IH]; intros s outcomes; cbn; destruct (handler outcomes) as [call| |]; try done.
  destruct (f s call) as [s' v]. destruct v; [apply IH| |done]. destruct (Plan.check call); [done|apply IH].
Qed.

(** ** The encoding that is hashed *)

Lemma tagged_inj s s' l l' :
  (∀ x, s = Some x ∨ s' = Some x → (str_len x < 256 ^ 8)%N) → tagged s ++ l = tagged s' ++ l' →
  as_bytes <$> s = as_bytes <$> s' ∧ l = l'.
Proof.
  intros Hb. destruct s as [x|], s' as [y|]; unfold tagged; try done; [|by intros [= ->]].
  rewrite <-!app_comm_cons. intros E. apply (f_equal tail) in E. cbn [tail] in E. rewrite <-!app_assoc in E. apply app_inj_1 in E as [El E]; [|by rewrite !length_be_bytes].
  apply (f_equal be_val) in El. rewrite !be_val_bytes in El by (apply Hb; auto).
  apply app_inj_1 in E as [Ex El']; [|unfold str_len, lenN in El; lia]. cbn. by rewrite Ex.
Qed.

(** What is hashed determines the script's own hash and both worktree scripts:
    no two contents share an encoding. *)
Theorem preimage_binds (h h' : str) (w w' : WorktreeScripts) :
  length (as_bytes h) = length (as_bytes h') →
  (∀ x, Some x ∈ [setup w; wt_run w; setup w'; wt_run w'] → (str_len x < 256 ^ 8)%N) →
  preimage h w = preimage h' w' →
  as_bytes h = as_bytes h' ∧ as_bytes <$> setup w = as_bytes <$> setup w' ∧ as_bytes <$> wt_run w = as_bytes <$> wt_run w'.
Proof.
  intros Hh Hb E. unfold preimage in E. apply app_inj_1 in E as [Eh E]; [|done]. split; [done|].
  apply tagged_inj in E as [Es E]; [|intros x Hx; apply Hb; set_solver]. split; [done|].
  rewrite <-(app_nil_r (tagged (wt_run w))), <-(app_nil_r (tagged (wt_run w'))) in E.
  apply tagged_inj in E as [Er _]; [done|]. intros x Hx; apply Hb; set_solver.
Qed.

Lemma preimage_binds_witness :
  as_bytes <$> Some (lit "make") = as_bytes <$> Some (lit "make")
  ∧ preimage (lit "ab") (MkWorktreeScripts (Some (lit "make")) None) = preimage (lit "ab") (MkWorktreeScripts (Some (lit "make")) None).
Proof.
  split; [|reflexivity].
  refine (proj1 (proj2 (preimage_binds (lit "ab") (lit "ab") (MkWorktreeScripts (Some (lit "make")) None)
    (MkWorktreeScripts (Some (lit "make")) None) eq_refl _ eq_refl))).
  intros x Hx. repeat (apply elem_of_cons in Hx as [Hx|Hx]; [try discriminate; injection Hx as ->; vm_compute; reflexivity|]).
  by apply not_elem_of_nil in Hx.
Defined.
End AutoRun.
