(* ===== verification/AutoDaemon.v ===== *)
(** * AutoDaemon: the scheduler, the commands and how they interleave
    (crates/sheprd-automate/src/daemon.rs, scan.rs, approve.rs and the commands of
    cli/run.rs that change the state)

    The daemon's main thread is a program over the maps it holds; commands of
    other processes are programs of their own. [step] interleaves the accesses of
    all threads, and lets the daemon start, stop and crash at any moment. *)

From Stdlib Require Import ZArith NArith Lia.
From stdpp Require Import base option strings list gmap relations.
From S2P Require Import Prelude Schedule ScheduleNext Plan Tokens AutoStore Threads AutoRun.

Local Open Scope Z_scope.

Module AutoDaemon.
Import AutoStore Threads AutoRun.

Definition SCAN_EVERY : Z := 30.
Definition FAILURES_TO_PAUSE : N := 3.
Definition MAX_SCRIPTS : nat := 200.

(** A script as the daemon holds it between scans. *)
Record Loaded := MkLoaded { l_source : Plan.Source; l_plan : Plan.Plan; l_fingerprint : Fingerprint; l_repo : option str }.

(** What the scheduler holds: the settings, the scripts, and the runs going on by
    script. Its database, slots and channel are the world's. *)
Record Daemon := MkDaemon { settings : Settings; loaded : gmap str Loaded; live_runs : gmap str Z }.

(** What the program is built for, time zones, and dates as text. *)
Class Host := {
  windows : bool;
  calendar : Plan.Zone → ScheduleNext.Zone;
  strftime : Plan.Zone → Z → str * str;
}.

Section daemon.
Context `{Sha} `{Host} `{!IterOrder str Loaded}.

(** ** Scanning *)

(** [Fingerprint::of]: the worktree scripts are read when the plan runs them. *)
Definition fingerprint_of (source : Plan.Source) (plan : Plan.Plan) (repo : option str) : program Fingerprint :=
  match repo with
  | Some repo => if uses_run plan then do t := ask (λ i, toml i repo) in Ret (fingerprint source (Some (worktree_read t)))
                 else Ret (fingerprint source None)
  | None => Ret (fingerprint source None)
  end.

(** [scan::triggers]. *)
Definition triggers (plan : Plan.Plan) : list TriggerStatus :=
  imap (λ i t, MkTriggerStatus i (Plan.plan_name t) (Plan.plan_schedule t)
                 (match Plan.plan_schedule t with ScheduleNext.At _ _ | ScheduleNext.CronKind _ => Some (Plan.plan_zone t) | _ => None end)
                 None) (Plan.plan_triggers plan).

(** [scan::row]. *)
Definition row (source : Plan.Source) (plan : res Plan.Error Plan.Plan) (fp : option Fingerprint) (path : str) (repo : option str)
    (at_ : Z) : ScriptRow :=
  let hash := match fp with Some f => fp_hash f | None => Plan.source_hash source end in
  match plan with
  | Ok plan => MkScriptRow path (Plan.source_name source) repo hash None (Some (plan, fp ≫= worktree)) (triggers plan)
                 (Some (Plan.plan_caps plan)) at_
  | Err e => MkScriptRow path (Plan.source_name source) repo hash (Some (plan_error_text e)) None [] None at_
  end.

Fixpoint repo_scripts (rs : list str) : program (list (str * option str)) :=
  match rs with
  | [] => Ret []
  | r :: rs => do l := ask (λ i, listing i (Some r)) in do rest := repo_scripts rs in Ret (((λ p, (p, Some r)) <$> l) ++ rest)
  end.

(** [scan::find]. *)
Definition find : program (res str (list (str * option str))) :=
  do mine := ask (λ i, listing i None) in
  let? rs := query all_repos in
  do theirs := repo_scripts rs in
  Ret (Ok (take MAX_SCRIPTS (((λ p, (p, None)) <$> mine) ++ theirs))).

(** [Path::file_stem] of a script's path, as the name of one that does not load. *)
Definition file_stem (p : str) : str :=
  let name := default [] (last (split_on (λ c, (c =? 47)%N) p)) in
  match split_on (λ c, (c =? 46)%N) name with
  | [_] | [[]; _] | [] => name
  | pieces => join [46%N] (removelast pieces)
  end.

(** A script that is new or whose text changed is planned. *)
Definition load_new (at_ : Z) (old kept : gmap str Loaded) (p : str) (repo : option str) (source : Plan.Source)
    : program (res str (gmap str Loaded * gmap str Loaded)) :=
  let plan := Plan.build source STEPS in
  do fp := match plan with
           | Ok plan => do f := fingerprint_of source plan repo in Ret (Some f)
           | Err _ => Ret None
           end in
  let? _ := exec_sql (put_script (row source plan fp p repo at_)) in
  Ret (Ok (old, match plan, fp with Ok plan, Some f => <[p := MkLoaded source plan f repo]> kept | _, _ => kept end)).

(** One turn of the loop of [refresh]. *)
Definition refresh_one (at_ : Z) (old kept : gmap str Loaded) (p : str) (repo : option str)
    : program (res str (gmap str Loaded * gmap str Loaded)) :=
  do r := ask (λ i, file i p) in
  match r with
  | Err e =>
      let? _ := exec_sql (put_script (MkScriptRow p (file_stem p) repo [] (Some e) None [] None at_)) in
      Ret (Ok (old, kept))
  | Ok source =>
      match old !! p with
      | None => load_new at_ old kept p repo source
      | Some known =>
          let old := delete p old in
          if bool_decide (Plan.source_hash (l_source known) = Plan.source_hash source) then
            do f := fingerprint_of source (l_plan known) repo in
            let? new := if bool_decide (f = l_fingerprint known)
                        then let? found := query (script p) in
                             let r := default script_row_default found in
                             Ret (Ok (MkScriptRow (s_path r) (s_name r) repo (s_hash r) (s_error r) (s_plan r) (s_triggers r) (s_caps r) at_))
                        else Ret (Ok (row source (Ok (l_plan known)) (Some f) p repo at_)) in
            let? _ := exec_sql (put_script new) in
            Ret (Ok (old, <[p := MkLoaded (l_source known) (l_plan known) f repo]> kept))
          else load_new at_ old kept p repo source
      end
  end.

Fixpoint refresh_all (at_ : Z) (old kept : gmap str Loaded) (l : list (str * option str)) : program (res str (gmap str Loaded)) :=
  match l with
  | [] => Ret (Ok kept)
  | (p, repo) :: l => let? ok := refresh_one at_ old kept p repo in refresh_all at_ ok.1 ok.2 l
  end.

(** [refresh]; after an error only the runs going on are looked at again. *)
Definition refresh (at_ : Z) (d : Daemon) : program (res str Daemon) :=
  let? l := find in
  let? kept := refresh_all at_ (loaded d) ∅ l in
  let? _ := exec_sql (forget_scripts_before at_) in
  Ret (Ok (MkDaemon (settings d) kept (live_runs d))).

(** ** Starting runs *)

(** [store.start_run] of the firing. *)
Definition start (d : Daemon) (p : str) (index : nat) (reason : Reason) (scheduled : option Z) : program Daemon :=
  match loaded d !! p with
  | None => Ret d
  | Some script =>
      match live_runs d !! p with
      | Some _ => Ret d
      | None =>
          do fp := fingerprint_of (l_source script) (l_plan script) (l_repo script) in
          do approved := query (approved_hash p) in
          if negb (bool_decide (ok approved = Some (Some (fp_hash fp)))) then Ret d
          else
            match Plan.plan_triggers (l_plan script) !! index with
            | None => Ret d
            | Some t =>
                do at_ := now in
                let local := strftime (Plan.plan_zone t) (default at_ scheduled) in
                do started := now in
                do r := sql (start_run (MkNewRun p (Plan.source_name (l_source script)) index (Plan.plan_name t) reason scheduled
                                          (fp_hash fp) started)) in
                match r with
                | Ok (Some r) =>
                    do _ := fork (SRun (MkJob r p (l_repo script) (l_source script) (worktree fp) index local.1 local.2) (settings d)) in
                    Ret (MkDaemon (settings d) (loaded d) (<[p := r]> (live_runs d)))
                | _ => Ret d
                end
            end
      end
  end.

(** [Timestamp::from_second], or the epoch. *)
Definition at_second (z : Plan.Zone) (second : Z) : Z :=
  if @ScheduleNext.in_range (calendar z) (second * ScheduleNext.NANOS) then second * ScheduleNext.NANOS else 0.

(** Whether a trigger is due, from its cursor. *)
Definition due_now (t : Plan.TriggerPlan) (checked : Z) (fired : option Z) (at_ : Z) : option ScheduleNext.Due :=
  let z := Plan.plan_zone t in
  @ScheduleNext.due (calendar z) (Plan.plan_schedule t) (at_second z checked) (at_second z <$> fired) (at_second z at_).
Definition next_firing (t : Plan.TriggerPlan) (fired : option Z) (at_ : Z) : option Z :=
  let z := Plan.plan_zone t in
  ScheduleNext.as_second <$> @ScheduleNext.next_after (calendar z) (Plan.plan_schedule t) (at_second z at_) (at_second z <$> fired).

(** The loop over the triggers of [schedule], from [index] on. *)
Fixpoint check_triggers (p : str) (active : bool) (at_ : Z) (index : nat) (ts : list Plan.TriggerPlan) (statuses : list TriggerStatus)
    (dues : list (nat * Reason * Z)) : program (res str (list TriggerStatus * list (nat * Reason * Z))) :=
  match ts with
  | [] => Ret (Ok (statuses, dues))
  | t :: ts =>
      match Plan.plan_schedule t with
      | ScheduleNext.Manual => check_triggers p active at_ (S index) ts statuses dues
      | _ =>
          let? c := query (cursor p index) in
          match (if active then c else None) with
          | None =>
              let? _ := exec_sql (set_cursor p index at_ (Some at_)) in
              check_triggers p active at_ (S index) ts statuses dues
          | Some (checked, fired) =>
              let found := due_now t checked fired at_ in
              let fired_now := (λ d, ScheduleNext.as_second (ScheduleNext.scheduled d)) <$> found in
              let? _ := exec_sql (set_cursor p index at_ fired_now) in
              let dues := match found with
                          | Some d => dues ++ [(index, if ScheduleNext.late d then Late else Scheduled, ScheduleNext.as_second (ScheduleNext.scheduled d))]
                          | None => dues
                          end in
              let fired := match fired_now with Some f => Some f | None => fired end in
              let statuses := alter (λ s, MkTriggerStatus (t_index s) (t_name s) (t_schedule s) (t_zone s) (next_firing t fired at_)) index statuses in
              check_triggers p active at_ (S index) ts statuses dues
          end
      end
  end.

Fixpoint start_all (d : Daemon) (p : str) (dues : list (nat * Reason * Z)) : program Daemon :=
  match dues with
  | [] => Ret d
  | (index, reason, scheduled) :: dues => do d := start d p index reason (Some scheduled) in start_all d p dues
  end.

Definition schedule (d : Daemon) (p : str) (all_paused : bool) (at_ : Z) : program (res str Daemon) :=
  match loaded d !! p with
  | None => Ret (Ok d)
  | Some script =>
      let? sw := query (switch p) in
      let? approved := query (approved_hash p) in
      let active := bool_decide (approved = Some (fp_hash (l_fingerprint script)))
                    && negb (paused sw) && negb (disabled sw) && negb all_paused in
      let? checked := check_triggers p active at_ 0 (Plan.plan_triggers (l_plan script)) (triggers (l_plan script)) [] in
      let? _ := exec_sql (set_triggers p checked.1) in
      do d := start_all d p checked.2 in Ret (Ok d)
  end.

(** ** Requests, endings and the loop *)

Definition is_manual (t : Plan.TriggerPlan) : bool := match Plan.plan_schedule t with ScheduleNext.Manual => true | _ => false end.

(** The trigger a manual run starts. *)
Definition manual_trigger (plan : Plan.Plan) (wanted : option str) : option nat :=
  let ts := Plan.plan_triggers plan in
  match wanted with
  | Some wanted =>
      match list_find (λ t, Plan.plan_name t = Some wanted) ts with
      | Some (i, _) => Some i
      | None => n ← parse_uint u64_max wanted;
                if (n =? 0)%N then None
                else if (n - 1 <? lenN ts)%N then Some (N.to_nat (n - 1)) else None
      end
  | None =>
      match list_find (λ t, is_manual t = true) ts with
      | Some (i, _) => Some i
      | None => match ts with [] => None | _ => Some 0%nat end
      end
  end.

Definition ask_stop (r : Z) : program unit :=
  act (λ _ w, (MkWorld (store w) (lock w) ({[r]} ∪ stops w) (stop_sampler w) (starting w) (slots_lock w) (done w) (sampling w)
                 (events w) (held w) (counted w) (alive w), tt)).

(** The requests in turn; the flag says whether one was a shutdown. *)
Fixpoint handle_all (d : Daemon) (l : list Request) : program (Daemon * bool) :=
  match l with
  | [] => Ret (d, false)
  | q :: l =>
      match kind q with
      | RunNow p wanted =>
          match loaded d !! p ≫= λ s, manual_trigger (l_plan s) wanted with
          | Some index => do d := start d p index ByHand None in handle_all d l
          | None => handle_all d l
          end
      | StopRun r => if existsb (λ kv, kv.2 =? r) (map_to_list (live_runs d))
                     then do _ := ask_stop r in handle_all d l else handle_all d l
      | Shutdown => Ret (d, true)
      end
  end.

Definition is_run_now (q : Request) : bool := match kind q with RunNow _ _ => true | _ => false end.

Definition handle_requests (d : Daemon) (at_ : Z) : program (res str (Daemon * bool)) :=
  let? l := sql (claim_requests at_) in
  let? _ := exec_sql (forget_requests at_) in
  let? d := if existsb is_run_now l then refresh at_ d else Ret (Ok d) in
  do r := handle_all d l in Ret (Ok r).

(** [finish]. *)
Definition finish (p : str) (r : Z) (ended : res str Ended) : program (res str unit) :=
  let e := match ended with Ok e => e | Err text => MkEnded Failed (Some (ErrorText text)) end in
  do at_ := now in
  let? _ := exec_sql (finish_run r (e_state e) (e_detail e) at_) in
  let? failed := query (failures_in_a_row p) in
  if (failed <? FAILURES_TO_PAUSE)%N then Ret (Ok tt)
  else
    let? sw := query (switch p) in
    if paused sw then Ret (Ok tt) else exec_sql (set_switch p (MkSwitch true (disabled sw) (Some AfterFailures))).

(** [try_recv]. *)
Definition receive : program (option (str * Z * res str Ended)) :=
  act (λ _ w, match done w with
              | [] => (w, None)
              | m :: rest => (with_done rest (alive w) w, Some m)
              end).

(** [while let Ok(..) = finished.try_recv()]: every message takes a live run. *)
Fixpoint drain (fuel : nat) (d : Daemon) : program (Daemon * res str unit) :=
  match fuel with
  | O => Ret (d, Ok tt)
  | S fuel =>
      do m := receive in
      match m with
      | None => Ret (d, Ok tt)
      | Some (p, r, ended) =>
          let d := MkDaemon (settings d) (loaded d) (delete p (live_runs d)) in
          do e := finish p r ended in
          match e with Err e => Ret (d, Err e) | Ok _ => drain fuel d end
      end
  end.
Definition drain_all (d : Daemon) : program (Daemon * res str unit) := drain (S (size (live_runs d))) d.

Fixpoint schedule_all (d : Daemon) (ps : list str) (all_paused : bool) (at_ : Z) : program (Daemon * res str unit) :=
  match ps with
  | [] => Ret (d, Ok tt)
  | p :: ps =>
      do r := schedule d p all_paused at_ in
      match r with Err e => Ret (d, Err e) | Ok d => schedule_all d ps all_paused at_ end
  end.

(** The heartbeat opens a turn. *)
Definition tick (started at_ : Z) : program (res str unit) :=
  act (λ i w, if fails i then (w, Err (lit "state database")) else (with_event ETick (with_store (beat (process_id i) started at_) w), Ok tt)).

Definition reread (d : Daemon) : program Daemon :=
  do f := ask config in
  Ret (match settings_read f with Some s => MkDaemon s (loaded d) (live_runs d) | None => d end).

(** [Daemon::serve]. *)
Fixpoint serve_loop (turns : nat) (started next_scan : Z) (d : Daemon) : program (Daemon * res str unit) :=
  match turns with
  | O => beyond
  | S turns =>
      do at_ := now in
      do b := tick started at_ in
      match b with Err e => Ret (d, Err e) | Ok _ =>
      do scanned := if next_scan <=? at_ then do d := reread d in refresh at_ d else Ret (Ok d) in
      match scanned with Err e => Ret (d, Err e) | Ok d =>
      let next_scan := if next_scan <=? at_ then at_ + SCAN_EVERY else next_scan in
      do handled := handle_requests d at_ in
      match handled with Err e => Ret (d, Err e) | Ok (d, true) => Ret (d, Ok tt) | Ok (d, false) =>
      do all := query is_paused_all in
      match all with Err e => Ret (d, Err e) | Ok all =>
      do r := schedule_all d (iter (loaded d)).*1 all at_ in
      match r with (d, Err e) => Ret (d, Err e) | (d, Ok _) =>
      do r := drain_all d in
      match r with (d, Err e) => Ret (d, Err e) | (d, Ok _) => serve_loop turns started next_scan d
      end end end end end end
  end.

(** [shut_down]: [flag] says whether the time to wait is over. *)
Fixpoint wait_runs (turns : nat) (d : Daemon) : program (res str unit) :=
  match turns with
  | O => beyond
  | S turns =>
      if bool_decide (live_runs d = ∅) then Ret (Ok tt)
      else
        do over := ask flag in
        if over then Ret (Ok tt)
        else do r := drain_all d in match r with (_, Err e) => Ret (Err e) | (d, Ok _) => wait_runs turns d end
  end.
Fixpoint stop_all (rs : list Z) : program unit :=
  match rs with [] => Ret tt | r :: rs => do _ := ask_stop r in stop_all rs end.
Definition shut_down (turns : nat) (d : Daemon) : program (res str unit) :=
  do _ := stop_all (map_to_list (live_runs d)).*2 in wait_runs turns d.

(** [serve], from the lock on. *)
Definition serve (turns : nat) : program unit :=
  do _ := let? _ := exec_sql id in
          do started := now in
          let? _ := exec_sql (interrupt_steps started) in
          let? _ := sql (interrupt_runs started) in
          do f := ask config in
          match settings_read f with
          | None => Ret (Err (lit "settings"))
          | Some settings =>
              do _ := fork (SSampler turns) in
              do r := serve_loop turns started 0 (MkDaemon settings ∅ ∅) in
              let? _ := shut_down turns r.1 in
              do _ := act (λ _ w, (MkWorld (store w) (lock w) (stops w) true (starting w) (slots_lock w) (done w) (sampling w)
                                    (events w) (held w) (counted w) (alive w), tt)) in
              let? _ := exec_sql clear_beat in
              Ret r.2
          end in
  Ret tt.

(** ** Commands of other processes *)

Inductive Mode := Terminal | ShownHash (hash : str).

Inductive Command :=
| Approve (file : str) (mode : Mode) (pane : bool)
| RunNowCommand (path : str) (trigger : option str)
| Pause (path : str) | Resume (path : str) | PauseAll | ResumeAll
| Disable (path : str) | Enable (path : str)
| Stop (run : Z)
| RepoAdd (path : str) | RepoRemove (path : str)
| ShutdownCommand.

(** The approval itself. *)
Definition record_approval (p hash by_ : str) (at_ : Z) : program (res str unit) :=
  act (λ i w, if fails i then (w, Err (lit "state database"))
              else (with_event (EApprove p hash) (with_store (AutoStore.approve p hash by_ at_) w), Ok tt)).

(** [scan::locate]. *)
Definition locate : program (res str (option str)) :=
  do mine := ask in_personal in
  if mine then Ret (Ok None)
  else
    let? rs := query all_repos in
    do test := ask in_repo in
    Ret (match list_find (λ r, test r = true) rs with
         | Some (_, r) => Ok (Some r)
         | None => Err (lit "not in an automations folder")
         end).

(** [approve::approve]. *)
Definition approve (p : str) (mode : Mode) (pane : bool) : program (res str unit) :=
  let? repo := locate in
  let? source := ask (λ i, file i p) in
  let? plan := Ret (map_err plan_error_text (Plan.build source STEPS)) in
  do fp := fingerprint_of source plan repo in
  let? by_ := match mode with
              | ShownHash hash =>
                  Ret (if pane then Err (lit "--hash is for Sheprd's dialog")
                       else if bool_decide (hash = fp_hash fp) then Ok (lit "herdr-ui")
                       else Err (lit "the script changed since its plan was shown"))
              | Terminal =>
                  do terminal := ask flag in
                  if negb terminal then Ret (Err (lit "stdin is not a terminal"))
                  else
                    do agent := if pane then ask pane_agent else Ret false in
                    if agent then Ret (Err (lit "this pane runs an agent"))
                    else
                      do a := ask answer in
                      Ret (if bool_decide (trim a = Plan.source_name source) then Ok (lit "terminal") else Err (lit "not approved"))
              end in
  do at_ := now in
  let? _ := record_approval p (fp_hash fp) by_ at_ in
  let? _ := exec_sql (clear_cursors p) in
  exec_sql (put_script (row source (Ok plan) (Some fp) p repo at_)).

(** [known]. *)
Definition known (p : str) : program (res str unit) :=
  let? r := query (script p) in
  Ret (match r with Some _ => Ok tt | None => Err (lit "no script is known") end).

Definition set_paused (p : str) (pause : bool) : program (res str unit) :=
  let? _ := known p in
  let? sw := query (switch p) in
  let? _ := exec_sql (set_switch p (MkSwitch pause (disabled sw) (if pause then Some ByYou else None))) in
  if pause then Ret (Ok tt) else exec_sql (clear_cursors p).
Definition set_disabled (p : str) (disable : bool) : program (res str unit) :=
  let? _ := known p in
  let? sw := query (switch p) in
  let? _ := exec_sql (set_switch p (MkSwitch (paused sw) disable (if disable then Some ByYou else None))) in
  if disable then Ret (Ok tt) else exec_sql (clear_cursors p).
Definition push (k : RequestKind) : program (res str unit) := do at_ := now in exec_sql (push_request k at_).

Definition command (c : Command) : program (res str unit) :=
  match c with
  | Approve p mode pane => approve p mode pane
  | RunNowCommand p wanted =>
      let? _ := known p in
      let? r := query (script p) in
      match r with
      | None => Ret (Err (lit "no script is known"))
      | Some r =>
          let? a := query (approved_hash p) in
          if negb (bool_decide (a = Some (s_hash r))) then Ret (Err (lit "not approved")) else push (RunNow p wanted)
      end
  | Pause p => set_paused p true
  | Resume p => set_paused p false
  | PauseAll => exec_sql (set_paused_all true)
  | ResumeAll => exec_sql (set_paused_all false)
  | Disable p => set_disabled p true
  | Enable p => set_disabled p false
  | Stop r =>
      let? found := query (get_run r) in
      match found with
      | Some row => if bool_decide (r_state row = Running) then push (StopRun r) else Ret (Err (lit "not running"))
      | None => Ret (Err (lit "no run"))
      end
  | RepoAdd p => do ok := ask flag in if ok then do at_ := now in let? _ := sql (add_repo p at_) in Ret (Ok tt) else Ret (Err (lit "not a git repository"))
  | RepoRemove p => let? _ := sql (remove_repo p) in Ret (Ok tt)
  | ShutdownCommand =>
      do running := act (λ _ w, (w, lock w)) in
      if running then push Shutdown else Ret (Ok tt)
  end.

End daemon.

(** ** The system *)

Inductive Tid := TMain | TSampler | TRun (run : Z) | TCommand (n : nat).
#[export] Instance Tid_eq_dec : EqDecision Tid.
Proof. solve_decision. Defined.
#[export] Program Instance Tid_countable : Countable Tid :=
  inj_countable'
    (λ t, match t with TMain => inl false | TSampler => inl true | TRun r => inr (inl r) | TCommand n => inr (inr n) end)
    (λ x, match x with inl false => TMain | inl true => TSampler | inr (inl r) => TRun r | inr (inr n) => TCommand n end) _.
Next Obligation. by intros []. Qed.

Section system.
Context `{Sha} `{Host} `{!IterOrder str Loaded}.

(** A run shows in the world as going on, the sampler as sampling. *)
Definition forked_world (j : Start) (w : World) : World :=
  match j with
  | SRun job _ => with_done (done w) (<[run job := path job]> (alive w)) (with_event (EStart job) w)
  | SSampler _ => MkWorld (store w) (lock w) (stops w) (stop_sampler w) (starting w) (slots_lock w) (done w) true (events w) (held w)
                    (counted w) (alive w)
  end.

#[export] Instance spawns : Spawns World Input Start Tid := {|
  tid j := match j with SRun job _ => TRun (run job) | SSampler _ => TSampler end;
  forked := forked_world;
  body j := match j with SRun job settings => run_thread windows settings job | SSampler turns => sampler turns ∅ end;
|}.

Notation config := (Config (W := World) (I := Input) (J := Start) (T := Tid)).

Definition is_command (t : Tid) : bool := match t with TCommand _ => true | _ => false end.

(** The end of the daemon's process, for whatever reason: its threads, lock, flags,
    slots and channel are gone; the database and the commands of other processes
    are not. *)
Definition exited (w : World) : World :=
  MkWorld (store w) false ∅ false 0 None [] false (events w) ∅ None ∅.
Definition exit_process (c : config) : config :=
  MkConfig (exited (world c)) (filter (λ tp, is_command tp.1 = true) (pool c)).

Inductive Label := LStep (t : Tid) (i : Input) | LServe (turns : nat) | LCrash | LCommand (n : nat) (c : Command).

Definition step (l : Label) (c : config) : option config :=
  match l with
  | LStep t i =>
      match t, pool c !! t with
      | TMain, Some (Ret _) => Some (exit_process c)
      | _, _ => thread_step t i c
      end
  | LServe turns =>
      let w := world c in
      if lock w then Some c
      else Some (MkConfig (MkWorld (store w) true (stops w) (stop_sampler w) (starting w) (slots_lock w) (done w) (sampling w)
                             (events w) (held w) (counted w) (alive w)) (<[TMain := serve turns]> (pool c)))
  | LCrash => Some (exit_process c)
  | LCommand n cmd =>
      match pool c !! TCommand n with
      | Some _ => None
      | None => Some (MkConfig (world c) (<[TCommand n := do _ := command cmd in Ret tt]> (pool c)))
      end
  end.

Definition steps_of (ls : list Label) (c : config) : option config := foldM (λ c l, step l c) c ls.

Definition initial : config := MkConfig (MkWorld empty_store false ∅ false 0 None [] false [] ∅ None ∅) ∅.
End system.

(** ** Firings and the time a script was off *)

(** An interval's firing lies after the moment its cursor was last set, which is
    every turn in which the script is off, and not after now. *)
Theorem interval_window `{Host} (t : Plan.TriggerPlan) (step checked last at_ : Z) (d : ScheduleNext.Due) :
  let z := calendar (Plan.plan_zone t) in
  Plan.plan_schedule t = ScheduleNext.Every (Z.to_N step) → 0 < step → last ≤ checked → checked ≤ at_ →
  @ScheduleNext.ts_min z ≤ last * ScheduleNext.NANOS → (at_ + step) * ScheduleNext.NANOS ≤ @ScheduleNext.ts_max z →
  at_ - last + step ≤ ScheduleNext.i64_max →
  due_now t checked (Some last) at_ = Some d →
  checked < ScheduleNext.as_second (ScheduleNext.scheduled d) ≤ at_.
Proof.
  intros z Hs Hpos Hlc Hcn Hmin Hmax Hi. unfold due_now. rewrite Hs.
  assert (∀ s, last ≤ s → s ≤ at_ → at_second (Plan.plan_zone t) s = s * ScheduleNext.NANOS) as Hat.
  { intros s ? ?. unfold at_second, ScheduleNext.in_range. fold z. unfold ScheduleNext.NANOS in *.
    rewrite (proj2 (Z.leb_le _ _)) by lia. by rewrite (proj2 (Z.leb_le _ _)) by lia. }
  cbn [fmap option_fmap option_map]. rewrite !Hat by lia. fold z. rewrite (ScheduleNext.due_every_latest step last checked at_) by done.
  cbv zeta. destruct (Z.ltb_spec checked (last + (at_ - last) / step * step)) as [Hlt|]; [|done].
  intros [= <-]. cbn. rewrite ScheduleNext.as_second_whole. split; [done|].
  pose proof (Z.mul_div_le (at_ - last) step Hpos). lia.
Qed.
End AutoDaemon.
