(* ===== verification/AutoSafe.v ===== *)
(** * AutoSafe: what the automation daemon does, over every interleaving

    The history of the system's world says what was approved, started and done.
    [Inv] is what every access of every thread keeps; each program is shown to do
    so in the logic of [Threads]. *)

From Stdlib Require Import ZArith NArith Lia.
From stdpp Require Import base option strings list gmap relations.
From S2P Require Import Prelude Schedule ScheduleNext Plan Tokens AutoStore Threads AutoRun AutoDaemon.

Local Open Scope Z_scope.

Module AutoSafe.
Import AutoStore Threads AutoRun AutoDaemon.

(** ** Reading the history *)

Definition did_of (r : Z) (e : Event) : option Did :=
  match e with EDid r' d => if decide (r' = r) then Some d else None | _ => None end.
Definition job_of (e : Event) : option Job := match e with EStart j => Some j | _ => None end.
Definition approval_of (p : str) (e : Event) : option str :=
  match e with EApprove q h => if decide (q = p) then Some h else None | _ => None end.

Definition did (r : Z) (l : list Event) : list Did := omap (did_of r) l.
Definition started (l : list Event) : list Job := omap job_of l.
Definition latest (p : str) (l : list Event) : option str := last (omap (approval_of p) l).

Definition is_repo (job : Job) (r : str) : bool := bool_decide (repo job = Some r).

(** What a run may hand over for a call of its plan. *)
Definition allowed (job : Job) (position : N) (r : Tokens.Resolved) (what : Launch) (limit : N) : bool :=
  match Plan.timeout (Tokens.resolved_call r) with Some t => (limit <=? t)%N | None => true end &&
  match Plan.step (Tokens.resolved_call r), what with
  | Plan.Pull _, LGitPull r' => is_repo job r'
  | Plan.Run name, LScript r' s => is_repo job r' && bool_decide ((job_worktree job ≫= λ w, worktree_get w name) = Some s)
  | Plan.Sh command, LShell command' env =>
      bool_decide (command' = command)
      && bool_decide (env = Tokens.env r ++ [(lit "HERDR_AUTOMATION", Plan.source_name (source job)); (lit "HERDR_AUTOMATION_RUN", int_text (run job))])
  | Plan.Worktree name base, LWorktree r' name' base' => is_repo job r' && bool_decide (name' = name) && bool_decide (base' = base)
  | Plan.Agent _ _ worktree base _, LWorktree r' name base' =>
      is_repo job r' && bool_decide (name = default (automatic_branch job position) worktree) && bool_decide (base' = base)
  | Plan.Agent harness _ _ _ _, LAgent l harness' _ => bool_decide (l = label job) && bool_decide (harness' = harness)
  | Plan.Agent _ prompt _ _ wait, LPrompt _ prompt' wait' => bool_decide (prompt' = prompt) && Bool.eqb wait' wait
  | Plan.Notify t, LNotify title t' => bool_decide (title = Plan.source_name (source job)) && bool_decide (t' = t)
  | _, _ => false
  end.

(** A run on its plan: it takes up only the call the walker expects, hands over
    only what that call says, and moves the walker by how it ended. *)
Definition Cur : Type := Plan.Walker * option (N * Tokens.Resolved).
Definition advance (job : Job) (st : Cur) (d : Did) : option Cur :=
  match st, d with
  | (w, None), DExec position call values =>
      if Plan.expects w call then Some (w, Some (position, Tokens.resolve call values)) else None
  | (w, Some (position, r)), DDo what limit => if allowed job position r what limit then Some st else None
  | (w, Some _), DEnd ok => Some (Plan.record w ok, None)
  | _, _ => None
  end.

(** The plan's trigger of a job. *)
Definition planned (job : Job) : option Plan.TriggerPlan :=
  match Plan.build (source job) STEPS with Ok plan => Plan.plan_triggers plan !! trigger job | Err _ => None end.

Definition follows (job : Job) (l : list Did) : Prop :=
  match planned job with
  | Some t => is_Some (foldM (advance job) (Plan.walker_new t, None) l)
  | None => l = []
  end.

Section safe.
Context `{Sha} `{Host} `{!IterOrder str Loaded}.

(** What a person approved to let a job run. *)
Definition job_hash (job : Job) : str := fp_hash (fingerprint (source job) (job_worktree job)).

(** When the job was started, the latest approval of its script, looked at in the
    same turn of the daemon, was for exactly what it runs. *)
Definition authorised (l : list Event) (job : Job) : Prop :=
  ∃ before between after, l = before ++ between ++ EStart job :: after ∧ ETick ∉ between
    ∧ latest (path job) before = Some (job_hash job).

(** What of a run's row never changes, and the firing it stands for. *)
Definition key (r : RunRow) : Z * str * nat * option Z * str := (r_id r, r_path r, r_trigger r, r_scheduled r, r_hash r).
Definition firing (r : RunRow) : option (str * nat * Z) := s ← r_scheduled r; Some (r_path r, r_trigger r, s).

(** The scripts of the runs that go on or whose end is not taken note of. *)
Definition paths (w : World) : list str := (map_to_list (alive w)).*2 ++ ((λ m, m.1.1) <$> done w).

(** Which agents are live. *)
Definition liveness (s : Store) : gmap (Z * N) bool := (λ a, bool_decide (live a)) <$> agents s.
Definition true_count {K} `{Countable K} (m : gmap K bool) : N := N.of_nat (size (filter (λ kv, kv.2 = true) m)).
Definition live_count (s : Store) : N := true_count (liveness s).

(** The agents let through but not counted as live yet. *)
Definition reserved (w : World) : N := true_count (negb <$> held w).

(** An agent's row is found under its run and step. *)
Definition keyed (s : Store) : Prop := ∀ k a, agents s !! k = Some a → k = (a_run a, a_position a).

Context (M : N).

Record Inv (w : World) : Prop := {
  inv_approvals p : approved_hash p (store w) = latest p (events w);
  inv_started job : job ∈ started (events w) →
    authorised (events w) job ∧ follows job (did (run job) (events w))
    ∧ ∃ r, r ∈ runs (store w) ∧ r_id r = run job ∧ r_path r = path job ∧ r_trigger r = trigger job ∧ r_hash r = job_hash job;
  inv_once : NoDup (run <$> started (events w));
  inv_did r : did r (events w) ≠ [] → r ∈ run <$> started (events w);
  inv_ids : NoDup (r_id <$> runs (store w)) ∧ Forall (λ r, r_id r ≤ run_sequence (store w)) (runs (store w));
  inv_firings : NoDup (omap firing (runs (store w)));
  inv_paths : NoDup (paths w);
  inv_alive r : is_Some (alive w !! r) → r ∈ run <$> started (events w);
  inv_lock : lock w = false → paths w = [] ∧ sampling w = false;
  inv_slots : starting w = N.of_nat (size (held w));
  inv_held r : is_Some (held w !! r) ∨ slots_lock w = Some r → r ∈ run <$> started (events w);
  inv_keyed : keyed (store w);
  inv_cap : (live_count (store w) + reserved w ≤ M)%N;
  inv_counted n : counted w = Some n → (live_count (store w) + reserved w ≤ n + starting w)%N;
}.

(** What the others leave alone for each thread. *)
Definition others (t : Tid) (w w' : World) (new : list Event) : Prop :=
  match t with
  | TMain => ETick ∉ new ∧ started new = [] ∧ paths w' ⊆ paths w ∧ key <$> runs (store w') = key <$> runs (store w)
             ∧ run_sequence (store w') = run_sequence (store w) ∧ sampling w' = sampling w ∧ lock w' = lock w
  | TRun r => did r new = [] ∧ held w' !! r = held w !! r ∧ alive w' !! r = alive w !! r
              ∧ (slots_lock w = Some r → slots_lock w' = Some r ∧ starting w' = starting w ∧ counted w' = counted w)
              ∧ (slots_lock w ≠ Some r → slots_lock w' ≠ Some r)
  | TSampler => ∀ k, liveness (store w) !! k = Some true → liveness (store w') !! k = Some true
  | TCommand _ => True
  end.
Definition relies (t : Tid) (w w' : World) : Prop := ∃ new, events w' = events w ++ new ∧ others t w w' new.

Definition begun (t : Tid) (w : World) : Prop :=
  match t with
  | TMain => lock w = true
  | TRun r => r ∈ run <$> started (events w) ∧ lock w = true
  | TSampler => sampling w = true ∧ lock w = true
  | TCommand _ => True
  end.

Definition ready (j : Start) (w : World) : Prop :=
  match j with
  | SRun job settings =>
      job ∈ started (events w) ∧ did (run job) (events w) = [] ∧ alive w !! run job = Some (path job) ∧ held w !! run job = None
      ∧ slots_lock w ≠ Some (run job) ∧ (max_agents settings ≤ M)%N
  | SSampler _ => True
  end.

Definition permits (i : Input) : Prop :=
  match settings_read (config i) with Some s => (max_agents s ≤ M)%N | None => True end.

(** ** The history grows *)

Lemma did_app r l l' : did r (l ++ l') = did r l ++ did r l'.
Proof. apply omap_app. Qed.
Lemma started_app l l' : started (l ++ l') = started l ++ started l'.
Proof. apply omap_app. Qed.
Lemma latest_app p l l' : omap (approval_of p) l' = [] → latest p (l ++ l') = latest p l.
Proof. intros E. unfold latest. by rewrite omap_app, E, app_nil_r. Qed.
Lemma elem_of_started l job : job ∈ started l ↔ EStart job ∈ l.
Proof.
  unfold started. rewrite list_elem_of_omap. split.
  - intros (e & He & Ej). by destruct e; simplify_eq/=.
  - intros He. by exists (EStart job).
Qed.
Lemma authorised_app l l' job : authorised l job → authorised (l ++ l') job.
Proof.
  intros (b & m & a & -> & ? & ?). exists b, m, (a ++ l'). split; [|done]. by rewrite <-!app_assoc, <-app_comm_cons.
Qed.

#[local] Instance relies_preorder t : PreOrder (relies t).
Proof.
  split.
  - intros w. exists []. rewrite app_nil_r. split; [done|]. destruct t; cbn; repeat split; set_solver.
  - intros w1 w2 w3 (n1 & E1 & O1) (n2 & E2 & O2). exists (n1 ++ n2). rewrite E2, E1, app_assoc. split; [done|].
    destruct t as [| |r|n]; cbn in *; [| | |done].
    + destruct O1 as (? & S1 & ? & ? & ? & ? & ?), O2 as (? & S2 & ? & ? & ? & ? & ?). rewrite started_app, S1, S2, elem_of_app.
      repeat split; try congruence; [tauto|by etrans].
    + intros k Hk. auto.
    + destruct O1 as (D1 & ? & ? & L1 & N1), O2 as (D2 & ? & ? & L2 & N2). rewrite did_app, D1, D2.
      split; [done|]. split; [congruence|]. split; [congruence|]. split; [|auto].
      intros Hl. destruct (L1 Hl) as (Hl2 & ? & ?), (L2 Hl2) as (? & ? & ?). repeat split; congruence.
Qed.

#[local] Instance protocol : Protocol (W := World) (I := Input) (J := Start) (T := Tid) := {|
  inv := Inv; rely := relies; born := begun; pre := ready; legal := permits; rely_pre := relies_preorder;
|}.

(** ** Accesses that matter to nobody *)

(** The tables agree on what the invariant reads. *)
Definition calm (s s' : Store) : Prop :=
  approvals s' = approvals s ∧ key <$> runs s' = key <$> runs s ∧ run_sequence s' = run_sequence s ∧ liveness s' = liveness s
  ∧ (keyed s → keyed s').

Definition same (w w' : World) : Prop :=
  calm (store w) (store w') ∧ lock w' = lock w ∧ starting w' = starting w ∧ slots_lock w' = slots_lock w ∧ done w' = done w
  ∧ sampling w' = sampling w ∧ events w' = events w ∧ held w' = held w ∧ counted w' = counted w ∧ alive w' = alive w.

Lemma omap_firing (l : list RunRow) : omap firing l = omap (λ k : Z * str * nat * option Z * str, s ← k.1.2; Some (k.1.1.1.2, k.1.1.2, s)) (key <$> l).
Proof. induction l as [|r l IH]; [done|]. cbn [fmap list_fmap omap list_omap]. unfold firing at 1. cbn. by destruct (r_scheduled r); cbn; f_equal. Qed.
Lemma key_firings (l l' : list RunRow) : key <$> l' = key <$> l → omap firing l' = omap firing l.
Proof. intros E. by rewrite !omap_firing, E. Qed.
Lemma key_ids (l l' : list RunRow) : key <$> l' = key <$> l → r_id <$> l' = r_id <$> l.
Proof. intros E. apply (f_equal (fmap (λ k, k.1.1.1.1))) in E. by rewrite <-!list_fmap_compose in E. Qed.
Lemma key_row (l l' : list RunRow) r : key <$> l' = key <$> l → r ∈ l → ∃ r', r' ∈ l' ∧ key r' = key r.
Proof.
  intros E Hr. assert (key r ∈ key <$> l') as Hk by (rewrite E; by apply list_elem_of_fmap_2).
  apply list_elem_of_fmap in Hk as (r' & ? & ?). eauto.
Qed.
Lemma ids_below l n : Forall (λ r, r_id r ≤ n) l ↔ Forall (λ i, i ≤ n) (r_id <$> l).
Proof. by rewrite Forall_fmap. Qed.

Lemma same_inv w w' : same w w' → Inv w → Inv w'.
Proof.
  intros ((Ca & Cr & Cs & Cl & Ck) & Hl & Hs & Hk & Hd & Hm & He & Hh & Hc & Ha) [].
  assert (paths w' = paths w) as Hp by (unfold paths; by rewrite Ha, Hd).
  assert (live_count (store w') = live_count (store w)) as Hv by (unfold live_count; by rewrite Cl).
  assert (reserved w' = reserved w) as Hv' by (unfold reserved; by rewrite Hh).
  split; rewrite ?He, ?Hp, ?Hl, ?Hm, ?Hs, ?Hh, ?Hc, ?Ha, ?Hk, ?Hv, ?Hv'; try done.
  - intros p. unfold approved_hash. rewrite Ca. apply inv_approvals0.
  - intros job Hj. destruct (inv_started0 job Hj) as (? & ? & r & Hr & Hid & Hpa & Htr & Hha). split; [done|]. split; [done|].
    destruct (key_row _ _ r Cr Hr) as (r' & Hr' & [= K1 K2 K3 K4 K5]). exists r'. split; [done|]. by rewrite K1, K2, K3, K5.
  - rewrite ids_below, (key_ids _ _ Cr), Cs, <-ids_below. done.
  - by rewrite (key_firings _ _ Cr).
  - by apply Ck.
Qed.

Lemma same_relies t w w' : same w w' → relies t w w'.
Proof.
  intros ((Ca & Cr & Cs & Cl & Ck) & Hl & Hs & Hk & Hd & Hm & He & Hh & Hc & Ha). exists []. rewrite app_nil_r. split; [done|].
  assert (paths w' = paths w) as Hp by (unfold paths; by rewrite Ha, Hd).
  destruct t; cbn; rewrite ?Hp, ?Hl, ?Hm, ?Hs, ?Hh, ?Hc, ?Ha, ?Hk, ?Cl; repeat split; try done. by intros []%not_elem_of_nil.
Qed.

Lemma same_all w w' t : same w w' → inv w → inv w' ∧ rely t w w' ∧ ∀ u, born u w → born u w'.
Proof.
  intros Hs Hi. split; [by eapply same_inv|]. split; [by apply same_relies|].
  destruct Hs as (_ & Hl & _ & _ & _ & Hm & He & _). intros [| |r|n]; cbn; rewrite ?Hl, ?Hm, ?He; done.
Qed.

Abbreviation quietly := (quiet same).

Lemma quiet_ask {X} (f : Input → X) P : (∀ i, permits i → P (f i)) → quietly (ask f) P.
Proof. intros HP i w w' x Hi [= <- <-]. split; [by repeat split|by apply HP]. Qed.

Lemma quiet_read {X} (f : World → X) P : (∀ x, P x) → quietly (act (λ _ w, (w, f w))) P.
Proof. intros HP i w w' x Hi [= <- <-]. split; [by repeat split|by apply HP]. Qed.

Lemma quiet_sql {A} (f : Store → Store * A) P : (∀ s, calm s (f s).1) → (∀ r, P r) → quietly (sql f) P.
Proof.
  intros Hf HP i w w' x Hi. cbn. destruct (fails i); [|destruct (f (store w)) as [s a] eqn:E]; intros [= <- <-]; (split; [|apply HP]).
  - by repeat split.
  - specialize (Hf (store w)). rewrite E in Hf. cbn in Hf. by repeat (split; [done|]).
Qed.
Lemma quiet_exec f P : (∀ s, calm s (f s)) → (∀ r, P r) → quietly (exec_sql f) P.
Proof. intros Hf. by apply quiet_sql. Qed.
Lemma quiet_query {A} (f : Store → A) P : (∀ r, P r) → quietly (query f) P.
Proof. apply quiet_sql. done. Qed.

Lemma calm_runs which f s : (∀ r, key (f r) = key r) → calm s (update_runs which f s).
Proof.
  intros Hf. split; [done|]. split; [|done]. cbn. rewrite <-list_fmap_compose. apply list_fmap_ext. intros i r _. cbn. by destruct (which r).
Qed.

Ltac calm_tac :=
  try intros ?; repeat match goal with
    | |- calm _ (match ?x with _ => _ end) => destruct x; cbn [fst]
    | |- calm _ (match ?x with _ => _ end).1 => destruct x; cbn [fst]
    end; first [by apply calm_runs|by repeat split].

(** Walks through a program whose accesses are all quiet. *)
Ltac quiet_go :=
  repeat (cbv beta iota; lazymatch goal with
    | |- quiet _ (bind _ _) _ => apply quiet_then
    | |- quiet _ (try _ _) _ => apply quiet_try
    | |- quiet _ (ask _) _ => apply quiet_ask; intros ? ?
    | |- quiet _ now _ => apply quiet_ask; intros ? ?
    | |- quiet _ (stop_asked _) _ => apply quiet_read; intros ?
    | |- quiet _ (act (λ _ w, (w, _))) _ => apply quiet_read; intros ?
    | |- quiet _ (exec_sql _) _ => apply quiet_exec; [solve [calm_tac]|intros ?]
    | |- quiet _ (query _) _ => apply quiet_query; intros ?
    | |- quiet _ (sql _) _ => apply quiet_sql; [solve [calm_tac]|intros ?]
    | |- quiet _ (let '(_, _) := ?x in _) _ => destruct x
    | |- quiet _ (match ?x with _ => _ end) _ => destruct x
    | |- match ?x with _ => _ end => destruct x
    | |- quiet _ (Ret _) _ => cbn [quiet]
    end).

Lemma quiet_used p today : quietly (used p today) (λ _, True).
Proof. unfold used. by quiet_go. Qed.

Lemma quiet_start_step job position call : quietly (start_step job position call) (λ _, True).
Proof. unfold start_step. by quiet_go. Qed.

Lemma quiet_fingerprint source plan repo :
  quietly (fingerprint_of source plan repo) (λ f, ∃ w, f = fingerprint source w).
Proof. unfold fingerprint_of. quiet_go; eauto. Qed.

Lemma quiet_repo_scripts rs : quietly (repo_scripts rs) (λ _, True).
Proof. induction rs as [|r rs IH]; cbn [repo_scripts]; quiet_go; [done|]. eapply quiet_mono; [|exact IH]. by intros; quiet_go. Qed.

Lemma quiet_find : quietly find (λ _, True).
Proof. unfold find. quiet_go; [|done]. eapply quiet_mono; [|apply quiet_repo_scripts]. by intros; quiet_go. Qed.

Lemma quiet_load_new at_ old kept p repo source : quietly (load_new at_ old kept p repo source) (λ _, True).
Proof.
  unfold load_new. apply quiet_then. destruct (Plan.build source STEPS) as [plan|e]; [|by quiet_go].
  apply quiet_then. eapply quiet_mono; [|apply quiet_fingerprint]. intros f _. by quiet_go.
Qed.

Lemma quiet_refresh_one at_ old kept p repo : quietly (refresh_one at_ old kept p repo) (λ _, True).
Proof.
  unfold refresh_one. apply quiet_then, quiet_ask. intros i _. destruct (file i p) as [source|e]; [|by quiet_go].
  destruct (old !! p) as [known|]; [|apply quiet_load_new]. destruct (bool_decide _); [|apply quiet_load_new].
  apply quiet_then. eapply quiet_mono; [|apply quiet_fingerprint]. intros f _. by quiet_go.
Qed.

Lemma quiet_refresh_all at_ old kept l : quietly (refresh_all at_ old kept l) (λ _, True).
Proof.
  revert old kept. induction l as [|[p repo] l IH]; intros old kept; cbn [refresh_all]; [done|].
  apply quiet_try. eapply quiet_mono; [|apply quiet_refresh_one]. intros [x|e] _; [apply IH|done].
Qed.

Lemma quiet_refresh at_ d :
  quietly (refresh at_ d) (λ r, match r with Ok d' => settings d' = settings d ∧ live_runs d' = live_runs d | Err _ => True end).
Proof.
  unfold refresh. apply quiet_try. eapply quiet_mono; [|apply quiet_find]. intros [l|e] _; [|done].
  apply quiet_try. eapply quiet_mono; [|apply quiet_refresh_all]. intros [kept|e] _; [|done]. by quiet_go.
Qed.

Lemma quiet_check p active at_ index ts statuses dues : quietly (check_triggers p active at_ index ts statuses dues) (λ _, True).
Proof.
  revert index statuses dues. induction ts as [|t ts IH]; intros index statuses dues; cbn [check_triggers]; [done|].
  destruct (Plan.plan_schedule t); try apply IH.
  all: apply quiet_try, quiet_query; intros [c|e]; [|done]; destruct (if active then c else None) as [[checked fired]|];
    (apply quiet_try, quiet_exec; [by calm_tac|intros [[]|e]; [apply IH|done]]).
Qed.

Lemma quiet_finish p r ended : quietly (finish p r ended) (λ _, True).
Proof. unfold finish. by quiet_go. Qed.

Lemma quiet_locate : quietly locate (λ _, True).
Proof. unfold locate. by quiet_go. Qed.
Lemma quiet_known p : quietly (known p) (λ _, True).
Proof. unfold known. by quiet_go. Qed.
Lemma quiet_push k : quietly (push k) (λ _, True).
Proof. apply quiet_then, quiet_ask. intros i _. apply quiet_exec; [|done]. intros s. unfold push_request. by destruct (columns k) as [[]]. Qed.

(** ** Counting *)

Lemma true_count_split {K} `{Countable K} (m : gmap K bool) k :
  true_count m = ((if decide (m !! k = Some true) then 1 else 0) + true_count (delete k m))%N.
Proof.
  unfold true_count. destruct (m !! k) as [b|] eqn:E; [|rewrite decide_False, delete_id by done; lia].
  rewrite <-(insert_delete_id m k b E) at 1. destruct b.
  - rewrite decide_True by done. rewrite map_filter_insert_True by done. rewrite map_size_insert_None by (rewrite map_lookup_filter, lookup_delete_eq; done). lia.
  - rewrite decide_False by done. rewrite map_filter_insert_False by done. rewrite delete_delete_eq. lia.
Qed.

Lemma true_count_delete {K} `{Countable K} (m : gmap K bool) k : (true_count (delete k m) ≤ true_count m)%N.
Proof. rewrite (true_count_split m k). lia. Qed.

Lemma true_count_insert {K} `{Countable K} (m : gmap K bool) (k : K) (b : bool) :
  true_count (<[k := b]> m) = ((if b then 1 else 0) + true_count (delete k m))%N.
Proof. rewrite (true_count_split (<[k := b]> m) k), lookup_insert_eq, delete_insert_eq. by destruct b. Qed.

Lemma true_count_size {K} `{Countable K} (m : gmap K bool) : (true_count m ≤ N.of_nat (size m))%N.
Proof. unfold true_count. pose proof (map_size_filter (λ kv : K * bool, kv.2 = true) m). lia. Qed.

Lemma live_agents_count s : lenN (live_agents s) = live_count s.
Proof.
  unfold live_agents, live_count, liveness. generalize (agents s). intros m. induction m as [|k a m Hk IH] using map_ind.
  { rewrite map_to_list_empty, fmap_empty. by vm_compute. }
  rewrite fmap_insert, true_count_insert, delete_id by (rewrite lookup_fmap, Hk; done). rewrite <-IH. unfold lenN.
  rewrite (Permutation_length (filter_Permutation live _ _ (fmap_Permutation snd _ _ (map_to_list_insert m k a Hk)))).
  cbn [fmap list_fmap snd]. rewrite filter_cons. case_decide; [rewrite bool_decide_true by done|rewrite bool_decide_false by done];
  cbn [length]; lia.
Qed.

(** ** A run *)

Lemma NoDup_fmap_eq {A B} (f : A → B) (l : list A) x y : NoDup (f <$> l) → x ∈ l → y ∈ l → f x = f y → x = y.
Proof.
  intros Hn (i & Hi)%list_elem_of_lookup (j & Hj)%list_elem_of_lookup E.
  assert (i = j) as ->; [|congruence]. eapply (NoDup_lookup _ _ _ (f x) Hn); rewrite list_lookup_fmap; [by rewrite Hi|by rewrite Hj, E].
Qed.

Lemma latest_note p l e : approval_of p e = None → latest p (l ++ [e]) = latest p l.
Proof. intros He. apply latest_app. cbn. by rewrite He. Qed.

Section job.
Context (job : Job) (t : Plan.TriggerPlan).
Hypothesis planned_t : planned job = Some t.

Notation r := (run job).

(** What a run's thread knows: where it is on its plan, its slot, that it does not
    hold the lock of the slots, and that it goes on. *)
Record Knows (c : Cur) (h : option bool) (w : World) : Prop := {
  knows_plan : foldM (advance job) (Plan.walker_new t, None) (did r (events w)) = Some c;
  knows_held : held w !! r = h;
  knows_lock : slots_lock w ≠ Some r;
  knows_alive : alive w !! r = Some (path job);
  knows_started : job ∈ started (events w);
}.

Lemma knows_relies c h w w' : Knows c h w → relies (TRun r) w w' → Knows c h w'.
Proof.
  intros [] (new & He & Hd & Hh & Ha & _ & Hl). split.
  - by rewrite He, did_app, Hd, app_nil_r.
  - by rewrite Hh.
  - by apply Hl.
  - by rewrite Ha.
  - rewrite He, started_app, elem_of_app. by left.
Qed.

(** A note of the run extends its own history only. *)
Lemma note_keeps c c' h d w :
  Inv w → Knows c h w → advance job c d = Some c' → keeps (TRun r) w (with_event (EDid r d) w) ∧ Knows c' h (with_event (EDid r d) w).
Proof.
  intros Hi Hk Ha.
  assert (∀ r', did r' (events w ++ [EDid r d]) = did r' (events w) ++ if decide (r = r') then [d] else []) as Hdid.
  { intros r'. rewrite did_app. f_equal. cbn. by destruct (decide (r = r')). }
  assert (started (events w ++ [EDid r d]) = started (events w)) as Hst by (rewrite started_app; apply app_nil_r).
  assert (foldM (advance job) (Plan.walker_new t, None) (did r (events w ++ [EDid r d])) = Some c') as Hplan.
  { rewrite Hdid, decide_True by done. rewrite foldM_app, (knows_plan _ _ _ Hk). cbn. by rewrite Ha. }
  split; [split|].
  - destruct Hi. split; cbn [store lock starting slots_lock done sampling events held counted alive with_event]; rewrite ?Hst; try done.
    + intros p. by rewrite latest_note.
    + intros job' Hj. destruct (inv_started0 job' Hj) as (? & Hf & Hrow). split; [by apply authorised_app|]. split; [|done].
      rewrite Hdid. destruct (decide (r = run job')) as [Er|Hne]; [|by rewrite app_nil_r].
      assert (job' = job) as ->.
      { apply knows_started in Hk. by apply (NoDup_fmap_eq _ _ _ _ inv_once0). }
      unfold follows. rewrite planned_t. rewrite Hdid, decide_True in Hplan by done. rewrite Hplan. by eexists.
    + intros r'. rewrite Hdid. destruct (decide (r = r')) as [<-|]; [|rewrite app_nil_r; apply inv_did0].
      intros _. apply list_elem_of_fmap_2. by apply knows_started in Hk.
  - split; [|intros [| |r'|n]; cbn [born protocol begun events with_event]; rewrite ?Hst; done]. intros u Hu _. exists [EDid r d]. split; [done|].
    destruct u as [| |r'|n]; [by repeat split; try done; set_solver|by intros k Hlive| |done].
    split; [|by repeat split]. unfold did. cbn [omap list_omap did_of]. by rewrite decide_False by congruence.
  - destruct Hk. split; cbn [events with_event]; rewrite ?Hst; done.
Qed.
(** The rules of the accesses of a run. *)
Abbreviation wp_run := (wp (TRun r)).

Lemma wp_note {X} (f : Input → X) c c' h d Q w :
  Knows c h w → advance job c d = Some c' → (∀ x w', Knows c' h w' → Q x w') → wp_run (note r d f) Q w.
Proof.
  intros Hk Ha HQ w1 i w2 x Hr Hi Hl [= <- <-]. destruct (note_keeps c c' h d w1) as [Hkeep Hk']; [done|by eapply knows_relies|done|].
  split; [done|by apply HQ].
Qed.

Lemma wp_run_quiet {A} (p : program A) P c h Q w :
  Knows c h w → quietly p P → (∀ a w', P a → Knows c h w' → Q a w') → wp_run p Q w.
Proof.
  intros Hk Hq HQ. eapply (wp_quiet same same_all); [done|]. intros a w' Ha Hr. apply HQ; [done|]. by eapply knows_relies.
Qed.

(** Slots and agents change, the history does not. *)
Lemma slots_keeps w s n l h c :
  Inv w → approvals s = approvals (store w) → runs s = runs (store w) → run_sequence s = run_sequence (store w) → keyed s →
  let w' := with_slots n l h c (with_store (const s) w) in
  n = N.of_nat (size h) → (∀ k, is_Some (h !! k) ∨ l = Some k → k ∈ run <$> started (events w)) →
  (live_count s + reserved w' ≤ M)%N → (∀ m, c = Some m → (live_count s + reserved w' ≤ m + n)%N) → Inv w'.
Proof.
  intros [] Ha Hr Hs Hkd w' Hn Hh Hc Hm. split; cbn; rewrite ?Hr, ?Hs; try done. intros p. unfold approved_hash. rewrite Ha. apply inv_approvals0.
Qed.

(** Such a change leaves the others alone when it keeps their slots, respects the
    lock and ends no agent. *)
Lemma slots_relies w s n l h c u :
  approvals s = approvals (store w) → runs s = runs (store w) → run_sequence s = run_sequence (store w) →
  (∀ k, liveness (store w) !! k = Some true → liveness s !! k = Some true) →
  (∀ k, k ≠ r → h !! k = held w !! k) → l = None ∨ l = Some r ∨ l = slots_lock w →
  (l = slots_lock w ∧ n = starting w ∧ c = counted w) ∨ slots_lock w = None ∨ slots_lock w = Some r →
  u ≠ TRun r → relies u w (with_slots n l h c (with_store (const s) w)).
Proof.
  intros Ha Hr Hs Hlv Hh Hl Hk Hu. exists []. rewrite app_nil_r. split; [done|]. destruct u as [| |k|m]; [|done| |done].
  - cbn. rewrite Hr, Hs. repeat split; try done. set_solver.
  - assert (k ≠ r) by congruence. cbn. split; [done|]. split; [by apply Hh|]. split; [done|]. split.
    + intros Hlock. destruct Hk as [(-> & -> & ->)|[Hk|Hk]]; [done|congruence|congruence].
    + destruct Hl as [->|[->| ->]]; congruence.
Qed.

Lemma born_slots w s n l h c u : begun u w → begun u (with_slots n l h c (with_store (const s) w)).
Proof. by destruct u. Qed.

Lemma with_store_id n l h c w : with_slots n l h c w = with_slots n l h c (with_store (const (store w)) w).
Proof. by destruct w. Qed.

Lemma reserved_insert (w : World) n l (k : Z) (b : bool) c s :
  reserved (with_slots n l (<[k := b]> (held w)) c (with_store s w)) = ((if b then 0 else 1) + true_count (negb <$> delete k (held w)))%N.
Proof. unfold reserved. cbn. rewrite fmap_insert, true_count_insert, fmap_delete. by destruct b. Qed.

Lemma wp_release c b Q w : Knows c (Some b) w → (∀ w', Knows c None w' → Q tt w') → wp_run (release job) Q w.
Proof.
  intros Hk HQ w1 i w2 x Hr Hi Hl. cbn. destruct (slots_lock w1) as [o|] eqn:El; [done|]. intros [= <- <-].
  pose proof (knows_relies _ _ _ _ Hk Hr) as []. rewrite with_store_id.
  assert (size (delete r (held w1)) = (size (held w1) - 1)%nat) as Hsize.
  { rewrite map_size_delete_Some by (by eexists). lia. }
  assert (0 < size (held w1))%nat as Hpos. { pose proof (map_size_ne_0_lookup_2 (held w1) r ltac:(by eexists)). lia. }
  split; [split; [apply slots_keeps|split]|apply HQ]; cbn; try done.
  - apply Hi.
  - rewrite Hsize, (inv_slots _ Hi). unfold saturating_sub. lia.
  - intros k [[? Hk']|?]; [|done]. apply lookup_delete_Some in Hk' as [_ Hk']. apply (inv_held _ Hi). left. by eexists.
  - pose proof (inv_cap _ Hi). unfold reserved in *. cbn. rewrite fmap_delete. pose proof (true_count_delete (negb <$> held w1) r). lia.
  - intros u Hu _. apply slots_relies; try done; auto. intros k Hne. by apply lookup_delete_ne.
  - split; cbn; try done. apply lookup_delete_eq.
Qed.

Lemma reserved_false w : held w !! r = Some false → reserved w = (1 + true_count (negb <$> delete r (held w)))%N.
Proof. intros E. unfold reserved. rewrite (true_count_split _ r), lookup_fmap, E, fmap_delete. cbn. by rewrite decide_True. Qed.

(** An agent that is recorded takes the place of its slot in the count. *)
Lemma wp_record_agent a c Q w :
  Knows c (Some false) w → (∀ w', Knows c (Some false) w' → Q (Err (lit "state database")) w') →
  (∀ w', Knows c (Some true) w' → Q (Ok tt) w') → wp_run (record_agent job a) Q w.
Proof.
  intros Hk HE HQ w1 i w2 x Hr Hi Hl. cbn. pose proof (knows_relies _ _ _ _ Hk Hr) as Hk1.
  destruct (fails i); intros [= <- <-].
  { split; [|by apply HE]. split; [done|]. split; [|done]. intros u _ _. reflexivity. }
  destruct Hk1. assert (alter (const true) r (held w1) = <[r := true]> (held w1)) as Ealter.
  { apply map_eq. intros k. destruct (decide (k = r)) as [->|Hne].
    - by rewrite lookup_alter_eq, lookup_insert_eq, knows_held0.
    - by rewrite lookup_alter_ne, lookup_insert_ne. }
  rewrite Ealter. change (with_store (add_agent a) w1) with (with_store (const (add_agent a (store w1))) w1).
  assert (liveness (add_agent a (store w1)) = <[(a_run a, a_position a) := true]> (liveness (store w1))) as Elive.
  { unfold liveness. cbn. rewrite fmap_insert. by rewrite bool_decide_true. }
  assert (live_count (add_agent a (store w1)) ≤ 1 + live_count (store w1))%N as Hcount.
  { unfold live_count. rewrite Elive, true_count_insert. pose proof (true_count_delete (liveness (store w1)) (a_run a, a_position a)). lia. }
  pose proof (reserved_false w1 knows_held0) as Hres.
  split; [split; [apply slots_keeps|split]|apply HQ]; rewrite ?reserved_insert; try done.
  - intros k a' Hka. cbn in Hka. apply lookup_insert_Some in Hka as [[<- <-]|[_ Hka]]; [done|]. by apply (inv_keyed _ Hi).
  - rewrite map_size_insert_Some by (by eexists). apply Hi.
  - intros k [[? Hk']|?]; apply (inv_held _ Hi); [|by right]. destruct (decide (k = r)) as [->|Hne]; [left; by eexists|].
    rewrite lookup_insert_ne in Hk' by done. left. by eexists.
  - pose proof (inv_cap _ Hi). lia.
  - intros m Hm. pose proof (inv_counted _ Hi m Hm). lia.
  - intros u Hu _. apply slots_relies; try done; auto.
    + intros k Hk'. rewrite Elive. destruct (decide (k = (a_run a, a_position a))) as [->|]; [by rewrite lookup_insert_eq|by rewrite lookup_insert_ne].
    + intros k Hne. by apply lookup_insert_ne.
  - split; cbn; try done. apply lookup_insert_eq.
Qed.

(** With the lock of the slots in hand. *)
Record Holds (c : Cur) (n : option N) (w : World) : Prop := {
  holds_plan : foldM (advance job) (Plan.walker_new t, None) (did r (events w)) = Some c;
  holds_held : held w !! r = None;
  holds_lock : slots_lock w = Some r;
  holds_count : match n with Some n => counted w = Some n | None => True end;
  holds_alive : alive w !! r = Some (path job);
  holds_started : job ∈ started (events w);
}.

Lemma holds_relies c n w w' : Holds c n w → relies (TRun r) w w' → Holds c n w'.
Proof.
  intros [] (new & He & Hd & Hh & Ha & Hl & _). destruct (Hl holds_lock0) as (? & ? & Hc). split; try done.
  - by rewrite He, did_app, Hd, app_nil_r.
  - by rewrite Hh.
  - destruct n; [by rewrite Hc|done].
  - by rewrite Ha.
  - rewrite He, started_app, elem_of_app. by left.
Qed.

Lemma wp_lock c Q w : Knows c None w → (∀ w', Holds c None w' → Q tt w') → wp_run (lock_slots job) Q w.
Proof.
  intros Hk HQ w1 i w2 x Hr Hi Hl. cbn. destruct (slots_lock w1) as [o|] eqn:El; [done|]. intros [= <- <-].
  pose proof (knows_relies _ _ _ _ Hk Hr) as []. rewrite with_store_id.
  split; [split; [apply slots_keeps|split]|apply HQ]; try done; cbn; auto.
  - apply Hi.
  - apply Hi.
  - intros k [?|[= <-]]; [apply (inv_held _ Hi); by left|]. by apply list_elem_of_fmap_2.
  - apply (inv_cap _ Hi).
  - intros u Hu _. by apply slots_relies; auto.
Qed.

Lemma wp_count c Q w :
  Holds c None w → (∀ w', Holds c None w' → Q u64_max w') → (∀ n w', Holds c (Some n) w' → Q n w') → wp_run count_agents Q w.
Proof.
  intros Hk HE HQ w1 i w2 x Hr Hi Hl. cbn. pose proof (holds_relies _ _ _ _ Hk Hr) as Hk1. destruct (fails i); intros [= <- <-].
  { split; [|by apply HE]. split; [done|]. split; [|done]. intros u _ _. reflexivity. }
  destruct Hk1. rewrite with_store_id, live_agents_count.
  split; [split; [apply slots_keeps|split]|apply HQ]; try done; cbn; auto.
  - apply Hi.
  - apply Hi.
  - apply (inv_held _ Hi).
  - apply (inv_cap _ Hi).
  - intros m [= <-]. assert (reserved w1 ≤ starting w1)%N; [|unfold reserved in *; cbn in *; lia].
    rewrite (inv_slots _ Hi). unfold reserved. pose proof (true_count_size (negb <$> held w1)). by rewrite map_size_fmap in *.
  - intros u Hu _. by apply slots_relies; auto.
Qed.

Context (settings : Settings).
Hypothesis cap_M : (max_agents settings ≤ M)%N.
Hypothesis M_small : (M ≤ u32_max)%N.

(** The count under the lock leaves room for one more. *)
Lemma wp_take c n w (Q : res Halt unit → World → Prop) :
  Holds c (Some n) w ∨ Holds c None w ∧ n = u64_max → (∀ w', Knows c None w' → Q (Err HHostAgents) w') →
  (∀ w', Knows c (Some false) w' → Q (Ok tt) w') → wp_run (take_slot settings job n) Q w.
Proof.
  intros Hk HE HQ w1 i w2 x Hr Hi Hl. cbn. intros Hx.
  assert (Holds c None w1 ∧ (counted w1 = Some n ∨ n = u64_max)) as [Hk1 Hn].
  { destruct Hk as [Hk|[Hk ->]]; apply (holds_relies _ _ _ w1) in Hk; try done; [|by split; [|right]].
    destruct Hk. split; [by split|by left]. }
  destruct Hk1. destruct (N.leb_spec (max_agents settings) (saturating_add u64_max n (starting w1))) as [Hle|Hlt];
    injection Hx as <- <-; rewrite with_store_id.
  - split; [split; [apply slots_keeps|split]|apply HE]; try done; cbn; auto.
    + apply Hi.
    + apply Hi.
    + intros k [?|?]; [|done]. apply (inv_held _ Hi). by left.
    + apply (inv_cap _ Hi).
    + intros u Hu _. by apply slots_relies; auto.
  - unfold saturating_add, u64_max, u32_max in *. destruct Hn as [Hn| ->]; [|lia].
    pose proof (inv_counted _ Hi n Hn) as Hroom. unfold reserved in Hroom.
    assert (delete r (held w1) = held w1) as Hdel by (by apply delete_id).
    split; [split; [apply slots_keeps|split]|apply HQ]; rewrite ?reserved_insert, ?Hdel; try done; cbn; auto.
    + apply Hi.
    + rewrite map_size_insert_None by done. rewrite (inv_slots _ Hi). lia.
    + intros k [[? Hk']|?]; [|done]. destruct (decide (k = r)) as [->|Hne]; [by apply list_elem_of_fmap_2|].
      rewrite lookup_insert_ne in Hk' by done. apply (inv_held _ Hi). left. by eexists.
    + lia.
    + intros u Hu _. apply slots_relies; try done; auto. intros k Hne. by apply lookup_insert_ne.
    + split; cbn; try done. apply lookup_insert_eq.
Qed.

Lemma wp_agent_cap plan n c w (Q : res Halt unit → World → Prop) :
  Knows c None w → (∀ e w', Knows c None w' → Q (Err e) w') → (∀ w', Knows c (Some false) w' → Q (Ok tt) w') →
  wp_run (agent_cap settings job plan n) Q w.
Proof.
  intros Hk HE HQ. unfold agent_cap. destruct (_ <=? _)%N; [by apply HE|].
  apply wp_bind. eapply (wp_run_quiet _ (λ _, True)); [done|by apply quiet_ask|]. intros today w' _ Hk'. clear w Hk.
  apply wp_bind. eapply wp_run_quiet; [done|apply quiet_used|]. intros mine w _ Hk. clear w' Hk'.
  destruct (_ <=? _)%N; [by apply HE|]. apply wp_bind. eapply wp_run_quiet; [done|apply quiet_used|].
  intros all w' _ Hk'. clear w Hk. destruct (_ <=? _)%N; [by apply HE|].
  apply wp_bind. eapply wp_lock; [done|]. intros w Hh. apply wp_bind. eapply wp_count; [done|..].
  - intros w'' Hh'. eapply wp_take; eauto.
  - intros m w'' Hh'. eapply wp_take; eauto.
Qed.

(** ** The steps of a run *)

Section step.
Context (wk : Plan.Walker) (position limit : N) (rc : Tokens.Resolved).
Hypothesis in_time : match Plan.timeout (Tokens.resolved_call rc) with Some t => (limit <=? t)%N | None => true end = true.

Notation cur := (wk, Some (position, rc)).

Lemma wp_do {X} what (f : Input → X) h Q w :
  Knows cur h w → allowed job position rc what limit = true → (∀ x w', Knows cur h w' → Q x w') → wp_run (note r (DDo what limit) f) Q w.
Proof. intros Hk Ha HQ. eapply wp_note; [done| |done]. cbn. by rewrite Ha. Qed.

Lemma wp_finished what h w :
  Knows cur h w → allowed job position rc what limit = true → wp_run (finished job what limit) (λ _, Knows cur h) w.
Proof. intros Hk Ha. apply wp_bind. eapply wp_do; [done|done|]. by intros [f|] w' Hk'. Qed.

Lemma wp_ask_herdr what h (Q : res str (str * str) → World → Prop) w :
  Knows cur h w → allowed job position rc what limit = true → (∀ x w', Knows cur h w' → Q x w') → wp_run (ask_herdr job what limit) Q w.
Proof. intros Hk Ha HQ. apply wp_bind. eapply wp_do; [done|done|]. intros x w' Hk'. by apply HQ. Qed.

Lemma quiet_ensure : quietly ensure_server (λ _, True).
Proof. unfold ensure_server. by quiet_go. Qed.

Ltac allow Hs := unfold allowed; rewrite in_time, Hs; cbn; rewrite ?andb_true_iff, ?Bool.eqb_true_iff; unfold is_repo; rewrite ?bool_decide_eq_true; auto.

Lemma repo_of_ok x : repo_of job = Ok x → repo job = Some x.
Proof. unfold repo_of. destruct (repo job); cbn; congruence. Qed.

Lemma wp_pull branch h w :
  Plan.step (Tokens.resolved_call rc) = Plan.Pull branch → Knows cur h w → wp_run (pull job branch limit) (λ _, Knows cur h) w.
Proof.
  intros Hs Hk. unfold pull. destruct (repo_of job) as [x|e] eqn:Er; [|done]. apply repo_of_ok in Er.
  apply wp_try. eapply (wp_run_quiet _ (λ _, True)); [done|by apply quiet_ask|]. intros [cur'|e] w' _ Hk'; [|done].
  destruct (negb _); [done|]. apply wp_try. eapply (wp_run_quiet _ (λ _, True)); [done|by apply quiet_ask|].
  intros [st|e] w'' _ Hk''; [|done]. destruct (negb _); [done|]. apply wp_finished; [done|]. allow Hs.
Qed.

Lemma wp_script win name h w :
  Plan.step (Tokens.resolved_call rc) = Plan.Run name → Knows cur h w → wp_run (worktree_script win job name limit) (λ _, Knows cur h) w.
Proof.
  intros Hs Hk. unfold worktree_script. destruct (repo_of job) as [x|e] eqn:Er; [|done]. apply repo_of_ok in Er.
  destruct (job_worktree job ≫= _) as [s|] eqn:Ew; [|done]. destruct win; [done|]. apply wp_finished; [done|]. allow Hs.
Qed.

Lemma wp_shell win command h w :
  Plan.step (Tokens.resolved_call rc) = Plan.Sh command → Knows cur h w →
  wp_run (shell win job command (Tokens.env rc) limit) (λ _, Knows cur h) w.
Proof. intros Hs Hk. unfold shell. destruct (_ && _); [done|]. apply wp_finished; [done|]. allow Hs. Qed.

Lemma wp_worktree name base h w :
  Plan.step (Tokens.resolved_call rc) = Plan.Worktree name base → Knows cur h w →
  wp_run (worktree_step job name base limit) (λ _, Knows cur h) w.
Proof.
  intros Hs Hk. unfold worktree_step. destruct (repo_of job) as [x|e] eqn:Er; [|done]. apply repo_of_ok in Er.
  apply wp_try. eapply wp_run_quiet; [done|apply quiet_ensure|]. intros [[]|e] w' _ Hk'; [|done].
  apply wp_try. eapply wp_ask_herdr; [done|allow Hs|]. by intros [created|e] w'' Hk''.
Qed.

Lemma wp_notify text h w :
  Plan.step (Tokens.resolved_call rc) = Plan.Notify text → Knows cur h w → wp_run (notify job text limit) (λ _, Knows cur h) w.
Proof.
  intros Hs Hk. unfold notify. apply wp_try. eapply wp_run_quiet; [done|apply quiet_ensure|]. intros [[]|e] w' _ Hk'; [|done].
  apply wp_try. eapply wp_ask_herdr; [done|allow Hs|]. by intros [created|e] w'' Hk''.
Qed.

(** Whether the reservation is still held, in the flag and in the count. *)
Definition slot (b : bool) : option bool := if b then Some false else None.

Lemma wp_agent harness prompt worktree base wait w :
  Plan.step (Tokens.resolved_call rc) = Plan.Agent harness prompt worktree base wait → Knows cur (slot true) w →
  wp_run (agent job position harness prompt worktree base wait limit) (λ x, Knows cur (slot x.1)) w.
Proof.
  intros Hs Hk. unfold agent. destruct (repo_of job) as [x|e] eqn:Er; [|done]. apply repo_of_ok in Er.
  apply wp_bind. eapply wp_run_quiet; [done|apply quiet_ensure|]. intros [[]|e] w1 _ Hk1; [|done].
  apply wp_bind. eapply wp_ask_herdr; [done|allow Hs|]. intros [created|e] w2 Hk2; [|done].
  apply wp_bind. eapply wp_ask_herdr; [done|allow Hs|]. intros [started'|e] w3 Hk3; [|done].
  apply wp_bind. eapply (wp_run_quiet _ (λ _, True)); [done|by apply quiet_ask|]. intros at_ w4 _ Hk4.
  apply wp_bind. eapply wp_record_agent; [done|done|]. intros w5 Hk5.
  apply wp_bind. eapply wp_release; [done|]. intros w6 Hk6.
  apply wp_bind. eapply wp_ask_herdr; [done|allow Hs|]. by intros [sent|e] w7 Hk7.
Qed.

Lemma wp_execute_step win b w :
  (∀ h p wt ba wa, Plan.step (Tokens.resolved_call rc) = Plan.Agent h p wt ba wa → b = true) → Knows cur (slot b) w →
  wp_run (execute_step win job b rc position limit) (λ x, Knows cur (slot x.1)) w.
Proof.
  intros Hb Hk. unfold execute_step. apply wp_bind.
  assert (wp_run (match Plan.step (Tokens.resolved_call rc) with
    | Plan.Pull branch => do x := pull job branch limit in Ret (b, x)
    | Plan.Run name => do x := worktree_script win job name limit in Ret (b, x)
    | Plan.Sh command => do x := shell win job command (Tokens.env rc) limit in Ret (b, x)
    | Plan.Worktree name base => do x := worktree_step job name base limit in Ret (b, x)
    | Plan.Agent harness prompt worktree base wait => agent job position harness prompt worktree base wait limit
    | Plan.Notify text => do x := notify job text limit in Ret (b, x)
    end) (λ x, Knows cur (slot x.1)) w) as Hstep.
  { destruct (Plan.step (Tokens.resolved_call rc)) eqn:Es; try (apply wp_bind).
    - rewrite (Hb _ _ _ _ _ eq_refl) in Hk. by eapply wp_agent.
    - by eapply wp_mono; [|by apply wp_notify].
    - by eapply wp_mono; [|by apply wp_pull].
    - by eapply wp_mono; [|by apply wp_script].
    - by eapply wp_mono; [|by apply wp_shell].
    - by eapply wp_mono; [|by apply wp_worktree]. }
  eapply wp_mono; [|exact Hstep]. intros [b' [s|e]] w' Hk'; [destruct (bool_decide (log_tail s = [])); [|exact Hk']|].
  all: apply wp_bind; eapply (wp_run_quiet _ (λ _, True)); [done|by apply quiet_ask|]; by intros text w'' _ Hk''.
Qed.
End step.

(** ** The run as a whole *)

Lemma resolve_timeout call v : Plan.timeout (Tokens.resolved_call (Tokens.resolve call v)) = Plan.timeout call.
Proof. unfold Tokens.resolve. destruct (Plan.step call); try done. by destruct (Tokens.fill_shell v _). Qed.
Lemma resolve_agent call v h p wt ba wa :
  Plan.step (Tokens.resolved_call (Tokens.resolve call v)) = Plan.Agent h p wt ba wa → ∃ h' p' wt' ba' wa', Plan.step call = Plan.Agent h' p' wt' ba' wa'.
Proof. unfold Tokens.resolve. destruct (Plan.step call); try done; [eauto 10|]. by destruct (Tokens.fill_shell v _). Qed.

Abbreviation OnPlan st := (Knows (walker st, None) None).

Lemma wp_carry_out win st n b call remaining w :
  Plan.expects (walker st) call = true → (∀ h p wt ba wa, Plan.step call = Plan.Agent h p wt ba wa → b = true) →
  Knows (walker st, None) (slot b) w →
  wp_run (carry_out win job st n b call remaining) (λ x, OnPlan x.1) w.
Proof.
  intros He Hb Hk. unfold carry_out. set (values := Tokens.MkValues _ _ _ _). set (limit := match Plan.timeout call with _ => _ end).
  apply wp_bind. eapply wp_run_quiet; [done|apply quiet_start_step|]. intros _ w1 _ Hk1.
  apply wp_bind. eapply (wp_note _ _ (walker st, Some (position_of st, Tokens.resolve call values))); [done|cbn; by rewrite He|]. intros [] w2 Hk2.
  apply wp_bind. eapply wp_mono; [|eapply wp_execute_step; [| |exact Hk2]].
  2: { rewrite resolve_timeout. subst limit. destruct (Plan.timeout call); [|done]. apply N.leb_le. lia. }
  2: { intros h p wt ba wa Ha. apply resolve_agent in Ha as (? & ? & ? & ? & ? & Ha). by eapply Hb. }
  intros [b' result] w3 Hk3. cbn [fst] in Hk3.
  apply wp_bind. assert (wp_run (if b' then release job else Ret tt)
    (λ _, Knows (walker st, Some (position_of st, Tokens.resolve call values)) None) w3) as Hrel.
  { destruct b'; [|done]. by eapply wp_release. }
  eapply wp_mono; [|exact Hrel]. intros [] w4 Hk4.
  apply wp_bind. eapply (wp_run_quiet _ (λ _, True)); [done|by apply quiet_ask|]. intros at_ w5 _ Hk5.
  apply wp_bind. eapply (wp_run_quiet _ (λ _, True)); [done|by apply quiet_exec; [calm_tac|]|]. intros _ w6 _ Hk6.
  apply wp_bind. eapply wp_note; [done|done|]. intros [] w7 Hk7.
  apply wp_bind. eapply (wp_run_quiet _ (λ _, True)); [done|by apply quiet_read|]. by intros stop w8 _ Hk8.
Qed.

Lemma wp_on_call win plan st call w : OnPlan st w → wp_run (on_call win settings job plan st call) (λ x, OnPlan x.1) w.
Proof.
  intros Hk. unfold on_call. apply wp_bind. eapply (wp_run_quiet _ (λ _, True)); [done|by apply quiet_read|].
  intros stop w1 _ Hk1. destruct stop; [done|]. apply wp_bind. eapply (wp_run_quiet _ (λ _, True)); [done|by apply quiet_ask|].
  intros [remaining|] w2 _ Hk2; [|done]. destruct (Plan.expects (walker st) call) eqn:He; cbn [negb]; [|done].
  destruct (Plan.step call) eqn:Es; [|apply wp_carry_out; [done|congruence|done]..].
  apply wp_bind. eapply wp_agent_cap; [done|done|]. intros w3 Hk3. by apply wp_carry_out.
Qed.

Lemma wp_run_calls win plan n handler st outcomes w :
  OnPlan st w → wp_run (run_calls n handler (on_call win settings job plan) st outcomes) (λ x, OnPlan x.1) w.
Proof.
  revert st outcomes w. induction n as [|n IH]; intros st outcomes w Hk; cbn [run_calls]; destruct (handler outcomes) as [call| |]; try done.
  apply wp_bind. eapply wp_mono; [|by apply wp_on_call]. intros [st' v] w' Hk'. cbn [fst] in Hk'.
  destruct v as [| |h]; [by apply IH| |done]. destruct (Plan.check call); [done|by apply IH].
Qed.

Lemma wp_execute win w :
  Knows (Plan.walker_new t, None) None w → wp_run (execute win settings job) (λ _ w', alive w' !! r = Some (path job)) w.
Proof.
  intros Hk. unfold execute. apply wp_try. eapply (wp_run_quiet _ (λ _, True)); [done|by apply quiet_exec|].
  intros [[]|e] w1 _ Hk1; [|apply Hk1]. pose proof planned_t as Hp. unfold planned in Hp. destruct (Plan.build (source job) STEPS) as [plan|e]; [|done].
  rewrite Hp. destruct (Plan.load (source job)) as [script|e]; [|apply Hk1].
  destruct (Plan.script_triggers script !! trigger job) as [tr|]; [|apply Hk1].
  apply wp_bind. eapply wp_mono; [|by apply wp_run_calls]. intros [st end_] w2 Hk2. cbn [fst] in Hk2.
  destruct end_ as [[|k|k h]|e]; try apply Hk2. apply wp_bind.
  assert (wp_run (if decide (h = HScriptTokens)
      then do _ := exec_sql (set_switch (path job) (MkSwitch true false (Some TokenBudget))) in Ret tt else Ret tt)
    (λ _, OnPlan st) w2) as Hsw.
  { case_decide; [|done]. apply wp_bind. eapply (wp_run_quiet _ (λ _, True)); [done|by apply quiet_exec; [calm_tac|]|done]. }
  eapply wp_mono; [|exact Hsw]. intros [] w3 Hk3. apply Hk3.
Qed.
End job.

(** ** Threads other than the main one *)

Lemma wp_send_done job ended w : alive w !! run job = Some (path job) → wp (TRun (run job)) (send_done job ended) (λ _ _, True) w.
Proof.
  intros Ha w1 i w2 x Hr Hi Hl [= <- <-]. split; [|done].
  assert (alive w1 !! run job = Some (path job)) as Ha1 by (destruct Hr as (new & _ & _ & _ & -> & _); done).
  assert (paths (with_done (done w1 ++ [(path job, run job, ended)]) (delete (run job) (alive w1)) w1) ≡ₚ paths w1) as Hp.
  { unfold paths. cbn. rewrite <-(map_to_list_delete (alive w1) (run job) (path job) Ha1). rewrite fmap_app. cbn. solve_Permutation. }
  split; [|split; [|by intros [| |k|n]]].
  - destruct Hi. split; cbn [store lock starting slots_lock done sampling events held counted alive with_done]; try done.
    + by rewrite Hp.
    + intros k [x Hx]. apply lookup_delete_Some in Hx as [_ Hx]. apply inv_alive0. by eexists.
    + intros Hf. destruct (inv_lock0 Hf) as [Hnil _]. exfalso. unfold paths in Hnil.
      apply app_nil in Hnil as [Hnil _]. apply fmap_nil_inv, map_to_list_empty_iff in Hnil. by rewrite Hnil in Ha1.
  - intros u Hu _. exists []. rewrite app_nil_r. split; [done|]. destruct u as [| |k|n]; [|by intros k Hlive| |done].
    + cbn. repeat split; try done; [set_solver|]. intros p. by rewrite Hp.
    + cbn. repeat split; try done. apply lookup_delete_ne. congruence.
Qed.

Lemma quiet_execute_unplanned win settings job :
  planned job = None → quietly (execute win settings job) (λ _, True).
Proof.
  intros Hp. unfold execute, planned in *. apply quiet_try, quiet_exec; [done|]. intros [[]|e]; [|done].
  destruct (Plan.build (source job) STEPS) as [plan|e]; [|done]. by rewrite Hp.
Qed.

Hypothesis M_small : (M ≤ u32_max)%N.

Lemma run_thread_ok job settings w :
  ready (SRun job settings) w → wp (TRun (run job)) (run_thread windows settings job) (λ _ _, True) w.
Proof.
  intros (Hst & Hd & Ha & Hh & Hl & Hm). apply wp_bind. destruct (planned job) as [t|] eqn:Ep.
  - eapply wp_mono; [|apply (wp_execute job t Ep settings Hm M_small)].
    + intros e w' Ha'. by apply wp_send_done.
    + split; try done. by rewrite Hd.
  - eapply (wp_quiet same same_all); [by apply quiet_execute_unplanned|]. intros e w' _ (new & _ & _ & _ & Ha' & _).
    apply wp_send_done. by rewrite Ha'.
Qed.

(** *** The sampler *)

Lemma wp_query {A} (f : Store → A) t (Q : res str A → World → Prop) w :
  (∀ e w', relies t w w' → Q (Err e) w') → (∀ w', relies t w w' → Inv w' → Q (Ok (f (store w'))) w') → wp t (query f) Q w.
Proof.
  intros HE HQ w1 i w2 x Hr Hi Hl. cbn. destruct (fails i).
  - intros [= <- <-]. split; [|by apply HE]. split; [done|]. split; [|done]. intros u _ _. reflexivity.
  - intros [= <- <-]. assert (with_store (const (store w1)) w1 = w1) as -> by (by destruct w1).
    split; [|by apply HQ]. split; [done|]. split; [|done]. intros u _ _. reflexivity.
Qed.

(** The rows the sampler goes through are live. *)
Definition watched (l : list AgentRow) (w : World) : Prop :=
  Forall (λ a, liveness (store w) !! (a_run a, a_position a) = Some true ∧ a_done_at a = None) l.

Lemma watched_relies l w w' : watched l w → relies TSampler w w' → watched l w'.
Proof. intros Hl (new & _ & Ho). eapply Forall_impl; [exact Hl|]. intros a [? ?]. split; [by apply Ho|done]. Qed.

Lemma with_slots_id w s : with_store s w = with_slots (starting w) (slots_lock w) (held w) (counted w) (with_store s w).
Proof. done. Qed.

Lemma liveness_update a s :
  liveness (update_agent a s) = alter (const (bool_decide (a_done_at a = None))) (a_run a, a_position a) (liveness s).
Proof.
  unfold liveness. apply map_eq. intros k. cbn. rewrite lookup_fmap. destruct (decide (k = (a_run a, a_position a))) as [->|Hne].
  - rewrite !lookup_alter_eq, lookup_fmap. by destruct (agents s !! _).
  - by rewrite !lookup_alter_ne, lookup_fmap by done.
Qed.

Lemma wp_update_agent a l w (Q : res str unit → World → Prop) :
  watched l w → liveness (store w) !! (a_run a, a_position a) = Some true →
  (∀ x w', (a_done_at a = None ∨ (a_run a, a_position a) ∉ (λ b, (a_run b, a_position b)) <$> l → watched l w') → Q x w') →
  wp TSampler (exec_sql (update_agent a)) Q w.
Proof.
  intros Hw Hlive HQ w1 i w2 x Hr Hi Hl. cbn. pose proof (watched_relies _ _ _ Hw Hr) as Hw1.
  assert (liveness (store w1) !! (a_run a, a_position a) = Some true) as Hlive1 by (destruct Hr as (new & _ & Ho); by apply Ho).
  destruct (fails i); intros [= <- <-].
  { split; [|by apply HQ]. split; [done|]. split; [|done]. intros u _ _. reflexivity. }
  assert (live_count (update_agent a (store w1)) ≤ live_count (store w1))%N as Hc.
  { unfold live_count. rewrite liveness_update, (true_count_split (liveness (store w1)) (a_run a, a_position a)), Hlive1, decide_True by done.
    rewrite (true_count_split (alter _ _ _) (a_run a, a_position a)).
    replace (delete (a_run a, a_position a) (alter (const (bool_decide (a_done_at a = None))) (a_run a, a_position a) (liveness (store w1))))
      with (delete (a_run a, a_position a) (liveness (store w1))); [case_decide; lia|].
    apply map_eq. intros k. destruct (decide (k = (a_run a, a_position a))) as [->|]; [by rewrite !lookup_delete_eq|].
    by rewrite !lookup_delete_ne, lookup_alter_ne by done. }
  change (with_store (const (update_agent a (store w1))) w1) with (with_slots (starting w1) (slots_lock w1) (held w1) (counted w1) (with_store (const (update_agent a (store w1))) w1)).
  split; [split; [apply slots_keeps|split]|apply HQ]; try done.
  - intros k b Hk. cbn in Hk. apply lookup_alter_Some in Hk as [(<- & c & Hc' & ->)|[_ Hk]]; [|by apply (inv_keyed _ Hi)].
    by apply (inv_keyed _ Hi) in Hc'.
  - apply Hi.
  - intros k Hk. by apply (inv_held _ Hi).
  - pose proof (inv_cap _ Hi). unfold reserved in *. cbn. lia.
  - intros m Hm. pose proof (inv_counted _ Hi m Hm). unfold reserved in *. cbn. lia.
  - intros u Hu _. exists []. rewrite app_nil_r. split; [done|]. destruct u as [| |k|n]; try done. cbn. repeat split; try done. set_solver.
  - intros Hd. unfold watched. cbn [store with_slots with_store const]. rewrite liveness_update. apply Forall_forall. intros b Hb.
    pose proof (proj1 (Forall_forall _ _) Hw1 b Hb) as [Hb1 Hb2]. split; [|done].
    destruct (decide ((a_run b, a_position b) = (a_run a, a_position a))) as [E|Hne]; [|by rewrite lookup_alter_ne].
    rewrite E, lookup_alter_eq, Hlive1. cbn. destruct Hd as [Hd|Hd]; [by rewrite bool_decide_true|].
    contradiction Hd. rewrite <-E. by apply (list_elem_of_fmap_2 (λ b, (a_run b, a_position b))).
Qed.

Lemma wp_sampler_quiet {A} (p : program A) P l Q w :
  watched l w → quietly p P → (∀ a w', P a → watched l w' → Q a w') → wp TSampler p Q w.
Proof.
  intros Hk Hq HQ. eapply (wp_quiet same same_all); [done|]. intros a w' Ha Hr. apply HQ; [done|]. by eapply watched_relies.
Qed.

Lemma calm_open_day run position day s : calm s (open_day run position day s).
Proof. unfold open_day. destruct (agents s !! _); [|done]. by destruct (agent_days s !! _). Qed.

Abbreviation keys l := ((λ b, (a_run b, a_position b)) <$> l).

Lemma wp_sample_all at_ day idle l w :
  watched l w → NoDup (keys l) → wp TSampler (sample_all at_ day idle l) (λ _ _, True) w.
Proof.
  revert idle w. induction l as [|a l IH]; intros idle w Hw Hn; cbn [sample_all]; [done|].
  apply NoDup_cons in Hn as [Hna Hn].
  apply wp_bind. eapply (wp_sampler_quiet _ (λ _, True)); [done|by apply quiet_ask|]. intros p w1 _ Hw1.
  set (row := MkAgentRow _ _ _ _ _ _ _ _ _ _ _ _). set (idle' := if _ || _ || _ then _ else _).
  apply wp_bind. eapply (wp_sampler_quiet _ (λ _, True)); [done|by apply quiet_exec; [intros; apply calm_open_day|]|].
  intros [[]|e] w2 _ Hw2; [|done]. apply Forall_cons in Hw2 as [[Ha _] Hw2].
  apply wp_bind. eapply (wp_update_agent row l); [done|done|]. intros [[]|e] w3 Hw3; [|done].
  apply IH; [|done]. apply Hw3. by right.
Qed.

Lemma live_agents_watched w : Inv w → watched (live_agents (store w)) w ∧ NoDup (keys (live_agents (store w))).
Proof.
  intros Hi. unfold watched, live_agents. split.
  - apply Forall_forall. intros a [Hlive Ha]%list_elem_of_filter. apply list_elem_of_fmap in Ha as ([k a'] & -> & Ha).
    apply elem_of_map_to_list in Ha. pose proof (inv_keyed _ Hi k a' Ha) as ->. split; [|done].
    unfold liveness. rewrite lookup_fmap. cbn in *. rewrite Ha. cbn. by rewrite bool_decide_true.
  - assert (∀ l : list (Z * N * AgentRow), (∀ k a, (k, a) ∈ l → k = (a_run a, a_position a)) → NoDup l.*1 →
      NoDup (keys (filter live l.*2))) as Hl; [|apply Hl; [|apply NoDup_fst_map_to_list]].
    + intros l. induction l as [|[k a] l IHl]; intros Hk Hn; [constructor|]. cbn [fmap list_fmap fst snd] in *. apply NoDup_cons in Hn as [Hna Hn].
      assert (NoDup (keys (filter live l.*2))) as IH' by (apply IHl; [|done]; intros k' a' ?; apply Hk; by right).
      rewrite filter_cons. case_decide; [|done]. cbn [fmap list_fmap]. apply NoDup_cons. split; [|done].
      rewrite <-(Hk k a) by left. contradict Hna. apply list_elem_of_fmap in Hna as (b & Eb & Hb).
      apply list_elem_of_filter in Hb as [_ Hb]. apply list_elem_of_fmap in Hb as ([k' b'] & -> & Hb). cbn in *.
      apply list_elem_of_fmap. exists (k', b'). split; [|done]. cbn. rewrite Eb. symmetry. apply Hk. by right.
    + intros k a Ha%elem_of_map_to_list. by apply (inv_keyed _ Hi).
Qed.

Lemma sampler_ok turns idle w : wp TSampler (sampler turns idle) (λ _ _, True) w.
Proof.
  revert idle w. induction turns as [|turns IH]; intros idle w; cbn [sampler]; [done|].
  apply wp_bind. eapply (wp_quiet same same_all _ _ (λ _, True)); [by apply quiet_ask|]. intros at_ w1 _ _.
  apply wp_bind. eapply (wp_quiet same same_all _ _ (λ _, True)); [by apply quiet_ask|]. intros day w2 _ _.
  apply wp_bind, wp_query.
  - intros e w3 _. apply wp_bind. cbn [wp]. apply wp_bind. eapply (wp_quiet same same_all _ _ (λ _, True)); [by apply quiet_read|].
    intros [] w4 _ _; [done|apply IH].
  - intros w3 _ Hi. destruct (live_agents_watched w3 Hi) as [Hw Hn].
    apply wp_bind, wp_bind. eapply wp_mono; [|by apply wp_sample_all]. intros [idle' res'] w4 _. cbn [wp fst].
    apply wp_bind. eapply (wp_quiet same same_all _ _ (λ _, True)); [by apply quiet_read|]. intros [] w5 _ _; [done|apply IH].
Qed.

(** *** Commands *)

(** An event that starts nothing and is of no run. *)
Lemma event_keeps t e s w :
  Inv w → job_of e = None → (∀ r, did_of r e = None) → (e = ETick → t = TMain) →
  (∀ p, approved_hash p s = latest p (events w ++ [e])) → runs s = runs (store w) → run_sequence s = run_sequence (store w) →
  agents s = agents (store w) → keeps t w (with_event e (with_store (const s) w)).
Proof.
  intros Hi Hj Hd Ht Ha Hr Hs Hg.
  assert (started (events w ++ [e]) = started (events w)) as Hst by (rewrite started_app; cbn; rewrite Hj; apply app_nil_r).
  assert (∀ r, did r (events w ++ [e]) = did r (events w)) as Hdid by (intros r; rewrite did_app; cbn; rewrite Hd; apply app_nil_r).
  assert (liveness s = liveness (store w)) as Hlv by (unfold liveness; by rewrite Hg).
  split; [|split].
  - destruct Hi. split; cbn [store lock starting slots_lock done sampling events held counted alive with_event with_store const];
      rewrite ?Hst, ?Hr, ?Hs; unfold live_count; rewrite ?Hlv; try done.
    + intros job Hjob. destruct (inv_started0 job Hjob) as (? & ? & ?). rewrite Hdid. split; [by apply authorised_app|done].
    + intros r. rewrite Hdid. apply inv_did0.
    + intros k a. rewrite Hg. apply inv_keyed0.
  - intros u Hu _. exists [e]. split; [done|].
    destruct u as [| |r|n]; cbn [others store lock starting slots_lock sampling held counted alive with_event with_store const]; rewrite ?Hr, ?Hs, ?Hlv; [|done| |done].
    + split; [set_solver|]. split; [unfold started; cbn; by rewrite Hj|]. done.
    + split; [unfold did; cbn; by rewrite Hd|]. done.
  - intros [| |r|n]; cbn [born protocol begun events with_event lock sampling with_store]; rewrite ?Hst; done.
Qed.

Lemma wp_approval n p hash by_ at_ Q w : (∀ x w', Q x w') → wp (TCommand n) (record_approval p hash by_ at_) Q w.
Proof.
  intros HQ w1 i w2 x Hr Hi Hl. cbn. destruct (fails i); intros [= <- <-]; (split; [|apply HQ]).
  { split; [done|]. split; [|done]. intros u _ _. reflexivity. }
  apply (event_keeps _ (EApprove p hash) (AutoStore.approve p hash by_ at_ (store w1))); try done.
  intros q. unfold approved_hash, AutoStore.approve, latest. cbn. rewrite omap_app. destruct (decide (p = q)) as [->|Hne].
  - rewrite lookup_insert_eq. cbn. rewrite decide_True by done. by rewrite last_snoc.
  - rewrite lookup_insert_ne by done. cbn. rewrite decide_False by done. rewrite app_nil_r. apply (inv_approvals _ Hi).
Qed.

Abbreviation wp_command n := (wp (TCommand n)).
Lemma wp_command_quiet {A} n (p : program A) P (Q : A → World → Prop) w :
  quietly p P → (∀ a w', P a → Q a w') → wp_command n p Q w.
Proof. intros Hq HQ. eapply (wp_quiet same same_all); [done|]. intros a w' Ha _. by apply HQ. Qed.

Lemma wp_approve n p mode pane w : wp_command n (approve p mode pane) (λ _ _, True) w.
Proof.
  unfold approve. apply wp_try. eapply wp_command_quiet; [apply quiet_locate|]. intros [repo|e] w1 _; [|done].
  apply wp_try. eapply (wp_command_quiet _ _ (λ _, True)); [by apply quiet_ask|]. intros [source|e] w2 _; [|done].
  apply wp_try. cbn [wp]. destruct (map_err plan_error_text (Plan.build source STEPS)) as [plan|e]; [|done].
  apply wp_bind. eapply wp_command_quiet; [apply quiet_fingerprint|]. intros fp w3 _.
  apply wp_try. eapply (wp_command_quiet _ _ (λ _, True)); [by quiet_go|]. intros [by_|e] w4 _; [|done].
  apply wp_bind. eapply (wp_command_quiet _ _ (λ _, True)); [by apply quiet_ask|]. intros at_ w5 _.
  apply wp_try, wp_approval. intros [[]|e] w6; [|done].
  eapply (wp_command_quiet _ _ (λ _, True)); [|done]. apply quiet_try, quiet_exec; [done|]. intros [[]|e]; [|done]. by apply quiet_exec.
Qed.

Lemma quiet_switch_then p (f : Switch → Switch) (b : bool) :
  quietly (let? _ := known p in let? sw := query (switch p) in let? _ := exec_sql (set_switch p (f sw)) in
           if b then Ret (Ok tt) else exec_sql (clear_cursors p)) (λ _, True).
Proof.
  apply quiet_try. eapply quiet_mono; [|apply quiet_known]. intros [[]|e] _; [|done].
  apply quiet_try, quiet_query. intros [sw|e]; [|done]. apply quiet_try, quiet_exec; [done|]. intros [[]|e]; [|done].
  destruct b; [done|by apply quiet_exec].
Qed.
Lemma quiet_paused p b : quietly (set_paused p b) (λ _, True).
Proof. apply (quiet_switch_then p (λ sw, MkSwitch b (disabled sw) (if b then Some ByYou else None))). Qed.
Lemma quiet_disabled p b : quietly (set_disabled p b) (λ _, True).
Proof. apply (quiet_switch_then p (λ sw, MkSwitch (paused sw) b (if b then Some ByYou else None))). Qed.

Lemma command_ok n c w : wp_command n (do _ := command c in Ret tt) (λ _ _, True) w.
Proof.
  apply wp_bind. destruct c as [p mode pane|p wanted|p|p| | |p|p|r|p|p|]; [by eapply wp_mono; [|apply wp_approve]|..];
    (eapply (wp_command_quiet _ _ (λ _, True)); [|done]); cbn [command].
  - apply quiet_try. eapply quiet_mono; [|apply quiet_known]. intros [[]|e] _; [|done].
    apply quiet_try, quiet_query. intros [[row|]|e]; [|done..]. apply quiet_try, quiet_query. intros [a|e]; [|done].
    destruct (negb _); [done|apply quiet_push].
  - apply quiet_paused.
  - apply quiet_paused.
  - by apply quiet_exec.
  - by apply quiet_exec.
  - apply quiet_disabled.
  - apply quiet_disabled.
  - apply quiet_try, quiet_query. intros [[row|]|e]; [|done..]. destruct (bool_decide _); [apply quiet_push|done].
  - apply quiet_then, quiet_ask. intros i _. destruct (flag i); [|done]. apply quiet_then, quiet_ask. intros j _.
    apply quiet_try, quiet_sql; [|by intros [|]]. intros s. unfold add_repo. by destruct (repos s !! p).
  - apply quiet_try, quiet_sql; [done|]. by intros [|].
  - apply quiet_then, quiet_read. intros []; [apply quiet_push|done].
Qed.

(** ** The main thread *)

(** It knows every script with a run going on, its cap, and that it has the lock. *)
Record Main (d : Daemon) (w : World) : Prop := {
  main_live p : p ∈ paths w → is_Some (live_runs d !! p);
  main_cap : (max_agents (settings d) ≤ M)%N;
  main_lock : lock w = true;
}.
Abbreviation wp_main := (wp TMain).

Lemma main_relies d w w' : Main d w → relies TMain w w' → Main d w'.
Proof. intros [] (new & _ & _ & _ & Hp & _ & _ & _ & Hl). split; [|done|congruence]. intros p Hin. by apply main_live0, Hp. Qed.

Lemma main_same d d' w : settings d' = settings d → live_runs d' = live_runs d → Main d w → Main d' w.
Proof. intros Hs Hl []. split; [by rewrite Hl|by rewrite Hs|done]. Qed.

Lemma wp_main_quiet {A} (p : program A) P d Q w :
  Main d w → quietly p P → (∀ a w', P a → Main d w' → Q a w') → wp_main p Q w.
Proof.
  intros Hk Hq HQ. eapply (wp_quiet same same_all); [done|]. intros a w' Ha Hr. apply HQ; [done|]. by eapply main_relies.
Qed.

(** *** Starting a run *)

(** The approval that was looked at, in this turn. *)
Definition Approved (p hash : str) (w : World) : Prop :=
  ∃ before between, events w = before ++ between ∧ ETick ∉ between ∧ latest p before = Some hash.

Lemma approved_relies p hash w w' : Approved p hash w → relies TMain w w' → Approved p hash w'.
Proof.
  intros (b & m & E & Hm & Hl) (new & He & Ht & _). exists b, (m ++ new). rewrite He, E, app_assoc. split; [done|]. split; [|done].
  rewrite elem_of_app. tauto.
Qed.

(** The row of a run that is not started yet. *)
Definition Recorded (id : Z) (p : str) (index : nat) (hash : str) (w : World) : Prop :=
  id ∉ run <$> started (events w)
  ∧ ∃ row, row ∈ runs (store w) ∧ r_id row = id ∧ r_path row = p ∧ r_trigger row = index ∧ r_hash row = hash.

Lemma recorded_relies id p index hash w w' : Recorded id p index hash w → relies TMain w w' → Recorded id p index hash w'.
Proof.
  intros [Hn (row & Hrow & E1 & E2 & E3 & E4)] (new & He & _ & Hs & _ & Hk & _). split.
  - by rewrite He, started_app, Hs, app_nil_r.
  - destruct (key_row _ _ row Hk Hrow) as (row' & ? & [= K1 K2 K3 K4 K5]). exists row'. by rewrite K1, K2, K3, K5.
Qed.

(** Recording a run adds a row with a new id, for a firing that had none. *)
Lemma start_run_keeps n w s id :
  Inv w → start_run n (store w) = (s, Some id) →
  keeps TMain w (with_store (const s) w) ∧ Recorded id (n_path n) (n_trigger n) (n_hash n) (with_store (const s) w).
Proof.
  intros Hi. unfold start_run. destruct (existsb _ _) eqn:Ex; [done|]. intros [= <- <-].
  assert (∀ job, job ∈ started (events w) → run job ≤ run_sequence (store w)) as Hold.
  { intros job Hj. destruct (inv_started _ Hi job Hj) as (_ & _ & row & Hrow & <- & _).
    by apply (proj1 (Forall_forall _ _) (proj2 (inv_ids _ Hi))). }
  split; [split; [|split]|].
  - destruct Hi. split; cbn [store lock starting slots_lock done sampling events held counted alive with_store const runs run_sequence]; try done.
    + intros job Hj. destruct (inv_started0 job Hj) as (? & ? & row & Hrow & ?). split; [done|]. split; [done|]. exists row.
      split; [|done]. rewrite elem_of_app. by left.
    + destruct inv_ids0 as [Hn Hle]. rewrite fmap_app. split.
      * apply NoDup_app. split; [done|]. split; [|apply NoDup_singleton]. intros k Hk ->%list_elem_of_singleton.
        apply list_elem_of_fmap in Hk as (row & E & Hrow). apply (proj1 (Forall_forall _ _) Hle) in Hrow. cbn in E. lia.
      * apply Forall_app. split; [|by constructor; [cbn; lia|]]. eapply Forall_impl; [exact Hle|]. cbn. lia.
    + rewrite omap_app. apply NoDup_app. split; [done|]. cbn [omap list_omap]. destruct (firing (MkRunRow _ _ _ _ _ _ _ _ _ _ _ _ _)) as [k|] eqn:Ef.
      * split; [|apply NoDup_singleton]. intros k' Hk ->%list_elem_of_singleton. apply list_elem_of_omap in Hk as (row & Hrow & E).
        enough (existsb (same_firing n) (runs (store w)) = true) by congruence. apply existsb_exists. exists row.
        split; [by apply list_elem_of_In|]. unfold firing in *. unfold same_firing. cbn in Ef. destruct (r_scheduled row) as [y|]; [|done].
        destruct (n_scheduled n) as [z|]; [|done]. cbn in *. simplify_eq. rewrite !bool_decide_true by done. apply Z.eqb_refl.
      * split; [by intros ? _ ?%not_elem_of_nil|apply NoDup_nil_2].
  - intros u Hu _. exists []. rewrite app_nil_r. split; [done|]. destruct u as [| |k|m]; [done|by intros k Hk|by repeat split|done].
  - by intros [| |k|m].
  - split; cbn [store with_store const runs events].
    + intros (job & E & Hj)%list_elem_of_fmap. specialize (Hold job Hj). lia.
    + eexists. rewrite elem_of_app. split; [right; by apply list_elem_of_singleton|done].
Qed.

Lemma wp_start_run d n w (Q : res str (option Z) → World → Prop) :
  Main d w → Approved (n_path n) (n_hash n) w → (∀ w', Main d w' → Q (Ok None) w') → (∀ e w', Main d w' → Q (Err e) w') →
  (∀ id w', Main d w' → Approved (n_path n) (n_hash n) w' → Recorded id (n_path n) (n_trigger n) (n_hash n) w' → Q (Ok (Some id)) w') →
  wp_main (sql (start_run n)) Q w.
Proof.
  intros Hk Ha HN HE HQ w1 i w2 x Hr Hi Hl. cbn. pose proof (main_relies _ _ _ Hk Hr) as Hk1.
  destruct (fails i).
  { intros [= <- <-]. split; [|by apply HE]. split; [done|]. split; [|done]. intros u _ _. reflexivity. }
  destruct (start_run n (store w1)) as [s [id|]] eqn:Es; intros [= <- <-].
  - destruct (start_run_keeps n w1 s id Hi Es) as [Hkeep Hrec]. split; [done|]. apply HQ; [|exact (approved_relies _ _ _ _ Ha Hr)|done].
    destruct Hk1. by split.
  - assert (s = store w1) as ->. { unfold start_run in Es. destruct (existsb _ _); [congruence|done]. }
    assert (with_store (const (store w1)) w1 = w1) as -> by (by destruct w1).
    split; [|by apply HN]. split; [done|]. split; [|done]. intros u _ _. reflexivity.
Qed.

Lemma job_started l job : started (l ++ [EStart job]) = started l ++ [job].
Proof. by rewrite started_app. Qed.

(** Letting the run go adds it to the history, and nothing of it is there yet. *)
Lemma fork_keeps d job settings w :
  Inv w → Main d w → (max_agents settings ≤ M)%N → live_runs d !! path job = None →
  Approved (path job) (job_hash job) w → Recorded (run job) (path job) (trigger job) (job_hash job) w →
  let w' := forked (SRun job settings) w in
  keeps TMain w w' ∧ ¬ begun (TRun (run job)) w ∧ begun (TRun (run job)) w' ∧ ready (SRun job settings) w'
  ∧ Main (MkDaemon (AutoDaemon.settings d) (loaded d) (<[path job := run job]> (live_runs d))) w'.
Proof.
  intros Hi Hm Hcap Hfree (before & between & Ee & Htick & Hlatest) [Hfresh Hrow] w'. cbn [forked spawns] in w'. subst w'.
  set (w' := forked_world (SRun job settings) w).
  assert (did (run job) (events w) = []) as Hdid.
  { destruct (did (run job) (events w)) eqn:E; [done|]. contradiction Hfresh. apply (inv_did _ Hi). by rewrite E. }
  assert (alive w !! run job = None) as Halive.
  { destruct (alive w !! run job) eqn:E; [|done]. contradiction Hfresh. apply (inv_alive _ Hi). by eexists. }
  assert (paths w' ≡ₚ path job :: paths w) as Hp.
  { unfold paths. cbn. by rewrite map_to_list_insert by done. }
  assert (path job ∉ paths w) as Hnew by (intros [? Hin]%(main_live _ _ Hm); congruence).
  assert (∀ r, did r (events w ++ [EStart job]) = did r (events w)) as Hd by (intros r; rewrite did_app; apply app_nil_r).
  assert (∀ r, r ∈ run <$> started (events w) → r ∈ run <$> started (events w ++ [EStart job])) as Hmono.
  { intros r Hr. rewrite job_started, fmap_app, elem_of_app. by left. }
  split; [split; [|split]|split; [|split; [|split]]].
  - destruct Hi. split; unfold w'; cbn [store lock starting slots_lock done sampling events held counted alive with_done with_event forked_world]; try done.
    + intros p. by rewrite latest_note.
    + intros job'. rewrite Hd, job_started, elem_of_app, list_elem_of_singleton. intros [Hj| ->].
      * destruct (inv_started0 job' Hj) as (? & ? & ?). split; [by apply authorised_app|done].
      * split; [exists before, between, []; by rewrite Ee, <-app_assoc|]. split; [|done].
        rewrite Hdid. unfold follows. destruct (planned job); [by eexists|done].
    + rewrite job_started, fmap_app. apply NoDup_app. split; [done|]. split; [|apply NoDup_singleton].
      by intros r Hr ->%list_elem_of_singleton.
    + intros r. rewrite Hd. intros Hr. by apply Hmono, inv_did0.
    + change (NoDup (paths w')). rewrite Hp. by constructor.
    + intros r [x Hx]. destruct (decide (r = run job)) as [->|Hne].
      * rewrite job_started, fmap_app, elem_of_app. right. by left.
      * rewrite lookup_insert_ne in Hx by done. apply Hmono, inv_alive0. by eexists.
    + rewrite (main_lock _ _ Hm). done.
    + intros r Hr. by apply Hmono, inv_held0.
  - intros u Hu Hb. exists [EStart job]. split; [done|]. destruct u as [| |r|m]; [done|by intros k Hk| |done]. cbn.
    split; [done|]. split; [done|]. split; [|done]. apply lookup_insert_ne. intros <-. by apply Hfresh, Hb.
  - intros [| |r|m]; cbn; try done. intros [? ?]. split; [by apply Hmono|done].
  - by intros [Hr _].
  - split; [|apply Hm]. unfold w'. cbn [events forked_world with_done with_event]. rewrite job_started, fmap_app, elem_of_app. right. by left.
  - unfold w'. cbn [ready events forked_world with_done with_event alive held slots_lock]. rewrite Hd, job_started.
    split; [set_solver|]. split; [done|]. split; [apply lookup_insert_eq|]. split; [|split; [|done]].
    + destruct (held w !! run job) eqn:E; [|done]. contradiction Hfresh. apply (inv_held _ Hi). left. by eexists.
    + intros E. contradiction Hfresh. apply (inv_held _ Hi). by right.
  - split; [|apply Hm|apply Hm]. intros p. rewrite Hp, elem_of_cons. cbn. intros [->|Hin]; [rewrite lookup_insert_eq; by eexists|].
    destruct (decide (p = path job)) as [->|Hne]; [rewrite lookup_insert_eq; by eexists|]. rewrite lookup_insert_ne by done. by apply Hm.
Qed.

Lemma fingerprint_worktree source w : worktree (fingerprint source w) = w.
Proof. by destruct w. Qed.

Lemma wp_start d p index reason scheduled w : Main d w → wp_main (start d p index reason scheduled) (λ d', Main d') w.
Proof.
  intros Hk. unfold start. destruct (loaded d !! p) as [script|]; [|done]. destruct (live_runs d !! p) eqn:Ef; [done|].
  apply wp_bind. eapply wp_main_quiet; [done|apply quiet_fingerprint|]. intros fp w1 [wt Hfp] Hk1.
  apply wp_bind, wp_query; [intros e w2 Hr; by eapply main_relies|]. intros w2 Hr Hi. pose proof (main_relies _ _ _ Hk1 Hr) as Hk2.
  destruct (bool_decide _) eqn:Ea; cbn [negb]; [|done]. apply bool_decide_eq_true in Ea. cbn [ok] in Ea. injection Ea as Ea.
  assert (Approved p (fp_hash fp) w2) as Happ.
  { exists (events w2), []. rewrite app_nil_r, <-(inv_approvals _ Hi). repeat split; [set_solver|done]. }
  destruct (Plan.plan_triggers (l_plan script) !! index) as [t|]; [|done].
  apply wp_bind. eapply (wp_quiet same same_all _ _ (λ _, True)); [by apply quiet_ask|]. intros at_ w3 _ Hr3. cbv zeta.
  apply wp_bind. eapply (wp_quiet same same_all _ _ (λ _, True)); [by apply quiet_ask|]. intros at' w4 _ Hr4.
  assert (relies TMain w2 w4) as Hr24 by (by etrans). clear Hr3 Hr4 w3.
  apply wp_bind. eapply wp_start_run; [by eapply main_relies|by eapply approved_relies|done|done|].
  intros id w5 Hk5 Ha5 Hrec. cbn [n_path n_trigger n_hash] in *. apply wp_bind.
  intros w6 Hr6 Hi6. set (job := MkJob _ _ _ _ _ _ _ _).
  assert (job_hash job = fp_hash fp) as Ehash by (unfold job_hash, job; cbn; by rewrite Hfp, fingerprint_worktree).
  destruct (fork_keeps d job (settings d) w6) as (H1 & H2 & H3 & H4 & H5); rewrite ?Ehash; try done.
  - by eapply main_relies.
  - apply Hk5.
  - by eapply approved_relies.
  - by eapply recorded_relies.
Qed.

Lemma wp_start_all d p dues w : Main d w → wp_main (start_all d p dues) (λ d', Main d') w.
Proof.
  revert d w. induction dues as [|[[index reason] z] dues IH]; intros d w Hk; cbn [start_all]; [done|].
  apply wp_bind. eapply wp_mono; [|by apply wp_start]. intros d' w' Hk'. by apply IH.
Qed.

Lemma wp_schedule d p all at_ w :
  Main d w → wp_main (schedule d p all at_) (λ r w', match r with Ok d' => Main d' w' | Err _ => Main d w' end) w.
Proof.
  intros Hk. unfold schedule. destruct (loaded d !! p) as [script|]; [|done].
  apply wp_try. eapply (wp_main_quiet _ (λ _, True)); [done|by apply quiet_query|]. intros [sw|e] w1 _ Hk1; [|done].
  apply wp_try. eapply (wp_main_quiet _ (λ _, True)); [done|by apply quiet_query|]. intros [a|e] w2 _ Hk2; [|done].
  apply wp_try. eapply wp_main_quiet; [done|apply quiet_check|]. intros [[ss dues]|e] w3 _ Hk3; [|done].
  apply wp_try. eapply (wp_main_quiet _ (λ _, True)); [done|by apply quiet_exec|]. intros [[]|e] w4 _ Hk4; [|done].
  apply wp_bind. eapply wp_mono; [|by apply wp_start_all]. done.
Qed.

Lemma wp_schedule_all d ps all at_ w : Main d w → wp_main (schedule_all d ps all at_) (λ x, Main x.1) w.
Proof.
  revert d w. induction ps as [|p ps IH]; intros d w Hk; cbn [schedule_all]; [done|].
  apply wp_bind. eapply wp_mono; [|by apply wp_schedule]. intros [d'|e] w' Hk'; [by apply IH|done].
Qed.

Lemma quiet_ask_stop r : quietly (ask_stop r) (λ _, True).
Proof. intros i w w' x _ [= <- <-]. by repeat split. Qed.

Lemma wp_handle_all d l w : Main d w → wp_main (handle_all d l) (λ x, Main x.1) w.
Proof.
  revert d w. induction l as [|q l IH]; intros d w Hk; cbn [handle_all]; [done|]. destruct (kind q) as [p wanted|r|].
  - destruct (_ ≫= _) as [index|]; [|by apply IH]. apply wp_bind. eapply wp_mono; [|by apply wp_start]. intros d' w' Hk'. by apply IH.
  - destruct (existsb _ _); [|by apply IH]. apply wp_bind. eapply wp_main_quiet; [done|apply quiet_ask_stop|]. intros [] w' _ Hk'. by apply IH.
  - done.
Qed.

Lemma wp_refresh d at_ w :
  Main d w → wp_main (refresh at_ d) (λ r w', match r with Ok d' => Main d' w' | Err _ => Main d w' end) w.
Proof.
  intros Hk. eapply wp_main_quiet; [done|apply quiet_refresh|]. intros [d'|e] w' Hd Hk'; [|done]. destruct Hd. by eapply main_same.
Qed.

Lemma wp_handle d at_ w :
  Main d w → wp_main (handle_requests d at_) (λ r w', match r with Ok x => Main x.1 w' | Err _ => Main d w' end) w.
Proof.
  intros Hk. unfold handle_requests.
  apply wp_try. eapply (wp_main_quiet _ (λ _, True)); [done|by apply quiet_sql|]. intros [l|e] w1 _ Hk1; [|done].
  apply wp_try. eapply (wp_main_quiet _ (λ _, True)); [done|by apply quiet_exec|]. intros [[]|e] w2 _ Hk2; [|done].
  apply wp_try. assert (wp_main (if existsb is_run_now l then refresh at_ d else Ret (Ok d))
    (λ r w', match r with Ok d' => Main d' w' | Err _ => Main d w' end) w2) as Hr by (destruct (existsb _ _); [by apply wp_refresh|done]).
  eapply wp_mono; [|exact Hr]. intros [d'|e] w3 Hk3; [|done].
  apply wp_bind. eapply wp_mono; [|by apply wp_handle_all]. done.
Qed.

(** *** Endings *)

Lemma wp_receive d w (Q : option (str * Z * res str Ended) → World → Prop) :
  Main d w → (∀ w', Main d w' → Q None w') →
  (∀ p r e w', Main (MkDaemon (settings d) (loaded d) (delete p (live_runs d))) w' → Q (Some (p, r, e)) w') → wp_main receive Q w.
Proof.
  intros Hk HN HQ w1 i w2 x Hr Hi Hl. cbn. pose proof (main_relies _ _ _ Hk Hr) as Hk1.
  destruct (done w1) as [|[[p r] e] rest] eqn:Ed; intros [= <- <-].
  { split; [|by apply HN]. split; [done|]. split; [|done]. intros u _ _. reflexivity. }
  assert (paths w1 ≡ₚ p :: paths (with_done rest (alive w1) w1)) as Hp.
  { unfold paths. rewrite Ed. cbn. solve_Permutation. }
  pose proof (inv_paths _ Hi) as Hnd. rewrite Hp in Hnd. apply NoDup_cons in Hnd as [Hnp Hnd].
  split; [split; [|split]|apply HQ].
  - destruct Hi. split; try done. intros Hf. destruct (inv_lock0 Hf) as [Hnil _]. exfalso. rewrite Hnil in Hp. by apply Permutation_nil_cons in Hp.
  - intros u Hu _. exists []. rewrite app_nil_r. split; [done|]. destruct u as [| |k|m]; [done|by intros k Hlive|by repeat split|done].
  - by intros [| |k|m].
  - split; [|apply Hk1|apply Hk1]. intros q Hq. cbn. assert (q ≠ p) by (intros ->; done).
    rewrite lookup_delete_ne by done. apply Hk1. rewrite Hp. by right.
Qed.

Lemma wp_drain fuel d w : Main d w → wp_main (drain fuel d) (λ x, Main x.1) w.
Proof.
  revert d w. induction fuel as [|fuel IH]; intros d w Hk; cbn [drain]; [done|].
  apply wp_bind. eapply wp_receive; [done|done|]. intros p r e w' Hk'.
  apply wp_bind. eapply wp_main_quiet; [done|apply quiet_finish|]. intros [[]|x] w'' _ Hk''; [by apply IH|done].
Qed.

(** *** The loop *)

Lemma wp_tick d started' at_ w (Q : res str unit → World → Prop) :
  Main d w → (∀ x w', Main d w' → Q x w') → wp_main (tick started' at_) Q w.
Proof.
  intros Hk HQ w1 i w2 x Hr Hi Hl. cbn. pose proof (main_relies _ _ _ Hk Hr) as Hk1. destruct (fails i); intros [= <- <-].
  { split; [|by apply HQ]. split; [done|]. split; [|done]. intros u _ _. reflexivity. }
  split; [|apply HQ; by destruct Hk1].
  apply (event_keeps _ ETick (beat (process_id i) started' at_ (store w1))); try done.
  intros p. rewrite latest_note by done. apply (inv_approvals _ Hi).
Qed.

Lemma wp_reread d w : Main d w → wp_main (reread d) (λ d' w', Main d' w' ∧ live_runs d' = live_runs d) w.
Proof.
  intros Hk. apply wp_bind. eapply (wp_main_quiet _ (λ f, match settings_read f with Some s => (max_agents s ≤ M)%N | None => True end)); [done|by apply quiet_ask|].
  intros f w' Hf Hk'. cbn [wp]. destruct (settings_read f) as [s|]; [|done]. destruct Hk'. by repeat split.
Qed.

Lemma wp_serve_loop turns started' next d w : Main d w → wp_main (serve_loop turns started' next d) (λ x, Main x.1) w.
Proof.
  revert next d w. induction turns as [|turns IH]; intros next d w Hk; cbn [serve_loop]; [done|].
  apply wp_bind. eapply (wp_main_quiet _ (λ _, True)); [done|by apply quiet_ask|]. intros at_ w1 _ Hk1.
  apply wp_bind. eapply wp_tick; [done|]. intros [[]|e] w2 Hk2; [|done].
  apply wp_bind.
  assert (wp_main (if next <=? at_ then do d := reread d in refresh at_ d else Ret (Ok d))
    (λ r w', match r with Ok d' => Main d' w' | Err _ => Main d w' end) w2) as Hscan.
  { destruct (next <=? at_); [|done]. apply wp_bind. eapply wp_mono; [|by apply wp_reread].
    intros d1 w' [Hk' El]. eapply wp_mono; [|by apply wp_refresh]. intros [d2|e] w'' Hk''; [done|].
    split; [|apply Hk|apply Hk'']. rewrite <-El. apply Hk''. }
  eapply wp_mono; [|exact Hscan]. intros [d'|e] w3 Hk3; [|done]. clear d Hk Hk1 Hk2 Hscan.
  apply wp_bind. eapply wp_mono; [|by apply wp_handle]. intros [[d b]|e] w4 Hk4; [|done]. destruct b; [done|]. cbn [fst] in Hk4.
  apply wp_bind. eapply (wp_main_quiet _ (λ _, True)); [done|by apply quiet_query|]. intros [all|e] w5 _ Hk5; [|done].
  apply wp_bind. eapply wp_mono; [|by apply wp_schedule_all]. intros [d2 [[]|e]] w6 Hk6; [|done].
  apply wp_bind. eapply wp_mono; [|by apply wp_drain]. intros [d3 [[]|e]] w7 Hk7; [|done]. by apply IH.
Qed.

Lemma wp_wait_runs turns d w : Main d w → wp_main (wait_runs turns d) (λ _ _, True) w.
Proof.
  revert d w. induction turns as [|turns IH]; intros d w Hk; cbn [wait_runs]; [done|]. destruct (bool_decide _); [done|].
  apply wp_bind. eapply (wp_main_quiet _ (λ _, True)); [done|by apply quiet_ask|]. intros [] w1 _ Hk1; [done|].
  apply wp_bind. eapply wp_mono; [|by apply wp_drain]. intros [d' [[]|e]] w2 Hk2; [by apply IH|done].
Qed.

Lemma quiet_stop_all rs : quietly (stop_all rs) (λ _, True).
Proof.
  induction rs as [|r rs IH]; cbn [stop_all]; [done|]. apply quiet_then. eapply quiet_mono; [|apply quiet_ask_stop]. by intros [] _.
Qed.

Lemma wp_shut_down turns d w : Main d w → wp_main (shut_down turns d) (λ _ _, True) w.
Proof.
  intros Hk. apply wp_bind. eapply wp_main_quiet; [done|apply quiet_stop_all|]. intros [] w' _ Hk'. by apply wp_wait_runs.
Qed.

(** Before the sampler starts. *)
Definition Fresh (w : World) : Prop := paths w = [] ∧ sampling w = false ∧ lock w = true.

Lemma fresh_relies w w' : Fresh w → relies TMain w w' → Fresh w'.
Proof.
  intros (Hp & Hs & Hl) (new & _ & _ & _ & Hsub & _ & _ & Hs' & Hl'). split; [|split; congruence].
  rewrite Hp in Hsub. destruct (paths w') as [|p l]; [done|]. by specialize (Hsub p ltac:(by left)) as ?%not_elem_of_nil.
Qed.

Lemma wp_fresh_quiet {A} (p : program A) P Q w :
  Fresh w → quietly p P → (∀ a w', P a → Fresh w' → Q a w') → wp_main p Q w.
Proof.
  intros Hk Hq HQ. eapply (wp_quiet same same_all); [done|]. intros a w' Ha Hr. apply HQ; [done|]. by eapply fresh_relies.
Qed.

Lemma wp_fork_sampler turns (Q : unit → World → Prop) w :
  Fresh w → (∀ w', paths w' = [] → lock w' = true → Q tt w') → wp_main (fork (SSampler turns)) Q w.
Proof.
  intros Hf HQ w1 Hr Hi. destruct (fresh_relies _ _ Hf Hr) as (Hp & Hs & Hl). cbn [forked spawns forked_world tid].
  split; [split; [|split]|split; [|split; [|split; [|split; [|by apply HQ]]]]]; try done.
  - destruct Hi. split; try done. cbn. by rewrite Hl.
  - intros u Hu _. exists []. rewrite app_nil_r. split; [done|]. destruct u as [| |k|m]; [done|by intros k Hlive|by repeat split|done].
  - intros [| |k|m]; cbn; try done.
  - cbn. intros [? ?]. congruence.
Qed.

Lemma serve_ok turns w : Fresh w → wp_main (serve turns) (λ _ _, True) w.
Proof.
  intros Hf. unfold serve. apply wp_bind.
  apply wp_try. eapply (wp_fresh_quiet _ (λ _, True)); [done|by apply quiet_exec|]. intros [[]|e] w1 _ Hf1; [|done].
  apply wp_bind. eapply (wp_fresh_quiet _ (λ _, True)); [done|by apply quiet_ask|]. intros at_ w2 _ Hf2.
  apply wp_try. eapply (wp_fresh_quiet _ (λ _, True)); [done|by apply quiet_exec|]. intros [[]|e] w3 _ Hf3; [|done].
  apply wp_try. eapply (wp_fresh_quiet _ (λ _, True)); [done|apply quiet_sql; [|done]|].
  { intros s. by apply calm_runs. }
  intros [n|e] w4 _ Hf4; [|done].
  apply wp_bind. eapply (wp_fresh_quiet _ (λ f, match settings_read f with Some s => (max_agents s ≤ M)%N | None => True end)); [done|by apply quiet_ask|].
  intros f w5 Hcap Hf5. destruct (settings_read f) as [s|]; [|done].
  apply wp_bind. eapply wp_fork_sampler; [done|]. intros w6 Hp Hl.
  apply wp_bind. eapply wp_mono; [|apply wp_serve_loop]. 2: { split; [by rewrite Hp; intros p ?%not_elem_of_nil|done|done]. }
  intros [d r] w7 Hk7. cbn [fst] in *. apply wp_try. eapply wp_mono; [|by apply wp_shut_down]. intros [[]|e] w8 _; [|done].
  eapply (wp_quiet same same_all _ _ (λ _, True)); [|done].
  apply quiet_then. intros i w' w'' x _ [= <- <-]. split; [by repeat split|]. cbn [quiet].
  apply quiet_try, quiet_exec; [done|]. by intros [[]|e].
Qed.

(** ** Every state that can be reached *)

Lemma bodies_ok j w : pre j w → wp (tid j) (body j) (λ _ _, True) w.
Proof. destruct j as [job settings|turns]; [exact (run_thread_ok job settings w)|intros _; exact (sampler_ok turns ∅ w)]. Qed.

Lemma exited_ok c : pool_ok c → pool_ok (exit_process c).
Proof.
  intros [Hi Hp]. split.
  - destruct Hi. split; try done; cbn [alive held slots_lock store exited world exit_process].
    + apply NoDup_nil_2.
    + intros r [x Hx]. by rewrite lookup_empty in Hx.
    + intros r [[x Hx]|?]; [by rewrite lookup_empty in Hx|done].
    + unfold reserved in *. cbn [held exited]. rewrite fmap_empty. change (true_count ∅) with 0%N. lia.
  - intros t p. cbn. intros [Ht Hc]%map_lookup_filter_Some. destruct (Hp t p Ht) as [_ Hw]. destruct t; try done. split; [done|].
    eapply wp_rely; [|exact Hw]. exists []. by rewrite app_nil_r.
Qed.

Lemma step_ok l c c' : (∀ t i, l = LStep t i → permits i) → pool_ok c → step l c = Some c' → pool_ok c'.
Proof.
  intros Hl Hc. destruct l as [t i|turns| |n cmd]; cbn [step].
  - intros Hs. assert (thread_step t i c = Some c' ∨ c' = exit_process c) as [Hs'| ->].
    { destruct t; [|by left..]. destruct (pool c !! TMain) as [[]|]; [|by left..]. right. congruence. }
    + eapply (step_safe bodies_ok); [done| |done]. by eapply Hl.
    + by apply exited_ok.
  - destruct (lock (world c)) eqn:El; intros [= <-]; [done|]. destruct Hc as [Hi Hp].
    destruct (inv_lock _ Hi El) as [Hpaths Hsamp]. split.
    + destruct Hi. by split.
    + intros t p. cbn. destruct (decide (t = TMain)) as [->|Hne].
      * rewrite lookup_insert_eq. intros [= <-]. split; [done|]. by apply serve_ok.
      * rewrite lookup_insert_ne by done. intros Ht. destruct (Hp t p Ht) as [Hb Hw].
        destruct t; [done|by destruct Hb; congruence|by destruct Hb; congruence|]. split; [done|].
        eapply wp_rely; [|exact Hw]. exists []. by rewrite app_nil_r.
  - intros [= <-]. by apply exited_ok.
  - destruct (pool c !! TCommand n); [done|]. intros [= <-]. destruct Hc as [Hi Hp]. split; [done|]. intros t p. cbn.
    destruct (decide (t = TCommand n)) as [->|Hne]; [|by rewrite lookup_insert_ne by done; apply Hp].
    rewrite lookup_insert_eq. intros [= <-]. split; [done|]. apply command_ok.
Qed.

Lemma initial_ok : pool_ok initial.
Proof.
  split; [|intros t p Ht; cbn in Ht; by rewrite lookup_empty in Ht]. split; try done; cbn [world initial store events alive held slots_lock].
  - intros job Hj. by apply not_elem_of_nil in Hj.
  - apply NoDup_nil_2.
  - split; [apply NoDup_nil_2|done].
  - apply NoDup_nil_2.
  - apply NoDup_nil_2.
  - intros r [x Hx]. by rewrite lookup_empty in Hx.
  - intros r [[x Hx]|?]; [by rewrite lookup_empty in Hx|done].
  - vm_compute. by destruct M.
Qed.

Lemma reachable_ok ls c :
  (∀ t i, LStep t i ∈ ls → permits i) → steps_of ls initial = Some c → pool_ok c.
Proof.
  intros Hl. enough (∀ c0, pool_ok c0 → steps_of ls c0 = Some c → pool_ok c) by (intros; eauto using initial_ok).
  induction ls as [|l ls IH]; intros c0 Hc0; cbn; [by intros [= <-]|].
  destruct (step l c0) as [c1|] eqn:Es; cbn; [|done]. apply IH; [intros t i Ht; apply (Hl t i); by right|].
  eapply step_ok; [|done|done]. intros t i ->. apply (Hl t i). by left.
Qed.

(** ** Lists and maps without repetitions *)

Lemma omap_NoDup_eq {A B} (f : A → option B) (l : list A) : NoDup (omap f l) →
  ∀ i j x y k, l !! i = Some x → l !! j = Some y → f x = Some k → f y = Some k → i = j.
Proof.
  induction l as [|a l IH]; intros Hn i j x y k Hi Hj Hx Hy; [done|].
  assert (∀ n z, l !! n = Some z → f z = Some k → f a = Some k → False) as Hno.
  { intros n z Hz Hk Ha. cbn in Hn. rewrite Ha in Hn. apply NoDup_cons in Hn as [Hn _]. apply Hn, list_elem_of_omap.
    exists z. split; [by eapply list_elem_of_lookup_2|done]. }
  destruct i as [|i], j as [|j]; cbn in *; simplify_eq; try done; [by exfalso; eapply Hno|by exfalso; eapply Hno|].
  f_equal. eapply IH; try done. destruct (f a); [by apply NoDup_cons in Hn as [_ Hn]|done].
Qed.

Lemma map_values_NoDup {K} `{Countable K} {B} (m : gmap K B) k k' v :
  NoDup (map_to_list m).*2 → m !! k = Some v → m !! k' = Some v → k = k'.
Proof.
  intros Hn Hk Hk'. apply elem_of_map_to_list in Hk, Hk'.
  pose proof (NoDup_fmap_eq snd _ (k, v) (k', v) Hn Hk Hk' eq_refl) as E. congruence.
Qed.
End safe.

Lemma settings_width f s : settings_read f = Some s → (max_agents s ≤ u32_max)%N.
Proof.
  destruct f as [| |a t]; [by intros [= <-]|done|]. cbn [settings_read]. cbv zeta.
  destruct (N.ltb_spec u32_max (default (max_agents settings_default) a)); [done|]. cbn [orb]. destruct (_ <? _)%N; [done|]. by intros [= <-].
Qed.

Lemma system_inv `{Sha} `{Host} `{!IterOrder str Loaded} ls c : steps_of ls initial = Some c → Inv u32_max (world c).
Proof.
  intros Hc. apply (reachable_ok u32_max ltac:(done) ls); [|done]. intros t i _. unfold permits.
  destruct (settings_read (config i)) eqn:E; [by eapply settings_width|done].
Qed.

(** ** A script that runs every five minutes *)

Module Demo.
#[local] Instance sha : Sha := {| sha256 l := l |}.
#[local] Instance host : Host := {| windows := false; calendar _ := ScheduleNext.utc; strftime _ _ := (lit "2026-01-01", lit "03:00") |}.

Definition script_path : str := lit "/r/.herdr/automations/nightly.luau".
Definition setup_call : Plan.Call := Plan.MkCall (Plan.Run (lit "setup")) true (Some 60%N).
Definition fix_call : Plan.Call := Plan.MkCall (Plan.Agent (lit "claude") (lit "Fix it.") None None false) true None.
Definition steps_handler : Plan.Handler := λ o, match o with [] => Plan.Calls setup_call | [true] => Plan.Calls fix_call | _ => Plan.Returns end.
Definition source (tokens : N) : Plan.Source :=
  Plan.MkSource (lit "nightly") (lit "abc")
    (Ok (Plan.MkScript (Plan.MkCaps 1 tokens 3600) [Plan.MkTrigger None (ScheduleNext.Every 300) Plan.Local steps_handler])).
Definition toml_file (name : str) : option str := if bool_decide (name = lit "setup") then Some (lit "make") else None.

Definition input (tokens : N) (z : Z) : Input :=
  MkInput false z 0 (Some 100%N) (λ r, match r with Some _ => [script_path] | None => [] end) (λ _, Ok (source tokens)) (λ _, Some toml_file)
    NoSettings (Ok []) (Some (MkFinished true (Some 0) (lit "done") None None)) (Some (lit "/w", lit "pane")) None
    (λ _, MkPane false true false false None None None) true false (λ _, true) false (lit "nightly") 7.

Definition go (n : nat) (t : Tid) (i : Input) : list Label := replicate n (LStep t i).

(** The repository is registered and the script approved; a daemon loads it at 1000
    and finds its firing of 1300 at 1310; the run goes to its end. *)
Definition approved (tokens : N) : list Label :=
  [LCommand 0 (RepoAdd (lit "/r"))] ++ go 4 (TCommand 0) (input tokens 1000)
  ++ [LCommand 1 (Approve script_path Terminal false)] ++ go 12 (TCommand 1) (input tokens 1000).
Definition served (tokens : N) : list Label := approved tokens ++ [LServe 5] ++ go 25 TMain (input tokens 1000).
Definition fired (tokens : N) : list Label := served tokens ++ go 25 TMain (input tokens 1310).
Definition finished : list Label := fired 100 ++ go 37 (TRun 1) (input 100 1312).

Definition final : Config (W := World) (I := Input) (J := Start) (T := Tid) := default initial (steps_of finished initial).
Lemma default_some {A} (o : option A) a : is_some o = true → o = Some (default a o).
Proof. by destruct o. Qed.
Example finishes : steps_of finished initial = Some final.
Proof. apply default_some. vm_compute. reflexivity. Qed.

Definition ran (l : list Did) : list Launch := omap (λ d, match d with DDo what _ => Some what | _ => None end) l.
Example final_ran :
  ran (did 1 (events (world final)))
  = [LScript (lit "/r") (lit "make"); LWorktree (lit "/r") (lit "automate/nightly-1-2") None;
     LAgent (lit "nightly-1") (lit "claude") (lit "pane"); LPrompt (lit "pane") (lit "Fix it.") false].
Proof. vm_compute. reflexivity. Qed.

(** Scheduling was paused on the whole host from before 1300 to after it, while no
    daemon ran: the firing of 1300 runs all the same. *)
Example paused_all_fires :
  (λ c, (λ r, (r_scheduled r, r_reason r)) <$> runs (store (world c)))
  <$> steps_of (served 100 ++ [LCrash; LCommand 2 PauseAll] ++ go 2 (TCommand 2) (input 100 1100)
                ++ [LCommand 3 ResumeAll] ++ go 2 (TCommand 3) (input 100 1400) ++ [LServe 2] ++ go 30 TMain (input 100 1500)) initial
  = Some [(Some 1300, Late)].
Proof. vm_compute. reflexivity. Qed.

(** A script is disabled while it runs; the run then reaches its budget of tokens,
    and the script is enabled again. *)
Definition disabled_running : list Label :=
  fired 0 ++ [LCommand 2 (Disable script_path)] ++ go 4 (TCommand 2) (input 0 1311).
Example disabled_first :
  (λ c, disabled (switch script_path (store (world c)))) <$> steps_of disabled_running initial = Some true.
Proof. vm_compute. reflexivity. Qed.
Example budget_enables :
  (λ c, switch script_path (store (world c)))
  <$> steps_of (disabled_running ++ go 18 (TRun 1) (input 0 1312)) initial
  = Some (MkSwitch true false (Some TokenBudget)).
Proof. vm_compute. reflexivity. Qed.

(** The row of an agent that was started cannot be written: it works on, and is not
    among the agents the cap counts. *)
Definition failing (z : Z) : Input :=
  let i := input 100 z in
  MkInput true (clock i) (midnight i) (left_ i) (listing i) (file i) (toml i) (config i) (git i) (process i) (herdr i) (log_file i)
    (pane i) (flag i) (in_personal i) (in_repo i) (pane_agent i) (answer i) (process_id i).
Example uncounted_agent :
  (λ c, (last (ran (did 1 (events (world c)))), live_agents (store (world c)), starting (world c)))
  <$> steps_of (fired 100 ++ go 28 (TRun 1) (input 100 1312) ++ [LStep (TRun 1) (failing 1312)] ++ go 6 (TRun 1) (input 100 1312)) initial
  = Some (Some (LAgent (lit "nightly-1") (lit "claude") (lit "pane")), [], 0%N).
Proof. vm_compute. reflexivity. Qed.
End Demo.

(** ** What holds over every interleaving *)

(** C11: Over every interleaving of the daemon, its runs, commands and
    crashes: a run is started only when, in the same turn, the latest approval of its
    script was for exactly the text and worktree scripts it runs with; it takes up
    only the calls its plan expects, one after another, and hands over only what such
    a call says; and its row says what was started. *)
Theorem only_approved `{Sha} `{Host} `{!IterOrder str Loaded} ls c :
  steps_of ls initial = Some c →
  let h := events (world c) in
  (∀ r d, EDid r d ∈ h → ∃ job, EStart job ∈ h ∧ run job = r)
  ∧ (∀ job, EStart job ∈ h →
       authorised h job ∧ follows job (did (run job) h)
       ∧ ∃ row, row ∈ runs (store (world c)) ∧ r_id row = run job ∧ r_path row = path job ∧ r_trigger row = trigger job
                ∧ r_hash row = job_hash job)
  ∧ ∀ p, approved_hash p (store (world c)) = latest p h.
Proof.
  intros [] %system_inv. cbn zeta. split; [|split; [|done]].
  - intros r d Hd. assert (r ∈ run <$> started (events (world c))) as Hr.
    { apply inv_did0. intros Hnil. apply (not_elem_of_nil d). rewrite <-Hnil. unfold did. apply list_elem_of_omap.
      exists (EDid r d). split; [done|]. cbn. by rewrite decide_True. }
    apply list_elem_of_fmap in Hr as (job & -> & Hj). exists job. split; [|done]. by apply elem_of_started.
  - intros job Hj%elem_of_started. by apply inv_started0.
Qed.

Lemma only_approved_witness :
  length (started (events (world Demo.final))) = 1%nat
  ∧ Forall (authorised (H := Demo.sha) (events (world Demo.final))) (started (events (world Demo.final))).
Proof.
  split; [vm_compute; reflexivity|].
  pose proof (only_approved (H := Demo.sha) (H0 := Demo.host) Demo.finished Demo.final Demo.finishes) as Hc.
  apply Forall_forall. intros job Hj. exact (proj1 (proj1 (proj2 Hc) job (proj1 (elem_of_started _ _) Hj))).
Defined.

(** C12: Over every interleaving and across crashes: a scheduled firing has
    at most one run, a run is started once, a script has at most one run going on,
    and a new run never takes the name of a thread that is there. *)
Theorem firings_once `{Sha} `{Host} `{!IterOrder str Loaded} ls c :
  steps_of ls initial = Some c →
  (∀ i j r r' k, runs (store (world c)) !! i = Some r → runs (store (world c)) !! j = Some r' →
     firing r = Some k → firing r' = Some k → i = j)
  ∧ NoDup (run <$> started (events (world c)))
  ∧ (∀ p r r', alive (world c) !! r = Some p → alive (world c) !! r' = Some p → r = r')
  ∧ ∀ t j k, pool c !! t = Some (Fork j k) → pool c !! tid j = None.
Proof.
  intros Hc. pose proof (system_inv ls c Hc) as Hi. split; [|split; [apply Hi|split]].
  - intros i j r r' k. apply (omap_NoDup_eq firing), Hi.
  - intros p r r' Hr Hr'. pose proof (inv_paths _ _ Hi) as [Hn _]%NoDup_app. eapply map_values_NoDup; done.
  - intros t j k Hf. eapply (fork_free (H0 := protocol u32_max)); [|exact Hf]. apply (reachable_ok u32_max ltac:(done) ls); [|done].
    intros t' i _. unfold permits. destruct (settings_read (config i)) eqn:E; [by eapply settings_width|done].
Qed.

Lemma firings_once_witness : NoDup (run <$> started (events (world Demo.final))).
Proof. exact (proj1 (proj2 (firings_once (H := Demo.sha) (H0 := Demo.host) Demo.finished Demo.final Demo.finishes))). Defined.

(** C13: However runs, the sampler and failed statements interleave, the
    agents counted as live, with those let through and not yet recorded, are never
    more than the cap, or than the highest one when the setting changes. *)
Theorem agents_capped `{Sha} `{Host} `{!IterOrder str Loaded} (cap : N) ls c :
  (∀ t i s, LStep t i ∈ ls → settings_read (config i) = Some s → (max_agents s ≤ cap)%N) →
  steps_of ls initial = Some c →
  (lenN (live_agents (store (world c))) + reserved (world c) ≤ cap)%N.
Proof.
  intros Hcap Hc. rewrite live_agents_count.
  assert (∀ t i, LStep t i ∈ ls → permits (N.min cap u32_max) i) as Hl.
  { intros t i Hi. unfold permits. destruct (settings_read (config i)) eqn:E; [|done]. apply N.min_glb; [by eapply Hcap|by eapply settings_width]. }
  pose proof (reachable_ok (N.min cap u32_max) ltac:(lia) ls c Hl Hc) as [Hi _]. pose proof (inv_cap _ _ Hi). lia.
Qed.

Lemma agents_capped_witness : (lenN (live_agents (store (world Demo.final))) + reserved (world Demo.final) ≤ 3)%N.
Proof.
  apply (agents_capped (H := Demo.sha) (H0 := Demo.host) 3 Demo.finished); [|exact Demo.finishes].
  intros t i s Hi. assert (config i = NoSettings) as ->; [|by intros [= <-]].
  unfold Demo.finished, Demo.fired, Demo.served, Demo.approved, Demo.go in Hi.
  repeat (apply elem_of_app in Hi as [Hi|Hi]); try (apply list_elem_of_singleton in Hi; discriminate);
    apply elem_of_replicate in Hi as [Hi _]; by injection Hi as _ ->.
Defined.
End AutoSafe.
