(* ===== verification/Assist.v ===== *)
(** * Assist: writing prompts, and the frames of a chat
    (crates/sheprd-chat-protocol/src/assist.rs, frame.rs)

    Completing the agent's commands, recalling earlier prompts and stepping the
    settings of a session, which every client shares; and the length-prefixed
    JSON frames clients and program exchange. serde_json is the class
    [FrameJson]. A reader is the bytes that will come and what each call of
    [read] answers, so a frame may come in pieces. *)

From Stdlib Require Import NArith ZArith Lia.
From stdpp Require Import base option numbers strings list.
From S2P Require Import Prelude Transcript Display Project Diff ChatSession.

Local Open Scope N_scope.

Module Assist.
Import Transcript ChatSession.
Local Notation strip_start := Diff.strip_start.
Local Notation starts_with := Diff.starts_with.

(** ** Completions *)

Definition COMPLETIONS : nat := 6.
Definition SLASH : N := 47.

Definition completions (t : Transcript) (text : str) : list SlashCommand :=
  match strip_start [SLASH] text with
  | None => []
  | Some typed =>
      if existsb is_whitespace typed then []
      else take COMPLETIONS
             (filter (λ c, starts_with typed (command_name c) = true ∧ command_name c ≠ typed) (commands t))
  end.

(** ** Prompts of a session *)

(** [str::rsplit_once] at a character. *)
Fixpoint rsplit_once (c : N) (s : str) : option (str * str) :=
  match s with
  | [] => None
  | d :: t =>
      match rsplit_once c t with
      | Some (before, after) => Some (d :: before, after)
      | None => if d =? c then Some ([], t) else None
      end
  end.

Fixpoint typed_from (files : nat) (text : str) : str :=
  match files with
  | O => text
  | S files =>
      match rsplit_once 10 text with
      | Some (before, line) => if starts_with ATTACHED line then typed_from files before else text
      | None => if starts_with ATTACHED text then [] else text
      end
  end.
Definition typed (shown : str) (files : N) : str := typed_from (N.to_nat files) shown.

Definition typed_entry (k : EntryKind) : option str :=
  match k with User text files => Some (typed text files) | _ => None end.

Definition prompts (t : Transcript) : list str :=
  omap (λ e, typed_entry (kind e)) (entries t) ++ (queued_text <$> queued t).

(** ** Recall *)

Definition HISTORY : nat := 100.

Record Sent := MkSent { sent_prompt : str; after : option N; sent_queued : list N }.

(** [Sent::shown]. *)
Definition sent_shown (s : Sent) (t : Transcript) : bool :=
  let entries := omap (λ e, typed_entry (kind e))
                   (filter (λ e, match after s with None => true | Some a => a <? entry_id e end = true) (entries t)) in
  let queued := queued_text <$> filter (λ q, queued_id q ∉ sent_queued s) (queued t) in
  existsb (λ p, bool_decide (p = sent_prompt s)) (entries ++ queued).

Record History := MkHistory { recalled : list str; at_ : option nat; sent : option Sent }.
Definition new_history : History := MkHistory [] None None.

(** [History::push]. *)
Definition push (h : History) (prompt : str) (t : Transcript) : History :=
  MkHistory (recalled h) None (Some (MkSent prompt (last_entry_id t) (queued_id <$> queued t))).

Definition recalling (h : History) : bool := is_some (at_ h).

Definition stop (h : History) : History := MkHistory (recalled h) None (sent h).

(** A turn of the loop of [collect]. *)
Definition recall_one (recalled : list str) (prompt : str) : list str :=
  if bool_decide (trim prompt = []) || bool_decide (last recalled = Some prompt) then recalled else recalled ++ [prompt].

Definition collect (h : History) (t : Transcript) : History :=
  let sent := match sent h with Some s => if sent_shown s t then None else Some s | None => None end in
  let recalled := foldl recall_one [] (prompts t ++ option_list (sent_prompt <$> sent)) in
  MkHistory (drop (length recalled - HISTORY) recalled) (at_ h) sent.

Definition older (h : History) (t : Transcript) : History * option str :=
  let show h at_ := (MkHistory (recalled h) (Some at_) (sent h), recalled h !! at_) in
  match at_ h with
  | Some O => show h O
  | Some (S i) => show h i
  | None =>
      let h := collect h t in
      match length (recalled h) with O => (h, None) | S n => show h n end
  end.

Definition newer (h : History) : History * option str :=
  match at_ h with
  | None => (h, None)
  | Some i =>
      let i := S i in
      if (length (recalled h) <=? i)%nat then (stop h, Some [])
      else (MkHistory (recalled h) (Some i) (sent h), recalled h !! i)
  end.

(** ** Settings *)

(** [step] of an option; [rem_euclid] is [Z]'s modulo for a positive divisor. *)
Definition step (o : ConfigOption) (by_ : Z) : option Command :=
  value ← match config_kind o with
          | Select choices current =>
              if (length choices <? 2)%nat then None
              else
                let next := match position_of (λ c, bool_decide (choice_id c = current)) choices with
                            | None => O
                            | Some i => Z.to_nat ((Z.of_nat i + by_) `mod` Z.of_nat (length choices))
                            end in
                c ← choices !! next; Some (Value_Choice (choice_id c))
          | Toggle current => Some (Value_Toggle (negb current))
          end;
  Some (SetOption (config_id o) value).

Definition next_mode (t : Transcript) : option Command :=
  match option_of t Category_Mode with
  | Some o => step o 1
  | None =>
      m ← modes t;
      let index := match position_of (λ k, bool_decide (mode_id k = current m)) (available m) with
                   | None => O
                   | Some i => (S i mod length (available m))%nat
                   end in
      mode ← available m !! index;
      Some (SetMode (mode_id mode))
  end.

(** ** Frames *)

Definition MAX_FRAME_SIZE : N := 16 * 1024 * 1024.

(** Errors of a frame: [FrameLimit], [EmptyFrame], [Io] and [Json]. *)
Inductive FrameError := FrameLimit (len : N) | EmptyFrame | Io_Eof | Io_Failed | Json.

(** [serde_json::to_writer] and [from_slice]. *)
Class FrameJson (M : Type) := { to_json : M → option (list N); from_json : list N → option M }.
Class FrameJsonLaws (M : Type) `{FrameJson M} := {
  json_roundtrip (m : M) bs : to_json m = Some bs → from_json bs = Some m;
  json_nonempty (m : M) bs : to_json m = Some bs → bs ≠ [];
  json_bytes (m : M) bs : to_json m = Some bs → Forall is_byte bs }.

(** What one call of [read] does: it hands over bytes, as many as it likes of
    those there are and asked for, or it fails. At the end of the stream it hands
    over none. *)
Inductive ReadAnswer := Gives (n : nat) | Interrupted | Breaks.
Record Reader := MkReader { coming : list N; answers : list ReadAnswer }.

(** How filling a buffer ends: full, at the end of the stream with what had come,
    failed, or still waiting. *)
Inductive Filling := Filled (buffer : list N) | Ended (so_far : list N) | Failing | Waiting.

(** The loop over [read] of [read_frame], which is that of [Read::read_exact] too. *)
Fixpoint fill (want : nat) (so_far bytes : list N) (answers : list ReadAnswer) : Reader * Filling :=
  match want with
  | O => (MkReader bytes answers, Filled so_far)
  | S _ =>
      match answers with
      | [] => (MkReader bytes [], Waiting)
      | Interrupted :: answers => fill want so_far bytes answers
      | Breaks :: answers => (MkReader bytes answers, Failing)
      | Gives n :: answers =>
          let got := take (Nat.min (Nat.max 1 n) want) bytes in
          match got with
          | [] => (MkReader bytes answers, Ended so_far)
          | _ :: _ => fill (want - length got) (so_far ++ got) (drop (length got) bytes) answers
          end
      end
  end.

Section frames.
Context {M : Type} `{FrameJson M}.

Definition encode_frame (m : M) : res FrameError (list N) :=
  match to_json m with
  | None => Err Json
  | Some bytes =>
      let len := lenN bytes in
      if MAX_FRAME_SIZE <? len then Err (FrameLimit len)
      else if u32_max <? len then Err (FrameLimit len)
      else Ok (le_bytes 4 len ++ bytes)
  end.

(** [write_frame] on a writer that takes everything. *)
Definition write_frame (writer : list N) (m : M) : res FrameError (list N) :=
  bytes ← encode_frame m; Ok (writer ++ bytes).

(** [None] for a read that still waits. *)
Definition read_frame (r : Reader) : Reader * option (res FrameError (option M)) :=
  let '(r, prefix) := fill 4 [] (coming r) (answers r) in
  match prefix with
  | Waiting => (r, None)
  | Failing => (r, Some (Err Io_Failed))
  | Ended [] => (r, Some (Ok None))
  | Ended _ => (r, Some (Err Io_Eof))
  | Filled prefix =>
      let len := le_val prefix in
      if len =? 0 then (r, Some (Err EmptyFrame))
      else if MAX_FRAME_SIZE <? len then (r, Some (Err (FrameLimit len)))
      else
        let '(r, payload) := fill (N.to_nat len) [] (coming r) (answers r) in
        match payload with
        | Waiting => (r, None)
        | Failing => (r, Some (Err Io_Failed))
        | Ended _ => (r, Some (Err Io_Eof))
        | Filled payload => (r, Some (match from_json payload with Some m => Ok (Some m) | None => Err Json end))
        end
  end.
End frames.

(** ** What the user typed *)

Lemma rsplit_once_app c s t : c ∉ t → rsplit_once c (s ++ c :: t) = Some (s, t).
Proof.
  intros Ht. assert (rsplit_once c t = None) as Hn.
  { induction t as [|d t IH]; [done|]. apply not_elem_of_cons in Ht as [Hd Ht]. cbn. by rewrite IH, (proj2 (N.eqb_neq d c)) by congruence. }
  induction s as [|d s IH]; cbn; [by rewrite Hn, N.eqb_refl|by rewrite IH].
Qed.

Lemma rsplit_once_none c t : c ∉ t → rsplit_once c t = None.
Proof. induction t as [|d t IH]; [done|]. intros [Hd Ht]%not_elem_of_cons. cbn. by rewrite IH, (proj2 (N.eqb_neq d c)) by congruence. Qed.

Lemma starts_attached s : starts_with ATTACHED (ATTACHED ++ s) = true.
Proof. done. Qed.

(** The lines a session adds for the files of a prompt are taken off again, so a
    client recalls exactly the text that was sent. *)
Theorem typed_shown (t : str) (files : list Attachment) :
  Forall (λ a, 10 ∉ attachment_name a) files → typed (shown_prompt t files) (lenN files) = t.
Proof.
  unfold typed, lenN. rewrite Nat2N.id. induction files as [|a files IH] using rev_ind; [done|].
  intros [Hf Ha]%Forall_app. rewrite Forall_singleton in Ha. specialize (IH Hf).
  assert (10 ∉ ATTACHED ++ attachment_name a) as Hn by (apply not_elem_of_app; split; [exact (proj1 (bool_decide_eq_false (10 ∈ ATTACHED)) eq_refl)|done]).
  unfold shown_prompt. rewrite foldl_app, length_app, Nat.add_1_r. cbn [foldl typed_from].
  fold (shown_prompt t files). case_bool_decide as He.
  - rewrite He, app_nil_l, rsplit_once_none, starts_attached by done. rewrite He in IH.
    rewrite <-IH. by destruct files.
  - rewrite <-app_assoc. cbn [app]. by rewrite rsplit_once_app, starts_attached.
Qed.

(** ** Recall *)

Lemma recall_one_cases r p : recall_one r p = r ∧ (trim p = [] ∨ last r = Some p) ∨ trim p ≠ [] ∧ last r ≠ Some p ∧ recall_one r p = r ++ [p].
Proof. unfold recall_one. repeat case_bool_decide; cbn; naive_solver. Qed.

(** No prompt is recalled that is blank or the same as the one before it. *)
Record tidy (r : list str) : Prop := {
  tidy_solid : Forall (λ p, trim p ≠ []) r;
  tidy_distinct i p : r !! i = Some p → r !! S i ≠ Some p;
}.

Lemma tidy_snoc r p : tidy r → trim p ≠ [] → last r ≠ Some p → tidy (r ++ [p]).
Proof.
  intros [Hs Hd] Hp Hl. split; [apply Forall_app; split; [done|by apply Forall_singleton]|]. intros i q Hi Hj.
  apply lookup_app_Some in Hi as [Hi|[Hge Hi]].
  - apply lookup_app_Some in Hj as [Hj|[Hge Hj]]; [by apply (Hd i q)|].
    apply list_lookup_singleton_Some in Hj as [Hj ->]. apply Hl. rewrite last_lookup.
    apply lookup_lt_Some in Hi as Hlt. by replace (pred (length r)) with i by lia.
  - apply list_lookup_singleton_Some in Hi as [Hi _]. apply lookup_lt_Some in Hj. rewrite length_app in Hj. cbn in Hj. lia.
Qed.

Lemma recall_all r ps :
  tidy r →
  tidy (foldl recall_one r ps) ∧ foldl recall_one r ps `sublist_of` r ++ ps
  ∧ (∀ p, p ∈ ps → trim p ≠ [] → p ∈ foldl recall_one r ps) ∧ r `prefix_of` foldl recall_one r ps.
Proof.
  revert r. induction ps as [|p ps IH]; intros r Hr; cbn [foldl].
  { rewrite app_nil_r. split_and!; [done|done|by intros p ?%not_elem_of_nil|done]. }
  destruct (recall_one_cases r p) as [[-> Hp]|(Hp & Hl & ->)].
  - destruct (IH r Hr) as (H1 & H2 & H3 & H4). split_and!; [done| | |done].
    + etrans; [done|]. by apply sublist_app, sublist_cons.
    + intros q [->|Hq]%elem_of_cons Hq'; [|by apply H3]. destruct Hp as [|Hp]; [done|].
      eapply elem_of_prefix; [|done]. by apply last_Some_elem_of.
  - destruct (IH (r ++ [p]) (tidy_snoc _ _ Hr Hp Hl)) as (H1 & H2 & H3 & H4). rewrite <-app_assoc in H2.
    split_and!; [done|done| |].
    + intros q [->|Hq]%elem_of_cons Hq'; [|by apply H3]. eapply elem_of_prefix; [|done]. apply elem_of_app. right. by apply list_elem_of_singleton.
    + etrans; [|done]. by apply prefix_app_r.
Qed.

Lemma recall_last r ps p : trim p ≠ [] → last (foldl recall_one r (ps ++ [p])) = Some p.
Proof.
  intros Hp. rewrite foldl_app. cbn [foldl].
  destruct (recall_one_cases (foldl recall_one r ps) p) as [[-> [?|?]]|(_ & _ & ->)]; [done|done|by rewrite last_snoc].
Qed.

Lemma tidy_drop n r : tidy r → tidy (drop n r).
Proof.
  intros [Hs Hd]. split; [by apply Forall_drop|]. intros i p. rewrite !lookup_drop, Nat.add_succ_r. apply Hd.
Qed.

(** Recall offers at most [HISTORY] prompts of the session, in their order, none
    blank and none the same as the one before it, each that fits; the newest one
    is always among them. *)
Theorem collect_recent (h : History) (t : Transcript) :
  let h' := collect h t in
  let all := prompts t ++ option_list (sent_prompt <$> sent h') in
  (length (recalled h') ≤ HISTORY)%nat ∧ tidy (recalled h') ∧ recalled h' `sublist_of` all
  ∧ (∀ ps p, all = ps ++ [p] → trim p ≠ [] → last (recalled h') = Some p)
  ∧ ((length all ≤ HISTORY)%nat → ∀ p, p ∈ all → trim p ≠ [] → p ∈ recalled h').
Proof.
  intros h' all. set (r := foldl recall_one [] all).
  assert (recalled h' = drop (length r - HISTORY) r) as -> by done.
  destruct (recall_all [] all) as (Ht & Hs & Hin & _); [by split; [constructor|]|]. fold r in Ht, Hs, Hin. cbn [app] in Hs.
  split_and!.
  - rewrite length_drop. lia.
  - by apply tidy_drop.
  - etrans; [apply sublist_drop|done].
  - intros ps p Ha Hp. assert (last r = Some p) as Hl by (unfold r; rewrite Ha; by apply recall_last).
    rewrite last_lookup in Hl |- *. apply lookup_lt_Some in Hl as Hlt.
    rewrite lookup_drop, length_drop. rewrite <-Hl. f_equal. unfold HISTORY. lia.
  - intros Hle p Hp Hb. apply sublist_length in Hs. rewrite (proj2 (Nat.sub_0_le _ _)) by lia. by apply Hin.
Qed.

(** Stepping back goes from the newest prompt to the oldest and stays there,
    whatever the transcript becomes meanwhile. *)
Theorem older_walks (h : History) (t : Transcript) (later : list Transcript) :
  let h' := collect h t in
  let i := (length (recalled h') - 1 - length later)%nat in
  at_ h = None → recalled h' ≠ [] →
  foldl (λ r t, older r.1 t) (older h t) later = (MkHistory (recalled h') (Some i) (sent h'), recalled h' !! i).
Proof.
  intros h' i Ha Hne. subst i. induction later as [|t' later IH] using rev_ind.
  - cbn [foldl]. unfold older. rewrite Ha. fold h'. destruct (recalled h') as [|p ps] eqn:E; [done|].
    cbn [length]. by rewrite Nat.sub_0_r, Nat.sub_succ, Nat.sub_0_r.
  - rewrite foldl_app, IH, length_app. cbn [foldl fst length]. unfold older. cbn [at_ recalled sent].
    replace (length (recalled h') - 1 - (length later + 1))%nat with (pred (length (recalled h') - 1 - length later)) by lia.
    by destruct (length (recalled h') - 1 - length later)%nat.
Qed.

(** A step forward undoes a step back, and one past the newest prompt clears the
    text and ends recall. *)
Theorem newer_undoes (h : History) (t : Transcript) (i : nat) :
  at_ h = Some i →
  ((i < length (recalled h))%nat → i ≠ O → newer (older h t).1 = (h, recalled h !! i))
  ∧ ((length (recalled h) ≤ S i)%nat → newer h = (stop h, Some [])).
Proof.
  intros Ha. split.
  - intros Hi Hn. destruct i as [|i]; [done|]. unfold older. rewrite Ha. unfold newer. cbn [fst at_ recalled sent].
    rewrite (proj2 (Nat.leb_gt _ _)) by lia. rewrite <-Ha. by destruct h.
  - intros Hi. unfold newer. rewrite Ha. by rewrite (proj2 (Nat.leb_le _ _)).
Qed.

Lemma filter_none {A} (P : A → Prop) `{∀ x, Decision (P x)} l : (∀ x, x ∈ l → ¬ P x) → filter P l = [].
Proof.
  intros Hl. destruct (filter P l) as [|x k] eqn:E; [done|]. exfalso.
  assert (x ∈ filter P l) as [Hx Hin]%list_elem_of_filter by (rewrite E; by left). by apply (Hl x).
Qed.

Lemma not_shown_at_once p t :
  ordered (entries t) → sent_shown (MkSent p (last_entry_id t) (queued_id <$> queued t)) t = false.
Proof.
  intros Ho. unfold sent_shown. cbn [after sent_queued sent_prompt]. rewrite !filter_none; [done| |].
  - intros q Hq Hn. apply Hn, list_elem_of_fmap. by exists q.
  - intros e [i Hi]%list_elem_of_lookup. unfold last_entry_id. rewrite last_lookup.
    apply lookup_lt_Some in Hi as Hlt. destruct (lookup_lt_is_Some_2 (entries t) (pred (length (entries t)))) as [l Hl]; [lia|].
    rewrite Hl. cbn. rewrite N.ltb_lt. destruct (decide (i = pred (length (entries t)))) as [->|Hne]; [simplify_eq; lia|].
    pose proof (ordered_lookup _ _ _ _ _ Ho Hi Hl). lia.
Qed.

(** A prompt that was just sent is the first one recalled, before the program
    echoes it and also when an earlier prompt has the same text. *)
Theorem push_recalled (h : History) (p : str) (t : Transcript) :
  wf t → trim p ≠ [] → (older (push h p t) t).2 = Some p.
Proof.
  intros Hwf Hp. pose proof (collect_recent (push h p t) t) as (_ & _ & _ & Hl & _).
  assert (sent (collect (push h p t) t) = sent (push h p t)) as Hs.
  { unfold collect. cbn [sent push]. by rewrite not_shown_at_once by apply Hwf. }
  rewrite Hs in Hl. specialize (Hl (prompts t) p eq_refl Hp). rewrite last_lookup in Hl.
  unfold older. cbn [at_ push]. destruct (length (recalled _)) eqn:E; [by apply lookup_lt_Some in Hl; lia|]. exact Hl.
Qed.

(** ** Settings *)

(** What a step asks for is a value the option takes. *)
Theorem step_accepted (o : ConfigOption) (by_ : Z) (c : Command) :
  step o by_ = Some c → ∃ v, c = SetOption (config_id o) v ∧ accepts o v = true.
Proof.
  unfold step, accepts. destruct (config_kind o) as [choices cur|cur]; [|intros [= <-]; by eexists].
  destruct (_ <? _)%nat; [done|]. cbn [mbind option_bind].
  destruct (choices !! _) as [x|] eqn:E; cbn [mbind option_bind]; [|done]. intros [= <-]. eexists; split; [done|].
  apply existsb_exists. exists x. split; [by eapply list_elem_of_In, list_elem_of_lookup_2|by apply bool_decide_eq_true].
Qed.

Lemma position_of_unique {A B} `{EqDecision B} (f : A → B) (l : list A) i a :
  NoDup (f <$> l) → l !! i = Some a → position_of (λ x, bool_decide (f x = f a)) l = Some i.
Proof.
  revert i. induction l as [|x l IH]; intros [|i] Hn Hi; [done|done|..]; cbn in *; apply NoDup_cons in Hn as [Hx Hn].
  - injection Hi as ->. by rewrite bool_decide_eq_true_2.
  - rewrite bool_decide_eq_false_2; [by rewrite (IH i)|]. intros Hf. apply Hx. rewrite Hf.
    apply list_elem_of_fmap. exists a. split; [done|by eapply list_elem_of_lookup_2].
Qed.

(** An option with another choice made. *)
Definition chosen (o : ConfigOption) (id : str) : ConfigOption :=
  MkConfigOption (category o) (config_description o) (config_id o)
    (match config_kind o with Select choices _ => Select choices id | k => k end) (config_name o).

Lemma step_select o by_ choices i c :
  config_kind o = Select choices (choice_id c) → NoDup (choice_id <$> choices) → choices !! i = Some c → (2 ≤ length choices)%nat →
  ∃ j d, Z.of_nat j = ((Z.of_nat i + by_) `mod` Z.of_nat (length choices))%Z ∧ choices !! j = Some d
         ∧ step o by_ = Some (SetOption (config_id o) (Value_Choice (choice_id d))).
Proof.
  intros Hk Hn Hi Hl. pose proof (Z.mod_pos_bound (Z.of_nat i + by_) (Z.of_nat (length choices)) ltac:(lia)) as Hb.
  set (j := Z.to_nat ((Z.of_nat i + by_) `mod` Z.of_nat (length choices))).
  destruct (lookup_lt_is_Some_2 choices j) as [d Hd]; [lia|]. exists j, d. split; [lia|]. split; [done|].
  unfold step. rewrite Hk, (proj2 (Nat.ltb_ge _ _)) by done. cbv zeta. rewrite (position_of_unique _ _ _ _ Hn Hi).
  fold j. by rewrite Hd.
Qed.

(** A step back undoes a step. *)
Theorem step_undone (o : ConfigOption) (by_ : Z) choices c id :
  config_kind o = Select choices (choice_id c) → NoDup (choice_id <$> choices) → c ∈ choices →
  step o by_ = Some (SetOption (config_id o) (Value_Choice id)) →
  step (chosen o id) (- by_) = Some (SetOption (config_id o) (Value_Choice (choice_id c))).
Proof.
  intros Hk Hn [i Hi]%list_elem_of_lookup Hs.
  assert (2 ≤ length choices)%nat as Hl.
  { unfold step in Hs. rewrite Hk in Hs. destruct (Nat.ltb_spec (length choices) 2); [done|lia]. }
  destruct (step_select o by_ choices i c Hk Hn Hi Hl) as (j & d & Hj & Hd & Hs'). rewrite Hs' in Hs. injection Hs as <-.
  destruct (step_select (chosen o (choice_id d)) (- by_) choices j d) as (k & e & Hk' & He & ->); [by cbn; rewrite Hk|done..|].
  assert (k = i) as ->; [|simplify_eq; done]. apply lookup_lt_Some in Hi. apply Nat2Z.inj.
  rewrite Hk', Hj, Zplus_mod_idemp_l. replace (Z.of_nat i + by_ + - by_)%Z with (Z.of_nat i) by lia. apply Z.mod_small. lia.
Qed.

(** The command that moves the mode is one the session takes: it passes the checks
    of [set_option] and [set_mode] on the same transcript. *)
Theorem next_mode_known (t : Transcript) (c : Command) :
  next_mode t = Some c →
  match c with
  | SetOption id v => existsb (λ o, bool_decide (config_id o = id) && accepts o v) (options t) = true
  | SetMode id => ∃ m, modes t = Some m ∧ existsb (λ k, bool_decide (mode_id k = id)) (available m) = true
  | _ => False
  end.
Proof.
  unfold next_mode, option_of. destruct (find _ (options t)) as [o|] eqn:E.
  - intros (v & -> & Hv)%step_accepted. apply find_some in E as [E _]. apply existsb_exists. exists o. split; [done|].
    rewrite Hv, andb_true_r. by apply bool_decide_eq_true.
  - destruct (modes t) as [m|]; [|done]. cbn [mbind option_bind]. destruct (available m !! _) as [k|] eqn:Ek; [|done].
    cbn [mbind option_bind]. intros [= <-]. exists m. split; [done|]. apply existsb_exists. exists k.
    split; [by eapply list_elem_of_In, list_elem_of_lookup_2|by apply bool_decide_eq_true].
Qed.

Lemma strip_start_some p s u : strip_start p s = Some u → s = p ++ u.
Proof.
  revert s. induction p as [|c p IH]; intros s; cbn; [by intros [= ->]|]. destruct s as [|d s]; [done|].
  destruct (N.eqb_spec c d) as [->|]; [|done]. by intros ->%IH.
Qed.

(** A completion is one of the agent's commands and goes on from what was typed. *)
Theorem completions_sound (t : Transcript) (text : str) (c : SlashCommand) :
  c ∈ completions t text →
  c ∈ commands t ∧ ∃ typed rest, text = SLASH :: typed ∧ command_name c = typed ++ rest ∧ rest ≠ []
  ∧ Forall (λ x, is_whitespace x = false) typed.
Proof.
  unfold completions. destruct (strip_start _ text) as [ty|] eqn:E; [|by intros ?%not_elem_of_nil].
  apply strip_start_some in E as ->. destruct (existsb is_whitespace ty) eqn:Ew; [by intros ?%not_elem_of_nil|].
  intros (i & Hi & _)%elem_of_take. apply list_elem_of_lookup_2, list_elem_of_filter in Hi as [[Hs Hne] Hc]. split; [done|].
  apply bool_decide_eq_true in Hs as [rest Hr]. apply strip_start_some in Hr. exists ty, rest. split_and!; [done|done| |].
  - intros ->. by rewrite app_nil_r in Hr.
  - apply Forall_forall. intros x Hx. apply not_true_is_false. intros Ht. apply not_true_iff_false in Ew. apply Ew.
    apply existsb_exists. exists x. split; [by apply list_elem_of_In|done].
Qed.

(** ** Frames *)

Definition gives (answers : list ReadAnswer) : nat := length (filter (λ a, match a with Gives _ => true | _ => false end = true) answers).
Definition steady (answers : list ReadAnswer) : Prop := Breaks ∉ answers.

Lemma taken n want (bytes : list N) :
  (1 ≤ length bytes)%nat →
  ∃ k, take (Nat.min (Nat.max 1 n) (S want)) bytes = take k bytes ∧ (1 ≤ k ≤ S want)%nat ∧ length (take k bytes) = k.
Proof.
  intros Hb. exists (Nat.min (Nat.min (Nat.max 1 n) (S want)) (length bytes)). split_and!; [|lia..|rewrite length_take; lia].
  destruct (decide (Nat.min (Nat.max 1 n) (S want) ≤ length bytes)%nat); [f_equal; lia|].
  rewrite !take_ge by lia. done.
Qed.

(** However the bytes come, a buffer is filled with the next ones. *)
Lemma fill_all want so_far bytes answers :
  steady answers → (want ≤ length bytes)%nat → (want ≤ gives answers)%nat →
  ∃ left, fill want so_far bytes answers = (MkReader (drop want bytes) left, Filled (so_far ++ take want bytes))
          ∧ steady left ∧ (gives answers ≤ gives left + want)%nat.
Proof.
  revert want so_far bytes. induction answers as [|a answers IH]; intros [|want] so_far bytes Hs Hb Hg.
  1,3: eexists; rewrite drop_0, take_0, app_nil_r; split_and!; [done|done|lia].
  { cbn in Hg. lia. }
  apply not_elem_of_cons in Hs as [Ha Hs]. destruct a as [n| |]; [|cbn [fill]; by apply IH|done].
  cbn [fill]. destruct (taken n want bytes) as (k & -> & Hk & Hlen); [lia|].
  destruct (take k bytes) as [|b l] eqn:E; [cbn in Hlen; lia|]. rewrite <-E in *. rewrite Hlen.
  change (gives (Gives n :: answers)) with (S (gives answers)) in Hg |- *.
  destruct (IH (S want - k)%nat (so_far ++ take k bytes) (drop k bytes) Hs) as (left & -> & Hl & Hg'); [rewrite length_drop; lia|lia|].
  exists left. rewrite drop_drop, <-app_assoc. split_and!; [|done|lia].
  rewrite take_take_drop. by replace (k + (S want - k))%nat with (S want) by lia.
Qed.

(** A stream that ends too early. *)
Lemma fill_short want so_far bytes answers :
  steady answers → (length bytes < want)%nat → (length bytes < gives answers)%nat →
  ∃ r, fill want so_far bytes answers = (r, Ended (so_far ++ bytes)).
Proof.
  revert want so_far bytes. induction answers as [|a answers IH]; intros [|want] so_far bytes Hs Hb Hg; try (cbn in Hg; lia).
  apply not_elem_of_cons in Hs as [Ha Hs]. destruct a as [n| |]; [|cbn [fill]; by apply IH|done].
  cbn [fill]. destruct bytes as [|b bytes]; [rewrite take_nil, app_nil_r; by eexists|].
  destruct (taken n want (b :: bytes)) as (k & -> & Hk & Hlen); [cbn; lia|].
  assert (k ≤ length (b :: bytes))%nat as Hkl by (rewrite <-Hlen, length_take; lia).
  destruct (take k (b :: bytes)) as [|c l] eqn:E; [cbn in Hlen; lia|]. rewrite <-E in *. rewrite Hlen.
  change (gives (Gives n :: answers)) with (S (gives answers)) in Hg.
  destruct (IH (S want - k)%nat (so_far ++ take k (b :: bytes)) (drop k (b :: bytes)) Hs) as [r ->]; [rewrite length_drop; lia..|].
  exists r. by rewrite <-app_assoc, take_drop.
Qed.

Section frame_facts.
Context {M : Type} `{FrameJsonLaws M}.

Lemma encode_frame_Ok (m : M) bs :
  encode_frame m = Ok bs →
  ∃ payload, to_json m = Some payload ∧ payload ≠ [] ∧ lenN payload ≤ MAX_FRAME_SIZE ∧ bs = le_bytes 4 (lenN payload) ++ payload.
Proof.
  unfold encode_frame. destruct (to_json m) as [p|] eqn:E; [|done]. intros Hb. case_ifs.
  exists p. split_and!; [done|by eapply json_nonempty|lia|done].
Qed.

Lemma read_prefix (payload : list N) :
  payload ≠ [] → lenN payload ≤ MAX_FRAME_SIZE →
  le_val (le_bytes 4 (lenN payload)) = lenN payload ∧ (lenN payload =? 0) = false ∧ (MAX_FRAME_SIZE <? lenN payload) = false.
Proof.
  intros Hne Hle. split_and!; [apply le_val_bytes4; unfold MAX_FRAME_SIZE, u32_max in *; lia| |by apply N.ltb_ge].
  apply N.eqb_neq. intros E. by apply lenN_nil in E.
Qed.

(** A frame is read back whole, however its bytes are cut and its reads
    interrupted, and what follows it is left for the next one. *)
Theorem frame_read_back (m : M) bs rest answers :
  encode_frame m = Ok bs → steady answers → (length bs ≤ gives answers)%nat →
  ∃ left, read_frame (MkReader (bs ++ rest) answers) = (MkReader rest left, Some (Ok (Some m)))
          ∧ steady left ∧ (gives answers ≤ gives left + length bs)%nat.
Proof.
  intros (p & Hp & Hne & Hle & ->)%encode_frame_Ok Hs Hg. rewrite length_app, length_le_bytes in Hg.
  destruct (read_prefix p Hne Hle) as (Hv & Hz & Hm). unfold read_frame. cbn [coming Assist.answers]. rewrite <-app_assoc.
  destruct (fill_all 4 [] (le_bytes 4 (lenN p) ++ p ++ rest) answers Hs) as (l1 & -> & Hl1 & Hg1);
    [rewrite length_app, length_le_bytes; lia|lia|].
  rewrite take_app_length', drop_app_length' by (by rewrite length_le_bytes). cbn [app coming Assist.answers]. rewrite Hv, Hz, Hm.
  replace (N.to_nat (lenN p)) with (length p) by (unfold lenN; lia).
  destruct (fill_all (length p) [] (p ++ rest) l1 Hl1) as (l2 & -> & Hl2 & Hg2); [rewrite length_app; lia|lia|].
  rewrite take_app_length, drop_app_length. cbn [app]. rewrite (json_roundtrip _ _ Hp).
  exists l2. split_and!; [done|done|]. rewrite length_app, length_le_bytes. lia.
Qed.

(** A stream that ends between frames ends, and inside a frame it is an error. *)
Theorem frame_cut (m : M) bs k answers :
  encode_frame m = Ok bs → steady answers → (k < length bs)%nat → (k < gives answers)%nat →
  (read_frame (M := M) (MkReader (take k bs) answers)).2 = Some (if decide (k = O) then Ok None else Err Io_Eof).
Proof.
  intros (p & Hp & Hne & Hle & ->)%encode_frame_Ok Hs Hk Hg. rewrite length_app, length_le_bytes in Hk.
  destruct (read_prefix p Hne Hle) as (Hv & Hz & Hm). unfold read_frame. cbn [coming Assist.answers].
  assert (length (take k (le_bytes 4 (lenN p) ++ p)) = k) as Hlen by (rewrite length_take, length_app, length_le_bytes; lia).
  destruct (decide (k < 4)%nat) as [H4|H4].
  - destruct (fill_short 4 [] (take k (le_bytes 4 (lenN p) ++ p)) answers Hs) as [r ->]; [lia..|]. cbn [app].
    destruct (take k _) eqn:E; cbn in Hlen; case_decide; cbn; done || lia.
  - rewrite decide_False by lia.
    destruct (fill_all 4 [] (take k (le_bytes 4 (lenN p) ++ p)) answers Hs) as (l1 & -> & Hl1 & Hg1); [lia..|].
    rewrite take_take, Nat.min_l, take_app_length' by (lia || by rewrite length_le_bytes). cbn [app coming Assist.answers].
    rewrite Hv, Hz, Hm.
    destruct (fill_short (N.to_nat (lenN p)) [] (drop 4 (take k (le_bytes 4 (lenN p) ++ p))) l1 Hl1) as [r ->];
      [rewrite length_drop, Hlen; unfold lenN; lia..|done].
Qed.
End frame_facts.

(** Messages that are one byte, so that frames can be read here: a frame that comes
    in three pieces with an interruption, and the end of the stream after it. *)
Module Pieces.
Definition bytes_json : FrameJson N :=
  {| to_json n := if n <? 256 then Some [n] else None; from_json bs := match bs with [n] => Some n | _ => None end |}.
Definition reads : list ReadAnswer := [Gives 2; Interrupted; Gives 1; Gives 9; Gives 9; Gives 9].

Lemma bytes_laws : FrameJsonLaws N (H := bytes_json).
Proof.
  split; intros n bs; cbn; destruct (N.ltb_spec n 256); try done; intros [= <-]; [done..|].
  constructor; [done|constructor].
Qed.

Example in_pieces :
  let frame := le_bytes 4 1 ++ [7] in
  encode_frame (H := bytes_json) 7 = Ok frame
  ∧ read_frame (H := bytes_json) (MkReader frame reads) = (MkReader [] [Gives 9], Some (Ok (Some 7)))
  ∧ (read_frame (H := bytes_json) (MkReader [] [Gives 9])).2 = Some (Ok None).
Proof. vm_compute. done. Qed.
End Pieces.
End Assist.
